(* ===== verification/_CoqProject ===== *)
-Q . S2P
Prelude.v
RustStd.v
Bencode.v
StoreCodec.v
Dlmdb.v
Store.v
StoreValues.v
StoreIndex.v
StoreTransact.v
StoreQuery.v
StoreSlice.v
Token.v
Lexer.v
LexerFacts.v
LexerSpec.v
Form.v
Parser.v
ParserSpec.v
Datum.v
PrintRead.v
PrintForm.v
FormExpand.v
Instant.v
Channel.v
ChannelAsync.v
Ir.v
Reloop.v
ReloopSem.v
ReloopGraph.v
ReloopDom.v
ReloopSpec.v
Gas.v
IrInterp.v
WasmEmit.v
WasmSpec.v
Osr.v
OsrSem.v
OsrSpec.v
OsrLive.v
AsyncLower.v
AsyncSem.v
AsyncSplit.v
AsyncSpec.v
Inline.v
InlineSem.v
InlineSpec.v
InlineTheorems.v
Escape.v
RegionOpt.v
Regionalize.v
RegionOptSpec.v
RegionalizeSpec.v
NativeOps.v
Lower.v
LowerTotal.v
LowerInv.v
LowerSpec.v
LowerTheorems.v
TypeInfer.v
NativeCode.v
NativeSem.v
NativeSpec.v
NativeTheorems.v
NativeTotal.v
Frame.v
FrameSpec.v
PersistentMap.v
PersistentMapSpec.v
PersistentMapRefine.v
PersistentMapExamples.v
Values.v
ValuesSpec.v
Transit.v
TransitSpec.v
Gc.v
GcSpec.v
Region.v
RegionSpec.v
Publish.v
PublishSpec.v
