(* ===== verification/Prelude.v ===== *)
(** * A verification of clojurust

    clojurust is an implementation of Clojure in Rust.  Source text is read by
    a lexer and a parser into forms; the reader macros are expanded on forms;
    forms are evaluated; values are printed back as text.  Around this core
    stand libraries written for it: a Datalog store over an ordered key-value
    database, asynchronous channels, instants, and the bencode codec of the
    nREPL server.  Hot functions are lowered to an intermediate representation,
    optimized by inlining, fusion and region promotion, and interpreted or
    compiled to native code or WebAssembly; values live on a garbage-collected
    heap or in regions that are freed as a whole.  This development models those
    parts as executable definitions, translated from the sources, and proves what
    makes them correct.

    ** Conventions

    Rust results are values of [outcome]: [Ok], [Err], [Panic] for a panic of
    the code and [OutOfFuel], which only loops modelled with fuel can return.
    A theorem that says what a function returns therefore says that it neither
    panics nor runs out of fuel.  Code that threads state is written in the
    monad [stateM] of Prelude.v.  Machine integers are [Z]; arithmetic that can
    overflow is written out, with the build profile as a parameter where the
    outcome depends on it (overflow checks panic in a development build and
    wrap in a release build).  Bytes are [Z] between 0 and 255, characters are
    Unicode scalar values in [Z], strings are lists of characters.

    ** The files

    - Prelude.v: [outcome], [stateM] and its Hoare rules, lemmas on lists.
    - RustStd.v: the parts of the Rust library the sources use: UTF-8,
      big-endian integers, slicing, number parsing and printing.

    The Datalog store (crates/cljrs-datalog-store, crates/cljrs-lmdb):
    - StoreCodec.v: codec.rs, the order-preserving encoding of values.
    - Dlmdb.v: the interface of the database library ([Dlmdb], a class with the
      documented laws), the range iterator and rank counting of
      cljrs-lmdb/src/lib.rs, [prefix_successor] of the store, and an instance
      of the interface by sorted lists.
    - Store.v: lib.rs of the store: [intern_attr], [transact], [search],
      [count], [sample_ave], [slice], [count_range], [open_store] and what they
      call.  [sha256] and the overflow checks are the class [Platform].
    - StoreValues.v, StoreIndex.v: stored values and index keys determine each
      other; puts and deletes of datoms in the three indexes.
    - StoreTransact.v: a store represents a set of datoms ([holds]);
      [transact] refines the specification [apply_ops] of the operations on
      sets; declaring attributes and reopening keep the set.
    - StoreQuery.v, StoreSlice.v: searches, counts, samples and slices against
      the set of datoms; the theorems at a concrete store, and two behaviours
      that contradict the documentation.

    The reader (crates/cljrs-reader):
    - Token.v, Form.v: token.rs, form.rs, and [Span] of crates/cljrs-types.
    - Lexer.v, Parser.v: lexer.rs and parser.rs, with the position, line and
      column of every token and error.
    - LexerFacts.v, LexerSpec.v: each call of [next_token] returns and is
      located exactly, but for one literal whose newline is not counted, and
      panics on the literals of [token_panics] alone.
    - ParserSpec.v: [parse_all] is total and returns well-formed forms.

    Forms and values:
    - Datum.v: symbols, keywords, the printer [pr_str] (crates/cljrs-value) and
      [value_to_form] (crates/cljrs-interp/src/macros.rs) on data.
    - PrintRead.v, PrintForm.v: reading what was printed gives the form back.
    - FormExpand.v: crates/cljrs-builtins/src/form.rs: anonymous functions,
      reader conditionals and tagged literals.

    Libraries:
    - Transit.v: the transit codec of pods, crates/cljrsh-pods/src/transit.rs;
      TransitSpec.v: what is encoded decodes to itself.
    - Bencode.v: crates/cljrs-bencode and the decode loop of
      crates/cljrs-nrepl/src/server.rs: the codec round trip, incremental
      decoding and independence from chunking.
    - Instant.v: crates/cljrs-types/src/instant.rs.
    - Channel.v: crates/cljrs-async/src/channel.rs as interleaved atomic steps
      of tasks: a rendezvous delivers exactly once, a buffered channel is a
      bounded queue.
    - ChannelAsync.v: the notifications that wake parked tasks, and three ways
      in which a task is left parked.

    Compilation (crates/cljrs-ir, cljrs-compiler, cljrs-eval, cljrs-env):
    - Ir.v: the intermediate representation of crates/cljrs-ir/src/lib.rs.
    - Reloop.v: crates/cljrs-compiler/src/wasm/reloop.rs, from a control-flow
      graph to structured control flow.  ReloopSem.v gives both the graph and
      the tree a meaning over an arbitrary [Machine] and a syntax-directed
      relation between them; ReloopGraph.v and ReloopDom.v show
      what the depth-first order and the iterated dominators compute;
      ReloopSpec.v concludes that the tree of a reducible graph is well scoped
      and has exactly its runs, and applies it to a loop.
    - Gas.v: crates/cljrs-env/src/gas.rs, charging nested execution budgets.
    - IrInterp.v: crates/cljrs-eval/src/ir_interp.rs, its block loop and every
      instruction over a host that has the values and the functions of the
      runtime: a metered evaluation ends, and when resolving
      phis one by one is the parallel copy, with a function where it is not.
    - WasmEmit.v: the control flow of crates/cljrs-compiler/src/wasm/emit.rs
      with an evaluator of the emitted code; WasmSpec.v: the code returns what
      the graph returns when phis stand in merge blocks entered by jumps; the
      loop and the short circuit where they do not, and the code differs from
      the graph.
    - Osr.v: crates/cljrs-ir/src/osr.rs, the variant of a function that native
      code enters at a loop header.  OsrSem.v runs graphs over registers that
      may be unset; OsrSpec.v: entering the variant never gives a wrong result,
      and it is always built within one step per block; OsrLive.v: its live-ins
      are enough, so it continues the interpreter's run, when the loop assigns
      nothing that is defined at its header; a loop, and the nested loop whose
      variant reads an unset register.
    - Lower.v: crates/cljrs-ir/src/lower/context.rs, known.rs and anf.rs, from
      forms to the intermediate representation.  LowerTotal.v: lowering ends;
      LowerInv.v: the plan of a function under construction, which gives each block
      its dominators, and what blocks that follow the plan read and where they go;
      LowerSpec.v: the builder's invariant and the rules of code that keeps it;
      LowerTheorems.v: every form is lowered by such code, so that lowered
      functions are in strict SSA form and their control flow is reducible.
    - Inline.v: crates/cljrs-ir/src/lower/inline.rs.  InlineSem.v runs the
      functions of a unit on a stack of frames; InlineSpec.v: replacing one call
      keeps every run step by step; InlineTheorems.v: the whole pass, and four
      units it is wrong about.
    - Escape.v: crates/cljrs-ir/src/lower/escape.rs; RegionOpt.v: optimize.rs,
      dominators, the regions of allocations that do not escape, fusion, and the
      regions of whole functions; Regionalize.v: regionalize.rs and the order of
      the passes.  RegionOptSpec.v: dominators are dominators and, where the
      analysis records the reads of all instructions, an allocation in a region does
      not leave the function, and in a function without loops its region is open
      where it is used; RegionalizeSpec.v: the optimizer ends, what is moved with a
      returned allocation is held by it and by what ends before it, and functions for
      which the emitted regions are wrong.
    - AsyncLower.v: crates/cljrs-ir/src/lower/async_lower.rs.  AsyncSem.v: awaiting
      in a function, and the state machine and task that run its poll function
      (crates/cljrs-async/src/state_machine.rs and bridges of rt_abi.rs).
      AsyncSplit.v: what the lowering builds and its liveness; AsyncSpec.v: lowering
      ends, the poll function is never wrong and equivalent when what it saves is
      defined.
    - TypeInfer.v: typeinfer.rs, representations of variables; NativeOps.v: bridges
      of rt_abi.rs and the machine instructions that replace them; NativeCode.v:
      codegen.rs.  NativeSem.v runs compiled and boxed code; NativeSpec.v and
      NativeTheorems.v: compiled code refines the boxed run; NativeTotal.v: the
      generator accepts every function of the fragment.

    Memory (crates/cljrs-gc, cljrs-value):
    - Gc.v: lib.rs and stack_scan.rs, the heap of a thread with its collections;
      GcSpec.v: a collection keeps exactly what can be reached and
      its grace period, and no program that keeps what it holds reachable at every
      other collection follows a pointer to a freed box.
    - Region.v: region.rs and the regions of compiled code; RegionSpec.v: memory
      handed out is inside, aligned and unused, and the poison watermark is a flag
      per region.
    - Publish.v: clone.rs and publish.rs; PublishSpec.v: a published value never
      points into a dropped region, and where the barrier looks too little.

    Streams and collections (crates/cljrs-net, cljrs-value):
    - Frame.v: the framers and encoders of crates/cljrs-net/src/frame.rs;
      FrameSpec.v: the framing task is insensitive to chunking (for every
      framer that satisfies the class FramerLaws, with the three instances),
      frames round trip, and the buffer of the length-prefixed framer is
      bounded.  The loops run on the length of the buffer (each frame takes at
      least its delimiter; a length-prefixed frame takes two steps and may be
      empty only after its header).
    - PersistentMap.v: crates/cljrs-value/src/collections/array_map.rs,
      hash_map.rs, hash_set.rs and the map values of value.rs, over the classes
      HashTrieMap and RedBlackTreeMap that state what the rpds crate provides.
      PersistentMapSpec.v: ordered entries and the two representations;
      PersistentMapRefine.v: every history of updates refines the ordered
      entries, equality is extensional; PersistentMapExamples.v: instances of
      the classes and a map that is promoted.
    - Values.v: equality and hashing of runtime values
      (crates/cljrs-value/src/value.rs, hash.rs).  A comparison runs on the sum
      of the sizes of its arguments, and more fuel changes nothing.
      ValuesSpec.v: a code of values that equality compares and that determines
      the hash; the equivalence, the hash contract, the
      instance of the key interface of PersistentMap.v, and the values for
      which they fail.

    ** Fuel

    The lexer and parser loops take the number of characters of the source (the
    parser: a bound on the tokens left), and the totality theorems show that
    this is enough: [OutOfFuel] is excluded from their results.  The range
    iterator and the descending slice take the number of entries of the table,
    which [range_spec] and the slice theorems show to be enough.  Decoders take
    the number of bytes left.  The depth-first order of the relooper takes
    three steps for each block and one, the dominators a quadratic number of
    passes (a reducible graph needs two), the structuring recursion as many
    levels as there are blocks; [reloop_tree] shows that these suffice.
    Representation inference takes twice the number of destinations, the
    liveness of asynchronous functions the number of blocks times the number of
    reads, the marking of the collector the number of boxes; their totality
    lemmas show that this is enough.  Of the optimizer, the walks over a graph
    take one step for each edge (two when a block is visited before and after
    its successors), the dominators the square of the number of blocks, the
    worklists over uses as many steps as the uses can push variables, the
    summaries of callees one level for each registered function; the loop of
    the inliner walks a list that grows, takes its fuel as an argument and ends
    for the units of its theorem.  [optimizer_ends] shows that the others
    suffice for every function.  Lowering takes the depth of nested calls: the
    weight of a form counts its nesting, with an allowance for each map in a list,
    whose conditions are moved into new forms; [lowering_ends] shows that it
    suffices.  The interpreter and the emitted code may run for
    ever: their theorems say for which fuel they end, or relate the ends of two
    runs in both directions.

    ** Not modelled

    The tree-walking evaluator with its environments, the builtins, the numeric
    tower, the driver of the native compiler and the JIT, networking, the language
    server and the host integrations are not modelled; the manifest lists them
    with reasons.
    Most of them are operations on the whole universe of runtime values, or glue
    around libraries.  Of the modelled parts: line and column counters and the
    counters of variables and blocks of the passes after lowering are unbounded
    (u32 in the code; lowering panics past the maximum); locks are
    taken as granted, so the store's operations are sequential; [heap_size] of
    forms and values depends on the allocator; the runtime values without a
    literal syntax are not part of [Value] in Datum.v; timeouts and [alts] of
    channels are left out; in the native compiler, single bridges other than
    arithmetic, comparison and truth are parameters of the machine.

    ** Further work

    A model of the evaluator would give forms a meaning that lowered functions
    could be compared with; a semantics of regions for the intermediate representation
    would turn [region_open_at_uses] into a statement about runs and extend it
    to functions with loops once the regions of loops are right. *)
From stdpp Require Export prelude.
From Stdlib Require Export ZArith Lia.

(** * Results of Rust computations *)

(** The outcome of running Rust code: a normal return [Ok], the [Err] of a
    Rust [Result], a panic, or (only for loops modelled with fuel) running out
    of the fuel supplied. *)
Inductive outcome (E A : Type) : Type :=
| Ok (a : A)
| Err (e : E)
| Panic
| OutOfFuel.

Arguments Ok {E A} a.
Arguments Err {E A} e.
Arguments Panic {E A}.
Arguments OutOfFuel {E A}.

#[export] Instance outcome_ret (E : Type) : MRet (outcome E) := fun A a => Ok a.

#[export] Instance outcome_bind (E : Type) : MBind (outcome E) := fun A B k m =>
  match m with
  | Ok a => k a
  | Err e => Err e
  | Panic => Panic
  | OutOfFuel => OutOfFuel
  end.

(** Code that mutates a receiver of type [S]: the state survives an [Err], as
    it does behind a [&mut self]. *)
Definition stateM (S E A : Type) : Type := S -> outcome E A * S.

#[export] Instance stateM_ret (S E : Type) : MRet (stateM S E) := fun A a s => (Ok a, s).

#[export] Instance stateM_bind (S E : Type) : MBind (stateM S E) := fun A B k m s =>
  match m s with
  | (Ok a, s') => k a s'
  | (Err e, s') => (Err e, s')
  | (Panic, s') => (Panic, s')
  | (OutOfFuel, s') => (OutOfFuel, s')
  end.

(** The postcondition of an outcome: what holds of an [Ok] value; errors are
    allowed, running out of fuel is not. *)
Definition total_post {E A : Type} (P : A -> Prop) (r : outcome E A) : Prop :=
  match r with
  | Ok a => P a
  | Err _ => True
  | Panic => False
  | OutOfFuel => False
  end.

(** Reading and updating the receiver, and running code that does not touch it. *)
Definition gets {S E A : Type} (f : S -> A) : stateM S E A := fun s => (Ok (f s), s).

Definition modify {S E : Type} (f : S -> S) : stateM S E unit := fun s => (Ok tt, f s).

Definition lift {S E A : Type} (o : outcome E A) : stateM S E A := fun s => (o, s).

(** [for x in l { f(x)?; }] *)
Fixpoint for_each {S E A : Type} (f : A -> stateM S E unit) (l : list A) : stateM S E unit :=
  match l with
  | [] => mret tt
  | x :: l' => f x ;; for_each f l'
  end.

(** * Filters *)

Section Filters.
Context {A : Type}.
Implicit Types (l : list A).

Lemma filter_none (P : A -> Prop) `{forall x, Decision (P x)} l :
  (forall x, x ∈ l -> ~ P x) -> filter P l = [].
Proof.
  induction l as [|x l IH]; intros Hl; [done|]. rewrite filter_cons_False by (apply Hl; by left).
  apply IH. intros y Hy. apply Hl. by right.
Qed.

Lemma filter_all (P : A -> Prop) `{forall x, Decision (P x)} l :
  (forall x, x ∈ l -> P x) -> filter P l = l.
Proof.
  induction l as [|x l IH]; intros Hl; [done|]. rewrite filter_cons_True by (apply Hl; by left).
  f_equal. apply IH. intros y Hy. apply Hl. by right.
Qed.

Lemma filter_ext_in (P Q : A -> Prop) `{forall x, Decision (P x)} `{forall x, Decision (Q x)} l :
  (forall x, x ∈ l -> P x <-> Q x) -> filter P l = filter Q l.
Proof.
  induction l as [|x l IH]; intros Hl; [done|]. pose proof (Hl x ltac:(by left)) as Hx.
  assert (filter P l = filter Q l) as E by (apply IH; intros y Hy; apply Hl; by right).
  rewrite !filter_cons, E. repeat case_decide; tauto.
Qed.

(** A filter by a disjoint disjunction counts both parts. *)
Lemma length_filter_disjoint (P Q R : A -> Prop)
    `{forall x, Decision (P x)} `{forall x, Decision (Q x)} `{forall x, Decision (R x)} l :
  (forall x, x ∈ l -> P x <-> Q x \/ R x) -> (forall x, x ∈ l -> Q x -> ~ R x) ->
  length (filter P l) = (length (filter Q l) + length (filter R l))%nat.
Proof.
  induction l as [|x l IH]; intros HP Hd; [done|].
  assert (IHl : length (filter P l) = (length (filter Q l) + length (filter R l))%nat).
  { apply IH; intros y Hy; [apply HP | apply Hd]; by right. }
  pose proof (HP x ltac:(by left)) as HPx. pose proof (Hd x ltac:(by left)) as Hdx.
  rewrite !filter_cons. repeat case_decide; simpl; rewrite ?IHl; try lia; tauto.
Qed.
End Filters.

(** * Postconditions of stateful code *)

(** [hoare m s Q R]: from [s], [m] returns a value satisfying [Q] or an error
    satisfying [R], with the state it leaves; it does not panic. *)
Definition hoare {S E A : Type} (m : stateM S E A) (s : S) (Q : A -> S -> Prop) (R : E -> S -> Prop) : Prop :=
  match m s with
  | (Ok a, s') => Q a s'
  | (Err e, s') => R e s'
  | (Panic, _) | (OutOfFuel, _) => False
  end.

Section Hoare.
Context {S E : Type}.
Implicit Types (s : S) (R : E -> S -> Prop).

Lemma hoare_ret {A : Type} (a : A) s (Q : A -> S -> Prop) R : Q a s -> hoare (mret a) s Q R.
Proof. done. Qed.

Lemma hoare_bind {A B : Type} (m : stateM S E A) (k : A -> stateM S E B) s Q R :
  hoare m s (fun a s' => hoare (k a) s' Q R) R -> hoare (m ≫= k) s Q R.
Proof. unfold hoare, mbind, stateM_bind. by destruct (m s) as [[a|e| |] s']. Qed.

Lemma hoare_consequence {A : Type} (m : stateM S E A) s (Q Q' : A -> S -> Prop) (R R' : E -> S -> Prop) :
  hoare m s Q R -> (forall a s', Q a s' -> Q' a s') -> (forall e s', R e s' -> R' e s') -> hoare m s Q' R'.
Proof. unfold hoare. destruct (m s) as [[a|e| |] s']; auto. Qed.

Lemma hoare_gets {A : Type} (f : S -> A) s (Q : A -> S -> Prop) R : Q (f s) s -> hoare (gets f) s Q R.
Proof. done. Qed.

Lemma hoare_modify (f : S -> S) s (Q : unit -> S -> Prop) R : Q tt (f s) -> hoare (modify f) s Q R.
Proof. done. Qed.

Lemma hoare_lift_ok {A : Type} (o : outcome E A) (a : A) s (Q : A -> S -> Prop) R :
  o = Ok a -> Q a s -> hoare (lift o) s Q R.
Proof. by intros ->. Qed.

(** A loop with an invariant on the elements still to come. *)
Lemma hoare_for_each {A : Type} (f : A -> stateM S E unit) (I : list A -> S -> Prop) l s R :
  (forall x l' s, I (x :: l') s -> hoare (f x) s (fun _ s' => I l' s') R) ->
  I l s -> hoare (for_each f l) s (fun _ s' => I [] s') R.
Proof.
  intros Hf. revert s. induction l as [|x l IH]; intros s HI; [done|].
  apply hoare_bind. eapply hoare_consequence; [by apply Hf | | done]. intros [] s' HI'. by apply IH.
Qed.
End Hoare.
