(* ===== verification/RustStd.v ===== *)
(** The parts of the Rust standard library the modelled code calls: integer
    ranges, decimal printing and parsing, radix digits, big-endian bytes,
    UTF-8, lexicographic comparison of byte strings and ordered maps.

    Bytes, characters and machine integers are [Z]; a [char] is its scalar
    value and a [String] the list of its characters. *)
From stdpp Require Import strings.
From S2P Require Import Prelude.
Local Open Scope Z_scope.

(** The characters of an ASCII string literal. *)
Definition lit (s : string) : list Z :=
  (fun a => Z.of_N (Ascii.N_of_ascii a)) <$> String.list_ascii_of_string s.

(** * Integer ranges *)

Definition u8_max : Z := 2 ^ 8 - 1.
Definition u32_max : Z := 2 ^ 32 - 1.
Definition u64_max : Z := 2 ^ 64 - 1.
Definition u128_max : Z := 2 ^ 128 - 1.
Definition i64_min : Z := - 2 ^ 63.
Definition i64_max : Z := 2 ^ 63 - 1.
Definition usize_max : Z := u64_max.

Definition in_range (lo hi n : Z) : bool := (lo <=? n) && (n <=? hi).

(** Wrap-around conversion to [u64], to [u128] and to [i64] ([as u64], ...). *)
Definition wrap_u32 (n : Z) : Z := n mod 2 ^ 32.
Definition wrap_u64 (n : Z) : Z := n mod 2 ^ 64.
Definition wrap_u128 (n : Z) : Z := n mod 2 ^ 128.
Definition wrap_i64 (n : Z) : Z := (n + 2 ^ 63) mod 2 ^ 64 - 2 ^ 63.

Definition is_byte (b : Z) : Prop := 0 <= b < 256.
Definition is_i64 (n : Z) : Prop := i64_min <= n <= i64_max.
Definition is_u64 (n : Z) : Prop := 0 <= n <= u64_max.

(** * Digits: [char::is_ascii_digit], [char::to_digit], [from_str_radix] *)

Definition is_ascii_digit (c : Z) : bool := in_range 48 57 c.

Definition is_ascii_hexdigit (c : Z) : bool :=
  in_range 48 57 c || in_range 97 102 c || in_range 65 70 c.

Definition is_ascii_alphanumeric (c : Z) : bool :=
  in_range 48 57 c || in_range 97 122 c || in_range 65 90 c.

(** [char::to_digit] for a radix in [2..=36] (it panics outside). *)
Definition to_digit (radix c : Z) : option Z :=
  let d := if in_range 48 57 c then c - 48
           else if in_range 97 122 c then c - 87
           else if in_range 65 90 c then c - 55
           else 36 in
  if d <? radix then Some d else None.

Fixpoint digits_value (radix acc : Z) (s : list Z) : option Z :=
  match s with
  | [] => Some acc
  | c :: t =>
      match to_digit radix c with
      | Some d => digits_value radix (acc * radix + d) t
      | None => None
      end
  end.

(** [T::from_str_radix] for an integer type with range [lo..=hi]: an optional
    sign ([-] only for a signed type), at least one digit, no overflow. *)
Definition from_str_radix (lo hi radix : Z) (s : list Z) : option Z :=
  let '(neg, ds) :=
    match s with
    | c :: t => if c =? 43 then (false, t)
                else if (c =? 45) && (lo <? 0) then (true, t)
                else (false, s)
    | [] => (false, s)
    end in
  match ds with
  | [] => None
  | _ =>
      match digits_value radix 0 ds with
      | None => None
      | Some v => let n := if neg : bool then - v else v in
                  if in_range lo hi n then Some n else None
      end
  end.

Definition parse_i64 (s : list Z) : option Z := from_str_radix i64_min i64_max 10 s.
Definition parse_usize (s : list Z) : option Z := from_str_radix 0 usize_max 10 s.
Definition parse_u32 (s : list Z) : option Z := from_str_radix 0 u32_max 10 s.

(** * Decimal printing: [to_string] on integers *)

Fixpoint udec_fuel (fuel : nat) (n : Z) : list Z :=
  match fuel with
  | O => []
  | S f => if n <? 10 then [48 + n] else udec_fuel f (n / 10) ++ [48 + n mod 10]
  end.

Definition udec (n : Z) : list Z := udec_fuel (S (Z.to_nat (Z.log2 n))) n.

Definition to_string (n : Z) : list Z :=
  if n <? 0 then 45 :: udec (- n) else udec n.

(** * Big-endian bytes: [to_be_bytes], [from_be_bytes] *)

Fixpoint to_be_bytes (k : nat) (n : Z) : list Z :=
  match k with
  | O => []
  | S k' => (n / 256 ^ Z.of_nat k') mod 256 :: to_be_bytes k' n
  end.

Definition from_be_bytes (b : list Z) : Z := fold_left (fun acc x => acc * 256 + x) b 0.

(** * Slices: [&s[a..b]], which panics outside [a <= b <= s.len()] *)

Definition index_range {E A : Type} (s : list A) (a b : nat) : outcome E (list A) :=
  if (a <=? b)%nat && (b <=? length s)%nat then Ok (take (b - a) (drop a s)) else Panic.

(** * UTF-8 *)

(** Unicode scalar values: what a [char] can be. *)
Definition is_scalar (c : Z) : bool := in_range 0 0xD7FF c || in_range 0xE000 0x10FFFF c.

(** [char::len_utf8]. *)
Definition len_utf8 (c : Z) : nat :=
  if c <? 0x80 then 1 else if c <? 0x800 then 2 else if c <? 0x10000 then 3 else 4.

(** [char::encode_utf8]. *)
Definition utf8_encode_char (c : Z) : list Z :=
  if c <? 0x80 then [c]
  else if c <? 0x800 then [0xC0 + c / 64; 0x80 + c mod 64]
  else if c <? 0x10000 then [0xE0 + c / 4096; 0x80 + (c / 64) mod 64; 0x80 + c mod 64]
  else [0xF0 + c / 262144; 0x80 + (c / 4096) mod 64; 0x80 + (c / 64) mod 64; 0x80 + c mod 64].

(** [String::as_bytes]. *)
Definition utf8_encode (s : list Z) : list Z := s ≫= utf8_encode_char.

Definition is_cont (b : Z) : bool := in_range 0x80 0xBF b.

(** [str::from_utf8]: the characters, or [None] when the bytes are not UTF-8. *)
Fixpoint utf8_decode (b : list Z) : option (list Z) :=
  match b with
  | [] => Some []
  | b0 :: t =>
      if in_range 0 0x7F b0 then cons b0 <$> utf8_decode t
      else match t with
      | [] => None
      | b1 :: t1 =>
          if in_range 0xC0 0xDF b0 then
            let c := (b0 - 0xC0) * 64 + (b1 - 0x80) in
            if is_cont b1 && (0x80 <=? c) then cons c <$> utf8_decode t1 else None
          else match t1 with
          | [] => None
          | b2 :: t2 =>
              if in_range 0xE0 0xEF b0 then
                let c := (b0 - 0xE0) * 4096 + (b1 - 0x80) * 64 + (b2 - 0x80) in
                if is_cont b1 && is_cont b2 && (0x800 <=? c) && is_scalar c
                then cons c <$> utf8_decode t2 else None
              else match t2 with
              | [] => None
              | b3 :: t3 =>
                  if in_range 0xF0 0xF7 b0 then
                    let c := (b0 - 0xF0) * 262144 + (b1 - 0x80) * 4096
                             + (b2 - 0x80) * 64 + (b3 - 0x80) in
                    if is_cont b1 && is_cont b2 && is_cont b3 && (0x10000 <=? c) && is_scalar c
                    then cons c <$> utf8_decode t3 else None
                  else None
              end
          end
      end
  end.

(** * Lexicographic order: [Ord] on [[u8]] and [str] *)

Fixpoint lex_compare (a b : list Z) : comparison :=
  match a, b with
  | [], [] => Eq
  | [], _ :: _ => Lt
  | _ :: _, [] => Gt
  | x :: a', y :: b' =>
      match x ?= y with
      | Eq => lex_compare a' b'
      | c => c
      end
  end.

(** * [BTreeMap] with byte-string keys: the sorted association list *)

Fixpoint bt_insert {V : Type} (k : list Z) (v : V) (m : list (list Z * V)) : list (list Z * V) :=
  match m with
  | [] => [(k, v)]
  | (k', v') :: m' =>
      match lex_compare k k' with
      | Lt => (k, v) :: m
      | Eq => (k', v) :: m'
      | Gt => (k', v') :: bt_insert k v m'
      end
  end.

Fixpoint bt_get {V : Type} (k : list Z) (m : list (list Z * V)) : option V :=
  match m with
  | [] => None
  | (k', v') :: m' => match lex_compare k k' with Eq => Some v' | _ => bt_get k m' end
  end.

(** Strictly increasing keys. *)
Fixpoint bt_sorted {V : Type} (m : list (list Z * V)) : Prop :=
  match m with
  | [] => True
  | (k, _) :: m' => (forall k' v', (k', v') ∈ m' -> lex_compare k k' = Lt) /\ bt_sorted m'
  end.

(** * Lemmas *)

Lemma in_range_true lo hi n : in_range lo hi n = true <-> lo <= n <= hi.
Proof. unfold in_range. rewrite andb_true_iff, !Z.leb_le. lia. Qed.

Lemma in_range_false lo hi n : in_range lo hi n = false <-> n < lo \/ hi < n.
Proof. unfold in_range. rewrite andb_false_iff, !Z.leb_gt. lia. Qed.

(** Case analysis on the boolean tests of the model, closed by [lia]. *)
Ltac zbool := unfold is_cont, is_scalar, is_ascii_digit, in_range in *; lia.

(** Boolean comparisons in the hypotheses as propositions. *)
Ltac bool_hyps :=
  repeat match goal with
  | H : (_ <? _) = true |- _ => apply Z.ltb_lt in H
  | H : (_ <? _) = false |- _ => apply Z.ltb_ge in H
  | H : (_ <=? _) = true |- _ => apply Z.leb_le in H
  | H : (_ <=? _) = false |- _ => apply Z.leb_gt in H
  | H : (_ =? _) = true |- _ => apply Z.eqb_eq in H
  | H : (_ =? _) = false |- _ => apply Z.eqb_neq in H
  | H : (_ <? _)%nat = true |- _ => apply Nat.ltb_lt in H
  | H : (_ <? _)%nat = false |- _ => apply Nat.ltb_ge in H
  | H : (_ <=? _)%nat = true |- _ => apply Nat.leb_le in H
  | H : (_ <=? _)%nat = false |- _ => apply Nat.leb_gt in H
  | H : (_ =? _)%nat = true |- _ => apply Nat.eqb_eq in H
  | H : (_ =? _)%nat = false |- _ => apply Nat.eqb_neq in H
  | H : in_range _ _ _ = true |- _ => apply in_range_true in H
  | H : in_range _ _ _ = false |- _ => apply in_range_false in H
  end.

Ltac case_if :=
  match goal with
  | |- context [if ?b then _ else _] => let E := fresh "E" in destruct b eqn:E
  end.

(** ** Decimal *)

Lemma digits_value_app r acc a b :
  digits_value r acc (a ++ b) =
  match digits_value r acc a with
  | Some v => digits_value r v b
  | None => None
  end.
Proof.
  revert acc. induction a as [|c a IH]; intros acc; simpl; [done|].
  destruct (to_digit r c); [apply IH | done].
Qed.

Lemma to_digit_dec d : 0 <= d < 10 -> to_digit 10 (48 + d) = Some d.
Proof.
  intros Hd. unfold to_digit.
  replace (in_range 48 57 (48 + d)) with true by zbool.
  replace (48 + d - 48) with d by lia.
  destruct (Z.ltb_spec d 10); [done | lia].
Qed.

Lemma udec_fuel_value f n :
  0 <= n < 2 ^ Z.of_nat (S f) -> digits_value 10 0 (udec_fuel (S f) n) = Some n.
Proof.
  revert n. induction f as [|f IH]; intros n Hn.
  - simpl. destruct (Z.ltb_spec n 10); [| simpl in Hn; lia].
    simpl. by rewrite to_digit_dec by lia.
  - change (udec_fuel (S (S f)) n) with
      (if n <? 10 then [48 + n] else udec_fuel (S f) (n / 10) ++ [48 + n mod 10]).
    destruct (Z.ltb_spec n 10).
    + simpl. by rewrite to_digit_dec by lia.
    + assert (0 <= n mod 10 < 10) by (apply Z.mod_pos_bound; lia).
      rewrite digits_value_app, IH.
      * simpl. rewrite to_digit_dec by lia. f_equal. pose proof (Z.div_mod n 10). lia.
      * rewrite Nat2Z.inj_succ, Z.pow_succ_r in Hn by lia.
        split; [apply Z.div_pos; lia | apply Z.div_lt_upper_bound; lia].
Qed.

Lemma udec_value n : 0 <= n -> digits_value 10 0 (udec n) = Some n.
Proof.
  intros Hn. apply udec_fuel_value. split; [done|].
  destruct (decide (n = 0)) as [->|]; [reflexivity|].
  rewrite Nat2Z.inj_succ, Z2Nat.id by apply Z.log2_nonneg.
  apply Z.log2_spec. lia.
Qed.

Lemma udec_fuel_digits f n :
  0 <= n -> Forall (fun c => is_ascii_digit c = true) (udec_fuel f n).
Proof.
  revert n. induction f as [|f IH]; intros n Hn; simpl; [done|].
  assert (0 <= n mod 10 < 10) by (apply Z.mod_pos_bound; lia).
  destruct (Z.ltb_spec n 10).
  - constructor; [zbool | done].
  - apply Forall_app. split; [apply IH, Z.div_pos; lia | constructor; [zbool | done]].
Qed.

Lemma udec_digits n : 0 <= n -> Forall (fun c => is_ascii_digit c = true) (udec n).
Proof. apply udec_fuel_digits. Qed.

Lemma udec_cons n : 0 <= n -> exists c t, udec n = c :: t /\ is_ascii_digit c = true.
Proof.
  intros Hn. pose proof (udec_digits n Hn) as HF. pose proof (udec_value n Hn) as Hv.
  destruct (udec n) as [|c t] eqn:E.
  - unfold udec in E. simpl in E. destruct (n <? 10); [done|]. by destruct (udec_fuel _ _).
  - exists c, t. split; [done|]. by inversion HF.
Qed.

Lemma from_str_radix_digits lo hi s v :
  lo <= v <= hi ->
  digits_value 10 0 s = Some v -> Forall (fun c => is_ascii_digit c = true) s -> s <> [] ->
  from_str_radix lo hi 10 s = Some v.
Proof.
  intros Hr Hv HF Hne. destruct s as [|c t]; [done|].
  pose proof (Forall_inv HF) as Hc. simpl in Hc.
  unfold from_str_radix.
  replace (c =? 43) with false by zbool. replace (c =? 45) with false by zbool.
  cbv [andb]. rewrite Hv. by replace (in_range lo hi v) with true by zbool.
Qed.

Lemma to_digit_bound radix c d : 0 < radix <= 36 -> to_digit radix c = Some d -> 0 <= d < radix.
Proof.
  intros Hr. unfold to_digit. repeat case_if; bool_hyps; intros [= <-]; lia.
Qed.

(** Digits of the radix have a value below [radix ^ length]. *)
Lemma digits_value_some radix acc s :
  2 <= radix <= 36 -> 0 <= acc -> Forall (fun c => is_Some (to_digit radix c)) s ->
  exists v, digits_value radix acc s = Some v /\ 0 <= v < (acc + 1) * radix ^ Z.of_nat (length s).
Proof.
  intros Hr Ha HF. revert acc Ha. induction HF as [|c s [d Hd] _ IH]; intros acc Ha.
  - exists acc. simpl. split; [done | lia].
  - cbn [digits_value length]. rewrite Hd. pose proof (to_digit_bound radix c d ltac:(lia) Hd).
    destruct (IH (acc * radix + d)) as (v & -> & Hv); [nia|]. exists v. split; [done|].
    rewrite Nat2Z.inj_succ, Z.pow_succ_r by lia.
    assert (0 < radix ^ Z.of_nat (length s)) by (apply Z.pow_pos_nonneg; lia). nia.
Qed.

Lemma digits_value_nonneg radix acc s v :
  0 < radix <= 36 -> 0 <= acc -> digits_value radix acc s = Some v -> 0 <= v.
Proof.
  intros Hr. revert acc. induction s as [|c s IH]; intros acc Ha; simpl; [by intros [= <-]|].
  destruct (to_digit radix c) as [d|] eqn:E; [|done]. apply to_digit_bound in E; [|done].
  apply IH. nia.
Qed.

(** [from_str_radix] accepts digits that cannot overflow. *)
Lemma from_str_radix_some lo hi radix s :
  lo = 0 -> 2 <= radix <= 36 -> s <> [] -> Forall (fun c => is_Some (to_digit radix c)) s ->
  radix ^ Z.of_nat (length s) - 1 <= hi ->
  exists v, from_str_radix lo hi radix s = Some v /\ 0 <= v < radix ^ Z.of_nat (length s).
Proof.
  intros -> Hr Hne HF Hhi. destruct (digits_value_some radix 0 s) as (v & Hv & Hb); [lia | lia | done |].
  exists v. rewrite Z.mul_1_l in Hb. split; [|done]. destruct s as [|c s]; [done|].
  assert (Hc : is_Some (to_digit radix c)) by (by inversion HF). unfold from_str_radix.
  destruct (Z.eqb_spec c 43) as [->|].
  { exfalso. unfold to_digit in Hc. simpl in Hc. destruct Hc as [d Hc]. revert Hc.
    destruct (Z.ltb_spec 36 radix); [lia | done]. }
  rewrite andb_false_r. rewrite Hv. by replace (in_range 0 hi v) with true by zbool.
Qed.

Lemma hexdigit_to_digit c : is_ascii_hexdigit c = true -> is_Some (to_digit 16 c).
Proof.
  unfold is_ascii_hexdigit, to_digit. rewrite !orb_true_iff, !in_range_true. intros H.
  destruct (in_range 48 57 c) eqn:?, (in_range 97 122 c) eqn:?, (in_range 65 90 c) eqn:?;
    case_if; bool_hyps; eauto; lia.
Qed.

Lemma from_str_radix_udec lo hi n :
  lo <= n <= hi -> 0 <= n -> from_str_radix lo hi 10 (udec n) = Some n.
Proof.
  intros Hr Hn. apply from_str_radix_digits; auto using udec_value, udec_digits.
  destruct (udec_cons n Hn) as (c & t & -> & _). done.
Qed.

Lemma from_str_radix_to_string lo hi n :
  lo <= n <= hi -> (n < 0 -> lo < 0) -> from_str_radix lo hi 10 (to_string n) = Some n.
Proof.
  intros Hr Hs. unfold to_string. destruct (Z.ltb_spec n 0).
  - unfold from_str_radix. simpl (45 =? 43). simpl (45 =? 45).
    replace (lo <? 0) with true by lia. cbv [andb].
    destruct (udec_cons (- n)) as (c & t & E & _); [lia|]. rewrite E.
    rewrite <- E, udec_value by lia. rewrite Z.opp_involutive.
    by replace (in_range lo hi n) with true by zbool.
  - by apply from_str_radix_udec.
Qed.

Lemma parse_i64_to_string n : is_i64 n -> parse_i64 (to_string n) = Some n.
Proof. intros H. apply from_str_radix_to_string; [exact H | done]. Qed.

Lemma parse_usize_udec n : 0 <= n <= usize_max -> parse_usize (udec n) = Some n.
Proof. intros H. apply from_str_radix_udec; lia. Qed.

(** ** Big-endian bytes *)

Lemma length_to_be_bytes k n : length (to_be_bytes k n) = k.
Proof. induction k; simpl; congruence. Qed.

Lemma to_be_bytes_bytes k n : Forall is_byte (to_be_bytes k n).
Proof.
  induction k; simpl; constructor; auto. unfold is_byte. apply Z.mod_pos_bound. lia.
Qed.

Lemma fold_be_to_be k n acc :
  fold_left (fun acc x => acc * 256 + x) (to_be_bytes k n) acc =
  acc * 256 ^ Z.of_nat k + n mod 256 ^ Z.of_nat k.
Proof.
  revert acc. induction k as [|k IH]; intros acc.
  - simpl. rewrite Z.mod_1_r. lia.
  - cbn [to_be_bytes fold_left]. rewrite IH, Nat2Z.inj_succ, Z.pow_succ_r by lia.
    assert (0 < 256 ^ Z.of_nat k) by (apply Z.pow_pos_nonneg; lia).
    rewrite (Z.mul_comm 256), (Z.rem_mul_r n) by lia. lia.
Qed.

Lemma from_to_be_bytes k n :
  0 <= n < 256 ^ Z.of_nat k -> from_be_bytes (to_be_bytes k n) = n.
Proof. intros Hn. unfold from_be_bytes. rewrite fold_be_to_be, Z.mod_small; lia. Qed.

(** ** Lexicographic order *)

Lemma lex_compare_refl a : lex_compare a a = Eq.
Proof. induction a; simpl; [done|]. by rewrite Z.compare_refl. Qed.

Lemma lex_compare_eq a b : lex_compare a b = Eq <-> a = b.
Proof.
  split; [|intros ->; apply lex_compare_refl].
  revert b. induction a as [|x a IH]; intros [|y b]; simpl; try done.
  destruct (Z.compare_spec x y); try done. intros. f_equal; auto.
Qed.

Lemma lex_compare_antisym a b : lex_compare b a = CompOpp (lex_compare a b).
Proof.
  revert b. induction a as [|x a IH]; intros [|y b]; simpl; try done.
  rewrite (Z.compare_antisym x y). by destruct (x ?= y); simpl.
Qed.

Lemma lex_compare_gt_lt a b : lex_compare a b = Gt <-> lex_compare b a = Lt.
Proof. rewrite (lex_compare_antisym a b). destruct (lex_compare a b); done. Qed.

Lemma lex_compare_trans a b c :
  lex_compare a b = Lt -> lex_compare b c = Lt -> lex_compare a c = Lt.
Proof.
  revert b c. induction a as [|x a IH]; intros [|y b] [|z c]; simpl; try done.
  destruct (Z.compare_spec x y), (Z.compare_spec y z); try done; intros H1 H2; subst;
    rewrite ?Z.compare_refl; eauto;
    match goal with |- context [?u ?= ?w] => by rewrite (proj2 (Z.compare_lt_iff u w)) by lia end.
Qed.

Lemma lex_compare_lt_head x y a b : x < y -> lex_compare (x :: a) (y :: b) = Lt.
Proof. intros H. cbn [lex_compare]. by rewrite (proj2 (Z.compare_lt_iff x y) H). Qed.

Lemma lex_compare_gt_head x y a b : y < x -> lex_compare (x :: a) (y :: b) = Gt.
Proof. intros H. cbn [lex_compare]. by rewrite (proj2 (Z.compare_gt_iff x y) H). Qed.

Lemma lex_compare_same_head x a b : lex_compare (x :: a) (x :: b) = lex_compare a b.
Proof. cbn [lex_compare]. by rewrite Z.compare_refl. Qed.

(** Prepending the same bytes does not change the order. *)
Lemma lex_compare_app p a b : lex_compare (p ++ a) (p ++ b) = lex_compare a b.
Proof. induction p; simpl; [done|]. by rewrite Z.compare_refl. Qed.

(** For equally long heads the order is the one of the heads, then of the tails. *)
Lemma lex_compare_app_same_length p q a b :
  length p = length q ->
  lex_compare (p ++ a) (q ++ b) =
  match lex_compare p q with Eq => lex_compare a b | c => c end.
Proof.
  revert q. induction p as [|x p IH]; intros [|y q] H; simpl in *; try lia; [done|].
  destruct (x ?= y); try done. apply IH. lia.
Qed.

(** Unsigned big-endian encoding preserves order. *)
Lemma lex_compare_to_be_bytes k m n :
  0 <= m < 256 ^ Z.of_nat k -> 0 <= n < 256 ^ Z.of_nat k ->
  lex_compare (to_be_bytes k m) (to_be_bytes k n) = (m ?= n).
Proof.
  intros Hm Hn.
  enough (forall j, lex_compare (to_be_bytes j m) (to_be_bytes j n) =
           ((m mod 256 ^ Z.of_nat j) ?= (n mod 256 ^ Z.of_nat j))) as H.
  { rewrite (H k). by rewrite !Z.mod_small by lia. }
  clear Hm Hn. intros j. induction j as [|j IH].
  - simpl. by rewrite !Z.mod_1_r.
  - cbn [to_be_bytes lex_compare]. rewrite IH, Nat2Z.inj_succ, Z.pow_succ_r by lia.
    set (P := 256 ^ Z.of_nat j). assert (0 < P) by (apply Z.pow_pos_nonneg; lia).
    rewrite (Z.mul_comm 256), !(Z.rem_mul_r _ P 256) by lia.
    pose proof (Z.mod_pos_bound m P). pose proof (Z.mod_pos_bound n P).
    destruct (Z.compare_spec ((m / P) mod 256) ((n / P) mod 256)) as [->|Hlt|Hgt].
    + destruct (Z.compare_spec (m mod P) (n mod P)); symmetry;
        [apply Z.compare_eq_iff | apply Z.compare_lt_iff | apply Z.compare_gt_iff]; lia.
    + symmetry. apply Z.compare_lt_iff. nia.
    + symmetry. apply Z.compare_gt_iff. nia.
Qed.

(** ** Ordered maps *)

Lemma bt_insert_elem {V : Type} k (v : V) m x :
  x ∈ bt_insert k v m -> x = (k, v) \/ x ∈ m.
Proof.
  induction m as [|[k' v'] m IH]; simpl.
  - intros H%list_elem_of_singleton. by left.
  - destruct (lex_compare k k') eqn:E; rewrite !elem_of_cons.
    + apply lex_compare_eq in E as ->. naive_solver.
    + naive_solver.
    + naive_solver.
Qed.

Lemma bt_insert_sorted {V : Type} k (v : V) m : bt_sorted m -> bt_sorted (bt_insert k v m).
Proof.
  induction m as [|[k' v'] m IH]; simpl.
  - intros _. split; [|done]. intros ?? H. by apply elem_of_nil in H.
  - intros [Hk Hm]. destruct (lex_compare k k') eqn:E; simpl.
    + apply lex_compare_eq in E as ->. done.
    + split; [|done]. intros k2 v2 [[= -> ->]|H]%elem_of_cons; [done|].
      eapply lex_compare_trans; eauto.
    + split; [|auto]. intros k2 v2 [[= -> ->]|H]%bt_insert_elem; eauto.
      by apply lex_compare_gt_lt.
Qed.

(** Inserting above every key appends. *)
Lemma bt_insert_last {V : Type} k (v : V) m :
  (forall k' v', (k', v') ∈ m -> lex_compare k' k = Lt) -> bt_insert k v m = m ++ [(k, v)].
Proof.
  induction m as [|[k' v'] m IH]; intros H; simpl; [done|].
  assert (lex_compare k k' = Gt) as ->.
  { apply lex_compare_gt_lt, (H k' v'). by left. }
  f_equal. apply IH. intros k2 v2 Hin. apply (H k2 v2). by right.
Qed.

Lemma bt_get_insert_eq {V : Type} k (v : V) m : bt_get k (bt_insert k v m) = Some v.
Proof.
  induction m as [|[k' v'] m IH]; simpl; [by rewrite lex_compare_refl|].
  destruct (lex_compare k k') eqn:E; simpl; rewrite ?E, ?lex_compare_refl; done.
Qed.

Lemma bt_get_insert_ne {V : Type} k k0 (v : V) m :
  k0 <> k -> bt_get k0 (bt_insert k v m) = bt_get k0 m.
Proof.
  intros Hne. assert (lex_compare k0 k <> Eq) by by rewrite lex_compare_eq.
  induction m as [|[k' v'] m IH]; simpl; [by destruct (lex_compare k0 k)|].
  destruct (lex_compare k k') eqn:E; simpl.
  - apply lex_compare_eq in E as ->. by destruct (lex_compare k0 k').
  - by destruct (lex_compare k0 k).
  - by rewrite IH.
Qed.

(** ** UTF-8 *)

Lemma utf8_decode_encode_char c rest :
  is_scalar c = true ->
  utf8_decode (utf8_encode_char c ++ rest) = cons c <$> utf8_decode rest.
Proof.
  intros Hc. unfold utf8_encode_char.
  assert (H64 : 0 <= c mod 64 < 64) by (apply Z.mod_pos_bound; lia).
  assert (H64' : 0 <= (c / 64) mod 64 < 64) by (apply Z.mod_pos_bound; lia).
  assert (H64'' : 0 <= (c / 4096) mod 64 < 64) by (apply Z.mod_pos_bound; lia).
  assert (E1 : c = c / 64 * 64 + c mod 64) by (pose proof (Z.div_mod c 64); lia).
  assert (E2 : c / 64 = c / 4096 * 64 + (c / 64) mod 64).
  { change 4096 with (64 * 64). rewrite <- Z.div_div by lia.
    pose proof (Z.div_mod (c / 64) 64). lia. }
  assert (E3 : c / 4096 = c / 262144 * 64 + (c / 4096) mod 64).
  { change 262144 with (4096 * 64). rewrite <- (Z.div_div c 4096) by lia.
    pose proof (Z.div_mod (c / 4096) 64). lia. }
  case_if; [cbn [app utf8_decode]; by replace (in_range 0 127 c) with true by zbool|].
  case_if; [|case_if]; cbn [app utf8_decode].
  - replace (in_range 0 127 (192 + c / 64)) with false by zbool.
    replace (in_range 192 223 (192 + c / 64)) with true by zbool.
    cbv zeta. replace ((192 + c / 64 - 192) * 64 + (128 + c mod 64 - 128)) with c by lia.
    by replace (is_cont (128 + c mod 64) && (128 <=? c)) with true by zbool.
  - replace (in_range 0 127 (224 + c / 4096)) with false by zbool.
    replace (in_range 192 223 (224 + c / 4096)) with false by zbool.
    replace (in_range 224 239 (224 + c / 4096)) with true by zbool.
    cbv zeta. replace ((224 + c / 4096 - 224) * 4096 + (128 + (c / 64) mod 64 - 128) * 64
      + (128 + c mod 64 - 128)) with c by lia.
    by replace (is_cont (128 + (c / 64) mod 64) && is_cont (128 + c mod 64) && (2048 <=? c)
       && is_scalar c) with true by zbool.
  - replace (in_range 0 127 (240 + c / 262144)) with false by zbool.
    replace (in_range 192 223 (240 + c / 262144)) with false by zbool.
    replace (in_range 224 239 (240 + c / 262144)) with false by zbool.
    replace (in_range 240 247 (240 + c / 262144)) with true by zbool.
    cbv zeta. replace ((240 + c / 262144 - 240) * 262144 + (128 + (c / 4096) mod 64 - 128) * 4096
      + (128 + (c / 64) mod 64 - 128) * 64 + (128 + c mod 64 - 128)) with c by lia.
    by replace (is_cont (128 + (c / 4096) mod 64) && is_cont (128 + (c / 64) mod 64)
       && is_cont (128 + c mod 64) && (65536 <=? c) && is_scalar c) with true by zbool.
Qed.

Lemma utf8_decode_encode s :
  Forall (fun c => is_scalar c = true) s -> utf8_decode (utf8_encode s) = Some s.
Proof.
  induction 1 as [|c s Hc _ IH]; [done|].
  change (utf8_encode (c :: s)) with (utf8_encode_char c ++ utf8_encode s).
  by rewrite utf8_decode_encode_char, IH.
Qed.

Lemma utf8_encode_char_bytes c : is_scalar c = true -> Forall is_byte (utf8_encode_char c).
Proof.
  intros Hc. unfold utf8_encode_char, is_byte.
  assert (H64 : 0 <= c mod 64 < 64) by (apply Z.mod_pos_bound; lia).
  assert (H64' : 0 <= (c / 64) mod 64 < 64) by (apply Z.mod_pos_bound; lia).
  assert (H64'' : 0 <= (c / 4096) mod 64 < 64) by (apply Z.mod_pos_bound; lia).
  assert (0 <= c) by zbool.
  assert (c < 0x110000) by zbool.
  repeat case_if; repeat constructor; try lia;
    (apply Z.add_nonneg_nonneg; [lia | apply Z.div_pos; lia]) ||
    (apply Z.lt_add_lt_sub_l, Z.div_lt_upper_bound; lia).
Qed.

Lemma utf8_encode_bytes s :
  Forall (fun c => is_scalar c = true) s -> Forall is_byte (utf8_encode s).
Proof.
  induction 1 as [|c s Hc _ IH]; [done|].
  change (utf8_encode (c :: s)) with (utf8_encode_char c ++ utf8_encode s).
  apply Forall_app; auto using utf8_encode_char_bytes.
Qed.

Lemma length_utf8_encode_char c : length (utf8_encode_char c) = len_utf8 c.
Proof. unfold utf8_encode_char, len_utf8. by repeat case_if. Qed.

Lemma utf8_decode_ascii s : Forall (fun c => in_range 0 127 c = true) s -> utf8_decode s = Some s.
Proof.
  induction 1 as [|c s Hc _ IH]; [done|]. cbn [utf8_decode]. by rewrite Hc, IH.
Qed.

(** ** Slices *)

Lemma index_range_app {E A : Type} (pre mid post : list A) a b :
  a = length pre -> b = (length pre + length mid)%nat ->
  @index_range E A (pre ++ mid ++ post) a b = Ok mid.
Proof.
  intros -> ->. unfold index_range. rewrite !length_app.
  replace (length pre <=? _)%nat with true by (symmetry; apply Nat.leb_le; lia).
  replace (_ <=? _)%nat with true by (symmetry; apply Nat.leb_le; lia).
  cbv [andb]. rewrite drop_app_length.
  replace (length pre + length mid - length pre)%nat with (length mid) by lia.
  by rewrite take_app_length.
Qed.

(** A slice inside a buffer is the same slice of any longer buffer. *)
Lemma index_range_extend {E A : Type} (s ext : list A) a b :
  (b <= length s)%nat -> @index_range E A (s ++ ext) a b = index_range s a b.
Proof.
  intros Hb. unfold index_range. rewrite length_app.
  replace (b <=? length s + length ext)%nat with true by (symmetry; apply Nat.leb_le; lia).
  replace (b <=? length s)%nat with true by (symmetry; apply Nat.leb_le; lia).
  destruct (Nat.leb_spec a b); [|done]. cbv [andb].
  by rewrite drop_app_le, take_app_le by (rewrite ?length_drop; lia).
Qed.

Lemma index_range_ok {E A : Type} (s : list A) a b :
  (a <= b <= length s)%nat -> @index_range E A s a b = Ok (take (b - a) (drop a s)).
Proof.
  intros H. unfold index_range.
  replace (a <=? b)%nat with true by (symmetry; apply Nat.leb_le; lia).
  by replace (b <=? length s)%nat with true by (symmetry; apply Nat.leb_le; lia).
Qed.

Lemma wrap_i64_id n : is_i64 n -> wrap_i64 n = n.
Proof. unfold is_i64, wrap_i64, i64_min, i64_max. intros. rewrite Z.mod_small; lia. Qed.
