(* ===== verification/Bencode.v ===== *)
(** The bencode codec of the nREPL wire protocol
    (crates/cljrs-bencode/src/lib.rs) and the per-connection framing loop that
    uses it (crates/cljrs-nrepl/src/server.rs, [reader_task]).

    [encode] appends to an output vector; [decode] is incremental: [Ok None]
    asks for more bytes.  The recursive-descent loops take fuel, and
    [decode] supplies [2 * len + 2], which is proved to be enough. *)
From S2P Require Import Prelude RustStd.
From stdpp Require Import strings.
Local Open Scope Z_scope.

(** * Data *)

Inductive Bencode : Type :=
| Int (i : Z)
| Bytes (b : list Z)
| List (items : list Bencode)
| Dict (entries : list (list Z * Bencode)).

Inductive BencodeError : Type :=
| BInvalid (msg : string).

Inductive ParseError : Type :=
| Incomplete
| Invalid (msg : string).

(** * Encoding *)

Definition encode_bytes (b out : list Z) : list Z :=
  out ++ udec (Z.of_nat (length b)) ++ [58] ++ b.

Fixpoint encode (v : Bencode) (out : list Z) : list Z :=
  match v with
  | Int i => out ++ [105] ++ to_string i ++ [101]
  | Bytes b => encode_bytes b out
  | List items =>
      fold_left (fun out item => encode item out) items (out ++ [108]) ++ [101]
  | Dict entries =>
      fold_left (fun out kv => match kv with (k, val) => encode val (encode_bytes k out) end)
        entries (out ++ [100]) ++ [101]
  end.

Definition encode_to_vec (v : Bencode) : list Z := encode v [].

(** * Accessors *)

Definition as_str (v : Bencode) : option (list Z) :=
  match v with
  | Bytes b => utf8_decode b
  | _ => None
  end.

Definition as_dict (v : Bencode) : option (list (list Z * Bencode)) :=
  match v with
  | Dict d => Some d
  | _ => None
  end.

Definition str (s : list Z) : Bencode := Bytes (utf8_encode s).

(** * Decoding *)

(** The loop of [parse_int]: from [end_] to the closing [e]. *)
Fixpoint scan_int (fuel : nat) (buf : list Z) (start end_ : nat) : outcome ParseError nat :=
  match fuel with
  | O => OutOfFuel
  | S f =>
      match buf !! end_ with
      | None => Err Incomplete
      | Some c =>
          if c =? 101 then Ok end_
          else if (c =? 45) && (end_ =? start)%nat then scan_int f buf start (end_ + 1)
          else if is_ascii_digit c then scan_int f buf start (end_ + 1)
          else Err (Invalid "non-digit in integer")
      end
  end.

Definition parse_int (buf : list Z) (pos : nat) : outcome ParseError (Bencode * nat) :=
  let start := (pos + 1)%nat in
  end_ ← scan_int (S (length buf)) buf start start;
  raw ← index_range buf start end_;
  match utf8_decode raw with
  | None => Err (Invalid "non-UTF-8 integer")
  | Some text =>
      match parse_i64 text with
      | None => Err (Invalid "integer out of range or empty")
      | Some n => Ok (Int n, (end_ + 1)%nat)
      end
  end.

(** The loop of [parse_bytes]: from [colon] to the [:] after the length. *)
Fixpoint scan_colon (fuel : nat) (buf : list Z) (colon : nat) : outcome ParseError nat :=
  match fuel with
  | O => OutOfFuel
  | S f =>
      match buf !! colon with
      | None => Err Incomplete
      | Some c =>
          if c =? 58 then Ok colon
          else if is_ascii_digit c then scan_colon f buf (colon + 1)
          else Err (Invalid "non-digit in string length")
      end
  end.

Definition parse_bytes (buf : list Z) (pos : nat) : outcome ParseError (Bencode * nat) :=
  let start := pos in
  colon ← scan_colon (S (length buf)) buf start;
  raw ← index_range buf start colon;
  match utf8_decode raw ≫= parse_usize with
  | None => Err (Invalid "bad string length")
  | Some len =>
      let data_start := (colon + 1)%nat in
      let data_end := Z.of_nat data_start + len in
      if usize_max <? data_end then Err (Invalid "string length overflow")
      else if Z.of_nat (length buf) <? data_end then Err Incomplete
      else
        data ← index_range buf data_start (Z.to_nat data_end);
        Ok (Bytes data, Z.to_nat data_end)
  end.

Fixpoint parse_value (fuel : nat) (buf : list Z) (pos : nat) {struct fuel}
    : outcome ParseError (Bencode * nat) :=
  match fuel with
  | O => OutOfFuel
  | S f =>
      match buf !! pos with
      | None => Err Incomplete
      | Some c =>
          if c =? 105 then parse_int buf pos
          else if c =? 108 then parse_list f buf (pos + 1) []
          else if c =? 100 then parse_dict f buf (pos + 1) []
          else if is_ascii_digit c then parse_bytes buf pos
          else Err (Invalid "unexpected type marker")
      end
  end
with parse_list (fuel : nat) (buf : list Z) (pos : nat) (items : list Bencode) {struct fuel}
    : outcome ParseError (Bencode * nat) :=
  match fuel with
  | O => OutOfFuel
  | S f =>
      if decide (buf !! pos = Some 101) then Ok (List items, (pos + 1)%nat)
      else
        r ← parse_value f buf pos;
        parse_list f buf r.2 (items ++ [r.1])
  end
with parse_dict (fuel : nat) (buf : list Z) (pos : nat) (entries : list (list Z * Bencode))
    {struct fuel} : outcome ParseError (Bencode * nat) :=
  match fuel with
  | O => OutOfFuel
  | S f =>
      if decide (buf !! pos = Some 101) then Ok (Dict entries, (pos + 1)%nat)
      else
        k ← parse_value f buf pos;
        match k.1 with
        | Bytes key =>
            v ← parse_value f buf k.2;
            parse_dict f buf v.2 (bt_insert key v.1 entries)
        | _ => Err (Invalid "dict key must be a byte string")
        end
  end.

Definition decode_fuel (buf : list Z) : nat := (2 * length buf + 2)%nat.

Definition decode (buf : list Z) : outcome BencodeError (option (Bencode * nat)) :=
  match parse_value (decode_fuel buf) buf 0 with
  | Ok (v, pos) => Ok (Some (v, pos))
  | Err Incomplete => Ok None
  | Err (Invalid msg) => Err (BInvalid msg)
  | Panic => Panic
  | OutOfFuel => OutOfFuel
  end.

(** * The framing loop of a connection *)

(** The inner loop of [reader_task]: dispatch every complete message at the
    front of [buf].  Returns the messages in dispatch order, what is left of
    the buffer, and whether the connection stays open. *)
Fixpoint drain_messages (fuel : nat) (buf : list Z) : outcome Empty_set (list Bencode * list Z * bool) :=
  match fuel with
  | O => OutOfFuel
  | S f =>
      match decode buf with
      | Ok (Some (msg, consumed)) =>
          if (consumed <=? length buf)%nat then
            r ← drain_messages f (drop consumed buf);
            let '(msgs, rest, open) := r in Ok (msg :: msgs, rest, open)
          else Panic
      | Ok None => Ok ([], buf, true)
      | Err _ => Ok ([], buf, false)
      | Panic => Panic
      | OutOfFuel => OutOfFuel
      end
  end.

(** The outer loop of [reader_task] over what [read] returns (an empty chunk is
    EOF, as is the end of the list): the messages dispatched, in order. *)
Fixpoint reader_task (buf : list Z) (chunks : list (list Z)) : outcome Empty_set (list Bencode) :=
  r ← drain_messages (S (length buf)) buf;
  let '(msgs, rest, open) := r in
  if open : bool then
    match chunks with
    | [] | [] :: _ => Ok msgs
    | chunk :: chunks' =>
        more ← reader_task (rest ++ chunk) chunks';
        Ok (msgs ++ more)
    end
  else Ok msgs.

(** * Well-formed values *)

(** What the Rust types guarantee: integers in range and dictionaries with
    strictly increasing keys. *)
Inductive bencode_ok : Bencode -> Prop :=
| ok_int i : is_i64 i -> bencode_ok (Int i)
| ok_bytes b : bencode_ok (Bytes b)
| ok_list items : Forall bencode_ok items -> bencode_ok (List items)
| ok_dict entries :
    bt_sorted entries -> Forall (fun kv => bencode_ok kv.2) entries -> bencode_ok (Dict entries).

(** Induction over values with the hypothesis for list items and dictionary
    values. *)
Section Bencode_nested_ind.
Variable P : Bencode -> Prop.
Hypothesis HInt : forall i, P (Int i).
Hypothesis HBytes : forall b, P (Bytes b).
Hypothesis HList : forall items, Forall P items -> P (List items).
Hypothesis HDict : forall entries, Forall (fun kv => P kv.2) entries -> P (Dict entries).

Fixpoint Bencode_nested_ind (v : Bencode) : P v :=
  match v with
  | Int i => HInt i
  | Bytes b => HBytes b
  | List items => HList items
      ((fix go l : Forall P l :=
          match l with
          | [] => Forall_nil_2 P
          | x :: l' => Forall_cons_2 P x l' (Bencode_nested_ind x) (go l')
          end) items)
  | Dict entries => HDict entries
      ((fix go l : Forall (fun kv => P kv.2) l :=
          match l with
          | [] => Forall_nil_2 _
          | kv :: l' => Forall_cons_2 (fun kv => P kv.2) kv l' (Bencode_nested_ind kv.2) (go l')
          end) entries)
  end.
End Bencode_nested_ind.

(** * Totality and bounds of the scanners *)

Lemma scan_int_total fuel buf start e :
  (length buf - e < fuel)%nat ->
  total_post (fun e' => e <= e' < length buf)%nat (scan_int fuel buf start e).
Proof.
  revert e. induction fuel as [|f IH]; intros e Hf; simpl.
  - lia.
  - destruct (buf !! e) as [c|] eqn:Hc; [|done].
    apply lookup_lt_Some in Hc.
    repeat case_if; try done; try (simpl; lia).
    all: specialize (IH (e + 1)%nat ltac:(lia)); destruct (scan_int _ _ _ _); simpl in *; lia.
Qed.

Lemma scan_colon_total fuel buf e :
  (length buf - e < fuel)%nat ->
  total_post (fun e' => e <= e' < length buf)%nat (scan_colon fuel buf e).
Proof.
  revert e. induction fuel as [|f IH]; intros e Hf; simpl.
  - lia.
  - destruct (buf !! e) as [c|] eqn:Hc; [|done].
    apply lookup_lt_Some in Hc.
    repeat case_if; try done; try (simpl; lia).
    specialize (IH (e + 1)%nat ltac:(lia)); destruct (scan_colon _ _ _); simpl in *; lia.
Qed.

(** Every parser returns a position strictly after its start and inside the
    buffer. *)
Definition advances (buf : list Z) (pos : nat) (r : Bencode * nat) : Prop :=
  (pos < r.2 <= length buf)%nat.

Lemma parse_int_total buf pos :
  (pos < length buf)%nat -> total_post (advances buf pos) (parse_int buf pos).
Proof.
  intros Hp. unfold parse_int.
  pose proof (scan_int_total (S (length buf)) buf (pos + 1) (pos + 1) ltac:(lia)) as Hs.
  destruct (scan_int _ _ _ _) as [e| | |]; simpl in *; try done.
  rewrite index_range_ok by lia. simpl.
  destruct (utf8_decode _); [|done]. destruct (parse_i64 _); [|done].
  unfold advances. simpl. lia.
Qed.

Lemma parse_bytes_total buf pos :
  total_post (advances buf pos) (parse_bytes buf pos).
Proof.
  unfold parse_bytes.
  pose proof (scan_colon_total (S (length buf)) buf pos ltac:(lia)) as Hs.
  destruct (scan_colon _ _ _) as [e| | |]; simpl in *; try done.
  rewrite index_range_ok by lia. simpl.
  destruct (utf8_decode _ ≫= _) as [len|] eqn:El; [|done].
  assert (0 <= len).
  { destruct (utf8_decode _); [|done]. simpl in El. unfold parse_usize, from_str_radix in El.
    repeat (case_match; try done); simplify_eq; zbool. }
  case_if; [done|]. case_if; [done|]. bool_hyps.
  rewrite index_range_ok by lia. unfold advances. simpl. lia.
Qed.

Lemma parsers_total fuel buf :
  (forall pos, (2 * (length buf - pos) + 2 <= fuel)%nat ->
     total_post (advances buf pos) (parse_value fuel buf pos)) /\
  (forall pos items, (2 * (length buf - pos) + 3 <= fuel)%nat ->
     total_post (advances buf pos) (parse_list fuel buf pos items)) /\
  (forall pos entries, (2 * (length buf - pos) + 3 <= fuel)%nat ->
     total_post (advances buf pos) (parse_dict fuel buf pos entries)).
Proof.
  induction fuel as [|f (IHv & IHl & IHd)]; [repeat split; intros; lia|].
  unfold advances in *. repeat split; intros pos; simpl.
  - intros Hf. destruct (buf !! pos) as [c|] eqn:Hc; [|done].
    apply lookup_lt_Some in Hc. repeat case_if; try done.
    + by apply parse_int_total.
    + specialize (IHl (pos + 1)%nat [] ltac:(lia)).
      destruct (parse_list _ _ _ _); simpl in *; lia.
    + specialize (IHd (pos + 1)%nat [] ltac:(lia)).
      destruct (parse_dict _ _ _ _); simpl in *; lia.
    + apply parse_bytes_total.
  - intros items Hf. case_decide as Hc.
    + apply lookup_lt_Some in Hc. simpl. lia.
    + specialize (IHv pos ltac:(lia)). destruct (parse_value _ _ _) as [[v p]| | |]; simpl in *; try done.
      specialize (IHl p (items ++ [v]) ltac:(lia)).
      destruct (parse_list _ _ _ _); simpl in *; lia.
  - intros entries Hf. case_decide as Hc.
    + apply lookup_lt_Some in Hc. simpl. lia.
    + pose proof (IHv pos ltac:(lia)) as Hk.
      destruct (parse_value _ _ _) as [[k p]| | |]; simpl in *; try done.
      destruct k as [| key | |]; simpl; try done.
      pose proof (IHv p ltac:(lia)) as Hv.
      destruct (parse_value _ _ p) as [[v p']| | |]; simpl in *; try done.
      specialize (IHd p' (bt_insert key v entries) ltac:(lia)).
      destruct (parse_dict _ _ _ _); simpl in *; lia.
Qed.

Lemma parse_value_total buf :
  total_post (advances buf 0) (parse_value (decode_fuel buf) buf 0).
Proof. apply parsers_total. unfold decode_fuel. lia. Qed.

(** * Stability: a decided result does not depend on later bytes or on fuel *)

Definition settled {A : Type} (r : outcome ParseError A) : Prop :=
  match r with
  | Err Incomplete | OutOfFuel => False
  | _ => True
  end.

Lemma scan_int_extend f f' buf ext start e :
  settled (scan_int f buf start e) -> (f <= f')%nat ->
  scan_int f' (buf ++ ext) start e = scan_int f buf start e.
Proof.
  revert f' e. induction f as [|f IH]; intros f' e Hs Hf; [done|].
  destruct f' as [|f']; [lia|]. simpl in *.
  destruct (buf !! e) as [c|] eqn:Hc; [|done].
  rewrite (lookup_app_l_Some _ _ _ _ Hc).
  repeat case_if; try done; apply IH; auto; lia.
Qed.

Lemma scan_colon_extend f f' buf ext e :
  settled (scan_colon f buf e) -> (f <= f')%nat ->
  scan_colon f' (buf ++ ext) e = scan_colon f buf e.
Proof.
  revert f' e. induction f as [|f IH]; intros f' e Hs Hf; [done|].
  destruct f' as [|f']; [lia|]. simpl in *.
  destruct (buf !! e) as [c|] eqn:Hc; [|done].
  rewrite (lookup_app_l_Some _ _ _ _ Hc).
  repeat case_if; try done; apply IH; auto; lia.
Qed.

Lemma parse_int_extend buf ext pos :
  settled (parse_int buf pos) -> parse_int (buf ++ ext) pos = parse_int buf pos.
Proof.
  unfold parse_int. intros Hs.
  rewrite (scan_int_extend (S (length buf)) _ buf ext).
  - pose proof (scan_int_total (S (length buf)) buf (pos + 1) (pos + 1) ltac:(lia)) as Ht.
    destruct (scan_int _ _ _ _) as [e| | |]; simpl in *; try done.
    by rewrite index_range_extend by lia.
  - destruct (scan_int _ _ _ _) as [|[]| |]; simpl in *; done.
  - rewrite length_app. lia.
Qed.

Lemma parse_bytes_extend buf ext pos :
  settled (parse_bytes buf pos) -> parse_bytes (buf ++ ext) pos = parse_bytes buf pos.
Proof.
  unfold parse_bytes. intros Hs.
  rewrite (scan_colon_extend (S (length buf)) _ buf ext).
  - pose proof (scan_colon_total (S (length buf)) buf pos ltac:(lia)) as Ht.
    destruct (scan_colon _ _ _) as [e| | |]; simpl in *; try done.
    rewrite index_range_extend by lia. destruct (index_range buf pos e); simpl in *; try done.
    destruct (utf8_decode _ ≫= _) as [len|]; [|done].
    case_if; [done|]. destruct (Z.ltb_spec (Z.of_nat (length buf)) (Z.of_nat (e + 1) + len)); [done|].
    rewrite length_app.
    destruct (Z.ltb_spec (Z.of_nat (length buf + length ext)) (Z.of_nat (e + 1) + len)); [lia|].
    by rewrite index_range_extend by lia.
  - destruct (scan_colon _ _ _) as [|[]| |]; simpl in *; done.
  - rewrite length_app. lia.
Qed.

Lemma parsers_extend f buf ext :
  (forall f' pos, settled (parse_value f buf pos) -> (f <= f')%nat ->
     parse_value f' (buf ++ ext) pos = parse_value f buf pos) /\
  (forall f' pos items, settled (parse_list f buf pos items) -> (f <= f')%nat ->
     parse_list f' (buf ++ ext) pos items = parse_list f buf pos items) /\
  (forall f' pos entries, settled (parse_dict f buf pos entries) -> (f <= f')%nat ->
     parse_dict f' (buf ++ ext) pos entries = parse_dict f buf pos entries).
Proof.
  induction f as [|f (IHv & IHl & IHd)]; [done|].
  repeat split; (intros [|f']; [intros; lia|]); intros pos.
  - simpl. intros Hs Hf. destruct (buf !! pos) as [c|] eqn:Hc; [|done].
    rewrite (lookup_app_l_Some _ _ _ _ Hc).
    repeat case_if; try done.
    + by apply parse_int_extend.
    + apply IHl; [done | lia].
    + apply IHd; [done | lia].
    + by apply parse_bytes_extend.
  - intros items Hs Hf. simpl in *. case_decide as Hc.
    + by rewrite decide_True by by apply lookup_app_l_Some.
    + destruct (buf !! pos) as [c|] eqn:Hp.
      * rewrite decide_False by (rewrite (lookup_app_l_Some _ _ _ _ Hp); congruence).
        assert (settled (parse_value f buf pos)) by (destruct (parse_value f buf pos) as [|[]| |]; done).
        rewrite IHv by (done || lia).
        destruct (parse_value f buf pos) as [[v p]| | |]; simpl in *; try done.
        apply IHl; [done | lia].
      * destruct f; simpl in Hs; [done|]. by rewrite Hp in Hs.
  - intros entries Hs Hf. simpl in *. case_decide as Hc.
    + by rewrite decide_True by by apply lookup_app_l_Some.
    + destruct (buf !! pos) as [c|] eqn:Hp.
      * rewrite decide_False by (rewrite (lookup_app_l_Some _ _ _ _ Hp); congruence).
        assert (settled (parse_value f buf pos)) by (destruct (parse_value f buf pos) as [|[]| |]; done).
        rewrite IHv by (done || lia).
        destruct (parse_value f buf pos) as [[[] p]| | |]; simpl in *; try done.
        assert (settled (parse_value f buf p)) by (destruct (parse_value f buf p) as [|[]| |]; done).
        rewrite IHv by (done || lia).
        destruct (parse_value f buf p) as [[v p']| | |]; simpl in *; try done.
        apply IHd; [done | lia].
      * destruct f; simpl in Hs; [done|]. by rewrite Hp in Hs.
Qed.

Lemma parse_value_extend f f' buf ext pos :
  settled (parse_value f buf pos) -> (f <= f')%nat ->
  parse_value f' (buf ++ ext) pos = parse_value f buf pos.
Proof. apply parsers_extend. Qed.

Lemma parsers_more_fuel f buf :
  (forall f' pos, parse_value f buf pos <> OutOfFuel -> (f <= f')%nat ->
     parse_value f' buf pos = parse_value f buf pos) /\
  (forall f' pos items, parse_list f buf pos items <> OutOfFuel -> (f <= f')%nat ->
     parse_list f' buf pos items = parse_list f buf pos items) /\
  (forall f' pos entries, parse_dict f buf pos entries <> OutOfFuel -> (f <= f')%nat ->
     parse_dict f' buf pos entries = parse_dict f buf pos entries).
Proof.
  induction f as [|f (IHv & IHl & IHd)]; [done|].
  repeat split; (intros [|f']; [intros; lia|]); intros pos.
  - simpl. intros Hs Hf. destruct (buf !! pos); [|done].
    repeat case_if; try done; [apply IHl | apply IHd]; done || lia.
  - intros items Hs Hf. simpl in *. case_decide; [done|].
    rewrite IHv by (lia || by intros E; rewrite E in Hs).
    destruct (parse_value f buf pos) as [[v p]| | |]; simpl in *; try done.
    apply IHl; [done | lia].
  - intros entries Hs Hf. simpl in *. case_decide; [done|].
    rewrite IHv by (lia || by intros E; rewrite E in Hs).
    destruct (parse_value f buf pos) as [[[] p]| | |]; simpl in *; try done.
    rewrite IHv by (lia || by intros E; rewrite E in Hs).
    destruct (parse_value f buf p) as [[v p']| | |]; simpl in *; try done.
    apply IHd; [done | lia].
Qed.

(** The result with the fuel [decode] uses is the result with any other fuel
    that suffices. *)
Lemma parse_value_decode_fuel f buf :
  parse_value f buf 0 <> OutOfFuel -> parse_value (decode_fuel buf) buf 0 = parse_value f buf 0.
Proof.
  intros Hf. pose proof (parse_value_total buf) as Ht.
  destruct (parsers_more_fuel f buf) as (H1 & _ & _).
  destruct (parsers_more_fuel (decode_fuel buf) buf) as (H2 & _ & _).
  rewrite <- (H1 (f + decode_fuel buf)%nat) by (done || lia).
  rewrite <- (H2 (f + decode_fuel buf)%nat); [done | | lia].
  intros E. by rewrite E in Ht.
Qed.

(** * Equations of the encoder *)

Definition encode_entry (kv : list Z * Bencode) : list Z :=
  encode_bytes kv.1 [] ++ encode_to_vec kv.2.

Lemma encode_app v out : encode v out = out ++ encode_to_vec v.
Proof.
  unfold encode_to_vec. revert out. induction v as [i|b|items IH|entries IH] using Bencode_nested_ind; intros out; simpl.
  - done.
  - unfold encode_bytes. by rewrite app_nil_l.
  - enough (forall o, fold_left (fun out item => encode item out) items o =
                      o ++ fold_left (fun out item => encode item out) items []) as H.
    { rewrite (H (out ++ [108])), (H [108]). by rewrite <- !app_assoc. }
    induction IH as [|x l Hx _ IHl]; intros o; simpl; [by rewrite app_nil_r|].
    by rewrite (IHl (encode x o)), (IHl (encode x [])), (Hx o), <- app_assoc.
  - set (step := fun out kv => match kv with (k, val) => encode val (encode_bytes k out) end).
    enough (forall o, fold_left step entries o = o ++ fold_left step entries []) as H.
    { rewrite (H (out ++ [100])), (H [100]). by rewrite <- !app_assoc. }
    induction IH as [|[k x] l Hx _ IHl]; intros o; simpl in *; [by rewrite app_nil_r|].
    rewrite (IHl (encode x _)), (IHl (encode x (encode_bytes k []))).
    rewrite (Hx (encode_bytes k o)), (Hx (encode_bytes k [])).
    unfold encode_bytes. by rewrite <- !app_assoc.
Qed.

Lemma encode_list items : encode_to_vec (List items) = [108] ++ (items ≫= encode_to_vec) ++ [101].
Proof.
  unfold encode_to_vec at 1. simpl. rewrite app_comm_cons. f_equal.
  enough (forall o, fold_left (fun out item => encode item out) items o =
                    o ++ (items ≫= encode_to_vec)) as H by apply H.
  induction items as [|x l IH]; intros o; simpl; [by rewrite app_nil_r|].
  by rewrite IH, encode_app, <- app_assoc.
Qed.

Lemma encode_dict entries : encode_to_vec (Dict entries) = [100] ++ (entries ≫= encode_entry) ++ [101].
Proof.
  unfold encode_to_vec at 1. simpl. rewrite app_comm_cons. f_equal.
  set (step := fun out kv => match kv with (k, val) => encode val (encode_bytes k out) end).
  enough (forall o, fold_left step entries o = o ++ (entries ≫= encode_entry)) as H by apply H.
  induction entries as [|[k x] l IH]; intros o; simpl; [by rewrite app_nil_r|].
  rewrite IH, encode_app. unfold encode_entry, encode_bytes. simpl. by rewrite <- !app_assoc.
Qed.

Lemma encode_bytes_head b : exists c t, encode_bytes b [] = c :: t /\ is_ascii_digit c = true.
Proof.
  destruct (udec_cons (Z.of_nat (length b))) as (c & t & E & Hc); [lia|].
  unfold encode_bytes. rewrite E. simpl. eauto.
Qed.

(** No encoding starts with the end marker. *)
Lemma encode_head v : exists c t, encode_to_vec v = c :: t /\ c <> 101.
Proof.
  destruct v as [i|b|items|entries].
  - unfold encode_to_vec. simpl. eexists _, _. split; [done | lia].
  - destruct (encode_bytes_head b) as (c & t & E & Hc).
    exists c, t. split; [exact E | zbool].
  - rewrite encode_list. eexists _, _. split; [done | lia].
  - rewrite encode_dict. eexists _, _. split; [done | lia].
Qed.

(** * Round trip *)

Lemma scan_int_digits f pre ds post start :
  Forall (fun c => is_ascii_digit c = true) ds -> (length ds < f)%nat ->
  scan_int f (pre ++ ds ++ 101 :: post) start (length pre) = Ok (length pre + length ds)%nat.
Proof.
  revert f pre. induction ds as [|d ds IH]; intros f pre HF Hf; simpl in *; destruct f as [|f]; try lia.
  - simpl. rewrite list_lookup_middle by done. by rewrite Nat.add_0_r.
  - inversion HF; subst. simpl. rewrite list_lookup_middle by done.
    replace (d =? 101) with false by zbool. replace (d =? 45) with false by zbool. cbn [andb].
    replace (is_ascii_digit d) with true by done.
    change (d :: ds ++ 101 :: post) with ([d] ++ ds ++ 101 :: post). rewrite (app_assoc pre).
    replace (length pre + 1)%nat with (length (pre ++ [d])) by (rewrite length_app; simpl; lia).
    rewrite IH by (done || lia). rewrite length_app. simpl. f_equal. lia.
Qed.

Lemma scan_int_to_string f pre i post :
  (length (to_string i) < f)%nat ->
  scan_int f (pre ++ to_string i ++ 101 :: post) (length pre) (length pre) =
  Ok (length pre + length (to_string i))%nat.
Proof.
  unfold to_string. destruct (Z.ltb_spec i 0); intros Hf.
  - destruct f as [|f]; [simpl in Hf; lia|].
    simpl. rewrite list_lookup_middle by done. rewrite Nat.eqb_refl. simpl.
    change (45 :: udec (- i) ++ 101 :: post) with ([45] ++ udec (- i) ++ 101 :: post).
    rewrite (app_assoc pre).
    replace (length pre + 1)%nat with (length (pre ++ [45])) by (rewrite length_app; simpl; lia).
    simpl in Hf. rewrite scan_int_digits by (lia || apply udec_digits; lia).
    rewrite length_app. simpl. f_equal. lia.
  - apply scan_int_digits; [apply udec_digits; lia | done].
Qed.

Lemma scan_colon_digits f pre ds post :
  Forall (fun c => is_ascii_digit c = true) ds -> (length ds < f)%nat ->
  scan_colon f (pre ++ ds ++ 58 :: post) (length pre) = Ok (length pre + length ds)%nat.
Proof.
  revert f pre. induction ds as [|d ds IH]; intros f pre HF Hf; simpl in *; destruct f as [|f]; try lia.
  - simpl. rewrite list_lookup_middle by done. by rewrite Nat.add_0_r.
  - inversion HF; subst. simpl. rewrite list_lookup_middle by done.
    replace (d =? 58) with false by zbool.
    replace (is_ascii_digit d) with true by done.
    change (d :: ds ++ 58 :: post) with ([d] ++ ds ++ 58 :: post). rewrite (app_assoc pre).
    replace (length pre + 1)%nat with (length (pre ++ [d])) by (rewrite length_app; simpl; lia).
    rewrite IH by (done || lia). rewrite length_app. simpl. f_equal. lia.
Qed.

Lemma digits_ascii s :
  Forall (fun c => is_ascii_digit c = true) s -> Forall (fun c => in_range 0 127 c = true) s.
Proof. intros H. eapply Forall_impl; [exact H|]. intros c Hc. cbv beta in *. zbool. Qed.

Lemma to_string_ascii i : Forall (fun c => in_range 0 127 c = true) (to_string i).
Proof.
  unfold to_string. destruct (Z.ltb_spec i 0).
  - constructor; [done | apply digits_ascii, udec_digits; lia].
  - apply digits_ascii, udec_digits. lia.
Qed.

Lemma parse_int_encode pre i post :
  is_i64 i ->
  parse_int (pre ++ encode_to_vec (Int i) ++ post) (length pre) =
  Ok (Int i, (length pre + length (encode_to_vec (Int i)))%nat).
Proof.
  intros Hi. unfold encode_to_vec. simpl.
  replace (pre ++ 105 :: (to_string i ++ [101]) ++ post)
    with ((pre ++ [105]) ++ to_string i ++ 101 :: post) by by rewrite <- !app_assoc.
  unfold parse_int.
  replace (length pre + 1)%nat with (length (pre ++ [105])) by (rewrite length_app; simpl; lia).
  rewrite scan_int_to_string by (rewrite !length_app; simpl; lia). simpl.
  erewrite index_range_app by done. simpl.
  rewrite utf8_decode_ascii, parse_i64_to_string by (done || apply to_string_ascii).
  rewrite !length_app. simpl. do 2 f_equal. lia.
Qed.

Lemma parse_bytes_encode pre b post :
  Z.of_nat (length (pre ++ encode_bytes b [] ++ post)) <= usize_max ->
  parse_bytes (pre ++ encode_bytes b [] ++ post) (length pre) =
  Ok (Bytes b, (length pre + length (encode_bytes b []))%nat).
Proof.
  unfold encode_bytes. rewrite app_nil_l. pose (ds := udec (Z.of_nat (length b))).
  assert (Hds : Forall (fun c => is_ascii_digit c = true) ds) by (apply udec_digits; lia).
  fold ds. rewrite !length_app. simpl. intros Hlen.
  replace (pre ++ (ds ++ 58 :: b) ++ post) with (pre ++ ds ++ 58 :: b ++ post)
    by by rewrite <- !app_assoc.
  unfold parse_bytes. rewrite scan_colon_digits by (done || rewrite !length_app; simpl; lia).
  simpl. erewrite index_range_app by done. simpl.
  rewrite utf8_decode_ascii by by apply digits_ascii. cbn [mbind option_bind].
  unfold ds. rewrite (parse_usize_udec (Z.of_nat (length b))) by lia. fold ds.
  rewrite !length_app. simpl. rewrite length_app.
  destruct (Z.ltb_spec usize_max (Z.of_nat (length pre + length ds + 1) + Z.of_nat (length b))); [lia|].
  destruct (Z.ltb_spec (Z.of_nat (length pre + (length ds + S (length b + length post))))
    (Z.of_nat (length pre + length ds + 1) + Z.of_nat (length b))); [lia|].
  replace (pre ++ ds ++ 58 :: b ++ post) with ((pre ++ ds ++ [58]) ++ b ++ post)
    by by rewrite <- !app_assoc.
  erewrite index_range_app by (rewrite !length_app; simpl; lia). simpl. do 2 f_equal. lia.
Qed.

(** [round_trips v]: with some fuel the parser reads [v] back from its
    encoding, wherever the encoding sits in a buffer. *)
Definition round_trips (v : Bencode) : Prop :=
  exists f, forall f' pre post, (f <= f')%nat ->
    Z.of_nat (length (pre ++ encode_to_vec v ++ post)) <= usize_max ->
    parse_value f' (pre ++ encode_to_vec v ++ post) (length pre) =
    Ok (v, (length pre + length (encode_to_vec v))%nat).

Lemma round_trips_bytes b : round_trips (Bytes b).
Proof.
  exists 1%nat. intros [|f] pre post Hf Hlen; [lia|].
  destruct (encode_bytes_head b) as (c & t & E & Hc).
  change (encode_to_vec (Bytes b)) with (encode_bytes b []) in *. simpl.
  rewrite E at 1. cbn [app]. rewrite list_lookup_middle by done.
  replace (c =? 105) with false by zbool. replace (c =? 108) with false by zbool.
  replace (c =? 100) with false by zbool. rewrite Hc. by apply parse_bytes_encode.
Qed.

Lemma not_end_marker v pre post :
  (pre ++ encode_to_vec v ++ post) !! length pre <> Some 101.
Proof.
  destruct (encode_head v) as (c & t & -> & Hc). cbn [app].
  rewrite list_lookup_middle by done. congruence.
Qed.

Lemma parse_list_encode items :
  Forall round_trips items ->
  exists f, forall f' pre post acc, (f <= f')%nat ->
    Z.of_nat (length (pre ++ (items ≫= encode_to_vec) ++ [101] ++ post)) <= usize_max ->
    parse_list f' (pre ++ (items ≫= encode_to_vec) ++ [101] ++ post) (length pre) acc =
    Ok (List (acc ++ items), (length pre + length (items ≫= encode_to_vec) + 1)%nat).
Proof.
  induction 1 as [|v items [fv Hv] _ [fl Hl]].
  - exists 1%nat. intros [|f] pre post acc Hf _; [lia|]. simpl.
    rewrite decide_True by by apply list_lookup_middle.
    by rewrite app_nil_r, Nat.add_0_r.
  - exists (S (fv + fl)). intros [|f] pre post acc Hf Hlen; [lia|].
    cbn [mbind list_bind] in *. fold (mbind encode_to_vec : list Bencode -> list Z) in *.
    rewrite <- app_assoc in *. cbn [parse_list].
    rewrite decide_False by apply not_end_marker.
    rewrite Hv by (done || lia). cbn [mbind outcome_bind fst snd].
    rewrite (app_assoc pre), <- length_app. rewrite Hl by (rewrite <- ?app_assoc; done || lia).
    rewrite !length_app. rewrite <- app_assoc. do 2 f_equal. lia.
Qed.

Lemma parse_dict_encode entries :
  bt_sorted entries -> Forall (fun kv => round_trips kv.2) entries ->
  exists f, forall f' pre post acc, (f <= f')%nat ->
    (forall k v k' v', (k, v) ∈ acc -> (k', v') ∈ entries -> lex_compare k k' = Lt) ->
    Z.of_nat (length (pre ++ (entries ≫= encode_entry) ++ [101] ++ post)) <= usize_max ->
    parse_dict f' (pre ++ (entries ≫= encode_entry) ++ [101] ++ post) (length pre) acc =
    Ok (Dict (acc ++ entries), (length pre + length (entries ≫= encode_entry) + 1)%nat).
Proof.
  intros Hs HF. revert Hs. induction HF as [|[k v] entries [fv Hv] _ IH]; intros Hs.
  - exists 1%nat. intros [|f] pre post acc Hf _ _; [lia|]. simpl.
    rewrite decide_True by by apply list_lookup_middle.
    by rewrite app_nil_r, Nat.add_0_r.
  - simpl in Hs, Hv. destruct Hs as [Hk Hs]. destruct (IH Hs) as [fl Hl].
    destruct (round_trips_bytes k) as [fk Hkey].
    exists (S (fk + fv + fl)). intros [|f] pre post acc Hf Hacc Hlen; [lia|].
    cbn [mbind list_bind] in *. fold (mbind encode_entry : list (list Z * Bencode) -> list Z) in *.
    unfold encode_entry in *; fold encode_entry in *. cbn [fst snd] in *.
    change (encode_bytes k []) with (encode_to_vec (Bytes k)) in *.
    rewrite <- !app_assoc in *. cbn [parse_dict].
    rewrite decide_False by apply not_end_marker.
    rewrite Hkey by (done || lia). cbn [mbind outcome_bind fst snd].
    rewrite (app_assoc pre), <- length_app. rewrite Hv by (rewrite <- ?app_assoc; done || lia).
    cbn [mbind outcome_bind fst snd].
    rewrite (app_assoc (pre ++ _)), <- length_app.
    rewrite bt_insert_last by (intros; eapply Hacc; [done | by left]).
    rewrite Hl; [|lia| |by rewrite <- !app_assoc].
    + rewrite !length_app. rewrite <- app_assoc. do 2 f_equal. lia.
    + intros k1 v1 k2 v2 [H1|[= -> ->]%list_elem_of_singleton]%elem_of_app H2; [|by eapply Hk].
      eapply Hacc; [done | by right].
Qed.

Lemma bencode_ok_round_trips v : bencode_ok v -> round_trips v.
Proof.
  induction v as [i|b|items IH|entries IH] using Bencode_nested_ind; inversion 1; subst.
  - exists 1%nat. intros [|f] pre post Hf Hlen; [lia|].
    cbn [parse_value].
    replace ((pre ++ encode_to_vec (Int i) ++ post) !! length pre) with (Some 105)
      by (symmetry; by apply list_lookup_middle).
    simpl. by apply parse_int_encode.
  - apply round_trips_bytes.
  - destruct (parse_list_encode items) as [fl Hl].
    { rewrite Forall_forall in *. eauto. }
    exists (S fl). intros [|f] pre post Hf Hlen; [lia|].
    rewrite encode_list in *. rewrite <- !app_assoc in *. cbn [parse_value].
    replace ((pre ++ [108] ++ _) !! length pre) with (Some 108)
      by (symmetry; by apply list_lookup_middle). simpl (_ =? _). cbv iota.
    rewrite (app_assoc pre) in *.
    replace (length pre + 1)%nat with (length (pre ++ [108])) by (rewrite length_app; simpl; lia).
    rewrite Hl by (done || lia). rewrite !length_app. simpl. do 2 f_equal. lia.
  - destruct (parse_dict_encode entries) as [fl Hl]; [done| |].
    { rewrite Forall_forall in *. eauto. }
    exists (S fl). intros [|f] pre post Hf Hlen; [lia|].
    rewrite encode_dict in *. rewrite <- !app_assoc in *. cbn [parse_value].
    replace ((pre ++ [100] ++ _) !! length pre) with (Some 100)
      by (symmetry; by apply list_lookup_middle). simpl (_ =? _). cbv iota.
    rewrite (app_assoc pre) in *.
    replace (length pre + 1)%nat with (length (pre ++ [100])) by (rewrite length_app; simpl; lia).
    rewrite Hl; [|lia| |done].
    + rewrite !length_app. simpl. do 2 f_equal. lia.
    + by intros ???? ?%elem_of_nil.
Qed.

(** * The properties of the codec *)

Lemma decode_total buf :
  match decode buf with
  | Ok (Some (_, n)) => (0 < n <= length buf)%nat
  | Ok None | Err _ => True
  | Panic | OutOfFuel => False
  end.
Proof.
  unfold decode. pose proof (parse_value_total buf) as H. unfold advances in H.
  destruct (parse_value _ _ _) as [[v n]|[]| |]; simpl in H; lia || done.
Qed.

(** Decoding the encoding of a value, whatever bytes follow. *)
Lemma decode_encode_app v rest :
  bencode_ok v -> Z.of_nat (length (encode_to_vec v ++ rest)) <= usize_max ->
  decode (encode_to_vec v ++ rest) = Ok (Some (v, length (encode_to_vec v))).
Proof.
  intros Hv Hlen. destruct (bencode_ok_round_trips v Hv) as [f Hf].
  specialize (Hf f [] rest ltac:(lia) Hlen). simpl in Hf.
  unfold decode. rewrite (parse_value_decode_fuel f) by by rewrite Hf.
  by rewrite Hf.
Qed.

(** A decided result is stable under more input. *)
Lemma decode_extend buf ext :
  decode buf <> Ok None -> decode (buf ++ ext) = decode buf.
Proof.
  intros Hd. unfold decode.
  assert (settled (parse_value (decode_fuel buf) buf 0)) as Hs.
  { pose proof (parse_value_total buf) as Ht. unfold decode in Hd.
    destruct (parse_value _ _ _) as [[]|[]| |]; done. }
  rewrite (parse_value_extend (decode_fuel buf) _ buf ext) by
    (done || unfold decode_fuel; rewrite length_app; lia). done.
Qed.

(** * The framing loop *)

Lemma drain_total f buf :
  (length buf < f)%nat -> exists msgs rest open, drain_messages f buf = Ok (msgs, rest, open).
Proof.
  revert buf. induction f as [|f IH]; intros buf Hf; [lia|]. simpl.
  pose proof (decode_total buf) as Hd.
  destruct (decode buf) as [[[v n]|]| | |]; try done; eauto.
  replace (n <=? length buf)%nat with true by (symmetry; apply Nat.leb_le; lia).
  destruct (IH (drop n buf)) as (msgs & rest & open & ->); [rewrite length_drop; lia|].
  simpl. eauto.
Qed.

Lemma drain_fuel f f' buf :
  (length buf < f)%nat -> (length buf < f')%nat -> drain_messages f buf = drain_messages f' buf.
Proof.
  revert f' buf. induction f as [|f IH]; intros [|f'] buf Hf Hf'; try lia. cbn [drain_messages].
  pose proof (decode_total buf) as Hd.
  destruct (decode buf) as [[[v n]|]| | |]; try done.
  destruct (n <=? length buf)%nat; [|done].
  by rewrite (IH f') by (rewrite length_drop; lia).
Qed.

(** Appending input to a drained buffer continues where the loop stopped. *)
Lemma drain_extend f f' f'' buf ext msgs rest :
  drain_messages f buf = Ok (msgs, rest, true) ->
  (length (buf ++ ext) < f')%nat -> (length (rest ++ ext) < f'')%nat ->
  drain_messages f' (buf ++ ext) =
  (r ← drain_messages f'' (rest ++ ext);
   let '(more, rest', open) := r in Ok (msgs ++ more, rest', open)).
Proof.
  revert f' f'' buf msgs rest. induction f as [|f IH]; [done|].
  intros f' f'' buf msgs rest Hd Hf' Hf''. cbn [drain_messages] in Hd.
  pose proof (decode_total buf) as Ht.
  destruct (decode buf) as [[[v n]|]| | |] eqn:E; try done.
  - destruct f' as [|f']; [lia|]. cbn [drain_messages].
    rewrite decode_extend, E by by rewrite E. rewrite length_app in *.
    replace (n <=? length buf + length ext)%nat with true by (symmetry; apply Nat.leb_le; lia).
    destruct (n <=? length buf)%nat; [|done].
    destruct (drain_messages f (drop n buf)) as [[[m' r'] o']| | |] eqn:E'; simpl in Hd; try done.
    simplify_eq. rewrite drop_app_le by lia.
    rewrite (IH f' f'' (drop n buf) m' rest E');
      [|rewrite length_app, length_drop; lia | by rewrite length_app].
    destruct (drain_messages f'' _) as [[[]]| | |]; done.
  - simplify_eq. rewrite (drain_fuel f' f'') by done.
    destruct (drain_messages f'' _) as [[[]]| | |]; done.
Qed.

(** After a decoding error the loop has stopped for good. *)
Lemma drain_extend_closed f f' buf ext msgs rest :
  drain_messages f buf = Ok (msgs, rest, false) ->
  (length (buf ++ ext) < f')%nat ->
  drain_messages f' (buf ++ ext) = Ok (msgs, rest ++ ext, false).
Proof.
  revert f' buf msgs rest. induction f as [|f IH]; [done|].
  intros [|f'] buf msgs rest Hd Hf'; [lia|]. cbn [drain_messages] in *.
  pose proof (decode_total buf) as Ht.
  destruct (decode buf) as [[[v n]|]| | |] eqn:E; try done;
    (rewrite decode_extend, E by by rewrite E).
  - rewrite length_app in *.
    replace (n <=? length buf + length ext)%nat with true by (symmetry; apply Nat.leb_le; lia).
    destruct (n <=? length buf)%nat; [|done].
    destruct (drain_messages f (drop n buf)) as [[[m' r'] o']| | |] eqn:E'; simpl in Hd; try done.
    simplify_eq. rewrite drop_app_le by lia.
    by rewrite (IH f' (drop n buf) m' rest E') by (rewrite length_app, length_drop; lia).
  - by simplify_eq.
Qed.

(** Splitting the byte stream into chunks does not matter. *)
Lemma reader_task_concat chunks buf :
  Forall (fun c => c <> []) chunks ->
  reader_task buf chunks =
  (r ← drain_messages (S (length (buf ++ concat chunks))) (buf ++ concat chunks); Ok r.1.1).
Proof.
  intros HF. revert buf. induction HF as [|chunk chunks Hc _ IH]; intros buf; cbn [reader_task concat].
  - rewrite app_nil_r.
    destruct (drain_total (S (length buf)) buf) as (msgs & rest & open & ->); [lia|].
    simpl. by destruct open.
  - destruct (drain_total (S (length buf)) buf) as (msgs & rest & open & E); [lia|].
    rewrite E. cbn [mbind outcome_bind]. destruct open.
    + destruct chunk as [|c chunk]; [done|]. rewrite IH, <- app_assoc.
      set (ext := (c :: chunk) ++ concat chunks).
      rewrite (drain_extend _ (S (length (buf ++ ext))) (S (length (rest ++ ext))) buf ext _ _ E) by lia.
      destruct (drain_messages _ (rest ++ ext)) as [[[]]| | |]; done.
    + rewrite (drain_extend_closed _ _ buf _ _ _ E) by lia. by destruct chunk.
Qed.

Lemma decode_encode_take v k :
  bencode_ok v -> Z.of_nat (length (encode_to_vec v)) <= usize_max ->
  (k < length (encode_to_vec v))%nat -> decode (take k (encode_to_vec v)) = Ok None.
Proof.
  intros Hv Hlen Hk.
  pose proof (decode_encode_app v [] Hv) as He. rewrite app_nil_r in He. specialize (He Hlen).
  pose proof (decode_total (take k (encode_to_vec v))) as Ht.
  pose proof (decode_extend (take k (encode_to_vec v)) (drop k (encode_to_vec v))) as Hx.
  rewrite take_drop, He in Hx. rewrite length_take in Ht.
  destruct (decode (take k _)) as [[[w n]|]| | |]; try done; specialize (Hx ltac:(done)); simplify_eq.
  lia.
Qed.

Lemma drain_encoded f msgs tail :
  Forall bencode_ok msgs -> decode tail = Ok None ->
  Z.of_nat (length ((msgs ≫= encode_to_vec) ++ tail)) <= usize_max ->
  (length ((msgs ≫= encode_to_vec) ++ tail) < f)%nat ->
  drain_messages f ((msgs ≫= encode_to_vec) ++ tail) = Ok (msgs, tail, true).
Proof.
  intros HF Ht. revert f. induction HF as [|v msgs Hv _ IH]; intros f Hlen Hf;
    (destruct f as [|f]; [lia|]); cbn [mbind list_bind drain_messages] in *.
  - by rewrite app_nil_l, Ht.
  - fold (mbind encode_to_vec : list Bencode -> list Z) in *. rewrite <- app_assoc in *.
    rewrite decode_encode_app by done. rewrite (length_app (encode_to_vec v)) in *.
    replace (_ <=? _)%nat with true by (symmetry; apply Nat.leb_le; lia).
    rewrite drop_app_length.
    destruct (encode_head v) as (c & t & E & _). rewrite E in Hf, Hlen. simpl in Hf, Hlen.
    rewrite IH by lia. done.
Qed.

(** * Properties *)

(** C29: encoding any well-formed value and decoding it, with any bytes
    following it in the buffer, gives back the value and the number of bytes
    its encoding takes. *)
Theorem bencode_round_trip (v : Bencode) (rest : list Z)
    (Hv : bencode_ok v)
    (Hlen : Z.of_nat (length (encode_to_vec v ++ rest)) <= usize_max) :
  decode (encode_to_vec v ++ rest) = Ok (Some (v, length (encode_to_vec v))).
Proof. by apply decode_encode_app. Qed.

Lemma bencode_round_trip_witness :
  decode (encode_to_vec (Dict [([97], Int (-42)); ([98], List [Bytes [0; 255]])]) ++ [105; 50])
  = Ok (Some (Dict [([97], Int (-42)); ([98], List [Bytes [0; 255]])], 19%nat)).
Proof.
  refine (bencode_round_trip (Dict [([97], Int (-42)); ([98], List [Bytes [0; 255]])]) [105; 50] _ _).
  - apply ok_dict.
    + split; [intros k v H%list_elem_of_singleton; by simplify_eq|].
      split; [by intros ?? ?%elem_of_nil | done].
    + repeat constructor; done.
  - vm_compute. done.
Defined.

(** Decoding a proper prefix of an encoding never fails and never yields a
    value: it asks for more bytes. *)
Theorem bencode_prefix_incomplete (v : Bencode) (k : nat)
    (Hv : bencode_ok v)
    (Hlen : Z.of_nat (length (encode_to_vec v)) <= usize_max)
    (Hk : (k < length (encode_to_vec v))%nat) :
  decode (take k (encode_to_vec v)) = Ok None.
Proof. by apply decode_encode_take. Qed.

Lemma bencode_prefix_incomplete_witness :
  decode (take 5 (encode_to_vec (List [Int 12; Bytes [97; 98]]))) = Ok None.
Proof.
  refine (bencode_prefix_incomplete (List [Int 12; Bytes [97; 98]]) 5 _ _ _).
  - repeat constructor; done.
  - vm_compute. done.
  - vm_compute. lia.
Defined.

(** On every input [decode] returns without panicking or looping, a value
    consumes at least one byte and only bytes of the buffer, and a value or an
    error is final: bytes that arrive later do not change it. *)
Theorem bencode_decode_final (buf ext : list Z) :
  match decode buf with
  | Ok (Some (v, n)) => (0 < n <= length buf)%nat /\ decode (buf ++ ext) = Ok (Some (v, n))
  | Ok None => True
  | Err e => decode (buf ++ ext) = Err e
  | Panic | OutOfFuel => False
  end.
Proof.
  pose proof (decode_total buf) as Ht. pose proof (decode_extend buf ext) as Hx.
  destruct (decode buf) as [[[v n]|]| | |]; auto; done.
Qed.

(** C30: however the network splits the byte stream of a sequence of encoded
    messages, and even when it stops inside one more message, the connection
    loop dispatches exactly the messages sent, in order. *)
Theorem reader_task_any_chunking (msgs : list Bencode) (last : Bencode) (k : nat)
    (chunks : list (list Z))
    (Hmsgs : Forall bencode_ok msgs) (Hlast : bencode_ok last)
    (Hk : (k < length (encode_to_vec last))%nat)
    (Hchunks : Forall (fun c => c <> []) chunks)
    (Hstream : concat chunks = (msgs ≫= encode_to_vec) ++ take k (encode_to_vec last))
    (Hlen : Z.of_nat (length ((msgs ≫= encode_to_vec) ++ encode_to_vec last)) <= usize_max) :
  reader_task [] chunks = Ok msgs.
Proof.
  rewrite length_app in Hlen.
  rewrite reader_task_concat by done. rewrite app_nil_l, Hstream.
  rewrite drain_encoded; [done | done | | | lia].
  - apply decode_encode_take; done || lia.
  - rewrite length_app, length_take. lia.
Qed.

Lemma reader_task_any_chunking_witness :
  reader_task [] [[105; 49]; [101; 50; 58]; [104; 105; 108]] = Ok [Int 1; Bytes [104; 105]].
Proof.
  refine (reader_task_any_chunking [Int 1; Bytes [104; 105]] (List []) 1 _ _ _ _ _ _ _).
  - repeat constructor; done.
  - repeat constructor.
  - vm_compute. lia.
  - repeat constructor; done.
  - reflexivity.
  - vm_compute. done.
Defined.
