(* ===== verification/StoreCodec.v ===== *)
(** The order-preserving byte encoding of datom values
    (crates/cljrs-datalog-store/src/codec.rs).

    A [StoreValue] encodes to bytes whose lexicographic order is the value
    order, and no encoding is a proper prefix of another, so encodings can sit
    in the middle of composite index keys.  An [f64] is its IEEE-754 bit
    pattern, a [String] the list of its characters.  [decode] of a vector
    recurses into the rest of the buffer; it takes [2 * len + 2] fuel, which is
    proved to be enough. *)
From S2P Require Import Prelude RustStd.
From stdpp Require Import strings.
Local Open Scope Z_scope.

(** * Data *)

Inductive StoreValue : Type :=
| Bool (b : bool)
| Long (n : Z)
| Double (bits : Z)
| Instant (n : Z)
| Str (s : list Z)
| Keyword (s : list Z)
| Uuid (b : list Z)
| Ref (e : Z)
| Bytes (b : list Z)
| Vec (items : list StoreValue).

Definition TAG_BOOL : Z := 0x10.
Definition TAG_LONG : Z := 0x20.
Definition TAG_DOUBLE : Z := 0x30.
Definition TAG_INSTANT : Z := 0x40.
Definition TAG_STR : Z := 0x50.
Definition TAG_KEYWORD : Z := 0x60.
Definition TAG_UUID : Z := 0x70.
Definition TAG_REF : Z := 0x80.
Definition TAG_BYTES : Z := 0x90.
Definition TAG_VEC : Z := 0xA0.
Definition TAG_VEC_END : Z := 0x01.
Definition TAG_GIANT_STR : Z := 0x51.
Definition TAG_GIANT_BYTES : Z := 0x91.

Definition GIANT_THRESHOLD : nat := 400.
Definition GIANT_PREFIX : nat := 64.

Inductive Decoded : Type :=
| Value (v : StoreValue)
| Giant (tag id : Z).

(** * Scalars *)

Definition sign_bit : Z := 2 ^ 63.

Definition order_i64 (n : Z) : list Z := to_be_bytes 8 (Z.lxor (wrap_u64 n) sign_bit).

Definition unorder_i64 (bytes : list Z) : Z := wrap_i64 (Z.lxor (from_be_bytes bytes) sign_bit).

(** [!bits] on a [u64]. *)
Definition not_u64 (bits : Z) : Z := u64_max - bits.

Definition order_f64 (bits : Z) : list Z :=
  let ordered := if Z.land bits sign_bit =? 0 then Z.lor bits sign_bit else not_u64 bits in
  to_be_bytes 8 ordered.

Definition unorder_f64 (bytes : list Z) : Z :=
  let ordered := from_be_bytes bytes in
  if negb (Z.land ordered sign_bit =? 0) then Z.land ordered (not_u64 sign_bit)
  else not_u64 ordered.

(** * Escaped byte strings *)

Fixpoint push_escaped_loop (raw out : list Z) : list Z :=
  match raw with
  | [] => out
  | b :: raw' => push_escaped_loop raw' (if b =? 0 then out ++ [b; 1] else out ++ [b])
  end.

Definition push_escaped (raw out : list Z) : list Z := push_escaped_loop raw out ++ [0; 0].

Fixpoint pop_escaped_loop (bytes : list Z) (raw : list Z) (i : nat) : outcome string (list Z * nat) :=
  match bytes with
  | [] => Err "unterminated escaped bytes"
  | b :: rest =>
      if b =? 0 then
        match rest with
        | [] => Err "unterminated escape"
        | next :: rest' =>
            if next =? 0 then Ok (raw, (i + 2)%nat)
            else if next =? 1 then pop_escaped_loop rest' (raw ++ [0]) (i + 2)
            else Err "invalid escape"
        end
      else pop_escaped_loop rest (raw ++ [b]) (i + 1)
  end.

Definition pop_escaped (bytes : list Z) : outcome string (list Z * nat) := pop_escaped_loop bytes [] 0.

(** * Encoding *)

Fixpoint encode_inline (v : StoreValue) (out : list Z) : list Z :=
  match v with
  | Bool b => out ++ [TAG_BOOL; Z.b2z b]
  | Long n => (out ++ [TAG_LONG]) ++ order_i64 n
  | Instant n => (out ++ [TAG_INSTANT]) ++ order_i64 n
  | Double d => (out ++ [TAG_DOUBLE]) ++ order_f64 d
  | Str s => push_escaped (utf8_encode s) (out ++ [TAG_STR])
  | Keyword s => push_escaped (utf8_encode s) (out ++ [TAG_KEYWORD])
  | Uuid b => (out ++ [TAG_UUID]) ++ b
  | Ref e => (out ++ [TAG_REF]) ++ to_be_bytes 8 e
  | Bytes b => push_escaped b (out ++ [TAG_BYTES])
  | Vec items =>
      fold_left (fun out item => encode_inline item out) items (out ++ [TAG_VEC]) ++ [TAG_VEC_END]
  end.

(** * Decoding *)

(** [bytes.get(a..b)]: [None] outside the slice. *)
Definition get_range (bytes : list Z) (a b : nat) : option (list Z) :=
  if (b <=? length bytes)%nat then Some (take (b - a) (drop a bytes)) else None.

Definition ok_or {A : Type} (o : option A) (e : string) : outcome string A :=
  match o with
  | Some a => Ok a
  | None => Err e
  end.

Fixpoint decode_loop (fuel : nat) (bytes : list Z) : outcome string (Decoded * nat) :=
  match fuel with
  | O => OutOfFuel
  | S f =>
      match bytes with
      | [] => Err "empty value encoding"
      | tag :: rest =>
          if tag =? TAG_BOOL then
            b ← ok_or (head rest) "truncated bool";
            Ok (Value (Bool (negb (b =? 0))), 2%nat)
          else if (tag =? TAG_LONG) || (tag =? TAG_INSTANT) then
            raw ← ok_or (get_range rest 0 8) "truncated long";
            let n := unorder_i64 raw in
            Ok (Value (if tag =? TAG_LONG then Long n else Instant n), 9%nat)
          else if tag =? TAG_DOUBLE then
            raw ← ok_or (get_range rest 0 8) "truncated double";
            Ok (Value (Double (unorder_f64 raw)), 9%nat)
          else if (tag =? TAG_STR) || (tag =? TAG_KEYWORD) then
            r ← pop_escaped rest;
            s ← ok_or (utf8_decode r.1) "invalid utf8";
            Ok (Value (if tag =? TAG_STR then Str s else Keyword s), (1 + r.2)%nat)
          else if tag =? TAG_UUID then
            raw ← ok_or (get_range rest 0 16) "truncated uuid";
            Ok (Value (Uuid raw), 17%nat)
          else if tag =? TAG_REF then
            raw ← ok_or (get_range rest 0 8) "truncated ref";
            Ok (Value (Ref (from_be_bytes raw)), 9%nat)
          else if tag =? TAG_BYTES then
            r ← pop_escaped rest;
            Ok (Value (Bytes r.1), (1 + r.2)%nat)
          else if tag =? TAG_VEC then decode_items f bytes 1 []
          else if (tag =? TAG_GIANT_STR) || (tag =? TAG_GIANT_BYTES) then
            idb ← ok_or (get_range rest GIANT_PREFIX (GIANT_PREFIX + 8)) "truncated giant";
            Ok (Giant tag (from_be_bytes idb), (1 + GIANT_PREFIX + 8)%nat)
          else Err "unknown value tag"
      end
  end
with decode_items (fuel : nat) (bytes : list Z) (at_ : nat) (items : list StoreValue)
    : outcome string (Decoded * nat) :=
  match fuel with
  | O => OutOfFuel
  | S f =>
      match bytes !! at_ with
      | None => Err "unterminated vector encoding"
      | Some t =>
          if t =? TAG_VEC_END then Ok (Value (Vec items), (at_ + 1)%nat)
          else
            r ← decode_loop f (drop at_ bytes);
            match r with
            | (Value v, used) => decode_items f bytes (at_ + used) (items ++ [v])
            | (Giant _ _, _) => Err "giant inside vector encoding"
            end
      end
  end.

Definition decode (bytes : list Z) : outcome string (Decoded * nat) :=
  decode_loop (2 * length bytes + 2) bytes.

(** * Well-formed values and the value order *)

(** What the Rust types guarantee of a value. *)
Inductive value_ok : StoreValue -> Prop :=
| ok_bool b : value_ok (Bool b)
| ok_long n : is_i64 n -> value_ok (Long n)
| ok_double bits : is_u64 bits -> value_ok (Double bits)
| ok_instant n : is_i64 n -> value_ok (Instant n)
| ok_str s : Forall (fun c => is_scalar c = true) s -> value_ok (Str s)
| ok_keyword s : Forall (fun c => is_scalar c = true) s -> value_ok (Keyword s)
| ok_uuid b : length b = 16%nat -> Forall is_byte b -> value_ok (Uuid b)
| ok_ref e : is_u64 e -> value_ok (Ref e)
| ok_vbytes b : Forall is_byte b -> value_ok (Bytes b)
| ok_vec items : Forall value_ok items -> value_ok (Vec items).

Definition tag_of (v : StoreValue) : Z :=
  match v with
  | Bool _ => TAG_BOOL
  | Long _ => TAG_LONG
  | Double _ => TAG_DOUBLE
  | Instant _ => TAG_INSTANT
  | Str _ => TAG_STR
  | Keyword _ => TAG_KEYWORD
  | Uuid _ => TAG_UUID
  | Ref _ => TAG_REF
  | Bytes _ => TAG_BYTES
  | Vec _ => TAG_VEC
  end.

(** IEEE-754 total order: sign-magnitude as a signed number. *)
Definition f64_key (bits : Z) : Z := if bits <? 2 ^ 63 then bits else 2 ^ 63 - 1 - bits.

(** The order the index promises: by type, then by value; strings by their
    UTF-8 bytes, vectors element-wise with a proper prefix first. *)
Fixpoint value_compare (a b : StoreValue) : comparison :=
  match a, b with
  | Bool x, Bool y => Z.b2z x ?= Z.b2z y
  | Long x, Long y => x ?= y
  | Double x, Double y => f64_key x ?= f64_key y
  | Instant x, Instant y => x ?= y
  | Str x, Str y => lex_compare (utf8_encode x) (utf8_encode y)
  | Keyword x, Keyword y => lex_compare (utf8_encode x) (utf8_encode y)
  | Uuid x, Uuid y => lex_compare x y
  | Ref x, Ref y => x ?= y
  | Bytes x, Bytes y => lex_compare x y
  | Vec xs, Vec ys =>
      (fix go (xs ys : list StoreValue) : comparison :=
         match xs, ys with
         | [], [] => Eq
         | [], _ :: _ => Lt
         | _ :: _, [] => Gt
         | x :: xs', y :: ys' =>
             match value_compare x y with
             | Eq => go xs' ys'
             | c => c
             end
         end) xs ys
  | _, _ => tag_of a ?= tag_of b
  end.

Fixpoint values_compare (xs ys : list StoreValue) : comparison :=
  match xs, ys with
  | [], [] => Eq
  | [], _ :: _ => Lt
  | _ :: _, [] => Gt
  | x :: xs', y :: ys' =>
      match value_compare x y with
      | Eq => values_compare xs' ys'
      | c => c
      end
  end.

Section StoreValue_nested_ind.
Variable P : StoreValue -> Prop.
Hypothesis Hscalar : forall v, (forall items, v <> Vec items) -> P v.
Hypothesis HVec : forall items, Forall P items -> P (Vec items).

Fixpoint StoreValue_nested_ind (v : StoreValue) : P v :=
  match v with
  | Vec items => HVec items
      ((fix go l : Forall P l :=
          match l with
          | [] => Forall_nil_2 P
          | x :: l' => Forall_cons_2 P x l' (StoreValue_nested_ind x) (go l')
          end) items)
  | v' => Hscalar v' ltac:(discriminate)
  end.
End StoreValue_nested_ind.

(** * Scalars: value and order of the big-endian images *)

Lemma land_sign_bit u : 0 <= u < 2 ^ 63 -> Z.land u (2 ^ 63) = 0.
Proof.
  intros Hu. apply Z.bits_inj'. intros n Hn.
  rewrite Z.land_spec, Z.pow2_bits_eqb, Z.bits_0 by lia.
  destruct (Z.eqb_spec 63 n) as [<-|]; [|apply andb_false_r].
  rewrite andb_true_r. apply Z.testbit_false; [lia|]. rewrite Z.div_small by lia. done.
Qed.

Lemma land_add_sign_bit u : 0 <= u < 2 ^ 63 -> Z.land (u + 2 ^ 63) (2 ^ 63) = 2 ^ 63.
Proof.
  intros Hu. rewrite Z.add_nocarry_lxor, Z.lxor_lor by by apply land_sign_bit.
  by rewrite Z.land_lor_distr_l, land_sign_bit, Z.land_diag.
Qed.

Lemma lxor_sign_bit u :
  0 <= u < 2 ^ 64 -> Z.lxor u sign_bit = if u <? 2 ^ 63 then u + 2 ^ 63 else u - 2 ^ 63.
Proof.
  intros Hu. unfold sign_bit. destruct (Z.ltb_spec u (2 ^ 63)).
  - symmetry. apply Z.add_nocarry_lxor, land_sign_bit. lia.
  - replace u with (Z.lxor (u - 2 ^ 63) (2 ^ 63)) at 1.
    + rewrite Z.lxor_assoc, Z.lxor_nilpotent. apply Z.lxor_0_r.
    + rewrite <- Z.add_nocarry_lxor; [lia|]. apply land_sign_bit. lia.
Qed.

Lemma order_i64_eq n : is_i64 n -> order_i64 n = to_be_bytes 8 (n + 2 ^ 63).
Proof.
  intros Hn. unfold is_i64, i64_min, i64_max in Hn. unfold order_i64, wrap_u64.
  f_equal. pose proof (Z.mod_pos_bound n (2 ^ 64) ltac:(lia)).
  rewrite lxor_sign_bit by lia.
  assert (n mod 2 ^ 64 = if n <? 0 then n + 2 ^ 64 else n) as ->.
  { destruct (Z.ltb_spec n 0); [|by rewrite Z.mod_small by lia].
    symmetry. apply (Z.mod_unique_pos n (2 ^ 64) (-1)); lia. }
  destruct (Z.ltb_spec n 0); case_if; bool_hyps; lia.
Qed.

Lemma unorder_order_i64 n : is_i64 n -> unorder_i64 (order_i64 n) = n.
Proof.
  intros Hn. rewrite order_i64_eq by done. unfold is_i64, i64_min, i64_max in Hn.
  unfold unorder_i64, wrap_i64. rewrite from_to_be_bytes by (simpl; lia).
  rewrite lxor_sign_bit by lia.
  destruct (Z.ltb_spec (n + 2 ^ 63) (2 ^ 63)).
  - replace (n + 2 ^ 63 + 2 ^ 63 + 2 ^ 63) with (n + 2 ^ 63 + 1 * 2 ^ 64) by lia.
    rewrite Z.mod_add, Z.mod_small by lia. lia.
  - replace (n + 2 ^ 63 - 2 ^ 63 + 2 ^ 63) with (n + 2 ^ 63) by lia.
    rewrite Z.mod_small by lia. lia.
Qed.

Lemma order_f64_eq bits : is_u64 bits -> order_f64 bits = to_be_bytes 8 (f64_key bits + 2 ^ 63).
Proof.
  intros Hb. unfold is_u64, u64_max in Hb. unfold order_f64, f64_key, not_u64, u64_max, sign_bit.
  f_equal. destruct (Z.ltb_spec bits (2 ^ 63)).
  - rewrite land_sign_bit by lia. simpl (0 =? 0). cbv iota.
    rewrite <- Z.lxor_lor by (apply land_sign_bit; lia).
    rewrite <- Z.add_nocarry_lxor by (apply land_sign_bit; lia). done.
  - assert (Z.land bits (2 ^ 63) = 2 ^ 63) as ->.
    { replace bits with (bits - 2 ^ 63 + 2 ^ 63) by lia. apply land_add_sign_bit. lia. }
    simpl (2 ^ 63 =? 0). cbv iota. lia.
Qed.

Lemma unorder_order_f64 bits : is_u64 bits -> unorder_f64 (order_f64 bits) = bits.
Proof.
  intros Hb. rewrite order_f64_eq by done. unfold is_u64, u64_max in Hb.
  unfold unorder_f64, f64_key, not_u64, u64_max, sign_bit.
  rewrite from_to_be_bytes by (simpl; case_if; bool_hyps; lia).
  destruct (Z.ltb_spec bits (2 ^ 63)).
  - rewrite land_add_sign_bit by lia.
    simpl (negb _). cbv iota.
    change (2 ^ 64 - 1 - 2 ^ 63) with (Z.ones 63). rewrite Z.land_ones by lia.
    replace (bits + 2 ^ 63) with (bits + 1 * 2 ^ 63) by lia.
    rewrite Z.mod_add, Z.mod_small by lia. done.
  - rewrite land_sign_bit by lia. simpl (negb _). cbv iota. lia.
Qed.

(** * Escaped byte strings *)

Definition escape_byte (b : Z) : list Z := if b =? 0 then [0; 1] else [b].
Definition escaped (raw : list Z) : list Z := (raw ≫= escape_byte) ++ [0; 0].

Lemma push_escaped_eq raw out : push_escaped raw out = out ++ escaped raw.
Proof.
  unfold push_escaped, escaped. rewrite app_assoc. f_equal.
  revert out. induction raw as [|b raw IH]; intros out; simpl; [by rewrite app_nil_r|].
  rewrite IH. unfold escape_byte. destruct (Z.eqb_spec b 0) as [->|]; by rewrite <- app_assoc.
Qed.

Lemma escaped_cons b raw : escaped (b :: raw) = escape_byte b ++ escaped raw.
Proof. unfold escaped. simpl. by rewrite <- app_assoc. Qed.

(** Escaping is an order embedding that ends with its own terminator. *)
Lemma lex_compare_escaped a b ra rb :
  Forall is_byte a -> Forall is_byte b ->
  lex_compare (escaped a ++ ra) (escaped b ++ rb) =
  match lex_compare a b with Eq => lex_compare ra rb | c => c end.
Proof.
  intros Ha. revert b. induction Ha as [|x a Hx _ IH]; intros b Hb;
    destruct Hb as [|y b Hy Hb]; unfold is_byte in *.
  - done.
  - rewrite escaped_cons. unfold escape_byte.
    destruct (Z.eqb_spec y 0); cbn [app]; [done|]. by apply lex_compare_lt_head; lia.
  - rewrite escaped_cons. unfold escape_byte.
    destruct (Z.eqb_spec x 0); cbn [app]; [done|]. by apply lex_compare_gt_head; lia.
  - rewrite !escaped_cons. unfold escape_byte.
    destruct (Z.compare_spec x y) as [->|Hlt|Hgt].
    + rewrite lex_compare_same_head, <- IH by done.
      destruct (Z.eqb_spec y 0); cbn [app]; by rewrite !lex_compare_same_head.
    + rewrite (lex_compare_lt_head x y) by done.
      destruct (Z.eqb_spec x 0), (Z.eqb_spec y 0); cbn [app]; apply lex_compare_lt_head; lia.
    + rewrite (lex_compare_gt_head x y) by done.
      destruct (Z.eqb_spec x 0), (Z.eqb_spec y 0); cbn [app]; apply lex_compare_gt_head; lia.
Qed.

Lemma pop_escaped_loop_escaped raw rest acc i :
  pop_escaped_loop (escaped raw ++ rest) acc i = Ok (acc ++ raw, (i + length (escaped raw))%nat).
Proof.
  revert acc i. induction raw as [|b raw IH]; intros acc i.
  - simpl. by rewrite app_nil_r.
  - rewrite escaped_cons. unfold escape_byte. destruct (Z.eqb_spec b 0) as [->|Hb]; simpl.
    + rewrite IH, <- app_assoc. do 2 f_equal. lia.
    + destruct (Z.eqb_spec b 0); [done|]. rewrite IH, <- app_assoc. do 2 f_equal. lia.
Qed.

Lemma pop_escaped_escaped raw rest :
  pop_escaped (escaped raw ++ rest) = Ok (raw, length (escaped raw)).
Proof. apply pop_escaped_loop_escaped. Qed.

(** * Equations of the encoder *)

Definition encoded (v : StoreValue) : list Z := encode_inline v [].

Lemma encode_inline_app v out : encode_inline v out = out ++ encoded v.
Proof.
  unfold encoded. revert out.
  induction v as [v Hv|items IH] using StoreValue_nested_ind; intros out.
  - destruct v; simpl; rewrite ?push_escaped_eq, ?app_nil_l; rewrite <- ?app_assoc; try done.
    by destruct (Hv items).
  - simpl. enough (forall o, fold_left (fun out item => encode_inline item out) items o =
                      o ++ fold_left (fun out item => encode_inline item out) items []) as H.
    { rewrite (H (out ++ [TAG_VEC])), (H [TAG_VEC]). by rewrite <- !app_assoc. }
    induction IH as [|x l Hx _ IHl]; intros o; simpl; [by rewrite app_nil_r|].
    by rewrite (IHl (encode_inline x o)), (IHl (encode_inline x [])), (Hx o), <- app_assoc.
Qed.

Lemma encoded_vec items : encoded (Vec items) = [TAG_VEC] ++ (items ≫= encoded) ++ [TAG_VEC_END].
Proof.
  unfold encoded at 1. simpl. rewrite app_comm_cons. f_equal.
  enough (forall o, fold_left (fun out item => encode_inline item out) items o =
                    o ++ (items ≫= encoded)) as H by apply H.
  induction items as [|x l IH]; intros o; simpl; [by rewrite app_nil_r|].
  by rewrite IH, encode_inline_app, <- app_assoc.
Qed.

Lemma encoded_str s : encoded (Str s) = TAG_STR :: escaped (utf8_encode s).
Proof. unfold encoded. simpl. by rewrite push_escaped_eq. Qed.

Lemma encoded_keyword s : encoded (Keyword s) = TAG_KEYWORD :: escaped (utf8_encode s).
Proof. unfold encoded. simpl. by rewrite push_escaped_eq. Qed.

Lemma encoded_bytes b : encoded (Bytes b) = TAG_BYTES :: escaped b.
Proof. unfold encoded. simpl. by rewrite push_escaped_eq. Qed.

(** Every encoding starts with the tag of its type. *)
Lemma encoded_head v : exists t, encoded v = tag_of v :: t.
Proof.
  destruct v; rewrite ?encoded_vec, ?encoded_str, ?encoded_keyword, ?encoded_bytes;
    unfold encoded; simpl; eauto.
Qed.

Lemma tag_of_range v : 0x10 <= tag_of v <= 0xA0.
Proof. destruct v; vm_compute; done. Qed.

(** * Order *)

Lemma value_compare_vec xs ys : value_compare (Vec xs) (Vec ys) = values_compare xs ys.
Proof. by revert ys; induction xs as [|x xs IH]; intros [|y ys]. Qed.

(** [ordered_by a b ea eb]: the encodings [ea] and [eb], followed by anything,
    compare as the values [a] and [b] do. *)
Definition encodes_order (a b : StoreValue) : Prop :=
  forall ra rb, lex_compare (encoded a ++ ra) (encoded b ++ rb) =
    match value_compare a b with Eq => lex_compare ra rb | c => c end.

Lemma encodes_order_tags a b :
  value_compare a b = (tag_of a ?= tag_of b) -> tag_of a <> tag_of b -> encodes_order a b.
Proof.
  intros Hc Hne ra rb. rewrite Hc.
  destruct (encoded_head a) as [ta ->], (encoded_head b) as [tb ->]. simpl.
  by destruct (Z.compare_spec (tag_of a) (tag_of b)).
Qed.

(** Two encodings with the same tag and fixed-width big-endian bodies. *)
Lemma lex_compare_tagged_be t m n ra rb :
  0 <= m < 2 ^ 64 -> 0 <= n < 2 ^ 64 ->
  lex_compare (t :: to_be_bytes 8 m ++ ra) (t :: to_be_bytes 8 n ++ rb) =
  match m ?= n with Eq => lex_compare ra rb | c => c end.
Proof.
  intros Hm Hn. rewrite lex_compare_same_head.
  rewrite lex_compare_app_same_length by by rewrite !length_to_be_bytes.
  by rewrite lex_compare_to_be_bytes by (simpl; lia).
Qed.

Lemma lex_compare_tagged_escaped t a b ra rb :
  Forall is_byte a -> Forall is_byte b ->
  lex_compare ((t :: escaped a) ++ ra) ((t :: escaped b) ++ rb) =
  match lex_compare a b with Eq => lex_compare ra rb | c => c end.
Proof.
  intros Ha Hb. cbn [app]. rewrite lex_compare_same_head. by apply lex_compare_escaped.
Qed.

Lemma compare_add_r x y k : (x + k ?= y + k) = (x ?= y).
Proof. rewrite !(Z.add_comm _ k). apply Z.add_compare_mono_l. Qed.

Lemma f64_key_range bits : is_u64 bits -> - 2 ^ 63 <= f64_key bits < 2 ^ 63.
Proof. unfold is_u64, u64_max, f64_key. intros. case_if; bool_hyps; lia. Qed.

Lemma scalar_encodes_order a b :
  value_ok a -> value_ok b -> tag_of a = tag_of b -> (forall items, a <> Vec items) ->
  encodes_order a b.
Proof.
  intros Ha Hb Ht Hv ra rb.
  destruct a, b; try discriminate Ht; inversion Ha; inversion Hb; subst; clear Ha Hb Ht;
    rewrite ?encoded_str, ?encoded_keyword, ?encoded_bytes;
    cbn [value_compare]; try (apply lex_compare_tagged_escaped; auto using utf8_encode_bytes);
    unfold encoded; cbn [encode_inline app].
  - by destruct b, b0.
  - rewrite !order_i64_eq by done. unfold is_i64, i64_min, i64_max in *.
    rewrite lex_compare_tagged_be by lia. by rewrite compare_add_r.
  - rewrite !order_f64_eq by done.
    pose proof (f64_key_range bits ltac:(done)). pose proof (f64_key_range bits0 ltac:(done)).
    rewrite lex_compare_tagged_be by lia. by rewrite compare_add_r.
  - rewrite !order_i64_eq by done. unfold is_i64, i64_min, i64_max in *.
    rewrite lex_compare_tagged_be by lia. by rewrite compare_add_r.
  - rewrite lex_compare_same_head. apply lex_compare_app_same_length. congruence.
  - unfold is_u64, u64_max in *. by rewrite lex_compare_tagged_be by lia.
  - by destruct (Hv items).
Qed.

Lemma encodes_order_vec xs ys ra rb :
  Forall (fun x => forall b, value_ok b -> encodes_order x b) xs -> Forall value_ok ys ->
  lex_compare ((xs ≫= encoded) ++ [TAG_VEC_END] ++ ra) ((ys ≫= encoded) ++ [TAG_VEC_END] ++ rb) =
  match values_compare xs ys with Eq => lex_compare ra rb | c => c end.
Proof.
  intros Hx. revert ys. induction Hx as [|x xs Hx _ IH]; intros ys Hy;
    destruct Hy as [|y ys Hy Hys]; cbn [mbind list_bind values_compare].
  - done.
  - destruct (encoded_head y) as [t ->]. pose proof (tag_of_range y).
    apply (lex_compare_lt_head 1). lia.
  - destruct (encoded_head x) as [t ->]. pose proof (tag_of_range x).
    apply (lex_compare_gt_head (tag_of x) 1). lia.
  - fold (mbind encoded : list StoreValue -> list Z).
    rewrite <- !(app_assoc (encoded _)), (Hx y Hy).
    destruct (value_compare x y); [by apply IH | done | done].
Qed.

Lemma value_ok_encodes_order a b : value_ok a -> value_ok b -> encodes_order a b.
Proof.
  intros Ha. revert b Ha.
  induction a as [a Hv|xs IH] using StoreValue_nested_ind; intros b Ha Hb.
  - destruct (decide (tag_of a = tag_of b)) as [Ht|Ht]; [by apply scalar_encodes_order|].
    apply encodes_order_tags; [|done]. destruct a, b; done.
  - destruct b as [| | | | | | | | |ys];
      try (apply encodes_order_tags; [done | vm_compute; discriminate]).
    intros ra rb. rewrite value_compare_vec, !encoded_vec, <- !app_assoc.
    cbn [app]. rewrite lex_compare_same_head.
    inversion Ha; inversion Hb; subst. apply encodes_order_vec; [|done].
    rewrite Forall_forall in *. eauto.
Qed.

(** * Totality of the decoder *)

Lemma pop_escaped_loop_total bytes raw i :
  total_post (fun r => i < r.2 <= i + length bytes)%nat (pop_escaped_loop bytes raw i).
Proof.
  revert raw i. induction bytes as [bytes IH] using (induction_ltof1 _ (@length Z)).
  unfold ltof in IH. intros raw i.
  destruct bytes as [|b [|b' bytes]]; simpl; [done| |].
  - case_if; [done | done].
  - case_if; [case_if; [simpl; lia|]; case_if; [|done]|].
    + specialize (IH bytes ltac:(simpl; lia) (raw ++ [0]) (i + 2)%nat).
      destruct (pop_escaped_loop _ _ _); simpl in *; lia || done.
    + specialize (IH (b' :: bytes) ltac:(simpl; lia) (raw ++ [b]) (i + 1)%nat). simpl in IH.
      destruct (if b' =? 0 then _ else _); simpl in *; lia || done.
Qed.

Lemma pop_escaped_total bytes :
  total_post (fun r => r.2 <= length bytes)%nat (pop_escaped bytes).
Proof.
  pose proof (pop_escaped_loop_total bytes [] 0). unfold pop_escaped.
  destruct (pop_escaped_loop _ _ _); simpl in *; lia || done.
Qed.

Lemma get_range_length bytes a b raw :
  get_range bytes a b = Some raw -> (b <= length bytes)%nat.
Proof. unfold get_range. case_if; [|done]. bool_hyps. done. Qed.

Definition consumes (bytes : list Z) (from : nat) (r : Decoded * nat) : Prop :=
  (from < r.2 <= length bytes)%nat.

Lemma decode_scalar_total (f : nat) tag rest :
  (tag =? TAG_VEC) = false -> total_post (consumes (tag :: rest) 0) (decode_loop (S f) (tag :: rest)).
Proof.
  intros Hv. cbn [decode_loop]. rewrite Hv.
  pose proof (pop_escaped_total rest) as Hp. unfold consumes, GIANT_PREFIX.
  repeat case_if; try done; try (by destruct rest; simpl; try lia);
    lazymatch goal with
    | |- total_post _ (ok_or (get_range ?r ?a ?b) _ ≫= _) =>
        let E' := fresh in
        destruct (get_range r a b) eqn:E'; [apply get_range_length in E'; simpl in *; lia | done]
    | |- total_post _ (pop_escaped rest ≫= _) =>
        destruct (pop_escaped rest); simpl in *; try done; try lia;
        destruct (utf8_decode _); simpl in *; lia || done
    end.
Qed.

Lemma decoders_total fuel :
  (forall bytes, (2 * length bytes + 2 <= fuel)%nat ->
     total_post (consumes bytes 0) (decode_loop fuel bytes)) /\
  (forall bytes at_ items, (2 * (length bytes - at_) + 3 <= fuel)%nat ->
     total_post (consumes bytes at_) (decode_items fuel bytes at_ items)).
Proof.
  induction fuel as [|f [IHd IHi]]; [split; intros; lia|]. split.
  - intros [|tag rest] Hf; [done|].
    destruct (tag =? TAG_VEC) eqn:E; [|by apply decode_scalar_total].
    apply Z.eqb_eq in E as ->.
    change (decode_loop (S f) (TAG_VEC :: rest)) with (decode_items f (TAG_VEC :: rest) 1 []).
    specialize (IHi (TAG_VEC :: rest) 1%nat [] ltac:(simpl in *; lia)).
    unfold consumes in *. destruct (decode_items _ _ _ _); simpl in *; lia || done.
  - intros bytes at_ items Hf. cbn [decode_items]. unfold consumes in *.
    destruct (bytes !! at_) as [t|] eqn:Ht; [|done]. apply lookup_lt_Some in Ht.
    case_if; [simpl; lia|].
    specialize (IHd (drop at_ bytes)). rewrite length_drop in IHd. specialize (IHd ltac:(lia)).
    destruct (decode_loop _ _) as [[[v|] used]| | |]; simpl in *; try done.
    specialize (IHi bytes (at_ + used)%nat (items ++ [v]) ltac:(lia)).
    destruct (decode_items _ _ _ _); simpl in *; lia || done.
Qed.

Lemma decoders_more_fuel f :
  (forall f' bytes, decode_loop f bytes <> OutOfFuel -> (f <= f')%nat ->
     decode_loop f' bytes = decode_loop f bytes) /\
  (forall f' bytes at_ items, decode_items f bytes at_ items <> OutOfFuel -> (f <= f')%nat ->
     decode_items f' bytes at_ items = decode_items f bytes at_ items).
Proof.
  induction f as [|f [IHd IHi]]; [done|].
  split; (intros [|f']; [intros; lia|]).
  - intros [|tag rest] Hne Hf; [done|]. cbn [decode_loop] in *.
    repeat (case_if; [done|]). case_if; [|done]. apply IHi; [done | lia].
  - intros bytes at_ items Hne Hf. cbn [decode_items] in *.
    destruct (bytes !! at_); [|done]. case_if; [done|].
    rewrite IHd by (lia || by intros E'; rewrite E' in Hne).
    destruct (decode_loop f _) as [[[v|] used]| | |]; simpl in *; try done.
    apply IHi; [done | lia].
Qed.

Lemma decode_enough_fuel f bytes :
  decode_loop f bytes <> OutOfFuel -> decode bytes = decode_loop f bytes.
Proof.
  intros Hf. unfold decode. set (n := (2 * length bytes + 2)%nat).
  pose proof (proj1 (decoders_total n) bytes ltac:(lia)) as Ht.
  rewrite <- (proj1 (decoders_more_fuel f) (f + n)%nat) by (done || lia).
  rewrite <- (proj1 (decoders_more_fuel n) (f + n)%nat); [done | | lia].
  intros E. by rewrite E in Ht.
Qed.

(** * Round trip *)

Definition decodes (v : StoreValue) : Prop :=
  exists f, forall f' rest, (f <= f')%nat ->
    decode_loop f' (encoded v ++ rest) = Ok (Value v, length (encoded v)).

Lemma get_range_app a b rest : length a = b -> get_range (a ++ rest) 0 b = Some a.
Proof.
  intros <-. unfold get_range. rewrite length_app.
  replace (_ <=? _)%nat with true by (symmetry; apply Nat.leb_le; lia).
  by rewrite drop_0, Nat.sub_0_r, take_app_length.
Qed.

Lemma scalar_decodes v : value_ok v -> (forall items, v <> Vec items) -> decodes v.
Proof.
  intros Hv Hn. exists 1%nat. intros [|f] rest Hf; [lia|].
  destruct Hv; [| | | | | | | | |by destruct (Hn items)];
    rewrite ?encoded_str, ?encoded_keyword, ?encoded_bytes;
    unfold encoded; cbn [encode_inline app];
    match goal with |- decode_loop _ (?t :: _) = _ => unfold t end;
    cbn [decode_loop]; simpl (_ =? _); cbn [orb]; cbv iota.
  - by destruct b.
  - rewrite get_range_app by apply length_to_be_bytes. cbn [ok_or mbind outcome_bind].
    by rewrite unorder_order_i64.
  - rewrite get_range_app by apply length_to_be_bytes. cbn [ok_or mbind outcome_bind].
    by rewrite unorder_order_f64.
  - rewrite get_range_app by apply length_to_be_bytes. cbn [ok_or mbind outcome_bind].
    by rewrite unorder_order_i64.
  - rewrite pop_escaped_escaped. cbn [mbind outcome_bind fst snd].
    by rewrite utf8_decode_encode by done.
  - rewrite pop_escaped_escaped. cbn [mbind outcome_bind fst snd].
    by rewrite utf8_decode_encode by done.
  - rewrite get_range_app by done. simpl. congruence.
  - rewrite get_range_app by apply length_to_be_bytes. cbn [ok_or mbind outcome_bind].
    unfold is_u64, u64_max in *. by rewrite from_to_be_bytes by (simpl; lia).
  - by rewrite pop_escaped_escaped.
Qed.

Lemma decode_items_encode items :
  Forall decodes items ->
  exists f, forall f' pre rest acc, (f <= f')%nat ->
    decode_items f' (pre ++ (items ≫= encoded) ++ [TAG_VEC_END] ++ rest) (length pre) acc =
    Ok (Value (Vec (acc ++ items)), (length pre + length (items ≫= encoded) + 1)%nat).
Proof.
  induction 1 as [|v items [fv Hv] _ [fl Hl]].
  - exists 1%nat. intros [|f] pre rest acc Hf; [lia|].
    cbn [mbind list_bind app decode_items length].
    rewrite list_lookup_middle by done. by rewrite app_nil_r, Nat.add_0_r.
  - exists (S (fv + fl)). intros [|f] pre rest acc Hf; [lia|].
    cbn [mbind list_bind]. fold (mbind encoded : list StoreValue -> list Z).
    rewrite <- app_assoc. cbn [decode_items].
    destruct (encoded_head v) as [t Et]. pose proof (tag_of_range v).
    replace ((pre ++ encoded v ++ _) !! length pre) with (Some (tag_of v))
      by (rewrite Et; symmetry; by apply list_lookup_middle).
    replace (tag_of v =? TAG_VEC_END) with false by (unfold TAG_VEC_END; lia).
    rewrite drop_app_length, Hv by lia. cbn [mbind outcome_bind].
    rewrite (app_assoc pre), <- length_app, Hl by lia.
    rewrite !length_app, <- app_assoc. do 2 f_equal. lia.
Qed.

Lemma value_ok_decodes v : value_ok v -> decodes v.
Proof.
  induction v as [v Hv|items IH] using StoreValue_nested_ind; intros Hok.
  - by apply scalar_decodes.
  - inversion Hok; subst. destruct (decode_items_encode items) as [f Hf].
    { rewrite Forall_forall in *. eauto. }
    exists (S f). intros [|f'] rest Hf'; [lia|].
    rewrite encoded_vec, <- !app_assoc.
    change (decode_loop (S f') ([TAG_VEC] ++ ?x)) with (decode_items f' ([TAG_VEC] ++ x) (length [TAG_VEC]) []).
    rewrite Hf by lia. by rewrite !length_app.
Qed.

Lemma decode_encoded v rest :
  value_ok v -> decode (encoded v ++ rest) = Ok (Value v, length (encoded v)).
Proof.
  intros Hv. destruct (value_ok_decodes v Hv) as [f Hf].
  rewrite (decode_enough_fuel f) by by rewrite Hf by lia. by apply Hf.
Qed.

Lemma codec_decode_total bytes :
  match decode bytes with
  | Ok (_, used) => (0 < used <= length bytes)%nat
  | Err _ => True
  | Panic | OutOfFuel => False
  end.
Proof.
  pose proof (proj1 (decoders_total (2 * length bytes + 2)) bytes ltac:(lia)) as H.
  unfold decode. destruct (decode_loop _ _) as [[]| | |]; done.
Qed.

(** Distinct values have distinct encodings, and none is a prefix of another. *)
Lemma encoded_prefix_free a b ra rb :
  value_ok a -> value_ok b -> encoded a ++ ra = encoded b ++ rb -> a = b /\ ra = rb.
Proof.
  intros Ha Hb E. pose proof (decode_encoded a ra Ha) as Da.
  rewrite E, decode_encoded in Da by done. assert (a = b) as -> by congruence.
  split; [done|]. by apply app_inv_head in E.
Qed.

(** * Doubles: the numeric order *)

(** The exact value of a double times [2 ^ 1074]; infinities take the value
    one binade above the largest finite number. *)
Definition f64_magnitude (bits : Z) : Z := bits mod 2 ^ 63.

Definition f64_scaled_magnitude (mag : Z) : Z :=
  let ex := mag / 2 ^ 52 in
  let mant := mag mod 2 ^ 52 in
  if ex =? 0 then mant else (2 ^ 52 + mant) * 2 ^ (ex - 1).

Definition f64_scaled (bits : Z) : Z :=
  if bits <? 2 ^ 63 then f64_scaled_magnitude bits
  else - f64_scaled_magnitude (bits - 2 ^ 63).

Definition f64_is_nan (bits : Z) : bool := 0x7FF0000000000000 <? f64_magnitude bits.

Lemma f64_scaled_magnitude_mono m n :
  0 <= m < n -> f64_scaled_magnitude m < f64_scaled_magnitude n.
Proof.
  intros Hmn. unfold f64_scaled_magnitude.
  pose proof (Z.div_mod m (2 ^ 52) ltac:(lia)). pose proof (Z.div_mod n (2 ^ 52) ltac:(lia)).
  pose proof (Z.mod_pos_bound m (2 ^ 52) ltac:(lia)). pose proof (Z.mod_pos_bound n (2 ^ 52) ltac:(lia)).
  set (em := m / 2 ^ 52) in *. set (en := n / 2 ^ 52) in *.
  set (rm := m mod 2 ^ 52) in *. set (rn := n mod 2 ^ 52) in *.
  assert (0 <= em) by (apply Z.div_pos; lia).
  assert (em < en \/ em = en /\ rm < rn) as [Hlt|[-> Hr]] by nia.
  - destruct (Z.eqb_spec en 0); [lia|].
    assert (1 <= 2 ^ (en - 1)) by (pose proof (Z.pow_pos_nonneg 2 (en - 1)); lia).
    destruct (Z.eqb_spec em 0); [nia|].
    assert (2 * 2 ^ (em - 1) <= 2 ^ (en - 1)) as Hp.
    { rewrite <- Z.pow_succ_r by lia. apply Z.pow_le_mono_r; lia. }
    nia.
  - destruct (Z.eqb_spec en 0); [lia|].
    assert (0 < 2 ^ (en - 1)) by (apply Z.pow_pos_nonneg; lia). nia.
Qed.

Lemma f64_scaled_magnitude_nonneg m : 0 <= m -> 0 <= f64_scaled_magnitude m.
Proof.
  intros Hm. destruct (decide (m = 0)) as [->|]; [done|].
  pose proof (f64_scaled_magnitude_mono 0 m ltac:(lia)) as H.
  change (f64_scaled_magnitude 0) with 0 in H. lia.
Qed.

Lemma f64_scaled_lt_key a b :
  is_u64 a -> is_u64 b -> f64_scaled a < f64_scaled b -> f64_key a < f64_key b.
Proof.
  unfold is_u64, u64_max, f64_scaled, f64_key. intros Ha Hb Hlt.
  destruct (Z.ltb_spec a (2 ^ 63)), (Z.ltb_spec b (2 ^ 63)).
  - apply Z.nle_gt. intros Hle. apply Z.nle_gt in Hlt. apply Hlt.
    destruct (decide (a = b)) as [->|]; [done|].
    apply Z.lt_le_incl, f64_scaled_magnitude_mono. lia.
  - pose proof (f64_scaled_magnitude_nonneg a). pose proof (f64_scaled_magnitude_nonneg (b - 2 ^ 63)). lia.
  - lia.
  - apply Z.nle_gt. intros Hle. apply Z.nle_gt in Hlt. apply Hlt.
    destruct (decide (a = b)) as [->|]; [done|].
    apply Z.opp_le_mono. rewrite !Z.opp_involutive.
    apply Z.lt_le_incl, f64_scaled_magnitude_mono. lia.
Qed.

Lemma f64_scaled_eq_zero a b :
  is_u64 a -> is_u64 b -> f64_scaled a = f64_scaled b -> a = b \/ (f64_scaled a = 0 /\ f64_scaled b = 0).
Proof.
  assert (Hinj : forall m n, 0 <= m -> 0 <= n -> f64_scaled_magnitude m = f64_scaled_magnitude n -> m = n).
  { intros m n Hm Hn He. destruct (Z.lt_trichotomy m n) as [Hlt|[?|Hlt]]; [|done|]; [pose proof (f64_scaled_magnitude_mono m n)|pose proof (f64_scaled_magnitude_mono n m)]; lia. }
  unfold is_u64, u64_max, f64_scaled. intros Ha Hb He. destruct (Z.ltb_spec a (2 ^ 63)), (Z.ltb_spec b (2 ^ 63)).
  - left. apply Hinj; lia.
  - right. pose proof (f64_scaled_magnitude_nonneg a). pose proof (f64_scaled_magnitude_nonneg (b - 2 ^ 63)). lia.
  - right. pose proof (f64_scaled_magnitude_nonneg b). pose proof (f64_scaled_magnitude_nonneg (a - 2 ^ 63)). lia.
  - left. enough (a - 2 ^ 63 = b - 2 ^ 63) by lia. apply Hinj; lia.
Qed.

(** [f64::partial_cmp] *)
Definition f64_partial_cmp (x y : Z) : option comparison :=
  if f64_is_nan x || f64_is_nan y then None else Some (f64_scaled x ?= f64_scaled y).

(** The order the repository's tests hold encodings to. *)
Definition semantic_cmp (a b : StoreValue) : option comparison :=
  match a, b with
  | Long x, Long y => Some (x ?= y)
  | Instant x, Instant y => Some (x ?= y)
  | Double x, Double y => f64_partial_cmp x y
  | Str x, Str y => Some (lex_compare (utf8_encode x) (utf8_encode y))
  | Bytes x, Bytes y => Some (lex_compare x y)
  | Ref x, Ref y => Some (x ?= y)
  | Bool x, Bool y => Some (Z.b2z x ?= Z.b2z y)
  | _, _ => None
  end.

(** The two zeros. *)
Definition zeros (a b : StoreValue) : Prop := exists x y, a = Double x /\ b = Double y /\ f64_scaled x = 0 /\ f64_scaled y = 0.

Lemma semantic_value_compare a b c :
  value_ok a -> value_ok b -> semantic_cmp a b = Some c -> value_compare a b = c \/ (c = Eq /\ zeros a b).
Proof.
  intros Ha Hb Hc. destruct a as [x|x|x|x|x|x|x|x|x|x], b as [y|y|y|y|y|y|y|y|y|y]; cbn [semantic_cmp] in Hc; try done; try (injection Hc as <-; by left).
  unfold f64_partial_cmp in Hc. destruct (f64_is_nan x || f64_is_nan y); [done|]. injection Hc as <-. inversion Ha. inversion Hb. subst. cbn [value_compare].
  destruct (Z.compare_spec (f64_scaled x) (f64_scaled y)) as [He|Hl|Hl].
  - destruct (f64_scaled_eq_zero x y) as [->|Hz]; [done|done|done|left; apply Z.compare_refl|right]. split; [done|]. by exists x, y.
  - left. by apply Z.compare_lt_iff, f64_scaled_lt_key.
  - left. by apply Z.compare_gt_iff, f64_scaled_lt_key.
Qed.

(** * Properties *)

(** C33: the byte order of inline encodings is the order [value_compare], whatever
    follows the encodings in the key: comparing [encoded a ++ ra] with
    [encoded b ++ rb] compares [a] with [b], and the rests only when the values are
    equal.  [value_compare] orders values by type, strings by their bytes, vectors
    element by element, and doubles by the total order of their bits; it is the order
    of the repository's tests, [semantic_cmp], wherever that is defined, except that
    the negative zero comes before the positive one, which that order takes for
    equal.  Not a number is where its sign puts it: above infinity, or below minus
    infinity ([signed_nan_sorts_first]).  The keys of
    the store hold values whose encoding is longer than 400 bytes in another form,
    which does not follow this order and is not the subject here. *)
Theorem encoding_preserves_order (a b : StoreValue) (ra rb : list Z)
    (Ha : value_ok a) (Hb : value_ok b) :
  lex_compare (encode_inline a [] ++ ra) (encode_inline b [] ++ rb) =
  match value_compare a b with
  | Eq => lex_compare ra rb
  | c => c
  end /\
  forall c, semantic_cmp a b = Some c -> value_compare a b = c \/ (c = Eq /\ zeros a b).
Proof. split; [by apply value_ok_encodes_order|]. intros c. by apply semantic_value_compare. Qed.

Lemma encoding_preserves_order_witness :
  lex_compare (encode_inline (Vec [Long (-1); Str [97; 0]]) [] ++ [255])
              (encode_inline (Vec [Long (-1); Str [97; 0; 1]]) [] ++ [0]) = Lt.
Proof.
  refine (proj1 (encoding_preserves_order (Vec [Long (-1); Str [97; 0]]) (Vec [Long (-1); Str [97; 0; 1]])
            [255] [0] _ _)); repeat constructor; done.
Defined.

(** Minus infinity and a not-a-number with its sign bit set. *)
Example signed_nan_sorts_first :
  f64_is_nan 0xFFF8000000000000 = true /\
  lex_compare (encode_inline (Double 0xFFF8000000000000) []) (encode_inline (Double 0xFFF0000000000000) []) = Lt.
Proof. vm_compute. split; reflexivity. Qed.

Example negative_zero_sorts_first :
  semantic_cmp (Double 0x8000000000000000) (Double 0) = Some Eq /\
  lex_compare (encode_inline (Double 0x8000000000000000) []) (encode_inline (Double 0) []) = Lt.
Proof. vm_compute. split; reflexivity. Qed.

(** Decoding an encoding returns the value and exactly its length, whatever
    bytes follow. *)
Theorem decode_encode_inline (v : StoreValue) (rest : list Z) (Hv : value_ok v) :
  decode (encode_inline v [] ++ rest) = Ok (Value v, length (encode_inline v [])).
Proof. by apply decode_encoded. Qed.

Lemma decode_encode_inline_witness :
  decode (encode_inline (Vec [Double 0xBFF8000000000000; Keyword [58; 97]; Ref 42]) [] ++ [7; 7])
  = Ok (Value (Vec [Double 0xBFF8000000000000; Keyword [58; 97]; Ref 42]), 25%nat).
Proof.
  refine (decode_encode_inline (Vec [Double 0xBFF8000000000000; Keyword [58; 97]; Ref 42]) [7; 7] _).
  repeat constructor; vm_compute; done.
Defined.

(** On arbitrary bytes [decode] neither panics nor loops, and what it
    consumes is a non-empty prefix of the input. *)
Theorem decode_consumes_prefix (bytes : list Z) :
  match decode bytes with
  | Ok (_, used) => (0 < used <= length bytes)%nat
  | Err _ => True
  | Panic | OutOfFuel => False
  end.
Proof. apply codec_decode_total. Qed.

(** Doubles sort by their numeric value: if neither is NaN and one is
    smaller, its encoding is smaller, with any suffixes. *)
Theorem double_order_numeric (x y : Z) (rx ry : list Z)
    (Hx : is_u64 x) (Hy : is_u64 y)
    (Hnx : f64_is_nan x = false) (Hny : f64_is_nan y = false)
    (Hlt : f64_scaled x < f64_scaled y) :
  lex_compare (encode_inline (Double x) [] ++ rx) (encode_inline (Double y) [] ++ ry) = Lt.
Proof.
  rewrite (value_ok_encodes_order (Double x) (Double y)) by by constructor.
  cbn [value_compare]. rewrite (proj2 (Z.compare_lt_iff _ _)); [done|]. by apply f64_scaled_lt_key.
Qed.

Lemma double_order_numeric_witness :
  lex_compare (encode_inline (Double 0xC004000000000000) [] ++ [9])
              (encode_inline (Double 0x8000000000000000) [] ++ []) = Lt.
Proof.
  refine (double_order_numeric 0xC004000000000000 0x8000000000000000 [9] [] _ _ _ _ _);
    vm_compute; done.
Defined.
