(* ===== verification/Dlmdb.v ===== *)
(** The key-value environment of the Datalog store
    (crates/cljrs-lmdb/src/lib.rs).

    The C library below the Rust wrappers is an interface, [Dlmdb]: what a
    table holds, and what lookups, writes and cursor movements do to it.
    Reading a live transaction is taken not to fail; every write may.  The
    wrappers that iterate and rank with a cursor are modelled, and the lemmas
    say what they see of a table: the entries from a key on, and the entries
    with a given key prefix. *)
From S2P Require Import Prelude RustStd.
Local Open Scope Z_scope.

(** * The environment *)

(** The named databases of the store. *)
Inductive Dbi : Type := Eav | Ave | Vae | Schema | Meta | Giants | GiantIds.

#[export] Instance Dbi_eq_dec : EqDecision Dbi.
Proof. solve_decision. Defined.

Abbreviation entry := (list Z * list Z)%type.

Definition lex_ltb (a b : list Z) : bool := match lex_compare a b with Lt => true | _ => false end.

(** The position of the first entry with a key not below [k]. *)
Fixpoint seek (k : list Z) (l : list entry) : nat :=
  match l with
  | [] => 0
  | (k', _) :: l' => if lex_ltb k' k then S (seek k l') else 0
  end.

(** What the store relies on from the C library: a table is a list of entries
    with increasing keys; reads and cursor movements see that list; a write
    changes one entry of one table, or fails and the transaction is dropped. *)
Class Dlmdb (D : Type) : Type := {
  db_entries : D -> Dbi -> list entry;
  db_get : D -> Dbi -> list Z -> option (list Z);
  db_put : D -> Dbi -> list Z -> list Z -> outcome Z D;
  db_del : D -> Dbi -> list Z -> outcome Z D;
  db_commit : D -> outcome Z D;
  cur_first : D -> Dbi -> option entry;
  cur_last : D -> Dbi -> option entry;
  cur_next : D -> Dbi -> list Z -> option entry;
  cur_prev : D -> Dbi -> list Z -> option entry;
  cur_set_range : D -> Dbi -> list Z -> option entry;
  db_count_all : D -> Dbi -> nat;
  db_key_rank : D -> Dbi -> list Z -> option nat;
  db_get_rank : D -> Dbi -> nat -> option entry;

  entries_sorted d dbi : bt_sorted (db_entries d dbi);
  get_spec d dbi k : db_get d dbi k = bt_get k (db_entries d dbi);
  put_spec d dbi k v :
    match db_put d dbi k v with
    | Ok d' => forall dbi' k',
        db_get d' dbi' k' = if decide (dbi' = dbi /\ k' = k) then Some v else db_get d dbi' k'
    | Err _ => True
    | _ => False
    end;
  del_spec d dbi k :
    match db_del d dbi k with
    | Ok d' => forall dbi' k',
        db_get d' dbi' k' = if decide (dbi' = dbi /\ k' = k) then None else db_get d dbi' k'
    | Err _ => True
    | _ => False
    end;
  commit_spec d :
    match db_commit d with
    | Ok d' => forall dbi, db_entries d' dbi = db_entries d dbi
    | Err _ => True
    | _ => False
    end;
  first_spec d dbi : cur_first d dbi = db_entries d dbi !! 0%nat;
  last_spec d dbi : cur_last d dbi = last (db_entries d dbi);
  next_spec d dbi i k v :
    db_entries d dbi !! i = Some (k, v) -> cur_next d dbi k = db_entries d dbi !! S i;
  prev_spec d dbi i k v :
    db_entries d dbi !! i = Some (k, v) ->
    cur_prev d dbi k = match i with O => None | S j => db_entries d dbi !! j end;
  set_range_spec d dbi k : cur_set_range d dbi k = db_entries d dbi !! seek k (db_entries d dbi);
  count_all_spec d dbi : db_count_all d dbi = length (db_entries d dbi);
  key_rank_spec d dbi i k v :
    db_entries d dbi !! i = Some (k, v) -> db_key_rank d dbi k = Some i;
  get_rank_spec d dbi i : db_get_rank d dbi i = db_entries d dbi !! i
}.

Definition MDB_NOTFOUND : Z := -30798.

(** * Key prefixes (crates/cljrs-datalog-store/src/lib.rs) *)

(** [succ] is held in reverse, so that its last byte is at the head. *)
Fixpoint prefix_successor_rev (succ : list Z) : option (list Z) :=
  match succ with
  | [] => None
  | last :: succ' => if last =? 255 then prefix_successor_rev succ' else Some (rev (last + 1 :: succ'))
  end.

Definition prefix_successor (prefix : list Z) : option (list Z) := prefix_successor_rev (rev prefix).

Fixpoint starts_with (prefix k : list Z) : bool :=
  match prefix, k with
  | [], _ => true
  | x :: p, y :: k' => (x =? y) && starts_with p k'
  | _ :: _, [] => false
  end.

Section Iteration.
Context {D : Type} {HD : Dlmdb D}.

(** * Iteration *)

Fixpoint range_from (fuel : nat) (d : D) (dbi : Dbi) (high : option (list Z)) (step : option entry) : list entry :=
  match fuel with
  | O => []
  | S f =>
      match step with
      | None => []
      | Some (k, v) =>
          match high with
          | Some hi => if lex_ltb hi k then [] else (k, v) :: range_from f d dbi high (cur_next d dbi k)
          | None => (k, v) :: range_from f d dbi high (cur_next d dbi k)
          end
      end
  end.

Definition range (d : D) (dbi : Dbi) (low high : option (list Z)) : list entry :=
  range_from (db_count_all d dbi) d dbi high
    match low with
    | Some k => cur_set_range d dbi k
    | None => cur_first d dbi
    end.

Definition count_below (d : D) (dbi : Dbi) (k : list Z) : outcome Z nat :=
  match cur_set_range d dbi k with
  | None => Ok (db_count_all d dbi)
  | Some (found, _) =>
      match db_key_rank d dbi found with
      | Some rank => Ok rank
      | None => Err MDB_NOTFOUND
      end
  end.

End Iteration.

(** * Sorted tables *)

Lemma lex_ltb_true a b : lex_ltb a b = true <-> lex_compare a b = Lt.
Proof. unfold lex_ltb. by destruct (lex_compare a b). Qed.

Lemma lex_ltb_false a b : lex_ltb a b = false <-> lex_compare a b <> Lt.
Proof. unfold lex_ltb. by destruct (lex_compare a b). Qed.

Lemma lex_compare_irrefl a : lex_compare a a <> Lt.
Proof. by rewrite lex_compare_refl. Qed.

(** [k <= k'] and [k' < k''] give [k < k'']. *)
Lemma lex_compare_le_lt_trans a b c : lex_compare b a <> Lt -> lex_compare b c = Lt -> lex_compare a c = Lt.
Proof.
  intros Hba Hbc. destruct (lex_compare b a) eqn:E; [|done|].
  - apply lex_compare_eq in E as ->. done.
  - apply lex_compare_gt_lt in E. by eapply lex_compare_trans.
Qed.

Lemma lex_compare_lt_le_trans a b c : lex_compare a b = Lt -> lex_compare c b <> Lt -> lex_compare a c = Lt.
Proof.
  intros Hab Hcb. destruct (lex_compare c b) eqn:E; [|done|].
  - apply lex_compare_eq in E as ->. done.
  - apply lex_compare_gt_lt in E. by eapply lex_compare_trans.
Qed.

Lemma bt_get_elem {V : Type} (m : list (list Z * V)) k v :
  bt_sorted m -> bt_get k m = Some v <-> (k, v) ∈ m.
Proof.
  induction m as [|[k' v'] m IH]; simpl; [intros _; split; [done | by intros ?%elem_of_nil]|].
  intros [Hk Hm]. rewrite elem_of_cons, <- IH by done. destruct (lex_compare k k') eqn:E.
  - apply lex_compare_eq in E as ->. split; [naive_solver|]. intros [[= ->]|Hin]; [done|].
    apply IH, Hk in Hin; [|done]. by apply lex_compare_irrefl in Hin.
  - split; [naive_solver|]. intros [[= -> ->]|?]; [by apply lex_compare_irrefl in E | done].
  - split; [naive_solver|]. intros [[= -> ->]|?]; [|done]. by rewrite lex_compare_refl in E.
Qed.

Lemma bt_sorted_lookup (l : list entry) i j k k' v v' :
  bt_sorted l -> (i < j)%nat -> l !! i = Some (k, v) -> l !! j = Some (k', v') -> lex_compare k k' = Lt.
Proof.
  revert i j. induction l as [|[k0 v0] l IH]; intros i j Hs Hij Hi Hj; [done|].
  destruct Hs as [Hk Hs]. destruct i as [|i], j as [|j]; simpl in *; try lia.
  - injection Hi as -> ->. apply (Hk k' v'). by eapply list_elem_of_lookup_2.
  - by apply (IH i j); [| lia | |].
Qed.

Lemma seek_lookup (l : list entry) i k v : bt_sorted l -> l !! i = Some (k, v) -> seek k l = i.
Proof.
  revert i. induction l as [|[k0 v0] l IH]; intros i Hs Hi; [done|]. simpl.
  destruct i as [|i].
  - injection Hi as -> ->. unfold lex_ltb. by rewrite lex_compare_refl.
  - rewrite (proj2 (lex_ltb_true k0 k)) by (eapply (bt_sorted_lookup _ 0 (S i)); [done | lia | done | done]).
    f_equal. by apply IH; [apply Hs|].
Qed.

Lemma seek_le_length k (l : list entry) : (seek k l <= length l)%nat.
Proof. induction l as [|[k0 v0] l IH]; simpl; [lia|]. case_match; lia. Qed.

(** Entries before the position are below the key, the others are not. *)
Lemma seek_spec k (l : list entry) i k' v' :
  bt_sorted l -> l !! i = Some (k', v') -> (i < seek k l)%nat <-> lex_compare k' k = Lt.
Proof.
  revert i. induction l as [|[k0 v0] l IH]; intros i Hs Hi; [done|]. simpl.
  destruct (lex_ltb k0 k) eqn:E; [apply lex_ltb_true in E | apply lex_ltb_false in E].
  - destruct i as [|i]; [injection Hi as -> ->; split; [done | lia]|].
    rewrite <- IH by (apply Hs || done). lia.
  - split; [lia|]. intros Hlt. exfalso. apply E. destruct i as [|i]; [by injection Hi as -> ->|].
    eapply lex_compare_trans; [|done]. by eapply (bt_sorted_lookup _ 0 (S i)); [| lia | |].
Qed.

(** * Key prefixes *)

Lemma starts_with_app p k : starts_with p k = true <-> exists r, k = p ++ r.
Proof.
  revert k. induction p as [|x p IH]; intros k; simpl; [split; [by exists k | done]|].
  destruct k as [|y k]; [split; [done | by intros [? ?]]|].
  rewrite andb_true_iff, Z.eqb_eq, IH. split.
  - intros [-> [r ->]]. by exists r.
  - intros [r [= -> ->]]. split; [done | by exists r].
Qed.

Lemma starts_with_not_below p k : starts_with p k = true -> lex_compare k p <> Lt.
Proof.
  intros [r ->]%starts_with_app. rewrite <- (app_nil_r p) at 2. rewrite lex_compare_app. by destruct r.
Qed.

(** Between a prefix and a key that has it, every key has it. *)
Lemma starts_with_between p k k' :
  lex_compare k p <> Lt -> lex_compare k k' = Lt -> starts_with p k' = true -> starts_with p k = true.
Proof.
  revert k k'. induction p as [|x p IH]; intros k k' Hp Hk Hs; [done|]. simpl in Hs.
  destruct k' as [|y' k']; [done|]. apply andb_true_iff in Hs as [Hx Hs]. apply Z.eqb_eq in Hx as <-.
  destruct k as [|y k]; simpl in *; [done|].
  destruct (y ?= x) eqn:E; [|done|done]. apply Z.compare_eq in E as ->.
  rewrite Z.eqb_refl. simpl. by eapply IH.
Qed.

Lemma prefix_successor_rev_snoc l x :
  prefix_successor_rev (l ++ [x]) =
  match prefix_successor_rev l with
  | Some s => Some (x :: s)
  | None => if x =? 255 then None else Some [x + 1]
  end.
Proof.
  induction l as [|y l IH]; simpl; [by destruct (x =? 255)|].
  destruct (y =? 255); [done|]. by rewrite rev_app_distr.
Qed.

Lemma prefix_successor_cons x p :
  prefix_successor (x :: p) =
  match prefix_successor p with
  | Some s => Some (x :: s)
  | None => if x =? 255 then None else Some [x + 1]
  end.
Proof. apply prefix_successor_rev_snoc. Qed.

(** Nothing above the prefix of an all-[0xFF] prefix lacks it. *)
Lemma prefix_successor_none p k :
  Forall is_byte k -> prefix_successor p = None -> lex_compare k p <> Lt -> starts_with p k = true.
Proof.
  revert k. induction p as [|x p IH]; intros k Hb Hs Hk; [done|].
  rewrite prefix_successor_cons in Hs. destruct (prefix_successor p) eqn:E; [done|].
  destruct (Z.eqb_spec x 255) as [->|]; [|done]. destruct k as [|y k]; [done|].
  inversion Hb as [|? ? Hy Hb']; subst. unfold is_byte in Hy. simpl in *.
  destruct (Z.compare_spec y 255); [subst | done | lia]. by apply IH.
Qed.

(** The keys below the successor are those below the prefix and those with it. *)
Lemma prefix_successor_some p s k :
  prefix_successor p = Some s -> Forall is_byte k ->
  lex_compare k s = Lt <-> lex_compare k p = Lt \/ starts_with p k = true.
Proof.
  revert s k. induction p as [|x p IH]; intros s k Hs Hb; [done|].
  rewrite prefix_successor_cons in Hs. destruct (prefix_successor p) as [s'|] eqn:E.
  - injection Hs as <-. destruct k as [|y k]; simpl; [naive_solver|].
    inversion Hb; subst. destruct (Z.compare_spec y x) as [->|Hlt|Hlt].
    + rewrite Z.eqb_refl. simpl. by apply IH.
    + naive_solver.
    + rewrite (proj2 (Z.eqb_neq x y)) by lia. naive_solver.
  - destruct (Z.eqb_spec x 255); [done|]. injection Hs as <-. destruct k as [|y k]; simpl; [naive_solver|].
    inversion Hb; subst. destruct (Z.compare_spec y x) as [->|Hlt|Hlt].
    + rewrite (proj2 (Z.compare_lt_iff x (x + 1))) by lia. rewrite Z.eqb_refl. simpl.
      split; [|done]. intros _. destruct (lex_compare k p) eqn:Ek; [right | by left | right].
      all: by apply prefix_successor_none; [| | congruence].
    + rewrite (proj2 (Z.compare_lt_iff y (x + 1))) by lia. naive_solver.
    + rewrite (proj2 (Z.eqb_neq x y)) by lia. split; [|naive_solver].
      destruct (Z.compare_spec y (x + 1)); [by destruct k | lia | done].
Qed.

(** The keys of a table, and those with a given prefix. *)
Definition keys (l : list entry) : list (list Z) := map fst l.

Definition with_prefix (p : list Z) (l : list entry) : list (list Z) :=
  filter (fun k => starts_with p k = true) (keys l).

Lemma with_prefix_none p l : (forall k, k ∈ keys l -> starts_with p k = false) -> with_prefix p l = [].
Proof.
  intros Hl. apply filter_none. intros k Hk. by rewrite Hl.
Qed.

Lemma keys_elem k (l : list entry) : k ∈ keys l <-> exists v, (k, v) ∈ l.
Proof.
  unfold keys. rewrite list_elem_of_fmap. split.
  - intros ([k' v] & -> & Hin). by exists v.
  - intros [v Hin]. by exists (k, v).
Qed.

(** Dropping the entries before a prefix loses none that has it. *)
Lemma with_prefix_drop p l : bt_sorted l -> with_prefix p (drop (seek p l) l) = with_prefix p l.
Proof.
  induction l as [|[k v] l IH]; [done|]. intros [Hk Hl]. simpl.
  destruct (lex_ltb k p) eqn:E; [|done]. simpl. rewrite IH by done.
  unfold with_prefix at 2, keys. simpl. rewrite filter_cons_False; [done|].
  intros Hs%starts_with_not_below. by apply lex_ltb_true in E.
Qed.

(** From the first key not below the prefix on, the keys with the prefix come
    first. *)
Lemma prefix_scan_split p l :
  bt_sorted l -> (forall k, k ∈ keys l -> lex_compare k p <> Lt) ->
  exists post, keys l = with_prefix p l ++ post /\ match post with [] => True | k :: _ => starts_with p k = false end.
Proof.
  induction l as [|[k v] l IH]; intros Hs Hp; [by exists []|]. destruct Hs as [Hk Hs].
  assert (Hkp : lex_compare k p <> Lt) by (apply Hp; by left).
  unfold with_prefix, keys. simpl. fold (keys l).
  destruct (starts_with p k) eqn:E.
  - rewrite filter_cons_True by done. fold (with_prefix p l).
    destruct IH as (post & Hpost & Hhead); [done | intros k' Hk'; apply Hp; by right |].
    exists post. split; [|done]. simpl. by f_equal.
  - rewrite filter_cons_False by congruence. fold (with_prefix p l). rewrite with_prefix_none; [by exists (k :: keys l)|].
    intros k' Hk'. destruct (starts_with p k') eqn:E'; [|done]. rewrite <- E. symmetry.
    apply keys_elem in Hk' as [v' Hin]. by eapply starts_with_between; [| by eapply Hk |].
Qed.

Section Views.
Context {D : Type} {HD : Dlmdb D}.

Lemma range_from_drop fuel d dbi i :
  (length (db_entries d dbi) - i <= fuel)%nat ->
  range_from fuel d dbi None (db_entries d dbi !! i) = drop i (db_entries d dbi).
Proof.
  revert i. induction fuel as [|f IH]; intros i Hf; simpl; [by rewrite drop_ge by lia|].
  destruct (db_entries d dbi !! i) as [[k v]|] eqn:E.
  - rewrite (next_spec _ _ _ _ _ E), IH by lia. by rewrite (drop_S _ _ _ E).
  - apply lookup_ge_None in E. by rewrite drop_ge by lia.
Qed.

(** Iterating from a key on visits the entries from its position on. *)
Lemma range_spec d dbi low :
  range d dbi low None = drop (match low with Some k => seek k (db_entries d dbi) | None => 0%nat end) (db_entries d dbi).
Proof.
  unfold range. rewrite count_all_spec.
  destruct low; [rewrite set_range_spec | rewrite first_spec]; apply range_from_drop; lia.
Qed.

(** [count_below] counts the entries below the key. *)
Lemma count_below_spec d dbi k : count_below d dbi k = Ok (seek k (db_entries d dbi)).
Proof.
  unfold count_below. rewrite set_range_spec, count_all_spec.
  destruct (db_entries d dbi !! seek k (db_entries d dbi)) as [[k' v]|] eqn:E.
  - by rewrite (key_rank_spec _ _ _ _ _ E).
  - apply lookup_ge_None in E. f_equal. pose proof (seek_le_length k (db_entries d dbi)). lia.
Qed.

Lemma get_elem d dbi k v : db_get d dbi k = Some v <-> (k, v) ∈ db_entries d dbi.
Proof. rewrite get_spec. apply bt_get_elem, entries_sorted. Qed.

Definition has_key (d : D) (dbi : Dbi) (k : list Z) : Prop := k ∈ keys (db_entries d dbi).

Lemma has_key_get d dbi k : has_key d dbi k <-> is_Some (db_get d dbi k).
Proof.
  unfold has_key. rewrite keys_elem. split.
  - intros [v Hin]. exists v. by apply get_elem.
  - intros [v Hg]. exists v. by apply get_elem.
Qed.

Lemma range_keys_not_below d dbi p k : k ∈ keys (range d dbi (Some p) None) -> lex_compare k p <> Lt.
Proof.
  rewrite range_spec. intros [v Hin]%keys_elem.
  apply list_elem_of_lookup in Hin as [i Hi]. rewrite lookup_drop in Hi.
  rewrite <- (seek_spec p) by (apply entries_sorted || done). lia.
Qed.
End Views.

(** * Counting *)

Lemma seek_count k (l : list entry) :
  bt_sorted l -> seek k l = length (filter (fun k' => lex_compare k' k = Lt) (keys l)).
Proof.
  induction l as [|[k0 v0] l IH]; [done|]. intros [Hk Hs]. simpl.
  destruct (lex_ltb k0 k) eqn:E; [apply lex_ltb_true in E | apply lex_ltb_false in E].
  - rewrite filter_cons_True by done. simpl. f_equal. by apply IH.
  - rewrite filter_cons_False, filter_none; [done | | done]. intros k' [v' Hin]%keys_elem Hlt. apply E.
    by eapply lex_compare_trans; [by eapply Hk|].
Qed.

Lemma seek_none p (l : list entry) :
  bt_sorted l -> (forall k, k ∈ keys l -> Forall is_byte k) -> prefix_successor p = None ->
  length l = (seek p l + length (with_prefix p l))%nat.
Proof.
  intros Hs Hb Hp. rewrite seek_count by done. unfold with_prefix.
  transitivity (length (filter (fun _ : list Z => True) (keys l))).
  { rewrite filter_all by done. unfold keys. by rewrite length_map. }
  apply length_filter_disjoint.
  - intros k Hk. split; [|done]. intros _. destruct (lex_compare k p) eqn:E; [right | by left | right].
    all: by apply prefix_successor_none; [apply Hb | | congruence].
  - intros k Hk Hlt Hw. by apply starts_with_not_below in Hw.
Qed.

Lemma seek_successor p s (l : list entry) :
  bt_sorted l -> (forall k, k ∈ keys l -> Forall is_byte k) -> prefix_successor p = Some s ->
  seek s l = (seek p l + length (with_prefix p l))%nat.
Proof.
  intros Hs Hb Hp. rewrite !seek_count by done. apply length_filter_disjoint.
  - intros k Hk. apply prefix_successor_some; [done | by apply Hb].
  - intros k Hk Hlt Hw. by apply starts_with_not_below in Hw.
Qed.

(** * An environment of sorted lists *)

(** The interface can be met: tables as sorted association lists, with the key
    sizes the C library accepts. *)
Definition Tables : Type := Dbi -> list entry.

Fixpoint bt_remove (k : list Z) (m : list entry) : list entry :=
  match m with
  | [] => []
  | (k', v') :: m' => match lex_compare k k' with Eq => m' | _ => (k', v') :: bt_remove k m' end
  end.

Lemma bt_remove_elem k (m : list entry) x : x ∈ bt_remove k m -> x ∈ m.
Proof.
  induction m as [|[k' v'] m IH]; simpl; [done|].
  destruct (lex_compare k k'); rewrite ?elem_of_cons; naive_solver.
Qed.

Lemma bt_remove_sorted k (m : list entry) : bt_sorted m -> bt_sorted (bt_remove k m).
Proof.
  induction m as [|[k' v'] m IH]; simpl; [done|]. intros [Hk Hm].
  destruct (lex_compare k k'); [done| |]; (split; [|by apply IH]); intros k2 v2 Hin%bt_remove_elem; by eapply Hk.
Qed.

Lemma bt_get_remove k k0 (m : list entry) :
  bt_sorted m -> bt_get k0 (bt_remove k m) = if decide (k0 = k) then None else bt_get k0 m.
Proof.
  induction m as [|[k' v'] m IH]; simpl; [by case_decide|]. intros [Hk Hm]. specialize (IH Hm).
  destruct (lex_compare k k') eqn:E; simpl.
  - apply lex_compare_eq in E as <-. case_decide as E0.
    + subst k0. destruct (bt_get k m) as [v|] eqn:Eg; [|done].
      apply bt_get_elem, Hk in Eg; [|done]. by apply lex_compare_irrefl in Eg.
    + destruct (lex_compare k0 k) eqn:E1; [by apply lex_compare_eq in E1 | done | done].
  - rewrite IH. case_decide as E0; [subst k0; by rewrite E | done].
  - rewrite IH. case_decide as E0; [subst k0; by rewrite E | done].
Qed.

Definition MDB_BAD_VALSIZE : Z := -30781.
Definition max_key_size : nat := 511.

Definition key_size_ok (k : list Z) : bool := negb (length k =? 0)%nat && (length k <=? max_key_size)%nat.

Definition set_table (t : Tables) (dbi : Dbi) (l : list entry) : Tables :=
  fun dbi' => if decide (dbi' = dbi) then l else t dbi'.

(** Sorted tables only, so that the laws hold of every environment. *)
Definition SortedTables : Type := { t : Tables | forall dbi, bt_sorted (t dbi) }.

Lemma set_table_sorted (t : SortedTables) dbi l :
  bt_sorted l -> forall dbi', bt_sorted (set_table (proj1_sig t) dbi l dbi').
Proof. intros Hl dbi'. unfold set_table. case_decide; [done | apply (proj2_sig t)]. Qed.

Definition write_table (t : SortedTables) (dbi : Dbi) (l : list entry) (Hl : bt_sorted l) : SortedTables :=
  exist _ (set_table (proj1_sig t) dbi l) (set_table_sorted t dbi l Hl).

Definition tables_put (t : SortedTables) (dbi : Dbi) (k v : list Z) : outcome Z SortedTables :=
  if key_size_ok k then
    Ok (write_table t dbi (bt_insert k v (proj1_sig t dbi)) (bt_insert_sorted k v _ (proj2_sig t dbi)))
  else Err MDB_BAD_VALSIZE.

Definition tables_del (t : SortedTables) (dbi : Dbi) (k : list Z) : outcome Z SortedTables :=
  Ok (write_table t dbi (bt_remove k (proj1_sig t dbi)) (bt_remove_sorted k _ (proj2_sig t dbi))).

Definition tables_at (t : SortedTables) (dbi : Dbi) (k : list Z) : option nat :=
  let l := proj1_sig t dbi in
  match l !! seek k l with
  | Some (k', _) => if bool_decide (k' = k) then Some (seek k l) else None
  | None => None
  end.

Lemma tables_at_lookup (t : SortedTables) dbi i k v : proj1_sig t dbi !! i = Some (k, v) -> tables_at t dbi k = Some i.
Proof.
  intros Hi. assert (E : seek k (proj1_sig t dbi) = i) by apply (seek_lookup _ _ _ _ (proj2_sig t dbi) Hi).
  unfold tables_at. cbv zeta. rewrite E, Hi. by rewrite bool_decide_eq_true_2.
Qed.

Definition empty_tables : SortedTables :=
  exist (fun t : Tables => forall dbi, bt_sorted (t dbi)) (fun _ => []) (fun _ => I).

#[export] Instance tables_dlmdb : Dlmdb SortedTables.
Proof.
  refine {|
    db_entries t dbi := proj1_sig t dbi;
    db_get t dbi k := bt_get k (proj1_sig t dbi);
    db_put := tables_put;
    db_del := tables_del;
    db_commit t := Ok t;
    cur_first t dbi := proj1_sig t dbi !! 0%nat;
    cur_last t dbi := last (proj1_sig t dbi);
    cur_next t dbi k := i ← tables_at t dbi k; proj1_sig t dbi !! S i;
    cur_prev t dbi k := i ← tables_at t dbi k; match i with O => None | S j => proj1_sig t dbi !! j end;
    cur_set_range t dbi k := proj1_sig t dbi !! seek k (proj1_sig t dbi);
    db_count_all t dbi := length (proj1_sig t dbi);
    db_key_rank := tables_at;
    db_get_rank t dbi i := proj1_sig t dbi !! i
  |}; try done.
  - intros t dbi. apply (proj2_sig t).
  - intros t dbi k v. unfold tables_put. destruct (key_size_ok k); [|done]. intros dbi' k'. simpl. unfold set_table.
    repeat case_decide; naive_solver eauto using bt_get_insert_eq, bt_get_insert_ne.
  - intros t dbi k. simpl. intros dbi' k'. unfold set_table.
    case_decide as E1; [subst dbi'; rewrite bt_get_remove by apply (proj2_sig t)|]; repeat case_decide; naive_solver.
  - intros t dbi i k v Hi. by rewrite (tables_at_lookup _ _ _ _ _ Hi).
  - intros t dbi i k v Hi. by rewrite (tables_at_lookup _ _ _ _ _ Hi).
  - intros t dbi i k v Hi. by apply (tables_at_lookup _ _ _ _ v).
Defined.
