(* ===== verification/Store.v ===== *)
(** The Datalog triple store (crates/cljrs-datalog-store/src/lib.rs) over its
    key-value environment [Dlmdb].

    A write transaction works on a copy of the environment that replaces it when
    the transaction commits; the two attribute caches are updated in place. *)
From stdpp Require Import strings gmap.
From S2P Require Import Prelude RustStd StoreCodec Dlmdb.
Local Open Scope Z_scope.

(** * Data *)

Record Datom : Type := mkDatom {
  datom_e : Z;
  datom_a : list Z;
  datom_v : StoreValue
}.

Inductive Op : Type :=
| Add (e : Z) (a : list Z) (v : StoreValue)
| Retract (e : Z) (a : list Z) (v : StoreValue).

Record AttrProps : Type := mkProps {
  cardinality_many : bool;
  ref_type : bool;
  unique_identity : bool;
  unique_value : bool
}.

Definition AttrProps_default : AttrProps := mkProps false false false false.

Inductive StoreError : Type :=
| Lmdb (code : Z)
| Codec (m : string)
| MissingGiant (id : Z).

Definition META_MAX_EID : list Z := lit "max-eid".
Definition META_NEXT_AID : list Z := lit "next-aid".
Definition META_NEXT_GIANT : list Z := lit "next-giant".

Definition FLAG_CARD_MANY : Z := 1.
Definition FLAG_REF : Z := 2.
Definition FLAG_UNIQUE_IDENTITY : Z := 4.
Definition FLAG_UNIQUE_VALUE : Z := 8.

(** * Keys *)

Definition eav_key (e aid : Z) (venc : list Z) : list Z := to_be_bytes 8 e ++ to_be_bytes 4 aid ++ venc.
Definition ave_key (aid : Z) (venc : list Z) (e : Z) : list Z := to_be_bytes 4 aid ++ venc ++ to_be_bytes 8 e.
Definition vae_key (target aid e : Z) : list Z := to_be_bytes 8 target ++ to_be_bytes 4 aid ++ to_be_bytes 8 e.

(** [k.get(a..b)] read as a big-endian integer. *)
Definition key_int (k : list Z) (a b : nat) (msg : string) : outcome StoreError Z :=
  match get_range k a b with
  | Some bytes => Ok (from_be_bytes bytes)
  | None => Err (Codec msg)
  end.

(** Derived equality of values: doubles compare as numbers, so that NaN differs
    from itself and the two zeros are equal. *)
Definition f64_eqb (x y : Z) : bool :=
  negb (f64_is_nan x) && negb (f64_is_nan y) && ((x =? y) || ((f64_magnitude x =? 0) && (f64_magnitude y =? 0))).

Fixpoint value_eqb (a b : StoreValue) {struct a} : bool :=
  match a, b with
  | Bool x, Bool y => Bool.eqb x y
  | Long x, Long y => x =? y
  | Double x, Double y => f64_eqb x y
  | Instant x, Instant y => x =? y
  | Str x, Str y => bool_decide (x = y)
  | Keyword x, Keyword y => bool_decide (x = y)
  | Uuid x, Uuid y => bool_decide (x = y)
  | Ref x, Ref y => x =? y
  | Bytes x, Bytes y => bool_decide (x = y)
  | Vec xs, Vec ys =>
      (fix go (xs ys : list StoreValue) {struct xs} : bool :=
         match xs, ys with
         | [], [] => true
         | x :: xs', y :: ys' => value_eqb x y && go xs' ys'
         | _, _ => false
         end) xs ys
  | _, _ => false
  end.

(** * The store *)

(** The build profile, which decides whether integer overflow panics, and the
    digest function, which is another crate's. *)
Class Platform : Type := {
  overflow_checked : bool;
  sha256 : list Z -> list Z
}.

Section Store.
Context {D : Type} {HD : Dlmdb D} {HP : Platform}.

Record Store : Type := mkStore {
  env : D;
  attrs : gmap (list Z) (Z * AttrProps);
  attr_names : gmap Z (list Z)
}.

Definition set_env (d : D) (st : Store) : Store := mkStore d (attrs st) (attr_names st).

(** Code running in a write transaction; [env] is the transaction's copy. *)
Abbreviation txn := (stateM Store StoreError).

Definition lmdb {A : Type} (o : outcome Z A) : outcome StoreError A :=
  match o with
  | Ok a => Ok a
  | Err c => Err (Lmdb c)
  | Panic => Panic
  | OutOfFuel => OutOfFuel
  end.

Definition txn_put (dbi : Dbi) (k v : list Z) : txn unit :=
  d ← gets env;
  d' ← lift (lmdb (db_put d dbi k v));
  modify (set_env d').

Definition txn_del (dbi : Dbi) (k : list Z) : txn unit :=
  d ← gets env;
  d' ← lift (lmdb (db_del d dbi k));
  modify (set_env d').

(** A write transaction: on success the copy is committed; on any error it is
    dropped, while the caches keep what was put into them. *)
Definition in_write_txn (body : txn unit) (st : Store) : outcome StoreError unit * Store :=
  match (body ;; (d ← gets env; lift (lmdb (db_commit d)) ≫= fun d' => modify (set_env d'))) st with
  | (Ok tt, st') => (Ok tt, st')
  | (r, st') => (r, set_env (env st) st')
  end.

(** ** Counters and attributes *)

Definition read_u64 (b : list Z) (msg : string) : outcome StoreError Z :=
  if (length b =? 8)%nat then Ok (from_be_bytes b) else Err (Codec msg).

(** [u64] arithmetic: overflow panics in a checked build and wraps otherwise. *)
Definition checked_u64 (n : Z) : outcome StoreError Z :=
  if n <=? u64_max then Ok n else if overflow_checked then Panic else Ok (wrap_u64 n).

Definition bump_counter (key : list Z) : txn Z :=
  found ← gets (fun st => db_get (env st) Meta key);
  current ← match found with
            | Some b => lift (read_u64 b "bad meta counter")
            | None => mret 0
            end;
  next ← lift (checked_u64 (current + 1));
  txn_put Meta key (to_be_bytes 8 next) ;;
  mret next.

Definition flag_byte (props : AttrProps) : Z :=
  let b := 0 in
  let b := if cardinality_many props then Z.lor b FLAG_CARD_MANY else b in
  let b := if ref_type props then Z.lor b FLAG_REF else b in
  let b := if unique_identity props then Z.lor b FLAG_UNIQUE_IDENTITY else b in
  if unique_value props then Z.lor b FLAG_UNIQUE_VALUE else b.

(** The second half of [intern_attr]: the schema entry and the caches. *)
Definition record_attr (name : list Z) (aid : Z) (props : AttrProps) : txn (Z * AttrProps) :=
  txn_put Schema (utf8_encode name) (to_be_bytes 4 aid ++ [flag_byte props]) ;;
  modify (fun st => mkStore (env st) (<[name := (aid, props)]> (attrs st)) (attr_names st)) ;;
  modify (fun st => mkStore (env st) (attrs st) (<[aid := name]> (attr_names st))) ;;
  mret (aid, props).

Definition intern_attr (name : list Z) (props : option AttrProps) : txn (Z * AttrProps) :=
  existing ← gets (fun st => attrs st !! name);
  match existing, props with
  | Some (aid, current), None => mret (aid, current)
  | Some (aid, _), Some p => record_attr name aid p
  | None, p =>
      n ← bump_counter META_NEXT_AID;
      record_attr name (wrap_u32 n) (default AttrProps_default p)
  end.

Definition set_attr (name : list Z) (props : AttrProps) : Store -> outcome StoreError unit * Store :=
  in_write_txn (intern_attr name (Some props) ;; mret tt).

Definition attr_props (st : Store) (name : list Z) : option AttrProps := snd <$> attrs st !! name.

Definition lookup_aid (st : Store) (name : list Z) : option Z := fst <$> attrs st !! name.

Definition attr_name (st : Store) (aid : Z) : outcome StoreError (list Z) :=
  match attr_names st !! aid with
  | Some name => Ok name
  | None => Err (Codec "unknown aid in index")
  end.

Definition parse_props (flags : Z) : AttrProps :=
  mkProps (negb (Z.land flags FLAG_CARD_MANY =? 0)) (negb (Z.land flags FLAG_REF =? 0))
    (negb (Z.land flags FLAG_UNIQUE_IDENTITY =? 0)) (negb (Z.land flags FLAG_UNIQUE_VALUE =? 0)).

Fixpoint load_attrs (l : list entry) (as_ : gmap (list Z) (Z * AttrProps)) (ns : gmap Z (list Z))
    : outcome StoreError (gmap (list Z) (Z * AttrProps) * gmap Z (list Z)) :=
  match l with
  | [] => Ok (as_, ns)
  | (k, v) :: l' =>
      match utf8_decode k with
      | None => Err (Codec "schema attr not utf8")
      | Some name =>
          aid ← key_int v 0 4 "short schema entry";
          match v !! 4%nat with
          | None => Err (Codec "short schema entry")
          | Some flags => load_attrs l' (<[name := (aid, parse_props flags)]> as_) (<[aid := name]> ns)
          end
      end
  end.

(** [open_with_flags], once the environment and its databases are open. *)
Definition open_store (d : D) : outcome StoreError Store :=
  '(as_, ns) ← load_attrs (range d Schema None None) ∅ ∅;
  Ok (mkStore d as_ ns).

Definition next_eid (st : Store) (from : Z) : outcome StoreError (option Z) :=
  match cur_set_range (env st) Eav (to_be_bytes 8 from) with
  | None => Ok None
  | Some (k, _) => e ← key_int k 0 8 "short eav key"; Ok (Some e)
  end.

Definition max_eid (st : Store) : Z :=
  match db_get (env st) Meta META_MAX_EID with
  | Some b => if (length b =? 8)%nat then from_be_bytes b else 0
  | None => 0
  end.

(** ** Values in keys *)

Definition giant_parts (v : StoreValue) : outcome StoreError (Z * list Z) :=
  match v with
  | Str s => Ok (TAG_GIANT_STR, utf8_encode s)
  | Bytes b => Ok (TAG_GIANT_BYTES, b)
  | _ => Err (Codec "only strings and bytes can be giant")
  end.

Definition giant_key (giant_tag : Z) (raw : list Z) (id : Z) : outcome StoreError (list Z) :=
  prefix ← index_range raw 0 GIANT_PREFIX;
  Ok ([giant_tag] ++ prefix ++ to_be_bytes 8 id).

Definition encode_value_for_key (v : StoreValue) : txn (list Z) :=
  let inline := encode_inline v [] in
  if (length inline <=? GIANT_THRESHOLD)%nat then mret inline
  else
    '(giant_tag, raw) ← lift (giant_parts v);
    let digest := sha256 raw in
    found ← gets (fun st => db_get (env st) GiantIds digest);
    id ← match found with
         | Some existing => lift (read_u64 existing "bad giant id")
         | None =>
             id ← bump_counter META_NEXT_GIANT;
             txn_put Giants (to_be_bytes 8 id) (giant_tag :: raw) ;;
             txn_put GiantIds digest (to_be_bytes 8 id) ;;
             mret id
         end;
    lift (giant_key giant_tag raw id).

Definition encode_value_readonly (d : D) (v : StoreValue) : outcome StoreError (list Z) :=
  let inline := encode_inline v [] in
  if (length inline <=? GIANT_THRESHOLD)%nat then Ok inline
  else
    '(giant_tag, raw) ← giant_parts v;
    id ← match db_get d GiantIds (sha256 raw) with
         | Some existing => read_u64 existing "bad giant id"
         | None => Ok 0
         end;
    giant_key giant_tag raw id.

Definition decode_value (d : D) (bytes : list Z) : outcome StoreError (StoreValue * nat) :=
  match decode bytes with
  | Ok (Value v, used) => Ok (v, used)
  | Ok (Giant tag id, used) =>
      match db_get d Giants (to_be_bytes 8 id) with
      | None => Err (MissingGiant id)
      | Some stored =>
          match stored with
          | [] => Err (Codec "empty giant")
          | _ :: raw =>
              if tag =? TAG_GIANT_STR then
                match utf8_decode raw with
                | Some s => Ok (Str s, used)
                | None => Err (Codec "giant not utf8")
                end
              else Ok (Bytes raw, used)
          end
      end
  | Err m => Err (Codec m)
  | Panic => Panic
  | OutOfFuel => OutOfFuel
  end.

(** ** Transactions *)

(** The loop of a prefix scan: entries up to the first key without the prefix. *)
Fixpoint scan_prefix {A : Type} (prefix : list Z) (f : list Z -> outcome StoreError A) (l : list entry) (out : list A)
    : outcome StoreError (list A) :=
  match l with
  | [] => Ok out
  | (k, _) :: l' =>
      if starts_with prefix k then a ← f k; scan_prefix prefix f l' (out ++ [a])
      else Ok out
  end.

Definition entity_attr_values (d : D) (e aid : Z) : outcome StoreError (list (list Z)) :=
  let prefix := to_be_bytes 8 e ++ to_be_bytes 4 aid in
  scan_prefix prefix (fun k => Ok (drop (length prefix) k)) (range d Eav (Some prefix) None) [].

Definition insert_datom (e aid : Z) (venc : list Z) (v : StoreValue) : txn unit :=
  txn_put Eav (eav_key e aid venc) [] ;;
  txn_put Ave (ave_key aid venc e) [] ;;
  match v with
  | Ref target => txn_put Vae (vae_key target aid e) []
  | _ => mret tt
  end.

Definition delete_datom (e aid : Z) (venc : list Z) : txn unit :=
  txn_del Eav (eav_key e aid venc) ;;
  txn_del Ave (ave_key aid venc e) ;;
  if bool_decide (head venc = Some TAG_REF) then
    match decode venc with
    | Ok (Value (Ref target), _) => txn_del Vae (vae_key target aid e)
    | _ => mret tt
    end
  else mret tt.

Definition delete_datom_encoded (e aid : Z) (venc : list Z) (v : StoreValue) : txn unit :=
  txn_del Eav (eav_key e aid venc) ;;
  txn_del Ave (ave_key aid venc e) ;;
  match v with
  | Ref target => txn_del Vae (vae_key target aid e)
  | _ => mret tt
  end.

(** One operation; the result is the new [max_eid]. *)
Definition transact_op (op : Op) (max_eid : Z) : txn Z :=
  match op with
  | Add e a v =>
      '(aid, props) ← intern_attr a None;
      (if negb (cardinality_many props) then
         existing ← (d ← gets env; lift (entity_attr_values d e aid));
         for_each (delete_datom e aid) existing
       else mret tt) ;;
      venc ← encode_value_for_key v;
      insert_datom e aid venc v ;;
      mret (Z.max max_eid e)
  | Retract e a v =>
      '(aid, _) ← intern_attr a None;
      venc ← encode_value_for_key v;
      delete_datom_encoded e aid venc v ;;
      mret max_eid
  end.

Fixpoint transact_ops (ops : list Op) (max_eid : Z) : txn Z :=
  match ops with
  | [] => mret max_eid
  | op :: ops' => m ← transact_op op max_eid; transact_ops ops' m
  end.

Definition transact (ops : list Op) : Store -> outcome StoreError unit * Store :=
  in_write_txn
    (m0 ← gets max_eid;
     m ← transact_ops ops m0;
     txn_put Meta META_MAX_EID (to_be_bytes 8 m)).

(** ** Queries *)

Inductive Index : Type := IEav | IAve | IVae.

Definition index_dbi (index : Index) : Dbi :=
  match index with
  | IEav => Eav
  | IAve => Ave
  | IVae => Vae
  end.

Definition decode_index_entry (st : Store) (index : Index) (k : list Z) : outcome StoreError Datom :=
  match index with
  | IEav =>
      e ← key_int k 0 8 "short eav key";
      aid ← key_int k 8 12 "short eav key";
      '(v, _) ← decode_value (env st) (drop 12 k);
      a ← attr_name st aid;
      Ok (mkDatom e a v)
  | IAve =>
      aid ← key_int k 0 4 "short ave key";
      '(v, used) ← decode_value (env st) (drop 4 k);
      e ← key_int k (4 + used) (4 + used + 8) "short ave key";
      a ← attr_name st aid;
      Ok (mkDatom e a v)
  | IVae =>
      target ← key_int k 0 8 "short vae key";
      aid ← key_int k 8 12 "short vae key";
      e ← key_int k 12 20 "short vae key";
      a ← attr_name st aid;
      Ok (mkDatom e a (Ref target))
  end.

(** [scan_eav] and [scan_ave] decode each key of the scan like
    [decode_index_entry]. *)
Definition scan_eav (st : Store) (prefix : list Z) : outcome StoreError (list Datom) :=
  let low := match prefix with [] => None | _ => Some prefix end in
  scan_prefix prefix (decode_index_entry st IEav) (range (env st) Eav low None) [].

Definition scan_ave (st : Store) (prefix : list Z) : outcome StoreError (list Datom) :=
  scan_prefix prefix (decode_index_entry st IAve) (range (env st) Ave (Some prefix) None) [].

Definition scan_vae (st : Store) (target : Z) : outcome StoreError (list Datom) :=
  let prefix := to_be_bytes 8 target in
  scan_prefix prefix
    (fun k =>
       aid ← key_int k 8 12 "short vae key";
       e ← key_int k 12 20 "short vae key";
       a ← attr_name st aid;
       Ok (mkDatom e a (Ref target)))
    (range (env st) Vae (Some prefix) None) [].

(** [out.retain(|d| &d.v == want)] *)
Definition retain (want : StoreValue) (out : list Datom) : list Datom :=
  filter (fun d => value_eqb (datom_v d) want = true) out.

Definition search (st : Store) (e : option Z) (a : option (list Z)) (v : option StoreValue)
    : outcome StoreError (list Datom) :=
  match a, (name ← a; lookup_aid st name) with
  | Some _, None => Ok []
  | _, aid =>
      venc ← match v with
             | Some value => venc ← encode_value_readonly (env st) value; Ok (Some venc)
             | None => Ok None
             end;
      match e, aid with
      | Some e, _ =>
          let prefix := to_be_bytes 8 e ++
            match aid with
            | Some aid => to_be_bytes 4 aid ++ default [] venc
            | None => []
            end in
          out ← scan_eav st prefix;
          match aid, v with
          | None, Some want => Ok (retain want out)
          | _, _ => Ok out
          end
      | None, Some aid => scan_ave st (to_be_bytes 4 aid ++ default [] venc)
      | None, None =>
          match v with
          | Some (Ref target) => scan_vae st target
          | _ =>
              out ← scan_eav st [];
              match v with
              | Some want => Ok (retain want out)
              | None => Ok out
              end
          end
      end
  end.

Definition count_prefix (d : D) (dbi : Dbi) (prefix : list Z) : outcome StoreError nat :=
  start ← lmdb (count_below d dbi prefix);
  end_ ← match prefix_successor prefix with
         | Some succ => lmdb (count_below d dbi succ)
         | None => Ok (db_count_all d dbi)
         end;
  Ok (end_ - start)%nat.

Definition count (st : Store) (e : option Z) (a : option (list Z)) (v : option StoreValue) : outcome StoreError nat :=
  let value_part : outcome StoreError (list Z) :=
    match v with
    | Some value => encode_value_readonly (env st) value
    | None => Ok []
    end in
  match e, a, v with
  | Some e, None, None => count_prefix (env st) Eav (to_be_bytes 8 e)
  | Some e, Some name, _ =>
      match lookup_aid st name with
      | None => Ok 0%nat
      | Some aid => venc ← value_part; count_prefix (env st) Eav (to_be_bytes 8 e ++ to_be_bytes 4 aid ++ venc)
      end
  | None, Some name, _ =>
      match lookup_aid st name with
      | None => Ok 0%nat
      | Some aid => venc ← value_part; count_prefix (env st) Ave (to_be_bytes 4 aid ++ venc)
      end
  | None, None, Some (Ref target) => count_prefix (env st) Vae (to_be_bytes 8 target)
  | None, None, None => Ok (db_count_all (env st) Eav)
  | _, _, _ => out ← search st e a v; Ok (length out)
  end.

Definition cardinality (st : Store) (a : list Z) : outcome StoreError nat := count st None (Some a) None.

(** The loop of [sample_ave] from the [i]-th of [take] probes on. *)
Fixpoint sample_loop (st : Store) (a : list Z) (start total take : Z) (fuel : nat) (i : Z) (out : list Datom)
    : outcome StoreError (list Datom) :=
  match fuel with
  | O => Ok out
  | S f =>
      scaled ← checked_u64 (i * total);
      let rank := start + scaled / take in
      match db_get_rank (env st) Ave (Z.to_nat rank) with
      | None => sample_loop st a start total take f (i + 1) out
      | Some (key, _) =>
          rest ← index_range key 4 (length key);
          '(v, used) ← decode_value (env st) rest;
          e ← key_int key (4 + used) (4 + used + 8) "short ave key";
          sample_loop st a start total take f (i + 1) (out ++ [mkDatom e a v])
      end
  end.

Definition sample_ave (st : Store) (a : list Z) (n : Z) : outcome StoreError (list Datom) :=
  match lookup_aid st a with
  | None => Ok []
  | Some aid =>
      let prefix := to_be_bytes 4 aid in
      start ← lmdb (count_below (env st) Ave prefix);
      total ← count_prefix (env st) Ave prefix;
      if (total =? 0)%nat || (n =? 0) then Ok []
      else
        let take := Z.min n (Z.of_nat total) in
        sample_loop st a (Z.of_nat start) (Z.of_nat total) take (Z.to_nat take) 0 []
  end.

(** ** Range scans *)

Record Bound : Type := mkBound {
  bound_e : option Z;
  bound_a : option (list Z);
  bound_v : option StoreValue;
  bound_closed : bool
}.

Definition Bound_default : Bound := mkBound None None None true.

(** [Ok None]: the bound names an unknown attribute. *)
Definition bound_prefix (st : Store) (index : Index) (b : Bound) : outcome StoreError (option (list Z)) :=
  match index with
  | IEav =>
      match bound_e b, bound_a b, bound_v b with
      | Some e, Some name, v =>
          match lookup_aid st name with
          | None => Ok None
          | Some aid =>
              venc ← match v with Some v => encode_value_readonly (env st) v | None => Ok [] end;
              Ok (Some (to_be_bytes 8 e ++ to_be_bytes 4 aid ++ venc))
          end
      | Some e, None, None => Ok (Some (to_be_bytes 8 e))
      | Some _, None, Some _ => Err (Codec "eav bound has v without a")
      | None, None, None => Ok (Some [])
      | None, _, _ => Err (Codec "eav bound has a/v without e")
      end
  | IAve =>
      match bound_a b, bound_v b, bound_e b with
      | Some name, v, e =>
          match lookup_aid st name with
          | None => Ok None
          | Some aid =>
              match v, e with
              | Some v, e =>
                  venc ← encode_value_readonly (env st) v;
                  Ok (Some (to_be_bytes 4 aid ++ venc ++ match e with Some e => to_be_bytes 8 e | None => [] end))
              | None, None => Ok (Some (to_be_bytes 4 aid))
              | None, Some _ => Err (Codec "ave bound has e without v")
              end
          end
      | None, None, None => Ok (Some [])
      | None, _, _ => Err (Codec "ave bound has v/e without a")
      end
  | IVae =>
      match bound_v b, bound_a b, bound_e b with
      | Some (Ref target), Some name, e =>
          match lookup_aid st name with
          | None => Ok None
          | Some aid =>
              Ok (Some (to_be_bytes 8 target ++ to_be_bytes 4 aid ++ match e with Some e => to_be_bytes 8 e | None => [] end))
          end
      | Some (Ref target), None, None => Ok (Some (to_be_bytes 8 target))
      | Some (Ref _), None, Some _ => Err (Codec "vae bound has e without a")
      | Some _, _, _ => Err (Codec "vae bound v must be a ref")
      | None, None, None => Ok (Some [])
      | None, _, _ => Err (Codec "vae bound has a/e without v")
      end
  end.

(** The byte range [lo_key, hi_exclusive); [Ok None] when it is empty. *)
Definition resolve_range (st : Store) (index : Index) (low high : Bound)
    : outcome StoreError (option (list Z * option (list Z))) :=
  lo ← bound_prefix st index low;
  match lo with
  | None => Ok None
  | Some lo_prefix =>
      hi ← bound_prefix st index high;
      match hi with
      | None => Ok None
      | Some hi_prefix =>
          let lo_key :=
            if bound_closed low || bool_decide (lo_prefix = []) then Some lo_prefix
            else prefix_successor lo_prefix in
          match lo_key with
          | None => Ok None
          | Some lo_key =>
              let hi_excl :=
                if bool_decide (hi_prefix = []) then None
                else if bound_closed high then prefix_successor hi_prefix
                else Some hi_prefix in
              match hi_excl with
              | Some hi => if lex_ltb lo_key hi then Ok (Some (lo_key, hi_excl)) else Ok None
              | None => Ok (Some (lo_key, hi_excl))
              end
          end
      end
  end.

Definition limit_reached (limit : option nat) (n : nat) : bool :=
  match limit with
  | Some l => (l <=? n)%nat
  | None => false
  end.

(** The ascending loop of [slice]. *)
Fixpoint slice_forward (st : Store) (index : Index) (hi_excl : option (list Z)) (limit : option nat)
    (l : list entry) (out : list Datom) : outcome StoreError (list Datom) :=
  match l with
  | [] => Ok out
  | (k, _) :: l' =>
      if match hi_excl with Some hi => negb (lex_ltb k hi) | None => false end then Ok out
      else
        d ← decode_index_entry st index k;
        let out' := out ++ [d] in
        if limit_reached limit (length out') then Ok out'
        else slice_forward st index hi_excl limit l' out'
  end.

(** The descending loop of [slice], over the cursor. *)
Fixpoint slice_reverse (fuel : nat) (st : Store) (index : Index) (lo_key : list Z) (limit : option nat)
    (step : option entry) (out : list Datom) : outcome StoreError (list Datom) :=
  match fuel with
  | O => match step with None => Ok out | Some _ => OutOfFuel end
  | S f =>
      match step with
      | None => Ok out
      | Some (k, _) =>
          if lex_ltb k lo_key then Ok out
          else
            d ← decode_index_entry st index k;
            let out' := out ++ [d] in
            if limit_reached limit (length out') then Ok out'
            else slice_reverse f st index lo_key limit (cur_prev (env st) (index_dbi index) k) out'
      end
  end.

Definition slice (st : Store) (index : Index) (low high : Bound) (limit : option nat) (reverse : bool)
    : outcome StoreError (list Datom) :=
  if bool_decide (limit = Some 0%nat) then Ok []
  else
    let d := env st in
    let dbi := index_dbi index in
    r ← resolve_range st index low high;
    match r with
    | None => Ok []
    | Some (lo_key, hi_excl) =>
        if reverse then
          let step :=
            match hi_excl with
            | None => cur_last d dbi
            | Some hi =>
                match cur_set_range d dbi hi with
                | Some (k, _) => cur_prev d dbi k
                | None => cur_last d dbi
                end
            end in
          slice_reverse (db_count_all d dbi) st index lo_key limit step []
        else
          let start := match lo_key with [] => None | _ => Some lo_key end in
          slice_forward st index hi_excl limit (range d dbi start None) []
    end.

Definition count_range (st : Store) (index : Index) (low high : Bound) : outcome StoreError nat :=
  let d := env st in
  let dbi := index_dbi index in
  r ← resolve_range st index low high;
  match r with
  | None => Ok 0%nat
  | Some (lo_key, hi_excl) =>
      start ← match lo_key with [] => Ok 0%nat | _ => lmdb (count_below d dbi lo_key) end;
      end_ ← match hi_excl with
             | Some hi => lmdb (count_below d dbi hi)
             | None => Ok (db_count_all d dbi)
             end;
      Ok (end_ - start)%nat
  end.
End Store.

Arguments Store D : clear implicits.
