(* ===== verification/StoreValues.v ===== *)
(** Values in the keys of the Datalog store: what identifies a value in a key,
    how giants are stored, and the effects of single writes. *)
From stdpp Require Import strings gmap.
From S2P Require Import Prelude RustStd StoreCodec Dlmdb Store.
Local Open Scope Z_scope.

#[global] Opaque to_be_bytes from_be_bytes.

Definition is_u32 (n : Z) : Prop := 0 <= n <= u32_max.

Lemma to_be_bytes_inj k m n :
  0 <= m < 256 ^ Z.of_nat k -> 0 <= n < 256 ^ Z.of_nat k -> to_be_bytes k m = to_be_bytes k n -> m = n.
Proof. intros Hm Hn E. rewrite <- (from_to_be_bytes k m), E, from_to_be_bytes by done. done. Qed.

Lemma to_be_bytes_inj_u64 m n : is_u64 m -> is_u64 n -> to_be_bytes 8 m = to_be_bytes 8 n -> m = n.
Proof. unfold is_u64, u64_max. intros Hm Hn. apply to_be_bytes_inj; simpl; lia. Qed.

Lemma to_be_bytes_inj_u32 m n : is_u32 m -> is_u32 n -> to_be_bytes 4 m = to_be_bytes 4 n -> m = n.
Proof. unfold is_u32, u32_max. intros Hm Hn. apply to_be_bytes_inj; simpl; lia. Qed.

Lemma utf8_encode_inj s t :
  Forall (fun c => is_scalar c = true) s -> Forall (fun c => is_scalar c = true) t ->
  utf8_encode s = utf8_encode t -> s = t.
Proof. intros Hs Ht E. apply utf8_decode_encode in Hs, Ht. rewrite E in Hs. congruence. Qed.

(** * Encoded values *)

(** Bytes of a list given by its elements. *)
Ltac bytes := repeat first [apply Forall_cons_2 | apply Forall_nil_2]; try done; try (split; done).

Lemma escaped_is_bytes raw : Forall is_byte raw -> Forall is_byte (escaped raw).
Proof.
  induction 1 as [|b raw Hb _ IH]; [cbn; bytes|]. rewrite escaped_cons. apply Forall_app. split; [|done].
  unfold escape_byte. case_match; bytes.
Qed.

Lemma encoded_is_bytes v : value_ok v -> Forall is_byte (encoded v).
Proof.
  induction v as [v Hs|items IH] using StoreValue_nested_ind; intros Hv.
  - destruct v as [b|n|n|n|s|s|b|e|b|items]; inversion Hv; subst;
      rewrite ?encoded_str, ?encoded_keyword, ?encoded_bytes; [| | | | | | | | |by destruct (Hs items)];
      (apply Forall_cons_2; [done|]); try apply escaped_is_bytes; try apply utf8_encode_bytes;
      try apply to_be_bytes_bytes; try done.
    destruct b; bytes.
  - rewrite encoded_vec. apply Forall_app. split; [bytes|]. apply Forall_app. split; [|bytes].
    inversion Hv as [| | | | | | | | |? Hi]; subst. apply Forall_bind.
    rewrite Forall_forall in *. auto.
Qed.

Definition oversized (v : StoreValue) : Prop := (GIANT_THRESHOLD < length (encoded v))%nat.

(** A value the store can hold: strings and byte strings of any length, others
    up to the size limit of a key. *)
Definition storable (v : StoreValue) : Prop :=
  oversized v -> exists tag raw, giant_parts v = Ok (tag, raw).

Section Values.
Context {D : Type} {HD : Dlmdb D} {HP : Platform}.

(** No two byte strings that are ever stored have the same digest. *)
Context (stored : list Z -> Prop).
Context (no_collision : forall x y, stored x -> stored y -> sha256 x = sha256 y -> x = y).

Definition digestible (v : StoreValue) : Prop :=
  match v with
  | Str s => stored (utf8_encode s)
  | Bytes b => stored b
  | _ => True
  end.

Definition counter (d : D) (key : list Z) : Z :=
  match db_get d Meta key with
  | Some b => from_be_bytes b
  | None => 0
  end.

(** The key bytes of a value: its encoding, or for a giant the tag, a prefix
    and the id under which it was stored. *)
Definition encodes (d : D) (v : StoreValue) (k : list Z) : Prop :=
  (~ oversized v /\ k = encoded v) \/
  (oversized v /\ exists tag raw id, giant_parts v = Ok (tag, raw) /\ is_u64 id /\
     db_get d GiantIds (sha256 raw) = Some (to_be_bytes 8 id) /\
     k = [tag] ++ take GIANT_PREFIX raw ++ to_be_bytes 8 id).

(** Every digest leads to an id that was handed out, and the id to the bytes
    with that digest. *)
Definition giants_ok (d : D) : Prop :=
  forall digest b, db_get d GiantIds digest = Some b ->
  exists id tag raw, b = to_be_bytes 8 id /\ 0 < id <= counter d META_NEXT_GIANT /\
    digest = sha256 raw /\ stored raw /\ db_get d Giants b = Some (tag :: raw).

Lemma length_escaped_bound raw : (length (escaped raw) <= 2 * length raw + 2)%nat.
Proof.
  induction raw as [|b raw IH]; [done|]. rewrite escaped_cons, length_app. simpl.
  unfold escape_byte. case_match; simpl; lia.
Qed.

(** A giant is long enough for the prefix its key takes. *)
Lemma giant_raw_long v tag raw :
  oversized v -> giant_parts v = Ok (tag, raw) -> (GIANT_PREFIX <= length raw)%nat.
Proof.
  unfold oversized, GIANT_THRESHOLD, GIANT_PREFIX. intros Ho Hp.
  destruct v; try done; injection Hp as <- <-; rewrite ?encoded_str, ?encoded_bytes in Ho; simpl in Ho;
    match goal with |- (_ <= length ?r)%nat => pose proof (length_escaped_bound r) end; lia.
Qed.

Lemma giant_key_eq v tag raw id :
  oversized v -> giant_parts v = Ok (tag, raw) ->
  giant_key tag raw id = Ok ([tag] ++ take GIANT_PREFIX raw ++ to_be_bytes 8 id).
Proof.
  intros Ho Hp. pose proof (giant_raw_long _ _ _ Ho Hp) as Hl. unfold giant_key, index_range.
  rewrite (proj2 (Nat.leb_le GIANT_PREFIX (length raw))) by done. simpl. by rewrite drop_0.
Qed.
Lemma encodes_functional d v k k' : encodes d v k -> encodes d v k' -> k = k'.
Proof.
  intros [[? ->]|(Ho & tag & raw & id & Hp & Hid & Hg & ->)] [[? ->]|(Ho' & tag' & raw' & id' & Hp' & Hid' & Hg' & ->)];
    try done.
  rewrite Hp in Hp'. injection Hp' as <- <-. rewrite Hg in Hg'.
  assert (to_be_bytes 8 id = to_be_bytes 8 id') as -> by congruence. done.
Qed.

Lemma giant_parts_tag v tag raw :
  giant_parts v = Ok (tag, raw) -> (tag = TAG_GIANT_STR \/ tag = TAG_GIANT_BYTES) /\ tag <> tag_of v.
Proof. destruct v; simpl; intros [=]; subst; (split; [tauto | done]). Qed.

Lemma tag_of_not_giant v : tag_of v <> TAG_GIANT_STR /\ tag_of v <> TAG_GIANT_BYTES.
Proof. by destruct v. Qed.

Lemma giant_parts_inj v v' tag raw :
  value_ok v -> value_ok v' -> giant_parts v = Ok (tag, raw) -> giant_parts v' = Ok (tag, raw) -> v = v'.
Proof.
  intros Hv Hv' Hp Hp'. destruct v; try done; destruct v'; try done; simpl in *; simplify_eq; [|done].
  inversion Hv; inversion Hv'; subst. f_equal. by apply utf8_encode_inj.
Qed.

Lemma digestible_giant v tag raw : digestible v -> giant_parts v = Ok (tag, raw) -> stored raw.
Proof. destruct v; simpl; intros ? [=]; by subst. Qed.

(** Two stored giants with the same id are the same bytes. *)
Lemma giant_id_inj d raw raw' id :
  giants_ok d -> stored raw -> stored raw' ->
  db_get d GiantIds (sha256 raw) = Some (to_be_bytes 8 id) ->
  db_get d GiantIds (sha256 raw') = Some (to_be_bytes 8 id) -> raw = raw'.
Proof.
  intros Hok Hs Hs' Hg Hg'.
  destruct (Hok _ _ Hg) as (i & t & r & _ & _ & Hr & Hst & Hgi).
  destruct (Hok _ _ Hg') as (i' & t' & r' & _ & _ & Hr' & Hst' & Hgi').
  rewrite Hgi in Hgi'. injection Hgi' as <- <-.
  rewrite (no_collision raw r), (no_collision raw' r) by done. done.
Qed.

(** Key bytes identify the value, and none is a proper prefix of another. *)
Lemma encodes_prefix_free d v v' k k' r r' :
  giants_ok d -> value_ok v -> value_ok v' -> digestible v -> digestible v' ->
  encodes d v k -> encodes d v' k' -> k ++ r = k' ++ r' -> v = v' /\ r = r'.
Proof.
  intros Hok Hv Hv' Hd Hd' [[_ ->]|(Ho & tag & raw & id & Hp & Hid & Hg & ->)]
    [[_ ->]|(Ho' & tag' & raw' & id' & Hp' & Hid' & Hg' & ->)] E.
  - by eapply encoded_prefix_free.
  - exfalso. destruct (encoded_head v) as [t Ht]. rewrite Ht in E. injection E as Etag _.
    apply giant_parts_tag in Hp' as [Hg2 _]. pose proof (tag_of_not_giant v). intuition congruence.
  - exfalso. destruct (encoded_head v') as [t Ht]. rewrite Ht in E. injection E as Etag _.
    apply giant_parts_tag in Hp as [Hg2 _]. pose proof (tag_of_not_giant v'). intuition congruence.
  - pose proof (giant_raw_long _ _ _ Ho Hp). pose proof (giant_raw_long _ _ _ Ho' Hp').
    injection E as Etag E. rewrite <- !app_assoc in E.
    apply app_inj_1 in E as [_ E]; [|rewrite !length_take; lia].
    apply app_inj_1 in E as [E ->]; [|by rewrite !length_to_be_bytes].
    rewrite <- E in Hg'. assert (raw = raw') as <- by (eapply giant_id_inj; eauto using digestible_giant).
    subst tag'. split; [|done]. by eapply giant_parts_inj.
Qed.

(** Key bytes decode to the value, wherever the key goes on. *)
Lemma decode_value_encodes d v k r :
  giants_ok d -> value_ok v -> digestible v -> encodes d v k ->
  decode_value d (k ++ r) = Ok (v, length k).
Proof.
  intros Hok Hv Hd [[_ ->]|(Ho & tag & raw & id & Hp & Hid & Hg & ->)]; unfold decode_value.
  - by rewrite decode_encoded.
  - pose proof (giant_raw_long _ _ _ Ho Hp) as Hl.
    assert (Hdec : decode (([tag] ++ take GIANT_PREFIX raw ++ to_be_bytes 8 id) ++ r)
                   = Ok (Giant tag id, (1 + GIANT_PREFIX + 8)%nat)).
    { rewrite <- !app_assoc. unfold decode. rewrite Nat.add_succ_r. cbn [decode_loop app].
      assert (get_range (take GIANT_PREFIX raw ++ to_be_bytes 8 id ++ r) GIANT_PREFIX (GIANT_PREFIX + 8)
              = Some (to_be_bytes 8 id)) as Hrange.
      { unfold get_range. rewrite !length_app, length_take, length_to_be_bytes.
        rewrite (proj2 (Nat.leb_le _ _)) by lia.
        rewrite drop_app_length' by (rewrite length_take; lia).
        replace (GIANT_PREFIX + 8 - GIANT_PREFIX)%nat with 8%nat by done.
        by rewrite take_app_length' by by rewrite length_to_be_bytes. }
      rewrite Hrange. apply giant_parts_tag in Hp as [[-> | ->] _]; simpl; rewrite from_to_be_bytes; try done;
        unfold is_u64, u64_max in Hid; simpl; lia. }
    rewrite Hdec. destruct (Hok _ _ Hg) as (i & t & raw' & Hi & _ & Hr & Hst & Hgi).
    assert (raw' = raw) as -> by (symmetry; eapply no_collision; eauto using digestible_giant).
    rewrite Hgi, !length_app, length_take, length_to_be_bytes, Nat.min_l by done. simpl.
    destruct v; try done; injection Hp as <- <-; simpl; [|done].
    inversion Hv; subst. by rewrite utf8_decode_encode.
Qed.

Lemma encodes_not_nil d v k : encodes d v k -> k <> [].
Proof. intros [[_ ->]|(_ & tag & raw & id & _ & _ & _ & ->)]; [|done]. by destruct (encoded_head v) as [t ->]. Qed.

Lemma encodes_bytes d v k : value_ok v -> encodes d v k -> Forall is_byte k.
Proof.
  intros Hv [[_ ->]|(_ & tag & raw & id & Hp & _ & _ & ->)]; [by apply encoded_is_bytes|].
  apply Forall_app; split; [|apply Forall_app; split; [|apply to_be_bytes_bytes]].
  - apply giant_parts_tag in Hp as [[-> | ->] _]; bytes.
  - apply Forall_take. destruct v; try done; injection Hp as <- <-; inversion Hv; subst; [|done].
    by apply utf8_encode_bytes.
Qed.
(** * Writes *)

(** [d'] is [d] with one entry set or removed. *)
Definition updated (d d' : D) (dbi : Dbi) (k : list Z) (o : option (list Z)) : Prop :=
  forall dbi' k', db_get d' dbi' k' = if decide (dbi' = dbi /\ k' = k) then o else db_get d dbi' k'.

Lemma has_key_put d d' dbi k v dbi' k' :
  updated d d' dbi k (Some v) -> has_key d' dbi' k' <-> has_key d dbi' k' \/ (dbi' = dbi /\ k' = k).
Proof. intros Hu. rewrite !has_key_get, Hu. case_decide; naive_solver. Qed.

Lemma has_key_del d d' dbi k dbi' k' :
  updated d d' dbi k None -> has_key d' dbi' k' <-> has_key d dbi' k' /\ ~ (dbi' = dbi /\ k' = k).
Proof.
  intros Hu. rewrite !has_key_get, Hu. case_decide; [|tauto].
  split; [by intros ?%is_Some_None | tauto].
Qed.

Definition lmdb_failure (st : Store D) (e : StoreError) (st' : Store D) : Prop :=
  (exists c, e = Lmdb c) /\ attrs st' = attrs st /\ attr_names st' = attr_names st.

(** The environment changed, the caches did not. *)
Definition env_step (st st' : Store D) : Prop := attrs st' = attrs st /\ attr_names st' = attr_names st.

Lemma txn_put_spec dbi k v st :
  hoare (txn_put dbi k v) st
    (fun _ st' => env_step st st' /\ updated (env st) (env st') dbi k (Some v)) (lmdb_failure st).
Proof.
  unfold hoare, txn_put. simpl. pose proof (put_spec (env st) dbi k v) as Hp.
  unfold mbind, stateM_bind, gets, lift, modify. simpl.
  destruct (db_put (env st) dbi k v); simpl; try done. by repeat split; eauto.
Qed.

Lemma txn_del_spec dbi k st :
  hoare (txn_del dbi k) st
    (fun _ st' => env_step st st' /\ updated (env st) (env st') dbi k None) (lmdb_failure st).
Proof.
  unfold hoare, txn_del. simpl. pose proof (del_spec (env st) dbi k) as Hp.
  unfold mbind, stateM_bind, gets, lift, modify. simpl.
  destruct (db_del (env st) dbi k); simpl; try done. by repeat split; eauto.
Qed.

Lemma env_step_trans st1 st2 st3 : env_step st1 st2 -> env_step st2 st3 -> env_step st1 st3.
Proof. unfold env_step. intuition congruence. Qed.

Lemma lmdb_failure_step st st1 e st2 : env_step st st1 -> lmdb_failure st1 e st2 -> lmdb_failure st e st2.
Proof. unfold env_step, lmdb_failure. intuition congruence. Qed.

(** ** Counters *)

Definition counter_ok (d : D) (key : list Z) : Prop :=
  forall b, db_get d Meta key = Some b -> exists n, is_u64 n /\ b = to_be_bytes 8 n.

Lemma counter_range d key : counter_ok d key -> is_u64 (counter d key).
Proof.
  intros Hok. unfold counter. destruct (db_get d Meta key) as [b|] eqn:E; [|done].
  destruct (Hok b E) as (n & Hn & ->). rewrite from_to_be_bytes; [done|]. unfold is_u64, u64_max in Hn. simpl. lia.
Qed.

Lemma counter_put d d' key n :
  is_u64 n -> updated d d' Meta key (Some (to_be_bytes 8 n)) -> counter_ok d' key /\ counter d' key = n.
Proof.
  intros Hn Hu. assert (Hg : db_get d' Meta key = Some (to_be_bytes 8 n)) by (rewrite Hu; by rewrite decide_True).
  split; [intros b Hb; exists n; split; [done | congruence]|].
  unfold counter. rewrite Hg, from_to_be_bytes; [done|]. unfold is_u64, u64_max in Hn. simpl. lia.
Qed.

Lemma bump_counter_spec key st :
  counter_ok (env st) key -> counter (env st) key < u64_max ->
  hoare (bump_counter key) st
    (fun n st' => n = counter (env st) key + 1 /\ env_step st st' /\
       updated (env st) (env st') Meta key (Some (to_be_bytes 8 n)))
    (lmdb_failure st).
Proof.
  intros Hok Hlt. unfold bump_counter. apply hoare_bind, hoare_gets. apply hoare_bind.
  assert (Hread : hoare (match db_get (env st) Meta key with
                         | Some b => lift (read_u64 b "bad meta counter")
                         | None => mret 0
                         end) st (fun n st' => n = counter (env st) key /\ st' = st) (lmdb_failure st)).
  { unfold counter. destruct (db_get (env st) Meta key) as [b|] eqn:E; [|done].
    destruct (Hok b E) as (n & Hn & ->). eapply hoare_lift_ok; [|done].
    unfold read_u64. by rewrite length_to_be_bytes. }
  eapply hoare_consequence; [exact Hread | | done]. intros ? ? [-> ->].
  apply hoare_bind. eapply hoare_lift_ok.
  { unfold checked_u64. rewrite (proj2 (Z.leb_le _ _)) by lia. done. }
  apply hoare_bind. eapply hoare_consequence; [apply txn_put_spec | | done].
  intros [] st' [Hstep Hu]. by apply hoare_ret.
Qed.
(** ** Giants *)

(** What storing a giant may change: a new digest, its bytes and the counter. *)
Record giants_grow (d d' : D) : Prop := {
  grow_tables dbi k : dbi = Eav \/ dbi = Ave \/ dbi = Vae \/ dbi = Schema -> db_get d' dbi k = db_get d dbi k;
  grow_meta k : k <> META_NEXT_GIANT -> db_get d' Meta k = db_get d Meta k;
  grow_ids x b : db_get d GiantIds x = Some b -> db_get d' GiantIds x = Some b
}.

Lemma giants_grow_refl d : giants_grow d d.
Proof. by constructor. Qed.

(** The giants of an environment are in order, and the counter has room. *)
Definition giants_inv (d : D) : Prop := giants_ok d /\ counter_ok d META_NEXT_GIANT.

Definition value_failure (st : Store D) (v : StoreValue) (e : StoreError) (st' : Store D) : Prop :=
  lmdb_failure st e st' \/
  (e = Codec "only strings and bytes can be giant" /\ ~ storable v /\ env_step st st').

Lemma store_giant_ok d d1 d2 d3 raw tag :
  giants_ok d -> counter_ok d META_NEXT_GIANT -> counter d META_NEXT_GIANT < u64_max -> stored raw ->
  db_get d GiantIds (sha256 raw) = None ->
  let id := counter d META_NEXT_GIANT + 1 in
  updated d d1 Meta META_NEXT_GIANT (Some (to_be_bytes 8 id)) ->
  updated d1 d2 Giants (to_be_bytes 8 id) (Some (tag :: raw)) ->
  updated d2 d3 GiantIds (sha256 raw) (Some (to_be_bytes 8 id)) ->
  giants_ok d3 /\ counter_ok d3 META_NEXT_GIANT /\ counter d3 META_NEXT_GIANT = id /\ giants_grow d d3.
Proof.
  intros Hok Hc Hlt Hst Hnone id H1 H2 H3. pose proof (counter_range _ _ Hc) as Hr.
  assert (Hid : is_u64 id) by (unfold is_u64 in *; lia).
  assert (Hmeta : forall k, db_get d3 Meta k = db_get d1 Meta k).
  { intros k. rewrite H3, decide_False by naive_solver. by rewrite H2, decide_False by naive_solver. }
  assert (Hcount : counter_ok d3 META_NEXT_GIANT /\ counter d3 META_NEXT_GIANT = id).
  { unfold counter_ok, counter. rewrite !Hmeta. by apply (counter_put d d1). }
  split; [|split; [apply Hcount|]; split; [apply Hcount|]].
  - intros digest b Hb. rewrite H3 in Hb. destruct Hcount as [_ Hcount]. rewrite Hcount.
    case_decide as E; [destruct E as [_ ->]|].
    + injection Hb as <-. exists id, tag, raw. unfold is_u64 in *. split_and!; try done; try lia.
      rewrite H3, decide_False by naive_solver. by rewrite H2, decide_True.
    + rewrite H2, decide_False, H1, decide_False in Hb by naive_solver.
      destruct (Hok _ _ Hb) as (i & t & r & -> & Hi & Hd & Hs & Hg). exists i, t, r. split_and!; try done; try lia.
      rewrite H3, decide_False by naive_solver. rewrite H2, decide_False.
      * by rewrite H1, decide_False by naive_solver.
      * intros [_ Ei%to_be_bytes_inj_u64]; unfold is_u64 in *; lia.
  - constructor.
    + intros dbi k Hdbi. rewrite H3, decide_False by naive_solver. rewrite H2, decide_False by naive_solver.
      by rewrite H1, decide_False by naive_solver.
    + intros k Hk. by rewrite Hmeta, H1, decide_False by naive_solver.
    + intros x b Hb. rewrite H3, decide_False by (intros [_ ->]; congruence).
      rewrite H2, decide_False by naive_solver. by rewrite H1, decide_False by naive_solver.
Qed.

Lemma encode_value_for_key_spec v st :
  giants_inv (env st) -> counter (env st) META_NEXT_GIANT < u64_max -> digestible v ->
  hoare (encode_value_for_key v) st
    (fun k st' => encodes (env st') v k /\ env_step st st' /\ giants_inv (env st') /\
       counter (env st') META_NEXT_GIANT <= counter (env st) META_NEXT_GIANT + 1 /\
       giants_grow (env st) (env st'))
    (value_failure st v).
Proof.
  intros [Hok Hc] Hlt Hd. unfold encode_value_for_key. fold (encoded v).
  destruct (Nat.leb_spec (length (encoded v)) GIANT_THRESHOLD) as [Hle|Hgt].
  { apply hoare_ret. split; [left; split; [unfold oversized; lia | done]|].
    split_and!; try done; try apply giants_grow_refl; lia. }
  apply hoare_bind. destruct (giant_parts v) as [[tag raw]|e| |] eqn:Hp; [| |by destruct v..].
  2:{ right. split_and!; [by destruct v; simpl in Hp; congruence | | done].
      intros Hs. destruct (Hs Hgt) as (t & r & E). congruence. }
  eapply hoare_lift_ok; [done|]. apply hoare_bind, hoare_gets.
  pose proof (digestible_giant _ _ _ Hd Hp) as Hst.
  assert (Hkey : forall id st', is_u64 id -> db_get (env st') GiantIds (sha256 raw) = Some (to_be_bytes 8 id) ->
            exists k, giant_key tag raw id = Ok k /\ encodes (env st') v k).
  { intros id st' Hid Hg. exists ([tag] ++ take GIANT_PREFIX raw ++ to_be_bytes 8 id).
    split; [by eapply giant_key_eq|]. right. split; [done|]. by exists tag, raw, id. }
  apply hoare_bind. destruct (db_get (env st) GiantIds (sha256 raw)) as [b|] eqn:Eg.
  - destruct (Hok _ _ Eg) as (id & t & r & -> & Hid & _).
    pose proof (counter_range _ _ Hc) as Hr. assert (is_u64 id) by (unfold is_u64 in *; lia).
    eapply hoare_lift_ok.
    { unfold read_u64. rewrite length_to_be_bytes. simpl. rewrite from_to_be_bytes; [done|].
      unfold is_u64, u64_max in *. simpl. lia. }
    destruct (Hkey id st) as (k & Hk & Henc); [done..|]. eapply hoare_lift_ok; [done|].
    split_and!; try done; try apply giants_grow_refl; lia.
  - apply hoare_bind. eapply hoare_consequence;
      [by apply bump_counter_spec | | intros e st' He; by left].
    intros ? st1 (-> & Hs1 & Hu1). apply hoare_bind.
    eapply hoare_consequence; [apply txn_put_spec | | intros e st' He; left; by eapply lmdb_failure_step].
    intros [] st2 (Hs2 & Hu2). apply hoare_bind.
    eapply hoare_consequence; [apply txn_put_spec | | intros e st' He; left; eauto using lmdb_failure_step].
    intros [] st3 (Hs3 & Hu3). apply hoare_ret.
    destruct (store_giant_ok (env st) (env st1) (env st2) (env st3) raw tag) as (H1 & H2 & H3 & H4); try done.
    destruct (Hkey (counter (env st) META_NEXT_GIANT + 1) st3) as (k & Hk & Henc).
    { pose proof (counter_range _ _ Hc). unfold is_u64 in *. lia. }
    { by rewrite Hu3, decide_True. }
    eapply hoare_lift_ok; [done|]. split_and!; try done; try apply (env_step_trans _ _ _ (env_step_trans _ _ _ Hs1 Hs2) Hs3); lia.
Qed.
End Values.
