(* ===== verification/StoreIndex.v ===== *)
(** The indexes of the Datalog store: the three tables represent one set of
    facts, and transactions change that set as specified. *)
From stdpp Require Import strings gmap.
From S2P Require Import Prelude RustStd StoreCodec Dlmdb Store StoreValues.
Local Open Scope Z_scope.

(** * Keys *)

Lemma eav_key_inj e aid venc e' aid' venc' :
  is_u64 e -> is_u64 e' -> is_u32 aid -> is_u32 aid' ->
  eav_key e aid venc = eav_key e' aid' venc' -> e = e' /\ aid = aid' /\ venc = venc'.
Proof.
  intros He He' Ha Ha' E. unfold eav_key in E.
  apply app_inj_1 in E as [E1 E]; [|by rewrite !length_to_be_bytes].
  apply app_inj_1 in E as [E2 ->]; [|by rewrite !length_to_be_bytes].
  split_and!; [by apply to_be_bytes_inj_u64 | by apply to_be_bytes_inj_u32 | done].
Qed.

Lemma vae_key_inj t aid e t' aid' e' :
  is_u64 t -> is_u64 t' -> is_u32 aid -> is_u32 aid' -> is_u64 e -> is_u64 e' ->
  vae_key t aid e = vae_key t' aid' e' -> t = t' /\ aid = aid' /\ e = e'.
Proof.
  intros Ht Ht' Ha Ha' He He' E. unfold vae_key in E.
  apply app_inj_1 in E as [E1 E]; [|by rewrite !length_to_be_bytes].
  apply app_inj_1 in E as [E2 E3]; [|by rewrite !length_to_be_bytes].
  split_and!; [by apply to_be_bytes_inj_u64 | by apply to_be_bytes_inj_u32 | by apply to_be_bytes_inj_u64].
Qed.

(** * Scans *)

Lemma scan_prefix_ok {A : Type} p (f : list Z -> outcome StoreError A) (g : list Z -> A) ks post :
  forall l out, keys l = ks ++ post ->
  (forall k, k ∈ ks -> starts_with p k = true /\ f k = Ok (g k)) ->
  match post with [] => True | k :: _ => starts_with p k = false end ->
  scan_prefix p f l out = Ok (out ++ map g ks).
Proof.
  induction ks as [|k ks IH]; intros l out Hl Hks Hpost.
  - rewrite app_nil_r. destruct l as [|[k v] l]; [done|]. simpl in *. subst post. by rewrite Hpost.
  - destruct l as [|[k' v] l]; [done|]. injection Hl as -> Hl. simpl.
    destruct (Hks k ltac:(by left)) as [-> ->]. simpl. rewrite (IH l (out ++ [g k])); try done.
    + by rewrite <- app_assoc.
    + intros k' Hk'. apply Hks. by right.
Qed.

Lemma bt_sorted_drop i (l : list entry) : bt_sorted l -> bt_sorted (drop i l).
Proof. revert l. induction i as [|i IH]; intros [|[k v] l]; simpl; try done. intros [_ Hl]. by apply IH. Qed.

(** A prefix scan applies its function to the keys with the prefix, in order. *)
Lemma scan_range_ok {D A : Type} `{Dlmdb D} (d : D) dbi p low (f : list Z -> outcome StoreError A) g :
  low = Some p \/ (low = None /\ p = []) ->
  (forall k, k ∈ with_prefix p (db_entries d dbi) -> f k = Ok (g k)) ->
  scan_prefix p f (range d dbi low None) [] = Ok (map g (with_prefix p (db_entries d dbi))).
Proof.
  intros Hlow Hf. pose proof (entries_sorted d dbi) as Hs.
  assert (Hr : bt_sorted (range d dbi low None)) by (rewrite range_spec; by apply bt_sorted_drop).
  assert (Hw : with_prefix p (range d dbi low None) = with_prefix p (db_entries d dbi)).
  { rewrite range_spec. destruct Hlow as [->|[-> ->]]; [by apply with_prefix_drop | done]. }
  destruct (prefix_scan_split p (range d dbi low None)) as (post & Hk & Hpost); [done| |].
  { destruct Hlow as [->|[-> ->]]; [intros k; apply range_keys_not_below | intros [|z k] _; simpl; congruence]. }
  rewrite Hw in Hk. erewrite scan_prefix_ok; [done | exact Hk | | done].
  intros k Hin. split; [|by apply Hf]. by apply list_elem_of_filter in Hin as [? _].
Qed.

Lemma keys_NoDup (l : list entry) : bt_sorted l -> NoDup (keys l).
Proof.
  induction l as [|[k v] l IH]; [constructor|]. intros [Hk Hs]. simpl. constructor; [|by apply IH].
  intros [v' Hin]%keys_elem. by destruct (lex_compare_irrefl _ (Hk _ _ Hin)).
Qed.

Lemma with_prefix_NoDup p (l : list entry) : bt_sorted l -> NoDup (with_prefix p l).
Proof. intros Hs. by apply NoDup_filter, keys_NoDup. Qed.

Lemma with_prefix_elem p (l : list entry) k : k ∈ with_prefix p l <-> k ∈ keys l /\ exists r, k = p ++ r.
Proof. unfold with_prefix. rewrite list_elem_of_filter, starts_with_app. tauto. Qed.

(** * Facts *)

(** A set of facts: entity, attribute id, value. *)
Definition facts : Type := Z -> Z -> StoreValue -> Prop.

Definition facts_equiv (F G : facts) : Prop := forall e aid v, F e aid v <-> G e aid v.

#[export] Instance facts_equiv_equivalence : Equivalence facts_equiv.
Proof.
  split.
  - by intros F e aid v.
  - intros F G HFG e aid v. by rewrite (HFG e aid v).
  - intros F G K HFG HGK e aid v. by rewrite (HFG e aid v).
Qed.

Definition fact_add (e aid : Z) (v : StoreValue) (F : facts) : facts :=
  fun e' aid' v' => F e' aid' v' \/ (e' = e /\ aid' = aid /\ v' = v).

Definition fact_remove (e aid : Z) (v : StoreValue) (F : facts) : facts :=
  fun e' aid' v' => F e' aid' v' /\ ~ (e' = e /\ aid' = aid /\ v' = v).

Section Index.
Context {D : Type} {HD : Dlmdb D} {HP : Platform}.
Context (stored : list Z -> Prop).
Context (no_collision : forall x y, stored x -> stored y -> sha256 x = sha256 y -> x = y).

Definition fact_ok (e aid : Z) (v : StoreValue) : Prop :=
  is_u64 e /\ is_u32 aid /\ value_ok v /\ digestible stored v.

Record Rep (d : D) (F : facts) : Prop := {
  rep_ok e aid v : F e aid v -> fact_ok e aid v /\ exists venc, encodes d v venc;
  rep_eav k : has_key d Eav k <->
    exists e aid v venc, F e aid v /\ encodes d v venc /\ k = eav_key e aid venc;
  rep_ave k : has_key d Ave k <->
    exists e aid v venc, F e aid v /\ encodes d v venc /\ k = ave_key aid venc e;
  rep_vae k : has_key d Vae k <-> exists e aid target, F e aid (Ref target) /\ k = vae_key target aid e
}.

#[export] Instance Rep_proper d : Proper (facts_equiv ==> iff) (Rep d).
Proof.
  intros F G HFG. split; intros [H1 H2 H3 H4]; constructor; unfold facts_equiv in HFG.
  - intros e aid v. rewrite <- HFG. apply H1.
  - intros k. rewrite H2. by setoid_rewrite HFG.
  - intros k. rewrite H3. by setoid_rewrite HFG.
  - intros k. rewrite H4. by setoid_rewrite HFG.
  - intros e aid v. rewrite HFG. apply H1.
  - intros k. rewrite H2. by setoid_rewrite HFG.
  - intros k. rewrite H3. by setoid_rewrite HFG.
  - intros k. rewrite H4. by setoid_rewrite HFG.
Qed.

Lemma ave_key_inj d e aid v venc e' aid' v' venc' :
  giants_ok stored d -> fact_ok e aid v -> fact_ok e' aid' v' -> encodes d v venc -> encodes d v' venc' ->
  ave_key aid venc e = ave_key aid' venc' e' -> e = e' /\ aid = aid' /\ v = v'.
Proof.
  intros Hg (He & Ha & Hv & Hd) (He' & Ha' & Hv' & Hd') Henc Henc' E. unfold ave_key in E.
  apply app_inj_1 in E as [E1 E]; [|by rewrite !length_to_be_bytes].
  apply (encodes_prefix_free stored no_collision d v v') in E as [-> E]; try done.
  split_and!; [by apply to_be_bytes_inj_u64 | by apply to_be_bytes_inj_u32 | done].
Qed.

(** Key encodings, and with them what a table represents, survive changes to
    other tables and new giants. *)
Lemma encodes_mono d d' v k :
  (forall x b, db_get d GiantIds x = Some b -> db_get d' GiantIds x = Some b) ->
  encodes d v k -> encodes d' v k.
Proof.
  intros Hids [Hi|(Ho & tag & raw & id & Hp & Hid & Hg & ->)]; [by left|]. right. split; [done|].
  exists tag, raw, id. eauto.
Qed.

Lemma has_key_same d d' dbi k : db_get d' dbi k = db_get d dbi k -> has_key d' dbi k <-> has_key d dbi k.
Proof. intros E. by rewrite !has_key_get, E. Qed.

Lemma Rep_encodes_iff d d' F :
  Rep d F -> (forall x b, db_get d GiantIds x = Some b -> db_get d' GiantIds x = Some b) ->
  forall e aid v venc, F e aid v -> encodes d' v venc <-> encodes d v venc.
Proof.
  intros HF Hids e aid v venc Hin. split; [|by apply encodes_mono].
  destruct (rep_ok _ _ HF _ _ _ Hin) as (_ & venc0 & Henc0). intros Henc.
  rewrite (encodes_functional d' v venc venc0); [done | done | by eapply encodes_mono].
Qed.

Lemma Rep_stable d d' F :
  Rep d F -> (forall dbi k, dbi = Eav \/ dbi = Ave \/ dbi = Vae -> db_get d' dbi k = db_get d dbi k) ->
  (forall x b, db_get d GiantIds x = Some b -> db_get d' GiantIds x = Some b) -> Rep d' F.
Proof.
  intros HF Ht Hids. pose proof (Rep_encodes_iff _ _ _ HF Hids) as Hiff. constructor.
  - intros e aid v Hin. destruct (rep_ok _ _ HF _ _ _ Hin) as (Hok & venc & Henc).
    split; [done|]. exists venc. by rewrite (Hiff e aid).
  - intros k. rewrite (has_key_same d d'), (rep_eav _ _ HF) by (apply Ht; tauto).
    split; intros (e & aid & v & venc & Hin & Henc & ->); exists e, aid, v, venc; by rewrite (Hiff e aid) in *.
  - intros k. rewrite (has_key_same d d'), (rep_ave _ _ HF) by (apply Ht; tauto).
    split; intros (e & aid & v & venc & Hin & Henc & ->); exists e, aid, v, venc; by rewrite (Hiff e aid) in *.
  - intros k. rewrite (has_key_same d d'), (rep_vae _ _ HF) by (apply Ht; tauto). done.
Qed.
Lemma Rep_grow d d' F : Rep d F -> giants_grow d d' -> Rep d' F.
Proof.
  intros HF Hg. eapply Rep_stable; [done | | apply (grow_ids _ _ Hg)].
  intros dbi k Hdbi. apply (grow_tables _ _ Hg). tauto.
Qed.

(** ** Adding and removing one fact *)

Definition same_ids (d d' : D) : Prop := forall x, db_get d' GiantIds x = db_get d GiantIds x.

Lemma encodes_same_ids d d' v k : same_ids d d' -> encodes d' v k <-> encodes d v k.
Proof. intros Hs. split; apply encodes_mono; intros x b; by rewrite Hs. Qed.

Lemma Rep_add d d' F e aid v venc :
  Rep d F -> same_ids d d' -> fact_ok e aid v -> encodes d v venc ->
  (forall k, has_key d' Eav k <-> has_key d Eav k \/ k = eav_key e aid venc) ->
  (forall k, has_key d' Ave k <-> has_key d Ave k \/ k = ave_key aid venc e) ->
  (forall k, has_key d' Vae k <-> has_key d Vae k \/ exists t, v = Ref t /\ k = vae_key t aid e) ->
  Rep d' (fact_add e aid v F).
Proof.
  intros HF Hs Hok Henc H1 H2 H3. pose proof (fun v k => encodes_same_ids d d' v k Hs) as Hiff. constructor.
  - intros e' aid' v' [Hin|(-> & -> & ->)].
    + destruct (rep_ok _ _ HF _ _ _ Hin) as (? & k & ?). split; [done|]. exists k. by apply Hiff.
    + split; [done|]. exists venc. by apply Hiff.
  - intros k. rewrite H1, (rep_eav _ _ HF). setoid_rewrite Hiff. split.
    + intros [(e' & aid' & v' & venc' & Hin & ? & ->)| ->]; [exists e', aid', v', venc' | exists e, aid, v, venc];
        unfold fact_add; tauto.
    + intros (e' & aid' & v' & venc' & [Hin|(-> & -> & ->)] & Henc' & ->); [left; by exists e', aid', v', venc'|].
      right. by rewrite (encodes_functional d v venc' venc).
  - intros k. rewrite H2, (rep_ave _ _ HF). setoid_rewrite Hiff. split.
    + intros [(e' & aid' & v' & venc' & Hin & ? & ->)| ->]; [exists e', aid', v', venc' | exists e, aid, v, venc];
        unfold fact_add; tauto.
    + intros (e' & aid' & v' & venc' & [Hin|(-> & -> & ->)] & Henc' & ->); [left; by exists e', aid', v', venc'|].
      right. by rewrite (encodes_functional d v venc' venc).
  - intros k. rewrite H3, (rep_vae _ _ HF). unfold fact_add. split.
    + intros [(e' & aid' & t & Hin & ->)|(t & -> & ->)]; [exists e', aid', t | exists e, aid, t]; tauto.
    + intros (e' & aid' & t & [Hin|(-> & -> & Ev)] & ->); [left; by exists e', aid', t | right; by exists t].
Qed.

Lemma Rep_remove d d' F e aid v venc :
  Rep d F -> giants_ok stored d -> same_ids d d' -> fact_ok e aid v -> encodes d v venc ->
  (forall k, has_key d' Eav k <-> has_key d Eav k /\ k <> eav_key e aid venc) ->
  (forall k, has_key d' Ave k <-> has_key d Ave k /\ k <> ave_key aid venc e) ->
  (forall k, has_key d' Vae k <-> has_key d Vae k /\ ~ exists t, v = Ref t /\ k = vae_key t aid e) ->
  Rep d' (fact_remove e aid v F).
Proof.
  intros HF Hg Hs Hok Henc H1 H2 H3. pose proof (fun v k => encodes_same_ids d d' v k Hs) as Hiff. constructor.
  - intros e' aid' v' [Hin _]. destruct (rep_ok _ _ HF _ _ _ Hin) as (? & k & ?).
    split; [done|]. exists k. by apply Hiff.
  - intros k. rewrite H1, (rep_eav _ _ HF). setoid_rewrite Hiff. split.
    + intros [(e' & aid' & v' & venc' & Hin & Henc' & ->) Hne]. exists e', aid', v', venc'. split; [split; [done|]|done].
      intros (-> & -> & ->). apply Hne. by rewrite (encodes_functional d v venc' venc).
    + intros (e' & aid' & v' & venc' & [Hin Hne] & Henc' & ->). split; [by exists e', aid', v', venc'|].
      destruct (rep_ok _ _ HF _ _ _ Hin) as ((He' & Ha' & Hv' & Hd') & _). destruct Hok as (He & Ha & Hv & Hd).
      intros (-> & -> & ->)%eav_key_inj; try done. apply Hne. split_and!; [done..|].
      by eapply (encodes_prefix_free stored no_collision d _ _ venc venc [] []).
  - intros k. rewrite H2, (rep_ave _ _ HF). setoid_rewrite Hiff. split.
    + intros [(e' & aid' & v' & venc' & Hin & Henc' & ->) Hne]. exists e', aid', v', venc'. split; [split; [done|]|done].
      intros (-> & -> & ->). apply Hne. by rewrite (encodes_functional d v venc' venc).
    + intros (e' & aid' & v' & venc' & [Hin Hne] & Henc' & ->). split; [by exists e', aid', v', venc'|].
      destruct (rep_ok _ _ HF _ _ _ Hin) as (Hok' & _). intros E. apply Hne.
      by apply (ave_key_inj d e' aid' v' venc' e aid v venc) in E.
  - intros k. rewrite H3, (rep_vae _ _ HF). unfold fact_remove. split.
    + intros [(e' & aid' & t & Hin & ->) Hne]. exists e', aid', t. split; [split; [done|]|done].
      intros (-> & -> & <-). apply Hne. by exists t.
    + intros (e' & aid' & t & [Hin Hne] & ->). split; [by exists e', aid', t|].
      destruct (rep_ok _ _ HF _ _ _ Hin) as ((He' & Ha' & Hv' & Hd') & _). destruct Hok as (He & Ha & Hv & Hd).
      intros (t' & -> & E). inversion Hv'; inversion Hv; subst.
      apply vae_key_inj in E as (-> & -> & ->); try done. by apply Hne.
Qed.

(** What writing a fact leaves alone. *)
Definition index_step (d d' : D) : Prop :=
  forall dbi k, dbi = Schema \/ dbi = Meta \/ dbi = Giants \/ dbi = GiantIds -> db_get d' dbi k = db_get d dbi k.

Lemma index_step_trans d1 d2 d3 : index_step d1 d2 -> index_step d2 d3 -> index_step d1 d3.
Proof. intros H12 H23 dbi k Hdbi. by rewrite H23, H12. Qed.

Lemma updated_index_step d d' dbi k o :
  updated d d' dbi k o -> dbi = Eav \/ dbi = Ave \/ dbi = Vae -> index_step d d'.
Proof. intros Hu Hdbi dbi' k' Hdbi'. rewrite Hu, decide_False; [done|]. intros [-> _]. naive_solver. Qed.
Lemma index_step_same_ids d d' : index_step d d' -> same_ids d d'.
Proof. intros Hi x. apply Hi. tauto. Qed.

Lemma index_step_counter d d' key : index_step d d' -> counter d' key = counter d key.
Proof. intros Hi. unfold counter. by rewrite Hi by tauto. Qed.

Lemma giants_inv_same d d' :
  (forall dbi k, dbi = Giants \/ dbi = GiantIds -> db_get d' dbi k = db_get d dbi k) ->
  db_get d' Meta META_NEXT_GIANT = db_get d Meta META_NEXT_GIANT ->
  giants_inv stored d -> giants_inv stored d'.
Proof.
  intros Ht Hm [Hok Hc]. split.
  - intros digest b Hb. rewrite Ht in Hb by tauto. unfold counter. rewrite Hm.
    destruct (Hok _ _ Hb) as (id & tag & raw & ? & ? & ? & ? & ?). exists id, tag, raw. by rewrite Ht by tauto.
  - intros b Hb. apply Hc. by rewrite <- Hm.
Qed.

Lemma index_step_giants d d' : index_step d d' -> giants_inv stored d -> giants_inv stored d'.
Proof. intros Hi. apply giants_inv_same; [intros dbi k Hdbi|]; apply Hi; tauto. Qed.

Lemma insert_datom_spec st F e aid v venc :
  Rep (env st) F -> fact_ok e aid v -> encodes (env st) v venc ->
  hoare (insert_datom e aid venc v) st
    (fun _ st' => env_step st st' /\ index_step (env st) (env st') /\ Rep (env st') (fact_add e aid v F))
    (lmdb_failure st).
Proof.
  intros HF Hok Henc. unfold insert_datom. apply hoare_bind.
  eapply hoare_consequence; [apply txn_put_spec | | done]. intros [] st1 [Hs1 Hu1]. apply hoare_bind.
  eapply hoare_consequence; [apply txn_put_spec | | intros ?? He; by eapply lmdb_failure_step].
  intros [] st2 [Hs2 Hu2].
  pose proof (env_step_trans _ _ _ Hs1 Hs2) as Hs12.
  assert (Hi12 : index_step (env st) (env st2))
    by (eapply index_step_trans; eapply updated_index_step; eauto; tauto).
  assert (Hput : forall k dbi, has_key (env st2) dbi k <-> has_key (env st) dbi k \/
            (dbi = Eav /\ k = eav_key e aid venc) \/ (dbi = Ave /\ k = ave_key aid venc e)).
  { intros k dbi. rewrite (has_key_put _ _ _ _ _ _ _ Hu2), (has_key_put _ _ _ _ _ _ _ Hu1). tauto. }
  assert (Hvalue : forall st', env_step st2 st' -> index_step (env st2) (env st') ->
            (forall k dbi, has_key (env st') dbi k <-> has_key (env st2) dbi k \/
               (dbi = Vae /\ exists t, v = Ref t /\ k = vae_key t aid e)) ->
            env_step st st' /\ index_step (env st) (env st') /\ Rep (env st') (fact_add e aid v F)).
  { intros st' Hs' Hi' Hk. split_and!; [by eapply env_step_trans | by eapply index_step_trans |].
    apply (Rep_add (env st) _ _ _ _ _ venc); try done.
    - by apply index_step_same_ids, (index_step_trans _ (env st2)).
    - intros k. rewrite Hk, Hput. naive_solver.
    - intros k. rewrite Hk, Hput. naive_solver.
    - intros k. rewrite Hk, Hput. naive_solver. }
  destruct v; try (by apply hoare_ret, Hvalue; [done | done | intros; naive_solver]).
  eapply hoare_consequence; [apply txn_put_spec | | intros ?? He; by eapply lmdb_failure_step].
  intros [] st3 [Hs3 Hu3]. apply Hvalue; [done | by eapply updated_index_step; eauto; tauto |].
  intros k dbi. rewrite (has_key_put _ _ _ _ _ _ _ Hu3). naive_solver.
Qed.

Lemma delete_datom_encoded_spec st F e aid v venc :
  Rep (env st) F -> giants_ok stored (env st) -> fact_ok e aid v -> encodes (env st) v venc ->
  hoare (delete_datom_encoded e aid venc v) st
    (fun _ st' => env_step st st' /\ index_step (env st) (env st') /\ Rep (env st') (fact_remove e aid v F))
    (lmdb_failure st).
Proof.
  intros HF Hg Hok Henc. unfold delete_datom_encoded. apply hoare_bind.
  eapply hoare_consequence; [apply txn_del_spec | | done]. intros [] st1 [Hs1 Hu1]. apply hoare_bind.
  eapply hoare_consequence; [apply txn_del_spec | | intros ?? He; by eapply lmdb_failure_step].
  intros [] st2 [Hs2 Hu2].
  pose proof (env_step_trans _ _ _ Hs1 Hs2) as Hs12.
  assert (Hi12 : index_step (env st) (env st2))
    by (eapply index_step_trans; eapply updated_index_step; eauto; tauto).
  assert (Hdel : forall k dbi, has_key (env st2) dbi k <-> has_key (env st) dbi k /\
            ~ (dbi = Eav /\ k = eav_key e aid venc) /\ ~ (dbi = Ave /\ k = ave_key aid venc e)).
  { intros k dbi. rewrite (has_key_del _ _ _ _ _ _ Hu2), (has_key_del _ _ _ _ _ _ Hu1). tauto. }
  assert (Hvalue : forall st', env_step st2 st' -> index_step (env st2) (env st') ->
            (forall k dbi, has_key (env st') dbi k <-> has_key (env st2) dbi k /\
               ~ (dbi = Vae /\ exists t, v = Ref t /\ k = vae_key t aid e)) ->
            env_step st st' /\ index_step (env st) (env st') /\ Rep (env st') (fact_remove e aid v F)).
  { intros st' Hs' Hi' Hk. split_and!; [by eapply env_step_trans | by eapply index_step_trans |].
    apply (Rep_remove (env st) _ _ _ _ _ venc); try done.
    - by apply index_step_same_ids, (index_step_trans _ (env st2)).
    - intros k. rewrite Hk, Hdel. naive_solver.
    - intros k. rewrite Hk, Hdel. naive_solver.
    - intros k. rewrite Hk, Hdel. naive_solver. }
  destruct v; try (by apply hoare_ret, Hvalue; [done | done | intros; naive_solver]).
  eapply hoare_consequence; [apply txn_del_spec | | intros ?? He; by eapply lmdb_failure_step].
  intros [] st3 [Hs3 Hu3]. apply Hvalue; [done | by eapply updated_index_step; eauto; tauto |].
  intros k dbi. rewrite (has_key_del _ _ _ _ _ _ Hu3). naive_solver.
Qed.

(** Deleting by the key bytes alone recognises references. *)
Lemma delete_datom_eq d e aid v venc :
  value_ok v -> encodes d v venc -> delete_datom (D := D) e aid venc = delete_datom_encoded e aid venc v.
Proof.
  intros Hv [[_ ->]|(Ho & tag & raw & id & Hp & _ & _ & ->)]; unfold delete_datom, delete_datom_encoded.
  - destruct (encoded_head v) as [t Ht]. pose proof (decode_encoded v [] Hv) as Hdec. rewrite app_nil_r in Hdec.
    rewrite Hdec, Ht. by destruct v.
  - destruct (giant_parts_tag _ _ _ Hp) as [Htag _]. rewrite bool_decide_eq_false_2.
    + by destruct v.
    + intros [= ->]. by destruct Htag.
Qed.
(** ** Replacing the values of an attribute *)

Lemma entity_attr_values_spec d F e aid :
  Rep d F -> is_u64 e -> is_u32 aid ->
  exists vencs, entity_attr_values d e aid = Ok vencs /\ NoDup vencs /\
    forall venc, venc ∈ vencs <-> exists v, F e aid v /\ encodes d v venc.
Proof.
  intros HF He Ha. unfold entity_attr_values. cbv zeta. set (p := to_be_bytes 8 e ++ to_be_bytes 4 aid).
  assert (Hdrop : forall venc, drop (length p) (p ++ venc) = venc) by (intros; by rewrite drop_app_length).
  assert (Hkey : forall k, k ∈ with_prefix p (db_entries d Eav) <->
            exists v venc, F e aid v /\ encodes d v venc /\ k = p ++ venc).
  { intros k. rewrite with_prefix_elem. change (k ∈ keys (db_entries d Eav)) with (has_key d Eav k).
    rewrite (rep_eav _ _ HF). split.
    - intros [(e' & aid' & v & venc & Hin & Henc & ->) [r E]]. exists v, venc.
      unfold p in E. rewrite <- app_assoc in E. destruct (rep_ok _ _ HF _ _ _ Hin) as ((He' & Ha' & _) & _).
      by apply eav_key_inj in E as (-> & -> & ->).
    - intros (v & venc & Hin & Henc & ->). split; [|by exists venc].
      by exists e, aid, v, venc. }
  exists (map (fun k => drop (length p) k) (with_prefix p (db_entries d Eav))).
  split; [by apply scan_range_ok; [left|]|]. split.
  - apply NoDup_fmap_2_strong; [|apply with_prefix_NoDup, entries_sorted].
    intros k k' Hk Hk'. apply Hkey in Hk as (v & venc & _ & _ & ->), Hk' as (v' & venc' & _ & _ & ->).
    rewrite !Hdrop. congruence.
  - intros venc. rewrite list_elem_of_fmap. split.
    + intros (k & -> & Hk). apply Hkey in Hk as (v & venc' & ? & ? & ->). rewrite Hdrop. by exists v.
    + intros (v & Hin & Henc). exists (p ++ venc). split; [by rewrite Hdrop|]. apply Hkey. by exists v, venc.
Qed.

(** The facts without the values of one attribute of one entity. *)
Definition facts_without (e aid : Z) (F : facts) : facts :=
  fun e' aid' v' => F e' aid' v' /\ ~ (e' = e /\ aid' = aid).

Definition deleting (st : Store D) (F : facts) (e aid : Z) (vencs : list (list Z)) (st' : Store D) : Prop :=
  NoDup vencs /\ env_step st st' /\ index_step (env st) (env st') /\
  (forall venc, venc ∈ vencs -> exists v, F e aid v /\ encodes (env st) v venc) /\
  Rep (env st') (fun e' aid' v' =>
    F e' aid' v' /\ (~ (e' = e /\ aid' = aid) \/ exists venc, venc ∈ vencs /\ encodes (env st) v' venc)).

Lemma deleting_step st F e aid venc vencs st' :
  Rep (env st) F -> giants_inv stored (env st) -> deleting st F e aid (venc :: vencs) st' ->
  hoare (delete_datom e aid venc) st' (fun _ st'' => deleting st F e aid vencs st'') (lmdb_failure st).
Proof.
  intros HF Hg (Hnd & Hs & Hi & Hin & HR). inversion Hnd as [|? ? Hnot Hnd']; subst.
  destruct (Hin venc ltac:(by left)) as (v & Hv & Henc).
  destruct (rep_ok _ _ HF _ _ _ Hv) as (Hok & _). pose proof Hok as (He & Ha & Hvok & Hd).
  assert (Henc' : encodes (env st') v venc) by (eapply encodes_same_ids; [by apply index_step_same_ids | done]).
  rewrite (delete_datom_eq (env st') e aid v venc) by done.
  eapply hoare_consequence.
  - eapply delete_datom_encoded_spec; [exact HR | by apply (index_step_giants _ _ Hi) | done | done].
  - intros [] st'' (Hs'' & Hi'' & HR''). split_and!; try done; [by eapply env_step_trans | by eapply index_step_trans | |].
    + intros venc' Hvenc'. apply Hin. by right.
    + eapply Rep_proper; [|exact HR'']. intros e' aid' v'. unfold fact_remove. split.
      * intros [HF' Hor]. split; [split; [done|]|].
        -- destruct Hor as [|(venc' & ? & ?)]; [by left|]. right. exists venc'. split; [by right | done].
        -- intros (-> & -> & ->). destruct Hor as [|(venc' & Hm & Henc2)]; [tauto|].
           by rewrite (encodes_functional _ _ _ _ Henc2 Henc) in Hm.
      * intros [[HF' Hor] Hne]. split; [done|]. destruct Hor as [|(venc' & Hm & Henc2)]; [by left|].
        apply elem_of_cons in Hm as [-> |Hm]; [|right; by exists venc'].
        left. intros [-> ->]. apply Hne. split_and!; [done..|].
        destruct (rep_ok _ _ HF _ _ _ HF') as ((_ & _ & ? & ?) & _).
        by eapply (encodes_prefix_free stored no_collision (env st) _ _ venc venc [] []); try apply Hg.
  - intros ?? He2. by eapply lmdb_failure_step.
Qed.

Lemma replace_values_spec st F e aid :
  Rep (env st) F -> giants_inv stored (env st) -> is_u64 e -> is_u32 aid ->
  hoare (existing ← (d ← gets env; lift (entity_attr_values d e aid)); for_each (delete_datom e aid) existing) st
    (fun _ st' => env_step st st' /\ index_step (env st) (env st') /\ Rep (env st') (facts_without e aid F))
    (lmdb_failure st).
Proof.
  intros HF Hg He Ha. destruct (entity_attr_values_spec _ _ e aid HF He Ha) as (vencs & Hv & Hnd & Hin).
  apply hoare_bind, hoare_bind, hoare_gets. eapply hoare_lift_ok; [exact Hv|].
  eapply hoare_consequence.
  - apply (hoare_for_each _ (deleting st F e aid)); [intros; by apply deleting_step|].
    split_and!; try done; [intros venc Hm; by apply Hin|].
    eapply Rep_proper; [|exact HF]. intros e' aid' v'. split; [by intros [? _]|]. intros HF'. split; [done|].
    destruct (decide (e' = e /\ aid' = aid)) as [[-> ->]|]; [right | by left].
    destruct (rep_ok _ _ HF _ _ _ HF') as (_ & venc & Henc). exists venc. split; [|done]. apply Hin. by exists v'.
  - intros [] st' (_ & Hs & Hi & _ & HR). split_and!; try done.
    eapply Rep_proper; [|exact HR]. intros e' aid' v'. unfold facts_without. split; [naive_solver|].
    intros [? [?|(? & []%elem_of_nil & _)]]; done.
  - done.
Qed.
End Index.
