(* ===== verification/StoreTransact.v ===== *)
(** Transactions of the Datalog store: a store represents a set of datoms, and
    [transact] and [set_attr] change that set as specified or fail without
    touching the stored data. *)
From stdpp Require Import strings gmap.
From S2P Require Import Prelude RustStd StoreCodec Dlmdb Store StoreValues StoreIndex.
Local Open Scope Z_scope.

(** * The specification *)

(** A database is a set of datoms. *)
Definition database : Type := Datom -> Prop.

Definition db_empty : database := fun _ => False.

(** What an operation does to a database: asserting a value of an attribute
    that is not cardinality-many replaces the values the entity had. *)
Definition apply_op (many : list Z -> bool) (op : Op) (db : database) : database :=
  match op with
  | Add e a v => fun d =>
      d = mkDatom e a v \/ (db d /\ (many a = true \/ ~ (datom_e d = e /\ datom_a d = a)))
  | Retract e a v => fun d => db d /\ d <> mkDatom e a v
  end.

Definition apply_ops (many : list Z -> bool) (ops : list Op) (db : database) : database :=
  fold_left (fun db op => apply_op many op db) ops db.

Definition op_max (op : Op) (m : Z) : Z :=
  match op with
  | Add e _ _ => Z.max m e
  | Retract _ _ _ => m
  end.

Definition op_entity (op : Op) : Z := match op with Add e _ _ | Retract e _ _ => e end.
Definition op_attr (op : Op) : list Z := match op with Add _ a _ | Retract _ a _ => a end.
Definition op_value (op : Op) : StoreValue := match op with Add _ _ v | Retract _ _ v => v end.

Definition is_string (s : list Z) : Prop := Forall (fun c => is_scalar c = true) s.

Section Transact.
Context {D : Type} {HD : Dlmdb D} {HP : Platform}.
Context (stored : list Z -> Prop).
Context (no_collision : forall x y, stored x -> stored y -> sha256 x = sha256 y -> x = y).

(** What the Rust types guarantee of an operation. *)
Definition op_ok (op : Op) : Prop :=
  is_u64 (op_entity op) /\ is_string (op_attr op) /\ value_ok (op_value op) /\ digestible stored (op_value op).

(** * Representation *)

(** The attribute caches agree with each other and with the schema table, and
    ids are those handed out so far. *)
Record attrs_inv (st : Store D) : Prop := {
  ai_attr name aid p : attrs st !! name = Some (aid, p) ->
    0 < aid <= counter (env st) META_NEXT_AID /\ attr_names st !! aid = Some name /\ is_string name /\
    db_get (env st) Schema (utf8_encode name) = Some (to_be_bytes 4 aid ++ [flag_byte p]);
  ai_name aid name : attr_names st !! aid = Some name -> exists p, attrs st !! name = Some (aid, p);
  ai_schema k b : db_get (env st) Schema k = Some b ->
    exists name, k = utf8_encode name /\ is_Some (attrs st !! name);
  ai_counter : counter_ok (env st) META_NEXT_AID;
  ai_bound : counter (env st) META_NEXT_AID <= u32_max
}.

Definition facts_of (st : Store D) (db : database) : facts :=
  fun e aid v => exists name, attr_names st !! aid = Some name /\ db (mkDatom e name v).

Record represents (st : Store D) (db : database) : Prop := {
  rp_attrs : attrs_inv st;
  rp_giants : giants_inv stored (env st);
  rp_index : Rep stored (env st) (facts_of st db);
  rp_known d : db d -> is_Some (attrs st !! datom_a d)
}.

Lemma aid_range st name aid p : attrs_inv st -> attrs st !! name = Some (aid, p) -> is_u32 aid.
Proof. intros Hi Ha. destruct (ai_attr _ Hi _ _ _ Ha) as (? & _). pose proof (ai_bound _ Hi). unfold is_u32. lia. Qed.

Lemma aid_name st name aid p aid' name' :
  attrs_inv st -> attrs st !! name = Some (aid, p) -> attr_names st !! aid' = Some name' ->
  name' = name <-> aid' = aid.
Proof.
  intros Hi Ha Hn. destruct (ai_attr _ Hi _ _ _ Ha) as (_ & Hn' & _).
  destruct (ai_name _ Hi _ _ Hn) as [p' Ha']. split; intros ->; congruence.
Qed.

(** ** Steps that keep the representation *)

(** The caches and what they depend on are unchanged. *)
Lemma attrs_inv_step st st' :
  attrs_inv st -> env_step st st' ->
  (forall k, db_get (env st') Schema k = db_get (env st) Schema k) ->
  db_get (env st') Meta META_NEXT_AID = db_get (env st) Meta META_NEXT_AID -> attrs_inv st'.
Proof.
  intros [H1 H2 H3 H4 H5] [Ea En] Hs Hm.
  assert (Hc : counter (env st') META_NEXT_AID = counter (env st) META_NEXT_AID) by (unfold counter; by rewrite Hm).
  constructor; rewrite ?Ea, ?En, ?Hc; try done.
  - intros name aid p Ha. rewrite Hs. by apply H1.
  - intros k b. rewrite Hs. apply H3.
  - intros b. rewrite Hm. apply H4.
Qed.

Lemma facts_of_step st st' db : env_step st st' -> facts_equiv (facts_of st' db) (facts_of st db).
Proof. intros [Ea En] e aid v. unfold facts_of. by rewrite En. Qed.

Lemma represents_ext st db db' : (forall d, db d <-> db' d) -> represents st db -> represents st db'.
Proof.
  intros Hdb [Ha Hg HR Hk]. constructor; [done | done | |].
  - eapply Rep_proper; [|exact HR]. intros e aid v. unfold facts_of. by setoid_rewrite Hdb.
  - intros d Hd. by apply Hk, Hdb.
Qed.

Lemma represents_index_step st st' db db' :
  represents st db -> env_step st st' -> index_step (env st) (env st') ->
  Rep stored (env st') (facts_of st db') -> (forall d, db' d -> is_Some (attrs st !! datom_a d)) ->
  represents st' db'.
Proof.
  intros [Ha Hg _ _] Hs Hi HR Hk. constructor.
  - apply (attrs_inv_step st); [done | done | |]; [intros k|]; apply Hi; tauto.
  - by eapply index_step_giants.
  - eapply Rep_proper; [by apply facts_of_step | done].
  - destruct Hs as [-> _]. done.
Qed.

Lemma represents_grow st st' db :
  represents st db -> env_step st st' -> giants_inv stored (env st') -> giants_grow (env st) (env st') ->
  represents st' db.
Proof.
  intros [Ha Hg HR Hk] Hs Hg' Hgrow. constructor; [|done| |].
  - apply (attrs_inv_step st); [done | done | |]; [intros k; apply (grow_tables _ _ Hgrow); tauto|].
    by apply (grow_meta _ _ Hgrow).
  - eapply Rep_proper; [by apply facts_of_step | by eapply Rep_grow].
  - destruct Hs as [-> _]. done.
Qed.
(** ** Attributes *)

(** Attribute [name] has the id [aid], or both are new. *)
Definition may_record (st : Store D) (name : list Z) (aid : Z) : Prop :=
  (exists p, attrs st !! name = Some (aid, p)) \/ (attrs st !! name = None /\ attr_names st !! aid = None).

Lemma may_record_name st name aid aid' name' :
  attrs_inv st -> may_record st name aid -> attr_names st !! aid' = Some name' -> name' = name <-> aid' = aid.
Proof.
  intros Hi [[p Ha]|[Ha Hn]] Hn'; [by eapply aid_name|]. split; intros ->; [|congruence].
  destruct (ai_name _ Hi _ _ Hn') as [p' Ha']. congruence.
Qed.

Lemma attrs_inv_record st st' name aid p :
  attrs_inv st -> may_record st name aid -> is_string name -> 0 < aid <= counter (env st) META_NEXT_AID ->
  updated (env st) (env st') Schema (utf8_encode name) (Some (to_be_bytes 4 aid ++ [flag_byte p])) ->
  attrs st' = <[name := (aid, p)]> (attrs st) -> attr_names st' = <[aid := name]> (attr_names st) -> attrs_inv st'.
Proof.
  intros Hi Hrec Hstr Haid Hu Ea En.
  assert (Hmeta : forall k, db_get (env st') Meta k = db_get (env st) Meta k)
    by (intros k; by rewrite Hu, decide_False by naive_solver).
  assert (Hc : counter (env st') META_NEXT_AID = counter (env st) META_NEXT_AID) by (unfold counter; by rewrite Hmeta).
  constructor; rewrite ?Ea, ?En, ?Hc.
  - intros name' aid' p'. destruct (decide (name' = name)) as [->|Hne].
    + rewrite lookup_insert_eq. intros [= <- <-]. rewrite lookup_insert_eq, Hu, decide_True by done. done.
    + rewrite lookup_insert_ne by done. intros Ha'. destruct (ai_attr _ Hi _ _ _ Ha') as (H1 & H2 & H3 & H4).
      rewrite lookup_insert_ne by (intros <-; apply Hne; by apply (may_record_name _ _ _ _ _ Hi Hrec H2)).
      split_and!; try done; try lia. rewrite Hu, decide_False; [done|].
      intros [_ E%utf8_encode_inj]; [congruence | done | done].
  - intros aid' name'. destruct (decide (aid' = aid)) as [->|Hne].
    + rewrite lookup_insert_eq. intros [= <-]. exists p. by rewrite lookup_insert_eq.
    + rewrite lookup_insert_ne by done. intros Hn. rewrite lookup_insert_ne.
      * by apply (ai_name _ Hi).
      * intros <-. apply Hne. by apply (may_record_name _ _ _ _ _ Hi Hrec Hn).
  - intros k b Hb. rewrite Hu in Hb. case_decide as E.
    + destruct E as [_ ->]. exists name. split; [done|]. rewrite lookup_insert_eq. by eexists.
    + destruct (ai_schema _ Hi _ _ Hb) as (name' & -> & Hs). exists name'. split; [done|].
      destruct (decide (name' = name)) as [->|]; [by rewrite lookup_insert_eq; eexists | by rewrite lookup_insert_ne].
  - intros b. rewrite Hmeta. apply (ai_counter _ Hi).
  - apply (ai_bound _ Hi).
Qed.

Lemma facts_of_record st st' db name aid :
  attrs_inv st -> may_record st name aid -> (forall d, db d -> is_Some (attrs st !! datom_a d)) ->
  attr_names st' = <[aid := name]> (attr_names st) -> facts_equiv (facts_of st' db) (facts_of st db).
Proof.
  intros Hi Hrec Hk En e aid' v. unfold facts_of. rewrite En. split.
  - intros (name' & Hn & Hd). exists name'. split; [|done]. destruct (decide (aid' = aid)) as [->|Hne].
    + rewrite lookup_insert_eq in Hn. injection Hn as ->. destruct (Hk _ Hd) as [[aid0 p0] Ha]. simpl in Ha.
      destruct (ai_attr _ Hi _ _ _ Ha) as (_ & Hn0 & _).
      by rewrite <- (proj1 (may_record_name _ _ _ _ _ Hi Hrec Hn0) eq_refl).
    + by rewrite lookup_insert_ne in Hn.
  - intros (name' & Hn & Hd). exists name'. split; [|done]. destruct (decide (aid' = aid)) as [->|Hne].
    + rewrite lookup_insert_eq. f_equal. symmetry. by apply (may_record_name _ _ _ _ _ Hi Hrec Hn).
    + by rewrite lookup_insert_ne.
Qed.

Lemma record_attr_spec st db name aid p :
  represents st db -> may_record st name aid -> is_string name -> 0 < aid <= counter (env st) META_NEXT_AID ->
  hoare (record_attr name aid p) st
    (fun r st' => r = (aid, p) /\ represents st' db /\ attrs st' = <[name := (aid, p)]> (attrs st) /\
       forall k, db_get (env st') Meta k = db_get (env st) Meta k)
    (lmdb_failure st).
Proof.
  intros Hr Hrec Hstr Haid. pose proof (rp_attrs _ _ Hr) as Hi. unfold record_attr. apply hoare_bind.
  eapply hoare_consequence; [apply txn_put_spec | | done]. intros [] st1 [[Ea En] Hu].
  apply hoare_bind, hoare_modify, hoare_bind, hoare_modify, hoare_ret. simpl. rewrite Ea, En.
  set (st' := mkStore _ _ _).
  assert (Hmeta : forall k, db_get (env st1) Meta k = db_get (env st) Meta k)
    by (intros k; by rewrite Hu, decide_False by naive_solver).
  assert (Hother : forall dbi k, dbi <> Schema -> db_get (env st1) dbi k = db_get (env st) dbi k)
    by (intros dbi k Hdbi; by rewrite Hu, decide_False by naive_solver).
  split_and!; try done. constructor.
  - by apply (attrs_inv_record st st' name aid p).
  - eapply giants_inv_same; [| by apply Hmeta | apply (rp_giants _ _ Hr)].
    intros dbi k Hdbi. apply Hother. naive_solver.
  - eapply Rep_proper; [by apply (facts_of_record st st' db name aid); [| | apply (rp_known _ _ Hr) |]|].
    eapply Rep_stable; [apply (rp_index _ _ Hr) | |].
    + intros dbi k Hdbi. apply Hother. naive_solver.
    + intros x b. by rewrite Hother.
  - intros d Hd. simpl. destruct (decide (datom_a d = name)) as [->|]; [rewrite lookup_insert_eq; by eexists|].
    rewrite lookup_insert_ne by done. by apply (rp_known _ _ Hr).
Qed.
Lemma represents_bump st st' db n :
  represents st db -> env_step st st' -> counter (env st) META_NEXT_AID <= n <= u32_max ->
  updated (env st) (env st') Meta META_NEXT_AID (Some (to_be_bytes 8 n)) -> represents st' db.
Proof.
  intros [Hi Hg HR Hk] [Ea En] Hn Hu.
  pose proof (counter_range _ _ (ai_counter _ Hi)) as Hrange.
  destruct (counter_put (env st) (env st') META_NEXT_AID n) as [Hc Ec]; [unfold is_u64, u32_max, u64_max in *; lia | done |].
  assert (Hother : forall dbi k, dbi <> Meta -> db_get (env st') dbi k = db_get (env st) dbi k)
    by (intros dbi k Hdbi; by rewrite Hu, decide_False by naive_solver).
  constructor.
  - constructor; rewrite ?Ea, ?En, ?Ec; try done; try lia.
    + intros name aid p Ha. destruct (ai_attr _ Hi _ _ _ Ha) as (? & ? & ? & ?). rewrite Hother by done.
      split_and!; try done; lia.
    + apply (ai_name _ Hi).
    + intros k b. rewrite Hother by done. apply (ai_schema _ Hi).
  - apply (giants_inv_same stored (env st)); [| by rewrite Hu, decide_False by (intros [_ E]; discriminate E) | done].
    intros dbi k Hdbi. apply Hother. naive_solver.
  - eapply Rep_proper; [by apply facts_of_step|]. eapply Rep_stable; [done | |].
    + intros dbi k Hdbi. apply Hother. naive_solver.
    + intros x b. by rewrite Hother.
  - by rewrite Ea.
Qed.

Definition interned (st : Store D) (name : list Z) (props : option AttrProps) (r : Z * AttrProps) (st' : Store D) : Prop :=
  attrs st' = <[name := r]> (attrs st) /\
  r.2 = match props with Some p => p | None => default AttrProps_default (attr_props st name) end /\
  counter (env st') META_NEXT_AID <= counter (env st) META_NEXT_AID + 1 /\
  (forall k, k <> META_NEXT_AID -> db_get (env st') Meta k = db_get (env st) Meta k) /\
  (props = None -> is_Some (attrs st !! name) -> st' = st).

Lemma intern_attr_spec st db name props :
  represents st db -> is_string name -> counter (env st) META_NEXT_AID < u32_max ->
  hoare (intern_attr name props) st
    (fun r st' => represents st' db /\ interned st name props r st') (lmdb_failure st).
Proof.
  intros Hr Hstr Hlt. pose proof (rp_attrs _ _ Hr) as Hi. unfold intern_attr. apply hoare_bind, hoare_gets.
  destruct (attrs st !! name) as [[aid current]|] eqn:Ea.
  - destruct (ai_attr _ Hi _ _ _ Ea) as (Haid & _). destruct props as [p|].
    + eapply hoare_consequence; [apply record_attr_spec; [done | left; by eexists | done | done] | | done].
      intros ? st' (-> & Hr' & Ea' & Hm). split; [done|]. split_and!; try done. unfold counter. rewrite Hm. lia.
    + apply hoare_ret. split; [done|]. split_and!; try done; [by rewrite insert_id | | lia].
      unfold attr_props. by rewrite Ea.
  - assert (Hbump : hoare (bump_counter META_NEXT_AID) st
              (fun n st1 => n = counter (env st) META_NEXT_AID + 1 /\ env_step st st1 /\
                 updated (env st) (env st1) Meta META_NEXT_AID (Some (to_be_bytes 8 n))) (lmdb_failure st)).
    { apply bump_counter_spec; [apply (ai_counter _ Hi) | unfold u32_max, u64_max in *; lia]. }
    pose proof (counter_range _ _ (ai_counter _ Hi)) as [Hc0 _].
    assert (Hnew : hoare (n ← bump_counter META_NEXT_AID; record_attr name (wrap_u32 n) (default AttrProps_default props)) st
              (fun r st' => represents st' db /\ interned st name props r st') (lmdb_failure st)).
    { apply hoare_bind. eapply hoare_consequence; [exact Hbump | | done]. intros n st1 (-> & Hs & Hu).
      assert (Hw : wrap_u32 (counter (env st) META_NEXT_AID + 1) = counter (env st) META_NEXT_AID + 1)
        by (apply Z.mod_small; unfold u32_max in Hlt; lia).
      assert (Hr1 : represents st1 db) by (eapply represents_bump; [done | done | | done]; lia).
      assert (Ec : counter (env st1) META_NEXT_AID = counter (env st) META_NEXT_AID + 1).
      { eapply (counter_put (env st)); [|done]. unfold is_u64, u32_max, u64_max in *. lia. }
      rewrite Hw. destruct Hs as [Ea1 En1].
      eapply hoare_consequence; [apply record_attr_spec | | intros ?? He; by eapply lmdb_failure_step].
      - done.
      - right. rewrite Ea1, En1. split; [done|].
        destruct (attr_names st !! _) as [name'|] eqn:En; [exfalso | done].
        destruct (ai_name _ Hi _ _ En) as [p' Ha']. destruct (ai_attr _ Hi _ _ _ Ha') as (? & _). lia.
      - done.
      - lia.
      - intros ? st' (-> & Hr' & Ea' & Hm). split; [done|]. unfold interned. rewrite Ea', Ea1. simpl.
        split_and!; try done.
        + unfold attr_props. rewrite Ea. by destruct props.
        + unfold counter at 1. rewrite Hm. fold (counter (env st1) META_NEXT_AID). lia.
        + intros k Hk. rewrite Hm, Hu, decide_False by naive_solver. done.
        + rewrite Ea. by intros _ ?%is_Some_None. }
    by destruct props.
Qed.
(** ** Operations *)

(** Whether an attribute keeps several values; a new attribute does not. *)
Definition many_of (st : Store D) (name : list Z) : bool :=
  match attr_props st name with
  | Some p => cardinality_many p
  | None => false
  end.

Definition op_error (ops : list Op) (e : StoreError) : Prop :=
  (exists c, e = Lmdb c) \/
  (e = Codec "only strings and bytes can be giant" /\ exists op, op ∈ ops /\ ~ storable (op_value op)).

(** The operations' attributes are all known. *)
Definition known (st : Store D) (ops : list Op) : Prop := forall op, op ∈ ops -> is_Some (attrs st !! op_attr op).

(** What running operations does besides changing the facts. *)
Record progress (ops : list Op) (st st' : Store D) : Prop := {
  pg_many name : many_of st' name = many_of st name;
  pg_attrs name : is_Some (attrs st !! name) -> is_Some (attrs st' !! name);
  pg_aid : counter (env st') META_NEXT_AID <= counter (env st) META_NEXT_AID + Z.of_nat (length ops);
  pg_giant : counter (env st') META_NEXT_GIANT <= counter (env st) META_NEXT_GIANT + Z.of_nat (length ops);
  pg_known : known st ops -> env_step st st'
}.

(** An assertion in two steps: clear the attribute unless it keeps several
    values, then add. *)
Definition db_clear (many : bool) (e : Z) (a : list Z) (db : database) : database :=
  fun d => db d /\ (many = true \/ ~ (datom_e d = e /\ datom_a d = a)).

Definition db_insert (e : Z) (a : list Z) (v : StoreValue) (db : database) : database :=
  fun d => d = mkDatom e a v \/ db d.

Lemma facts_of_clear st db e a aid p :
  attrs_inv st -> attrs st !! a = Some (aid, p) ->
  facts_equiv (facts_of st (db_clear (cardinality_many p) e a db))
    (if cardinality_many p then facts_of st db else facts_without e aid (facts_of st db)).
Proof.
  intros Hi Ha e' aid' v'. destruct (ai_attr _ Hi _ _ _ Ha) as (_ & Hn & _). unfold facts_of, db_clear. split.
  - intros (name & Hn' & Hd & Hor). simpl in Hor. destruct (cardinality_many p); [by exists name|].
    split; [by exists name|]. intros [-> ->]. destruct Hor as [|Hne]; [done|]. apply Hne. split; [done | congruence].
  - destruct (cardinality_many p); [intros (name & ? & ?); exists name; tauto|].
    intros [(name & Hn' & Hd) Hne]. exists name. split_and!; try done. right. simpl.
    intros [-> ->]. apply Hne. split; [done|]. by apply (aid_name _ _ _ _ _ _ Hi Ha Hn').
Qed.

Lemma facts_of_insert st db e a v aid p :
  attrs_inv st -> attrs st !! a = Some (aid, p) ->
  facts_equiv (facts_of st (db_insert e a v db)) (fact_add e aid v (facts_of st db)).
Proof.
  intros Hi Ha e' aid' v'. destruct (ai_attr _ Hi _ _ _ Ha) as (_ & Hn & _).
  unfold facts_of, fact_add, db_insert. split.
  - intros (name & Hn' & [[= -> -> ->]|Hd]); [right | left; by exists name].
    split_and!; try done. by apply (aid_name _ _ _ _ _ _ Hi Ha Hn').
  - intros [(name & ? & ?)|(-> & -> & ->)]; [exists name; tauto | exists a; tauto].
Qed.

Lemma facts_of_retract st db e a v aid p :
  attrs_inv st -> attrs st !! a = Some (aid, p) ->
  facts_equiv (facts_of st (apply_op (many_of st) (Retract e a v) db)) (fact_remove e aid v (facts_of st db)).
Proof.
  intros Hi Ha e' aid' v'. destruct (ai_attr _ Hi _ _ _ Ha) as (_ & Hn & _).
  unfold facts_of, fact_remove, apply_op. split.
  - intros (name & Hn' & Hd & Hne). split; [by exists name|]. intros (-> & -> & ->). apply Hne. congruence.
  - intros [(name & Hn' & Hd) Hne]. exists name. split_and!; try done. intros [= -> -> ->]. apply Hne.
    split_and!; try done. by apply (aid_name _ _ _ _ _ _ Hi Ha Hn').
Qed.

Lemma interned_many st name props r st' n :
  props = None -> interned st name props r st' -> many_of st' n = many_of st n.
Proof.
  intros -> (Ea & Er & _). unfold many_of, attr_props in *. rewrite Ea.
  destruct (decide (n = name)) as [->|]; [|by rewrite lookup_insert_ne].
  rewrite lookup_insert_eq. simpl. rewrite Er. by destruct (attrs st !! name) as [[? []]|].
Qed.

(** The error cases of the parts of an operation. *)
Lemma op_error_value (st : Store D) v e st' op :
  op_value op = v -> value_failure st v e st' -> op_error [op] e /\ env_step st st'.
Proof.
  intros <- [((c & ->) & Hs)|(-> & Hv & Hs)]; (split; [|done]); [left; by exists c | right].
  split; [done|]. exists op. split; [by left | done].
Qed.
Definition op_failure (ops : list Op) (st : Store D) (e : StoreError) (st' : Store D) : Prop :=
  op_error ops e /\ (known st ops -> env_step st st').

(** The state after an attribute was interned, in the middle of an operation. *)
Definition after_intern (st : Store D) (op : Op) (r : Z * AttrProps) (st1 : Store D) : Prop :=
  attrs st1 !! op_attr op = Some r /\ attr_props st1 (op_attr op) = Some r.2 /\
  (forall name, many_of st1 name = many_of st name) /\
  (forall name, is_Some (attrs st !! name) -> is_Some (attrs st1 !! name)) /\
  counter (env st1) META_NEXT_AID <= counter (env st) META_NEXT_AID + 1 /\
  counter (env st1) META_NEXT_GIANT = counter (env st) META_NEXT_GIANT /\
  (known st [op] -> st1 = st).

Lemma interned_after st op r st1 : interned st (op_attr op) None r st1 -> after_intern st op r st1.
Proof.
  intros Hint. pose proof Hint as (Ea & Er & Hc & Hm & Hsame). split_and!.
  - by rewrite Ea, lookup_insert_eq.
  - unfold attr_props. by rewrite Ea, lookup_insert_eq.
  - intros name. by eapply interned_many.
  - intros name Hs. rewrite Ea. destruct (decide (name = op_attr op)) as [->|];
      [rewrite lookup_insert_eq; by eexists | by rewrite lookup_insert_ne].
  - done.
  - unfold counter. by rewrite Hm by done.
  - intros Hk. apply Hsame; [done|]. apply Hk. by left.
Qed.

Lemma after_intern_failure st op r st1 e st' :
  after_intern st op r st1 -> op_error [op] e /\ env_step st1 st' -> op_failure [op] st e st'.
Proof. intros (_ & _ & _ & _ & _ & _ & Hk) [He Hs]. split; [done|]. intros Hkn. by rewrite <- (Hk Hkn). Qed.

Lemma after_intern_progress st op r st1 st' :
  after_intern st op r st1 -> env_step st1 st' ->
  counter (env st') META_NEXT_AID = counter (env st1) META_NEXT_AID ->
  counter (env st') META_NEXT_GIANT <= counter (env st1) META_NEXT_GIANT + 1 -> progress [op] st st'.
Proof.
  intros (_ & _ & Hm & Ha & Hc & Hg & Hk) Hs Ec Eg. pose proof Hs as [Ea En]. constructor.
  - intros name. rewrite <- Hm. unfold many_of, attr_props. by rewrite Ea.
  - intros name Hn. rewrite Ea. by apply Ha.
  - simpl. lia.
  - simpl. lia.
  - intros Hkn. by rewrite <- (Hk Hkn).
Qed.

Lemma lmdb_failure_op (st st1 : Store D) op e st' :
  env_step st st1 -> lmdb_failure st1 e st' -> op_error [op] e /\ env_step st st'.
Proof. intros Hs [[c ->] Hs']. split; [left; by exists c | by eapply env_step_trans]. Qed.

(** Storing the value, then changing the index. *)
Lemma value_step st1 db op :
  represents st1 db -> digestible stored (op_value op) -> counter (env st1) META_NEXT_GIANT < u64_max ->
  hoare (encode_value_for_key (op_value op)) st1
    (fun venc st2 => represents st2 db /\ encodes (env st2) (op_value op) venc /\ env_step st1 st2 /\
       counter (env st2) META_NEXT_AID = counter (env st1) META_NEXT_AID /\
       counter (env st2) META_NEXT_GIANT <= counter (env st1) META_NEXT_GIANT + 1)
    (fun e st' => op_error [op] e /\ env_step st1 st').
Proof.
  intros Hr Hd Hc. eapply hoare_consequence;
    [by apply (encode_value_for_key_spec stored); [apply (rp_giants _ _ Hr) | |] | |].
  - intros venc st2 (Henc & Hs & Hg & Hcount & Hgrow). split_and!; try done.
    + by eapply represents_grow.
    + unfold counter. by rewrite (grow_meta _ _ Hgrow) by done.
  - intros e st' He. by eapply op_error_value.
Qed.

Lemma represents_attr st db name r : represents st db -> attrs st !! name = Some r ->
  attr_names st !! r.1 = Some name /\ is_u32 r.1.
Proof.
  destruct r as [aid p]. intros Hr Ha. pose proof (rp_attrs _ _ Hr) as Hi. split; [|by eapply aid_range].
  by apply (ai_attr _ Hi) in Ha as (_ & ? & _).
Qed.

Lemma clear_step st1 db e a aid p :
  represents st1 db -> attrs st1 !! a = Some (aid, p) -> is_u64 e ->
  hoare (if negb (cardinality_many p) then
           existing ← (d ← gets env; lift (entity_attr_values d e aid)); for_each (delete_datom e aid) existing
         else mret tt) st1
    (fun _ st2 => represents st2 (db_clear (cardinality_many p) e a db) /\ env_step st1 st2 /\
       index_step (env st1) (env st2))
    (lmdb_failure st1).
Proof.
  intros Hr Ha He. destruct (represents_attr _ _ _ _ Hr Ha) as [Hn Haid]. pose proof (rp_attrs _ _ Hr) as Hi.
  pose proof (facts_of_clear st1 db e a aid p Hi Ha) as Hclear.
  assert (Hk : forall d, db_clear (cardinality_many p) e a db d -> is_Some (attrs st1 !! datom_a d))
    by (intros d [Hd _]; by apply (rp_known _ _ Hr)).
  destruct (cardinality_many p); simpl.
  - apply hoare_ret. split_and!; try done. eapply represents_index_step; try done.
    eapply Rep_proper; [exact Hclear | apply (rp_index _ _ Hr)].
  - eapply hoare_consequence; [eapply (replace_values_spec stored no_collision) | | done].
    + apply (rp_index _ _ Hr).
    + apply (rp_giants _ _ Hr).
    + done.
    + done.
    + intros [] st2 (Hs & Hi2 & HR). split_and!; try done. eapply represents_index_step; try done.
      by eapply Rep_proper; [exact Hclear |].
Qed.

Lemma insert_step st db e a v aid p venc :
  represents st db -> attrs st !! a = Some (aid, p) -> is_u64 e -> value_ok v -> digestible stored v ->
  encodes (env st) v venc ->
  hoare (insert_datom e aid venc v) st
    (fun _ st' => represents st' (db_insert e a v db) /\ env_step st st' /\ index_step (env st) (env st'))
    (lmdb_failure st).
Proof.
  intros Hr Ha He Hv Hd Henc. destruct (represents_attr _ _ _ _ Hr Ha) as [Hn Haid].
  eapply hoare_consequence; [by apply (insert_datom_spec stored); [apply (rp_index _ _ Hr) | |] | | done].
  intros [] st' (Hs & Hi & HR). split_and!; try done. eapply represents_index_step; try done.
  - by eapply Rep_proper; [eapply facts_of_insert; [apply (rp_attrs _ _ Hr) | done] |].
  - intros d [->|Hdb]; [by eexists | by apply (rp_known _ _ Hr)].
Qed.

Lemma retract_step st db e a v aid p venc :
  represents st db -> attrs st !! a = Some (aid, p) -> is_u64 e -> value_ok v -> digestible stored v ->
  encodes (env st) v venc ->
  hoare (delete_datom_encoded e aid venc v) st
    (fun _ st' => represents st' (fun d => db d /\ d <> mkDatom e a v) /\ env_step st st' /\
       index_step (env st) (env st'))
    (lmdb_failure st).
Proof.
  intros Hr Ha He Hv Hd Henc. destruct (represents_attr _ _ _ _ Hr Ha) as [Hn Haid].
  eapply hoare_consequence; [apply (delete_datom_encoded_spec stored no_collision) | | done].
  - apply (rp_index _ _ Hr).
  - apply (rp_giants _ _ Hr).
  - done.
  - done.
  - intros [] st' (Hs & Hi & HR). split_and!; try done. eapply represents_index_step; try done.
    + eapply Rep_proper; [|exact HR]. eapply (facts_of_retract st db e a v aid p); [apply (rp_attrs _ _ Hr) | done].
    + intros d [Hdb _]. by apply (rp_known _ _ Hr).
Qed.

Lemma intern_step st db op :
  represents st db -> op_ok op -> counter (env st) META_NEXT_AID < u32_max ->
  hoare (intern_attr (op_attr op) None) st
    (fun r st1 => represents st1 db /\ after_intern st op r st1) (op_failure [op] st).
Proof.
  intros Hr (_ & Hstr & _) Hc. eapply hoare_consequence; [by apply (intern_attr_spec st db) | |].
  - intros r st1 [Hr1 Hint]. split; [done | by apply interned_after].
  - intros e st' [[c ->] Hs]. split; [left; by exists c | done].
Qed.

Lemma transact_op_spec st db op m :
  represents st db -> op_ok op ->
  counter (env st) META_NEXT_AID < u32_max -> counter (env st) META_NEXT_GIANT < u64_max ->
  hoare (transact_op op m) st
    (fun m' st' => represents st' (apply_op (many_of st) op db) /\ m' = op_max op m /\ progress [op] st st')
    (op_failure [op] st).
Proof.
  intros Hr Hok Hc Hcg. pose proof Hok as (He & _ & Hv & Hd).
  pose proof (intern_step st db op Hr Hok Hc) as Hintern.
  destruct op as [e a v|e a v]; simpl in He, Hv, Hd; cbn [transact_op op_attr] in *; apply hoare_bind;
    (eapply hoare_consequence; [exact Hintern | | done]); intros [aid p] st1 [Hr1 Haft];
    pose proof Haft as (Ha & _ & Hmany & _ & _ & Hg & _); simpl in Ha.
  - apply hoare_bind. eapply hoare_consequence; [by apply (clear_step st1 db e a aid p) | |].
    2:{ intros err st' Herr. eapply after_intern_failure; [done|]. by eapply lmdb_failure_op. }
    intros [] st2 (Hr2 & Hs2 & Hi2). apply hoare_bind.
    assert (Hcount : forall k, counter (env st2) k = counter (env st1) k) by (intros k; by apply index_step_counter).
    eapply hoare_consequence; [eapply (value_step st2 _ (Add e a v)); [exact Hr2 | done | rewrite Hcount; lia] | |].
    2:{ intros err st' [Herr Hs']. eapply after_intern_failure; [done|]. split; [done | by eapply env_step_trans]. }
    intros venc st3 (Hr3 & Henc & Hs3 & Hca & Hcg3). pose proof (env_step_trans _ _ _ Hs2 Hs3) as Hs23.
    assert (Ha3 : attrs st3 !! a = Some (aid, p)) by (by rewrite (proj1 Hs23)).
    apply hoare_bind. eapply hoare_consequence; [by eapply (insert_step st3 _ e a v aid p venc) | |].
    2:{ intros err st' Herr. eapply after_intern_failure; [done|]. by eapply lmdb_failure_op. }
    intros [] st4 (Hr4 & Hs4 & Hi4). apply hoare_ret. split_and!; [|done|].
    + eapply represents_ext; [|exact Hr4]. intros d. unfold db_insert, db_clear, apply_op.
      rewrite <- Hmany. unfold many_of, attr_props. rewrite Ha. done.
    + eapply after_intern_progress; [done | by eapply env_step_trans | |];
        rewrite (index_step_counter _ _ _ Hi4), ?Hca; rewrite Hcount in *; [done | lia].
  - apply hoare_bind.
    eapply hoare_consequence; [eapply (value_step st1 _ (Retract e a v)); [exact Hr1 | done | lia] | |].
    2:{ intros err st' Herr. by eapply after_intern_failure. }
    intros venc st2 (Hr2 & Henc & Hs2 & Hca & Hcg2).
    assert (Ha2 : attrs st2 !! a = Some (aid, p)) by (by rewrite (proj1 Hs2)).
    apply hoare_bind. eapply hoare_consequence; [by eapply (retract_step st2 _ e a v aid p venc) | |].
    2:{ intros err st' Herr. eapply after_intern_failure; [done|]. by eapply lmdb_failure_op. }
    intros [] st3 (Hr3 & Hs3 & Hi3). apply hoare_ret. split_and!; [done|done|].
    eapply after_intern_progress; [done | by eapply env_step_trans | |];
      rewrite (index_step_counter _ _ _ Hi3); [done | lia].
Qed.
Lemma progress_nil st : progress [] st st.
Proof. constructor; try done; simpl; lia. Qed.

Lemma progress_cons op ops st st1 st2 : progress [op] st st1 -> progress ops st1 st2 -> progress (op :: ops) st st2.
Proof.
  intros [Hm1 Ha1 Hc1 Hg1 Hk1] [Hm2 Ha2 Hc2 Hg2 Hk2]. simpl length in *. constructor; try (simpl length; lia).
  - intros name. by rewrite Hm2.
  - intros name Hn. by apply Ha2, Ha1.
  - intros Hk. assert (Hs1 : env_step st st1) by (apply Hk1; intros o Ho%list_elem_of_singleton; apply Hk; set_solver).
    eapply env_step_trans; [done|]. apply Hk2. intros o Ho. apply Ha1, Hk. by right.
Qed.

Lemma op_failure_cons op ops st st1 e st2 :
  progress [op] st st1 -> op_failure ops st1 e st2 -> op_failure (op :: ops) st e st2.
Proof.
  intros [_ Ha1 _ _ Hk1] [He Hs]. split.
  - destruct He as [|[-> (o & Ho & Hns)]]; [by left|]. right. split; [done|]. exists o. split; [by right | done].
  - intros Hk. assert (Hs1 : env_step st st1) by (apply Hk1; intros o Ho%list_elem_of_singleton; apply Hk; set_solver).
    eapply env_step_trans; [done|]. apply Hs. intros o Ho. apply Ha1, Hk. by right.
Qed.

Lemma op_failure_head op ops st e st' : op_failure [op] st e st' -> op_failure (op :: ops) st e st'.
Proof.
  intros [He Hs]. split.
  - destruct He as [|[-> (o & Ho%list_elem_of_singleton & Hns)]]; [by left|]. subst o. right. split; [done|].
    exists op. split; [by left | done].
  - intros Hk. apply Hs. intros o Ho%list_elem_of_singleton. subst o. apply Hk. by left.
Qed.

Lemma apply_ops_many many many' ops db : (forall name, many' name = many name) ->
  forall d, apply_ops many' ops db d <-> apply_ops many ops db d.
Proof.
  intros Hm. assert (Hgen : forall db db', (forall d, db' d <-> db d) ->
    forall d, apply_ops many' ops db' d <-> apply_ops many ops db d); [|by apply Hgen].
  induction ops as [|op ops IH]; intros db1 db2 Hdb; [done|]. simpl. apply IH. intros d.
  destruct op; simpl; rewrite ?Hm, (Hdb d); done.
Qed.

Lemma transact_ops_spec ops : forall st db m,
  represents st db -> Forall op_ok ops ->
  counter (env st) META_NEXT_AID + Z.of_nat (length ops) <= u32_max ->
  counter (env st) META_NEXT_GIANT + Z.of_nat (length ops) <= u64_max ->
  hoare (transact_ops ops m) st
    (fun m' st' => represents st' (apply_ops (many_of st) ops db) /\
       m' = fold_left (fun m op => op_max op m) ops m /\ progress ops st st')
    (op_failure ops st).
Proof.
  induction ops as [|op ops IH]; intros st db m Hr Hok Hca Hcg; [apply hoare_ret; auto using progress_nil|].
  inversion Hok as [|? ? Hop Hops]; subst. simpl length in *. apply hoare_bind.
  eapply hoare_consequence; [apply (transact_op_spec st db op m); try done; lia | | apply op_failure_head].
  intros m1 st1 (Hr1 & -> & Hp). pose proof (pg_aid _ _ _ Hp) as Ha. pose proof (pg_giant _ _ _ Hp) as Hg.
  simpl length in Ha, Hg. eapply hoare_consequence; [apply (IH st1); try done; lia | |].
  - intros m2 st2 (Hr2 & -> & Hp2). split_and!; [|done | by eapply progress_cons].
    eapply represents_ext; [|exact Hr2]. intros d. cbn [apply_ops fold_left].
    apply (apply_ops_many _ _ ops (apply_op (many_of st) op db)), (pg_many _ _ _ Hp).
  - intros e st2. by apply op_failure_cons.
Qed.

(** ** Commits *)

(** The same contents, perhaps in another place. *)
Lemma represents_same st st' db :
  represents st db -> env_step st st' ->
  (forall dbi k, dbi <> Meta \/ k = META_NEXT_AID \/ k = META_NEXT_GIANT ->
     db_get (env st') dbi k = db_get (env st) dbi k) -> represents st' db.
Proof.
  intros [Ha Hg HR Hk] Hs Hsame. constructor.
  - apply (attrs_inv_step st); [done | done | intros k; apply Hsame; by left | apply Hsame; tauto].
  - apply (giants_inv_same stored (env st)); [|apply Hsame; tauto | done].
    intros dbi k Hdbi. apply Hsame. left. naive_solver.
  - eapply Rep_proper; [by apply facts_of_step|]. eapply Rep_stable; [done | |].
    + intros dbi k Hdbi. apply Hsame. left. naive_solver.
    + intros x b. rewrite Hsame; [done | by left].
  - destruct Hs as [-> _]. done.
Qed.

(** A store in good order that holds exactly the datoms of [db]. *)
Definition holds (st : Store D) (db : database) : Prop :=
  represents st db /\ counter_ok (env st) META_MAX_EID.

Lemma max_eid_counter st : counter_ok (env st) META_MAX_EID -> max_eid st = counter (env st) META_MAX_EID.
Proof.
  intros Hc. unfold max_eid, counter. destruct (db_get (env st) Meta META_MAX_EID) as [b|] eqn:E; [|done].
  destruct (Hc _ E) as (n & Hn & ->). by rewrite length_to_be_bytes.
Qed.

(** A transaction either takes its body's effect or leaves the environment. *)
Lemma in_write_txn_spec body st db' (R : StoreError -> Store D -> Prop) (P : Store D -> Prop) (m : Z) :
  (forall s s', env_step s s' -> P s -> P s') ->
  hoare body st (fun _ st' => holds st' db' /\ max_eid st' = m /\ P st' /\ forall c, R (Lmdb c) st') R ->
  match in_write_txn body st with
  | (Ok _, st') => holds st' db' /\ max_eid st' = m /\ P st'
  | (Err e, st') => env st' = env st /\ exists st1, R e st1 /\ env_step st1 st'
  | _ => False
  end.
Proof.
  intros HP' Hbody. unfold hoare in Hbody. unfold in_write_txn. unfold mbind at 1, stateM_bind.
  destruct (body st) as [[[]|e| |] st1]; try done; [|split; [done | by exists st1]].
  destruct Hbody as ([Hr Hc] & Hmax & HPst & HR). unfold mbind, stateM_bind, gets, lift, modify.
  pose proof (commit_spec (env st1)) as Hcommit. destruct (db_commit (env st1)) as [d|c| |]; simpl; try done.
  - assert (Hsame : forall dbi k, db_get d dbi k = db_get (env st1) dbi k) by (intros; by rewrite !get_spec, Hcommit).
    split; [split|split].
    + by apply (represents_same st1).
    + intros b. simpl. rewrite Hsame. apply Hc.
    + unfold max_eid in *. simpl. by rewrite Hsame.
    + by apply (HP' st1).
  - split; [done|]. exists st1. split; [by apply HR | done].
Qed.

Lemma fold_op_max_u64 ops m : is_u64 m -> Forall op_ok ops -> is_u64 (fold_left (fun m op => op_max op m) ops m).
Proof.
  intros Hm Hops. revert m Hm. induction Hops as [|op ops (He & _) _ IH]; intros m Hm; [done|]. simpl. apply IH.
  destruct op; simpl in *; [|done]. unfold is_u64 in *. lia.
Qed.

Lemma transact_spec st db ops :
  holds st db -> Forall op_ok ops ->
  counter (env st) META_NEXT_AID + Z.of_nat (length ops) <= u32_max ->
  counter (env st) META_NEXT_GIANT + Z.of_nat (length ops) <= u64_max ->
  match transact ops st with
  | (Ok _, st') =>
      holds st' (apply_ops (many_of st) ops db) /\
      max_eid st' = fold_left (fun m op => op_max op m) ops (max_eid st)
  | (Err e, st') => env st' = env st /\ op_error ops e /\ (known st ops -> st' = st)
  | _ => False
  end.
Proof.
  intros [Hr Hmax] Hok Hca Hcg. set (m := fold_left _ ops (max_eid st)).
  assert (Hm : is_u64 m).
  { apply fold_op_max_u64; [|done]. rewrite max_eid_counter by done. by apply counter_range. }
  assert (Hbody : hoare (m0 ← gets max_eid; m ← transact_ops ops m0; txn_put Meta META_MAX_EID (to_be_bytes 8 m)) st
            (fun _ st' => holds st' (apply_ops (many_of st) ops db) /\ max_eid st' = m /\ True /\
               forall c, op_failure ops st (Lmdb c) st') (op_failure ops st)).
  { apply hoare_bind, hoare_gets, hoare_bind.
    eapply hoare_consequence; [by apply (transact_ops_spec ops st db) | | done].
    intros ? st1 (Hr1 & -> & Hp). fold m. eapply hoare_consequence; [apply txn_put_spec | |].
    - intros [] st2 [Hs Hu]. destruct (counter_put _ _ _ _ Hm Hu) as [Hc Ec].
      split_and!; [split; [|done] | by rewrite max_eid_counter | done |].
      + eapply represents_same; [exact Hr1 | done |]. intros dbi k Hdbi. rewrite Hu, decide_False; [done|].
        intros [-> ->]. by destruct Hdbi as [|[|]].
      + intros c. split; [left; by exists c|]. intros Hk.
        eapply env_step_trans; [by apply (pg_known _ _ _ Hp) | done].
    - intros e st' [[c ->] Hs]. split; [left; by exists c|]. intros Hk.
      eapply env_step_trans; [by apply (pg_known _ _ _ Hp) | done]. }
  unfold transact.
  assert (Htxn := in_write_txn_spec _ st _ _ (fun _ => True) m (fun _ _ _ _ => I) Hbody).
  destruct (in_write_txn _ st) as [[[]|e| |] st']; [tauto | | done | done].
  destruct Htxn as (Eenv & st1 & [He Hk] & Hs). split_and!; [done | done |]. intros Hkn.
  destruct (env_step_trans _ _ _ (Hk Hkn) Hs) as [Ea En]. destruct st, st'. simpl in *. congruence.
Qed.

(** C1: a transaction on a store that holds the datoms of [db] either succeeds,
    and the store then holds the datoms the operations specify, in every index,
    with the largest entity id up to date; or it fails, because a database
    write failed or a value that is neither a string nor bytes is too long for
    a key, and the stored data is what it was.  It never panics. *)
Theorem transact_refines st db ops :
  holds st db -> Forall op_ok ops ->
  counter (env st) META_NEXT_AID + Z.of_nat (length ops) <= u32_max ->
  counter (env st) META_NEXT_GIANT + Z.of_nat (length ops) <= u64_max ->
  match transact ops st with
  | (Ok _, st') =>
      holds st' (apply_ops (many_of st) ops db) /\
      max_eid st' = fold_left (fun m op => op_max op m) ops (max_eid st)
  | (Err e, st') => env st' = env st /\ op_error ops e /\ (known st ops -> st' = st)
  | _ => False
  end.
Proof. apply transact_spec. Qed.

(** ** Schema changes *)

(** Declaring an attribute keeps every datom, and from then on the attribute
    has the declared properties and the others the ones they had; a failed
    declaration leaves the stored data as it was. *)
Theorem set_attr_keeps_data st db name props :
  holds st db -> is_string name -> counter (env st) META_NEXT_AID < u32_max ->
  match set_attr name props st with
  | (Ok _, st') =>
      holds st' db /\ max_eid st' = max_eid st /\ attr_props st' name = Some props /\
      forall other, other <> name -> attr_props st' other = attr_props st other
  | (Err e, st') => env st' = env st /\ exists c, e = Lmdb c
  | _ => False
  end.
Proof.
  intros [Hr Hmax] Hstr Hc. unfold set_attr.
  set (P := fun st' : Store D => attr_props st' name = Some props /\
              forall other, other <> name -> attr_props st' other = attr_props st other).
  set (R := fun (e : StoreError) (_ : Store D) => exists c, e = Lmdb c).
  assert (Hbody : hoare (intern_attr name (Some props) ;; mret tt) st
            (fun _ st' => holds st' db /\ max_eid st' = max_eid st /\ P st' /\ forall c, R (Lmdb c) st') R).
  { apply hoare_bind. eapply hoare_consequence; [by apply (intern_attr_spec st db) | | by intros ?? [He _]].
    intros r st' (Hr' & Ea & Er & _ & Hm & _). apply hoare_ret. unfold P, attr_props. rewrite Ea.
    split_and!; [split; [done|] | | | | by intros c; exists c].
    - intros b. rewrite Hm by done. apply Hmax.
    - unfold max_eid. by rewrite Hm by done.
    - rewrite lookup_insert_eq. simpl. by rewrite Er.
    - intros other Hne. by rewrite lookup_insert_ne. }
  assert (Htxn := in_write_txn_spec _ st db R P (max_eid st) ltac:(by intros s s' [Ea _]; unfold P, attr_props; rewrite Ea) Hbody).
  destruct (in_write_txn _ st) as [[[]|e| |] st']; [exact Htxn | | done | done].
  destruct Htxn as (Eenv & st1 & [c ->] & _). split; [done | by exists c].
Qed.

(** ** Opening a store *)

Lemma parse_flag_byte p : parse_props (flag_byte p) = p.
Proof. by destruct p as [[] [] [] []]. Qed.

(** A schema entry that the caches know. *)
Definition schema_entry (st : Store D) (kv : entry) : Prop :=
  exists name aid p, kv = (utf8_encode name, to_be_bytes 4 aid ++ [flag_byte p]) /\ is_string name /\ is_u32 aid /\
    attrs st !! name = Some (aid, p) /\ attr_names st !! aid = Some name.

Lemma schema_entry_load name aid p :
  is_string name -> is_u32 aid ->
  utf8_decode (utf8_encode name) = Some name /\
  key_int (to_be_bytes 4 aid ++ [flag_byte p]) 0 4 "short schema entry" = Ok aid /\
  (to_be_bytes 4 aid ++ [flag_byte p]) !! 4%nat = Some (flag_byte p).
Proof.
  intros Hs Ha. split_and!; [by apply utf8_decode_encode | |].
  - unfold key_int. rewrite get_range_app by apply length_to_be_bytes.
    rewrite from_to_be_bytes; [done|]. unfold is_u32, u32_max in Ha. simpl. lia.
  - rewrite lookup_app_r by by rewrite length_to_be_bytes. by rewrite length_to_be_bytes.
Qed.

(** Loading schema entries adds what the caches say of them. *)
Lemma load_attrs_spec st l : Forall (schema_entry st) l -> forall as_ ns,
  as_ ⊆ attrs st -> ns ⊆ attr_names st ->
  exists as' ns', load_attrs l as_ ns = Ok (as', ns') /\ as_ ⊆ as' /\ ns ⊆ ns' /\
    as' ⊆ attrs st /\ ns' ⊆ attr_names st /\
    forall name aid p, (utf8_encode name, to_be_bytes 4 aid ++ [flag_byte p]) ∈ l -> is_string name ->
      attrs st !! name = Some (aid, p) -> as' !! name = Some (aid, p) /\ ns' !! aid = Some name.
Proof.
  induction 1 as [|kv l (name & aid & p & -> & Hs & Hu & Ha & Hn) _ IH]; intros as_ ns Has Hns.
  { exists as_, ns. split_and!; try done. by intros ??? []%elem_of_nil. }
  destruct (schema_entry_load name aid p Hs Hu) as (E1 & E2 & E3). cbn [load_attrs]. rewrite E1, E2. simpl mbind.
  unfold mbind, outcome_bind. rewrite E3, parse_flag_byte.
  assert (Has1 : as_ ⊆ <[name := (aid, p)]> as_).
  { apply map_subseteq_spec. intros n x Hx. destruct (decide (n = name)) as [->|]; [|by rewrite lookup_insert_ne].
    rewrite lookup_insert_eq. pose proof (lookup_weaken _ _ _ _ Hx Has). congruence. }
  assert (Hns1 : ns ⊆ <[aid := name]> ns).
  { apply map_subseteq_spec. intros n x Hx. destruct (decide (n = aid)) as [->|]; [|by rewrite lookup_insert_ne].
    rewrite lookup_insert_eq. pose proof (lookup_weaken _ _ _ _ Hx Hns). congruence. }
  destruct (IH (<[name := (aid, p)]> as_) (<[aid := name]> ns)) as (as' & ns' & El & H1 & H2 & H3 & H4 & H5);
    [by apply insert_subseteq_l | by apply insert_subseteq_l |].
  exists as', ns'. split_and!; try done; [by etrans | by etrans |].
  intros name' aid' p' [E|Hin]%elem_of_cons Hs' Ha'; [|by apply H5].
  assert (name' = name) as -> by (apply utf8_encode_inj; [done | done | congruence]).
  assert (aid' = aid /\ p' = p) as [-> ->] by (split; congruence).
  split; (eapply lookup_weaken; [apply lookup_insert_eq | done]).
Qed.

Lemma attrs_inv_entries st : attrs_inv st -> Forall (schema_entry st) (db_entries (env st) Schema).
Proof.
  intros Hi. apply Forall_forall. intros [k b] Hin%get_elem.
  destruct (ai_schema _ Hi _ _ Hin) as (name & -> & [[aid p] Ha]).
  destruct (ai_attr _ Hi _ _ _ Ha) as (Haid & Hn & Hs & Hg). exists name, aid, p.
  split_and!; try done; [congruence | by eapply aid_range].
Qed.

(** Opening the environment of a store in good order reads back exactly its
    attribute caches: nothing is lost across a restart. *)
Theorem reopen_restores_store st db : holds st db -> open_store (env st) = Ok st.
Proof.
  intros [Hr _]. pose proof (rp_attrs _ _ Hr) as Hi. unfold open_store. rewrite range_spec, drop_0.
  destruct (load_attrs_spec st _ (attrs_inv_entries st Hi) ∅ ∅) as (as' & ns' & El & _ & _ & H3 & H4 & H5);
    [apply map_empty_subseteq..|].
  rewrite El. simpl. assert (Hentry : forall name aid p, attrs st !! name = Some (aid, p) ->
    as' !! name = Some (aid, p) /\ ns' !! aid = Some name).
  { intros name aid p Ha. destruct (ai_attr _ Hi _ _ _ Ha) as (_ & Hn & Hs & Hg). apply H5; [|done|done]. by apply get_elem. }
  assert (as' = attrs st) as ->.
  { apply (anti_symm (⊆)); [done|]. apply map_subseteq_spec. intros name [aid p] Ha. by apply Hentry. }
  assert (ns' = attr_names st) as ->.
  { apply (anti_symm (⊆)); [done|]. apply map_subseteq_spec. intros aid name Hn.
    destruct (ai_name _ Hi _ _ Hn) as [p Ha]. by eapply Hentry. }
  by destruct st.
Qed.

(** A new store holds nothing. *)
Lemma holds_empty d : (forall dbi, db_entries d dbi = []) -> holds (mkStore d ∅ ∅) db_empty.
Proof.
  intros He. assert (Hg : forall dbi k, db_get d dbi k = None) by (intros; by rewrite get_spec, He).
  assert (Hk : forall dbi k, ~ has_key d dbi k).
  { intros dbi k Hin%has_key_get. rewrite Hg in Hin. by apply is_Some_None in Hin. }
  split; [constructor|]; simpl.
  - constructor; simpl; try done.
    + intros k b Hb. by rewrite Hg in Hb.
    + intros b Hb. by rewrite Hg in Hb.
    + unfold counter. simpl. by rewrite Hg.
  - split; [intros digest b Hb | intros b Hb]; by rewrite Hg in Hb.
  - constructor.
    + by intros e aid v (name & _ & []).
    + intros k. split; [by intros ?%Hk | by intros (? & ? & ? & ? & (? & ? & []) & _)].
    + intros k. split; [by intros ?%Hk | by intros (? & ? & ? & ? & (? & ? & []) & _)].
    + intros k. split; [by intros ?%Hk | by intros (? & ? & ? & (? & ? & []) & _)].
  - by intros ? [].
  - intros b Hb. by rewrite Hg in Hb.
Qed.
End Transact.
