(* ===== verification/StoreQuery.v ===== *)
(** Queries of the Datalog store: searches return exactly the matching datoms,
    counts agree with searches, and range scans follow the index order. *)
From stdpp Require Import strings gmap.
From S2P Require Import Prelude RustStd StoreCodec Dlmdb Store StoreValues StoreIndex StoreTransact.
Local Open Scope Z_scope.

(** * Reading keys *)

Lemma key_int_app pre mid post a b n msg :
  length pre = a -> (b = a + length mid)%nat -> from_be_bytes mid = n ->
  key_int (pre ++ mid ++ post) a b msg = Ok n.
Proof.
  intros <- -> <-. unfold key_int, get_range. rewrite !length_app.
  rewrite (proj2 (Nat.leb_le _ _)) by lia.
  rewrite drop_app_length, Nat.add_comm, Nat.add_sub, take_app_length. done.
Qed.

Lemma key_int_head mid post b n msg :
  b = length mid -> from_be_bytes mid = n -> key_int (mid ++ post) 0 b msg = Ok n.
Proof. intros Hb Hn. by apply (key_int_app [] mid post). Qed.

Lemma from_be_u64 n : is_u64 n -> from_be_bytes (to_be_bytes 8 n) = n.
Proof. unfold is_u64, u64_max. intros Hn. apply from_to_be_bytes. simpl. lia. Qed.

Lemma from_be_u32 n : is_u32 n -> from_be_bytes (to_be_bytes 4 n) = n.
Proof. unfold is_u32, u32_max. intros Hn. apply from_to_be_bytes. simpl. lia. Qed.

(** The side conditions of reading an integer inside a key. *)
Ltac key_side :=
  rewrite ?length_app, ?length_to_be_bytes;
  first [done | lia | by apply from_be_u64 | by apply from_be_u32].

Section Query.
Context {D : Type} {HD : Dlmdb D} {HP : Platform}.
Context (stored : list Z -> Prop).
Context (no_collision : forall x y, stored x -> stored y -> sha256 x = sha256 y -> x = y).

(** The key of a datom in an index. *)
Definition index_key (index : Index) (e aid : Z) (v : StoreValue) (venc : list Z) : list Z :=
  match index with
  | IEav => eav_key e aid venc
  | IAve => ave_key aid venc e
  | IVae => vae_key match v with Ref target => target | _ => 0 end aid e
  end.

Definition key_of (st : Store D) (index : Index) (d : Datom) (k : list Z) : Prop :=
  exists aid p venc, attrs st !! datom_a d = Some (aid, p) /\ encodes (env st) (datom_v d) venc /\
    k = index_key index (datom_e d) aid (datom_v d) venc.

(** The reverse index holds references only. *)
Definition indexed (index : Index) (d : Datom) : Prop :=
  match index with
  | IVae => exists target, datom_v d = Ref target
  | _ => True
  end.

Section State.
Context (st : Store D) (db : database) (Hst : holds stored st db).

Let Hr : represents stored st db := proj1 Hst.
Let Hi : attrs_inv st := rp_attrs _ _ _ Hr.
Let HR := rp_index _ _ _ Hr.

Lemma key_of_functional index d k k' : key_of st index d k -> key_of st index d k' -> k = k'.
Proof.
  intros (aid & p & venc & Ha & Henc & ->) (aid' & p' & venc' & Ha' & Henc' & ->).
  rewrite Ha in Ha'. injection Ha' as <- <-. by rewrite (encodes_functional _ _ _ _ Henc Henc').
Qed.

Lemma datom_fact d : db d -> exists aid p, attrs st !! datom_a d = Some (aid, p) /\
  facts_of st db (datom_e d) aid (datom_v d) /\ fact_ok stored (datom_e d) aid (datom_v d) /\
  exists venc, encodes (env st) (datom_v d) venc.
Proof.
  intros Hd. destruct (rp_known _ _ _ Hr _ Hd) as [[aid p] Ha]. exists aid, p. split; [done|].
  assert (Hf : facts_of st db (datom_e d) aid (datom_v d)).
  { exists (datom_a d). split; [by apply (ai_attr _ Hi) in Ha as (_ & ? & _) | by destruct d]. }
  split; [done|]. apply (rep_ok _ _ _ HR _ _ _ Hf).
Qed.

Lemma fact_datom e aid v : facts_of st db e aid v ->
  exists name p, attrs st !! name = Some (aid, p) /\ attr_names st !! aid = Some name /\ db (mkDatom e name v).
Proof.
  intros (name & Hn & Hd). destruct (ai_name _ Hi _ _ Hn) as [p Ha]. by exists name, p.
Qed.

(** The keys of an index are the keys of the datoms it holds. *)
Lemma index_keys index k :
  has_key (env st) (index_dbi index) k <-> exists d, db d /\ indexed index d /\ key_of st index d k.
Proof.
  destruct index; simpl.
  - rewrite (rep_eav _ _ _ HR). split.
    + intros (e & aid & v & venc & (name & p & Ha & _ & Hd)%fact_datom & Henc & ->).
      exists (mkDatom e name v). split_and!; try done. by exists aid, p, venc.
    + intros (d & Hd & _ & aid & p & venc & Ha & Henc & ->).
      destruct (datom_fact d Hd) as (aid' & p' & Ha' & Hf & _). rewrite Ha in Ha'. injection Ha' as <- <-.
      by exists (datom_e d), aid, (datom_v d), venc.
  - rewrite (rep_ave _ _ _ HR). split.
    + intros (e & aid & v & venc & (name & p & Ha & _ & Hd)%fact_datom & Henc & ->).
      exists (mkDatom e name v). split_and!; try done. by exists aid, p, venc.
    + intros (d & Hd & _ & aid & p & venc & Ha & Henc & ->).
      destruct (datom_fact d Hd) as (aid' & p' & Ha' & Hf & _). rewrite Ha in Ha'. injection Ha' as <- <-.
      by exists (datom_e d), aid, (datom_v d), venc.
  - rewrite (rep_vae _ _ _ HR). split.
    + intros (e & aid & target & Hf & ->). destruct (rep_ok _ _ _ HR _ _ _ Hf) as (_ & venc & Henc).
      destruct (fact_datom _ _ _ Hf) as (name & p & Ha & _ & Hd).
      exists (mkDatom e name (Ref target)). split_and!; [done | by exists target | by exists aid, p, venc].
    + intros (d & Hd & [target Ev] & aid & p & venc & Ha & Henc & ->).
      destruct (datom_fact d Hd) as (aid' & p' & Ha' & Hf & _). rewrite Ha in Ha'. injection Ha' as <- <-.
      rewrite Ev in *. by exists (datom_e d), aid, target.
Qed.

(** Decoding the key of a datom gives the datom. *)
Lemma decode_key_of index d k :
  db d -> indexed index d -> key_of st index d k -> decode_index_entry st index k = Ok d.
Proof.
  intros Hd Hix (aid & p & venc & Ha & Henc & ->).
  destruct (datom_fact d Hd) as (aid' & p' & Ha' & _ & (He & Haid & Hv & Hdg) & _).
  rewrite Ha in Ha'. injection Ha' as <- <-. destruct (ai_attr _ Hi _ _ _ Ha) as (_ & Hn & _).
  assert (Hname : attr_name st aid = Ok (datom_a d)) by (unfold attr_name; by rewrite Hn).
  destruct (rp_giants _ _ _ Hr) as [Hg _].
  destruct d as [e a v]; simpl in *. destruct index; simpl in *; unfold eav_key, ave_key, vae_key.
  - rewrite (key_int_head _ _ 8 e) by key_side. rewrite (key_int_app (to_be_bytes 8 e) _ _ 8 12 aid) by key_side. simpl.
    rewrite app_assoc, drop_app_length' by by rewrite length_app, !length_to_be_bytes.
    pose proof (decode_value_encodes stored no_collision _ _ _ [] Hg Hv Hdg Henc) as Hdec. rewrite app_nil_r in Hdec.
    rewrite Hdec. simpl. by rewrite Hname.
  - rewrite (key_int_head _ _ 4 aid) by key_side. simpl.
    rewrite drop_app_length' by by rewrite length_to_be_bytes.
    rewrite (decode_value_encodes stored no_collision _ _ _ _ Hg Hv Hdg Henc). simpl.
    rewrite <- (app_nil_r (to_be_bytes 8 e)), app_assoc.
    rewrite (key_int_app _ _ _ _ _ e) by key_side. simpl. by rewrite Hname.
  - destruct Hix as [target ->]. inversion Hv; subst.
    rewrite (key_int_head _ _ 8 target) by key_side.
    rewrite (key_int_app (to_be_bytes 8 target) _ _ 8 12 aid) by key_side. simpl.
    rewrite app_assoc, <- (app_nil_r (to_be_bytes 8 e)).
    rewrite (key_int_app _ _ _ 12 20 e) by key_side. simpl. by rewrite Hname.
Qed.

(** What a scan of an index with a key prefix returns. *)
Definition scanned (index : Index) (prefix : list Z) (out : list Datom) : Prop :=
  NoDup out /\ length out = length (with_prefix prefix (db_entries (env st) (index_dbi index))) /\
  forall d, d ∈ out <-> db d /\ indexed index d /\ exists k, key_of st index d k /\ starts_with prefix k = true.

Definition datom_at (index : Index) (k : list Z) : Datom :=
  match decode_index_entry st index k with
  | Ok d => d
  | _ => mkDatom 0 [] (Bool false)
  end.

Lemma index_entry index k : has_key (env st) (index_dbi index) k ->
  db (datom_at index k) /\ indexed index (datom_at index k) /\ key_of st index (datom_at index k) k /\
  decode_index_entry st index k = Ok (datom_at index k).
Proof.
  intros (d & Hd & Hix & Hk)%index_keys. pose proof (decode_key_of index d k Hd Hix Hk) as E.
  unfold datom_at. by rewrite E.
Qed.

Lemma scan_index index prefix low :
  low = Some prefix \/ (low = None /\ prefix = []) ->
  exists out, scan_prefix prefix (decode_index_entry st index) (range (env st) (index_dbi index) low None) [] = Ok out /\
    scanned index prefix out.
Proof.
  intros Hlow. set (ks := with_prefix prefix (db_entries (env st) (index_dbi index))).
  assert (Hks : forall k, k ∈ ks <-> has_key (env st) (index_dbi index) k /\ starts_with prefix k = true).
  { intros k. unfold ks, with_prefix. rewrite list_elem_of_filter. unfold has_key. tauto. }
  exists (map (datom_at index) ks). split.
  { apply scan_range_ok; [done|]. intros k [Hk _]%Hks. by apply index_entry. }
  split_and!.
  - apply NoDup_fmap_2_strong; [|apply with_prefix_NoDup, entries_sorted].
    intros k k' [Hk _]%Hks [Hk' _]%Hks E. apply index_entry in Hk as (_ & _ & H1 & _), Hk' as (_ & _ & H2 & _).
    rewrite E in H1. by eapply key_of_functional.
  - by rewrite length_map.
  - intros d. rewrite list_elem_of_fmap. split.
    + intros (k & -> & [Hk Hp]%Hks). apply index_entry in Hk as (? & ? & ? & _). split_and!; try done. by exists k.
    + intros (Hd & Hix & k & Hk & Hp). exists k. unfold datom_at. rewrite (decode_key_of index d k) by done.
      split; [done|]. apply Hks. split; [|done]. apply index_keys. by exists d.
Qed.

(** ** Prefixes *)

Lemma starts_with_fixed a b r k : length a = length b -> starts_with (a ++ r) (b ++ k) = true <-> a = b /\ starts_with r k = true.
Proof.
  intros Hl. rewrite !starts_with_app. split.
  - intros [x E]. rewrite <- app_assoc in E. apply app_inj_1 in E as [-> ->]; [|done]. split; [done | by exists x].
  - intros [-> [x ->]]. exists x. by rewrite app_assoc.
Qed.

Lemma starts_with_u64 e e' r k :
  is_u64 e -> is_u64 e' -> starts_with (to_be_bytes 8 e ++ r) (to_be_bytes 8 e' ++ k) = true <-> e' = e /\ starts_with r k = true.
Proof.
  intros He He'. rewrite starts_with_fixed by by rewrite !length_to_be_bytes.
  split; intros [E ?]; (split; [|done]); [by apply to_be_bytes_inj_u64 | by subst].
Qed.

Lemma starts_with_u32 e e' r k :
  is_u32 e -> is_u32 e' -> starts_with (to_be_bytes 4 e ++ r) (to_be_bytes 4 e' ++ k) = true <-> e' = e /\ starts_with r k = true.
Proof.
  intros He He'. rewrite starts_with_fixed by by rewrite !length_to_be_bytes.
  split; intros [E ?]; (split; [|done]); [by apply to_be_bytes_inj_u32 | by subst].
Qed.

(** Key bytes for a lookup: they find the value and nothing else. *)
Definition finds (v : StoreValue) (venc : list Z) : Prop :=
  forall v' venc' rest, value_ok v' -> digestible stored v' -> encodes (env st) v' venc' ->
    starts_with venc (venc' ++ rest) = true <-> v' = v.

Lemma encode_value_readonly_spec v :
  value_ok v -> digestible stored v ->
  (exists venc, encode_value_readonly (env st) v = Ok venc /\ finds v venc) \/
  (encode_value_readonly (env st) v = Err (Codec "only strings and bytes can be giant") /\ ~ storable v).
Proof.
  intros Hv Hd. destruct (rp_giants _ _ _ Hr) as [Hg Hgc]. unfold encode_value_readonly. fold (encoded v).
  assert (Hfind : forall venc, encodes (env st) v venc -> finds v venc).
  { intros venc Henc v' venc' rest Hv' Hd' Henc'. rewrite starts_with_app. split.
    - intros [r E]. by eapply (encodes_prefix_free stored no_collision (env st) v' v venc' venc rest r).
    - intros ->. rewrite (encodes_functional _ _ _ _ Henc' Henc). by exists rest. }
  destruct (Nat.leb_spec (length (encoded v)) GIANT_THRESHOLD) as [Hle|Hgt].
  { left. exists (encoded v). split; [done|]. apply Hfind. left. split; [unfold oversized; lia | done]. }
  destruct (giant_parts v) as [[tag raw]|err| |] eqn:Hp; [| |by destruct v..].
  2:{ right. split; [by destruct v; simpl in Hp; simplify_eq|]. intros Hs. destruct (Hs Hgt) as (? & ? & ?). congruence. }
  left. simpl. destruct (db_get (env st) GiantIds (sha256 raw)) as [b|] eqn:Eg.
  - destruct (Hg _ _ Eg) as (id & t & r & -> & Hid & _). pose proof (counter_range _ _ Hgc).
    assert (is_u64 id) by (unfold is_u64 in *; lia).
    unfold read_u64. rewrite length_to_be_bytes. simpl. rewrite from_be_u64 by done.
    rewrite (giant_key_eq v) by done. eexists. split; [done|]. apply Hfind. right. split; [done|]. by exists tag, raw, id.
  - simpl. rewrite (giant_key_eq v) by done. eexists. split; [done|].
    intros v' venc' rest Hv' Hd' Henc'. split.
    + intros [x E]%starts_with_app. exfalso.
      destruct Henc' as [[_ ->]|(Ho & tag' & raw' & id & Hp' & Hid & Hg' & ->)].
      * destruct (encoded_head v') as [t Ht]. rewrite Ht in E. injection E as Etag _.
        destruct (giant_parts_tag _ _ _ Hp). pose proof (tag_of_not_giant v'). intuition congruence.
      * pose proof (giant_raw_long _ _ _ Hgt Hp). pose proof (giant_raw_long _ _ _ Ho Hp').
        injection E as _ E. rewrite <- !app_assoc in E.
        apply app_inj_1 in E as [_ E]; [|rewrite !length_take; lia].
        apply app_inj_1 in E as [E _]; [|by rewrite !length_to_be_bytes].
        destruct (Hg _ _ Hg') as (id' & ? & ? & E' & Hid' & _). rewrite E' in E. pose proof (counter_range _ _ Hgc).
        apply to_be_bytes_inj_u64 in E; unfold is_u64 in *; lia.
    + intros ->. exfalso. destruct Henc' as [[Hno _]|(_ & tag' & raw' & id & Hp' & _ & Hg' & _)]; [done|].
      rewrite Hp in Hp'. injection Hp' as <- <-. congruence.
Qed.

(** The datoms a key prefix selects. *)
Definition selects (index : Index) (prefix : list Z) (Q : Datom -> Prop) : Prop :=
  forall d k, db d -> key_of st index d k -> indexed index d -> starts_with prefix k = true <-> Q d.

Lemma scanned_selects index prefix out (Q : Datom -> Prop) :
  scanned index prefix out -> selects index prefix Q ->
  NoDup out /\ forall d, d ∈ out <-> db d /\ indexed index d /\ Q d.
Proof.
  intros (Hnd & _ & Hin) Hsel. split; [done|]. intros d. rewrite Hin. split.
  - intros (Hd & Hix & k & Hk & Hp). split_and!; try done. by eapply Hsel.
  - intros (Hd & Hix & HQ). split_and!; try done.
    destruct (datom_fact d Hd) as (aid & p & Ha & _ & _ & venc & Henc).
    assert (Hk : key_of st index d (index_key index (datom_e d) aid (datom_v d) venc)) by (by exists aid, p, venc).
    eexists. split; [exact Hk|]. by eapply Hsel.
Qed.

(** The value part of a prefix: absent, or lookup bytes. *)
Definition value_part (v : option StoreValue) (venc : list Z) : Prop :=
  match v with
  | None => venc = []
  | Some w => finds w venc
  end.

Lemma value_part_spec v vpart d venc rest :
  value_part v vpart -> db d -> encodes (env st) (datom_v d) venc ->
  starts_with vpart (venc ++ rest) = true <-> (forall w, v = Some w -> datom_v d = w).
Proof.
  intros Hv Hd Henc. destruct (datom_fact d Hd) as (_ & _ & _ & _ & (_ & _ & Hok & Hdg) & _).
  destruct v as [w|]; simpl in Hv; [|subst; done]. rewrite (Hv (datom_v d) venc rest) by done. naive_solver.
Qed.

Lemma attr_part_spec a aid p v vpart d aid' p' venc rest :
  attrs st !! a = Some (aid, p) -> value_part v vpart -> db d -> attrs st !! datom_a d = Some (aid', p') ->
  encodes (env st) (datom_v d) venc ->
  starts_with (to_be_bytes 4 aid ++ vpart) (to_be_bytes 4 aid' ++ venc ++ rest) = true <->
  datom_a d = a /\ forall w, v = Some w -> datom_v d = w.
Proof.
  intros Ha Hv Hd Ha' Henc.
  rewrite starts_with_u32 by (by eapply aid_range). rewrite (value_part_spec v) by done.
  destruct (ai_attr _ Hi _ _ _ Ha) as (_ & Hn & _). destruct (ai_attr _ Hi _ _ _ Ha') as (_ & Hn' & _).
  split; intros [E ?]; (split; [|done]); [subst aid' | subst a]; congruence.
Qed.

Lemma key_of_parts index d k : db d -> key_of st index d k ->
  exists aid p venc, attrs st !! datom_a d = Some (aid, p) /\ encodes (env st) (datom_v d) venc /\
    is_u64 (datom_e d) /\ value_ok (datom_v d) /\ k = index_key index (datom_e d) aid (datom_v d) venc.
Proof.
  intros Hd (aid & p & venc & Ha & Henc & ->). exists aid, p, venc.
  destruct (datom_fact d Hd) as (_ & _ & _ & _ & (? & _ & ? & _) & _). done.
Qed.

Lemma selects_entity e : is_u64 e -> selects IEav (to_be_bytes 8 e) (fun d => datom_e d = e).
Proof.
  intros He d k Hd (aid & p & venc & Ha & Henc & Hde & _ & ->)%key_of_parts _; [|done].
  rewrite <- (app_nil_r (to_be_bytes 8 e)). simpl. unfold eav_key.
  rewrite starts_with_u64 by done. split; [by intros [? _] | done].
Qed.

Lemma selects_entity_attr e a aid p v vpart :
  is_u64 e -> attrs st !! a = Some (aid, p) -> value_part v vpart ->
  selects IEav (to_be_bytes 8 e ++ to_be_bytes 4 aid ++ vpart)
    (fun d => datom_e d = e /\ datom_a d = a /\ forall w, v = Some w -> datom_v d = w).
Proof.
  intros He Ha Hv d k Hd (aid' & p' & venc & Ha' & Henc & Hde & _ & ->)%key_of_parts _; [|done].
  simpl. unfold eav_key. rewrite <- (app_nil_r venc), starts_with_u64 by done.
  by rewrite (attr_part_spec a aid p v vpart d aid' p').
Qed.

Lemma selects_attr a aid p v vpart :
  attrs st !! a = Some (aid, p) -> value_part v vpart ->
  selects IAve (to_be_bytes 4 aid ++ vpart) (fun d => datom_a d = a /\ forall w, v = Some w -> datom_v d = w).
Proof.
  intros Ha Hv d k Hd (aid' & p' & venc & Ha' & Henc & Hde & _ & ->)%key_of_parts _; [|done].
  simpl. unfold ave_key. by rewrite (attr_part_spec a aid p v vpart d aid' p').
Qed.

Lemma selects_ref target : is_u64 target -> selects IVae (to_be_bytes 8 target) (fun d => datom_v d = Ref target).
Proof.
  intros Ht d k Hd (aid & p & venc & Ha & Henc & Hde & Hv & ->)%key_of_parts [t Et]; [|done].
  rewrite <- (app_nil_r (to_be_bytes 8 target)). simpl. unfold vae_key. rewrite Et in *. inversion Hv; subst.
  rewrite starts_with_u64 by done. split; [by intros [-> _] | by intros [= ->]].
Qed.

Lemma selects_all : selects IEav [] (fun _ => True).
Proof. done. Qed.

(** ** Counting *)

Lemma index_keys_bytes index k : k ∈ keys (db_entries (env st) (index_dbi index)) -> Forall is_byte k.
Proof.
  intros (d & Hd & Hix & Hk)%index_keys.
  apply key_of_parts in Hk as (aid & p & venc & Ha & Henc & Hde & Hv & ->); [|done].
  pose proof (encodes_bytes _ _ _ Hv Henc) as Hb.
  destruct index; simpl; unfold eav_key, ave_key, vae_key; rewrite !Forall_app; split_and!; auto using to_be_bytes_bytes.
Qed.

Lemma count_prefix_spec index prefix :
  count_prefix (env st) (index_dbi index) prefix = Ok (length (with_prefix prefix (db_entries (env st) (index_dbi index)))).
Proof.
  unfold count_prefix. rewrite count_below_spec. simpl. destruct (prefix_successor prefix) as [succ|] eqn:E.
  - rewrite count_below_spec. simpl.
    rewrite (seek_successor prefix succ) by (apply entries_sorted || apply index_keys_bytes || done). f_equal. lia.
  - rewrite count_all_spec. simpl.
    rewrite (seek_none prefix (db_entries _ _)) by (apply entries_sorted || apply index_keys_bytes || done). f_equal. lia.
Qed.

(** ** Searches *)

(** What the Rust types guarantee of a pattern. *)
Definition pattern_ok (e : option Z) (v : option StoreValue) : Prop :=
  (forall x, e = Some x -> is_u64 x) /\ (forall w, v = Some w -> value_ok w /\ digestible stored w).

(** The datoms a pattern asks for.  With a bound attribute, values are compared
    as stored; otherwise by Rust equality, which differs on NaN and on the sign
    of zero. *)
Definition matches (e : option Z) (a : option (list Z)) (v : option StoreValue) (d : Datom) : Prop :=
  (forall x, e = Some x -> datom_e d = x) /\
  (forall x, a = Some x -> datom_a d = x) /\
  (forall w, v = Some w -> match a with Some _ => datom_v d = w | None => value_eqb (datom_v d) w = true end).

(** A search that returns the matching datoms, each once, and their number. *)
Definition answers (e : option Z) (a : option (list Z)) (v : option StoreValue)
    (r : outcome StoreError (list Datom)) (n : outcome StoreError nat) : Prop :=
  match r with
  | Ok out => NoDup out /\ (forall d, d ∈ out <-> db d /\ matches e a v d) /\ n = Ok (length out)
  | Err err => err = Codec "only strings and bytes can be giant" /\ n = Err err /\
      exists w, v = Some w /\ ~ storable w
  | _ => False
  end.

Lemma scan_eav_spec prefix : exists out, scan_eav st prefix = Ok out /\ scanned IEav prefix out.
Proof.
  unfold scan_eav. destruct prefix as [|b prefix]; apply (scan_index IEav); [by right | by left].
Qed.

Lemma scan_ave_spec prefix : exists out, scan_ave st prefix = Ok out /\ scanned IAve prefix out.
Proof. apply (scan_index IAve). by left. Qed.

(** [scan_vae] decodes keys like [decode_index_entry]. *)
Lemma scan_vae_spec target : is_u64 target ->
  exists out, scan_vae st target = Ok out /\ scanned IVae (to_be_bytes 8 target) out.
Proof.
  intros Ht. destruct (scan_index IVae (to_be_bytes 8 target) (Some (to_be_bytes 8 target))) as (out & Eo & Hs); [by left|].
  exists out. split; [|done]. unfold scan_vae. cbv zeta.
  erewrite scan_range_ok; [| by left |].
  - erewrite (scan_range_ok _ _ _ _ (decode_index_entry st IVae) (datom_at IVae)) in Eo; [exact Eo | by left |].
    intros k [Hk _]%with_prefix_elem. by apply (index_entry IVae).
  - intros k [Hk [r Er]]%with_prefix_elem. destruct (index_entry IVae k Hk) as (_ & _ & _ & E). simpl in E.
    subst k. rewrite (key_int_head _ _ 8 target) in E by key_side. exact E.
Qed.

Lemma retain_spec want out (Q : Datom -> Prop) :
  NoDup out -> (forall d, d ∈ out <-> Q d) ->
  NoDup (retain want out) /\ forall d, d ∈ retain want out <-> Q d /\ value_eqb (datom_v d) want = true.
Proof.
  intros Hnd Hin. unfold retain. split; [by apply NoDup_filter|]. intros d. rewrite list_elem_of_filter, Hin. tauto.
Qed.

Lemma answers_scan e a v r n index prefix out Q :
  r = Ok out -> scanned index prefix out -> selects index prefix Q ->
  (forall d, db d -> indexed index d /\ Q d <-> matches e a v d) ->
  n = count_prefix (env st) (index_dbi index) prefix -> answers e a v r n.
Proof.
  intros -> Hs Hsel HQ ->. destruct (scanned_selects _ _ _ _ Hs Hsel) as [Hnd Hin]. simpl. split_and!.
  - done.
  - intros d. rewrite Hin. split; [|intros [Hd HQd]; split; [done | by apply HQ]].
    intros [Hd HQd]. split; [done|]. by apply HQ.
  - rewrite count_prefix_spec. f_equal. symmetry. apply Hs.
Qed.

Lemma value_eqb_ref v target : value_eqb v (Ref target) = true <-> v = Ref target.
Proof. destruct v; simpl; try (split; [done | discriminate]). rewrite Z.eqb_eq. split; congruence. Qed.

(** The answer to a search that filters by value equality. *)
Lemma answers_retain e w r out prefix Q :
  r = Ok (retain w out) -> scanned IEav prefix out -> selects IEav prefix Q ->
  (forall d, db d -> Q d <-> forall x, e = Some x -> datom_e d = x) ->
  answers e None (Some w) r (out ← r; Ok (length out)).
Proof.
  intros -> Hs Hsel HQ. destruct (scanned_selects _ _ _ _ Hs Hsel) as [Hnd Hin].
  destruct (retain_spec w out _ Hnd Hin) as [Hnd' Hin']. simpl. split_and!; [done | | done].
  intros d. rewrite Hin'. unfold matches. split.
  - intros [(Hd & _ & HQd) Hw]. split_and!; try done; [by apply HQ | by intros ? [= <-]].
  - intros (Hd & He & _ & Hw). split_and!; try done; [by apply HQ | by apply Hw].
Qed.

Lemma query_attr e name aid p v venc :
  attrs st !! name = Some (aid, p) -> (forall x, e = Some x -> is_u64 x) -> value_part v venc ->
  answers e (Some name) v
    match e with
    | Some e => scan_eav st (to_be_bytes 8 e ++ to_be_bytes 4 aid ++ venc)
    | None => scan_ave st (to_be_bytes 4 aid ++ venc)
    end
    match e with
    | Some e => count_prefix (env st) Eav (to_be_bytes 8 e ++ to_be_bytes 4 aid ++ venc)
    | None => count_prefix (env st) Ave (to_be_bytes 4 aid ++ venc)
    end.
Proof.
  intros Ha He Hv. destruct e as [e|].
  - destruct (scan_eav_spec (to_be_bytes 8 e ++ to_be_bytes 4 aid ++ venc)) as (out & Eo & Hs).
    eapply (answers_scan _ _ _ _ _ IEav); [done | done | by eapply selects_entity_attr; eauto | | done].
    intros d Hd. unfold matches. split; [|naive_solver].
    intros (_ & ? & ? & ?). split_and!; naive_solver.
  - destruct (scan_ave_spec (to_be_bytes 4 aid ++ venc)) as (out & Eo & Hs).
    eapply (answers_scan _ _ _ _ _ IAve); [done | done | by eapply selects_attr; eauto | | done].
    intros d Hd. unfold matches. split; [|naive_solver].
    intros (_ & ? & ?). split_and!; naive_solver.
Qed.

Lemma query_any e : (forall x, e = Some x -> is_u64 x) ->
  answers e None None
    (scan_eav st (match e with Some e => to_be_bytes 8 e | None => [] end))
    (count_prefix (env st) Eav (match e with Some e => to_be_bytes 8 e | None => [] end)).
Proof.
  intros He. destruct (scan_eav_spec (match e with Some e => to_be_bytes 8 e | None => [] end)) as (out & Eo & Hs).
  destruct e as [e|].
  - eapply (answers_scan _ _ _ _ _ IEav); [done | done | by apply selects_entity, He | | done].
    intros d Hd. unfold matches. split; [|naive_solver]. intros [_ ?]. split_and!; naive_solver.
  - eapply (answers_scan _ _ _ _ _ IEav); [done | done | apply selects_all | | done].
    intros d Hd. unfold matches. split; [|done]. intros _. split_and!; naive_solver.
Qed.

Lemma query_value e w venc :
  (forall x, e = Some x -> is_u64 x) -> value_ok w -> encode_value_readonly (env st) w = Ok venc ->
  answers e None (Some w) (search st e None (Some w)) (count st e None (Some w)).
Proof.
  intros He Hw Hvenc. destruct e as [e|].
  - destruct (scan_eav_spec (to_be_bytes 8 e ++ [])) as (out & Eo & Hs).
    eapply (answers_retain (Some e) w _ out); [| exact Hs | rewrite app_nil_r; by apply selects_entity, He |].
    + unfold search. simpl. rewrite Hvenc. simpl. by rewrite Eo.
    + intros d Hd. naive_solver.
  - assert ((exists t, w = Ref t) \/ forall t, w <> Ref t) as [[t ->]|Hne]
      by (destruct w; [right..| left; by eexists | right | right]; done).
    + inversion Hw as [| | | | | | |? Ht| |]; subst. destruct (scan_vae_spec t Ht) as (out & Eo & Hs).
      eapply (answers_scan _ _ _ _ _ IVae); [| exact Hs | by apply selects_ref | | done].
      * unfold search. simpl. rewrite Hvenc. simpl. done.
      * intros d Hd. unfold matches. split.
        -- intros [_ Ed]. split_and!; try done. intros ? [= <-]. by apply value_eqb_ref.
        -- intros (_ & _ & Hm). specialize (Hm _ eq_refl). apply value_eqb_ref in Hm. split; [by exists t | done].
    + destruct (scan_eav_spec []) as (out & Eo & Hs).
      assert (Es : search st None None (Some w) = Ok (retain w out)).
      { unfold search. simpl. rewrite Hvenc. simpl. rewrite Eo. destruct w; try done. by destruct (Hne e). }
      assert (Ec : count st None None (Some w) = (out ← search st None None (Some w); Ok (length out))).
      { destruct w; try done. by destruct (Hne e). }
      rewrite Ec. by eapply (answers_retain None w _ out); [exact Es | exact Hs | apply selects_all |].
Qed.

Lemma query_answers e a v : pattern_ok e v -> answers e a v (search st e a v) (count st e a v).
Proof.
  intros [He Hv]. destruct a as [name|].
  - destruct (attrs st !! name) as [[aid p]|] eqn:Ea.
    + assert (El : lookup_aid st name = Some aid) by (unfold lookup_aid; by rewrite Ea).
      destruct v as [w|].
      * destruct (Hv w eq_refl) as [Hok Hd].
        destruct (encode_value_readonly_spec w Hok Hd) as [(venc & Evenc & Hf)|[Eerr Hns]].
        -- pose proof (query_attr e name aid p (Some w) venc Ea He Hf) as Hq.
           unfold search, count. simpl. rewrite El, Evenc. destruct e; simpl; [destruct (scan_eav st _)|]; exact Hq.
        -- unfold search, count. simpl. rewrite El, Eerr. destruct e; (split_and!; [done | done | by exists w]).
      * pose proof (query_attr e name aid p None [] Ea He eq_refl) as Hq.
        unfold search, count. simpl. rewrite El. destruct e; simpl; [destruct (scan_eav st _)|]; exact Hq.
    + assert (El : lookup_aid st name = None) by (unfold lookup_aid; by rewrite Ea).
      assert (Hs : search st e (Some name) v = Ok []) by (unfold search; simpl; by rewrite El).
      assert (Hc : count st e (Some name) v = Ok 0%nat) by (unfold count; rewrite El; by destruct e).
      rewrite Hs, Hc. split_and!; [constructor | | done]. intros d. split; [by intros []%elem_of_nil|].
      intros (Hd & _ & Hm & _). destruct (rp_known _ _ _ Hr _ Hd) as [x Hx]. rewrite (Hm name eq_refl) in Hx. congruence.
  - destruct v as [w|].
    + destruct (Hv w eq_refl) as [Hok Hd].
      destruct (encode_value_readonly_spec w Hok Hd) as [(venc & Evenc & Hf)|[Eerr Hns]]; [by eapply query_value|].
      assert (Hs : search st e None (Some w) = Err (Codec "only strings and bytes can be giant"))
        by (unfold search; simpl; by rewrite Eerr).
      assert (Hc : count st e None (Some w) = (out ← search st e None (Some w); Ok (length out))).
      { destruct e; [done|]. by destruct w. }
      rewrite Hc, Hs. simpl. split_and!; [done | done | by exists w].
    + pose proof (query_any e He) as Hq. destruct e as [e|]; simpl in Hq.
      * unfold search, count. simpl. rewrite app_nil_r. destruct (scan_eav st (to_be_bytes 8 e)); exact Hq.
      * assert (Hc : count_prefix (env st) Eav [] = Ok (db_count_all (env st) Eav)).
        { unfold count_prefix. rewrite count_below_spec, count_all_spec. simpl.
          assert (Es : seek [] (db_entries (env st) Eav) = 0%nat)
            by (destruct (db_entries (env st) Eav) as [|[[|? ?] ?] ?]; done).
          rewrite Es. f_equal. lia. }
        rewrite Hc in Hq. unfold search, count. simpl. destruct (scan_eav st []); exact Hq.
Qed.

(** C2: a search on a store that holds [db] returns exactly the datoms of [db]
    that match the pattern, each once, whichever index it scans; it fails only
    for a value that cannot be stored at all. *)
Theorem search_finds_matches e a v :
  pattern_ok e v ->
  match search st e a v with
  | Ok out => NoDup out /\ forall d, d ∈ out <-> db d /\ matches e a v d
  | Err err => err = Codec "only strings and bytes can be giant" /\ exists w, v = Some w /\ ~ storable w
  | _ => False
  end.
Proof.
  intros Hp. pose proof (query_answers e a v Hp) as Hq.
  destruct (search st e a v) as [out|err| |]; try done; simpl in Hq; tauto.
Qed.

(** The count by rank differences is the number of datoms the search
    returns, for every pattern and index; both fail together. *)
Theorem count_is_search_length e a v :
  pattern_ok e v -> count st e a v = (out ← search st e a v; Ok (length out)).
Proof.
  intros Hp. pose proof (query_answers e a v Hp) as Hq.
  destruct (search st e a v) as [out|err| |]; try done; simpl in *; tauto.
Qed.

(** [next_eid] is the smallest entity id from the given one on that has a
    datom. *)
Theorem next_eid_smallest from :
  is_u64 from ->
  match next_eid st from with
  | Ok (Some e) => from <= e /\ (exists d, db d /\ datom_e d = e) /\
      forall d, db d -> from <= datom_e d -> e <= datom_e d
  | Ok None => forall d, db d -> datom_e d < from
  | _ => False
  end.
Proof.
  intros Hf. set (l := db_entries (env st) Eav). pose proof (entries_sorted (env st) Eav) as Hs. fold l in Hs.
  assert (Hcmp : forall e rest, is_u64 e ->
    lex_compare (to_be_bytes 8 e ++ rest) (to_be_bytes 8 from) = Lt <-> e < from).
  { intros e rest He. rewrite <- (app_nil_r (to_be_bytes 8 from)).
    rewrite lex_compare_app_same_length by by rewrite !length_to_be_bytes.
    rewrite lex_compare_to_be_bytes by (unfold is_u64, u64_max in *; simpl; lia).
    destruct (Z.compare_spec e from); [|done | by split; [done | lia]].
    destruct rest; simpl; (split; [done | lia]). }
  assert (Hpos : forall d, db d -> exists i k v rest, l !! i = Some (k, v) /\ k = to_be_bytes 8 (datom_e d) ++ rest /\
            is_u64 (datom_e d)).
  { intros d Hd. destruct (datom_fact d Hd) as (aid & p & Ha & _ & (He & _) & venc & Henc).
    assert (Hk : has_key (env st) Eav (eav_key (datom_e d) aid venc)).
    { apply (index_keys IEav). exists d. split_and!; try done. by exists aid, p, venc. }
    apply keys_elem in Hk as [v Hin]. apply list_elem_of_lookup in Hin as [i Hi']. by eexists i, _, v, _. }
  unfold next_eid. rewrite set_range_spec. fold l. destruct (l !! seek (to_be_bytes 8 from) l) as [[k v]|] eqn:E.
  - assert (Hk : has_key (env st) Eav k) by (apply keys_elem; exists v; by eapply list_elem_of_lookup_2).
    destruct (index_entry IEav k Hk) as (Hd & _ & Hkey & _). set (d := datom_at IEav k) in *.
    apply key_of_parts in Hkey as (aid & p & venc & Ha & Henc & He & _ & Ek); [|done]. simpl in Ek. unfold eav_key in Ek.
    clearbody d. assert (Hint : key_int k 0 8 "short eav key" = Ok (datom_e d))
      by (rewrite Ek; apply key_int_head; key_side).
    rewrite Hint. simpl. split_and!.
    + pose proof (seek_spec (to_be_bytes 8 from) l _ k v Hs E) as Hsp. rewrite Ek, Hcmp in Hsp by done. lia.
    + by exists d.
    + intros d' Hd' Hle. destruct (Hpos d' Hd') as (i & k' & v' & rest & Hi' & Ek' & He').
      pose proof (seek_spec (to_be_bytes 8 from) l i k' v' Hs Hi') as Hsp. rewrite Ek', Hcmp in Hsp by done.
      destruct (decide (i = seek (to_be_bytes 8 from) l)) as [->|Hne].
      * assert (Hkk : Some (k', v') = Some (k, v)) by (etrans; [symmetry; exact Hi' | exact E]).
        injection Hkk as -> ->. rewrite Ek in Ek'.
        apply app_inj_1 in Ek' as [Ee _]; [|by rewrite !length_to_be_bytes]. apply to_be_bytes_inj_u64 in Ee; [lia | done | done].
      * assert (Hlt : lex_compare k k' = Lt) by (eapply (bt_sorted_lookup l (seek (to_be_bytes 8 from) l) i); [done | lia | done | done]).
        rewrite Ek, Ek' in Hlt. rewrite lex_compare_app_same_length in Hlt by by rewrite !length_to_be_bytes.
        rewrite lex_compare_to_be_bytes in Hlt by (unfold is_u64, u64_max in *; simpl; lia).
        destruct (Z.compare_spec (datom_e d) (datom_e d')); [lia | lia | done].
  - intros d Hd. destruct (Hpos d Hd) as (i & k & v & rest & Hi' & -> & He).
    apply (Hcmp _ rest He), (seek_spec _ l i _ v Hs Hi').
    pose proof (lookup_ge_None_1 l _ E). pose proof (lookup_lt_Some l _ _ Hi'). lia.
Qed.

Lemma search_finds_all : exists out, search st None None None = Ok out /\ forall d, d ∈ out <-> db d.
Proof.
  assert (Hp : pattern_ok None None) by (split; intros; discriminate).
  pose proof (query_answers None None None Hp) as Hq.
  destruct (search st None None None) as [out|err| |]; try done; simpl in Hq; [|by destruct Hq as (_ & _ & w & ? & _)].
  exists out. split; [done|]. intros d. destruct Hq as (_ & Hin & _). rewrite Hin. unfold matches. naive_solver.
Qed.

(** ** Samples *)

(** The keys with a prefix are the entries from its position on. *)
Lemma with_prefix_lookup p (l : list entry) j k :
  bt_sorted l -> with_prefix p l !! j = Some k -> exists v, l !! (seek p l + j)%nat = Some (k, v).
Proof.
  intros Hs Hj. destruct (prefix_scan_split p (drop (seek p l) l)) as (post & Hk & _).
  - by apply bt_sorted_drop.
  - intros k' [v Hin]%keys_elem. apply list_elem_of_lookup in Hin as [i Hi']. rewrite lookup_drop in Hi'.
    rewrite <- (seek_spec p l _ k' v Hs Hi'). lia.
  - rewrite with_prefix_drop in Hk by done.
    assert (Hl : keys (drop (seek p l) l) !! j = Some k) by (rewrite Hk; by apply lookup_app_l_Some).
    apply (list_lookup_fmap_Some_1 fst) in Hl as ([k' v] & -> & Hd). exists v. by rewrite lookup_drop in Hd.
Qed.

Definition attr_keys (aid : Z) : list (list Z) := with_prefix (to_be_bytes 4 aid) (db_entries (env st) Ave).

Lemma attr_key_datom a aid p k :
  attrs st !! a = Some (aid, p) -> k ∈ attr_keys aid ->
  db (datom_at IAve k) /\ datom_a (datom_at IAve k) = a /\ key_of st IAve (datom_at IAve k) k /\
  decode_index_entry st IAve k = Ok (datom_at IAve k).
Proof.
  intros Ha [Hp Hk]%list_elem_of_filter. destruct (index_entry IAve k Hk) as (Hd & Hix & Hkey & Hdec).
  split_and!; try done. pose proof (selects_attr a aid p None [] Ha eq_refl _ _ Hd Hkey Hix) as Hsel.
  rewrite app_nil_r in Hsel. by apply Hsel.
Qed.

(** The probe of a sample at one rank. *)
Lemma sample_probe a aid p start total take fuel i out k j :
  attrs st !! a = Some (aid, p) -> attr_keys aid !! j = Some k ->
  start = Z.of_nat (seek (to_be_bytes 4 aid) (db_entries (env st) Ave)) -> 0 <= i * total <= u64_max ->
  Z.of_nat j = i * total / take ->
  sample_loop st a start total take (S fuel) i out
  = sample_loop st a start total take fuel (i + 1) (out ++ [datom_at IAve k]).
Proof.
  intros Ha Hj -> Hb Hrank. cbn [sample_loop]. unfold checked_u64. rewrite (proj2 (Z.leb_le _ _)) by lia. simpl mbind.
  unfold mbind, outcome_bind. rewrite <- Hrank, <- Nat2Z.inj_add, Nat2Z.id, get_rank_spec.
  destruct (with_prefix_lookup _ _ _ _ (entries_sorted (env st) Ave) Hj) as [v ->].
  destruct (attr_key_datom a aid p k Ha) as (Hd & Ea & Hkey & Hdec); [by eapply list_elem_of_lookup_2|].
  set (d := datom_at IAve k) in *. clearbody d.
  assert (Hlen : (4 <= length k)%nat).
  { apply key_of_parts in Hkey as (? & ? & ? & _ & _ & _ & _ & ->); [|done]. simpl. unfold ave_key.
    rewrite !length_app, !length_to_be_bytes. lia. }
  unfold index_range. rewrite (proj2 (Nat.leb_le 4 (length k))), Nat.leb_refl by done. simpl.
  rewrite take_ge by (rewrite length_drop; lia).
  unfold decode_index_entry, mbind, outcome_bind in Hdec.
  destruct (key_int k 0 4 "short ave key") as [aid'| | |]; try discriminate Hdec.
  destruct (decode_value (env st) (drop 4 k)) as [[v' used]| | |]; try discriminate Hdec.
  destruct (key_int k (4 + used) (4 + used + 8) "short ave key") as [e'| | |] eqn:Ee; try discriminate Hdec.
  destruct (attr_name st aid') as [name| | |]; try discriminate Hdec. injection Hdec as <-. simpl in Ea. subst a.
  simpl in Ee |- *. by rewrite Ee.
Qed.

(** The [i]-th probed key of a sample of [take] out of [total]. *)
Definition probe (ks : list (list Z)) (take i : nat) : list Z := default [] (ks !! (i * length ks / take)%nat).

Lemma probe_rank_lt total take i : (i < take <= total)%nat -> (i * total / take < total)%nat.
Proof. intros Hi'. apply Nat.Div0.div_lt_upper_bound. nia. Qed.

Lemma probe_rank_mono total take i j : (i < j)%nat -> (0 < take <= total)%nat -> (i * total / take < j * total / take)%nat.
Proof.
  intros Hij Ht. assert (Hadd : ((i * total + 1 * take) / take = i * total / take + 1)%nat) by (rewrite Nat.div_add; lia).
  assert (Hle : ((i * total + 1 * take) / take <= j * total / take)%nat) by (apply Nat.Div0.div_le_mono; nia).
  lia.
Qed.

Lemma sample_loop_spec a aid p take :
  attrs st !! a = Some (aid, p) -> (0 < take <= length (attr_keys aid))%nat ->
  Z.of_nat (length (attr_keys aid)) < 2 ^ 32 ->
  forall fuel i out, (i + fuel = take)%nat ->
  sample_loop st a (Z.of_nat (seek (to_be_bytes 4 aid) (db_entries (env st) Ave)))
    (Z.of_nat (length (attr_keys aid))) (Z.of_nat take) fuel (Z.of_nat i) out
  = Ok (out ++ map (fun i => datom_at IAve (probe (attr_keys aid) take i)) (seq i fuel)).
Proof.
  intros Ha Ht Hb. set (ks := attr_keys aid) in *.
  induction fuel as [|fuel IH]; intros i out Hi'; [simpl; by rewrite app_nil_r|].
  destruct (lookup_lt_is_Some_2 ks (i * length ks / take)) as [k Hk]; [apply probe_rank_lt; lia|].
  rewrite (sample_probe a aid p _ _ _ _ _ _ k (i * length ks / take)%nat); try done.
  - replace (Z.of_nat i + 1) with (Z.of_nat (S i)) by lia. rewrite IH by lia. simpl. unfold probe at 2.
    rewrite Hk. simpl. by rewrite <- app_assoc.
  - unfold u64_max. nia.
  - by rewrite Nat2Z.inj_div, Nat2Z.inj_mul.
Qed.

(** Sampling an attribute returns as many datoms as asked for, or all of
    them if there are fewer; they are distinct datoms of that attribute.  (Up
    to [2 ^ 32] datoms of the attribute, the rank computation does not
    overflow.) *)
Theorem sample_ave_distinct a n total :
  count st None (Some a) None = Ok total -> Z.of_nat total < 2 ^ 32 -> 0 <= n ->
  exists out, sample_ave st a n = Ok out /\ Z.of_nat (length out) = Z.min n (Z.of_nat total) /\ NoDup out /\
    forall d, d ∈ out -> db d /\ datom_a d = a.
Proof.
  intros Hc Hb Hn. unfold count in Hc. unfold sample_ave.
  destruct (lookup_aid st a) as [aid|] eqn:El.
  2:{ injection Hc as <-. exists []. split_and!; [done | simpl; lia | constructor | by intros d []%elem_of_nil]. }
  unfold lookup_aid in El. destruct (attrs st !! a) as [[aid' p]|] eqn:Ha; [|done]. injection El as ->.
  simpl in Hc. rewrite app_nil_r in Hc. rewrite count_below_spec, Hc. simpl.
  rewrite (count_prefix_spec IAve) in Hc. injection Hc as <-. fold (attr_keys aid) in *. set (ks := attr_keys aid) in *.
  destruct (Nat.eqb_spec (length ks) 0) as [E0|E0]; [|destruct (Z.eqb_spec n 0) as [En|En]]; simpl.
  { exists []. rewrite E0. split_and!; [done | simpl; lia | constructor | by intros d []%elem_of_nil]. }
  { exists []. split_and!; [done | simpl; lia | constructor | by intros d []%elem_of_nil]. }
  set (take := Z.to_nat (Z.min n (Z.of_nat (length ks)))).
  assert (Htake : Z.min n (Z.of_nat (length ks)) = Z.of_nat take) by lia. rewrite Htake.
  assert (Ht : (0 < take <= length ks)%nat) by lia.
  exists (map (fun i => datom_at IAve (probe ks take i)) (seq 0 take)).
  assert (Hprobe : forall i, (i < take)%nat -> ks !! (i * length ks / take)%nat = Some (probe ks take i)).
  { intros i Hi'. destruct (lookup_lt_is_Some_2 ks (i * length ks / take)) as [k Hk]; [apply probe_rank_lt; lia|].
    unfold probe. by rewrite Hk. }
  split_and!.
  - by apply (sample_loop_spec a aid p take Ha Ht Hb take 0 []).
  - by rewrite length_map, length_seq.
  - apply NoDup_fmap_2_strong; [|apply NoDup_seq]. intros i j Hi' Hj E.
    apply elem_of_seq in Hi', Hj. pose proof (Hprobe i ltac:(lia)) as Hki. pose proof (Hprobe j ltac:(lia)) as Hkj.
    destruct (attr_key_datom a aid p _ Ha (list_elem_of_lookup_2 _ _ _ Hki)) as (_ & _ & H1 & _).
    destruct (attr_key_datom a aid p _ Ha (list_elem_of_lookup_2 _ _ _ Hkj)) as (_ & _ & H2 & _).
    rewrite E in H1. assert (Ek : probe ks take i = probe ks take j) by (by eapply key_of_functional).
    rewrite Ek in Hki.
    pose proof (NoDup_lookup _ _ _ _ (with_prefix_NoDup (to_be_bytes 4 aid) _ (entries_sorted (env st) Ave)) Hki Hkj) as Er.
    destruct (Nat.lt_trichotomy i j) as [Hlt|[|Hlt]]; [|done|];
      apply (probe_rank_mono (length ks) take) in Hlt; unfold ks, attr_keys in *; simpl in *; lia.
  - intros d Hd. apply list_elem_of_fmap in Hd as (i & -> & Hi'). apply elem_of_seq in Hi'.
    pose proof (Hprobe i ltac:(lia)) as Hk.
    by destruct (attr_key_datom a aid p _ Ha (list_elem_of_lookup_2 _ _ _ Hk)) as (? & ? & _).
Qed.
End State.
End Query.
