(* ===== verification/StoreSlice.v ===== *)
(** Range scans of the Datalog store: [slice] in both directions and
    [count_range] see the same window of an index.

    Concrete stores: the theorems at work on sorted tables, and the effect
    of a failed transaction on the attribute caches. *)
From stdpp Require Import strings gmap.
From S2P Require Import Prelude RustStd StoreCodec Dlmdb Store StoreValues StoreIndex StoreTransact StoreQuery.
Local Open Scope Z_scope.

(** * Windows of a sorted table *)

Definition at_least (lo k : list Z) : Prop := lex_compare k lo <> Lt.
Definition below (hi : option (list Z)) (k : list Z) : Prop :=
  match hi with
  | Some h => lex_compare k h = Lt
  | None => True
  end.

#[export] Instance at_least_dec lo k : Decision (at_least lo k).
Proof. unfold at_least. apply _. Defined.

#[export] Instance below_dec hi k : Decision (below hi k).
Proof. unfold below. destruct hi; apply _. Defined.

Definition window (lo : list Z) (hi : option (list Z)) (l : list entry) : list (list Z) :=
  filter (fun k => at_least lo k /\ below hi k) (keys l).

Lemma window_cons lo hi k v l :
  window lo hi ((k, v) :: l) = if decide (at_least lo k /\ below hi k) then k :: window lo hi l else window lo hi l.
Proof. unfold window. simpl. by rewrite filter_cons. Qed.

(** The position where a window ends. *)
Definition seek_end (hi : option (list Z)) (l : list entry) : nat :=
  match hi with
  | Some h => seek h l
  | None => length l
  end.

Lemma below_down hi k k' : lex_compare k k' = Lt -> below hi k' -> below hi k.
Proof. destruct hi as [h|]; [|done]. simpl. apply lex_compare_trans. Qed.

Lemma at_least_up lo k k' : lex_compare k k' = Lt -> at_least lo k -> at_least lo k'.
Proof. intros Hlt Hk Hlt'. apply Hk. by eapply lex_compare_trans. Qed.

(** Scanning forward from the low end. *)
Lemma window_forward lo hi l :
  bt_sorted l -> window lo hi l = filter (below hi) (keys (drop (seek lo l) l)).
Proof.
  induction l as [|[k v] l IH]; [done|]. intros [Hk Hs]. unfold window. simpl.
  destruct (lex_ltb k lo) eqn:E; [apply lex_ltb_true in E | apply lex_ltb_false in E].
  - rewrite filter_cons_False by (intros [? _]; done). fold (window lo hi l). by apply IH.
  - simpl. apply (filter_ext_in _ _ (k :: keys l)). intros k' [->|Hin]%elem_of_cons; [naive_solver|].
    apply keys_elem in Hin as [v' Hin]. split; [by intros [_ ?]|]. intros ?. split; [|done].
    eapply at_least_up; [by eapply Hk | done].
Qed.

Lemma keys_take n (l : list entry) : keys (take n l) = take n (keys l).
Proof. unfold keys. by rewrite fmap_take. Qed.

(** Scanning backward from the high end. *)
Lemma window_backward lo hi l :
  bt_sorted l -> window lo hi l = filter (at_least lo) (take (seek_end hi l) (keys l)).
Proof.
  intros Hs. destruct hi as [h|]; simpl.
  - induction l as [|[k v] l IH]; [done|]. destruct Hs as [Hk Hs]. simpl.
    destruct (lex_ltb k h) eqn:E; [apply lex_ltb_true in E; rewrite window_cons | apply lex_ltb_false in E]; simpl.
    + rewrite filter_cons, <- (IH Hs). repeat case_decide; naive_solver.
    + apply filter_none. intros k' Hin [_ Hb]. simpl in Hb. apply E.
      apply elem_of_cons in Hin as [->|[v' Hin]%keys_elem]; [done|]. eapply lex_compare_trans; [by eapply Hk | done].
  - unfold window. rewrite take_ge by (unfold keys; by rewrite length_map). apply filter_ext_in. simpl. tauto.
Qed.

(** The size of a window is a difference of positions. *)
Lemma window_length lo hi l :
  bt_sorted l -> (forall k, ~ at_least lo k -> below hi k) ->
  length (window lo hi l) = (seek_end hi l - seek lo l)%nat.
Proof.
  intros Hs Hlh. assert (Hsum : seek_end hi l = (seek lo l + length (window lo hi l))%nat); [|lia].
  rewrite (seek_count lo) by done. unfold window.
  transitivity (length (filter (below hi) (keys l))).
  - destruct hi as [h|]; simpl; [by apply seek_count|]. rewrite filter_all by done. unfold keys. by rewrite length_map.
  - apply length_filter_disjoint.
    + intros k _. split; [|intros [Hlt|[_ ?]]; [|done]].
      * intros Hb. destruct (decide (at_least lo k)) as [Ha|Ha]; [by right|]. left.
        unfold at_least in Ha. by apply dec_stable in Ha.
      * apply Hlh. intros Ha. by apply Ha.
    + intros k _ Hlt [Ha _]. by apply Ha.
Qed.

(** * The loops *)

(** What a limit leaves of a list when [n] results are already there. *)
Definition limited {A : Type} (limit : option nat) (n : nat) (l : list A) : list A :=
  match limit with
  | Some m => take (m - n) l
  | None => l
  end.

Definition room (limit : option nat) (n : nat) : Prop :=
  match limit with
  | Some m => (n < m)%nat
  | None => True
  end.

Lemma limited_cons {A : Type} limit n (x : A) l :
  room limit n -> limited limit n (x :: l) = x :: if limit_reached limit (S n) then [] else limited limit (S n) l.
Proof.
  destruct limit as [m|]; simpl; [|done]. intros Hr. replace (m - n)%nat with (S (m - S n)) by lia. simpl. f_equal.
  destruct (Nat.leb_spec m (S n)) as [Hle|]; [|done]. by replace (m - S n)%nat with 0%nat by lia.
Qed.

Lemma limited_nil {A : Type} limit n : limited limit n (@nil A) = [].
Proof. destruct limit; [apply take_nil | done]. Qed.

Lemma room_next limit n : limit_reached limit (S n) = false -> room limit (S n).
Proof. destruct limit as [m|]; simpl; [|done]. intros ?%Nat.leb_gt. lia. Qed.

Section Loops.
Context {D : Type} {HD : Dlmdb D} {HP : Platform}.
Context (st : Store D) (index : Index) (limit : option nat) (g : list Z -> Datom).

Lemma slice_forward_spec hi l : forall out,
  bt_sorted l -> (forall k, k ∈ keys l -> decode_index_entry st index k = Ok (g k)) -> room limit (length out) ->
  slice_forward st index hi limit l out = Ok (out ++ map g (limited limit (length out) (filter (below hi) (keys l)))).
Proof.
  induction l as [|[k v] l IH]; intros out Hs Hg Hroom.
  { simpl. by rewrite filter_nil, limited_nil, app_nil_r. }
  destruct Hs as [Hk Hs]. simpl. destruct (decide (below hi k)) as [Hb|Hb].
  - rewrite filter_cons_True by done. rewrite limited_cons by done.
    assert (match hi with Some h => negb (lex_ltb k h) | None => false end = false) as ->.
    { destruct hi as [h|]; [|done]. simpl in Hb. apply lex_ltb_true in Hb. by rewrite Hb. }
    rewrite Hg by by left. simpl. rewrite length_app. simpl. rewrite Nat.add_1_r.
    destruct (limit_reached limit (S (length out))) eqn:E; [done|].
    rewrite IH; [| done | intros; apply Hg; by right | rewrite length_app, Nat.add_1_r; by apply room_next].
    rewrite length_app. simpl. by rewrite Nat.add_1_r, <- app_assoc.
  - assert (match hi with Some h => negb (lex_ltb k h) | None => false end = true) as ->.
    { destruct hi as [h|]; [|done]. simpl in Hb. apply lex_ltb_false in Hb. by rewrite Hb. }
    rewrite filter_none; [by rewrite limited_nil, app_nil_r|].
    intros k' [->|[v' Hin]%keys_elem]%elem_of_cons Hb'; [done|]. apply Hb. eapply below_down; [by eapply Hk | done].
Qed.

(** The entry before a position. *)
Definition entry_before (n : nat) (l : list entry) : option entry :=
  match n with
  | O => None
  | S j => l !! j
  end.

Lemma cur_prev_before dbi k v n :
  db_entries (env st) dbi !! n = Some (k, v) -> cur_prev (env st) dbi k = entry_before n (db_entries (env st) dbi).
Proof. intros Hn. rewrite (prev_spec _ _ _ _ _ Hn). by destruct n. Qed.

Lemma slice_reverse_spec lo : forall n fuel out,
  (n <= length (db_entries (env st) (index_dbi index)))%nat -> (n <= fuel)%nat ->
  (forall k, k ∈ keys (db_entries (env st) (index_dbi index)) -> decode_index_entry st index k = Ok (g k)) ->
  room limit (length out) ->
  slice_reverse fuel st index lo limit (entry_before n (db_entries (env st) (index_dbi index))) out
  = Ok (out ++ map g (limited limit (length out)
          (reverse (filter (at_least lo) (take n (keys (db_entries (env st) (index_dbi index)))))))).
Proof.
  set (l := db_entries (env st) (index_dbi index)).
  pose proof (entries_sorted (env st) (index_dbi index)) as Hs. fold l in Hs.
  induction n as [|n IH]; intros fuel out Hn Hf Hg Hroom.
  { change (reverse (filter (at_least lo) (take 0 (keys l)))) with (@nil (list Z)).
    rewrite limited_nil, app_nil_r. by destruct fuel. }
  destruct fuel as [|fuel]; [lia|]. simpl entry_before.
  destruct (lookup_lt_is_Some_2 l n) as [[k v] Hk]; [lia|]. rewrite Hk. simpl.
  assert (Hkey : keys l !! n = Some k) by (apply (list_lookup_fmap_Some_2 fst l n (k, v)), Hk).
  rewrite (take_S_r _ _ _ Hkey), filter_app, reverse_app.
  destruct (lex_ltb k lo) eqn:E; [apply lex_ltb_true in E | apply lex_ltb_false in E].
  - rewrite (filter_none (at_least lo) (take n (keys l))), (filter_none (at_least lo) [k]).
    + rewrite !reverse_nil. simpl app. by rewrite limited_nil, app_nil_r.
    + intros k' ->%list_elem_of_singleton Ha. by apply Ha.
    + intros k' Hin Ha. apply list_elem_of_lookup in Hin as [i Hi]. apply lookup_take_Some in Hi as [Hi Hin'].
      apply (list_lookup_fmap_Some_1 fst l) in Hi as ([k0 v0] & -> & El). apply Ha. eapply lex_compare_trans; [|exact E]. by eapply (bt_sorted_lookup l i n).
  - rewrite (filter_all (at_least lo) [k]) by (by intros k' ->%list_elem_of_singleton).
    rewrite reverse_singleton. simpl. rewrite limited_cons by done. simpl.
    rewrite Hg by (eapply list_elem_of_lookup_2; exact Hkey). simpl. rewrite length_app. simpl. rewrite Nat.add_1_r.
    destruct (limit_reached limit (S (length out))) eqn:El; [done|].
    rewrite (cur_prev_before _ _ _ _ Hk), IH;
      [| lia | lia | done | rewrite length_app, Nat.add_1_r; by apply room_next].
    rewrite length_app. simpl. by rewrite Nat.add_1_r, <- app_assoc.
Qed.
End Loops.

(** * Bounds *)

(** Whether a key is on the inner side of a bound with key prefix [p]: an open
    bound leaves out the keys with the prefix. *)
Definition above_bound (p : list Z) (closed : bool) (k : list Z) : Prop :=
  p = [] \/ (lex_compare k p <> Lt /\ (closed = true \/ starts_with p k = false)).

Definition below_bound (p : list Z) (closed : bool) (k : list Z) : Prop :=
  p = [] \/ lex_compare k p = Lt \/ (closed = true /\ starts_with p k = true).

Lemma low_key_spec lp closed k : Forall is_byte k ->
  match (if closed || bool_decide (lp = []) then Some lp else prefix_successor lp) with
  | Some lo => at_least lo k <-> above_bound lp closed k
  | None => ~ above_bound lp closed k
  end.
Proof.
  intros Hb. unfold above_bound, at_least. destruct closed; simpl.
  { split; [tauto|]. intros [->|[? _]]; [by destruct k | done]. }
  case_bool_decide as Elp; [subst; split; [by left | by destruct k]|].
  destruct (prefix_successor lp) as [s|] eqn:E.
  - rewrite (prefix_successor_some _ _ _ E Hb). rewrite not_true_iff_false || idtac.
    split; [intros Hn; right; split; [tauto | right; apply not_true_is_false; tauto]|].
    intros [?|[Hlt [?|Hs]]]; [done | done|]. intros [?|?]; congruence.
  - intros [?|[Hlt [?|Hs]]]; [done | done|]. by rewrite (prefix_successor_none lp k) in Hs.
Qed.

Lemma high_key_spec hp closed k : Forall is_byte k ->
  below (if bool_decide (hp = []) then None else if closed : bool then prefix_successor hp else Some hp) k <->
  below_bound hp closed k.
Proof.
  intros Hb. unfold below_bound. case_bool_decide as Ehp; [simpl; tauto|]. destruct closed; simpl; [|naive_solver].
  destruct (prefix_successor hp) as [s|] eqn:E; simpl.
  - rewrite (prefix_successor_some _ _ _ E Hb). tauto.
  - split; [|done]. intros _. right. destruct (decide (lex_compare k hp = Lt)); [by left | right].
    split; [done|]. by apply prefix_successor_none.
Qed.

Section Slice.
Context {D : Type} {HD : Dlmdb D} {HP : Platform}.
Context (stored : list Z -> Prop).
Context (no_collision : forall x y, stored x -> stored y -> sha256 x = sha256 y -> x = y).
Context (st : Store D) (db : database) (Hst : holds stored st db).

(** The window of a resolved range holds the keys between the bounds. *)
Lemma resolve_range_window index low high lp hp :
  bound_prefix st index low = Ok (Some lp) -> bound_prefix st index high = Ok (Some hp) ->
  match resolve_range st index low high with
  | Ok None => forall k, Forall is_byte k -> ~ (above_bound lp (bound_closed low) k /\ below_bound hp (bound_closed high) k)
  | Ok (Some (lo, hi)) => (forall k, ~ at_least lo k -> below hi k) /\ forall k, Forall is_byte k ->
      at_least lo k /\ below hi k <-> above_bound lp (bound_closed low) k /\ below_bound hp (bound_closed high) k
  | _ => False
  end.
Proof.
  intros Elo Ehi. unfold resolve_range. rewrite Elo. simpl. rewrite Ehi. simpl.
  pose proof (low_key_spec lp (bound_closed low)) as Hlo. pose proof (high_key_spec hp (bound_closed high)) as Hhi.
  destruct (if bound_closed low || _ then _ else _) as [lo|]; [|intros k Hb [Ha _]; by apply (Hlo k)].
  destruct (if bool_decide (hp = []) then _ else _) as [hi|]; [|split; [done | naive_solver]].
  destruct (lex_ltb lo hi) eqn:E; [apply lex_ltb_true in E | apply lex_ltb_false in E].
  - split; [|naive_solver]. intros k Ha. unfold at_least in Ha. apply dec_stable in Ha. by eapply lex_compare_trans.
  - intros k Hb [Ha%Hlo Hbelow%Hhi]; [|done|done]. simpl in Hbelow. apply E.
    by eapply lex_compare_le_lt_trans.
Qed.

(** The datoms between two bounds in the order of an index, with their keys. *)
Definition slice_of (index : Index) (low high : Bound) (lp hp : list Z) (ds : list Datom) (ks : list (list Z)) : Prop :=
  Forall2 (key_of st index) ds ks /\
  (forall i j k k', (i < j)%nat -> ks !! i = Some k -> ks !! j = Some k' -> lex_compare k k' = Lt) /\
  forall d, d ∈ ds <-> db d /\ indexed index d /\
    exists k, key_of st index d k /\ above_bound lp (bound_closed low) k /\ below_bound hp (bound_closed high) k.

Lemma filter_keys_sorted (l : list entry) (P : list Z -> Prop) `{forall k, Decision (P k)} :
  bt_sorted l -> forall i j k k', (i < j)%nat ->
  filter P (keys l) !! i = Some k -> filter P (keys l) !! j = Some k' -> lex_compare k k' = Lt.
Proof.
  induction l as [|[k0 v0] l IH]; [done|]. intros [Hk Hs] i j k k' Hij Hi Hj. simpl keys in *.
  rewrite filter_cons in Hi, Hj. destruct (decide (P k0)); [|by eapply IH].
  destruct i as [|i], j as [|j]; simpl in *; try lia.
  - injection Hi as ->. apply list_elem_of_lookup_2, list_elem_of_filter in Hj as [_ [v' Hin]%keys_elem]. by eapply Hk.
  - by eapply (IH Hs i j); [lia|..].
Qed.

Lemma window_slice index low high lp hp lo hi :
  (forall k, Forall is_byte k ->
     at_least lo k /\ below hi k <-> above_bound lp (bound_closed low) k /\ below_bound hp (bound_closed high) k) ->
  let ks := window lo hi (db_entries (env st) (index_dbi index)) in
  slice_of index low high lp hp (map (datom_at st index) ks) ks.
Proof.
  intros Hw ks.
  assert (Hks : forall k, k ∈ ks <-> has_key (env st) (index_dbi index) k /\ at_least lo k /\ below hi k).
  { intros k. unfold ks, window. rewrite list_elem_of_filter. unfold has_key. tauto. }
  pose proof (index_entry stored no_collision st db Hst index) as Hentry. split_and!.
  - apply Forall2_fmap_l, Forall_Forall2_diag, Forall_forall. intros k [Hk _]%Hks. by apply Hentry.
  - by apply filter_keys_sorted, entries_sorted.
  - intros d. rewrite list_elem_of_fmap. split.
    + intros (k & -> & Hk). apply Hks in Hk as [Hk Hin]. destruct (Hentry k Hk) as (? & ? & ? & _).
      split_and!; try done. exists k. split; [done|]. apply Hw; [|done].
      by eapply (index_keys_bytes stored st db Hst index).
    + intros (Hd & Hix & k & Hk & Hb). exists k. unfold datom_at.
      rewrite (decode_key_of stored no_collision st db Hst index d k) by done. split; [done|].
      assert (Hkey : has_key (env st) (index_dbi index) k) by (apply (index_keys stored st db Hst index); by exists d).
      apply Hks. split; [done|]. apply Hw; [|done]. by eapply (index_keys_bytes stored st db Hst index).
Qed.

Lemma seek_nil (l : list entry) : seek [] l = 0%nat.
Proof. by destruct l as [|[[|? ?] ?] ?]. Qed.

Lemma range_low dbi lo :
  range (env st) dbi (match lo with [] => None | _ => Some lo end) None
  = drop (seek lo (db_entries (env st) dbi)) (db_entries (env st) dbi).
Proof. rewrite range_spec. destruct lo; [by rewrite seek_nil | done]. Qed.

Lemma reverse_start dbi hi :
  match hi with
  | None => cur_last (env st) dbi
  | Some h =>
      match cur_set_range (env st) dbi h with
      | Some (k, _) => cur_prev (env st) dbi k
      | None => cur_last (env st) dbi
      end
  end = entry_before (seek_end hi (db_entries (env st) dbi)) (db_entries (env st) dbi).
Proof.
  set (l := db_entries (env st) dbi).
  assert (Hlast : cur_last (env st) dbi = entry_before (length l) l).
  { rewrite last_spec. fold l. rewrite last_lookup. by destruct l. }
  destruct hi as [h|]; simpl; [|done]. rewrite set_range_spec. fold l.
  destruct (l !! seek h l) as [[k v]|] eqn:E.
  - by apply (cur_prev_before st dbi k v).
  - apply lookup_ge_None in E. pose proof (seek_le_length h l). by replace (seek h l) with (length l) by lia.
Qed.

Lemma seek_end_length hi (l : list entry) : (seek_end hi l <= length l)%nat.
Proof. destruct hi; [apply seek_le_length | done]. Qed.

Lemma limited_map {A B : Type} (f : A -> B) limit n l : limited limit n (map f l) = map f (limited limit n l).
Proof. destruct limit; [|done]. symmetry. apply fmap_take. Qed.

Lemma slice_resolved index low high lo hi limit :
  resolve_range st index low high = Ok (Some (lo, hi)) ->
  let ds := map (datom_at st index) (window lo hi (db_entries (env st) (index_dbi index))) in
  slice st index low high limit false = Ok (limited limit 0 ds) /\
  slice st index low high limit true = Ok (limited limit 0 (reverse ds)).
Proof.
  intros Er ds. set (l := db_entries (env st) (index_dbi index)) in *.
  pose proof (entries_sorted (env st) (index_dbi index)) as Hs. fold l in Hs.
  unfold slice. case_bool_decide as E0; [by subst limit|].
  assert (Hroom : room limit 0) by (destruct limit as [[|m]|]; simpl; [done | lia | done]).
  assert (Hdec : forall k, k ∈ keys l -> decode_index_entry st index k = Ok (datom_at st index k))
    by (intros k Hk; by apply (index_entry stored no_collision st db Hst index)).
  rewrite Er. cbn [mbind outcome_bind]. split.
  - rewrite range_low. fold l. rewrite (slice_forward_spec st index limit (datom_at st index)).
    + unfold ds. by rewrite (window_forward lo hi l Hs), limited_map.
    + by apply bt_sorted_drop.
    + intros k Hk. apply Hdec. apply keys_elem in Hk as [v Hin]. apply keys_elem. exists v.
      apply list_elem_of_lookup in Hin as [i Hi]. rewrite lookup_drop in Hi. by eapply list_elem_of_lookup_2.
    + done.
  - rewrite reverse_start, count_all_spec. pose proof (seek_end_length hi l).
    rewrite (slice_reverse_spec st index limit (datom_at st index)) by done. fold l. simpl. unfold ds. rewrite (window_backward lo hi l Hs), <- limited_map. do 2 f_equal. apply (fmap_reverse (datom_at st index)).
Qed.

Lemma count_range_resolved index low high lo hi :
  resolve_range st index low high = Ok (Some (lo, hi)) -> (forall k, ~ at_least lo k -> below hi k) ->
  count_range st index low high = Ok (length (window lo hi (db_entries (env st) (index_dbi index)))).
Proof.
  intros Er Hlh. unfold count_range. rewrite Er. cbn [mbind outcome_bind].
  rewrite window_length by (apply entries_sorted || done).
  assert ((match lo with [] => Ok 0%nat | _ => lmdb (count_below (env st) (index_dbi index) lo) end : outcome StoreError nat)
          = Ok (seek lo (db_entries (env st) (index_dbi index)))) as ->.
  { destruct lo; [by rewrite seek_nil | by rewrite count_below_spec]. }
  simpl. destruct hi as [h|]; [rewrite count_below_spec | rewrite count_all_spec]; done.
Qed.

Lemma slices_agree index low high lp hp :
  bound_prefix st index low = Ok (Some lp) -> bound_prefix st index high = Ok (Some hp) ->
  exists ds ks, slice_of index low high lp hp ds ks /\
    count_range st index low high = Ok (length ds) /\
    forall limit,
      slice st index low high limit false = Ok (limited limit 0 ds) /\
      slice st index low high limit true = Ok (limited limit 0 (reverse ds)).
Proof.
  intros Elo Ehi. pose proof (resolve_range_window index low high lp hp Elo Ehi) as Hw.
  destruct (resolve_range st index low high) as [[[lo hi]|]|e| |] eqn:Er; try done.
  - destruct Hw as [Hlh Hw]. set (ks := window lo hi (db_entries (env st) (index_dbi index))).
    exists (map (datom_at st index) ks), ks. split_and!.
    + by apply window_slice.
    + rewrite length_map. by apply count_range_resolved.
    + intros limit. by apply slice_resolved.
  - exists [], []. split_and!.
    + split_and!; [constructor | done |]. intros d. split; [by intros []%elem_of_nil|].
      intros (Hd & Hix & k & Hk & Hb). exfalso. apply (Hw k); [|done].
      apply (index_keys_bytes stored st db Hst index), (index_keys stored st db Hst index). by exists d.
    + unfold count_range. by rewrite Er.
    + intros limit. unfold slice. rewrite Er. rewrite reverse_nil, !limited_nil. by case_bool_decide.
Qed.

(** C3: between two bounds of an index there is one list of datoms, in key
    order, that holds exactly the datoms whose key lies between the bounds:
    [slice] returns it, cut to the limit; in reverse, it returns it backwards,
    cut to the limit; and [count_range] is its length. *)
Theorem slice_window index low high lp hp :
  bound_prefix st index low = Ok (Some lp) -> bound_prefix st index high = Ok (Some hp) ->
  exists ds ks, slice_of index low high lp hp ds ks /\
    count_range st index low high = Ok (length ds) /\
    forall limit,
      slice st index low high limit false = Ok (limited limit 0 ds) /\
      slice st index low high limit true = Ok (limited limit 0 (reverse ds)).
Proof. apply slices_agree. Qed.

(** ** Value ranges *)

Definition ave_bound (a : list Z) (v : StoreValue) (closed : bool) : Bound := mkBound None (Some a) (Some v) closed.

(** A value between two others, with open or closed ends. *)
Definition value_between (v1 : StoreValue) (c1 : bool) (v2 : StoreValue) (c2 : bool) (v : StoreValue) : Prop :=
  (value_compare v v1 <> Lt /\ (c1 = true \/ v <> v1)) /\ (value_compare v v2 <> Gt /\ (c2 = true \/ v <> v2)).

Lemma ave_bound_prefix a aid p v closed :
  attrs st !! a = Some (aid, p) -> ~ oversized v ->
  bound_prefix st IAve (ave_bound a v closed) = Ok (Some (to_be_bytes 4 aid ++ encoded v)).
Proof.
  intros Ha Ho. simpl. unfold lookup_aid. rewrite Ha. simpl. unfold encode_value_readonly. fold (encoded v).
  rewrite (proj2 (Nat.leb_le _ _)) by (unfold oversized in Ho; lia). simpl. by rewrite app_nil_r.
Qed.

Lemma value_compare_eq v w : value_ok v -> value_ok w -> value_compare v w = Eq <-> v = w.
Proof.
  intros Hv Hw. pose proof (value_ok_encodes_order v w Hv Hw [] []) as Ho. rewrite !app_nil_r in Ho. split.
  - intros E. rewrite E in Ho. apply lex_compare_eq in Ho.
    apply (encoded_prefix_free v w [] []); [done | done | by rewrite !app_nil_r].
  - intros ->. rewrite lex_compare_refl in Ho. by destruct (value_compare w w).
Qed.

Lemma lex_u32 m n a b : is_u32 m -> is_u32 n ->
  lex_compare (to_be_bytes 4 m ++ a) (to_be_bytes 4 n ++ b) = match m ?= n with Eq => lex_compare a b | c => c end.
Proof.
  unfold is_u32, u32_max. intros Hm Hn. rewrite lex_compare_app_same_length by by rewrite !length_to_be_bytes.
  by rewrite lex_compare_to_be_bytes by (simpl; lia).
Qed.

(** The key of a datom lies between two value bounds of an attribute exactly
    when it has the attribute and its value lies between the values. *)
Lemma ave_key_between aid aid' v v1 v2 c1 c2 e :
  is_u32 aid -> is_u32 aid' -> value_ok v -> value_ok v1 -> value_ok v2 ->
  above_bound (to_be_bytes 4 aid ++ encoded v1) c1 (ave_key aid' (encoded v) e) /\
  below_bound (to_be_bytes 4 aid ++ encoded v2) c2 (ave_key aid' (encoded v) e) <->
  aid' = aid /\ value_between v1 c1 v2 c2 v.
Proof.
  intros Ha Ha' Hv Hv1 Hv2.
  assert (Hnil : forall w, to_be_bytes 4 aid ++ encoded w <> []).
  { intros w E. apply app_eq_nil in E as [E _]. by apply (f_equal length) in E; rewrite length_to_be_bytes in E. }
  assert (Hpre : forall w, value_ok w ->
    starts_with (to_be_bytes 4 aid ++ encoded w) (ave_key aid' (encoded v) e) = true <-> aid' = aid /\ v = w).
  { intros w Hw. unfold ave_key. rewrite starts_with_u32, starts_with_app by done. split.
    - intros [-> [r E]]. split; [done|]. by eapply (encoded_prefix_free v w).
    - intros [-> ->]. split; [done|]. by exists (to_be_bytes 8 e). }
  assert (Hcmp : forall w, value_ok w -> lex_compare (ave_key aid' (encoded v) e) (to_be_bytes 4 aid ++ encoded w) =
    match aid' ?= aid with Eq => match value_compare v w with Eq => Gt | c => c end | c => c end).
  { intros w Hw. unfold ave_key. rewrite lex_u32 by done. rewrite <- (app_nil_r (encoded w)).
    rewrite (value_ok_encodes_order v w) by done. by destruct (aid' ?= aid). }
  unfold above_bound, below_bound, value_between.
  rewrite <- not_true_iff_false, !Hpre, !Hcmp by done.
  pose proof (value_compare_eq v v1 Hv Hv1). pose proof (value_compare_eq v v2 Hv Hv2).
  destruct (Z.compare_spec aid' aid) as [->|Hlt|Hlt].
  - split.
    + intros [[?|[H1 H1']] [?|H2]]; try (by edestruct Hnil). split; [done|]. split; split.
      * by destruct (value_compare v v1).
      * naive_solver.
      * destruct (value_compare v v2); naive_solver.
      * destruct H2 as [H2|[? [_ ?]]]; [right; intros ->; by rewrite (proj2 (value_compare_eq v2 v2 Hv2 Hv2)) in H2 | by left].
    + intros [_ [[H1 H1'] [H2 H2']]]. split; right.
      * split; [by destruct (value_compare v v1) | naive_solver].
      * destruct (value_compare v v2) eqn:E; [right | by left | done]. naive_solver.
  - split; [|intros [-> _]; lia]. intros [[?|[? _]] _]; [by edestruct Hnil | done].
  - split; [|intros [-> _]; lia]. intros [_ [?|[?|[_ [-> _]]]]]; [by edestruct Hnil | done | lia].
Qed.
(** A slice of an attribute's index between two values returns exactly the
    datoms of that attribute whose value lies between them, ordered by value,
    whatever the types of the values; open ends leave the end values out.
    (Values too long for a key sort by insertion and are excluded here.) *)
Theorem ave_slice_by_value a aid p v1 c1 v2 c2 :
  attrs st !! a = Some (aid, p) -> value_ok v1 -> value_ok v2 -> ~ oversized v1 -> ~ oversized v2 ->
  (forall d, db d -> ~ oversized (datom_v d)) ->
  exists ds, slice st IAve (ave_bound a v1 c1) (ave_bound a v2 c2) None false = Ok ds /\
    (forall d, d ∈ ds <-> db d /\ datom_a d = a /\ value_between v1 c1 v2 c2 (datom_v d)) /\
    forall i j d d', (i < j)%nat -> ds !! i = Some d -> ds !! j = Some d' ->
      value_compare (datom_v d) (datom_v d') <> Gt.
Proof.
  intros Ha Hv1 Hv2 Ho1 Ho2 Hsmall. pose proof (rp_attrs _ _ _ (proj1 Hst)) as Hi.
  assert (Haid : is_u32 aid) by (by eapply aid_range).
  destruct (slices_agree IAve (ave_bound a v1 c1) (ave_bound a v2 c2) (to_be_bytes 4 aid ++ encoded v1) (to_be_bytes 4 aid ++ encoded v2))
    as (ds & ks & (Hkeys & Hsorted & Hin) & _ & Hslice); [by eapply ave_bound_prefix..|].
  assert (Hkey : forall d k, db d -> key_of st IAve d k -> exists aid' p', attrs st !! datom_a d = Some (aid', p') /\
            is_u32 aid' /\ value_ok (datom_v d) /\ k = ave_key aid' (encoded (datom_v d)) (datom_e d)).
  { intros d k Hd Hk. apply (key_of_parts stored st db Hst) in Hk as (aid' & p' & venc & Ha' & Henc & _ & Hv & ->); [|done].
    exists aid', p'. split_and!; [done | by eapply aid_range | done |].
    destruct Henc as [[_ ->]|[Ho _]]; [done | by destruct (Hsmall d Hd)]. }
  assert (Hmem : forall d, d ∈ ds <-> db d /\ datom_a d = a /\ value_between v1 c1 v2 c2 (datom_v d)).
  { intros d. rewrite Hin. split.
    - intros (Hd & _ & k & Hk & Hb). destruct (Hkey d k Hd Hk) as (aid' & p' & Ha' & Haid' & Hv & ->).
      apply ave_key_between in Hb as [-> Hb]; [|done..]. split; [done|]. split; [|done].
      destruct (ai_attr _ Hi _ _ _ Ha) as (_ & Hn & _). destruct (ai_attr _ Hi _ _ _ Ha') as (_ & Hn' & _). congruence.
    - intros (Hd & Ea & Hb). destruct (datom_fact stored st db Hst d Hd) as (aid' & p' & Ha' & _ & (_ & _ & Hv & _) & venc & Henc).
      split_and!; [done | done |]. rewrite Ea, Ha in Ha'. injection Ha' as <- <-.
      assert (Hk : key_of st IAve d (ave_key aid venc (datom_e d))) by (exists aid, p, venc; by rewrite Ea).
      eexists. split; [exact Hk|]. destruct (Hkey d _ Hd Hk) as (aid' & p' & Ha' & Haid' & _ & ->).
      rewrite Ea, Ha in Ha'. injection Ha' as <- <-. by apply ave_key_between. }
  exists ds. split_and!; [apply (Hslice None) | done |].
  intros i j d d' Hij Hdi Hdj.
  destruct (Forall2_lookup_l _ _ _ _ _ Hkeys Hdi) as (k & Hki & Hk), (Forall2_lookup_l _ _ _ _ _ Hkeys Hdj) as (k' & Hkj & Hk').
  pose proof (Hsorted i j k k' Hij Hki Hkj) as Hlt.
  apply list_elem_of_lookup_2, Hmem in Hdi as (Hd & Ea & _), Hdj as (Hd' & Ea' & _).
  destruct (Hkey d k Hd Hk) as (aid1 & p1 & Ha1 & Hu1 & Hv & ->), (Hkey d' k' Hd' Hk') as (aid2 & p2 & Ha2 & Hu2 & Hv' & ->).
  rewrite Ea, Ha in Ha1. rewrite Ea', Ha in Ha2. injection Ha1 as <- <-. injection Ha2 as <- <-.
  unfold ave_key in Hlt. rewrite lex_u32, Z.compare_refl, (value_ok_encodes_order (datom_v d) (datom_v d')) in Hlt by done.
  by destruct (value_compare (datom_v d) (datom_v d')).
Qed.
End Slice.

(** A digest that is injective on short byte strings. *)
#[local] Instance sample_platform : Platform := {| overflow_checked := true; sha256 := take 32 |}.

Definition short (raw : list Z) : Prop := (length raw <= 32)%nat.

Lemma short_no_collision x y : short x -> short y -> sha256 x = sha256 y -> x = y.
Proof. unfold short. simpl. intros Hx Hy. by rewrite !take_ge. Qed.

Definition new_store : Store SortedTables := mkStore empty_tables ∅ ∅.

Lemma new_store_holds : holds short new_store db_empty.
Proof. by apply holds_empty. Qed.

Definition sample_ops : list Op :=
  [Add 1 (lit "name") (Str (lit "ann")); Add 2 (lit "name") (Str (lit "bob")); Add 2 (lit "friend") (Ref 1);
   Add 3 (lit "age") (Long 40); Add 5 (lit "age") (Long 7); Add 3 (lit "age") (Long 41);
   Retract 2 (lit "name") (Str (lit "bob"))].

Definition sample_result : outcome StoreError unit * Store SortedTables := transact sample_ops new_store.
Definition sample_store : Store SortedTables := sample_result.2.
Definition sample_db : database := apply_ops (many_of new_store) sample_ops db_empty.

Lemma scalars_string s : forallb is_scalar s = true -> is_string s.
Proof. intros Hs. apply Forall_forall. intros c Hc. by apply (proj1 (forallb_forall _ _) Hs), list_elem_of_In. Qed.

(** The typing conditions of concrete operations. *)
Ltac range_tac := split; vm_compute; discriminate.
Ltac string_tac := apply scalars_string; vm_compute; reflexivity.
Ltac value_tac := first [apply ok_str; string_tac | apply ok_ref; range_tac | apply ok_long; range_tac].
Ltac op_tac := split; [range_tac | split; [string_tac | split; [value_tac | first [exact I | apply Nat.leb_le; vm_compute; reflexivity]]]].

Lemma sample_ops_ok : Forall (op_ok short) sample_ops.
Proof. do 7 (apply Forall_cons_2; [op_tac|]). apply Forall_nil_2. Qed.

Lemma sample_succeeds : sample_result.1 = Ok tt.
Proof. vm_compute. reflexivity. Qed.

Lemma sample_store_holds : holds short sample_store sample_db /\ max_eid sample_store = 5.
Proof.
  pose proof (transact_spec short short_no_collision new_store db_empty sample_ops new_store_holds sample_ops_ok
                ltac:(vm_compute; done) ltac:(vm_compute; done)) as Ht.
  pose proof sample_succeeds as Hs. unfold sample_store, sample_db, sample_result in *.
  destruct (transact sample_ops new_store) as [r st']. simpl in *. subst r. exact Ht.
Qed.

(** * Witnesses *)

Lemma transact_refines_witness :
  holds short sample_store sample_db /\ sample_db (mkDatom 3 (lit "age") (Long 41)) /\
  ~ sample_db (mkDatom 3 (lit "age") (Long 40)).
Proof.
  pose proof (transact_refines short short_no_collision new_store db_empty sample_ops new_store_holds sample_ops_ok
                ltac:(vm_compute; done) ltac:(vm_compute; done)) as Ht.
  pose proof sample_succeeds as Hs. unfold sample_store, sample_result in *.
  destruct (transact sample_ops new_store) as [r st']. simpl in Hs, Ht |- *. subst r.
  split; [apply Ht|]. unfold sample_db. simpl. split.
  - split; [|discriminate]. by left.
  - intros [[Hd|[_ [Hm|Hne]]] _]; [discriminate Hd | discriminate Hm | by apply Hne].
Defined.

Definition many_props : AttrProps := mkProps true false false false.

Lemma set_attr_keeps_data_witness :
  let st' := (set_attr (lit "name") many_props sample_store).2 in
  holds short st' sample_db /\ attr_props st' (lit "name") = Some many_props.
Proof.
  pose proof (set_attr_keeps_data short sample_store sample_db (lit "name") many_props
                (proj1 sample_store_holds) ltac:(string_tac) ltac:(vm_compute; done)) as Hs.
  assert (E : (set_attr (lit "name") many_props sample_store).1 = Ok tt) by (vm_compute; reflexivity).
  destruct (set_attr (lit "name") many_props sample_store) as [r st']. simpl in *. subst r.
  split; apply Hs.
Defined.

Lemma reopen_restores_store_witness : open_store (env sample_store) = Ok sample_store.
Proof. exact (reopen_restores_store short sample_store sample_db (proj1 sample_store_holds)). Defined.

Lemma search_finds_matches_witness :
  search sample_store None (Some (lit "age")) None
    = Ok [mkDatom 5 (lit "age") (Long 7); mkDatom 3 (lit "age") (Long 41)] /\
  forall d, sample_db d -> datom_a d = lit "age" -> d = mkDatom 5 (lit "age") (Long 7) \/ d = mkDatom 3 (lit "age") (Long 41).
Proof.
  assert (E : search sample_store None (Some (lit "age")) None
    = Ok [mkDatom 5 (lit "age") (Long 7); mkDatom 3 (lit "age") (Long 41)]) by (vm_compute; reflexivity).
  split; [exact E|]. intros d Hd Ha.
  pose proof (search_finds_matches short short_no_collision sample_store sample_db (proj1 sample_store_holds)
                None (Some (lit "age")) None) as Hs.
  rewrite E in Hs. destruct Hs as [_ Hs]; [split; intros; discriminate|].
  assert (Hin : d ∈ [mkDatom 5 (lit "age") (Long 7); mkDatom 3 (lit "age") (Long 41)]).
  { apply Hs. split; [exact Hd|]. unfold matches. split; [intros; discriminate|].
    split; [intros x Hx; injection Hx as <-; exact Ha | intros; discriminate]. }
  apply elem_of_cons in Hin as [->|Hin]; [by left|]. apply list_elem_of_singleton in Hin as ->. by right.
Defined.

Lemma count_is_search_length_witness : count sample_store (Some 2) (Some (lit "friend")) (Some (Ref 1)) = Ok 1%nat.
Proof.
  rewrite (count_is_search_length short short_no_collision sample_store sample_db (proj1 sample_store_holds)).
  - vm_compute. reflexivity.
  - split; [intros x Hx; injection Hx as <-; range_tac|]. intros w Hw. injection Hw as <-. split; [value_tac | exact I].
Defined.

Lemma next_eid_smallest_witness : next_eid sample_store 4 = Ok (Some 5) /\ forall d, sample_db d -> 4 <= datom_e d -> 5 <= datom_e d.
Proof.
  pose proof (next_eid_smallest short short_no_collision sample_store sample_db (proj1 sample_store_holds) 4 ltac:(range_tac)) as Hn.
  assert (E : next_eid sample_store 4 = Ok (Some 5)) by (vm_compute; reflexivity).
  rewrite E in Hn. split; [exact E | apply Hn].
Defined.

Lemma sample_ave_distinct_witness :
  exists out, sample_ave sample_store (lit "age") 1 = Ok out /\ Z.of_nat (length out) = 1.
Proof.
  destruct (sample_ave_distinct short short_no_collision sample_store sample_db (proj1 sample_store_holds)
              (lit "age") 1 2%nat ltac:(vm_compute; reflexivity) ltac:(vm_compute; reflexivity) ltac:(vm_compute; discriminate))
    as (out & Hout & Hlen & _).
  exists out. split; [exact Hout | exact Hlen].
Defined.

Lemma slice_window_witness :
  exists ds, count_range sample_store IEav Bound_default Bound_default = Ok (length ds) /\
    slice sample_store IEav Bound_default Bound_default (Some 2%nat) true = Ok (take 2 (reverse ds)).
Proof.
  destruct (slice_window short short_no_collision sample_store sample_db (proj1 sample_store_holds)
              IEav Bound_default Bound_default [] [] eq_refl eq_refl) as (ds & ks & _ & Hc & Hs).
  exists ds. split; [exact Hc | apply (Hs (Some 2%nat))].
Defined.

(** No value of the sample is long. *)
Lemma sample_values_small d : sample_db d -> ~ oversized (datom_v d).
Proof.
  intros Hd. unfold oversized. apply Nat.nlt_ge.
  destruct (search_finds_all short short_no_collision sample_store sample_db (proj1 sample_store_holds)) as (out & E & Hin).
  assert (Hall : forallb (fun d => (length (encoded (datom_v d)) <=? GIANT_THRESHOLD)%nat)
                   match search sample_store None None None with Ok out => out | _ => [] end = true) by (vm_compute; reflexivity).
  rewrite E in Hall. apply Nat.leb_le. apply (proj1 (forallb_forall _ _) Hall), list_elem_of_In. by apply Hin.
Qed.

Lemma ave_slice_by_value_witness :
  exists ds, slice sample_store IAve (ave_bound (lit "age") (Long (-3)) true) (ave_bound (lit "age") (Long 41) false) None false = Ok ds /\
    forall d, d ∈ ds -> value_between (Long (-3)) true (Long 41) false (datom_v d).
Proof.
  destruct (ave_slice_by_value short short_no_collision sample_store sample_db (proj1 sample_store_holds)
              (lit "age") 3 AttrProps_default (Long (-3)) true (Long 41) false
              ltac:(vm_compute; reflexivity) ltac:(value_tac) ltac:(value_tac)
              ltac:(apply Nat.nlt_ge, Nat.leb_le; vm_compute; reflexivity)
              ltac:(apply Nat.nlt_ge, Nat.leb_le; vm_compute; reflexivity) sample_values_small) as (ds & E & Hin & _).
  exists ds. split; [exact E|]. intros d Hd. by apply Hin in Hd as (_ & _ & ?).
Defined.

(** * Failed transactions *)

Definition long_keyword : StoreValue := Keyword (replicate 500 120).

(** A transaction that fails after it met a new attribute rolls the id
    counter back but keeps the attribute in the cache.  The next new attribute
    gets the same id: searching one attribute then returns the other's datoms,
    and asserting a value of one replaces the other's. *)
Theorem failed_transaction_shares_attribute_id :
  let '(r1, st1) := transact [Add 1 (lit "a") long_keyword] new_store in
  let '(r2, st2) := transact [Add 1 (lit "b") (Long 1)] st1 in
  let '(r3, st3) := transact [Add 1 (lit "a") (Long 2)] st2 in
  r1 = Err (Codec "only strings and bytes can be giant") /\ r2 = Ok tt /\ r3 = Ok tt /\
  lookup_aid st2 (lit "a") = lookup_aid st2 (lit "b") /\
  search st2 None (Some (lit "a")) None = Ok [mkDatom 1 (lit "b") (Long 1)] /\
  search st3 (Some 1) (Some (lit "b")) None = Ok [mkDatom 1 (lit "b") (Long 2)].
Proof. vm_compute. repeat split. Qed.

(** * Equality of doubles *)

(** The bit pattern of minus zero. *)
Definition minus_zero : Z := 2 ^ 63.

(** A search for minus zero finds a stored zero when no attribute is given
    and misses it when the attribute is given. *)
Theorem zero_sign_depends_on_pattern :
  let st := (transact [Add 1 (lit "x") (Double 0)] new_store).2 in
  search st None None (Some (Double minus_zero)) = Ok [mkDatom 1 (lit "x") (Double 0)] /\
  search st None (Some (lit "x")) (Some (Double minus_zero)) = Ok [].
Proof. vm_compute. split; reflexivity. Qed.
