(* ===== verification/Token.v ===== *)
(** Source spans, tokens and read errors
    (crates/cljrs-types/src/span.rs, crates/cljrs-reader/src/token.rs, and the
    messages of crates/cljrs-reader/src/lexer.rs and parser.rs). *)
From S2P Require Import Prelude RustStd.
From stdpp Require Import strings.
Local Open Scope Z_scope.

(** A half-open byte range of a source file; [line] and [col] are those of
    [start], from 1. *)
Record Span : Type := mkSpan {
  span_file : list Z;
  span_start : nat;
  span_end : nat;
  span_line : nat;
  span_col : nat
}.

Definition Span_len (s : Span) : nat := (span_end s - span_start s)%nat.
Definition Span_is_empty (s : Span) : bool := (Span_len s =? 0)%nat.

Inductive Token : Type :=
| TNil
| TBool (b : bool)
| TInt (n : Z)
| TBigInt (s : list Z)
| TFloat (bits : Z)
| TBigDecimal (s : list Z)
| TRatio (s : list Z)
| TChar (c : Z)
| TStr (s : list Z)
| TSymbol (s : list Z)
| TKeyword (s : list Z)
| TAutoKeyword (s : list Z)
| TLParen | TRParen | TLBracket | TRBracket | TLBrace | TRBrace
| TQuote | TSyntaxQuote | TUnquote | TUnquoteSplice | TDeref | TMeta
| THashFn | THashSet | THashVar | THashDiscard
| TRegex (s : list Z)
| TReaderCond | TReaderCondSplice
| TSymbolic (s : list Z)
| TTaggedLiteral (s : list Z)
| TEof.

#[export] Instance Token_eq_dec : EqDecision Token.
Proof. solve_decision. Defined.

(** One constructor per error message of the lexer and the parser, with the
    values interpolated into it. *)
Inductive ReadMsg : Type :=
| UnknownDispatch (c : option Z)
| UnterminatedRegex
| UnknownSymbolic (name : list Z)
| UnterminatedString
| UnknownStringEscape (c : Z)
| InvalidUnicodeEscape (c : Z)
| UnterminatedUnicodeEscape
| InvalidCodePoint (hex : list Z)
| OctalCharOutOfRange (rest : list Z)
| InvalidCodePointInChar (hex : list Z)
| UnknownCharName (rest : list Z)
| EofAfterBackslash
| EmptyAutoKeyword
| EmptyKeyword
| ExpectedHexDigits
| InvalidRadixDigit (c radix : Z)
| InvalidOctal (text : list Z)
| InvalidFloat (raw : list Z)
| UnexpectedCharacter (c : Z)
| UnexpectedClosing
| MapOddForms
| EofAfterDiscard
| Unclosed (name : string)
| EofExpected (what : string)
| CondRequiresParen
| CondOddClauses.

(** [CljxError::ReadError]; the source text it carries is the lexer's. *)
Record ReadError : Type := mkReadError {
  err_message : ReadMsg;
  err_span : Span
}.
