(* ===== verification/Lexer.v ===== *)
(** The lexer (crates/cljrs-reader/src/lexer.rs).

    The state is the source's: the text, the byte offset [pos], and the line
    and column of [pos].  Slicing the text off a character boundary panics, as
    in Rust.  The scanning loops take fuel; each is started with one more than
    the number of characters of the source, which is proved to be enough. *)
From S2P Require Import Prelude RustStd Token.
From stdpp Require Import strings.
Local Open Scope Z_scope.

(** [char::is_alphanumeric] consults the Unicode tables of the Rust standard
    library; on ASCII it is [is_ascii_alphanumeric]. *)
Class UnicodeTables : Type := {
  char_is_alphanumeric : Z -> bool;
  char_is_alphanumeric_ascii c :
    0 <= c < 128 -> char_is_alphanumeric c = is_ascii_alphanumeric c
}.

(** Whether arithmetic overflow panics: Cargo's [overflow-checks], on in the
    dev profile and off (wrap-around) in the release profile. *)
Class BuildProfile : Type := { overflow_checks : bool }.

(** * Character classes *)

Definition is_symbol_char (ch : Z) : bool :=
  negb (existsb (Z.eqb ch)
    [32 (* space *); 9 (* tab *); 10 (* newline *); 13 (* return *); 44 (* comma *);
     40 (* lparen *); 41 (* rparen *); 91 (* lbracket *); 93 (* rbracket *);
     123 (* lbrace *); 125 (* rbrace *); 34 (* double quote *); 59 (* semicolon *);
     96 (* backquote *); 126 (* tilde *); 94 (* caret *); 64 (* at *); 92 (* backslash *)]).

Definition is_symbol_start (ch : Z) : bool :=
  is_symbol_char ch && negb (is_ascii_digit ch) && negb (ch =? 35 (* hash *))
  && negb (ch =? 58 (* colon *)).

(** * Floating-point literals: [str::parse::<f64>] *)

(** The double nearest to [num / den], ties to even, as bits; overflow gives
    infinity. *)
Definition round_f64 (num den : Z) : Z :=
  if num =? 0 then 0
  else
    let e0 := Z.log2 num - Z.log2 den in
    let below := if 0 <=? e0 then num <? den * 2 ^ e0 else num * 2 ^ (- e0) <? den in
    let e := if below then e0 - 1 else e0 in
    let q := Z.max (e - 52) (-1074) in
    let n := if 0 <=? q then num else num * 2 ^ (- q) in
    let d := if 0 <=? q then den * 2 ^ q else den in
    let m := n / d in
    let r := n mod d in
    let m' := if (d <? 2 * r) || ((2 * r =? d) && Z.odd m) then m + 1 else m in
    Z.min ((q + 1074) * 2 ^ 52 + m') 0x7FF0000000000000.

Fixpoint span_digits (s : list Z) : list Z * list Z :=
  match s with
  | c :: t => if is_ascii_digit c then let '(ds, r) := span_digits t in (c :: ds, r) else ([], s)
  | [] => ([], [])
  end.

(** The decimal grammar of [f64::from_str]: sign, digits, an optional fraction
    and an optional exponent that must have digits. *)
Definition parse_f64 (s : list Z) : option Z :=
  let '(neg, s) := match s with 45 :: t => (true, t) | 43 :: t => (false, t) | _ => (false, s) end in
  let '(int_digits, s) := span_digits s in
  let '(frac_digits, s) :=
    match s with 46 :: t => span_digits t | _ => ([], s) end in
  let exponent :=
    match s with
    | [] => Some 0
    | c :: t =>
        if (c =? 101) || (c =? 69) then
          let '(eneg, t) := match t with 45 :: u => (true, u) | 43 :: u => (false, u) | _ => (false, t) end in
          match span_digits t with
          | ([], _) => None
          | (ds, []) =>
              match digits_value 10 0 ds with
              | Some v => Some (if eneg : bool then - v else v)
              | None => None
              end
          | (_, _ :: _) => None
          end
        else None
    end in
  match int_digits ++ frac_digits, exponent with
  | [], _ => None
  | _, None => None
  | ds, Some ex =>
      match digits_value 10 0 ds with
      | None => None
      | Some m =>
          let e10 := ex - Z.of_nat (length frac_digits) in
          let bits := if 0 <=? e10 then round_f64 (m * 10 ^ e10) 1 else round_f64 m (10 ^ (- e10)) in
          Some (if neg : bool then bits + 2 ^ 63 else bits)
      end
  end.

(** * State *)

Record Lexer : Type := mkLexer {
  source : list Z;
  file : list Z;
  pos : nat;
  line : nat;
  col : nat
}.

Definition Lexer_new (src fl : list Z) : Lexer := mkLexer src fl 0 1 1.

Definition lexM (A : Type) : Type := stateM Lexer ReadError A.

Definition get_lexer : lexM Lexer := fun l => (Ok l, l).
Definition fail {A : Type} (e : ReadError) : lexM A := fun l => (Err e, l).
Definition panic {A : Type} : lexM A := fun l => (Panic, l).

(** [&s[n..]]: [None] when [n] is not a character boundary (Rust panics). *)
Fixpoint str_from (s : list Z) (n : nat) : option (list Z) :=
  match n, s with
  | O, _ => Some s
  | S _, [] => None
  | S _, c :: s' => if (len_utf8 c <=? n)%nat then str_from s' (n - len_utf8 c) else None
  end.

(** [&s[..n]], likewise. *)
Fixpoint str_to (s : list Z) (n : nat) : option (list Z) :=
  match n, s with
  | O, _ => Some []
  | S _, [] => None
  | S _, c :: s' => if (len_utf8 c <=? n)%nat then cons c <$> str_to s' (n - len_utf8 c) else None
  end.

(** [str::len]: the length in bytes. *)
Definition str_len (s : list Z) : nat := length (utf8_encode s).

(** [&self.source[self.pos..]]. *)
Definition rest_of_source : lexM (list Z) := fun l =>
  match str_from (source l) (pos l) with
  | Some r => (Ok r, l)
  | None => (Panic, l)
  end.

Definition peek : lexM (option Z) := r ← rest_of_source; mret (head r).

Definition peek_next : lexM (option Z) := r ← rest_of_source; mret (head (tail r)).

Definition set_cursor (p ln c : nat) : lexM unit := fun l =>
  (Ok tt, mkLexer (source l) (file l) p ln c).

Definition advance : lexM (option Z) :=
  o ← peek;
  match o with
  | None => mret None
  | Some ch =>
      l ← get_lexer;
      _ ← (if ch =? 10 then set_cursor (pos l + len_utf8 ch) (line l + 1) 1
           else set_cursor (pos l + len_utf8 ch) (line l) (col l + len_utf8 ch));
      mret (Some ch)
  end.

Definition span_from (start_pos start_line start_col : nat) : lexM Span :=
  l ← get_lexer; mret (mkSpan (file l) start_pos (pos l) start_line start_col).

Definition make_error {A : Type} (msg : ReadMsg) (sp sl sc : nat) : lexM A :=
  span ← span_from sp sl sc; fail (mkReadError msg span).

Definition emit (tok : Token) (sp sl sc : nat) : lexM (Token * Span) :=
  span ← span_from sp sl sc; mret (tok, span).

(** The loop [while let Some(ch) = self.peek() { if p(ch) { push; advance } else
    { break } }]. *)
Fixpoint read_while_loop (fuel : nat) (p : Z -> bool) (buf : list Z) : lexM (list Z) :=
  match fuel with
  | O => fun l => (OutOfFuel, l)
  | S f =>
      o ← peek;
      match o with
      | Some ch => if p ch then _ ← advance; read_while_loop f p (buf ++ [ch]) else mret buf
      | None => mret buf
      end
  end.

Definition loop_fuel (l : Lexer) : nat := S (length (source l)).

Definition read_while (p : Z -> bool) : lexM (list Z) :=
  l ← get_lexer; read_while_loop (loop_fuel l) p [].

Definition read_symbol_chars : lexM (list Z) := read_while is_symbol_char.

(** * Whitespace and comments *)

(** [while let Some(ch) = self.advance() { if ch == '\n' { break } }]. *)
Fixpoint skip_line (fuel : nat) : lexM unit :=
  match fuel with
  | O => fun l => (OutOfFuel, l)
  | S f =>
      o ← advance;
      match o with
      | Some ch => if ch =? 10 then mret tt else skip_line f
      | None => mret tt
      end
  end.

Definition is_lex_whitespace (ch : Z) : bool :=
  (ch =? 32) || (ch =? 9) || (ch =? 13) || (ch =? 10) || (ch =? 44).

Fixpoint skip_loop (fuel : nat) : lexM unit :=
  match fuel with
  | O => fun l => (OutOfFuel, l)
  | S f =>
      l ← get_lexer;
      o ← peek;
      match o with
      | Some ch =>
          if (ch =? 35) && (pos l =? 0)%nat then
            o2 ← peek_next;
            if decide (o2 = Some 33) then _ ← skip_line (loop_fuel l); skip_loop f
            else mret tt
          else if is_lex_whitespace ch then _ ← advance; skip_loop f
          else if ch =? 59 then _ ← skip_line (loop_fuel l); skip_loop f
          else mret tt
      | None => mret tt
      end
  end.

Definition skip_whitespace_and_comments : lexM unit :=
  l ← get_lexer; skip_loop (loop_fuel l).

(** * Token lexers; each gets the position where its token starts *)

Definition lex_unquote (sp sl sc : nat) : lexM (Token * Span) :=
  _ ← advance;
  o ← peek;
  if decide (o = Some 64) then _ ← advance; emit TUnquoteSplice sp sl sc
  else emit TUnquote sp sl sc.

Fixpoint lex_regex_loop (fuel : nat) (buf : list Z) (sp sl sc : nat) : lexM (list Z) :=
  match fuel with
  | O => fun l => (OutOfFuel, l)
  | S f =>
      o ← advance;
      match o with
      | None => make_error UnterminatedRegex sp sl sc
      | Some c =>
          if c =? 34 then mret buf
          else if c =? 92 then
            o2 ← advance;
            match o2 with
            | Some c2 => lex_regex_loop f (buf ++ [92; c2]) sp sl sc
            | None => make_error UnterminatedRegex sp sl sc
            end
          else lex_regex_loop f (buf ++ [c]) sp sl sc
      end
  end.

Definition lex_regex (sp sl sc : nat) : lexM (Token * Span) :=
  _ ← advance;
  l ← get_lexer;
  buf ← lex_regex_loop (loop_fuel l) [] sp sl sc;
  emit (TRegex buf) sp sl sc.

Definition lex_symbolic (sp sl sc : nat) : lexM (Token * Span) :=
  _ ← advance;
  name ← read_symbol_chars;
  if decide (name = lit "Inf" \/ name = lit "-Inf" \/ name = lit "NaN")
  then emit (TSymbolic name) sp sl sc
  else make_error (UnknownSymbolic name) sp sl sc.

Definition lex_hash (sp sl sc : nat) : lexM (Token * Span) :=
  _ ← advance;
  o ← peek;
  match o with
  | Some c =>
      if c =? 40 then _ ← advance; emit THashFn sp sl sc
      else if c =? 123 then _ ← advance; emit THashSet sp sl sc
      else if c =? 39 then _ ← advance; emit THashVar sp sl sc
      else if c =? 95 then _ ← advance; emit THashDiscard sp sl sc
      else if c =? 34 then lex_regex sp sl sc
      else if c =? 63 then
        _ ← advance;
        o2 ← peek;
        if decide (o2 = Some 64) then _ ← advance; emit TReaderCondSplice sp sl sc
        else emit TReaderCond sp sl sc
      else if c =? 35 then lex_symbolic sp sl sc
      else if is_symbol_start c then
        name ← read_symbol_chars;
        emit (TTaggedLiteral name) sp sl sc
      else make_error (UnknownDispatch o) sp sl sc
  | None => make_error (UnknownDispatch None) sp sl sc
  end.

(** [char::from_u32]. *)
Definition char_from_u32 (code : Z) : option Z := if is_scalar code then Some code else None.

(** The [for _ in 0..4] loop of [read_unicode_escape]. *)
Fixpoint read_hex_digits (n : nat) (hex : list Z) (sp sl sc : nat) : lexM (list Z) :=
  match n with
  | O => mret hex
  | S n' =>
      o ← advance;
      match o with
      | Some c => if is_ascii_hexdigit c then read_hex_digits n' (hex ++ [c]) sp sl sc
                  else make_error (InvalidUnicodeEscape c) sp sl sc
      | None => make_error UnterminatedUnicodeEscape sp sl sc
      end
  end.

Definition read_unicode_escape (sp sl sc : nat) : lexM Z :=
  hex ← read_hex_digits 4 [] sp sl sc;
  match from_str_radix 0 u32_max 16 hex with
  | None => panic
  | Some code =>
      match char_from_u32 code with
      | Some c => mret c
      | None => make_error (InvalidCodePoint hex) sp sl sc
      end
  end.

Fixpoint lex_string_loop (fuel : nat) (buf : list Z) (sp sl sc : nat) : lexM (list Z) :=
  match fuel with
  | O => fun l => (OutOfFuel, l)
  | S f =>
      o ← advance;
      match o with
      | None => make_error UnterminatedString sp sl sc
      | Some c =>
          if c =? 34 then mret buf
          else if c =? 92 then
            o2 ← advance;
            match o2 with
            | Some c2 =>
                if c2 =? 110 then lex_string_loop f (buf ++ [10]) sp sl sc
                else if c2 =? 116 then lex_string_loop f (buf ++ [9]) sp sl sc
                else if c2 =? 114 then lex_string_loop f (buf ++ [13]) sp sl sc
                else if c2 =? 98 then lex_string_loop f (buf ++ [8]) sp sl sc
                else if c2 =? 102 then lex_string_loop f (buf ++ [12]) sp sl sc
                else if c2 =? 92 then lex_string_loop f (buf ++ [92]) sp sl sc
                else if c2 =? 34 then lex_string_loop f (buf ++ [34]) sp sl sc
                else if c2 =? 117 then
                  ch ← read_unicode_escape sp sl sc;
                  lex_string_loop f (buf ++ [ch]) sp sl sc
                else make_error (UnknownStringEscape c2) sp sl sc
            | None => make_error UnterminatedString sp sl sc
            end
          else lex_string_loop f (buf ++ [c]) sp sl sc
      end
  end.

Definition lex_string (sp sl sc : nat) : lexM (Token * Span) :=
  _ ← advance;
  l ← get_lexer;
  buf ← lex_string_loop (loop_fuel l) [] sp sl sc;
  emit (TStr buf) sp sl sc.

(** [self.pos += n; self.col += n]. *)
Definition skip_bytes (n : nat) : lexM unit :=
  l ← get_lexer; set_cursor (pos l + n) (line l) (col l + n).

Fixpoint take_while (p : Z -> bool) (s : list Z) : list Z :=
  match s with
  | c :: t => if p c then c :: take_while p t else []
  | [] => []
  end.

Definition named_char (rest : list Z) : option Z :=
  if decide (rest = lit "newline") then Some 10
  else if decide (rest = lit "space") then Some 32
  else if decide (rest = lit "tab") then Some 9
  else if decide (rest = lit "backspace") then Some 8
  else if decide (rest = lit "formfeed") then Some 12
  else if decide (rest = lit "return") then Some 13
  else None.

Definition is_octal_digit (c : Z) : bool := in_range 48 55 c.

Section WithUnicode.
Context {U : UnicodeTables} {B : BuildProfile}.

Definition char_literal_value (source_rest rest : list Z) (sp sl sc : nat) : lexM Z :=
  match named_char rest with
  | Some c => _ ← skip_bytes (str_len rest); mret c
  | None =>
      if bool_decide (head rest = Some 111) && (2 <=? str_len rest)%nat
         && (str_len rest <=? 4)%nat && forallb is_octal_digit (tail rest)
      then
        match from_str_radix 0 u32_max 8 (tail rest) with
        | None => panic
        | Some code =>
            if 255 <? code then make_error (OctalCharOutOfRange rest) sp sl sc
            else match char_from_u32 code with
                 | None => panic
                 | Some c => _ ← skip_bytes (str_len rest); mret c
                 end
        end
      else if bool_decide (head rest = Some 117) && (5 <=? str_len rest)%nat then
        match str_to (tail rest) 4 with
        | None => panic
        | Some hex_part =>
            if forallb is_ascii_hexdigit hex_part then
              match from_str_radix 0 u32_max 16 hex_part with
              | None => panic
              | Some code =>
                  match char_from_u32 code with
                  | None => make_error (InvalidCodePointInChar hex_part) sp sl sc
                  | Some c => _ ← skip_bytes 5; mret c
                  end
              end
            else make_error (UnknownCharName rest) sp sl sc
        end
      else if (str_len rest =? 1)%nat then
        match head source_rest with
        | None => panic
        | Some c => _ ← skip_bytes (len_utf8 c); mret c
        end
      else if bool_decide (rest = []) then
        match head source_rest with
        | Some c => _ ← skip_bytes (len_utf8 c); mret c
        | None => make_error EofAfterBackslash sp sl sc
        end
      else make_error (UnknownCharName rest) sp sl sc
  end.

Definition lex_char_literal (sp sl sc : nat) : lexM (Token * Span) :=
  _ ← advance;
  source_rest ← rest_of_source;
  let rest := take_while (fun c => char_is_alphanumeric c || (c =? 45)) source_rest in
  ch ← char_literal_value source_rest rest sp sl sc;
  emit (TChar ch) sp sl sc.

Definition lex_keyword (sp sl sc : nat) : lexM (Token * Span) :=
  _ ← advance;
  o ← peek;
  if decide (o = Some 58) then
    _ ← advance;
    name ← read_symbol_chars;
    match name with
    | [] => make_error EmptyAutoKeyword sp sl sc
    | _ => emit (TAutoKeyword name) sp sl sc
    end
  else
    name ← read_symbol_chars;
    match name with
    | [] => make_error EmptyKeyword sp sl sc
    | _ => emit (TKeyword name) sp sl sc
    end.

Definition peek_version_hash : lexM (option (list Z)) := fun l =>
  match str_from (source l) (pos l + 1) with
  | None => (Panic, l)
  | Some rest =>
      let hash := take_while is_ascii_hexdigit (take 40 rest) in
      if (7 <=? length hash)%nat then
        match str_from rest (length hash) with
        | None => (Panic, l)
        | Some after =>
            let is_delimited :=
              match head after with Some c => negb (is_ascii_hexdigit c) | None => true end in
            (Ok (if is_delimited then Some hash else None), l)
        end
      else (Ok None, l)
  end.

Fixpoint advance_n (n : nat) : lexM unit :=
  match n with
  | O => mret tt
  | S n' => _ ← advance; advance_n n'
  end.

Definition symbol_token (name : list Z) : Token :=
  if decide (name = lit "nil") then TNil
  else if decide (name = lit "true") then TBool true
  else if decide (name = lit "false") then TBool false
  else TSymbol name.

Definition lex_symbol (sp sl sc : nat) : lexM (Token * Span) :=
  name ← read_symbol_chars;
  o ← peek;
  name' ← (if decide (o = Some 64) then
             h ← peek_version_hash;
             match h with
             | Some hash =>
                 _ ← advance;
                 _ ← advance_n (length hash);
                 mret (name ++ [64] ++ hash)
             | None => mret name
             end
           else mret name);
  emit (symbol_token name') sp sl sc.

(** Unary minus on an [i64]. *)
Definition neg_i64 (n : Z) : lexM Z :=
  if n =? i64_min then (if overflow_checks then panic else mret i64_min) else mret (- n).

(** The digit loop of a radix literal: [to_digit] panics for a radix outside
    [2..=36]; the accumulator wraps at 128 bits. *)
Fixpoint radix_value (radix value : Z) (digits : list Z) (sp sl sc : nat) : lexM Z :=
  match digits with
  | [] => mret value
  | c :: ds =>
      if in_range 2 36 radix then
        match to_digit radix c with
        | None => make_error (InvalidRadixDigit c radix) sp sl sc
        | Some d => radix_value radix (wrap_u128 (wrap_u128 (value * radix) + d)) ds sp sl sc
        end
      else panic
  end.

Definition lex_hex (negative : bool) (sp sl sc : nat) : lexM (Token * Span) :=
  _ ← advance;
  hex ← read_while is_ascii_hexdigit;
  match hex with
  | [] => make_error ExpectedHexDigits sp sl sc
  | _ =>
      let value := default u128_max (from_str_radix 0 u128_max 16 hex) in
      if negative then
        if value <=? i64_max + 1 then emit (TInt (wrap_i64 (0 - wrap_i64 value))) sp sl sc
        else emit (TBigInt (45 :: udec value)) sp sl sc
      else if value <=? i64_max then emit (TInt (wrap_i64 value)) sp sl sc
      else emit (TBigInt (udec value)) sp sl sc
  end.

Definition lex_radix (negative : bool) (int_part : list Z) (sp sl sc : nat) : lexM (Token * Span) :=
  let radix := default 0 (parse_u32 int_part) in
  _ ← advance;
  digits ← read_while is_ascii_alphanumeric;
  value ← radix_value radix 0 digits sp sl sc;
  if negative then
    if value <=? i64_max + 1 then
      signed ← neg_i64 (wrap_i64 value);
      emit (TInt signed) sp sl sc
    else emit (TBigInt (45 :: udec value)) sp sl sc
  else if value <=? i64_max then emit (TInt (wrap_i64 value)) sp sl sc
  else emit (TBigInt (udec value)) sp sl sc.

Definition lex_octal (negative : bool) (int_part : list Z) (sp sl sc : nat) : lexM (Token * Span) :=
  if existsb (fun b => (b =? 56) || (b =? 57)) int_part then
    make_error (InvalidOctal ((if negative then [45] else []) ++ int_part)) sp sl sc
  else
    let value := default 0 (from_str_radix i64_min i64_max 8 int_part) in
    emit (TInt (if negative then - value else value)) sp sl sc.

Definition lex_float (raw0 : list Z) (sp sl sc : nat) : lexM (Token * Span) :=
  o ← peek;
  raw1 ← (if decide (o = Some 46) then
            _ ← advance;
            ds ← read_while is_ascii_digit;
            mret (raw0 ++ [46] ++ ds)
          else mret raw0);
  o2 ← peek;
  raw2 ← (if decide (o2 = Some 101 \/ o2 = Some 69) then
            _ ← advance;
            o3 ← peek;
            raw ← match o3 with
                  | Some s => if (s =? 43) || (s =? 45)
                              then _ ← advance; mret (raw1 ++ [101; s])
                              else mret (raw1 ++ [101])
                  | None => mret (raw1 ++ [101])
                  end;
            ds ← read_while is_ascii_digit;
            mret (raw ++ ds)
          else mret raw1);
  o4 ← peek;
  if decide (o4 = Some 77) then _ ← advance; emit (TBigDecimal raw2) sp sl sc
  else
    match parse_f64 raw2 with
    | Some val => emit (TFloat val) sp sl sc
    | None => make_error (InvalidFloat raw2) sp sl sc
    end.

Definition is_number_suffix (o : option Z) : bool :=
  match o with
  | Some c => (c =? 46) || (c =? 101) || (c =? 69) || (c =? 78) || (c =? 77) || (c =? 47)
  | None => false
  end.

Definition lex_sign : lexM bool :=
  o ← peek;
  match o with
  | Some c => if c =? 45 then _ ← advance; mret true
              else if c =? 43 then _ ← advance; mret false
              else mret false
  | None => mret false
  end.

(** [lex_number] after the sign and the integer part have been read. *)
Definition lex_number_tail (negative : bool) (int_part : list Z) (sp sl sc : nat) : lexM (Token * Span) :=
  let sign_str := if negative then [45] else [] in
  o ← peek;
  if bool_decide (int_part = [48]) && bool_decide (o = Some 120 \/ o = Some 88)
  then lex_hex negative sp sl sc
  else if decide (o = Some 114 \/ o = Some 82) then lex_radix negative int_part sp sl sc
  else if (1 <? length int_part)%nat && bool_decide (head int_part = Some 48)
          && negb (is_number_suffix o)
  then lex_octal negative int_part sp sl sc
  else if decide (o = Some 78) then _ ← advance; emit (TBigInt (sign_str ++ int_part)) sp sl sc
  else if decide (o = Some 77) then _ ← advance; emit (TBigDecimal (sign_str ++ int_part)) sp sl sc
  else if decide (o = Some 46 \/ o = Some 101 \/ o = Some 69)
  then lex_float (sign_str ++ int_part) sp sl sc
  else
    o2 ← (if decide (o = Some 47) then peek_next else mret None);
    if match o2 with Some c => is_ascii_digit c | None => false end then
      _ ← advance;
      denom ← read_while is_ascii_digit;
      emit (TRatio (sign_str ++ int_part ++ [47] ++ denom)) sp sl sc
    else
      let full := sign_str ++ int_part in
      match parse_i64 full with
      | Some n => emit (TInt n) sp sl sc
      | None => emit (TBigInt full) sp sl sc
      end.

Definition lex_number (sp sl sc : nat) : lexM (Token * Span) :=
  negative ← lex_sign;
  int_part ← read_while is_ascii_digit;
  lex_number_tail negative int_part sp sl sc.

(** * Token dispatch *)

Definition single (tok : Token) (sp sl sc : nat) : lexM (Token * Span) :=
  _ ← advance; emit tok sp sl sc.

Definition next_token : lexM (Token * Span) :=
  _ ← skip_whitespace_and_comments;
  l ← get_lexer;
  let sp := pos l in let sl := line l in let sc := col l in
  o ← peek;
  match o with
  | None => emit TEof sp sl sc
  | Some ch =>
      if ch =? 40 then single TLParen sp sl sc
      else if ch =? 41 then single TRParen sp sl sc
      else if ch =? 91 then single TLBracket sp sl sc
      else if ch =? 93 then single TRBracket sp sl sc
      else if ch =? 123 then single TLBrace sp sl sc
      else if ch =? 125 then single TRBrace sp sl sc
      else if ch =? 39 then single TQuote sp sl sc
      else if ch =? 96 then single TSyntaxQuote sp sl sc
      else if ch =? 64 then single TDeref sp sl sc
      else if ch =? 94 then single TMeta sp sl sc
      else if ch =? 126 then lex_unquote sp sl sc
      else if ch =? 35 then lex_hash sp sl sc
      else if ch =? 34 then lex_string sp sl sc
      else if ch =? 92 then lex_char_literal sp sl sc
      else if ch =? 58 then lex_keyword sp sl sc
      else if is_ascii_digit ch then lex_number sp sl sc
      else
        o2 ← (if (ch =? 43) || (ch =? 45) then peek_next else mret None);
        if match o2 with Some d => is_ascii_digit d | None => false end
        then lex_number sp sl sc
        else if is_symbol_start ch then lex_symbol sp sl sc
        else if (ch =? 43) || (ch =? 45) then lex_symbol sp sl sc
        else _ ← advance; make_error (UnexpectedCharacter ch) sp sl sc
  end.

(** [Iterator for Lexer]: the tokens up to the end of input. *)
Definition lexer_next : Lexer -> option (outcome ReadError (Token * Span)) * Lexer := fun l =>
  match next_token l with
  | (Ok (TEof, _), l') => (None, l')
  | (r, l') => (Some r, l')
  end.
End WithUnicode.

(** Tables that know ASCII only, to run the model on examples. *)
Definition ascii_tables : UnicodeTables :=
  {| char_is_alphanumeric := is_ascii_alphanumeric; char_is_alphanumeric_ascii := fun _ _ => eq_refl |}.

Definition dev_profile : BuildProfile := {| overflow_checks := true |}.
Definition release_profile : BuildProfile := {| overflow_checks := false |}.
