(* ===== verification/LexerFacts.v ===== *)
(** Facts about the lexer: the state after consuming a piece of text, the
    loops as functions of the remaining text, and the specification of
    [next_token]. *)
From S2P Require Import Prelude RustStd Token Lexer.
From stdpp Require Import strings.
Local Open Scope Z_scope.

(** * The cursor *)

(** [at_text l r]: the unread text is [r], and the cursor is on a character
    boundary. *)
Definition at_text (l : Lexer) (r : list Z) : Prop := str_from (source l) (pos l) = Some r.

(** Line and column after reading one character, and after reading a text. *)
Definition step_position (lc : nat * nat) (c : Z) : nat * nat :=
  if c =? 10 then (lc.1 + 1, 1)%nat else (lc.1, lc.2 + len_utf8 c)%nat.

Definition move_position (lc : nat * nat) (text : list Z) : nat * nat := fold_left step_position text lc.

(** The state after consuming [text]. *)
Definition moved (l : Lexer) (text : list Z) : Lexer :=
  mkLexer (source l) (file l) (pos l + str_len text)
    (move_position (line l, col l) text).1 (move_position (line l, col l) text).2.

Lemma len_utf8_pos c : (0 < len_utf8 c)%nat.
Proof. unfold len_utf8. repeat case_if; lia. Qed.

Lemma str_len_nil : str_len [] = 0%nat.
Proof. done. Qed.

Lemma str_len_cons c s : str_len (c :: s) = (len_utf8 c + str_len s)%nat.
Proof.
  unfold str_len. change (utf8_encode (c :: s)) with (utf8_encode_char c ++ utf8_encode s).
  by rewrite length_app, length_utf8_encode_char.
Qed.

Lemma str_len_app a b : str_len (a ++ b) = (str_len a + str_len b)%nat.
Proof.
  induction a as [|c a IH]; [done|]. cbn [app]. rewrite !str_len_cons, IH. lia.
Qed.

Lemma str_len_pos s : s <> [] -> (0 < str_len s)%nat.
Proof. destruct s as [|c s]; [done|]. rewrite str_len_cons. pose proof (len_utf8_pos c). lia. Qed.

Lemma str_len_ascii s : Forall (fun c => c < 128) s -> str_len s = length s.
Proof.
  induction 1 as [|c s Hc _ IH]; [done|]. rewrite str_len_cons, IH. unfold len_utf8.
  destruct (Z.ltb_spec c 128); [done | lia].
Qed.

Lemma str_from_app a b : str_from (a ++ b) (str_len a) = Some b.
Proof.
  induction a as [|c a IH]; [by destruct b|]. cbn [app]. rewrite str_len_cons.
  pose proof (len_utf8_pos c) as Hc. destruct (len_utf8 c + str_len a)%nat as [|n] eqn:E; [lia|].
  cbn [str_from]. rewrite <- E.
  replace (len_utf8 c <=? len_utf8 c + str_len a)%nat with true by (symmetry; apply Nat.leb_le; lia).
  by replace (len_utf8 c + str_len a - len_utf8 c)%nat with (str_len a) by lia.
Qed.

Lemma str_from_inv s n r : str_from s n = Some r -> exists pre, s = pre ++ r /\ n = str_len pre.
Proof.
  revert n. induction s as [|c s IH]; intros [|n]; cbn [str_from]; try done.
  - intros [= <-]. by exists [].
  - intros [= <-]. by exists [].
  - case_if; [|done]. bool_hyps. intros H. destruct (IH _ H) as (pre & -> & Hn).
    exists (c :: pre). rewrite str_len_cons. split; [done|]. lia.
Qed.

Lemma str_from_add s n t m : str_from s n = Some t -> str_from s (n + m) = str_from t m.
Proof.
  intros (pre & -> & ->)%str_from_inv. induction pre as [|c pre IH]; [done|].
  cbn [app]. rewrite str_len_cons. pose proof (len_utf8_pos c) as Hc.
  destruct (len_utf8 c + str_len pre + m)%nat as [|n] eqn:E; [lia|].
  cbn [str_from]. rewrite <- E.
  replace (len_utf8 c <=? len_utf8 c + str_len pre + m)%nat with true by (symmetry; apply Nat.leb_le; lia).
  by replace (len_utf8 c + str_len pre + m - len_utf8 c)%nat with (str_len pre + m)%nat by lia.
Qed.

Lemma move_position_app lc a b :
  move_position lc (a ++ b) = move_position (move_position lc a) b.
Proof. apply fold_left_app. Qed.

Lemma moved_nil l : moved l [] = l.
Proof. destruct l. unfold moved. simpl. by rewrite str_len_nil, Nat.add_0_r. Qed.

Lemma moved_moved l a b : moved (moved l a) b = moved l (a ++ b).
Proof.
  unfold moved. simpl. rewrite move_position_app, str_len_app, Nat.add_assoc.
  by destruct (move_position (line l, col l) a).
Qed.

Lemma at_text_moved l a r : at_text l (a ++ r) -> at_text (moved l a) r.
Proof.
  unfold at_text. simpl. intros H. rewrite (str_from_add _ _ _ _ H). apply str_from_app.
Qed.

Lemma at_text_cons l c r : at_text l (c :: r) -> at_text (moved l [c]) r.
Proof. apply (at_text_moved l [c] r). Qed.

Lemma at_text_new src fl : at_text (Lexer_new src fl) src.
Proof. unfold at_text. by destruct src. Qed.

Lemma at_text_source l r : at_text l r -> exists pre, source l = pre ++ r /\ pos l = str_len pre.
Proof. apply str_from_inv. Qed.

Lemma at_text_fuel l r : at_text l r -> (length r < loop_fuel l)%nat.
Proof.
  intros (pre & E & _)%at_text_source. unfold loop_fuel. rewrite E, length_app. lia.
Qed.

Lemma source_moved l a : source (moved l a) = source l.
Proof. done. Qed.

Lemma loop_fuel_moved l a : loop_fuel (moved l a) = loop_fuel l.
Proof. done. Qed.

(** A text without newlines only moves the column. *)
Lemma move_position_no_newline lc text :
  Forall (fun c => c <> 10) text -> move_position lc text = (lc.1, lc.2 + str_len text)%nat.
Proof.
  intros H. revert lc. induction H as [|c text Hc _ IH]; intros lc.
  - simpl. rewrite str_len_nil, Nat.add_0_r. by destruct lc.
  - cbn [move_position fold_left]. fold (move_position (step_position lc c) text).
    rewrite IH, str_len_cons. unfold step_position. destruct (Z.eqb_spec c 10); [done|].
    simpl. f_equal. lia.
Qed.

(** * Primitives as functions of the remaining text *)

Section Primitives.
Context (l : Lexer) (r : list Z) (Hat : at_text l r).

Lemma rest_of_source_at : rest_of_source l = (Ok r, l).
Proof. unfold rest_of_source. by rewrite Hat. Qed.

Lemma peek_at : peek l = (Ok (head r), l).
Proof. unfold peek, mbind, stateM_bind. by rewrite rest_of_source_at. Qed.

Lemma peek_next_at : peek_next l = (Ok (head (tail r)), l).
Proof. unfold peek_next, mbind, stateM_bind. by rewrite rest_of_source_at. Qed.
End Primitives.

Lemma advance_nil l : at_text l [] -> advance l = (Ok None, l).
Proof. intros H. unfold advance, mbind, stateM_bind. by rewrite (peek_at _ _ H). Qed.

Lemma advance_cons l c r : at_text l (c :: r) -> advance l = (Ok (Some c), moved l [c]).
Proof.
  intros H. unfold advance, mbind, stateM_bind. rewrite (peek_at _ _ H). simpl.
  unfold moved, move_position, step_position, set_cursor. simpl. rewrite str_len_cons, str_len_nil, Nat.add_0_r.
  by destruct (c =? 10).
Qed.

Lemma span_from_at l sp sl sc :
  span_from sp sl sc l = (Ok (mkSpan (file l) sp (pos l) sl sc), l).
Proof. done. Qed.

Lemma emit_at l tok sp sl sc :
  emit tok sp sl sc l = (Ok (tok, mkSpan (file l) sp (pos l) sl sc), l).
Proof. done. Qed.

Lemma make_error_at {A : Type} l msg sp sl sc :
  make_error (A := A) msg sp sl sc l = (Err (mkReadError msg (mkSpan (file l) sp (pos l) sl sc)), l).
Proof. done. Qed.

(** Sequencing after a computation whose result is known. *)
Lemma bind_ok {A B : Type} (m : lexM A) (k : A -> lexM B) l a l' :
  m l = (Ok a, l') -> (m ≫= k) l = k a l'.
Proof. intros H. unfold mbind, stateM_bind. by rewrite H. Qed.

Fixpoint drop_while (p : Z -> bool) (s : list Z) : list Z :=
  match s with
  | c :: t => if p c then drop_while p t else s
  | [] => []
  end.

Lemma take_drop_while p s : take_while p s ++ drop_while p s = s.
Proof. induction s as [|c s IH]; simpl; [done|]. destruct (p c); simpl; congruence. Qed.

Lemma take_while_forall p s : Forall (fun c => p c = true) (take_while p s).
Proof. induction s as [|c s IH]; simpl; [done|]. destruct (p c) eqn:E; auto. Qed.

Lemma take_while_app p a b :
  Forall (fun c => p c = true) a -> (forall c, head b = Some c -> p c = false) ->
  take_while p (a ++ b) = a.
Proof.
  intros Ha Hb. induction Ha as [|c a Hc _ IH]; simpl.
  - destruct b as [|c b]; [done|]. simpl. by rewrite (Hb c).
  - rewrite Hc. by f_equal.
Qed.

Lemma read_while_loop_at fuel p buf l r :
  at_text l r -> (length r < fuel)%nat ->
  read_while_loop fuel p buf l = (Ok (buf ++ take_while p r), moved l (take_while p r)).
Proof.
  revert buf l r. induction fuel as [|f IH]; intros buf l r Hat Hf; [lia|].
  cbn [read_while_loop]. rewrite (bind_ok _ _ _ _ _ (peek_at _ _ Hat)).
  destruct r as [|c r]; simpl.
  - by rewrite app_nil_r, moved_nil.
  - destruct (p c).
    + rewrite (bind_ok _ _ _ _ _ (advance_cons _ _ _ Hat)).
      rewrite (IH _ _ r) by (apply at_text_moved; done) || (simpl in Hf; lia).
      rewrite moved_moved, <- app_assoc. done.
    + by rewrite app_nil_r, moved_nil.
Qed.

Lemma read_while_at p l r :
  at_text l r -> read_while p l = (Ok (take_while p r), moved l (take_while p r)).
Proof.
  intros Hat. unfold read_while. erewrite bind_ok by reflexivity.
  rewrite (read_while_loop_at _ _ _ _ r); [done | done | by apply at_text_fuel].
Qed.

(** * Whitespace and comments *)

(** The text up to and including the next newline. *)
Fixpoint line_text (r : list Z) : list Z :=
  match r with
  | [] => []
  | c :: t => if c =? 10 then [c] else c :: line_text t
  end.

(** What whitespace and comments cover, from ordinary text or inside a
    comment. *)
Fixpoint blank_prefix (in_comment : bool) (r : list Z) : list Z :=
  match r with
  | [] => []
  | c :: t =>
      if in_comment then c :: blank_prefix (negb (c =? 10)) t
      else if is_lex_whitespace c then c :: blank_prefix false t
      else if c =? 59 then c :: blank_prefix true t
      else []
  end.

(** A [#!] line counts as a comment at the start of the file. *)
Definition skip_prefix (at_start : bool) (r : list Z) : list Z :=
  match r with
  | 35 :: 33 :: _ => if at_start then blank_prefix true r else []
  | _ => blank_prefix false r
  end.

Lemma line_text_prefix r : exists t, r = line_text r ++ t /\
  blank_prefix true r = line_text r ++ blank_prefix false t.
Proof.
  induction r as [|c r (t & E & IH)]; [by exists []|]. simpl.
  destruct (c =? 10); simpl; [by exists r|]. exists t. split; congruence.
Qed.

Lemma blank_prefix_prefix b r : exists t, r = blank_prefix b r ++ t.
Proof.
  revert b. induction r as [|c r IH]; intros b; [by exists []|]. simpl.
  destruct b; [destruct (IH (negb (c =? 10))) as [t Ht]; exists t; simpl; by f_equal|].
  repeat case_if; simpl; [destruct (IH false) as [t Ht] | destruct (IH true) as [t Ht] | by exists (c :: r)];
    exists t; by f_equal.
Qed.

Lemma skip_prefix_prefix b r : exists t, r = skip_prefix b r ++ t.
Proof.
  unfold skip_prefix. repeat case_match; try apply blank_prefix_prefix; by eexists.
Qed.

Lemma skip_line_at fuel l r :
  at_text l r -> (length r < fuel)%nat -> skip_line fuel l = (Ok tt, moved l (line_text r)).
Proof.
  revert l r. induction fuel as [|f IH]; intros l r Hat Hf; [lia|]. cbn [skip_line].
  destruct r as [|c r]; simpl.
  - rewrite (bind_ok _ _ _ _ _ (advance_nil _ Hat)). by rewrite moved_nil.
  - rewrite (bind_ok _ _ _ _ _ (advance_cons _ _ _ Hat)). destruct (c =? 10); [done|].
    rewrite (IH _ r); [by rewrite moved_moved | by apply at_text_moved | simpl in Hf; lia].
Qed.

Lemma pos_moved_nonzero l c r : at_text l (c :: r) -> (pos (moved l [c]) =? 0)%nat = false.
Proof.
  intros _. apply Nat.eqb_neq. simpl. rewrite str_len_cons. pose proof (len_utf8_pos c). lia.
Qed.

Lemma line_text_shorter c r t : c :: r = line_text (c :: r) ++ t -> (length t <= length r)%nat.
Proof.
  intros E. apply (f_equal (@length Z)) in E. rewrite length_app in E. simpl in E.
  destruct (c =? 10); simpl in E; lia.
Qed.

(** [skips f]: the loop with fuel [f] skips as [blank_prefix] says, away from
    the start of the file. *)
Definition skips (f : nat) : Prop := forall l r,
  at_text l r -> (pos l =? 0)%nat = false -> (length r < f)%nat ->
  skip_loop f l = (Ok tt, moved l (blank_prefix false r)).

(** Skipping a comment line and going on. *)
Lemma skip_comment_then f l c r :
  skips f -> at_text l (c :: r) -> (length r < f)%nat ->
  (skip_line (loop_fuel l) ≫= fun _ => skip_loop f) l = (Ok tt, moved l (blank_prefix true (c :: r))).
Proof.
  intros IH Hat Hf.
  erewrite bind_ok by (eapply skip_line_at; [exact Hat | by apply at_text_fuel]).
  destruct (line_text_prefix (c :: r)) as (t & Et & Eb).
  pose proof (line_text_shorter _ _ _ Et). rewrite Eb, (IH _ t).
  - by rewrite moved_moved.
  - apply at_text_moved. by rewrite <- Et.
  - apply Nat.eqb_neq. simpl. pose proof (len_utf8_pos c).
    destruct (c =? 10); rewrite str_len_cons; lia.
  - lia.
Qed.

(** Skipping a whitespace character and going on. *)
Lemma skip_space_then f l c r :
  skips f -> at_text l (c :: r) -> (length r < f)%nat ->
  (advance ≫= fun _ => skip_loop f) l = (Ok tt, moved l (c :: blank_prefix false r)).
Proof.
  intros IH Hat Hf. rewrite (bind_ok _ _ _ _ _ (advance_cons _ _ _ Hat)).
  rewrite (IH _ r); [by rewrite moved_moved | by apply at_text_moved | | done].
  by eapply pos_moved_nonzero.
Qed.

Lemma blank_prefix_semicolon r : blank_prefix true (59 :: r) = 59 :: blank_prefix true r.
Proof. done. Qed.

Lemma skip_loop_inside f : skips f.
Proof.
  induction f as [|f IH]; intros l r Hat Hpos Hf; [lia|]. cbn [skip_loop].
  erewrite bind_ok by reflexivity. rewrite (bind_ok _ _ _ _ _ (peek_at _ _ Hat)).
  destruct r as [|c r]; cbn [head blank_prefix]; [by rewrite moved_nil|]. simpl in Hf.
  rewrite Hpos, andb_false_r. case_if; [|case_if].
  - by rewrite (skip_space_then _ _ _ r) by (done || lia).
  - bool_hyps. subst. by rewrite (skip_comment_then _ _ _ r) by (done || lia).
  - by rewrite moved_nil.
Qed.

Lemma skip_prefix_other b c r : c <> 35 -> skip_prefix b (c :: r) = blank_prefix false (c :: r).
Proof. intros Hc. unfold skip_prefix. repeat case_match; simplify_eq; done. Qed.

Lemma skip_prefix_hash b r : head r <> Some 33 -> skip_prefix b (35 :: r) = [].
Proof. intros Hc. unfold skip_prefix. repeat case_match; simplify_eq; done. Qed.

Lemma skip_prefix_inside r : skip_prefix false r = blank_prefix false r.
Proof. unfold skip_prefix. repeat case_match; simplify_eq; done. Qed.

Lemma skip_whitespace_at l r :
  at_text l r ->
  skip_whitespace_and_comments l = (Ok tt, moved l (skip_prefix (pos l =? 0)%nat r)).
Proof.
  intros Hat. unfold skip_whitespace_and_comments. erewrite bind_ok by reflexivity.
  pose proof (at_text_fuel _ _ Hat) as Hf.
  destruct (pos l =? 0)%nat eqn:Hpos; [|by rewrite skip_prefix_inside, (skip_loop_inside _ _ r)].
  destruct (loop_fuel l) as [|f] eqn:El; [done|]. cbn [skip_loop].
  erewrite bind_ok by reflexivity. rewrite (bind_ok _ _ _ _ _ (peek_at _ _ Hat)).
  destruct r as [|c r]; cbn [head]; [by rewrite moved_nil|]. simpl in Hf.
  rewrite Hpos, andb_true_r. destruct (Z.eqb_spec c 35) as [->|Hc].
  - rewrite (bind_ok _ _ _ _ _ (peek_next_at _ _ Hat)). cbn [tail].
    destruct (decide (head r = Some 33)) as [E|E]; [|by rewrite skip_prefix_hash, moved_nil].
    destruct r as [|c2 r]; simpl in E; simplify_eq. cbn [skip_prefix].
    by rewrite (skip_comment_then _ _ _ _ (skip_loop_inside f) Hat) by lia.
  - rewrite skip_prefix_other by done. cbn [blank_prefix]. case_if; [|case_if].
    + by rewrite (skip_space_then _ _ _ _ (skip_loop_inside f) Hat) by lia.
    + bool_hyps. subst. by rewrite (skip_comment_then _ _ _ _ (skip_loop_inside f) Hat) by lia.
    + by rewrite moved_nil.
Qed.

(** * A logic for token lexers *)

(** [safe m l r Q P]: run from [l] with [r] unread, [m] terminates having
    consumed a prefix [c] of [r]; it returns a value in [Q c], or an error
    whose span runs from the token's start to the cursor, or panics, which
    requires [P]. *)
Section Safe.
Context (sp sl sc : nat).

Definition safe {A : Type} (m : lexM A) (l : Lexer) (r : list Z)
    (Q : list Z -> A -> Prop) (P : Prop) : Prop :=
  exists c r', r = c ++ r' /\
  match m l with
  | (Ok a, l') => l' = moved l c /\ Q c a
  | (Err e, l') => l' = moved l c /\ err_span e = mkSpan (file l) sp (pos l') sl sc
  | (Panic, _) => P
  | (OutOfFuel, _) => False
  end.

Lemma safe_bind {A B : Type} (m : lexM A) (k : A -> lexM B) l r Q R P :
  at_text l r -> safe m l r Q P ->
  (forall c a r', r = c ++ r' -> at_text (moved l c) r' -> Q c a ->
     safe (k a) (moved l c) r' (fun c2 b => R (c ++ c2) b) P) ->
  safe (m ≫= k) l r R P.
Proof.
  intros Hat (c & r' & -> & Hm) Hk. unfold safe, mbind, stateM_bind.
  destruct (m l) as [[a|e| |] l'] eqn:E; [|by exists c, r'| |done].
  - destruct Hm as [-> HQ].
    destruct (Hk c a r' eq_refl (at_text_moved _ _ _ Hat) HQ) as (c2 & r2 & -> & H).
    exists (c ++ c2), r2. split; [by rewrite <- app_assoc|].
    destruct (k a (moved l c)) as [[b|e| |] l'']; try done; rewrite moved_moved in H; done.
  - exists [], (c ++ r'). done.
Qed.

Lemma safe_mono {A : Type} (m : lexM A) l r (Q Q' : list Z -> A -> Prop) (P P' : Prop) :
  safe m l r Q P -> (forall c r' a, r = c ++ r' -> Q c a -> Q' c a) -> (P -> P') -> safe m l r Q' P'.
Proof.
  intros (c & r' & -> & H) HQ HP. exists c, r'. split; [done|].
  destruct (m l) as [[a|e| |] l']; naive_solver.
Qed.

Lemma safe_ret {A : Type} (a : A) l r Q P : Q [] a -> safe (mret a) l r Q P.
Proof. intros H. exists [], r. unfold mret, stateM_ret. by rewrite moved_nil. Qed.

Lemma safe_peek l r Q P : at_text l r -> Q [] (head r) -> safe peek l r Q P.
Proof. intros Hat HQ. exists [], r. by rewrite (peek_at _ _ Hat), moved_nil. Qed.

Lemma safe_peek_next l r Q P : at_text l r -> Q [] (head (tail r)) -> safe peek_next l r Q P.
Proof. intros Hat HQ. exists [], r. by rewrite (peek_next_at _ _ Hat), moved_nil. Qed.

Lemma safe_rest l r Q P : at_text l r -> Q [] r -> safe rest_of_source l r Q P.
Proof. intros Hat HQ. exists [], r. by rewrite (rest_of_source_at _ _ Hat), moved_nil. Qed.

Lemma safe_get l r Q P : Q [] l -> safe get_lexer l r Q P.
Proof. intros H. exists [], r. by rewrite moved_nil. Qed.

Lemma safe_advance l r (Q : list Z -> option Z -> Prop) P :
  at_text l r ->
  (r = [] -> Q [] None) -> (forall c t, r = c :: t -> Q [c] (Some c)) -> safe advance l r Q P.
Proof.
  intros Hat H0 H1. destruct r as [|c t].
  - exists [], []. rewrite (advance_nil _ Hat), moved_nil. auto.
  - exists [c], t. rewrite (advance_cons _ _ _ Hat). eauto.
Qed.

Lemma safe_read_while p l r (Q : list Z -> list Z -> Prop) P :
  at_text l r -> Q (take_while p r) (take_while p r) -> safe (read_while p) l r Q P.
Proof.
  intros Hat HQ. exists (take_while p r), (drop_while p r).
  rewrite take_drop_while, (read_while_at _ _ _ Hat). done.
Qed.

Lemma safe_error {A : Type} msg l r (Q : list Z -> A -> Prop) P :
  safe (make_error msg sp sl sc) l r Q P.
Proof. exists [], r. rewrite make_error_at, moved_nil. done. Qed.

Lemma safe_panic {A : Type} l r (Q : list Z -> A -> Prop) (P : Prop) : P -> safe panic l r Q P.
Proof. intros H. by exists [], r. Qed.

End Safe.
