(* ===== verification/LexerSpec.v ===== *)
(** The specification of [next_token]: every token and every error is located
    exactly, the lexer makes progress, and the inputs on which it panics. *)
From S2P Require Import Prelude RustStd Token Lexer LexerFacts.
From stdpp Require Import strings.
Local Open Scope Z_scope.

(** * Token lexers *)

Section Lexes.
Context (sp sl sc : nat).

(** What holds of every token but the end of input: an integer fits [i64], a
    symbolic value is one of the three. *)
Definition good_token (tok : Token) : Prop :=
  match tok with
  | TEof => False
  | TInt n => is_i64 n
  | TSymbolic name => name = lit "Inf" \/ name = lit "-Inf" \/ name = lit "NaN"
  | _ => True
  end.

(** A token whose span runs from the token's start to the end of the consumed
    text [c]. *)
Definition spans (l : Lexer) (c : list Z) (ts : Token * Span) : Prop :=
  good_token ts.1 /\ ts.2 = mkSpan (file l) sp (pos l + str_len c) sl sc.

Definition covers (l : Lexer) (c : list Z) (ts : Token * Span) : Prop := c <> [] /\ spans l c ts.

(** [m] lexes the rest of a token; [P] is implied by a panic. *)
Definition lexes (m : lexM (Token * Span)) (l : Lexer) (r : list Z) (P : Prop) : Prop :=
  safe sp sl sc m l r (spans l) P.

(** Likewise, and consumes at least one character. *)
Definition lexes_some (m : lexM (Token * Span)) (l : Lexer) (r : list Z) (P : Prop) : Prop :=
  safe sp sl sc m l r (covers l) P.

Lemma spans_moved l a c ts : spans (moved l a) c ts -> spans l (a ++ c) ts.
Proof. unfold spans. simpl. rewrite str_len_app, Nat.add_assoc. done. Qed.

Lemma lexes_emit tok l r P : good_token tok -> lexes (emit tok sp sl sc) l r P.
Proof.
  intros Ht. exists [], r. rewrite emit_at, moved_nil. split; [done|]. split; [done|].
  split; [done|]. simpl. by rewrite Nat.add_0_r.
Qed.

Lemma lexes_error msg l r P : lexes (make_error msg sp sl sc) l r P.
Proof. apply safe_error. Qed.

Lemma lexes_bind {A : Type} (m : lexM A) k l r Q P :
  at_text l r -> safe sp sl sc m l r Q P ->
  (forall c a r', r = c ++ r' -> at_text (moved l c) r' -> Q c a -> lexes (k a) (moved l c) r' P) ->
  lexes (m ≫= k) l r P.
Proof.
  intros Hat Hm Hk. eapply safe_bind; [done | done |]. intros c a r' E Hat' HQ.
  eapply safe_mono; [by apply Hk | | done]. intros c2 r2 ts _. apply spans_moved.
Qed.

Lemma lexes_peek k l r P : at_text l r -> lexes (k (head r)) l r P -> lexes (peek ≫= k) l r P.
Proof.
  intros Hat H. unfold lexes, safe. by rewrite (bind_ok _ _ _ _ _ (peek_at _ _ Hat)).
Qed.

Lemma lexes_get k l r P : lexes (k l) l r P -> lexes (get_lexer ≫= k) l r P.
Proof. done. Qed.

Lemma lexes_rest k l r P : at_text l r -> lexes (k r) l r P -> lexes (rest_of_source ≫= k) l r P.
Proof.
  intros Hat H. unfold lexes, safe. by rewrite (bind_ok _ _ _ _ _ (rest_of_source_at _ _ Hat)).
Qed.

Lemma lexes_advance k l c r P :
  at_text l (c :: r) -> (at_text (moved l [c]) r -> lexes (k (Some c)) (moved l [c]) r P) ->
  lexes (advance ≫= k) l (c :: r) P.
Proof.
  intros Hat H. eapply lexes_bind with (Q := fun c' o => c' = [c] /\ o = Some c); [done | |].
  - apply safe_advance; [done | done |]. by intros ?? [= -> ->].
  - intros ?? r' E Hat' [-> ->]. injection E as <-. by apply H.
Qed.

(** A first step that is known to consume [c]. *)
Lemma lexes_some_run {A : Type} (m : lexM A) k l a c r P :
  m l = (Ok a, moved l c) -> c <> [] -> lexes (k a) (moved l c) r P ->
  lexes_some (m ≫= k) l (c ++ r) P.
Proof.
  intros Hm Hc (c2 & r2 & -> & H). unfold lexes_some, safe. rewrite (bind_ok _ _ _ _ _ Hm).
  exists (c ++ c2), r2. split; [by rewrite <- app_assoc|]. rewrite <- moved_moved.
  destruct (k a (moved l c)) as [[ts|e| |] l']; try done.
  destruct H as [-> H]. split; [done|]. split; [by destruct c | by apply spans_moved].
Qed.

Lemma lexes_some_advance k l c r P :
  at_text l (c :: r) -> (at_text (moved l [c]) r -> lexes (k (Some c)) (moved l [c]) r P) ->
  lexes_some (advance ≫= k) l (c :: r) P.
Proof.
  intros Hat H. eapply (lexes_some_run advance k l (Some c) [c]); [|done|].
  - by eapply advance_cons.
  - by apply H, at_text_cons.
Qed.

Lemma lexes_read_while p k l r P :
  at_text l r ->
  (forall b, r = take_while p r ++ b -> at_text (moved l (take_while p r)) b ->
     lexes (k (take_while p r)) (moved l (take_while p r)) b P) ->
  lexes (read_while p ≫= k) l r P.
Proof.
  intros Hat H. eapply lexes_bind with (Q := fun c o => c = take_while p r /\ o = c); [done | |].
  - by apply safe_read_while.
  - intros c o r' E Hat' [-> ->]. by apply H.
Qed.

(** A lexer that starts by reading a non-empty run of characters. *)
Lemma lexes_some_read_while p k l c r P :
  at_text l (c :: r) -> p c = true ->
  (forall a b, a = take_while p (c :: r) -> c :: r = a ++ b -> at_text (moved l a) b -> lexes (k a) (moved l a) b P) ->
  lexes_some (read_while p ≫= k) l (c :: r) P.
Proof.
  intros Hat Hc H. pose proof (take_drop_while p (c :: r)) as E. rewrite <- E at 1.
  eapply lexes_some_run; [by apply read_while_at | simpl; by rewrite Hc |].
  apply H; [done | done|]. apply at_text_moved. by rewrite E.
Qed.
End Lexes.

Create HintDb lexer.
#[export] Hint Resolve lexes_error at_text_moved : lexer.
#[export] Hint Extern 1 (lexes _ _ _ (emit _ _ _ _) _ _ _) => apply lexes_emit; first [exact I | done | auto with lexer] : lexer.

Lemma wrap_i64_good n : good_token (TInt (wrap_i64 n)).
Proof.
  simpl. unfold is_i64, wrap_i64, i64_min, i64_max.
  pose proof (Z.mod_pos_bound (n + 2 ^ 63) (2 ^ 64)). lia.
Qed.

Lemma from_str_radix_range lo hi radix s v : from_str_radix lo hi radix s = Some v -> lo <= v <= hi.
Proof.
  unfold from_str_radix. destruct (match s with [] => _ | _ => _ end) as [neg ds].
  destruct ds; [done|]. destruct (digits_value _ _ _); [|done]. case_if; [|done].
  bool_hyps. by intros [= <-].
Qed.

#[export] Hint Resolve wrap_i64_good : lexer.

(** * The sub-lexers *)

Section SubLexers.
Context (sp sl sc : nat).

Lemma lex_unquote_ok l c r : at_text l (c :: r) -> lexes_some sp sl sc (lex_unquote sp sl sc) l (c :: r) False.
Proof.
  intros Hat. apply lexes_some_advance; [done|]. intros Hat1. apply lexes_peek; [done|].
  case_decide as E; [|auto with lexer]. destruct r as [|c2 r]; simplify_eq/=.
  apply lexes_advance; auto with lexer.
Qed.

(** Loops that accumulate the body of a string or a regex. *)
Definition scans (m : lexM (list Z)) (l : Lexer) (r : list Z) : Prop :=
  safe sp sl sc m l r (fun _ _ => True) False.

Lemma scans_bind {A : Type} (m : lexM A) k l r Q :
  at_text l r -> safe sp sl sc m l r Q False ->
  (forall c a r', r = c ++ r' -> at_text (moved l c) r' -> Q c a -> scans (k a) (moved l c) r') ->
  scans (m ≫= k) l r.
Proof. intros Hat Hm Hk. by eapply safe_bind. Qed.

Lemma scans_advance k l r :
  at_text l r ->
  (r = [] -> scans (k None) l []) ->
  (forall c t, r = c :: t -> at_text (moved l [c]) t -> scans (k (Some c)) (moved l [c]) t) ->
  scans (advance ≫= k) l r.
Proof.
  intros Hat H0 H1. destruct r as [|c t].
  - unfold scans, safe. rewrite (bind_ok _ _ _ _ _ (advance_nil _ Hat)). by apply H0.
  - eapply scans_bind with (Q := fun c' o => c' = [c] /\ o = Some c); [done | |].
    + apply safe_advance; [done | done |]. by intros ?? [= -> ->].
    + intros ?? r' E Hat' [-> ->]. injection E as <-. by apply H1.
Qed.

Lemma scans_error msg l r : scans (make_error msg sp sl sc) l r.
Proof. apply safe_error. Qed.

Lemma scans_ret buf l r : scans (mret buf) l r.
Proof. by apply safe_ret. Qed.

Hint Resolve scans_error scans_ret : lexer.

Lemma lex_regex_loop_ok fuel buf l r :
  at_text l r -> (length r < fuel)%nat -> scans (lex_regex_loop fuel buf sp sl sc) l r.
Proof.
  revert buf l r. induction fuel as [|f IH]; intros buf l r Hat Hf; [lia|]. cbn [lex_regex_loop].
  apply scans_advance; [done | auto with lexer |]. intros c t -> Hat1. simpl in Hf.
  repeat case_if; [auto with lexer | | apply IH; [done | lia]].
  apply scans_advance; [done | auto with lexer |]. intros c2 t2 -> Hat2. simpl in Hf.
  apply IH; [done | lia].
Qed.

(** The digits of a [\u] escape are exactly what is needed to read them as a
    number. *)
Lemma read_hex_digits_ok n hex l r :
  at_text l r ->
  safe sp sl sc (read_hex_digits n hex sp sl sc) l r
    (fun c a => a = hex ++ c /\ length c = n /\ Forall (fun x => is_ascii_hexdigit x = true) c) False.
Proof.
  revert hex l r. induction n as [|n IH]; intros hex l r Hat; cbn [read_hex_digits].
  - apply safe_ret. by rewrite app_nil_r.
  - destruct r as [|x r].
    + unfold safe. rewrite (bind_ok _ _ _ _ _ (advance_nil _ Hat)). apply safe_error.
    + eapply safe_bind with (Q := fun c' o => c' = [x] /\ o = Some x); [done | |].
      { apply safe_advance; [done | done |]. by intros ?? [= -> ->]. }
      intros ?? r' E Hat' [-> ->]. injection E as <-. cbv beta iota.
      case_if; [|apply safe_error].
      eapply safe_mono; [by apply IH | | done]. intros c2 r2 a _ (-> & <- & HF).
      rewrite <- app_assoc. split_and!; [done | done | by constructor].
Qed.

Lemma read_unicode_escape_ok l r :
  at_text l r -> safe sp sl sc (read_unicode_escape sp sl sc) l r (fun _ _ => True) False.
Proof.
  intros Hat. eapply safe_bind; [done | by apply read_hex_digits_ok |].
  intros c a r' E Hat' (-> & Hlen & HF). simpl.
  destruct (from_str_radix_some 0 u32_max 16 c) as (v & -> & _); [done | lia | | | |].
  - by destruct c.
  - eapply Forall_impl; [exact HF|]. intros x. apply hexdigit_to_digit.
  - rewrite Hlen. vm_compute. done.
  - case_match; [by apply safe_ret | apply safe_error].
Qed.

Lemma lex_string_loop_ok fuel buf l r :
  at_text l r -> (length r < fuel)%nat -> scans (lex_string_loop fuel buf sp sl sc) l r.
Proof.
  revert buf l r. induction fuel as [|f IH]; intros buf l r Hat Hf; [lia|]. cbn [lex_string_loop].
  apply scans_advance; [done | auto with lexer |]. intros c t -> Hat1. simpl in Hf.
  repeat case_if; [auto with lexer | | apply IH; [done | lia]].
  apply scans_advance; [done | auto with lexer |]. intros c2 t2 -> Hat2. simpl in Hf.
  repeat case_if; try (apply IH; [done | lia]); [|auto with lexer].
  eapply scans_bind; [done | by apply read_unicode_escape_ok |].
  intros esc a r' -> Hat3 _. rewrite length_app in Hf. apply IH; [done | lia].
Qed.

(** A delimited body followed by its token. *)
Lemma lexes_body (loop : nat -> lexM (list Z)) tok l c r :
  at_text l (c :: r) -> (forall buf, good_token (tok buf)) ->
  (forall fuel l' r', at_text l' r' -> (length r' < fuel)%nat -> scans (loop fuel) l' r') ->
  lexes sp sl sc (_ ← advance; l' ← get_lexer; buf ← loop (loop_fuel l'); emit (tok buf) sp sl sc) l (c :: r) False
  /\ lexes_some sp sl sc (_ ← advance; l' ← get_lexer; buf ← loop (loop_fuel l'); emit (tok buf) sp sl sc) l (c :: r) False.
Proof.
  intros Hat Htok Hloop.
  assert (Hrest : at_text (moved l [c]) r -> lexes sp sl sc
    (l' ← get_lexer; buf ← loop (loop_fuel l'); emit (tok buf) sp sl sc) (moved l [c]) r False).
  { intros Hat1. apply lexes_get. eapply lexes_bind; [done | apply Hloop; [done | by apply at_text_fuel] |].
    intros ??????. apply lexes_emit, Htok. }
  split; [by apply lexes_advance | by apply lexes_some_advance].
Qed.

Lemma lex_string_ok l c r : at_text l (c :: r) -> lexes_some sp sl sc (lex_string sp sl sc) l (c :: r) False.
Proof.
  intros Hat. apply (lexes_body (fun f => lex_string_loop f [] sp sl sc)); [done | done |].
  intros. by apply lex_string_loop_ok.
Qed.

Lemma lex_regex_ok l c r : at_text l (c :: r) -> lexes sp sl sc (lex_regex sp sl sc) l (c :: r) False.
Proof.
  intros Hat. apply (lexes_body (fun f => lex_regex_loop f [] sp sl sc)); [done | done |].
  intros. by apply lex_regex_loop_ok.
Qed.

Lemma lex_symbolic_ok l c r : at_text l (c :: r) -> lexes sp sl sc (lex_symbolic sp sl sc) l (c :: r) False.
Proof.
  intros Hat. apply lexes_advance; [done|]. intros Hat1. apply lexes_read_while; [done|].
  intros b Eb Hat2. case_decide; auto with lexer.
Qed.

(** One more character, then a token. *)
Lemma lexes_single tok l c r : good_token tok -> at_text l (c :: r) ->
  lexes sp sl sc (_ ← advance; emit tok sp sl sc) l (c :: r) False.
Proof. intros Ht Hat. apply lexes_advance; [done|]. intros _. by apply lexes_emit. Qed.

Hint Resolve lex_regex_ok lex_symbolic_ok : lexer.
Hint Extern 1 (lexes _ _ _ (_ ← advance; emit _ _ _ _) _ _ _) => apply lexes_single; [exact I | done] : lexer.

Lemma lex_hash_ok l c r : at_text l (c :: r) -> lexes_some sp sl sc (lex_hash sp sl sc) l (c :: r) False.
Proof.
  intros Hat. apply lexes_some_advance; [done|]. intros Hat1. apply lexes_peek; [done|].
  destruct r as [|c2 r]; cbn [head]; [auto with lexer|].
  repeat case_if; auto with lexer.
  - apply lexes_advance; [done|]. intros Hat2. apply lexes_peek; [done|].
    case_decide as E'; [|auto with lexer]. destruct r as [|c3 r]; simplify_eq/=. auto with lexer.
  - apply lexes_read_while; [done|]. auto with lexer.
Qed.
End SubLexers.

(** * Keywords, symbols, numbers *)

Section Names.
Context {U : UnicodeTables} {B : BuildProfile}.
Context (sp sl sc : nat).

Lemma lex_keyword_ok l c r : at_text l (c :: r) -> lexes_some sp sl sc (lex_keyword sp sl sc) l (c :: r) False.
Proof.
  intros Hat. apply lexes_some_advance; [done|]. intros Hat1. apply lexes_peek; [done|].
  case_decide as E.
  - destruct r as [|c2 r]; simplify_eq/=. apply lexes_advance; [done|]. intros Hat2.
    apply lexes_read_while; [done|]. intros b _ _. case_match; auto with lexer.
  - apply lexes_read_while; [done|]. intros b _ _. case_match; auto with lexer.
Qed.

Lemma take_while_ascii p s : (forall c, p c = true -> 0 <= c < 128) -> Forall (fun c => c < 128) (take_while p s).
Proof.
  intros Hp. eapply Forall_impl; [apply take_while_forall|]. intros c Hc. apply Hp in Hc. lia.
Qed.

Lemma hexdigit_ascii c : is_ascii_hexdigit c = true -> 0 <= c < 128.
Proof. unfold is_ascii_hexdigit. rewrite !orb_true_iff, !in_range_true. lia. Qed.

Lemma take_while_take p n s : exists t, s = take_while p (take n s) ++ t.
Proof.
  exists (drop_while p (take n s) ++ drop n s). by rewrite app_assoc, take_drop_while, take_drop.
Qed.

(** [peek_version_hash] slices on character boundaries: the characters before
    each are ASCII. *)
Lemma peek_version_hash_at l r :
  at_text l (64 :: r) ->
  exists o, peek_version_hash l = (Ok o, l) /\
    forall h, o = Some h -> exists t, r = h ++ t.
Proof.
  intros Hat. unfold peek_version_hash. rewrite (str_from_add _ _ _ _ Hat). simpl.
  replace (str_from r 0) with (Some r) by (by destruct r).
  destruct (take_while_take is_ascii_hexdigit 40 r) as [t Et].
  set (h := take_while is_ascii_hexdigit (take 40 r)) in *.
  case_if; [|eexists; by split].
  replace (length h) with (str_len h) by (apply str_len_ascii, take_while_ascii, hexdigit_ascii).
  rewrite Et, str_from_app. eexists. split; [done|]. intros h'. case_if; intros [= <-]; by exists t.
Qed.

Lemma advance_n_at l a r : at_text l (a ++ r) -> advance_n (length a) l = (Ok tt, moved l a).
Proof.
  revert l. induction a as [|c a IH]; intros l Hat; [by rewrite moved_nil|].
  cbn [length advance_n]. rewrite (bind_ok _ _ _ _ _ (advance_cons _ _ _ Hat)).
  rewrite IH by (by apply at_text_cons). by rewrite moved_moved.
Qed.

Lemma symbol_token_good name : good_token (symbol_token name).
Proof. unfold symbol_token. repeat case_decide; done. Qed.

Lemma lex_symbol_ok l c r :
  at_text l (c :: r) -> is_symbol_char c = true ->
  lexes_some sp sl sc (lex_symbol sp sl sc) l (c :: r) False.
Proof.
  intros Hat Hc. apply lexes_some_read_while; [done | done |]. intros a b _ E Hat1.
  apply lexes_peek; [done|].
  eapply lexes_bind with (Q := fun _ _ => True); [done | | intros; apply lexes_emit, symbol_token_good].
  case_decide as Eb; [|by apply safe_ret]. destruct b as [|c2 b]; simplify_eq/=.
  destruct (peek_version_hash_at _ _ Hat1) as (o & Ho & Hh). unfold safe.
  rewrite (bind_ok _ _ _ _ _ Ho). destruct o as [h|]; [|by apply safe_ret].
  destruct (Hh h eq_refl) as [t ->]. exists (64 :: h), t. split; [done|].
  rewrite (bind_ok _ _ _ _ _ (advance_cons _ _ _ Hat1)).
  rewrite (bind_ok _ _ _ _ _ (advance_n_at _ _ _ (at_text_cons _ _ _ Hat1))).
  by rewrite moved_moved.
Qed.

(** ** Numbers *)

(** The value of the digits of a radix literal, when the radix is supported. *)
Fixpoint radix_digits_value (radix value : Z) (digits : list Z) : option Z :=
  match digits with
  | [] => Some value
  | c :: ds =>
      match to_digit radix c with
      | Some d => radix_digits_value radix (wrap_u128 (wrap_u128 (value * radix) + d)) ds
      | None => None
      end
  end.

(** A sign and the digits of an integer part. *)
Definition integer_part (sgn int_part : list Z) : Prop :=
  (sgn = [] \/ sgn = [43] \/ sgn = [45]) /\ int_part <> [] /\ Forall (fun c => is_ascii_digit c = true) int_part.

(** The number literals on which the lexer panics: a sign, decimal digits, [r]
    or [R] and all the alphanumeric characters behind it, with a radix outside
    [2..=36] and a digit, or for the value [-2^63] when overflow is checked. *)
Definition number_panics (text : list Z) : Prop :=
  exists sgn int_part rc after,
    text = sgn ++ int_part ++ rc :: after /\ integer_part sgn int_part /\ (rc = 114 \/ rc = 82) /\
    let digits := take_while is_ascii_alphanumeric after in
    let radix := default 0 (parse_u32 int_part) in
    ((radix < 2 \/ 36 < radix) /\ digits <> []) \/
    (2 <= radix <= 36 /\ sgn = [45] /\ overflow_checks = true /\
     radix_digits_value radix 0 digits = Some (2 ^ 63)).

Lemma radix_value_ok radix value digits l r :
  safe sp sl sc (radix_value radix value digits sp sl sc) l r
    (fun c a => radix_digits_value radix value digits = Some a /\ (digits = [] \/ 2 <= radix <= 36))
    ((radix < 2 \/ 36 < radix) /\ digits <> []).
Proof.
  destruct (in_range 2 36 radix) eqn:E.
  - assert (Hr : 2 <= radix <= 36) by (by apply in_range_true). revert value.
    induction digits as [|c ds IH]; intros value; cbn [radix_value radix_digits_value].
    + apply safe_ret. auto.
    + rewrite E. destruct (to_digit radix c) as [d|]; [|apply safe_error].
      eapply safe_mono; [apply IH | |]; naive_solver.
  - destruct digits as [|c ds]; cbn [radix_value]; [apply safe_ret; auto|]. rewrite E.
    apply safe_panic. bool_hyps. auto.
Qed.

Lemma lex_hex_ok negative l c r : at_text l (c :: r) -> lexes sp sl sc (lex_hex negative sp sl sc) l (c :: r) False.
Proof.
  intros Hat. apply lexes_advance; [done|]. intros Hat1. apply lexes_read_while; [done|].
  intros b _ _. destruct (take_while is_ascii_hexdigit r); [auto with lexer|].
  cbv zeta. repeat case_if; auto with lexer.
Qed.

Lemma lexes_mono m l r (P P' : Prop) : lexes sp sl sc m l r P -> (P -> P') -> lexes sp sl sc m l r P'.
Proof. intros H HP. eapply safe_mono; [exact H | done | done]. Qed.

Lemma lexes_false m l r (P : Prop) : lexes sp sl sc m l r False -> lexes sp sl sc m l r P.
Proof. intros H. by eapply lexes_mono. Qed.

Lemma neg_i64_ok n l r :
  is_i64 n ->
  safe sp sl sc (neg_i64 n) l r (fun _ m => is_i64 m) (n = i64_min /\ overflow_checks = true).
Proof.
  intros Hn. unfold neg_i64, is_i64 in *.
  destruct (Z.eqb_spec n i64_min); [|apply safe_ret; unfold i64_min, i64_max in *; lia].
  case_if; [by apply safe_panic | apply safe_ret; unfold i64_min, i64_max; lia].
Qed.

Lemma radix_digits_value_nonneg radix v digits a :
  0 <= v -> radix_digits_value radix v digits = Some a -> 0 <= a.
Proof.
  revert v. induction digits as [|c ds IH]; intros v Hv; cbn [radix_digits_value]; [by intros [= <-]|].
  destruct (to_digit radix c); [|done]. apply IH. apply Z.mod_pos_bound. lia.
Qed.

Lemma radix_literal_min v : wrap_i64 v = i64_min -> 0 <= v -> v <= i64_max + 1 -> v = 2 ^ 63.
Proof.
  intros H H0 H1. destruct (decide (v = 2 ^ 63)) as [|Hn]; [done|]. exfalso.
  rewrite wrap_i64_id in H by (unfold is_i64, i64_min, i64_max in *; lia). unfold i64_min in *. lia.
Qed.

Lemma lex_radix_ok negative sgn int_part l c r :
  at_text l (c :: r) -> (c = 114 \/ c = 82) -> integer_part sgn int_part -> sgn = (if negative : bool then [45] else sgn) ->
  lexes sp sl sc (lex_radix negative int_part sp sl sc) l (c :: r)
    (number_panics (sgn ++ int_part ++ c :: r)).
Proof.
  intros Hat Hc Hint Hsgn. apply lexes_advance; [done|]. intros Hat1. apply lexes_read_while; [done|].
  intros b Eb Hat2. set (ds := take_while is_ascii_alphanumeric r) in *.
  set (radix := default 0 (parse_u32 int_part)).
  eapply lexes_bind; [done | eapply safe_mono; [apply radix_value_ok | |] |].
  - intros c0 r' a _ Ha. exact Ha.
  - intros HP. exists sgn, int_part, c, r. auto.
  - intros c0 value r' -> Hat3 [Hv Hr]. destruct negative; [|case_if; auto with lexer].
    case_if; [|auto with lexer]. bool_hyps.
    eapply lexes_bind; [done | eapply safe_mono; [apply neg_i64_ok, wrap_i64_good | done |] | auto with lexer].
    intros [Hmin Hov]. exists sgn, int_part, c, r. split_and!; [done..|]. right. fold ds radix.
    apply radix_literal_min in Hmin as ->; [| eapply radix_digits_value_nonneg; [|done]; done | lia].
    destruct Hr as [Hr|Hr]; [by rewrite Hr in Hv | auto].
Qed.
(** The octal value is an [i64] and so is its negation: digits have no sign. *)
Lemma octal_value_good (negative : bool) int_part :
  head int_part = Some 48 ->
  let value := default 0 (from_str_radix i64_min i64_max 8 int_part) in
  good_token (TInt (if negative then - value else value)).
Proof.
  intros H0. simpl. unfold is_i64.
  destruct (from_str_radix i64_min i64_max 8 int_part) as [v|] eqn:E; simpl.
  2:{ unfold i64_min, i64_max. by destruct negative. }
  pose proof (from_str_radix_range _ _ _ _ _ E) as Hr.
  destruct int_part as [|c t]; [done|]. injection H0 as ->. unfold from_str_radix in E. simpl in E.
  destruct (digits_value 8 _ t) as [w|] eqn:Ew; [|done].
  apply digits_value_nonneg in Ew; [|lia|done].
  destruct (in_range _ _ w); [|done]. injection E as <-.
  unfold i64_min, i64_max in *. destruct negative; lia.
Qed.

Lemma lex_octal_ok negative int_part l r P :
  head int_part = Some 48 -> lexes sp sl sc (lex_octal negative int_part sp sl sc) l r P.
Proof.
  intros H0. unfold lex_octal. case_if; [auto with lexer|]. by apply lexes_emit, octal_value_good.
Qed.

Lemma safe_advance_some {A : Type} (k : option Z -> lexM A) l c r P :
  at_text l (c :: r) ->
  (at_text (moved l [c]) r -> safe sp sl sc (k (Some c)) (moved l [c]) r (fun _ _ => True) P) ->
  safe sp sl sc (advance ≫= k) l (c :: r) (fun _ _ => True) P.
Proof.
  intros Hat H. eapply safe_bind with (Q := fun c' o => c' = [c] /\ o = Some c); [done | |].
  - apply safe_advance; [done | done |]. by intros ?? [= -> ->].
  - intros ?? r' E Hat' [-> ->]. injection E as <-. by apply H.
Qed.

Lemma safe_read_digits {A : Type} p (f : list Z -> A) l r P :
  at_text l r -> safe sp sl sc (ds ← read_while p; mret (f ds)) l r (fun _ _ => True) P.
Proof.
  intros Hat. eapply safe_bind with (Q := fun _ _ => True); [done | by apply safe_read_while |].
  intros. by apply safe_ret.
Qed.

Lemma lex_float_ok raw l r : at_text l r -> lexes sp sl sc (lex_float raw sp sl sc) l r False.
Proof.
  intros Hat. apply lexes_peek; [done|]. eapply lexes_bind with (Q := fun _ _ => True); [done | |].
  { case_decide as E; [|by apply safe_ret]. destruct r as [|c r]; simplify_eq/=.
    apply safe_advance_some; [done|]. intros Hat1. by apply safe_read_digits. }
  intros c1 raw1 r1 -> Hat1 _. apply lexes_peek; [done|].
  eapply lexes_bind with (Q := fun _ _ => True); [done | |].
  { case_decide as E; [|by apply safe_ret]. destruct r1 as [|c r1]; [by destruct E|].
    apply safe_advance_some; [done|]. intros Hat2.
    eapply safe_bind with (Q := fun _ _ => True); [done | by apply safe_peek |].
    intros c3 o r' -> Hat3 _. eapply safe_bind with (Q := fun _ _ => True); [done | |].
    - destruct o; [|by apply safe_ret]. case_if; [|by apply safe_ret].
      eapply safe_bind with (Q := fun _ _ => True); [done | by apply safe_advance |].
      intros. by apply safe_ret.
    - intros. by apply safe_read_digits. }
  intros c2 raw2 r2 -> Hat2 _. apply lexes_peek; [done|]. case_decide as E.
  - destruct r2 as [|c r2]; simplify_eq/=. apply lexes_single; done.
  - case_match; auto with lexer.
Qed.

Lemma lex_number_tail_ok negative sgn int_part l r :
  at_text l r -> integer_part sgn int_part -> sgn = (if negative : bool then [45] else sgn) ->
  lexes sp sl sc (lex_number_tail negative int_part sp sl sc) l r (number_panics (sgn ++ int_part ++ r)).
Proof.
  intros Hat Hint Hsgn. apply lexes_peek; [done|].
  case_if; [apply andb_true_iff in E as [_ E%bool_decide_eq_true]|].
  { destruct r; [by destruct E|]. by apply lexes_false, lex_hex_ok. }
  clear E. case_decide as Er.
  { destruct r as [|c r]; [by destruct Er|]. apply lex_radix_ok; [done | naive_solver | done | done]. }
  case_if; [apply andb_true_iff in E as [[_ E%bool_decide_eq_true]%andb_true_iff _]; by apply lex_octal_ok|].
  clear E. apply lexes_false.
  case_decide as EN; [destruct r; simplify_eq/=; by apply lexes_single|].
  case_decide as EM; [destruct r; simplify_eq/=; by apply lexes_single|].
  case_decide as Ef; [by apply lex_float_ok|].
  eapply lexes_bind with (Q := fun c o => c = [] /\ (is_Some o -> r <> [])); [done | |].
  { case_decide as Es; [|apply safe_ret; split; [done | by intros []]].
    apply safe_peek_next; [done|]. split; [done|]. by destruct r. }
  intros ? o r' E Hat' [-> Ho]. simpl in E. subst r'. case_if.
  - destruct o; [|done]. destruct r as [|c r]; [by destruct Ho|].
    apply lexes_advance; [done|]. intros Hat1. apply lexes_read_while; [done|].
    intros b _ _. auto with lexer.
  - cbv zeta. destruct (parse_i64 _) eqn:Ep; [|auto with lexer].
    apply lexes_emit. exact (from_str_radix_range _ _ _ _ _ Ep).
Qed.

Lemma lex_sign_at l c r :
  at_text l (c :: r) -> c = 43 \/ c = 45 ->
  lex_sign l = (Ok (c =? 45), moved l [c]).
Proof.
  intros Hat Hc. unfold lex_sign. rewrite (bind_ok _ _ _ _ _ (peek_at _ _ Hat)).
  destruct Hc as [-> | ->]; simpl; by rewrite (bind_ok _ _ _ _ _ (advance_cons _ _ _ Hat)).
Qed.

Lemma lex_sign_none l r :
  at_text l r -> (forall c, head r = Some c -> c <> 43 /\ c <> 45) -> lex_sign l = (Ok false, l).
Proof.
  intros Hat Hc. unfold lex_sign. rewrite (bind_ok _ _ _ _ _ (peek_at _ _ Hat)).
  destruct r as [|c r]; [done|]. cbn [head]. destruct (Hc c eq_refl).
  by rewrite (proj2 (Z.eqb_neq c 45)), (proj2 (Z.eqb_neq c 43)).
Qed.

Lemma lex_number_ok l c r :
  at_text l (c :: r) -> is_ascii_digit c = true \/ ((c = 43 \/ c = 45) /\ exists d, head r = Some d /\ is_ascii_digit d = true) ->
  lexes_some sp sl sc (lex_number sp sl sc) l (c :: r) (number_panics (c :: r)).
Proof.
  intros Hat Hc. unfold lex_number. destruct (decide (c = 43 \/ c = 45)) as [Hs|Hs].
  - destruct Hc as [Hc | [_ (d & Hd & Hdig)]]; [by destruct Hs as [-> | ->]|].
    apply lexes_some_run with (a := c =? 45) (c := [c]); [by eapply lex_sign_at | done |].
    apply lexes_read_while; [by apply at_text_cons|]. intros b E Hat1.
    eapply lexes_mono; [apply (lex_number_tail_ok (c =? 45) [c]); [done| |] | by rewrite <- E].
    + split_and!; [naive_solver| |apply take_while_forall]. destruct r; [done|]. simplify_eq/=. by rewrite Hdig.
    + by destruct Hs as [-> | ->].
  - destruct Hc as [Hc|[Hc _]]; [|done]. unfold lexes_some, safe.
    rewrite (bind_ok _ _ _ _ _ (lex_sign_none _ _ Hat ltac:(simpl; intros ? [= <-]; lia))).
    apply lexes_some_read_while; [done | done |]. intros a b Ha E Hat1. rewrite E.
    apply (lex_number_tail_ok false []); [done | | done].
    rewrite Ha. split_and!; [by left | simpl; by rewrite Hc | apply take_while_forall].
Qed.

(** ** Characters *)

Definition is_char_name (c : Z) : bool := char_is_alphanumeric c || (c =? 45).

(** The character literals on which the lexer panics: [\u] followed by
    alphanumeric text whose fourth byte is inside a character. *)
Definition char_panics (text : list Z) : Prop :=
  exists t, take_while is_char_name text = 117 :: t /\ (4 <= str_len t)%nat /\ str_to t 4 = None.

Lemma char_name_not_newline c : is_char_name c = true -> c <> 10.
Proof.
  intros H ->. unfold is_char_name in H. by rewrite char_is_alphanumeric_ascii in H by lia.
Qed.

Lemma skip_bytes_at l a :
  Forall (fun c => c <> 10) a -> skip_bytes (str_len a) l = (Ok tt, moved l a).
Proof.
  intros HF. unfold skip_bytes, moved. erewrite bind_ok by reflexivity.
  by rewrite move_position_no_newline.
Qed.

(** A character literal read by moving the cursor over [a]. *)
Lemma safe_skip (c : Z) n l a b r P :
  a ++ b = r -> n = str_len a -> Forall (fun c => c <> 10) a ->
  safe sp sl sc (_ ← skip_bytes n; mret c) l r (fun _ _ => True) P.
Proof.
  intros <- -> HF. exists a, b. split; [done|]. by rewrite (bind_ok _ _ _ _ _ (skip_bytes_at l a HF)).
Qed.

Lemma str_to_inv s n h : str_to s n = Some h -> exists t, s = h ++ t /\ n = str_len h.
Proof.
  revert n h. induction s as [|c s IH]; intros [|n] h; cbn [str_to]; try done.
  - intros [= <-]. by exists [].
  - intros [= <-]. by exists (c :: s).
  - case_if; [|done]. bool_hyps. intros (h' & H & ->)%fmap_Some.
    destruct (IH _ _ H) as (t & -> & Hn). exists t. rewrite str_len_cons. split; [done|]. lia.
Qed.

Lemma octal_to_digit c : is_octal_digit c = true -> is_Some (to_digit 8 c) /\ c < 128.
Proof.
  unfold is_octal_digit. rewrite in_range_true. intros H. split; [|lia]. unfold to_digit.
  rewrite (proj2 (in_range_true 48 57 c)) by lia. destruct (Z.ltb_spec (c - 48) 8); [done | lia].
Qed.

Lemma forallb_Forall_true {A : Type} (p : A -> bool) s : forallb p s = true -> Forall (fun c => p c = true) s.
Proof.
  induction s as [|c s IH]; simpl; [done|]. intros [Hc Hs]%andb_true_iff. auto.
Qed.

Lemma octal_char_value t :
  t <> [] -> (str_len t <= 3)%nat -> forallb is_octal_digit t = true ->
  exists v, from_str_radix 0 u32_max 8 t = Some v /\ 0 <= v.
Proof.
  intros Hne Hlen HF%forallb_Forall_true.
  assert (HF1 : Forall (fun c => is_Some (to_digit 8 c)) t)
    by (eapply Forall_impl; [exact HF|]; intros c; apply octal_to_digit).
  assert (HF2 : Forall (fun c => c < 128) t)
    by (eapply Forall_impl; [exact HF|]; intros c; apply octal_to_digit). rewrite str_len_ascii in Hlen by done.
  destruct (from_str_radix_some 0 u32_max 8 t) as (v & -> & Hv); [done | lia | done | done | | eexists; split; [done | lia]].
  transitivity (8 ^ 3 - 1); [|done]. apply Z.sub_le_mono_r, Z.pow_le_mono_r; lia.
Qed.

Lemma hex_char_value h :
  str_len h = 4%nat -> forallb is_ascii_hexdigit h = true ->
  exists v, from_str_radix 0 u32_max 16 h = Some v.
Proof.
  intros Hlen HF%forallb_Forall_true.
  assert (HF1 : Forall (fun c => is_Some (to_digit 16 c)) h)
    by (eapply Forall_impl; [exact HF|]; intros c; apply hexdigit_to_digit).
  assert (HF2 : Forall (fun c => c < 128) h)
    by (eapply Forall_impl; [exact HF|]; intros c Hc; apply hexdigit_ascii in Hc; lia). rewrite str_len_ascii in Hlen by done.
  destruct (from_str_radix_some 0 u32_max 16 h) as (v & -> & _); [done | lia | | done | | by eexists].
  - by destruct h.
  - rewrite Hlen. done.
Qed.

Lemma take_while_head p r c t : take_while p r = c :: t -> exists r', r = c :: r' /\ take_while p r' = t.
Proof. destruct r as [|x r]; simpl; [done|]. destruct (p x); [|done]. intros [= -> <-]. eauto. Qed.

Lemma char_literal_value_ok l r :
  head r <> Some 10 ->
  safe sp sl sc (char_literal_value r (take_while is_char_name r) sp sl sc) l r
    (fun _ _ => True) (char_panics r).
Proof.
  intros Hnl. pose proof (take_drop_while is_char_name r) as E.
  assert (HF : Forall (fun c => c <> 10) (take_while is_char_name r)).
  { eapply Forall_impl; [apply take_while_forall|]. exact char_name_not_newline. }
  set (rest := take_while is_char_name r) in *. unfold char_literal_value.
  destruct (named_char rest) as [ch|]; [by eapply safe_skip|].
  case_if.
  { apply andb_true_iff in E0 as [[[E1%bool_decide_eq_true E2]%andb_true_iff E3]%andb_true_iff E4].
    destruct rest as [|c0 t]; [done|]. injection E1 as ->. cbn [tail] in *. bool_hyps.
    rewrite str_len_cons in E2, E3. change (len_utf8 111) with 1%nat in *.
    destruct (octal_char_value t) as (v & -> & Hv); [intros ->; rewrite str_len_nil in *; lia | lia | done |].
    destruct (Z.ltb_spec 255 v); [apply safe_error|]. unfold char_from_u32.
    replace (is_scalar v) with true by zbool. by eapply safe_skip. }
  clear E0. case_if.
  { apply andb_true_iff in E0 as [E1%bool_decide_eq_true E2].
    destruct rest as [|c0 t] eqn:Erest; [done|]. injection E1 as ->. cbn [tail] in *. bool_hyps.
    rewrite str_len_cons in E2. change (len_utf8 117) with 1%nat in *.
    destruct (str_to t 4) as [h|] eqn:Eh; [|apply safe_panic; exists t; split_and!; [done | lia | done]].
    destruct (str_to_inv _ _ _ Eh) as (t' & -> & Hlen). case_if; [|apply safe_error].
    destruct (hex_char_value h) as [v ->]; [done | done |].
    case_match; [|apply safe_error].
    apply safe_skip with (a := 117 :: h) (b := t' ++ drop_while is_char_name r).
    - by rewrite <- E at 2; rewrite app_assoc.
    - rewrite str_len_cons, <- Hlen. done.
    - inversion HF as [|?? H1 H2]; subst. apply Forall_app in H2 as [H2 _]. by constructor. }
  clear E0. case_if.
  { destruct r as [|c r]; [by subst rest|]. cbn [head].
    apply safe_skip with (a := [c]) (b := r); [done | by rewrite str_len_cons, Nat.add_0_r |].
    constructor; [naive_solver | done]. }
  case_if; [|apply safe_error]. destruct r as [|c r]; cbn [head]; [apply safe_error|].
  apply safe_skip with (a := [c]) (b := r); [done | by rewrite str_len_cons, Nat.add_0_r |].
    constructor; [naive_solver | done].
Qed.

Lemma lex_char_literal_ok l r :
  at_text l (92 :: r) -> head r <> Some 10 ->
  lexes_some sp sl sc (lex_char_literal sp sl sc) l (92 :: r) (char_panics r).
Proof.
  intros Hat Hnl. apply lexes_some_advance; [done|]. intros Hat1. apply lexes_rest; [done|].
  eapply lexes_bind; [done | by apply char_literal_value_ok | auto with lexer].
Qed.

(** The literal for a newline: the cursor moves past it, but the line counter
    does not. *)
Lemma lex_char_newline l r :
  at_text l (92 :: 10 :: r) ->
  lex_char_literal sp sl sc l =
    (Ok (TChar 10, mkSpan (file l) sp (pos l + 2) sl sc),
     mkLexer (source l) (file l) (pos l + 2) (line l) (col l + 2)).
Proof.
  intros Hat. unfold lex_char_literal. rewrite (bind_ok _ _ _ _ _ (advance_cons _ _ _ Hat)).
  rewrite (bind_ok _ _ _ _ _ (rest_of_source_at _ _ (at_text_cons _ _ _ Hat))).
  assert (En : take_while (fun c => char_is_alphanumeric c || (c =? 45)) (10 :: r) = []).
  { simpl. by rewrite char_is_alphanumeric_ascii by lia. }
  rewrite En. unfold moved. simpl. unfold mbind, stateM_bind; simpl. unfold mret, stateM_ret; simpl.
  rewrite str_len_cons, str_len_nil. simpl. rewrite <- !Nat.add_assoc. done.
Qed.
End Names.

(** * The whole lexer *)

Section NextToken.
Context {U : UnicodeTables} {B : BuildProfile}.

(** The texts on which the lexer panics. *)
Definition token_panics (text : list Z) : Prop :=
  number_panics text \/ exists t, text = 92 :: t /\ char_panics t.

(** The cursor after the token [text]: moved over it.  A backslash in front of a
    newline is the exception: the literal moves the cursor behind the newline
    without counting a line. *)
Definition after_token (l : Lexer) (text : list Z) : Lexer :=
  if decide (text = [92; 10])
  then mkLexer (source l) (file l) (pos l + 2) (line l) (col l + 2)
  else moved l text.

(** What one call of the lexer does from [l0], the start of a token. *)
Definition token_result (l0 : Lexer) (r : list Z) (res : outcome ReadError (Token * Span) * Lexer) : Prop :=
  exists text rest, r = text ++ rest /\
  match res with
  | (Ok (tok, span), l') =>
      l' = after_token l0 text /\
      span = mkSpan (file l0) (pos l0) (pos l') (line l0) (col l0) /\
      (tok = TEof <-> r = []) /\ (tok <> TEof -> text <> [] /\ good_token tok)
  | (Err e, l') =>
      l' = moved l0 text /\ err_span e = mkSpan (file l0) (pos l0) (pos l') (line l0) (col l0)
  | (Panic, _) => token_panics r
  | (OutOfFuel, _) => False
  end.

Lemma lexes_some_result m l c r (P : Prop) :
  lexes_some (pos l) (line l) (col l) m l (c :: r) P ->
  (P -> token_panics (c :: r)) -> ~ (c = 92 /\ head r = Some 10) ->
  token_result l (c :: r) (m l).
Proof.
  intros (text & rest & E & H) HP Hnl. exists text, rest. split; [done|].
  destruct (m l) as [[[tok span]|e| |] l']; [|done | by apply HP | done].
  destruct H as (-> & Hne & Htok & Hspan). simpl in *. unfold after_token.
  rewrite decide_False; [split_and!; [done | done | split; [by intros -> | done] | done]|].
  intros ->. apply Hnl. simplify_eq/=. done.
Qed.

Lemma single_ok tok sp sl sc l c r :
  good_token tok -> at_text l (c :: r) -> lexes_some sp sl sc (single tok sp sl sc) l (c :: r) False.
Proof. intros Ht Hat. apply lexes_some_advance; [done|]. intros _. by apply lexes_emit. Qed.

Lemma is_symbol_start_char c : is_symbol_start c = true -> is_symbol_char c = true.
Proof. unfold is_symbol_start. rewrite !andb_true_iff. tauto. Qed.

(** Dispatch on the first character of a token. *)
Definition dispatch (l : Lexer) (ch : Z) (o2 : option Z) : lexM (Token * Span) :=
  let sp := pos l in let sl := line l in let sc := col l in
  if match o2 with Some d => is_ascii_digit d | None => false end
  then lex_number sp sl sc
  else if is_symbol_start ch then lex_symbol sp sl sc
  else if (ch =? 43) || (ch =? 45) then lex_symbol sp sl sc
  else _ ← advance; make_error (UnexpectedCharacter ch) sp sl sc.

Lemma dispatch_ok l c r o2 :
  at_text l (c :: r) -> (is_Some o2 -> (c = 43 \/ c = 45) /\ o2 = head r) -> c <> 92 ->
  token_result l (c :: r) (dispatch l c o2 l).
Proof.
  intros Hat Ho Hc. unfold dispatch.
  destruct (match o2 with Some d => is_ascii_digit d | None => false end) eqn:Ed.
  { eapply lexes_some_result; [apply lex_number_ok; [done|] | by left | naive_solver].
    destruct o2 as [d|]; [|done]. right. destruct Ho as [? Hh]; [by eexists|]. eauto. }
  case_if.
  { eapply lexes_some_result; [apply lex_symbol_ok; [done | by apply is_symbol_start_char] | done | naive_solver]. }
  case_if.
  { eapply lexes_some_result; [apply lex_symbol_ok; [done|] | done | naive_solver].
    apply orb_true_iff in E0 as [E0|E0]; bool_hyps; by subst. }
  apply lexes_some_result with (P := False); [|done | naive_solver].
  apply lexes_some_advance; [done | auto with lexer].
Qed.

Lemma char_literal_result l r :
  at_text l (92 :: r) ->
  token_result l (92 :: r) (lex_char_literal (pos l) (line l) (col l) l).
Proof.
  intros Hat. destruct (decide (head r = Some 10)) as [Hr|Hr].
  - destruct r as [|c r]; simplify_eq/=. rewrite (lex_char_newline _ _ _ _ _ Hat).
    exists [92; 10], r. split; [done|]. unfold after_token. rewrite decide_True by done. done.
  - eapply lexes_some_result; [by apply lex_char_literal_ok | | naive_solver].
    intros HP. right. eauto.
Qed.

Lemma next_token_run l r :
  at_text l r ->
  let blank := skip_prefix (pos l =? 0)%nat r in
  exists r0, r = blank ++ r0 /\ token_result (moved l blank) r0 (next_token l).
Proof.
  intros Hat blank. destruct (skip_prefix_prefix (pos l =? 0)%nat r) as [r0 E]. fold blank in E.
  exists r0. split; [done|]. unfold next_token.
  rewrite (bind_ok _ _ _ _ _ (skip_whitespace_at _ _ Hat)). fold blank.
  assert (Hat0 : at_text (moved l blank) r0) by (apply at_text_moved; by rewrite <- E).
  set (l0 := moved l blank) in *. clearbody l0. clear E Hat blank l r.
  erewrite bind_ok by reflexivity. rewrite (bind_ok _ _ _ _ _ (peek_at _ _ Hat0)).
  destruct r0 as [|c r]; cbn [head].
  { exists [], []. split; [done|]. unfold after_token. rewrite decide_False, moved_nil by done. done. }
  assert (Hres : forall m (P : Prop), lexes_some (pos l0) (line l0) (col l0) m l0 (c :: r) P ->
    (P -> token_panics (c :: r)) -> c <> 92 -> token_result l0 (c :: r) (m l0)).
  { intros m P Hm HP Hc. apply lexes_some_result with (P := P); naive_solver. }
  assert (Hsingle : forall tok, good_token tok -> c <> 92 ->
    token_result l0 (c :: r) (single tok (pos l0) (line l0) (col l0) l0)).
  { intros tok Ht Hc. eapply Hres; [by apply single_ok | done | done]. }
  do 10 (case_if; [bool_hyps; apply Hsingle; [done | by subst] |]).
  case_if; [bool_hyps; eapply Hres; [by apply lex_unquote_ok | done | by subst]|].
  case_if; [bool_hyps; eapply Hres; [by apply lex_hash_ok | done | by subst]|].
  case_if; [bool_hyps; eapply Hres; [by apply lex_string_ok | done | by subst]|].
  case_if.
  { bool_hyps; subst. by apply char_literal_result. }
  case_if; [bool_hyps; eapply Hres; [by apply lex_keyword_ok | done | by subst]|].
  case_if; [eapply Hres; [apply lex_number_ok; [done | by left] | by left | by intros ->]|].
  bool_hyps. pose proof (fun o2 => dispatch_ok l0 c r o2 Hat0) as Hd. unfold dispatch in Hd.
  destruct ((c =? 43) || (c =? 45)) eqn:Esign.
  - rewrite (bind_ok _ _ _ _ _ (peek_next_at _ _ Hat0)). apply Hd; [|done].
    intros _. split; [|done]. apply orb_true_iff in Esign as [Es|Es]; bool_hyps; auto.
  - erewrite bind_ok by reflexivity. by apply Hd; [intros []|].
Qed.

(** ** Panics *)

Definition panics {A : Type} (m : lexM A) (l : Lexer) : Prop := (m l).1 = Panic.

Lemma panics_bind_ok {A C : Type} (m : lexM A) (k : A -> lexM C) l a l' :
  m l = (Ok a, l') -> panics (k a) l' -> panics (m ≫= k) l.
Proof. intros Hm Hk. unfold panics. by rewrite (bind_ok _ _ _ _ _ Hm). Qed.

Lemma panics_bind {A C : Type} (m : lexM A) (k : A -> lexM C) l : panics m l -> panics (m ≫= k) l.
Proof. unfold panics, mbind, stateM_bind. destruct (m l) as [[] l']; naive_solver. Qed.

Lemma radix_value_run radix value digits a sp sl sc l :
  2 <= radix <= 36 -> radix_digits_value radix value digits = Some a ->
  radix_value radix value digits sp sl sc l = (Ok a, l).
Proof.
  intros Hr. assert (Er : in_range 2 36 radix = true) by (by apply in_range_true). revert value.
  induction digits as [|c ds IH]; intros value; cbn [radix_digits_value radix_value]; [by intros [= ->]|].
  rewrite Er. destruct (to_digit radix c); [apply IH | done].
Qed.

Lemma lex_radix_panics sgn int_part rc after sp sl sc l :
  at_text l (rc :: after) ->
  let digits := take_while is_ascii_alphanumeric after in
  let radix := default 0 (parse_u32 int_part) in
  ((radix < 2 \/ 36 < radix) /\ digits <> []) \/
  (2 <= radix <= 36 /\ sgn = [45] /\ overflow_checks = true /\ radix_digits_value radix 0 digits = Some (2 ^ 63)) ->
  panics (lex_radix (bool_decide (sgn = [45])) int_part sp sl sc) l.
Proof.
  intros Hat digits radix Hp. eapply panics_bind_ok; [eapply advance_cons; exact Hat|].
  eapply panics_bind_ok; [eapply read_while_at, at_text_cons; exact Hat|]. fold digits radix.
  destruct Hp as [[Hr Hd] | (Hr & -> & Hov & Hv)].
  - apply panics_bind. destruct digits as [|c ds]; [done|]. cbn [radix_value].
    replace (in_range 2 36 radix) with false; [done|]. symmetry. apply not_true_is_false. rewrite in_range_true. lia.
  - eapply panics_bind_ok; [by apply radix_value_run|]. rewrite bool_decide_true by done.
    change (2 ^ 63 <=? i64_max + 1) with true. cbv match. apply panics_bind. unfold neg_i64.
    change (wrap_i64 (2 ^ 63) =? i64_min) with true. rewrite Hov. done.
Qed.

Lemma lex_number_panics l r sp sl sc : at_text l r -> number_panics r -> panics (lex_number sp sl sc) l.
Proof.
  intros Hat (sgn & int_part & rc & after & -> & (Hsgn & Hne & Hdig) & Hrc & Hp).
  assert (Hrd : is_ascii_digit rc = false) by (by destruct Hrc as [-> | ->]).
  assert (Hsign : lex_sign l = (Ok (bool_decide (sgn = [45])), moved l sgn)).
  { destruct Hsgn as [-> | [-> | ->]].
    - rewrite moved_nil. eapply lex_sign_none; [exact Hat|]. destruct int_part as [|d ds]; [done|]. simpl. intros c [= <-].
      apply Forall_cons in Hdig as [Hdig _]. apply in_range_true in Hdig. lia.
    - rewrite (lex_sign_at l _ _ Hat) by auto. done.
    - rewrite (lex_sign_at l _ _ Hat) by auto. done. }
  apply at_text_moved in Hat. eapply panics_bind_ok; [exact Hsign|].
  eapply panics_bind_ok; [eapply read_while_at; exact Hat|]. rewrite take_while_app; [|done|by intros ? [= <-]].
  apply at_text_moved in Hat. unfold lex_number_tail. eapply panics_bind_ok; [eapply peek_at; exact Hat|]. cbn [head].
  rewrite (bool_decide_false (Some rc = Some 120 \/ _)), andb_false_r by (destruct Hrc as [-> | ->]; naive_solver).
  rewrite decide_True by naive_solver. by eapply lex_radix_panics.
Qed.

Lemma lex_char_panics l r sp sl sc : at_text l (92 :: r) -> char_panics r -> panics (lex_char_literal sp sl sc) l.
Proof.
  intros Hat (t & Et & Hlen & Hto). eapply panics_bind_ok; [eapply advance_cons; exact Hat|].
  eapply panics_bind_ok; [eapply rest_of_source_at, at_text_cons; exact Hat|]. apply panics_bind.
  fold is_char_name in *. change (fun c => char_is_alphanumeric c || (c =? 45)) with is_char_name. rewrite Et.
  assert (En : named_char (117 :: t) = None) by (unfold named_char; by repeat case_decide).
  unfold panics, char_literal_value. rewrite En. cbn [head tail]. rewrite bool_decide_false by done. cbn [andb].
  rewrite bool_decide_true, str_len_cons by done. change (len_utf8 117) with 1%nat.
  rewrite (proj2 (Nat.leb_le 5 _)) by lia. cbn [andb]. by rewrite Hto.
Qed.

(** The lexer panics on every literal of [token_panics]. *)
Lemma next_token_panics l r r0 :
  at_text l r -> r = skip_prefix (pos l =? 0)%nat r ++ r0 -> token_panics r0 -> panics next_token l.
Proof.
  intros Hat E Hp. set (blank := skip_prefix _ r) in *. eapply panics_bind_ok; [by apply skip_whitespace_at|]. fold blank.
  assert (Hat0 : at_text (moved l blank) r0) by (apply at_text_moved; by rewrite <- E).
  eapply panics_bind_ok; [reflexivity|]. cbv zeta. eapply panics_bind_ok; [eapply peek_at; exact Hat0|].
  set (l0 := moved l blank) in *. clearbody l0. clear E Hat blank l r. destruct Hp as [Hp | (t & -> & Hp)].
  2:{ cbn [head]. by apply lex_char_panics with t. }
  pose proof (fun sp sl sc => lex_number_panics l0 r0 sp sl sc Hat0 Hp) as Hn.
  destruct Hp as (sgn & int_part & rc & after & -> & (Hsgn & Hne & Hdig) & _).
  destruct int_part as [|d ds]; [done|]. apply Forall_cons in Hdig as [Hd _].
  assert (Hdr : 48 <= d <= 57) by (by apply in_range_true).
  destruct Hsgn as [-> | [-> | ->]]; cbn [app head].
  - repeat (rewrite (proj2 (Z.eqb_neq d _)) by lia). rewrite Hd. apply Hn.
  - simpl. eapply panics_bind_ok; [eapply peek_next_at; exact Hat0|]. cbn [app tail head]. rewrite Hd. apply Hn.
  - simpl. eapply panics_bind_ok; [eapply peek_next_at; exact Hat0|]. cbn [app tail head]. rewrite Hd. apply Hn.
Qed.

Lemma after_token_text l text r : at_text l (text ++ r) -> at_text (after_token l text) r.
Proof.
  intros Hat. unfold after_token. case_decide as E; [|by apply at_text_moved]. subst.
  apply (at_text_moved l [92; 10] r) in Hat. done.
Qed.

(** C39: from any cursor on a character boundary the lexer returns, and says
    where: after the whitespace and comments it skips, the token's span starts
    at the first character of the token, with the line and column the cursor has
    there, and ends where the cursor stops; the cursor's line and column count
    the text it passes, except that the newline of a character literal is not
    counted as a line ([newline_literal_is_not_counted]); the token is
    end-of-input exactly when nothing but whitespace was left, and every other
    token consumes text, so repeated calls reach the end; an error carries the
    span from the token's start to the cursor; and the lexer panics exactly on
    the literals of [token_panics]: a radix literal whose radix is not between 2
    and 36 or, with overflow checks, whose value is [-2^63], and a [\u] literal
    whose fourth byte is inside a character. *)
Theorem next_token_located l r :
  at_text l r ->
  let blank := skip_prefix (pos l =? 0)%nat r in
  exists r0, r = blank ++ r0 /\ token_result (moved l blank) r0 (next_token l) /\
    (token_panics r0 -> (next_token l).1 = Panic).
Proof.
  intros Hat blank. destruct (next_token_run l r Hat) as (r0 & E & Hres). exists r0. split_and!; [done..|].
  by apply (next_token_panics l r r0).
Qed.
End NextToken.

Definition sample_source : list Z := lit " ,; comment" ++ [10] ++ lit " (x 16rFF".

Lemma next_token_located_witness :
  let l := Lexer_new sample_source [] in
  exists r0, sample_source = skip_prefix true sample_source ++ r0 /\
  @token_result ascii_tables dev_profile (moved l (skip_prefix true sample_source)) r0
    (@next_token ascii_tables dev_profile l) /\
  (@token_panics ascii_tables dev_profile r0 -> (@next_token ascii_tables dev_profile l).1 = Panic).
Proof. exact (@next_token_located ascii_tables dev_profile (Lexer_new _ []) _ (at_text_new _ [])). Defined.

(** A symbol is no number: nothing in [(range 1)] makes the lexer panic. *)
Example symbols_do_not_panic : ~ @token_panics ascii_tables dev_profile (lit "range 1)").
Proof.
  intros [(sgn & int_part & rc & after & E & (Hs & Hne & Hd) & _) | (t & [=] & _)].
  destruct int_part as [|d ds]; [done|]. apply Forall_cons in Hd as [Hd _].
  destruct Hs as [-> | [-> | ->]]; [|done..]. by injection E as <-.
Qed.

(** The two lines [\], newline and [a]: the lexer places [a] in line 1, column 3. *)
Example newline_literal_is_not_counted :
  let l := Lexer_new [92; 10; 97] [] in
  let '(_, l') := @next_token ascii_tables dev_profile l in
  (@next_token ascii_tables dev_profile l').1 = Ok (TSymbol (lit "a"), mkSpan [] 2 3 1 3).
Proof. reflexivity. Qed.
