(* ===== verification/Form.v ===== *)
(** Forms, the reader's syntax trees (crates/cljrs-reader/src/form.rs). *)
From S2P Require Import Prelude RustStd Token.
From stdpp Require Import strings.
Local Open Scope Z_scope.

(** Doubles are kept as their bits. *)
Inductive Form : Type :=
| mkForm (kind : FormKind) (span : Span)
with FormKind : Type :=
| FNil
| FBool (b : bool)
| FInt (n : Z)
| FBigInt (s : list Z)
| FFloat (bits : Z)
| FBigDecimal (s : list Z)
| FRatio (s : list Z)
| FChar (c : Z)
| FStr (s : list Z)
| FRegex (s : list Z)
| FSymbolic (bits : Z)
| FSymbol (s : list Z)
| FKeyword (s : list Z)
| FAutoKeyword (s : list Z)
| FList (fs : list Form)
| FVector (fs : list Form)
| FMap (fs : list Form)
| FSet (fs : list Form)
| FQuote (f : Form)
| FSyntaxQuote (f : Form)
| FUnquote (f : Form)
| FUnquoteSplice (f : Form)
| FDeref (f : Form)
| FVar (f : Form)
| FMeta (meta target : Form)
| FAnonFn (fs : list Form)
| FTaggedLiteral (tag : list Z) (f : Form)
| FReaderCond (splicing : bool) (clauses : list Form).

Definition form_kind (f : Form) : FormKind := let 'mkForm k _ := f in k.
Definition form_span (f : Form) : Span := let 'mkForm _ s := f in s.

(** The forms directly below a form. *)
Definition children (f : Form) : list Form :=
  match form_kind f with
  | FList fs | FVector fs | FMap fs | FSet fs | FAnonFn fs | FReaderCond _ fs => fs
  | FQuote g | FSyntaxQuote g | FUnquote g | FUnquoteSplice g | FDeref g | FVar g
  | FTaggedLiteral _ g => [g]
  | FMeta m t => [m; t]
  | _ => []
  end.

(** Induction over forms, with the hypothesis for every child. *)
Section FormInd.
Context (P : Form -> Prop).
Context (Hstep : forall f, Forall P (children f) -> P f).

Fixpoint form_ind' (f : Form) : P f :=
  let fix go (fs : list Form) : Forall P fs :=
    match fs with
    | [] => Forall_nil_2 P
    | g :: gs => Forall_cons_2 P g gs (form_ind' g) (go gs)
    end in
  let one (g : Form) : Forall P [g] := go [g] in
  match f with
  | mkForm k s =>
      Hstep (mkForm k s)
        match k as k return Forall P (children (mkForm k s)) with
        | FList fs | FVector fs | FMap fs | FSet fs | FAnonFn fs | FReaderCond _ fs => go fs
        | FQuote g | FSyntaxQuote g | FUnquote g | FUnquoteSplice g | FDeref g | FVar g
        | FTaggedLiteral _ g => Forall_cons_2 P g [] (form_ind' g) (Forall_nil_2 P)
        | FMeta m t => Forall_cons_2 P m [t] (form_ind' m) (Forall_cons_2 P t [] (form_ind' t) (Forall_nil_2 P))
        | _ => Forall_nil_2 P
        end
  end.
End FormInd.

(** [PartialEq for Form]: equal up to spans; doubles compare as IEEE values
    ([NaN] differs from itself, the two zeros are equal). *)
Definition f64_is_nan (bits : Z) : bool := 0x7FF0000000000000 <? bits mod 2 ^ 63.

Definition f64_eqb (a b : Z) : bool :=
  negb (f64_is_nan a) && negb (f64_is_nan b)
  && ((a =? b) || ((a mod 2 ^ 63 =? 0) && (b mod 2 ^ 63 =? 0))).

Definition str_eqb (a b : list Z) : bool := bool_decide (a = b).

Fixpoint form_eqb (f g : Form) {struct f} : bool :=
  let fix seq_eqb (fs gs : list Form) : bool :=
    match fs, gs with
    | [], [] => true
    | x :: xs, y :: ys => form_eqb x y && seq_eqb xs ys
    | _, _ => false
    end in
  match f, g with
  | mkForm k1 _, mkForm k2 _ =>
      match k1, k2 with
      | FNil, FNil => true
      | FBool a, FBool b => Bool.eqb a b
      | FInt a, FInt b => a =? b
      | FFloat a, FFloat b | FSymbolic a, FSymbolic b => f64_eqb a b
      | FChar a, FChar b => a =? b
      | FBigInt a, FBigInt b | FBigDecimal a, FBigDecimal b | FRatio a, FRatio b
      | FStr a, FStr b | FRegex a, FRegex b | FSymbol a, FSymbol b
      | FKeyword a, FKeyword b | FAutoKeyword a, FAutoKeyword b => str_eqb a b
      | FList a, FList b | FVector a, FVector b | FMap a, FMap b | FSet a, FSet b
      | FAnonFn a, FAnonFn b => seq_eqb a b
      | FQuote a, FQuote b | FSyntaxQuote a, FSyntaxQuote b | FUnquote a, FUnquote b
      | FUnquoteSplice a, FUnquoteSplice b | FDeref a, FDeref b | FVar a, FVar b => form_eqb a b
      | FMeta a a', FMeta b b' => form_eqb a b && form_eqb a' b'
      | FTaggedLiteral s a, FTaggedLiteral t b => str_eqb s t && form_eqb a b
      | FReaderCond s a, FReaderCond t b => Bool.eqb s t && seq_eqb a b
      | _, _ => false
      end
  end.
