(* ===== verification/Parser.v ===== *)
(** The recursive-descent parser (crates/cljrs-reader/src/parser.rs).

    A parser is a lexer with one token of lookahead.  [parse_raw] takes fuel
    for its nesting depth and each loop takes fuel for its iterations; both
    are started from the length of the source, which is proved to be enough. *)
From stdpp Require Import strings.
From S2P Require Import Prelude RustStd Token Form Lexer.
Local Open Scope Z_scope.

Record Parser : Type := mkParser {
  lexer : Lexer;
  peeked : option (Token * Span)
}.

Definition Parser_new (src fl : list Z) : Parser := mkParser (Lexer_new src fl) None.

Definition parseM (A : Type) : Type := stateM Parser ReadError A.

Definition get_parser : parseM Parser := fun p => (Ok p, p).
Definition parse_error {A : Type} (msg : ReadMsg) (span : Span) : parseM A := fun p =>
  (Err (mkReadError msg span), p).
Definition parse_panic {A : Type} : parseM A := fun p => (Panic, p).
Definition parse_no_fuel {A : Type} : parseM A := fun p => (OutOfFuel, p).

(** At least the number of tokens left, and one more. *)
Definition token_fuel (p : Parser) : nat := 2 + length (source (lexer p)).

Definition merged_span (start end_ : Span) : Span :=
  mkSpan (span_file start) (span_start start) (span_end end_) (span_line start) (span_col start).

Definition INFINITY : Z := 0x7FF0000000000000.
Definition NEG_INFINITY : Z := 0xFFF0000000000000.
Definition NAN : Z := 0x7FF8000000000000.

Section WithUnicode.
Context {U : UnicodeTables} {B : BuildProfile}.

(** * Lookahead *)

Definition fill : parseM unit := fun p =>
  match peeked p with
  | Some _ => (Ok tt, p)
  | None =>
      match next_token (lexer p) with
      | (Ok ts, l') => (Ok tt, mkParser l' (Some ts))
      | (Err e, l') => (Err e, mkParser l' None)
      | (Panic, l') => (Panic, mkParser l' None)
      | (OutOfFuel, l') => (OutOfFuel, mkParser l' None)
      end
  end.

(** [self.peeked.take().unwrap()] and [self.peeked.as_ref().unwrap()]. *)
Definition take_peeked : parseM (Token * Span) := fun p =>
  match peeked p with
  | Some ts => (Ok ts, mkParser (lexer p) None)
  | None => (Panic, p)
  end.

Definition read_peeked : parseM (Token * Span) := fun p =>
  match peeked p with
  | Some ts => (Ok ts, p)
  | None => (Panic, p)
  end.

Definition bump : parseM (Token * Span) := _ ← fill; take_peeked.

Definition peek_tok : parseM Token := _ ← fill; ts ← read_peeked; mret ts.1.

Definition peek_span : parseM Span := _ ← fill; ts ← read_peeked; mret ts.2.

(** * Loops over forms; [raw] is [parse_raw] *)

Section Loops.
Context (raw : parseM (option Form)).

Fixpoint seq_loop (fuel : nat) (forms : list Form) (closing : Token) (open_span : Span) (name : string)
    : parseM (list Form * Span) :=
  match fuel with
  | O => parse_no_fuel
  | S f =>
      tok ← peek_tok;
      if decide (tok = TEof) then parse_error (Unclosed name) open_span
      else if decide (tok = closing) then
        ts ← bump;
        mret (forms, ts.2)
      else
        o ← raw;
        match o with
        | Some form => seq_loop f (forms ++ [form]) closing open_span name
        | None => seq_loop f forms closing open_span name
        end
  end.

Definition parse_seq_forms (closing : Token) (open_span : Span) (name : string)
    : parseM (list Form * Span) :=
  p ← get_parser; seq_loop (token_fuel p) [] closing open_span name.

Fixpoint require_loop (fuel : nat) (macro_span : Span) (what : string) : parseM Form :=
  match fuel with
  | O => parse_no_fuel
  | S f =>
      tok ← peek_tok;
      if decide (tok = TEof) then parse_error (EofExpected what) macro_span
      else
        o ← raw;
        match o with
        | Some form => mret form
        | None => require_loop f macro_span what
        end
  end.

Definition require_form (macro_span : Span) (what : string) : parseM Form :=
  p ← get_parser; require_loop (token_fuel p) macro_span what.

Definition parse_reader_cond (splicing : bool) (start : Span) : parseM Form :=
  next ← peek_tok;
  if decide (next <> TLParen) then
    span ← peek_span;
    parse_error CondRequiresParen span
  else
    ts ← bump;
    let open_span := ts.2 in
    r ← parse_seq_forms TRParen open_span "reader conditional";
    let '(clauses, close_span) := r in
    if Nat.odd (length clauses) then parse_error CondOddClauses open_span
    else mret (mkForm (FReaderCond splicing clauses) (merged_span start close_span)).

(** A form that is one token. *)
Definition atom (kind : FormKind) (span : Span) : parseM (option Form) :=
  _ ← bump; mret (Some (mkForm kind span)).

(** A delimited collection. *)
Definition collection (mk : list Form -> FormKind) (closing : Token) (name : string) (span : Span)
    : parseM (option Form) :=
  _ ← bump;
  r ← parse_seq_forms closing span name;
  mret (Some (mkForm (mk r.1) (merged_span span r.2))).

(** A reader macro that wraps the next form. *)
Definition wrapper (mk : Form -> FormKind) (what : string) (span : Span) : parseM (option Form) :=
  _ ← bump;
  inner ← require_form span what;
  mret (Some (mkForm (mk inner) (merged_span span (form_span inner)))).

Definition is_splice (f : Form) : bool :=
  match form_kind f with FReaderCond true _ => true | _ => false end.

Definition parse_map (span : Span) : parseM (option Form) :=
  _ ← bump;
  r ← parse_seq_forms TRBrace span "map";
  let '(forms, close) := r in
  if negb (existsb is_splice forms) && Nat.odd (length forms) then parse_error MapOddForms span
  else mret (Some (mkForm (FMap forms) (merged_span span close))).

Definition parse_symbolic (s : list Z) (span : Span) : parseM (option Form) :=
  _ ← bump;
  if decide (s = lit "Inf") then mret (Some (mkForm (FSymbolic INFINITY) span))
  else if decide (s = lit "-Inf") then mret (Some (mkForm (FSymbolic NEG_INFINITY) span))
  else if decide (s = lit "NaN") then mret (Some (mkForm (FSymbolic NAN) span))
  else parse_panic.

Definition parse_meta (span : Span) : parseM (option Form) :=
  _ ← bump;
  meta ← require_form span "meta form";
  target ← require_form span "annotated form";
  mret (Some (mkForm (FMeta meta target) (merged_span span (form_span target)))).

Definition parse_discard (span : Span) : parseM (option Form) :=
  _ ← bump;
  tok ← peek_tok;
  if decide (tok = TEof) then parse_error EofAfterDiscard span
  else _ ← raw; mret None.

Definition parse_cond (splicing : bool) (span : Span) : parseM (option Form) :=
  _ ← bump; form ← parse_reader_cond splicing span; mret (Some form).

(** The [match] of [parse_raw]. *)
Definition parse_token (tok : Token) (span : Span) : parseM (option Form) :=
  match tok with
  | TEof => mret None
  | TRParen | TRBracket | TRBrace => _ ← bump; parse_error UnexpectedClosing span
  | TNil => atom FNil span
  | TBool b => atom (FBool b) span
  | TInt n => atom (FInt n) span
  | TBigInt s => atom (FBigInt s) span
  | TFloat f => atom (FFloat f) span
  | TBigDecimal s => atom (FBigDecimal s) span
  | TRatio s => atom (FRatio s) span
  | TChar c => atom (FChar c) span
  | TStr s => atom (FStr s) span
  | TRegex s => atom (FRegex s) span
  | TSymbolic s => parse_symbolic s span
  | TSymbol s => atom (FSymbol s) span
  | TKeyword s => atom (FKeyword s) span
  | TAutoKeyword s => atom (FAutoKeyword s) span
  | TLParen => collection FList TRParen "list" span
  | TLBracket => collection FVector TRBracket "vector" span
  | TLBrace => parse_map span
  | THashSet => collection FSet TRBrace "set" span
  | THashFn => collection FAnonFn TRParen "anonymous function" span
  | TQuote => wrapper FQuote "quoted form" span
  | TSyntaxQuote => wrapper FSyntaxQuote "syntax-quoted form" span
  | TUnquote => wrapper FUnquote "unquoted form" span
  | TUnquoteSplice => wrapper FUnquoteSplice "unquote-spliced form" span
  | TDeref => wrapper FDeref "deref form" span
  | THashVar => wrapper FVar "var form" span
  | TMeta => parse_meta span
  | THashDiscard => parse_discard span
  | TReaderCond => parse_cond false span
  | TReaderCondSplice => parse_cond true span
  | TTaggedLiteral tag => wrapper (FTaggedLiteral tag) "tagged literal value" span
  end.
End Loops.

Fixpoint parse_raw (fuel : nat) : parseM (option Form) :=
  match fuel with
  | O => parse_no_fuel
  | S f =>
      tok ← peek_tok;
      span ← peek_span;
      parse_token (parse_raw f) tok span
  end.

(** * Entry points *)

Fixpoint parse_one_loop (fuel : nat) : parseM (option Form) :=
  match fuel with
  | O => parse_no_fuel
  | S f =>
      tok ← peek_tok;
      if decide (tok = TEof) then mret None
      else
        p ← get_parser;
        o ← parse_raw (token_fuel p);
        match o with
        | Some form => mret (Some form)
        | None => parse_one_loop f
        end
  end.

Definition parse_one : parseM (option Form) := p ← get_parser; parse_one_loop (token_fuel p).

Fixpoint parse_all_loop (fuel : nat) (forms : list Form) : parseM (list Form) :=
  match fuel with
  | O => parse_no_fuel
  | S f =>
      o ← parse_one;
      match o with
      | Some form => parse_all_loop f (forms ++ [form])
      | None => mret forms
      end
  end.

Definition parse_all : parseM (list Form) := p ← get_parser; parse_all_loop (token_fuel p) [].

(** [Iterator for Parser]. *)
Definition parser_next : Parser -> option (outcome ReadError Form) * Parser := fun p =>
  match parse_one p with
  | (Ok (Some form), p') => (Some (Ok form), p')
  | (Ok None, p') => (None, p')
  | (Err e, p') => (Some (Err e), p')
  | (Panic, p') => (Some Panic, p')
  | (OutOfFuel, p') => (Some OutOfFuel, p')
  end.
End WithUnicode.
