(* ===== verification/ParserSpec.v ===== *)
(** The parser terminates on every source, and the forms it returns are well
    formed and correctly located. *)
From stdpp Require Import strings.
From S2P Require Import Prelude RustStd Token Lexer LexerFacts LexerSpec Form Parser.
Local Open Scope Z_scope.

(** * Well-formed forms *)

(** What the payload of a form satisfies: integers fit [i64], a map literal has
    an even number of forms unless a splice may add to them, a reader
    conditional has as many keys as branches, a symbolic value is one of the
    three doubles. *)
Definition kind_ok (k : FormKind) : Prop :=
  match k with
  | FInt n => is_i64 n
  | FMap fs => existsb is_splice fs = true \/ Nat.Even (length fs)
  | FReaderCond _ fs => Nat.Even (length fs)
  | FSymbolic b => b = INFINITY \/ b = NEG_INFINITY \/ b = NAN
  | _ => True
  end.

Abbreviation form_start f := (span_start (form_span f)).
Abbreviation form_end f := (span_end (form_span f)).

(** Forms that follow each other between two byte offsets. *)
Fixpoint in_order (lo hi : nat) (fs : list Form) : Prop :=
  match fs with
  | [] => (lo <= hi)%nat
  | f :: fs' => (lo <= form_start f)%nat /\ in_order (form_end f) hi fs'
  end.

(** A well-formed tree: every node covers a non-empty range that contains its
    children, which do not overlap and are in source order. *)
Inductive wf_form : Form -> Prop :=
| wf_form_intro f :
    (form_start f < form_end f)%nat -> kind_ok (form_kind f) ->
    in_order (form_start f) (form_end f) (children f) -> Forall wf_form (children f) ->
    wf_form f.

Lemma in_order_weaken lo lo' hi hi' fs :
  (lo' <= lo)%nat -> (hi <= hi')%nat -> in_order lo hi fs -> in_order lo' hi' fs.
Proof.
  intros Hlo Hhi. revert lo lo' Hlo. induction fs as [|f fs IH]; intros lo lo' Hlo; simpl; [lia|].
  intros [H1 H2]. split; [lia|]. by apply IH with (lo := form_end f).
Qed.

Lemma in_order_snoc lo hi hi' fs f :
  in_order lo hi fs -> (hi <= form_start f)%nat -> (form_end f <= hi')%nat -> in_order lo hi' (fs ++ [f]).
Proof.
  intros H Hf Hhi. revert lo H. induction fs as [|g fs IH]; intros lo; simpl; [lia|].
  intros [H1 H2]. auto.
Qed.

Section ParserSpec.
Context {U : UnicodeTables} {B : BuildProfile}.
Context (src fl : list Z).

(** The cursors behind the tokens of the source. *)
Inductive scanned : Lexer -> Prop :=
| scanned_start : scanned (Lexer_new src fl)
| scanned_token l tok span l' : scanned l -> next_token l = (Ok (tok, span), l') -> scanned l'.

(** Token by token from its start, the source comes to a literal the lexer
    panics on. *)
Definition source_panics : Prop :=
  exists l r r0, scanned l /\ at_text l r /\ r = skip_prefix (pos l =? 0)%nat r ++ r0 /\ token_panics r0.

Definition span_ok (s : Span) : Prop := (span_start s <= span_end s <= str_len src)%nat.

(** ** Parser states *)

Definition peeked_ok (p : Parser) (r : list Z) : Prop :=
  match peeked p with
  | None => True
  | Some (tok, span) =>
      span_ok span /\ span_end span = pos (lexer p) /\
      (tok = TEof -> r = []) /\ (tok <> TEof -> good_token tok /\ (span_start span < span_end span)%nat)
  end.

(** An upper bound on the number of tokens left. *)
Definition weight (p : Parser) (r : list Z) : nat :=
  length r + match peeked p with Some (tok, _) => if decide (tok = TEof) then 0 else 1 | None => 0 end.

(** Where the next token starts, or where the lexer is. *)
Definition cursor (p : Parser) : nat :=
  match peeked p with Some (_, span) => span_start span | None => pos (lexer p) end.

(** A state with at most [w] tokens left, all of them after [lo]. *)
Definition ready (w lo : nat) (p : Parser) : Prop :=
  exists r, at_text (lexer p) r /\ source (lexer p) = src /\ peeked_ok p r /\
    (weight p r <= w)%nat /\ (lo <= cursor p)%nat /\ scanned (lexer p).

Lemma ready_weaken w w' lo lo' p : (w <= w')%nat -> (lo' <= lo)%nat -> ready w lo p -> ready w' lo' p.
Proof. intros Hw Hlo (r & ? & ? & ? & ? & ? & ?). exists r. split_and!; [done.. | lia | lia | done]. Qed.

Lemma ready_new : ready (length src) 0 (Parser_new src fl).
Proof.
  exists src. split_and!; [apply at_text_new | done | done | unfold weight; simpl; lia | simpl; lia | constructor].
Qed.

Lemma at_text_bound l r : at_text l r -> source l = src -> (pos l + str_len r = str_len src)%nat.
Proof. intros (pre & E & ->)%at_text_source <-. by rewrite E, str_len_app. Qed.

(** ** Computations *)

Definition parses {A : Type} (m : parseM A) (p : Parser) (Q : A -> Parser -> Prop) : Prop :=
  match m p with
  | (Ok a, p') => Q a p'
  | (Err e, _) => span_ok (err_span e)
  | (Panic, _) => source_panics
  | (OutOfFuel, _) => False
  end.

Lemma parses_bind {A C : Type} (m : parseM A) (k : A -> parseM C) p (Q : A -> Parser -> Prop) R :
  parses m p Q -> (forall a p', Q a p' -> parses (k a) p' R) -> parses (m ≫= k) p R.
Proof.
  unfold parses, mbind, stateM_bind. intros Hm Hk.
  destruct (m p) as [[a|e| |] p']; [by apply Hk | done..].
Qed.

Lemma parses_mono {A : Type} (m : parseM A) p (Q R : A -> Parser -> Prop) :
  parses m p Q -> (forall a p', Q a p' -> R a p') -> parses m p R.
Proof. unfold parses. destruct (m p) as [[a|e| |] p']; auto. Qed.

Lemma parses_ret {A : Type} (a : A) p (Q : A -> Parser -> Prop) : Q a p -> parses (mret a) p Q.
Proof. done. Qed.

Lemma parses_error {A : Type} msg span p (Q : A -> Parser -> Prop) :
  span_ok span -> parses (parse_error msg span) p Q.
Proof. done. Qed.

(** The lookahead holds [tok]. *)
Definition sees (w lo : nat) (tok : Token) (span : Span) (p : Parser) : Prop :=
  ready w lo p /\ peeked p = Some (tok, span).

Lemma sees_span w lo tok span p : sees w lo tok span p -> span_ok span /\ (lo <= span_start span)%nat.
Proof.
  intros [(r & _ & _ & Hp & _ & Hc & _) E]. unfold peeked_ok, cursor in *. rewrite E in *. tauto.
Qed.

Lemma sees_good w lo tok span p :
  sees w lo tok span p -> tok <> TEof -> good_token tok /\ (span_start span < span_end span)%nat.
Proof. intros [(r & _ & _ & Hp & _ & _) E]. unfold peeked_ok in *. rewrite E in *. tauto. Qed.

Lemma fill_ok w lo p :
  ready w lo p -> parses fill p (fun _ p' => exists tok span, sees w lo tok span p').
Proof.
  intros Hr. unfold parses, fill. destruct (peeked p) as [[tok span]|] eqn:Ep; [by exists tok, span|].
  destruct Hr as (r & Hat & Hsrc & _ & Hw & Hlo & Hsc).
  unfold weight, cursor in Hw, Hlo. rewrite Ep in Hw, Hlo.
  pose proof (at_text_bound _ _ Hat Hsrc) as Hb.
  destruct (next_token_run _ _ Hat) as (r0 & E & text & rest & -> & Hres). pose proof E as Eskip.
  set (blank := skip_prefix _ r) in *. assert (Hat0 : at_text (moved (lexer p) blank) (text ++ rest)) by (apply at_text_moved; by rewrite <- E).
  assert (Hlo0 : (lo <= pos (moved (lexer p) blank))%nat) by (simpl; lia).
  assert (Hsrc0 : source (moved (lexer p) blank) = src) by done.
  set (l0 := moved (lexer p) blank) in *. clearbody l0.
  pose proof (at_text_bound _ _ Hat0 Hsrc0) as Hb0. rewrite str_len_app in Hb0.
  rewrite E, !length_app in Hw.
  destruct (next_token (lexer p)) as [[[tok span]|e| |] l'] eqn:En; [| | |done].
  - destruct Hres as (-> & -> & Heof & Hne). apply after_token_text in Hat0 as Hat1.
    assert (Hpos : pos (after_token l0 text) = (pos l0 + str_len text)%nat).
    { unfold after_token. case_decide as Et; [by rewrite Et | done]. }
    assert (Hs : source (after_token l0 text) = src) by (unfold after_token; by case_decide).
    eexists tok, _. split; [|done]. exists rest. split_and!; [done | done | | | |by eapply scanned_token].
    + unfold peeked_ok, span_ok; simpl. rewrite Hpos. split_and!; [lia | lia | done | |].
      * intros Ht. apply Heof in Ht. by destruct text.
      * intros Ht. destruct (Hne Ht) as [Htext Hg]. split; [done|]. apply str_len_pos in Htext. lia.
    + unfold weight; simpl. case_decide as Ht; [lia|]. destruct (Hne Ht) as [Htext _].
      destruct text; [done|]. simpl in Hw. lia.
    + unfold cursor; simpl. lia.
  - destruct Hres as (-> & ->). unfold span_ok; simpl in *. lia.
  - by exists (lexer p), r, (text ++ rest).
Qed.

(** Looking at the next token. *)
Lemma peek_tok_ok w lo p :
  ready w lo p -> parses peek_tok p (fun tok p' => exists span, sees w lo tok span p').
Proof.
  intros Hr. eapply parses_bind; [by apply fill_ok|]. intros _ p' (tok & span & Hs).
  unfold parses, read_peeked, mbind, stateM_bind. destruct Hs as [Hs E]. rewrite E. by exists span.
Qed.

Lemma sees_fill w lo tok span p : sees w lo tok span p -> fill p = (Ok tt, p).
Proof. intros [_ E]. unfold fill. by rewrite E. Qed.

Lemma sees_peek_span w lo tok span p : sees w lo tok span p -> peek_span p = (Ok span, p).
Proof.
  intros H. unfold peek_span, mbind, stateM_bind. rewrite (sees_fill _ _ _ _ _ H).
  destruct H as [_ E]. unfold read_peeked. by rewrite E.
Qed.

Lemma sees_peek_tok w lo tok span p : sees w lo tok span p -> peek_tok p = (Ok tok, p).
Proof.
  intros H. unfold peek_tok, mbind, stateM_bind. rewrite (sees_fill _ _ _ _ _ H).
  destruct H as [_ E]. unfold read_peeked. by rewrite E.
Qed.

(** Consuming the token in the lookahead. *)
Lemma bump_ok w lo tok span p :
  sees w lo tok span p -> tok <> TEof ->
  exists p', bump p = (Ok (tok, span), p') /\ (0 < w)%nat /\ ready (w - 1) (span_end span) p'.
Proof.
  intros H Ht. exists (mkParser (lexer p) None). unfold bump, mbind, stateM_bind.
  rewrite (sees_fill _ _ _ _ _ H). destruct H as [(r & Hat & Hs & Hp & Hw & Hc & Hsc) E].
  unfold take_peeked, peeked_ok, weight in *. rewrite E in *. rewrite decide_False in Hw by done.
  destruct Hp as (_ & Hend & _). split; [done|]. split; [lia|].
  exists r. unfold weight, cursor; simpl. split_and!; [done | done | done | lia | lia | done].
Qed.

Lemma parses_bump {A : Type} (k : Token * Span -> parseM A) w lo tok span p Q :
  sees w lo tok span p -> tok <> TEof ->
  (forall p', (0 < w)%nat -> ready (w - 1) (span_end span) p' -> parses (k (tok, span)) p' Q) ->
  parses (bump ≫= k) p Q.
Proof.
  intros H Ht Hk. destruct (bump_ok _ _ _ _ _ H Ht) as (p' & E & Hw & Hr).
  unfold parses, mbind, stateM_bind. rewrite E. by apply Hk.
Qed.

Lemma parses_peek_tok {A : Type} (k : Token -> parseM A) w lo p Q :
  ready w lo p -> (forall tok span p', sees w lo tok span p' -> parses (k tok) p' Q) ->
  parses (peek_tok ≫= k) p Q.
Proof.
  intros Hr Hk. eapply parses_bind; [by apply peek_tok_ok|]. intros tok p' [span Hs]. by eapply Hk.
Qed.

(** ** Loops *)

Definition raw_result (w lo : nat) (o : option Form) (p' : Parser) : Prop :=
  match o with
  | Some f => wf_form f /\ (lo <= form_start f)%nat /\ ready (w - 1) (form_end f) p'
  | None => ready (w - 1) lo p'
  end.

(** [raw] parses correctly whenever at most [W] tokens are left. *)
Definition raw_ok (raw : parseM (option Form)) (W : nat) : Prop :=
  forall p w lo tok span, (w <= W)%nat -> sees w lo tok span p -> tok <> TEof ->
  parses raw p (raw_result w lo).

Lemma sees_pos w lo tok span p : sees w lo tok span p -> tok <> TEof -> (0 < w)%nat.
Proof. intros H Ht. by destruct (bump_ok _ _ _ _ _ H Ht) as (? & _ & ? & _). Qed.

Section Loops.
Context (raw : parseM (option Form)) (W : nat) (Hraw : raw_ok raw W).

Definition seq_result (w lo0 : nat) (r : list Form * Span) (p' : Parser) : Prop :=
  in_order lo0 (span_start r.2) r.1 /\ Forall wf_form r.1 /\
  (span_start r.2 < span_end r.2)%nat /\ ready (w - 1) (span_end r.2) p' /\ (0 < w)%nat.

Lemma seq_loop_ok fuel forms closing open_span name w lo0 lo p :
  span_ok open_span -> (w <= W)%nat -> (w < fuel)%nat -> ready w lo p ->
  in_order lo0 lo forms -> Forall wf_form forms ->
  parses (seq_loop raw fuel forms closing open_span name) p (seq_result w lo0).
Proof.
  intros Hopen. revert forms w lo p. induction fuel as [|f IH]; intros forms w lo p HW Hf Hr Ho HF; [lia|].
  cbn [seq_loop]. eapply parses_peek_tok; [done|]. intros tok span p' Hs.
  case_decide as Ht; [by apply parses_error|]. case_decide as Hc.
  - eapply parses_bump; [done | done |]. intros p2 Hw Hr2. apply parses_ret.
    destruct (sees_span _ _ _ _ _ Hs) as [_ Hlo]. destruct (sees_good _ _ _ _ _ Hs Ht) as [_ Hlt].
    split_and!; simpl; [|done | done | done | done]. by eapply in_order_weaken; [| |exact Ho]; lia.
  - pose proof (sees_pos _ _ _ _ _ Hs Ht).
    eapply parses_bind; [by eapply Hraw|]. intros o p2 Hres.
    assert (Hstep : forall forms' lo', ready (w - 1) lo' p2 -> in_order lo0 lo' forms' -> Forall wf_form forms' ->
      parses (seq_loop raw f forms' closing open_span name) p2 (seq_result w lo0)).
    { intros forms' lo' Hr' Ho' HF'. eapply parses_mono; [apply (IH forms' (w - 1)%nat lo'); [lia | lia | done | done | done]|].
      intros r p3 (? & ? & ? & Hr3 & ?). split_and!; try done. by eapply ready_weaken; [| |exact Hr3]; lia. }
    destruct o as [form|]; simpl in Hres.
    + destruct Hres as (Hwf & Hlo & Hr2). eapply Hstep; [done | | by apply Forall_app_2; auto].
      by eapply in_order_snoc.
    + by eapply Hstep.
Qed.

Lemma token_fuel_enough w lo p : ready w lo p -> exists w', (w' < token_fuel p)%nat /\ (w' <= w)%nat /\ ready w' lo p.
Proof.
  intros (r & Hat & Hs & Hp & Hw & Hlo & ?). exists (weight p r). split; [|split; [done | by exists r]].
  destruct (at_text_source _ _ Hat) as (pre & E & _).
  unfold token_fuel, weight. rewrite E, length_app. repeat case_match; lia.
Qed.

Lemma parse_seq_forms_ok closing open_span name w lo p :
  span_ok open_span -> (w <= W)%nat -> ready w lo p ->
  parses (parse_seq_forms raw closing open_span name) p (seq_result w lo).
Proof.
  intros Ho HW Hr. destruct (token_fuel_enough _ _ _ Hr) as (w' & Hf & Hw & Hr').
  unfold parse_seq_forms, parses, mbind, stateM_bind, get_parser; cbv beta iota.
  eapply parses_mono; [eapply (seq_loop_ok _ _ _ _ _ w' lo lo); [done | | done | done | | done]|].
  - lia.
  - simpl. lia.
  - intros r p' (? & ? & ? & Hr3 & ?). split_and!; try done; [|lia]. by eapply ready_weaken; [| |exact Hr3]; lia.
Qed.

Definition form_result (w lo : nat) (f : Form) (p' : Parser) : Prop :=
  wf_form f /\ (lo <= form_start f)%nat /\ ready (w - 1) (form_end f) p' /\ (0 < w)%nat.

Lemma require_loop_ok fuel macro_span what w lo p :
  span_ok macro_span -> (w <= W)%nat -> (w < fuel)%nat -> ready w lo p ->
  parses (require_loop raw fuel macro_span what) p (form_result w lo).
Proof.
  intros Hm. revert w p. induction fuel as [|f IH]; intros w p HW Hf Hr; [lia|].
  cbn [require_loop]. eapply parses_peek_tok; [done|]. intros tok span p' Hs.
  case_decide as Ht; [by apply parses_error|]. pose proof (sees_pos _ _ _ _ _ Hs Ht).
  eapply parses_bind; [by eapply Hraw|]. intros [form|] p2 Hres; simpl in Hres.
  - apply parses_ret. destruct Hres as (? & ? & ?). by split_and!.
  - eapply parses_mono; [eapply (IH (w - 1)%nat); [lia | lia | done]|].
    intros g p3 (? & ? & Hr3 & ?). split_and!; try done. by eapply ready_weaken; [| |exact Hr3]; lia.
Qed.

Lemma require_form_ok macro_span what w lo p :
  span_ok macro_span -> (w <= W)%nat -> ready w lo p ->
  parses (require_form raw macro_span what) p (form_result w lo).
Proof.
  intros Hm HW Hr. destruct (token_fuel_enough _ _ _ Hr) as (w' & Hf & Hw & Hr').
  unfold require_form, parses, mbind, stateM_bind, get_parser; cbv beta iota.
  eapply parses_mono; [eapply require_loop_ok; [done | | done | done]; lia|].
  intros g p3 (? & ? & Hr3 & ?). split_and!; try done; [|lia]. by eapply ready_weaken; [| |exact Hr3]; lia.
Qed.

(** ** The forms of [parse_raw], from the token in the lookahead *)

Section Forms.
Context (p : Parser) (w lo : nat) (tok : Token) (span : Span).
Context (Hs : sees w lo tok span p) (Ht : tok <> TEof) (HW : (w - 1 <= W)%nat).

Lemma span_in_source : span_ok span.
Proof. exact (proj1 (sees_span _ _ _ _ _ Hs)). Qed.

(** The form built from the token's span and what follows it. *)
Lemma raw_result_some (k : FormKind) end_ p' :
  kind_ok k -> (span_start span < end_)%nat ->
  in_order (span_start span) end_ (children (mkForm k span)) ->
  Forall wf_form (children (mkForm k span)) -> ready (w - 1) end_ p' ->
  forall s', span_start s' = span_start span -> span_end s' = end_ ->
  raw_result w lo (Some (mkForm k s')) p'.
Proof.
  intros Hk Hlt Ho HF Hr s' Es Ee. destruct (sees_span _ _ _ _ _ Hs) as [_ Hlo].
  split; [|simpl; rewrite Es, Ee; done]. apply wf_form_intro; simpl; rewrite ?Es, ?Ee; done.
Qed.

Lemma atom_ok k :
  kind_ok k -> children (mkForm k span) = [] -> parses (atom k span) p (raw_result w lo).
Proof.
  intros Hk Hc. eapply parses_bump; [done | done |]. intros p' Hw Hr. apply parses_ret.
  destruct (sees_good _ _ _ _ _ Hs Ht) as [_ Hlt].
  eapply raw_result_some; [done | exact Hlt | | | done | done | done]; rewrite Hc; simpl; [lia | done].
Qed.

(** The forms up to a closing delimiter, after the opening one. *)
Lemma parses_seq {A : Type} (k : list Form * Span -> parseM A) closing open_span name p' Q :
  span_ok open_span -> ready (w - 1) (span_end span) p' ->
  (forall fs close p2, (span_start span < span_end close)%nat ->
     in_order (span_start span) (span_end close) fs -> Forall wf_form fs ->
     ready (w - 1) (span_end close) p2 -> parses (k (fs, close)) p2 Q) ->
  parses (parse_seq_forms raw closing open_span name ≫= k) p' Q.
Proof.
  intros Hopen Hr Hk. destruct (sees_good _ _ _ _ _ Hs Ht) as [_ Hlt].
  eapply parses_bind; [by apply (parse_seq_forms_ok _ _ _ (w - 1)%nat)|].
  intros [fs close] p2 (Ho & HF & Hc & Hr2 & _). simpl in *.
  assert (Hend : forall l h, in_order l h fs -> Forall wf_form fs -> (l <= h)%nat).
  { clear -U. intros l h. revert l. induction fs as [|f fs IH]; intros l; simpl; [done|].
    intros [H1 H2] HF. inversion HF as [|?? Hf HF']; subst. specialize (IH _ H2 HF').
    inversion Hf; subst. lia. }
  specialize (Hend _ _ Ho HF). apply Hk; [lia | | done |].
  - eapply in_order_weaken; [| |exact Ho]; lia.
  - eapply ready_weaken; [| |exact Hr2]; lia.
Qed.

Lemma collection_ok (mk : list Form -> FormKind) closing name :
  (forall fs s, children (mkForm (mk fs) s) = fs) -> (forall fs, kind_ok (mk fs)) ->
  parses (collection raw mk closing name span) p (raw_result w lo).
Proof.
  intros Hc Hk. eapply parses_bump; [done | done |]. intros p' Hw Hr.
  apply parses_seq; [apply span_in_source | done |]. intros fs close p2 Hlt Ho HF Hr2.
  apply parses_ret. eapply raw_result_some; [done | exact Hlt | by rewrite Hc | by rewrite Hc | done | done | done].
Qed.

Lemma wrapper_ok (mk : Form -> FormKind) what :
  (forall f s, children (mkForm (mk f) s) = [f]) -> (forall f, kind_ok (mk f)) ->
  parses (wrapper raw mk what span) p (raw_result w lo).
Proof.
  intros Hc Hk. eapply parses_bump; [done | done |]. intros p' Hw Hr.
  destruct (sees_good _ _ _ _ _ Hs Ht) as [_ Hlt].
  eapply parses_bind; [by apply (require_form_ok _ _ (w - 1)%nat); [apply span_in_source|..]|].
  intros f p2 (Hwf & Hlo & Hr2 & Hw2). apply parses_ret.
  assert (form_start f < form_end f)%nat by (by inversion Hwf).
  eapply (raw_result_some _ (form_end f)); [done | lia | | | | done | done]; rewrite ?Hc; simpl.
  - lia.
  - auto.
  - eapply ready_weaken; [| |exact Hr2]; lia.
Qed.

Lemma parse_map_ok : parses (parse_map raw span) p (raw_result w lo).
Proof.
  eapply parses_bump; [done | done |]. intros p' Hw Hr.
  apply parses_seq; [apply span_in_source | done |]. intros fs close p2 Hlt Ho HF Hr2.
  case_if; [apply parses_error, span_in_source|]. apply parses_ret.
  eapply raw_result_some; [| exact Hlt | done | done | done | done | done]. simpl.
  apply andb_false_iff in E as [E|E]; [left; by apply negb_false_iff|].
  right. apply Nat.even_spec. by rewrite <- Nat.negb_odd, E.
Qed.

Lemma parse_symbolic_ok s : tok = TSymbolic s -> parses (parse_symbolic s span) p (raw_result w lo).
Proof.
  intros Etok. destruct (sees_good _ _ _ _ _ Hs Ht) as [Hg Hlt]. rewrite Etok in Hg.
  eapply parses_bump; [done | done |]. intros p' Hw Hr.
  assert (Hsym : forall b, kind_ok (FSymbolic b) -> raw_result w lo (Some (mkForm (FSymbolic b) span)) p').
  { intros b Hb. eapply raw_result_some; [done | exact Hlt | simpl; lia | done | done | done | done]. }
  repeat case_decide; try (apply parses_ret, Hsym; simpl; tauto).
  exfalso. simpl in Hg. tauto.
Qed.

Lemma parse_meta_ok : parses (parse_meta raw span) p (raw_result w lo).
Proof.
  eapply parses_bump; [done | done |]. intros p' Hw Hr.
  destruct (sees_good _ _ _ _ _ Hs Ht) as [_ Hlt]. pose proof span_in_source as Hspan.
  eapply parses_bind; [by apply (require_form_ok _ _ (w - 1)%nat)|].
  intros m p2 (Hwfm & Hlom & Hr2 & Hw2).
  eapply parses_bind; [apply (require_form_ok _ _ (w - 1 - 1)%nat); [done | lia | done]|].
  intros t p3 (Hwft & Hlot & Hr3 & Hw3). apply parses_ret.
  assert (form_start m < form_end m)%nat by (by inversion Hwfm).
  assert (form_start t < form_end t)%nat by (by inversion Hwft).
  eapply (raw_result_some _ (form_end t)); [done | lia | simpl; lia | simpl; by repeat apply Forall_cons_2 | | done | done].
  eapply ready_weaken; [| |exact Hr3]; lia.
Qed.

Lemma parse_discard_ok : parses (parse_discard raw span) p (raw_result w lo).
Proof.
  eapply parses_bump; [done | done |]. intros p' Hw Hr.
  destruct (sees_span _ _ _ _ _ Hs) as [Hspan Hlo].
  eapply parses_peek_tok; [done|]. intros tok2 span2 p2 Hs2.
  case_decide as Ht2; [by apply parses_error|].
  pose proof (sees_pos _ _ _ _ _ Hs2 Ht2).
  destruct (sees_good _ _ _ _ _ Hs Ht) as [_ Hlt].
  eapply parses_bind; [by eapply Hraw|]. intros o p3 Hres. apply parses_ret. simpl.
  destruct o as [f|]; simpl in Hres.
  - destruct Hres as (Hwf & Hf & Hr3). inversion Hwf; subst. eapply ready_weaken; [| |exact Hr3]; lia.
  - eapply ready_weaken; [| |exact Hres]; lia.
Qed.

Lemma parse_cond_ok splicing : parses (parse_cond raw splicing span) p (raw_result w lo).
Proof.
  eapply parses_bump; [done | done |]. intros p' Hw Hr.
  destruct (sees_span _ _ _ _ _ Hs) as [Hspan Hlo].
  destruct (sees_good _ _ _ _ _ Hs Ht) as [_ Hlt].
  eapply parses_bind with (Q := fun f p2 => raw_result w lo (Some f) p2); [|intros f p2 Hf; exact Hf].
  eapply parses_peek_tok; [done|]. intros tok2 span2 p2 Hs2.
  destruct (sees_span _ _ _ _ _ Hs2) as [Hspan2 Hlo2]. case_decide as Hp.
  { unfold parses, mbind, stateM_bind. by rewrite (sees_peek_span _ _ _ _ _ Hs2). }
  assert (tok2 = TLParen) as -> by (destruct (decide (tok2 = TLParen)); [done | by destruct Hp]).
  eapply parses_bump; [done | done |]. intros p3 Hw3 Hr3.
  unfold span_ok in Hspan2. apply parses_seq; [done | by eapply ready_weaken; [| |exact Hr3]; lia |].
  intros fs close p4 Hlt4 Ho HF Hr4. case_if; [by apply parses_error|]. apply parses_ret.
  eapply raw_result_some; [| exact Hlt4 | done | done | done | done | done]. simpl.
  apply Nat.even_spec. by rewrite <- Nat.negb_odd, E.
Qed.

Lemma parse_token_ok : parses (parse_token raw tok span) p (raw_result w lo).
Proof.
  pose proof (proj1 (sees_good _ _ _ _ _ Hs Ht)) as Hg.
  assert (Hclose : parses (_ ← bump; parse_error UnexpectedClosing span) p (raw_result w lo)).
  { eapply parses_bump; [done | done |]. intros. apply parses_error, span_in_source. }
  pose proof atom_ok as Hatom. pose proof collection_ok as Hcoll. pose proof wrapper_ok as Hwrap.
  pose proof parse_symbolic_ok as Hsym. pose proof parse_map_ok. pose proof parse_meta_ok.
  pose proof parse_discard_ok. pose proof parse_cond_ok as Hcond.
  clear Hs. destruct tok; simpl in Hg |- *;
    first [ done | by apply Hatom | by apply Hcoll | by apply Hwrap | by apply Hsym | by apply Hcond ].
Qed.
End Forms.
End Loops.

(** ** The entry points *)

Lemma parse_raw_ok fuel W : (W < fuel)%nat -> raw_ok (parse_raw fuel) W.
Proof.
  revert W. induction fuel as [|f IH]; intros W HW p w lo tok span Hw Hs Ht; [lia|].
  pose proof (sees_pos _ _ _ _ _ Hs Ht). cbn [parse_raw].
  unfold parses, mbind, stateM_bind. rewrite (sees_peek_tok _ _ _ _ _ Hs), (sees_peek_span _ _ _ _ _ Hs).
  eapply (parse_token_ok (parse_raw f) (W - 1)); [apply IH; lia | done | done | lia].
Qed.

Definition one_result (w lo : nat) (o : option Form) (p' : Parser) : Prop :=
  match o with
  | Some f => form_result w lo f p'
  | None => ready w lo p' /\ exists span, peeked p' = Some (TEof, span)
  end.

Lemma one_result_weaken w w' lo o p' : (w <= w')%nat -> one_result w lo o p' -> one_result w' lo o p'.
Proof.
  intros Hw. destruct o as [f|]; simpl.
  - intros (? & ? & Hr & ?). split_and!; [done | done | | lia]. by eapply ready_weaken; [| |exact Hr]; lia.
  - intros [Hr He]. split; [|done]. by eapply ready_weaken; [| |exact Hr].
Qed.

Lemma parse_one_loop_ok fuel w lo p :
  (w < fuel)%nat -> ready w lo p -> parses (parse_one_loop fuel) p (one_result w lo).
Proof.
  revert w p. induction fuel as [|f IH]; intros w p Hf Hr; [lia|]. cbn [parse_one_loop].
  eapply parses_peek_tok; [done|]. intros tok span p' Hs. case_decide as Ht.
  { subst. apply parses_ret. destruct Hs. simpl. eauto. }
  destruct Hs as [Hr' Ep]. destruct (token_fuel_enough _ _ _ Hr') as (w' & Hw' & Hle & Hr2).
  assert (Hs : sees w' lo tok span p') by done. pose proof (sees_pos _ _ _ _ _ Hs Ht).
  unfold parses, get_parser. unfold mbind at 1, stateM_bind at 1.
  eapply parses_bind; [eapply (parse_raw_ok _ w' Hw' p' w'); [done | exact Hs | done]|].
  intros [g|] p2 Hres; simpl in Hres.
  - destruct Hres as (? & ? & Hr3). apply parses_ret. split_and!; [done | done | | lia].
    by eapply ready_weaken; [| |exact Hr3]; lia.
  - eapply parses_mono; [apply (IH (w' - 1)%nat); [lia | done]|].
    intros o p3. apply one_result_weaken. lia.
Qed.

Lemma parse_one_ok w lo p : ready w lo p -> parses parse_one p (one_result w lo).
Proof.
  intros Hr. destruct (token_fuel_enough _ _ _ Hr) as (w' & Hf & Hw & Hr').
  unfold parse_one, parses, mbind, stateM_bind, get_parser; cbv beta iota.
  eapply parses_mono; [by eapply parse_one_loop_ok|]. intros o p'. by apply one_result_weaken.
Qed.

Lemma ready_bound w lo p : ready w lo p -> (lo <= str_len src)%nat.
Proof.
  intros (r & Hat & Hs & Hp & _ & Hc & _). pose proof (at_text_bound _ _ Hat Hs).
  unfold cursor, peeked_ok, span_ok in *. repeat case_match; lia.
Qed.

Definition all_result (forms : list Form) : Prop :=
  in_order 0 (str_len src) forms /\ Forall wf_form forms.

Lemma parse_all_loop_ok fuel forms w lo p :
  (w < fuel)%nat -> ready w lo p -> in_order 0 lo forms -> Forall wf_form forms ->
  parses (parse_all_loop fuel forms) p (fun fs _ => all_result fs).
Proof.
  revert forms w lo p. induction fuel as [|f IH]; intros forms w lo p Hf Hr Ho HF; [lia|].
  cbn [parse_all_loop]. eapply parses_bind; [by apply parse_one_ok|].
  intros [g|] p2 Hres; simpl in Hres.
  - destruct Hres as (Hwf & Hlo & Hr2 & Hw). apply (IH _ (w - 1)%nat (form_end g)); [lia | done | |].
    + by eapply in_order_snoc.
    + apply Forall_app_2; auto.
  - apply parses_ret. split; [|done]. destruct Hres as [Hr2 _]. apply ready_bound in Hr2.
    by eapply in_order_weaken; [| |exact Ho]; lia.
Qed.

Lemma parse_all_ok : parses parse_all (Parser_new src fl) (fun fs _ => all_result fs).
Proof.
  unfold parse_all, parses, mbind, stateM_bind, get_parser; cbv beta iota.
  eapply (parse_all_loop_ok _ _ (length src) 0); [|apply ready_new | simpl; lia | done].
  unfold token_fuel; simpl. lia.
Qed.
End ParserSpec.

(** C27: reading a whole source terminates, for every text: it returns forms or
    an error, and panics only if, token by token from its start, the text comes
    to one of the literals of [token_panics]: a radix literal whose radix is not
    between 2 and 36 or, with overflow checks, whose value is [-2^63], or a [\u]
    literal whose fourth byte is inside a character.  The forms are well formed
    at every depth (integers in range, maps and reader conditionals with even
    numbers of forms, symbolic values from the three known), in source order,
    disjoint, each covering its children, and inside the text; an error's span
    is inside the text too. *)
Theorem parse_all_total {U : UnicodeTables} {B : BuildProfile} src fl :
  match parse_all (Parser_new src fl) with
  | (Ok forms, _) => in_order 0 (str_len src) forms /\ Forall wf_form forms
  | (Err e, _) => span_ok src (err_span e)
  | (Panic, _) => source_panics src fl
  | (OutOfFuel, _) => False
  end.
Proof. apply parse_all_ok. Qed.
