(* ===== verification/Datum.v ===== *)
(** Data values: symbols, keywords, the printer and the conversion back to
    forms (crates/cljrs-value/src/symbol.rs, keyword.rs and value.rs,
    crates/cljrs-interp/src/macros.rs).

    The values are the ones with a readable notation: collections of numbers,
    characters, strings, symbols and keywords.  Doubles, ratios, decimals and
    regexes, whose printing is done by other crates, and the values printed as
    [#<...>] are left out. *)
From stdpp Require Import strings.
From S2P Require Import Prelude RustStd Token Form Lexer Parser.
Local Open Scope Z_scope.

(** * Symbols and keywords *)

Record Symbol : Type := mkSymbol {
  sym_namespace : option (list Z);
  sym_name : list Z;
  sym_version : option (list Z)
}.

Record Keyword : Type := mkKeyword {
  kw_namespace : option (list Z);
  kw_name : list Z
}.

Definition Symbol_simple (name : list Z) : Symbol := mkSymbol None name None.
Definition Symbol_qualified (ns name : list Z) : Symbol := mkSymbol (Some ns) name None.

(** [str::find] and [str::rfind] of a character, as the pieces around it. *)
Fixpoint split_first (c : Z) (s : list Z) : option (list Z * list Z) :=
  match s with
  | [] => None
  | x :: t => if x =? c then Some ([], t)
              else '(a, b) ← split_first c t; Some (x :: a, b)
  end.

Fixpoint split_last (c : Z) (s : list Z) : option (list Z * list Z) :=
  match s with
  | [] => None
  | x :: t =>
      match split_last c t with
      | Some (a, b) => Some (x :: a, b)
      | None => if x =? c then Some ([], t) else None
      end
  end.

Definition is_commit_hash (s : list Z) : bool :=
  (7 <=? str_len s)%nat && (str_len s <=? 40)%nat && forallb is_ascii_hexdigit s.

Definition split_version (name_part : list Z) : list Z * option (list Z) :=
  match split_last 64 name_part with
  | Some (base, candidate) =>
      if is_commit_hash candidate then (base, Some candidate) else (name_part, None)
  | None => (name_part, None)
  end.

(** The namespace and the rest: split at the first [/] unless it is the first
    or the last character. *)
Definition split_namespace (s : list Z) : option (list Z) * list Z :=
  match split_first 47 s with
  | Some (ns, name) => if bool_decide (ns = []) || bool_decide (name = []) then (None, s) else (Some ns, name)
  | None => (None, s)
  end.

Definition Symbol_parse (s : list Z) : Symbol :=
  let '(ns_part, name_part) := split_namespace s in
  let '(base_name, version) := split_version name_part in
  mkSymbol ns_part base_name version.

Definition Symbol_full_name (s : Symbol) : list Z :=
  match sym_namespace s with
  | Some ns => ns ++ [47] ++ sym_name s
  | None => sym_name s
  end.

Definition versioned_name (s : Symbol) : list Z :=
  match sym_namespace s, sym_version s with
  | Some ns, Some v => ns ++ [47] ++ sym_name s ++ [64] ++ v
  | Some ns, None => ns ++ [47] ++ sym_name s
  | None, Some v => sym_name s ++ [64] ++ v
  | None, None => sym_name s
  end.

Definition Keyword_parse (s : list Z) : Keyword :=
  let '(ns, name) := split_namespace s in mkKeyword ns name.

Definition Keyword_full_name (k : Keyword) : list Z :=
  match kw_namespace k with
  | Some ns => ns ++ [47] ++ kw_name k
  | None => kw_name k
  end.

Definition keyword_display (k : Keyword) : list Z :=
  match kw_namespace k with
  | Some ns => [58] ++ ns ++ [47] ++ kw_name k
  | None => [58] ++ kw_name k
  end.

(** * Values *)

(** A map is the sequence of its entries in iteration order, and a set that of
    its elements. *)
Inductive Value : Type :=
| VNil
| VBool (b : bool)
| VLong (n : Z)
| VBigInt (n : Z)
| VChar (c : Z)
| VStr (s : list Z)
| VSymbol (s : Symbol)
| VKeyword (k : Keyword)
| VList (l : list Value)
| VVector (l : list Value)
| VMap (m : list (Value * Value))
| VSet (l : list Value).

Section ValueInd.
Context (P : Value -> Prop).
Context (Hatom : forall v, match v with VList _ | VVector _ | VMap _ | VSet _ => False | _ => True end -> P v).
Context (Hlist : forall l, Forall P l -> P (VList l)).
Context (Hvector : forall l, Forall P l -> P (VVector l)).
Context (Hmap : forall m, Forall (fun kv => P kv.1 /\ P kv.2) m -> P (VMap m)).
Context (Hset : forall l, Forall P l -> P (VSet l)).

Fixpoint value_ind' (v : Value) : P v :=
  let fix go (l : list Value) : Forall P l :=
    match l with
    | [] => Forall_nil_2 P
    | x :: l' => Forall_cons_2 P x l' (value_ind' x) (go l')
    end in
  let fix go_pairs (m : list (Value * Value)) : Forall (fun kv => P kv.1 /\ P kv.2) m :=
    match m with
    | [] => Forall_nil_2 _
    | (k, x) :: m' => Forall_cons_2 (fun kv => P kv.1 /\ P kv.2) (k, x) m' (conj (value_ind' k) (value_ind' x)) (go_pairs m')
    end in
  match v with
  | VList l => Hlist l (go l)
  | VVector l => Hvector l (go l)
  | VMap m => Hmap m (go_pairs m)
  | VSet l => Hset l (go l)
  | VNil => Hatom VNil I
  | VBool b => Hatom (VBool b) I
  | VLong n => Hatom (VLong n) I
  | VBigInt n => Hatom (VBigInt n) I
  | VChar c => Hatom (VChar c) I
  | VStr s => Hatom (VStr s) I
  | VSymbol s => Hatom (VSymbol s) I
  | VKeyword k => Hatom (VKeyword k) I
  end.
End ValueInd.

(** * Printing *)

(** One character of a string literal ([pr_str], and [escape_clojure_string]
    of the command line). *)
Definition escape_char (c : Z) : list Z :=
  if c =? 34 then [92; 34]
  else if c =? 92 then [92; 92]
  else if c =? 10 then [92; 110]
  else if c =? 9 then [92; 116]
  else if c =? 13 then [92; 114]
  else [c].

Definition pr_string (s : list Z) : list Z := [34] ++ (s ≫= escape_char) ++ [34].

Definition pr_char (c : Z) : list Z :=
  if c =? 10 then lit "\newline"
  else if c =? 9 then lit "\tab"
  else if c =? 32 then lit "\space"
  else if c =? 13 then lit "\return"
  else [92; c].

(** Items with a separator between them. *)
Fixpoint join (sep : list Z) (items : list (list Z)) : list Z :=
  match items with
  | [] => []
  | [x] => x
  | x :: rest => x ++ sep ++ join sep rest
  end.

Fixpoint pr_str (readably : bool) (v : Value) {struct v} : list Z :=
  match v with
  | VNil => lit "nil"
  | VBool b => if b then lit "true" else lit "false"
  | VLong n => to_string n
  | VBigInt n => if readably then to_string n ++ [78] else to_string n
  | VChar c => if readably then pr_char c else [c]
  | VStr s => if readably then pr_string s else s
  | VSymbol s => versioned_name s
  | VKeyword k => keyword_display k
  | VList l => [40] ++ join [32] (map (pr_str readably) l) ++ [41]
  | VVector l => [91] ++ join [32] (map (pr_str readably) l) ++ [93]
  | VMap m => [123] ++ join [44; 32] (map (fun '(k, x) => pr_str readably k ++ [32] ++ pr_str readably x) m) ++ [125]
  | VSet l => [35; 123] ++ join [32] (map (pr_str readably) l) ++ [125]
  end.

(** * From values to forms *)

(** The name of the symbol at the head of a list, for the reader macros that
    [form_to_value] encodes as two-element lists. *)
Definition sugar (l : list Value) : option (Form -> FormKind) :=
  match l with
  | [VSymbol s; _] =>
      if decide (sym_name s = lit "syntax-quote") then Some FSyntaxQuote
      else if decide (sym_name s = lit "unquote") then Some FUnquote
      else if decide (sym_name s = lit "unquote-splicing") then Some FUnquoteSplice
      else None
  | _ => None
  end.

Fixpoint value_to_form (v : Value) (span : Span) {struct v} : Form :=
  let kind :=
    match v with
    | VNil => FNil
    | VBool b => FBool b
    | VLong n => FInt n
    | VStr s => FStr s
    | VChar c => FChar c
    | VBigInt n => FBigInt (to_string n)
    | VSymbol s => FSymbol (Symbol_full_name s)
    | VKeyword k => FKeyword (Keyword_full_name k)
    | VList l =>
        let forms := map (fun x => value_to_form x span) l in
        match sugar l, forms with
        | Some mk, [_; inner] => mk inner
        | _, _ => FList forms
        end
    | VVector l => FVector (map (fun x => value_to_form x span) l)
    | VMap m =>
        let fix entries (m : list (Value * Value)) : list Form :=
          match m with
          | [] => []
          | (k, x) :: m' => value_to_form k span :: value_to_form x span :: entries m'
          end in
        FMap (entries m)
    | VSet l => FSet (map (fun x => value_to_form x span) l)
    end in
  mkForm kind span.

(** * The call the command line makes *)

Definition escape_clojure_string (s : list Z) : list Z := [34] ++ (s ≫= escape_char) ++ [34].

(** [format!("(-main {})", escaped.join(" "))] in [call_main_if_defined]. *)
Definition main_call (args : list (list Z)) : list Z :=
  lit "(-main " ++ join [32] (map escape_clojure_string args) ++ lit ")".
