(* ===== verification/PrintRead.v ===== *)
(** Reading back what the printer writes.

    Each printed atom, followed by a delimiter, lexes to one token that covers
    it; printed collections parse to the corresponding forms. *)
From stdpp Require Import strings.
From S2P Require Import Prelude RustStd Token Lexer LexerFacts LexerSpec Form Parser Datum.
Local Open Scope Z_scope.

(** What can follow a printed value inside a collection or at the end. *)
Definition is_delim (c : Z) : bool := existsb (Z.eqb c) [32; 44; 41; 93; 125].

Definition delimited (r : list Z) : Prop := forall c, head r = Some c -> is_delim c = true.

Lemma is_delim_cases c : is_delim c = true -> c = 32 \/ c = 44 \/ c = 41 \/ c = 93 \/ c = 125.
Proof.
  unfold is_delim. simpl. rewrite !orb_true_iff, !Z.eqb_eq. intuition congruence.
Qed.

Section PrintRead.
Context {U : UnicodeTables} {B : BuildProfile}.

Lemma delim_char_name c : is_delim c = true -> is_char_name c = false.
Proof.
  intros [->|[->|[->|[->| ->]]]]%is_delim_cases; unfold is_char_name;
    by rewrite char_is_alphanumeric_ascii by lia.
Qed.

Lemma delim_stops (p : Z -> bool) r :
  (forall c, is_delim c = true -> p c = false) -> delimited r -> forall c, head r = Some c -> p c = false.
Proof. intros Hp Hd c Hc. by apply Hp, Hd. Qed.

Lemma delim_symbol_char c : is_delim c = true -> is_symbol_char c = false.
Proof. by intros [->|[->|[->|[->| ->]]]]%is_delim_cases. Qed.

Lemma delim_digit c : is_delim c = true -> is_ascii_digit c = false.
Proof. by intros [->|[->|[->|[->| ->]]]]%is_delim_cases. Qed.

(** [text] followed by a delimiter is one token. *)
Definition lexes_to (text : list Z) (tok : Token) : Prop :=
  forall l r, at_text l (text ++ r) -> delimited r ->
  exists span, next_token l = (Ok (tok, span), moved l text).

(** A token that starts with [c] is lexed by [m], when nothing is skipped and
    the dispatch on [c] selects [m]. *)
Lemma next_token_at l c r :
  at_text l (c :: r) -> is_lex_whitespace c = false -> c <> 59 -> (c = 35 -> head r <> Some 33) ->
  next_token l =
    (if c =? 40 then single TLParen (pos l) (line l) (col l)
     else if c =? 41 then single TRParen (pos l) (line l) (col l)
     else if c =? 91 then single TLBracket (pos l) (line l) (col l)
     else if c =? 93 then single TRBracket (pos l) (line l) (col l)
     else if c =? 123 then single TLBrace (pos l) (line l) (col l)
     else if c =? 125 then single TRBrace (pos l) (line l) (col l)
     else if c =? 39 then single TQuote (pos l) (line l) (col l)
     else if c =? 96 then single TSyntaxQuote (pos l) (line l) (col l)
     else if c =? 64 then single TDeref (pos l) (line l) (col l)
     else if c =? 94 then single TMeta (pos l) (line l) (col l)
     else if c =? 126 then lex_unquote (pos l) (line l) (col l)
     else if c =? 35 then lex_hash (pos l) (line l) (col l)
     else if c =? 34 then lex_string (pos l) (line l) (col l)
     else if c =? 92 then lex_char_literal (pos l) (line l) (col l)
     else if c =? 58 then lex_keyword (pos l) (line l) (col l)
     else if is_ascii_digit c then lex_number (pos l) (line l) (col l)
     else dispatch l c (if (c =? 43) || (c =? 45) then head r else None)) l.
Proof.
  intros Hat Hws Hsc Hsb. unfold next_token.
  rewrite (bind_ok _ _ _ _ _ (skip_whitespace_at _ _ Hat)).
  replace (skip_prefix _ (c :: r)) with (@nil Z).
  2:{ symmetry. destruct (decide (c = 35)) as [->|H35]; [by apply skip_prefix_hash, Hsb|].
      rewrite skip_prefix_other by done. simpl. rewrite Hws. by rewrite (proj2 (Z.eqb_neq c 59)). }
  rewrite moved_nil. erewrite bind_ok by reflexivity. rewrite (bind_ok _ _ _ _ _ (peek_at _ _ Hat)).
  cbn [head]. repeat (case_if; [done|]). unfold dispatch.
  destruct ((c =? 43) || (c =? 45)).
  - by rewrite (bind_ok _ _ _ _ _ (peek_next_at _ _ Hat)).
  - by erewrite bind_ok by reflexivity.
Qed.

Lemma blank_prefix_app ws r :
  Forall (fun c => is_lex_whitespace c = true) ws -> blank_prefix false (ws ++ r) = ws ++ blank_prefix false r.
Proof. induction 1 as [|c ws Hc _ IH]; [done|]. simpl. by rewrite Hc, IH. Qed.

(** Leading whitespace does not matter. *)
Lemma next_token_skip l ws r :
  ws <> [] -> Forall (fun c => is_lex_whitespace c = true) ws -> at_text l (ws ++ r) ->
  next_token l = next_token (moved l ws).
Proof.
  intros Hne HF Hat. unfold next_token.
  rewrite (bind_ok _ _ _ _ _ (skip_whitespace_at _ _ Hat)).
  rewrite (bind_ok _ _ _ _ _ (skip_whitespace_at _ _ (at_text_moved _ _ _ Hat))).
  replace (moved (moved l ws) _) with (moved l (skip_prefix (pos l =? 0)%nat (ws ++ r))); [done|].
  rewrite moved_moved. f_equal.
  replace (pos (moved l ws) =? 0)%nat with false.
  2:{ symmetry. apply Nat.eqb_neq. simpl. apply str_len_pos in Hne. lia. }
  rewrite skip_prefix_inside, <- blank_prefix_app by done. destruct ws as [|c ws]; [done|].
  inversion HF as [|?? Hc HF']; subst. apply skip_prefix_other. by intros ->.
Qed.

(** ** Strings *)

Lemma bind_escape c s : (c :: s) ≫= escape_char = escape_char c ++ (s ≫= escape_char).
Proof. done. Qed.

(** One step of the string loop over a printed character. *)
Lemma lex_string_loop_char f buf c sp sl sc l r :
  at_text l (escape_char c ++ r) ->
  lex_string_loop (S f) buf sp sl sc l
  = lex_string_loop f (buf ++ [c]) sp sl sc (moved l (escape_char c)).
Proof.
  cbn [lex_string_loop]. unfold escape_char.
  assert (Hesc : forall d, at_text l (92 :: d :: r) ->
    advance l = (Ok (Some 92), moved l [92]) /\
    advance (moved l [92]) = (Ok (Some d), moved l [92; d])).
  { intros d Hd. split; [by eapply advance_cons|]. apply at_text_cons in Hd.
    rewrite (advance_cons _ _ _ Hd), moved_moved. done. }
  repeat case_if; intros Hat; bool_hyps; subst; cbn [app] in Hat;
    try (destruct (Hesc _ Hat) as [H1 H2]; rewrite (bind_ok _ _ _ _ _ H1); cbn [Z.eqb Pos.eqb]; by rewrite (bind_ok _ _ _ _ _ H2)).
  rewrite (bind_ok _ _ _ _ _ (advance_cons _ _ _ Hat)).
  by rewrite (proj2 (Z.eqb_neq c 34)), (proj2 (Z.eqb_neq c 92)).
Qed.

Lemma escape_char_length c : (0 < length (escape_char c))%nat.
Proof. unfold escape_char. repeat case_if; simpl; lia. Qed.

Lemma lex_string_loop_printed fuel buf s sp sl sc l r :
  at_text l ((s ≫= escape_char) ++ 34 :: r) -> (length ((s ≫= escape_char) ++ 34%Z :: r) < fuel)%nat ->
  lex_string_loop fuel buf sp sl sc l = (Ok (buf ++ s), moved l ((s ≫= escape_char) ++ [34])).
Proof.
  revert buf l fuel. induction s as [|c s IH]; intros buf l fuel Hat Hf.
  - destruct fuel as [|f]; [simpl in Hf; lia|]. simpl in Hat. cbn [lex_string_loop].
    rewrite (bind_ok _ _ _ _ _ (advance_cons _ _ _ Hat)). simpl. by rewrite app_nil_r.
  - rewrite bind_escape, <- app_assoc in *. rewrite length_app in Hf.
    pose proof (escape_char_length c). destruct fuel as [|f]; [lia|].
    rewrite (lex_string_loop_char _ _ _ _ _ _ _ _ Hat).
    rewrite IH; [|by apply at_text_moved | lia]. by rewrite moved_moved, <- !app_assoc.
Qed.

Lemma lexes_string s : lexes_to (pr_string s) (TStr s).
Proof.
  intros l r Hat _. unfold pr_string in *. rewrite <- !app_assoc in Hat. cbn [app] in Hat.
  rewrite (next_token_at _ _ _ Hat) by done. simpl. unfold lex_string.
  rewrite (bind_ok _ _ _ _ _ (advance_cons _ _ _ Hat)). erewrite bind_ok by reflexivity.
  apply at_text_cons in Hat as Hat1.
  erewrite bind_ok by (eapply lex_string_loop_printed; [exact Hat1 | by eapply at_text_fuel]).
  rewrite moved_moved, emit_at. by eexists.
Qed.

(** ** Symbols and keywords *)

(** Texts the reader takes as a word: no terminating character, and a first
    character that does not start another token. *)
Definition word_ok (s : list Z) : bool :=
  match s with
  | [] => false
  | c :: t =>
      forallb is_symbol_char s && is_symbol_start c && negb (c =? 39)
      && negb (((c =? 43) || (c =? 45)) && match head t with Some d => is_ascii_digit d | None => false end)
  end.

(** A word that is a symbol and not one of the three literals. *)
Definition readable_symbol (s : list Z) : bool :=
  word_ok s && bool_decide (s <> lit "nil") && bool_decide (s <> lit "true") && bool_decide (s <> lit "false").

Lemma read_while_exact p l a r :
  at_text l (a ++ r) -> Forall (fun c => p c = true) a -> (forall c, head r = Some c -> p c = false) ->
  read_while p l = (Ok a, moved l a).
Proof. intros Hat Ha Hr. rewrite (read_while_at _ _ _ Hat). by rewrite take_while_app. Qed.

(** A first character that is not one of the reader macros. *)
Lemma symbol_start_ordinary c :
  is_symbol_start c = true -> c <> 39 ->
  is_lex_whitespace c = false /\ c <> 59 /\ c <> 35 /\
  Forall (fun d => (c =? d) = false) [40; 41; 91; 93; 123; 125; 39; 96; 64; 94; 126; 35; 34; 92; 58] /\
  is_ascii_digit c = false.
Proof.
  unfold is_symbol_start, is_symbol_char, is_lex_whitespace. simpl.
  rewrite !andb_true_iff, !negb_true_iff, !orb_false_iff, !Z.eqb_neq. intros H Hq.
  split_and!; try tauto.
  repeat (apply Forall_cons_2; [apply Z.eqb_neq; tauto|]). apply Forall_nil_2.
Qed.

Lemma symbol_token_plain s :
  s <> lit "nil" -> s <> lit "true" -> s <> lit "false" -> symbol_token s = TSymbol s.
Proof. intros. unfold symbol_token. by rewrite !decide_False by done. Qed.

Lemma not_at_delim r : delimited r -> head r <> Some 64.
Proof. intros Hd H. by specialize (Hd _ H). Qed.

Lemma lexes_word s : word_ok s = true -> lexes_to s (symbol_token s).
Proof.
  intros Hs l r Hat Hd. destruct s as [|c t]; [done|]. unfold word_ok in Hs.
  rewrite !andb_true_iff in Hs. destruct Hs as [[[Hall Hstart] Hq] Hsign].
  apply negb_true_iff, Z.eqb_neq in Hq. apply forallb_Forall_true in Hall as Hall'.
  destruct (symbol_start_ordinary c Hstart Hq) as (Hws & Hsc & Hhash & Hne & Hdig).
  cbn [app] in Hat. rewrite (next_token_at _ _ _ Hat) by done.
  repeat match goal with H : Forall _ (_ :: _) |- _ => inversion H; clear H; subst end.
  repeat match goal with H : (c =? _) = false |- _ => rewrite H end. rewrite Hdig. unfold dispatch.
  assert (Hsg : match (if (c =? 43) || (c =? 45) then head (t ++ r) else None) with
                | Some d => is_ascii_digit d | None => false end = false).
  { destruct ((c =? 43) || (c =? 45)); [|done]. destruct t as [|d t]; simpl in *.
    - destruct (head r) as [d|] eqn:Ed; [|done]. by apply delim_digit, Hd.
    - by destruct (is_ascii_digit d). }
  rewrite Hsg, Hstart. unfold lex_symbol, read_symbol_chars.
  rewrite (bind_ok _ _ _ _ _ (read_while_exact is_symbol_char l (c :: t) r Hat
    (forallb_Forall_true _ _ Hall) (delim_stops _ _ delim_symbol_char Hd))).
  rewrite (bind_ok _ _ _ _ _ (peek_at _ _ (at_text_moved l (c :: t) r Hat))).
  rewrite decide_False by (by apply not_at_delim). erewrite bind_ok by reflexivity.
  rewrite emit_at. by eexists.
Qed.

Lemma lexes_symbol s : readable_symbol s = true -> lexes_to s (TSymbol s).
Proof.
  unfold readable_symbol. rewrite !andb_true_iff, !bool_decide_eq_true. intros [[[Hw ?] ?] ?].
  rewrite <- symbol_token_plain by done. by apply lexes_word.
Qed.

(** A keyword's name: symbol characters, not starting with a colon. *)
Definition readable_keyword (s : list Z) : bool :=
  match s with [] => false | c :: _ => forallb is_symbol_char s && negb (c =? 58) end.

Lemma lexes_keyword s : readable_keyword s = true -> lexes_to (58 :: s) (TKeyword s).
Proof.
  intros Hs l r Hat Hd. destruct s as [|c t]; [done|]. cbn [readable_keyword] in Hs.
  apply andb_true_iff in Hs as [Hall Hc]. apply negb_true_iff, Z.eqb_neq in Hc.
  cbn [app] in Hat. rewrite (next_token_at _ _ _ Hat) by done. simpl. unfold lex_keyword.
  rewrite (bind_ok _ _ _ _ _ (advance_cons _ _ _ Hat)). apply at_text_cons in Hat.
  rewrite (bind_ok _ _ _ _ _ (peek_at _ _ Hat)). rewrite decide_False by (simpl; congruence).
  unfold read_symbol_chars.
  rewrite (bind_ok _ _ _ _ _ (read_while_exact is_symbol_char _ (c :: t) r Hat
    (forallb_Forall_true _ _ Hall) (delim_stops _ _ delim_symbol_char Hd))).
  rewrite moved_moved, emit_at. by eexists.
Qed.

(** ** Numbers *)

(** Printed digits have no leading zero unless the number is [0]. *)
Lemma udec_fuel_head f n : 0 < n -> n < 2 ^ Z.of_nat f -> exists c t, udec_fuel f n = c :: t /\ c <> 48 /\ is_ascii_digit c = true.
Proof.
  revert n. induction f as [|f IH]; intros n Hn Hb; [simpl in Hb; lia|]. cbn [udec_fuel].
  destruct (Z.ltb_spec n 10).
  - exists (48 + n), []. split_and!; [done | lia | zbool].
  - rewrite Nat2Z.inj_succ, Z.pow_succ_r in Hb by lia.
    destruct (IH (n / 10)) as (c & t & -> & Hc & Hd).
    + apply Z.div_str_pos. lia.
    + apply Z.div_lt_upper_bound; lia.
    + exists c, (t ++ [48 + n mod 10]). done.
Qed.

Lemma udec_head n : 0 <= n -> udec n = [48] \/ exists c t, udec n = c :: t /\ c <> 48 /\ is_ascii_digit c = true.
Proof.
  intros Hn. destruct (decide (n = 0)) as [->|H0]; [by left|]. right.
  apply udec_fuel_head; [lia|]. rewrite Nat2Z.inj_succ, Z2Nat.id by apply Z.log2_nonneg.
  apply Z.log2_spec. lia.
Qed.

Lemma digit_ordinary c : is_ascii_digit c = true ->
  is_lex_whitespace c = false /\ c <> 59 /\ c <> 35 /\ c <> 43 /\ c <> 45 /\
  Forall (fun d => (c =? d) = false) [40; 41; 91; 93; 123; 125; 39; 96; 64; 94; 126; 35; 34; 92; 58].
Proof.
  unfold is_ascii_digit. rewrite in_range_true. intros H. unfold is_lex_whitespace.
  rewrite !orb_false_iff, !Z.eqb_neq. split_and!; try lia.
  repeat (apply Forall_cons_2; [apply Z.eqb_neq; lia|]). apply Forall_nil_2.
Qed.

(** A printed number starts the number lexer. *)
Lemma next_token_number l n r :
  at_text l (to_string n ++ r) -> next_token l = lex_number (pos l) (line l) (col l) l.
Proof.
  intros Hat. unfold to_string in Hat. destruct (Z.ltb_spec n 0).
  - destruct (udec_cons (- n)) as (c & t & E & Hc); [lia|]. rewrite E in Hat. cbn [app] in Hat.
    rewrite (next_token_at _ _ _ Hat) by done. simpl. unfold dispatch. by rewrite Hc.
  - destruct (udec_cons n) as (c & t & E & Hc); [done|]. rewrite E in Hat. cbn [app] in Hat.
    destruct (digit_ordinary c Hc) as (? & ? & ? & _ & _ & HF).
    rewrite (next_token_at _ _ _ Hat) by done.
    repeat match goal with H : Forall _ (_ :: _) |- _ => inversion H; clear H; subst end.
    repeat match goal with H : (c =? _) = false |- _ => rewrite H end. by rewrite Hc.
Qed.

Lemma lex_number_printed l n r sp sl sc :
  at_text l (to_string n ++ r) -> (forall c, head r = Some c -> is_ascii_digit c = false) ->
  lex_number sp sl sc l = lex_number_tail (n <? 0) (udec (Z.abs n)) sp sl sc (moved l (to_string n)).
Proof.
  intros Hat Hr. unfold lex_number, to_string in *. destruct (Z.ltb_spec n 0).
  - rewrite Z.abs_neq by lia. cbn [app] in Hat.
    rewrite (bind_ok _ _ _ _ _ (lex_sign_at _ _ _ Hat (or_intror eq_refl))). apply at_text_cons in Hat.
    rewrite (bind_ok _ _ _ _ _ (read_while_exact is_ascii_digit _ _ _ Hat (udec_digits (- n) ltac:(lia)) Hr)).
    by rewrite moved_moved.
  - rewrite Z.abs_eq by lia. assert (Hs : forall c, head (udec n ++ r) = Some c -> c <> 43 /\ c <> 45).
    { destruct (udec_cons n) as (c & t & -> & Hc); [done|]. simpl. intros ? [= <-].
      destruct (digit_ordinary c Hc) as (_ & _ & _ & ? & ? & _). done. }
    rewrite (bind_ok _ _ _ _ _ (lex_sign_none _ _ Hat Hs)).
    by rewrite (bind_ok _ _ _ _ _ (read_while_exact is_ascii_digit _ _ _ Hat (udec_digits n ltac:(lia)) Hr)).
Qed.

Lemma to_string_signed n : (if n <? 0 then [45] else []) ++ udec (Z.abs n) = to_string n.
Proof.
  unfold to_string. destruct (Z.ltb_spec n 0); [by rewrite Z.abs_neq by lia | by rewrite Z.abs_eq by lia].
Qed.

(** Printed digits are not taken as octal. *)
Lemma udec_not_octal n b : (1 <? length (udec (Z.abs n)))%nat && bool_decide (head (udec (Z.abs n)) = Some 48) && b = false.
Proof.
  destruct (udec_head (Z.abs n)) as [-> | (c & t & -> & Hc & _)]; [lia | done |].
  rewrite bool_decide_eq_false_2 by (simpl; congruence). by rewrite andb_false_r.
Qed.

Lemma lexes_long n : is_i64 n -> lexes_to (to_string n) (TInt n).
Proof.
  intros Hn l r Hat Hd. rewrite (next_token_number _ _ _ Hat).
  rewrite (lex_number_printed _ _ _ _ _ _ Hat (delim_stops _ _ delim_digit Hd)).
  unfold lex_number_tail. rewrite (bind_ok _ _ _ _ _ (peek_at _ _ (at_text_moved _ _ _ Hat))).
  assert (Hno : forall c, is_delim c = false -> head r <> Some c).
  { intros c Hc E. specialize (Hd _ E). congruence. }
  rewrite (bool_decide_eq_false_2 (head r = Some 120 \/ _)) by (intros [E|E]; by apply Hno in E).
  rewrite andb_false_r. rewrite decide_False by (intros [E|E]; by apply Hno in E).
  rewrite udec_not_octal. rewrite !decide_False by (first [by apply Hno | intros [E|[E|E]]; by apply Hno in E]).
  erewrite bind_ok by reflexivity. cbv zeta. rewrite to_string_signed.
  unfold parse_i64. rewrite from_str_radix_to_string; [|done | by unfold i64_min].
  rewrite emit_at. by eexists.
Qed.

Lemma lexes_bigint n : lexes_to (to_string n ++ [78]) (TBigInt (to_string n)).
Proof.
  intros l r Hat Hd. rewrite <- app_assoc in Hat. rewrite (next_token_number _ _ _ Hat).
  rewrite (lex_number_printed _ _ _ _ _ _ Hat) by (simpl; by intros ? [= <-]).
  unfold lex_number_tail. apply at_text_moved in Hat as Hat1.
  rewrite (bind_ok _ _ _ _ _ (peek_at _ _ Hat1)). cbn [head app].
  rewrite (bool_decide_eq_false_2 (Some 78 = Some 120 \/ _)) by (by intros [|]).
  rewrite andb_false_r. rewrite decide_False by (by intros [|]).
  rewrite udec_not_octal. rewrite decide_True by done.
  rewrite (bind_ok _ _ _ _ _ (advance_cons _ _ _ Hat1)), moved_moved.
  rewrite to_string_signed, emit_at. by eexists.
Qed.

(** ** Characters *)

(** The characters whose printed form can be read: all but the alphanumeric
    ones outside ASCII. *)
Definition readable_char (c : Z) : bool :=
  (0 <=? c) && ((c <? 128) || negb (char_is_alphanumeric c)).

(** The character lexer, given the name it finds after the backslash. *)
Lemma next_token_char l r c name :
  at_text l (92 :: name ++ r) -> Forall (fun c => c <> 10) name ->
  char_literal_value (name ++ r) (take_while is_char_name (name ++ r)) (pos l) (line l) (col l) (moved l [92])
    = (Ok c, moved (moved l [92]) name) ->
  exists span, next_token l = (Ok (TChar c, span), moved l (92 :: name)).
Proof.
  intros Hat Hnl Hv. rewrite (next_token_at _ _ _ Hat) by done. simpl. unfold lex_char_literal.
  rewrite (bind_ok _ _ _ _ _ (advance_cons _ _ _ Hat)). apply at_text_cons in Hat.
  rewrite (bind_ok _ _ _ _ _ (rest_of_source_at _ _ Hat)). cbv zeta.
  rewrite (bind_ok _ _ _ _ _ Hv), moved_moved, emit_at. by eexists.
Qed.

Lemma lexes_named_char name c :
  named_char name = Some c -> forallb is_ascii_alphanumeric name = true -> lexes_to (92 :: name) (TChar c).
Proof.
  intros Hn Hall%forallb_Forall_true l r Hat Hd.
  assert (Hname : Forall (fun c => is_char_name c = true) name).
  { eapply Forall_impl; [exact Hall|]. intros x Hx. unfold is_char_name.
    rewrite char_is_alphanumeric_ascii; [by rewrite Hx|]. revert Hx. unfold is_ascii_alphanumeric.
    rewrite !orb_true_iff, !in_range_true. lia. }
  assert (Hnl : Forall (fun c => c <> 10) name) by (eapply Forall_impl; [exact Hname | exact char_name_not_newline]).
  apply (next_token_char _ r _ name Hat Hnl).
  rewrite take_while_app; [|done | exact (delim_stops _ _ delim_char_name Hd)].
  unfold char_literal_value. rewrite Hn. by rewrite (bind_ok _ _ _ _ _ (skip_bytes_at _ _ Hnl)).
Qed.

Lemma named_char_single c : named_char [c] = None.
Proof. unfold named_char. by rewrite !decide_False by done. Qed.

Lemma lexes_plain_char c : readable_char c = true -> c <> 10 -> lexes_to [92; c] (TChar c).
Proof.
  intros Hc Hnl l r Hat Hd. assert (HF : Forall (fun c => c <> 10) [c]) by (by constructor).
  apply (next_token_char l r c [c] Hat HF). cbn [app take_while].
  assert (Hskip : forall l', (_ ← skip_bytes (len_utf8 c); mret c) l' = (Ok c, moved l' [c])).
  { intros l'. replace (len_utf8 c) with (str_len [c]) by (by rewrite str_len_cons, Nat.add_0_r).
    by rewrite (bind_ok _ _ _ _ _ (skip_bytes_at _ _ HF)). }
  destruct (is_char_name c) eqn:Ename.
  - assert (Hascii : c < 128).
    { unfold is_char_name, readable_char in *. destruct (Z.ltb_spec c 128); [done|].
      destruct (char_is_alphanumeric c); [by rewrite andb_false_r in Hc|]. simpl in Ename. bool_hyps. lia. }
    replace (take_while is_char_name r) with (@nil Z).
    2:{ destruct r as [|x r]; [done|]. simpl. by rewrite (delim_stops _ _ delim_char_name Hd). }
    unfold char_literal_value. rewrite named_char_single.
    assert (Hlen : str_len [c] = 1%nat) by (rewrite str_len_ascii; [done | by constructor]).
    rewrite Hlen. simpl. rewrite !andb_false_r. apply Hskip.
  - apply Hskip.
Qed.

Lemma lexes_char c : readable_char c = true -> lexes_to (pr_char c) (TChar c).
Proof.
  intros Hc. unfold pr_char. repeat case_if; bool_hyps; subst;
    first [by apply lexes_named_char | by apply lexes_plain_char].
Qed.
End PrintRead.
