(* ===== verification/PrintForm.v ===== *)
(** Parsing printed values: the forms the parser builds from the printer's
    text are the ones [value_to_form] builds from the values. *)
From stdpp Require Import strings.
From S2P Require Import Prelude RustStd Token Lexer LexerFacts LexerSpec Form Parser Datum PrintRead.
Local Open Scope Z_scope.

(** * Forms up to their spans *)

Definition no_span : Span := mkSpan [] 0 0 0 0.

Fixpoint erase (f : Form) : Form :=
  let 'mkForm k _ := f in
  mkForm
    match k with
    | FList fs => FList (map erase fs)
    | FVector fs => FVector (map erase fs)
    | FMap fs => FMap (map erase fs)
    | FSet fs => FSet (map erase fs)
    | FAnonFn fs => FAnonFn (map erase fs)
    | FReaderCond b fs => FReaderCond b (map erase fs)
    | FQuote g => FQuote (erase g)
    | FSyntaxQuote g => FSyntaxQuote (erase g)
    | FUnquote g => FUnquote (erase g)
    | FUnquoteSplice g => FUnquoteSplice (erase g)
    | FDeref g => FDeref (erase g)
    | FVar g => FVar (erase g)
    | FMeta m t => FMeta (erase m) (erase t)
    | FTaggedLiteral s g => FTaggedLiteral s (erase g)
    | _ => k
    end no_span.

(** The parser about to read from [l]. *)
Definition fresh (l : Lexer) : Parser := mkParser l None.

Definition is_closer (tok : Token) : bool :=
  match tok with TEof | TRParen | TRBracket | TRBrace => true | _ => false end.

Section PrintForm.
Context {U : UnicodeTables} {B : BuildProfile}.

Lemma pbind_ok {A C : Type} (m : parseM A) (k : A -> parseM C) p a p' :
  m p = (Ok a, p') -> (m ≫= k) p = k a p'.
Proof. intros H. unfold mbind, stateM_bind. by rewrite H. Qed.

Lemma fill_fresh l ts l' : next_token l = (Ok ts, l') -> fill (fresh l) = (Ok tt, mkParser l' (Some ts)).
Proof. intros H. unfold fill. simpl. by rewrite H. Qed.

Lemma fill_filled l ts : fill (mkParser l (Some ts)) = (Ok tt, mkParser l (Some ts)).
Proof. done. Qed.

Lemma peek_tok_fresh l ts l' : next_token l = (Ok ts, l') -> peek_tok (fresh l) = (Ok ts.1, mkParser l' (Some ts)).
Proof. intros H. unfold peek_tok. by rewrite (pbind_ok _ _ _ _ _ (fill_fresh _ _ _ H)). Qed.

Lemma bump_fresh l ts l' : next_token l = (Ok ts, l') -> bump (fresh l) = (Ok ts, fresh l').
Proof. intros H. unfold bump. by rewrite (pbind_ok _ _ _ _ _ (fill_fresh _ _ _ H)). Qed.

(** [parse_raw] from a fresh state: the next token decides. *)
Lemma parse_raw_fresh f l ts l' :
  next_token l = (Ok ts, l') ->
  parse_raw (S f) (fresh l) = parse_token (parse_raw f) ts.1 ts.2 (mkParser l' (Some ts)).
Proof.
  intros H. cbn [parse_raw]. by rewrite (pbind_ok _ _ _ _ _ (peek_tok_fresh _ _ _ H)).
Qed.

(** Having looked at the next token makes no difference. *)
Lemma parse_raw_filled f l ts l' :
  next_token l = (Ok ts, l') -> parse_raw (S f) (mkParser l' (Some ts)) = parse_raw (S f) (fresh l).
Proof. intros H. by rewrite (parse_raw_fresh _ _ _ _ H). Qed.

(** When a form is read, the next token is neither a closing delimiter nor the
    end of input. *)
Lemma parse_raw_some_token f l form p' :
  parse_raw (S f) (fresh l) = (Ok (Some form), p') ->
  exists ts l', next_token l = (Ok ts, l') /\ is_closer ts.1 = false.
Proof.
  intros H. destruct (next_token l) as [[ts|e| |] l'] eqn:E.
  - exists ts, l'. split; [done|]. rewrite (parse_raw_fresh _ _ _ _ E) in H.
    destruct ts as [tok span]. simpl in H. by destruct tok.
  - cbn [parse_raw] in H. unfold peek_tok, fill, mbind, stateM_bind in H. simpl in H. by rewrite E in H.
  - cbn [parse_raw] in H. unfold peek_tok, fill, mbind, stateM_bind in H. simpl in H. by rewrite E in H.
  - cbn [parse_raw] in H. unfold peek_tok, fill, mbind, stateM_bind in H. simpl in H. by rewrite E in H.
Qed.

(** [text] reads as the form [k], up to spans, with [n] levels of fuel. *)
Definition reads (n : nat) (text : list Z) (k : Form) : Prop :=
  forall fuel l r, (n < fuel)%nat -> at_text l (text ++ r) -> delimited r ->
  exists f, parse_raw fuel (fresh l) = (Ok (Some f), fresh (moved l text)) /\ erase f = k.

Lemma reads_skip fuel l ws r :
  Forall (fun c => is_lex_whitespace c = true) ws -> at_text l (ws ++ r) ->
  forall form p', parse_raw (S fuel) (fresh (moved l ws)) = (Ok (Some form), p') ->
  parse_raw (S fuel) (fresh l) = (Ok (Some form), p') /\
  exists ts l', next_token l = (Ok ts, l') /\ is_closer ts.1 = false.
Proof.
  intros HF Hat form p' H. destruct (parse_raw_some_token _ _ _ _ H) as (ts & l' & E & Hc).
  assert (El : next_token l = (Ok ts, l')).
  { destruct (decide (ws = [])) as [->|Hne]; [by rewrite moved_nil in E|].
    by rewrite (next_token_skip _ _ _ Hne HF Hat). }
  split; [|by exists ts, l']. rewrite (parse_raw_fresh _ _ _ _ E) in H. by rewrite (parse_raw_fresh _ _ _ _ El).
Qed.

(** ** Sequences *)

(** Items as they are laid out: the whitespace before, the text, the form. *)
Definition item : Type := list Z * list Z * Form.
Definition item_text (i : item) : list Z := i.1.1 ++ i.1.2.
Definition items_text (its : list item) : list Z := concat (map item_text its).

Definition item_ok (n : nat) (i : item) : Prop :=
  Forall (fun c => is_lex_whitespace c = true) i.1.1 /\ reads n i.1.2 i.2.

Context (fuel : nat).

(** One turn of the loop. *)
Lemma seq_loop_item f forms closing open_span name n i l r :
  (n < fuel)%nat -> is_closer closing = true ->
  item_ok n i -> at_text l (item_text i ++ r) -> delimited r ->
  exists form, erase form = i.2 /\
  seq_loop (parse_raw fuel) (S f) forms closing open_span name (fresh l)
  = seq_loop (parse_raw fuel) f (forms ++ [form]) closing open_span name (fresh (moved l (item_text i))).
Proof.
  intros Hf Hcl [Hws Hr] Hat Hd. destruct i as [[ws text] k]. unfold item_text in *. simpl in *.
  rewrite <- app_assoc in Hat. destruct fuel as [|fl]; [lia|].
  destruct (Hr (S fl) (moved l ws) r) as (form & Hraw & He); [done | by apply at_text_moved | done |].
  destruct (reads_skip _ _ _ _ Hws Hat _ _ Hraw) as [Hraw' (ts & l' & Ets & Hts)].
  exists form. split; [done|]. cbn [seq_loop].
  rewrite (pbind_ok _ _ _ _ _ (peek_tok_fresh _ _ _ Ets)).
  rewrite decide_False by (by intros E; rewrite E in Hts).
  rewrite decide_False by (intros E; rewrite E in Hts; congruence).
  erewrite pbind_ok by (rewrite (parse_raw_filled _ _ _ _ Ets); exact Hraw').
  by rewrite moved_moved.
Qed.

(** Every item but the first starts with a delimiter. *)
Fixpoint laid_out (its : list item) : Prop :=
  match its with
  | [] => True
  | _ :: its' =>
      match its' with
      | [] => True
      | j :: _ => exists c t, j.1.1 = c :: t /\ is_delim c = true
      end /\ laid_out its'
  end.

(** [ct] is the closing delimiter [closing], perhaps after whitespace. *)
Definition closes (ct : list Z) (closing : Token) : Prop :=
  (exists c t, ct = c :: t /\ is_delim c = true) /\ is_closer closing = true /\ closing <> TEof /\
  forall l r, at_text l (ct ++ r) -> exists span, next_token l = (Ok (closing, span), moved l ct).

Lemma laid_out_delimited i its c t r :
  laid_out (i :: its) -> is_delim c = true -> delimited (items_text its ++ (c :: t) ++ r).
Proof.
  intros [H _] Hc x. destruct its as [|[[ws text] k] its]; simpl; [by intros [= <-]|].
  destruct H as (c' & t' & E & Hd). simpl in E. subst ws. simpl. by intros [= <-].
Qed.

Lemma seq_loop_items its : forall f forms closing open_span name n ct l r,
  (n < fuel)%nat -> (length its < f)%nat -> closes ct closing -> Forall (item_ok n) its -> laid_out its ->
  at_text l (items_text its ++ ct ++ r) ->
  exists forms' span, map erase forms' = map snd its /\
  seq_loop (parse_raw fuel) f forms closing open_span name (fresh l)
  = (Ok (forms ++ forms', span), fresh (moved l (items_text its ++ ct))).
Proof.
  induction its as [|i its IH]; intros f forms closing open_span name n ct l r Hn Hf Hc HF Hl Hat.
  - destruct f as [|f]; [simpl in Hf; lia|]. destruct Hc as (_ & _ & Heof & Hc).
    destruct (Hc l r Hat) as [span E]. exists [], span. split; [done|]. cbn [seq_loop].
    rewrite (pbind_ok _ _ _ _ _ (peek_tok_fresh _ _ _ E)).
    rewrite decide_False by done. rewrite decide_True by done. by rewrite app_nil_r.
  - destruct f as [|f]; [simpl in Hf; lia|]. inversion HF as [|?? Hi HF']; subst.
    assert (Hd : delimited (items_text its ++ ct ++ r)).
    { destruct Hc as [(c & t & -> & Hc) _]. by eapply laid_out_delimited. }
    change (items_text (i :: its)) with (item_text i ++ items_text its) in *.
    rewrite <- app_assoc in Hat.
    destruct (seq_loop_item f forms closing open_span name n i l _ Hn (proj1 (proj2 Hc)) Hi Hat Hd) as (form & He & ->).
    destruct (IH f (forms ++ [form]) closing open_span name n ct (moved l (item_text i)) r Hn)
      as (forms' & span & Hm & ->); [simpl in Hf; lia | done | done | by destruct Hl | by apply at_text_moved |].
    exists (form :: forms'), span. split; [simpl; by rewrite He, Hm|].
    by rewrite moved_moved, <- !app_assoc.
Qed.

(** The number of items is bounded by the text, so the loops' fuel is enough. *)
Lemma laid_out_length i its : laid_out (i :: its) -> (length its <= length (items_text its))%nat.
Proof.
  revert i. induction its as [|j its IH]; intros i [Hj Hl]; [done|]. specialize (IH j Hl).
  change (items_text (j :: its)) with (item_text j ++ items_text its). rewrite length_app.
  destruct Hj as (c & t & E & _). unfold item_text. rewrite E. simpl. lia.
Qed.

Lemma items_fuel l its ct r :
  laid_out its -> at_text l (items_text its ++ ct ++ r) -> (length its < token_fuel (fresh l))%nat.
Proof.
  intros Hl Hat. apply at_text_fuel in Hat. unfold loop_fuel in Hat. unfold token_fuel; simpl.
  destruct its as [|i its]; [simpl; lia|]. apply laid_out_length in Hl.
  change (items_text (i :: its)) with (item_text i ++ items_text its) in Hat.
  rewrite !length_app in Hat. simpl in *. lia.
Qed.

Lemma parse_seq_items its closing open_span name n ct l r :
  (n < fuel)%nat -> closes ct closing -> Forall (item_ok n) its -> laid_out its ->
  at_text l (items_text its ++ ct ++ r) ->
  exists forms span, map erase forms = map snd its /\
  parse_seq_forms (parse_raw fuel) closing open_span name (fresh l)
  = (Ok (forms, span), fresh (moved l (items_text its ++ ct))).
Proof.
  intros Hn Hc HF Hl Hat. unfold parse_seq_forms. erewrite pbind_ok by reflexivity.
  destruct (seq_loop_items its (token_fuel (fresh l)) [] closing open_span name n ct l r Hn
    (items_fuel _ _ _ _ Hl Hat) Hc HF Hl Hat) as (forms & span & Hm & ->).
  by exists forms, span.
Qed.
End PrintForm.

Section Values.
Context {U : UnicodeTables} {B : BuildProfile}.

(** ** Atoms *)

Lemma reads_atom n text tok k :
  lexes_to text tok ->
  (forall raw span, parse_token raw tok span = atom k span) ->
  (forall s, erase (mkForm k s) = mkForm k no_span) ->
  reads n text (mkForm k no_span).
Proof.
  intros Hlex Hk Herase fuel l r Hf Hat Hd. destruct fuel as [|f]; [lia|].
  destruct (Hlex l r Hat Hd) as [span E]. exists (mkForm k span). split; [|done].
  rewrite (parse_raw_fresh _ _ _ _ E). simpl. by rewrite Hk.
Qed.

(** ** Collections *)

(** [open] is the opening delimiter of the token [tok]. *)
Definition opens (open : list Z) (tok : Token) : Prop :=
  forall l r, at_text l (open ++ r) -> exists span, next_token l = (Ok (tok, span), moved l open).

Lemma single_token l c r tok :
  at_text l (c :: r) ->
  exists span, single tok (pos l) (line l) (col l) l = (Ok (tok, span), moved l [c]).
Proof.
  intros Hat. unfold single. rewrite (bind_ok _ _ _ _ _ (advance_cons _ _ _ Hat)), emit_at. by eexists.
Qed.

Lemma closes_delimiters : closes [41] TRParen /\ closes [93] TRBracket /\ closes [125] TRBrace.
Proof.
  split_and!; (split_and!; [by eexists _, [] | done | done |]); intros l r Hat; cbn [app] in Hat;
    rewrite (next_token_at _ _ _ Hat) by done; by eapply single_token.
Qed.

Lemma opens_delimiters : opens [40] TLParen /\ opens [91] TLBracket /\ opens [123] TLBrace /\ opens [35; 123] THashSet.
Proof.
  split_and!; intros l r Hat; cbn [app] in Hat; rewrite (next_token_at _ _ _ Hat) by done.
  1-3: by eapply single_token.
  simpl. unfold lex_hash. rewrite (bind_ok _ _ _ _ _ (advance_cons _ _ _ Hat)). apply at_text_cons in Hat.
  rewrite (bind_ok _ _ _ _ _ (peek_at _ _ Hat)). simpl.
  rewrite (bind_ok _ _ _ _ _ (advance_cons _ _ _ Hat)), moved_moved, emit_at. by eexists.
Qed.

Lemma reads_collection n open ct tok closing name (mk : list Form -> FormKind) its :
  opens open tok -> closes ct closing ->
  (forall raw span, parse_token raw tok span = collection raw mk closing name span) ->
  (forall fs s, erase (mkForm (mk fs) s) = mkForm (mk (map erase fs)) no_span) ->
  Forall (item_ok n) its -> laid_out its ->
  reads (S n) (open ++ items_text its ++ ct) (mkForm (mk (map snd its)) no_span).
Proof.
  intros Ho Hc Hk Herase HF Hl fuel l r Hf Hat Hd. destruct fuel as [|f]; [lia|].
  rewrite <- !app_assoc in Hat. destruct (Ho l _ Hat) as [span E].
  rewrite (parse_raw_fresh _ _ _ _ E). simpl. rewrite Hk. unfold collection.
  erewrite pbind_ok by reflexivity.
  destruct (parse_seq_items f its closing span name n ct (moved l open) r) as (forms & cspan & Hm & Eq);
    [lia | done | done | done | by apply at_text_moved |].
  eexists. split.
  - erewrite pbind_ok by exact Eq. by rewrite moved_moved.
  - rewrite Herase. simpl. by rewrite Hm.
Qed.

Lemma reads_map n its :
  Forall (item_ok n) its -> laid_out its -> Nat.even (length its) = true ->
  reads (S n) ([123] ++ items_text its ++ [125]) (mkForm (FMap (map snd its)) no_span).
Proof.
  intros HF Hl Heven fuel l r Hf Hat Hd. destruct fuel as [|f]; [lia|].
  rewrite <- !app_assoc in Hat.
  destruct (proj1 (proj2 (proj2 opens_delimiters)) l _ Hat) as [span E].
  rewrite (parse_raw_fresh _ _ _ _ E). cbn [fst snd parse_token]. unfold parse_map.
  erewrite pbind_ok by reflexivity.
  destruct (parse_seq_items f its TRBrace span "map" n [125] (moved l [123]) r) as (forms & cspan & Hm & Eq);
    [lia | apply closes_delimiters | done | done | by apply at_text_moved |].
  assert (Hodd : Nat.odd (length forms) = false).
  { rewrite <- Nat.negb_even, <- (length_map erase), Hm, length_map.
    exact (f_equal negb Heven). }
  eexists. split.
  - erewrite pbind_ok by exact Eq. cbv beta iota. rewrite Hodd, andb_false_r. by rewrite moved_moved.
  - simpl. by rewrite Hm.
Qed.

(** ** Values *)

(** The values whose printed form reads back as the form they stand for: no
    pinned symbols, names the reader takes as such, characters it can name, and
    no list that stands for a reader macro. *)
Fixpoint readable (v : Value) : bool :=
  match v with
  | VNil | VBool _ | VBigInt _ | VStr _ => true
  | VLong n => in_range i64_min i64_max n
  | VChar c => readable_char c
  | VSymbol s => readable_symbol (Symbol_full_name s) && bool_decide (sym_version s = None)
  | VKeyword k => readable_keyword (Keyword_full_name k)
  | VList l => match sugar l with Some _ => false | None => true end && forallb readable l
  | VVector l | VSet l => forallb readable l
  | VMap m => forallb (fun '(k, x) => readable k && readable x) m
  end.

(** Nesting depth. *)
Fixpoint depth (v : Value) : nat :=
  match v with
  | VList l | VVector l | VSet l => S (list_max (map depth l))
  | VMap m => S (list_max (map (fun '(k, x) => Nat.max (depth k) (depth x)) m))
  | _ => 0%nat
  end.

Lemma reads_mono n m text k : (n <= m)%nat -> reads n text k -> reads m text k.
Proof. intros Hle H fuel l r Hf. apply H. lia. Qed.

(** The items of a sequence printed with a separator. *)
Definition items_of (sep : list Z) (v : Value) : item := (sep, pr_str true v, erase (value_to_form v no_span)).

Definition seq_items (l : list Value) : list item :=
  match l with
  | [] => []
  | v :: l' => items_of [] v :: map (items_of [32]) l'
  end.

Lemma join_cons sep x xs : join sep (x :: xs) = x ++ concat (map (app sep) xs).
Proof.
  revert x. induction xs as [|y ys IH]; intros x; [by rewrite app_nil_r|].
  change (join sep (x :: y :: ys)) with (x ++ sep ++ join sep (y :: ys)). rewrite IH.
  simpl. by rewrite !app_assoc.
Qed.

Lemma seq_items_text l : items_text (seq_items l) = join [32] (map (pr_str true) l).
Proof.
  destruct l as [|v l]; [done|]. cbn [map seq_items]. rewrite join_cons. unfold items_text. simpl. f_equal.
  by rewrite !map_map.
Qed.

Lemma seq_items_laid l : laid_out (seq_items l).
Proof.
  destruct l as [|v l]; [done|]. cbn [seq_items]. generalize (items_of [] v) as i.
  induction l as [|w l IH]; intros i; [done|]. cbn [map]. split; [by exists 32, [] | apply IH].
Qed.

Lemma seq_items_forms l : map snd (seq_items l) = map (fun v => erase (value_to_form v no_span)) l.
Proof. destruct l as [|v l]; [done|]. simpl. by rewrite map_map. Qed.

Lemma seq_items_ok n l :
  Forall (fun v => reads n (pr_str true v) (erase (value_to_form v no_span))) l ->
  Forall (item_ok n) (seq_items l).
Proof.
  intros H. destruct H as [|v l Hv Hl]; [apply Forall_nil_2|]. apply Forall_cons_2; [done|].
  apply Forall_fmap. eapply Forall_impl; [exact Hl|]. intros w Hw. split; [by repeat constructor | done].
Qed.

(** What is read for each element of a readable sequence. *)
Lemma readable_elements l :
  Forall (fun v => readable v = true -> reads (depth v) (pr_str true v) (erase (value_to_form v no_span))) l ->
  forallb readable l = true ->
  Forall (fun v => reads (list_max (map depth l)) (pr_str true v) (erase (value_to_form v no_span))) l.
Proof.
  intros HF Hr%forallb_Forall_true.
  assert (Hd : Forall (fun v => (depth v <= list_max (map depth l))%nat) l).
  { apply Forall_fmap with (f := depth) (P := fun k => (k <= list_max (map depth l))%nat).
    apply Forall_forall. intros x Hx. apply (proj1 (List.Forall_forall _ _) (proj1 (list_max_le _ _) (Nat.le_refl _))).
    by apply list_elem_of_In. }
  rewrite Forall_forall in HF, Hr, Hd. apply Forall_forall. intros v Hv.
  eapply reads_mono; [by apply Hd | by apply HF, Hr].
Qed.

(** The items of a map: keys and values, each entry after a comma. *)
Definition entry_items (sep : list Z) (kv : Value * Value) : list item :=
  [items_of sep kv.1; items_of [32] kv.2].

Definition map_items (m : list (Value * Value)) : list item :=
  match m with
  | [] => []
  | kv :: m' => entry_items [] kv ++ concat (map (entry_items [44; 32]) m')
  end.

Definition entry_text (kv : Value * Value) : list Z := pr_str true kv.1 ++ [32] ++ pr_str true kv.2.

Lemma entry_items_text m :
  items_text (concat (map (entry_items [44; 32]) m)) = concat (map (app [44; 32]) (map entry_text m)).
Proof.
  induction m as [|kv m IH]; [done|]. cbn [map concat]. rewrite <- IH. unfold items_text, entry_text.
  rewrite map_app, concat_app. simpl. by rewrite app_nil_r, <- !app_assoc.
Qed.

Lemma map_items_text m :
  items_text (map_items m) = join [44; 32] (map (fun '(k, x) => pr_str true k ++ [32] ++ pr_str true x) m).
Proof.
  replace (map (fun '(k, x) => pr_str true k ++ [32] ++ pr_str true x) m) with (map entry_text m)
    by (apply map_ext; by intros []).
  destruct m as [|kv m]; [done|]. cbn [map map_items]. rewrite join_cons, <- entry_items_text.
  unfold items_text, entry_text. rewrite map_app, concat_app. simpl. by rewrite app_nil_r, <- !app_assoc.
Qed.

Lemma map_items_laid m : laid_out (map_items m).
Proof.
  assert (H : forall m i, laid_out (i :: concat (map (entry_items [44; 32]) m))).
  { clear m. intros m. induction m as [|kv m IH]; intros i; [done|]. simpl.
    split; [by exists 44, [32]|]. split; [by exists 32, []|]. apply (IH i). }
  destruct m as [|kv m]; [done|]. simpl. split; [by exists 32, []|]. apply (H m (items_of [] kv.1)).
Qed.

Lemma map_items_even m : Nat.even (length (map_items m)) = true.
Proof. destruct m as [|kv m]; [done|]. simpl. by induction m as [|kv' m IH]. Qed.

Lemma map_items_ok n m :
  Forall (fun kv => reads n (pr_str true kv.1) (erase (value_to_form kv.1 no_span)) /\
                    reads n (pr_str true kv.2) (erase (value_to_form kv.2 no_span))) m ->
  Forall (item_ok n) (map_items m).
Proof.
  assert (Hentry : forall sep kv, Forall (fun c => is_lex_whitespace c = true) sep ->
    reads n (pr_str true kv.1) (erase (value_to_form kv.1 no_span)) /\
    reads n (pr_str true kv.2) (erase (value_to_form kv.2 no_span)) -> Forall (item_ok n) (entry_items sep kv)).
  { intros sep kv Hsep [H1 H2]. repeat apply Forall_cons_2; try done. split; [by repeat constructor | done]. }
  intros H. destruct H as [|kv m Hkv Hm]; [apply Forall_nil_2|]. apply Forall_app_2; [by apply Hentry|].
  apply Forall_concat, Forall_fmap. eapply Forall_impl; [exact Hm|]. intros kv' H'. simpl.
  apply Hentry; [by repeat constructor | done].
Qed.

(** A readable sequence between delimiters. *)
Lemma reads_sequence open ct tok closing name (mk : list Form -> FormKind) l :
  opens open tok -> closes ct closing ->
  (forall raw span, parse_token raw tok span = collection raw mk closing name span) ->
  (forall fs s, erase (mkForm (mk fs) s) = mkForm (mk (map erase fs)) no_span) ->
  Forall (fun v => readable v = true -> reads (depth v) (pr_str true v) (erase (value_to_form v no_span))) l ->
  forallb readable l = true ->
  reads (S (list_max (map depth l))) (open ++ join [32] (map (pr_str true) l) ++ ct)
    (erase (mkForm (mk (map (fun x => value_to_form x no_span) l)) no_span)).
Proof.
  intros Ho Hc Hk Herase HF Hr. rewrite Herase, map_map, <- seq_items_forms, <- seq_items_text.
  eapply reads_collection; [done | done | done | done | | apply seq_items_laid].
  by apply seq_items_ok, readable_elements.
Qed.

(** The same for the entries of a map. *)
Lemma readable_entries m :
  Forall (fun kv => (readable kv.1 = true -> reads (depth kv.1) (pr_str true kv.1) (erase (value_to_form kv.1 no_span))) /\
                    (readable kv.2 = true -> reads (depth kv.2) (pr_str true kv.2) (erase (value_to_form kv.2 no_span)))) m ->
  forallb (fun '(k, x) => readable k && readable x) m = true ->
  Forall (fun kv => let n := list_max (map (fun '(k, x) => Nat.max (depth k) (depth x)) m) in
                    reads n (pr_str true kv.1) (erase (value_to_form kv.1 no_span)) /\
                    reads n (pr_str true kv.2) (erase (value_to_form kv.2 no_span))) m.
Proof.
  intros HF Hr%forallb_Forall_true. rewrite Forall_forall in HF, Hr. apply Forall_forall. intros [k x] Hin n.
  destruct (HF _ Hin) as [Hk Hx]. specialize (Hr _ Hin). simpl in *. apply andb_true_iff in Hr as [Hrk Hrx].
  assert (Hd : (Nat.max (depth k) (depth x) <= n)%nat).
  { apply (proj1 (List.Forall_forall _ _) (proj1 (list_max_le _ _) (Nat.le_refl _))).
    apply list_elem_of_In. by apply (list_elem_of_fmap_2 (fun '(k, x) => Nat.max (depth k) (depth x)) m (k, x)). }
  split; (eapply reads_mono; [|eauto]); lia.
Qed.

Lemma value_to_form_list l span : sugar l = None ->
  value_to_form (VList l) span = mkForm (FList (map (fun x => value_to_form x span) l)) span.
Proof. intros H. simpl. by rewrite H. Qed.

Lemma map_items_forms m :
  mkForm (FMap (map snd (map_items m))) no_span = erase (value_to_form (VMap m) no_span).
Proof.
  simpl. do 2 f_equal. destruct m as [|[k x] m]; [done|]. simpl. do 2 f_equal.
  induction m as [|[k' x'] m IH]; [done|]. simpl. by rewrite IH.
Qed.

Lemma readable_reads v :
  readable v = true -> reads (depth v) (pr_str true v) (erase (value_to_form v no_span)).
Proof.
  induction v as [v Hv | l IH | l IH | m IH | l IH] using value_ind'; intros Hr.
  - destruct v; try done; cbn [readable] in Hr; cbn [pr_str].
    + eapply reads_atom; [by apply lexes_word | done | done].
    + destruct b; (eapply reads_atom; [by apply lexes_word | done | done]).
    + apply in_range_true in Hr. eapply reads_atom; [by apply lexes_long | done | done].
    + eapply reads_atom; [apply lexes_bigint | done | done].
    + eapply reads_atom; [by apply lexes_char | done | done].
    + eapply reads_atom; [apply lexes_string | done | done].
    + apply andb_true_iff in Hr as [Hs Hver%bool_decide_eq_true].
      replace (versioned_name s) with (Symbol_full_name s)
        by (unfold versioned_name, Symbol_full_name; rewrite Hver; by destruct (sym_namespace s)).
      eapply reads_atom; [by apply lexes_symbol | done | done].
    + replace (keyword_display k) with (58 :: Keyword_full_name k)
        by (unfold keyword_display, Keyword_full_name; by destruct (kw_namespace k)).
      eapply reads_atom; [by apply lexes_keyword | done | done].
  - cbn [readable] in Hr. apply andb_true_iff in Hr as [Hsugar Hr].
    destruct (sugar l) eqn:Es; [done|]. rewrite value_to_form_list by done.
    by apply (reads_sequence [40] [41] TLParen TRParen "list" FList); [apply opens_delimiters | apply closes_delimiters | ..].
  - by apply (reads_sequence [91] [93] TLBracket TRBracket "vector" FVector); [apply opens_delimiters | apply closes_delimiters | ..].
  - rewrite <- map_items_forms. cbn [pr_str depth]. rewrite <- map_items_text.
    apply reads_map; [|apply map_items_laid | apply map_items_even].
    by apply map_items_ok, readable_entries.
  - by apply (reads_sequence [35; 123] [125] THashSet TRBrace "set" FSet); [apply opens_delimiters | apply closes_delimiters | ..].
Qed.

(** Nesting is bounded by the printed text. *)
Lemma join_elem sep x xs : x ∈ xs -> (length x <= length (join sep xs))%nat.
Proof.
  destruct xs as [|y ys]; [by intros ?%elem_of_nil|]. rewrite join_cons, length_app.
  intros [->|Hin]%elem_of_cons; [lia|]. apply list_elem_of_split in Hin as (a & b & ->).
  rewrite map_app, concat_app, !length_app. simpl. rewrite !length_app. lia.
Qed.

Lemma list_max_bound {A : Type} (f : A -> nat) l n : Forall (fun v => (f v <= n)%nat) l -> (list_max (map f l) <= n)%nat.
Proof.
  intros H. apply list_max_le, List.Forall_forall. intros k Hk%list_elem_of_In.
  apply list_elem_of_fmap in Hk as (v & -> & Hv). rewrite Forall_forall in H. by apply H.
Qed.

Lemma depth_join l :
  Forall (fun v => (depth v <= length (pr_str true v))%nat) l ->
  (list_max (map depth l) <= length (join [32%Z] (map (pr_str true) l)))%nat.
Proof.
  intros HF. apply list_max_bound. rewrite Forall_forall in *. intros v Hv.
  etransitivity; [by apply HF|]. apply join_elem. by apply list_elem_of_fmap_2.
Qed.

Lemma depth_length v : (depth v <= length (pr_str true v))%nat.
Proof.
  induction v as [v Hv | l IH | l IH | m IH | l IH] using value_ind'; [by destruct v; simpl; try lia|..];
    cbn [depth pr_str]; rewrite !length_app; cbn [length].
  1, 2, 4: apply depth_join in IH; lia.
  assert (list_max (map (fun '(k, x) => Nat.max (depth k) (depth x)) m)
    <= length (join [44%Z; 32%Z] (map (fun '(k, x) => pr_str true k ++ [32%Z] ++ pr_str true x) m)))%nat; [|lia].
  apply list_max_bound. rewrite Forall_forall in *. intros [k x] Hin. destruct (IH _ Hin) as [Hk Hx]. simpl in *.
  etransitivity; [|apply join_elem; by apply (list_elem_of_fmap_2 _ m (k, x))].
  cbv beta iota. rewrite !length_app. simpl. lia.
Qed.

(** ** Reading a whole text *)

Lemma next_token_source l r ts l' : at_text l r -> next_token l = (Ok ts, l') -> source l' = source l.
Proof.
  intros Hat E. destruct (next_token_run _ _ Hat) as (r0 & _ & text & rest & _ & H).
  rewrite E in H. destruct ts. destruct H as (-> & _). unfold after_token. by case_decide.
Qed.

Lemma parse_one_form l r text n k :
  reads n text k -> at_text l (text ++ r) -> delimited r -> (n <= length (source l))%nat ->
  exists f, parse_one (fresh l) = (Ok (Some f), fresh (moved l text)) /\ erase f = k.
Proof.
  intros Hreads Hat Hd Hn. destruct (Hreads (token_fuel (fresh l)) l r) as (f & Hraw & He);
    [unfold token_fuel; simpl; lia | done | done |].
  exists f. split; [|done]. destruct (parse_raw_some_token _ _ _ _ Hraw) as (ts & l' & E & Hc).
  unfold parse_one. erewrite pbind_ok by reflexivity. unfold token_fuel at 1. cbn [Nat.add parse_one_loop].
  rewrite (pbind_ok _ _ _ _ _ (peek_tok_fresh _ _ _ E)).
  rewrite decide_False by (by intros Et; rewrite Et in Hc). erewrite pbind_ok by reflexivity.
  assert (Hraw' : parse_raw (token_fuel (mkParser l' (Some ts))) (mkParser l' (Some ts))
    = (Ok (Some f), fresh (moved l text))).
  { unfold token_fuel; cbn [lexer]. rewrite (next_token_source _ _ _ _ Hat E).
    cbn [Nat.add]. by rewrite (parse_raw_filled _ _ _ _ E). }
  by rewrite (pbind_ok _ _ _ _ _ Hraw').
Qed.

Lemma parse_one_end l : at_text l [] -> exists p', parse_one (fresh l) = (Ok None, p').
Proof.
  intros Hat. destruct (next_token_run _ _ Hat) as (r0 & E & text & rest & E' & H).
  assert (Ht : next_token l = (Ok (TEof, mkSpan (file l) (pos l) (pos l) (line l) (col l)), l)).
  { unfold next_token. rewrite (bind_ok _ _ _ _ _ (skip_whitespace_at _ _ Hat)). simpl.
    rewrite moved_nil. erewrite bind_ok by reflexivity. by rewrite (bind_ok _ _ _ _ _ (peek_at _ _ Hat)). }
  unfold parse_one. erewrite pbind_ok by reflexivity. unfold token_fuel. cbn [Nat.add parse_one_loop].
  rewrite (pbind_ok _ _ _ _ _ (peek_tok_fresh _ _ _ Ht)). by eexists.
Qed.

Lemma parse_all_form text fl n k :
  reads n text k -> (n <= length text)%nat ->
  exists f p', parse_all (Parser_new text fl) = (Ok [f], p') /\ erase f = k.
Proof.
  intros Hreads Hn. pose proof (at_text_new text fl) as Hat.
  assert (Hat' : at_text (Lexer_new text fl) (text ++ [])) by (by rewrite app_nil_r).
  destruct (parse_one_form _ [] text n k Hreads Hat') as (f & Hone & He); [done | done |].
  apply at_text_moved in Hat'. destruct (parse_one_end _ Hat') as (p' & Hend).
  exists f, p'. split; [|done]. unfold parse_all. erewrite pbind_ok by reflexivity.
  unfold token_fuel. cbn [Nat.add parse_all_loop].
  rewrite (pbind_ok _ _ _ _ _ Hone). simpl. by rewrite (pbind_ok _ _ _ _ _ Hend).
Qed.

(** An error in the first token is the result. *)
Lemma parse_all_lex_error l e l' : next_token l = (Err e, l') -> parse_all (fresh l) = (Err e, fresh l').
Proof.
  intros H. assert (Hfill : fill (fresh l) = (Err e, fresh l')) by (unfold fill; simpl; by rewrite H).
  assert (Hpeek : peek_tok (fresh l) = (Err e, fresh l')).
  { unfold peek_tok, mbind, stateM_bind. by rewrite Hfill. }
  assert (Hone : parse_one (fresh l) = (Err e, fresh l')).
  { unfold parse_one. erewrite pbind_ok by reflexivity. unfold token_fuel. cbn [Nat.add parse_one_loop].
    unfold mbind, stateM_bind. by rewrite Hpeek. }
  unfold parse_all. erewrite pbind_ok by reflexivity. unfold token_fuel. cbn [Nat.add parse_all_loop].
  unfold mbind, stateM_bind. by rewrite Hone.
Qed.

(** C28: printing and reading back.  The text [pr_str] prints for a readable
    value, read as a whole source, is exactly one form, and up to spans it is
    the form [value_to_form] makes of the value: numbers, characters, strings
    with any content, symbols, keywords and nested collections of these. *)
Theorem pr_str_reads_back v fl :
  readable v = true ->
  exists f p', parse_all (Parser_new (pr_str true v) fl) = (Ok [f], p') /\
    erase f = erase (value_to_form v no_span).
Proof. intros Hr. apply (parse_all_form _ _ (depth v)); [by apply readable_reads | apply depth_length]. Qed.

(** ** The command line *)

Definition main_items (args : list (list Z)) : list item :=
  ([], lit "-main", mkForm (FSymbol (lit "-main")) no_span)
  :: map (fun a => ([32], escape_clojure_string a, mkForm (FStr a) no_span)) args.

Lemma closes_space_paren : closes [32; 41] TRParen.
Proof.
  split_and!; [by exists 32, [41] | done | done |]. intros l r Hat.
  rewrite (next_token_skip l [32] (41 :: r)) by (done || by repeat constructor).
  apply (at_text_moved l [32] (41 :: r)) in Hat. rewrite (next_token_at _ _ _ Hat) by done.
  destruct (single_token _ _ _ TRParen Hat) as [span E]. exists span. etransitivity; [exact E|].
  by rewrite moved_moved.
Qed.

Lemma main_items_ok args : Forall (item_ok 0) (main_items args) /\ laid_out (main_items args).
Proof.
  split.
  - apply Forall_cons_2; [split; [done|]; eapply reads_atom; [by apply lexes_word | done | done]|].
    apply Forall_fmap, Forall_true. intros a. split; [by repeat constructor|].
    eapply reads_atom; [apply lexes_string | done | done].
  - unfold main_items. generalize (([], lit "-main", mkForm (FSymbol (lit "-main")) no_span) : item) as i.
    induction args as [|a args IH]; intros i; [done|]. cbn [map]. split; [by exists 32, [] | apply IH].
Qed.

Lemma main_call_text args :
  exists ct, closes ct TRParen /\ main_call args = [40] ++ items_text (main_items args) ++ ct.
Proof.
  destruct args as [|a args].
  - exists [32; 41]. split; [apply closes_space_paren | done].
  - exists [41]. split; [apply closes_delimiters|]. unfold main_call. cbn [map]. rewrite join_cons.
    change (lit "(-main ") with ([40] ++ lit "-main" ++ [32]). rewrite <- !app_assoc. f_equal.
    unfold items_text, main_items. cbn [map concat]. unfold item_text at 1 2. simpl.
    do 6 f_equal. rewrite !map_map, <- !app_assoc. by repeat f_equal.
Qed.

(** The call built from the command-line arguments, read as source, is one
    list: the symbol [-main] followed by each argument as a string literal with
    exactly the argument's characters.  No argument, whatever it contains, can
    add forms or end its literal early. *)
Theorem main_call_passes_arguments args fl :
  exists f p', parse_all (Parser_new (main_call args) fl) = (Ok [f], p') /\
    erase f = mkForm (FList (mkForm (FSymbol (lit "-main")) no_span
                             :: map (fun a => mkForm (FStr a) no_span) args)) no_span.
Proof.
  destruct (main_call_text args) as (ct & Hct & ->). destruct (main_items_ok args) as [HF Hl].
  apply (parse_all_form _ _ 1).
  - replace (mkForm (FSymbol (lit "-main")) no_span :: map (fun a => mkForm (FStr a) no_span) args)
      with (map snd (main_items args)) by (simpl; by rewrite map_map).
    eapply reads_collection with (mk := FList); [apply opens_delimiters | done | done | done | done | done].
  - rewrite length_app. simpl. lia.
Qed.
End Values.

(** A map with a nested vector, a string with quotes and a newline, and the
    keyword [:a]. *)
Definition sample_value : Value :=
  VMap [(VKeyword (mkKeyword (Some (lit "n")) (lit "a")),
         VVector [VLong (-7); VStr [34; 10; 92; 233]; VChar 40; VSymbol (mkSymbol None (lit "+x") None)]);
        (VNil, VSet [VBigInt 100; VBool true])].

Lemma pr_str_reads_back_witness :
  exists f p', @parse_all ascii_tables dev_profile (Parser_new (pr_str true sample_value) []) = (Ok [f], p') /\
    erase f = erase (value_to_form sample_value no_span).
Proof. apply (@pr_str_reads_back ascii_tables dev_profile sample_value []). vm_compute. reflexivity. Defined.

(** The printer writes an alphanumeric character outside ASCII as a
    character literal the reader rejects, although [Display for Value] is meant to be
    readable: reading [\é] fails. *)
Theorem non_ascii_letter_unreadable {U : UnicodeTables} {B : BuildProfile} fl :
  char_is_alphanumeric 233 = true ->
  exists e p', parse_all (Parser_new (pr_str true (VChar 233)) fl) = (Err e, p') /\
    err_message e = UnknownCharName [233].
Proof.
  intros H. pose proof (at_text_new [92; 233] fl) as Hat.
  assert (Ht : exists e l', next_token (Lexer_new [92; 233] fl) = (Err e, l') /\
    err_message e = UnknownCharName [233]).
  { rewrite (next_token_at _ _ _ Hat) by done. simpl. unfold lex_char_literal.
    rewrite (bind_ok _ _ _ _ _ (advance_cons _ _ _ Hat)). apply at_text_cons in Hat.
    rewrite (bind_ok _ _ _ _ _ (rest_of_source_at _ _ Hat)). simpl take_while. rewrite H.
    eexists _, _. split; [reflexivity | done]. }
  destruct Ht as (e & l' & Ht & He). exists e, (mkParser l' None). split; [|done].
  exact (parse_all_lex_error _ _ _ Ht).
Qed.

Lemma latin_ascii c : 0 <= c < 128 -> is_ascii_alphanumeric c || (c =? 233) = is_ascii_alphanumeric c.
Proof. intros H. rewrite (proj2 (Z.eqb_neq c 233)) by lia. apply orb_false_r. Qed.

(** Tables that also know one letter outside ASCII. *)
Definition latin_tables : UnicodeTables :=
  {| char_is_alphanumeric := fun c => is_ascii_alphanumeric c || (c =? 233);
     char_is_alphanumeric_ascii := latin_ascii |}.

Lemma non_ascii_letter_unreadable_witness :
  exists e p', @parse_all latin_tables dev_profile (Parser_new (pr_str true (VChar 233)) []) = (Err e, p') /\
    err_message e = UnknownCharName [233].
Proof. apply (@non_ascii_letter_unreadable latin_tables dev_profile []). reflexivity. Defined.
