(* ===== verification/FormExpand.v ===== *)
(** Expansion of forms before evaluation: anonymous functions, reader
    conditionals and tagged literals (crates/cljrs-builtins/src/form.rs). *)
From stdpp Require Import strings.
From S2P Require Import Prelude RustStd Token Form.
Local Open Scope Z_scope.

(** * Anonymous functions *)

(** [s[1..].parse::<usize>()] for a symbol that starts with a percent sign. *)
Definition pct_number (s : list Z) : option Z :=
  match s with 37 :: t => parse_usize t | _ => None end.

(** The scanner's state: the highest position seen and whether the rest
    argument was. *)
Definition scan : Type := Z * bool.

Definition scan_symbol (s : list Z) (st : scan) : scan :=
  let '(max_pos, has_rest) := st in
  if (bool_decide (s = lit "%") || bool_decide (s = lit "%1")) && (max_pos <? 1) then (1, has_rest)
  else if decide (s = lit "%&") then (max_pos, true)
  else match pct_number s with
       | Some n => if max_pos <? n then (n, has_rest) else st
       | None => st
       end.

Fixpoint find_pct_refs_form (form : Form) (st : scan) {struct form} : scan :=
  let fix find_pct_refs (forms : list Form) (st : scan) : scan :=
    match forms with
    | [] => st
    | f :: fs => find_pct_refs fs (find_pct_refs_form f st)
    end in
  match form with
  | mkForm k _ =>
      match k with
      | FSymbol s => scan_symbol s st
      | FList c | FVector c | FSet c | FMap c => find_pct_refs c st
      | FQuote inner | FSyntaxQuote inner | FUnquote inner | FUnquoteSplice inner
      | FDeref inner | FVar inner | FTaggedLiteral _ inner => find_pct_refs_form inner st
      | FMeta meta inner => find_pct_refs_form inner (find_pct_refs_form meta st)
      | FReaderCond _ clauses => find_pct_refs clauses st
      | _ => st
      end
  end.

Definition find_pct_refs (forms : list Form) (st : scan) : scan :=
  fold_left (fun st f => find_pct_refs_form f st) forms st.

(** [format!("p__{n}")]. *)
Definition param_name (n : Z) : list Z := lit "p__" ++ udec n.

Definition rewrite_symbol (s : list Z) : option (list Z) :=
  if decide (s = lit "%" \/ s = lit "%1") then Some (lit "p__1")
  else if decide (s = lit "%&") then Some (lit "rest__")
  else match pct_number s with
       | Some n => Some (param_name n)
       | None => None
       end.

Fixpoint rewrite_pct_form (span : Span) (form : Form) {struct form} : Form :=
  match form with
  | mkForm k own =>
      match k with
      | FSymbol s =>
          match rewrite_symbol s with
          | Some s' => mkForm (FSymbol s') span
          | None => form
          end
      | FList c => mkForm (FList (map (rewrite_pct_form span) c)) span
      | FVector c => mkForm (FVector (map (rewrite_pct_form span) c)) span
      | FSet c => mkForm (FSet (map (rewrite_pct_form span) c)) span
      | FMap c => mkForm (FMap (map (rewrite_pct_form span) c)) span
      | FQuote inner => mkForm (FQuote (rewrite_pct_form span inner)) span
      | FSyntaxQuote inner => mkForm (FSyntaxQuote (rewrite_pct_form span inner)) span
      | FUnquote inner => mkForm (FUnquote (rewrite_pct_form span inner)) span
      | FUnquoteSplice inner => mkForm (FUnquoteSplice (rewrite_pct_form span inner)) span
      | FDeref inner => mkForm (FDeref (rewrite_pct_form span inner)) span
      | FVar inner => mkForm (FVar (rewrite_pct_form span inner)) span
      | FTaggedLiteral tag inner => mkForm (FTaggedLiteral tag (rewrite_pct_form span inner)) span
      | FMeta meta inner => mkForm (FMeta (rewrite_pct_form span meta) (rewrite_pct_form span inner)) span
      | FReaderCond splicing clauses => mkForm (FReaderCond splicing (map (rewrite_pct_form span) clauses)) span
      | _ => form
      end
  end.

Definition rewrite_pct_refs (forms : list Form) (span : Span) : list Form :=
  map (rewrite_pct_form span) forms.

(** The parameter vector of the expansion. *)
Definition anon_fn_params (st : scan) : list (list Z) :=
  map (fun i => param_name (Z.of_nat i)) (seq 1 (Z.to_nat st.1))
  ++ (if st.2 then [lit "&"; lit "rest__"] else []).

Definition expand_anon_fn (body : list Form) (span : Span) : Form :=
  let st := find_pct_refs body (0, false) in
  let sym s := mkForm (FSymbol s) span in
  mkForm (FList
    [sym (lit "fn*");
     mkForm (FVector (map sym (anon_fn_params st))) span;
     mkForm (FList (rewrite_pct_refs body span)) span]) span.

(** * Reader conditionals *)

(** [READER_FEATURES]: [None] until [set_reader_features] is called. *)
Definition feature_matches (features : option (list (list Z))) (key : list Z) : bool :=
  match features with
  | Some fs => existsb (fun f => bool_decide (f = key)) fs
  | None => bool_decide (key = lit "rust")
  end.

(** [OnceLock::set]: only the first call takes effect. *)
Definition set_reader_features (new : list (list Z)) (features : option (list (list Z)))
    : bool * option (list (list Z)) :=
  match features with
  | None => (true, Some new)
  | Some _ => (false, features)
  end.

Section Conditionals.
Context (features : option (list (list Z))).

Definition key_matches (key : Form) : bool :=
  match form_kind key with
  | FKeyword k => bool_decide (k = lit "default") || feature_matches features k
  | _ => false
  end.

Fixpoint select_reader_cond (clauses : list Form) : option Form :=
  match clauses with
  | key :: branch :: rest => if key_matches key then Some branch else select_reader_cond rest
  | _ => None
  end.

(** What one form of a sequence expands to. *)
Fixpoint expand_form (form : Form) : list Form :=
  match form with
  | mkForm (FReaderCond true clauses) _ =>
      let fix select (cs : list Form) : list Form :=
        match cs with
        | key :: branch :: rest =>
            if key_matches key then
              match branch with
              | mkForm (FVector elems) _ | mkForm (FList elems) _ => flat_map expand_form elems
              | _ => [branch]
              end
            else select rest
        | _ => []
        end in
      select clauses
  | mkForm (FReaderCond false clauses) _ =>
      match select_reader_cond clauses with Some branch => [branch] | None => [] end
  | _ => [form]
  end.

Definition expand_reader_conds (forms : list Form) : list Form := flat_map expand_form forms.
End Conditionals.

(** * Tagged literals for EDN *)

Fixpoint sentinelize_tags (form : Form) : Form :=
  match form with
  | mkForm k span =>
      mkForm
        match k with
        | FTaggedLiteral tag inner =>
            if decide (tag <> lit "uuid" /\ tag <> lit "inst") then
              FMap [mkForm (FKeyword (lit "cljrs.edn/tag")) span;
                    mkForm (FSymbol tag) span;
                    mkForm (FKeyword (lit "cljrs.edn/form")) span;
                    sentinelize_tags inner]
            else FTaggedLiteral tag (sentinelize_tags inner)
        | FList c => FList (map sentinelize_tags c)
        | FVector c => FVector (map sentinelize_tags c)
        | FSet c => FSet (map sentinelize_tags c)
        | FMap c => FMap (map sentinelize_tags c)
        | FMeta m inner => FMeta (sentinelize_tags m) (sentinelize_tags inner)
        | other => other
        end span
  end.

(** * Anonymous functions: every reference is bound *)

(** The symbols of a form, in the order they are visited: those inside a nested
    anonymous function are not. *)
Fixpoint symbols (form : Form) : list (list Z) :=
  match form with
  | mkForm k _ =>
      match k with
      | FSymbol s => [s]
      | FList c | FVector c | FSet c | FMap c | FReaderCond _ c => flat_map symbols c
      | FQuote inner | FSyntaxQuote inner | FUnquote inner | FUnquoteSplice inner
      | FDeref inner | FVar inner | FTaggedLiteral _ inner => symbols inner
      | FMeta meta inner => symbols meta ++ symbols inner
      | _ => []
      end
  end.

(** The argument position a symbol stands for, and its name in the expansion. *)
Definition position (s : list Z) : option Z :=
  if decide (s = lit "%" \/ s = lit "%1") then Some 1 else pct_number s.

Definition rename (s : list Z) : list Z := default s (rewrite_symbol s).

Lemma flat_map_rewrite span c :
  Forall (fun f => symbols (rewrite_pct_form span f) = map rename (symbols f)) c ->
  flat_map symbols (map (rewrite_pct_form span) c) = map rename (flat_map symbols c).
Proof. induction 1 as [|f c Hf _ IH]; [done|]. simpl. by rewrite Hf, IH, map_app. Qed.

Lemma symbols_rewrite span f : symbols (rewrite_pct_form span f) = map rename (symbols f).
Proof.
  induction f as [[k own] IH] using form_ind'. destruct k; cbn [children form_kind] in IH; try done; simpl;
    try (by apply flat_map_rewrite); try (by inversion IH).
  - unfold rename. by destruct (rewrite_symbol s).
  - inversion IH as [|?? Hm IH']; subst. inversion IH' as [|?? Ht _]; subst. by rewrite map_app, Hm, Ht.
Qed.

Lemma fold_flat_map c st :
  Forall (fun f => forall st, find_pct_refs_form f st = fold_left (fun st s => scan_symbol s st) (symbols f) st) c ->
  fold_left (fun st f => find_pct_refs_form f st) c st
  = fold_left (fun st s => scan_symbol s st) (flat_map symbols c) st.
Proof.
  intros H. revert st. induction H as [|f c Hf _ IH]; intros st; [done|]. simpl.
  by rewrite fold_left_app, Hf, IH.
Qed.

Lemma find_refs_symbols f st :
  find_pct_refs_form f st = fold_left (fun st s => scan_symbol s st) (symbols f) st.
Proof.
  revert st. induction f as [[k own] IH] using form_ind'. intros st.
  assert (Hgo : forall c st, Forall (fun f => forall st,
      find_pct_refs_form f st = fold_left (fun st s => scan_symbol s st) (symbols f) st) c ->
    (fix go (fs : list Form) (st : scan) : scan :=
       match fs with [] => st | f :: fs => go fs (find_pct_refs_form f st) end) c st
    = fold_left (fun st s => scan_symbol s st) (flat_map symbols c) st).
  { intros c st0 Hc. rewrite <- fold_flat_map by done. clear Hc. revert st0.
    induction c as [|f c IHc]; intros st0; [done|]. apply IHc. }
  destruct k; cbn [children form_kind] in IH; try done; simpl;
    try (by apply Hgo); try (inversion IH as [|?? H0 H1]; subst; apply H0).
  inversion IH as [|?? Hm IH']; subst. inversion IH' as [|?? Ht _]; subst.
  by rewrite fold_left_app, Hm, Ht.
Qed.

Lemma find_pct_refs_all body st :
  find_pct_refs body st = fold_left (fun st s => scan_symbol s st) (flat_map symbols body) st.
Proof. apply fold_flat_map, Forall_true. intros f st'. apply find_refs_symbols. Qed.

(** One step of the scan is a maximum and a disjunction. *)
Lemma scan_symbol_spec s m b :
  0 <= m -> (forall n, pct_number s = Some n -> 0 <= n) ->
  scan_symbol s (m, b) = (Z.max m (default 0 (position s)), b || bool_decide (s = lit "%&")).
Proof.
  intros Hm Hn. unfold scan_symbol, position.
  destruct (decide (s = lit "%" \/ s = lit "%1")) as [Hs|Hs].
  - assert (Hb : bool_decide (s = lit "%") || bool_decide (s = lit "%1") = true).
    { apply orb_true_iff. rewrite !bool_decide_eq_true. done. }
    rewrite Hb. simpl. destruct (Z.ltb_spec m 1); simpl.
    + rewrite Z.max_r by lia. destruct Hs as [-> | ->]; by rewrite orb_false_r.
    + rewrite Z.max_l by lia. destruct Hs as [-> | ->];
        rewrite decide_False, bool_decide_eq_false_2, orb_false_r by done; [done|].
      change (pct_number (lit "%1")) with (Some 1). cbv iota. destruct (Z.ltb_spec m 1); [lia | done].
  - assert (Hb : bool_decide (s = lit "%") || bool_decide (s = lit "%1") = false).
    { apply orb_false_iff. rewrite !bool_decide_eq_false. tauto. }
    rewrite Hb. clear Hb. cbn [andb]. case_decide as Hr.
    + rewrite bool_decide_eq_true_2, orb_true_r by done. subst.
      change (default 0 (pct_number (lit "%&"))) with 0. by rewrite Z.max_l by lia.
    + rewrite bool_decide_eq_false_2, orb_false_r by done.
      destruct (pct_number s) as [n|]; simpl; [|by rewrite Z.max_l by lia].
      destruct (Z.ltb_spec m n); f_equal; lia.
Qed.

Lemma pct_number_nonneg s n : pct_number s = Some n -> 0 <= n.
Proof.
  intros H. assert (Hr : exists t, from_str_radix 0 usize_max 10 t = Some n).
  { unfold pct_number in H. repeat case_match; try done; by eexists. }
  destruct Hr as [t Ht]. revert Ht. unfold from_str_radix.
  destruct (match t with [] => _ | _ => _ end) as [neg ds]. destruct ds; [done|].
  destruct (digits_value _ _ _); [|done]. case_if; [|done]. bool_hyps. intros [= <-]. lia.
Qed.

Definition highest (ss : list (list Z)) : Z := fold_left Z.max (map (fun s => default 0 (position s)) ss) 0.

Lemma scan_all ss m b :
  0 <= m ->
  fold_left (fun st s => scan_symbol s st) ss (m, b)
  = (fold_left Z.max (map (fun s => default 0 (position s)) ss) m, b || existsb (fun s => bool_decide (s = lit "%&")) ss).
Proof.
  revert m b. induction ss as [|s ss IH]; intros m b Hm; cbn [fold_left map existsb]; [by rewrite orb_false_r|].
  rewrite scan_symbol_spec by (done || apply pct_number_nonneg). rewrite IH by lia. by rewrite orb_assoc.
Qed.

Lemma fold_max_spec l m : let M := fold_left Z.max l m in
  m <= M /\ (forall x, x ∈ l -> x <= M) /\ (M = m \/ M ∈ l).
Proof.
  revert m. induction l as [|y l IH]; intros m; simpl.
  - split_and!; [lia | by intros x ?%elem_of_nil | by left].
  - destruct (IH (Z.max m y)) as (H1 & H2 & H3). split_and!; [lia | |].
    + intros x [->|Hx]%elem_of_cons; [lia | by apply H2].
    + rewrite elem_of_cons. destruct H3 as [H3|H3]; [|tauto].
      destruct (Z.le_ge_cases m y); [right; left | left]; rewrite H3; lia.
Qed.

(** What the expansion scans. *)
Lemma find_pct_refs_spec body :
  let ss := flat_map symbols body in
  find_pct_refs body (0, false) = (highest ss, existsb (fun s => bool_decide (s = lit "%&")) ss).
Proof. intros ss. unfold highest. by rewrite find_pct_refs_all, scan_all by lia. Qed.

Lemma rename_position s n : position s = Some n -> rename s = param_name n.
Proof.
  unfold position, rename, rewrite_symbol. case_decide; [by intros [= <-]|]. intros Hn.
  case_decide as Hr; [by subst|]. by rewrite Hn.
Qed.

Lemma rename_rest : rename (lit "%&") = lit "rest__".
Proof. done. Qed.

Lemma rename_other s : position s = None -> s <> lit "%&" -> rename s = s.
Proof.
  unfold position, rename, rewrite_symbol. case_decide; [done|]. intros Hn Hr.
  rewrite decide_False by done. by rewrite Hn.
Qed.

Lemma param_in_params st n : 1 <= n <= st.1 -> param_name n ∈ anon_fn_params st.
Proof.
  intros Hn. apply elem_of_app. left. apply list_elem_of_fmap. exists (Z.to_nat n).
  rewrite Z2Nat.id by lia. split; [done|]. apply elem_of_seq. lia.
Qed.

Lemma renamed_not_ref s : position (rename s) = None /\ rename s <> lit "%&".
Proof.
  destruct (position s) as [n|] eqn:E; [by rewrite (rename_position _ _ E)|].
  destruct (decide (s = lit "%&")) as [->|Hr]; [done|]. by rewrite rename_other.
Qed.

(** [#(...)] expands to a function that binds its references.  The symbols
    of the new body are those of the old one renamed, no percent reference is
    left, a reference to a position from 1 on is renamed to one of the
    parameters and [%&] to the rest parameter; the number of positional
    parameters is the highest position referenced; every other symbol is
    unchanged. *)
Theorem expand_anon_fn_binds body span :
  exists params new_body,
    expand_anon_fn body span =
      mkForm (FList [mkForm (FSymbol (lit "fn*")) span;
                     mkForm (FVector (map (fun s => mkForm (FSymbol s) span) params)) span;
                     mkForm (FList new_body) span]) span /\
    flat_map symbols new_body = map rename (flat_map symbols body) /\
    (forall s, s ∈ flat_map symbols new_body -> position s = None /\ s <> lit "%&") /\
    (forall s, s ∈ flat_map symbols body ->
       match position s with
       | Some n => 1 <= n -> rename s ∈ params
       | None => if decide (s = lit "%&") then rename s = lit "rest__" /\ lit "rest__" ∈ params
                 else rename s = s
       end) /\
    (highest (flat_map symbols body) = 0 \/
     exists s, s ∈ flat_map symbols body /\ position s = Some (highest (flat_map symbols body))).
Proof.
  exists (anon_fn_params (find_pct_refs body (0, false))), (rewrite_pct_refs body span).
  assert (Hsym : flat_map symbols (rewrite_pct_refs body span) = map rename (flat_map symbols body)).
  { apply flat_map_rewrite, Forall_true. intros f. apply symbols_rewrite. }
  split; [done|]. split; [done|]. rewrite Hsym.
  pose proof (find_pct_refs_spec body) as Hst. cbv zeta in Hst. rewrite Hst. set (ss := flat_map symbols body) in *.
  destruct (fold_max_spec (map (fun s => default 0 (position s)) ss) 0) as (H0 & Hle & Hmax). fold (highest ss) in *.
  split_and!.
  - intros s (s0 & -> & _)%list_elem_of_fmap. apply renamed_not_ref.
  - intros s Hs. destruct (position s) as [n|] eqn:E.
    + intros Hn. rewrite (rename_position _ _ E). apply param_in_params. split; [done|]. simpl.
      apply Hle, list_elem_of_fmap. exists s. by rewrite E.
    + case_decide as Hr; [|by apply rename_other]. subst. split; [done|]. apply elem_of_app. right. simpl.
      replace (existsb _ ss) with true; [by apply elem_of_cons; right; apply list_elem_of_singleton|].
      symmetry. apply existsb_exists. exists (lit "%&"). split; [by apply list_elem_of_In | by apply bool_decide_eq_true].
  - destruct Hmax as [|Hmax]; [by left|]. apply list_elem_of_fmap in Hmax as (s & E & Hs).
    destruct (position s) as [n|] eqn:Es; simpl in E; [|by left]. right. exists s. by rewrite Es, E.
Qed.

(** A reference to position 0 is renamed to a parameter that the expansion
    does not declare: [#(%0)] becomes [(fn* [] (p__0))]. *)
Theorem anon_fn_position_zero_unbound span :
  expand_anon_fn [mkForm (FSymbol (lit "%0")) span] span =
  mkForm (FList [mkForm (FSymbol (lit "fn*")) span; mkForm (FVector []) span;
                 mkForm (FList [mkForm (FSymbol (lit "p__0")) span]) span]) span.
Proof. reflexivity. Qed.

(** * Reader conditionals *)

Section Conds.
Context (features : option (list (list Z))).

(** Induction over a flat list of pairs. *)
Lemma pair_ind (P : list Form -> Prop) :
  P [] -> (forall x, P [x]) -> (forall x y t, P t -> P (x :: y :: t)) -> forall l, P l.
Proof.
  intros H0 H1 H2. fix go 1. intros [|x [|y t]]; [exact H0 | apply H1 | apply H2, go].
Qed.

(** A reader conditional selects the branch of the first key that is in the
    feature set or is [:default]; it selects nothing exactly when no key
    matches (a key without a branch at the end is ignored). *)
Theorem select_reader_cond_first clauses :
  match select_reader_cond features clauses with
  | Some b =>
      exists i key, clauses !! (2 * i)%nat = Some key /\ key_matches features key = true /\
        clauses !! (2 * i + 1)%nat = Some b /\
        forall j k, (j < i)%nat -> clauses !! (2 * j)%nat = Some k -> key_matches features k = false
  | None =>
      forall i key b, clauses !! (2 * i)%nat = Some key -> clauses !! (2 * i + 1)%nat = Some b ->
        key_matches features key = false
  end.
Proof.
  induction clauses as [| key | key branch rest IH] using pair_ind.
  - simpl. intros [|i] key b; done.
  - simpl. intros [|i] k b; [done|]. replace (2 * S i)%nat with (S (S (2 * i))) by lia. done.
  - assert (Hshift : forall i, (2 * S i)%nat = S (S (2 * i)) /\ (2 * S i + 1)%nat = S (S (2 * i + 1))) by lia.
    cbn [select_reader_cond]. destruct (key_matches features key) eqn:E.
    + exists 0%nat, key. split_and!; try done. intros j k Hj. lia.
    + destruct (select_reader_cond features rest) as [b|].
      * destruct IH as (i & k & Hk & Hm & Hb & Hearlier). exists (S i), k.
        destruct (Hshift i) as [-> ->]. split_and!; try done.
        intros [|j] k' Hj; [by intros [= <-]|]. destruct (Hshift j) as [-> _]. apply Hearlier. lia.
      * intros [|i] k b; [by intros [= <-]|]. destruct (Hshift i) as [-> ->]. apply IH.
Qed.

Definition is_cond (f : Form) : bool :=
  match form_kind f with FReaderCond _ _ => true | _ => false end.

(** No branch of a conditional is itself a conditional, also inside the
    sequences that are spliced. *)
Fixpoint plain_branches (form : Form) : bool :=
  match form with
  | mkForm (FReaderCond splicing clauses) _ =>
      let fix go (cs : list Form) : bool :=
        match cs with
        | key :: branch :: rest =>
            negb (is_cond branch) &&
            match branch with
            | mkForm (FVector elems) _ | mkForm (FList elems) _ => forallb plain_branches elems
            | _ => true
            end && go rest
        | _ => true
        end in
      go clauses
  | _ => true
  end.

Definition no_cond (f : Form) : Prop := is_cond f = false.

Lemma expand_form_other f : is_cond f = false -> expand_form features f = [f].
Proof. destruct f as [k s]. by destruct k as [| | | | | | | | | | | | | | | | | | | | | | | | | | |[] ?]. Qed.

(** The branches of a conditional without nested conditionals. *)
Lemma plain_select clauses span splicing b :
  plain_branches (mkForm (FReaderCond splicing clauses) span) = true ->
  select_reader_cond features clauses = Some b -> is_cond b = false.
Proof.
  simpl. induction clauses as [| key | key branch rest IH] using pair_ind; [done | done |].
  rewrite !andb_true_iff, negb_true_iff. intros [[Hb _] Hrest]. cbn [select_reader_cond].
  destruct (key_matches features key); [by intros [= <-] | by apply IH].
Qed.

Definition expands_plain (f : Form) : Prop :=
  plain_branches f = true -> Forall no_cond (expand_form features f).

(** The induction reaches the elements of a spliced branch, two levels down. *)
Lemma expand_plain_children f : expands_plain f /\ Forall expands_plain (children f).
Proof.
  induction f as [[k span] IH] using form_ind'.
  split; [|eapply Forall_impl; [exact IH | by intros g []]].
  destruct (is_cond (mkForm k span)) eqn:Ec; [|intros _; rewrite expand_form_other by done; by repeat constructor].
  destruct k; try done. cbn [children form_kind] in IH. intros Hp. destruct splicing.
  - revert IH Hp. simpl. induction clauses as [| key | key branch rest IHc] using pair_ind; [done | done |].
    intros IH. rewrite !andb_true_iff, negb_true_iff. intros [[Hb Hsub] Hrest].
    inversion IH as [|?? _ IH1]; subst. inversion IH1 as [|?? [_ Hbranch] IH2]; subst.
    destruct (key_matches features key); [|by apply IHc].
    assert (Hseq : forall elems, Forall expands_plain elems -> forallb plain_branches elems = true ->
      Forall no_cond (flat_map (expand_form features) elems)).
    { clear. intros elems HF. induction HF as [|g gs Hg _ IHg]; [done|]. simpl.
      rewrite andb_true_iff. intros [H1 H2]. apply Forall_app_2; auto. }
    destruct branch as [kb sb]. destruct kb; try (by repeat constructor); by apply Hseq.
  - simpl. destruct (select_reader_cond features clauses) as [b|] eqn:E; [|done].
    repeat constructor. by eapply plain_select.
Qed.

(** Expanding a sequence removes every reader conditional from it, also the
    ones inside spliced branches, when no branch is itself a conditional; a
    sequence without conditionals is unchanged, so expansion is idempotent. *)
Theorem expand_reader_conds_removes forms :
  forallb plain_branches forms = true ->
  Forall no_cond (expand_reader_conds features forms) /\
  expand_reader_conds features (expand_reader_conds features forms) = expand_reader_conds features forms.
Proof.
  intros Hp. assert (H : Forall no_cond (expand_reader_conds features forms)).
  { unfold expand_reader_conds. induction forms as [|f fs IH]; [done|]. simpl in *.
    apply andb_true_iff in Hp as [Hf Hfs]. apply Forall_app_2; [by apply expand_plain_children | auto]. }
  split; [done|]. induction H as [|g gs Hg _ IH]; [done|]. unfold expand_reader_conds in *. simpl.
  by rewrite (expand_form_other g Hg), IH.
Qed.
End Conds.

Lemma expand_reader_conds_removes_witness :
  let kw s := mkForm (FKeyword (lit s)) (mkSpan [] 0 0 0 0) in
  let int n := mkForm (FInt n) (mkSpan [] 0 0 0 0) in
  let forms := [int 1; mkForm (FReaderCond true [kw "clj"; int 2; kw "rust"; mkForm (FVector [int 3; int 4]) (mkSpan [] 0 0 0 0)]) (mkSpan [] 0 0 0 0)] in
  Forall no_cond (expand_reader_conds None forms) /\
  expand_reader_conds None (expand_reader_conds None forms) = expand_reader_conds None forms.
Proof. intros kw int forms. apply expand_reader_conds_removes. reflexivity. Defined.

(** * Tagged literals *)

(** The tags that remain are the two the reader knows, in the positions the
    conversion visits. *)
Fixpoint known_tags (form : Form) : bool :=
  match form with
  | mkForm k _ =>
      match k with
      | FTaggedLiteral tag inner =>
          (bool_decide (tag = lit "uuid") || bool_decide (tag = lit "inst")) && known_tags inner
      | FList c | FVector c | FSet c | FMap c => forallb known_tags c
      | FMeta m inner => known_tags m && known_tags inner
      | _ => true
      end
  end.

Lemma known_tags_map c :
  Forall (fun f => known_tags (sentinelize_tags f) = true) c -> forallb known_tags (map sentinelize_tags c) = true.
Proof. induction 1 as [|f c Hf _ IH]; [done|]. simpl. by rewrite Hf, IH. Qed.

Lemma map_known c :
  Forall (fun f => known_tags f = true -> sentinelize_tags f = f) c ->
  forallb known_tags c = true -> map sentinelize_tags c = c.
Proof.
  induction 1 as [|f c Hf _ IH]; [done|]. simpl. intros [H1 H2]%andb_true_iff. by rewrite Hf, IH.
Qed.

Lemma sentinelize_known f : known_tags (sentinelize_tags f) = true.
Proof.
  induction f as [[k span] IH] using form_ind'. destruct k; cbn [children form_kind] in IH; try done; simpl;
    try (by apply known_tags_map).
  - inversion IH as [|?? Hm IH']; subst. inversion IH' as [|?? Ht _]; subst. by rewrite Hm, Ht.
  - inversion IH as [|?? Hi _]; subst. case_decide as Ht; simpl; rewrite Hi; [done|].
    rewrite andb_true_r, orb_true_iff, !bool_decide_eq_true.
    destruct (decide (tag = lit "uuid")); [by left|]. destruct (decide (tag = lit "inst")); [by right|]. tauto.
Qed.

(** The conversion for [clojure.edn] leaves no tagged literal but [#uuid]
    and [#inst] in collections, metadata and the values of known tags, at any
    depth, and converting again changes nothing. *)
Theorem sentinelize_tags_complete f :
  known_tags (sentinelize_tags f) = true /\ sentinelize_tags (sentinelize_tags f) = sentinelize_tags f.
Proof.
  assert (Hid : forall g, known_tags g = true -> sentinelize_tags g = g).
  { intros g. induction g as [[k span] IH] using form_ind'.
    destruct k; cbn [children form_kind] in IH; try done; simpl; intros Hk;
      try (by rewrite map_known by done).
    - inversion IH as [|?? Hm IH']; subst. inversion IH' as [|?? Ht _]; subst.
      apply andb_true_iff in Hk as [H1 H2]. by rewrite Hm, Ht.
    - inversion IH as [|?? Hi _]; subst. apply andb_true_iff in Hk as [Ht H2].
      rewrite orb_true_iff, !bool_decide_eq_true in Ht. rewrite decide_False by tauto. by rewrite Hi. }
  split; [apply sentinelize_known | apply Hid, sentinelize_known].
Qed.
