(* ===== verification/Instant.v ===== *)
(** RFC 3339 timestamps and epoch milliseconds (crates/cljrs-types/src/instant.rs).

    Texts are byte strings, as the code reads them.  The only arithmetic that
    can leave [i64] is the first subtraction of the formatter, which is checked;
    the rest is proved to stay in range where it matters.

    Timestamps printed by the formatter are read back by the parser, and the
    parser never fails otherwise than with an error. *)
From stdpp Require Import strings.
From S2P Require Import Prelude RustStd Token Lexer.
Local Open Scope Z_scope.

(** * Civil dates *)

Definition days_from_civil (y m d : Z) : Z :=
  let y := if m <=? 2 then y - 1 else y in
  let era := Z.quot (if 0 <=? y then y else y - 399) 400 in
  let yoe := y - era * 400 in
  let mp := Z.rem (m + 9) 12 in
  let doy := Z.quot (153 * mp + 2) 5 + d - 1 in
  let doe := yoe * 365 + Z.quot yoe 4 - Z.quot yoe 100 + doy in
  era * 146097 + doe - 719468.

Definition civil_from_days (z : Z) : Z * Z * Z :=
  let z := z + 719468 in
  let era := Z.quot (if 0 <=? z then z else z - 146096) 146097 in
  let doe := z - era * 146097 in
  let yoe := Z.quot (doe - Z.quot doe 1460 + Z.quot doe 36524 - Z.quot doe 146096) 365 in
  let y := yoe + era * 400 in
  let doy := doe - (365 * yoe + Z.quot yoe 4 - Z.quot yoe 100) in
  let mp := Z.quot (5 * doy + 2) 153 in
  let d := doy - Z.quot (153 * mp + 2) 5 + 1 in
  let m := if mp <? 10 then mp + 3 else mp - 9 in
  (if m <=? 2 then y + 1 else y, m, d).

(** * Formatting *)

(** [{n:0w}]: zero padding after the sign to a total width [w]. *)
Definition pad_int (w : nat) (n : Z) : list Z :=
  let sign := if n <? 0 then [45] else [] in
  let ds := udec (Z.abs n) in
  sign ++ replicate (w - length sign - length ds) 48 ++ ds.

Section Format.
Context {B : BuildProfile}.

(** Subtraction on [i64]. *)
Definition sub_i64 {E : Type} (a b : Z) : outcome E Z :=
  if in_range i64_min i64_max (a - b) then Ok (a - b)
  else if overflow_checks then Panic else Ok (wrap_i64 (a - b)).

Definition format_rfc3339_millis (epoch_millis : Z) : outcome unit (list Z) :=
  let millis := epoch_millis mod 1000 in
  diff ← sub_i64 epoch_millis millis;
  let total_secs := Z.quot diff 1000 in
  let secs_of_day := total_secs mod 86400 in
  let days := Z.quot (total_secs - secs_of_day) 86400 in
  let '(year, month, day) := civil_from_days days in
  let hour := Z.quot secs_of_day 3600 in
  let minute := Z.quot (Z.rem secs_of_day 3600) 60 in
  let second := Z.rem secs_of_day 60 in
  mret (pad_int 4 year ++ [45] ++ pad_int 2 month ++ [45] ++ pad_int 2 day ++ [84]
        ++ pad_int 2 hour ++ [58] ++ pad_int 2 minute ++ [58] ++ pad_int 2 second ++ [46]
        ++ pad_int 3 millis ++ [45; 48; 48; 58; 48; 48]).
End Format.

(** * Parsing *)

(** [bytes.get(a..b)], which must be non-empty digits, as a number. *)
Definition digits (bytes : list Z) (a b : nat) : outcome unit Z :=
  if ((a <=? b) && (b <=? length bytes))%nat then
    let part := take (b - a) (drop a bytes) in
    if bool_decide (part = []) || negb (forallb is_ascii_digit part) then Err tt
    else match parse_i64 part with Some n => Ok n | None => Panic end
  else Err tt.

Definition byte_at (bytes : list Z) (i : nat) (c : Z) : bool := bool_decide (bytes !! i = Some c).

(** The end of the run of digits from [start]. *)
Definition digits_end (bytes : list Z) (start : nat) : nat :=
  (start + length (take_while is_ascii_digit (drop start bytes)))%nat.

(** [format!("{:0<3}", &frac[..min(len, 3)])]. *)
Definition millis_text (frac : list Z) : list Z :=
  let t := take 3 frac in t ++ replicate (3 - length t) 48.

(** The optional fraction at [i]: the milliseconds and where it ends. *)
Definition parse_fraction (bytes : list Z) (i : nat) : outcome unit (Z * nat) :=
  if byte_at bytes i 46 then
    let start := (i + 1)%nat in
    let end_ := digits_end bytes start in
    if (end_ =? start)%nat then Err tt
    else
      match parse_i64 (millis_text (take (end_ - start) (drop start bytes))) with
      | Some ms => Ok (ms, end_)
      | None => Err tt
      end
  else Ok (0, i).

(** The zone at [i], which must end the text: its offset in minutes. *)
Definition parse_zone (bytes : list Z) (i : nat) : outcome unit Z :=
  match bytes !! i with
  | Some c =>
      if (c =? 90) || (c =? 122) then
        if (i + 1 =? length bytes)%nat then Ok 0 else Err tt
      else if (c =? 43) || (c =? 45) then
        if negb (i + 6 =? length bytes)%nat || negb (byte_at bytes (i + 3) 58) then Err tt
        else
          oh ← digits bytes (i + 1) (i + 3);
          om ← digits bytes (i + 4) (i + 6);
          let offset := oh * 60 + om in
          Ok (if c =? 45 then - offset else offset)
      else Err tt
  | None => Ok 0
  end.

(** Hour, minute, second, milliseconds and zone offset, when the text goes
    beyond the date. *)
Definition parse_time (bytes : list Z) : outcome unit (Z * Z * Z * Z * Z) :=
  if (10 <? length bytes)%nat then
    if negb (byte_at bytes 10 84 || byte_at bytes 10 116 || byte_at bytes 10 32)
       || (length bytes <? 16)%nat || negb (byte_at bytes 13 58)
    then Err tt
    else
      hour ← digits bytes 11 13;
      minute ← digits bytes 14 16;
      si ← (if byte_at bytes 16 58 then s ← digits bytes 17 19; mret (s, 19%nat) else mret (0, 16%nat));
      let '(second, i) := si in
      mi ← parse_fraction bytes i;
      let '(millis, i) := mi in
      offset_minutes ← parse_zone bytes i;
      if negb (in_range 0 23 hour) || negb (in_range 0 59 minute) || negb (in_range 0 60 second)
      then Err tt
      else mret (hour, minute, second, millis, offset_minutes)
  else mret (0, 0, 0, 0, 0).

Definition parse_rfc3339_millis (bytes : list Z) : outcome unit Z :=
  if (length bytes <? 10)%nat || negb (byte_at bytes 4 45) || negb (byte_at bytes 7 45) then Err tt
  else
    year ← digits bytes 0 4;
    month ← digits bytes 5 7;
    day ← digits bytes 8 10;
    if negb (in_range 1 12 month) || negb (in_range 1 31 day) then Err tt
    else
      t ← parse_time bytes;
      let '(hour, minute, second, millis, offset_minutes) := t in
      let days := days_from_civil year month day in
      let secs := days * 86400 + hour * 3600 + minute * 60 + second - offset_minutes * 60 in
      mret (secs * 1000 + millis).

(** * Calendar arithmetic *)

Definition is_leap (y : Z) : bool := (y mod 4 =? 0) && (negb (y mod 100 =? 0) || (y mod 400 =? 0)).

Definition days_in_month (y m : Z) : Z :=
  if m =? 2 then (if is_leap y then 29 else 28)
  else if (m =? 4) || (m =? 6) || (m =? 9) || (m =? 11) then 30
  else 31.

Definition valid_date (y m d : Z) : Prop := 1 <= m <= 12 /\ 1 <= d <= days_in_month y m.

Definition next_day (y m d : Z) : Z * Z * Z :=
  if d <? days_in_month y m then (y, m, d + 1)
  else if m <? 12 then (y, m + 1, 1)
  else (y + 1, 1, 1).

(** The code's division of a possibly negative number rounds down. *)
Lemma quot_floor a b : 0 < b -> Z.quot (if 0 <=? a then a else a - (b - 1)) b = a / b.
Proof.
  intros Hb. destruct (Z.leb_spec 0 a); [by apply Z.quot_div_nonneg|].
  rewrite <- (Z.opp_involutive (a - (b - 1))), Z.quot_opp_l by lia.
  rewrite Z.quot_div_nonneg by lia. Z.div_mod_to_equations; nia.
Qed.

(** [days_from_civil] with the year counted from March, in floor divisions. *)
Lemma days_from_civil_eq y m d :
  1 <= m <= 12 -> 1 <= d ->
  days_from_civil y m d =
  (let y' := if m <=? 2 then y - 1 else y in
   let mp := (m + 9) mod 12 in
   365 * y' + y' / 4 - y' / 100 + y' / 400 + (153 * mp + 2) / 5 + d - 719469).
Proof.
  intros Hm Hd. unfold days_from_civil. cbv zeta. set (y' := if m <=? 2 then y - 1 else y).
  change 399 with (400 - 1). rewrite (quot_floor y' 400) by lia.
  rewrite Z.rem_mod_nonneg by lia.
  assert (0 <= y' - y' / 400 * 400 < 400) by (Z.div_mod_to_equations; lia).
  assert (0 <= (m + 9) mod 12) by (apply Z.mod_pos_bound; lia).
  rewrite !Z.quot_div_nonneg by lia. Z.div_mod_to_equations; lia.
Qed.

Lemma month_cases (P : Z -> Prop) m :
  1 <= m <= 12 -> P 1 -> P 2 -> P 3 -> P 4 -> P 5 -> P 6 -> P 7 -> P 8 -> P 9 -> P 10 -> P 11 -> P 12 -> P m.
Proof.
  intros Hm. intros. assert (m = 1 \/ m = 2 \/ m = 3 \/ m = 4 \/ m = 5 \/ m = 6 \/ m = 7 \/ m = 8 \/ m = 9
    \/ m = 10 \/ m = 11 \/ m = 12) as Hc by lia.
  repeat destruct Hc as [->|Hc]; subst; done.
Qed.

Lemma leap_cases y : if is_leap y then y mod 4 = 0 /\ (y mod 100 <> 0 \/ y mod 400 = 0)
                     else y mod 4 <> 0 \/ (y mod 100 = 0 /\ y mod 400 <> 0).
Proof.
  unfold is_leap. destruct (Z.eqb_spec (y mod 4) 0); simpl; [|by left].
  destruct (Z.eqb_spec (y mod 100) 0); simpl; [|by split; [done | left]].
  destruct (Z.eqb_spec (y mod 400) 0); simpl; [by split; [done | right] | by right].
Qed.

(** Evaluate the month tests at a known month. *)
Ltac eval_month :=
  repeat match goal with
  | |- context [days_in_month ?y ?m] =>
      first [ change (days_in_month y m) with 31 | change (days_in_month y m) with 30
            | change (days_in_month y m) with (if is_leap y then 29 else 28) ]
  | |- context [?a <? 12] => let b := eval vm_compute in (a <? 12) in change (a <? 12) with b
  | |- context [?a <=? 2] => let b := eval vm_compute in (a <=? 2) in change (a <=? 2) with b
  end; cbv beta iota zeta.

Lemma days_from_civil_next y m d :
  valid_date y m d ->
  (let '(y', m', d') := next_day y m d in days_from_civil y' m' d') = days_from_civil y m d + 1.
Proof.
  intros [Hm Hd]. unfold next_day. revert Hd. pose proof (leap_cases y) as Hleap.
  apply (month_cases (fun m => _ -> _) m Hm); eval_month; intros Hd; try destruct (is_leap y);
    match goal with |- context [d <? ?n] => destruct (Z.ltb_spec d n) end;
    repeat rewrite days_from_civil_eq by lia; eval_month; Z.div_mod_to_equations; lia.
Qed.

(** [days_from_civil] counts days: 1970-01-01 is day 0, and for every valid
    date of the Gregorian calendar, in any year, the next day has the next
    number. *)
Theorem days_from_civil_counts :
  days_from_civil 1970 1 1 = 0 /\
  forall y m d, valid_date y m d ->
    (let '(y', m', d') := next_day y m d in days_from_civil y' m' d') = days_from_civil y m d + 1.
Proof. split; [reflexivity | apply days_from_civil_next]. Qed.

(** The day of the 400-year era as a year and a day of that year; the last day
    exists only in leap years. *)
Lemma era_split doe :
  0 <= doe < 146097 ->
  let yoe := (doe - doe / 1460 + doe / 36524 - doe / 146096) / 365 in
  let doy := doe - (365 * yoe + yoe / 4 - yoe / 100) in
  0 <= yoe <= 399 /\ 0 <= doy <= 365 /\
  (doy = 365 -> (yoe + 1) mod 4 = 0 /\ ((yoe + 1) mod 100 <> 0 \/ yoe = 399)).
Proof.
  intros H yoe doy. split; [subst yoe; Z.div_mod_to_equations; lia|].
  split; [subst yoe doy; Z.div_mod_to_equations; lia|]. intros Hdoy.
  subst yoe doy. Z.div_mod_to_equations; lia.
Qed.

Lemma era_join yoe doy :
  0 <= yoe <= 399 -> 0 <= doy <= 365 ->
  (doy = 365 -> (yoe + 1) mod 4 = 0 /\ ((yoe + 1) mod 100 <> 0 \/ yoe = 399)) ->
  let doe := yoe * 365 + yoe / 4 - yoe / 100 + doy in
  0 <= doe < 146097 /\ (doe - doe / 1460 + doe / 36524 - doe / 146096) / 365 = yoe.
Proof. intros H1 H2 H3 doe. subst doe. split; Z.div_mod_to_equations; lia. Qed.

(** [civil_from_days] in floor divisions. *)
Lemma civil_from_days_eq z :
  let era := (z + 719468) / 146097 in
  let doe := (z + 719468) mod 146097 in
  let yoe := (doe - doe / 1460 + doe / 36524 - doe / 146096) / 365 in
  let doy := doe - (365 * yoe + yoe / 4 - yoe / 100) in
  let mp := (5 * doy + 2) / 153 in
  let m := if mp <? 10 then mp + 3 else mp - 9 in
  civil_from_days z =
    ((if m <=? 2 then yoe + era * 400 + 1 else yoe + era * 400), m, doy - (153 * mp + 2) / 5 + 1).
Proof.
  intros era doe yoe doy mp m. unfold civil_from_days. cbv zeta.
  pose proof (quot_floor (z + 719468) 146097 ltac:(lia)) as Hq. change (146097 - 1) with 146096 in Hq.
  rewrite Hq. fold era.
  replace (z + 719468 - era * 146097) with doe by (subst era doe; Z.div_mod_to_equations; lia).
  assert (Hdoe : 0 <= doe < 146097) by (apply Z.mod_pos_bound; lia).
  destruct (era_split doe Hdoe) as (Hyoe & Hdoy & _). fold yoe doy in Hyoe, Hdoy.
  assert (Hmp : 0 <= mp) by (subst mp; Z.div_mod_to_equations; lia).
  rewrite (Z.quot_div_nonneg doe 1460), (Z.quot_div_nonneg doe 36524), (Z.quot_div_nonneg doe 146096) by lia.
  rewrite (Z.quot_div_nonneg (doe - _ + _ - _) 365) by (Z.div_mod_to_equations; lia). fold yoe.
  rewrite (Z.quot_div_nonneg yoe 4), (Z.quot_div_nonneg yoe 100) by lia. fold doy.
  rewrite (Z.quot_div_nonneg (5 * doy + 2) 153) by lia. fold mp.
  rewrite (Z.quot_div_nonneg (153 * mp + 2) 5) by lia. done.
Qed.

Lemma quotient_cases (P : Z -> Prop) q :
  0 <= q <= 11 -> P 0 -> P 1 -> P 2 -> P 3 -> P 4 -> P 5 -> P 6 -> P 7 -> P 8 -> P 9 -> P 10 -> P 11 -> P q.
Proof.
  intros Hq. intros. assert (q = 0 \/ q = 1 \/ q = 2 \/ q = 3 \/ q = 4 \/ q = 5 \/ q = 6 \/ q = 7 \/ q = 8
    \/ q = 9 \/ q = 10 \/ q = 11) as Hc by lia.
  repeat destruct Hc as [->|Hc]; subst; done.
Qed.

Ltac eval_quotient :=
  repeat match goal with
  | |- context [?a <? 10] => let b := eval vm_compute in (a <? 10) in change (a <? 10) with b
  | |- context [?a <=? 2] => let b := eval vm_compute in (a <=? 2) in change (a <=? 2) with b
  end; cbv beta iota zeta.

(** The date a day number stands for is valid and has that number. *)
Lemma civil_from_days_valid z :
  let '(y, m, d) := civil_from_days z in valid_date y m d /\ days_from_civil y m d = z.
Proof.
  rewrite civil_from_days_eq. cbv zeta.
  set (doe := (z + 719468) mod 146097). set (era := (z + 719468) / 146097).
  set (yoe := (doe - doe / 1460 + doe / 36524 - doe / 146096) / 365).
  set (doy := doe - (365 * yoe + yoe / 4 - yoe / 100)).
  assert (Hdoe : 0 <= doe < 146097) by (apply Z.mod_pos_bound; lia).
  destruct (era_split doe Hdoe) as (Hyoe & Hdoy & Hlast). fold yoe in Hyoe, Hlast. fold yoe doy in Hdoy, Hlast.
  assert (Hz : z = era * 146097 + (yoe * 365 + yoe / 4 - yoe / 100 + doy) - 719468).
  { subst doy. subst era doe. Z.div_mod_to_equations; lia. }
  clearbody doy. clearbody yoe. clear Hdoe. clearbody doe. clearbody era. subst z.
  assert (Hmp : 0 <= (5 * doy + 2) / 153 <= 11) by (Z.div_mod_to_equations; lia).
  remember ((5 * doy + 2) / 153) as mp eqn:Emp.
  pose proof (leap_cases (yoe + era * 400 + 1)) as Hleap.
  revert Emp. apply (quotient_cases (fun mp => _ -> _) mp Hmp); intros Emp; eval_quotient;
    (split; [split; [lia|] |]).
  all: try (rewrite days_from_civil_eq by (Z.div_mod_to_equations; lia); eval_month; Z.div_mod_to_equations; lia).
  all: eval_month; try destruct (is_leap _); Z.div_mod_to_equations; lia.
Qed.

(** The day number of a valid date stands for that date. *)
Lemma civil_from_days_inverse y m d : valid_date y m d -> civil_from_days (days_from_civil y m d) = (y, m, d).
Proof.
  intros [Hm Hd]. set (y' := if m <=? 2 then y - 1 else y). set (mp := (m + 9) mod 12).
  set (doy := (153 * mp + 2) / 5 + d - 1). set (era := y' / 400). set (yoe := y' mod 400).
  assert (Hyoe : 0 <= yoe <= 399) by (subst yoe; pose proof (Z.mod_pos_bound y' 400); lia).
  assert (Hdoy : 0 <= doy <= 365 /\ (5 * doy + 2) / 153 = mp /\
    (doy = 365 -> (yoe + 1) mod 4 = 0 /\ ((yoe + 1) mod 100 <> 0 \/ yoe = 399)) /\ m = (if mp <? 10 then mp + 3 else mp - 9)).
  { pose proof (leap_cases y) as Hleap. subst doy yoe y' mp. clear era Hyoe. revert Hd.
    apply (month_cases (fun m => _ -> _) m Hm); eval_month; intros Hd;
      match goal with |- context [(?a + 9) mod 12] =>
        let v := eval vm_compute in ((a + 9) mod 12) in change ((a + 9) mod 12) with v end; eval_quotient;
      try destruct (is_leap y); Z.div_mod_to_equations; lia. }
  destruct Hdoy as (Hdoy & Hmp & Hlast & Hmm).
  destruct (era_join yoe doy Hyoe Hdoy Hlast) as [Hdoe Hyear].
  assert (Hz : days_from_civil y m d + 719468 = era * 146097 + (yoe * 365 + yoe / 4 - yoe / 100 + doy)).
  { rewrite days_from_civil_eq by lia. cbv zeta. fold y' mp. subst doy era yoe. Z.div_mod_to_equations; lia. }
  rewrite civil_from_days_eq. cbv zeta. rewrite Hz.
  remember (yoe * 365 + yoe / 4 - yoe / 100 + doy) as doe eqn:Edoe.
  assert (Ed : (era * 146097 + doe) / 146097 = era) by (rewrite Z.div_add_l, Z.div_small; lia).
  assert (Em : (era * 146097 + doe) mod 146097 = doe) by (rewrite Z.add_comm, Z.mod_add, Z.mod_small; lia).
  rewrite Ed, Em, Hyear. replace (doe - (365 * yoe + yoe / 4 - yoe / 100)) with doy by lia.
  rewrite Hmp, <- Hmm. f_equal; [f_equal|].
  - subst era yoe y'. case_if; Z.div_mod_to_equations; lia.
  - subst doy. lia.
Qed.

(** The two conversions are inverse to each other: every integer is the day
    number of exactly one valid date of the calendar, the one [civil_from_days]
    returns. *)
Theorem civil_days_bijection :
  (forall z, let '(y, m, d) := civil_from_days z in valid_date y m d /\ days_from_civil y m d = z) /\
  (forall y m d, valid_date y m d -> civil_from_days (days_from_civil y m d) = (y, m, d)).
Proof. split; [exact civil_from_days_valid | exact civil_from_days_inverse]. Qed.

(** * Printing and parsing *)

Lemma udec_fuel_length f n w : (0 < w)%nat -> 0 <= n < 10 ^ Z.of_nat w -> (length (udec_fuel f n) <= w)%nat.
Proof.
  revert n w. induction f as [|f IH]; intros n w Hw Hn; cbn [udec_fuel]; [simpl; lia|].
  destruct (Z.ltb_spec n 10); [simpl; lia|]. destruct w as [|[|w]]; [lia | simpl in Hn; lia|].
  rewrite length_app. simpl. rewrite Nat2Z.inj_succ, Z.pow_succ_r in Hn by lia.
  specialize (IH (n / 10) (S w)). assert (0 <= n / 10 < 10 ^ Z.of_nat (S w)).
  { split; [apply Z.div_pos; lia | apply Z.div_lt_upper_bound; lia]. }
  specialize (IH ltac:(lia) ltac:(done)). lia.
Qed.

Lemma digits_value_zeros k s : digits_value 10 0 (replicate k 48 ++ s) = digits_value 10 0 s.
Proof. induction k as [|k IH]; [done|]. simpl. exact IH. Qed.

(** A padded number has exactly its width, consists of digits, and parses back. *)
Lemma pad_int_spec w n :
  (0 < w)%nat -> 0 <= n < 10 ^ Z.of_nat w -> n <= i64_max ->
  length (pad_int w n) = w /\ forallb is_ascii_digit (pad_int w n) = true /\ parse_i64 (pad_int w n) = Some n.
Proof.
  intros Hw Hn Hmax. unfold pad_int. destruct (Z.ltb_spec n 0); [lia|]. rewrite Z.abs_eq by lia. simpl.
  rewrite Nat.sub_0_r. pose proof (udec_fuel_length (S (Z.to_nat (Z.log2 n))) n w Hw Hn) as Hl.
  fold (udec n) in Hl. pose proof (udec_digits n ltac:(lia)) as Hd.
  assert (HF : Forall (fun c => is_ascii_digit c = true) (replicate (w - length (udec n)) 48 ++ udec n)).
  { apply Forall_app_2; [by apply Forall_replicate | done]. }
  split_and!.
  - rewrite length_app, length_replicate. lia.
  - apply forallb_forall. intros c Hc%list_elem_of_In. rewrite Forall_forall in HF. by apply HF.
  - apply from_str_radix_digits; [unfold i64_min, i64_max in *; lia | | done |].
    + rewrite digits_value_zeros. apply udec_value. lia.
    + destruct (udec_cons n ltac:(lia)) as (c & t & -> & _). by intros [_ ?]%app_eq_nil.
Qed.

Lemma digits_split bytes a b part n :
  (a <= b <= length bytes)%nat -> take (b - a) (drop a bytes) = part -> part <> [] ->
  forallb is_ascii_digit part = true -> parse_i64 part = Some n -> digits bytes a b = Ok n.
Proof.
  intros Hab Hp Hne Hd Hn. unfold digits.
  replace ((a <=? b) && (b <=? length bytes))%nat with true
    by (symmetry; apply andb_true_iff; rewrite !Nat.leb_le; lia).
  rewrite Hp, bool_decide_eq_false_2, Hd, Hn by done. done.
Qed.

Lemma pad2 n : 0 <= n < 100 -> exists a b, pad_int 2 n = [a; b] /\
  forallb is_ascii_digit [a; b] = true /\ parse_i64 [a; b] = Some n.
Proof.
  intros Hn. destruct (pad_int_spec 2 n) as (Hl & Hd & Hp); [lia | lia | unfold i64_max; lia |].
  destruct (pad_int 2 n) as [|a [|b [|]]]; try done. by exists a, b.
Qed.

Lemma pad3 n : 0 <= n < 1000 -> exists a b c, pad_int 3 n = [a; b; c] /\
  forallb is_ascii_digit [a; b; c] = true /\ parse_i64 [a; b; c] = Some n.
Proof.
  intros Hn. destruct (pad_int_spec 3 n) as (Hl & Hd & Hp); [lia | lia | unfold i64_max; lia |].
  destruct (pad_int 3 n) as [|a [|b [|c [|]]]]; try done. by exists a, b, c.
Qed.

Lemma pad4 n : 0 <= n < 10000 -> exists a b c d, pad_int 4 n = [a; b; c; d] /\
  forallb is_ascii_digit [a; b; c; d] = true /\ parse_i64 [a; b; c; d] = Some n.
Proof.
  intros Hn. destruct (pad_int_spec 4 n) as (Hl & Hd & Hp); [lia | lia | unfold i64_max; lia |].
  destruct (pad_int 4 n) as [|a [|b [|c [|d [|]]]]]; try done. by exists a, b, c, d.
Qed.

(** Parsing the layout the formatter uses. *)
Lemma parse_layout year month day hour minute second millis :
  0 <= year < 10000 -> 1 <= month <= 12 -> 1 <= day <= 31 ->
  0 <= hour <= 23 -> 0 <= minute <= 59 -> 0 <= second <= 60 -> 0 <= millis < 1000 ->
  parse_rfc3339_millis
    (pad_int 4 year ++ [45] ++ pad_int 2 month ++ [45] ++ pad_int 2 day ++ [84]
     ++ pad_int 2 hour ++ [58] ++ pad_int 2 minute ++ [58] ++ pad_int 2 second ++ [46]
     ++ pad_int 3 millis ++ [45; 48; 48; 58; 48; 48])
  = Ok ((days_from_civil year month day * 86400 + hour * 3600 + minute * 60 + second) * 1000 + millis).
Proof.
  intros Hy Hmo Hda Hh Hmi Hs Hms.
  destruct (pad4 year Hy) as (y1 & y2 & y3 & y4 & -> & Dy & Py).
  destruct (pad2 month) as (m1 & m2 & -> & Dm & Pm); [lia|].
  destruct (pad2 day) as (d1 & d2 & -> & Dd & Pd); [lia|].
  destruct (pad2 hour) as (h1 & h2 & -> & Dh & Ph); [lia|].
  destruct (pad2 minute) as (i1 & i2 & -> & Di & Pi); [lia|].
  destruct (pad2 second) as (s1 & s2 & -> & Ds & Ps); [lia|].
  destruct (pad3 millis) as (f1 & f2 & f3 & -> & Df & Pf); [lia|].
  cbn [app]. set (bytes := [y1; _; _; _; _; _; _; _; _; _; _; _; _; _; _; _; _; _; _; _; _; _; _; _; _; _; _; _; _]).
  assert (E0 : digits bytes 0 4 = Ok year) by (by eapply digits_split; [simpl; lia | reflexivity | done | ..]).
  assert (E1 : digits bytes 5 7 = Ok month) by (by eapply digits_split; [simpl; lia | reflexivity | done | ..]).
  assert (E2 : digits bytes 8 10 = Ok day) by (by eapply digits_split; [simpl; lia | reflexivity | done | ..]).
  assert (E3 : digits bytes 11 13 = Ok hour) by (by eapply digits_split; [simpl; lia | reflexivity | done | ..]).
  assert (E4 : digits bytes 14 16 = Ok minute) by (by eapply digits_split; [simpl; lia | reflexivity | done | ..]).
  assert (E5 : digits bytes 17 19 = Ok second) by (by eapply digits_split; [simpl; lia | reflexivity | done | ..]).
  assert (E6 : parse_fraction bytes 19 = Ok (millis, 23%nat)).
  { unfold parse_fraction. change (byte_at bytes 19 46) with true.
    assert (He : digits_end bytes (19 + 1) = 23%nat).
    { unfold digits_end. change (drop (19 + 1) bytes) with [f1; f2; f3; 45; 48; 48; 58; 48; 48]. simpl in Df |- *.
      rewrite !andb_true_iff in Df. destruct Df as (F1 & F2 & F3 & _). by rewrite F1, F2, F3. }
    rewrite He. change (parse_i64 (millis_text (take (23 - (19 + 1)) (drop (19 + 1) bytes)))) with (parse_i64 [f1; f2; f3]).
    by rewrite Pf. }
  assert (E7 : parse_zone bytes 23 = Ok 0) by reflexivity.
  unfold parse_rfc3339_millis, parse_time.
  change (byte_at bytes 4 45) with true. change (byte_at bytes 7 45) with true.
  change (byte_at bytes 10 84) with true. change (byte_at bytes 13 58) with true. change (byte_at bytes 16 58) with true.
  change (length bytes) with 29%nat. cbn -[digits parse_fraction parse_zone in_range days_from_civil bytes].
  rewrite E0, E1, E2. cbn -[digits parse_fraction parse_zone in_range days_from_civil bytes].
  rewrite (proj2 (in_range_true 1 12 month)), (proj2 (in_range_true 1 31 day)) by lia.
  cbn -[digits parse_fraction parse_zone in_range days_from_civil bytes].
  rewrite E3, E4, E5. cbn -[digits parse_fraction parse_zone in_range days_from_civil bytes].
  rewrite E6. cbn -[digits parse_fraction parse_zone in_range days_from_civil bytes].
  rewrite E7. cbn -[digits parse_fraction parse_zone in_range days_from_civil bytes].
  rewrite (proj2 (in_range_true 0 23 hour)), (proj2 (in_range_true 0 59 minute)), (proj2 (in_range_true 0 60 second)) by lia.
  cbn -[digits parse_fraction parse_zone in_range days_from_civil bytes Z.mul Z.add]. unfold mret, outcome_ret. f_equal. lia.
Qed.

(** The years that fit four digits. *)
Lemma civil_year_range days :
  -719528 <= days <= 2932896 -> let '(y, m, d) := civil_from_days days in 0 <= y <= 9999.
Proof.
  intros Hd. pose proof (civil_from_days_valid days) as H. destruct (civil_from_days days) as [[y m] d].
  destruct H as [[Hm Hdm] E]. revert E Hdm.
  pose proof (leap_cases y) as Hleap.
  apply (month_cases (fun m => _ -> _ -> _) m Hm); eval_month; intros E Hdm;
    (rewrite days_from_civil_eq in E; [|lia | lia]); revert E; eval_month; intros E;
    try destruct (is_leap y); Z.div_mod_to_equations; lia.
Qed.

Section RoundTrip.
Context {B : BuildProfile}.

Lemma format_parse_text ms :
  -62167219200000 <= ms <= 253402300799999 ->
  exists s, format_rfc3339_millis ms = Ok s /\ parse_rfc3339_millis s = Ok ms.
Proof.
  intros Hms. unfold format_rfc3339_millis, sub_i64.
  pose proof (Z.mod_pos_bound ms 1000) as Hmod. pose proof (Z.div_mod ms 1000) as Hdm.
  replace (in_range i64_min i64_max (ms - ms mod 1000)) with true
    by (symmetry; apply in_range_true; unfold i64_min, i64_max; lia).
  cbn [mbind outcome_bind]. set (secs := ms / 1000).
  assert (E : Z.quot (ms - ms mod 1000) 1000 = secs).
  { replace (ms - ms mod 1000) with (secs * 1000) by (subst secs; lia). by rewrite Z.quot_mul by lia. }
  rewrite E. clear E.
  pose proof (Z.mod_pos_bound secs 86400) as Hsod. pose proof (Z.div_mod secs 86400) as Hsdm.
  assert (E : Z.quot (secs - secs mod 86400) 86400 = secs / 86400).
  { replace (secs - secs mod 86400) with (secs / 86400 * 86400) by lia. by rewrite Z.quot_mul by lia. }
  rewrite E. clear E. set (sod := secs mod 86400) in *. set (days := secs / 86400) in *.
  assert (Hdays : -719528 <= days <= 2932896) by (subst days secs; Z.div_mod_to_equations; lia).
  pose proof (civil_year_range days Hdays) as Hy. pose proof (civil_from_days_valid days) as Hv.
  destruct (civil_from_days days) as [[y m] d]. destruct Hv as [[Hm Hd] Ev].
  rewrite Z.rem_mod_nonneg, !Z.quot_div_nonneg by (lia || (apply Z.mod_pos_bound; lia)).
  rewrite Z.rem_mod_nonneg by lia.
  eexists. split; [reflexivity|]. rewrite parse_layout; [f_equal | ..].
  - rewrite Ev. subst secs. Z.div_mod_to_equations; lia.
  - lia.
  - lia.
  - assert (days_in_month y m <= 31) by (unfold days_in_month; repeat case_if; lia). lia.
  - Z.div_mod_to_equations; lia.
  - Z.div_mod_to_equations; lia.
  - Z.div_mod_to_equations; lia.
  - lia.
Qed.

(** The text is ASCII. *)
Ltac ascii_list := repeat (apply Forall_cons; split; [lia|]); by apply Forall_nil.

Lemma pad_int_ascii w n : Forall (fun c => 0 <= c < 128) (pad_int w n).
Proof.
  unfold pad_int. rewrite !Forall_app. split_and!; [destruct (n <? 0); ascii_list|apply Forall_replicate; lia|].
  eapply Forall_impl; [apply udec_digits; lia|]. intros c Hc. unfold is_ascii_digit in Hc. apply in_range_true in Hc. lia.
Qed.

Lemma format_ascii ms s : format_rfc3339_millis ms = Ok s -> Forall (fun c => 0 <= c < 128) s.
Proof.
  unfold format_rfc3339_millis. destruct (sub_i64 ms (ms mod 1000)) as [diff| | |]; try done. cbn [mbind outcome_bind].
  destruct (civil_from_days _) as [[y m] d]. intros [= <-].
  repeat first [apply Forall_app; split; [apply pad_int_ascii|] | apply Forall_cons; split; [lia|]]. by apply Forall_nil.
Qed.

(** Formatting an instant of the years 0 to 9999 and parsing the text gives
    the instant back, to the millisecond. *)
Theorem format_parse_round_trip ms :
  -62167219200000 <= ms <= 253402300799999 ->
  exists s, format_rfc3339_millis ms = Ok s /\ parse_rfc3339_millis s = Ok ms.
Proof. apply format_parse_text. Qed.
End RoundTrip.

Lemma format_parse_round_trip_witness :
  exists s, @format_rfc3339_millis dev_profile (-86400001) = Ok s /\ parse_rfc3339_millis s = Ok (-86400001).
Proof. apply (@format_parse_round_trip dev_profile (-86400001)). lia. Defined.

(** ** Totality of the parser *)

Lemma parse_i64_small s :
  s <> [] -> (length s <= 4)%nat -> forallb is_ascii_digit s = true ->
  exists n, parse_i64 s = Some n /\ 0 <= n < 10 ^ Z.of_nat (length s).
Proof.
  intros Hne Hl Hd. assert (HF : Forall (fun c => is_ascii_digit c = true) s).
  { apply Forall_forall. intros c Hc%list_elem_of_In. by eapply forallb_forall in Hd. }
  destruct (digits_value_some 10 0 s) as (v & Hv & Hb); [lia | lia | |].
  { eapply Forall_impl; [exact HF|]. intros c Hc. unfold is_ascii_digit in Hc. apply in_range_true in Hc.
    replace c with (48 + (c - 48)) by lia. rewrite to_digit_dec by lia. done. }
  assert (10 ^ Z.of_nat (length s) <= 10 ^ 4) by (apply Z.pow_le_mono_r; lia).
  exists v. split; [|lia]. apply from_str_radix_digits; [unfold i64_min, i64_max; lia | done | done | done].
Qed.

(** A field of at most four digits is read or rejected. *)
Lemma digits_total bytes a b w :
  (b - a <= w <= 4)%nat -> total_post (fun n => 0 <= n < 10 ^ Z.of_nat w) (digits bytes a b).
Proof.
  intros Hl. unfold digits. case_if; [|done]. cbv zeta. set (part := take (b - a) (drop a bytes)).
  destruct (bool_decide_reflect (part = [])) as [|Hne]; [done|]. simpl.
  destruct (forallb is_ascii_digit part) eqn:Hd; [|done]. simpl.
  assert (Hlen : (length part <= w)%nat) by (subst part; rewrite length_take; lia).
  destruct (parse_i64_small part) as (n & -> & Hn); [done | lia | done |]. simpl.
  assert (10 ^ Z.of_nat (length part) <= 10 ^ Z.of_nat w) by (apply Z.pow_le_mono_r; lia). lia.
Qed.

Lemma total_bind {E A C : Type} (m : outcome E A) (k : A -> outcome E C) P Q :
  total_post P m -> (forall a, P a -> total_post Q (k a)) -> total_post Q (m ≫= k).
Proof. destruct m; simpl; auto. Qed.

Lemma take_while_all p s : forallb p (take_while p s) = true.
Proof. induction s as [|c s IH]; simpl; [done|]. destruct (p c) eqn:E; simpl; [by rewrite E | done]. Qed.

Lemma take_while_prefix p s : take (length (take_while p s)) s = take_while p s.
Proof. induction s as [|c s IH]; simpl; [done|]. destruct (p c); simpl; [by rewrite IH | done]. Qed.

Lemma forallb_take {A : Type} (p : A -> bool) n s : forallb p s = true -> forallb p (take n s) = true.
Proof.
  revert n. induction s as [|c s IH]; intros [|n]; simpl; try done.
  intros [Hc Hs]%andb_true_iff. by rewrite Hc, IH.
Qed.

Lemma forallb_replicate_zero n : forallb is_ascii_digit (replicate n 48) = true.
Proof. induction n as [|n IH]; [done|]. exact IH. Qed.

Lemma parse_fraction_total bytes i : total_post (fun r => 0 <= r.1 < 1000) (parse_fraction bytes i).
Proof.
  unfold parse_fraction. case_if; [|simpl; lia]. unfold digits_end.
  set (run := take_while is_ascii_digit (drop (i + 1) bytes)). case_if; [done|]. bool_hyps.
  replace (i + 1 + length run - (i + 1))%nat with (length run) by lia.
  rewrite (take_while_prefix is_ascii_digit (drop (i + 1) bytes) : take (length run) _ = run).
  set (t := millis_text run).
  assert (Ht : forallb is_ascii_digit t = true).
  { unfold t, millis_text. rewrite forallb_app. rewrite forallb_take by apply take_while_all. apply forallb_replicate_zero. }
  assert (Hlen : length t = 3%nat).
  { unfold t, millis_text. rewrite length_app, length_replicate, length_take. lia. }
  assert (HF : Forall (fun c => is_Some (to_digit 10 c)) t).
  { apply Forall_forall. intros c Hc%list_elem_of_In. eapply forallb_forall in Ht; [|exact Hc].
    apply in_range_true in Ht. replace c with (48 + (c - 48)) by lia. by rewrite to_digit_dec by lia. }
  destruct (digits_value_some 10 0 t) as (v & Hv & Hb); [lia | lia | done |].
  rewrite Hlen in Hb. unfold parse_i64. rewrite (from_str_radix_digits _ _ t v); [simpl; lia | | done | | by destruct t].
  - unfold i64_min, i64_max. lia.
  - apply Forall_forall. intros c Hc%list_elem_of_In. by eapply forallb_forall in Ht.
Qed.

Lemma parse_zone_total bytes i : total_post (fun o => -6039 <= o <= 6039) (parse_zone bytes i).
Proof.
  unfold parse_zone. destruct (bytes !! i) as [c|]; [|simpl; lia].
  repeat (case_if; try (simpl; lia)).
  all: eapply total_bind; [apply (digits_total _ _ _ 2); lia|]; intros oh Hoh;
    eapply total_bind; [apply (digits_total _ _ _ 2); lia|]; intros om Hom; simpl in *; lia.
Qed.

Lemma days_from_civil_bounds y m d :
  0 <= y <= 9999 -> 1 <= m <= 12 -> 1 <= d <= 31 -> -719528 <= days_from_civil y m d <= 2932896.
Proof.
  intros Hy Hm Hd. rewrite days_from_civil_eq by lia.
  apply (month_cases (fun m => _ <= _ <= _) m Hm); eval_month; Z.div_mod_to_equations; lia.
Qed.

Lemma parse_time_total bytes :
  total_post (fun '(hour, minute, second, millis, offset) =>
    0 <= hour <= 23 /\ 0 <= minute <= 59 /\ 0 <= second <= 60 /\ 0 <= millis < 1000 /\ -6039 <= offset <= 6039)
    (parse_time bytes).
Proof.
  unfold parse_time. case_if; [|simpl; lia]. case_if; [done|].
  eapply total_bind; [apply (digits_total _ _ _ 2); lia|]. intros hour Hh.
  eapply total_bind; [apply (digits_total _ _ _ 2); lia|]. intros minute Hm.
  eapply total_bind with (P := fun r => 0 <= r.1).
  { case_if; [|simpl; lia]. eapply total_bind; [apply (digits_total _ _ _ 2); lia|]. intros s Hs. simpl in *. lia. }
  intros [second i] Hs. eapply total_bind; [apply parse_fraction_total|]. intros [millis j] Hms.
  eapply total_bind; [apply parse_zone_total|]. intros offset Ho. case_if; [done|]. simpl in *.
  apply orb_false_iff in E1 as [[E1 E2]%orb_false_iff E3].
  apply negb_false_iff, in_range_true in E1, E2, E3. lia.
Qed.

(** The parser returns on every text, either an error or an instant within
    the years 0 to 9999 and a zone offset of at most 99:99; it never panics and
    its result fits [i64]. *)
Theorem parse_rfc3339_total bytes :
  total_post (fun ms => -62167581540000 <= ms <= 253402663140999) (parse_rfc3339_millis bytes).
Proof.
  unfold parse_rfc3339_millis. case_if; [done|].
  eapply total_bind; [apply (digits_total _ _ _ 4); lia|]. intros year Hy. simpl in Hy.
  eapply total_bind; [apply (digits_total _ _ _ 2); lia|]. intros month Hm.
  eapply total_bind; [apply (digits_total _ _ _ 2); lia|]. intros day Hd.
  case_if; [done|]. apply orb_false_iff in E0 as [E0 E1]. apply negb_false_iff, in_range_true in E0, E1.
  eapply total_bind; [apply parse_time_total|]. intros [[[[hour minute] second] millis] offset] Ht.
  pose proof (days_from_civil_bounds year month day ltac:(lia) E0 E1). simpl. lia.
Qed.

(** Near the lower end of [i64] the formatter's subtraction overflows: it
    panics when overflow is checked, and otherwise prints a wrong date. *)
Theorem format_overflow_at_minimum :
  @format_rfc3339_millis dev_profile i64_min = Panic /\
  exists s, @format_rfc3339_millis release_profile i64_min = Ok s /\ head s = Some 50.
Proof. split; [reflexivity|]. eexists. split; vm_compute; reflexivity. Qed.
