(* ===== verification/Channel.v ===== *)
(** CSP channels (crates/cljrs-async/src/channel.rs).

    The state behind the mutex is the source's; each critical section is one
    function on it.  The loops of [put], [take], [put_blocking] and
    [take_blocking] are modelled one iteration at a time, so that a schedule is
    any interleaving of iterations of any number of tasks; the 1 ms timeouts of
    the blocking variants make every iteration possible at any time.  The
    wakeups of the asynchronous variants are in ChannelAsync. *)
From S2P Require Import Prelude RustStd.
Local Open Scope Z_scope.

(** Wakeups fired by an operation: [async_not_empty] and [async_not_full]. *)
Inductive Signal : Type := NotEmpty | NotFull.

Section Channel.
Context {V : Type}.

Record ChannelState : Type := mkChannel {
  queue : list V;
  capacity : nat;
  closed : bool;
  taken : Z
}.

Definition Channel_new (cap : nat) : ChannelState := mkChannel [] cap false 0.

Definition is_rendezvous (st : ChannelState) : bool := (capacity st =? 0)%nat.

Definition close (st : ChannelState) : ChannelState * list Signal :=
  (mkChannel (queue st) (capacity st) true (taken st), [NotEmpty; NotFull]).

(** [Some(v)], [Some(Value::Nil)] for a closed and drained channel, [None]. *)
Inductive Taken : Type := Got (v : V) | Drained | WouldBlock.

Definition try_take (st : ChannelState) : Taken * ChannelState * list Signal :=
  match queue st with
  | v :: q => (Got v, mkChannel q (capacity st) (closed st) (wrap_u64 (taken st + 1)), [NotFull])
  | [] => if closed st then (Drained, st, []) else (WouldBlock, st, [])
  end.

Definition push_back (v : V) (st : ChannelState) : ChannelState :=
  mkChannel (queue st ++ [v]) (capacity st) (closed st) (taken st).

Definition try_put_buffered (v : V) (st : ChannelState) : option bool * ChannelState * list Signal :=
  if closed st then (Some false, st, [])
  else if (length (queue st) <? capacity st)%nat then (Some true, push_back v st, [NotEmpty])
  else (None, st, []).

Inductive RvOffer : Type := Offered (token : Z) | Full | Closed.

Definition rv_offer (v : V) (st : ChannelState) : RvOffer * ChannelState * list Signal :=
  if closed st then (Closed, st, [])
  else match queue st with
       | [] => (Offered (taken st), push_back v st, [NotEmpty])
       | _ :: _ => (Full, st, [])
       end.

Inductive RvStatus : Type := TakenByPeer | ClosedUntaken | Waiting.

Definition rv_status (token : Z) (st : ChannelState) : RvStatus * ChannelState :=
  if negb (taken st =? token) then (TakenByPeer, st)
  else if closed st then (ClosedUntaken, mkChannel (tail (queue st)) (capacity st) (closed st) (taken st))
  else (Waiting, st).

(** * Tasks *)

(** A put: before it is accepted, waiting for its rendezvous, or finished with
    its result. *)
Inductive PutState : Type := PutPending (v : V) | PutOffered (token : Z) | PutDone (b : bool).

(** One iteration of the loops of [put]. *)
Definition put_step (p : PutState) (st : ChannelState) : PutState * ChannelState * list Signal :=
  match p with
  | PutPending v =>
      if is_rendezvous st then
        match rv_offer v st with
        | (Offered t, st', s) => (PutOffered t, st', s)
        | (Closed, st', s) => (PutDone false, st', s)
        | (Full, st', s) => (p, st', s)
        end
      else
        match try_put_buffered v st with
        | (Some accepted, st', s) => (PutDone accepted, st', s)
        | (None, st', s) => (p, st', s)
        end
  | PutOffered t =>
      match rv_status t st with
      | (TakenByPeer, st') => (PutDone true, st', [])
      | (ClosedUntaken, st') => (PutDone false, st', [])
      | (Waiting, st') => (p, st', [])
      end
  | PutDone _ => (p, st, [])
  end.

(** A take: waiting, or finished with a value or, on a drained channel, without.
    [take] passes the wakeup on when it returns [nil]. *)
Inductive TakeState : Type := TakePending | TakeDone (v : option V).

Definition take_step (is_nil : V -> bool) (t : TakeState) (st : ChannelState)
    : TakeState * ChannelState * list Signal :=
  match t with
  | TakePending =>
      match try_take st with
      | (Got v, st', s) => (TakeDone (Some v), st', if is_nil v then s ++ [NotEmpty] else s)
      | (Drained, st', s) => (TakeDone None, st', s ++ [NotEmpty])
      | (WouldBlock, st', s) => (TakePending, st', s)
      end
  | TakeDone _ => (t, st, [])
  end.

(** [offer!] and [poll!]: one attempt, then a result. *)
Inductive OfferState : Type := OfferPending (v : V) | OfferDone (b : bool).

Definition offer_step (o : OfferState) (st : ChannelState) : OfferState * ChannelState * list Signal :=
  match o with
  | OfferPending v =>
      if is_rendezvous st then (OfferDone false, st, [])
      else let '(r, st', s) := try_put_buffered v st in (OfferDone (default false r), st', s)
  | OfferDone _ => (o, st, [])
  end.

Inductive PollState : Type := PollPending | PollDone (v : option V).

Definition poll_step (p : PollState) (st : ChannelState) : PollState * ChannelState * list Signal :=
  match p with
  | PollPending =>
      match try_take st with
      | (Got v, st', s) => (PollDone (Some v), st', s)
      | (_, st', s) => (PollDone None, st', s)
      end
  | PollDone _ => (p, st, [])
  end.

(** One iteration of the loop of [take_blocking]. *)
Definition take_blocking_step (t : TakeState) (st : ChannelState) : TakeState * ChannelState :=
  match t with
  | TakePending =>
      match queue st with
      | v :: q => (TakeDone (Some v), mkChannel q (capacity st) (closed st) (wrap_u64 (taken st + 1)))
      | [] => if closed st then (TakeDone None, st) else (TakePending, st)
      end
  | TakeDone _ => (t, st)
  end.

(** One iteration of the loops of [put_blocking]: claiming the slot, waiting
    for the hand-off, or waiting for room. *)
Definition put_blocking_step (p : PutState) (st : ChannelState) : PutState * ChannelState :=
  match p with
  | PutPending v =>
      if (capacity st =? 0)%nat then
        if closed st then (PutDone false, st)
        else match queue st with
             | [] => (PutOffered (taken st), push_back v st)
             | _ :: _ => (p, st)
             end
      else if closed st then (PutDone false, st)
      else if (length (queue st) <? capacity st)%nat then (PutDone true, push_back v st)
      else (p, st)
  | PutOffered token =>
      if negb (taken st =? token) then (PutDone true, st)
      else if closed st then (PutDone false, mkChannel (tail (queue st)) (capacity st) (closed st) (taken st))
      else (p, st)
  | PutDone _ => (p, st)
  end.

Inductive Task : Type :=
| Put (p : PutState)
| Take (t : TakeState)
| Offer (o : OfferState)
| Poll (p : PollState)
| Close (finished : bool).

Definition task_step (is_nil : V -> bool) (k : Task) (st : ChannelState) : Task * ChannelState * list Signal :=
  match k with
  | Put p => let '(p', st', s) := put_step p st in (Put p', st', s)
  | Take t => let '(t', st', s) := take_step is_nil t st in (Take t', st', s)
  | Offer o => let '(o', st', s) := offer_step o st in (Offer o', st', s)
  | Poll p => let '(p', st', s) := poll_step p st in (Poll p', st', s)
  | Close false => let '(st', s) := close st in (Close true, st', s)
  | Close true => (k, st, [])
  end.
End Channel.

Arguments ChannelState : clear implicits.
Arguments PutState : clear implicits.
Arguments TakeState : clear implicits.
Arguments Task : clear implicits.
Arguments Taken : clear implicits.
Arguments OfferState : clear implicits.
Arguments PollState : clear implicits.

(** * Schedules *)

(** Values are the indices of the tasks that put them, so that what is received
    tells which put it came from; the operations treat values opaquely. *)

(** A system: the channel, the tasks, and two logs that only record what
    happened: the values accepted and the values taken, in order. *)
Record Sys : Type := mkSys {
  chan : ChannelState nat;
  tasks : list (Task nat);
  pushes : list nat;
  takes : list nat
}.

(** The value a task has received. *)
Definition received (k : Task nat) : option nat :=
  match k with
  | Take (TakeDone v) => v
  | Poll (PollDone v) => v
  | _ => None
  end.

Definition initial_task (i : nat) (k : Task nat) : Prop :=
  k = Put (PutPending i) \/ k = Take TakePending \/ k = Offer (OfferPending i) \/ k = Poll PollPending
  \/ k = Close false.

Definition initial (cap : nat) (s : Sys) : Prop :=
  chan s = Channel_new cap /\ pushes s = [] /\ takes s = [] /\
  forall i k, tasks s !! i = Some k -> initial_task i k.

Section Schedules.
Context (is_nil : nat -> bool).

(** One iteration of one task. *)
Definition run (i : nat) (s : Sys) : Sys :=
  match tasks s !! i with
  | None => s
  | Some k =>
      let '(k', st', _) := task_step is_nil k (chan s) in
      mkSys st' (<[i := k']> (tasks s))
        (if (length (queue (chan s)) <? length (queue st'))%nat then pushes s ++ [i] else pushes s)
        match received k, received k' with
        | None, Some p => takes s ++ [p]
        | _, _ => takes s
        end
  end.

Inductive step : Sys -> Sys -> Prop := step_run i s : step s (run i s).

Definition reachable (cap : nat) (s : Sys) : Prop := exists s0, initial cap s0 /\ rtc step s0 s.

(** ** The invariant *)

Definition in_flight (s : Sys) : list nat := takes s ++ queue (chan s).

Definition task_ok (s : Sys) (i : nat) (k : Task nat) : Prop :=
  match k with
  | Put (PutPending v) => v = i /\ i ∉ in_flight s
  | Put (PutOffered t) =>
      capacity (chan s) = 0%nat /\
      ((i ∈ queue (chan s) /\ t = taken (chan s)) \/
       (i ∈ takes s /\ exists n, (n < length (takes s))%nat /\ t = wrap_u64 (Z.of_nat n)))
  | Put (PutDone true) => i ∈ in_flight s /\ (capacity (chan s) = 0%nat -> i ∈ takes s)
  | Offer (OfferPending v) => v = i /\ i ∉ in_flight s
  | Offer (OfferDone true) => i ∈ in_flight s /\ capacity (chan s) <> 0%nat
  | _ => i ∉ in_flight s
  end.

Record inv (s : Sys) : Prop := {
  inv_bound : (length (queue (chan s)) <= Nat.max 1 (capacity (chan s)))%nat;
  inv_taken : taken (chan s) = wrap_u64 (Z.of_nat (length (takes s)));
  inv_received : omap received (tasks s) ≡ₚ takes s;
  inv_nodup : NoDup (in_flight s);
  inv_tasks : forall i k, tasks s !! i = Some k -> task_ok s i k;
  inv_fifo : capacity (chan s) <> 0%nat -> pushes s = in_flight s
}.

Lemma inv_initial cap s : initial cap s -> inv s.
Proof.
  intros (Hc & Hp & Ht & Hk).
  assert (Hrec : omap received (tasks s) = []).
  { assert (forall l, (forall i k, l !! i = Some k -> received k = None) -> omap received l = []) as H.
    { intros l. induction l as [|k l IH]; intros H; [done|]. simpl. rewrite (H 0%nat k eq_refl).
      apply IH. intros i k' Hi. by apply (H (S i)). }
    apply H. intros i k Hi. destruct (Hk i k Hi) as [->|[->|[->|[->| ->]]]]; done. }
  split; rewrite ?Hc, ?Ht, ?Hp, ?Hrec; unfold in_flight; rewrite ?Hc, ?Ht; simpl; try done.
  - lia.
  - apply NoDup_nil_2.
  - intros i k Hi. unfold task_ok, in_flight. rewrite Hc, Ht. simpl.
    destruct (Hk i k Hi) as [->|[->|[->|[->| ->]]]]; simpl; try split; try done; apply not_elem_of_nil.
Qed.

(** ** Preservation *)

Lemma omap_insert_same (l : list (Task nat)) (i : nat) k k' :
  l !! i = Some k -> received k = received k' -> omap received (<[i := k']> l) = omap received l.
Proof.
  revert i. induction l as [|x l IH]; intros [|i] Hi E; simpl in *; try done.
  - by injection Hi as ->; rewrite E.
  - destruct (received x); [f_equal|]; by apply (IH i).
Qed.

Lemma omap_insert_new (l : list (Task nat)) (i : nat) k k' p :
  l !! i = Some k -> received k = None -> received k' = Some p ->
  omap received (<[i := k']> l) ≡ₚ omap received l ++ [p].
Proof.
  revert i. induction l as [|x l IH]; intros [|i] Hi E E'; simpl in *; try done.
  - injection Hi as ->. rewrite E, E'. apply Permutation_cons_append.
  - destruct (received x); [|by apply IH]. simpl. apply perm_skip. by apply IH.
Qed.

(** Replacing one task: the others keep their condition if the change of the
    channel allows it. *)
Lemma tasks_ok_insert s s' i k' :
  (forall j k, tasks s !! j = Some k -> j <> i -> task_ok s j k -> task_ok s' j k) ->
  task_ok s' i k' ->
  (forall j k, tasks s !! j = Some k -> task_ok s j k) ->
  forall j k, <[i := k']> (tasks s) !! j = Some k -> task_ok s' j k.
Proof.
  intros Hother Hnew Hall j k Hj. destruct (decide (j = i)) as [->|Hne].
  - apply list_lookup_insert_Some in Hj as [(_ & -> & _)|(? & _)]; done.
  - rewrite list_lookup_insert_ne in Hj by done. auto.
Qed.

(** A task that changes nothing but itself. *)
Lemma inv_silent s i k k' c :
  inv s -> tasks s !! i = Some k -> received k = received k' ->
  task_ok s i k' ->
  inv (mkSys (mkChannel (queue (chan s)) (capacity (chan s)) c (taken (chan s)))
         (<[i := k']> (tasks s)) (pushes s) (takes s)).
Proof.
  intros [Hb Ht Hr Hn Hk Hf] Hi Hrec Hok. split; try done.
  - simpl. by rewrite (omap_insert_same _ _ k).
  - apply tasks_ok_insert; [|done | done]. done.
Qed.

(** A taker receives the first value. *)
Lemma inv_pop s i k k' p q :
  inv s -> tasks s !! i = Some k -> queue (chan s) = p :: q ->
  received k = None -> received k' = Some p ->
  (forall s', in_flight s' = in_flight s -> task_ok s' i k') ->
  inv (mkSys (mkChannel q (capacity (chan s)) (closed (chan s)) (wrap_u64 (taken (chan s) + 1)))
         (<[i := k']> (tasks s)) (pushes s) (takes s ++ [p])).
Proof.
  intros [Hb Ht Hr Hn Hk Hf] Hi Hq Hk0 Hk1 Hok.
  assert (Hfl : forall c t, in_flight (mkSys (mkChannel q (capacity (chan s)) c t) (<[i := k']> (tasks s)) (pushes s) (takes s ++ [p]))
    = in_flight s).
  { intros c t. unfold in_flight; simpl. by rewrite Hq, <- app_assoc. }
  rewrite Hq in Hb. split; simpl.
  - simpl in Hb. lia.
  - rewrite Ht, length_app. unfold wrap_u64. rewrite Zplus_mod_idemp_l. f_equal. simpl. lia.
  - rewrite (omap_insert_new _ _ k k' p) by done. by rewrite Hr.
  - by rewrite Hfl.
  - apply tasks_ok_insert; [|by apply Hok, Hfl | done].
    intros j kj Hj Hne Hokj. unfold task_ok in *. rewrite Hfl.
    destruct kj as [[v|t|[]]|[]|[v|[]]|[]|[]]; try done; simpl.
    + destruct Hokj as [Hcap [[Hjq ->] | (Hjt & n & Hlt & ->)]]; (split; [done|]); right.
      * rewrite Hq in Hjq. rewrite Hcap in Hb. destruct q; [|simpl in Hb; lia].
        apply list_elem_of_singleton in Hjq as ->. split; [by apply elem_of_app; right; apply list_elem_of_singleton|].
        exists (length (takes s)). rewrite length_app. simpl. split; [lia | done].
      * split; [by apply elem_of_app; left|]. exists n. rewrite length_app. simpl. split; [lia | done].
    + destruct Hokj as [H1 H2]. split; [done|]. intros Hcap. apply elem_of_app. left. auto.
  - intros Hcap. rewrite Hfl. auto.
Qed.

(** A putter's value is accepted. *)
Lemma inv_push s i k k' :
  inv s -> tasks s !! i = Some k -> received k = received k' -> i ∉ in_flight s ->
  (length (queue (chan s)) < Nat.max 1 (capacity (chan s)))%nat ->
  (forall s', in_flight s' = in_flight s ++ [i] -> queue (chan s') = queue (chan s) ++ [i] ->
     capacity (chan s') = capacity (chan s) -> taken (chan s') = taken (chan s) -> task_ok s' i k') ->
  inv (mkSys (push_back i (chan s)) (<[i := k']> (tasks s)) (pushes s ++ [i]) (takes s)).
Proof.
  intros [Hb Ht Hr Hn Hk Hf] Hi Hrec Hfresh Hroom Hok.
  set (s' := mkSys _ _ _ _).
  assert (Hfl : in_flight s' = in_flight s ++ [i]) by (unfold in_flight; simpl; by rewrite app_assoc).
  split; try done.
  - simpl. rewrite length_app. simpl. lia.
  - simpl. by rewrite (omap_insert_same _ _ k).
  - rewrite Hfl. apply NoDup_app. split; [done|]. split; [|apply NoDup_singleton].
    intros x Hx ->%list_elem_of_singleton. done.
  - apply (tasks_ok_insert s); [|by apply Hok | done].
    intros j kj Hj Hne Hokj. unfold task_ok in *. rewrite Hfl. simpl.
    destruct kj as [[v|t|[]]|[]|[v|[]]|[]|[]]; rewrite ?elem_of_app, ?list_elem_of_singleton; tauto.
  - intros Hcap. rewrite Hfl. simpl. by rewrite Hf.
Qed.

(** A rendezvous putter withdraws its value from a closed channel. *)
Lemma inv_cancel s i k t :
  inv s -> tasks s !! i = Some k -> k = Put (PutOffered t) ->
  queue (chan s) = [i] -> capacity (chan s) = 0%nat ->
  inv (mkSys (mkChannel [] (capacity (chan s)) (closed (chan s)) (taken (chan s)))
         (<[i := Put (PutDone false)]> (tasks s)) (pushes s) (takes s)).
Proof.
  intros [Hb Ht Hr Hn Hk Hf] Hi -> Hq Hcap. unfold in_flight in Hn. rewrite Hq in Hn.
  apply NoDup_app in Hn as (Hn & Hdis & _).
  split; simpl; try done.
  - lia.
  - by rewrite (omap_insert_same _ _ (Put (PutOffered t))).
  - unfold in_flight; simpl. by rewrite app_nil_r.
  - apply (tasks_ok_insert s); [|unfold task_ok, in_flight; simpl; rewrite app_nil_r|done].
    + intros j kj Hj Hne Hokj. unfold task_ok, in_flight in *. simpl in *. rewrite app_nil_r. rewrite Hq in Hokj.
      destruct kj as [[v|u|[]]|[]|[v|[]]|[]|[]]; rewrite ?elem_of_app, ?list_elem_of_singleton in Hokj; try tauto.
    + intros Hin. apply (Hdis i Hin). by apply list_elem_of_singleton.
Qed.

(** The count of takes does not wrap around within a schedule of fewer tasks. *)
Lemma takes_bound s : inv s -> (length (takes s) <= length (tasks s))%nat.
Proof.
  intros H. rewrite <- (Permutation_length (inv_received _ H)). generalize (tasks s) as l.
  induction l as [|k l IH]; [done|].
  change (omap received (k :: l)) with (match received k with Some y => y :: omap received l | None => omap received l end).
  destruct (received k); cbn [length]; lia.
Qed.

Lemma token_distinct n m : (n < m)%nat -> Z.of_nat m < 2 ^ 64 -> wrap_u64 (Z.of_nat n) <> wrap_u64 (Z.of_nat m).
Proof. intros H1 H2. unfold wrap_u64. rewrite !Z.mod_small by lia. lia. Qed.

(** What a waiting rendezvous putter finds. *)
Lemma rv_status_ok s i t :
  inv s -> Z.of_nat (length (tasks s)) < 2 ^ 64 -> tasks s !! i = Some (Put (PutOffered t)) ->
  if taken (chan s) =? t then queue (chan s) = [i] else i ∈ takes s.
Proof.
  intros H Hlen Hi. pose proof (takes_bound s H) as Hb. destruct (inv_tasks _ H i _ Hi) as [Hcap Hcase].
  destruct Hcase as [[Hq ->] | (Hin & n & Hn & ->)].
  - rewrite Z.eqb_refl. pose proof (inv_bound _ H) as Hq1. rewrite Hcap in Hq1.
    destruct (queue (chan s)) as [|x [|]]; [by apply elem_of_nil in Hq | | simpl in Hq1; lia].
    by apply list_elem_of_singleton in Hq as ->.
  - rewrite (inv_taken _ H). destruct (Z.eqb_spec (wrap_u64 (Z.of_nat (length (takes s)))) (wrap_u64 (Z.of_nat n))) as [E|]; [|done].
    exfalso. symmetry in E. revert E. apply token_distinct; lia.
Qed.

Lemma chan_eta {A : Type} (st : ChannelState A) : mkChannel (queue st) (capacity st) (closed st) (taken st) = st.
Proof. by destruct st. Qed.

Lemma inv_still s i k k' :
  inv s -> tasks s !! i = Some k -> received k = received k' -> task_ok s i k' ->
  inv (mkSys (chan s) (<[i := k']> (tasks s)) (pushes s) (takes s)).
Proof. intros H Hi Hr Hok. pose proof (inv_silent s i k k' (closed (chan s)) H Hi Hr Hok) as H'. by rewrite chan_eta in H'. Qed.

Lemma grows_push {A : Type} (v : A) (st : ChannelState A) :
  (length (queue st) <? length (queue (push_back v st)))%nat = true.
Proof. apply Nat.ltb_lt. simpl. rewrite length_app. simpl. lia. Qed.

Lemma in_last {A : Type} (x : A) l : x ∈ l ++ [x].
Proof. apply elem_of_app. right. by apply list_elem_of_singleton. Qed.

(** Each kind of task keeps the invariant. *)

Lemma inv_put_buffered s i k k' :
  inv s -> tasks s !! i = Some k -> received k = None -> received k' = None ->
  capacity (chan s) <> 0%nat -> i ∉ in_flight s -> (length (queue (chan s)) < capacity (chan s))%nat ->
  (k' = Put (PutDone true) \/ k' = Offer (OfferDone true)) ->
  inv (mkSys (push_back i (chan s)) (<[i := k']> (tasks s)) (pushes s ++ [i]) (takes s)).
Proof.
  intros H Hi Hr Hr' Hcap Hfresh Hroom Hk. eapply inv_push; [done | done | congruence | done | lia |].
  intros s' Hfl _ Hc _. destruct Hk as [-> | ->]; simpl; rewrite Hfl, Hc; (split; [apply in_last | done]).
Qed.

Lemma inv_put s i p :
  inv s -> Z.of_nat (length (tasks s)) < 2 ^ 64 -> tasks s !! i = Some (Put p) -> inv (run i s).
Proof.
  intros H Hlen Hi. pose proof (inv_tasks _ H i _ Hi) as Hok. unfold run. rewrite Hi. cbn [task_step].
  destruct p as [v|t|b]; cbn [put_step].
  - destruct Hok as [-> Hfresh]. unfold is_rendezvous. destruct (Nat.eqb_spec (capacity (chan s)) 0) as [Hcap|Hcap].
    + unfold rv_offer. destruct (closed (chan s)); [|destruct (queue (chan s)) as [|x q] eqn:Hq]; cbn [received].
      * rewrite Nat.ltb_irrefl. by eapply inv_still.
      * pose proof (grows_push i (chan s)) as Hg. rewrite Hq in Hg. rewrite Hg. eapply inv_push; [done | done | done | done | rewrite Hq; simpl; lia |].
        intros s' Hfl Hq' Hc Ht. split; [congruence|]. left. rewrite Hq', Ht. split; [apply in_last | done].
      * rewrite Hq, Nat.ltb_irrefl. by eapply inv_still.
    + unfold try_put_buffered. destruct (closed (chan s)); [|destruct (Nat.ltb_spec (length (queue (chan s))) (capacity (chan s)))];
        cbn [received].
      * rewrite Nat.ltb_irrefl. by eapply inv_still.
      * rewrite grows_push. eapply inv_put_buffered; [done | exact Hi | done | done | done | done | done | by left].
      * rewrite Nat.ltb_irrefl. by eapply inv_still.
  - pose proof (rv_status_ok s i t H Hlen Hi) as Hst. destruct Hok as [Hcap Hcase]. unfold rv_status.
    destruct (taken (chan s) =? t) eqn:Et; cbn [negb]; [destruct (closed (chan s)) eqn:Hcl|]; cbn [received].
    + rewrite Hst. cbn [queue tail length Nat.ltb Nat.leb]. rewrite <- Hcl. by eapply inv_cancel.
    + rewrite Nat.ltb_irrefl. eapply inv_still; [done | done | done |]. by split.
    + rewrite Nat.ltb_irrefl. eapply inv_still; [done | done | done |]. split; [|done].
      unfold in_flight. apply elem_of_app. by left.
  - rewrite Nat.ltb_irrefl. by eapply inv_still.
Qed.

Lemma inv_offer s i o : inv s -> tasks s !! i = Some (Offer o) -> inv (run i s).
Proof.
  intros H Hi. pose proof (inv_tasks _ H i _ Hi) as Hok. unfold run. rewrite Hi. cbn [task_step].
  destruct o as [v|b]; cbn [offer_step]; [|rewrite Nat.ltb_irrefl; by eapply inv_still].
  destruct Hok as [-> Hfresh]. unfold is_rendezvous. destruct (Nat.eqb_spec (capacity (chan s)) 0) as [Hcap|Hcap]; cbn [received].
  - rewrite Nat.ltb_irrefl. by eapply inv_still.
  - unfold try_put_buffered. destruct (closed (chan s)); [|destruct (Nat.ltb_spec (length (queue (chan s))) (capacity (chan s)))];
      cbn [received default].
    + rewrite Nat.ltb_irrefl. by eapply inv_still.
    + rewrite grows_push. eapply inv_put_buffered; [done | exact Hi | done | done | done | done | done | by right].
    + rewrite Nat.ltb_irrefl. by eapply inv_still.
Qed.

Lemma shrinks_pop {A : Type} (p : A) q : (length (p :: q) <? length q)%nat = false.
Proof. apply Nat.ltb_ge. simpl. lia. Qed.

Lemma inv_take s i t : inv s -> tasks s !! i = Some (Take t) -> inv (run i s).
Proof.
  intros H Hi. pose proof (inv_tasks _ H i _ Hi) as Hok. unfold run. rewrite Hi. cbn [task_step].
  destruct t as [|v]; cbn [take_step].
  - unfold try_take. destruct (queue (chan s)) as [|p q] eqn:Hq; [destruct (closed (chan s))|]; cbn [received].
    + rewrite Hq, Nat.ltb_irrefl. by eapply inv_still.
    + rewrite Hq, Nat.ltb_irrefl. by eapply inv_still.
    + cbn [queue]. rewrite shrinks_pop. eapply inv_pop; [done | done | done | done | done |].
      intros s' Hfl. simpl. by rewrite Hfl.
  - rewrite Nat.ltb_irrefl. destruct (received (Take (TakeDone v))) eqn:E; by eapply inv_still.
Qed.

Lemma inv_poll s i p : inv s -> tasks s !! i = Some (Poll p) -> inv (run i s).
Proof.
  intros H Hi. pose proof (inv_tasks _ H i _ Hi) as Hok. unfold run. rewrite Hi. cbn [task_step].
  destruct p as [|v]; cbn [poll_step].
  - unfold try_take. destruct (queue (chan s)) as [|p q] eqn:Hq; [destruct (closed (chan s))|]; cbn [received].
    + rewrite Hq, Nat.ltb_irrefl. by eapply inv_still.
    + rewrite Hq, Nat.ltb_irrefl. by eapply inv_still.
    + cbn [queue]. rewrite shrinks_pop. eapply inv_pop; [done | done | done | done | done |].
      intros s' Hfl. simpl. by rewrite Hfl.
  - rewrite Nat.ltb_irrefl. destruct (received (Poll (PollDone v))) eqn:E; by eapply inv_still.
Qed.

Lemma inv_close s i b : inv s -> tasks s !! i = Some (Close b) -> inv (run i s).
Proof.
  intros H Hi. pose proof (inv_tasks _ H i _ Hi) as Hok. unfold run. rewrite Hi. cbn [task_step].
  destruct b; cbn [close queue received]; rewrite Nat.ltb_irrefl; [by eapply inv_still | by eapply inv_silent].
Qed.

Lemma inv_run s i : inv s -> Z.of_nat (length (tasks s)) < 2 ^ 64 -> inv (run i s).
Proof.
  intros H Hlen. destruct (tasks s !! i) as [[p|t|o|p|b]|] eqn:Hi.
  - by eapply inv_put.
  - by eapply inv_take.
  - by eapply inv_offer.
  - by eapply inv_poll.
  - by eapply inv_close.
  - unfold run. by rewrite Hi.
Qed.

Lemma run_length i s : length (tasks (run i s)) = length (tasks s).
Proof.
  unfold run. destruct (tasks s !! i) as [k|]; [|done].
  destruct (task_step is_nil k (chan s)) as [[k' st'] sg]. apply length_insert.
Qed.

Lemma task_step_capacity {A : Type} (nil : A -> bool) (k : Task A) st :
  capacity (task_step nil k st).1.2 = capacity st.
Proof.
  destruct k as [[v|t|b]|[|v]|[v|b]|[|v]|[]]; simpl; try done;
    unfold is_rendezvous, rv_offer, try_put_buffered, rv_status, try_take;
    repeat (first [case_match | case_if]; simpl); simplify_eq; done.
Qed.

Lemma run_capacity i s : capacity (chan (run i s)) = capacity (chan s).
Proof.
  unfold run. destruct (tasks s !! i) as [k|]; [|done].
  pose proof (task_step_capacity is_nil k (chan s)) as H.
  by destruct (task_step is_nil k (chan s)) as [[k' st'] sg].
Qed.

Lemma reachable_inv cap s :
  reachable cap s -> Z.of_nat (length (tasks s)) < 2 ^ 64 -> inv s /\ capacity (chan s) = cap.
Proof.
  intros (s0 & H0 & Hrtc) Hlen.
  assert (Hs0 : inv s0 /\ capacity (chan s0) = cap).
  { split; [by eapply inv_initial|]. destruct H0 as (-> & _). done. }
  clear H0. induction Hrtc as [|s1 s2 s3 Hstep Hrtc IH]; [done|]. destruct Hstep as [i s1].
  apply IH; [done|]. destruct Hs0 as [Hinv Hc].
  assert (Hl : length (tasks (run i s1)) = length (tasks s3)).
  { clear -Hrtc. remember (run i s1) as a eqn:E. clear E. induction Hrtc as [|x y z [j x'] _ IH]; [done|].
    by rewrite <- IH, run_length. }
  rewrite run_length in Hl. split; [apply inv_run; [done | lia] | by rewrite run_capacity].
Qed.

(** The tasks that received the value of task [i]. *)
Definition received_by (s : Sys) (i j : nat) : Prop :=
  exists k, tasks s !! j = Some k /\ received k = Some i.

Lemma elem_received (l : list (Task nat)) x :
  x ∈ omap received l <-> exists (j : nat) k, l !! j = Some k /\ received k = Some x.
Proof.
  rewrite list_elem_of_omap. split.
  - intros (k & Hk & E). apply list_elem_of_lookup in Hk as [j Hj]. by exists j, k.
  - intros (j & k & Hj & E). exists k. split; [by eapply list_elem_of_lookup_2 | done].
Qed.

Lemma received_unique (l : list (Task nat)) j j' k k' x :
  NoDup (omap received l) -> l !! j = Some k -> l !! j' = Some k' ->
  received k = Some x -> received k' = Some x -> j = j'.
Proof.
  revert j j'. induction l as [|a l IH]; intros j j' Hn Hj Hj' E E'; [done|].
  change (omap received (a :: l)) with (match received a with Some y => y :: omap received l | None => omap received l end) in Hn.
  assert (Hn' : NoDup (omap received l)) by (destruct (received a); [by inversion Hn | done]).
  assert (Hhead : forall m b, l !! m = Some b -> received b = Some x -> received a <> Some x).
  { intros m b Hm Eb Ea. rewrite Ea in Hn. inversion Hn as [|?? Hnot _]; subst. apply Hnot, elem_received. eauto. }
  destruct j as [|j], j' as [|j']; simpl in *; simplify_eq; try done.
  - by destruct (Hhead j' k').
  - by destruct (Hhead j k).
  - f_equal. by apply IH.
Qed.

(** Delivered: to exactly one task. *)
Definition delivered (s : Sys) (i : nat) : Prop :=
  exists j, received_by s i j /\ forall j', received_by s i j' -> j' = j.

Lemma takes_delivered s i : inv s -> i ∈ takes s -> delivered s i.
Proof.
  intros H Hi. pose proof (inv_received _ H) as Hr. rewrite <- Hr in Hi.
  apply elem_received in Hi as (j & k & Hj & E). exists j. split; [by exists k|].
  intros j' (k' & Hj' & E'). pose proof (inv_nodup _ H) as Hn. apply NoDup_app in Hn as (Hn & _).
  rewrite <- Hr in Hn. by eapply received_unique.
Qed.

Lemma received_takes s i j : inv s -> received_by s i j -> i ∈ takes s.
Proof. intros H (k & Hj & E). rewrite <- (inv_received _ H). apply elem_received. eauto. Qed.

(** C4: in every interleaving of puts, takes, offers, polls and closes on a
    rendezvous channel, a put that returned [true] was received by exactly one
    taker and a put that returned [false] by none; in particular, withdrawing
    an offer from a closed channel never removes another put's value, and no
    value is lost or duplicated. *)
Theorem rendezvous_exactly_once s i b :
  reachable 0 s -> Z.of_nat (length (tasks s)) < 2 ^ 64 ->
  tasks s !! i = Some (Put (PutDone b)) ->
  if b then delivered s i else forall j, ~ received_by s i j.
Proof.
  intros Hreach Hlen Hi. destruct (reachable_inv _ _ Hreach Hlen) as [H Hcap].
  pose proof (inv_tasks _ H i _ Hi) as Hok. destruct b; simpl in Hok.
  - apply takes_delivered; [done|]. by apply Hok.
  - intros j Hj. apply Hok. apply elem_of_app. left. by eapply received_takes.
Qed.

(** C38: a buffered channel is a queue: the values taken so far followed by the
    values in the buffer are the values accepted, in the order of acceptance,
    without repetition; the buffer never exceeds its capacity; a put or offer
    that returned [true] has its value in the buffer or delivered to exactly
    one taker, and one that returned [false] in neither. *)
Theorem buffered_channel_fifo cap s :
  reachable (S cap) s -> Z.of_nat (length (tasks s)) < 2 ^ 64 ->
  takes s ++ queue (chan s) = pushes s /\ NoDup (pushes s) /\
  (length (queue (chan s)) <= S cap)%nat /\
  forall i b, tasks s !! i = Some (Put (PutDone b)) \/ tasks s !! i = Some (Offer (OfferDone b)) ->
    if b then i ∈ queue (chan s) \/ delivered s i
    else (i ∉ queue (chan s)) /\ forall j, ~ received_by s i j.
Proof.
  intros Hreach Hlen. destruct (reachable_inv _ _ Hreach Hlen) as [H Hcap].
  pose proof (inv_fifo _ H) as Hf. pose proof (inv_bound _ H) as Hb. pose proof (inv_nodup _ H) as Hn.
  rewrite Hcap in Hf, Hb. specialize (Hf ltac:(done)). unfold in_flight in *.
  split; [done|]. split; [by rewrite Hf|]. split; [lia|].
  intros i b Hi. assert (Hin : if b then i ∈ in_flight s else i ∉ in_flight s).
  { destruct Hi as [Hi|Hi]; pose proof (inv_tasks _ H i _ Hi) as Hok; destruct b; simpl in Hok; tauto. }
  unfold in_flight in Hin. destruct b.
  - apply elem_of_app in Hin as [Hin|Hin]; [right; by apply takes_delivered | by left].
  - split; [set_solver|]. intros j Hj. apply Hin, elem_of_app. left. by eapply received_takes.
Qed.
End Schedules.

(** An iteration of a blocking put or take changes the channel and the
    operation exactly like an iteration of its asynchronous counterpart, so
    the guarantees for schedules hold when threads and asynchronous tasks share
    a channel. *)
Theorem blocking_steps_like_async {V : Type} (is_nil : V -> bool) (st : ChannelState V) (p : PutState V) (t : TakeState V) :
  put_blocking_step p st = (put_step p st).1 /\ take_blocking_step t st = (take_step is_nil t st).1.
Proof.
  split.
  - destruct p as [v|token|b]; unfold put_step, put_blocking_step, rv_offer, rv_status, try_put_buffered, is_rendezvous;
      [|by repeat case_match; simplify_eq | done].
    destruct (length (queue st) <? capacity st)%nat, (capacity st =? 0)%nat, (closed st), (queue st); done.
  - destruct t; [|done]. unfold take_step, take_blocking_step, try_take. by destruct (queue st), (closed st).
Qed.

(** ** Example schedules *)

Definition run_all (sched : list nat) (s : Sys) : Sys := fold_left (fun s i => run (fun _ => false) i s) sched s.

Lemma run_all_reachable cap sched s : initial cap s -> reachable (fun _ => false) cap (run_all sched s).
Proof.
  intros H. exists s. split; [done|]. clear H. revert s. induction sched as [|i sched IH]; intros s; [apply rtc_refl|].
  eapply rtc_l; [constructor | apply IH].
Qed.

(** Two puts, a take and a close on a rendezvous channel: the first value is
    handed over, the second is withdrawn. *)
Definition sample_rendezvous : Sys :=
  mkSys (Channel_new 0) [Put (PutPending 0%nat); Take TakePending; Put (PutPending 2%nat); Close false] [] [].

Lemma rendezvous_exactly_once_witness :
  let s := run_all [0; 1; 0; 2; 3; 2]%nat sample_rendezvous in
  delivered s 0%nat /\ forall j, ~ received_by s 2%nat j.
Proof.
  intros s.
  assert (Hr : reachable (fun _ => false) 0 s).
  { apply run_all_reachable. split_and!; try done.
    intros [|[|[|[|i]]]] k; simpl; intros [= <-]; unfold initial_task; tauto. }
  split.
  - exact (rendezvous_exactly_once _ s 0%nat true Hr ltac:(vm_compute; reflexivity) eq_refl).
  - exact (rendezvous_exactly_once _ s 2%nat false Hr ltac:(vm_compute; reflexivity) eq_refl).
Defined.

Definition sample_buffered : Sys :=
  mkSys (Channel_new 2) [Put (PutPending 0%nat); Put (PutPending 1%nat); Put (PutPending 2%nat); Take TakePending;
                         Offer (OfferPending 4%nat)] [] [].

Lemma buffered_channel_fifo_witness :
  let s := run_all [1; 0; 2; 4; 3; 2]%nat sample_buffered in
  takes s ++ queue (chan s) = pushes s /\ pushes s = [1; 0; 2]%nat.
Proof.
  intros s. assert (Hr : reachable (fun _ => false) 2 s).
  { apply run_all_reachable. split_and!; try done.
    intros [|[|[|[|[|i]]]]] k; simpl; intros [= <-]; unfold initial_task; tauto. }
  split; [exact (proj1 (buffered_channel_fifo _ 1 s Hr ltac:(vm_compute; reflexivity))) | reflexivity].
Defined.
