(* ===== verification/ChannelAsync.v ===== *)
(** Wakeups of asynchronous channel operations
    (crates/cljrs-async/src/channel.rs, [put] and [take]).

    A task polled by the executor runs its loop until it finishes or awaits the
    channel's [Notify]; it runs again only when that [Notify] wakes it. *)
From S2P Require Import Prelude RustStd Channel.
Local Open Scope Z_scope.

(** What the channel relies on from the notification primitive of the
    asynchronous runtime: waiting tasks are woken one at a time, oldest first;
    a notification without a waiting task is kept, at most one, and the next
    task that would wait consumes it instead. *)
Class Notify (N : Type) : Type := {
  notify_new : N;
  waiters : N -> list nat;
  permit : N -> bool;
  notify_one : N -> N * option nat;
  wait : nat -> N -> N * bool;
  notify_new_spec : waiters notify_new = [] /\ permit notify_new = false;
  notify_one_spec n :
    let '(n', woken) := notify_one n in
    (waiters n', permit n', woken)
    = match waiters n with
      | t :: ts => (ts, permit n, Some t)
      | [] => ([], true, None)
      end;
  wait_spec t n :
    let '(n', ready) := wait t n in
    (waiters n', permit n', ready)
    = if permit n then (waiters n, false, true) else (waiters n ++ [t], false, false)
}.

(** The view the laws talk about is itself an implementation. *)
Definition fifo : Type := list nat * bool.

#[export] Instance fifo_notify : Notify fifo.
Proof.
  refine {|
    notify_new := ([], false);
    waiters := fst;
    permit := snd;
    notify_one := fun n => match n.1 with t :: ts => ((ts, n.2), Some t) | [] => (([], true), None) end;
    wait := fun t n => if n.2 : bool then ((n.1, false), true) else ((n.1 ++ [t], false), false)
  |}.
  - done.
  - intros [[|t ts] p]; done.
  - intros t [ts []]; done.
Defined.

(** * The executor *)

Section Executor.
Context {N : Type} `{Notify N}.

Record Exec : Type := mkExec {
  echan : ChannelState nat;
  not_empty : N;
  not_full : N;
  etasks : list (Task nat);
  parked : list nat
}.

Definition exec_new (cap : nat) (ts : list (Task nat)) : Exec :=
  mkExec (Channel_new cap) notify_new notify_new ts [].

(** Waking a task makes it runnable again. *)
Definition wake (woken : option nat) (parked : list nat) : list nat :=
  match woken with
  | Some t => filter (fun x => x <> t) parked
  | None => parked
  end.

Definition fire (sg : Signal) (e : Exec) : Exec :=
  match sg with
  | NotEmpty =>
      let '(n, woken) := notify_one (not_empty e) in
      mkExec (echan e) n (not_full e) (etasks e) (wake woken (parked e))
  | NotFull =>
      let '(n, woken) := notify_one (not_full e) in
      mkExec (echan e) (not_empty e) n (etasks e) (wake woken (parked e))
  end.

Definition finished (k : Task nat) : bool :=
  match k with
  | Put (PutDone _) | Take (TakeDone _) | Offer (OfferDone _) | Poll (PollDone _) | Close true => true
  | _ => false
  end.

(** A put that made its offer goes on to wait for it; otherwise an iteration
    that did not finish awaits. *)
Definition advanced (k k' : Task nat) : bool :=
  match k, k' with
  | Put (PutPending _), Put (PutOffered _) => true
  | _, _ => false
  end.

(** [notified().await]: [true] when the task need not wait. *)
Definition await (i : nat) (k : Task nat) (e : Exec) : Exec * bool :=
  match k with
  | Take _ =>
      let '(n, ready) := wait i (not_empty e) in
      (mkExec (echan e) n (not_full e) (etasks e) (if ready then parked e else i :: parked e), ready)
  | _ =>
      let '(n, ready) := wait i (not_full e) in
      (mkExec (echan e) (not_empty e) n (etasks e) (if ready then parked e else i :: parked e), ready)
  end.

(** A blocking take on another thread fires the condition variables only. *)
Definition blocking_take (e : Exec) : Exec * TakeState nat :=
  let '(t, st) := take_blocking_step TakePending (echan e) in
  (mkExec st (not_empty e) (not_full e) (etasks e) (parked e), t).

(** Polling task [i]: iterations of its loop, until it finishes or parks. *)
Fixpoint poll_task (fuel : nat) (i : nat) (e : Exec) : Exec :=
  match fuel with
  | O => e
  | S f =>
      match etasks e !! i with
      | Some k =>
          let '(k', st', sigs) := task_step (fun _ => false) k (echan e) in
          let e1 := fold_left (fun e sg => fire sg e) sigs
                      (mkExec st' (not_empty e) (not_full e) (<[i := k']> (etasks e)) (parked e)) in
          if finished k' then e1
          else if advanced k k' then poll_task f i e1
          else let '(e2, ready) := await i k' e1 in if ready then poll_task f i e2 else e2
      | None => e
      end
  end.

(** The executor polls runnable tasks only. *)
Definition runnable (e : Exec) (i : nat) : bool :=
  match etasks e !! i with
  | Some k => negb (finished k) && negb (bool_decide (i ∈ parked e))
  | None => false
  end.

Definition schedule (e : Exec) (i : nat) : Exec := if runnable e i then poll_task 8 i e else e.
End Executor.

Arguments Exec N : clear implicits.

(** Evaluates the right-hand side of an equation. *)
Ltac eval_rhs H :=
  match type of H with
  | ?l = ?r => let r' := eval vm_compute in r in change (l = r') in H
  end.

(** * Every implementation behaves like the view *)

Section Simulation.
Context {N : Type} {HN : Notify N}.

Definition view (n : N) : fifo := (waiters n, permit n).

Definition view_exec (e : Exec N) : Exec fifo :=
  mkExec (echan e) (view (not_empty e)) (view (not_full e)) (etasks e) (parked e).

Lemma view_notify_one n : notify_one (view n) = (view (notify_one n).1, (notify_one n).2).
Proof.
  pose proof (notify_one_spec n) as Hn. unfold view. destruct (notify_one n) as [n' woken]. simpl.
  destruct (waiters n); injection Hn as -> -> ->; done.
Qed.

Lemma view_wait t n : wait t (view n) = (view (wait t n).1, (wait t n).2).
Proof.
  pose proof (wait_spec t n) as Hn. unfold view. destruct (wait t n) as [n' ready]. simpl.
  destruct (permit n); injection Hn as -> -> ->; done.
Qed.

Lemma view_fire sg e : view_exec (fire sg e) = fire sg (view_exec e).
Proof.
  destruct sg; unfold fire; cbn [not_empty not_full view_exec]; rewrite view_notify_one;
    [destruct (notify_one (not_empty e)) | destruct (notify_one (not_full e))]; done.
Qed.

Lemma view_fire_all sigs e :
  view_exec (fold_left (fun e sg => fire sg e) sigs e) = fold_left (fun e sg => fire sg e) sigs (view_exec e).
Proof. revert e. induction sigs as [|sg sigs IH]; intros e; [done|]. simpl. by rewrite IH, view_fire. Qed.

Lemma view_await i k e : await i k (view_exec e) = (view_exec (await i k e).1, (await i k e).2).
Proof.
  destruct k as [p|[]|o|q|c]; unfold await; cbn [not_empty not_full view_exec]; rewrite view_wait;
    match goal with |- context [wait i ?n] => destruct (wait i n) end; done.
Qed.

Lemma view_poll fuel i e : view_exec (poll_task fuel i e) = poll_task fuel i (view_exec e).
Proof.
  revert e. induction fuel as [|f IH]; intros e; [done|]. cbn [poll_task].
  change (etasks (view_exec e)) with (etasks e). change (echan (view_exec e)) with (echan e).
  destruct (etasks e !! i) as [k|]; [|done].
  destruct (task_step (fun _ => false) k (echan e)) as [[k' st'] sigs].
  change (mkExec st' (not_empty (view_exec e)) (not_full (view_exec e)) (<[i:=k']> (etasks e)) (parked (view_exec e)))
    with (view_exec (mkExec st' (not_empty e) (not_full e) (<[i:=k']> (etasks e)) (parked e))).
  rewrite <- view_fire_all. set (e1 := fold_left _ _ _).
  destruct (finished k'); [done|]. destruct (advanced k k'); [apply IH|].
  rewrite view_await. destruct (await i k' e1) as [e2 []]; simpl; [apply IH | done].
Qed.

Lemma view_schedule i e : view_exec (schedule e i) = schedule (view_exec e) i.
Proof. unfold schedule. change (runnable (view_exec e) i) with (runnable e i). case_match; [apply view_poll | done]. Qed.

Lemma view_schedule_all sched e :
  view_exec (fold_left schedule sched e) = fold_left schedule sched (view_exec e).
Proof. revert e. induction sched as [|i sched IH]; intros e; [done|]. simpl. by rewrite IH, view_schedule. Qed.

Lemma view_new cap ts : view_exec (exec_new cap ts) = exec_new cap ts.
Proof. unfold exec_new, view_exec, view. simpl. by destruct notify_new_spec as [-> ->]. Qed.

Lemma view_fields e c : view_exec e = c -> echan e = echan c /\ etasks e = etasks c /\ parked e = parked c.
Proof. by intros <-. Qed.

(** Two puts and two takes on a rendezvous channel. *)
Definition two_puts_two_takes : list (Task nat) :=
  [Put (PutPending 0%nat); Put (PutPending 1%nat); Take TakePending; Take TakePending].

(** C40: two concurrent puts and two takes on an open rendezvous channel can
    deadlock.  After the first value is handed over, only the putter that
    offered it is woken; it finishes without waking the other putter, which
    stays parked although the slot is free, while the second taker parks
    waiting for a value.  No task is runnable, and none will ever be. *)
Theorem async_rendezvous_lost_wakeup :
  let e := fold_left schedule [0; 1; 2; 0; 3]%nat (exec_new (N := N) 0 two_puts_two_takes) in
  etasks e = [Put (PutDone true); Put (PutPending 1%nat); Take (TakeDone (Some 0%nat)); Take TakePending] /\
  queue (echan e) = [] /\ closed (echan e) = false /\
  (forall i, runnable e i = false) /\ forall i, schedule e i = e.
Proof.
  intros e. assert (Hv : view_exec e = fold_left schedule [0; 1; 2; 0; 3]%nat (exec_new 0 two_puts_two_takes)).
  { unfold e. by rewrite view_schedule_all, view_new. }
  clearbody e. destruct (view_fields _ _ Hv) as (Hchan & Htasks & Hparked).
  eval_rhs Hchan. eval_rhs Htasks. eval_rhs Hparked.
  assert (Hrun : forall i, runnable e i = false).
  { intros i. unfold runnable. rewrite Htasks, Hparked. destruct i as [|[|[|[|i]]]]; reflexivity. }
  split_and!; [done | by rewrite Hchan | by rewrite Hchan | done |].
  intros i. unfold schedule. by rewrite Hrun.
Qed.

(** Three puts, of which the first is offered, then the channel is closed. *)
Definition puts_and_close : list (Task nat) :=
  [Put (PutPending 0%nat); Put (PutPending 1%nat); Put (PutPending 2%nat); Close false].

(** Closing a channel wakes one parked putter, which does not pass the
    wakeup on: with the others still parked, their puts never return, although
    the channel is closed. *)
Theorem close_leaves_putters_parked :
  let e := fold_left schedule [0; 1; 2; 3; 0]%nat (exec_new (N := N) 0 puts_and_close) in
  etasks e = [Put (PutDone false); Put (PutPending 1%nat); Put (PutPending 2%nat); Close true] /\
  closed (echan e) = true /\ (forall i, runnable e i = false) /\ forall i, schedule e i = e.
Proof.
  intros e. assert (Hv : view_exec e = fold_left schedule [0; 1; 2; 3; 0]%nat (exec_new 0 puts_and_close)).
  { unfold e. by rewrite view_schedule_all, view_new. }
  clearbody e. destruct (view_fields _ _ Hv) as (Hchan & Htasks & Hparked).
  eval_rhs Hchan. eval_rhs Htasks. eval_rhs Hparked.
  assert (Hrun : forall i, runnable e i = false).
  { intros i. unfold runnable. rewrite Htasks, Hparked. destruct i as [|[|[|[|i]]]]; reflexivity. }
  split_and!; [done | by rewrite Hchan | done |].
  intros i. unfold schedule. by rewrite Hrun.
Qed.
(** A value put asynchronously on a rendezvous channel and taken by a
    blocking take on another thread leaves the put parked for ever: the
    hand-off happened, but nothing wakes the putter. *)
Theorem blocking_take_strands_async_put :
  let e := fold_left schedule [0]%nat (exec_new (N := N) 0 [Put (PutPending 0%nat)]) in
  let e' := (blocking_take e).1 in
  (blocking_take e).2 = TakeDone (Some 0%nat) /\ etasks e' = [Put (PutOffered 0)] /\ taken (echan e') = 1 /\
  (forall i, runnable e' i = false) /\ forall i, schedule e' i = e'.
Proof.
  intros e. assert (Hv : view_exec e = fold_left schedule [0]%nat (exec_new 0 [Put (PutPending 0%nat)])).
  { unfold e. by rewrite view_schedule_all, view_new. }
  clearbody e. destruct (view_fields _ _ Hv) as (Hchan & Htasks & Hparked).
  eval_rhs Hchan. eval_rhs Htasks. eval_rhs Hparked.
  intros e'. assert (E : blocking_take e = (mkExec (mkChannel [] 0 false 1) (not_empty e) (not_full e) (etasks e) (parked e), TakeDone (Some 0%nat)))
    by (unfold blocking_take; by rewrite Hchan).
  subst e'. rewrite E. simpl. set (e' := mkExec _ _ _ _ _).
  assert (Hrun : forall i, runnable e' i = false).
  { intros i. unfold runnable, e'. simpl. rewrite Htasks, Hparked. destruct i; reflexivity. }
  split_and!; try done. intros i. unfold schedule. by rewrite Hrun.
Qed.
End Simulation.

(** The stuck states with the queue of waiting tasks itself as the notification
    primitive. *)
Lemma async_rendezvous_lost_wakeup_witness :
  let e := fold_left schedule [0; 1; 2; 0; 3]%nat (exec_new (N := fifo) 0 two_puts_two_takes) in
  waiters (not_full e) = [1]%nat /\ waiters (not_empty e) = [3]%nat /\ forall i, schedule e i = e.
Proof. split; [reflexivity|]. split; [reflexivity|]. apply (async_rendezvous_lost_wakeup (N := fifo)). Defined.

Lemma close_leaves_putters_parked_witness :
  let e := fold_left schedule [0; 1; 2; 3; 0]%nat (exec_new (N := fifo) 0 puts_and_close) in
  waiters (not_full e) = [1; 2]%nat /\ forall i, schedule e i = e.
Proof. split; [reflexivity|]. apply (close_leaves_putters_parked (N := fifo)). Defined.

Lemma blocking_take_strands_async_put_witness :
  let e' := (blocking_take (fold_left schedule [0]%nat (exec_new (N := fifo) 0 [Put (PutPending 0%nat)]))).1 in
  waiters (not_full e') = [0]%nat /\ forall i, schedule e' i = e'.
Proof. split; [reflexivity|]. apply (blocking_take_strands_async_put (N := fifo)). Defined.
