(* ===== verification/Ir.v ===== *)
(** The intermediate representation of functions (crates/cljrs-ir/src/lib.rs):
    instructions in A-normal form, basic blocks with phi nodes, functions. *)
From stdpp Require Import gmap.
From S2P Require Import Prelude RustStd Token.
Local Open Scope Z_scope.

(** Identifiers are [u32]. *)
Abbreviation VarId := Z.
Abbreviation BlockId := Z.

Inductive Repr : Type := RBoxed | RLong | RDouble | RBool | RLongArray | RDoubleArray.

Definition array_element (r : Repr) : option Repr :=
  match r with
  | RLongArray => Some RLong
  | RDoubleArray => Some RDouble
  | _ => None
  end.

#[export] Instance Repr_eq_dec : EqDecision Repr.
Proof. solve_decision. Defined.

Inductive KnownFn : Type :=
| KVector | KHashMap | KHashSet | KList | KAssoc | KDissoc | KConj | KDisj | KGet | KNth
| KNthLenient | KCount | KContains | KTransient | KAssocBang | KConjBang | KPersistentBang | KFirst
| KRest | KNext | KCons | KSeq | KLazySeq | KPeek | KPop | KVec | KAdd | KSub | KMul | KDiv | KRem
| KUncheckedAdd | KUncheckedSub | KUncheckedMul | KAget | KAset | KAlength | KEq | KLt | KGt | KLte
| KGte | KCaseEq | KIsNil | KIsSeq | KIsVector | KIsMap | KIsEmpty | KStr | KDeref | KIdentical
| KPrintln | KPr | KAtomDeref | KAtomReset | KAtomSwap | KApply | KReduce2 | KReduce3 | KMap
| KFilter | KMapv | KFilterv | KMapcat | KSome | KEvery | KInto | KInto3 | KRepeatedly | KGroupBy
| KPartition2 | KPartition3 | KPartition4 | KFrequencies | KKeep | KRemove | KMapIndexed | KZipmap
| KJuxt | KComp | KPartial | KComplement | KConcat | KRange1 | KRange2 | KRange3 | KTake | KDrop
| KReverse | KSort | KSortBy | KKeys | KVals | KMerge | KUpdate | KGetIn | KAssocIn | KIsNumber
| KIsString | KIsKeyword | KIsSymbol | KIsBool | KIsInt | KPrn | KPrint | KAtom | KTryCatchFinally
| KSetBangVar | KWithBindings | KWithOutStr | KCountFilter | KIntoFilter | KIntoMapcat | KIntoMap.

Inductive Effect : Type := EffPure | EffAlloc | EffHeapRead | EffHeapWrite | EffIO | EffUnknownCall.

(** Doubles are their bits. *)
Inductive Const : Type :=
| CNil
| CBool (b : bool)
| CLong (n : Z)
| CDouble (bits : Z)
| CStr (s : list Z)
| CKeyword (s : list Z)
| CSymbol (s : list Z)
| CChar (c : Z).

Inductive SuspendKind : Type := SkAwait | SkChanTake | SkChanPut | SkSpawn.

Inductive RegionAllocKind : Type := RkVector | RkMap | RkSet | RkList | RkCons.

Record ClosureTemplate : Type := mkClosureTemplate {
  ct_name : option (list Z);
  arity_fn_names : list (list Z);
  param_counts : list nat;
  is_variadic : list bool;
  capture_names : list (list Z)
}.

Inductive Inst : Type :=
| IConst (dst : VarId) (c : Const)
| ILoadLocal (dst : VarId) (name : list Z)
| ILoadGlobal (dst : VarId) (ns name : list Z)
| ILoadVar (dst : VarId) (ns name : list Z)
| IAllocVector (dst : VarId) (elems : list VarId)
| IAllocMap (dst : VarId) (pairs : list (VarId * VarId))
| IAllocSet (dst : VarId) (elems : list VarId)
| IAllocList (dst : VarId) (elems : list VarId)
| IAllocCons (dst head tail : VarId)
| IAllocClosure (dst : VarId) (template : ClosureTemplate) (captures : list VarId)
| ICallKnown (dst : VarId) (known : KnownFn) (args : list VarId)
| ICall (dst callee : VarId) (args : list VarId)
| ICallDirect (dst : VarId) (fn_name : list Z) (args : list VarId)
| IDeref (dst src : VarId)
| IDefVar (dst : VarId) (ns name : list Z) (value : VarId)
| ISetBang (var value : VarId)
| IThrow (value : VarId)
| IPhi (dst : VarId) (entries : list (BlockId * VarId))
| IRecur (args : list VarId)
| ISourceLoc (span : Span)
| IRegionStart (dst : VarId)
| IRegionAlloc (dst region : VarId) (kind : RegionAllocKind) (operands : list VarId)
| IRegionEnd (region : VarId)
| IRegionParam (dst : VarId)
| ICallWithRegion (dst : VarId) (target_name : list Z) (args : list VarId) (region : VarId)
| IAwait (src dst : VarId)
| ISpawn (fn_reg : VarId) (args : list VarId) (dst : VarId)
| IChanTake (chan dst : VarId)
| IChanPut (chan val : VarId)
| IStateStore (slot : Z) (val : VarId)
| IStateLoad (dst : VarId) (slot : Z)
| IAsyncSuspend (kind : SuspendKind) (operands : list VarId) (next_state : Z)
| IAsyncResume (dst : VarId) (kind : SuspendKind).

Inductive Terminator : Type :=
| Jump (target : BlockId)
| Branch (cond : VarId) (then_block else_block : BlockId)
| Return (v : VarId)
| RecurJump (target : BlockId) (args : list VarId)
| Unreachable.

Record Block : Type := mkBlock {
  block_id : BlockId;
  phis : list Inst;
  insts : list Inst;
  terminator : Terminator
}.

Inductive IrFunction : Type := mkIrFunction {
  fn_name : option (list Z);
  params : list (list Z * VarId);
  blocks : list Block;
  next_var : Z;
  next_block : Z;
  fn_span : option Span;
  subfunctions : list IrFunction;
  is_async : bool;
  is_async_poll_fn : bool;
  async_resume_blocks : list BlockId;
  seed_reprs : list Repr;
  local_seed_reprs : list (VarId * Repr)
}.

Definition IrFunction_new (name : option (list Z)) (span : option Span) : IrFunction :=
  mkIrFunction name [] [] 0 0 span [] false false [] [] [].

(** The function with other blocks. *)
Definition with_blocks (bs : list Block) (f : IrFunction) : IrFunction :=
  mkIrFunction (fn_name f) (params f) bs (next_var f) (next_block f) (fn_span f) (subfunctions f) (is_async f)
    (is_async_poll_fn f) (async_resume_blocks f) (seed_reprs f) (local_seed_reprs f).

Definition is_region_param (i : Inst) : bool := match i with IRegionParam _ => true | _ => false end.

Definition takes_region_param (f : IrFunction) : bool :=
  match blocks f with
  | entry :: _ => existsb is_region_param (insts entry)
  | [] => false
  end.

Definition abi_param_count (f : IrFunction) : nat :=
  (length (params f) + if takes_region_param f then 1 else 0)%nat.

Definition takes_state_param (f : IrFunction) : bool := is_async_poll_fn f.

(** ** Instructions *)

Definition KnownFn_effect (k : KnownFn) : Effect :=
  match k with
  | KGet | KNth | KNthLenient | KCount | KContains | KFirst | KAdd | KSub | KMul | KDiv | KRem
  | KUncheckedAdd | KUncheckedSub | KUncheckedMul | KEq | KLt | KGt | KLte | KGte | KCaseEq
  | KIsNil | KIsSeq | KIsVector | KIsMap | KIsEmpty | KPeek | KIdentical
      => EffPure
  | KVector | KHashMap | KHashSet | KList | KAssoc | KDissoc | KConj | KDisj | KCons | KRest
  | KNext | KSeq | KLazySeq | KPop | KVec | KStr | KTransient | KPersistentBang
      => EffAlloc
  | KAssocBang | KConjBang
      => EffHeapWrite
  | KDeref | KAtomDeref
      => EffHeapRead
  | KAget | KAlength
      => EffHeapRead
  | KAset => EffHeapWrite
  | KAtomReset | KAtomSwap
      => EffHeapWrite
  | KPrintln | KPr
      => EffIO
  | KApply => EffUnknownCall
  | KConcat | KRange1 | KRange2 | KRange3 | KTake | KDrop | KReverse
      => EffAlloc
  | KSort | KSortBy
      => EffUnknownCall
  | KKeys | KVals
      => EffAlloc
  | KMerge | KUpdate | KGetIn | KAssocIn
      => EffAlloc
  | KIsNumber | KIsString | KIsKeyword | KIsSymbol | KIsBool | KIsInt
      => EffPure
  | KPrn | KPrint
      => EffIO
  | KAtom => EffAlloc
  | KGroupBy | KPartition2 | KPartition3 | KPartition4 | KKeep | KRemove | KMapIndexed
      => EffUnknownCall
  | KJuxt | KComp | KPartial | KComplement
      => EffUnknownCall
  | KFrequencies | KZipmap
      => EffAlloc
  | KReduce2 | KReduce3 | KMap | KFilter | KMapv | KFilterv | KMapcat | KCountFilter | KIntoFilter
  | KIntoMapcat | KIntoMap | KSome | KEvery | KInto | KInto3 | KRepeatedly
      => EffUnknownCall
  | KTryCatchFinally => EffUnknownCall
  | KSetBangVar => EffHeapWrite
  | KWithBindings | KWithOutStr
      => EffUnknownCall
  end.

Definition Inst_effect (i : Inst) : Effect :=
  match i with
  | IConst _ _ | ILoadLocal _ _ | IPhi _ _ | ISourceLoc _ => EffPure
  | ILoadGlobal _ _ _ | ILoadVar _ _ _ => EffHeapRead
  | IAllocVector _ _ | IAllocMap _ _ | IAllocSet _ _ | IAllocList _ _ | IAllocCons _ _ _
  | IAllocClosure _ _ _ => EffAlloc
  | ICallKnown _ known _ => KnownFn_effect known
  | ICall _ _ _ | ICallDirect _ _ _ => EffUnknownCall
  | IDeref _ _ => EffHeapRead
  | IAwait _ _ => EffUnknownCall
  | ISpawn _ _ _ => EffUnknownCall
  | IChanTake _ _ => EffUnknownCall
  | IChanPut _ _ => EffHeapWrite
  | IStateStore _ _ => EffHeapWrite
  | IStateLoad _ _ => EffHeapRead
  | IAsyncSuspend _ _ _ | IAsyncResume _ _ => EffUnknownCall
  | IDefVar _ _ _ _ => EffHeapWrite
  | ISetBang _ _ => EffHeapWrite
  | IThrow _ => EffUnknownCall
  | IRecur _ => EffPure
  | IRegionStart _ | IRegionEnd _ => EffAlloc
  | IRegionAlloc _ _ _ _ => EffAlloc
  | IRegionParam _ => EffPure
  | ICallWithRegion _ _ _ _ => EffUnknownCall
  end.

Definition dst (i : Inst) : option VarId :=
  match i with
  | IConst v _ | ILoadLocal v _ | ILoadGlobal v _ _ | ILoadVar v _ _ | IAllocVector v _ | IAllocMap v _
  | IAllocSet v _ | IAllocList v _ | IAllocCons v _ _ | IAllocClosure v _ _ | ICallKnown v _ _ | ICall v _ _
  | ICallDirect v _ _ | IDeref v _ | IDefVar v _ _ _ | IPhi v _ | IRegionStart v | IRegionAlloc v _ _ _
  | IRegionParam v | ICallWithRegion v _ _ _ => Some v
  | IAwait _ v => Some v
  | ISpawn _ _ v => Some v
  | IChanTake _ v => Some v
  | IStateLoad v _ => Some v
  | IAsyncResume v _ => Some v
  | ISetBang _ _ | IThrow _ | IRecur _ | ISourceLoc _ | IRegionEnd _ | IChanPut _ _ | IStateStore _ _
  | IAsyncSuspend _ _ _ => None
  end.

Definition uses (i : Inst) : list VarId :=
  match i with
  | IConst _ _ | ILoadLocal _ _ | ILoadGlobal _ _ _ | ILoadVar _ _ _ | ISourceLoc _ => []
  | IAllocVector _ elems | IAllocSet _ elems | IAllocList _ elems => elems
  | IAllocMap _ pairs => pairs ≫= fun p => [p.1; p.2]
  | IAllocCons _ h t => [h; t]
  | IAllocClosure _ _ captures => captures
  | ICallKnown _ _ args => args
  | ICall _ callee args => callee :: args
  | ICallDirect _ _ args => args
  | IDeref _ src => [src]
  | IDefVar _ _ _ val => [val]
  | ISetBang var val => [var; val]
  | IThrow val => [val]
  | IPhi _ entries => map snd entries
  | IRecur args => args
  | IRegionStart _ => []
  | IRegionAlloc _ region _ operands => region :: operands
  | IRegionEnd region => [region]
  | IRegionParam _ => []
  | ICallWithRegion _ _ args region => args ++ [region]
  | IAwait src _ => [src]
  | ISpawn fn_reg args _ => fn_reg :: args
  | IChanTake chan _ => [chan]
  | IChanPut chan val => [chan; val]
  | IStateStore _ val => [val]
  | IStateLoad _ _ => []
  | IAsyncSuspend _ operands _ => operands
  | IAsyncResume _ _ => []
  end.

(** ** Control flow *)

(** Successor block ids of a terminator, in branch order. *)
Definition successors (t : Terminator) : list BlockId :=
  match t with
  | Jump target => [target]
  | Branch _ then_block else_block => [then_block; else_block]
  | RecurJump target _ => [target]
  | Return _ | Unreachable => []
  end.

(** The index of the last of the blocks with the given id. *)
Fixpoint index_from (i : nat) (bs : list Block) (m : gmap BlockId nat) : gmap BlockId nat :=
  match bs with
  | [] => m
  | b :: bs' => index_from (S i) bs' (<[block_id b := i]> m)
  end.

Definition index_of (f : IrFunction) : gmap BlockId nat := index_from 0 (blocks f) ∅.
