(* ===== verification/Reloop.v ===== *)
(** The relooper (crates/cljrs-compiler/src/wasm/reloop.rs): structured
    control flow from the control-flow graph of a function. *)
From stdpp Require Import gmap sorting.
From S2P Require Import Prelude RustStd Token Ir.
Local Open Scope Z_scope.

Inductive Structured : Type :=
| SSimple (block : BlockId) (next : Structured)
| SLabeled (label : BlockId) (body next : Structured)
| SLoop (header : BlockId) (body : Structured)
| SIf (cond : VarId) (then_arm else_arm : Structured)
| SBr (target : BlockId)
| SReturn (v : VarId)
| SUnreachable
| SNil.

Inductive RelooperError : Type :=
| Empty
| DanglingTarget (b : BlockId)
| Irreducible (from to : BlockId).

(** Indexing a [HashMap]: a missing key panics. *)
Definition index_map {K A E : Type} `{Countable K} (m : gmap K A) (k : K) : outcome E A :=
  match m !! k with
  | Some a => Ok a
  | None => Panic
  end.

(** * Control-flow graph helpers *)

(** [func.blocks[index[&b]]] *)
Definition block_at {E : Type} (f : IrFunction) (index : gmap BlockId nat) (b : BlockId) : outcome E Block :=
  i ← index_map index b;
  match blocks f !! i with
  | Some blk => Ok blk
  | None => Panic
  end.

(** The loop of [postorder]; the top of the stack is the head of the list. *)
Fixpoint postorder_loop {E : Type} (fuel : nat) (f : IrFunction) (index : gmap BlockId nat)
    (visited : gset BlockId) (post : list BlockId) (stack : list (BlockId * nat)) : outcome E (list BlockId) :=
  match fuel with
  | O => OutOfFuel
  | S fuel' =>
      match stack with
      | [] => Ok post
      | (b, child) :: rest =>
          blk ← block_at f index b;
          match successors (terminator blk) !! child with
          | Some s =>
              if decide (s ∈ visited) then postorder_loop fuel' f index visited post ((b, S child) :: rest)
              else postorder_loop fuel' f index ({[s]} ∪ visited) post ((s, O) :: (b, S child) :: rest)
          | None => postorder_loop fuel' f index visited (post ++ [b]) rest
          end
      end
  end.

(** Every round looks at another successor of a block or finishes a block. *)
Definition postorder_fuel (f : IrFunction) : nat := (S (3 * length (blocks f)))%nat.

Definition postorder {E : Type} (f : IrFunction) (entry : BlockId) (index : gmap BlockId nat)
    : outcome E (list BlockId) :=
  postorder_loop (postorder_fuel f) f index {[entry]} [] [(entry, O)].

(** ** Dominators *)

Section Dominators.
Context {E : Type}.
Context (rpo_num : gmap BlockId nat).

(** [while rpo_num[&a] > rpo_num[&b] { a = idom[&a]; }] *)
Fixpoint walk_up (fuel : nat) (idom : gmap BlockId BlockId) (a b : BlockId) : outcome E BlockId :=
  match fuel with
  | O => OutOfFuel
  | S fuel' =>
      ra ← index_map rpo_num a;
      rb ← index_map rpo_num b;
      if (rb <? ra)%nat then a' ← index_map idom a; walk_up fuel' idom a' b else Ok a
  end.

Fixpoint intersect (fuel : nat) (idom : gmap BlockId BlockId) (a b : BlockId) : outcome E BlockId :=
  match fuel with
  | O => OutOfFuel
  | S fuel' =>
      if decide (a = b) then Ok a
      else
        a ← walk_up fuel idom a b;
        b ← walk_up fuel idom b a;
        intersect fuel' idom a b
  end.

(** The loop over the predecessors of a block. *)
Fixpoint meet_preds (fuel : nat) (idom : gmap BlockId BlockId) (ps : list BlockId) (new_idom : option BlockId)
    : outcome E (option BlockId) :=
  match ps with
  | [] => Ok new_idom
  | p :: ps' =>
      match idom !! p with
      | None => meet_preds fuel idom ps' new_idom
      | Some _ =>
          match new_idom with
          | None => meet_preds fuel idom ps' (Some p)
          | Some cur => n ← intersect fuel idom p cur; meet_preds fuel idom ps' (Some n)
          end
      end
  end.

(** One pass over the blocks in reverse postorder. *)
Fixpoint dominators_pass (fuel : nat) (entry : BlockId) (preds : gmap BlockId (list BlockId)) (rpo : list BlockId)
    (idom : gmap BlockId BlockId) (changed : bool) : outcome E (gmap BlockId BlockId * bool) :=
  match rpo with
  | [] => Ok (idom, changed)
  | b :: rpo' =>
      if decide (b = entry) then dominators_pass fuel entry preds rpo' idom changed
      else
        new_idom ← meet_preds fuel idom (default [] (preds !! b)) None;
        match new_idom with
        | Some ni =>
            if decide (idom !! b = Some ni) then dominators_pass fuel entry preds rpo' idom changed
            else dominators_pass fuel entry preds rpo' (<[b := ni]> idom) true
        | None => dominators_pass fuel entry preds rpo' idom changed
        end
  end.

Fixpoint dominators_loop (rounds fuel : nat) (entry : BlockId) (preds : gmap BlockId (list BlockId))
    (rpo : list BlockId) (idom : gmap BlockId BlockId) : outcome E (gmap BlockId BlockId) :=
  match rounds with
  | O => OutOfFuel
  | S rounds' =>
      r ← dominators_pass fuel entry preds rpo idom false;
      let '(idom', changed) := r in
      if changed : bool then dominators_loop rounds' fuel entry preds rpo idom' else Ok idom'
  end.

(** Walking up meets at most every block once; a pass moves some dominator up
    or is the last one. *)
Definition dominators (entry : BlockId) (post : list BlockId) (preds : gmap BlockId (list BlockId))
    : outcome E (gmap BlockId BlockId) :=
  let n := length post in
  dominators_loop (S (S (n * n))) (S n) entry preds (rev post) {[entry := entry]}.

End Dominators.

(** * Analysis *)

Record Relooper : Type := mkRelooper {
  func : IrFunction;
  entry : BlockId;
  index : gmap BlockId nat;
  rpo_num : gmap BlockId nat;
  forward_preds : gmap BlockId nat;
  loop_headers : gset BlockId;
  merge_children : gmap BlockId (list BlockId)
}.

(** The first terminator target, in block order, that is no block. *)
Fixpoint dangling (index : gmap BlockId nat) (targets : list BlockId) : option BlockId :=
  match targets with
  | [] => None
  | s :: targets' => match index !! s with Some _ => dangling index targets' | None => Some s end
  end.

Fixpoint rank_from (rank : nat) (order : list BlockId) (m : gmap BlockId nat) : gmap BlockId nat :=
  match order with
  | [] => m
  | id :: order' => rank_from (S rank) order' (<[id := rank]> m)
  end.

(** [map.entry(k).or_default().push(v)] *)
Definition push_entry (k v : BlockId) (m : gmap BlockId (list BlockId)) : gmap BlockId (list BlockId) :=
  <[k := default [] (m !! k) ++ [v]]> m.

(** [*map.entry(k).or_default() += 1] *)
Definition count_entry (k : BlockId) (m : gmap BlockId nat) : gmap BlockId nat :=
  <[k := S (default 0%nat (m !! k))]> m.

Record Edges : Type := mkEdges {
  e_preds : gmap BlockId (list BlockId);
  e_forward : gmap BlockId nat;
  e_headers : gset BlockId
}.

Definition forward_edge (b s : BlockId) (e : Edges) : Edges :=
  mkEdges (push_entry s b (e_preds e)) (count_entry s (e_forward e)) (e_headers e).

Definition block_edges (b : Block) (e : Edges) : Edges :=
  match terminator b with
  | RecurJump target _ =>
      mkEdges (push_entry target (block_id b) (e_preds e)) (e_forward e) ({[target]} ∪ e_headers e)
  | term => fold_left (fun e s => forward_edge (block_id b) s e) (successors term) e
  end.

Definition edges (f : IrFunction) : Edges := fold_left (fun e b => block_edges b e) (blocks f) (mkEdges ∅ ∅ ∅).

Definition place_merge (entry : BlockId) (rpo_num : gmap BlockId nat) (forward_preds : gmap BlockId nat)
    (idom : gmap BlockId BlockId) (m : gmap BlockId (list BlockId)) (b : Block) : gmap BlockId (list BlockId) :=
  let id := block_id b in
  if decide (id = entry \/ rpo_num !! id = None) then m
  else if (2 <=? default 0%nat (forward_preds !! id))%nat then
    match idom !! id with
    | Some d => push_entry d id m
    | None => m
    end
  else m.

(** [kids.sort_by_key(|k| rpo_num[k])]: a stable sort. *)
Definition rank_le (rpo_num : gmap BlockId nat) (a b : BlockId) : Prop :=
  (default 0 (rpo_num !! a) <= default 0 (rpo_num !! b))%nat.

#[export] Instance rank_le_dec rpo_num a b : Decision (rank_le rpo_num a b).
Proof. unfold rank_le. apply _. Defined.

Definition sort_by_rank (rpo_num : gmap BlockId nat) (kids : list BlockId) : list BlockId :=
  merge_sort (rank_le rpo_num) kids.

Definition analyze (f : IrFunction) : outcome RelooperError Relooper :=
  match blocks f with
  | [] => Panic
  | b0 :: _ =>
      let entry := block_id b0 in
      let index := index_of f in
      match dangling index (blocks f ≫= fun b => successors (terminator b)) with
      | Some s => Err (DanglingTarget s)
      | None =>
          post ← postorder f entry index;
          let rpo_num := rank_from 0 (rev post) ∅ in
          let e := edges f in
          idom ← dominators rpo_num entry post (e_preds e);
          let children := fold_left (place_merge entry rpo_num (e_forward e) idom) (blocks f) ∅ in
          Ok (mkRelooper f entry index rpo_num (e_forward e) (e_headers e) (sort_by_rank rpo_num <$> children))
      end
  end.

(** * Structuring *)

Definition is_merge (r : Relooper) (id : BlockId) : bool := (2 <=? default 0 (forward_preds r !! id))%nat.

Section Recursion.
Context (r : Relooper) (do_tree : BlockId -> outcome RelooperError Structured).

Definition do_branch (source target : BlockId) : outcome RelooperError Structured :=
  rt ← index_map (rpo_num r) target;
  rs ← index_map (rpo_num r) source;
  if (rt <=? rs)%nat then Err (Irreducible source target)
  else if is_merge r target then Ok (SBr target)
  else do_tree target.

Definition translate_terminator (x : BlockId) : outcome RelooperError Structured :=
  blk ← block_at (func r) (index r) x;
  match terminator blk with
  | Return v => Ok (SReturn v)
  | Unreachable => Ok SUnreachable
  | Jump t => do_branch x t
  | Branch cond then_block else_block =>
      then_arm ← do_branch x then_block;
      else_arm ← do_branch x else_block;
      Ok (SIf cond then_arm else_arm)
  | RecurJump target _ => Ok (SBr target)
  end.

Definition code_for (x : BlockId) : outcome RelooperError Structured :=
  term ← translate_terminator x;
  Ok (SSimple x term).

(** [merges] is reversed here, so that its last element is at the head. *)
Fixpoint node_within (x : BlockId) (merges : list BlockId) : outcome RelooperError Structured :=
  match merges with
  | outer :: rest =>
      body ← node_within x rest;
      next ← do_tree outer;
      Ok (SLabeled outer body next)
  | [] => code_for x
  end.

End Recursion.

Fixpoint do_tree (fuel : nat) (r : Relooper) (x : BlockId) : outcome RelooperError Structured :=
  match fuel with
  | O => OutOfFuel
  | S fuel' =>
      let merges := default [] (merge_children r !! x) in
      inner ← node_within r (do_tree fuel' r) x (rev merges);
      if decide (x ∈ loop_headers r) then Ok (SLoop x inner) else Ok inner
  end.

(** The recursion descends the dominator tree. *)
Definition reloop (f : IrFunction) : outcome RelooperError Structured :=
  match blocks f with
  | [] => Err Empty
  | _ =>
      r ← analyze f;
      do_tree (length (blocks f)) r (entry r)
  end.
