(* ===== verification/ReloopSem.v ===== *)
(** What a control-flow graph and a structured tree compute, and the proof
    that a tree the relooper builds computes what the graph computes, as long
    as every branch of the tree stays inside it. *)
From stdpp Require Import gmap.
From S2P Require Import Prelude RustStd Token Ir Reloop.
Local Open Scope Z_scope.

Definition lookup_block (f : IrFunction) (b : BlockId) : option Block :=
  i ← index_of f !! b; blocks f !! i.

(** The machine the blocks run on: running the phis and instructions of a
    block ends the function early or changes the state; a condition is tested
    in a state. *)
Class Machine (St R : Type) : Type := {
  run_body : Block -> St -> R + St;
  test : VarId -> St -> R + bool;
  return_value : VarId -> St -> R;
  trap : St -> R
}.

Section Semantics.
Context {St R : Type} {M : Machine St R}.
Context (f : IrFunction).

(** Running the graph from a block: [None] if the fuel does not suffice. *)
Fixpoint run_cfg (fuel : nat) (b : BlockId) (st : St) : option R :=
  match fuel with
  | O => None
  | S n =>
      blk ← lookup_block f b;
      match run_body blk st with
      | inl r => Some r
      | inr st' =>
          match terminator blk with
          | Return v => Some (return_value v st')
          | Unreachable => Some (trap st')
          | Jump t => run_cfg n t st'
          | Branch c t e =>
              match test c st' with
              | inl r => Some r
              | inr true => run_cfg n t st'
              | inr false => run_cfg n e st'
              end
          | RecurJump t _ => run_cfg n t st'
          end
      end
  end.

(** How a tree ends: the function returned, it branches to an enclosing label,
    or control falls off its end. *)
Inductive tree_result : Type := Done (r : R) | Goto (label : BlockId) (st : St) | Fall (st : St).

Fixpoint run_tree (fuel : nat) (s : Structured) (st : St) : option tree_result :=
  match fuel with
  | O => None
  | S n =>
      match s with
      | SSimple b next =>
          blk ← lookup_block f b;
          match run_body blk st with
          | inl r => Some (Done r)
          | inr st' => run_tree n next st'
          end
      | SLabeled label body next =>
          r ← run_tree n body st;
          match r with
          | Goto l st' => if decide (l = label) then run_tree n next st' else Some (Goto l st')
          | Fall st' => run_tree n next st'
          | Done r => Some (Done r)
          end
      | SLoop header body =>
          r ← run_tree n body st;
          match r with
          | Goto l st' => if decide (l = header) then run_tree n (SLoop header body) st' else Some (Goto l st')
          | _ => Some r
          end
      | SIf c then_arm else_arm =>
          match test c st with
          | inl r => Some (Done r)
          | inr true => run_tree n then_arm st
          | inr false => run_tree n else_arm st
          end
      | SBr t => Some (Goto t st)
      | SReturn v => Some (Done (return_value v st))
      | SUnreachable => Some (Done (trap st))
      | SNil => Some (Fall st)
      end
  end.

Lemma run_cfg_mono n n' b st r : run_cfg n b st = Some r -> (n <= n')%nat -> run_cfg n' b st = Some r.
Proof.
  revert n' b st. induction n as [|n IH]; intros n' b st Hr Hle; [done|].
  destruct n' as [|n']; [lia|]. simpl in *. apply le_S_n in Hle.
  destruct (lookup_block f b) as [blk|]; [simpl in *|done].
  destruct (run_body blk st); [done|]. destruct (terminator blk); eauto.
  destruct (test cond _) as [|[]]; eauto.
Qed.

Lemma run_tree_mono n n' s st r : run_tree n s st = Some r -> (n <= n')%nat -> run_tree n' s st = Some r.
Proof.
  revert n' s st r. induction n as [|n IH]; intros n' s st r Hr Hle; [done|].
  destruct n' as [|n']; [lia|]. apply le_S_n in Hle. destruct s; simpl in *; try done.
  - destruct (lookup_block f block) as [blk|]; [simpl in *|done]. destruct (run_body blk st); eauto.
  - apply bind_Some in Hr as (r1 & H1 & H2). rewrite (IH _ _ _ _ H1 Hle). simpl.
    destruct r1; [done| |eauto]. case_decide; eauto.
  - apply bind_Some in Hr as (r1 & H1 & H2). rewrite (IH _ _ _ _ H1 Hle). simpl.
    destruct r1; [done| |done]. case_decide; eauto.
  - destruct (test cond st) as [|[]]; eauto.
Qed.

(** * Trees that represent blocks *)

(** Which blocks are placed at the edge that leads to them. *)
Context (plain : BlockId -> Prop).

(** [node s x] says that running [s] is running the graph from block [x]; it
    starts with the body of [x].  [term s x] is the part after the body. *)
Inductive node : Structured -> BlockId -> Prop :=
| node_simple x next : term next x -> node (SSimple x next) x
| node_labeled x m body next : node body x -> node next m -> node (SLabeled m body next) x
| node_loop x body : node body x -> node (SLoop x body) x
with term : Structured -> BlockId -> Prop :=
| term_return x blk v : lookup_block f x = Some blk -> terminator blk = Return v -> term (SReturn v) x
| term_unreachable x blk : lookup_block f x = Some blk -> terminator blk = Unreachable -> term SUnreachable x
| term_jump x blk t s : lookup_block f x = Some blk -> terminator blk = Jump t -> edge s t -> term s x
| term_recur x blk t args : lookup_block f x = Some blk -> terminator blk = RecurJump t args -> term (SBr t) x
| term_branch x blk c t e s1 s2 :
    lookup_block f x = Some blk -> terminator blk = Branch c t e -> edge s1 t -> edge s2 e -> term (SIf c s1 s2) x
with edge : Structured -> BlockId -> Prop :=
| edge_br t : edge (SBr t) t
| edge_node s t : plain t -> node s t -> edge s t.

Scheme node_ind' := Minimality for node Sort Prop
  with term_ind' := Minimality for term Sort Prop
  with edge_ind' := Minimality for edge Sort Prop.
Combined Scheme nodes_ind from node_ind', term_ind', edge_ind'.

(** ** The tree follows the graph *)

(** The tree ends as the graph does, or at a branch from which the graph ends
    so with fewer steps. *)
Definition follows (n : nat) (s : Structured) (st : St) (r : R) : Prop :=
  exists m res, run_tree m s st = Some res /\
    (res = Done r \/ exists l st', res = Goto l st' /\ run_cfg n l st' = Some r).

Lemma follows_mono n n' s st r : follows n s st r -> (n <= n')%nat -> follows n' s st r.
Proof.
  intros (m & res & Hm & [?|(l & st' & ? & ?)]) Hle; exists m, res; split; eauto.
  right. exists l, st'. eauto using run_cfg_mono.
Qed.

Lemma follows_sub n s st r m s' st' :
  (forall k res, run_tree k s st = Some res -> (m <= k)%nat -> run_tree (S k) s' st' = Some res) ->
  follows n s st r -> follows n s' st' r.
Proof.
  intros Hsub (k & res & Hk & Hres). exists (S (m + k)), res. split; [|done].
  apply Hsub; [|lia]. eapply run_tree_mono; [done | lia].
Qed.

(** Trees of blocks follow all runs of fewer than [n] steps. *)
Definition follow_below (n : nat) : Prop :=
  forall n', (n' < n)%nat -> forall s x, node s x ->
  forall st r, run_cfg n' x st = Some r -> follows (n' - 1) s st r.

Lemma follows_edge n s t st r n' :
  follow_below n -> (n' < n)%nat -> edge s t -> run_cfg n' t st = Some r -> follows n' s st r.
Proof.
  intros IH Hlt He Hr. destruct He as [t|s t _ Hn].
  - exists 1%nat, (Goto t st). split; [done|]. right. eauto.
  - eapply follows_mono; [by eapply IH | lia].
Qed.

Lemma follows_term n s x blk st st' r :
  follow_below n -> term s x -> lookup_block f x = Some blk -> run_body blk st = inr st' -> run_cfg n x st = Some r ->
  follows (n - 1) s st' r.
Proof.
  intros IH Ht Hx Hb Hr. destruct n as [|n']; [done|]. simpl in Hr. rewrite Hx in Hr. simpl in Hr. rewrite Hb in Hr.
  replace (S n' - 1)%nat with n' by lia.
  destruct Ht as [x b v Hx' E|x b Hx' E|x b t s Hx' E He|x b t args Hx' E|x b c t e s1 s2 Hx' E H1 H2];
    rewrite Hx in Hx'; injection Hx' as <-; rewrite E in Hr; try injection Hr as <-.
  - exists 1%nat, (Done (return_value v st')). eauto.
  - exists 1%nat, (Done (trap st')). eauto.
  - eapply follows_edge; eauto.
  - exists 1%nat, (Goto t st'). eauto 10.
  - destruct (test c st') as [r0|[]] eqn:Et; [injection Hr as <-| |].
    + exists 1%nat, (Done r0). simpl. rewrite Et. auto.
    + eapply (follows_sub _ s1 st' _ 0); [|by eapply follows_edge; eauto]. intros k res Hk _. simpl. by rewrite Et.
    + eapply (follows_sub _ s2 st' _ 0); [|by eapply follows_edge; eauto]. intros k res Hk _. simpl. by rewrite Et.
Qed.

Lemma follows_node n s x st r :
  follow_below n -> node s x -> run_cfg n x st = Some r -> follows (n - 1) s st r.
Proof.
  intros IH Hs. revert st r. induction Hs as [x next Ht|x m body next Hb IHb Hn _|x body Hb IHb]; intros st r Hr.
  - pose proof Hr as Hr'. destruct n as [|n']; [done|]. simpl in Hr'.
    destruct (lookup_block f x) as [blk|] eqn:Hx; [simpl in Hr'|done].
    destruct (run_body blk st) as [r0|st'] eqn:Eb.
    + injection Hr' as <-. exists 1%nat, (Done r0). simpl. rewrite Hx. simpl. rewrite Eb. auto.
    + eapply (follows_sub _ next st' _ 0); [|by eapply follows_term].
      intros k res Hk _. cbn. rewrite Hx. simpl. by rewrite Eb.
  - destruct (IHb st r Hr) as (k & res & Hk & Hres). destruct Hres as [->|(l & st' & -> & Hl)].
    { exists (S k), (Done r). simpl. rewrite Hk. auto. }
    destruct (decide (l = m)) as [->|Hne].
    + assert (Hlt : (n - 1 < n)%nat) by (destruct n; [done | lia]).
      pose proof (IH _ Hlt _ _ Hn _ _ Hl) as Hf.
      eapply (follows_mono (n - 1 - 1)); [|lia]. eapply (follows_sub _ next st' _ k); [|done].
      intros k' res' Hk' Hle. cbn. rewrite (run_tree_mono _ k' _ _ _ Hk Hle). simpl. by rewrite decide_True.
    + exists (S k), (Goto l st'). simpl. rewrite Hk. simpl. rewrite decide_False by done. split; [done|]. right. eauto.
  - destruct (IHb st r Hr) as (k & res & Hk & Hres). destruct Hres as [->|(l & st' & -> & Hl)].
    { exists (S k), (Done r). simpl. rewrite Hk. auto. }
    destruct (decide (l = x)) as [->|Hne].
    + assert (Hlt : (n - 1 < n)%nat) by (destruct n; [done | lia]).
      pose proof (IH _ Hlt _ _ (node_loop _ _ Hb) _ _ Hl) as Hf.
      eapply (follows_mono (n - 1 - 1)); [|lia]. eapply (follows_sub _ (SLoop x body) st' _ k); [|done].
      intros k' res' Hk' Hle. change (run_tree (S k') (SLoop x body) st)
        with (r ← run_tree k' body st;
          match r with
          | Goto l st' => if decide (l = x) then run_tree k' (SLoop x body) st' else Some (Goto l st')
          | _ => Some r
          end).
      rewrite (run_tree_mono _ k' _ _ _ Hk Hle). simpl. by rewrite decide_True.
    + exists (S k), (Goto l st'). simpl. rewrite Hk. simpl. rewrite decide_False by done. split; [done|]. right. eauto.
Qed.

Lemma node_follows n s x st r : node s x -> run_cfg n x st = Some r -> follows (n - 1) s st r.
Proof.
  revert s x st r. induction n as [n IH] using lt_wf_ind. intros s x st r Hs Hr.
  eapply follows_node; [|done..]. intros n' Hlt s' x' Hs' st' r' Hr'. by eapply IH.
Qed.

(** ** The graph follows the tree *)

(** From [c] the graph comes to an end, or to the start of a block, as the
    tree says. *)
Definition followed (run : nat -> option R) (res : tree_result) : Prop :=
  match res with
  | Done r => exists n, run n = Some r
  | Goto l st' => forall k r, run_cfg k l st' = Some r -> exists n, run n = Some r
  | Fall _ => False
  end.

(** Running the graph from the terminator of a block. *)
Definition run_term (x : BlockId) (st : St) (n : nat) : option R :=
  blk ← lookup_block f x;
  match terminator blk with
  | Return v => Some (return_value v st)
  | Unreachable => Some (trap st)
  | Jump t => run_cfg n t st
  | Branch c t e =>
      match test c st with
      | inl r => Some r
      | inr true => run_cfg n t st
      | inr false => run_cfg n e st
      end
  | RecurJump t _ => run_cfg n t st
  end.

Lemma followed_map run run' res :
  (forall n r, run n = Some r -> exists n', run' n' = Some r) -> followed run res -> followed run' res.
Proof.
  intros Hm. destruct res as [r|l st'|st']; simpl; [|intros H k r Hk|done].
  - intros [n Hn]. eauto.
  - destruct (H k r Hk) as [n Hn]. eauto.
Qed.

Lemma tree_followed m :
  (forall s x, node s x -> forall st res, run_tree m s st = Some res -> followed (fun n => run_cfg n x st) res) /\
  (forall s x, term s x -> forall st res, run_tree m s st = Some res -> followed (run_term x st) res) /\
  (forall s t, edge s t -> forall st res, run_tree m s st = Some res -> followed (fun n => run_cfg n t st) res).
Proof.
  induction m as [|m (IHn & IHt & IHe)]; [split_and!; done|].
  assert (Hnode : forall s x, node s x -> forall st res, run_tree (S m) s st = Some res ->
    followed (fun n => run_cfg n x st) res).
  { intros s x Hs st res Hr. destruct Hs as [x next Ht|x l body next Hb Hn|x body Hb]; simpl in Hr.
    - destruct (lookup_block f x) as [blk|] eqn:Hx; [simpl in Hr|done].
      destruct (run_body blk st) as [r|st'] eqn:Eb.
      + injection Hr as <-. exists 1%nat. simpl. rewrite Hx. simpl. by rewrite Eb.
      + eapply followed_map; [|by eapply IHt]. intros n r Hn. exists (S n). unfold run_term in Hn. simpl.
        rewrite Hx in *. simpl in *. rewrite Eb. done.
    - apply bind_Some in Hr as (r1 & H1 & H2). pose proof (IHn _ _ Hb _ _ H1) as Hf.
      destruct r1 as [r|l' st'|st']; [by injection H2 as <- | | done].
      case_decide as E; [subst l'|by injection H2 as <-].
      eapply followed_map; [|exact (IHn _ _ Hn _ _ H2)]. intros n r Hr. exact (Hf n r Hr).
    - apply bind_Some in Hr as (r1 & H1 & H2). pose proof (IHn _ _ Hb _ _ H1) as Hf.
      destruct r1 as [r|l' st'|st']; [by injection H2 as <- | | done].
      case_decide as E; [subst l'|by injection H2 as <-].
      eapply followed_map; [|exact (IHn _ _ (node_loop _ _ Hb) _ _ H2)]. intros n r Hr. exact (Hf n r Hr). }
  assert (Hedge : forall s t, edge s t -> forall st res, run_tree (S m) s st = Some res ->
    followed (fun n => run_cfg n t st) res).
  { intros s t He st res Hr. destruct He as [t|s t _ Hs]; [|by eapply Hnode]. injection Hr as <-. simpl. eauto. }
  split_and!; [done | | done].
  intros s x Ht st res Hr.
  destruct Ht as [x b v Hx E|x b Hx E|x b t s Hx E He|x b t args Hx E|x b c t e s1 s2 Hx E H1 H2].
  - injection Hr as <-. exists 0%nat. unfold run_term. rewrite Hx. simpl. by rewrite E.
  - injection Hr as <-. exists 0%nat. unfold run_term. rewrite Hx. simpl. by rewrite E.
  - eapply followed_map; [|by eapply Hedge]. intros n r Hn. exists n. unfold run_term. rewrite Hx. simpl. by rewrite E.
  - injection Hr as <-. intros k r Hk. exists k. unfold run_term. rewrite Hx. simpl. by rewrite E.
  - simpl in Hr. destruct (test c st) as [r|[]] eqn:Et.
    + injection Hr as <-. exists 0%nat. unfold run_term. rewrite Hx. simpl. by rewrite E, Et.
    + eapply followed_map; [|exact (IHe _ _ H1 _ _ Hr)]. intros n r Hn. exists n. unfold run_term. rewrite Hx. simpl. by rewrite E, Et.
    + eapply followed_map; [|exact (IHe _ _ H2 _ _ Hr)]. intros n r Hn. exists n. unfold run_term. rewrite Hx. simpl. by rewrite E, Et.
Qed.

(** ** Labels *)

(** The labels a tree branches to outside of itself. *)
Fixpoint free_labels (s : Structured) : gset BlockId :=
  match s with
  | SSimple _ next => free_labels next
  | SLabeled label body next => (free_labels body ∖ {[label]}) ∪ free_labels next
  | SLoop header body => free_labels body ∖ {[header]}
  | SIf _ s1 s2 => free_labels s1 ∪ free_labels s2
  | SBr t => {[t]}
  | SReturn _ | SUnreachable | SNil => ∅
  end.

Lemma goto_free m s st l st' : run_tree m s st = Some (Goto l st') -> l ∈ free_labels s.
Proof.
  revert s st l st'. induction m as [|m IH]; intros s st l st' Hr; [done|]. destruct s; simpl in Hr |- *.
  - destruct (lookup_block f block) as [blk|]; [simpl in Hr|done]. destruct (run_body blk st); [done | eauto].
  - apply bind_Some in Hr as (r1 & H1 & H2). destruct r1 as [r|l1 st1|st1]; [done| |apply IH in H2; set_solver].
    case_decide; [apply IH in H2; set_solver|]. injection H2 as -> ->. apply IH in H1. set_solver.
  - apply bind_Some in Hr as (r1 & H1 & H2). destruct r1 as [r|l1 st1|st1]; [done| |done].
    case_decide; [by apply IH in H2|]. injection H2 as -> ->. apply IH in H1. set_solver.
  - destruct (test cond st) as [r|[]]; [done|apply IH in Hr; set_solver..].
  - injection Hr as -> ->. set_solver.
  - done.
  - done.
  - done.
Qed.

(** A closed tree for a block computes what the graph computes from there. *)
Lemma node_equivalent s x st r :
  node s x -> free_labels s = ∅ ->
  (exists n, run_cfg n x st = Some r) <-> (exists m, run_tree m s st = Some (Done r)).
Proof.
  intros Hs Hc. split.
  - intros [n Hn]. destruct (node_follows _ _ _ _ _ Hs Hn) as (m & res & Hm & [->|(l & st' & -> & _)]); [eauto|].
    apply goto_free in Hm. set_solver.
  - intros [m Hm]. destruct (tree_followed m) as (H1 & _ & _). by apply (H1 _ _ Hs _ _ Hm).
Qed.

End Semantics.
