(* ===== verification/ReloopGraph.v ===== *)
(** The control-flow graph of a function, the edge tables of the relooper and
    its depth-first postorder.

    The depth-first postorder of the relooper: it lists the reachable
    blocks, and on a reducible graph every forward edge goes to an earlier
    block of the list. *)
From stdpp Require Import gmap sorting.
From S2P Require Import Prelude RustStd Token Ir Reloop ReloopSem.
Local Open Scope Z_scope.

Definition ids (f : IrFunction) : list BlockId := map block_id (blocks f).

(** Forward successors: the targets of everything but [RecurJump]. *)
Definition forward_succs (t : Terminator) : list BlockId :=
  match t with
  | RecurJump _ _ => []
  | _ => successors t
  end.

Definition recur_target (t : Terminator) : option BlockId :=
  match t with
  | RecurJump h _ => Some h
  | _ => None
  end.

Lemma successors_split t s : s ∈ successors t <-> s ∈ forward_succs t \/ recur_target t = Some s.
Proof. destruct t; simpl; set_solver. Qed.

Lemma successors_length t : (length (successors t) <= 2)%nat.
Proof. destruct t; simpl; lia. Qed.

Section Graph.
Context (f : IrFunction).

Definition terminates (b : BlockId) (t : Terminator) : Prop :=
  exists blk, blk ∈ blocks f /\ block_id blk = b /\ terminator blk = t.

Definition succ (b s : BlockId) : Prop := exists t, terminates b t /\ s ∈ successors t.
Definition fwd (b s : BlockId) : Prop := exists t, terminates b t /\ s ∈ forward_succs t.
Definition back (b s : BlockId) : Prop := exists t, terminates b t /\ recur_target t = Some s.

Lemma succ_split b s : succ b s <-> fwd b s \/ back b s.
Proof.
  split.
  - intros (t & Ht & Hs). apply successors_split in Hs as [Hs|Hs]; [left|right]; exists t; auto.
  - intros [(t & Ht & Hs)|(t & Ht & Hs)]; exists t; (split; [done|]); apply successors_split; auto.
Qed.

Context (entry : BlockId).

(** A path is held in reverse: its last block is at the head. *)
Inductive path : list BlockId -> BlockId -> Prop :=
| path_entry : path [entry] entry
| path_step p b s : path p b -> succ b s -> path (s :: p) s.

Inductive fpath : list BlockId -> BlockId -> Prop :=
| fpath_entry : fpath [entry] entry
| fpath_step p b s : fpath p b -> fwd b s -> fpath (s :: p) s.

Definition reach (b : BlockId) : Prop := exists p, path p b.

(** Every path from the entry to [b] goes through [d]. *)
Definition dominates (d b : BlockId) : Prop := forall p, path p b -> d ∈ p.

(** Jumps and branches do not form a cycle, and [RecurJump] goes back to a
    block that dominates it. *)
Record reducible : Prop := {
  red_forward : exists r : BlockId -> nat, forall b s, reach b -> fwd b s -> (r b < r s)%nat;
  red_back b h : reach b -> back b h -> dominates h b
}.

Lemma fpath_path p b : fpath p b -> path p b.
Proof.
  induction 1 as [|p b s _ IH Hs]; [constructor|]. econstructor; [done|]. apply succ_split. auto.
Qed.

Lemma reach_step b s : reach b -> succ b s -> reach s.
Proof. intros [p Hp] Hs. exists (s :: p). by econstructor. Qed.

(** Blocks of a path before its end are also reached. *)
Lemma path_member p b x : path p b -> x ∈ p -> reach x.
Proof.
  induction 1 as [|p b s Hp IH Hs]; intros Hx.
  - apply list_elem_of_singleton in Hx as ->. exists [entry]. constructor.
  - apply elem_of_cons in Hx as [->|Hx]; [|auto]. exists (s :: p). by econstructor.
Qed.

End Graph.

(** * Tables *)

Lemma index_from_spec n bs m k :
  NoDup (map block_id bs) ->
  index_from n bs m !! k =
    match list_find (fun b => block_id b = k) bs with
    | Some (i, _) => Some (n + i)%nat
    | None => m !! k
    end.
Proof.
  revert n m. induction bs as [|b bs IH]; intros n m Hnd; [done|].
  simpl in Hnd. apply NoDup_cons in Hnd as [Hb Hnd]. simpl. rewrite IH by done.
  destruct (decide (block_id b = k)) as [<-|Hne].
  - destruct (list_find _ bs) as [[i b']|] eqn:E.
    + apply list_find_Some in E as (Hi & Hk & _). exfalso. apply Hb. rewrite <- Hk.
      apply list_elem_of_fmap_2. eapply list_elem_of_lookup_2. exact Hi.
    + rewrite lookup_insert_eq. f_equal. lia.
  - destruct (list_find _ bs) as [[i b']|] eqn:E; simpl; [f_equal; lia|]. by rewrite lookup_insert_ne.
Qed.

Lemma dangling_None ix l : dangling ix l = None <-> forall s, s ∈ l -> is_Some (ix !! s).
Proof.
  induction l as [|s l IH]; simpl; [set_solver|]. destruct (ix !! s) as [i|] eqn:E.
  - rewrite IH. split; [|set_solver]. intros H s' Hs'. apply elem_of_cons in Hs' as [->|Hs']; eauto.
  - split; [done|]. intros H. destruct (H s) as [? ?]; [set_solver | congruence].
Qed.

Section Tables.
Context (f : IrFunction).
Context (Hnd : NoDup (ids f)).

Lemma lookup_block_Some id b : lookup_block f id = Some b <-> b ∈ blocks f /\ block_id b = id.
Proof.
  unfold lookup_block, index_of. rewrite index_from_spec by exact Hnd. split.
  - destruct (list_find _ _) as [[i b']|] eqn:E; [|done]. simpl. intros Hb.
    apply list_find_Some in E as (Hi & Hk & _). rewrite Hi in Hb. injection Hb as ->.
    split; [eapply list_elem_of_lookup_2; exact Hi | done].
  - intros [Hb Hid]. apply list_elem_of_lookup_1 in Hb as [i Hi].
    destruct (list_find _ _) as [[j b']|] eqn:E.
    + apply list_find_Some in E as (Hj & Hk & _). simpl. rewrite Hj. f_equal.
      assert (i = j) as ->; [|congruence]. eapply (NoDup_lookup (ids f) i j id); [done| |];
        unfold ids; by rewrite list_lookup_fmap, ?Hi, ?Hj; simpl; congruence.
    + apply list_find_None in E. rewrite Forall_forall in E. exfalso.
      eapply (E b); [eapply list_elem_of_lookup_2; exact Hi | done].
Qed.

Lemma block_at_lookup {E : Type} id b : lookup_block f id = Some b -> block_at (E := E) f (index_of f) id = Ok b.
Proof.
  unfold lookup_block, block_at, index_map. destruct (index_of f !! id) as [i|]; [simpl|done]. by intros ->.
Qed.

Lemma terminates_lookup b t : terminates f b t <-> exists blk, lookup_block f b = Some blk /\ terminator blk = t.
Proof.
  split.
  - intros (blk & Hin & Hid & Ht). exists blk. split; [|done]. by apply lookup_block_Some.
  - intros (blk & Hl & Ht). apply lookup_block_Some in Hl as [Hin Hid]. by exists blk.
Qed.

Lemma terminates_fun b t t' : terminates f b t -> terminates f b t' -> t = t'.
Proof.
  rewrite !terminates_lookup. intros (b1 & H1 & <-) (b2 & H2 & <-). congruence.
Qed.

Lemma index_of_ids b : is_Some (index_of f !! b) <-> b ∈ ids f.
Proof.
  unfold index_of. rewrite index_from_spec by exact Hnd. split.
  - destruct (list_find _ _) as [[i b']|] eqn:E; [|by intros []]. intros _.
    apply list_find_Some in E as (Hi & <- & _). apply list_elem_of_fmap_2. eapply list_elem_of_lookup_2. exact Hi.
  - intros Hb. apply list_elem_of_fmap in Hb as (blk & -> & Hin).
    destruct (list_find _ _) as [[i b']|] eqn:E; [eauto|].
    apply list_find_None in E. rewrite Forall_forall in E. exfalso. by eapply E.
Qed.

End Tables.

(** ** Edges *)

(** How often a block is the target of a forward edge. *)
Definition fcount (bs : list Block) (t : BlockId) : nat :=
  length (filter (fun s => s = t) (bs ≫= fun b => forward_succs (terminator b))).

Lemma fold_forward_edges b ss e t :
  let e' := fold_left (fun e s => forward_edge b s e) ss e in
  default 0%nat (e_forward e' !! t) = (default 0%nat (e_forward e !! t) + length (filter (fun s => s = t) ss))%nat /\
  (forall p, p ∈ default [] (e_preds e' !! t) <-> p ∈ default [] (e_preds e !! t) \/ (p = b /\ t ∈ ss)) /\
  e_headers e' = e_headers e.
Proof.
  simpl. revert e. induction ss as [|s ss IH]; intros e; simpl; [split_and!; [apply plus_n_O | set_solver | done]|].
  destruct (IH (forward_edge b s e)) as (H1 & H2 & H3). rewrite H1, H3. split_and!; [| |done].
  - unfold forward_edge, count_entry. simpl. rewrite filter_cons. case_decide as E.
    + subst s. rewrite lookup_insert_eq. simpl. lia.
    + by rewrite lookup_insert_ne.
  - intros p. rewrite H2. unfold forward_edge, push_entry. simpl. destruct (decide (s = t)) as [->|Hne].
    + rewrite lookup_insert_eq. simpl. set_solver.
    + rewrite lookup_insert_ne by done. set_solver.
Qed.

Lemma block_edges_spec b e t :
  let e' := block_edges b e in
  default 0%nat (e_forward e' !! t) = (default 0%nat (e_forward e !! t) + fcount [b] t)%nat /\
  (forall p, p ∈ default [] (e_preds e' !! t) <->
     p ∈ default [] (e_preds e !! t) \/ (p = block_id b /\ t ∈ successors (terminator b))) /\
  (t ∈ e_headers e' <-> t ∈ e_headers e \/ recur_target (terminator b) = Some t).
Proof.
  pose proof (fold_forward_edges (block_id b) (successors (terminator b)) e t) as (H1 & H2 & H3).
  assert (Hc : fcount [b] t = length (filter (fun s => s = t) (forward_succs (terminator b)))).
  { unfold fcount. simpl. by rewrite app_nil_r. }
  rewrite Hc. unfold block_edges. destruct (terminator b) as [s|c s1 s2|v|s args|].
  1,2,3,5: split_and!; [exact H1 | exact H2 | rewrite H3; set_solver].
  simpl. split_and!; [by rewrite Nat.add_0_r| |set_solver]. intros p. unfold push_entry. destruct (decide (s = t)) as [->|Hne].
  - rewrite lookup_insert_eq. simpl. set_solver.
  - rewrite lookup_insert_ne by done. set_solver.
Qed.

Lemma fcount_app l l' t : fcount (l ++ l') t = (fcount l t + fcount l' t)%nat.
Proof. unfold fcount. by rewrite bind_app, filter_app, length_app. Qed.

Lemma edges_fold bs e t :
  let e' := fold_left (fun e b => block_edges b e) bs e in
  default 0%nat (e_forward e' !! t) = (default 0%nat (e_forward e !! t) + fcount bs t)%nat /\
  (forall p, p ∈ default [] (e_preds e' !! t) <->
     p ∈ default [] (e_preds e !! t) \/ exists b, b ∈ bs /\ block_id b = p /\ t ∈ successors (terminator b)) /\
  (t ∈ e_headers e' <-> t ∈ e_headers e \/ exists b, b ∈ bs /\ recur_target (terminator b) = Some t).
Proof.
  simpl. revert e. induction bs as [|b bs IH]; intros e; simpl; [split_and!; [apply plus_n_O | set_solver | set_solver]|].
  destruct (IH (block_edges b e)) as (H1 & H2 & H3). destruct (block_edges_spec b e t) as (B1 & B2 & B3).
  rewrite H1, B1, (fcount_app [b] bs), H3, B3. split_and!; [lia| |set_solver].
  intros p. rewrite H2, B2. set_solver.
Qed.

Lemma edges_spec f t :
  default 0%nat (e_forward (edges f) !! t) = fcount (blocks f) t /\
  (forall p, p ∈ default [] (e_preds (edges f) !! t) <-> succ f p t) /\
  (t ∈ e_headers (edges f) <-> exists b, back f b t).
Proof.
  destruct (edges_fold (blocks f) (mkEdges ∅ ∅ ∅) t) as (H1 & H2 & H3). unfold edges. rewrite H1, H3. simpl.
  rewrite lookup_empty. simpl. split_and!; [done| |].
  - intros p. rewrite H2. simpl. rewrite lookup_empty. simpl. unfold succ, terminates. split.
    + intros [?|(b & Hb & <- & Ht)]; [set_solver|]. exists (terminator b). eauto.
    + intros (t' & (b & Hb & <- & <-) & Ht). eauto.
  - unfold back, terminates. split.
    + intros [?|(b & Hb & Ht)]; [set_solver|]. exists (block_id b), (terminator b). eauto.
    + intros (x & t' & (b & Hb & <- & <-) & Ht). eauto.
Qed.

Lemma fcount_occurs bs t b :
  b ∈ bs -> t ∈ forward_succs (terminator b) -> (1 <= fcount bs t)%nat.
Proof.
  intros Hb Ht. unfold fcount. destruct (filter _ _) as [|x l] eqn:E; [|simpl; lia].
  assert (Hin : t ∈ filter (fun s => s = t) (bs ≫= fun b => forward_succs (terminator b))).
  { apply list_elem_of_filter. split; [done|]. apply list_elem_of_bind. eauto. }
  rewrite E in Hin. set_solver.
Qed.

(** A block with fewer than two forward edges has one forward predecessor. *)
Lemma fcount_unique f t x y :
  NoDup (ids f) -> (fcount (blocks f) t < 2)%nat -> fwd f x t -> fwd f y t -> x = y.
Proof.
  intros Hnd Hc (tx & (bx & Hbx & <- & <-) & Hx) (ty & (by_ & Hby & <- & <-) & Hy).
  apply list_elem_of_split in Hbx as (l1 & l2 & El). rewrite El in Hc, Hby.
  change (bx :: l2) with ([bx] ++ l2) in Hc. rewrite !fcount_app in Hc.
  pose proof (fcount_occurs [bx] t bx ltac:(set_solver) Hx).
  apply elem_of_app in Hby as [Hl|Hl]; [pose proof (fcount_occurs _ _ _ Hl Hy); lia|].
  apply elem_of_cons in Hl as [->|Hl]; [done|]. pose proof (fcount_occurs _ _ _ Hl Hy). lia.
Qed.

(** Blocks are told apart by their ids. *)
Lemma block_unique f b1 b2 : NoDup (ids f) -> b1 ∈ blocks f -> b2 ∈ blocks f -> block_id b1 = block_id b2 -> b1 = b2.
Proof.
  intros Hn H1 H2 Hid. assert (E1 : lookup_block f (block_id b1) = Some b1) by (by apply lookup_block_Some).
  assert (E2 : lookup_block f (block_id b1) = Some b2) by (by apply lookup_block_Some). congruence.
Qed.

Lemma lookup_block_in f b : NoDup (ids f) -> b ∈ blocks f -> lookup_block f (block_id b) = Some b.
Proof. intros. by apply lookup_block_Some. Qed.

Lemma snoc_split {A : Type} (l l1 l2 : list A) x b :
  l ++ [b] = l1 ++ x :: l2 ->
  (l1 = l /\ x = b /\ l2 = []) \/ (exists l2', l2 = l2' ++ [b] /\ l = l1 ++ x :: l2').
Proof.
  intros El. destruct l2 as [|c l2' _] using rev_ind.
  - left. apply app_inj_2 in El as [-> [= ->]]; done.
  - right. exists l2'. change (x :: l2' ++ [c]) with ((x :: l2') ++ [c]) in El. rewrite app_assoc in El.
    apply app_inj_2 in El as [-> [= ->]]; done.
Qed.

(** A function whose block ids are distinct, whose targets are blocks, with its
    entry block. *)
Record well_formed (f : IrFunction) (entry : BlockId) : Prop := {
  wf_ids : NoDup (ids f);
  wf_entry : exists b0 rest, blocks f = b0 :: rest /\ block_id b0 = entry;
  wf_targets b s : succ f b s -> s ∈ ids f
}.

(** What the postorder list provides. *)
Record postorder_ok (f : IrFunction) (entry : BlockId) (post : list BlockId) : Prop := {
  po_nodup : NoDup post;
  po_last : last post = Some entry;
  po_fpath b : b ∈ post -> exists p, fpath f entry p b;
  po_succ b s : b ∈ post -> succ f b s -> s ∈ post;
  po_forward l1 b l2 s : post = l1 ++ b :: l2 -> fwd f b s -> s ∈ l1
}.

Section Dfs.
Context (f : IrFunction) (entry : BlockId).
Context (Hwf : well_formed f entry) (Hred : reducible f entry).

(** The blocks on the stack, newest first, form a forward path. *)
Inductive fchain : list BlockId -> Prop :=
| fchain_nil : fchain []
| fchain_entry : fchain [entry]
| fchain_step s b l : fwd f b s -> fchain (b :: l) -> fchain (s :: b :: l).

Lemma fchain_fpath b l : fchain (b :: l) -> fpath f entry (b :: l) b.
Proof.
  revert b. induction l as [|c l IH]; intros b Hc; inversion Hc; subst; [constructor|].
  econstructor; [by apply IH | done].
Qed.

Lemma fchain_last l : fchain l -> l <> [] -> last l = Some entry.
Proof.
  induction 1 as [| |s b l Hf Hc IH]; intros Hne; [done | done|]. rewrite last_cons_cons. by apply IH.
Qed.

Lemma fchain_tail b l : fchain (b :: l) -> fchain l.
Proof. inversion 1; subst; [constructor | done]. Qed.

(** On a forward chain the rank of a forward order decreases downwards. *)
Lemma fchain_rank (r : BlockId -> nat) b l x :
  (forall b s, reach f entry b -> fwd f b s -> (r b < r s)%nat) ->
  fchain (b :: l) -> x ∈ b :: l -> (r x <= r b)%nat.
Proof.
  intros Hr. revert b. induction l as [|c l IH]; intros b Hc Hx.
  - apply list_elem_of_singleton in Hx as ->. done.
  - apply elem_of_cons in Hx as [->|Hx]; [done|]. inversion Hc; subst.
    assert (r c < r b)%nat.
    { apply Hr; [|done]. exists (c :: l). apply fpath_path. by apply fchain_fpath. }
    assert (r x <= r c)%nat by auto. lia.
Qed.

Record dfs_inv (visited : gset BlockId) (post : list BlockId) (stack : list (BlockId * nat)) : Prop := {
  di_visited b : b ∈ visited <-> b ∈ post ++ map fst stack;
  di_nodup : NoDup (post ++ map fst stack);
  di_chain : fchain (map fst stack);
  di_last : stack = [] -> last post = Some entry;
  di_ids b : b ∈ visited -> b ∈ ids f;
  di_fpath b : b ∈ visited -> exists p, fpath f entry p b;
  di_children b c : (b, c) ∈ stack -> exists t, terminates f b t /\ (c <= length (successors t))%nat /\
    forall j s, (j < c)%nat -> successors t !! j = Some s -> s ∈ visited;
  di_succ b s : b ∈ post -> succ f b s -> s ∈ visited;
  di_forward l1 b l2 s : post = l1 ++ b :: l2 -> fwd f b s -> s ∈ l1
}.

Lemma in_ids_terminates b : b ∈ ids f -> exists blk, lookup_block f b = Some blk /\ terminates f b (terminator blk).
Proof.
  intros Hb. apply list_elem_of_fmap in Hb as (blk & -> & Hin). exists blk. split.
  - apply lookup_block_Some; [apply Hwf | done].
  - by exists blk.
Qed.

Lemma dfs_start : dfs_inv {[entry]} [] [(entry, O)].
Proof.
  destruct (wf_entry _ _ Hwf) as (b0 & rest & Eb & Eid).
  assert (He : entry ∈ ids f) by (unfold ids; rewrite Eb; simpl; set_solver).
  destruct (in_ids_terminates _ He) as (blk & _ & Ht). constructor; simpl.
  - set_solver.
  - apply NoDup_singleton.
  - constructor.
  - done.
  - set_solver.
  - intros b Hb. apply elem_of_singleton in Hb as ->. exists [entry]. constructor.
  - intros b c Hb. apply list_elem_of_singleton in Hb as [= -> ->]. exists (terminator blk).
    split_and!; [done | lia | lia].
  - set_solver.
  - intros [] ? ? ? ?; done.
Qed.

(** Rounds left. *)
Definition dfs_measure (visited : gset BlockId) (stack : list (BlockId * nat)) : nat :=
  (3 * (length (ids f) - size visited) + sum_list (map (fun e => 3 - e.2) stack))%nat.

Lemma visited_size visited post stack : dfs_inv visited post stack -> (size visited <= length (ids f))%nat.
Proof.
  intros Hi. rewrite <- (size_list_to_set (C := gset BlockId) (ids f)) by apply Hwf.
  apply subseteq_size. intros b Hb. apply elem_of_list_to_set. by apply (di_ids _ _ _ Hi).
Qed.

Lemma dfs_skip visited post b t c s rest :
  dfs_inv visited post ((b, c) :: rest) -> terminates f b t -> successors t !! c = Some s -> s ∈ visited ->
  dfs_inv visited post ((b, S c) :: rest).
Proof.
  intros Hi Ht Hs Hv. destruct Hi as [H1 H2 H3 H4 H5 H6 H7 H8 H9]. constructor; simpl in *; auto; [done|].
  intros b' c' Hin. apply elem_of_cons in Hin as [[= -> ->]|Hin]; [|apply H7; set_solver].
  destruct (H7 b c ltac:(set_solver)) as (t' & Ht' & Hle & Hj).
  pose proof (terminates_fun _ (wf_ids _ _ Hwf) _ _ _ Ht Ht') as <-. exists t. split_and!; [done| |].
  - apply lookup_lt_Some in Hs. lia.
  - intros j s' Hjc Hs'. destruct (decide (j = c)) as [->|]; [congruence|]. eapply Hj; [|done]. lia.
Qed.

Lemma dfs_push visited post b t c s rest :
  dfs_inv visited post ((b, c) :: rest) -> terminates f b t -> successors t !! c = Some s -> s ∉ visited ->
  dfs_inv ({[s]} ∪ visited) post ((s, O) :: (b, S c) :: rest).
Proof.
  intros Hi Ht Hs Hv. pose proof (list_elem_of_lookup_2 _ _ _ Hs) as Hst.
  assert (Hbs : succ f b s) by (by exists t).
  assert (Hvb : b ∈ visited) by (apply (di_visited _ _ _ Hi); simpl; set_solver).
  pose proof (fchain_fpath _ _ (di_chain _ _ _ Hi)) as Hp. simpl in Hp.
  assert (Hf : fwd f b s).
  { apply succ_split in Hbs as [?|Hback]; [done|]. exfalso. apply Hv. apply (di_visited _ _ _ Hi).
    apply fpath_path in Hp. pose proof (red_back _ _ Hred b s (ex_intro _ _ Hp) Hback _ Hp). simpl. set_solver. }
  destruct Hi as [H1 H2 H3 H4 H5 H6 H7 H8 H9]. simpl in *.
  destruct (in_ids_terminates s (wf_targets _ _ Hwf _ _ Hbs)) as (blk & _ & Hts).
  constructor; simpl.
  - intros x. rewrite elem_of_union, elem_of_singleton, H1. set_solver.
  - apply NoDup_Permutation_proper with (s :: post ++ b :: map fst rest); [by rewrite Permutation_middle|].
    apply NoDup_cons. split; [|done]. by rewrite <- H1.
  - by constructor.
  - done.
  - intros x Hx. apply elem_of_union in Hx as [Hx|Hx]; [|auto]. apply elem_of_singleton in Hx as ->.
    by eapply (wf_targets _ _ Hwf).
  - intros x Hx. apply elem_of_union in Hx as [Hx|Hx]; [|auto]. apply elem_of_singleton in Hx as ->.
    exists (s :: b :: map fst rest). by econstructor.
  - intros b' c' Hin. apply elem_of_cons in Hin as [[= -> ->]|Hin].
    { exists (terminator blk). split_and!; [done | lia | lia]. }
    apply elem_of_cons in Hin as [[= -> ->]|Hin].
    + destruct (H7 b c ltac:(set_solver)) as (t' & Ht' & Hle & Hj).
      pose proof (terminates_fun _ (wf_ids _ _ Hwf) _ _ _ Ht Ht') as <-. exists t. split_and!; [done| |].
      * apply lookup_lt_Some in Hs. lia.
      * intros j s' Hjc Hs'. destruct (decide (j = c)) as [->|]; [set_solver|].
        apply elem_of_union_r. eapply Hj; [|done]. lia.
    + destruct (H7 b' c' ltac:(set_solver)) as (t' & Ht' & Hle & Hj). exists t'. split_and!; [done..|].
      intros j s' Hjc Hs'. apply elem_of_union_r. by eapply Hj.
  - intros x y Hx Hy. apply elem_of_union_r. by eapply H8.
  - done.
Qed.

Lemma dfs_pop visited post b t c rest :
  dfs_inv visited post ((b, c) :: rest) -> terminates f b t -> successors t !! c = None ->
  dfs_inv visited (post ++ [b]) rest.
Proof.
  intros Hi Ht Hs. pose proof (di_chain _ _ _ Hi) as Hch. simpl in Hch.
  destruct (red_forward _ _ Hred) as [r Hr].
  assert (Hsucc : forall s, succ f b s -> s ∈ visited).
  { intros s (t' & Ht' & Hst). pose proof (terminates_fun _ (wf_ids _ _ Hwf) _ _ _ Ht Ht') as <-.
    destruct (di_children _ _ _ Hi b c ltac:(set_solver)) as (t2 & Ht2 & Hle & Hj).
    pose proof (terminates_fun _ (wf_ids _ _ Hwf) _ _ _ Ht Ht2) as <-.
    apply list_elem_of_lookup_1 in Hst as [j Hjs]. eapply Hj; [|done].
    apply lookup_ge_None in Hs. apply lookup_lt_Some in Hjs. lia. }
  assert (Hfwd : forall s, fwd f b s -> s ∈ post).
  { intros s Hf. assert (Hv : s ∈ visited) by (apply Hsucc, succ_split; auto).
    apply (di_visited _ _ _ Hi) in Hv. apply elem_of_app in Hv as [?|Hst]; [done|]. exfalso. simpl in Hst.
    pose proof (fchain_rank r _ _ _ Hr Hch Hst).
    assert (r b < r s)%nat; [|lia]. apply Hr; [|done].
    exists (b :: map fst rest). apply fpath_path. by apply fchain_fpath. }
  destruct Hi as [H1 H2 H3 H4 H5 H6 H7 H8 H9]. simpl in *. constructor; auto.
  - intros x. rewrite H1. set_solver.
  - by rewrite <- app_assoc.
  - by eapply fchain_tail.
  - intros ->. rewrite last_snoc. simpl in Hch. inversion Hch; subst. done.
  - intros b' c' Hin. apply H7. set_solver.
  - intros x s Hx Hxs. apply elem_of_app in Hx as [Hx|Hx]; [by eapply H8|].
    apply list_elem_of_singleton in Hx as ->. auto.
  - intros l1 x l2 s El Hx. apply snoc_split in El as [(-> & -> & ->)|(l2' & -> & Ep)].
    + auto.
    + by eapply H9.
Qed.

Lemma postorder_loop_ok {E : Type} fuel visited post stack :
  dfs_inv visited post stack -> (dfs_measure visited stack < fuel)%nat ->
  exists post', postorder_loop (E := E) fuel f (index_of f) visited post stack = Ok post' /\
    postorder_ok f entry post'.
Proof.
  revert visited post stack. induction fuel as [|fuel IH]; intros visited post stack Hi Hm; [lia|].
  destruct stack as [|[b c] rest].
  { exists post. split; [done|]. destruct Hi as [H1 H2 H3 H4 H5 H6 H7 H8 H9]. simpl in *.
    rewrite app_nil_r in H2. setoid_rewrite app_nil_r in H1.
    constructor; [done | auto | | | done].
    - intros b Hb. by apply H6, H1.
    - intros b s Hb Hs. apply H1. by eapply H8. }
  assert (Hb : b ∈ visited) by (apply (di_visited _ _ _ Hi); simpl; set_solver).
  destruct (in_ids_terminates b (di_ids _ _ _ Hi _ Hb)) as (blk & Hl & Ht).
  destruct (di_children _ _ _ Hi b c ltac:(set_solver)) as (t' & Ht' & Hc & _).
  pose proof (terminates_fun _ (wf_ids _ _ Hwf) _ _ _ Ht Ht') as Et.
  pose proof (successors_length (terminator blk)) as H2. pose proof (visited_size _ _ _ Hi) as Hsz.
  simpl. rewrite (block_at_lookup _ _ _ Hl). simpl.
  destruct (successors (terminator blk) !! c) as [s|] eqn:Es.
  - apply lookup_lt_Some in Es as Hlt. unfold dfs_measure in Hm. simpl in Hm. case_decide as Hv.
    + apply IH; [exact (dfs_skip _ _ _ _ _ _ _ Hi Ht Es Hv)|]. unfold dfs_measure. simpl. lia.
    + pose proof (dfs_push _ _ _ _ _ _ _ Hi Ht Es Hv) as Hi'. apply IH; [done|].
      pose proof (visited_size _ _ _ Hi') as Hsz'. unfold dfs_measure. simpl.
      rewrite size_union in * by set_solver. rewrite size_singleton in *. lia.
  - apply IH; [exact (dfs_pop _ _ _ _ _ _ Hi Ht Es)|]. unfold dfs_measure in *. simpl in Hm. rewrite <- Et in Hc. lia.
Qed.

Lemma postorder_total {E : Type} :
  exists post, postorder (E := E) f entry (index_of f) = Ok post /\ postorder_ok f entry post.
Proof.
  apply postorder_loop_ok; [apply dfs_start|]. unfold dfs_measure, postorder_fuel.
  rewrite size_singleton. simpl. destruct (wf_entry _ _ Hwf) as (b0 & rest & Eb & _).
  unfold ids. rewrite length_map, Eb. simpl. lia.
Qed.

End Dfs.
