(* ===== verification/ReloopDom.v ===== *)
(** The dominator computation of the relooper, on a reducible graph: it ends
    after two passes, with the immediate dominators. *)
From stdpp Require Import gmap.
From S2P Require Import Prelude RustStd Token Ir Reloop ReloopSem ReloopGraph.
Local Open Scope Z_scope.

Lemma index_map_Some {K A E : Type} `{Countable K} (m : gmap K A) k a :
  m !! k = Some a -> index_map (E := E) m k = Ok a.
Proof. unfold index_map. by intros ->. Qed.

(** * Ranks *)

Lemma rank_from_spec n order m k :
  NoDup order ->
  rank_from n order m !! k =
    match list_find (fun b => b = k) order with
    | Some (i, _) => Some (n + i)%nat
    | None => m !! k
    end.
Proof.
  revert n m. induction order as [|b bs IH]; intros n m Hnd; [done|].
  apply NoDup_cons in Hnd as [Hb Hnd]. simpl. rewrite IH by done. destruct (decide (b = k)) as [<-|Hne].
  - destruct (list_find _ bs) as [[i b']|] eqn:E.
    + apply list_find_Some in E as (Hi & -> & _). exfalso. by apply Hb, list_elem_of_lookup_2 with i.
    + rewrite lookup_insert_eq. f_equal. lia.
  - destruct (list_find _ bs) as [[i b']|] eqn:E; simpl; [f_equal; lia|]. by rewrite lookup_insert_ne.
Qed.

Section Ranks.
Context (f : IrFunction) (entry : BlockId).
Context (Hwf : well_formed f entry) (Hred : reducible f entry).
Context (post : list BlockId) (Hpo : postorder_ok f entry post).

Definition ranks : gmap BlockId nat := rank_from 0 (rev post) ∅.
Definition rank (b : BlockId) : nat := default 0%nat (ranks !! b).

Lemma rev_nodup : NoDup (rev post).
Proof. rewrite <- Permutation_rev. apply Hpo. Qed.

Lemma ranks_Some b k : ranks !! b = Some k <-> rev post !! k = Some b.
Proof.
  unfold ranks. rewrite rank_from_spec by apply rev_nodup. split.
  - destruct (list_find _ _) as [[i b']|] eqn:E; [|by rewrite lookup_empty]. simpl. intros [= <-].
    by apply list_find_Some in E as (Hi & -> & _).
  - intros Hk. destruct (list_find _ _) as [[i b']|] eqn:E.
    + apply list_find_Some in E as (Hi & -> & _). simpl. f_equal. by eapply NoDup_lookup; [apply rev_nodup| |].
    + apply list_find_None in E. rewrite Forall_forall in E. exfalso. eapply E; [|done].
      by eapply list_elem_of_lookup_2.
Qed.

Lemma in_rev b : b ∈ rev post <-> b ∈ post.
Proof. rewrite rev_alt. apply (elem_of_reverse b post). Qed.

Lemma ranks_post b : b ∈ post -> ranks !! b = Some (rank b).
Proof.
  intros Hb. apply in_rev, list_elem_of_lookup_1 in Hb as [k Hk]. apply ranks_Some in Hk.
  unfold rank. by rewrite Hk.
Qed.

Lemma ranks_is_Some b : is_Some (ranks !! b) <-> b ∈ post.
Proof.
  split; [|intros Hb; rewrite ranks_post by done; eauto]. intros [k Hk]. apply ranks_Some in Hk.
  apply in_rev. by eapply list_elem_of_lookup_2.
Qed.

Lemma rank_lookup b : b ∈ post -> rev post !! rank b = Some b.
Proof. intros Hb. apply ranks_Some. by apply ranks_post. Qed.

Lemma rank_inj a b : a ∈ post -> b ∈ post -> rank a = rank b -> a = b.
Proof. intros Ha Hb E. apply rank_lookup in Ha, Hb. rewrite E in Ha. congruence. Qed.

Lemma rank_bound b : b ∈ post -> (rank b < length post)%nat.
Proof. intros Hb. apply rank_lookup, lookup_lt_Some in Hb. by rewrite length_rev in Hb. Qed.

Lemma post_split : exists l, post = l ++ [entry].
Proof.
  pose proof (po_last _ _ _ Hpo) as Hl. apply last_Some in Hl. done.
Qed.

Lemma entry_in_post : entry ∈ post.
Proof. destruct post_split as [l ->]. set_solver. Qed.

Lemma rank_entry : rank entry = 0%nat.
Proof.
  assert (Hz : ranks !! entry = Some 0%nat).
  { apply ranks_Some. destruct post_split as [l ->]. by rewrite rev_app_distr. }
  unfold rank. by rewrite Hz.
Qed.

Lemma reach_post b : reach f entry b <-> b ∈ post.
Proof.
  split.
  - intros [p Hp]. induction Hp as [|p b s Hp IH Hs]; [apply entry_in_post|].
    by eapply (po_succ _ _ _ Hpo).
  - intros Hb. destruct (po_fpath _ _ _ Hpo b Hb) as [p Hp]. exists p. by apply fpath_path.
Qed.

Lemma rank_forward b s : b ∈ post -> fwd f b s -> (rank b < rank s)%nat.
Proof.
  intros Hb Hf. apply list_elem_of_split in Hb as (l1 & l2 & El).
  pose proof (po_forward _ _ _ Hpo _ _ _ _ El Hf) as Hs. apply list_elem_of_split in Hs as (l3 & l4 & ->).
  assert (Erev : rev post = rev l2 ++ b :: rev l4 ++ s :: rev l3).
  { rewrite El, !rev_app_distr. simpl. rewrite ?rev_app_distr, <- !app_assoc. done. }
  assert (Hrb : ranks !! b = Some (length l2)).
  { apply ranks_Some. rewrite Erev. apply list_lookup_middle. by rewrite length_rev. }
  assert (Hrs : ranks !! s = Some (length l2 + S (length l4))%nat).
  { apply ranks_Some. rewrite Erev. change (b :: rev l4 ++ s :: rev l3) with ((b :: rev l4) ++ s :: rev l3).
    rewrite app_assoc. apply list_lookup_middle. rewrite length_app. simpl. by rewrite !length_rev. }
  unfold rank. rewrite Hrb, Hrs. simpl. lia.
Qed.

Lemma fpath_rank p b x : fpath f entry p b -> x ∈ p -> x ∈ post /\ (rank x <= rank b)%nat.
Proof.
  induction 1 as [|p b s Hp IH Hs]; intros Hx.
  - apply list_elem_of_singleton in Hx as ->. split; [apply entry_in_post | done].
  - assert (Hb : b ∈ post) by (apply reach_post; exists p; by apply fpath_path).
    assert (Hsp : s ∈ post) by (eapply (po_succ _ _ _ Hpo); [done|]; apply succ_split; auto).
    apply elem_of_cons in Hx as [->|Hx]; [done|]. destruct (IH Hx) as [? ?]. split; [done|].
    pose proof (rank_forward _ _ Hb Hs). lia.
Qed.

Lemma dominates_rank h b : b ∈ post -> dominates f entry h b -> h ∈ post /\ (rank h <= rank b)%nat.
Proof.
  intros Hb Hd. destruct (po_fpath _ _ _ Hpo b Hb) as [p Hp]. eapply fpath_rank; [done|].
  apply Hd. by apply fpath_path.
Qed.

(** The source of a back edge does not come before its target. *)
Lemma rank_back b h : b ∈ post -> back f b h -> (rank h <= rank b)%nat.
Proof.
  intros Hb Hbk. apply dominates_rank; [done|]. apply (red_back _ _ Hred); [by apply reach_post | done].
Qed.

Lemma has_forward_pred b : b ∈ post -> b <> entry -> exists p, p ∈ post /\ fwd f p b.
Proof.
  intros Hb Hne. destruct (po_fpath _ _ _ Hpo b Hb) as [l Hl]. destruct Hl as [|l p b Hl Hf]; [done|].
  exists p. split; [|done]. apply reach_post. exists l. by apply fpath_path.
Qed.

(** * Trees of immediate dominators *)

(** [anc T a b]: [a] is [b] or one of its ancestors in [T]. *)
Inductive anc (T : gmap BlockId BlockId) (a : BlockId) : BlockId -> Prop :=
| anc_refl : anc T a a
| anc_step b d : b <> entry -> T !! b = Some d -> anc T a d -> anc T a b.

Record tree_ok (T : gmap BlockId BlockId) : Prop := {
  to_entry : T !! entry = Some entry;
  to_post b d : T !! b = Some d -> b ∈ post /\ is_Some (T !! d);
  to_rank b d : T !! b = Some d -> b <> entry -> (rank d < rank b)%nat
}.

Lemma anc_trans T a b c : anc T a b -> anc T b c -> anc T a c.
Proof. intros Hab Hbc. induction Hbc; [done|]. econstructor; eauto. Qed.

Lemma anc_rank T a b : tree_ok T -> anc T a b -> a = b \/ (rank a < rank b)%nat.
Proof.
  intros HT Hab. induction Hab as [|b d Hne Hd _ IH]; [by left|]. right.
  pose proof (to_rank _ HT _ _ Hd Hne). destruct IH as [->|]; lia.
Qed.

Lemma anc_in_tree T a b : tree_ok T -> is_Some (T !! b) -> anc T a b -> is_Some (T !! a).
Proof.
  intros HT Hb Hab. induction Hab as [|b d Hne Hd _ IH]; [done|]. apply IH.
  by destruct (to_post _ HT _ _ Hd).
Qed.

Lemma anc_antisym T a b : tree_ok T -> anc T a b -> anc T b a -> a = b.
Proof.
  intros HT H1 H2. destruct (anc_rank _ _ _ HT H1) as [|]; [done|].
  destruct (anc_rank _ _ _ HT H2) as [|]; [done | lia].
Qed.

(** An ancestor of rank at most that of the parent is an ancestor of the
    parent. *)
Lemma anc_parent T a b d : anc T a b -> T !! b = Some d -> a <> b -> anc T a d.
Proof. intros Hab Hd Hne. destruct Hab as [|b d' _ Hd' Hab]; [done|]. congruence. Qed.

(** ** Intersection *)

Lemma walk_up_ok {E : Type} T fuel a b :
  tree_ok T -> is_Some (T !! a) -> is_Some (T !! b) -> (rank a < fuel)%nat ->
  exists a', walk_up (E := E) ranks fuel T a b = Ok a' /\ is_Some (T !! a') /\ anc T a' a /\
    (rank a' <= rank b)%nat /\ ((rank a <= rank b)%nat -> a' = a) /\
    forall c, anc T c a -> (rank c <= rank b)%nat -> anc T c a'.
Proof.
  intros HT. revert a. induction fuel as [|fuel IH]; intros a Ha Hb Hf; [lia|].
  destruct Ha as [da Ha]. destruct Hb as [db Hb]. destruct (to_post _ HT _ _ Ha) as [Hap Hda].
  destruct (to_post _ HT _ _ Hb) as [Hbp _]. cbn [walk_up].
  rewrite (index_map_Some _ _ _ (ranks_post _ Hap)), (index_map_Some _ _ _ (ranks_post _ Hbp)). simpl. destruct (Nat.ltb_spec (rank b) (rank a)) as [Hlt|Hle].
  - rewrite (index_map_Some _ _ _ Ha). simpl.
    assert (Hne : a <> entry) by (intros ->; rewrite rank_entry in Hlt; lia).
    pose proof (to_rank _ HT _ _ Ha Hne). destruct (IH da) as (a' & E1 & E2 & E3 & E4 & E5 & E6); [done | eauto | lia|].
    exists a'. split_and!; [done | done | | done | lia |].
    + eapply anc_trans; [done|]. eapply anc_step; [done | done | constructor].
    + intros c Hc Hcb. apply E6; [|done]. eapply anc_parent; [done | done|]. intros ->. lia.
  - exists a. split_and!; eauto. constructor.
Qed.

Lemma intersect_ok {E : Type} T fuel a b :
  tree_ok T -> is_Some (T !! a) -> is_Some (T !! b) -> (rank a < fuel)%nat -> (rank b < fuel)%nat ->
  exists c, intersect (E := E) ranks fuel T a b = Ok c /\ is_Some (T !! c) /\ anc T c a /\ anc T c b /\
    forall d, anc T d a -> anc T d b -> anc T d c.
Proof.
  intros HT. revert a b. induction fuel as [|fuel IH]; intros a b Ha Hb Hfa Hfb; [lia|].
  cbn [intersect]. case_decide as Eab.
  { subst b. exists a. split_and!; try constructor; eauto. }
  destruct (walk_up_ok (E := E) T (S fuel) a b HT Ha Hb Hfa) as (a' & E1 & E2 & E3 & E4 & E5 & E6).
  rewrite E1. cbn [mbind outcome_bind].
  destruct (walk_up_ok (E := E) T (S fuel) b a' HT Hb E2 Hfb) as (b' & F1 & F2 & F3 & F4 & F5 & F6).
  assert (Hne : rank a <> rank b).
  { intros Er. apply Eab. destruct Ha as [? Ha], Hb as [? Hb].
    apply rank_inj; [by eapply to_post | by eapply to_post | done]. }
  assert (Hb' : (rank b' <= rank a')%nat) by done.
  assert (Ha' : (rank a' < fuel)%nat).
  { destruct (decide (rank a <= rank b)%nat) as [Hle|Hgt]; [rewrite (E5 Hle); lia | lia]. }
  destruct (IH a' b' E2 F2 Ha' ltac:(lia)) as (c & G1 & G2 & G3 & G4 & G5).
  exists c. rewrite F1. cbn [mbind outcome_bind]. split_and!; [done | done | exact (anc_trans _ _ _ _ G3 E3) | exact (anc_trans _ _ _ _ G4 F3)|].
  intros d Hda Hdb. assert (Hd' : anc T d a').
  { apply E6; [done|]. destruct (anc_rank _ _ _ HT Hdb) as [->|]; lia. }
  apply G5; [done|]. apply F6; [done|]. destruct (anc_rank _ _ _ HT Hd') as [->|]; lia.
Qed.

(** ** Passes *)

(** [n] is the lowest common ancestor of the blocks in [Q]. *)
Definition lowest (T : gmap BlockId BlockId) (n : BlockId) (Q : BlockId -> Prop) : Prop :=
  (forall q, Q q -> anc T n q) /\ forall d, (forall q, Q q -> anc T d q) -> anc T d n.

Lemma lowest_unique T n n' Q : tree_ok T -> lowest T n Q -> lowest T n' Q -> n = n'.
Proof. intros HT [H1 H2] [H3 H4]. apply (anc_antisym T); auto. Qed.

Lemma lowest_ext T n Q Q' : (forall q, Q q <-> Q' q) -> lowest T n Q -> lowest T n Q'.
Proof. intros HQ [H1 H2]. split; [intros q Hq; by apply H1, HQ|]. intros d Hd. apply H2. intros q Hq. by apply Hd, HQ. Qed.

Lemma in_tree_rank T b : tree_ok T -> is_Some (T !! b) -> (rank b < S (length post))%nat.
Proof. intros HT [d Hd]. destruct (to_post _ HT _ _ Hd) as [Hb _]. apply rank_bound in Hb. lia. Qed.

Lemma meet_preds_ok {E : Type} T ps new :
  tree_ok T -> (forall cur, new = Some cur -> is_Some (T !! cur)) ->
  exists res, meet_preds (E := E) ranks (S (length post)) T ps new = Ok res /\
    match res with
    | None => new = None /\ forall p, p ∈ ps -> T !! p = None
    | Some n => is_Some (T !! n) /\ lowest T n (fun q => new = Some q \/ (q ∈ ps /\ is_Some (T !! q)))
    end.
Proof.
  intros HT. revert new. induction ps as [|p ps IH]; intros new Hnew; cbn [meet_preds].
  { exists new. split; [done|]. destruct new as [cur|]; [|set_solver]. split; [auto|]. split.
    - intros q [[= ->]|[? _]]; [constructor | set_solver].
    - intros d Hd. apply Hd. auto. }
  destruct (T !! p) as [dp|] eqn:Ep.
  - destruct new as [cur|].
    + destruct (intersect_ok (E := E) T (S (length post)) p cur HT) as (c & E1 & E2 & E3 & E4 & E5);
        [eauto | auto | eapply in_tree_rank; eauto | eapply in_tree_rank; eauto|].
      rewrite E1. cbn [mbind outcome_bind].
      destruct (IH (Some c)) as (res & Hr & Hres); [by intros ? [= <-]|]. exists res. split; [done|].
      destruct res as [n|]; [|by destruct Hres]. destruct Hres as [Hn [L1 L2]]. split; [done|]. split.
      * intros q [[= <-]|[Hq HTq]]; [by eapply anc_trans; [apply L1; left|]|].
        apply elem_of_cons in Hq as [->|Hq]; [by eapply anc_trans; [apply L1; left|]|]. apply L1. auto.
      * intros d Hd. apply L2. intros q [[= <-]|[Hq HTq]]; [|apply Hd; set_solver].
        apply E5; apply Hd; [right; split; [set_solver | eauto] | by left].
    + destruct (IH (Some p)) as (res & Hr & Hres); [intros ? [= <-]; eauto|]. exists res. split; [done|].
      destruct res as [n|]; [|by destruct Hres]. destruct Hres as [Hn HL]. split; [done|].
      eapply lowest_ext; [|exact HL]. intros q. simpl. split; [|set_solver].
      intros [[= <-]|[? ?]]; right; [split; [set_solver | eauto] | set_solver].
  - destruct (IH new Hnew) as (res & Hr & Hres). exists res. split; [done|]. destruct res as [n|].
    + destruct Hres as [Hn HL]. split; [done|]. eapply lowest_ext; [|exact HL]. intros q. simpl.
      split; [set_solver|]. intros [?|[Hq HTq]]; [by left|]. apply elem_of_cons in Hq as [->|Hq]; [|auto].
      rewrite Ep in HTq. by destruct HTq.
    + destruct Hres as [-> Hps]. split; [done|]. intros q Hq. apply elem_of_cons in Hq as [->|Hq]; auto.
Qed.

Lemma anc_insert T b n a x :
  tree_ok T -> T !! b = None -> is_Some (T !! x) -> anc (<[b := n]> T) a x <-> anc T a x.
Proof.
  intros HT Hb Hx. split; intros Ha.
  - induction Ha as [|y d Hne Hd _ IH]; [constructor|].
    assert (y <> b) by (intros ->; rewrite Hb in Hx; by destruct Hx).
    rewrite lookup_insert_ne in Hd by done. econstructor; [done | done|]. apply IH. by eapply to_post.
  - induction Ha as [|y d Hne Hd _ IH]; [constructor|].
    assert (y <> b) by congruence. econstructor; [done | by rewrite lookup_insert_ne|]. apply IH. by eapply to_post.
Qed.

(** The dominators of the blocks in [dn] are computed, from forward edges. *)
Record partial (dn : list BlockId) (T : gmap BlockId BlockId) : Prop := {
  pa_tree : tree_ok T;
  pa_dom b : is_Some (T !! b) <-> b ∈ dn;
  pa_lowest b : b ∈ dn -> b <> entry -> exists n, T !! b = Some n /\ lowest T n (fun p => fwd f p b /\ p ∈ post)
}.

Abbreviation pred_list b := (default [] (e_preds (edges f) !! b)).

Lemma pred_list_spec p b : p ∈ pred_list b <-> succ f p b.
Proof. by destruct (edges_spec f b) as (_ & H & _). Qed.

Lemma partial_start : partial [entry] {[entry := entry]}.
Proof.
  constructor; [constructor| |].
  - apply lookup_singleton_eq.
  - intros b d Hb. apply lookup_singleton_Some in Hb as [<- <-]. split; [apply entry_in_post|].
    rewrite lookup_singleton_eq. eauto.
  - intros b d Hb. by apply lookup_singleton_Some in Hb as [<- <-].
  - intros b. rewrite list_elem_of_singleton. split.
    + intros [d Hd]. by apply lookup_singleton_Some in Hd as [<- <-].
    + intros ->. rewrite lookup_singleton_eq. eauto.
  - intros b Hb. by apply list_elem_of_singleton in Hb.
Qed.

(** The predecessors with a rank below that of a block are its forward ones. *)
Lemma earlier_preds dn b todo q :
  rev post = dn ++ b :: todo -> (succ f q b /\ q ∈ dn) <-> (fwd f q b /\ q ∈ post).
Proof.
  intros Er. assert (Hb : b ∈ post) by (apply in_rev; rewrite Er; set_solver).
  assert (Hrb : rank b = length dn).
  { assert (Hk : ranks !! b = Some (length dn)) by (apply ranks_Some; rewrite Er; by apply list_lookup_middle).
    unfold rank. by rewrite Hk. }
  assert (Hdn : forall x, x ∈ post -> (rank x < rank b)%nat <-> x ∈ dn).
  { intros x Hx. pose proof (rank_lookup x Hx) as Hl. rewrite Er in Hl. split.
    - intros Hlt. rewrite lookup_app_l in Hl by lia. by eapply list_elem_of_lookup_2.
    - intros Hin. apply list_elem_of_lookup_1 in Hin as [k Hk]. apply lookup_lt_Some in Hk as Hlt.
      assert (Hk' : ranks !! x = Some k) by (apply ranks_Some; rewrite Er; by apply lookup_app_l_Some).
      rewrite (ranks_post x Hx) in Hk'. injection Hk' as ->. lia. }
  split.
  - intros [Hs Hq]. assert (Hqp : q ∈ post) by (apply in_rev; rewrite Er; set_solver). split; [|done].
    apply succ_split in Hs as [?|Hbk]; [done|]. pose proof (rank_back _ _ Hqp Hbk).
    apply (Hdn q Hqp) in Hq. lia.
  - intros [Hf Hq]. split; [apply succ_split; auto|]. apply Hdn; [done|]. by apply rank_forward.
Qed.

Lemma partial_insert dn b todo T n :
  rev post = dn ++ b :: todo -> partial dn T -> b ∉ dn -> b <> entry ->
  lowest T n (fun p => fwd f p b /\ p ∈ post) -> is_Some (T !! n) -> partial (dn ++ [b]) (<[b := n]> T).
Proof.
  intros Er [HT Hd HL] Hb Hne Hn HTn. assert (Hbp : b ∈ post) by (apply in_rev; rewrite Er; set_solver).
  assert (HTb : T !! b = None).
  { destruct (T !! b) eqn:E; [|done]. exfalso. apply Hb, Hd. eauto. }
  assert (Hdn : forall p x, rev post = dn ++ b :: todo -> fwd f p x /\ p ∈ post -> x ∈ dn \/ x = b -> is_Some (T !! p)).
  { intros p x _ [Hf Hp] Hx. apply Hd. destruct Hx as [Hx| ->].
    - apply list_elem_of_split in Hx as (l1 & l2 & El). subst dn. rewrite <- app_assoc in Er. simpl in Er.
      apply elem_of_app. left. by apply (earlier_preds l1 x (l2 ++ b :: todo)).
    - by apply (earlier_preds dn b todo). }
  destruct (has_forward_pred b Hbp Hne) as (p & Hp & Hpf).
  pose proof (rank_forward _ _ Hp Hpf) as Hlt. destruct Hn as [Hn1 Hn2].
  assert (Hnb : (rank n < rank b)%nat).
  { destruct (anc_rank _ _ _ HT (Hn1 p (conj Hpf Hp))) as [->|]; lia. }
  assert (Hlow : forall x m, x ∈ dn \/ x = b -> is_Some (T !! m) -> lowest T m (fun p => fwd f p x /\ p ∈ post) ->
    lowest (<[b := n]> T) m (fun p => fwd f p x /\ p ∈ post)).
  { intros x m Hx Hm [L1 L2]. split.
    - intros q Hq. apply anc_insert; eauto.
    - intros d Hq. apply anc_insert; [done..|]. apply L2. intros q Hq'. apply (anc_insert T b n); eauto. }
  constructor; [constructor| |].
  - rewrite lookup_insert_ne by done. apply HT.
  - intros x d. destruct (decide (x = b)) as [->|Hx].
    + rewrite lookup_insert_eq. intros [= <-]. split; [done|]. destruct HTn as [? ?].
      rewrite lookup_insert_is_Some'. right. eauto.
    + rewrite lookup_insert_ne by done. intros Hx'. destruct (to_post _ HT _ _ Hx') as [? ?].
      split; [done|]. rewrite lookup_insert_is_Some'. auto.
  - intros x d. destruct (decide (x = b)) as [->|Hx].
    + rewrite lookup_insert_eq. by intros [= <-] _.
    + rewrite lookup_insert_ne by done. apply HT.
  - intros x. rewrite lookup_insert_is_Some', Hd. set_solver.
  - intros x Hx Hxe. destruct (decide (x = b)) as [->|Hxb].
    + exists n. rewrite lookup_insert_eq. split; [done|]. by apply Hlow; [right| |split].
    + assert (Hxd : x ∈ dn) by set_solver. destruct (HL x Hxd Hxe) as (m & Hm & Hml).
      exists m. rewrite lookup_insert_ne by done. split; [done|]. apply Hlow; [by left| |done].
      by eapply to_post.
Qed.

Lemma first_pass {E : Type} todo : forall dn T ch,
  rev post = dn ++ todo -> entry ∈ dn -> partial dn T ->
  exists T' ch', dominators_pass (E := E) ranks (S (length post)) entry (e_preds (edges f)) todo T ch = Ok (T', ch') /\
    partial (rev post) T'.
Proof.
  induction todo as [|b todo IH]; intros dn T ch Er He Hp; cbn [dominators_pass].
  { exists T, ch. rewrite app_nil_r in Er. rewrite Er. auto. }
  pose proof rev_nodup as Hnd. rewrite Er in Hnd.
  assert (Hb : b ∉ dn). { apply NoDup_app in Hnd as (_ & Hd & _). intros Hin. apply (Hd b Hin). set_solver. }
  assert (Hne : b <> entry) by congruence. rewrite decide_False by done.
  destruct (meet_preds_ok (E := E) T (pred_list b) None (pa_tree _ _ Hp)) as (res & E1 & Hres); [done|].
  rewrite E1. cbn [mbind outcome_bind].
  assert (HQ : forall q, (None = Some q \/ (q ∈ pred_list b /\ is_Some (T !! q))) <-> (fwd f q b /\ q ∈ post)).
  { intros q. rewrite pred_list_spec, (pa_dom _ _ Hp), (earlier_preds _ _ _ _ Er). naive_solver. }
  destruct res as [n|].
  - destruct Hres as [Hn HL]. apply (lowest_ext _ _ _ _ HQ) in HL.
    assert (HTb : T !! b <> Some n). { intros Eb. apply Hb, (pa_dom _ _ Hp). eauto. }
    rewrite decide_False by done. apply (IH (dn ++ [b])); [by rewrite <- app_assoc | set_solver|].
    by eapply partial_insert.
  - destruct Hres as [_ Hnone]. exfalso.
    assert (Hbp : b ∈ post) by (apply in_rev; rewrite Er; set_solver).
    destruct (has_forward_pred b Hbp Hne) as (p & Hpp & Hpf).
    destruct (proj2 (HQ p) (conj Hpf Hpp)) as [?|[Hin [d Hd]]]; [done|]. rewrite (Hnone p Hin) in Hd. done.
Qed.

(** Dominating blocks are ancestors in the computed tree. *)
Lemma dominates_anc T h b : partial (rev post) T -> b ∈ post -> dominates f entry h b -> anc T h b.
Proof.
  intros Hp. remember (rank b) as k eqn:Ek. revert b Ek. induction k as [k IH] using lt_wf_ind.
  intros b -> Hb Hd. destruct (decide (h = b)) as [->|Hhb]; [constructor|].
  destruct (decide (b = entry)) as [->|Hne].
  { specialize (Hd [entry] (path_entry _ _)). by apply list_elem_of_singleton in Hd. }
  destruct (pa_lowest _ _ Hp b) as (n & Hn & _ & HL); [by apply in_rev | done|].
  eapply anc_step; [done | done|]. apply HL. intros q [Hf Hq]. eapply IH; [by apply rank_forward | done | done|].
  intros p Hpq. assert (Hpb : path f entry (b :: p) b).
  { econstructor; [done|]. apply succ_split. auto. }
  specialize (Hd _ Hpb). apply elem_of_cons in Hd as [|]; done.
Qed.

Lemma partial_parent T b d q :
  partial (rev post) T -> b ∈ post -> b <> entry -> T !! b = Some d -> q ∈ post -> succ f q b -> anc T d q.
Proof.
  intros Hp Hb Hne Hd Hq Hs. destruct (pa_lowest _ _ Hp b) as (n & Hn & HL & _); [by apply in_rev | done|].
  rewrite Hd in Hn. injection Hn as <-. apply succ_split in Hs as [Hf|Hbk]; [by apply HL|].
  apply (anc_trans _ _ b); [eapply anc_step; [done | done | constructor]|].
  apply dominates_anc; [done..|]. apply (red_back _ _ Hred); [by apply reach_post | done].
Qed.

Lemma second_pass {E : Type} T todo :
  partial (rev post) T -> (forall b, b ∈ todo -> b ∈ post) ->
  dominators_pass (E := E) ranks (S (length post)) entry (e_preds (edges f)) todo T false = Ok (T, false).
Proof.
  intros Hp. induction todo as [|b todo IH]; intros Hin; cbn [dominators_pass]; [done|].
  destruct (decide (b = entry)) as [->|Hne]; [apply IH; set_solver|].
  assert (Hb : b ∈ post) by set_solver.
  destruct (meet_preds_ok (E := E) T (pred_list b) None (pa_tree _ _ Hp)) as (res & E1 & Hres); [done|].
  rewrite E1. cbn [mbind outcome_bind]. destruct res as [n'|]; [|apply IH; set_solver].
  destruct Hres as [Hn' [L1 L2]].
  destruct (pa_lowest _ _ Hp b) as (n & Hn & HL1 & HL2); [by apply in_rev | done|].
  assert (n = n') as <-; [|rewrite decide_True by done; apply IH; set_solver].
  apply (anc_antisym T); [apply Hp| |].
  - apply L2. intros q [?|[Hq HTq]]; [done|]. apply pred_list_spec in Hq.
    eapply (partial_parent T b); [done..| |done]. by apply in_rev, (pa_dom _ _ Hp).
  - apply HL2. intros q [Hf Hq]. apply L1. right. split.
    + apply pred_list_spec, succ_split. auto.
    + by apply (pa_dom _ _ Hp), in_rev.
Qed.

(** What the structuring needs of the dominator tree. *)
Record idom_ok (T : gmap BlockId BlockId) : Prop := {
  io_tree : tree_ok T;
  io_dom b : is_Some (T !! b) <-> b ∈ post;
  io_parent b d q : b ∈ post -> b <> entry -> T !! b = Some d -> q ∈ post -> succ f q b -> anc T d q;
  io_single b d x : b ∈ post -> b <> entry -> T !! b = Some d -> (forall y, fwd f y b -> y = x) -> d = x;
  io_dominates h b : b ∈ post -> dominates f entry h b -> anc T h b
}.

Lemma dominators_total {E : Type} :
  exists T, dominators (E := E) ranks entry post (e_preds (edges f)) = Ok T /\ idom_ok T.
Proof.
  assert (Hok : forall T, partial (rev post) T -> idom_ok T).
  { intros T Hp. constructor; [apply Hp | | | |].
    - intros b. by rewrite (pa_dom _ _ Hp), in_rev.
    - intros b d q. by apply partial_parent.
    - intros b d x Hb Hne Hd Hx. destruct (pa_lowest _ _ Hp b) as (n & Hn & HL1 & HL2); [by apply in_rev | done|].
      rewrite Hd in Hn. injection Hn as <-. destruct (has_forward_pred b Hb Hne) as (y & Hy & Hyf).
      pose proof (Hx y Hyf) as ->. apply (anc_antisym T); [apply Hp | auto|]. apply HL2.
      intros q [Hf _]. rewrite (Hx q Hf). constructor.
    - intros h b. by apply dominates_anc. }
  destruct post_split as [l Epost]. assert (Er : rev post = [entry] ++ rev l).
  { rewrite Epost. by rewrite rev_app_distr. }
  assert (Hskip : forall (E' : Type) T ch, dominators_pass (E := E') ranks (S (length post)) entry (e_preds (edges f))
    (rev post) T ch = dominators_pass ranks (S (length post)) entry (e_preds (edges f)) (rev l) T ch).
  { intros E' T ch. rewrite Er. simpl. by rewrite decide_True. }
  destruct (first_pass (E := E) (rev l) [entry] {[entry := entry]} false Er) as (T & ch & E1 & Hp);
    [set_solver | apply partial_start|].
  exists T. split; [|by apply Hok]. unfold dominators. cbn [dominators_loop]. rewrite Hskip, E1.
  cbn [mbind outcome_bind]. destruct ch; [|done]. rewrite (second_pass T); [done | done|].
  intros b. by rewrite in_rev.
Qed.

End Ranks.
