(* ===== verification/ReloopSpec.v ===== *)
(** Correctness of the relooper: a reducible graph is structured into a tree
    in which every branch goes to an enclosing label, every reachable block is
    emitted once, and that computes what the graph computes.

    The relooper on concrete graphs: a loop with a conditional in its body. *)
From stdpp Require Import gmap sorting.
From S2P Require Import Prelude RustStd Token Ir Reloop ReloopSem ReloopGraph ReloopDom.
Local Open Scope Z_scope.

(** The blocks a tree emits. *)
Fixpoint emitted (s : Structured) : list BlockId :=
  match s with
  | SSimple b next => b :: emitted next
  | SLabeled _ body next => emitted body ++ emitted next
  | SLoop _ body => emitted body
  | SIf _ s1 s2 => emitted s1 ++ emitted s2
  | SBr _ | SReturn _ | SUnreachable | SNil => []
  end.

(** Blocks with two or more forward edges, and the others. *)
Definition merge (f : IrFunction) (b : BlockId) : Prop := (2 <= fcount (blocks f) b)%nat.

#[export] Instance merge_dec f b : Decision (merge f b).
Proof. unfold merge. apply _. Defined.

Abbreviation single f := (fun b => ~ merge f b).

(** * Merge children *)

Section Merges.
Context (entry : BlockId) (rpo_num : gmap BlockId nat) (fw : gmap BlockId nat) (T : gmap BlockId BlockId).

Definition placed (x m : BlockId) : Prop :=
  m <> entry /\ is_Some (rpo_num !! m) /\ (2 <= default 0 (fw !! m))%nat /\ T !! m = Some x.

Lemma place_merges_spec bs x : forall acc,
  NoDup (map block_id bs) ->
  (forall m, m ∈ default [] (acc !! x) -> m ∉ map block_id bs) -> NoDup (default [] (acc !! x)) ->
  let kids := default [] (fold_left (place_merge entry rpo_num fw T) bs acc !! x) in
  NoDup kids /\ forall m, m ∈ kids <-> m ∈ default [] (acc !! x) \/ (m ∈ map block_id bs /\ placed x m).
Proof.
  induction bs as [|b bs IH]; intros acc Hnd Hacc Hna; simpl; [split; [done | set_solver]|].
  simpl in Hnd, Hacc. apply NoDup_cons in Hnd as [Hb Hnd].
  assert (Hstep : (forall m, m ∈ default [] (place_merge entry rpo_num fw T acc b !! x) <->
                     m ∈ default [] (acc !! x) \/ (m = block_id b /\ placed x m)) /\
                  NoDup (default [] (place_merge entry rpo_num fw T acc b !! x))).
  { unfold place_merge. case_decide as He.
    { split; [|done]. intros m. split; [auto|]. intros [?|[-> (H1 & [? H2] & _)]]; [done|].
      destruct He; congruence. }
    destruct (Nat.leb_spec 2 (default 0%nat (fw !! block_id b))) as [H2|H2].
    - destruct (T !! block_id b) as [d|] eqn:Ed.
      + unfold push_entry. destruct (decide (d = x)) as [->|Hdx].
        * rewrite lookup_insert_eq. simpl. split.
          -- intros m. rewrite elem_of_app, list_elem_of_singleton. split; [|naive_solver].
             intros [?| ->]; [auto|]. right. split; [done|]. split_and!; try done; [naive_solver|].
             destruct (rpo_num !! block_id b) eqn:Er; [eauto | naive_solver].
          -- apply NoDup_app. split_and!; [done | | apply NoDup_singleton]. intros m Hm Hm'.
             apply list_elem_of_singleton in Hm' as ->. apply (Hacc _ Hm). set_solver.
        * rewrite lookup_insert_ne by done. split; [|done]. intros m. split; [auto|].
          intros [?|[-> (_ & _ & _ & ?)]]; [done | congruence].
      + split; [|done]. intros m. split; [auto|]. intros [?|[-> (_ & _ & _ & ?)]]; [done | congruence].
    - split; [|done]. intros m. split; [auto|]. intros [?|[-> (_ & _ & ? & _)]]; [done | lia]. }
  destruct Hstep as [Hin Hnd']. destruct (IH (place_merge entry rpo_num fw T acc b)) as [IH1 IH2]; [done| |done|].
  { intros m Hm. apply Hin in Hm as [Hm|[-> _]]; [|done]. specialize (Hacc m Hm). set_solver. }
  split; [done|]. intros m. rewrite IH2, Hin. set_solver.
Qed.

End Merges.

#[export] Instance rank_le_trans rpo_num : Transitive (rank_le rpo_num).
Proof. intros a b c. unfold rank_le. lia. Qed.

#[export] Instance rank_le_total rpo_num : Total (rank_le rpo_num).
Proof. intros a b. unfold rank_le. lia. Qed.

Lemma sort_default rpo_num (m : gmap BlockId (list BlockId)) x :
  default [] ((sort_by_rank rpo_num <$> m) !! x) = sort_by_rank rpo_num (default [] (m !! x)).
Proof. rewrite lookup_fmap. by destruct (m !! x). Qed.

(** * Structuring *)

Section Structuring.
Context (f : IrFunction) (entry : BlockId).
Context (Hwf : well_formed f entry) (Hred : reducible f entry).
Context (post : list BlockId) (Hpo : postorder_ok f entry post).
Context (T : gmap BlockId BlockId) (HT : idom_ok f entry post T).

Definition relooper : Relooper :=
  mkRelooper f entry (index_of f) (ranks post) (e_forward (edges f)) (e_headers (edges f))
    (sort_by_rank (ranks post) <$>
       fold_left (place_merge entry (ranks post) (e_forward (edges f)) T) (blocks f) ∅).

Abbreviation rk := (rank post).
Abbreviation ancestor := (anc entry T).

Definition kids (x : BlockId) : list BlockId := default [] (merge_children relooper !! x).

Lemma is_merge_spec b : is_merge relooper b = true <-> merge f b.
Proof.
  unfold is_merge, merge. cbn [forward_preds relooper]. destruct (edges_spec f b) as (-> & _). apply Nat.leb_le.
Qed.

Lemma kids_spec x :
  NoDup (kids x) /\ (forall m, m ∈ kids x <-> m ∈ post /\ m <> entry /\ merge f m /\ T !! m = Some x) /\
  StronglySorted (rank_le (ranks post)) (kids x).
Proof.
  unfold kids. cbn [merge_children relooper]. rewrite sort_default.
  destruct (place_merges_spec entry (ranks post) (e_forward (edges f)) T (blocks f) x ∅) as [H1 H2].
  { apply Hwf. } { set_solver. } { constructor. }
  unfold sort_by_rank. split_and!.
  - by rewrite merge_sort_Permutation.
  - intros m. rewrite merge_sort_Permutation, H2, lookup_empty. simpl. unfold placed, merge.
    destruct (edges_spec f m) as (-> & _). rewrite (ranks_is_Some f entry post Hpo). split.
    + intros [?|(_ & ? & ? & ? & ?)]; [set_solver|]. split_and!; done.
    + intros (Hm & ? & ? & ?). right. split_and!; try done.
      apply (po_fpath _ _ _ Hpo) in Hm as [p Hp]. destruct Hp as [|p b s Hp Hf]; [done|].
      eapply (wf_targets _ _ Hwf). apply succ_split. left. exact Hf.
  - apply (StronglySorted_merge_sort (rank_le (ranks post))).
Qed.

(** Facts of the dominator tree in the terms used here. *)
Lemma parent_rank b x : T !! b = Some x -> b <> entry -> b ∈ post /\ x ∈ post /\ (rk x < rk b)%nat.
Proof.
  intros Hb Hne. destruct (to_post _ _ _ (io_tree _ _ _ _ HT) _ _ Hb) as [Hbp Hx].
  split_and!; [done | by apply (io_dom _ _ _ _ HT) | by apply (io_tree _ _ _ _ HT)].
Qed.

Lemma child_anc b x y : T !! b = Some x -> b <> entry -> ancestor b y -> ancestor x y.
Proof. intros Hb Hne Ha. eapply anc_trans; [|done]. eapply anc_step; [done | done | constructor]. Qed.

Lemma anc_of_child a b x : T !! b = Some x -> ancestor a b -> a <> b -> ancestor a x.
Proof. intros Hb Ha Hne. by eapply anc_parent. Qed.

(** A block below [x] is below one of its children. *)
Lemma anc_below x y : ancestor x y -> x <> y -> exists c, c <> entry /\ T !! c = Some x /\ ancestor c y.
Proof.
  intros Ha. induction Ha as [|y d Hne Hd Ha IH]; intros Hxy; [done|].
  destruct (decide (x = d)) as [->|Hxd].
  - exists y. split_and!; [done | done | constructor].
  - destruct (IH Hxd) as (c & ? & ? & ?). exists c. split_and!; [done | done|]. by eapply anc_step.
Qed.

Lemma anc_linear a b y : ancestor a y -> ancestor b y -> ancestor a b \/ ancestor b a.
Proof.
  intros Ha. revert b. induction Ha as [|y d Hne Hd Ha IH]; intros b Hb; [by right|].
  destruct (decide (b = y)) as [->|Hby].
  - left. by eapply anc_step.
  - apply IH. by eapply anc_parent.
Qed.

Lemma siblings_apart a b x y :
  a <> entry -> b <> entry -> T !! a = Some x -> T !! b = Some x -> ancestor a y -> ancestor b y -> a = b.
Proof.
  intros Hae Hbe Ha Hb Hay Hby. destruct (parent_rank _ _ Ha Hae) as (_ & _ & Hra).
  destruct (parent_rank _ _ Hb Hbe) as (_ & _ & Hrb). pose proof (io_tree _ _ _ _ HT) as Ht.
  destruct (decide (a = b)) as [|Hne]; [done|]. exfalso.
  destruct (anc_linear _ _ _ Hay Hby) as [Hl|Hl].
  - pose proof (anc_of_child _ _ _ Hb Hl Hne) as Hax. destruct (anc_rank _ _ _ _ _ Ht Hax) as [->|]; lia.
  - pose proof (anc_of_child _ _ _ Ha Hl (not_eq_sym Hne)) as Hbx.
    destruct (anc_rank _ _ _ _ _ Ht Hbx) as [->|]; lia.
Qed.

(** A child that is not a merge is the target of one edge, from its parent. *)
Lemma single_child b x : b ∈ post -> fwd f x b -> x ∈ post -> ~ merge f b -> b <> entry /\ T !! b = Some x.
Proof.
  intros Hb Hf Hx Hm. assert (Hne : b <> entry).
  { intros ->. pose proof (rank_forward f entry post Hpo _ _ Hx Hf) as Hlt.
    rewrite (rank_entry f entry post Hpo) in Hlt. lia. }
  split; [done|]. destruct (proj2 (io_dom _ _ _ _ HT b) Hb) as [d Hd]. rewrite Hd. f_equal.
  eapply (io_single _ _ _ _ HT b); [done..|]. intros y Hy.
  eapply fcount_unique; [apply Hwf | | done | done]. unfold merge in Hm. lia.
Qed.

Lemma nonmerge_child b x : b <> entry -> T !! b = Some x -> ~ merge f b -> fwd f x b.
Proof.
  intros Hne Hb Hm. destruct (parent_rank _ _ Hb Hne) as (Hbp & _).
  destruct (has_forward_pred f entry Hwf Hred post Hpo b Hbp Hne) as (p & Hp & Hf).
  destruct (single_child b p Hbp Hf Hp Hm) as [_ Hbx]. congruence.
Qed.

(** ** The recursion *)

(** Labels around the tree of [x]: merge blocks placed by a block above, and
    loop headers above. *)
Definition outer (x l : BlockId) : Prop :=
  (l ∈ post /\ l <> entry /\ merge f l /\ (rk x < rk l)%nat /\ exists d, T !! l = Some d /\ d <> x /\ ancestor d x) \/
  (l ∈ e_headers (edges f) /\ ancestor l x /\ l <> x).

(** Labels around the code of [x] itself. *)
Definition inner (x l : BlockId) : Prop :=
  outer x l \/ l ∈ kids x \/ (l = x /\ x ∈ e_headers (edges f)).

Definition covers (s : Structured) (Q : BlockId -> Prop) : Prop :=
  NoDup (emitted s) /\ forall y, y ∈ emitted s <-> y ∈ post /\ Q y.

(** What the tree of a block has to be. *)
Definition tree_for (x : BlockId) (s : Structured) : Prop :=
  node f (single f) s x /\ (forall l, l ∈ free_labels s -> outer x l) /\ covers s (ancestor x).

(** The labels around a child are around its parent or placed by it. *)
Lemma outer_child c x l : c <> entry -> T !! c = Some x -> outer c l ->
  outer x l \/ (l ∈ kids x /\ (rk c < rk l)%nat) \/ (l = x /\ x ∈ e_headers (edges f)).
Proof.
  intros Hce Hc Ho. destruct (parent_rank _ _ Hc Hce) as (_ & _ & Hr).
  destruct Ho as [(Hl & Hle & Hm & Hrl & d & Hd & Hdc & Ha)|(Hl & Ha & Hlc)].
  - pose proof (anc_of_child _ _ _ Hc Ha Hdc) as Hax. destruct (decide (d = x)) as [->|Hdx].
    + right. left. split; [|done]. by apply kids_spec.
    + left. left. split_and!; [done..|lia|]. eauto.
  - pose proof (anc_of_child _ _ _ Hc Ha Hlc) as Hax. destruct (decide (l = x)) as [->|Hlx]; [auto|].
    left. right. auto.
Qed.

Section Node.
Context (x : BlockId) (Hx : x ∈ post) (rec : BlockId -> outcome RelooperError Structured).
Context (Hrec : forall c, c <> entry -> T !! c = Some x -> exists s, rec c = Ok s /\ tree_for c s).

Lemma do_branch_ok t : fwd f x t ->
  exists s, do_branch relooper rec x t = Ok s /\ edge f (single f) s t /\ (forall l, l ∈ free_labels s -> inner x l) /\
    covers s (fun y => ~ merge f t /\ ancestor t y).
Proof.
  intros Hf. assert (Ht : t ∈ post) by (apply (po_succ _ _ _ Hpo x); [done|]; apply succ_split; auto).
  pose proof (rank_forward f entry post Hpo _ _ Hx Hf) as Hlt. unfold do_branch. cbn [rpo_num relooper].
  rewrite (index_map_Some _ _ _ (ranks_post _ _ _ Hpo _ Ht)), (index_map_Some _ _ _ (ranks_post _ _ _ Hpo _ Hx)).
  cbn [mbind outcome_bind]. replace (rank post t <=? rank post x)%nat with false by (symmetry; apply Nat.leb_gt; lia).
  destruct (is_merge relooper t) eqn:Em.
  - apply is_merge_spec in Em. exists (SBr t). split_and!; [done | constructor | |].
    + intros l Hl. simpl in Hl. apply elem_of_singleton in Hl as ->.
      assert (Hte : t <> entry) by (intros ->; rewrite (rank_entry f entry post Hpo) in Hlt; lia).
      destruct (proj2 (io_dom _ _ _ _ HT t) Ht) as [d Hd]. destruct (decide (d = x)) as [->|Hdx].
      * right. left. by apply kids_spec.
      * left. left. split_and!; [done..|]. exists d. split_and!; [done..|].
        eapply (io_parent _ _ _ _ HT t); [done..|]. apply succ_split. auto.
    + split; [constructor|]. simpl. set_solver.
  - assert (Hm : ~ merge f t) by (rewrite <- is_merge_spec; congruence).
    destruct (single_child t x Ht Hf Hx Hm) as [Hte Htx].
    destruct (Hrec t Hte Htx) as (s & Es & Hn & Hfree & Hnd & Hcov). exists s. split_and!; [done | by constructor | |].
    + intros l Hl. destruct (outer_child t x l Hte Htx (Hfree l Hl)) as [|[[? _]|]]; unfold inner; auto.
    + split; [done|]. intros y. rewrite Hcov. tauto.
Qed.

(** The blocks below [x] that are reached without a label. *)
Definition inlined (y : BlockId) : Prop := exists t, fwd f x t /\ ~ merge f t /\ ancestor t y.

Lemma branches_apart c t e y :
  terminates f x (Branch c t e) -> ~ merge f t -> ~ merge f e -> ancestor t y -> ancestor e y -> False.
Proof.
  intros Hb Ht He Hty Hey.
  assert (Hft : fwd f x t) by (exists (Branch c t e); split; [done | simpl; set_solver]).
  assert (Hfe : fwd f x e) by (exists (Branch c t e); split; [done | simpl; set_solver]).
  assert (Htp : t ∈ post) by (apply (po_succ _ _ _ Hpo x); [done|]; apply succ_split; auto).
  assert (Hep : e ∈ post) by (apply (po_succ _ _ _ Hpo x); [done|]; apply succ_split; auto).
  destruct (single_child t x Htp Hft Hx Ht) as [Hte Htx]. destruct (single_child e x Hep Hfe Hx He) as [Hee Hex].
  pose proof (siblings_apart t e x y Hte Hee Htx Hex Hty Hey) as <-.
  destruct Hb as (blk & Hin & _ & Et). apply Ht. unfold merge.
  apply list_elem_of_split in Hin as (l1 & l2 & ->). change (blk :: l2) with ([blk] ++ l2). rewrite !fcount_app.
  assert (fcount [blk] t = 2)%nat; [|lia]. unfold fcount. simpl. rewrite Et. simpl.
  rewrite !filter_cons_True by done. done.
Qed.

Lemma translate_ok :
  exists s, translate_terminator relooper rec x = Ok s /\ term f (single f) s x /\
    (forall l, l ∈ free_labels s -> inner x l) /\ covers s inlined.
Proof.
  assert (Hid : x ∈ ids f).
  { destruct (po_fpath _ _ _ Hpo x Hx) as [p Hp]. destruct Hp as [|p b s Hp Hf].
    - destruct (wf_entry _ _ Hwf) as (b0 & rest & Eb & <-). unfold ids. rewrite Eb. simpl. set_solver.
    - eapply (wf_targets _ _ Hwf). apply succ_split. left. exact Hf. }
  destruct (in_ids_terminates f entry Hwf x Hid) as (blk & Hl & Ht).
  unfold translate_terminator. cbn [func index relooper]. rewrite (block_at_lookup _ _ _ Hl). cbn [mbind outcome_bind].
  destruct (terminator blk) as [t|c t e|v|h args|] eqn:Et.
  - destruct (do_branch_ok t) as (s & Es & He & Hfree & Hnd & Hcov).
    { exists (Jump t). split; [done | simpl; set_solver]. }
    exists s. split_and!; [done | by eapply term_jump | done|]. split; [done|]. intros y. rewrite Hcov.
    unfold inlined. split.
    + intros (Hy & Hm & Ha). split; [done|]. exists t. split_and!; [|done..]. exists (Jump t). split; [done | simpl; set_solver].
    + intros (Hy & t' & (tm & Ht' & Hin) & Hm & Ha). split; [done|].
      rewrite <- (terminates_fun _ (wf_ids _ _ Hwf) _ _ _ Ht Ht') in Hin. simpl in Hin.
      apply list_elem_of_singleton in Hin as ->. done.
  - destruct (do_branch_ok t) as (s1 & Es1 & He1 & Hf1 & Hnd1 & Hc1).
    { exists (Branch c t e). split; [done | simpl; set_solver]. }
    destruct (do_branch_ok e) as (s2 & Es2 & He2 & Hf2 & Hnd2 & Hc2).
    { exists (Branch c t e). split; [done | simpl; set_solver]. }
    rewrite Es1. cbn [mbind outcome_bind]. rewrite Es2. cbn [mbind outcome_bind].
    exists (SIf c s1 s2). split_and!; [done | by eapply term_branch | |split].
    + intros l Hl'. simpl in Hl'. apply elem_of_union in Hl' as [|]; auto.
    + simpl. apply NoDup_app. split_and!; [done | | done]. intros y Hy1 Hy2. apply Hc1 in Hy1. apply Hc2 in Hy2.
      eapply branches_apart; [done|..]; apply Hy1 || apply Hy2.
    + intros y. simpl. rewrite elem_of_app, Hc1, Hc2. unfold inlined. split.
      * intros [(Hy & Hm & Ha)|(Hy & Hm & Ha)]; (split; [done|]); [exists t|exists e]; (split_and!; [|done..]);
          exists (Branch c t e); (split; [done | simpl; set_solver]).
      * intros (Hy & t' & (tm & Ht' & Hin) & Hm & Ha).
        rewrite <- (terminates_fun _ (wf_ids _ _ Hwf) _ _ _ Ht Ht') in Hin. simpl in Hin.
        apply elem_of_cons in Hin as [->|Hin]; [auto|]. apply list_elem_of_singleton in Hin as ->. auto.
  - exists (SReturn v). split_and!; [done | by eapply term_return | set_solver | split; [constructor|]].
    intros y. simpl. split; [set_solver|]. intros (_ & t' & (tm & Ht' & Hin) & _).
    rewrite <- (terminates_fun _ (wf_ids _ _ Hwf) _ _ _ Ht Ht') in Hin. simpl in Hin. set_solver.
  - exists (SBr h). split_and!; [done | by eapply term_recur | |split; [constructor|]].
    + intros l Hl'. simpl in Hl'. apply elem_of_singleton in Hl' as ->.
      assert (Hb : back f x h) by (by exists (RecurJump h args)).
      assert (Hh : h ∈ e_headers (edges f)) by (apply edges_spec; eauto).
      assert (Ha : ancestor h x).
      { apply (io_dominates _ _ _ _ HT); [done|]. apply (red_back _ _ Hred); [|done]. by apply (reach_post f entry Hwf Hred post Hpo). }
      destruct (decide (h = x)) as [->|Hhx]; [right; right; auto|]. left. right. auto.
    + intros y. simpl. split; [set_solver|]. intros (_ & t' & (tm & Ht' & Hin) & _).
      rewrite <- (terminates_fun _ (wf_ids _ _ Hwf) _ _ _ Ht Ht') in Hin. simpl in Hin. set_solver.
  - exists SUnreachable. split_and!; [done | by eapply term_unreachable | set_solver | split; [constructor|]].
    intros y. simpl. split; [set_solver|]. intros (_ & t' & (tm & Ht' & Hin) & _).
    rewrite <- (terminates_fun _ (wf_ids _ _ Hwf) _ _ _ Ht Ht') in Hin. simpl in Hin. set_solver.
Qed.

(** With the merge children [ms] placed, the others are still around. *)
Definition around (ms : list BlockId) (l : BlockId) : Prop :=
  outer x l \/ (l ∈ kids x /\ l ∉ ms) \/ (l = x /\ x ∈ e_headers (edges f)).

Definition below (ms : list BlockId) (y : BlockId) : Prop :=
  y = x \/ inlined y \/ exists m, m ∈ ms /\ ancestor m y.

Lemma inlined_child y : inlined y -> exists c, c <> entry /\ T !! c = Some x /\ ~ merge f c /\ ancestor c y.
Proof.
  intros (t & Hf & Hm & Ha). exists t.
  assert (Ht : t ∈ post) by (apply (po_succ _ _ _ Hpo x); [done|]; apply succ_split; auto).
  destruct (single_child t x Ht Hf Hx Hm). done.
Qed.

Lemma child_not_self c : c <> entry -> T !! c = Some x -> ~ ancestor c x.
Proof.
  intros Hc Hcx Ha. destruct (parent_rank _ _ Hcx Hc) as (_ & _ & Hr).
  destruct (anc_rank _ _ _ _ _ (io_tree _ _ _ _ HT) Ha) as [->|]; lia.
Qed.

Lemma code_for_ok :
  exists s, code_for relooper rec x = Ok s /\ node f (single f) s x /\
    (forall l, l ∈ free_labels s -> around [] l) /\ covers s (below []).
Proof.
  destruct translate_ok as (s & Es & Ht & Hfree & Hnd & Hcov). unfold code_for. rewrite Es. cbn [mbind outcome_bind].
  exists (SSimple x s). split_and!; [done | by constructor | |split].
  - intros l Hl. destruct (Hfree l Hl) as [|[|]]; unfold around; [auto | right; left; set_solver | auto].
  - simpl. apply NoDup_cons. split; [|done]. rewrite Hcov. intros [_ Hi].
    destruct (inlined_child _ Hi) as (c & ? & ? & _ & ?). by eapply child_not_self.
  - intros y. simpl. rewrite elem_of_cons, Hcov. unfold below. split; [naive_solver|].
    intros [Hy [->|[?|(m & Hm & _)]]]; [auto | auto | set_solver].
Qed.

Lemma node_within_ok ms rest :
  kids x = ms ++ rest ->
  exists s, node_within relooper rec x (rev ms) = Ok s /\ node f (single f) s x /\
    (forall l, l ∈ free_labels s -> around ms l) /\ covers s (below ms).
Proof.
  destruct (kids_spec x) as (Hnd & Hk & Hsort). revert rest.
  induction ms as [|m ms IH] using rev_ind; intros rest Ek; [apply code_for_ok|].
  rewrite <- app_assoc in Ek. destruct (IH _ Ek) as (body & Eb & Hnb & Hfb & Hndb & Hcb).
  assert (Hm : m ∈ kids x) by (rewrite Ek; set_solver). apply Hk in Hm as (Hmp & Hme & Hmm & Hmx).
  destruct (Hrec m Hme Hmx) as (next & En & Hnn & Hfn & Hndn & Hcn).
  rewrite rev_unit. cbn [node_within]. rewrite Eb. cbn [mbind outcome_bind]. rewrite En. cbn [mbind outcome_bind].
  exists (SLabeled m body next). split_and!; [done | by constructor | |split].
  - intros l Hl. simpl in Hl. apply elem_of_union in Hl as [Hl|Hl].
    + apply elem_of_difference in Hl as [Hl Hlm]. unfold around.
      destruct (Hfb l Hl) as [|[[? ?]|]]; [auto | right; left; set_solver | auto].
    + destruct (outer_child m x l Hme Hmx (Hfn l Hl)) as [|[[Hlk Hr]|]]; unfold around; [auto| |auto].
      right. left. split; [done|]. intros Hin. apply elem_of_app in Hin as [Hin|Hin].
      * rewrite Ek in Hsort. pose proof (StronglySorted_app_1_elem_of _ _ _ l m Hsort Hin ltac:(set_solver)) as Hle.
        unfold rank_le, rank in *. lia.
      * apply list_elem_of_singleton in Hin as ->. lia.
  - simpl. apply NoDup_app. split_and!; [done | | done]. intros y Hyb Hyn. apply Hcb in Hyb as [_ Hyb].
    apply Hcn in Hyn as [_ Hyn]. destruct Hyb as [->|[Hi|(m' & Hm' & Ha)]].
    + by eapply child_not_self.
    + destruct (inlined_child _ Hi) as (c & Hce & Hcx & Hcm & Hcy).
      by pose proof (siblings_apart c m x y Hce Hme Hcx Hmx Hcy Hyn) as ->.
    + assert (Hmk : m' ∈ kids x) by (rewrite Ek; set_solver). apply Hk in Hmk as (_ & Hme' & _ & Hmx').
      pose proof (siblings_apart m' m x y Hme' Hme Hmx' Hmx Ha Hyn) as ->.
      rewrite Ek in Hnd. apply NoDup_app in Hnd as (_ & Hd & _). apply (Hd m Hm'). set_solver.
  - intros y. simpl. rewrite elem_of_app, Hcb, Hcn. unfold below. split.
    + intros [[Hy [?|[?|(m' & ? & ?)]]]|[Hy ?]]; (split; [done|]); [auto | auto | |].
      * right. right. exists m'. split; [set_solver | done].
      * right. right. exists m. split; [set_solver | done].
    + intros [Hy [?|[?|(m' & Hm' & ?)]]]; [auto | auto|]. apply elem_of_app in Hm' as [Hm'|Hm'].
      * left. split; [done|]. right. right. eauto.
      * apply list_elem_of_singleton in Hm' as ->. auto.
Qed.

Lemma below_all y : y ∈ post -> below (kids x) y <-> ancestor x y.
Proof.
  destruct (kids_spec x) as (_ & Hk & _). intros Hy. split.
  - intros [->|[Hi|(m & Hm & Ha)]]; [constructor| |].
    + destruct (inlined_child _ Hi) as (c & ? & ? & _ & ?). by eapply child_anc.
    + apply Hk in Hm as (_ & ? & _ & ?). by eapply child_anc.
  - intros Ha. destruct (decide (x = y)) as [->|Hne]; [by left|]. right.
    destruct (anc_below _ _ Ha Hne) as (c & Hce & Hc & Hcy).
    destruct (decide (merge f c)) as [Hm|Hm]; [right; exists c; split; [|done]; apply Hk|left; exists c].
    + by destruct (parent_rank _ _ Hc Hce).
    + split_and!; [by apply nonmerge_child | done | done].
Qed.

End Node.

Lemma do_tree_ok fuel x : x ∈ post -> (length post - rk x <= fuel)%nat ->
  exists s, do_tree fuel relooper x = Ok s /\ tree_for x s.
Proof.
  revert x. induction fuel as [|fuel IH]; intros x Hx Hf.
  { pose proof (rank_bound f entry post Hpo x Hx). lia. }
  assert (Hrec : forall c, c <> entry -> T !! c = Some x -> exists s, do_tree fuel relooper c = Ok s /\ tree_for c s).
  { intros c Hce Hc. destruct (parent_rank _ _ Hc Hce) as (Hcp & _ & Hr). apply IH; [done | lia]. }
  destruct (node_within_ok x Hx _ Hrec (kids x) []) as (s & Es & Hn & Hfree & Hnd & Hcov); [by rewrite app_nil_r|].
  cbn [do_tree]. change (default [] (merge_children relooper !! x)) with (kids x). rewrite Es. cbn [mbind outcome_bind].
  assert (Hc : covers s (ancestor x)).
  { split; [done|]. intros y. rewrite Hcov. split; intros [Hy Hb]; (split; [done|]); by apply (below_all x Hx _ Hrec y Hy). }
  cbn [loop_headers relooper]. case_decide as Hh.
  - exists (SLoop x s). split; [done|]. split_and!; [by constructor | |done].
    intros l Hl. simpl in Hl. apply elem_of_difference in Hl as [Hl Hlx].
    destruct (Hfree l Hl) as [|[[? ?]|[-> _]]]; [done | done | set_solver].
  - exists s. split; [done|]. split_and!; [done | |done].
    intros l Hl. destruct (Hfree l Hl) as [|[[? ?]|[-> ?]]]; done.
Qed.

Lemma outer_entry l : ~ outer entry l.
Proof.
  assert (Ha : forall a, ancestor a entry -> a = entry) by (intros a H; by inversion H).
  intros [(_ & _ & _ & _ & d & _ & Hd & Had)|(_ & Hal & Hl)]; [apply Hd | apply Hl]; auto.
Qed.

End Structuring.

(** * The relooper *)

Lemma analyze_ok f entry :
  well_formed f entry -> reducible f entry ->
  exists post T, postorder_ok f entry post /\ idom_ok f entry post T /\ analyze f = Ok (relooper f entry post T).
Proof.
  intros Hwf Hred. destruct (postorder_total f entry Hwf Hred (E := RelooperError)) as (post & Ep & Hpo).
  destruct (dominators_total f entry Hwf Hred post Hpo (E := RelooperError)) as (T & Et & HT).
  exists post, T. split_and!; [done | done|]. unfold analyze.
  destruct (wf_entry _ _ Hwf) as (b0 & rest & Eb & Eid). rewrite Eb. rewrite Eid.
  assert (Hd : dangling (index_of f) ((b0 :: rest) ≫= fun b => successors (terminator b)) = None).
  { rewrite <- Eb. apply dangling_None. intros s Hs. apply list_elem_of_bind in Hs as (b & Hs & Hb).
    apply index_of_ids; [apply Hwf|]. apply (wf_targets _ _ Hwf (block_id b)). exists (terminator b).
    split; [by exists b | done]. }
  rewrite Hd, Ep. cbn [mbind outcome_bind]. unfold ranks in Et. rewrite Et. cbn [mbind outcome_bind].
  unfold relooper, ranks. by rewrite Eb.
Qed.

Lemma post_length f entry post : well_formed f entry -> postorder_ok f entry post ->
  (length post <= length (blocks f))%nat.
Proof.
  intros Hwf Hpo. replace (length (blocks f)) with (length (ids f)) by (unfold ids; by rewrite length_map).
  apply submseteq_length, NoDup_submseteq; [apply Hpo|]. intros b Hb.
  destruct (po_fpath _ _ _ Hpo b Hb) as [p Hp]. destruct Hp as [|p b s Hp Hf].
  - destruct (wf_entry _ _ Hwf) as (b0 & rest & Eb & <-). unfold ids. rewrite Eb. simpl. set_solver.
  - eapply (wf_targets _ _ Hwf). apply succ_split. left. exact Hf.
Qed.

Lemma reloop_tree f entry :
  well_formed f entry -> reducible f entry ->
  exists s, reloop f = Ok s /\ node f (single f) s entry /\ free_labels s = ∅ /\ NoDup (emitted s) /\
    forall b, b ∈ emitted s <-> reach f entry b.
Proof.
  intros Hwf Hred. destruct (analyze_ok f entry Hwf Hred) as (post & T & Hpo & HT & Ea).
  pose proof (entry_in_post f entry Hwf Hred post Hpo) as He.
  destruct (do_tree_ok f entry Hwf Hred post Hpo T HT (length (blocks f)) entry He) as (s & Es & Hn & Hfree & Hnd & Hcov).
  { pose proof (post_length _ _ _ Hwf Hpo). lia. }
  exists s. split_and!; [| done | | done |].
  - unfold reloop. destruct (wf_entry _ _ Hwf) as (b0 & rest & Eb & _). rewrite Eb at 1. rewrite Ea. cbn [mbind outcome_bind].
    exact Es.
  - apply elem_of_equiv_empty_L. intros l Hl. eapply outer_entry. by apply Hfree.
  - intros b. rewrite Hcov, (reach_post f entry Hwf Hred post Hpo). split; [naive_solver|]. intros Hb. split; [done|].
    apply (io_dominates _ _ _ _ HT); [done|]. intros p Hp. clear -Hp. induction Hp; set_solver.
Qed.

(** ** Errors *)

(** A computation that fails only with [Irreducible]. *)
Definition only_irreducible {A : Type} (o : outcome RelooperError A) : Prop :=
  match o with
  | Err e => exists a b, e = Irreducible a b
  | _ => True
  end.

Lemma only_bind {A B : Type} (o : outcome RelooperError A) (k : A -> outcome RelooperError B) :
  only_irreducible o -> (forall a, only_irreducible (k a)) -> only_irreducible (o ≫= k).
Proof. destruct o; simpl; auto. Qed.

Lemma only_index_map {K A : Type} `{Countable K} (m : gmap K A) k : only_irreducible (index_map m k).
Proof. unfold index_map. by destruct (m !! k). Qed.

Lemma only_block_at f ix b : only_irreducible (block_at f ix b).
Proof. apply only_bind; [apply only_index_map|]. intros i. by destruct (blocks f !! i). Qed.

Create HintDb relooper_errors.
#[export] Hint Resolve only_bind only_index_map only_block_at I : relooper_errors.

(** Case analysis down to the calls. *)
Ltac only_errors :=
  repeat first
    [ done
    | apply only_bind; [auto with relooper_errors|intros]
    | match goal with
      | |- only_irreducible (if ?b then _ else _) => destruct b
      | |- only_irreducible (match ?x with _ => _ end) => destruct x
      | |- only_irreducible (let '(_, _) := ?x in _) => destruct x
      end
    | solve [auto with relooper_errors]
    | solve [simpl; eauto] ].

Lemma only_postorder fuel f ix visited post stack : only_irreducible (postorder_loop fuel f ix visited post stack).
Proof. revert visited post stack. induction fuel; intros visited post [|[b c] stack]; simpl; only_errors. Qed.

Lemma only_walk_up rpo fuel idom a b : only_irreducible (walk_up rpo fuel idom a b).
Proof. revert a b. induction fuel; intros a b; simpl; only_errors. Qed.

#[export] Hint Resolve only_postorder only_walk_up : relooper_errors.

Lemma only_intersect rpo fuel idom a b : only_irreducible (intersect rpo fuel idom a b).
Proof. revert a b. induction fuel; intros a b; cbn [intersect]; only_errors. Qed.

#[export] Hint Resolve only_intersect : relooper_errors.

Lemma only_meet_preds rpo fuel idom ps new : only_irreducible (meet_preds rpo fuel idom ps new).
Proof. revert new. induction ps; intros new; cbn [meet_preds]; only_errors. Qed.

#[export] Hint Resolve only_meet_preds : relooper_errors.

Lemma only_pass rpo fuel entry preds l idom ch : only_irreducible (dominators_pass rpo fuel entry preds l idom ch).
Proof. revert idom ch. induction l; intros idom ch; cbn [dominators_pass]; only_errors. Qed.

#[export] Hint Resolve only_pass : relooper_errors.

Lemma only_dominators rpo rounds fuel entry preds l idom :
  only_irreducible (dominators_loop rpo rounds fuel entry preds l idom).
Proof. revert idom. induction rounds; intros idom; cbn [dominators_loop]; only_errors. Qed.

Lemma only_branch r rec x t : (forall c, only_irreducible (rec c)) -> only_irreducible (do_branch r rec x t).
Proof. intros Hrec. unfold do_branch. only_errors. Qed.

#[export] Hint Resolve only_dominators only_branch : relooper_errors.

Lemma only_node r rec x ms : (forall c, only_irreducible (rec c)) -> only_irreducible (node_within r rec x ms).
Proof.
  intros Hrec. induction ms; simpl; [|only_errors]. unfold code_for, translate_terminator. only_errors.
Qed.

Lemma only_tree fuel r x : only_irreducible (do_tree fuel r x).
Proof. revert x. induction fuel; intros x; cbn [do_tree]; [done|]. apply only_bind; [by apply only_node|]. intros. only_errors. Qed.

Lemma dangling_Some ix l s : dangling ix l = Some s -> s ∈ l /\ ix !! s = None.
Proof.
  induction l as [|x l IH]; simpl; [done|]. destruct (ix !! x) as [i|] eqn:E; [|intros [= <-]; set_solver].
  intros Hs. destruct (IH Hs). set_solver.
Qed.

(** The relooper on the branches of its checks. *)
Lemma reloop_cases f b0 rest :
  blocks f = b0 :: rest ->
  match dangling (index_of f) (blocks f ≫= fun b => successors (terminator b)) with
  | Some s => reloop f = Err (DanglingTarget s)
  | None => only_irreducible (reloop f)
  end.
Proof.
  intros Eb. unfold reloop, analyze. rewrite Eb. destruct (dangling _ _) as [s|]; [done|].
  apply only_bind; [|intros; apply only_tree]. unfold postorder, dominators. only_errors.
Qed.

(** On a reducible graph the relooper succeeds: every branch of the tree
    goes to a label or loop around it, every reachable block is emitted exactly
    once, and no other block is. *)
Theorem reloop_well_scoped f entry :
  well_formed f entry -> reducible f entry ->
  exists s, reloop f = Ok s /\ free_labels s = ∅ /\ NoDup (emitted s) /\ forall b, b ∈ emitted s <-> reach f entry b.
Proof. intros Hwf Hred. destruct (reloop_tree f entry Hwf Hred) as (s & ? & _ & ? & ? & ?). eauto. Qed.

(** C5: the tree of a reducible graph ends with a result exactly if the graph
    does, and with the same result, whatever the instructions of the blocks
    do. *)
Theorem reloop_preserves_meaning f entry :
  well_formed f entry -> reducible f entry ->
  exists s, reloop f = Ok s /\
    forall (St R : Type) (M : Machine St R) st r,
      (exists n, run_cfg f n entry st = Some r) <-> (exists m, run_tree f m s st = Some (Done r)).
Proof.
  intros Hwf Hred. destruct (reloop_tree f entry Hwf Hred) as (s & Es & Hn & Hc & _). exists s. split; [done|].
  intros St R M st r. by eapply node_equivalent.
Qed.

(** The relooper reports an error only for its reason: no blocks, a target
    that is no block, or a graph that is not reducible. *)
Theorem reloop_error_sound f e :
  NoDup (ids f) -> reloop f = Err e ->
  match e with
  | Empty => blocks f = []
  | DanglingTarget s => (exists b, succ f b s) /\ s ∉ ids f
  | Irreducible _ _ => exists b0 rest, blocks f = b0 :: rest /\ ~ reducible f (block_id b0)
  end.
Proof.
  intros Hnd He. destruct (blocks f) as [|b0 rest] eqn:Eb.
  { unfold reloop in He. rewrite Eb in He. by injection He as <-. }
  pose proof (reloop_cases f b0 rest Eb) as Hc. destruct (dangling _ _) as [s|] eqn:Hd.
  - rewrite Hc in He. injection He as <-.
    apply dangling_Some in Hd as [Hin Hno]. apply list_elem_of_bind in Hin as (blk & Hs & Hb). split.
    + exists (block_id blk), (terminator blk). split; [by exists blk | done].
    + intros Hids. apply (index_of_ids f Hnd) in Hids as [i Hi]. congruence.
  - rewrite He in Hc. destruct Hc as (x & y & ->). exists b0, rest. split; [done|]. intros Hred.
    assert (Hwf : well_formed f (block_id b0)).
    { constructor; [done | eauto|]. intros b s (t & (blk & Hin & _ & <-) & Hs). apply (index_of_ids f Hnd).
      eapply (proj1 (dangling_None _ _) Hd). apply list_elem_of_bind. eauto. }
    destruct (reloop_tree f (block_id b0) Hwf Hred) as (s & Es & _). congruence.
Qed.

Definition plain_block (id : BlockId) (t : Terminator) : Block := mkBlock id [] [] t.

(** [while c { if d { 4 } else { 5 }; 6 }; return] *)
Definition loop_graph : IrFunction :=
  with_blocks
    [plain_block 0 (Jump 1); plain_block 1 (Branch 10 2 3); plain_block 2 (Branch 11 4 5); plain_block 3 (Return 12);
     plain_block 4 (Jump 6); plain_block 5 (Jump 6); plain_block 6 (RecurJump 1 [])]
    (IrFunction_new None None).

Example reloop_loop_graph :
  reloop loop_graph =
  Ok (SSimple 0
        (SLoop 1
          (SSimple 1
            (SIf 10
              (SLabeled 6 (SSimple 2 (SIf 11 (SSimple 4 (SBr 6)) (SSimple 5 (SBr 6)))) (SSimple 6 (SBr 1)))
              (SSimple 3 (SReturn 12)))))).
Proof. vm_compute. reflexivity. Qed.

(** Case analysis on an edge of a concrete graph. *)
Ltac edge_cases H :=
  let t := fresh "t" in let blk := fresh "blk" in let Hin := fresh "Hin" in
  destruct H as (t & (blk & Hin & <- & <-) & H); simpl in Hin;
  repeat (apply elem_of_cons in Hin as [->|Hin]; [simpl in H|]);
  [ .. | by apply elem_of_nil in Hin ].

Lemma path_head f entry p b : path f entry p b -> b ∈ p.
Proof. destruct 1; set_solver. Qed.

Lemma loop_graph_pred b s : succ loop_graph b s ->
  (b = 0 /\ s = 1) \/ (b = 1 /\ (s = 2 \/ s = 3)) \/ (b = 2 /\ (s = 4 \/ s = 5)) \/
  ((b = 4 \/ b = 5) /\ s = 6) \/ (b = 6 /\ s = 1).
Proof. intros H. edge_cases H; set_unfold in H; naive_solver. Qed.

Lemma loop_graph_well_formed : well_formed loop_graph 0.
Proof.
  constructor.
  - apply (bool_decide_unpack _). vm_compute. exact I.
  - exists (plain_block 0 (Jump 1)). eexists. split; reflexivity.
  - intros b s Hs. apply loop_graph_pred in Hs. unfold ids. simpl. rewrite !elem_of_cons. lia.
Qed.

Lemma loop_graph_forward b s : fwd loop_graph b s -> b < s.
Proof. intros H. edge_cases H; set_unfold in H; naive_solver lia. Qed.

Lemma loop_graph_back b h : back loop_graph b h -> b = 6 /\ h = 1.
Proof. intros H. edge_cases H; simpl in H; try done. by injection H as <-. Qed.

Lemma loop_graph_reducible : reducible loop_graph 0.
Proof.
  constructor.
  - exists Z.to_nat. intros b s [p Hp] Hf. apply loop_graph_forward in Hf.
    assert (0 <= b); [|lia]. clear Hf. destruct Hp as [|p b s' _ Hs]; [done|].
    apply loop_graph_pred in Hs. lia.
  - intros b h _ Hb. apply loop_graph_back in Hb as [-> ->]. intros p Hp.
    inversion Hp as [|p1 b1 ? H1 S1]; subst. apply loop_graph_pred in S1. 
    assert (Hm : forall m q, m = 4 \/ m = 5 -> path loop_graph 0 q m -> 1 ∈ q).
    { intros m q Hm Hq. inversion Hq as [|p2 b2 ? H2 S2]; subst; [lia|]. apply loop_graph_pred in S2. 
      assert (b2 = 2) as -> by lia. inversion H2 as [|p3 b3 ? H3 S3]; subst. apply loop_graph_pred in S3.
      assert (b3 = 1) as -> by lia. apply path_head in H3. set_solver. }
    assert (1 ∈ p1) by (apply (Hm b1); [lia | done]). set_solver.
Qed.

Lemma reloop_well_scoped_witness :
  exists s, reloop loop_graph = Ok s /\ free_labels s = ∅ /\ NoDup (emitted s) /\
    forall b, b ∈ emitted s <-> reach loop_graph 0 b.
Proof. apply reloop_well_scoped; [exact loop_graph_well_formed | exact loop_graph_reducible]. Defined.

Lemma reloop_preserves_meaning_witness :
  exists s, reloop loop_graph = Ok s /\
    forall (St R : Type) (M : Machine St R) st r,
      (exists n, run_cfg loop_graph n 0 st = Some r) <-> (exists m, run_tree loop_graph m s st = Some (Done r)).
Proof. apply reloop_preserves_meaning; [exact loop_graph_well_formed | exact loop_graph_reducible]. Defined.

(** A graph with a cycle of jumps. *)
Definition jump_cycle : IrFunction :=
  with_blocks [plain_block 0 (Jump 1); plain_block 1 (Jump 0)] (IrFunction_new None None).

Lemma reloop_error_sound_witness :
  exists b0 rest, blocks jump_cycle = b0 :: rest /\ ~ reducible jump_cycle (block_id b0).
Proof.
  apply (reloop_error_sound jump_cycle (Irreducible 1 0)); [|vm_compute; reflexivity].
  apply (bool_decide_unpack _). vm_compute. exact I.
Defined.
