(* ===== verification/Gas.v ===== *)
(** Execution credits (crates/cljrs-env/src/gas.rs).

    Meters are shared objects: the same meter may be installed more than once,
    so a scope refers to its meter by identity. *)
From stdpp Require Import gmap.
From S2P Require Import Prelude RustStd.
Local Open Scope Z_scope.

Abbreviation meter := nat.

Record Gas : Type := mkGas {
  remaining : meter -> Z;
  active : list meter;
  exhausted : list bool
}.

Definition set_remaining (m : meter) (n : Z) (g : Gas) : Gas :=
  mkGas (fun k => if decide (k = m) then n else remaining g k) (active g) (exhausted g).

(** [GasMeter::charge]: [remaining.checked_sub(cost)]. *)
Definition meter_charge (m : meter) (cost : Z) (g : Gas) : bool * Gas :=
  if remaining g m <? cost then (false, g) else (true, set_remaining m (remaining g m - cost) g).

(** [GasGuard::install] and the drop of the guard. *)
Definition install (m : meter) (g : Gas) : Gas := mkGas (remaining g) (active g ++ [m]) (exhausted g ++ [false]).

Definition uninstall (g : Gas) : Gas := mkGas (remaining g) (removelast (active g)) (removelast (exhausted g)).

Definition install_meters (ms : list meter) (g : Gas) : Gas := fold_left (fun g m => install m g) ms g.

Definition is_exhausted (g : Gas) : bool := existsb id (exhausted g).

Definition take_exhausted (g : Gas) : bool * Gas :=
  (is_exhausted g, mkGas (remaining g) (active g) (map (fun _ => false) (exhausted g))).

(** [active.iter().all(|meter| meter.charge(cost))] *)
Fixpoint charge_all (ms : list meter) (cost : Z) (g : Gas) : bool * Gas :=
  match ms with
  | [] => (true, g)
  | m :: ms' =>
      let '(ok, g') := meter_charge m cost g in
      if ok : bool then charge_all ms' cost g' else (false, g')
  end.

(** The flags of the scopes whose meter cannot pay. *)
Fixpoint mark_exhausted (ms : list meter) (cost : Z) (g : Gas) (flags : list bool) : list bool :=
  match ms, flags with
  | m :: ms', x :: flags' => (if remaining g m <? cost then true else x) :: mark_exhausted ms' cost g flags'
  | _, _ => flags
  end.

Definition charge (cost : Z) (g : Gas) : bool * Gas :=
  if is_exhausted g then (false, g)
  else
    let '(charged, g') :=
      match active g with
      | [] => (true, g)
      | ms =>
          if existsb (fun m => remaining g m <? cost) ms then (false, g) else charge_all ms cost g
      end in
    if charged : bool then (true, g')
    else (false, mkGas (remaining g') (active g') (mark_exhausted (active g') cost g' (exhausted g'))).

(** * Properties *)

(** Every scope has its flag, and budgets are not negative. *)
Record gas_ok (g : Gas) : Prop := {
  go_flags : length (exhausted g) = length (active g);
  go_budget m : 0 <= remaining g m
}.

Lemma mark_exhausted_length ms cost g flags : length (mark_exhausted ms cost g flags) = length flags.
Proof. revert flags. induction ms as [|m ms IH]; intros [|x flags]; simpl; auto. Qed.

Lemma mark_exhausted_some ms cost g flags m :
  length flags = length ms -> m ∈ ms -> remaining g m < cost -> existsb id (mark_exhausted ms cost g flags) = true.
Proof.
  revert flags. induction ms as [|k ms IH]; intros [|x flags] Hl Hm Hc; simpl in *; try done; [set_solver|].
  apply elem_of_cons in Hm as [->|Hm].
  - apply Z.ltb_lt in Hc. by rewrite Hc.
  - rewrite (IH flags) by (done || lia). by rewrite orb_true_r.
Qed.

Lemma charge_all_ok ms cost g :
  NoDup ms -> 0 <= cost -> (forall m, m ∈ ms -> cost <= remaining g m) ->
  let '(ok, g') := charge_all ms cost g in
  ok = true /\ active g' = active g /\ exhausted g' = exhausted g /\
  forall m, remaining g' m = if decide (m ∈ ms) then remaining g m - cost else remaining g m.
Proof.
  revert g. induction ms as [|m ms IH]; intros g Hnd Hc Hr; simpl.
  { split_and!; done. }
  apply NoDup_cons in Hnd as [Hm Hnd]. unfold meter_charge.
  destruct (Z.ltb_spec (remaining g m) cost) as [Hlt|_]; [specialize (Hr m ltac:(set_solver)); lia|].
  specialize (IH (set_remaining m (remaining g m - cost) g) Hnd Hc).
  destruct (charge_all ms cost _) as [ok g']. destruct IH as (-> & -> & -> & Hrem).
  { intros k Hk. simpl. rewrite decide_False by congruence. apply Hr. set_solver. }
  split_and!; try done. intros k. rewrite Hrem. simpl. destruct (decide (k = m)) as [->|Hkm].
  - rewrite decide_False by done. rewrite decide_True by set_solver. done.
  - destruct (decide (k ∈ ms)); [rewrite decide_True by set_solver | rewrite decide_False by set_solver]; done.
Qed.

Lemma charge_spec g cost :
  gas_ok g -> NoDup (active g) -> 0 <= cost ->
  let '(ok, g') := charge cost g in
  gas_ok g' /\ active g' = active g /\
  if ok : bool then
    is_exhausted g' = false /\
    forall m, remaining g' m = if decide (m ∈ active g) then remaining g m - cost else remaining g m
  else is_exhausted g' = true /\ forall m, remaining g' m = remaining g m.
Proof.
  intros [Hf Hb] Hnd Hc. unfold charge. destruct (is_exhausted g) eqn:Ex; [done|].
  destruct (active g) as [|a ms] eqn:Ea.
  { split_and!; [by constructor; [rewrite Ea|] | by rewrite Ea | done |]. intros m. rewrite decide_False by set_solver. done. }
  destruct (existsb _ (a :: ms)) eqn:Eb.
  - apply existsb_exists in Eb as (m & Hm & Hlt). apply list_elem_of_In in Hm. apply Z.ltb_lt in Hlt. rewrite Ea.
    split_and!; [constructor; cbn [active exhausted remaining]; [by rewrite mark_exhausted_length | done] | done | | done].
    eapply mark_exhausted_some; done.
  - pose proof (charge_all_ok (a :: ms) cost g Hnd Hc) as Hall. destruct (charge_all (a :: ms) cost g) as [ok g'].
    destruct Hall as (-> & Ha & He & Hrem).
    { intros m Hm. destruct (Z.ltb_spec (remaining g m) cost) as [Hlt|]; [|done]. exfalso.
      apply Z.ltb_lt in Hlt. apply not_true_iff_false in Eb. apply Eb, existsb_exists. exists m.
      split; [by apply list_elem_of_In | done]. }
    split_and!; [|by rewrite Ha | | done].
    + constructor; [by rewrite Ha, He, Ea|]. intros m. rewrite Hrem. case_decide as Hm; [|auto].
      destruct (Z.ltb_spec (remaining g m) cost) as [Hlt|]; [|lia]. exfalso.
      apply Z.ltb_lt in Hlt. apply not_true_iff_false in Eb. apply Eb, existsb_exists. exists m.
      split; [by apply list_elem_of_In | done].
    + unfold is_exhausted. by rewrite He.
Qed.

(** A charge is all or nothing over nested scopes of different meters: a
    successful one takes the cost from every installed meter and from no
    other; a failed one takes nothing and leaves the scopes exhausted, so that
    every later charge in them fails too. *)
Theorem charge_all_or_nothing g cost :
  gas_ok g -> NoDup (active g) -> 0 <= cost ->
  let '(ok, g') := charge cost g in
  gas_ok g' /\ active g' = active g /\
  if ok : bool then
    is_exhausted g' = false /\
    forall m, remaining g' m = if decide (m ∈ active g) then remaining g m - cost else remaining g m
  else is_exhausted g' = true /\ forall m, remaining g' m = remaining g m.
Proof. exact (charge_spec g cost). Qed.

Definition two_scopes : Gas := install_meters [0; 1]%nat (mkGas (fun m => if decide (m = 0%nat) then 5 else 3) [] []).

Lemma charge_all_or_nothing_witness :
  let '(ok, g') := charge 3 two_scopes in
  gas_ok g' /\ active g' = active two_scopes /\
  if ok : bool then
    is_exhausted g' = false /\
    forall m, remaining g' m = if decide (m ∈ active two_scopes) then remaining two_scopes m - 3 else remaining two_scopes m
  else is_exhausted g' = true /\ forall m, remaining g' m = remaining two_scopes m.
Proof.
  apply (charge_all_or_nothing two_scopes 3).
  - constructor; [reflexivity|]. intros m. simpl. destruct (decide (m = 0%nat)); lia.
  - apply (bool_decide_unpack _). vm_compute. exact I.
  - lia.
Defined.

(** A meter installed twice can be charged although the charge fails. *)
Example aliased_meter_partly_charged :
  let g := install_meters [0; 0]%nat (mkGas (fun _ => 5) [] []) in
  (charge 3 g).1 = false /\ remaining (charge 3 g).2 0%nat = 2.
Proof. vm_compute. split; reflexivity. Qed.
