(* ===== verification/IrInterp.v ===== *)
(** The IR interpreter (crates/cljrs-eval/src/ir_interp.rs): registers, phi
    resolution, every instruction, the block loop with its gas and interrupt
    checkpoints.  Values, the namespaces, the allocator and the functions of the
    runtime that instructions call are the operations of [InterpHost].  An
    evaluation that ends in an error keeps no state.  There is no on-stack
    replacement, as under [interpret_ir].

    The IR interpreter on concrete functions, over a small set of values. *)
From stdpp Require Import strings gmap.
From S2P Require Import Prelude RustStd Token Ir Gas.
Local Open Scope Z_scope.

(** Values. *)
Class Runtime (V : Type) : Type := {
  v_nil : V;
  is_truthy : V -> bool
}.

(** [OtherError] is what the operations of the host may fail with besides. *)
Inductive EvalError (V X : Type) : Type :=
| Interrupted
| GasExhausted
| RuntimeError (msg : list Z)
| Thrown (v : V)
| Recur (vs : list V)
| OtherError (e : X).
Arguments Interrupted {V X}.
Arguments GasExhausted {V X}.
Arguments RuntimeError {V X} msg.
Arguments Thrown {V X} v.
Arguments Recur {V X} vs.
Arguments OtherError {V X} e.

(** What an evaluation changes besides its registers. *)
Record World (H : Type) : Type := mkWorld {
  gas : Gas;
  interrupt : bool;
  heap : H
}.
Arguments mkWorld {H} gas interrupt heap.
Arguments gas {H} w.
Arguments interrupt {H} w.
Arguments heap {H} w.

(** A computation of the runtime. *)
Definition Eval (V H X A : Type) : Type := World H -> outcome (EvalError V X) (A * World H).

(** What collections are made of. *)
Inductive Collection (V : Type) : Type :=
| CoVector (items : list V)
| CoMap (kv : list (V * V))
| CoSet (items : list V)
| CoList (items : list V)
| CoCons (head tail : V).
Arguments CoVector {V} items.
Arguments CoMap {V} kv.
Arguments CoSet {V} items.
Arguments CoList {V} items.
Arguments CoCons {V} head tail.

(** The operations an instruction calls.  [RP] is the type of region pointers;
    names are resolved in the namespace of the evaluation.  [region_alloc_val] makes
    a value in the region given, or in the innermost one. *)
Class InterpHost (V H X RP : Type) : Type := {
  const_to_value : Const -> Eval V H X V;
  env_lookup : list Z -> World H -> option V;
  load_global_value : list Z -> list Z -> Eval V H X V;
  resolve_alias : list Z -> World H -> list Z;
  lookup_var_in_ns : list Z -> list Z -> World H -> option V;
  alloc_heap : Collection V -> Eval V H X V;
  region_alloc_val : option RP -> Collection V -> Eval V H X V;
  alloc_closure : ClosureTemplate -> list V -> IrFunction -> Eval V H X V;
  gc_safepoint : Eval V H X unit;
  dispatch_known_fn : KnownFn -> list V -> Eval V H X V;
  dispatch_or_sentinel : V -> list V -> Eval V H X V;
  dispatch_sentinel_by_name : list Z -> list V -> Eval V H X V;
  deref_value : V -> Eval V H X V;
  var_new : list Z -> list Z -> V -> Eval V H X V;
  is_var : V -> bool;
  set_var : V -> V -> Eval V H X unit;
  region_open : Eval V H X RP;
  region_close : RP -> Eval V H X unit;
  has_async_runtime : World H -> bool;
  spawn_async_call : V -> list V -> Eval V H X V;
  chan_take_blocking : V -> Eval V H X V;
  chan_put_blocking : V -> V -> Eval V H X unit
}.

(** [RegionFrame]: the scopes this call opened, the last first, and the regions
    bound to variables, the latest first. *)
Record RegionFrame (RP : Type) : Type := mkFrame {
  rf_stack : list RP;
  rf_handles : list (VarId * RP);
  rf_inherited : option RP
}.
Arguments mkFrame {RP} rf_stack rf_handles rf_inherited.
Arguments rf_stack {RP} r.
Arguments rf_handles {RP} r.
Arguments rf_inherited {RP} r.

Section Interp.
Context {V H X RP : Type} {RT : Runtime V} {HS : InterpHost V H X RP}.

(** * Registers *)

Abbreviation Registers := (list (option V)).
Abbreviation result A := (outcome (EvalError V X) A).
Abbreviation Frame := (RegionFrame RP).
Abbreviation Ev A := (Eval V H X A).

Definition Registers_new (capacity : Z) : Registers := replicate (Z.to_nat capacity) None.

Definition reg_get (regs : Registers) (id : VarId) : result V :=
  match regs !! Z.to_nat id with
  | Some (Some v) => Ok v
  | _ => Panic
  end.

Definition reg_set (regs : Registers) (id : VarId) (v : V) : result Registers :=
  if (Z.to_nat id <? length regs)%nat then Ok (<[Z.to_nat id := Some v]> regs) else Panic.

Fixpoint reg_gets (regs : Registers) (ids : list VarId) : result (list V) :=
  match ids with
  | [] => Ok []
  | id :: ids' => v ← reg_get regs id; vs ← reg_gets regs ids'; Ok (v :: vs)
  end.

(** Parameters without an argument are nil. *)
Fixpoint bind_params (ps : list (list Z * VarId)) (args : list V) (regs : Registers) : result Registers :=
  match ps with
  | [] => Ok regs
  | (_, v) :: ps' =>
      regs' ← reg_set regs v (hd v_nil args);
      bind_params ps' (tl args) regs'
  end.

(** ** Phi nodes *)

Definition phi_source (prev : BlockId) (entries : list (BlockId * VarId)) : option VarId :=
  snd <$> find (fun e => e.1 =? prev) entries.

(** The loop over the phis of a block. *)
Fixpoint resolve_phis (prev : BlockId) (ps : list Inst) (regs : Registers) : result Registers :=
  match ps with
  | [] => Ok regs
  | IPhi d entries :: ps' =>
      match phi_source prev entries with
      | Some src =>
          v ← reg_get regs src;
          regs' ← reg_set regs d v;
          resolve_phis prev ps' regs'
      | None => resolve_phis prev ps' regs
      end
  | _ :: ps' => resolve_phis prev ps' regs
  end.

(** * Instructions *)

Definition rf_bind (v : VarId) (r : RP) (fr : Frame) : Frame := mkFrame (rf_stack fr) ((v, r) :: rf_handles fr) (rf_inherited fr).

Definition rf_lookup (v : VarId) (fr : Frame) : option RP := snd <$> find (fun h => h.1 =? v) (rf_handles fr).

(** A key without its value is an index out of range. *)
Fixpoint reg_pairs (regs : Registers) (ids : list VarId) : result (list (V * V)) :=
  match ids with
  | [] => Ok []
  | [_] => Panic
  | k :: v :: ids' => kv ← reg_get regs k; vv ← reg_get regs v; rest ← reg_pairs regs ids'; Ok ((kv, vv) :: rest)
  end.

(** Maps and sets are made on the heap. *)
Definition alloc_in_region (kind : RegionAllocKind) (operands : list VarId) (regs : Registers) (target : option RP) : Ev V := fun w =>
  match kind with
  | RkVector => items ← reg_gets regs operands; region_alloc_val target (CoVector items) w
  | RkMap => kv ← reg_pairs regs operands; alloc_heap (CoMap kv) w
  | RkSet => items ← reg_gets regs operands; alloc_heap (CoSet items) w
  | RkList => items ← reg_gets regs operands; region_alloc_val target (CoList items) w
  | RkCons =>
      match operands with
      | [h; t] => hv ← reg_get regs h; tv ← reg_get regs t; region_alloc_val target (CoCons hv tv) w
      | _ => Ok (v_nil, w)
      end
  end.

(** [regs.set] of the value of a computation. *)
Definition set_from (d : VarId) (c : result (V * World H)) (regs : Registers) (fr : Frame) : result (Registers * Frame * World H) :=
  r ← c; regs' ← reg_set regs d r.1; Ok (regs', fr, r.2).

(** A safepoint, then what follows it. *)
Definition after_safepoint {A : Type} (c : Ev A) : Ev A := fun w => r ← gc_safepoint w; c r.2.

Definition find_subfunction (f : IrFunction) (name : list Z) : option IrFunction :=
  find (fun sf => bool_decide (fn_name sf = Some name)) (subfunctions f).

Definition no_runtime {A : Type} (what : string) : result A := Err (RuntimeError (lit what)).

(** [interpret] runs a subfunction in a region of this call. *)
Definition execute_inst (interpret : IrFunction -> list V -> option RP -> Ev V) (f : IrFunction) (i : Inst)
    (regs : Registers) (fr : Frame) (w : World H) : result (Registers * Frame * World H) :=
  match i with
  | IConst d c => set_from d (const_to_value c w) regs fr
  | ILoadLocal d name =>
      match env_lookup name w with
      | Some v => set_from d (Ok (v, w)) regs fr
      | None => Err (RuntimeError (lit "IR interpreter: unbound local '" ++ name ++ lit "'"))
      end
  | ILoadGlobal d gns name => set_from d (load_global_value gns name w) regs fr
  | ILoadVar d gns name =>
      let resolved_ns := resolve_alias gns w in
      match lookup_var_in_ns resolved_ns name w with
      | Some v => set_from d (Ok (v, w)) regs fr
      | None => Err (RuntimeError (lit "IR interpreter: var not found " ++ resolved_ns ++ lit "/" ++ name))
      end
  | IAllocVector d elems => items ← reg_gets regs elems; set_from d (alloc_heap (CoVector items) w) regs fr
  | IAllocMap d pairs => kv ← reg_pairs regs (pairs ≫= fun p => [p.1; p.2]); set_from d (alloc_heap (CoMap kv) w) regs fr
  | IAllocSet d elems => items ← reg_gets regs elems; set_from d (alloc_heap (CoSet items) w) regs fr
  | IAllocList d elems => items ← reg_gets regs elems; set_from d (alloc_heap (CoList items) w) regs fr
  | IAllocCons d h t => hv ← reg_get regs h; tv ← reg_get regs t; set_from d (alloc_heap (CoCons hv tv) w) regs fr
  | IAllocClosure d template captures => vs ← reg_gets regs captures; set_from d (alloc_closure template vs f w) regs fr
  | ICallKnown d known args =>
      set_from d (after_safepoint (fun w => vs ← reg_gets regs args; dispatch_known_fn known vs w) w) regs fr
  | ICall d callee args =>
      set_from d (after_safepoint (fun w => c ← reg_get regs callee; vs ← reg_gets regs args; dispatch_or_sentinel c vs w) w) regs fr
  | ICallDirect d name args =>
      set_from d (after_safepoint (fun w => vs ← reg_gets regs args; dispatch_sentinel_by_name name vs w) w) regs fr
  | IDeref d src => v ← reg_get regs src; set_from d (deref_value v w) regs fr
  | IDefVar d def_ns name val => v ← reg_get regs val; set_from d (var_new def_ns name v w) regs fr
  | ISetBang var val =>
      var_val ← reg_get regs var;
      new_val ← reg_get regs val;
      if is_var var_val then r ← set_var var_val new_val w; Ok (regs, fr, r.2)
      else Err (RuntimeError (lit "set! target is not a Var"))
  | IThrow val => v ← reg_get regs val; Err (Thrown v)
  | IPhi _ _ => Ok (regs, fr, w)
  | IRecur args => vs ← reg_gets regs args; Err (Recur vs)
  | ISourceLoc _ => Ok (regs, fr, w)
  | IRegionStart d =>
      r ← region_open w;
      regs' ← reg_set regs d v_nil;
      Ok (regs', rf_bind d r.1 (mkFrame (r.1 :: rf_stack fr) (rf_handles fr) (rf_inherited fr)), r.2)
  | IRegionAlloc d region kind operands => set_from d (alloc_in_region kind operands regs (rf_lookup region fr) w) regs fr
  | IRegionEnd _ =>
      match rf_stack fr with
      | [] => Ok (regs, fr, w)
      | r :: rest => c ← region_close r w; Ok (regs, mkFrame rest (rf_handles fr) (rf_inherited fr), c.2)
      end
  | IRegionParam d =>
      regs' ← reg_set regs d v_nil;
      Ok (regs', match rf_inherited fr with Some r => rf_bind d r fr | None => fr end, w)
  | ICallWithRegion d name args region =>
      set_from d (after_safepoint (fun w =>
        match find_subfunction f name with
        | None => Err (RuntimeError (lit "IR interpreter: CallWithRegion target " ++ name ++ lit " not found in subfunctions"))
        | Some target => vs ← reg_gets regs args; interpret target vs (rf_lookup region fr) w
        end) w) regs fr
  | IAwait src d => v ← reg_get regs src; set_from d (deref_value v w) regs fr
  | ISpawn fn_reg args d =>
      callee ← reg_get regs fn_reg;
      vs ← reg_gets regs args;
      if has_async_runtime w then set_from d (spawn_async_call callee vs w) regs fr
      else no_runtime "IR interpreter: Spawn instruction requires async runtime (cljrs-async)"
  | IChanTake chan d =>
      c ← reg_get regs chan;
      if has_async_runtime w then set_from d (chan_take_blocking c w) regs fr
      else no_runtime "IR interpreter: ChanTake requires async runtime (cljrs-async)"
  | IChanPut chan val =>
      c ← reg_get regs chan;
      v ← reg_get regs val;
      if has_async_runtime w then r ← chan_put_blocking c v w; Ok (regs, fr, r.2)
      else no_runtime "IR interpreter: ChanPut requires async runtime (cljrs-async)"
  | IStateStore _ _ | IStateLoad _ _ | IAsyncSuspend _ _ _ | IAsyncResume _ _ =>
      Err (RuntimeError (lit "IR interpreter: async state-machine instructions are compile-only"))
  end.

(** ** The block loop *)

(** [interrupt::take] *)
Definition take_interrupt (w : World H) : bool * World H := (interrupt w, mkWorld (gas w) false (heap w)).

Definition charge_gas (cost : Z) (w : World H) : bool * World H :=
  let '(ok, g) := charge cost (gas w) in (ok, mkWorld g (interrupt w) (heap w)).

Fixpoint execute_insts (interpret : IrFunction -> list V -> option RP -> Ev V) (f : IrFunction) (is_ : list Inst)
    (regs : Registers) (fr : Frame) (w : World H) : result (Registers * Frame * World H) :=
  match is_ with
  | [] => Ok (regs, fr, w)
  | i :: is' =>
      r ← execute_inst interpret f i regs fr w;
      execute_insts interpret f is' r.1.1 r.1.2 r.2
  end.

Definition block_cost (b : Block) : Z := Z.of_nat (length (phis b) + length (insts b) + 1).

(** [IrFunction::block_index] *)
Definition is_identity (f : IrFunction) : bool :=
  forallb (fun p => block_id p.2 =? Z.of_nat p.1) (imap pair (blocks f)).

Definition block_index (f : IrFunction) : option (list nat) :=
  if is_identity f then None
  else
    let max_id := fold_left (fun m b => Z.max m (block_id b)) (blocks f) 0 in
    Some (foldl (fun table p => <[Z.to_nat (block_id p.2) := p.1]> table)
            (replicate (Z.to_nat max_id + 1) O) (imap pair (blocks f))).

Definition resolve (table : option (list nat)) (b : BlockId) : result nat :=
  match table with
  | Some t => match t !! Z.to_nat b with Some i => Ok i | None => Panic end
  | None => Ok (Z.to_nat b)
  end.

(** The drop of a frame: the scopes that are still open, the first opened first. *)
Fixpoint close_all (rs : list RP) : Ev unit := fun w =>
  match rs with
  | [] => Ok ((), w)
  | r :: rs' => c ← region_close r w; close_all rs' c.2
  end.

Definition u32_max_id : BlockId := 2 ^ 32 - 1.

(** The block loop; a call with a region starts one of its own. *)
Fixpoint interp_loop (fuel : nat) (f : IrFunction) (table : option (list nat)) (regs : Registers) (fr : Frame) (w : World H)
    (prev : BlockId) (current : nat) : result (V * World H) :=
  match fuel with
  | O => OutOfFuel
  | S fuel' =>
      let interpret_ir_inner f args inherited w :=
        r ← gc_safepoint w;
        regs ← bind_params (params f) args (Registers_new (next_var f));
        interp_loop fuel' f (block_index f) regs (mkFrame [] [] inherited) r.2 u32_max_id 0 in
      match blocks f !! current with
      | None => Panic
      | Some block =>
          let '(stop, w) := take_interrupt w in
          if stop : bool then Err Interrupted
          else
            let '(ok, w) := charge_gas (block_cost block) w in
            if negb ok then Err GasExhausted
            else
              regs ← resolve_phis prev (phis block) regs;
              r ← execute_insts interpret_ir_inner f (insts block) regs fr w;
              let '(regs, fr, w) := r in
              match terminator block with
              | Return v => v ← reg_get regs v; c ← close_all (reverse (rf_stack fr)) w; Ok (v, c.2)
              | Jump target =>
                  next ← resolve table target;
                  interp_loop fuel' f table regs fr w (block_id block) next
              | Branch cond then_block else_block =>
                  c ← reg_get regs cond;
                  next ← resolve table (if is_truthy c then then_block else else_block);
                  interp_loop fuel' f table regs fr w (block_id block) next
              | RecurJump target _ =>
                  r ← gc_safepoint w;
                  next ← resolve table target;
                  interp_loop fuel' f table regs fr r.2 (block_id block) next
              | Unreachable => Err (RuntimeError (lit "IR interpreter: reached unreachable"))
              end
      end
  end.

(** [interpret_ir_inner] without on-stack replacement. *)
Definition interpret_ir_inner (fuel : nat) (f : IrFunction) (args : list V) (inherited : option RP) (w : World H) : result (V * World H) :=
  r ← gc_safepoint w;
  regs ← bind_params (params f) args (Registers_new (next_var f));
  interp_loop fuel f (block_index f) regs (mkFrame [] [] inherited) r.2 u32_max_id 0.

Definition interpret_ir (fuel : nat) (f : IrFunction) (args : list V) (w : World H) : result (V * World H) :=
  interpret_ir_inner fuel f args None w.

(** * Metered evaluation ends *)

(** An evaluation under a meter: the meters in scope are distinct. *)
Definition metered (m : meter) (g : Gas) : Prop := gas_ok g /\ NoDup (active g) /\ m ∈ active g.

(** A computation that returns, leaves the scopes of meters as they are and gives no
    credits back. *)
Definition spends (m : meter) (w w' : World H) : Prop := metered m (gas w') /\ remaining (gas w') m <= remaining (gas w) m.

Definition fair_at {A : Type} (m : meter) (w : World H) (r : result (A * World H)) : Prop :=
  match r with
  | Ok a => spends m w a.2
  | OutOfFuel => False
  | _ => True
  end.

Definition fair {A : Type} (c : Ev A) : Prop := forall m w, metered m (gas w) -> fair_at m w (c w).

(** The operations of the host do. *)
Record fair_host : Prop := {
  fair_const c : fair (const_to_value c);
  fair_global ns name : fair (load_global_value ns name);
  fair_heap c : fair (alloc_heap c);
  fair_region r c : fair (region_alloc_val r c);
  fair_closure t vs f : fair (alloc_closure t vs f);
  fair_safepoint : fair gc_safepoint;
  fair_known k vs : fair (dispatch_known_fn k vs);
  fair_call c vs : fair (dispatch_or_sentinel c vs);
  fair_direct name vs : fair (dispatch_sentinel_by_name name vs);
  fair_deref v : fair (deref_value v);
  fair_var ns name v : fair (var_new ns name v);
  fair_set x v : fair (set_var x v);
  fair_open : fair region_open;
  fair_close r : fair (region_close r);
  fair_spawn c vs : fair (spawn_async_call c vs);
  fair_take c : fair (chan_take_blocking c);
  fair_put c v : fair (chan_put_blocking c v)
}.

Lemma spends_refl m w : metered m (gas w) -> spends m w w.
Proof. intros Hm. split; [done|lia]. Qed.

Lemma fair_at_bind {A B : Type} m w (c : result (A * World H)) (k : A * World H -> result (B * World H)) :
  fair_at m w c -> (forall a w', spends m w w' -> fair_at m w' (k (a, w'))) -> fair_at m w (r ← c; k r).
Proof.
  intros Hc Hk. destruct c as [[a w']| | |]; try done. cbn [mbind outcome_bind fair_at] in *. specialize (Hk a w' Hc). destruct Hc as [_ Hc].
  destruct (k (a, w')) as [[b w2]| | |]; try done. destruct Hk as [Hm Hr]. cbn in *. split; [done|lia].
Qed.

Definition quiet {A : Type} (r : result A) : Prop := r <> OutOfFuel.

Lemma fair_at_quiet {A B : Type} m w (c : result A) (k : A -> result (B * World H)) :
  quiet c -> (forall a, c = Ok a -> fair_at m w (k a)) -> fair_at m w (r ← c; k r).
Proof. intros Hc Hk. destruct c as [a| | |]; try done. by apply Hk. Qed.

Lemma quiet_bind {A B : Type} (c : result A) (k : A -> result B) : quiet c -> (forall a, quiet (k a)) -> quiet (r ← c; k r).
Proof. intros Hc Hk. destruct c as [a| | |]; try done. apply Hk. Qed.

Lemma reg_get_quiet regs id : quiet (reg_get regs id).
Proof. unfold reg_get. by destruct (regs !! Z.to_nat id) as [[v|]|]. Qed.

Lemma reg_set_quiet regs id v : quiet (reg_set regs id v).
Proof. unfold reg_set. by destruct (_ <? _)%nat. Qed.

Lemma reg_gets_quiet regs ids : quiet (reg_gets regs ids).
Proof. induction ids as [|id ids IH]; cbn; [done|]. apply quiet_bind; [apply reg_get_quiet|]. intros v. apply quiet_bind; [done|]. done. Qed.

Lemma reg_pairs_quiet_le n regs ids : (length ids <= n)%nat -> quiet (reg_pairs regs ids).
Proof.
  revert ids. induction n as [|n IH]; intros [|k [|v ids]] Hn; cbn in *; try done; [lia|]. apply quiet_bind; [apply reg_get_quiet|]. intros kv.
  apply quiet_bind; [apply reg_get_quiet|]. intros vv. apply quiet_bind; [apply IH; lia|]. done.
Qed.

Lemma reg_pairs_quiet regs ids : quiet (reg_pairs regs ids).
Proof. by apply (reg_pairs_quiet_le (length ids)). Qed.

Lemma bind_params_quiet ps as_ regs : quiet (bind_params ps as_ regs).
Proof. revert as_ regs. induction ps as [|[nm v] ps IH]; intros as_ regs; cbn; [done|]. apply quiet_bind; [apply reg_set_quiet|]. intros r. apply IH. Qed.

Lemma resolve_phis_quiet prev ps regs : quiet (resolve_phis prev ps regs).
Proof.
  revert regs. induction ps as [|i ps IH]; intros regs; cbn; [done|].
  destruct i; try apply IH. destruct (phi_source prev entries) as [src|]; [|apply IH].
  apply quiet_bind; [apply reg_get_quiet|]. intros v. apply quiet_bind; [apply reg_set_quiet|]. intros r. apply IH.
Qed.

Lemma resolve_quiet table b : quiet (resolve table b).
Proof. unfold resolve. destruct table as [t|]; [by destruct (t !! _)|done]. Qed.

Lemma set_from_fair m w d c regs fr : fair_at m w c -> fair_at m w (set_from d c regs fr).
Proof. intros Hc. apply fair_at_bind; [done|]. intros v w' Hw. apply fair_at_quiet; [apply reg_set_quiet|]. intros r _. apply spends_refl, Hw. Qed.

Lemma spends_bound m w w' n : spends m w w' -> remaining (gas w) m < n -> remaining (gas w') m < n.
Proof. intros [_ Hr] Hn. lia. Qed.

(** * Instructions are fair *)

Section Fair.
Context (Hh : fair_host).

Lemma after_safepoint_fair {A : Type} m w (c : Ev A) :
  metered m (gas w) -> (forall w', spends m w w' -> fair_at m w' (c w')) -> fair_at m w (after_safepoint c w).
Proof using Hh. intros Hm Hc. apply fair_at_bind; [by apply Hh|]. intros [] w' Hw. by apply Hc. Qed.

Lemma alloc_in_region_fair m w kind operands regs target : metered m (gas w) -> fair_at m w (alloc_in_region kind operands regs target w).
Proof using Hh.
  intros Hm. unfold alloc_in_region. destruct kind.
  - apply fair_at_quiet; [apply reg_gets_quiet|]. intros vs _. by apply Hh.
  - apply fair_at_quiet; [apply reg_pairs_quiet|]. intros vs _. by apply Hh.
  - apply fair_at_quiet; [apply reg_gets_quiet|]. intros vs _. by apply Hh.
  - apply fair_at_quiet; [apply reg_gets_quiet|]. intros vs _. by apply Hh.
  - destruct operands as [|h [|t [|? ?]]]; try by apply spends_refl.
    apply fair_at_quiet; [apply reg_get_quiet|]. intros hv _. apply fair_at_quiet; [apply reg_get_quiet|]. intros tv _. by apply Hh.
Qed.

Ltac fair_step :=
  match goal with
  | |- fair_at _ _ (set_from _ _ _ _) => apply set_from_fair
  | |- fair_at _ _ (after_safepoint _ _) => apply after_safepoint_fair; [done|intros ? [? ?]]
  | |- fair_at _ _ (mbind _ (reg_get _ _)) => apply fair_at_quiet; [apply reg_get_quiet|intros ? _]
  | |- fair_at _ _ (mbind _ (reg_set _ _ _)) => apply fair_at_quiet; [apply reg_set_quiet|intros ? _]
  | |- fair_at _ _ (mbind _ (reg_gets _ _)) => apply fair_at_quiet; [apply reg_gets_quiet|intros ? _]
  | |- fair_at _ _ (mbind _ (reg_pairs _ _)) => apply fair_at_quiet; [apply reg_pairs_quiet|intros ? _]
  | |- fair_at _ _ (mbind _ _) => apply fair_at_bind; [by apply Hh|intros ? ? [? ?]]
  | |- fair_at _ _ (Ok _) => by apply spends_refl
  | |- fair_at _ _ (Err _) => exact I
  | |- fair_at _ _ (no_runtime _) => exact I
  | |- fair_at _ _ (match ?x with _ => _ end) => destruct x
  | |- fair_at _ _ (alloc_in_region _ _ _ _ _) => by apply alloc_in_region_fair
  end.

Lemma execute_inst_fair m n interpret f i regs fr w :
  (forall g args r w, metered m (gas w) -> remaining (gas w) m < n -> fair_at m w (interpret g args r w)) ->
  metered m (gas w) -> remaining (gas w) m < n -> fair_at m w (execute_inst interpret f i regs fr w).
Proof using Hh.
  intros Hi Hm Hn. destruct i; cbn [execute_inst]; try (repeat fair_step; by apply Hh). repeat fair_step. apply Hi; [done|lia].
Qed.

Lemma execute_insts_fair m n interpret f is_ regs fr w :
  (forall g args r w, metered m (gas w) -> remaining (gas w) m < n -> fair_at m w (interpret g args r w)) ->
  metered m (gas w) -> remaining (gas w) m < n -> fair_at m w (execute_insts interpret f is_ regs fr w).
Proof using Hh.
  intros Hi. revert regs fr w. induction is_ as [|i is_ IH]; intros regs fr w Hm Hn; cbn [execute_insts]; [by apply spends_refl|].
  apply fair_at_bind; [by apply (execute_inst_fair m n)|]. intros [r fr'] w' Hw. apply IH; [apply Hw|by eapply spends_bound].
Qed.

Lemma close_all_fair m rs w : metered m (gas w) -> fair_at m w (close_all rs w).
Proof using Hh.
  revert w. induction rs as [|r rs IH]; intros w Hm; cbn [close_all]; [by apply spends_refl|]. apply fair_at_bind; [by apply Hh|]. intros [] w' [Hw _]. by apply IH.
Qed.

Lemma charge_gas_spends cost w m :
  metered m (gas w) -> 0 <= cost ->
  let '(ok, w') := charge_gas cost w in
  ok = true -> metered m (gas w') /\ remaining (gas w') m = remaining (gas w) m - cost.
Proof.
  intros (Hok & Hnd & Hm) Hc. unfold charge_gas. pose proof (charge_spec (gas w) cost Hok Hnd Hc) as Hch.
  destruct (charge cost (gas w)) as [ok g']. destruct Hch as (Hok' & Ha & Hrest). intros ->.
  destruct Hrest as [_ Hrem]. simpl. split; [split_and!; [done | by rewrite Ha | by rewrite Ha]|].
  rewrite Hrem. by rewrite decide_True.
Qed.

(** With credits below its fuel the loop is fair, the calls with a region in it
    included. *)
Lemma interp_loop_fair fuel f table regs fr w prev current m :
  metered m (gas w) -> remaining (gas w) m < Z.of_nat fuel -> fair_at m w (interp_loop fuel f table regs fr w prev current).
Proof using Hh.
  revert f table regs fr w prev current. induction fuel as [|fuel IH]; intros f table regs fr w prev current Hm Hf.
  { destruct Hm as ([_ Hb] & _). specialize (Hb m). lia. }
  cbn [interp_loop]. destruct (blocks f !! current) as [b|]; [|done]. destruct (take_interrupt w) as [stop w1] eqn:Et.
  injection Et as Hstop Hw1. destruct stop; [done|].
  assert (Hm1 : metered m (gas w1)) by (by rewrite <- Hw1).
  assert (Hg1 : remaining (gas w1) m = remaining (gas w) m) by (by rewrite <- Hw1).
  assert (Hc : 1 <= block_cost b) by (unfold block_cost; lia).
  pose proof (charge_gas_spends (block_cost b) w1 m Hm1 ltac:(lia)) as Hch.
  destruct (charge_gas (block_cost b) w1) as [[] w2]; [|done]. destruct (Hch eq_refl) as [Hm2 Hg2]. cbn [negb].
  assert (Hgoal : forall r : result (V * World H), fair_at m w2 r -> fair_at m w r).
  { intros [[v w3]| | |] Hr; try done. destruct Hr as [H1 H2]. split; [done|]. cbn in *. lia. }
  apply Hgoal. apply fair_at_quiet; [apply resolve_phis_quiet|]. intros r1 _. apply fair_at_bind.
  - apply (execute_insts_fair m (Z.of_nat fuel)); [|done|lia]. intros g args inh w3 Hm3 Hf3. apply fair_at_bind; [by apply Hh|]. intros [] w4 Hw4.
    apply fair_at_quiet; [apply bind_params_quiet|]. intros r2 _. apply IH; [apply Hw4|by eapply spends_bound].
  - intros [r2 fr2] w3 Hw3. assert (Hn3 : remaining (gas w3) m < Z.of_nat fuel) by (destruct Hw3; lia). destruct Hw3 as [Hm3 _].
    destruct (terminator b) as [t|c t e|v|t args|]; [| | | |done].
    + apply fair_at_quiet; [apply resolve_quiet|]. intros next _. by apply IH.
    + apply fair_at_quiet; [apply reg_get_quiet|]. intros x _. apply fair_at_quiet; [apply resolve_quiet|]. intros next _. by apply IH.
    + apply fair_at_quiet; [apply reg_get_quiet|]. intros x _. apply fair_at_bind; [by apply close_all_fair|]. intros [] w4 [Hw4 _]. by apply spends_refl.
    + apply fair_at_bind; [by apply Hh|]. intros [] w4 Hw4. apply fair_at_quiet; [apply resolve_quiet|]. intros next _. apply IH; [apply Hw4|by eapply spends_bound].
Qed.

End Fair.

(** * More fuel makes no difference *)

(** [r'] is what [r] is, unless [r] is unfinished. *)
Definition extends {A : Type} (r r' : result A) : Prop := r = OutOfFuel \/ r' = r.

Lemma extends_refl {A : Type} (r : result A) : extends r r.
Proof. by right. Qed.

Lemma extends_bind {A B : Type} (c c' : result A) (k k' : A -> result B) :
  extends c c' -> (forall a, extends (k a) (k' a)) -> extends (r ← c; k r) (r ← c'; k' r).
Proof. intros [->| ->] Hk; [by left|]. destruct c; cbn; [apply Hk|by right..]. Qed.

Lemma extends_from {A B : Type} (c : result A) (k k' : A -> result B) : (forall a, extends (k a) (k' a)) -> extends (r ← c; k r) (r ← c; k' r).
Proof. intros Hk. apply extends_bind; [apply extends_refl|done]. Qed.

Section More.
Context (interpret interpret' : IrFunction -> list V -> option RP -> Ev V).
Context (Hext : forall g args r w, extends (interpret g args r w) (interpret' g args r w)).

Lemma execute_inst_extends f i regs fr w : extends (execute_inst interpret f i regs fr w) (execute_inst interpret' f i regs fr w).
Proof using Hext.
  destruct i; try apply extends_refl. cbn [execute_inst]. unfold set_from, after_safepoint. apply extends_bind; [|intros; apply extends_refl].
  apply extends_from. intros a. destruct (find_subfunction f target_name); [|apply extends_refl]. apply extends_from. intros vs. apply Hext.
Qed.

Lemma execute_insts_extends f is_ regs fr w : extends (execute_insts interpret f is_ regs fr w) (execute_insts interpret' f is_ regs fr w).
Proof using Hext.
  revert regs fr w. induction is_ as [|i is_ IH]; intros regs fr w; cbn [execute_insts]; [apply extends_refl|].
  apply extends_bind; [apply execute_inst_extends|]. intros a. apply IH.
Qed.

End More.

Lemma interp_loop_extends fuel fuel' f table regs fr w prev current :
  (fuel <= fuel')%nat -> extends (interp_loop fuel f table regs fr w prev current) (interp_loop fuel' f table regs fr w prev current).
Proof.
  revert fuel' f table regs fr w prev current. induction fuel as [|fuel IH]; intros fuel' f table regs fr w prev current Hle; [by left|].
  destruct fuel' as [|fuel']; [lia|]. apply le_S_n in Hle. cbn [interp_loop].
  destruct (blocks f !! current) as [b|]; [|apply extends_refl]. destruct (take_interrupt w) as [[] w1]; [apply extends_refl|].
  destruct (charge_gas (block_cost b) w1) as [[] w2]; [cbn [negb]|apply extends_refl]. apply extends_from. intros r1. apply extends_bind.
  - apply execute_insts_extends. intros g args r w3. apply extends_from. intros s. apply extends_from. intros r2. by apply IH.
  - intros [[r2 fr2] w3]. destruct (terminator b) as [t|c t e|v|t args|]; try apply extends_refl.
    + apply extends_from. intros next. by apply IH.
    + apply extends_from. intros x. apply extends_from. intros next. by apply IH.
    + apply extends_from. intros s. apply extends_from. intros next. by apply IH.
Qed.

(** C37: an evaluation under a gas meter ends, whatever loops the function has and
    whatever functions it calls with a region: with [n] credits left at most [n]
    blocks nest or follow each other, and allowing more makes no difference.  The
    operations of the runtime that instructions call - calls of other functions,
    derefs, channel operations, allocation, safepoints - are assumed to return, to
    leave the scopes of meters as they are and to give no credits back; the meters
    in scope are distinct. *)
Theorem metered_evaluation_ends f args w m :
  fair_host -> metered m (gas w) ->
  exists r : result (V * World H), r <> OutOfFuel /\
    forall fuel, remaining (gas w) m < Z.of_nat fuel -> interpret_ir fuel f args w = r.
Proof.
  intros Hh Hm. set (n := S (Z.to_nat (remaining (gas w) m))). exists (interpret_ir n f args w).
  assert (Hn : remaining (gas w) m < Z.of_nat n) by lia. assert (Hend : quiet (interpret_ir n f args w)).
  { enough (Hf : fair_at m w (interpret_ir n f args w)) by (by intros He; rewrite He in Hf). apply fair_at_bind; [by apply Hh|]. intros [] w1 Hw1.
    apply fair_at_quiet; [apply bind_params_quiet|]. intros regs _. apply interp_loop_fair; [done|apply Hw1|by eapply spends_bound]. }
  split; [done|]. intros fuel Hf. assert (Hle : (n <= fuel)%nat).
  { destruct Hm as ([_ Hpos] & _). specialize (Hpos m). lia. }
  destruct (extends_from (gc_safepoint w) (fun r => regs ← bind_params (params f) args (Registers_new (next_var f)); interp_loop n f (block_index f) regs (mkFrame [] [] None) r.2 u32_max_id 0)
    (fun r => regs ← bind_params (params f) args (Registers_new (next_var f)); interp_loop fuel f (block_index f) regs (mkFrame [] [] None) r.2 u32_max_id 0)) as [He|He]; [|by apply Hend in He|exact He].
  intros r. apply extends_from. intros regs. by apply interp_loop_extends.
Qed.

(** * Phi nodes in parallel *)

(** The copies the phis of a block stand for, on an edge. *)
Fixpoint phi_moves (prev : BlockId) (ps : list Inst) : list (VarId * VarId) :=
  match ps with
  | [] => []
  | IPhi d entries :: ps' =>
      match phi_source prev entries with
      | Some src => (d, src) :: phi_moves prev ps'
      | None => phi_moves prev ps'
      end
  | _ :: ps' => phi_moves prev ps'
  end.

(** All sources are read before a destination is written. *)
Fixpoint read_sources (moves : list (VarId * VarId)) (regs : Registers) : result (list (VarId * V)) :=
  match moves with
  | [] => Ok []
  | (d, src) :: moves' =>
      v ← reg_get regs src;
      vs ← read_sources moves' regs;
      Ok ((d, v) :: vs)
  end.

Fixpoint write_back (ws : list (VarId * V)) (regs : Registers) : result Registers :=
  match ws with
  | [] => Ok regs
  | (d, v) :: ws' => regs' ← write_back ws' regs; reg_set regs' d v
  end.

Definition parallel_moves (moves : list (VarId * VarId)) (regs : Registers) : result Registers :=
  ws ← read_sources moves regs; write_back ws regs.

(** No copy reads what an earlier one has written. *)
Fixpoint independent (moves : list (VarId * VarId)) : bool :=
  match moves with
  | [] => true
  | (d, _) :: moves' => forallb (fun m => negb (m.1 =? d) && negb (m.2 =? d)) moves' && independent moves'
  end.

Definition moves_ok (moves : list (VarId * VarId)) : bool := forallb (fun m => (0 <=? m.1) && (0 <=? m.2)) moves.

Fixpoint sequential_moves (moves : list (VarId * VarId)) (regs : Registers) : result Registers :=
  match moves with
  | [] => Ok regs
  | (d, src) :: moves' => v ← reg_get regs src; regs' ← reg_set regs d v; sequential_moves moves' regs'
  end.

Lemma resolve_phis_moves prev ps regs : resolve_phis prev ps regs = sequential_moves (phi_moves prev ps) regs.
Proof.
  revert regs. induction ps as [|i ps IH]; intros regs; [done|]. destruct i; simpl; try apply IH.
  destruct (phi_source prev entries) as [src|]; [|apply IH]. simpl. destruct (reg_get regs src); simpl; try done.
  destruct (reg_set regs dst a); simpl; try done.
Qed.

Lemma reg_get_set regs d v regs' src :
  0 <= d -> 0 <= src -> src <> d -> reg_set regs d v = Ok regs' -> reg_get regs' src = reg_get regs src.
Proof.
  intros Hd Hs Hne. unfold reg_set, reg_get. destruct (_ <? _)%nat; [|done]. intros [= <-].
  rewrite list_lookup_insert_ne by lia. done.
Qed.

Lemma reg_set_comm regs d v d' v' :
  0 <= d -> 0 <= d' -> d <> d' ->
  (r ← reg_set regs d v; reg_set r d' v') = (r ← reg_set regs d' v'; reg_set r d v).
Proof.
  intros Hd Hd' Hne. unfold reg_set. destruct (_ <? _)%nat eqn:E1; destruct (Z.to_nat d' <? _)%nat eqn:E2; simpl;
    rewrite ?length_insert, ?E1, ?E2; try done. f_equal. apply list_insert_insert_ne. lia.
Qed.

Lemma write_back_comm ws regs d v :
  0 <= d -> Forall (fun w => 0 <= w.1 /\ w.1 <> d) ws ->
  (r ← write_back ws regs; reg_set r d v) = (r ← reg_set regs d v; write_back ws r).
Proof.
  intros Hd. induction 1 as [|[d' v'] ws [Hd' Hne] _ IH]; simpl.
  { destruct (reg_set regs d v); done. }
  simpl in Hd', Hne. transitivity (r ← (r ← write_back ws regs; reg_set r d v); reg_set r d' v').
  - destruct (write_back ws regs) as [r| | |]; simpl; try done. rewrite reg_set_comm by done. done.
  - rewrite IH. destruct (reg_set regs d v); done.
Qed.

Lemma read_sources_dsts moves regs ws : read_sources moves regs = Ok ws -> map fst ws = map fst moves.
Proof.
  revert ws. induction moves as [|[d src] moves IH]; intros ws Hr; simpl in Hr; [by injection Hr as <-|].
  destruct (reg_get regs src); try done. simpl in Hr. destruct (read_sources moves regs) as [ws'| | |]; try done.
  injection Hr as <-. simpl. by rewrite (IH ws').
Qed.

(** Conjunctions and comparisons of booleans in the hypotheses. *)
Ltac split_bools :=
  repeat match goal with
  | H : _ && _ = true |- _ => apply andb_true_iff in H as [? ?]
  | H : negb _ = true |- _ => apply negb_true_iff in H
  end; bool_hyps.

Lemma read_sources_set moves regs d v regs' :
  0 <= d -> moves_ok moves = true -> forallb (fun m => negb (m.1 =? d) && negb (m.2 =? d)) moves = true ->
  reg_set regs d v = Ok regs' -> read_sources moves regs' = read_sources moves regs.
Proof.
  intros Hd Hok Hi Hs. induction moves as [|[d' src] moves IH]; [done|]. unfold moves_ok in Hok. simpl in *.
  split_bools. rewrite IH by done. erewrite (reg_get_set regs d v regs') by (done || lia). done.
Qed.

Lemma read_sources_cases moves regs : read_sources moves regs = Panic \/ exists ws, read_sources moves regs = Ok ws.
Proof.
  induction moves as [|[d src] moves IH]; simpl; [eauto|]. unfold reg_get.
  destruct (regs !! _) as [[v|]|]; simpl; [|auto..]. destruct IH as [->|[ws ->]]; simpl; eauto.
Qed.

Lemma sequential_is_parallel moves regs :
  moves_ok moves = true -> independent moves = true -> sequential_moves moves regs = parallel_moves moves regs.
Proof.
  revert regs. induction moves as [|[d src] moves IH]; intros regs Hok Hi; [done|].
  unfold moves_ok in Hok. simpl in Hok, Hi. split_bools. unfold parallel_moves. simpl.
  destruct (reg_get regs src) as [v|?| |] eqn:Eg; simpl; try done.
  assert (Hread : forall regs', reg_set regs d v = Ok regs' -> read_sources moves regs' = read_sources moves regs).
  { intros regs'. by apply (read_sources_set moves regs d v). }
  destruct (read_sources_cases moves regs) as [Er|[ws Er]]; rewrite Er; simpl.
  - destruct (reg_set regs d v) as [regs'|?| |] eqn:Es; simpl; [|unfold reg_set in Es; by destruct (_ <? _)%nat..].
    rewrite IH by done. unfold parallel_moves. rewrite (Hread _ eq_refl). by rewrite Er.
  - rewrite write_back_comm; [|done|].
    + destruct (reg_set regs d v) as [regs'|?| |] eqn:Es; simpl; try done.
      rewrite IH by done. unfold parallel_moves. rewrite (Hread _ eq_refl). by rewrite Er.
    + pose proof (read_sources_dsts _ _ _ Er) as Hd. apply Forall_forall. intros w Hw.
      assert (Hin : w.1 ∈ map fst moves) by (rewrite <- Hd; by apply list_elem_of_fmap_2).
      apply list_elem_of_fmap in Hin as (m & -> & Hm).
      match goal with H1 : forallb _ moves = true, H2 : forallb _ moves = true |- _ =>
        rewrite forallb_forall in H1, H2; specialize (H1 m (proj1 (list_elem_of_In _ _) Hm));
        specialize (H2 m (proj1 (list_elem_of_In _ _) Hm)) end.
      split_bools. lia.
Qed.

(** Resolving the phis of a block one after the other, as the interpreter
    does, is the parallel copy they stand for, as long as no phi reads the
    result of an earlier phi of the block. *)
Theorem phis_sequential_is_parallel prev ps regs :
  moves_ok (phi_moves prev ps) = true -> independent (phi_moves prev ps) = true ->
  resolve_phis prev ps regs = parallel_moves (phi_moves prev ps) regs.
Proof. rewrite resolve_phis_moves. apply sequential_is_parallel. Qed.

End Interp.

Inductive SmallValue : Type := SvNil | SvBool (b : bool) | SvLong (n : Z).

#[export] Instance small_runtime : Runtime SmallValue := {|
  v_nil := SvNil;
  is_truthy v := match v with SvNil | SvBool false => false | _ => true end
|}.

Abbreviation small_regs := (list (option SmallValue)).

Definition small_known (k : KnownFn) (x y : SmallValue) : option SmallValue :=
  match k, x, y with
  | KAdd, SvLong x, SvLong y => Some (SvLong (x + y))
  | KLt, SvLong x, SvLong y => Some (SvBool (x <? y))
  | _, _, _ => None
  end.

Definition unsupported {A : Type} : Eval SmallValue unit Empty_set A := fun _ => Err (RuntimeError (lit "unsupported")).

(** Constants, addition and comparison of longs, regions without contents. *)
#[export] Instance small_interp_host : InterpHost SmallValue unit Empty_set unit := {|
  const_to_value c w :=
    match c with
    | CNil => Ok (SvNil, w)
    | CBool b => Ok (SvBool b, w)
    | CLong n => Ok (SvLong n, w)
    | _ => unsupported w
    end;
  env_lookup _ _ := None;
  load_global_value _ _ := unsupported;
  resolve_alias gns _ := gns;
  lookup_var_in_ns _ _ _ := None;
  alloc_heap _ := unsupported;
  region_alloc_val _ _ := unsupported;
  alloc_closure _ _ _ := unsupported;
  gc_safepoint w := Ok ((), w);
  dispatch_known_fn k vs w :=
    match vs with
    | [x; y] => match small_known k x y with Some v => Ok (v, w) | None => unsupported w end
    | _ => unsupported w
    end;
  dispatch_or_sentinel _ _ := unsupported;
  dispatch_sentinel_by_name _ _ := unsupported;
  deref_value _ := unsupported;
  var_new _ _ _ := unsupported;
  is_var _ := false;
  set_var _ _ := unsupported;
  region_open w := Ok ((), w);
  region_close _ w := Ok ((), w);
  has_async_runtime _ := false;
  spawn_async_call _ _ := unsupported;
  chan_take_blocking _ := unsupported;
  chan_put_blocking _ _ := unsupported
|}.

Definition one_meter (credits : Z) : World unit :=
  mkWorld (install 0%nat (mkGas (fun _ => credits) [] [])) false ().

(** [(loop [i 0 prev nil] (if (< i 2) (recur (inc i) i) prev))] *)
Definition loop_phis : list Inst := [IPhi 2 [(0, 0); (2, 6)]; IPhi 3 [(0, 1); (2, 2)]].

Definition previous_value : IrFunction :=
  mkIrFunction None []
    [mkBlock 0 [] [IConst 0 (CLong 0); IConst 1 CNil] (Jump 1);
     mkBlock 1 loop_phis [IConst 4 (CLong 2); ICallKnown 7 KLt [2; 4]] (Branch 7 2 3);
     mkBlock 2 [] [IConst 5 (CLong 1); ICallKnown 6 KAdd [2; 5]] (RecurJump 1 [6; 2]);
     mkBlock 3 [] [] (Return 3)]
    8 4 None [] false false [] [] [].

(** The interpreter resolves the phis of a loop header one after the
    other, so [recur] hands an argument that is a loop variable its new value:
    the loop [(loop [i 0 prev nil] (if (< i 2) (recur (inc i) i) prev))]
    returns 2, where the value of [i] before the last [recur] is 1. *)
Theorem recur_reads_updated_register :
  (r ← interpret_ir 20 previous_value [] (one_meter 100); Ok r.1) = Ok (SvLong 2) /\
  let regs := [None; None; Some (SvLong 1); Some (SvLong 0); None; None; Some (SvLong 2); None] in
  (r ← resolve_phis (V := SmallValue) (X := Empty_set) 2 loop_phis regs; reg_get r 3) = Ok (SvLong 2) /\
  (r ← parallel_moves (X := Empty_set) (phi_moves 2 loop_phis) regs; reg_get r 3) = Ok (SvLong 1).
Proof. vm_compute. split_and!; reflexivity. Qed.

Lemma phis_sequential_is_parallel_witness :
  let ps := [IPhi 2 [(0, 0); (2, 6)]; IPhi 3 [(0, 1); (2, 4)]] in
  let regs := [None; None; Some (SvLong 1); Some (SvLong 0); Some SvNil; None; Some (SvLong 2); None] in
  resolve_phis (V := SmallValue) (X := Empty_set) 2 ps regs = parallel_moves (phi_moves 2 ps) regs.
Proof. apply phis_sequential_is_parallel; reflexivity. Defined.

Lemma small_host_fair : fair_host (HS := small_interp_host).
Proof.
  assert (Hu : forall A, fair (A := A) unsupported) by done.
  split; intros; try apply Hu; intros m w Hm; cbn; repeat case_match; try done; by apply spends_refl.
Qed.

(** The same loop, in a function called with a region. *)
Definition in_region : IrFunction :=
  mkIrFunction None []
    [mkBlock 0 [] [IRegionStart 0; ICallWithRegion 1 (lit "previous") [] 0; IRegionEnd 0] (Return 1)] 2 1 None
    [mkIrFunction (Some (lit "previous")) [] (blocks previous_value) 8 4 None [] false false [] [] []] false false [] [] [].

Example in_region_returns : (r ← interpret_ir 20 in_region [] (one_meter 100); Ok r.1) = Ok (SvLong 2).
Proof. vm_compute. reflexivity. Qed.

Lemma metered_evaluation_ends_witness :
  exists r : outcome (EvalError SmallValue Empty_set) (SmallValue * World unit), r <> OutOfFuel /\
    forall fuel, remaining (gas (one_meter 100)) 0%nat < Z.of_nat fuel -> interpret_ir fuel in_region [] (one_meter 100) = r.
Proof.
  apply (metered_evaluation_ends in_region [] (one_meter 100) 0%nat).
  - exact small_host_fair.
  - split_and!; [constructor; [reflexivity | intros m; simpl; lia] | apply (bool_decide_unpack _); vm_compute; exact I|].
    apply (bool_decide_unpack _). vm_compute. exact I.
Defined.
