(* ===== verification/WasmEmit.v ===== *)
(** Control flow of the WebAssembly backend
    (crates/cljrs-compiler/src/wasm/emit.rs): the walk over the structured
    tree, branch depths and phi copies, for boxed values and without tail
    calls.  The code of single instructions is a parameter; a local is named
    by the variable it holds. *)
From stdpp Require Import strings gmap.
From S2P Require Import Prelude RustStd Token Ir Reloop ReloopSem ReloopGraph IrInterp.
Local Open Scope Z_scope.

(** * Emission *)

Inductive Instruction : Type :=
| WBlock (body : list Instruction)
| WLoop (body : list Instruction)
| WIf (then_code else_code : list Instruction)
| WBr (depth : nat)
| WReturn
| WUnreachable
| WLocalGet (v : VarId)
| WLocalSet (v : VarId)
| WCall (import : string)
| WInst (i : Inst).

Inductive WasmError : Type := Unsupported (msg : string).

Definition forward_pred_counts (f : IrFunction) : gmap BlockId nat :=
  fold_left (fun counts b => fold_left (fun counts t => count_entry t counts) (forward_succs (terminator b)) counts)
    (blocks f) ∅.

Section Emitter.
Context (f : IrFunction).

Definition emit_is_merge (id : BlockId) : bool := (2 <=? default 0 (forward_pred_counts f !! id))%nat.

(** [labels] has the innermost frame at its head. *)
Fixpoint br_depth (labels : list (option BlockId)) (target : BlockId) : outcome WasmError nat :=
  match labels with
  | [] => Err (Unsupported "br target not in an enclosing block/loop")
  | frame :: labels' =>
      if decide (frame = Some target) then Ok 0%nat
      else d ← br_depth labels' target; Ok (S d)
  end.

Definition emit_phi_copies (target pred : BlockId) : outcome WasmError (list Instruction) :=
  match lookup_block f target with
  | None => Panic
  | Some b =>
      let moves := phi_moves pred (phis b) in
      Ok (map (fun m => WLocalGet m.2) moves ++ map (fun m => WLocalSet m.1) (rev moves))
  end.

Definition emit_br (labels : list (option BlockId)) (current target : BlockId) : outcome WasmError (list Instruction) :=
  copies ← emit_phi_copies target current;
  depth ← br_depth labels target;
  Ok (copies ++ [WBr depth]).

Definition emit_block_body (b : BlockId) : outcome WasmError (list Instruction) :=
  match lookup_block f b with
  | None => Panic
  | Some blk => Ok (map WInst (insts blk))
  end.

(** The code, and the block that is [current] after it. *)
Fixpoint emit_node (labels : list (option BlockId)) (current : BlockId) (s : Structured)
    : outcome WasmError (list Instruction * BlockId) :=
  match s with
  | SSimple block next =>
      copies ← (if emit_is_merge block then Ok [] else emit_phi_copies block current);
      body ← emit_block_body block;
      r ← emit_node labels block next;
      Ok (copies ++ body ++ r.1, r.2)
  | SLabeled label body next =>
      b ← emit_node (Some label :: labels) current body;
      n ← emit_node labels b.2 next;
      Ok (WBlock b.1 :: n.1, n.2)
  | SLoop header body =>
      b ← emit_node (Some header :: labels) current body;
      Ok ([WLoop (WCall "rt_safepoint" :: b.1)], b.2)
  | SIf cond then_arm else_arm =>
      t ← emit_node (None :: labels) current then_arm;
      e ← emit_node (None :: labels) t.2 else_arm;
      Ok ([WLocalGet cond; WCall "rt_truthiness"; WIf t.1 e.1], e.2)
  | SBr target => code ← emit_br labels current target; Ok (code, current)
  | SReturn v => Ok ([WLocalGet v; WReturn], current)
  | SUnreachable => Ok ([WUnreachable], current)
  | SNil => Ok ([], current)
  end.

End Emitter.

(** The code of a function: the entry safepoint, the tree, a final trap. *)
Definition emit_function (f : IrFunction) (s : Structured) : outcome WasmError (list Instruction) :=
  match blocks f with
  | [] => Panic
  | b0 :: _ =>
      r ← emit_node f [] (block_id b0) s;
      Ok (WCall "rt_safepoint" :: r.1 ++ [WUnreachable])
  end.

(** * Running the code *)

(** Values with their truthiness, and what the code of an instruction does to
    the locals: it ends the function early or continues. *)
Class WasmHost (V R : Type) : Type := {
  truthy : V -> bool;
  run_inst : Inst -> (VarId -> V) -> R + (VarId -> V);
  returned : V -> R;
  trapped : R
}.

Section Run.
Context {V R : Type} {HW : WasmHost V R}.

Inductive operand : Type := OVal (v : V) | OBool (b : bool).

Definition set_local (v : VarId) (x : V) (locals : VarId -> V) : VarId -> V :=
  fun k => if decide (k = v) then x else locals k.

(** How a sequence ends: with a result, by a branch out of [n + 1] frames, or
    at its end. *)
Inductive wresult : Type := WDone (r : R) | WBranch (n : nat) (locals : VarId -> V) | WNext (locals : VarId -> V) (stack : list operand).

(** [None] if the fuel does not suffice; code that misuses the stack traps. *)
Fixpoint run_code (fuel : nat) (code : list Instruction) (locals : VarId -> V) (stack : list operand) : option wresult :=
  match fuel with
  | O => None
  | S n =>
      match code with
      | [] => Some (WNext locals stack)
      | i :: rest =>
          match i with
          | WBlock body =>
              r ← run_code n body locals [];
              match r with
              | WBranch 0 locals' => run_code n rest locals' stack
              | WBranch (S d) locals' => Some (WBranch d locals')
              | WNext locals' _ => run_code n rest locals' stack
              | WDone r => Some (WDone r)
              end
          | WLoop body =>
              r ← run_code n body locals [];
              match r with
              | WBranch 0 locals' => run_code n (WLoop body :: rest) locals' stack
              | WBranch (S d) locals' => Some (WBranch d locals')
              | WNext locals' _ => run_code n rest locals' stack
              | WDone r => Some (WDone r)
              end
          | WIf t e =>
              match stack with
              | OBool b :: stack' =>
                  r ← run_code n (if b : bool then t else e) locals [];
                  match r with
                  | WBranch 0 locals' => run_code n rest locals' stack'
                  | WBranch (S d) locals' => Some (WBranch d locals')
                  | WNext locals' _ => run_code n rest locals' stack'
                  | WDone r => Some (WDone r)
                  end
              | _ => Some (WDone trapped)
              end
          | WBr d => Some (WBranch d locals)
          | WReturn =>
              match stack with
              | OVal v :: _ => Some (WDone (returned v))
              | _ => Some (WDone trapped)
              end
          | WUnreachable => Some (WDone trapped)
          | WLocalGet v => run_code n rest locals (OVal (locals v) :: stack)
          | WLocalSet v =>
              match stack with
              | OVal x :: stack' => run_code n rest (set_local v x locals) stack'
              | _ => Some (WDone trapped)
              end
          | WCall import =>
              if decide (import = "rt_truthiness"%string) then
                match stack with
                | OVal x :: stack' => run_code n rest locals (OBool (truthy x) :: stack')
                | _ => Some (WDone trapped)
                end
              else run_code n rest locals stack
          | WInst i =>
              match run_inst i locals with
              | inl r => Some (WDone r)
              | inr locals' => run_code n rest locals' stack
              end
          end
      end
  end.

Definition run_function (fuel : nat) (code : list Instruction) (locals : VarId -> V) : option R :=
  r ← run_code fuel code locals [];
  match r with
  | WDone r => Some r
  | _ => None
  end.

(** The graph of the function on the same host: phis are copied in parallel on
    entering a block. *)
Definition copy_all (moves : list (VarId * VarId)) (regs : VarId -> V) : VarId -> V :=
  fold_right (fun m acc => set_local m.1 (regs m.2) acc) regs moves.

Fixpoint run_insts (is_ : list Inst) (regs : VarId -> V) : R + (VarId -> V) :=
  match is_ with
  | [] => inr regs
  | i :: is' =>
      match run_inst i regs with
      | inl r => inl r
      | inr regs' => run_insts is' regs'
      end
  end.

#[export] Instance phi_machine : Machine (BlockId * (VarId -> V)) R := {|
  run_body blk st :=
    match run_insts (insts blk) (copy_all (phi_moves st.1 (phis blk)) st.2) with
    | inl r => inl r
    | inr regs => inr (block_id blk, regs)
    end;
  test c st := inr (truthy (st.2 c));
  return_value v st := returned (st.2 v);
  trap _ := trapped
|}.

End Run.
