(* ===== verification/WasmSpec.v ===== *)
(** Correctness of the emitted control flow where phi nodes stand only in
    blocks with several forward edges, and never behind the else edge of a
    branch.

    The WebAssembly backend on concrete functions: a conditional whose arms
    join at a phi, and the two shapes of graph where the phi copies of the
    emitted code are not those of the graph: the header of a [loop] and the
    short circuit of [and]. *)
From stdpp Require Import strings gmap.
From S2P Require Import Prelude RustStd Token Ir Reloop ReloopSem ReloopGraph ReloopDom ReloopSpec IrInterp WasmEmit.
Local Open Scope Z_scope.

(** Where the emitter copies phis as the graph does. *)
Record phis_placed (f : IrFunction) : Prop := {
  pl_entry b0 rest : blocks f = b0 :: rest -> phis b0 = [];
  pl_single b blk : lookup_block f b = Some blk -> ~ merge f b -> phis blk = [];
  pl_else x c t e blk : terminates f x (Branch c t e) -> lookup_block f e = Some blk -> phis blk = []
}.

Lemma fold_count ss m t :
  default 0%nat (fold_left (fun counts s => count_entry s counts) ss m !! t) =
  (default 0%nat (m !! t) + length (filter (fun s => s = t) ss))%nat.
Proof.
  revert m. induction ss as [|s ss IH]; intros m; simpl; [apply plus_n_O|]. rewrite IH, filter_cons.
  unfold count_entry. case_decide as E.
  - subst s. rewrite lookup_insert_eq. simpl. lia.
  - by rewrite lookup_insert_ne.
Qed.

Lemma forward_pred_counts_spec f t : default 0%nat (forward_pred_counts f !! t) = fcount (blocks f) t.
Proof.
  unfold forward_pred_counts.
  assert (H : forall bs m, default 0%nat (fold_left (fun counts b =>
    fold_left (fun counts t => count_entry t counts) (forward_succs (terminator b)) counts) bs m !! t) =
    (default 0%nat (m !! t) + fcount bs t)%nat).
  { induction bs as [|b bs IH]; intros m; simpl; [apply plus_n_O|]. rewrite IH, fold_count, (fcount_app [b] bs).
    unfold fcount at 2. simpl. rewrite app_nil_r. lia. }
  rewrite H, lookup_empty. done.
Qed.

Lemma emit_is_merge_spec f b : emit_is_merge f b = true <-> merge f b.
Proof. unfold emit_is_merge, merge. rewrite forward_pred_counts_spec. apply Nat.leb_le. Qed.

Section Simulation.
Context (f : IrFunction).
Context (Hnd : NoDup (ids f)) (Htargets : forall b s, succ f b s -> is_Some (lookup_block f s)).
Context (Hphis : phis_placed f).

(** ** Emission succeeds *)

Lemma br_depth_total labels t : Some t ∈ labels -> exists d, br_depth labels t = Ok d.
Proof.
  induction labels as [|l labels IH]; intros Ht; [set_solver|]. simpl. case_decide as E; [eauto|].
  apply elem_of_cons in Ht as [Ht|Ht]; [congruence|]. destruct (IH Ht) as [d ->]. simpl. eauto.
Qed.

Definition in_labels (labels : list (option BlockId)) (s : Structured) : Prop :=
  forall l, l ∈ free_labels s -> Some l ∈ labels.

Abbreviation node := (node f (single f)).
Abbreviation term := (term f (single f)).
Abbreviation edge := (edge f (single f)).

Lemma term_lookup s x : term s x -> is_Some (lookup_block f x).
Proof. destruct 1; eauto. Qed.

Lemma node_lookup s x : node s x -> is_Some (lookup_block f x).
Proof. induction 1; eauto using term_lookup. Qed.

Lemma target_lookup x blk t :
  lookup_block f x = Some blk -> t ∈ successors (terminator blk) -> is_Some (lookup_block f t).
Proof.
  intros Hb Ht. apply (Htargets x). exists (terminator blk). split; [|done]. apply terminates_lookup; eauto.
Qed.

Lemma emit_br_total labels current t :
  is_Some (lookup_block f t) -> Some t ∈ labels -> exists code, emit_br f labels current t = Ok code.
Proof.
  intros [blk Hb] Hl. unfold emit_br, emit_phi_copies. rewrite Hb. simpl.
  destruct (br_depth_total _ _ Hl) as [d ->]. simpl. eauto.
Qed.

Definition emits (s : Structured) : Prop :=
  forall labels current, in_labels labels s -> exists code cur', emit_node f labels current s = Ok (code, cur').

Lemma emit_total :
  (forall s x, node s x -> emits s) /\ (forall s x, term s x -> emits s) /\
  (forall s t, edge s t -> is_Some (lookup_block f t) -> emits s).
Proof.
  apply (nodes_ind f (single f) (fun s _ => emits s) (fun s _ => emits s)
    (fun s t => is_Some (lookup_block f t) -> emits s)).
  - intros x next Ht IH labels current Hl. destruct (term_lookup _ _ Ht) as [blk Hx]. cbn [emit_node].
    unfold emit_phi_copies, emit_block_body. rewrite Hx. destruct (IH labels x Hl) as (code & cur' & E).
    destruct (emit_is_merge f x); simpl; rewrite E; simpl; eauto.
  - intros x m body next _ IHb _ IHn labels current Hl. cbn [emit_node].
    destruct (IHb (Some m :: labels) current) as (cb & b' & Eb).
    { intros l Hlb. destruct (decide (l = m)) as [->|]; [set_solver|]. apply elem_of_cons. right. apply Hl. simpl. set_solver. }
    rewrite Eb. simpl. destruct (IHn labels b') as (cn & n' & En); [intros l Hln; apply Hl; simpl; set_solver|].
    rewrite En. simpl. eauto.
  - intros x body _ IHb labels current Hl. cbn [emit_node].
    destruct (IHb (Some x :: labels) current) as (cb & b' & Eb).
    { intros l Hlb. destruct (decide (l = x)) as [->|]; [set_solver|]. apply elem_of_cons. right. apply Hl. simpl. set_solver. }
    rewrite Eb. simpl. eauto.
  - intros x blk v _ _ labels current _. simpl. eauto.
  - intros x blk _ _ labels current _. simpl. eauto.
  - intros x blk t s Hx Et _ IH. apply IH. eapply target_lookup; [done|]. rewrite Et. simpl. set_solver.
  - intros x blk t args Hx Et labels current Hl. cbn [emit_node].
    destruct (emit_br_total labels current t) as [code E]; [|apply Hl; simpl; set_solver|rewrite E; simpl; eauto].
    eapply target_lookup; [done|]. rewrite Et. simpl. set_solver.
  - intros x blk c t e s1 s2 Hx Et _ IH1 _ IH2 labels current Hl. cbn [emit_node].
    destruct (IH1 ltac:(eapply target_lookup; [done|]; rewrite Et; simpl; set_solver) (None :: labels) current) as (c1 & k1 & E1).
    { intros l Hl'. apply elem_of_cons. right. apply Hl. simpl. set_solver. }
    rewrite E1. simpl.
    destruct (IH2 ltac:(eapply target_lookup; [done|]; rewrite Et; simpl; set_solver) (None :: labels) k1) as (c2 & k2 & E2).
    { intros l Hl'. apply elem_of_cons. right. apply Hl. simpl. set_solver. }
    rewrite E2. simpl. eauto.
  - intros t Ht labels current Hl. cbn [emit_node].
    destruct (emit_br_total labels current t Ht) as [code E]; [apply Hl; simpl; set_solver|]. rewrite E. simpl. eauto.
  - intros s t _ _ IH _. exact IH.
Qed.

(** ** Straight-line code *)

Context {V R : Type} {HW : WasmHost V R}.

Lemma run_code_mono n n' code (l : VarId -> V) st (r : wresult) :
  run_code n code l st = Some r -> (n <= n')%nat -> run_code n' code l st = Some r.
Proof.
  revert n' code l st r. induction n as [|n IH]; intros n' code l st r Hr Hle; [done|].
  destruct n' as [|n']; [lia|]. apply le_S_n in Hle. destruct code as [|i code]; [done|].
  destruct i; cbn [run_code] in *; try done; try (by eapply IH).
  - apply bind_Some in Hr as (r1 & H1 & H2). rewrite (IH _ _ _ _ _ H1 Hle). simpl.
    destruct r1 as [?|[|d] ?|? ?]; try done; by eapply IH.
  - apply bind_Some in Hr as (r1 & H1 & H2). rewrite (IH _ _ _ _ _ H1 Hle). simpl.
    destruct r1 as [?|[|d] ?|? ?]; try done; by eapply IH.
  - destruct st as [|[v|b] st]; try done. apply bind_Some in Hr as (r1 & H1 & H2). rewrite (IH _ _ _ _ _ H1 Hle). simpl.
    destruct r1 as [?|[|d] ?|? ?]; try done; by eapply IH.
  - destruct st as [|[x|b] st]; try done. by eapply IH.
  - case_decide; [|by eapply IH]. destruct st as [|[x|b] st]; try done. by eapply IH.
  - destruct (run_inst i l); [done | by eapply IH].
Qed.

Lemma run_insts_code is_ rest n (l : VarId -> V) st :
  run_code (length is_ + n) (map WInst is_ ++ rest) l st =
  match run_insts is_ l with
  | inl r => if (length is_ + n =? 0)%nat then None else Some (WDone r)
  | inr l' => run_code n rest l' st
  end.
Proof.
  revert l. induction is_ as [|i is_ IH]; intros l; [done|]. simpl. destruct (run_inst i l) as [r|l']; [done|].
  rewrite IH. destruct (run_insts is_ l') as [r|l''] eqn:E; [|done]. destruct is_; done.
Qed.

Lemma run_gets moves rest n (l : VarId -> V) st :
  run_code (length moves + n) (map (fun m : VarId * VarId => WLocalGet m.2) moves ++ rest) l st =
  run_code n rest l (rev (map (fun m => OVal (l m.2)) moves) ++ st).
Proof.
  revert st. induction moves as [|m moves IH]; intros st; [done|]. simpl. rewrite IH, <- app_assoc. done.
Qed.

Lemma run_sets (moves : list (VarId * VarId)) (src : VarId -> V) rest n (l : VarId -> V) st :
  run_code (length moves + n) (map (fun m => WLocalSet m.1) moves ++ rest) l (map (fun m => OVal (src m.2)) moves ++ st) =
  run_code n rest (fold_left (fun acc m => set_local m.1 (src m.2) acc) moves l) st.
Proof. revert l. induction moves as [|m moves IH]; intros l; [done|]. simpl. apply IH. Qed.

(** The emitted copies are the parallel copy. *)
Lemma run_copies moves rest n (l : VarId -> V) :
  run_code (length moves + (length moves + n))
    ((map (fun m => WLocalGet m.2) moves ++ map (fun m => WLocalSet m.1) (rev moves)) ++ rest) l [] =
  run_code n rest (copy_all moves l) [].
Proof.
  rewrite <- app_assoc, run_gets, app_nil_r, <- map_rev. replace (length moves) with (length (rev moves)) at 1 by apply length_rev.
  pose proof (run_sets (rev moves) l rest n l []) as H. rewrite app_nil_r in H. rewrite H. unfold copy_all.
  by rewrite <- fold_left_rev_right, rev_involutive.
Qed.

(** ** The code follows the tree *)

Abbreviation regs_t := (VarId -> V).
Abbreviation tree_res := (tree_result (St := BlockId * regs_t) (R := R)).

(** A branch in the tree is a branch of the right depth in the code, after the
    copies for the phis of its target. *)
Definition related (labels : list (option BlockId)) (res : tree_res) (w : wresult) : Prop :=
  match res, w with
  | Done r, WDone r' => r = r'
  | Goto l st, WBranch d regs =>
      br_depth labels l = Ok d /\
      exists blk, lookup_block f l = Some blk /\ regs = copy_all (phi_moves st.1 (phis blk)) st.2
  | _, _ => False
  end.

Lemma related_if labels res w : related (None :: labels) res w ->
  match w with
  | WDone r => related labels res (WDone r)
  | WBranch (S d) regs => related labels res (WBranch d regs)
  | _ => False
  end.
Proof.
  destruct res as [r|l [p regs]|st]; destruct w as [r'|d regs'|? ?]; simpl; try done.
  intros [Hd Hb]. destruct (br_depth labels l) as [d'| | |]; try done. simpl in Hd. injection Hd as <-. done.
Qed.

Lemma related_frame labels x res w : related (Some x :: labels) res w ->
  match res, w with
  | Done r, WDone r' => r = r'
  | Goto l st, WBranch O regs =>
      l = x /\ exists blk, lookup_block f l = Some blk /\ regs = copy_all (phi_moves st.1 (phis blk)) st.2
  | Goto l st, WBranch (S d) regs => l <> x /\ related labels res (WBranch d regs)
  | _, _ => False
  end.
Proof.
  destruct res as [r|l [p regs]|st]; destruct w as [r'|d regs'|? ?]; simpl; try done.
  intros [Hd Hb]. case_decide as E.
  - injection E as ->. injection Hd as <-. done.
  - destruct (br_depth labels l) as [d'| | |]; try done. simpl in Hd. injection Hd as <-. split; [congruence | done].
Qed.

(** Pieces of emitted code. *)
Lemma emit_simple labels cur b next code cur' blk :
  lookup_block f b = Some blk -> emit_node f labels cur (SSimple b next) = Ok (code, cur') ->
  exists rest, emit_node f labels b next = Ok (rest, cur') /\ code = map WInst (insts blk) ++ rest.
Proof.
  intros Hb. cbn [emit_node]. unfold emit_phi_copies, emit_block_body. rewrite Hb.
  assert (Hc : forall p, emit_is_merge f b = false -> phi_moves p (phis blk) = []).
  { intros p Em. rewrite (pl_single _ Hphis b blk Hb); [done|]. rewrite <- emit_is_merge_spec. congruence. }
  destruct (emit_is_merge f b); [|rewrite Hc by done]; simpl;
    (destruct (emit_node f labels b next) as [[rest c]| | |]; simpl; [|done..]); intros [= <- <-]; eauto.
Qed.

Lemma run_tree_simple m b next blk st res :
  lookup_block f b = Some blk -> run_tree f m (SSimple b next) st = Some res ->
  exists m', m = S m' /\
    match run_insts (insts blk) (copy_all (phi_moves st.1 (phis blk)) st.2) with
    | inl r => res = Done r
    | inr regs => run_tree f m' next (b, regs) = Some res
    end.
Proof.
  intros Hb Hr. destruct m as [|m]; [done|]. exists m. split; [done|]. simpl in Hr. rewrite Hb in Hr. simpl in Hr.
  pose proof (proj1 (lookup_block_Some f Hnd b blk) Hb) as [_ Hid].
  destruct (run_insts _ _) as [r|regs]; [by injection Hr as <- | by rewrite Hid in Hr].
Qed.

(** The copies of an edge, when [current] is its source or there are none. *)
Lemma emit_br_spec labels cur p t blk code :
  lookup_block f t = Some blk -> cur = p \/ phis blk = [] -> emit_br f labels cur t = Ok code ->
  exists d, br_depth labels t = Ok d /\
    forall (regs : regs_t) m w, run_code m code regs [] = Some w ->
      w = WBranch d (copy_all (phi_moves p (phis blk)) regs).
Proof.
  intros Hb Hcur. unfold emit_br, emit_phi_copies. rewrite Hb. simpl.
  assert (Em : phi_moves cur (phis blk) = phi_moves p (phis blk)) by (destruct Hcur as [->|E]; [done | by rewrite E]).
  rewrite Em. destruct (br_depth labels t) as [d| | |]; simpl; try done. intros [= <-]. exists d. split; [done|].
  intros regs m w Hw. set (moves := phi_moves p (phis blk)) in *.
  pose proof (run_code_mono m (length moves + (length moves + S m)) _ _ _ _ Hw ltac:(lia)) as Hw'.
  rewrite run_copies in Hw'. simpl in Hw'. congruence.
Qed.

Lemma emit_br_runs labels cur t code (regs : regs_t) :
  emit_br f labels cur t = Ok code -> exists m w, run_code m code regs [] = Some w.
Proof.
  unfold emit_br, emit_phi_copies. destruct (lookup_block f t) as [blk|]; simpl; try done.
  destruct (br_depth labels t) as [d| | |]; simpl; try done. intros [= <-].
  set (moves := phi_moves cur (phis blk)). exists (length moves + (length moves + 1))%nat. rewrite run_copies. simpl. eauto.
Qed.

(** ** Forward *)

Definition code_follows (labels : list (option BlockId)) (code : list Instruction) (regs : regs_t) (res : tree_res) : Prop :=
  exists m w, run_code m code regs [] = Some w /\ related labels res w.

Lemma run_loop_eq n body rest (l : regs_t) st :
  run_code (S n) (WLoop body :: rest) l st =
  (r ← run_code n body l [];
   match r with
   | WBranch 0 l' => run_code n (WLoop body :: rest) l' st
   | WBranch (S d) l' => Some (WBranch d l')
   | WNext l' _ => run_code n rest l' st
   | WDone r => Some (WDone r)
   end).
Proof. done. Qed.

Lemma run_safepoint n code (l : regs_t) st :
  run_code (S n) (WCall "rt_safepoint" :: code) l st = run_code n code l st.
Proof. done. Qed.

Section Forward.
Context (m : nat).

Definition fwd_node : Prop := forall s x labels cur code cur' p regs res blk,
  node s x -> emit_node f labels cur s = Ok (code, cur') -> lookup_block f x = Some blk ->
  run_tree f m s (p, regs) = Some res -> code_follows labels code (copy_all (phi_moves p (phis blk)) regs) res.

Definition fwd_edge : Prop := forall s t labels cur code cur' p regs res blk,
  edge s t -> emit_node f labels cur s = Ok (code, cur') -> lookup_block f t = Some blk -> cur = p \/ phis blk = [] ->
  run_tree f m s (p, regs) = Some res -> code_follows labels code regs res.

Definition fwd_term : Prop := forall s x labels code cur' regs res,
  term s x -> emit_node f labels x s = Ok (code, cur') ->
  run_tree f m s (x, regs) = Some res -> code_follows labels code regs res.

Lemma fwd_edge_of_node : fwd_node -> fwd_edge.
Proof.
  intros Hn s t labels cur code cur' p regs res blk He Ee Hb Hcur Hr. destruct He as [t|s t Ht Hs].
  - cbn [emit_node] in Ee. destruct (emit_br f labels cur t) as [c| | |] eqn:Eb; simpl in Ee; try done.
    injection Ee as -> ->. destruct m as [|m']; [done|]. injection Hr as <-.
    destruct (emit_br_spec _ _ _ _ _ _ Hb Hcur Eb) as (d & Hd & Hw).
    destruct (emit_br_runs _ _ _ _ regs Eb) as (k & w & Hk). exists k, w. split; [done|].
    rewrite (Hw _ _ _ Hk). simpl. eauto.
  - assert (Hp : copy_all (phi_moves p (phis blk)) regs = regs) by (by rewrite (pl_single _ Hphis t blk Hb Ht)).
    rewrite <- Hp. by eapply Hn.
Qed.

End Forward.

Lemma forward m : fwd_node m /\ fwd_edge m /\ fwd_term m.
Proof.
  induction m as [|m (IHn & IHe & IHt)].
  { assert (fwd_node 0) by (intros s x labels cur code cur' p regs res blk _ _ _ Hr; done).
    split_and!; [done | by apply fwd_edge_of_node|]. intros s x labels code cur' regs res _ _ Hr. done. }
  assert (Hnode : fwd_node (S m)).
  { intros s x labels cur code cur' p regs res blk Hs Ee Hb Hr.
    destruct Hs as [x next Ht|x l body next Hbody Hnext|x body Hbody].
    - destruct (emit_simple _ _ _ _ _ _ _ Hb Ee) as (rest & Er & ->).
      destruct (run_tree_simple _ _ _ _ _ _ Hb Hr) as (m' & [= <-] & Hres). cbn [fst snd] in Hres.
      destruct (run_insts (insts blk) _) as [r|regs'] eqn:Ei.
      + subst res. exists (length (insts blk) + 1)%nat, (WDone r). rewrite run_insts_code, Ei. simpl. split; [|done].
        by destruct (insts blk).
      + destruct (IHt _ _ _ _ _ _ _ Ht Er Hres) as (k & w & Hk & Hw). exists (length (insts blk) + k)%nat, w.
        rewrite run_insts_code, Ei. done.
    - cbn [emit_node] in Ee. destruct (emit_node f (Some l :: labels) cur body) as [[cb b']| | |] eqn:Eb; simpl in Ee; try done.
      destruct (emit_node f labels b' next) as [[cn n']| | |] eqn:En; simpl in Ee; try done. injection Ee as <- <-.
      simpl in Hr. apply bind_Some in Hr as (r1 & H1 & H2).
      destruct (IHn _ _ _ _ _ _ _ _ _ _ Hbody Eb Hb H1) as (k1 & w1 & Hk1 & Hw1). apply related_frame in Hw1.
      destruct r1 as [r|l' [p' regs']|st']; destruct w1 as [r'|[|d] w'|? ?]; try done.
      + subst r'. injection H2 as <-. exists (S k1), (WDone r). cbn [run_code]. rewrite Hk1. done.
      + destruct Hw1 as (-> & bl & Hbl & ->). rewrite decide_True in H2 by done.
        destruct (IHn _ _ _ _ _ _ _ _ _ _ Hnext En Hbl H2) as (k2 & w2 & Hk2 & Hw2).
        exists (S (k1 + k2))%nat, w2. cbn [run_code]. rewrite (run_code_mono _ (k1 + k2) _ _ _ _ Hk1) by lia. simpl.
        split; [|done]. eapply run_code_mono; [exact Hk2 | lia].
      + destruct Hw1 as [Hne Hrel]. rewrite decide_False in H2 by done. injection H2 as <-.
        exists (S k1), (WBranch d w'). cbn [run_code]. rewrite Hk1. done.
    - pose proof Ee as Ee'. cbn [emit_node] in Ee.
      destruct (emit_node f (Some x :: labels) cur body) as [[cb b']| | |] eqn:Eb; simpl in Ee; try done. injection Ee as <- <-.
      cbn [run_tree] in Hr. apply bind_Some in Hr as (r1 & H1 & H2).
      destruct (IHn _ _ _ _ _ _ _ _ _ _ Hbody Eb Hb H1) as (k1 & w1 & Hk1 & Hw1). apply related_frame in Hw1.
      destruct r1 as [r|l' [p' regs']|st']; destruct w1 as [r'|[|d] w'|? ?]; try done.
      + subst r'. injection H2 as <-. exists (S (S k1)), (WDone r). rewrite run_loop_eq, run_safepoint, Hk1. done.
      + destruct Hw1 as (-> & bl & Hbl & ->). rewrite decide_True in H2 by done. rewrite Hb in Hbl. injection Hbl as <-.
        destruct (IHn _ _ _ _ _ _ _ _ _ _ (node_loop _ _ _ _ Hbody) Ee' Hb H2) as (k2 & w2 & Hk2 & Hw2).
        exists (S (S (k1 + k2)))%nat, w2. split; [|done].
        rewrite run_loop_eq, run_safepoint, (run_code_mono _ (k1 + k2) _ _ _ _ Hk1) by lia.
        cbn [mbind option_bind]. eapply run_code_mono; [exact Hk2 | lia].
      + destruct Hw1 as [Hne Hrel]. rewrite decide_False in H2 by done. injection H2 as <-.
        exists (S (S k1)), (WBranch d w'). rewrite run_loop_eq, run_safepoint, Hk1. done. }
  pose proof (fwd_edge_of_node _ Hnode) as Hedge. split_and!; [done | done|].
  intros s x labels code cur' regs res Ht Ee Hr.
  destruct Ht as [x b v Hx E|x b Hx E|x b t s Hx E He|x b t args Hx E|x b c t e s1 s2 Hx E H1 H2].
  - injection Ee as <- <-. injection Hr as <-. exists 2%nat. eexists. split; [reflexivity | done].
  - injection Ee as <- <-. injection Hr as <-. exists 1%nat. eexists. split; [reflexivity | done].
  - destruct (target_lookup x b t Hx) as [bt Hbt]; [rewrite E; simpl; set_solver|].
    eapply Hedge; [done | done | done | by left | done].
  - destruct (target_lookup x b t Hx) as [bt Hbt]; [rewrite E; simpl; set_solver|].
    eapply Hedge; [constructor | done | done | by left | done].
  - destruct (target_lookup x b t Hx) as [bt Hbt]; [rewrite E; simpl; set_solver|].
    destruct (target_lookup x b e Hx) as [be Hbe]; [rewrite E; simpl; set_solver|].
    cbn [emit_node] in Ee. destruct (emit_node f (None :: labels) x s1) as [[c1 k1]| | |] eqn:E1; simpl in Ee; try done.
    destruct (emit_node f (None :: labels) k1 s2) as [[c2 k2]| | |] eqn:E2; simpl in Ee; try done. injection Ee as <- <-.
    cbn [run_tree] in Hr. simpl in Hr.
    assert (Harm : exists k w, run_code k (if truthy (regs c) then c1 else c2) regs [] = Some w /\ related (None :: labels) res w).
    { destruct (truthy (regs c)).
      - eapply (IHe s1 t); [done | done | done | by left | done].
      - eapply (IHe s2 e); [done | done | done | | done]. right. eapply (pl_else _ Hphis x c t e); [|done].
        apply terminates_lookup; eauto. }
    destruct Harm as (k & w & Hk & Hw). apply related_if in Hw.
    destruct w as [r|[|d] w'|? ?]; try done.
    + exists (S (S (S k))), (WDone r). cbn [run_code]. rewrite decide_True by done. rewrite Hk. done.
    + exists (S (S (S k))), (WBranch d w'). cbn [run_code]. rewrite decide_True by done. rewrite Hk. done.
Qed.

(** ** Backward *)

Lemma run_insts_inv is_ rest k (l : regs_t) st w :
  run_code k (map WInst is_ ++ rest) l st = Some w ->
  match run_insts is_ l with
  | inl r => w = WDone r
  | inr l' => exists k', (k' <= k)%nat /\ run_code k' rest l' st = Some w
  end.
Proof.
  revert k l. induction is_ as [|i is_ IH]; intros k l Hr; simpl in *; [eauto|].
  destruct k as [|k]; [done|]. simpl in Hr. destruct (run_inst i l) as [r|l']; [congruence|].
  specialize (IH _ _ Hr). destruct (run_insts is_ l'); [done|]. destruct IH as (k' & ? & ?). exists k'. split; [lia | done].
Qed.

Section Backward.
Context (n : nat).

Definition tree_follows (labels : list (option BlockId)) (s : Structured) (st : BlockId * regs_t) (w : wresult) : Prop :=
  exists m res, run_tree f m s st = Some res /\ related labels res w.

Definition bwd_node (s : Structured) (x : BlockId) : Prop := forall k labels cur code cur' p regs w blk,
  (k <= n)%nat -> emit_node f labels cur s = Ok (code, cur') -> lookup_block f x = Some blk ->
  run_code k code (copy_all (phi_moves p (phis blk)) regs) [] = Some w -> tree_follows labels s (p, regs) w.

Definition bwd_edge (s : Structured) (t : BlockId) : Prop := forall k labels cur code cur' p regs w blk,
  (k <= n)%nat -> emit_node f labels cur s = Ok (code, cur') -> lookup_block f t = Some blk ->
  cur = p \/ phis blk = [] -> run_code k code regs [] = Some w -> tree_follows labels s (p, regs) w.

Definition bwd_term (s : Structured) (x : BlockId) : Prop := forall k labels code cur' regs w,
  (k <= n)%nat -> emit_node f labels x s = Ok (code, cur') ->
  run_code k code regs [] = Some w -> tree_follows labels s (x, regs) w.

(** How the trees continue after a part. *)
Lemma tree_simple b next blk p regs labels w :
  lookup_block f b = Some blk ->
  match run_insts (insts blk) (copy_all (phi_moves p (phis blk)) regs) with
  | inl r => w = WDone r
  | inr regs' => tree_follows labels next (b, regs') w
  end -> tree_follows labels (SSimple b next) (p, regs) w.
Proof.
  intros Hb Hw. pose proof (proj1 (lookup_block_Some f Hnd b blk) Hb) as [_ Hid].
  destruct (run_insts _ _) as [r|regs'] eqn:Ei.
  - subst w. exists 1%nat, (Done r). simpl. rewrite Hb. simpl. rewrite Ei. done.
  - destruct Hw as (m & res & Hm & Hrel). exists (S m), res. simpl. rewrite Hb. simpl. rewrite Ei, Hid. done.
Qed.

Lemma tree_labeled l body next st labels w m r1 :
  run_tree f m body st = Some r1 ->
  match r1 with
  | Done r => w = WDone r
  | Goto l' st' => if decide (l' = l) then tree_follows labels next st' w else related labels r1 w
  | Fall _ => False
  end -> tree_follows labels (SLabeled l body next) st w.
Proof.
  intros Hm Hw. destruct r1 as [r|l' st'|]; [| |done].
  - subst w. exists (S m), (Done r). simpl. rewrite Hm. done.
  - case_decide as E.
    + destruct Hw as (m2 & res & Hm2 & Hrel). exists (S (m + m2)), res. simpl.
      rewrite (run_tree_mono f m (m + m2) _ _ _ Hm) by lia. simpl. rewrite decide_True by done.
      split; [|done]. eapply run_tree_mono; [done | lia].
    + exists (S m), (Goto l' st'). simpl. rewrite Hm. simpl. rewrite decide_False by done. done.
Qed.

Lemma tree_loop x body st labels w m r1 :
  run_tree f m body st = Some r1 ->
  match r1 with
  | Done r => w = WDone r
  | Goto l' st' => if decide (l' = x) then tree_follows labels (SLoop x body) st' w else related labels r1 w
  | Fall _ => False
  end -> tree_follows labels (SLoop x body) st w.
Proof.
  assert (Heq : forall k st0, run_tree f (S k) (SLoop x body) st0 =
    (r ← run_tree f k body st0;
     match r with
     | Goto l st' => if decide (l = x) then run_tree f k (SLoop x body) st' else Some (Goto l st')
     | _ => Some r
     end)) by done.
  intros Hm Hw. destruct r1 as [r|l' st'|]; [| |done].
  - subst w. exists (S m), (Done r). rewrite Heq, Hm. done.
  - case_decide as E.
    + destruct Hw as (m2 & res & Hm2 & Hrel). exists (S (m + m2)), res. rewrite Heq.
      rewrite (run_tree_mono f m (m + m2) _ _ _ Hm) by lia. cbn [mbind option_bind]. rewrite decide_True by done.
      split; [|done]. eapply run_tree_mono; [done | lia].
    + exists (S m), (Goto l' st'). rewrite Heq, Hm. simpl. rewrite decide_False by done. done.
Qed.

Lemma tree_if c s1 s2 x (regs : regs_t) labels w :
  tree_follows labels (if truthy (regs c) then s1 else s2) (x, regs) w -> tree_follows labels (SIf c s1 s2) (x, regs) w.
Proof.
  intros (m & res & Hm & Hrel). exists (S m), res. split; [|done]. simpl. by destruct (truthy (regs c)).
Qed.

End Backward.

Lemma tree_follows_if labels s st w :
  tree_follows (None :: labels) s st w ->
  match w with
  | WDone r => tree_follows labels s st (WDone r)
  | WBranch (S d) regs => tree_follows labels s st (WBranch d regs)
  | _ => False
  end.
Proof.
  intros (m & res & Hm & Hrel). apply related_if in Hrel. destruct w as [r|[|d] regs|? ?]; try done; by exists m, res.
Qed.

Lemma backward n : (forall s x, node s x -> bwd_node n s x) /\ (forall s x, term s x -> bwd_term n s x) /\
  (forall s t, edge s t -> bwd_edge n s t).
Proof.
  induction n as [n IH] using lt_wf_ind.
  assert (IHn : forall k s x, (k < n)%nat -> node s x -> bwd_node k s x) by (intros k s x Hk; by apply (IH k)).
  assert (IHe : forall k s x, (k < n)%nat -> edge s x -> bwd_edge k s x) by (intros k s x Hk; by apply (IH k)).
  clear IH. apply (nodes_ind f (single f) (bwd_node n) (bwd_term n) (bwd_edge n)).
  - intros x next Ht IH k labels cur code cur' p regs w blk Hk Ee Hb Hr.
    destruct (emit_simple _ _ _ _ _ _ _ Hb Ee) as (rest & Er & ->). apply run_insts_inv in Hr.
    eapply tree_simple; [done|]. destruct (run_insts _ _) as [r|regs']; [done|].
    destruct Hr as (k' & Hk' & Hr). eapply IH; [|done|done]. lia.
  - intros x l body next Hbody _ Hnext _ k labels cur code cur' p regs w blk Hk Ee Hb Hr. cbn [emit_node] in Ee.
    destruct (emit_node f (Some l :: labels) cur body) as [[cb b']| | |] eqn:Eb; simpl in Ee; try done.
    destruct (emit_node f labels b' next) as [[cn n']| | |] eqn:En; simpl in Ee; try done. injection Ee as <- <-.
    destruct k as [|k]; [done|]. cbn [run_code] in Hr. apply bind_Some in Hr as (w1 & H1 & H2).
    destruct (IHn k _ _ ltac:(lia) Hbody k _ _ _ _ _ _ _ _ ltac:(lia) Eb Hb H1) as (m & r1 & Hm & Hrel).
    apply related_frame in Hrel. eapply tree_labeled; [exact Hm|].
    destruct r1 as [r|l' [p' regs']|st']; destruct w1 as [r'|[|d] w'|? ?]; try done.
    + subst r'. by injection H2 as <-.
    + destruct Hrel as (-> & bl & Hbl & ->). rewrite decide_True by done.
      exact (IHn k _ _ ltac:(lia) Hnext k _ _ _ _ _ _ _ _ ltac:(lia) En Hbl H2).
    + destruct Hrel as [Hne Hrel]. rewrite decide_False by done. by injection H2 as <-.
  - intros x body Hbody _ k labels cur code cur' p regs w blk Hk Ee Hb Hr. pose proof Ee as Ee'. cbn [emit_node] in Ee.
    destruct (emit_node f (Some x :: labels) cur body) as [[cb b']| | |] eqn:Eb; simpl in Ee; try done. injection Ee as <- <-.
    destruct k as [|k]; [done|]. rewrite run_loop_eq in Hr. apply bind_Some in Hr as (w1 & H1 & H2).
    destruct k as [|k]; [done|]. rewrite run_safepoint in H1.
    destruct (IHn k _ _ ltac:(lia) Hbody k _ _ _ _ _ _ _ _ ltac:(lia) Eb Hb H1) as (m & r1 & Hm & Hrel).
    apply related_frame in Hrel. eapply tree_loop; [exact Hm|].
    destruct r1 as [r|l' [p' regs']|st']; destruct w1 as [r'|[|d] w'|? ?]; try done.
    + subst r'. by injection H2 as <-.
    + destruct Hrel as (-> & bl & Hbl & ->). rewrite decide_True by done. rewrite Hb in Hbl. injection Hbl as <-.
      exact (IHn (S k) _ _ ltac:(lia) (node_loop _ _ _ _ Hbody) (S k) _ _ _ _ _ _ _ _ ltac:(lia) Ee' Hb H2).
    + destruct Hrel as [Hne Hrel]. rewrite decide_False by done. by injection H2 as <-.
  - intros x b v Hx E k labels code cur' regs w Hk Ee Hr. injection Ee as <- <-.
    destruct k as [|[|k]]; [done..|]. injection Hr as <-. by exists 1%nat, (Done (returned (regs v))).
  - intros x b Hx E k labels code cur' regs w Hk Ee Hr. injection Ee as <- <-.
    destruct k as [|k]; [done|]. injection Hr as <-. by exists 1%nat, (Done trapped).
  - intros x b t s Hx E He IH k labels code cur' regs w Hk Ee Hr.
    destruct (target_lookup x b t Hx) as [bt Hbt]; [rewrite E; simpl; set_solver|].
    eapply IH; [done | done | done | by left | done].
  - intros x b t args Hx E k labels code cur' regs w Hk Ee Hr.
    destruct (target_lookup x b t Hx) as [bt Hbt]; [rewrite E; simpl; set_solver|].
    cbn [emit_node] in Ee. destruct (emit_br f labels x t) as [c| | |] eqn:Eb; simpl in Ee; try done. injection Ee as -> <-.
    destruct (emit_br_spec labels x x t bt code Hbt ltac:(auto) Eb) as (d & Hd & Hw). exists 1%nat, (Goto t (x, regs)).
    split; [done|]. rewrite (Hw _ _ _ Hr). simpl. eauto.
  - intros x b c t e s1 s2 Hx E H1 _ H2 _ k labels code cur' regs w Hk Ee Hr.
    destruct (target_lookup x b t Hx) as [bt Hbt]; [rewrite E; simpl; set_solver|].
    destruct (target_lookup x b e Hx) as [be Hbe]; [rewrite E; simpl; set_solver|].
    cbn [emit_node] in Ee. destruct (emit_node f (None :: labels) x s1) as [[c1 k1]| | |] eqn:E1; simpl in Ee; try done.
    destruct (emit_node f (None :: labels) k1 s2) as [[c2 k2]| | |] eqn:E2; simpl in Ee; try done. injection Ee as <- <-.
    destruct k as [|[|[|k]]]; [done..|]. cbn [run_code] in Hr. rewrite decide_True in Hr by done.
    apply bind_Some in Hr as (w1 & Hw1 & Hw2). apply tree_if.
    assert (Harm : tree_follows (None :: labels) (if truthy (regs c) then s1 else s2) (x, regs) w1).
    { destruct (truthy (regs c)).
      - eapply (IHe k s1 t); [lia | done | | exact E1 | done | by left | done]. lia.
      - eapply (IHe k s2 e); [lia | done | | exact E2 | done | | done]; [lia|]. right.
        eapply (pl_else _ Hphis x c t e); [|done]. apply terminates_lookup; eauto. }
    apply tree_follows_if in Harm. destruct w1 as [r|[|d] regs'|? ?]; try done; by injection Hw2 as <-.
  - intros t k labels cur code cur' p regs w blk Hk Ee Hb Hcur Hr. cbn [emit_node] in Ee.
    destruct (emit_br f labels cur t) as [c| | |] eqn:Eb; simpl in Ee; try done. injection Ee as -> <-.
    destruct (emit_br_spec labels cur p t blk code Hb Hcur Eb) as (d & Hd & Hw). exists 1%nat, (Goto t (p, regs)).
    split; [done|]. rewrite (Hw _ _ _ Hr). simpl. eauto.
  - intros s t Ht Hs IH k labels cur code cur' p regs w blk Hk Ee Hb Hcur Hr.
    assert (Hp : copy_all (phi_moves p (phis blk)) regs = regs) by (by rewrite (pl_single _ Hphis t blk Hb Ht)).
    rewrite <- Hp in Hr. by eapply IH.
Qed.

(** The code of a closed tree ends exactly as the tree does. *)
Lemma code_equivalent s x blk labels cur code cur' (p : BlockId) (regs : regs_t) (r : R) :
  node s x -> emit_node f labels cur s = Ok (code, cur') -> lookup_block f x = Some blk -> phis blk = [] ->
  (exists m, run_tree f m s (p, regs) = Some (Done r)) <-> (exists m, run_code m code regs [] = Some (WDone r)).
Proof.
  intros Hs Ee Hb Hp. assert (Hc : copy_all (phi_moves p (phis blk)) regs = regs) by (by rewrite Hp).
  split; intros [m Hm].
  - destruct (forward m) as (Hf & _). destruct (Hf _ _ _ _ _ _ _ _ _ _ Hs Ee Hb Hm) as (k & w & Hk & Hrel).
    rewrite Hc in Hk. destruct w; simpl in Hrel; try done. subst. eauto.
  - destruct (backward m) as (Hbk & _). rewrite <- Hc in Hm.
    destruct (Hbk _ _ Hs m _ _ _ _ _ _ _ _ ltac:(lia) Ee Hb Hm) as (k & res & Hk & Hrel).
    destruct res as [r'|l st|st]; simpl in Hrel; try done. subst. eauto.
Qed.

(** A tree never runs off its end, nor does its code. *)
Lemma code_no_fall s x blk labels cur code cur' (p : BlockId) (regs : regs_t) m w :
  node s x -> emit_node f labels cur s = Ok (code, cur') -> lookup_block f x = Some blk -> phis blk = [] ->
  run_code m code regs [] = Some w -> exists res : tree_res, related labels res w.
Proof.
  intros Hs Ee Hb Hp Hm. assert (Hc : copy_all (phi_moves p (phis blk)) regs = regs) by (by rewrite Hp).
  destruct (backward m) as (Hbk & _). rewrite <- Hc in Hm.
  destruct (Hbk _ _ Hs m _ _ _ _ _ _ _ _ ltac:(lia) Ee Hb Hm) as (k & res & _ & Hrel). eauto.
Qed.

Lemma run_code_app m code rest (l : regs_t) st w :
  run_code m (code ++ rest) l st = Some w ->
  exists w1, run_code (S m) code l st = Some w1 /\
    match w1 with
    | WNext l' st' => exists m', run_code m' rest l' st' = Some w
    | _ => w = w1
    end.
Proof.
  revert code l st. induction m as [|m IH]; intros code l st Hr; [done|].
  destruct code as [|i code]; [exists (WNext l st); split; [done | eauto]|].
  rewrite <- app_comm_cons in Hr.
  assert (Hsub : forall body (l0 : regs_t) st0 r, run_code m body l0 st0 = Some r -> run_code (S m) body l0 st0 = Some r).
  { intros body l0 st0 r Hb. eapply run_code_mono; [done | lia]. }
  destruct i; cbn [run_code] in Hr.
  - apply bind_Some in Hr as (r1 & H1 & H2). destruct r1 as [r|[|d] l1|l1 st1].
    all: change (run_code (S (S m)) (WBlock body :: code) l st) with (r ← run_code (S m) body l [];
      match r with
      | WBranch 0 locals' => run_code (S m) code locals' st
      | WBranch (S d) locals' => Some (WBranch d locals')
      | WNext locals' _ => run_code (S m) code locals' st
      | WDone r => Some (WDone r)
      end); rewrite (Hsub _ _ _ _ H1); cbn [mbind option_bind].
    + injection H2 as <-. by eexists.
    + by apply IH.
    + injection H2 as <-. by eexists.
    + by apply IH.
  - apply bind_Some in Hr as (r1 & H1 & H2). rewrite run_loop_eq, (Hsub _ _ _ _ H1). cbn [mbind option_bind].
    destruct r1 as [r|[|d] l1|l1 st1]; [injection H2 as <-; by eexists | | injection H2 as <-; by eexists | by apply IH].
    by apply (IH (WLoop body :: code)).
  - destruct st as [|[v|b] st]; [injection Hr as <-; by eexists..|].
    apply bind_Some in Hr as (r1 & H1 & H2). destruct r1 as [r|[|d] l1|l1 st1].
    all: change (run_code (S (S m)) (WIf then_code else_code :: code) l (OBool b :: st)) with
      (r ← run_code (S m) (if b then then_code else else_code) l [];
      match r with
      | WBranch 0 locals' => run_code (S m) code locals' st
      | WBranch (S d) locals' => Some (WBranch d locals')
      | WNext locals' _ => run_code (S m) code locals' st
      | WDone r => Some (WDone r)
      end); rewrite (Hsub _ _ _ _ H1); cbn [mbind option_bind].
    + injection H2 as <-. by eexists.
    + by apply IH.
    + injection H2 as <-. by eexists.
    + by apply IH.
  - injection Hr as <-. by eexists.
  - destruct st as [|[v|b] st]; injection Hr as <-; by eexists.
  - injection Hr as <-. by eexists.
  - by apply IH in Hr.
  - destruct st as [|[v'|b] st]; [injection Hr as <-; by eexists | by apply IH in Hr | injection Hr as <-; by eexists].
  - change (run_code (S (S m)) (WCall import :: code) l st) with
      (if decide (import = "rt_truthiness"%string) then
         match st with
         | OVal x :: stack' => run_code (S m) code l (OBool (truthy x) :: stack')
         | _ => Some (WDone trapped)
         end
       else run_code (S m) code l st).
    case_decide; [|by apply IH]. destruct st as [|[v'|b] st]; [injection Hr as <-; by eexists | by apply IH in Hr | injection Hr as <-; by eexists].
  - change (run_code (S (S m)) (WInst i :: code) l st) with
      (match run_inst i l with inl r => Some (WDone r) | inr l' => run_code (S m) code l' st end).
    destruct (run_inst i l); [injection Hr as <-; by eexists | by apply IH].
Qed.

Lemma run_code_app_done m code rest (l : regs_t) st r :
  run_code m code l st = Some (WDone r) -> run_code m (code ++ rest) l st = Some (WDone r).
Proof.
  revert code l st. induction m as [|m IH]; intros code l st Hr; [done|]. destruct code as [|i code]; [done|].
  rewrite <- app_comm_cons. destruct i; cbn [run_code] in *; try done; try (by apply IH).
  - apply bind_Some in Hr as (r1 & H1 & H2). rewrite H1. simpl. destruct r1 as [?|[|d] ?|? ?]; try done; by apply IH.
  - apply bind_Some in Hr as (r1 & H1 & H2). rewrite H1. simpl. destruct r1 as [?|[|d] ?|? ?]; try done; [|by apply IH].
    by apply (IH (WLoop body :: code)).
  - destruct st as [|[v|b] st]; try done. apply bind_Some in Hr as (r1 & H1 & H2). rewrite H1. simpl.
    destruct r1 as [?|[|d] ?|? ?]; try done; by apply IH.
  - destruct st as [|[v'|b] st]; try done. by apply IH.
  - case_decide; [|by apply IH]. destruct st as [|[v'|b] st]; try done. by apply IH.
  - destruct (run_inst i l); [done | by apply IH].
Qed.

End Simulation.

(** C8: the WebAssembly code of a reducible function whose phis stand in
    merge blocks entered by jumps returns exactly what the graph of the
    function returns, with phis copied in parallel, whatever the instructions
    and the runtime do. *)
Theorem emit_preserves_meaning f entry :
  well_formed f entry -> reducible f entry -> phis_placed f ->
  exists s code, reloop f = Ok s /\ emit_function f s = Ok code /\
    forall (V R : Type) (HW : WasmHost V R) prev (locals : VarId -> V) (r : R),
      (exists n, run_cfg f n entry (prev, locals) = Some r) <-> (exists m, run_function m code locals = Some r).
Proof.
  intros Hwf Hred Hpl. destruct (reloop_tree f entry Hwf Hred) as (s & Es & Hn & Hc & _).
  pose proof (wf_ids _ _ Hwf) as Hnd.
  assert (Htargets : forall b t, succ f b t -> is_Some (lookup_block f t)).
  { intros b t Ht. apply (wf_targets _ _ Hwf) in Ht. destruct (in_ids_terminates f entry Hwf t Ht) as (blk & ? & _). eauto. }
  destruct (wf_entry _ _ Hwf) as (b0 & rest & Eb & Eid).
  assert (Hb0 : lookup_block f entry = Some b0) by (apply lookup_block_Some; [done|]; rewrite Eb; split; [set_solver | done]).
  assert (Hp0 : phis b0 = []) by (by eapply pl_entry).
  destruct (proj1 (emit_total f Hnd Htargets Hpl) s entry Hn [] entry) as (code & cur' & Ee).
  { intros l Hl. rewrite Hc in Hl. set_solver. }
  exists s, (WCall "rt_safepoint" :: code ++ [WUnreachable]). split_and!; [done| |].
  { unfold emit_function. rewrite Eb, Eid, Ee. done. }
  intros V R HW prev locals r. rewrite (node_equivalent f (single f) s entry (prev, locals) r Hn Hc).
  rewrite (code_equivalent f Hnd Htargets Hpl s entry b0 [] entry code cur' prev locals r Hn Ee Hb0 Hp0). split.
  - intros [m Hm]. exists (S m). unfold run_function. rewrite run_safepoint, (run_code_app_done _ _ _ _ _ _ Hm). done.
  - intros [m Hm]. unfold run_function in Hm. apply bind_Some in Hm as (w & Hw & Hr). destruct w; try done.
    injection Hr as ->. destruct m as [|m]; [done|]. rewrite run_safepoint in Hw.
    destruct (run_code_app _ _ _ _ _ _ Hw) as (w1 & H1 & H2).
    destruct (code_no_fall f Hnd Htargets Hpl s entry b0 [] entry code cur' prev locals _ _ Hn Ee Hb0 Hp0 H1) as (res & Hrel).
    destruct w1 as [r'|d l'|l' st']; [injection H2 as ->; eauto | done|].
    destruct res; done.
Qed.

(** Constants, addition and comparison of longs; [None] is a trap. *)
#[export] Instance small_host : WasmHost SmallValue (option SmallValue) := {|
  truthy := is_truthy;
  run_inst i locals :=
    match i with
    | IConst d (CLong n) => inr (set_local d (SvLong n) locals)
    | IConst d (CBool b) => inr (set_local d (SvBool b) locals)
    | IConst d CNil => inr (set_local d SvNil locals)
    | ICallKnown d k [a; b] =>
        match small_known k (locals a) (locals b) with
        | Some v => inr (set_local d v locals)
        | None => inl None
        end
    | _ => inl None
    end;
  returned v := Some v;
  trapped := None
|}.

Definition no_locals (v : VarId) : SmallValue := SvNil.

Definition compile (f : IrFunction) : option (list Instruction) :=
  match reloop f with
  | Ok s => match emit_function f s with Ok code => Some code | _ => None end
  | _ => None
  end.

(** [(if c 7 8)] with [c] the local 10 *)
Definition diamond : IrFunction :=
  with_blocks
    [mkBlock 0 [] [] (Branch 10 1 2);
     mkBlock 1 [] [IConst 1 (CLong 7)] (Jump 3);
     mkBlock 2 [] [IConst 2 (CLong 8)] (Jump 3);
     mkBlock 3 [IPhi 3 [(1, 1); (2, 2)]] [] (Return 3)]
    (IrFunction_new None None).

Lemma diamond_succ b s : succ diamond b s -> (b = 0 /\ (s = 1 \/ s = 2)) \/ ((b = 1 \/ b = 2) /\ s = 3).
Proof. intros H. edge_cases H; set_unfold in H; naive_solver. Qed.

Lemma diamond_well_formed : well_formed diamond 0.
Proof.
  constructor.
  - apply (bool_decide_unpack _). vm_compute. exact I.
  - eexists _, _. split; reflexivity.
  - intros b s Hs. apply diamond_succ in Hs. unfold ids. simpl. rewrite !elem_of_cons. lia.
Qed.

Lemma diamond_reducible : reducible diamond 0.
Proof.
  constructor.
  - exists Z.to_nat. intros b s _ Hf.
    assert (Hs : b < s /\ 0 <= b); [|lia]. edge_cases Hf; set_unfold in Hf; naive_solver lia.
  - intros b h _ Hb. edge_cases Hb; done.
Qed.

Lemma diamond_phis_placed : phis_placed diamond.
Proof.
  assert (Hphis : forall b blk, lookup_block diamond b = Some blk -> b <> 3 -> phis blk = []).
  { intros b blk Hb Hn. apply lookup_block_Some in Hb as [Hin <-]; [|exact (wf_ids _ _ diamond_well_formed)].
    simpl in Hin. repeat (apply elem_of_cons in Hin as [->|Hin]; [done|]). by apply elem_of_nil in Hin. }
  constructor.
  - intros b0 rest E. by injection E as <- _.
  - intros b blk Hb Hm. apply (Hphis b); [done|]. intros ->. apply Hm. unfold merge. vm_compute. lia.
  - intros x c t e blk (b & Hin & _ & Ht) He. apply (Hphis e); [done|].
    simpl in Hin. repeat (apply elem_of_cons in Hin as [->|Hin]; [simplify_eq/=; done|]). by apply elem_of_nil in Hin.
Qed.

Lemma emit_preserves_meaning_witness :
  exists s code, reloop diamond = Ok s /\ emit_function diamond s = Ok code /\
    forall (V R : Type) (HW : WasmHost V R) prev (locals : VarId -> V) (r : R),
      (exists n, run_cfg diamond n 0 (prev, locals) = Some r) <-> (exists m, run_function m code locals = Some r).
Proof.
  apply emit_preserves_meaning; [exact diamond_well_formed | exact diamond_reducible | exact diamond_phis_placed].
Defined.

(** * The header of a loop *)

(** [(loop [i 0] (if (< i 2) (recur (inc i)) i))] *)
Definition count_to_two : IrFunction :=
  with_blocks
    [mkBlock 0 [] [IConst 0 (CLong 0)] (Jump 1);
     mkBlock 1 [IPhi 2 [(0, 0); (2, 6)]] [IConst 4 (CLong 2); ICallKnown 7 KLt [2; 4]] (Branch 7 2 3);
     mkBlock 2 [] [IConst 5 (CLong 1); ICallKnown 6 KAdd [2; 5]] (RecurJump 1 [6]);
     mkBlock 3 [] [] (Return 2)]
    (IrFunction_new None None).

Definition count_body : list Instruction :=
  [WCall "rt_safepoint"; WLocalGet 0; WLocalSet 2; WInst (IConst 4 (CLong 2)); WInst (ICallKnown 7 KLt [2; 4]);
   WLocalGet 7; WCall "rt_truthiness";
   WIf [WInst (IConst 5 (CLong 1)); WInst (ICallKnown 6 KAdd [2; 5]); WLocalGet 6; WLocalSet 2; WBr 1]
       [WLocalGet 2; WReturn]].

Lemma run_get n v rest (l : VarId -> SmallValue) st :
  run_code (S n) (WLocalGet v :: rest) l st = run_code n rest l (OVal (l v) :: st).
Proof. done. Qed.

Lemma run_set n v x rest (l : VarId -> SmallValue) st :
  run_code (S n) (WLocalSet v :: rest) l (OVal x :: st) = run_code n rest (set_local v x l) st.
Proof. done. Qed.

Lemma run_long n d x rest (l : VarId -> SmallValue) st :
  run_code (S n) (WInst (IConst d (CLong x)) :: rest) l st = run_code n rest (set_local d (SvLong x) l) st.
Proof. done. Qed.

Lemma run_known n d k a b v rest (l : VarId -> SmallValue) st :
  small_known k (l a) (l b) = Some v ->
  run_code (S n) (WInst (ICallKnown d k [a; b]) :: rest) l st = run_code n rest (set_local d v l) st.
Proof. intros E. cbn [run_code run_inst small_host]. by rewrite E. Qed.

Lemma run_truthy n x rest (l : VarId -> SmallValue) st :
  run_code (S n) (WCall "rt_truthiness" :: rest) l (OVal x :: st) = run_code n rest l (OBool (truthy x) :: st).
Proof. done. Qed.

Lemma run_if_branch n (b : bool) t e d rest (l l' : VarId -> SmallValue) st :
  run_code n (if b then t else e) l [] = Some (WBranch (S d) l') ->
  run_code (S n) (WIf t e :: rest) l (OBool b :: st) = Some (WBranch d l').
Proof. intros E. cbn [run_code]. by rewrite E. Qed.

(** One round of the emitted loop copies the initial value again and so takes
    the branch back. *)
Lemma count_round (l : VarId -> SmallValue) :
  l 0 = SvLong 0 -> exists l', l' 0 = SvLong 0 /\ run_code 20 count_body l [] = Some (WBranch 0 l').
Proof.
  intros Hl. unfold count_body.
  rewrite run_safepoint, run_get, run_set, run_long, Hl, (run_known _ _ _ _ _ (SvBool true)), run_get by reflexivity.
  set (l1 := set_local 7 _ _). assert (H0 : l1 0 = SvLong 0) by exact Hl.
  assert (H2 : l1 2 = SvLong 0) by done. assert (H7 : l1 7 = SvBool true) by done. clearbody l1.
  rewrite run_truthy, H7. eexists. split; [|apply (run_if_branch _ true)].
  2: { rewrite run_long, (run_known _ _ _ _ _ (SvLong 1)), run_get, run_set by (unfold set_local; simpl; by rewrite H2).
       reflexivity. }
  exact H0.
Qed.

Lemma count_loop fuel (l : VarId -> SmallValue) rest :
  l 0 = SvLong 0 -> run_code fuel (WLoop count_body :: rest) l [] = None.
Proof.
  revert l. induction fuel as [|n IH]; intros l Hl; [done|]. rewrite run_loop_eq.
  destruct (run_code n count_body l []) as [w|] eqn:E; [|done].
  destruct (count_round l Hl) as (l' & Hl' & E').
  apply (run_code_mono _ (n + 20)) in E; [|lia]. apply (run_code_mono _ (n + 20)) in E'; [|lia].
  rewrite E in E'. injection E' as ->. by apply IH.
Qed.

(** The code emitted for [(loop [i 0] (if (< i 2) (recur (inc i)) i))]
    never returns, although the graph of the function returns 2: the phi of
    the loop header is copied from the entry block at the top of the [loop],
    on every iteration. *)
Theorem emitted_loop_resets_its_variable :
  exists code, compile count_to_two = Some code /\
    (forall fuel locals, run_function fuel code locals = None) /\
    run_cfg count_to_two 20 0 (0, no_locals) = Some (Some (SvLong 2)).
Proof.
  eexists. split_and!; [vm_compute; reflexivity| |vm_compute; reflexivity].
  intros fuel locals. unfold run_function. destruct fuel as [|[|fuel]]; [done..|].
  change (run_code (S (S fuel)) _ locals []) with
    (run_code fuel (WLoop count_body :: [WUnreachable]) (set_local 0 (SvLong 0) locals) []).
  by rewrite count_loop.
Qed.

(** * Short circuits *)

(** [(and a b)] with [a] in local 10 and [b] in local 11 *)
Definition and_graph : IrFunction :=
  with_blocks
    [mkBlock 0 [] [] (Branch 10 1 2); mkBlock 1 [] [] (Jump 2); mkBlock 2 [IPhi 3 [(0, 10); (1, 11)]] [] (Return 3)]
    (IrFunction_new None None).

Definition false_and_7 (v : VarId) : SmallValue := if decide (v = 11) then SvLong 7 else SvBool false.

(** The code emitted for [(and false 7)] returns 7, where the graph of
    the function returns false: the else arm of a conditional is emitted with
    the last block of the then arm as its predecessor. *)
Theorem emitted_and_skips_its_test :
  exists code, compile and_graph = Some code /\
    run_function 20 code false_and_7 = Some (Some (SvLong 7)) /\
    run_cfg and_graph 20 0 (0, false_and_7) = Some (Some (SvBool false)).
Proof. eexists. split_and!; [vm_compute; reflexivity..]. Qed.
