(* ===== verification/Osr.v ===== *)
(** On-stack replacement (crates/cljrs-ir/src/osr.rs): the variant of a
    function that starts at a loop header. *)
From stdpp Require Import strings gmap sorting.
From S2P Require Import Prelude RustStd Token Ir.
Local Open Scope Z_scope.

Definition MAX_OSR_PARAMS : nat := 8.

Record OsrFunction : Type := mkOsrFunction {
  osr_func : IrFunction;
  live_ins : list VarId
}.

(** The messages of the errors, as data. *)
Inductive OsrError : Type :=
| HeaderNotFound (header : BlockId)
| TooManyLiveIns (n : nat)
| OuterRegionCall.

(** VarIds read by a terminator. *)
Definition terminator_uses (t : Terminator) : list VarId :=
  match t with
  | Jump _ | Unreachable => []
  | Branch cond _ _ => [cond]
  | Return v => [v]
  | RecurJump _ args => args
  end.

(** [ops.chunks(2).map(|pair| (pair[0], pair[1]))]: an odd chunk panics. *)
Fixpoint chunk_pairs {E : Type} (ops : list VarId) : outcome E (list (VarId * VarId)) :=
  match ops with
  | [] => Ok []
  | k :: v :: ops' => ps ← chunk_pairs ops'; Ok ((k, v) :: ps)
  | [_] => Panic
  end.

Definition plain_alloc {E : Type} (d : VarId) (kind : RegionAllocKind) (ops : list VarId) : outcome E Inst :=
  match kind with
  | RkVector => Ok (IAllocVector d ops)
  | RkSet => Ok (IAllocSet d ops)
  | RkList => Ok (IAllocList d ops)
  | RkMap => ps ← chunk_pairs ops; Ok (IAllocMap d ps)
  | RkCons => match ops with h :: t :: _ => Ok (IAllocCons d h t) | _ => Panic end
  end.

(** * Blocks reachable from the header *)

Definition add_block (m : gmap BlockId Block) (b : Block) : gmap BlockId Block := <[block_id b := b]> m.

Definition blocks_by_id (f : IrFunction) : gmap BlockId Block := fold_left add_block (blocks f) ∅.

(** [if reach.insert(succ) { queue.push_back(succ) }] *)
Definition visit (acc : gset BlockId * list BlockId) (succ : BlockId) : gset BlockId * list BlockId :=
  if decide (succ ∈ acc.1) then acc else ({[succ]} ∪ acc.1, acc.2 ++ [succ]).

Fixpoint reach_loop {E : Type} (fuel : nat) (bs : gmap BlockId Block) (reach : gset BlockId) (queue : list BlockId)
    : outcome E (gset BlockId) :=
  match fuel with
  | O => OutOfFuel
  | S fuel' =>
      match queue with
      | [] => Ok reach
      | bid :: queue' =>
          match bs !! bid with
          | None => Panic
          | Some block =>
              let acc := fold_left visit (successors (terminator block)) (reach, queue') in
              reach_loop fuel' bs acc.1 acc.2
          end
      end
  end.

(** Every block enters the queue once. *)
Definition reachable {E : Type} (f : IrFunction) (header : BlockId) : outcome E (gset BlockId) :=
  reach_loop (S (length (blocks f))) (blocks_by_id f) {[header]} [header].

Definition in_reach (reach : gset BlockId) (f : IrFunction) : list Block :=
  filter (fun b => block_id b ∈ reach) (blocks f).

(** * Live-ins *)

Definition region_starts (b : Block) : list VarId :=
  insts b ≫= fun i => match i with IRegionStart d => [d] | _ => [] end.

(** Handles of the regions opened before the loop. *)
Definition outer_handles (reach : gset BlockId) (f : IrFunction) : gset VarId :=
  list_to_set (filter (fun b => block_id b ∉ reach) (blocks f) ≫= region_starts).

Definition phi_defs (b : Block) : list VarId :=
  phis b ≫= fun i => match i with IPhi d _ => [d] | _ => [] end.

Definition block_defs (b : Block) : list VarId :=
  phi_defs b ++ (insts b ≫= fun i => match dst i with Some d => [d] | None => [] end).

Definition phi_uses (reach : gset BlockId) (b : Block) : list VarId :=
  phis b ≫= fun i => match i with IPhi _ entries => map snd (filter (fun e => e.1 ∈ reach) entries) | _ => [] end.

Definition inst_uses (outer : gset VarId) (b : Block) : list VarId :=
  insts b ≫= fun i => filter (fun u => u ∉ outer) (uses i).

Definition block_uses (reach : gset BlockId) (outer : gset VarId) (b : Block) : list VarId :=
  phi_uses reach b ++ inst_uses outer b ++ terminator_uses (terminator b).

(** Values read in the reachable part and not defined there, by id. *)
Definition outer_live (reach : gset BlockId) (f : IrFunction) : list VarId :=
  let outer := outer_handles reach f in
  let defs : gset VarId := list_to_set (in_reach reach f ≫= block_defs) in
  let uses : gset VarId := list_to_set (in_reach reach f ≫= block_uses reach outer) in
  merge_sort Z.le (elements (uses ∖ defs)).

(** * The variant *)

Definition calls_with_outer_region (outer : gset VarId) (i : Inst) : bool :=
  match i with
  | ICallWithRegion _ _ _ r => bool_decide (r ∈ outer)
  | _ => false
  end.

Definition retain_entries (reach : gset BlockId) (i : Inst) : Inst :=
  match i with
  | IPhi d entries => IPhi d (filter (fun e => e.1 ∈ reach) entries)
  | _ => i
  end.

(** [b.phis.iter_mut().zip(&phi_params)] *)
Fixpoint feed_phis (entry_id : BlockId) (ps : list Inst) (phi_params : list VarId) : list Inst :=
  match ps, phi_params with
  | i :: ps', p :: phi_params' =>
      match i with
      | IPhi d entries => IPhi d (entries ++ [(entry_id, p)])
      | _ => i
      end :: feed_phis entry_id ps' phi_params'
  | _, _ => ps
  end.

Definition closes_outer_region (outer : gset VarId) (i : Inst) : bool :=
  match i with
  | IRegionEnd r => bool_decide (r ∈ outer)
  | _ => false
  end.

Definition rewrite_alloc {E : Type} (outer : gset VarId) (i : Inst) : outcome E Inst :=
  match i with
  | IRegionAlloc d r kind ops => if decide (r ∈ outer) then plain_alloc d kind ops else Ok i
  | _ => Ok i
  end.

Fixpoint rewrite_allocs {E : Type} (outer : gset VarId) (is_ : list Inst) : outcome E (list Inst) :=
  match is_ with
  | [] => Ok []
  | i :: is' => i' ← rewrite_alloc outer i; r ← rewrite_allocs outer is'; Ok (i' :: r)
  end.

Section Variant.
Context {E : Type} (reach : gset BlockId) (outer : gset VarId) (header entry_id : BlockId) (phi_params : list VarId).

Definition osr_block (b : Block) : outcome E Block :=
  let ps := map (retain_entries reach) (phis b) in
  let ps := if decide (block_id b = header) then feed_phis entry_id ps phi_params else ps in
  is_ ← rewrite_allocs outer (List.filter (fun i => negb (closes_outer_region outer i)) (insts b));
  Ok (mkBlock (block_id b) ps is_ (terminator b)).

Fixpoint osr_blocks (bs : list Block) : outcome E (list Block) :=
  match bs with
  | [] => Ok []
  | b :: bs' => b' ← osr_block b; r ← osr_blocks bs'; Ok (b' :: r)
  end.

End Variant.

(** Fresh variables, from [next] on; identifiers are not bounded here. *)
Fixpoint fresh_vars (next : VarId) (n : nat) : list VarId :=
  match n with
  | O => []
  | S n' => next :: fresh_vars (next + 1) n'
  end.

Definition osr_name (f : IrFunction) (header : BlockId) : list Z :=
  default (lit "<anon>") (fn_name f) ++ lit "__osr_bb" ++ to_string header.

Definition build_osr_function (f : IrFunction) (header : BlockId) : outcome OsrError OsrFunction :=
  match blocks_by_id f !! header with
  | None => Err (HeaderNotFound header)
  | Some header_block =>
      reach ← reachable f header;
      let outer := outer_handles reach f in
      let phi_dsts := phi_defs header_block in
      let live := outer_live reach f in
      if (MAX_OSR_PARAMS <? length phi_dsts + length live)%nat
      then Err (TooManyLiveIns (length phi_dsts + length live))
      else
        let phi_params := fresh_vars (next_var f) (length phi_dsts) in
        let params :=
          imap (fun i p => (lit "__osr_phi" ++ to_string (Z.of_nat i), p)) phi_params ++
          map (fun v => (lit "__osr_v" ++ to_string v, v)) live in
        if existsb (calls_with_outer_region outer) (in_reach reach f ≫= insts) then Err OuterRegionCall
        else
          let entry_id := next_block f in
          bs ← osr_blocks reach outer header entry_id phi_params (in_reach reach f);
          Ok (mkOsrFunction
                (mkIrFunction (Some (osr_name f header)) params (mkBlock entry_id [] [] (Jump header) :: bs)
                   (next_var f + Z.of_nat (length phi_dsts)) (next_block f + 1) (fn_span f) (subfunctions f)
                   (is_async f) (is_async_poll_fn f) (async_resume_blocks f) [] [])
                (phi_dsts ++ live))
  end.
