(* ===== verification/OsrSem.v ===== *)
(** What functions in A-normal form compute, over registers that may be
    undefined: the machine on which the variants of a function are compared. *)
From stdpp Require Import gmap.
From S2P Require Import Prelude RustStd Token Ir Reloop ReloopSem IrInterp.
Local Open Scope Z_scope.

(** What an instruction does with the values of its operands: it ends the
    function or gives the value of its destination and changes the heap. *)
Class SsaHost (V H R : Type) : Type := {
  exec : Inst -> list V -> H -> R + (V * H);
  truth : V -> bool;
  ret : V -> H -> R;
  undefined : R;
  unreachable : H -> R
}.

Section Machine.
Context {V H R : Type} {SH : SsaHost V H R}.

Abbreviation regs := (gmap VarId V).

Definition read_all (r : regs) (vs : list VarId) : option (list V) := mapM (fun v => r !! v) vs.

(** Phis are copied in parallel. *)
Definition write_all (ds : list VarId) (xs : list V) (r : regs) : regs :=
  foldr (fun p acc => <[p.1 := p.2]> acc) r (zip ds xs).

Definition enter (prev : BlockId) (ps : list Inst) (r : regs) : option regs :=
  let moves := phi_moves prev ps in
  xs ← read_all r (map snd moves); Some (write_all (map fst moves) xs r).

Definition set_dst (i : Inst) (x : V) (r : regs) : regs :=
  match dst i with
  | Some d => <[d := x]> r
  | None => r
  end.

Fixpoint run_seq (is_ : list Inst) (r : regs) (h : H) : R + (regs * H) :=
  match is_ with
  | [] => inr (r, h)
  | i :: is' =>
      match read_all r (uses i) with
      | None => inl undefined
      | Some xs =>
          match exec i xs h with
          | inl res => inl res
          | inr (x, h') => run_seq is' (set_dst i x r) h'
          end
      end
  end.

#[export] Instance ssa_machine : Machine (BlockId * regs * H) R := {|
  run_body blk st :=
    match enter st.1.1 (phis blk) st.1.2 with
    | None => inl undefined
    | Some r =>
        match run_seq (insts blk) r st.2 with
        | inl res => inl res
        | inr (r', h') => inr (block_id blk, r', h')
        end
    end;
  test c st := match st.1.2 !! c with None => inl undefined | Some x => inr (truth x) end;
  return_value v st := match st.1.2 !! v with None => undefined | Some x => ret x st.2 end;
  trap st := unreachable st.2
|}.

End Machine.
