(* ===== verification/OsrSpec.v ===== *)
(** Correctness of on-stack replacement: the variant of a function started at
    a loop header continues the run of the function. *)
From stdpp Require Import gmap sorting.
From S2P Require Import Prelude RustStd Token Ir Reloop ReloopSem ReloopGraph IrInterp Osr OsrSem.
Local Open Scope Z_scope.

(** * The reachable blocks *)

Lemma blocks_by_id_spec f b blk :
  NoDup (ids f) -> (blocks_by_id f !! b = Some blk <-> blk ∈ blocks f /\ block_id blk = b).
Proof.
  unfold ids, blocks_by_id. intros Hnd.
  assert (Hg : forall bs (m : gmap BlockId Block), NoDup (map block_id bs) ->
    (fold_left add_block bs m !! b = Some blk <->
     (blk ∈ bs /\ block_id blk = b) \/ ((b ∉ map block_id bs) /\ m !! b = Some blk))).
  { clear. induction bs as [|b0 bs IH]; intros m Hnd; simpl; [set_solver|].
    apply NoDup_cons in Hnd as [Hb0 Hnd]. rewrite IH by done. unfold add_block. split.
    - intros [[Hin Hid]|[Hni Hm]]; [left; set_solver|]. destruct (decide (block_id b0 = b)) as [He|Hne].
      + subst b. rewrite lookup_insert_eq in Hm. injection Hm as ->. left. set_solver.
      + rewrite lookup_insert_ne in Hm by done. right. set_solver.
    - intros [[Hin Hid]|[Hni Hm]].
      + apply elem_of_cons in Hin as [->|Hin]; [|by left]. right. subst b. split; [done|]. by rewrite lookup_insert_eq.
      + right. split; [set_solver|]. rewrite lookup_insert_ne by set_solver. done. }
  rewrite Hg by done. rewrite lookup_empty. naive_solver.
Qed.

Lemma visit_all ss reach queue :
  exists new, fold_left visit ss (reach, queue) = (list_to_set new ∪ reach, queue ++ new) /\
    NoDup new /\ (forall s, s ∈ new -> s ∈ ss /\ s ∉ reach) /\ (forall s, s ∈ ss -> s ∈ new \/ s ∈ reach).
Proof.
  revert reach queue. induction ss as [|s ss IH]; intros reach queue; simpl.
  { exists []. rewrite app_nil_r. split_and!; [f_equal; set_solver | constructor | set_solver | set_solver]. }
  unfold visit at 2. simpl. case_decide as Hs.
  - destruct (IH reach queue) as (new & E & Hnd & H1 & H2). exists new. rewrite E. split_and!; [done | done | | ].
    + intros t Ht. apply H1 in Ht. set_solver.
    + intros t Ht. apply elem_of_cons in Ht as [->|Ht]; auto.
  - destruct (IH ({[s]} ∪ reach) (queue ++ [s])) as (new & E & Hnd & H1 & H2). exists (s :: new). rewrite E.
    split_and!.
    + rewrite <- app_assoc. f_equal. set_solver.
    + constructor; [|done]. intros Hin. apply H1 in Hin. set_solver.
    + intros t Ht. apply elem_of_cons in Ht as [->|Ht]; [set_solver|]. apply H1 in Ht. set_solver.
    + intros t Ht. apply elem_of_cons in Ht as [->|Ht]; [set_solver|]. apply H2 in Ht. set_solver.
Qed.

Section Reach.
Context (f : IrFunction).
Context (Hnd : NoDup (ids f)) (Htargets : forall b s, succ f b s -> s ∈ ids f).

Definition closed_but (queue : list BlockId) (reach : gset BlockId) : Prop :=
  forall b s, b ∈ reach -> b ∉ queue -> succ f b s -> s ∈ reach.

Lemma reach_loop_ok {E : Type} fuel reach queue :
  (forall b, b ∈ reach -> b ∈ ids f) -> (forall b, b ∈ queue -> b ∈ reach) -> closed_but queue reach ->
  (length queue + size ((list_to_set (ids f) : gset BlockId) ∖ reach) < fuel)%nat ->
  exists reach', reach_loop (E := E) fuel (blocks_by_id f) reach queue = Ok reach' /\
    reach ⊆ reach' /\ (forall b, b ∈ reach' -> b ∈ ids f) /\ closed_but [] reach'.
Proof.
  revert reach queue. induction fuel as [|fuel IH]; intros reach queue Hids Hq Hc Hf; [lia|].
  destruct queue as [|bid queue]; simpl; [exists reach; done|].
  destruct (proj1 (list_elem_of_fmap _ _ _) (Hids bid (Hq bid ltac:(set_solver)))) as (blk & Hid & Hin).
  rewrite (proj2 (blocks_by_id_spec f bid blk Hnd)) by done.
  destruct (visit_all (successors (terminator blk)) reach queue) as (new & -> & Hn & H1 & H2). simpl.
  assert (Hnew : forall s, s ∈ new -> s ∈ ids f).
  { intros s Hs. apply H1 in Hs as [Hs _]. apply (Htargets bid). by exists (terminator blk); split; [exists blk|]. }
  destruct (IH (list_to_set new ∪ reach) (queue ++ new)) as (reach' & E' & Hsub & Hids' & Hcl).
  - set_solver.
  - set_solver.
  - intros b s Hb Hnb Hs. destruct (decide (b = bid)) as [->|Hne].
    + destruct Hs as (t & (blk' & Hin' & Hid' & <-) & Hs).
      assert (blk' = blk) as ->.
      { assert (Hl : blocks_by_id f !! bid = Some blk') by (by apply blocks_by_id_spec).
        rewrite (proj2 (blocks_by_id_spec f bid blk Hnd)) in Hl by done. congruence. }
      apply H2 in Hs. set_solver.
    + assert (b ∈ reach) by set_solver. assert (b ∉ bid :: queue) by set_solver.
      apply elem_of_union_r. eapply Hc; eauto.
  - rewrite length_app. simpl in Hf.
    assert (Hsz : size ((list_to_set (ids f) : gset BlockId) ∖ reach) =
      (length new + size ((list_to_set (ids f) : gset BlockId) ∖ (list_to_set new ∪ reach)))%nat).
    { rewrite <- (size_list_to_set (C := gset BlockId) new) by done.
      rewrite <- size_union by set_solver. f_equal.
      apply set_eq. intros x. split; [|set_solver]. intros Hx. destruct (decide (x ∈ new)); set_solver. }
    lia.
  - exists reach'. split_and!; [done | set_solver | done | done].
Qed.

Lemma reachable_ok {E : Type} header :
  header ∈ ids f -> exists reach, reachable (E := E) f header = Ok reach /\ header ∈ reach /\
    (forall b, b ∈ reach -> b ∈ ids f) /\ (forall b s, b ∈ reach -> succ f b s -> s ∈ reach).
Proof.
  intros Hh. destruct (reach_loop_ok (E := E) (S (length (blocks f))) {[header]} [header]) as (reach & E1 & H1 & H2 & H3).
  - set_solver.
  - set_solver.
  - intros b s Hb. set_solver.
  - simpl. assert (Hs : size (list_to_set (ids f) : gset BlockId) = length (blocks f)).
    { rewrite size_list_to_set by done. apply length_map. }
    rewrite size_difference by set_solver. rewrite Hs, size_singleton.
    destruct (blocks f) eqn:Eb; [unfold ids in Hh; rewrite Eb in Hh; set_solver | simpl; lia].
  - exists reach. split_and!; [done | set_solver | done |]. intros b s Hb. apply H3; [done | set_solver].
Qed.

End Reach.

(** * Reading registers *)

Section Registers.
Context {V : Type}.
Implicit Types r : gmap VarId V.

(** The registers of the variant hold what those of the function hold. *)
Definition agree (nv : Z) (r2 r1 : gmap VarId V) : Prop := forall v x, v < nv -> r2 !! v = Some x -> r1 !! v = Some x.

Lemma read_agree nv r2 r1 us xs :
  agree nv r2 r1 -> Forall (fun u => u < nv) us -> read_all r2 us = Some xs -> read_all r1 us = Some xs.
Proof.
  intros Ha Hu. unfold read_all. rewrite !mapM_Some. intros Hf. induction Hf; [constructor|].
  apply Forall_cons in Hu as [? ?]. constructor; auto.
Qed.

Lemma read_defined r us : (forall u, u ∈ us -> u ∈ dom r) -> is_Some (read_all r us).
Proof. intros Hd. apply mapM_is_Some, Forall_forall. intros u Hu. by apply elem_of_dom, Hd. Qed.

Lemma read_length r us xs : read_all r us = Some xs -> length xs = length us.
Proof. intros Hr. apply mapM_Some in Hr. symmetry. exact (Forall2_length _ _ _ Hr). Qed.

Lemma write_all_dom ds (xs : list V) r : length xs = length ds -> dom (write_all ds xs r) = list_to_set ds ∪ dom r.
Proof.
  unfold write_all. revert xs. induction ds as [|d ds IH]; intros [|x xs] Hl; try done; simpl; [set_solver|].
  rewrite dom_insert_L, IH by (simpl in Hl; lia). set_solver.
Qed.

Lemma write_all_agree nv ds (xs : list V) r2 r1 : agree nv r2 r1 -> agree nv (write_all ds xs r2) (write_all ds xs r1).
Proof.
  intros Ha. unfold write_all. revert xs. induction ds as [|d ds IH]; intros [|x xs]; try done. simpl.
  intros v y Hv. rewrite !lookup_insert. case_decide; [done|]. by apply IH.
Qed.

Lemma set_dst_agree nv i (x : V) r2 r1 : agree nv r2 r1 -> agree nv (set_dst i x r2) (set_dst i x r1).
Proof.
  intros Ha. unfold set_dst. destruct (dst i) as [d|]; [|done]. intros v y Hv. rewrite !lookup_insert.
  case_decide; [done|]. by apply Ha.
Qed.

Lemma set_dst_dom i (x : V) r :
  dom (set_dst i x r) = list_to_set (match dst i with Some d => [d] | None => [] end) ∪ dom r.
Proof. unfold set_dst. destruct (dst i); [|set_solver]. rewrite dom_insert_L. set_solver. Qed.

Lemma write_all_back ds (xs : list V) r v x :
  write_all ds xs r !! v = Some x -> (v, x) ∈ zip ds xs \/ r !! v = Some x.
Proof.
  unfold write_all. generalize (zip ds xs). intros l. induction l as [|[d y] l IH]; simpl; [auto|].
  rewrite lookup_insert. case_decide as Hd; [intros [= ->]; subst; left; set_solver|]. intros Hl.
  destruct (IH Hl); [left; set_solver | auto].
Qed.

Lemma read_zip (r : gmap VarId V) ds xs v x : read_all r ds = Some xs -> (v, x) ∈ zip ds xs -> r !! v = Some x.
Proof.
  unfold read_all. rewrite mapM_Some. intros Hf. induction Hf as [|d y ds xs Hd Hf IH]; simpl; [set_solver|].
  intros Hin. apply elem_of_cons in Hin as [[= -> ->]|Hin]; auto.
Qed.

Lemma write_all_first ds (xs : list V) r i d x :
  NoDup ds -> ds !! i = Some d -> xs !! i = Some x ->
  forall ds2 xs2, length xs = length ds -> write_all (ds ++ ds2) (xs ++ xs2) r !! d = Some x.
Proof.
  intros Hn. revert xs i. induction Hn as [|d0 ds Hd Hn IH]; intros xs i Hi Hx ds2 xs2 Hl; [done|].
  destruct xs as [|x0 xs]; [done|]. unfold write_all in *. simpl. destruct i as [|i]; simpl in Hi, Hx.
  - injection Hi as ->. injection Hx as ->. by rewrite lookup_insert_eq.
  - rewrite lookup_insert_ne; [|intros ->; by apply list_elem_of_lookup_2 in Hi]. eapply IH; [exact Hi | exact Hx|]. simpl in Hl. lia.
Qed.

Lemma read_written ds1 ds2 (xs1 xs2 : list V) r :
  NoDup ds1 -> length xs1 = length ds1 -> read_all (write_all (ds1 ++ ds2) (xs1 ++ xs2) r) ds1 = Some xs1.
Proof.
  intros Hn Hl. apply mapM_Some, Forall2_same_length_lookup_2; [done|]. intros i d x Hi Hx.
  by eapply write_all_first.
Qed.

End Registers.

Lemma fresh_vars_spec next n : length (fresh_vars next n) = n /\ NoDup (fresh_vars next n) /\
  forall v, v ∈ fresh_vars next n -> next <= v.
Proof.
  revert next. induction n as [|n IH]; intros next; simpl; [split_and!; [done | constructor | set_solver]|].
  destruct (IH (next + 1)) as (Hl & Hn & Hge). split_and!; [lia | |].
  - constructor; [|done]. intros Hin. apply Hge in Hin. lia.
  - intros v Hv. apply elem_of_cons in Hv as [->|Hv]; [lia|]. apply Hge in Hv. lia.
Qed.

(** * Functions that define their registers before they read them *)

(** Every instruction reads registers of [s] or ones assigned before it. *)
Fixpoint reads_ok (s : gset VarId) (is_ : list Inst) : bool :=
  match is_ with
  | [] => true
  | i :: is' =>
      forallb (fun u => bool_decide (u ∈ s)) (uses i) &&
      reads_ok (list_to_set (match dst i with Some d => [d] | None => [] end) ∪ s) is'
  end.

(** [a b] are registers that are defined whenever control reaches [b]. *)
Record defined_before_use (g : IrFunction) (entry : BlockId) (a : BlockId -> gset VarId) : Prop := {
  du_entry : a entry ⊆ list_to_set (map snd (params g));
  du_reads b : b ∈ blocks g -> reads_ok (a (block_id b) ∪ list_to_set (phi_defs b)) (insts b) = true;
  du_terminator b v : b ∈ blocks g -> v ∈ terminator_uses (terminator b) ->
    v ∈ a (block_id b) ∪ list_to_set (block_defs b);
  du_edge b s : b ∈ blocks g -> s ∈ blocks g -> block_id s ∈ successors (terminator b) ->
    a (block_id s) ⊆ a (block_id b) ∪ list_to_set (block_defs b) /\
    (forall v, v ∈ map snd (phi_moves (block_id b) (phis s)) -> v ∈ a (block_id b) ∪ list_to_set (block_defs b)) /\
    (forall v, v ∈ phi_defs s -> v ∈ map fst (phi_moves (block_id b) (phis s)))
}.

(** * The variant *)

Definition block_vars (b : Block) : list VarId :=
  ((phis b ++ insts b) ≫= fun i => match dst i with Some d => d :: uses i | None => uses i end) ++
  terminator_uses (terminator b).

(** What the front end guarantees: identifiers are fresh, targets exist, phi
    lists hold phis, a cons cell has two operands. *)
Record osr_ready (f : IrFunction) : Prop := {
  or_ids : NoDup (ids f);
  or_targets b s : succ f b s -> s ∈ ids f;
  or_fresh_block b : b ∈ ids f -> b < next_block f;
  or_fresh_var b v : b ∈ blocks f -> v ∈ block_vars b -> v < next_var f;
  or_phis b i : b ∈ blocks f -> i ∈ phis b -> exists d entries, i = IPhi d entries;
  or_cons b d r ops : b ∈ blocks f -> IRegionAlloc d r RkCons ops ∈ insts b -> length ops = 2%nat
}.

(** Closing a region of the caller has no effect here, and it makes no
    difference where a value is allocated. *)
Record regions_transparent {V H R : Type} {SH : SsaHost V H R} (outer : gset VarId) : Prop := {
  rt_end r x h : r ∈ outer -> exists y, exec (IRegionEnd r) [x] h = inr (y, h);
  rt_alloc d r kind ops i x xs h : r ∈ outer -> plain_alloc (E := OsrError) d kind ops = Ok i ->
    exec (IRegionAlloc d r kind ops) (x :: xs) h = exec i xs h
}.

Lemma chunk_pairs_flat {E : Type} ops ps : chunk_pairs (E := E) ops = Ok ps -> (ps ≫= fun p => [p.1; p.2]) = ops.
Proof.
  revert ps. induction ops as [ops IH] using (induction_ltof1 _ (@length VarId)). unfold ltof in IH.
  destruct ops as [|k [|v ops]]; intros ps Hp; simpl in Hp; try done; [by injection Hp as <-|].
  destruct (chunk_pairs ops) as [ps'| | |] eqn:E'; try done. injection Hp as <-.
  rewrite bind_cons, (IH ops ltac:(simpl; lia) ps' E'). done.
Qed.

Lemma plain_alloc_uses {E : Type} d kind ops i :
  plain_alloc (E := E) d kind ops = Ok i -> (kind = RkCons -> length ops = 2%nat) -> uses i = ops /\ dst i = Some d.
Proof.
  intros Hp Hc. destruct kind; simpl in Hp; try (injection Hp as <-; done).
  - destruct (chunk_pairs ops) as [ps| | |] eqn:E'; try done. injection Hp as <-. simpl.
    split; [by eapply chunk_pairs_flat | done].
  - specialize (Hc eq_refl). destruct ops as [|h [|t [|]]]; try done. by injection Hp as <-.
Qed.

(** What the pieces of a successful construction are. *)
Record built (f : IrFunction) (header : BlockId) (osr : OsrFunction) (reach : gset BlockId) : Prop := {
  bu_reach : reachable (E := OsrError) f header = Ok reach;
  bu_header : exists hb, blocks_by_id f !! header = Some hb /\ live_ins osr = phi_defs hb ++ outer_live reach f /\
    map snd (params (osr_func osr)) = fresh_vars (next_var f) (length (phi_defs hb)) ++ outer_live reach f /\
    exists bs, blocks (osr_func osr) = mkBlock (next_block f) [] [] (Jump header) :: bs /\
      Forall2 (fun b b' => osr_block (E := OsrError) reach (outer_handles reach f) header (next_block f)
                 (fresh_vars (next_var f) (length (phi_defs hb))) b = Ok b') (in_reach reach f) bs
}.

Lemma imap_snd {A B : Type} (g : nat -> A) (l : list B) : map snd (imap (fun i p => (g i, p)) l) = l.
Proof.
  revert g. induction l as [|x l IH]; intros g; simpl; [done|]. f_equal.
  exact (IH (fun i => g (S i))).
Qed.

Lemma build_inv f header osr : build_osr_function f header = Ok osr -> exists reach, built f header osr reach.
Proof.
  unfold build_osr_function. destruct (blocks_by_id f !! header) as [hb|] eqn:Eh; [|done].
  destruct (reachable f header) as [reach| | |] eqn:Er; try done. cbn [mbind outcome_bind].
  destruct (_ <? _)%nat; [done|]. destruct (existsb _ _); [done|].
  destruct (osr_blocks _ _ _ _ _ _) as [bs| | |] eqn:Eb; try done. cbn [mbind outcome_bind]. intros [= <-].
  exists reach. constructor; [done|]. exists hb. split_and!; [done | done | |].
  - simpl. rewrite map_app, imap_snd, map_map. simpl. by rewrite map_id.
  - exists bs. split; [done|]. revert bs Eb. generalize (in_reach reach f). clear.
    induction l as [|b l IH]; intros bs Eb; simpl in Eb; [injection Eb as <-; constructor|].
    destruct (osr_block _ _ _ _ _ b) as [b'| | |] eqn:E1; try done. cbn [mbind outcome_bind] in Eb.
    destruct (osr_blocks _ _ _ _ _ l) as [r| | |] eqn:E2; try done. injection Eb as <-. constructor; auto.
Qed.

(** ** Phis of the variant *)

Lemma phi_source_retain prev (reach : gset BlockId) entries :
  prev ∈ reach -> phi_source prev (filter (fun e => e.1 ∈ reach) entries) = phi_source prev entries.
Proof.
  intros Hp. unfold phi_source. induction entries as [|[p v] entries IH]; [done|]. rewrite filter_cons. simpl.
  destruct (Z.eqb_spec p prev) as [->|Hne].
  - rewrite decide_True by done. simpl. by rewrite Z.eqb_refl.
  - case_decide; [|done]. simpl. destruct (Z.eqb_spec p prev); [done | exact IH].
Qed.

Lemma phi_source_app prev entries p v :
  p <> prev -> phi_source prev (entries ++ [(p, v)]) = phi_source prev entries.
Proof.
  intros Hne. unfold phi_source. induction entries as [|[q u] entries IH]; simpl.
  - by destruct (Z.eqb_spec p prev).
  - destruct (q =? prev); [done | exact IH].
Qed.

Lemma phi_moves_retain prev reach ps :
  prev ∈ reach -> phi_moves prev (map (retain_entries reach) ps) = phi_moves prev ps.
Proof.
  intros Hp. induction ps as [|i ps IH]; [done|]. destruct i; simpl; try exact IH.
  rewrite phi_source_retain by done. destruct (phi_source prev entries); by rewrite IH.
Qed.

Lemma phi_moves_feed prev entry_id ps vs : entry_id <> prev -> phi_moves prev (feed_phis entry_id ps vs) = phi_moves prev ps.
Proof.
  intros Hne. revert vs. induction ps as [|i ps IH]; intros [|v vs]; [done..|]. destruct i; simpl; try apply IH.
  rewrite phi_source_app by done. destruct (phi_source prev entries); by rewrite IH.
Qed.

Lemma phi_source_entry (reach : gset BlockId) entry_id entries v :
  entry_id ∉ reach -> phi_source entry_id (filter (fun e => e.1 ∈ reach) entries ++ [(entry_id, v)]) = Some v.
Proof.
  intros He. unfold phi_source. induction entries as [|[p u] entries IH]; simpl.
  - by rewrite Z.eqb_refl.
  - rewrite filter_cons. case_decide as Hp; [|done]. simpl. simpl in Hp.
    destruct (Z.eqb_spec p entry_id) as [->|]; [done | exact IH].
Qed.

Lemma phi_moves_entry reach entry_id ps vs :
  entry_id ∉ reach -> (forall i, i ∈ ps -> exists d entries, i = IPhi d entries) ->
  length vs = length (ps ≫= fun i => match i with IPhi d _ => [d] | _ => [] end) ->
  phi_moves entry_id (feed_phis entry_id (map (retain_entries reach) ps) vs) =
  zip (ps ≫= fun i => match i with IPhi d _ => [d] | _ => [] end) vs.
Proof.
  intros He Hphi. revert vs. induction ps as [|i ps IH]; intros vs Hl; [by destruct vs|].
  destruct (Hphi i) as (d & entries & ->); [set_solver|]. rewrite bind_cons in *. simpl in Hl. destruct vs as [|v vs]; [done|].
  cbn [map retain_entries feed_phis phi_moves]. rewrite phi_source_entry by done. simpl. f_equal.
  apply IH; [set_solver|]. simpl in Hl. lia.
Qed.

Lemma phi_moves_vars prev ps v : v ∈ map snd (phi_moves prev ps) -> exists i, i ∈ ps /\ v ∈ uses i.
Proof.
  induction ps as [|i ps IH]; simpl; [set_solver|]. intros Hv.
  assert (Hrest : v ∈ map snd (phi_moves prev ps) -> exists j, j ∈ i :: ps /\ v ∈ uses j).
  { intros Hr. destruct (IH Hr) as (j & Hj & Hu). exists j. split; [set_solver | done]. }
  destruct i; auto. destruct (phi_source prev entries) as [src|] eqn:Es; [|auto].
  simpl in Hv. apply elem_of_cons in Hv as [->|Hv]; [|auto]. eexists. split; [apply elem_of_cons; by left|]. simpl.
  unfold phi_source in Es. destruct (find _ entries) as [[p u]|] eqn:Ef; [|done]. simpl in Es. injection Es as <-.
  apply find_some in Ef as [Hin _]. apply list_elem_of_In in Hin. apply (list_elem_of_fmap_2 snd) in Hin. exact Hin.
Qed.

(** ** Instructions of the variant *)

Section Sequences.
Context {V H R : Type} {SH : SsaHost V H R}.
Context (outer : gset VarId) (nv : Z) (Htr : regions_transparent outer).

Definition seq_defs (is_ : list Inst) : list VarId := is_ ≫= fun i => match dst i with Some d => [d] | None => [] end.

(** How a sequence of the variant and the one it comes from end; with
    [checked] the variant reads no undefined register. *)
Definition seq_match (checked : bool) (defs : gset VarId) (res2 res1 : R + (gmap VarId V * H)) : Prop :=
  (checked = false /\ res2 = inl undefined) \/
  match res2, res1 with
  | inl a, inl b => a = b
  | inr (r2, h2), inr (r1, h1) => h2 = h1 /\ agree nv r2 r1 /\ outer ⊆ dom r1 /\ defs ⊆ dom r2
  | _, _ => False
  end.

Definition inst_ok (i : Inst) : Prop :=
  Forall (fun u => u < nv) (uses i) /\ forall d r ops, i = IRegionAlloc d r RkCons ops -> length ops = 2%nat.

Abbreviation kept is_ := (rewrite_allocs (E := OsrError) outer (List.filter (fun i => negb (closes_outer_region outer i)) is_)).

(** One instruction of the variant stands for one of the function. *)
Lemma seq_step checked i i' is_ rest s r2 r1 h :
  (forall s r2 r1 h, agree nv r2 r1 -> outer ⊆ dom r1 -> s ⊆ dom r2 -> (checked = true -> reads_ok s rest = true) ->
     seq_match checked (list_to_set (seq_defs rest) ∪ s) (run_seq rest r2 h) (run_seq is_ r1 h)) ->
  dst i' = dst i -> agree nv r2 r1 -> outer ⊆ dom r1 -> s ⊆ dom r2 -> (checked = true -> reads_ok s (i' :: rest) = true) ->
  (forall xs, read_all r2 (uses i') = Some xs -> exists ys, read_all r1 (uses i) = Some ys /\ exec i ys h = exec i' xs h) ->
  seq_match checked (list_to_set (seq_defs (i' :: rest)) ∪ s) (run_seq (i' :: rest) r2 h) (run_seq (i :: is_) r1 h).
Proof.
  intros IH Hd Ha Ho Hs Hck Hread. cbn [run_seq]. destruct (read_all r2 (uses i')) as [xs|] eqn:Ex.
  - destruct (Hread xs eq_refl) as (ys & -> & ->). destruct (exec i' xs h) as [res|[x h']]; [by right|].
    assert (Hset : set_dst i x r1 = set_dst i' x r1) by (unfold set_dst; by rewrite Hd). rewrite Hset.
    set (d' := match dst i' with Some d => [d] | None => [] end).
    assert (Hdefs : list_to_set (seq_defs (i' :: rest)) ∪ s = (list_to_set (seq_defs rest) ∪ (list_to_set d' ∪ s) : gset VarId)).
    { unfold seq_defs. rewrite bind_cons. fold d'. set_solver. }
    rewrite Hdefs. apply IH; [by apply set_dst_agree | rewrite set_dst_dom; set_solver | rewrite set_dst_dom; fold d'; set_solver|].
    intros Hc. apply Hck in Hc. simpl in Hc. by apply andb_true_iff in Hc as [_ ?].
  - left. split; [|done]. destruct checked; [|done]. exfalso. specialize (Hck eq_refl). simpl in Hck.
    apply andb_true_iff in Hck as [Hck _]. rewrite forallb_forall in Hck.
    destruct (read_defined r2 (uses i')) as [? ?]; [|congruence]. intros u Hin. apply list_elem_of_In, Hck in Hin.
    apply bool_decide_eq_true in Hin. set_solver.
Qed.

Lemma rewrite_alloc_cases i i' :
  rewrite_alloc (E := OsrError) outer i = Ok i' ->
  i' = i \/ exists d r kind ops, i = IRegionAlloc d r kind ops /\ r ∈ outer /\ plain_alloc (E := OsrError) d kind ops = Ok i'.
Proof.
  intros Ei. destruct i; simpl in Ei; try (injection Ei as <-; by left).
  case_decide; [|injection Ei as <-; by left]. right. naive_solver.
Qed.

Lemma seq_lockstep checked is_ is' s r2 r1 h :
  Forall inst_ok is_ -> kept is_ = Ok is' ->
  agree nv r2 r1 -> outer ⊆ dom r1 -> s ⊆ dom r2 -> (checked = true -> reads_ok s is' = true) ->
  seq_match checked (list_to_set (seq_defs is') ∪ s) (run_seq is' r2 h) (run_seq is_ r1 h).
Proof.
  intros Hok. revert is' s r2 r1 h. induction Hok as [|i is_ [Hu Hc] _ IH]; intros is' s r2 r1 h Hrw Ha Ho Hs Hck.
  { simpl in Hrw. injection Hrw as <-. right. simpl. split_and!; [done | done | done | set_solver]. }
  destruct (closes_outer_region outer i) eqn:Eclose.
  - destruct i; try done. simpl in Eclose. simpl in Hrw. rewrite Eclose in Hrw. simpl in Hrw.
    apply bool_decide_eq_true in Eclose. cbn [run_seq uses].
    destruct (proj1 (elem_of_dom r1 region) ltac:(set_solver)) as [x Hx].
    unfold read_all at 1. simpl. rewrite Hx. simpl.
    destruct (rt_end outer Htr region x h Eclose) as [y ->]. by apply IH.
  - simpl in Hrw. rewrite Eclose in Hrw. simpl in Hrw.
    destruct (rewrite_alloc outer i) as [i'| | |] eqn:Ei; try done. cbn [mbind outcome_bind] in Hrw.
    destruct (rewrite_allocs outer _) as [rest| | |] eqn:Er; try done. injection Hrw as <-.
    destruct (rewrite_alloc_cases i i' Ei) as [->|(d & r & kind & ops & -> & Hr & Hp)].
    + apply seq_step; try done; [by intros; apply IH|]. intros xs Hx. exists xs. split; [by eapply read_agree | done].
    + destruct (plain_alloc_uses d kind ops i' Hp) as [Hus Hds]; [intros ->; by eapply Hc|].
      apply seq_step; try done; [by intros; apply IH|]. intros xs Hx.
      destruct (proj1 (elem_of_dom r1 r) ltac:(set_solver)) as [x Hrx]. rewrite Hus in Hx.
      exists (x :: xs). split; [|by eapply rt_alloc]. unfold read_all. simpl. rewrite Hrx. simpl in *.
      apply Forall_cons in Hu as [_ Hu]. pose proof (read_agree _ _ _ _ _ Ha Hu Hx) as Hx1. unfold read_all in Hx1. by rewrite Hx1.
Qed.

End Sequences.

(** ** Runs of the variant *)

Section Simulation.
Context {V H R : Type} {SH : SsaHost V H R}.
Context (f : IrFunction) (header : BlockId) (osr : OsrFunction) (reach : gset BlockId).
Context (Hready : osr_ready f) (Hbuilt : built f header osr reach).
Abbreviation g := (osr_func osr).
Abbreviation outer := (outer_handles reach f).
Abbreviation variant blk := (fun hb => osr_block (E := OsrError) reach outer header (next_block f)
  (fresh_vars (next_var f) (length (phi_defs hb))) blk).

Lemma reach_closed : header ∈ reach /\ (forall b, b ∈ reach -> b ∈ ids f) /\
  (forall b s, b ∈ reach -> succ f b s -> s ∈ reach).
Proof.
  destruct Hbuilt as [Hr (hb & Hh & _)]. apply blocks_by_id_spec in Hh as [Hin Hid]; [|apply Hready].
  assert (Hhdr : header ∈ ids f) by (rewrite <- Hid; by apply list_elem_of_fmap_2).
  destruct (reachable_ok (E := OsrError) f (or_ids f Hready) (or_targets f Hready) header Hhdr) as (reach' & E & ? & ? & ?).
  rewrite Hr in E. by injection E as <-.
Qed.

Lemma entry_fresh : next_block f ∉ reach.
Proof. intros Hin. apply reach_closed in Hin. apply (or_fresh_block f Hready) in Hin. lia. Qed.

Lemma osr_block_inv blk hb blk' : variant blk hb = Ok blk' ->
  block_id blk' = block_id blk /\ terminator blk' = terminator blk /\
  phis blk' = (if decide (block_id blk = header)
               then feed_phis (next_block f) (map (retain_entries reach) (phis blk)) (fresh_vars (next_var f) (length (phi_defs hb)))
               else map (retain_entries reach) (phis blk)) /\
  rewrite_allocs (E := OsrError) outer (List.filter (fun i => negb (closes_outer_region outer i)) (insts blk)) = Ok (insts blk').
Proof.
  unfold osr_block. destruct (rewrite_allocs _ _) as [is_| | |]; try done. cbn [mbind outcome_bind]. intros [= <-]. done.
Qed.

Lemma variant_ids : NoDup (ids g) /\ forall b, b ∈ ids g -> b = next_block f \/ b ∈ reach.
Proof.
  destruct Hbuilt as [_ (hb & _ & _ & _ & bs & Eb & Hall)]. unfold ids. rewrite Eb. simpl.
  assert (Hids : map block_id bs = map block_id (in_reach reach f)).
  { clear Eb. induction Hall as [|b b' l l' E _ IH]; [done|]. apply osr_block_inv in E as (Hid & _). simpl. by rewrite Hid, IH. }
  rewrite Hids. unfold in_reach.
  assert (Hin : forall b, b ∈ map block_id (filter (fun b => block_id b ∈ reach) (blocks f)) -> b ∈ reach).
  { intros b Hb. apply list_elem_of_fmap in Hb as (blk & -> & Hb). by apply list_elem_of_filter in Hb as [? _]. }
  split; [|set_solver]. constructor; [intros Hc; apply Hin in Hc; exact (entry_fresh Hc)|].
  assert (Hsub : sublist (map block_id (filter (fun b => block_id b ∈ reach) (blocks f))) (ids f)).
  { unfold ids. generalize (blocks f). intros l. induction l as [|b l IH]; [constructor|]. rewrite filter_cons.
    case_decide; simpl; by constructor. }
  eapply sublist_NoDup; [apply Hready | exact Hsub].
Qed.

Lemma variant_block b : b ∈ reach ->
  exists hb blk blk', blocks_by_id f !! header = Some hb /\ lookup_block f b = Some blk /\ lookup_block g b = Some blk' /\
    variant blk hb = Ok blk' /\ blk' ∈ blocks g.
Proof.
  intros Hb. destruct Hbuilt as [_ (hb & Hh & _ & _ & bs & Eb & Hall)].
  apply reach_closed in Hb as Hin. apply list_elem_of_fmap in Hin as (blk & -> & Hin).
  assert (Hir : blk ∈ in_reach reach f) by (by apply list_elem_of_filter).
  apply list_elem_of_lookup_1 in Hir as [k Hk]. destruct (Forall2_lookup_l _ _ _ _ _ Hall Hk) as (blk' & Hk' & Hv).
  apply osr_block_inv in Hv as Hinv. destruct Hinv as (Hid & _).
  assert (Hin' : blk' ∈ blocks g) by (rewrite Eb; apply elem_of_cons; right; eapply list_elem_of_lookup_2; exact Hk').
  exists hb, blk, blk'. split_and!; try done.
  - by apply lookup_block_Some; [apply Hready|].
  - apply lookup_block_Some; [apply variant_ids | done].
Qed.

Lemma variant_entry : exists blk, lookup_block g (next_block f) = Some blk /\
  phis blk = [] /\ insts blk = [] /\ terminator blk = Jump header /\ block_id blk = next_block f.
Proof.
  destruct Hbuilt as [_ (hb & _ & _ & _ & bs & Eb & _)].
  exists (mkBlock (next_block f) [] [] (Jump header)). split; [|done].
  apply lookup_block_Some; [apply variant_ids|]. rewrite Eb. set_solver.
Qed.

Lemma variant_moves blk hb blk' prev : variant blk hb = Ok blk' -> prev ∈ reach ->
  phi_moves prev (phis blk') = phi_moves prev (phis blk).
Proof.
  intros Hv Hp. apply osr_block_inv in Hv as (_ & _ & -> & _). case_decide; [|by apply phi_moves_retain].
  rewrite phi_moves_feed; [by apply phi_moves_retain|]. intros <-. exact (entry_fresh Hp).
Qed.

(** The instructions of a block and what follows it, once its phis are
    resolved. *)
Definition after_phis (k : IrFunction) (n : nat) (blk : Block) (r : gmap VarId V) (h : H) : option R :=
  match run_seq (insts blk) r h with
  | inl res => Some res
  | inr (r', h') =>
      match terminator blk with
      | Return v => Some (match r' !! v with None => undefined | Some x => ret x h' end)
      | Unreachable => Some (unreachable h')
      | Jump t => run_cfg k n t (block_id blk, r', h')
      | Branch c t e =>
          match r' !! c with
          | None => Some undefined
          | Some x => run_cfg k n (if truth x then t else e) (block_id blk, r', h')
          end
      | RecurJump t _ => run_cfg k n t (block_id blk, r', h')
      end
  end.

Lemma run_cfg_enter k n b blk prev r h :
  lookup_block k b = Some blk ->
  run_cfg k (S n) b (prev, r, h) =
  match enter prev (phis blk) r with
  | None => Some undefined
  | Some r' => after_phis k n blk r' h
  end.
Proof.
  intros Hb. cbn [run_cfg]. rewrite Hb. cbn [mbind option_bind run_body ssa_machine fst snd].
  destruct (enter prev (phis blk) r) as [r'|]; [|done]. unfold after_phis.
  destruct (run_seq (insts blk) r' h) as [res|[r2 h2]]; [done|]. destruct (terminator blk); try done.
  cbn [test ssa_machine fst snd]. destruct (r2 !! cond) as [x|]; [|done]. by destruct (truth x).
Qed.

Context (Htr : regions_transparent outer) (checked : bool) (a : BlockId -> gset VarId).
Context (Hdef : checked = true -> defined_before_use g (next_block f) a).

(** Both runs give the same, or the variant reads an undefined register. *)
Definition same_run (x y : option R) : Prop := x = y \/ (checked = false /\ x = Some undefined).

Definition runs_agree (n : nat) : Prop :=
  forall blk blk' hb r2 r1 h,
    blk ∈ blocks f -> block_id blk ∈ reach -> variant blk hb = Ok blk' -> blk' ∈ blocks g ->
    agree (next_var f) r2 r1 -> outer ⊆ dom r1 ->
    (checked = true -> a (block_id blk) ∪ list_to_set (phi_defs blk') ⊆ dom r2) ->
    same_run (after_phis g n blk' r2 h) (after_phis f n blk r1 h).

Lemma used_below blk i u : blk ∈ blocks f -> i ∈ phis blk ++ insts blk -> u ∈ uses i -> u < next_var f.
Proof.
  intros Hb Hi Hu. apply (or_fresh_var f Hready blk); [done|]. unfold block_vars. apply elem_of_app. left.
  apply list_elem_of_bind. exists i. split; [destruct (dst i); set_solver | done].
Qed.

Lemma enter_agree prev tb tb' hb (r2 r1 : gmap VarId V) :
  tb ∈ blocks f -> variant tb hb = Ok tb' -> prev ∈ reach -> agree (next_var f) r2 r1 -> outer ⊆ dom r1 ->
  match enter prev (phis tb') r2 with
  | None => ~ (forall v, v ∈ map snd (phi_moves prev (phis tb')) -> v ∈ dom r2)
  | Some r2' => exists r1', enter prev (phis tb) r1 = Some r1' /\ agree (next_var f) r2' r1' /\ outer ⊆ dom r1' /\
      dom r2' = list_to_set (map fst (phi_moves prev (phis tb'))) ∪ dom r2
  end.
Proof.
  intros Hb Hv Hp Ha Ho. unfold enter. rewrite (variant_moves tb hb tb' prev Hv Hp).
  destruct (read_all r2 _) as [xs|] eqn:Ex; simpl.
  - assert (Hl : length xs = length (map fst (phi_moves prev (phis tb)))).
    { apply read_length in Ex. rewrite Ex. by rewrite !length_map. }
    assert (Hx1 : read_all r1 (map snd (phi_moves prev (phis tb))) = Some xs).
    { eapply read_agree; [done| |done]. apply Forall_forall. intros v Hv'. apply phi_moves_vars in Hv' as (i & Hi & Hu).
      eapply (used_below tb i); set_solver. }
    rewrite Hx1. simpl. eexists. split_and!; [done | by apply write_all_agree | | by apply write_all_dom].
    rewrite write_all_dom by done. set_solver.
  - intros Hd. destruct (read_defined r2 _ Hd) as [? ?]. congruence.
Qed.

Lemma edge_agree n blk' t (r2 r1 : gmap VarId V) h :
  runs_agree n -> blk' ∈ blocks g -> block_id blk' ∈ reach -> t ∈ successors (terminator blk') -> t ∈ reach ->
  agree (next_var f) r2 r1 -> outer ⊆ dom r1 ->
  (checked = true -> a (block_id blk') ∪ list_to_set (block_defs blk') ⊆ dom r2) ->
  same_run (run_cfg g (S n) t (block_id blk', r2, h)) (run_cfg f (S n) t (block_id blk', r1, h)).
Proof.
  intros IH Hin Hreach Ht Htr' Ha Ho Hck. destruct (variant_block t Htr') as (hb & tb & tb' & Hh & Hl & Hl' & Hv & Hin').
  rewrite (run_cfg_enter g _ _ _ _ _ _ Hl'), (run_cfg_enter f _ _ _ _ _ _ Hl).
  apply lookup_block_Some in Hl as [Htb Hid]; [|apply Hready].
  pose proof (osr_block_inv tb hb tb' Hv) as (Hid' & _).
  assert (Hedge : checked = true -> a t ⊆ dom r2 /\ (forall v, v ∈ map snd (phi_moves (block_id blk') (phis tb')) -> v ∈ dom r2) /\
    (forall v, v ∈ phi_defs tb' -> v ∈ map fst (phi_moves (block_id blk') (phis tb')))).
  { intros Hc. destruct (du_edge _ _ _ (Hdef Hc) blk' tb' Hin Hin') as (H1 & H2 & H3); [by rewrite Hid', Hid|].
    rewrite Hid', Hid in H1. specialize (Hck Hc). split_and!; [set_solver | | done]. intros v Hv'. apply H2 in Hv'. set_solver. }
  pose proof (enter_agree (block_id blk') tb tb' hb r2 r1 Htb Hv Hreach Ha Ho) as He.
  destruct (enter _ (phis tb') r2) as [r2'|].
  - destruct He as (r1' & -> & Ha' & Ho' & Hdom). eapply IH; try done; [by rewrite Hid|].
    intros Hc. destruct (Hedge Hc) as (H1 & _ & H3). rewrite Hdom, Hid. set_solver.
  - right. split; [|done]. destruct checked; [|done]. exfalso. apply He. by apply Hedge.
Qed.

Lemma insts_ok blk : blk ∈ blocks f -> Forall (inst_ok (next_var f)) (insts blk).
Proof.
  intros Hb. apply Forall_forall. intros i Hi. split.
  - apply Forall_forall. intros u Hu. eapply (used_below blk i); set_solver.
  - intros d r ops ->. by eapply (or_cons f Hready blk).
Qed.

Lemma block_defs_split blk : block_defs blk = phi_defs blk ++ seq_defs (insts blk).
Proof. done. Qed.

Lemma jump_agree n : match n with O => True | S m => runs_agree m end ->
  forall blk' t (r2 r1 : gmap VarId V) h,
  blk' ∈ blocks g -> block_id blk' ∈ reach -> t ∈ successors (terminator blk') -> t ∈ reach ->
  agree (next_var f) r2 r1 -> outer ⊆ dom r1 ->
  (checked = true -> a (block_id blk') ∪ list_to_set (block_defs blk') ⊆ dom r2) ->
  same_run (run_cfg g n t (block_id blk', r2, h)) (run_cfg f n t (block_id blk', r1, h)).
Proof. destruct n; intros IH; intros; [by left | by apply edge_agree]. Qed.

Lemma runs_agree_all n : runs_agree n.
Proof.
  induction n as [n IH] using lt_wf_ind.
  assert (Hprev : match n with O => True | S m => runs_agree m end) by (destruct n; [done | apply IH; lia]).
  intros blk blk' hb r2 r1 h Hb Hreach Hv Hin Ha Ho Hck.
  pose proof (osr_block_inv blk hb blk' Hv) as (Hid & Hterm & _ & Hrw).
  set (s := if checked then a (block_id blk) ∪ list_to_set (phi_defs blk') else ∅).
  pose proof (seq_lockstep outer (next_var f) Htr checked (insts blk) (insts blk') s r2 r1 h (insts_ok blk Hb) Hrw Ha Ho) as Hseq.
  unfold after_phis. destruct Hseq as [[Hc ->]|Hm].
  { subst s. destruct checked; [by apply Hck | set_solver]. }
  { intros Hc. subst s. rewrite Hc. rewrite <- Hid. by apply (du_reads _ _ _ (Hdef Hc)). }
  { by right. }
  destruct (run_seq (insts blk') r2 h) as [res2|[r2' h2]], (run_seq (insts blk) r1 h) as [res1|[r1' h1]]; try done.
  { left. by rewrite Hm. }
  destruct Hm as (-> & Ha' & Ho' & Hdom).
  assert (Hout : checked = true -> a (block_id blk') ∪ list_to_set (block_defs blk') ⊆ dom r2').
  { intros Hc. subst s. rewrite Hc in Hdom. rewrite Hid, block_defs_split, list_to_set_app_L. set_solver. }
  assert (Hread : forall v, v ∈ terminator_uses (terminator blk') -> r2' !! v = r1' !! v \/ (checked = false /\ r2' !! v = None)).
  { intros v Hv'. destruct (r2' !! v) as [x|] eqn:Ev.
    - left. symmetry. apply Ha'; [|done]. apply (or_fresh_var f Hready blk); [done|]. unfold block_vars. rewrite <- Hterm. set_solver.
    - right. split; [|done]. destruct checked eqn:Ec; [|done]. exfalso. apply not_elem_of_dom in Ev. apply Ev.
      apply Hout; [done|]. by apply (du_terminator _ _ _ (Hdef eq_refl)). }
  assert (Hnext : forall t, t ∈ successors (terminator blk') ->
    same_run (run_cfg g n t (block_id blk', r2', h1)) (run_cfg f n t (block_id blk', r1', h1))).
  { intros t Ht. apply jump_agree; try done; [by rewrite Hid|]. apply reach_closed with (b := block_id blk); [done|].
    exists (terminator blk). split; [by exists blk | by rewrite <- Hterm]. }
  rewrite <- Hterm, <- Hid. destruct (terminator blk') as [t|c t e|v|t args|].
  - apply Hnext. set_solver.
  - destruct (Hread c) as [->|[? ->]]; [set_solver | | by right].
    destruct (r1' !! c) as [x|]; [|by left]. apply Hnext. simpl. destruct (truth x); set_solver.
  - destruct (Hread v) as [->|[? ->]]; [set_solver | by left | by right].
  - apply Hnext. set_solver.
  - by left.
Qed.

(** ** Entering the variant *)

Lemma variant_phi_defs blk hb blk' : variant blk hb = Ok blk' -> phi_defs blk' = phi_defs blk.
Proof.
  intros Hv. apply osr_block_inv in Hv as (_ & _ & Hp & _). unfold phi_defs. rewrite Hp.
  assert (Hr : forall ps : list Inst, (map (retain_entries reach) ps ≫= fun i => match i with IPhi d _ => [d] | _ => [] end) =
    (ps ≫= fun i => match i with IPhi d _ => [d] | _ => [] end)).
  { induction ps as [|i ps IH]; [done|]. cbn [map]. rewrite !bind_cons, IH. by destruct i. }
  assert (Hf : forall (ps : list Inst) vs, (feed_phis (next_block f) ps vs ≫= fun i => match i with IPhi d _ => [d] | _ => [] end) =
    (ps ≫= fun i => match i with IPhi d _ => [d] | _ => [] end)).
  { induction ps as [|i ps IH]; intros [|v vs]; [done..|]. cbn [feed_phis]. rewrite !bind_cons, IH. by destruct i. }
  case_decide; [by rewrite Hf, Hr | apply Hr].
Qed.

Lemma enter_variant hb hb' (r1 : gmap VarId V) args :
  blocks_by_id f !! header = Some hb -> variant hb hb = Ok hb' -> read_all r1 (live_ins osr) = Some args ->
  exists r2, enter (next_block f) (phis hb') (write_all (map snd (params g)) args ∅) = Some r2 /\
    agree (next_var f) r2 r1 /\ list_to_set (map snd (params g)) ∪ list_to_set (phi_defs hb) ⊆ dom r2.
Proof.
  intros Hh Hv Hargs. destruct Hbuilt as [_ (hb0 & Hh0 & Hlive & Hpar & _)]. rewrite Hh in Hh0. injection Hh0 as <-.
  apply blocks_by_id_spec in Hh as [Hin Hid]; [|apply Hready].
  destruct (fresh_vars_spec (next_var f) (length (phi_defs hb))) as (Hfl & Hfn & Hfg). set (fresh := fresh_vars _ _) in *.
  rewrite Hlive in Hargs. apply mapM_Some, Forall2_app_inv_l in Hargs as (xs1 & xs2 & E1 & E2 & ->).
  apply mapM_Some in E1, E2.
  assert (Hl1 : length xs1 = length (phi_defs hb)) by exact (read_length r1 _ _ E1).
  assert (Hl2 : length xs2 = length (outer_live reach f)) by exact (read_length r1 _ _ E2).
  assert (Hmoves : phi_moves (next_block f) (phis hb') = zip (phi_defs hb) fresh).
  { apply osr_block_inv in Hv as (_ & _ & -> & _). rewrite decide_True by done.
    apply phi_moves_entry; [exact entry_fresh | intros i Hi; by eapply (or_phis f Hready hb) | done]. }
  assert (Hsnd : map snd (zip (phi_defs hb) fresh) = fresh) by (apply snd_zip; lia).
  assert (Hfst : map fst (zip (phi_defs hb) fresh) = phi_defs hb) by (apply fst_zip; lia).
  unfold enter. rewrite Hmoves, Hsnd, Hfst, Hpar, read_written by (done || lia). simpl.
  eexists. split_and!; [done| |].
  - intros v x Hv' Hx. apply write_all_back in Hx as [Hx|Hx]; [exact (read_zip r1 _ _ v x E1 Hx)|].
    apply write_all_back in Hx as [Hx|Hx]; [|done]. rewrite zip_with_app in Hx by lia.
    apply elem_of_app in Hx as [Hx|Hx]; [|exact (read_zip r1 _ _ v x E2 Hx)].
    apply elem_of_zip_l, Hfg in Hx. lia.
  - rewrite write_all_dom by done. rewrite write_all_dom by (rewrite !length_app; lia). set_solver.
Qed.

Lemma entry_agree prev p hb (r0 r1 : gmap VarId V) h args n :
  lookup_block f header = Some hb -> enter prev (phis hb) r0 = Some r1 -> outer ⊆ dom r1 ->
  read_all r1 (live_ins osr) = Some args ->
  same_run (run_cfg g (S n) (next_block f) (p, write_all (map snd (params g)) args ∅, h)) (run_cfg f n header (prev, r0, h)).
Proof.
  intros Hl He Ho Hargs. destruct variant_entry as (eb & Hle & Hep & Hei & Het & Heid).
  rewrite (run_cfg_enter g _ _ _ _ _ _ Hle). rewrite Hep. unfold enter at 1. simpl. unfold after_phis. rewrite Hei. simpl.
  rewrite Het, Heid. unfold write_all at 1. simpl. destruct n as [|n]; [by left|].
  destruct (variant_block header) as (hb0 & blk & hb' & Hh & Hl1 & Hl2 & Hv & Hin'); [apply reach_closed|].
  rewrite Hl in Hl1. injection Hl1 as <-. apply lookup_block_Some in Hl as Hl'; [|apply Hready]. destruct Hl' as [Hin Hid].
  assert (hb0 = hb) as ->.
  { assert (Hh' : blocks_by_id f !! header = Some hb) by (by apply blocks_by_id_spec; [apply Hready|]). congruence. }
  destruct (enter_variant hb hb' r1 args Hh Hv Hargs) as (r2 & E2 & Ha & Hdom).
  rewrite (run_cfg_enter g _ _ _ _ _ _ Hl2), (run_cfg_enter f _ _ _ _ _ _ Hl), E2, He.
  eapply (runs_agree_all n hb hb'); try done; [rewrite Hid; apply reach_closed|].
  intros Hc. pose proof (osr_block_inv hb hb hb' Hv) as (Hid' & _ & Hphis & _).
  assert (Heb : eb ∈ blocks g) by (by apply lookup_block_Some in Hle as [? _]; [|apply variant_ids]).
  destruct (du_edge _ _ _ (Hdef Hc) eb hb' Heb Hin') as (H1 & _ & H3); [rewrite Het; set_solver|].
  pose proof (variant_phi_defs hb hb hb' Hv) as Hpd.
  rewrite Heid, Hid', Hid in H1. pose proof (du_entry _ _ _ (Hdef Hc)) as Hent.
  unfold block_defs, phi_defs in H1. rewrite Hep, Hei in H1. simpl in H1. rewrite Hid, Hpd.
  clear -H1 Hent Hdom. set_solver.
Qed.

End Simulation.

(** * Theorems *)

(** The variant continues the run when it defines its registers before it
    reads them. *)
Lemma osr_resumes_defined {V H R : Type} {SH : SsaHost V H R} f header osr reach a prev p hb (r0 r1 : gmap VarId V) h args n :
  osr_ready f -> build_osr_function f header = Ok osr -> reachable (E := OsrError) f header = Ok reach ->
  regions_transparent (outer_handles reach f) ->
  defined_before_use (osr_func osr) (next_block f) a ->
  lookup_block f header = Some hb -> enter prev (phis hb) r0 = Some r1 -> outer_handles reach f ⊆ dom r1 ->
  read_all r1 (live_ins osr) = Some args ->
  run_cfg (osr_func osr) (S n) (next_block f) (p, write_all (map snd (params (osr_func osr))) args ∅, h) =
  run_cfg f n header (prev, r0, h).
Proof.
  intros Hready Hbuild Hreach Htr Hdef Hl He Ho Hargs. destruct (build_inv _ _ _ Hbuild) as (reach' & Hb).
  assert (reach' = reach) as -> by (pose proof (bu_reach _ _ _ _ Hb); congruence).
  destruct (entry_agree f header osr reach Hready Hb Htr true a (fun _ => Hdef) prev p hb r0 r1 h args n Hl He Ho Hargs)
    as [?|[? _]]; done.
Qed.

(** Entering the variant of any function never gives a wrong result: the
    variant ends as the interpreted call would have ended, or it reads a
    register that is not defined. *)
Theorem osr_never_wrong {V H R : Type} {SH : SsaHost V H R} f header osr reach prev p hb (r0 r1 : gmap VarId V) h args n :
  osr_ready f -> build_osr_function f header = Ok osr -> reachable (E := OsrError) f header = Ok reach ->
  regions_transparent (outer_handles reach f) ->
  lookup_block f header = Some hb -> enter prev (phis hb) r0 = Some r1 -> outer_handles reach f ⊆ dom r1 ->
  read_all r1 (live_ins osr) = Some args ->
  let res := run_cfg (osr_func osr) (S n) (next_block f) (p, write_all (map snd (params (osr_func osr))) args ∅, h) in
  res = run_cfg f n header (prev, r0, h) \/ res = Some undefined.
Proof.
  intros Hready Hbuild Hreach Htr Hl He Ho Hargs. destruct (build_inv _ _ _ Hbuild) as (reach' & Hb).
  assert (reach' = reach) as -> by (pose proof (bu_reach _ _ _ _ Hb); congruence).
  destruct (entry_agree f header osr reach Hready Hb Htr false (fun _ => ∅) ltac:(done) prev p hb r0 r1 h args n Hl He Ho Hargs)
    as [?|[_ ?]]; [by left | by right].
Qed.

(** Operands of region maps come in pairs. *)
Definition maps_even (f : IrFunction) : Prop :=
  forall b d r ops, b ∈ blocks f -> IRegionAlloc d r RkMap ops ∈ insts b -> Nat.Even (length ops).

Lemma chunk_pairs_even {E : Type} ops : Nat.Even (length ops) -> exists ps, chunk_pairs (E := E) ops = Ok ps.
Proof.
  induction ops as [ops IH] using (induction_ltof1 _ (@length VarId)). unfold ltof in IH.
  destruct ops as [|k [|v ops]]; intros [m Hm]; simpl in *; [by exists [] | lia|].
  destruct (IH ops) as [ps ->]; [lia | exists (m - 1)%nat; lia | by eexists].
Qed.

Lemma rewrite_allocs_ok outer is_ :
  (forall d r ops, IRegionAlloc d r RkMap ops ∈ is_ -> Nat.Even (length ops)) ->
  (forall d r ops, IRegionAlloc d r RkCons ops ∈ is_ -> length ops = 2%nat) ->
  exists is', rewrite_allocs (E := OsrError) outer is_ = Ok is'.
Proof.
  intros Hm Hc. induction is_ as [|i is_ IH]; simpl; [by eexists|].
  destruct IH as [rest ->]; [set_solver.. |].
  assert (Hi : exists i', rewrite_alloc (E := OsrError) outer i = Ok i'); [|destruct Hi as [i' ->]; by eexists].
  destruct i; simpl; try by eexists. case_decide; [|by eexists]. destruct kind; simpl; try by eexists.
  - destruct (chunk_pairs_even (E := OsrError) operands) as [ps ->]; [apply (Hm dst region); apply elem_of_cons; by left | by eexists].
  - destruct operands as [|x [|y l]]; [..|by eexists]; exfalso.
    + by discriminate (Hc dst region [] ltac:(apply elem_of_cons; by left)).
    + by discriminate (Hc dst region [x] ltac:(apply elem_of_cons; by left)).
Qed.

Lemma osr_blocks_ok f header vs reach :
  osr_ready f -> maps_even f ->
  exists bs, osr_blocks (E := OsrError) reach (outer_handles reach f) header (next_block f) vs (in_reach reach f) = Ok bs.
Proof.
  intros Hr He. assert (Hin : forall b, b ∈ in_reach reach f -> b ∈ blocks f) by (intros b Hb; by apply list_elem_of_filter in Hb as [_ ?]).
  induction (in_reach reach f) as [|b l IH]; simpl; [by eexists|].
  destruct IH as [bs Hbs]; [set_solver|]. unfold osr_block at 1.
  destruct (rewrite_allocs_ok (outer_handles reach f) (List.filter (fun i => negb (closes_outer_region (outer_handles reach f) i)) (insts b)))
    as [is' ->].
  - intros d r ops Hi. apply list_elem_of_In, filter_In in Hi as [Hi _]. apply list_elem_of_In in Hi.
    eapply (He b); [apply Hin; set_solver | done].
  - intros d r ops Hi. apply list_elem_of_In, filter_In in Hi as [Hi _]. apply list_elem_of_In in Hi.
    eapply (or_cons f Hr b); [apply Hin; set_solver | done].
  - cbn [mbind outcome_bind]. rewrite Hbs. by eexists.
Qed.

(** Building the variant always returns: an error exactly when there is no
    such block, when more than eight values are live at the header, or when a
    call of the loop hands on a region of the interpreter, and otherwise a
    function with one parameter for each of them. *)
Theorem osr_build_total f header :
  osr_ready f -> maps_even f ->
  (header ∉ ids f -> build_osr_function f header = Err (HeaderNotFound header)) /\
  (header ∈ ids f -> exists hb reach,
    hb ∈ blocks f /\ block_id hb = header /\ reachable (E := OsrError) f header = Ok reach /\
    let n := (length (phi_defs hb) + length (outer_live reach f))%nat in
    let hands_on := existsb (calls_with_outer_region (outer_handles reach f)) (in_reach reach f ≫= insts) in
    ((MAX_OSR_PARAMS < n)%nat -> build_osr_function f header = Err (TooManyLiveIns n)) /\
    ((n <= MAX_OSR_PARAMS)%nat -> hands_on = true -> build_osr_function f header = Err OuterRegionCall) /\
    ((n <= MAX_OSR_PARAMS)%nat -> hands_on = false -> exists osr, build_osr_function f header = Ok osr /\
       length (params (osr_func osr)) = n /\ length (live_ins osr) = n)).
Proof.
  intros Hr He. unfold build_osr_function. split.
  - intros Hh. destruct (blocks_by_id f !! header) as [hb|] eqn:Eh; [|done]. exfalso. apply Hh.
    apply blocks_by_id_spec in Eh as [Hin <-]; [by apply list_elem_of_fmap_2 | apply Hr].
  - intros Hh. apply list_elem_of_fmap in Hh as Hh'. destruct Hh' as (hb & Hid & Hin).
    rewrite (proj2 (blocks_by_id_spec f header hb (or_ids f Hr))) by done.
    destruct (reachable_ok (E := OsrError) f (or_ids f Hr) (or_targets f Hr) header Hh) as (reach & Er & _).
    exists hb, reach. rewrite Er. split; [done|]. split; [done|]. split; [done|]. cbn [mbind outcome_bind]. cbv zeta.
    set (n := (length (phi_defs hb) + length (outer_live reach f))%nat). set (hands_on := existsb _ _).
    destruct (Nat.ltb_spec MAX_OSR_PARAMS n) as [Hlt|Hle]; (split; [|split]); intros Hn; [done | lia | lia | lia | by intros -> |].
    intros ->. destruct (osr_blocks_ok f header (fresh_vars (next_var f) (length (phi_defs hb))) reach Hr He) as [bs ->].
    cbn [mbind outcome_bind]. eexists. split; [reflexivity|]. simpl. destruct (fresh_vars_spec (next_var f) (length (phi_defs hb))) as (Hl & _).
    by rewrite !length_app, length_imap, length_map, Hl.
Qed.
