(* ===== verification/OsrLive.v ===== *)
(** The live-ins of an on-stack-replacement variant are enough: when a function
    defines its registers before it reads them, and nothing that is defined at
    the loop header is assigned again by the loop, so does its variant.

    On-stack replacement on concrete functions: a counting loop, and a
    nested loop whose variant reads a register it does not define. *)
From stdpp Require Import base gmap list sorting.
From S2P Require Import Prelude RustStd Token Ir Reloop ReloopSem ReloopGraph IrInterp Osr OsrSem OsrSpec.
Local Open Scope Z_scope.

(** Handles of regions are read by region instructions only. *)
Definition handles_only (f : IrFunction) (outer : gset VarId) : Prop :=
  forall b i u, b ∈ blocks f -> i ∈ insts b -> u ∈ uses i -> u ∈ outer ->
    match i with
    | IRegionEnd _ => True
    | IRegionAlloc _ _ _ ops => u ∉ ops
    | ICallWithRegion _ _ _ r => r ∈ outer
    | _ => False
    end.

(** What the blocks after the header assign. *)
Definition loop_defs (reach : gset BlockId) (f : IrFunction) : gset VarId := list_to_set (in_reach reach f ≫= block_defs).

Definition loop_uses (reach : gset BlockId) (f : IrFunction) : gset VarId :=
  list_to_set (in_reach reach f ≫= block_uses reach (outer_handles reach f)).

Lemma outer_live_elem reach f v : v ∈ outer_live reach f <-> v ∈ loop_uses reach f /\ v ∉ loop_defs reach f.
Proof. unfold outer_live. rewrite merge_sort_Permutation, elem_of_elements. apply elem_of_difference. Qed.

Lemma block_use_counted reach f b v :
  b ∈ blocks f -> block_id b ∈ reach -> v ∈ block_uses reach (outer_handles reach f) b -> v ∈ loop_uses reach f.
Proof.
  intros Hb Hr Hv. apply elem_of_list_to_set, list_elem_of_bind. exists b. split; [done|]. by apply list_elem_of_filter.
Qed.

Lemma reads_cons s i is_ :
  reads_ok s (i :: is_) = true <->
  (forall u, u ∈ uses i -> u ∈ s) /\ reads_ok (list_to_set (match dst i with Some d => [d] | None => [] end) ∪ s) is_ = true.
Proof.
  cbn [reads_ok]. rewrite andb_true_iff, forallb_forall. split; intros [H1 H2]; (split; [|done]); intros u Hu.
  - apply list_elem_of_In, H1 in Hu. by apply bool_decide_eq_true in Hu.
  - apply bool_decide_eq_true, H1. by apply list_elem_of_In.
Qed.

(** The kept and rewritten instructions read what the original ones read, less
    the handles of the caller's regions. *)
Lemma reads_variant (outer used : gset VarId) is_ is' s s' :
  rewrite_allocs (E := OsrError) outer (List.filter (fun i => negb (closes_outer_region outer i)) is_) = Ok is' ->
  (forall i u, i ∈ is_ -> u ∈ uses i -> u ∈ outer ->
     match i with IRegionEnd _ => True | IRegionAlloc _ _ _ ops => u ∉ ops | _ => False end) ->
  (forall d r ops, IRegionAlloc d r RkCons ops ∈ is_ -> length ops = 2%nat) ->
  (forall i u, i ∈ is_ -> u ∈ uses i -> u ∉ outer -> u ∈ used) ->
  (forall v, v ∈ s -> v ∈ used -> v ∈ s') -> reads_ok s is_ = true -> reads_ok s' is' = true.
Proof.
  revert is' s s'. induction is_ as [|i is_ IH]; intros is' s s' Hk Hh Hc Hu Hs Hr; [simpl in Hk; by injection Hk as <-|].
  apply reads_cons in Hr as [Hi Hr]. set (d := list_to_set (match dst i with Some d => [d] | None => [] end)) in Hr.
  assert (Hrest : forall rest, rewrite_allocs (E := OsrError) outer (List.filter (fun i => negb (closes_outer_region outer i)) is_) = Ok rest ->
    reads_ok (d ∪ s') rest = true).
  { intros rest Hrest. eapply (IH rest (d ∪ s)); [done | | | | |done].
    - intros j u Hj. apply Hh. set_solver.
    - intros d0 r ops Hin. eapply Hc. apply elem_of_cons. by right.
    - intros j u Hj. apply Hu. set_solver.
    - intros v Hv Hus. apply elem_of_union in Hv as [Hv|Hv]; [set_solver|]. apply elem_of_union. right. by apply Hs. }
  simpl in Hk. destruct (closes_outer_region outer i) eqn:Ec; simpl in Hk.
  { destruct i; try done. specialize (Hrest is' Hk). subst d. simpl in Hrest. by rewrite union_empty_l_L in Hrest. }
  destruct (rewrite_alloc outer i) as [i'| | |] eqn:Ei; try done. cbn [mbind outcome_bind] in Hk.
  destruct (rewrite_allocs outer _) as [rest| | |] eqn:Er; try done. injection Hk as <-. specialize (Hrest rest eq_refl).
  assert (Hread : forall u, u ∈ uses i -> u ∉ outer -> u ∈ s').
  { intros u Hin Ho. apply Hs; [by apply Hi|]. apply (Hu i); [set_solver | done | done]. }
  apply reads_cons. destruct (rewrite_alloc_cases outer i i' Ei) as [->|(d0 & r & kind & ops & -> & Hro & Hp)].
  - split; [|done]. intros u Hin. apply Hread; [done|]. intros Ho.
    pose proof (Hh i u ltac:(set_solver) Hin Ho) as Hbad. destruct i; try done.
    + simpl in Ei, Hin. apply elem_of_cons in Hin as [->|Hin]; [|done]. rewrite decide_True in Ei by done.
      destruct (plain_alloc_uses _ _ _ _ Ei) as [Hus _]; [intros ->; eapply Hc; apply elem_of_cons; by left|].
      simpl in Hus. clear -Hus. apply (f_equal length) in Hus. simpl in Hus. lia.
    + simpl in Ec, Hin. apply bool_decide_eq_false in Ec. set_solver.
  - destruct (plain_alloc_uses d0 kind ops i' Hp) as [Hus Hds]; [intros ->; eapply Hc; apply elem_of_cons; by left|].
    subst d. rewrite Hus, Hds. simpl in Hrest. split; [|exact Hrest]. intros u Hin.
    apply Hread; [simpl; set_solver|]. intros Ho. apply (Hh (IRegionAlloc d0 r kind ops) u); [apply elem_of_cons; by left | simpl; set_solver | done | done].
Qed.

Section Live.
Context (f : IrFunction) (header : BlockId) (osr : OsrFunction) (reach : gset BlockId).
Context (Hready : osr_ready f) (Hbuilt : built f header osr reach).
Abbreviation g := (osr_func osr).
Abbreviation outer := (outer_handles reach f).

(** What the variant defines: its parameters, and what the loop has assigned. *)
Definition variant_defined (a : BlockId -> gset VarId) (b : BlockId) : gset VarId :=
  list_to_set (map snd (params g)) ∪ (if decide (b = next_block f) then ∅ else a b ∩ loop_defs reach f).

(** A block of the variant is the new entry or comes from one of the function. *)
Lemma variant_cases blk' :
  blk' ∈ blocks g ->
  (block_id blk' = next_block f /\ phis blk' = [] /\ insts blk' = [] /\ terminator blk' = Jump header) \/
  exists blk hb, blk ∈ blocks f /\ block_id blk ∈ reach /\ hb ∈ blocks f /\ block_id hb = header /\
    osr_block (E := OsrError) reach outer header (next_block f) (fresh_vars (next_var f) (length (phi_defs hb))) blk = Ok blk'.
Proof.
  intros Hin. destruct Hbuilt as [_ (hb & Hh & _ & _ & bs & Eb & Hall)]. rewrite Eb in Hin.
  apply elem_of_cons in Hin as [->|Hin]; [by left|]. right. apply blocks_by_id_spec in Hh as [Hh1 Hh2]; [|apply Hready].
  apply list_elem_of_lookup_1 in Hin as [k Hk]. destruct (Forall2_lookup_r _ _ _ _ _ Hall Hk) as (blk & Hk' & Hv).
  apply list_elem_of_lookup_2, list_elem_of_filter in Hk' as [Hr Hb]. by exists blk, hb.
Qed.

Lemma variant_block_defs blk hb blk' :
  blk ∈ blocks f ->
  osr_block (E := OsrError) reach outer header (next_block f) (fresh_vars (next_var f) (length (phi_defs hb))) blk = Ok blk' ->
  block_defs blk' = block_defs blk.
Proof.
  intros Hb Hv. unfold block_defs. rewrite (variant_phi_defs f header reach blk hb blk' Hv). f_equal.
  apply (osr_block_inv f header reach) in Hv as (_ & _ & _ & Hi).
  assert (Hc : forall d r ops, IRegionAlloc d r RkCons ops ∈ insts blk -> length ops = 2%nat) by (intros d r ops; by apply (or_cons f Hready)).
  revert Hi Hc. generalize (insts blk) (insts blk'). induction l as [|i l IH]; intros is' Hi Hc; [simpl in Hi; by injection Hi as <-|].
  simpl in Hi. assert (Hc' : forall d r ops, IRegionAlloc d r RkCons ops ∈ l -> length ops = 2%nat) by (intros; eapply Hc; apply elem_of_cons; right; eassumption).
  rewrite bind_cons. destruct (closes_outer_region outer i) eqn:Ec; simpl in Hi; [destruct i; try done; by rewrite (IH is' Hi Hc')|].
  destruct (rewrite_alloc outer i) as [i'| | |] eqn:Ei; try done. cbn [mbind outcome_bind] in Hi.
  destruct (rewrite_allocs outer _) as [rest| | |] eqn:Er; try done. injection Hi as <-. rewrite bind_cons, (IH rest eq_refl Hc'). f_equal.
  destruct (rewrite_alloc_cases outer i i' Ei) as [->|(d0 & r & kind & ops & -> & _ & Hp)]; [done|].
  destruct (plain_alloc_uses d0 kind ops i' Hp) as [_ ->]; [intros ->; eapply Hc; apply elem_of_cons; by left | done].
Qed.

Lemma phi_moves_counted prev blk v : prev ∈ reach -> v ∈ map snd (phi_moves prev (phis blk)) -> v ∈ block_uses reach outer blk.
Proof.
  intros Hp Hv. unfold block_uses. apply elem_of_app. left. unfold phi_uses. induction (phis blk) as [|i ps IH]; [set_solver|].
  rewrite bind_cons. apply elem_of_app. simpl in Hv. destruct i; try (right; by apply IH).
  destruct (phi_source prev entries) as [src|] eqn:Es; [|right; by apply IH]. simpl in Hv. apply elem_of_cons in Hv as [->|Hv]; [|right; by apply IH].
  left. unfold phi_source in Es. destruct (find _ entries) as [[p u]|] eqn:Ef; [|done]. simpl in Es. injection Es as <-.
  apply find_some in Ef as [Hin Heq]. simpl in Heq. apply Z.eqb_eq in Heq as ->. apply list_elem_of_In in Hin.
  apply (list_elem_of_fmap_2' snd _ (prev, u)); [by apply list_elem_of_filter | done].
Qed.

Context (e : BlockId) (a : BlockId -> gset VarId) (Hdef : defined_before_use f e a).
Context (Hhandles : handles_only f outer) (Hnew : a header ## loop_defs reach f).
Context (Hcalls : existsb (calls_with_outer_region outer) (in_reach reach f ≫= insts) = false).

Lemma params_spec : exists hb, hb ∈ blocks f /\ block_id hb = header /\
  map snd (params g) = fresh_vars (next_var f) (length (phi_defs hb)) ++ outer_live reach f.
Proof.
  destruct Hbuilt as [_ (hb & Hh & _ & Hp & _)]. apply blocks_by_id_spec in Hh as [H1 H2]; [|apply Hready]. by exists hb.
Qed.

(** A value that is read and defined in the function is defined in the variant. *)
Lemma defined_there b v : b ∈ reach -> v ∈ a b -> v ∈ loop_uses reach f -> v ∈ variant_defined a b.
Proof.
  intros Hb Hv Hu. unfold variant_defined. rewrite decide_False by (intros ->; by apply (entry_fresh f header osr reach Hready Hbuilt)).
  destruct (decide (v ∈ loop_defs reach f)) as [Hd|Hd]; [set_solver|]. apply elem_of_union_l, elem_of_list_to_set.
  destruct params_spec as (hb & _ & _ & ->). apply elem_of_app. right. by apply outer_live_elem.
Qed.

Lemma variant_reads blk hb blk' :
  blk ∈ blocks f -> block_id blk ∈ reach ->
  osr_block (E := OsrError) reach outer header (next_block f) (fresh_vars (next_var f) (length (phi_defs hb))) blk = Ok blk' ->
  reads_ok (variant_defined a (block_id blk) ∪ list_to_set (phi_defs blk)) (insts blk') = true.
Proof.
  intros Hb Hr Hv. apply (osr_block_inv f header reach) in Hv as (_ & _ & _ & Hi).
  eapply (reads_variant outer (loop_uses reach f)); [exact Hi | | | | |exact (du_reads _ _ _ Hdef blk Hb)].
  - intros i u Hin Hu Ho. pose proof (Hhandles blk i u Hb Hin Hu Ho) as Hx. destruct i; try done. exfalso.
    assert (Hyes : existsb (calls_with_outer_region outer) (in_reach reach f ≫= insts) = true); [|congruence].
    apply existsb_exists. exists (ICallWithRegion dst target_name args region).
    split; [|simpl; by apply bool_decide_eq_true]. apply list_elem_of_In, list_elem_of_bind.
    exists blk. split; [exact Hin | by apply list_elem_of_filter].
  - intros d r ops. by apply (or_cons f Hready).
  - intros i u Hin Hu Ho. eapply block_use_counted; [done | done|]. unfold block_uses. apply elem_of_app. right. apply elem_of_app. left.
    apply list_elem_of_bind. exists i. split; [by apply list_elem_of_filter | done].
  - intros v Hv' Hu. apply elem_of_union in Hv' as [Hv'|Hv']; [|set_solver]. apply elem_of_union_l. by apply defined_there.
Qed.

(** No edge of the variant leads to its entry. *)
Lemma variant_edge_target b s :
  b ∈ blocks g -> block_id s ∈ successors (terminator b) -> block_id s <> next_block f.
Proof.
  intros Hb Hsucc Hid. rewrite Hid in Hsucc. apply variant_cases in Hb as [(_ & _ & _ & Ht)|(blk & hb & Hin & Hr & _ & _ & Hv)].
  - rewrite Ht in Hsucc. simpl in Hsucc. apply list_elem_of_singleton in Hsucc.
    apply (entry_fresh f header osr reach Hready Hbuilt). rewrite Hsucc. by apply (reach_closed f header osr reach Hready Hbuilt).
  - apply (osr_block_inv f header reach) in Hv as (_ & Ht & _). rewrite Ht in Hsucc.
    assert (Hx : next_block f ∈ ids f) by (apply (or_targets f Hready (block_id blk)); exists (terminator blk); split; [by exists blk | done]).
    apply (or_fresh_block f Hready) in Hx. lia.
Qed.

(** The jump from the entry to the header. *)
Lemma variant_entry_edge hb s :
  hb ∈ blocks f -> block_id hb = header ->
  osr_block (E := OsrError) reach outer header (next_block f) (fresh_vars (next_var f) (length (phi_defs hb))) hb = Ok s ->
  variant_defined a header ⊆ variant_defined a (next_block f) /\
  (forall v, v ∈ map snd (phi_moves (next_block f) (phis s)) -> v ∈ variant_defined a (next_block f)) /\
  (forall v, v ∈ phi_defs hb -> v ∈ map fst (phi_moves (next_block f) (phis s))).
Proof.
  intros Hhb Hid Hv. apply (osr_block_inv f header reach) in Hv as (_ & _ & Hphis & _). rewrite decide_True in Hphis by done.
  destruct (fresh_vars_spec (next_var f) (length (phi_defs hb))) as (Hfl & _).
  assert (Hmoves : phi_moves (next_block f) (phis s) = zip (phi_defs hb) (fresh_vars (next_var f) (length (phi_defs hb)))).
  { rewrite Hphis. apply phi_moves_entry; [exact (entry_fresh f header osr reach Hready Hbuilt) | intros i Hi'; by eapply (or_phis f Hready hb) | done]. }
  assert (Hpar : variant_defined a (next_block f) = list_to_set (map snd (params g))).
  { unfold variant_defined. rewrite decide_True by done. by rewrite union_empty_r_L. }
  rewrite Hmoves, Hpar. split_and!.
  - unfold variant_defined. case_decide; set_solver.
  - intros v Hv. rewrite snd_zip in Hv by lia. apply elem_of_list_to_set.
    destruct params_spec as (hb3 & H3 & Hid3 & ->). assert (hb3 = hb) as -> by (apply (block_unique f); [apply Hready | done | done | congruence]).
    apply elem_of_app. by left.
  - intros v Hv. rewrite fst_zip by lia. done.
Qed.

(** The invariant of the function is one of the variant. *)
Lemma variant_defines : defined_before_use g (next_block f) (variant_defined a).
Proof.
  constructor.
  - unfold variant_defined. rewrite decide_True by done. set_solver.
  - intros b Hb. apply variant_cases in Hb as [(Hid & _ & Hi & _)|(blk & hb & Hin & Hr & _ & _ & Hv)]; [by rewrite Hi|].
    pose proof Hv as Hid. apply (osr_block_inv f header reach) in Hid as (Hid & _).
    rewrite (variant_phi_defs f header reach blk hb b Hv), Hid. by eapply variant_reads.
  - intros b v Hb Hu. apply variant_cases in Hb as [(_ & _ & _ & Ht)|(blk & hb & Hin & Hr & _ & _ & Hv)]; [rewrite Ht in Hu; set_solver|].
    pose proof Hv as Hid. apply (osr_block_inv f header reach) in Hid as (Hid & Ht & _). rewrite Ht in Hu.
    rewrite Hid, (variant_block_defs blk hb b Hin Hv).
    pose proof (du_terminator _ _ _ Hdef blk v Hin Hu) as Hd. apply elem_of_union in Hd as [Hd|Hd]; [|set_solver]. apply elem_of_union_l.
    apply defined_there; [done | done|]. eapply block_use_counted; [done | done|]. unfold block_uses. set_solver.
  - intros b s Hb Hs Hsucc. pose proof (variant_edge_target b s Hb Hsucc) as Hne.
    apply variant_cases in Hs as [(Hid & _)|(sb & hb2 & Hsin & Hsr & Hhb2 & Hhid2 & Hsv)]; [done|].
    pose proof Hsv as Hsid. apply (osr_block_inv f header reach) in Hsid as (Hsid & _).
    rewrite (variant_phi_defs f header reach sb hb2 s Hsv), Hsid in *.
    apply variant_cases in Hb as [(Hid & Hph & Hi & Ht)|(blk & hb & Hin & Hr & _ & _ & Hv)].
    + rewrite Ht in Hsucc. simpl in Hsucc. apply list_elem_of_singleton in Hsucc. rewrite Hid, Hsucc.
      assert (sb = hb2) as -> by (apply (block_unique f); [apply Hready | done | done | congruence]).
      destruct (variant_entry_edge hb2 s Hhb2 Hhid2 Hsv) as (H1 & H2 & H3). split_and!; [set_solver | | done].
      intros v Hv. apply elem_of_union_l. by apply H2.
    + pose proof Hv as Hid. apply (osr_block_inv f header reach) in Hid as (Hid & Ht & _). rewrite Ht in Hsucc.
      rewrite Hid, (variant_block_defs blk hb b Hin Hv), (variant_moves f header osr reach Hready Hbuilt sb hb2 s _ Hsv Hr).
      destruct (du_edge _ _ _ Hdef blk sb Hin Hsin Hsucc) as (H1 & H2 & H3). split_and!; [| |done].
      * unfold variant_defined. assert (Hf : forall x, x ∈ reach -> x <> next_block f).
        { intros x Hx ->. exact (entry_fresh f header osr reach Hready Hbuilt Hx). }
        rewrite !decide_False by (by apply Hf). clear -H1. intros v Hv. apply elem_of_union in Hv as [Hv|Hv]; [set_solver|].
        apply elem_of_intersection in Hv as [Hv Hd]. apply H1 in Hv. set_solver.
      * intros v Hm. pose proof (H2 v Hm) as Hd. apply elem_of_union in Hd as [Hd|Hd]; [|set_solver]. apply elem_of_union_l.
        apply defined_there; [done | done|]. eapply (block_use_counted reach f sb); [done | done|].
        apply (phi_moves_counted (block_id blk)); [done | exact Hm].
Qed.

End Live.

Lemma build_no_calls f header osr reach :
  build_osr_function f header = Ok osr -> reachable (E := OsrError) f header = Ok reach ->
  existsb (calls_with_outer_region (outer_handles reach f)) (in_reach reach f ≫= insts) = false.
Proof.
  unfold build_osr_function. intros Hb Hr. destruct (blocks_by_id f !! header); [|done]. rewrite Hr in Hb. cbn [mbind outcome_bind] in Hb.
  destruct (_ <? _)%nat; [done|]. by destruct (existsb _ _).
Qed.

(** * Theorem *)

(** C22: leaving a run of the function at a loop header and entering the variant
    compiled for that header, with the current values of its live-ins as arguments,
    ends exactly as the run would have ended.  Both are runs of the SSA machine of
    OsrSem.v, on which the phis of a block are assigned at once; the interpreter
    assigns them one after the other, which is the same when no phi reads the result
    of an earlier one (IrInterp, [phis_sequential_is_parallel]) and not otherwise
    ([recur_reads_updated_register]).  The host gives the same values in and out of
    the regions that are open at the header and takes no notice of their end
    ([regions_transparent]); the handles of these are only read by the instructions
    on regions ([handles_only]).  The function defines its registers before it reads
    them ([a] gives what is defined where), and the loop assigns nothing that is
    defined at its header: it is not nested in a loop whose variables are. *)
Theorem osr_resumes {V H R : Type} {SH : SsaHost V H R} f header osr reach e a prev p hb (r0 r1 : gmap VarId V) h args n :
  osr_ready f -> build_osr_function f header = Ok osr -> reachable (E := OsrError) f header = Ok reach ->
  regions_transparent (outer_handles reach f) -> handles_only f (outer_handles reach f) ->
  defined_before_use f e a -> a header ## loop_defs reach f ->
  lookup_block f header = Some hb -> enter prev (phis hb) r0 = Some r1 -> outer_handles reach f ⊆ dom r1 ->
  read_all r1 (live_ins osr) = Some args ->
  run_cfg (osr_func osr) (S n) (next_block f) (p, write_all (map snd (params (osr_func osr))) args ∅, h) =
  run_cfg f n header (prev, r0, h).
Proof.
  intros Hready Hbuild Hreach Htr Hh Hdef Hnew Hl He Ho Hargs. destruct (build_inv _ _ _ Hbuild) as (reach' & Hb).
  assert (reach' = reach) as -> by (pose proof (bu_reach _ _ _ _ Hb); congruence).
  eapply osr_resumes_defined; try done. eapply (variant_defines f header osr reach Hready Hb e a Hdef Hh Hnew).
  by eapply build_no_calls.
Qed.

(** * Deciding the hypotheses *)

Definition is_phi (i : Inst) : bool := match i with IPhi _ _ => true | _ => false end.

Definition cons_ok (i : Inst) : bool :=
  match i with IRegionAlloc _ _ RkCons ops => (length ops =? 2)%nat | _ => true end.

Definition ready (f : IrFunction) : bool :=
  bool_decide (NoDup (ids f)) &&
  forallb (fun b =>
    forallb (fun s => bool_decide (s ∈ ids f)) (successors (terminator b)) && (block_id b <? next_block f) &&
    forallb (fun v => v <? next_var f) (block_vars b) && forallb is_phi (phis b) && forallb cons_ok (insts b)) (blocks f).

Lemma ready_sound f : ready f = true -> osr_ready f.
Proof.
  unfold ready. intros Hr. apply andb_true_iff in Hr as [Hnd Hr]. rewrite forallb_forall in Hr.
  assert (Hall : forall b, b ∈ blocks f ->
    (forall s, s ∈ successors (terminator b) -> s ∈ ids f) /\ block_id b < next_block f /\
    (forall v, v ∈ block_vars b -> v < next_var f) /\ (forall i, i ∈ phis b -> is_phi i = true) /\
    (forall i, i ∈ insts b -> cons_ok i = true)).
  { intros b Hb. apply list_elem_of_In, Hr in Hb. rewrite !andb_true_iff, !forallb_forall, Z.ltb_lt in Hb.
    destruct Hb as ((((H1 & H2) & H3) & H4) & H5). split_and!; try done; intros x Hx; apply list_elem_of_In in Hx.
    - by apply H1, bool_decide_eq_true in Hx.
    - by apply Z.ltb_lt, H3.
    - by apply H4.
    - by apply H5. }
  constructor.
  - by apply bool_decide_eq_true in Hnd.
  - intros b s (t & (blk & Hb & _ & <-) & Hs). by apply (Hall blk Hb).
  - intros b Hb. apply list_elem_of_fmap in Hb as (blk & -> & Hb). by apply (Hall blk Hb).
  - intros b v Hb. by apply (Hall b Hb).
  - intros b i Hb Hi. destruct (Hall b Hb) as (_ & _ & _ & H4 & _). specialize (H4 i Hi). destruct i; try done. eauto.
  - intros b d r ops Hb Hi. destruct (Hall b Hb) as (_ & _ & _ & _ & H5). apply H5 in Hi. by apply Nat.eqb_eq.
Qed.

Definition subset (l : list VarId) (s : gset VarId) : bool := forallb (fun v => bool_decide (v ∈ s)) l.

Definition defines (g : IrFunction) (entry : BlockId) (a : BlockId -> gset VarId) : bool :=
  subset (elements (a entry)) (list_to_set (map snd (params g))) &&
  forallb (fun b =>
    let out := a (block_id b) ∪ list_to_set (block_defs b) in
    reads_ok (a (block_id b) ∪ list_to_set (phi_defs b)) (insts b) && subset (terminator_uses (terminator b)) out &&
    forallb (fun s =>
      if decide (block_id s ∈ successors (terminator b)) then
        subset (elements (a (block_id s))) out && subset (map snd (phi_moves (block_id b) (phis s))) out &&
        subset (phi_defs s) (list_to_set (map fst (phi_moves (block_id b) (phis s))))
      else true) (blocks g)) (blocks g).

Lemma subset_spec l s : subset l s = true <-> forall v, v ∈ l -> v ∈ s.
Proof.
  unfold subset. rewrite forallb_forall. split; intros Hs v Hv.
  - apply list_elem_of_In, Hs in Hv. by apply bool_decide_eq_true in Hv.
  - apply bool_decide_eq_true, Hs. by apply list_elem_of_In.
Qed.

Lemma defines_sound g entry a : defines g entry a = true -> defined_before_use g entry a.
Proof.
  unfold defines. intros Hd. apply andb_true_iff in Hd as [He Hd]. rewrite forallb_forall in Hd.
  rewrite subset_spec in He.
  constructor.
  - intros v Hv. apply He. by apply elem_of_elements.
  - intros b Hb. apply list_elem_of_In, Hd in Hb. by apply andb_true_iff in Hb as [[? _]%andb_true_iff _].
  - intros b v Hb. apply list_elem_of_In, Hd in Hb. apply andb_true_iff in Hb as [[_ Hu]%andb_true_iff _].
    by apply subset_spec.
  - intros b s Hb Hs Hsucc. apply list_elem_of_In, Hd in Hb. apply andb_true_iff in Hb as [_ Hb].
    rewrite forallb_forall in Hb. apply list_elem_of_In, Hb in Hs. rewrite decide_True in Hs by done.
    rewrite !andb_true_iff, !subset_spec in Hs. destruct Hs as ((H1 & H2) & H3). split_and!; [|done|].
    + intros v Hv. apply H1. by apply elem_of_elements.
    + intros v Hv. apply H3 in Hv. by apply elem_of_list_to_set in Hv.
Qed.

(** * A counting loop *)

Inductive SmallResult : Type := SrValue (v : SmallValue) | SrError | SrUndefined | SrUnreachable.

#[export] Instance small_ssa : SsaHost SmallValue unit SmallResult := {|
  exec i xs h :=
    match i, xs with
    | IConst _ (CLong n), [] => inr (SvLong n, h)
    | IConst _ CNil, [] => inr (SvNil, h)
    | ICallKnown _ k _, [x; y] => match small_known k x y with Some v => inr (v, h) | None => inl SrError end
    | _, _ => inl SrError
    end;
  truth := is_truthy;
  ret v _ := SrValue v;
  undefined := SrUndefined;
  unreachable _ := SrUnreachable
|}.

Lemma no_regions : regions_transparent (SH := small_ssa) ∅.
Proof. constructor; intros; set_solver. Qed.

(** [(fn [n] (loop [i 0 acc 0] (if (< i n) (recur (+ i 1) (+ acc i)) acc)))] *)
Definition sum_loop : IrFunction :=
  mkIrFunction None [([], 0)]
    [mkBlock 0 [] [IConst 1 (CLong 0); IConst 2 (CLong 0)] (Jump 1);
     mkBlock 1 [IPhi 3 [(0, 1); (2, 6)]; IPhi 4 [(0, 2); (2, 7)]] [ICallKnown 5 KLt [3; 0]] (Branch 5 2 3);
     mkBlock 2 [] [IConst 8 (CLong 1); ICallKnown 6 KAdd [3; 8]; ICallKnown 7 KAdd [4; 3]] (RecurJump 1 [6; 7]);
     mkBlock 3 [] [] (Return 4)]
    9 4 None [] false false [] [] [].

Definition sum_variant : OsrFunction :=
  match build_osr_function sum_loop 1 with Ok osr => osr | _ => mkOsrFunction sum_loop [] end.

(** The registers after four rounds of [n = 6], at the end of the body. *)
Definition sum_regs : gmap VarId SmallValue :=
  list_to_map [(0, SvLong 6); (1, SvLong 0); (2, SvLong 0); (3, SvLong 3); (4, SvLong 3); (5, SvBool true);
               (6, SvLong 4); (7, SvLong 6); (8, SvLong 1)].

Definition sum_defined (b : BlockId) : gset VarId :=
  if b =? 0 then {[0]} else if b =? 1 then {[0; 1; 2]} else {[0; 1; 2; 3; 4; 5]}.

Lemma no_handles f : handles_only f ∅.
Proof. intros b i u _ _ _ Hu. set_solver. Qed.

Lemma osr_resumes_witness :
  run_cfg (osr_func sum_variant) 20 4 (0, write_all [9; 10; 0] [SvLong 4; SvLong 6; SvLong 6] ∅, ()) =
  run_cfg sum_loop 19 1 (2, sum_regs, ()).
Proof.
  apply (osr_resumes sum_loop 1 sum_variant {[1; 2; 3]} 0 sum_defined 2 0
    (mkBlock 1 [IPhi 3 [(0, 1); (2, 6)]; IPhi 4 [(0, 2); (2, 7)]] [ICallKnown 5 KLt [3; 0]] (Branch 5 2 3))
    sum_regs (<[3 := SvLong 4]> (<[4 := SvLong 6]> sum_regs)) () [SvLong 4; SvLong 6; SvLong 6] 19).
  - apply ready_sound. vm_compute. reflexivity.
  - vm_compute. reflexivity.
  - vm_compute. reflexivity.
  - exact no_regions.
  - exact (no_handles sum_loop).
  - apply defines_sound. vm_compute. reflexivity.
  - apply (bool_decide_unpack _). vm_compute. exact I.
  - vm_compute. reflexivity.
  - vm_compute. reflexivity.
  - apply (bool_decide_unpack _). vm_compute. exact I.
  - vm_compute. reflexivity.
Defined.

Lemma sum_loop_even : maps_even sum_loop.
Proof.
  intros b d r ops Hb Hi. exfalso. simpl in Hb.
  repeat (apply elem_of_cons in Hb as [->|Hb]; [simpl in Hi; repeat (apply elem_of_cons in Hi as [Hi|Hi]; [done|]); by apply elem_of_nil in Hi|]).
  by apply elem_of_nil in Hb.
Qed.

Lemma osr_build_total_witness :
  build_osr_function sum_loop 7 = Err (HeaderNotFound 7) /\
  exists osr, build_osr_function sum_loop 1 = Ok osr /\ length (params (osr_func osr)) = 3%nat.
Proof.
  assert (Hready : osr_ready sum_loop) by (apply ready_sound; vm_compute; reflexivity). split.
  - apply (proj1 (osr_build_total sum_loop 7 Hready sum_loop_even)). apply (bool_decide_unpack _). vm_compute. exact I.
  - destruct (proj2 (osr_build_total sum_loop 1 Hready sum_loop_even)) as (hb & reach & Hin & Hid & Hr & Hn).
    { apply (bool_decide_unpack _). vm_compute. exact I. }
    assert (Er : reachable (E := OsrError) sum_loop 1 = Ok {[1; 2; 3]}) by (vm_compute; reflexivity).
    rewrite Er in Hr. injection Hr as <-.
    assert (hb = mkBlock 1 [IPhi 3 [(0, 1); (2, 6)]; IPhi 4 [(0, 2); (2, 7)]] [ICallKnown 5 KLt [3; 0]] (Branch 5 2 3)) as ->.
    { simpl in Hin. repeat (apply elem_of_cons in Hin as [->|Hin]; [done || discriminate Hid|]). by apply elem_of_nil in Hin. }
    destruct (proj2 (proj2 Hn)) as (osr & Ho & Hl & _); [vm_compute; lia | vm_compute; reflexivity|].
    exists osr. split; [exact Ho|]. rewrite Hl. vm_compute. reflexivity.
Defined.

(** * A nested loop *)

(** [(loop [i 0] (if (< i 2) (do (loop [j 0] (if (< j i) (recur (inc j)) nil)) (recur (inc i))) i))] *)
Definition nested_loop : IrFunction :=
  mkIrFunction None []
    [mkBlock 0 [] [IConst 0 (CLong 0)] (Jump 1);
     mkBlock 1 [IPhi 1 [(0, 0); (5, 8)]] [IConst 2 (CLong 2); ICallKnown 3 KLt [1; 2]] (Branch 3 2 6);
     mkBlock 2 [] [IConst 4 (CLong 0)] (Jump 3);
     mkBlock 3 [IPhi 5 [(2, 4); (4, 7)]] [ICallKnown 6 KLt [5; 1]] (Branch 6 4 5);
     mkBlock 4 [] [IConst 9 (CLong 1); ICallKnown 7 KAdd [5; 9]] (RecurJump 3 [7]);
     mkBlock 5 [] [IConst 10 (CLong 1); ICallKnown 8 KAdd [1; 10]] (RecurJump 1 [8]);
     mkBlock 6 [] [] (Return 1)]
    11 7 None [] false false [] [] [].

Definition inner_variant : OsrFunction :=
  match build_osr_function nested_loop 3 with Ok osr => osr | _ => mkOsrFunction nested_loop [] end.

(** The registers after the first round of the inner loop, with [i = 1]. *)
Definition nested_regs : gmap VarId SmallValue :=
  list_to_map [(0, SvLong 0); (1, SvLong 1); (2, SvLong 2); (3, SvBool true); (4, SvLong 0); (5, SvLong 0);
               (6, SvBool true); (7, SvLong 1); (8, SvLong 1); (9, SvLong 1); (10, SvLong 1)].

Lemma osr_never_wrong_witness :
  let res := run_cfg (osr_func inner_variant) 30 7 (0, write_all [11] [SvLong 1] ∅, ()) in
  res = run_cfg nested_loop 29 3 (4, nested_regs, ()) \/ res = Some undefined.
Proof.
  apply (osr_never_wrong nested_loop 3 inner_variant {[1; 2; 3; 4; 5; 6]} 4 0
    (mkBlock 3 [IPhi 5 [(2, 4); (4, 7)]] [ICallKnown 6 KLt [5; 1]] (Branch 6 4 5))
    nested_regs (<[5 := SvLong 1]> nested_regs) () [SvLong 1] 29).
  - apply ready_sound. vm_compute. reflexivity.
  - vm_compute. reflexivity.
  - vm_compute. reflexivity.
  - exact no_regions.
  - vm_compute. reflexivity.
  - vm_compute. reflexivity.
  - apply (bool_decide_unpack _). vm_compute. exact I.
  - vm_compute. reflexivity.
Defined.

(** The variant for the inner of two nested loops has the inner loop
    variable as its only parameter and reads the outer one, which is not
    defined, although the interpreted call returns 2: the outer variable is
    assigned in a block that the inner loop reaches, so it does not count as
    live. *)
Theorem osr_nested_loop_undefined :
  build_osr_function nested_loop 3 = Ok inner_variant /\ live_ins inner_variant = [5] /\
  run_cfg nested_loop 30 0 (0, ∅, ()) = Some (SrValue (SvLong 2)) /\
  run_cfg nested_loop 29 3 (4, nested_regs, ()) = Some (SrValue (SvLong 2)) /\
  run_cfg (osr_func inner_variant) 30 7 (0, write_all [11] [SvLong 1] ∅, ()) = Some undefined.
Proof. split_and!; [vm_compute; reflexivity..]. Qed.
