(* ===== verification/AsyncLower.v ===== *)
(** The lowering of asynchronous functions to poll functions
    (crates/cljrs-ir/src/lower/async_lower.rs): blocks are split at each await,
    the values that live on behind an await are saved in slots of a state
    machine before it and restored after it. *)
From stdpp Require Import strings gmap sorting.
From S2P Require Import Prelude RustStd Token Form Ir Osr.
Local Open Scope Z_scope.

(** * Bodies that are not lowered *)

Definition UNSUPPORTED_ASYNC_OPS : list (list Z) :=
  map lit ["go"; "chan"; "take!"; "put!"; "<!"; ">!"; "<!!"; ">!!"; "close!"; "alt"; "alts"; "alts!"; "timeout"; "join-all";
    "async-pmap"; "async-spawn"; "mult"; "tap!"; "untap!"; "untap-all!"; "poll!"; "offer!"; "thread"; "thread-call";
    "onto-chan!"; "to-chan!"; "pipe"; "go-try"; "<?"; "<??"]%string.

(** [s.rsplit('/').next().unwrap_or(s)]: what follows the last slash. *)
Fixpoint after_last_slash (s : list Z) : list Z :=
  match s with
  | [] => []
  | c :: s' => if bool_decide (47 ∈ s') then after_last_slash s' else if c =? 47 then s' else s
  end.

Fixpoint form_uses_unsupported_async (f : Form) : bool :=
  let fix any (fs : list Form) : bool :=
    match fs with
    | [] => false
    | g :: gs => form_uses_unsupported_async g || any gs
    end in
  match f with
  | mkForm k _ =>
      match k with
      | FSymbol s => bool_decide (after_last_slash s ∈ UNSUPPORTED_ASYNC_OPS)
      | FList parts | FVector parts | FSet parts => any parts
      | FMap elems => any elems
      | _ => false
      end
  end.

Definition body_uses_unsupported_async (body : list Form) : bool := existsb form_uses_unsupported_async body.

(** The reason why a function stays with the interpreter. *)
Inductive AsyncLowerError : Type := Unsupported (what : list Z).

Definition unsupported_inst (i : Inst) : option (list Z) :=
  match i with
  | ISpawn _ _ _ => Some (lit "spawn")
  | IChanTake _ _ => Some (lit "channel take (<!)")
  | IChanPut _ _ => Some (lit "channel put (>!)")
  | IThrow _ => Some (lit "throw")
  | IRegionStart _ | IRegionEnd _ | IRegionAlloc _ _ _ _ | IRegionParam _ | ICallWithRegion _ _ _ _ =>
      Some (lit "region allocation")
  | _ => None
  end.

Fixpoint first_unsupported (is_ : list Inst) : option (list Z) :=
  match is_ with
  | [] => None
  | i :: is' => match unsupported_inst i with Some what => Some what | None => first_unsupported is' end
  end.

Definition reject_unsupported (f : IrFunction) : outcome AsyncLowerError unit :=
  match first_unsupported (blocks f ≫= insts) with
  | Some what => Err (Unsupported what)
  | None => Ok tt
  end.

(** * Splitting blocks *)

(** The locals of the splitting loop: the new blocks, the resume block of each
    state, the suspending block of each resume block, the last segment of each
    original block, and the counter of block ids. *)
Record Split : Type := mkSplit {
  new_blocks : list Block;
  resume_states : list BlockId;
  suspend_resume : list (BlockId * BlockId);
  last_segment : gmap BlockId BlockId;
  fresh : Z
}.

(** Only the first segment of a block has its phis. *)
Definition segment_phis (b : Block) (current_id : BlockId) : list Inst :=
  if current_id =? block_id b then phis b else [].

Fixpoint split_insts (b : Block) (is_ : list Inst) (current_id : BlockId) (current_insts : list Inst) (st : Split) : Split :=
  match is_ with
  | [] =>
      mkSplit (new_blocks st ++ [mkBlock current_id (segment_phis b current_id) current_insts (terminator b)])
        (resume_states st) (suspend_resume st) (<[block_id b := current_id]> (last_segment st)) (fresh st)
  | IAwait src d :: is' =>
      let resume_id := fresh st in
      let state := Z.of_nat (length (resume_states st)) + 1 in
      split_insts b is' resume_id [IAsyncResume d SkAwait]
        (mkSplit
           (new_blocks st ++
            [mkBlock current_id (segment_phis b current_id) (current_insts ++ [IAsyncSuspend SkAwait [src] state]) Unreachable])
           (resume_states st ++ [resume_id]) (suspend_resume st ++ [(current_id, resume_id)]) (last_segment st)
           (fresh st + 1))
  | i :: is' => split_insts b is' current_id (current_insts ++ [i]) st
  end.

Definition split_block (st : Split) (b : Block) : Split := split_insts b (insts b) (block_id b) [] st.

Definition split_blocks (next : Z) (bs : list Block) : Split :=
  fold_left split_block bs (mkSplit [] [] [] ∅ next).

(** A phi entry of a block that was split arrives from its last segment. *)
Definition remap_phi (seg : gmap BlockId BlockId) (p : Inst) : Inst :=
  match p with
  | IPhi d entries => IPhi d (map (fun e => (default e.1 (seg !! e.1), e.2)) entries)
  | _ => p
  end.

Definition remap_block (seg : gmap BlockId BlockId) (b : Block) : Block :=
  mkBlock (block_id b) (map (remap_phi seg) (phis b)) (insts b) (terminator b).

(** * Live variables *)

Abbreviation LiveIn := (gmap BlockId (gset VarId)).

Definition index_blocks (bs : list Block) : gmap BlockId Block := fold_left add_block bs ∅.

Definition opt_set (o : option VarId) : gset VarId := match o with Some d => {[d]} | None => ∅ end.

Definition phi_defs (b : Block) : gset VarId := ⋃ (map (fun p => opt_set (dst p)) (phis b)).

(** The operands the phis of a block take on the edge from [pred]. *)
Definition phi_operands (pred : BlockId) (ps : list Inst) : list VarId :=
  ps ≫= fun p => match p with IPhi _ entries => map snd (filter (fun e => e.1 = pred) entries) | _ => [] end.

(** What a successor needs at the end of block [b]. *)
Definition edge_live (by_id : gmap BlockId Block) (live_in : LiveIn) (b succ : BlockId) : gset VarId :=
  let sblock := by_id !! succ in
  (default ∅ (live_in !! succ) ∖ from_option phi_defs ∅ sblock) ∪
  list_to_set (from_option (fun s => phi_operands b (phis s)) [] sblock).

Definition live_out (by_id : gmap BlockId Block) (live_in : LiveIn) (b : Block) : gset VarId :=
  ⋃ (map (edge_live by_id live_in (block_id b)) (successors (terminator b))) ∪ list_to_set (terminator_uses (terminator b)).

(** The walk over the body, from its end. *)
Definition live_before (is_ : list Inst) (live : gset VarId) : gset VarId :=
  foldr (fun i acc => list_to_set (uses i) ∪ (acc ∖ opt_set (dst i))) live is_.

Definition transfer (by_id : gmap BlockId Block) (live_in : LiveIn) (b : Block) : gset VarId :=
  live_before (insts b) (live_out by_id live_in b) ∖ phi_defs b.

(** One block of a pass: its set is replaced when it differs. *)
Definition update_live (by_id : gmap BlockId Block) (acc : LiveIn * bool) (b : Block) : LiveIn * bool :=
  let live := transfer by_id acc.1 b in
  if decide (acc.1 !! block_id b = Some live) then acc else (<[block_id b := live]> acc.1, true).

Definition live_pass (bs : list Block) (live_in : LiveIn) : LiveIn * bool :=
  fold_left (update_live (index_blocks bs)) (reverse bs) (live_in, false).

(** [while changed] *)
Fixpoint live_loop {E : Type} (fuel : nat) (bs : list Block) (live_in : LiveIn) : outcome E LiveIn :=
  match fuel with
  | O => OutOfFuel
  | S fuel' =>
      let '(live_in', changed) := live_pass bs live_in in
      if changed then live_loop fuel' bs live_in' else Ok live_in'
  end.

Definition no_live (bs : list Block) : LiveIn := fold_left (fun m b => <[block_id b := ∅]> m) bs ∅.

(** The variables the blocks read. *)
Definition block_reads (b : Block) : gset VarId :=
  list_to_set ((phis b ≫= uses) ++ (insts b ≫= uses) ++ terminator_uses (terminator b)).

Definition all_reads (bs : list Block) : gset VarId := ⋃ (map block_reads bs).

Definition compute_live_in {E : Type} (bs : list Block) : outcome E LiveIn :=
  live_loop (S (length bs * size (all_reads bs))) bs (no_live bs).

(** * Slots *)

(** The slots, the next free slot, and the values saved for each resume block. *)
Record SlotTable : Type := mkSlotTable {
  slots : gmap VarId Z;
  next_slot : Z;
  save_sets : gmap BlockId (list VarId)
}.

Fixpoint param_slots (i : Z) (ps : list (list Z * VarId)) (m : gmap VarId Z) : gmap VarId Z :=
  match ps with
  | [] => m
  | (_, v) :: ps' => param_slots (i + 1) ps' (<[v := i]> m)
  end.

(** [slots.entry(v).or_insert_with(..)] *)
Definition assign_slot (acc : gmap VarId Z * Z) (v : VarId) : gmap VarId Z * Z :=
  match acc.1 !! v with
  | Some _ => acc
  | None => (<[v := acc.2]> acc.1, acc.2 + 1)
  end.

Definition saved_vars (live_in : LiveIn) (resume_id : BlockId) : list VarId :=
  merge_sort Z.le (elements (default ∅ (live_in !! resume_id))).

Definition assign_slots (live_in : LiveIn) (t : SlotTable) (sr : BlockId * BlockId) : SlotTable :=
  let saved := saved_vars live_in sr.2 in
  let '(m, next) := fold_left assign_slot saved (slots t, next_slot t) in
  mkSlotTable m next (<[sr.2 := saved]> (save_sets t)).

Definition slot_table (live_in : LiveIn) (ps : list (list Z * VarId)) (srs : list (BlockId * BlockId)) : SlotTable :=
  fold_left (assign_slots live_in) srs (mkSlotTable (param_slots 0 ps ∅) (Z.of_nat (length ps)) ∅).

(** * Saving and restoring *)

(** [v.split_off(at)] panics beyond the end. *)
Definition splice {E : Type} (v : list Inst) (at_ : nat) (items : list Inst) : outcome E (list Inst) :=
  match items with
  | [] => Ok v
  | _ => if (length v <? at_)%nat then Panic else Ok (take at_ v ++ items ++ drop at_ v)
  end.

(** [slots[v]] *)
Definition slot_of {E : Type} (m : gmap VarId Z) (v : VarId) : outcome E Z :=
  match m !! v with
  | Some s => Ok s
  | None => Panic
  end.

Definition store_of {E : Type} (m : gmap VarId Z) (v : VarId) : outcome E Inst := s ← slot_of m v; Ok (IStateStore s v).
Definition load_of {E : Type} (m : gmap VarId Z) (v : VarId) : outcome E Inst := s ← slot_of m v; Ok (IStateLoad v s).

Definition with_insts (b : Block) (is_ : list Inst) : Block := mkBlock (block_id b) (phis b) is_ (terminator b).

(** Stores before the suspend, which is the last instruction; loads behind the
    resume, which is the first. *)
Definition add_stores {E : Type} (t : SlotTable) (resume_of : gmap BlockId BlockId) (b : Block) : outcome E Block :=
  match resume_of !! block_id b with
  | None => Ok b
  | Some resume_id =>
      match save_sets t !! resume_id with
      | None => Panic
      | Some saved =>
          stores ← mapM (store_of (slots t)) saved;
          match length (insts b) with
          | O => Panic
          | S at_ => is' ← splice (insts b) at_ stores; Ok (with_insts b is')
          end
      end
  end.

Definition add_loads {E : Type} (t : SlotTable) (b : Block) : outcome E Block :=
  match save_sets t !! block_id b with
  | None => Ok b
  | Some saved => loads ← mapM (load_of (slots t)) saved; is' ← splice (insts b) 1 loads; Ok (with_insts b is')
  end.

Definition attach {E : Type} (t : SlotTable) (resume_of : gmap BlockId BlockId) (b : Block) : outcome E Block :=
  b' ← add_stores t resume_of b; add_loads t b'.

(** The first block with the id of the entry loads the parameters. *)
Fixpoint load_params {E : Type} (t : SlotTable) (entry_id : BlockId) (ps : list (list Z * VarId)) (bs : list Block)
    : outcome E (list Block) :=
  match bs with
  | [] => Ok []
  | b :: bs' =>
      if block_id b =? entry_id then
        loads ← mapM (fun p => load_of (slots t) p.2) ps;
        is' ← splice (insts b) 0 loads;
        Ok (with_insts b is' :: bs')
      else bs'' ← load_params t entry_id ps bs'; Ok (b :: bs'')
  end.

Record AsyncLowering : Type := mkAsyncLowering {
  poll_fn : IrFunction;
  n_slots : Z;
  param_count : nat
}.

Definition lower_async (f : IrFunction) : outcome AsyncLowerError AsyncLowering :=
  reject_unsupported f;;
  match blocks f with
  | [] => Err (Unsupported (lit "empty function body"))
  | b0 :: _ =>
      let entry_id := block_id b0 in
      let st := split_blocks (next_block f) (blocks f) in
      let bs := map (remap_block (last_segment st)) (new_blocks st) in
      live_in ← compute_live_in bs;
      let t := slot_table live_in (params f) (suspend_resume st) in
      let resume_of : gmap BlockId BlockId := fold_left (fun m sr => <[sr.1 := sr.2]> m) (suspend_resume st) ∅ in
      bs' ← mapM (attach t resume_of) bs;
      bs'' ← load_params t entry_id (params f) bs';
      Ok (mkAsyncLowering
            (mkIrFunction (fn_name f) [] bs'' (next_var f) (fresh st) (fn_span f) (subfunctions f) false true
               (entry_id :: resume_states st) [] [])
            (next_slot t) (length (params f)))
  end.
