(* ===== verification/AsyncSem.v ===== *)
(** What asynchronous functions compute: awaiting in the function itself, and
    the state machine a poll function runs on, with the task that polls it
    (crates/cljrs-async/src/state_machine.rs, the [rt_sm_*], [rt_state_*] and
    [rt_async_*] bridges of crates/cljrs-compiler/src/rt_abi.rs, and the poll
    functions of codegen.rs). *)
From stdpp Require Import gmap.
From S2P Require Import Prelude RustStd Token Ir Reloop ReloopSem IrInterp OsrSem.
Local Open Scope Z_scope.

(** * Awaited values *)

Inductive FutureState (V : Type) : Type :=
| FsRunning
| FsDone (v : V)
| FsFailed (v : V)
| FsGasExhausted
| FsCancelled.

Arguments FsRunning {V}.
Arguments FsDone {V} v.
Arguments FsFailed {V} v.
Arguments FsGasExhausted {V}.
Arguments FsCancelled {V}.

(** A value as an await sees it. *)
Inductive Awaited (V : Type) : Type :=
| AwFuture (s : FutureState V)
| AwPromise (value : option V)
| AwOther.

Arguments AwFuture {V} s.
Arguments AwPromise {V} value.
Arguments AwOther {V}.

Inductive Readiness (V : Type) : Type :=
| Pending
| Ready (v : V)
| Failed (v : V)
| GasExhausted.

Arguments Pending {V}.
Arguments Ready {V} v.
Arguments Failed {V} v.
Arguments GasExhausted {V}.

(** What the rest of the program provides: the state of futures and promises,
    and what other tasks may do while a task is parked. *)
Class AsyncHost (V H R : Type) : Type := {
  await_view : V -> H -> Awaited V;
  mark_observed : V -> H -> H;
  nil_value : V;
  cancelled_text : V;
  thrown : V -> H -> R;
  gas_exhausted : H -> R;
  invalid_code : Z -> H -> R;
  idle : V -> H -> H -> Prop
}.

Definition POLL_PENDING : Z := 0.
Definition POLL_READY : Z := 1.
Definition POLL_THREW : Z := 2.
Definition POLL_GAS_EXHAUSTED : Z := 3.

Record CljxStateMachine (V : Type) : Type := mkStateMachine {
  sm_state : Z;
  sm_slots : list V;
  sm_pending : V
}.

Arguments mkStateMachine {V} _ _ _.
Arguments sm_state {V} _.
Arguments sm_slots {V} _.
Arguments sm_pending {V} _.

Section Async.
Context {V H R : Type} {SH : SsaHost V H R} {AH : AsyncHost V H R}.

Abbreviation regs := (gmap VarId V).
Abbreviation SM := (CljxStateMachine V).

Definition check_ready (v : V) (h : H) : Readiness V * H :=
  match await_view v h with
  | AwFuture (FsDone x) => (Ready x, mark_observed v h)
  | AwFuture (FsFailed e) => (Failed e, mark_observed v h)
  | AwFuture FsGasExhausted => (GasExhausted, mark_observed v h)
  | AwFuture FsCancelled => (Failed cancelled_text, h)
  | AwFuture FsRunning => (Pending, h)
  | AwPromise (Some x) => (Ready x, h)
  | AwPromise None => (Pending, h)
  | AwOther => (Ready v, h)
  end.

(** * The state machine *)

Definition CljxStateMachine_new (n_slots : nat) (args : list V) : SM :=
  mkStateMachine 0 (args ++ replicate (n_slots `max` length args - length args) nil_value) nil_value.

Definition rt_sm_set_state (sm : SM) (state : Z) : SM := mkStateMachine state (sm_slots sm) (sm_pending sm).
Definition rt_async_register (sm : SM) (v : V) : SM := mkStateMachine (sm_state sm) (sm_slots sm) v.
Definition rt_async_set_result (sm : SM) (v : V) : SM := mkStateMachine (sm_state sm) (sm_slots sm) v.
Definition rt_async_take_result (sm : SM) : V := sm_pending sm.

(** [None]: the index is out of range. *)
Definition rt_state_store (sm : SM) (slot : Z) (v : V) : option SM :=
  match sm_slots sm !! Z.to_nat slot with
  | Some _ => Some (mkStateMachine (sm_state sm) (<[Z.to_nat slot := v]> (sm_slots sm)) (sm_pending sm))
  | None => None
  end.

Definition rt_state_load (sm : SM) (slot : Z) : option V := sm_slots sm !! Z.to_nat slot.

Definition rt_async_poll_ready (sm : SM) (h : H) : Z * SM * H :=
  match check_ready (sm_pending sm) h with
  | (Pending, h') => (0, sm, h')
  | (Ready v, h') => (1, rt_async_register sm v, h')
  | (Failed e, h') => (2, rt_async_register sm e, h')
  | (GasExhausted, h') => (POLL_GAS_EXHAUSTED, sm, h')
  end.

(** * Poll functions *)

(** How a call of a poll function ends: with a code, because an instruction
    ended it, or because a slot or an instruction is not valid. *)
Inductive PollEnd : Type :=
| PollCode (code : Z) (sm : SM) (h : H)
| PollStop (r : R)
| PollInvalid.

(** The instructions of the state machine, then all others. *)
Definition poll_exec (i : Inst) (xs : list V) (hs : H * SM) : PollEnd + (V * (H * SM)) :=
  let '(h, sm) := hs in
  match i with
  | IStateStore slot _ =>
      match xs with
      | [v] => match rt_state_store sm slot v with Some sm' => inr (nil_value, (h, sm')) | None => inl PollInvalid end
      | _ => inl PollInvalid
      end
  | IStateLoad _ slot =>
      match rt_state_load sm slot with Some v => inr (v, (h, sm)) | None => inl PollInvalid end
  | IAsyncSuspend SkAwait _ next_state =>
      match xs with
      | v :: _ => inl (PollCode POLL_PENDING (rt_sm_set_state (rt_async_register sm v) next_state) h)
      | [] => inl PollInvalid
      end
  | IAsyncResume _ SkAwait =>
      let '(code, sm', h') := rt_async_poll_ready sm h in
      if code =? POLL_PENDING then inl (PollCode POLL_PENDING sm' h')
      else if code =? POLL_THREW then inl (PollCode POLL_THREW sm' h')
      else if code =? POLL_GAS_EXHAUSTED then inl (PollCode POLL_GAS_EXHAUSTED sm' h')
      else inr (rt_async_take_result sm', (h', sm'))
  | IAsyncSuspend _ _ _ | IAsyncResume _ _ => inl PollInvalid
  | _ => match exec i xs h with inl r => inl (PollStop r) | inr (x, h') => inr (x, (h', sm)) end
  end.

#[export] Instance poll_host : SsaHost V (H * SM) PollEnd := {|
  exec := poll_exec;
  truth := truth (SsaHost := SH);
  ret v hs := PollCode POLL_READY (rt_async_set_result hs.2 v) hs.1;
  undefined := PollStop (undefined (SsaHost := SH));
  unreachable hs := PollCode POLL_PENDING hs.2 hs.1
|}.

(** [switch(state)]: the block of the state, or the entry. *)
Definition dispatch (pf : IrFunction) (state : Z) : BlockId :=
  let table := async_resume_blocks pf in
  if bool_decide (1 <= state < Z.of_nat (length table)) then default 0 (table !! Z.to_nat state) else default 0 (head table).

(** A call of the poll function: its registers are empty at first. *)
Definition poll (n : nat) (pf : IrFunction) (sm : SM) (h : H) : option PollEnd :=
  run_cfg pf n (dispatch pf (sm_state sm)) (-1, ∅, (h, sm)).

(** * The task *)

Inductive TaskPoll : Type :=
| TaskPending (registered : bool)
| TaskReady (r : R)
| TaskPanic.

(** A pending task leaves its waker with the future or promise when that is not
    settled, and wakes itself otherwise. *)
Definition park (v : V) (h : H) : TaskPoll :=
  match await_view v h with
  | AwFuture FsRunning => TaskPending true
  | AwPromise None => TaskPending true
  | _ => TaskPending false
  end.

Definition CompiledAsyncTask_poll (e : PollEnd) : TaskPoll :=
  match e with
  | PollCode code sm h =>
      if code =? POLL_PENDING then park (sm_pending sm) h
      else if code =? POLL_READY then TaskReady (ret (sm_pending sm) h)
      else if code =? POLL_THREW then TaskReady (thrown (sm_pending sm) h)
      else if code =? POLL_GAS_EXHAUSTED then TaskReady (gas_exhausted h)
      else TaskReady (invalid_code code h)
  | PollStop r => TaskReady r
  | PollInvalid => TaskPanic
  end.

(** The executor polls the task until it is ready; between two polls the rest of
    the program runs. *)
Inductive task_ends (pf : IrFunction) : SM -> H -> R -> Prop :=
| task_ready n sm h e r : poll n pf sm h = Some e -> CompiledAsyncTask_poll e = TaskReady r -> task_ends pf sm h r
| task_pending n sm h sm' h' reg h'' r :
    poll n pf sm h = Some (PollCode POLL_PENDING sm' h') -> CompiledAsyncTask_poll (PollCode POLL_PENDING sm' h') = TaskPending reg ->
    idle (sm_pending sm') h' h'' -> task_ends pf sm' h'' r -> task_ends pf sm h r.

(** * Awaiting in the function itself *)

(** A function runs until it ends or awaits. *)
Inductive Pause : Type :=
| Ended (r : R)
| Awaiting (v : V) (d : VarId) (b : Block) (rest : list Inst) (r : regs) (h : H).

(** The instructions of a block up to its first await. *)
Fixpoint run_until (b : Block) (is_ : list Inst) (r : regs) (h : H) : Pause + (regs * H) :=
  match is_ with
  | [] => inr (r, h)
  | i :: is' =>
      match read_all r (uses i) with
      | None => inl (Ended undefined)
      | Some xs =>
          match i, xs with
          | IAwait _ d, v :: _ => inl (Awaiting v d b is' r h)
          | _, _ =>
              match exec i xs h with
              | inl res => inl (Ended res)
              | inr (x, h') => run_until b is' (set_dst i x r) h'
              end
          end
      end
  end.

(** The rest of a block, then its terminator; [go prev t] runs block [t] after
    block [prev]. *)
Definition run_rest (go : BlockId -> BlockId -> regs -> H -> option Pause) (b : Block) (is_ : list Inst) (r : regs) (h : H)
    : option Pause :=
  match run_until b is_ r h with
  | inl p => Some p
  | inr (r', h') =>
      match terminator b with
      | Return v => Some (Ended (match r' !! v with None => undefined | Some x => ret x h' end))
      | Unreachable => Some (Ended (unreachable h'))
      | Jump t => go (block_id b) t r' h'
      | Branch c t e =>
          match r' !! c with
          | None => Some (Ended undefined)
          | Some x => go (block_id b) (if truth x then t else e) r' h'
          end
      | RecurJump t _ => go (block_id b) t r' h'
      end
  end.

Fixpoint run_block (fuel : nat) (f : IrFunction) (prev t : BlockId) (r : regs) (h : H) : option Pause :=
  match fuel with
  | O => None
  | S n =>
      blk ← lookup_block f t;
      match enter prev (phis blk) r with
      | None => Some (Ended undefined)
      | Some r' => run_rest (run_block n f) blk (insts blk) r' h
      end
  end.

Definition run_from (n : nat) (f : IrFunction) (b : Block) (is_ : list Inst) (r : regs) (h : H) : option Pause :=
  run_rest (run_block n f) b is_ r h.

(** An await checks the value after the rest of the program ran, until it is
    settled. *)
Inductive SrcState : Type :=
| Running (b : Block) (rest : list Inst) (r : regs) (h : H)
| Waiting (v : V) (d : VarId) (b : Block) (rest : list Inst) (r : regs) (h : H).

Inductive async_ends (f : IrFunction) : SrcState -> R -> Prop :=
| async_ended n b is_ r h res : run_from n f b is_ r h = Some (Ended res) -> async_ends f (Running b is_ r h) res
| async_awaits n b is_ r h v d b' rest r' h' res :
    run_from n f b is_ r h = Some (Awaiting v d b' rest r' h') -> async_ends f (Waiting v d b' rest r' h') res ->
    async_ends f (Running b is_ r h) res
| async_pending v d b rest r h h1 h2 res :
    idle v h h1 -> check_ready v h1 = (Pending, h2) -> async_ends f (Waiting v d b rest r h2) res ->
    async_ends f (Waiting v d b rest r h) res
| async_settled v d b rest r h h1 x h2 res :
    idle v h h1 -> check_ready v h1 = (Ready x, h2) -> async_ends f (Running b rest (<[d := x]> r) h2) res ->
    async_ends f (Waiting v d b rest r h) res
| async_failed v d b rest r h h1 e h2 :
    idle v h h1 -> check_ready v h1 = (Failed e, h2) -> async_ends f (Waiting v d b rest r h) (thrown e h2)
| async_exhausted v d b rest r h h1 h2 :
    idle v h h1 -> check_ready v h1 = (GasExhausted, h2) -> async_ends f (Waiting v d b rest r h) (gas_exhausted h2).

(** A call of the function with its arguments. *)
Definition call_ends (f : IrFunction) (args : list V) (h : H) (res : R) : Prop :=
  exists b0 rest, blocks f = b0 :: rest /\ async_ends f (Running b0 (insts b0) (write_all (map snd (params f)) args ∅) h) res.

End Async.
