(* ===== verification/AsyncSplit.v ===== *)
(** What the lowering of asynchronous functions builds: how blocks are split,
    which slots values get, and the blocks of the poll function.

    The live-variable analysis of the lowering of asynchronous functions
    ends, with sets that satisfy the equations of the analysis. *)
From stdpp Require Import gmap sorting.
From S2P Require Import Prelude RustStd Token Ir Reloop ReloopSem ReloopGraph IrInterp Osr OsrSem OsrSpec AsyncLower.
Local Open Scope Z_scope.

(** * Splitting a list of instructions *)

(** The instructions up to the first await, the await, and the rest. *)
Fixpoint split_await (is_ : list Inst) : list Inst * option (VarId * VarId * list Inst) :=
  match is_ with
  | [] => ([], None)
  | IAwait s d :: is' => ([], Some (s, d, is'))
  | i :: is' => (i :: (split_await is').1, (split_await is').2)
  end.

Definition is_await (i : Inst) : bool := match i with IAwait _ _ => true | _ => false end.

Definition awaits (is_ : list Inst) : nat := length (filter (fun i => is_await i = true) is_).

Lemma awaits_cons i is_ : awaits (i :: is_) = ((if is_await i then 1 else 0) + awaits is_)%nat.
Proof. unfold awaits. rewrite filter_cons. by destruct (is_await i). Qed.

Lemma split_await_app is_ : is_ = (split_await is_).1 ++ match (split_await is_).2 with Some (s, d, r) => IAwait s d :: r | None => [] end.
Proof. induction is_ as [|i is' IH]; [done|]. destruct i; simpl; try done; f_equal; exact IH. Qed.

Lemma split_await_plain is_ : Forall (fun i => is_await i = false) (split_await is_).1.
Proof. induction is_ as [|i is' IH]; [constructor|]. destruct i; simpl; try (by constructor). Qed.

(** * The segments of a block *)

(** From the place with instructions [is_] left, in the segment [cid] that holds
    [cur] so far, the block was split into blocks of [st]. *)
Fixpoint covers (st : Split) (b : Block) (is_ : list Inst) (cid : BlockId) (cur : list Inst) : Prop :=
  match is_ with
  | [] =>
      mkBlock cid (segment_phis b cid) cur (terminator b) ∈ new_blocks st /\ last_segment st !! block_id b = Some cid
  | IAwait s d :: is' =>
      exists k rid,
        mkBlock cid (segment_phis b cid) (cur ++ [IAsyncSuspend SkAwait [s] k]) Unreachable ∈ new_blocks st /\
        1 <= k /\ resume_states st !! Z.to_nat (k - 1) = Some rid /\ (cid, rid) ∈ suspend_resume st /\
        covers st b is' rid [IAsyncResume d SkAwait]
  | i :: is' => covers st b is' cid (cur ++ [i])
  end.

Lemma covers_split st b is_ cid cur :
  covers st b is_ cid cur ->
  match split_await is_ with
  | (seg, None) =>
      mkBlock cid (segment_phis b cid) (cur ++ seg) (terminator b) ∈ new_blocks st /\ last_segment st !! block_id b = Some cid
  | (seg, Some (s, d, rest)) =>
      exists k rid,
        mkBlock cid (segment_phis b cid) ((cur ++ seg) ++ [IAsyncSuspend SkAwait [s] k]) Unreachable ∈ new_blocks st /\
        1 <= k /\ resume_states st !! Z.to_nat (k - 1) = Some rid /\ (cid, rid) ∈ suspend_resume st /\
        covers st b rest rid [IAsyncResume d SkAwait]
  end.
Proof.
  revert cur. induction is_ as [|i is' IH]; intros cur Hc; [cbn [split_await]; by rewrite app_nil_r|].
  destruct (is_await i) eqn:Ei.
  - destruct i; try done. simpl in *. by rewrite app_nil_r.
  - assert (Hs : split_await (i :: is') = (i :: (split_await is').1, (split_await is').2)) by (by destruct i).
    assert (Hc' : covers st b is' cid (cur ++ [i])) by (by destruct i). rewrite Hs. specialize (IH _ Hc').
    destruct (split_await is') as [seg o]. simpl in *. rewrite <- (app_assoc cur [i] seg) in IH. exact IH.
Qed.

Record extends (st st' : Split) : Prop := {
  ext_blocks b : b ∈ new_blocks st -> b ∈ new_blocks st';
  ext_states : resume_states st `prefix_of` resume_states st';
  ext_suspends p : p ∈ suspend_resume st -> p ∈ suspend_resume st'
}.

#[export] Instance extends_preorder : PreOrder extends.
Proof.
  split; [intros st; by split|]. intros st1 st2 st3 [B1 S1 P1] [B2 S2 P2]. split; [auto|by transitivity (resume_states st2)|auto].
Qed.

Lemma covers_extends st st' b is_ cid cur :
  extends st st' -> last_segment st' !! block_id b = last_segment st !! block_id b ->
  covers st b is_ cid cur -> covers st' b is_ cid cur.
Proof.
  intros Hext Hl. revert cid cur. induction is_ as [|i is' IH]; intros cid cur Hc.
  - destruct Hc as [Hin Hc]. split; [by apply (ext_blocks _ _ Hext)|]. by rewrite Hl.
  - destruct (is_await i) eqn:Ei; [|by destruct i; try done; apply IH]. destruct i; try done.
    destruct Hc as (k & rid & Hin & Hk & Hr & Hs & Hc). exists k, rid.
    split_and!; [by apply (ext_blocks _ _ Hext)|done| |by apply (ext_suspends _ _ Hext)|by apply IH].
    by apply (prefix_lookup_Some (resume_states st)), (ext_states _ _ Hext).
Qed.

(** * What splitting a block adds *)

(** The ids of the segments of a block. *)
Definition seg_ids (cid : BlockId) (next : Z) (n : nat) : list BlockId := cid :: seqZ next (Z.of_nat n).

Lemma seqZ_first m n : seqZ m (Z.of_nat (S n)) = m :: seqZ (m + 1) (Z.of_nat n).
Proof. rewrite seqZ_cons by lia. f_equal; f_equal; lia. Qed.

Lemma split_insts_spec b is_ cid cur st :
  let st' := split_insts b is_ cid cur st in
  let n := awaits is_ in
  exists suspends last,
    seg_ids cid (fresh st) n = suspends ++ [last] /\
    map block_id (new_blocks st') = map block_id (new_blocks st) ++ seg_ids cid (fresh st) n /\
    resume_states st' = resume_states st ++ seqZ (fresh st) (Z.of_nat n) /\
    suspend_resume st' = suspend_resume st ++ zip suspends (seqZ (fresh st) (Z.of_nat n)) /\
    last_segment st' = <[block_id b := last]> (last_segment st) /\
    fresh st' = fresh st + Z.of_nat n /\
    extends st st'.
Proof.
  revert cid cur st. induction is_ as [|i is' IH]; intros cid cur st st' n.
  - exists [], cid. subst st' n. cbn. rewrite map_app, !app_nil_r. split_and!; try done; [lia|]. split; cbn; [set_solver|done|done].
  - destruct (is_await i) eqn:Ei.
    + destruct i; try done. subst st' n. rewrite awaits_cons. cbn [is_await]. change (1 + awaits is')%nat with (S (awaits is')).
      set (st1 := mkSplit (new_blocks st ++ [mkBlock cid (segment_phis b cid) (cur ++ [IAsyncSuspend SkAwait [src] (Z.of_nat (length (resume_states st)) + 1)]) Unreachable])
        (resume_states st ++ [fresh st]) (suspend_resume st ++ [(cid, fresh st)]) (last_segment st) (fresh st + 1)).
      destruct (IH (fresh st) [IAsyncResume dst SkAwait] st1) as (sus & last & H1 & H2 & H3 & H4 & H5 & H6 & H7).
      change (split_insts b (IAwait src dst :: is') cid cur st) with (split_insts b is' (fresh st) [IAsyncResume dst SkAwait] st1).
      exists (cid :: sus), last. unfold seg_ids in *. rewrite seqZ_first. split_and!.
      * simpl. f_equal. exact H1.
      * rewrite H2. unfold st1. cbn [new_blocks fresh]. rewrite map_app, <- app_assoc. done.
      * rewrite H3. unfold st1. cbn [resume_states fresh]. by rewrite <- app_assoc.
      * rewrite H4. unfold st1. cbn [suspend_resume fresh zip]. by rewrite <- app_assoc.
      * done.
      * rewrite H6. unfold st1. cbn [fresh]. lia.
      * transitivity st1; [|done]. unfold st1. split; cbn; [set_solver|by eexists|set_solver].
    + assert (E1 : st' = split_insts b is' cid (cur ++ [i]) st) by (by destruct i).
      assert (E2 : n = awaits is') by (subst n; rewrite awaits_cons, Ei; done). rewrite E1, E2. apply IH.
Qed.

Lemma split_insts_covers b is_ cid cur st : covers (split_insts b is_ cid cur st) b is_ cid cur.
Proof.
  revert cid cur st. induction is_ as [|i is' IH]; intros cid cur st.
  - cbn. split; [set_solver|]. by rewrite lookup_insert_eq.
  - destruct (is_await i) eqn:Ei; [|destruct i; try done; apply IH]. destruct i; try done. cbn [covers split_insts].
    set (st1 := mkSplit _ _ _ _ _). exists (Z.of_nat (length (resume_states st)) + 1), (fresh st).
    destruct (split_insts_spec b is' (fresh st) [IAsyncResume dst SkAwait] st1) as (_ & _ & _ & _ & H3 & _ & _ & _ & H7).
    split_and!.
    + apply (ext_blocks _ _ H7). unfold st1. cbn. set_solver.
    + lia.
    + rewrite H3. unfold st1. cbn [resume_states]. rewrite lookup_app_l by (rewrite length_app; simpl; lia).
      rewrite lookup_app_r by lia. replace (Z.to_nat _ - _)%nat with 0%nat by lia. done.
    + apply (ext_suspends _ _ H7). unfold st1. cbn. set_solver.
    + apply IH.
Qed.

Lemma split_fold_spec bs st :
  NoDup (map block_id bs) ->
  let st' := fold_left split_block bs st in
  exists suspends lasts n,
    map block_id (new_blocks st') ≡ₚ map block_id (new_blocks st) ++ suspends ++ lasts /\
    map block_id (new_blocks st') ≡ₚ map block_id (new_blocks st) ++ map block_id bs ++ seqZ (fresh st) (Z.of_nat n) /\
    resume_states st' = resume_states st ++ seqZ (fresh st) (Z.of_nat n) /\
    suspend_resume st' = suspend_resume st ++ zip suspends (seqZ (fresh st) (Z.of_nat n)) /\
    length suspends = n /\
    Forall2 (fun b l => last_segment st' !! block_id b = Some l) bs lasts /\
    (forall k, k ∉ map block_id bs -> last_segment st' !! k = last_segment st !! k) /\
    fresh st' = fresh st + Z.of_nat n /\ extends st st' /\
    (forall b, b ∈ bs -> covers st' b (insts b) (block_id b) []).
Proof.
  revert st. induction bs as [|b bs IH]; intros st Hnd; cbn [fold_left].
  { exists [], [], 0%nat. cbn. rewrite !app_nil_r. split_and!; try done; [lia|]. intros b Hb%elem_of_nil. done. }
  apply NoDup_cons in Hnd as [Hb Hnd].
  destruct (split_insts_spec b (insts b) (block_id b) [] st) as (sus1 & last1 & A1 & A2 & A3 & A4 & A5 & A6 & A7).
  pose proof (split_insts_covers b (insts b) (block_id b) [] st) as A8. fold (split_block st b) in A2, A3, A4, A5, A6, A7, A8.
  destruct (IH (split_block st b) Hnd) as (sus2 & lasts2 & n2 & B1 & B2 & B3 & B4 & B5 & B6 & B7 & B8 & B9 & B10).
  set (n1 := awaits (insts b)) in *.
  assert (Hlen : length sus1 = n1).
  { assert (Hl : length (seg_ids (block_id b) (fresh st) n1) = length (sus1 ++ [last1])) by (by rewrite A1).
    unfold seg_ids in Hl. rewrite length_app in Hl. cbn [length] in Hl. rewrite length_seqZ in Hl. lia. }
  assert (Hseq : seqZ (fresh st) (Z.of_nat (n1 + n2)) = seqZ (fresh st) (Z.of_nat n1) ++ seqZ (fresh (split_block st b)) (Z.of_nat n2)).
  { rewrite Nat2Z.inj_add, seqZ_app by lia. by rewrite A6. }
  exists (sus1 ++ sus2), (last1 :: lasts2), (n1 + n2)%nat. rewrite Hseq. split_and!.
  - rewrite B1, A2, A1. cbn. solve_Permutation.
  - rewrite B2, A2. unfold seg_ids. cbn. solve_Permutation.
  - by rewrite B3, A3, app_assoc.
  - rewrite B4, A4, <- app_assoc. f_equal. rewrite zip_with_app; [done|]. rewrite length_seqZ. lia.
  - rewrite length_app. lia.
  - constructor; [|done]. rewrite B7, A5 by done. by rewrite lookup_insert_eq.
  - intros k Hk. rewrite B7 by set_solver. rewrite A5, lookup_insert_ne by set_solver. done.
  - rewrite B8, A6. lia.
  - by transitivity (split_block st b).
  - intros c Hc. apply elem_of_cons in Hc as [->|Hc]; [|by apply B10]. apply (covers_extends (split_block st b)); [done| |done]. by apply B7.
Qed.

(** * Slots *)

(** Every assigned slot is below the counter and belongs to one value. *)
Record slots_ok (m : gmap VarId Z) (next : Z) : Prop := {
  slots_next : 0 <= next;
  slots_range v s : m !! v = Some s -> 0 <= s < next;
  slots_inj v w s : m !! v = Some s -> m !! w = Some s -> v = w
}.

Lemma param_slots_spec ps i m :
  NoDup (map snd ps) ->
  (forall j p, ps !! j = Some p -> param_slots i ps m !! p.2 = Some (i + Z.of_nat j)) /\
  (forall v, v ∉ map snd ps -> param_slots i ps m !! v = m !! v).
Proof.
  revert i m. induction ps as [|[nm v] ps IH]; intros i m Hnd; [done|]. cbn [map snd] in Hnd. apply NoDup_cons in Hnd as [Hv Hnd].
  cbn [param_slots]. destruct (IH (i + 1) (<[v := i]> m) Hnd) as [I1 I2]. split.
  - intros [|j] p Hp; simpl in Hp.
    + injection Hp as <-. simpl. rewrite I2 by done. rewrite lookup_insert_eq. f_equal; lia.
    + rewrite (I1 _ _ Hp). f_equal; lia.
  - intros w Hw. cbn [map snd] in Hw. rewrite I2 by set_solver. apply lookup_insert_ne. set_solver.
Qed.

Lemma param_slots_ok ps : NoDup (map snd ps) -> slots_ok (param_slots 0 ps ∅) (Z.of_nat (length ps)).
Proof.
  intros Hnd. destruct (param_slots_spec ps 0 ∅ Hnd) as [I1 I2].
  assert (Hfind : forall v s, param_slots 0 ps ∅ !! v = Some s -> exists j p, ps !! j = Some p /\ p.2 = v /\ s = Z.of_nat j).
  { intros v s Hs. destruct (decide (v ∈ map snd ps)) as [Hv|Hv]; [|by rewrite I2 in Hs].
    apply list_elem_of_fmap in Hv as (p & -> & Hp). apply list_elem_of_lookup in Hp as [j Hj]. exists j, p.
    rewrite (I1 _ _ Hj) in Hs. injection Hs as <-. by rewrite Z.add_0_l. }
  split; [lia| |].
  - intros v s (j & p & Hj & _ & ->)%Hfind. apply lookup_lt_Some in Hj. lia.
  - intros v w s (j & p & Hj & <- & ->)%Hfind (j' & p' & Hj' & <- & Hs)%Hfind. assert (j' = j) as -> by lia. congruence.
Qed.

Lemma assign_slot_spec vs m next :
  slots_ok m next ->
  let '(m', next') := fold_left assign_slot vs (m, next) in
  slots_ok m' next' /\ next <= next' /\ m ⊆ m' /\ (forall v, v ∈ vs -> is_Some (m' !! v)).
Proof.
  revert m next. induction vs as [|v vs IH]; intros m next Hok; cbn [fold_left]; [split_and!; [done|lia|done|set_solver]|].
  unfold assign_slot at 2. cbn [fst snd]. destruct (m !! v) as [s|] eqn:Ev.
  - specialize (IH m next Hok). destruct (fold_left _ _ _) as [m' next']. destruct IH as (I1 & I2 & I3 & I4). split_and!; try done.
    intros w Hw. apply elem_of_cons in Hw as [->|Hw]; [|by apply I4]. exists s. by apply (lookup_weaken m).
  - assert (Hok' : slots_ok (<[v := next]> m) (next + 1)).
    { destruct Hok as [Hn Hr Hi]. split; [lia| |].
      - intros w s. rewrite lookup_insert. case_decide; [intros [= <-]; lia|intros Hs; apply Hr in Hs; lia].
      - intros w w' s. rewrite !lookup_insert. repeat case_decide; try congruence.
        + intros [= <-] Hs. apply Hr in Hs. lia.
        + intros Hs [= <-]. apply Hr in Hs. lia.
        + apply Hi. }
    specialize (IH _ _ Hok'). destruct (fold_left _ _ _) as [m' next']. destruct IH as (I1 & I2 & I3 & I4). split_and!; [done|lia| |].
    + transitivity (<[v := next]> m); [by apply insert_subseteq|done].
    + intros w Hw. apply elem_of_cons in Hw as [->|Hw]; [|by apply I4]. exists next. apply (lookup_weaken (<[v := next]> m)); [apply lookup_insert_eq|done].
Qed.

Lemma assign_slots_fold live_in srs t :
  slots_ok (slots t) (next_slot t) ->
  let t' := fold_left (assign_slots live_in) srs t in
  slots_ok (slots t') (next_slot t') /\ next_slot t <= next_slot t' /\ slots t ⊆ slots t' /\
  (forall sr, sr ∈ srs -> save_sets t' !! sr.2 = Some (saved_vars live_in sr.2)) /\
  (forall k, k ∉ map snd srs -> save_sets t' !! k = save_sets t !! k) /\
  (forall sr v, sr ∈ srs -> v ∈ saved_vars live_in sr.2 -> is_Some (slots t' !! v)).
Proof.
  revert t. induction srs as [|sr srs IH]; intros t Hok; cbn [fold_left]; [split_and!; try done; try lia; set_solver|].
  pose proof (assign_slot_spec (saved_vars live_in sr.2) _ _ Hok) as Hs.
  destruct (fold_left assign_slot _ _) as [m next] eqn:Ef. destruct Hs as (S1 & S2 & S3 & S4).
  set (t1 := mkSlotTable m next (<[sr.2 := saved_vars live_in sr.2]> (save_sets t))).
  assert (assign_slots live_in t sr = t1) as -> by (unfold assign_slots; by rewrite Ef).
  destruct (IH t1 S1) as (I1 & I2 & I3 & I4 & I5 & I6). split_and!.
  - done.
  - cbn [next_slot t1] in I2. lia.
  - by transitivity m.
  - intros sr' Hin. destruct (decide (sr'.2 ∈ map snd srs)) as [Hsnd|Hsnd].
    + apply list_elem_of_fmap in Hsnd as (sr'' & E & Hin''). rewrite E. by apply I4.
    + apply elem_of_cons in Hin as [->|Hin]; [|destruct Hsnd; apply list_elem_of_fmap; by exists sr'].
      rewrite I5 by done. cbn. apply lookup_insert_eq.
  - intros k Hk. cbn [map] in Hk. rewrite I5 by set_solver. cbn. apply lookup_insert_ne. set_solver.
  - intros sr' v Hin Hv. apply elem_of_cons in Hin as [->|Hin]; [|by apply (I6 sr')].
    destruct (S4 v Hv) as [s Hs]. exists s. by apply (lookup_weaken m).
Qed.

(** * Functions as the lowering to the intermediate representation builds them *)

Definition machine_inst (i : Inst) : bool :=
  match i with IStateStore _ _ | IStateLoad _ _ | IAsyncSuspend _ _ _ | IAsyncResume _ _ => true | _ => false end.

Definition is_unreachable (t : Terminator) : bool := match t with Unreachable => true | _ => false end.

Definition preds_in (bs : list BlockId) (p : Inst) : bool :=
  match p with IPhi _ entries => forallb (fun e => bool_decide (e.1 ∈ bs)) entries | _ => true end.

(** Distinct blocks below the counter; jumps go to blocks, but not to the entry,
    which has no phis; phis come from blocks; no instruction of a poll function
    and no unreachable end. *)
Definition async_ok (f : IrFunction) : bool :=
  match blocks f with
  | [] => false
  | b0 :: _ =>
      bool_decide (NoDup (ids f)) && bool_decide (NoDup (map snd (params f))) && bool_decide (length (phis b0) = 0%nat) &&
      forallb (fun b =>
        (block_id b <? next_block f) && forallb (fun i => negb (machine_inst i)) (insts b) && negb (is_unreachable (terminator b)) &&
        forallb (fun s => bool_decide (s ∈ ids f) && negb (s =? block_id b0)) (successors (terminator b)) &&
        forallb (preds_in (ids f)) (phis b)) (blocks f)
  end.

Record well_formed_async (f : IrFunction) (b0 : Block) : Prop := {
  wa_entry : exists rest, blocks f = b0 :: rest;
  wa_ids : NoDup (ids f);
  wa_params : NoDup (map snd (params f));
  wa_phis : phis b0 = [];
  wa_fresh b : b ∈ blocks f -> block_id b < next_block f;
  wa_insts b i : b ∈ blocks f -> i ∈ insts b -> machine_inst i = false;
  wa_reach b : b ∈ blocks f -> is_unreachable (terminator b) = false;
  wa_targets b s : b ∈ blocks f -> s ∈ successors (terminator b) -> s ∈ ids f /\ s <> block_id b0;
  wa_preds b p : b ∈ blocks f -> p ∈ phis b -> preds_in (ids f) p = true
}.

Lemma forallb_elem {A : Type} (P : A -> bool) l x : forallb P l = true -> x ∈ l -> P x = true.
Proof. rewrite forallb_forall. intros Hl Hx. apply Hl. by apply list_elem_of_In. Qed.

Lemma async_ok_spec f : async_ok f = true -> exists b0, well_formed_async f b0.
Proof.
  unfold async_ok. destruct (blocks f) as [|b0 rest] eqn:Eb; [done|]. intros Hok.
  apply andb_prop in Hok as [Hok Hall]. apply andb_prop in Hok as [Hok Hphis]. apply andb_prop in Hok as [Hids Hparams]. exists b0.
  assert (Hb : forall b, b ∈ blocks f -> block_id b < next_block f /\ (forall i, i ∈ insts b -> machine_inst i = false) /\
    is_unreachable (terminator b) = false /\ (forall s, s ∈ successors (terminator b) -> s ∈ ids f /\ s <> block_id b0) /\
    (forall p, p ∈ phis b -> preds_in (ids f) p = true)).
  { intros b Hin. rewrite Eb in Hin. pose proof (forallb_elem _ _ b Hall Hin) as Hb. cbn beta in Hb.
    apply andb_prop in Hb as [Hb H4]. apply andb_prop in Hb as [Hb H3]. apply andb_prop in Hb as [Hb H2]. apply andb_prop in Hb as [H0 H1]. split_and!.
    - by apply Z.ltb_lt.
    - intros i Hi. apply negb_true_iff. by apply (forallb_elem (fun i => negb (machine_inst i)) (insts b)).
    - by apply negb_true_iff.
    - intros s Hs. assert (Hs' : (bool_decide (s ∈ ids f) && negb (s =? block_id b0)) = true) by exact (forallb_elem _ _ s H3 Hs).
      apply andb_prop in Hs' as [Hs1 Hs2]. apply bool_decide_eq_true in Hs1. apply negb_true_iff, Z.eqb_neq in Hs2. done.
    - intros p Hp. by apply (forallb_elem _ (phis b)). }
  repeat match goal with H : bool_decide _ = true |- _ => apply bool_decide_eq_true in H end.
  split; try done; try (intros b; naive_solver).
  - by exists rest.
  - by apply nil_length_inv.
Qed.

(** Suspending and resuming blocks have instructions. *)
Lemma split_insts_pairs b is_ cid cur st p :
  p ∈ suspend_resume (split_insts b is_ cid cur st) ->
  p ∈ suspend_resume st \/
  (exists B, B ∈ new_blocks (split_insts b is_ cid cur st) /\ block_id B = p.1 /\ insts B <> []) /\
  (exists B, B ∈ new_blocks (split_insts b is_ cid cur st) /\ block_id B = p.2 /\ insts B <> []).
Proof.
  revert cid cur st. induction is_ as [|i is' IH]; intros cid cur st Hp; [by left|].
  destruct (is_await i) eqn:Ei; [|destruct i; try done; by apply IH]. destruct i; try done. cbn [split_insts] in *.
  set (st1 := mkSplit _ _ _ _ _) in *. destruct (IH _ _ _ Hp) as [Hp1|Hp1]; [|by right].
  unfold st1 in Hp1. cbn [suspend_resume] in Hp1. apply elem_of_app in Hp1 as [Hp1|Hp1]; [by left|]. apply list_elem_of_singleton in Hp1 as ->.
  right. cbn [fst snd]. split.
  - destruct (split_insts_spec b is' (fresh st) [IAsyncResume dst SkAwait] st1) as (_ & _ & _ & _ & _ & _ & _ & _ & H7).
    eexists. split; [apply (ext_blocks _ _ H7); unfold st1; cbn [new_blocks]; apply elem_of_app; right; by apply list_elem_of_singleton|].
    cbn. split; [done|]. by destruct cur.
  - pose proof (covers_split _ _ _ _ _ (split_insts_covers b is' (fresh st) [IAsyncResume dst SkAwait] st1)) as Hc.
    destruct (split_await is') as [seg [[[s d] rest]|]].
    + destruct Hc as (k & rid & Hin & _). eexists. split; [exact Hin|]. done.
    + destruct Hc as [Hin _]. eexists. split; [exact Hin|]. done.
Qed.

Lemma split_fold_pairs bs st p :
  p ∈ suspend_resume (fold_left split_block bs st) -> NoDup (map block_id bs) ->
  p ∈ suspend_resume st \/
  (exists B, B ∈ new_blocks (fold_left split_block bs st) /\ block_id B = p.1 /\ insts B <> []) /\
  (exists B, B ∈ new_blocks (fold_left split_block bs st) /\ block_id B = p.2 /\ insts B <> []).
Proof.
  revert st. induction bs as [|b bs IH]; intros st Hp Hnd; [by left|]. cbn [fold_left] in *. apply NoDup_cons in Hnd as [_ Hnd].
  destruct (IH _ Hp Hnd) as [Hp1|]; [|by right]. destruct (split_insts_pairs _ _ _ _ _ _ Hp1) as [|[(B & HB & H1) (C & HC & H2)]]; [by left|].
  right. destruct (split_fold_spec bs (split_block st b) Hnd) as (_ & _ & _ & _ & _ & _ & _ & _ & _ & _ & _ & Hext & _).
  split; [exists B|exists C]; (split; [by apply (ext_blocks _ _ Hext)|done]).
Qed.

(** * The blocks of the poll function *)

Definition split_of (f : IrFunction) : Split := split_blocks (next_block f) (blocks f).
Definition table_of (f : IrFunction) (L : LiveIn) : SlotTable := slot_table L (params f) (suspend_resume (split_of f)).
Definition resume_map (f : IrFunction) : gmap BlockId BlockId :=
  fold_left (fun m sr => <[sr.1 := sr.2]> m) (suspend_resume (split_of f)) ∅.
Definition split_cfg (f : IrFunction) : list Block := map (remap_block (last_segment (split_of f))) (new_blocks (split_of f)).

Definition slot (t : SlotTable) (v : VarId) : Z := default 0 (slots t !! v).
Definition stores_of (t : SlotTable) (vs : list VarId) : list Inst := map (fun v => IStateStore (slot t v) v) vs.
Definition loads_of (t : SlotTable) (vs : list VarId) : list Inst := map (fun v => IStateLoad v (slot t v)) vs.

Definition stored (t : SlotTable) (ro : gmap BlockId BlockId) (b : Block) : list Inst :=
  match ro !! block_id b with
  | Some rid => let at_ := pred (length (insts b)) in
      take at_ (insts b) ++ stores_of t (default [] (save_sets t !! rid)) ++ drop at_ (insts b)
  | None => insts b
  end.

Definition loaded (t : SlotTable) (cid : BlockId) (is_ : list Inst) : list Inst :=
  match save_sets t !! cid with
  | Some saved => take 1 is_ ++ loads_of t saved ++ drop 1 is_
  | None => is_
  end.

Lemma mapM_Ok {E A B : Type} (g : A -> outcome E B) (h : A -> B) l :
  (forall x, x ∈ l -> g x = Ok (h x)) -> mapM g l = Ok (map h l).
Proof.
  induction l as [|x l IH]; intros Hg; [done|]. cbn [mapM]. rewrite (Hg x) by (apply elem_of_cons; by left). cbn.
  rewrite IH; [done|]. intros y Hy. apply Hg. apply elem_of_cons. by right.
Qed.

Lemma splice_Ok {E : Type} v at_ items : (at_ <= length v)%nat -> splice (E := E) v at_ items = Ok (take at_ v ++ items ++ drop at_ v).
Proof.
  intros Hle. unfold splice. destruct items; [by rewrite app_nil_l, take_drop|]. by rewrite (proj2 (Nat.ltb_ge _ _) Hle).
Qed.

Lemma store_of_Ok {E : Type} t v : is_Some (slots t !! v) -> store_of (E := E) (slots t) v = Ok (IStateStore (slot t v) v).
Proof. intros [s Hs]. unfold store_of, slot_of, slot. by rewrite Hs. Qed.

Lemma load_of_Ok {E : Type} t v : is_Some (slots t !! v) -> load_of (E := E) (slots t) v = Ok (IStateLoad v (slot t v)).
Proof. intros [s Hs]. unfold load_of, slot_of, slot. by rewrite Hs. Qed.

Lemma attach_Ok {E : Type} t ro b :
  (forall rid, ro !! block_id b = Some rid -> insts b <> [] /\ exists saved, save_sets t !! rid = Some saved /\ forall v, v ∈ saved -> is_Some (slots t !! v)) ->
  (forall saved, save_sets t !! block_id b = Some saved -> insts b <> [] /\ forall v, v ∈ saved -> is_Some (slots t !! v)) ->
  attach (E := E) t ro b = Ok (with_insts b (loaded t (block_id b) (stored t ro b))).
Proof.
  intros H1 H2. unfold attach.
  assert (Hs : add_stores (E := E) t ro b = Ok (with_insts b (stored t ro b)) /\ (insts b <> [] -> stored t ro b <> [])).
  { unfold add_stores, stored. destruct (ro !! block_id b) as [rid|] eqn:Er; [|by destruct b].
    destruct (H1 rid eq_refl) as (Hne & saved & Hsv & Hsl). rewrite Hsv. cbn [default].
    rewrite (mapM_Ok (store_of (slots t)) (fun v => IStateStore (slot t v) v)) by (intros; by apply store_of_Ok, Hsl). cbn [mbind outcome_bind].
    destruct (length (insts b)) as [|n] eqn:El; [by apply nil_length_inv in El|]. rewrite splice_Ok by lia. cbn [mbind outcome_bind pred]. split; [done|].
    intros _ Hn. apply app_nil in Hn as [_ Hn]. apply app_nil in Hn as [_ Hn]. apply (f_equal length) in Hn. rewrite length_drop in Hn. cbn in Hn. lia. }
  destruct Hs as [-> Hne]. cbn [mbind outcome_bind]. unfold add_loads, loaded. cbn [block_id insts with_insts].
  destruct (save_sets t !! block_id b) as [saved|] eqn:Es; [|done]. destruct (H2 saved eq_refl) as [Hb Hsl].
  rewrite (mapM_Ok (load_of (slots t)) (fun v => IStateLoad v (slot t v))) by (intros; by apply load_of_Ok, Hsl). cbn [mbind outcome_bind].
  rewrite splice_Ok; [done|]. specialize (Hne Hb). destruct (stored t ro b); [done|simpl; lia].
Qed.

Lemma load_params_Ok {E : Type} t entry ps bs :
  NoDup (map block_id bs) -> (forall p, p ∈ ps -> is_Some (slots t !! p.2)) ->
  load_params (E := E) t entry ps bs =
  Ok (map (fun b => if block_id b =? entry then with_insts b (loads_of t (map snd ps) ++ insts b) else b) bs).
Proof.
  intros Hnd Hps. induction bs as [|b bs IH]; [done|]. cbn [map] in Hnd. apply NoDup_cons in Hnd as [Hb Hnd]. cbn [load_params map].
  destruct (block_id b =? entry) eqn:Eb.
  - rewrite (mapM_Ok _ (fun p => IStateLoad p.2 (slot t p.2))) by (intros; by apply load_of_Ok, Hps). cbn [mbind outcome_bind].
    rewrite splice_Ok by lia. cbn [mbind outcome_bind take drop]. rewrite app_nil_l. unfold loads_of. rewrite map_map. do 2 f_equal.
    apply Z.eqb_eq in Eb. symmetry. rewrite <- (map_id bs) at 2. apply map_ext_in. intros c Hc. destruct (block_id c =? entry) eqn:Ec; [|done].
    apply Z.eqb_eq in Ec. exfalso. apply Hb. rewrite Eb, <- Ec. apply list_elem_of_In, in_map, Hc.
  - rewrite IH by done. done.
Qed.

Definition final_block (f : IrFunction) (L : LiveIn) (entry : BlockId) (B : Block) : Block :=
  let t := table_of f L in
  let b := remap_block (last_segment (split_of f)) B in
  with_insts b ((if block_id B =? entry then loads_of t (map snd (params f)) else []) ++ loaded t (block_id B) (stored t (resume_map f) B)).

(** What lowering gives, with the live variables [L]. *)
Definition lowered (f : IrFunction) (L : LiveIn) (entry : BlockId) : AsyncLowering :=
  mkAsyncLowering
    (mkIrFunction (fn_name f) [] (map (final_block f L entry) (new_blocks (split_of f))) (next_var f) (fresh (split_of f)) (fn_span f)
       (subfunctions f) false true (entry :: resume_states (split_of f)) [] [])
    (next_slot (table_of f L)) (length (params f)).

Lemma resume_map_fold (srs : list (BlockId * BlockId)) (m : gmap BlockId BlockId) :
  NoDup (map fst srs) ->
  (forall s r, (s, r) ∈ srs -> fold_left (fun m sr => <[sr.1 := sr.2]> m) srs m !! s = Some r) /\
  (forall s, s ∉ map fst srs -> fold_left (fun m sr => <[sr.1 := sr.2]> m) srs m !! s = m !! s).
Proof.
  revert m. induction srs as [|[s0 r0] srs IH]; intros m Hnd; [split; [intros s r Hin%elem_of_nil; done|done]|].
  cbn [map fst] in Hnd. apply NoDup_cons in Hnd as [Hs Hnd]. cbn [fold_left fst snd]. destruct (IH (<[s0 := r0]> m) Hnd) as [I1 I2]. split.
  - intros s r Hin. apply elem_of_cons in Hin as [[= -> ->]|Hin]; [|by apply I1]. rewrite I2 by done. apply lookup_insert_eq.
  - intros s Hni. cbn [map fst] in Hni. rewrite I2 by set_solver. apply lookup_insert_ne. set_solver.
Qed.

Section Lowered.
Context (f : IrFunction) (b0 : Block) (Hwf : well_formed_async f b0).

Lemma split_facts :
  exists suspends lasts n,
    map block_id (new_blocks (split_of f)) ≡ₚ suspends ++ lasts /\
    NoDup (map block_id (new_blocks (split_of f))) /\
    resume_states (split_of f) = seqZ (next_block f) (Z.of_nat n) /\
    suspend_resume (split_of f) = zip suspends (seqZ (next_block f) (Z.of_nat n)) /\
    length suspends = n /\
    Forall2 (fun b l => last_segment (split_of f) !! block_id b = Some l) (blocks f) lasts /\
    (forall k, k ∉ ids f -> last_segment (split_of f) !! k = None) /\
    (forall B, B ∈ new_blocks (split_of f) -> block_id B ∈ ids f \/ next_block f <= block_id B).
Proof.
  destruct (split_fold_spec (blocks f) (mkSplit [] [] [] ∅ (next_block f)) (wa_ids _ _ Hwf)) as (sus & lasts & n & H1 & H2 & H3 & H4 & H5 & H6 & H7 & H8 & H9 & H10).
  fold (split_blocks (next_block f) (blocks f)) in *. fold (split_of f) in *. cbn in H1, H2, H3, H4.
  exists sus, lasts, n. split_and!; try done.
  - rewrite H2. apply NoDup_app. split_and!; [apply (wa_ids _ _ Hwf)| |apply NoDup_seqZ].
    intros x Hx Hs. apply elem_of_seqZ in Hs. apply list_elem_of_fmap in Hx as (b & -> & Hb). apply (wa_fresh _ _ Hwf) in Hb. lia.
  - intros B HB. assert (Hid : block_id B ∈ map block_id (new_blocks (split_of f))) by (apply list_elem_of_fmap; by exists B).
    rewrite H2 in Hid. apply elem_of_app in Hid as [Hid|Hid]; [by left|]. apply elem_of_seqZ in Hid. right. lia.
Qed.

Lemma split_covers b : b ∈ blocks f -> covers (split_of f) b (insts b) (block_id b) [].
Proof.
  destruct (split_fold_spec (blocks f) (mkSplit [] [] [] ∅ (next_block f)) (wa_ids _ _ Hwf)) as (_ & _ & _ & _ & _ & _ & _ & _ & _ & _ & _ & _ & H10). apply H10.
Qed.

Lemma suspends_distinct : NoDup (map fst (suspend_resume (split_of f))).
Proof.
  destruct split_facts as (sus & lasts & n & H1 & H2 & H3 & H4 & H5 & _). rewrite H4, fst_zip by (rewrite length_seqZ; lia).
  rewrite H1 in H2. by apply NoDup_app in H2 as [H2 _].
Qed.

Lemma resumes_fresh k : k ∈ map snd (suspend_resume (split_of f)) <-> k ∈ resume_states (split_of f).
Proof.
  destruct split_facts as (sus & lasts & n & H1 & H2 & H3 & H4 & H5 & _). rewrite H4, snd_zip by (rewrite length_seqZ; lia). by rewrite H3.
Qed.

Lemma resume_ge k : k ∈ resume_states (split_of f) -> next_block f <= k.
Proof. destruct split_facts as (sus & lasts & n & _ & _ & -> & _). intros Hk%elem_of_seqZ. lia. Qed.

Lemma resume_map_suspend s r : (s, r) ∈ suspend_resume (split_of f) -> resume_map f !! s = Some r.
Proof. by apply resume_map_fold, suspends_distinct. Qed.

Lemma resume_map_in s r : resume_map f !! s = Some r -> (s, r) ∈ suspend_resume (split_of f).
Proof.
  intros Hs. destruct (decide (s ∈ map fst (suspend_resume (split_of f)))) as [Hin|Hin].
  - apply list_elem_of_fmap in Hin as ([s' r'] & -> & Hin). cbn in Hs. rewrite (resume_map_suspend s' r') in Hs by done. cbn. congruence.
  - unfold resume_map in Hs. rewrite (proj2 (resume_map_fold _ ∅ suspends_distinct)) in Hs by done. by rewrite lookup_empty in Hs.
Qed.

(** The last segment of a block suspends nothing. *)
Lemma resume_map_last b l : b ∈ blocks f -> last_segment (split_of f) !! block_id b = Some l -> resume_map f !! l = None.
Proof.
  intros Hb Hl. destruct (resume_map f !! l) as [r|] eqn:Er; [|done]. exfalso. apply resume_map_in in Er.
  destruct split_facts as (sus & lasts & n & H1 & H2 & H3 & H4 & H5 & H6 & _). rewrite H1 in H2. apply NoDup_app in H2 as (_ & Hdis & _).
  apply (Hdis l).
  - rewrite <- (fst_zip sus (seqZ (next_block f) (Z.of_nat n))), <- H4 by (rewrite length_seqZ; lia). apply list_elem_of_fmap. by exists (l, r).
  - apply list_elem_of_lookup in Hb as [i Hi]. destruct (Forall2_lookup_l _ _ _ _ _ H6 Hi) as (l' & Hl' & E). rewrite Hl in E. injection E as ->.
    by eapply list_elem_of_lookup_2.
Qed.

(** Different blocks have different last segments. *)
Lemma last_segment_inj b b' l :
  b ∈ blocks f -> b' ∈ blocks f -> last_segment (split_of f) !! block_id b = Some l -> last_segment (split_of f) !! block_id b' = Some l -> b = b'.
Proof.
  intros Hb Hb' Hl Hl'. destruct split_facts as (sus & lasts & n & H1 & H2 & H3 & H4 & H5 & H6 & _).
  rewrite H1 in H2. apply NoDup_app in H2 as (_ & _ & Hnd). apply list_elem_of_lookup in Hb as [i Hi], Hb' as [j Hj].
  destruct (Forall2_lookup_l _ _ _ _ _ H6 Hi) as (l1 & Hl1 & E1). destruct (Forall2_lookup_l _ _ _ _ _ H6 Hj) as (l2 & Hl2 & E2).
  rewrite Hl in E1. rewrite Hl' in E2. injection E1 as <-. injection E2 as <-. assert (i = j) as <- by (by eapply NoDup_lookup). congruence.
Qed.

Lemma new_block_unique B C : B ∈ new_blocks (split_of f) -> C ∈ new_blocks (split_of f) -> block_id B = block_id C -> B = C.
Proof.
  destruct split_facts as (_ & _ & _ & _ & Hnd & _). intros HB HC E. apply list_elem_of_lookup in HB as [i Hi], HC as [j Hj].
  assert (i = j) as <-; [|congruence]. eapply NoDup_lookup; [exact Hnd| |]; [rewrite list_lookup_fmap, Hi; reflexivity|]. rewrite list_lookup_fmap, Hj. cbn. by rewrite E.
Qed.

Context (L : LiveIn).

Lemma table_facts :
  slots_ok (slots (table_of f L)) (next_slot (table_of f L)) /\ Z.of_nat (length (params f)) <= next_slot (table_of f L) /\
  (forall j p, params f !! j = Some p -> slots (table_of f L) !! p.2 = Some (Z.of_nat j)) /\
  (forall k, k ∈ resume_states (split_of f) -> save_sets (table_of f L) !! k = Some (saved_vars L k)) /\
  (forall k, k ∉ resume_states (split_of f) -> save_sets (table_of f L) !! k = None) /\
  (forall k v, k ∈ resume_states (split_of f) -> v ∈ saved_vars L k -> is_Some (slots (table_of f L) !! v)).
Proof.
  unfold table_of, slot_table.
  destruct (assign_slots_fold L (suspend_resume (split_of f)) (mkSlotTable (param_slots 0 (params f) ∅) (Z.of_nat (length (params f))) ∅)) as (H1 & H2 & H3 & H4 & H5 & H6).
  { apply param_slots_ok, (wa_params _ _ Hwf). }
  cbn [slots next_slot save_sets] in H2, H3, H5. split_and!; try done.
  - intros j p Hp. eapply lookup_weaken; [|exact H3]. rewrite (proj1 (param_slots_spec _ 0 ∅ (wa_params _ _ Hwf)) _ _ Hp). by rewrite Z.add_0_l.
  - intros k Hk. apply resumes_fresh in Hk. apply list_elem_of_fmap in Hk as (sr & -> & Hin). by apply H4.
  - intros k Hk. rewrite H5 by (by rewrite resumes_fresh). apply lookup_empty.
  - intros k v Hk Hv. apply resumes_fresh in Hk. apply list_elem_of_fmap in Hk as (sr & -> & Hin). by apply (H6 sr).
Qed.

Lemma lower_async_eq :
  first_unsupported (blocks f ≫= insts) = None -> compute_live_in (E := AsyncLowerError) (split_cfg f) = Ok L ->
  lower_async f = Ok (lowered f L (block_id b0)).
Proof.
  intros Hu HL. unfold lower_async, reject_unsupported. rewrite Hu. cbn [mbind outcome_bind].
  destruct (wa_entry _ _ Hwf) as [rest Hb]. rewrite Hb. rewrite <- Hb. fold (split_of f). fold (split_cfg f). rewrite HL. cbn [mbind outcome_bind].
  fold (table_of f L). fold (resume_map f). destruct table_facts as (T1 & T2 & T3 & T4 & T5 & T6).
  destruct split_facts as (_ & _ & _ & _ & Hnd & _).
  rewrite (mapM_Ok _ (fun b => with_insts b (loaded (table_of f L) (block_id b) (stored (table_of f L) (resume_map f) b)))).
  2:{ intros B HB. apply list_elem_of_fmap in HB as (B' & -> & HB'). apply attach_Ok.
      - intros rid Hr. cbn [block_id remap_block] in Hr. apply resume_map_in in Hr.
        assert (Hres : rid ∈ resume_states (split_of f)) by (apply resumes_fresh, list_elem_of_fmap; by exists (block_id B', rid)).
        split; [|exists (saved_vars L rid); split; [by apply T4|intros v; by apply T6]].
        destruct (split_fold_pairs _ _ _ Hr (wa_ids _ _ Hwf)) as [Hin|[(C & HC & E & Hne) _]]; [by apply elem_of_nil in Hin|]. cbn in E.
        by rewrite (new_block_unique C B' HC HB' E) in Hne.
      - intros saved Hs. cbn [block_id remap_block] in Hs. destruct (decide (block_id B' ∈ resume_states (split_of f))) as [Hres|Hres]; [|by rewrite T5 in Hs].
        rewrite T4 in Hs by done. injection Hs as <-. split; [|intros v; by apply T6].
        apply resumes_fresh, list_elem_of_fmap in Hres as (p & Ep & Hin).
        destruct (split_fold_pairs _ _ _ Hin (wa_ids _ _ Hwf)) as [Hin'|[_ (C & HC & E & Hne)]]; [by apply elem_of_nil in Hin'|].
        rewrite (new_block_unique C B' HC HB') in Hne by congruence. done. }
  cbn [mbind outcome_bind]. rewrite load_params_Ok; cycle 1.
  { unfold split_cfg. rewrite !map_map. exact Hnd. }
  { intros p Hp. apply list_elem_of_lookup in Hp as [j Hj]. rewrite (T3 _ _ Hj). eauto. }
  cbn [mbind outcome_bind]. unfold lowered. do 3 f_equal. unfold split_cfg. rewrite !map_map. apply map_ext. intros B. unfold final_block.
  cbn [block_id with_insts remap_block insts]. destruct (block_id B =? block_id b0); [|by rewrite app_nil_l]. done.
Qed.

End Lowered.

Lemma index_blocks_Some bs k b : NoDup (map block_id bs) -> (index_blocks bs !! k = Some b <-> b ∈ bs /\ block_id b = k).
Proof. intros Hnd. exact (blocks_by_id_spec (with_blocks bs (IrFunction_new None None)) k b Hnd). Qed.

(** The sets of the blocks satisfy the equations. *)
Definition live_fixpoint (bs : list Block) (L : LiveIn) : Prop :=
  forall b, b ∈ bs -> L !! block_id b = Some (transfer (index_blocks bs) L b).

Definition at_block (L : LiveIn) (b : BlockId) : gset VarId := default ∅ (L !! b).

(** [L] is included in [L'], block by block. *)
Definition below (L L' : LiveIn) : Prop := forall b, at_block L b ⊆ at_block L' b.

#[export] Instance below_preorder : PreOrder below.
Proof. split; [by intros L b|]. intros L1 L2 L3 H1 H2 b. by transitivity (at_block L2 b). Qed.

(** * The transfer function is monotone and stays within the variables read *)

Lemma live_before_mono is_ s s' : s ⊆ s' -> live_before is_ s ⊆ live_before is_ s'.
Proof. intros Hs. induction is_ as [|i is' IH]; [done|]. cbn. set_solver. Qed.

Lemma live_before_reads is_ s : live_before is_ s ⊆ list_to_set (is_ ≫= uses) ∪ s.
Proof. induction is_ as [|i is' IH]; [set_solver|]. cbn. rewrite list_to_set_app_L. set_solver. Qed.

Lemma union_map_mono {A : Type} (g h : A -> gset VarId) l : (forall x, x ∈ l -> g x ⊆ h x) -> ⋃ (map g l) ⊆ ⋃ (map h l).
Proof. induction l as [|x l IH]; intros Hg; [done|]. cbn. apply union_mono; [apply Hg; set_solver|apply IH; set_solver]. Qed.

Lemma union_map_sub {A : Type} (g : A -> gset VarId) l s : (forall x, x ∈ l -> g x ⊆ s) -> ⋃ (map g l) ⊆ s.
Proof. induction l as [|x l IH]; intros Hg; cbn; [set_solver|]. apply union_least; [apply Hg; set_solver|apply IH; set_solver]. Qed.

Lemma union_map_elem {A : Type} (g : A -> gset VarId) l x : x ∈ l -> g x ⊆ ⋃ (map g l).
Proof. intros Hx. induction Hx; cbn; set_solver. Qed.

Lemma transfer_mono by_id L L' b : below L L' -> transfer by_id L b ⊆ transfer by_id L' b.
Proof.
  intros HL. unfold transfer. apply difference_mono_r, live_before_mono. unfold live_out. apply union_mono_r, union_map_mono.
  intros s _. unfold edge_live. apply union_mono_r, difference_mono_r. apply HL.
Qed.

Lemma phi_operands_uses b ps : forall v, v ∈ phi_operands b ps -> v ∈ ps ≫= uses.
Proof.
  intros v Hv. apply list_elem_of_bind in Hv as (p & Hv & Hp). apply list_elem_of_bind. exists p. split; [|done].
  destruct p; try (by apply elem_of_nil in Hv). apply list_elem_of_fmap in Hv as (e & -> & He). apply list_elem_of_filter in He as [_ He].
  cbn. apply list_elem_of_fmap. by exists e.
Qed.

Lemma transfer_reads bs L b :
  NoDup (map block_id bs) -> b ∈ bs -> (forall k, at_block L k ⊆ all_reads bs) -> transfer (index_blocks bs) L b ⊆ all_reads bs.
Proof.
  intros Hnd Hb HL. assert (Hr : forall c, c ∈ bs -> block_reads c ⊆ all_reads bs) by (intros c Hc; by apply union_map_elem).
  pose proof (Hr b Hb) as Hrb. unfold block_reads in Hrb. rewrite !list_to_set_app_L in Hrb.
  assert (Ho : live_out (index_blocks bs) L b ⊆ all_reads bs).
  { unfold live_out. apply union_least; [|set_solver]. apply union_map_sub. intros s _. unfold edge_live. apply union_least.
    - pose proof (HL s) as Hs. unfold at_block in Hs. set_solver.
    - destruct (index_blocks bs !! s) as [c|] eqn:Ec; [|set_solver]. cbn. apply index_blocks_Some in Ec as [Hc _]; [|done].
      pose proof (Hr c Hc) as Hrc. unfold block_reads in Hrc. rewrite !list_to_set_app_L in Hrc. intros v Hv. apply Hrc.
      apply elem_of_list_to_set in Hv. apply phi_operands_uses in Hv. set_solver. }
  unfold transfer. pose proof (live_before_reads (insts b) (live_out (index_blocks bs) L b)). set_solver.
Qed.

(** * A pass *)

Lemma pass_unchanged by_id l L c L' :
  fold_left (update_live by_id) l (L, c) = (L', false) ->
  c = false /\ L' = L /\ forall b, b ∈ l -> L !! block_id b = Some (transfer by_id L b).
Proof.
  revert L c. induction l as [|b l IH]; intros L c Hp; cbn [fold_left] in Hp; [injection Hp as -> ->; split_and!; try done; set_solver|].
  unfold update_live at 2 in Hp. cbn [fst snd] in Hp. case_decide as Hd.
  - apply IH in Hp as (-> & -> & Hl). split_and!; try done. intros b' Hb'. apply elem_of_cons in Hb' as [->|Hb']; [done|by apply Hl].
  - apply IH in Hp as (? & _). done.
Qed.

(** The total size of the sets. *)
Definition live_size (bs : list Block) (L : LiveIn) : nat := sum_list (map (fun b => size (at_block L (block_id b))) bs).

(** What holds before and after each update. *)
Record live_inv (bs : list Block) (L : LiveIn) : Prop := {
  li_defined b : b ∈ bs -> is_Some (L !! block_id b);
  li_grow b : b ∈ bs -> at_block L (block_id b) ⊆ transfer (index_blocks bs) L b;
  li_reads k : at_block L k ⊆ all_reads bs
}.

Section Pass.
Context (bs : list Block) (Hnd : NoDup (map block_id bs)).

Lemma at_block_insert L k s j : at_block (<[k := s]> L) j = if decide (k = j) then s else at_block L j.
Proof. unfold at_block. rewrite lookup_insert. by case_decide. Qed.

Lemma insert_below L b : live_inv bs L -> b ∈ bs -> below L (<[block_id b := transfer (index_blocks bs) L b]> L).
Proof. intros HL Hb k. rewrite at_block_insert. case_decide as Hk; [subst k; by apply (li_grow _ _ HL)|done]. Qed.

Lemma insert_inv L b : live_inv bs L -> b ∈ bs -> live_inv bs (<[block_id b := transfer (index_blocks bs) L b]> L).
Proof.
  intros HL Hb. pose proof (insert_below L b HL Hb) as Hbel. split.
  - intros c Hc. rewrite lookup_insert. case_decide; [eauto|by apply (li_defined _ _ HL)].
  - intros c Hc. rewrite at_block_insert. case_decide as Hk.
    + assert (Hbc : Some b = Some c).
      { rewrite <- (proj2 (index_blocks_Some bs (block_id b) b Hnd)) by done. by apply index_blocks_Some. }
      injection Hbc as <-. by apply transfer_mono.
    + transitivity (transfer (index_blocks bs) L c); [by apply (li_grow _ _ HL)|by apply transfer_mono].
  - intros k. rewrite at_block_insert. case_decide; [|by apply (li_reads _ _ HL)]. apply transfer_reads; [done|done|]. apply (li_reads _ _ HL).
Qed.

Lemma live_size_mono l L L' : below L L' -> (live_size l L <= live_size l L')%nat.
Proof. intros HL. unfold live_size. induction l as [|b l IH]; [done|]. cbn. pose proof (subseteq_size _ _ (HL (block_id b))). lia. Qed.

Lemma live_size_grow l L L' b :
  below L L' -> b ∈ l -> at_block L (block_id b) ≠ at_block L' (block_id b) -> (live_size l L < live_size l L')%nat.
Proof.
  intros HL Hb Hne. induction Hb as [b l|b c l Hb IH]; unfold live_size; cbn.
  - pose proof (live_size_mono l L L' HL) as Hl. unfold live_size in Hl.
    assert (size (at_block L (block_id b)) < size (at_block L' (block_id b)))%nat; [|lia].
    apply subset_size. pose proof (HL (block_id b)) as Hs. apply strict_spec_alt. done.
  - pose proof (subseteq_size _ _ (HL (block_id c))). specialize (IH Hne). unfold live_size in IH. lia.
Qed.

Lemma pass_changed l L c L' c' :
  live_inv bs L -> (forall b, b ∈ l -> b ∈ bs) -> fold_left (update_live (index_blocks bs)) l (L, c) = (L', c') ->
  live_inv bs L' /\ below L L' /\ (c = false -> c' = true -> (live_size bs L < live_size bs L')%nat).
Proof.
  revert L c. induction l as [|b l IH]; intros L c HL Hin Hp; cbn [fold_left] in Hp.
  { injection Hp as -> ->. split_and!; [done|done|intros -> ?; done]. }
  unfold update_live at 2 in Hp. cbn [fst snd] in Hp. assert (Hb : b ∈ bs) by (apply Hin; set_solver). case_decide as Hd.
  - apply (IH L c); [done|set_solver|done].
  - pose proof (insert_below L b HL Hb) as Hbel. destruct (IH _ _ (insert_inv L b HL Hb) ltac:(set_solver) Hp) as (I1 & I2 & I3).
    split_and!; [done|by transitivity (<[block_id b := transfer (index_blocks bs) L b]> L)|]. intros _ _.
    apply Nat.lt_le_trans with (live_size bs (<[block_id b := transfer (index_blocks bs) L b]> L)); [|by apply live_size_mono].
    apply (live_size_grow bs L _ b Hbel Hb). rewrite at_block_insert, decide_True by done. intros E. apply Hd.
    destruct (li_defined _ _ HL b Hb) as [s Hs]. unfold at_block in E. rewrite Hs in *. cbn in E. by rewrite E.
Qed.

Lemma live_size_bound L : live_inv bs L -> (live_size bs L <= length bs * size (all_reads bs))%nat.
Proof.
  intros HL. unfold live_size. assert (Hl : forall l, (sum_list (map (fun b => size (at_block L (block_id b))) l) <= length l * size (all_reads bs))%nat); [|apply Hl].
  induction l as [|b l IH]; [done|]. cbn. pose proof (subseteq_size _ _ (li_reads _ _ HL (block_id b))). lia.
Qed.

Lemma live_loop_ok {E : Type} fuel L :
  live_inv bs L -> (length bs * size (all_reads bs) < fuel + live_size bs L)%nat ->
  exists L', live_loop (E := E) fuel bs L = Ok L' /\ live_fixpoint bs L'.
Proof.
  revert L. induction fuel as [|fuel IH]; intros L HL Hf; [pose proof (live_size_bound L HL); lia|]. cbn [live_loop].
  unfold live_pass. destruct (fold_left _ _ _) as [L' c] eqn:Hp.
  destruct (pass_changed (reverse bs) L false L' c HL) as (I1 & I2 & I3); [intros b; by rewrite elem_of_reverse|done|].
  destruct c.
  - apply IH; [done|]. specialize (I3 eq_refl eq_refl). lia.
  - apply pass_unchanged in Hp as (_ & -> & Hl). exists L. split; [done|]. intros b Hb. apply Hl. by rewrite elem_of_reverse.
Qed.

Lemma no_live_inv : live_inv bs (no_live bs).
Proof.
  assert (Hg : forall l (m : LiveIn), (forall k, at_block m k = ∅) ->
    (forall k, at_block (fold_left (fun m b => <[block_id b := ∅]> m) l m) k = ∅) /\
    (forall k, (k ∈ map block_id l \/ is_Some (m !! k)) -> is_Some (fold_left (fun m b => <[block_id b := ∅]> m) l m !! k))).
  { induction l as [|b l IH]; intros m Hm; cbn [fold_left]; [split; [done|intros k [Hk|Hk]; [by apply elem_of_nil in Hk|done]]|].
    destruct (IH (<[block_id b := ∅]> m)) as [I1 I2]; [intros k; rewrite at_block_insert; by case_decide|]. split; [done|].
    intros k Hk. apply I2. cbn [map] in Hk. destruct (decide (k = block_id b)) as [->|Hne]; [right; rewrite lookup_insert_eq; eauto|].
    destruct Hk as [Hk|Hk]; [left; set_solver|right; by rewrite lookup_insert_ne]. }
  destruct (Hg bs ∅) as [G1 G2]; [intros k; unfold at_block; by rewrite lookup_empty|]. fold (no_live bs) in *. split.
  - intros b Hb. apply G2. left. apply list_elem_of_fmap. by exists b.
  - intros b Hb. rewrite G1. set_solver.
  - intros k. rewrite G1. set_solver.
Qed.

(** The analysis ends within its fuel, with a solution of its equations. *)
Lemma compute_live_in_ok {E : Type} : exists L, compute_live_in (E := E) bs = Ok L /\ live_fixpoint bs L.
Proof. apply live_loop_ok; [apply no_live_inv|lia]. Qed.

End Pass.
