(* ===== verification/AsyncSpec.v ===== *)
(** The poll function of an asynchronous function computes what the function
    computes, or reads a register that it did not restore.

    Lowering an asynchronous function to a poll function: it always ends,
    the poll function is never wrong, and it is equivalent to the function
    when every value that a suspend saves is defined; and a function for
    which one is not. *)
From stdpp Require Import gmap sorting.
From S2P Require Import Prelude RustStd Token Ir Reloop ReloopSem ReloopGraph IrInterp Osr OsrSem OsrSpec AsyncLower AsyncSem AsyncSplit.
Local Open Scope Z_scope.

(** * Registers of the poll function *)

Section Registers.
Context {V : Type}.
Implicit Types r : gmap VarId V.

Lemma read_all_sub rp r us xs : rp ⊆ r -> read_all rp us = Some xs -> read_all r us = Some xs.
Proof.
  intros Hs. unfold read_all. rewrite !mapM_Some. intros Hf. eapply Forall2_impl; [exact Hf|]. intros u x Hu. by apply (lookup_weaken rp).
Qed.

Lemma write_all_sub ds (xs : list V) rp r : rp ⊆ r -> write_all ds xs rp ⊆ write_all ds xs r.
Proof.
  intros Hs. unfold write_all. generalize (zip ds xs). intros l. induction l as [|[d x] l IH]; [done|]. cbn. by apply insert_mono.
Qed.

Lemma set_dst_sub i (x : V) rp r : rp ⊆ r -> set_dst i x rp ⊆ set_dst i x r.
Proof. intros Hs. unfold set_dst. destruct (dst i); [by apply insert_mono|done]. Qed.

Lemma enter_sub prev ps rp r rp' : rp ⊆ r -> enter prev ps rp = Some rp' -> exists r', enter prev ps r = Some r' /\ rp' ⊆ r'.
Proof.
  intros Hs. unfold enter. destruct (read_all rp _) as [xs|] eqn:Hx; [|done]. cbn. intros [= <-].
  rewrite (read_all_sub rp r _ _ Hs Hx). cbn. eexists. split; [done|]. by apply write_all_sub.
Qed.

Lemma enter_nil prev r : enter prev [] r = Some r.
Proof. done. Qed.

Lemma enter_dom prev ps r r' : enter prev ps r = Some r' -> dom r' = list_to_set (map fst (phi_moves prev ps)) ∪ dom r.
Proof.
  unfold enter. destruct (read_all r _) as [xs|] eqn:Hx; [|done]. cbn. intros [= <-]. apply write_all_dom.
  rewrite (read_length _ _ _ Hx), !length_map. done.
Qed.

Lemma enter_defined prev ps r : (forall v, v ∈ map snd (phi_moves prev ps) -> v ∈ dom r) -> is_Some (enter prev ps r).
Proof. intros Hd. unfold enter. destruct (read_defined r _ Hd) as [xs ->]. cbn. eauto. Qed.

End Registers.

(** The phis of a target take the same operands from the last segment of a block
    as from the block. *)
Lemma phi_moves_remap f b0 b l ps :
  well_formed_async f b0 -> b ∈ blocks f -> last_segment (split_of f) !! block_id b = Some l ->
  Forall (fun p => preds_in (ids f) p = true) ps ->
  phi_moves l (map (remap_phi (last_segment (split_of f))) ps) = phi_moves (block_id b) ps.
Proof.
  intros Hwf Hb Hl Hps.
  assert (Hsrc : forall es, forallb (fun e => bool_decide (e.1 ∈ ids f)) es = true ->
    phi_source l (map (fun e => (default e.1 (last_segment (split_of f) !! e.1), e.2)) es) = phi_source (block_id b) es).
  { unfold phi_source. intros es. induction es as [|[q v] es IH]; [done|]. cbn [forallb fst]. intros Hes. apply andb_prop in Hes as [Hq Hes].
    apply bool_decide_eq_true, list_elem_of_fmap in Hq as (c & -> & Hc). cbn [map find fst snd].
    destruct (split_facts f b0 Hwf) as (sus & lasts & n & _ & _ & _ & _ & _ & H6 & _). apply list_elem_of_lookup in Hc as Hci. destruct Hci as [i Hi].
    destruct (Forall2_lookup_l _ _ _ _ _ H6 Hi) as (l' & _ & El'). rewrite El'. cbn [default from_option].
    destruct (decide (block_id c = block_id b)) as [E|Hne].
    - rewrite E in El' |- *. assert (l' = l) as -> by congruence. by rewrite !Z.eqb_refl.
    - assert (l' <> l) by (intros ->; apply Hne; f_equal; by eapply last_segment_inj).
      rewrite !(proj2 (Z.eqb_neq _ _)) by done. by apply IH. }
  induction Hps as [|p ps Hp Hps IH]; [done|]. destruct p; cbn [map remap_phi phi_moves]; try apply IH. rewrite Hsrc by exact Hp. by rewrite IH.
Qed.

(** * When every saved value is defined *)

Definition defs (is_ : list Inst) : gset VarId := ⋃ (map (fun i => opt_set (dst i)) is_).

Definition block_defs (B : Block) : gset VarId := phi_defs B ∪ defs (insts B).

Definition phi_complete (pred : BlockId) (p : Inst) : bool :=
  match p with IPhi _ entries => match phi_source pred entries with Some _ => true | None => false end | _ => false end.

(** [a b] are registers that hold a value whenever control of one call of the
    poll function reaches [b]: parameters at the entry, restored values at a
    resume block.  Then every value that a suspend saves holds one. *)
Definition saves_defined (f : IrFunction) (L : LiveIn) (a : gmap BlockId (gset VarId)) (entry : BlockId) : bool :=
  let ps : gset VarId := list_to_set (map snd (params f)) in
  bool_decide (at_block L entry ⊆ ps) && bool_decide (at_block a entry ⊆ ps) &&
  forallb (fun k => bool_decide (at_block a k ⊆ at_block L k)) (resume_states (split_of f)) &&
  forallb (fun B =>
    let have := at_block a (block_id B) ∪ block_defs B in
    forallb (fun s => bool_decide (at_block a s ⊆ have) &&
      forallb (fun C => negb (block_id C =? s) || forallb (phi_complete (block_id B)) (phis C)) (split_cfg f)) (successors (terminator B)) &&
    forallb (fun sr => negb (sr.1 =? block_id B) || bool_decide (list_to_set (saved_vars L sr.2) ⊆ have)) (suspend_resume (split_of f)))
    (split_cfg f).

Record saves_facts (f : IrFunction) (L : LiveIn) (a : gmap BlockId (gset VarId)) (entry : BlockId) : Prop := {
  sd_live : at_block L entry ⊆ list_to_set (map snd (params f));
  sd_entry : at_block a entry ⊆ list_to_set (map snd (params f));
  sd_resume k : k ∈ resume_states (split_of f) -> at_block a k ⊆ at_block L k;
  sd_edge B s : B ∈ split_cfg f -> s ∈ successors (terminator B) -> at_block a s ⊆ at_block a (block_id B) ∪ block_defs B;
  sd_phis B s C p : B ∈ split_cfg f -> s ∈ successors (terminator B) -> C ∈ split_cfg f -> block_id C = s -> p ∈ phis C -> phi_complete (block_id B) p = true;
  sd_saved B rid v : B ∈ split_cfg f -> (block_id B, rid) ∈ suspend_resume (split_of f) -> v ∈ saved_vars L rid -> v ∈ at_block a (block_id B) ∪ block_defs B
}.

Lemma saves_defined_spec f L a entry : saves_defined f L a entry = true -> saves_facts f L a entry.
Proof.
  unfold saves_defined. intros Hok. apply andb_prop in Hok as [Hok Hall]. apply andb_prop in Hok as [Hok Hres]. apply andb_prop in Hok as [H1 H2].
  apply bool_decide_eq_true in H1, H2.
  assert (HB : forall B, B ∈ split_cfg f ->
    (forall s, s ∈ successors (terminator B) -> at_block a s ⊆ at_block a (block_id B) ∪ block_defs B /\
      forall C p, C ∈ split_cfg f -> block_id C = s -> p ∈ phis C -> phi_complete (block_id B) p = true) /\
    (forall rid v, (block_id B, rid) ∈ suspend_resume (split_of f) -> v ∈ saved_vars L rid -> v ∈ at_block a (block_id B) ∪ block_defs B)).
  { intros B HB. pose proof (forallb_elem _ _ B Hall HB) as HbB. cbn beta zeta in HbB. apply andb_prop in HbB as [He Hs]. split.
    - intros s Hin. pose proof (forallb_elem _ _ s He Hin) as Hes. cbn beta in Hes. apply andb_prop in Hes as [Hes Hp].
      apply bool_decide_eq_true in Hes. split; [done|]. intros C p HC E Hp'. pose proof (forallb_elem _ _ C Hp HC) as HCp. cbn beta in HCp.
      rewrite E, Z.eqb_refl in HCp. by apply (forallb_elem _ (phis C)).
    - intros rid v Hin Hv. pose proof (forallb_elem _ _ _ Hs Hin) as Hsr. cbn [fst snd] in Hsr. rewrite Z.eqb_refl in Hsr. cbn in Hsr.
      apply bool_decide_eq_true in Hsr. apply Hsr. by apply elem_of_list_to_set. }
  split; try done.
  - intros k Hk. pose proof (forallb_elem _ _ k Hres Hk) as Hk'. by apply bool_decide_eq_true in Hk'.
  - intros B s HB' Hs. by apply (HB B HB').
  - intros B s C p HB' Hs HC E Hp. by eapply (HB B HB').
  - intros B rid v HB' Hr Hv. by eapply (HB B HB').
Qed.

(** * One call of the poll function *)

Section Simulation.
Context {V H R : Type} {SH : SsaHost V H R} {AH : AsyncHost V H R}.
Abbreviation regs := (gmap VarId V).
Abbreviation SM := (CljxStateMachine V).

Context (f : IrFunction) (b0 : Block) (Hwf : well_formed_async f b0) (L : LiveIn).

(** In strict mode, every saved value is known to be defined. *)
Context (strict : bool) (a : gmap BlockId (gset VarId)).
Context (Hstrict : strict = true -> saves_facts f L a (block_id b0)) (HL : live_fixpoint (split_cfg f) L).

Local Abbreviation t := (table_of f L).
Local Abbreviation F := (poll_fn (lowered f L (block_id b0))).
Local Abbreviation seg_of := (last_segment (split_of f)).

Lemma lookup_final B : B ∈ new_blocks (split_of f) -> lookup_block F (block_id B) = Some (final_block f L (block_id b0) B).
Proof.
  intros HB. assert (Hids : NoDup (ids F)).
  { unfold ids. cbn [poll_fn lowered blocks]. rewrite map_map. destruct (split_facts f b0 Hwf) as (_ & _ & _ & _ & Hnd & _). exact Hnd. }
  apply lookup_block_Some; [done|]. split; [|done]. cbn [poll_fn lowered blocks]. apply list_elem_of_fmap. by exists B.
Qed.

(** The end of a block of the poll function. *)
Definition rest_of (n : nat) (cid : BlockId) (term : Terminator) (rem : list Inst) (rp : regs) (hs : H * SM) : option PollEnd :=
  match run_seq rem rp hs with
  | inl e => Some e
  | inr (rp', hs') =>
      match term with
      | Return v => Some (match rp' !! v with None => PollStop undefined | Some x => ret x hs' end)
      | Unreachable => Some (unreachable hs')
      | Jump s => run_cfg F n s (cid, rp', hs')
      | Branch c s e =>
          match rp' !! c with
          | None => Some (PollStop undefined)
          | Some x => run_cfg F n (if truth x then s else e) (cid, rp', hs')
          end
      | RecurJump s _ => run_cfg F n s (cid, rp', hs')
      end
  end.

Lemma run_cfg_final n C prev rp hs :
  C ∈ new_blocks (split_of f) ->
  run_cfg F (S n) (block_id C) (prev, rp, hs) =
  match enter prev (phis (final_block f L (block_id b0) C)) rp with
  | None => Some (PollStop undefined)
  | Some rp' => rest_of n (block_id C) (terminator C) (insts (final_block f L (block_id b0) C)) rp' hs
  end.
Proof.
  intros HC. cbn [run_cfg]. rewrite lookup_final by done. cbn [mbind option_bind]. unfold run_body. cbn [ssa_machine fst snd]. unfold rest_of.
  destruct (enter prev _ rp) as [rp'|]; [|done]. destruct (run_seq _ rp' hs) as [e|[rp'' hs']]; [done|].
  cbn [final_block with_insts remap_block terminator block_id]. destruct (terminator C); try done. unfold test. cbn.
  destruct (rp'' !! cond) as [x|]; [|done]. by destruct (truth x).
Qed.

Lemma run_seq_app is1 is2 (rp : regs) (hs : H * SM) :
  run_seq (is1 ++ is2) rp hs = match run_seq is1 rp hs with inl e => inl e | inr (rp', hs') => run_seq is2 rp' hs' end.
Proof.
  revert rp hs. induction is1 as [|i is1 IH]; intros rp hs; [done|]. cbn [run_seq app]. destruct (read_all rp (uses i)); [|done].
  destruct (exec i l hs) as [|[x hs']]; [done|apply IH].
Qed.

Lemma rest_of_app n cid term is1 is2 rp hs rp' hs' :
  run_seq is1 rp hs = inr (rp', hs') -> rest_of n cid term (is1 ++ is2) rp hs = rest_of n cid term is2 rp' hs'.
Proof. intros E. unfold rest_of. by rewrite run_seq_app, E. Qed.

(** Registers that the rest of a segment reads, and those it must still save. *)
Definition good (B : Block) (rem : list Inst) (rp : regs) : Prop :=
  strict = true ->
  live_before rem (live_out (index_blocks (split_cfg f)) L B) ⊆ dom rp /\ at_block a (block_id B) ∪ block_defs B ⊆ dom rp ∪ defs rem.

Lemma good_read B i rem rp : good B (i :: rem) rp -> strict = true -> is_Some (read_all rp (uses i)).
Proof. intros Hg Hs. apply read_defined. intros u Hu. destruct (Hg Hs) as [Hl _]. cbn in Hl. set_solver. Qed.

Lemma good_step B i rem rp x : good B (i :: rem) rp -> good B rem (set_dst i x rp).
Proof.
  intros Hg Hs. destruct (Hg Hs) as [Hl Hd]. cbn in Hl. unfold defs in *. cbn in Hd. rewrite set_dst_dom.
  destruct (dst i) as [d|]; cbn in *; [|set_solver]. split; [|set_solver]. intros v Hv. destruct (decide (v = d)); set_solver.
Qed.

Lemma run_until_plain (b : Block) i is_ r h :
  is_await i = false ->
  run_until b (i :: is_) r h =
  match read_all r (uses i) with
  | None => inl (Ended undefined)
  | Some xs => match exec i xs h with inl res => inl (Ended res) | inr (x, h') => run_until b is_ (set_dst i x r) h' end
  end.
Proof. intros Hi. cbn [run_until]. destruct (read_all r (uses i)) as [xs|]; [|done]. by destruct i. Qed.

Lemma poll_exec_plain i xs h (sm : SM) :
  machine_inst i = false ->
  exec (SsaHost := poll_host) i xs (h, sm) = match exec i xs h with inl r => inl (PollStop r) | inr (x, h') => inr (x, (h', sm)) end.
Proof. intros Hi. cbn. by destruct i. Qed.

(** The instructions up to the next await. *)
Lemma seg_step B b seg rem rest rp r h (sm : SM) :
  Forall (fun i => is_await i = false /\ machine_inst i = false) seg -> rp ⊆ r -> good B (seg ++ rem) rp ->
  (strict = false /\ run_seq seg rp (h, sm) = inl (PollStop undefined)) \/
  (exists res, run_seq seg rp (h, sm) = inl (PollStop res) /\ run_until b (seg ++ rest) r h = inl (Ended res)) \/
  (exists rp' r' h', run_seq seg rp (h, sm) = inr (rp', (h', sm)) /\ run_until b (seg ++ rest) r h = run_until b rest r' h' /\
    rp' ⊆ r' /\ good B rem rp').
Proof.
  revert rp r h. induction seg as [|i seg IH]; intros rp r h Hp Hsub Hg; [right; right; by exists rp, r, h|].
  apply Forall_cons in Hp as [[Ha Hm] Hp]. cbn [app] in Hg |- *. rewrite run_until_plain by done. cbn [run_seq].
  destruct (read_all rp (uses i)) as [xs|] eqn:Hx.
  2:{ left. split; [|done]. apply not_true_is_false. intros Es. destruct (good_read _ _ _ _ Hg Es). congruence. }
  rewrite (read_all_sub rp r _ _ Hsub Hx), poll_exec_plain by done. destruct (exec i xs h) as [res|[x h']]; [right; left; by exists res|].
  apply IH; [done|by apply set_dst_sub|]. by apply (good_step _ _ _ _ x) in Hg.
Qed.

(** Saving. *)
Lemma slot_lt v : is_Some (slots t !! v) -> (Z.to_nat (slot t v) < Z.to_nat (next_slot t))%nat.
Proof.
  intros [s Hs]. unfold slot. rewrite Hs. cbn. destruct (table_facts f b0 Hwf L) as ([Hn Hr _] & _). apply Hr in Hs. lia.
Qed.

Lemma slot_inj v w : is_Some (slots t !! v) -> is_Some (slots t !! w) -> Z.to_nat (slot t v) = Z.to_nat (slot t w) -> v = w.
Proof.
  intros [s Hs] [s' Hs']. unfold slot. rewrite Hs, Hs'. cbn. destruct (table_facts f b0 Hwf L) as ([Hn Hr Hi] & _). intros E.
  apply (Hi v w s); [done|]. apply Hr in Hs as ?. apply Hr in Hs' as ?. rewrite Hs'. f_equal. lia.
Qed.

Lemma run_stores vs (rp : regs) h (sm : SM) :
  (forall v, v ∈ vs -> is_Some (slots t !! v)) -> (Z.to_nat (next_slot t) <= length (sm_slots sm))%nat ->
  (exists v, v ∈ vs /\ rp !! v = None /\ run_seq (stores_of t vs) rp (h, sm) = inl (PollStop undefined)) \/
  (exists sm', run_seq (stores_of t vs) rp (h, sm) = inr (rp, (h, sm')) /\ length (sm_slots sm') = length (sm_slots sm) /\
    (forall v, v ∈ vs -> is_Some (rp !! v) /\ sm_slots sm' !! Z.to_nat (slot t v) = rp !! v) /\
    (forall k, (forall v, v ∈ vs -> Z.to_nat (slot t v) <> k) -> sm_slots sm' !! k = sm_slots sm !! k)).
Proof.
  revert sm. induction vs as [|v vs IH]; intros sm Hv Hlen.
  { right. exists sm. split_and!; try done. intros v Hin%elem_of_nil. done. }
  assert (Hvs : is_Some (slots t !! v)) by (apply Hv, elem_of_cons; by left). cbn [stores_of map run_seq uses]. unfold read_all. cbn [mapM].
  destruct (rp !! v) as [x|] eqn:Ex; [|left; exists v; split_and!; [apply elem_of_cons; by left|done|done]]. cbn.
  unfold rt_state_store. pose proof (slot_lt v Hvs). destruct (lookup_lt_is_Some_2 (sm_slots sm) (Z.to_nat (slot t v)) ltac:(lia)) as [y ->].
  set (sm1 := mkStateMachine _ _ _). destruct (IH sm1) as [(w & Hw & E & Hrun)|(sm' & Hrun & Hl & Hin & Hout)].
  { intros w Hw. apply Hv, elem_of_cons. by right. }
  { cbn. by rewrite length_insert. }
  - left. exists w. split_and!; [apply elem_of_cons; by right|done|exact Hrun].
  - right. exists sm'. split_and!; [exact Hrun|rewrite Hl; cbn; by rewrite length_insert| |].
    + intros w Hw. destruct (decide (w ∈ vs)) as [Hw'|Hw']; [by apply Hin|]. apply elem_of_cons in Hw as [->|Hw]; [|done]. rewrite Ex. split; [eauto|].
      rewrite Hout; [cbn; apply list_lookup_insert_eq; lia|]. intros u Hu E. apply Hw'. rewrite <- (slot_inj u v); [done| |done|done]. apply Hv, elem_of_cons. by right.
    + intros k Hk. rewrite Hout by (intros u Hu; apply Hk, elem_of_cons; by right). cbn. apply list_lookup_insert_ne. apply Hk, elem_of_cons. by left.
Qed.

(** Restoring. *)
Lemma run_loads vs (rp r : regs) h (sm : SM) :
  (forall v, v ∈ vs -> exists x, sm_slots sm !! Z.to_nat (slot t v) = Some x /\ r !! v = Some x) -> rp ⊆ r ->
  exists rp', run_seq (loads_of t vs) rp (h, sm) = inr (rp', (h, sm)) /\ rp' ⊆ r /\ dom rp' = list_to_set vs ∪ dom rp.
Proof.
  revert rp. induction vs as [|v vs IH]; intros rp Hv Hsub; [exists rp; split_and!; [done|done|set_solver]|].
  destruct (Hv v ltac:(set_solver)) as (x & Hx & Hrx). cbn [loads_of map run_seq uses]. unfold read_all. cbn [mapM mret option_ret]. cbn. unfold rt_state_load. rewrite Hx.
  destruct (IH (<[v := x]> rp)) as (rp' & Hrun & Hs & Hd); [set_solver|by apply insert_subseteq_l|]. exists rp'.
  split_and!; [exact Hrun|done|]. rewrite Hd, dom_insert_L. set_solver.
Qed.

(** * The blocks of the poll function *)

Local Abbreviation ro := (resume_map f).
Local Abbreviation remap := (remap_block (last_segment (split_of f))).

Lemma remap_in B : B ∈ new_blocks (split_of f) -> remap B ∈ split_cfg f.
Proof. intros HB. apply list_elem_of_fmap. by exists B. Qed.

Lemma split_cfg_ids : NoDup (map block_id (split_cfg f)).
Proof. unfold split_cfg. rewrite map_map. destruct (split_facts f b0 Hwf) as (_ & _ & _ & _ & Hnd & _). exact Hnd. Qed.

Lemma first_block b : b ∈ blocks f -> exists C, C ∈ new_blocks (split_of f) /\ block_id C = block_id b /\ phis C = phis b.
Proof.
  intros Hb. pose proof (covers_split _ _ _ _ _ (split_covers f b0 Hwf b Hb)) as Hc.
  assert (Hp : segment_phis b (block_id b) = phis b) by (unfold segment_phis; by rewrite Z.eqb_refl).
  destruct (split_await (insts b)) as [seg [[[s d] rest]|]].
  - destruct Hc as (k & rid & HB & _). eexists. split; [exact HB|]. done.
  - destruct Hc as [HB _]. eexists. split; [exact HB|]. done.
Qed.

Lemma id_not_resume b : b ∈ blocks f -> block_id b ∉ resume_states (split_of f).
Proof. intros Hb Hr. apply (resume_ge f b0 Hwf) in Hr. apply (wa_fresh _ _ Hwf) in Hb. lia. Qed.

(** The first segment of a block other than the entry has no loads. *)
Lemma final_first b C :
  b ∈ blocks f -> block_id C = block_id b -> insts (final_block f L (block_id b0) C) =
  (if block_id b =? block_id b0 then loads_of t (map snd (params f)) else []) ++ stored t ro C.
Proof.
  intros Hb E. cbn [final_block with_insts insts]. rewrite E. f_equal. unfold loaded. destruct (table_facts f b0 Hwf L) as (_ & _ & _ & _ & T5 & _).
  by rewrite T5 by (by apply id_not_resume).
Qed.

Lemma final_resume C d is_ :
  block_id C ∈ resume_states (split_of f) -> insts C = IAsyncResume d SkAwait :: is_ -> C ∈ new_blocks (split_of f) ->
  (forall r, ro !! block_id C = Some r -> is_ <> []) ->
  insts (final_block f L (block_id b0) C) = IAsyncResume d SkAwait :: loads_of t (saved_vars L (block_id C)) ++ drop 1 (stored t ro C).
Proof.
  intros Hr Hi HC Hne. cbn [final_block with_insts insts]. destruct (table_facts f b0 Hwf L) as (_ & _ & _ & T4 & _).
  assert (Hent : block_id C <> block_id b0).
  { intros E. rewrite E in Hr. apply id_not_resume in Hr; [done|]. destruct (wa_entry _ _ Hwf) as [rest ->]. apply elem_of_cons. by left. }
  rewrite (proj2 (Z.eqb_neq _ _) Hent), app_nil_l. unfold loaded. rewrite T4 by done.
  assert (Ht : take 1 (stored t ro C) = [IAsyncResume d SkAwait]); [|by rewrite Ht].
  unfold stored. rewrite Hi. destruct (ro !! block_id C) as [r|] eqn:Er; [|done]. destruct is_ as [|i is_]; [by destruct (Hne r)|]. done.
Qed.

Lemma stored_last b l C : b ∈ blocks f -> last_segment (split_of f) !! block_id b = Some l -> block_id C = l -> stored t ro C = insts C.
Proof. intros Hb Hl E. unfold stored. by rewrite E, (resume_map_last f b0 Hwf b l). Qed.

Lemma stored_suspend C rid pre i :
  (block_id C, rid) ∈ suspend_resume (split_of f) -> insts C = pre ++ [i] -> stored t ro C = pre ++ stores_of t (saved_vars L rid) ++ [i].
Proof.
  intros Hs Hi. unfold stored. rewrite (resume_map_suspend f b0 Hwf _ _ Hs). destruct (table_facts f b0 Hwf L) as (_ & _ & _ & T4 & _).
  rewrite T4 by (apply (resumes_fresh f b0 Hwf), list_elem_of_fmap; by exists (block_id C, rid)). cbn [default].
  rewrite Hi, length_app. cbn [length]. rewrite Nat.add_1_r. cbn [pred]. by rewrite take_app_length, drop_app_length.
Qed.

Lemma phi_moves_operands l ps v : v ∈ map snd (phi_moves l ps) -> v ∈ phi_operands l ps.
Proof.
  induction ps as [|p ps IH]; [done|]. unfold phi_operands. cbn. intros Hv. apply elem_of_app. destruct p; try (right; by apply IH). cbn in Hv.
  unfold phi_source in Hv. destruct (find _ entries) as [e|] eqn:Ef; [|right; by apply IH]. cbn in Hv. apply elem_of_cons in Hv as [->|Hv]; [|right; by apply IH].
  left. apply find_some in Ef as [Hin He]. apply list_elem_of_fmap. exists e. split; [done|]. apply list_elem_of_filter. split; [by apply Z.eqb_eq|by apply list_elem_of_In].
Qed.

Lemma phi_moves_defs l ps : (forall p, p ∈ ps -> phi_complete l p = true) -> ⋃ (map (fun p => opt_set (dst p)) ps) ⊆ (list_to_set (map fst (phi_moves l ps)) : gset VarId).
Proof.
  induction ps as [|p ps IH]; intros Hp; [done|]. cbn. specialize (IH ltac:(set_solver)). specialize (Hp p ltac:(set_solver)).
  destruct p; try done. cbn in *. destruct (phi_source l entries); [|done]. cbn. set_solver.
Qed.

Lemma at_live C : C ∈ new_blocks (split_of f) ->
  at_block L (block_id C) = live_before (insts C) (live_out (index_blocks (split_cfg f)) L (remap C)) ∖ phi_defs (remap C).
Proof. intros HC. unfold at_block. change (block_id C) with (block_id (remap C)). rewrite (HL (remap C)) by (by apply remap_in). done. Qed.

(** * Running both *)

Definition slots_len (sm : SM) : Prop := (Z.to_nat (next_slot t) <= length (sm_slots sm))%nat.

(** A parked task: the state machine holds what the rest of the function needs. *)
Definition parked (v : V) (d : VarId) (b : Block) (rest : list Inst) (r : regs) (sm : SM) : Prop :=
  sm_pending sm = v /\ b ∈ blocks f /\ (forall i, i ∈ rest -> i ∈ insts b) /\ slots_len sm /\
  exists rid, 1 <= sm_state sm /\ resume_states (split_of f) !! Z.to_nat (sm_state sm - 1) = Some rid /\
    covers (split_of f) b rest rid [IAsyncResume d SkAwait] /\
    forall w, w ∈ saved_vars L rid -> exists x, sm_slots sm !! Z.to_nat (slot t w) = Some x /\ r !! w = Some x.

Definition matches (p : Pause) (e : PollEnd) : Prop :=
  match p with
  | Ended res => CompiledAsyncTask_poll e = TaskReady res
  | Awaiting v d b rest r h => exists sm, e = PollCode POLL_PENDING sm h /\ parked v d b rest r sm
  end.

Definition related (src : option Pause) (pol : option PollEnd) : Prop :=
  (strict = false /\ pol = Some (PollStop undefined)) \/
  match src, pol with
  | None, None => True
  | Some p, Some e => matches p e
  | _, _ => False
  end.

Definition simulates (n : nat) : Prop := forall b is_ cid cur rp r h sm B,
  b ∈ blocks f -> (forall i, i ∈ is_ -> i ∈ insts b) -> covers (split_of f) b is_ cid cur ->
  B ∈ new_blocks (split_of f) -> block_id B = cid -> rp ⊆ r -> slots_len sm -> good (remap B) (drop (length cur) (insts B)) rp ->
  related (run_from n f b is_ r h) (rest_of n cid (terminator B) (drop (length cur) (stored t ro B)) rp (h, sm)).

Lemma goto_sim n b B s rp r h sm :
  (forall m, n = S m -> simulates m) -> b ∈ blocks f -> B ∈ new_blocks (split_of f) -> last_segment (split_of f) !! block_id b = Some (block_id B) ->
  terminator B = terminator b -> s ∈ successors (terminator b) -> rp ⊆ r -> slots_len sm -> good (remap B) [] rp ->
  related (run_block n f (block_id b) s r h) (run_cfg F n s (block_id B, rp, (h, sm))).
Proof.
  intros IH Hb HB Hl Hterm Hs Hsub Hlen Hg. destruct n as [|n]; [by right|].
  destruct (wa_targets _ _ Hwf b s Hb Hs) as [Hsid Hne]. apply list_elem_of_fmap in Hsid as (blk & -> & Hblk).
  destruct (first_block blk Hblk) as (C & HC & EC & HpC). rewrite <- EC, run_cfg_final by done. rewrite EC. cbn [run_block].
  rewrite (lookup_block_in f blk (wa_ids _ _ Hwf) Hblk). cbn [mbind option_bind].
  assert (Hps : Forall (fun p => preds_in (ids f) p = true) (phis blk)) by (apply Forall_forall; intros p; by apply (wa_preds _ _ Hwf blk)).
  assert (Hmoves : phi_moves (block_id B) (phis (remap C)) = phi_moves (block_id b) (phis blk)).
  { cbn [remap_block phis]. rewrite HpC. by apply (phi_moves_remap f b0). }
  assert (Hent : enter (block_id B) (phis (final_block f L (block_id b0) C)) rp = enter (block_id b) (phis blk) rp).
  { unfold enter. change (phis (final_block f L (block_id b0) C)) with (phis (remap C)). by rewrite Hmoves. }
  rewrite Hent. assert (Hlive : strict = true -> at_block L (block_id C) ∖ phi_defs (remap C) ⊆ dom rp /\ forall v, v ∈ phi_operands (block_id B) (phis (remap C)) -> v ∈ dom rp).
  { intros Hst. destruct (Hg Hst) as [Ho _]. cbn [live_before foldr] in Ho.
    assert (He : edge_live (index_blocks (split_cfg f)) L (block_id B) (block_id C) ⊆ dom rp).
    { etrans; [|exact Ho]. unfold live_out. apply union_subseteq_l'. change (block_id (remap B)) with (block_id B). apply union_map_elem. cbn [remap_block terminator]. by rewrite Hterm, EC. }
    unfold edge_live in He. rewrite (proj2 (index_blocks_Some _ (block_id C) (remap C) split_cfg_ids)) in He by (split; [by apply remap_in|done]). cbn in He. split; set_solver. }
  destruct (enter (block_id b) (phis blk) rp) as [rp'|] eqn:Ee.
  - destruct (enter_sub _ _ _ r _ Hsub Ee) as (r' & -> & Hsub'). rewrite (final_first blk) by done.
    rewrite (proj2 (Z.eqb_neq (block_id blk) _) Hne), app_nil_l.
    apply (IH n eq_refl blk (insts blk) (block_id blk) []); try done; [by apply (split_covers f b0)|]. cbn [length drop]. intros Hst. destruct (Hlive Hst) as [Hlv _].
    destruct (Hg Hst) as [_ Ha]. pose proof (Hstrict Hst) as Hsf.
    assert (Hs' : block_id blk ∈ successors (terminator (remap B))) by (cbn [remap_block terminator]; by rewrite Hterm).
    pose proof (sd_edge _ _ _ _ Hsf (remap B) _ (remap_in B HB) Hs') as Hedge.
    assert (Hdefs : phi_defs (remap C) ⊆ dom rp').
    { rewrite (enter_dom _ _ _ _ Ee), <- Hmoves. apply union_subseteq_l', phi_moves_defs. intros p Hp.
      by apply (sd_phis _ _ _ _ Hsf (remap B) (block_id blk) (remap C) p (remap_in B HB) Hs' (remap_in C HC)). }
    assert (Hdom : dom rp ⊆ dom rp') by (rewrite (enter_dom _ _ _ _ Ee); set_solver).
    rewrite (at_live C HC) in Hlv. unfold defs in Ha. cbn in Ha. change (block_id (remap C)) with (block_id C). unfold block_defs. rewrite EC.
    change (insts (remap C)) with (insts C). split.
    + intros v Hv. destruct (decide (v ∈ phi_defs (remap C))); [by apply Hdefs|]. apply Hdom, Hlv. set_solver.
    + set_solver.
  - left. split; [|done]. apply not_true_is_false. intros Hst. destruct (Hlive Hst) as [_ Hops].
    destruct (enter_defined (block_id b) (phis blk) rp) as [? E]; [|congruence]. rewrite <- Hmoves. intros v Hv. by apply Hops, phi_moves_operands.
Qed.

(** The terminator of a block that awaits nothing more. *)
Lemma terminator_sim n b B rp r h sm :
  (forall m, n = S m -> simulates m) -> b ∈ blocks f -> B ∈ new_blocks (split_of f) -> last_segment (split_of f) !! block_id b = Some (block_id B) ->
  terminator B = terminator b -> rp ⊆ r -> slots_len sm -> good (remap B) [] rp ->
  related (run_from n f b [] r h) (rest_of n (block_id B) (terminator B) [] rp (h, sm)).
Proof.
  intros IH Hb HB Hl Hterm Hsub Hlen Hg. unfold run_from, run_rest, rest_of. cbn [run_until run_seq].
  assert (Hgoto : forall s, s ∈ successors (terminator b) -> related (run_block n f (block_id b) s r h) (run_cfg F n s (block_id B, rp, (h, sm)))).
  { intros s Hs. by apply goto_sim. }
  assert (Hdef : forall v, v ∈ terminator_uses (terminator b) -> rp !! v = None -> strict = false).
  { intros v Hv Hn. apply not_true_is_false. intros Hst. destruct (Hg Hst) as [Ho _]. cbn in Ho. unfold live_out in Ho.
    change (terminator (remap B)) with (terminator B) in Ho. rewrite Hterm in Ho. apply not_elem_of_dom in Hn. set_solver. }
  rewrite Hterm. destruct (terminator b) as [s|c s e|v|s args|] eqn:Et.
  - apply Hgoto. set_solver.
  - destruct (rp !! c) as [x|] eqn:Ec; [|left; split; [apply (Hdef c); set_solver|done]].
    rewrite (lookup_weaken _ _ _ _ Ec Hsub). change (truth x) with (truth (SsaHost := SH) x). apply Hgoto. cbn. destruct (truth x); set_solver.
  - destruct (rp !! v) as [x|] eqn:Ev; [|left; split; [apply (Hdef v); set_solver|done]].
    rewrite (lookup_weaken _ _ _ _ Ev Hsub). right. done.
  - apply Hgoto. set_solver.
  - pose proof (wa_reach _ _ Hwf b Hb) as Hr. by rewrite Et in Hr.
Qed.

(** A suspend saves the live values and parks the task. *)
Lemma suspend_sim n b s d k rid rest B rp r h sm :
  b ∈ blocks f -> (forall i, i ∈ rest -> i ∈ insts b) -> B ∈ new_blocks (split_of f) -> 1 <= k -> resume_states (split_of f) !! Z.to_nat (k - 1) = Some rid ->
  (block_id B, rid) ∈ suspend_resume (split_of f) -> covers (split_of f) b rest rid [IAsyncResume d SkAwait] ->
  rp ⊆ r -> slots_len sm -> good (remap B) [IAsyncSuspend SkAwait [s] k] rp ->
  related (run_from n f b (IAwait s d :: rest) r h)
    (rest_of n (block_id B) (terminator B) (stores_of t (saved_vars L rid) ++ [IAsyncSuspend SkAwait [s] k]) rp (h, sm)).
Proof.
  intros Hb Hrest HB Hk Hr Hsr Hcov Hsub Hlen Hg. destruct (table_facts f b0 Hwf L) as (_ & _ & _ & _ & _ & T6).
  destruct (run_stores (saved_vars L rid) rp h sm) as [(v & Hv & Hn & Hrun)|(sm' & Hrun & Hl & Hin & _)]; [| done | |].
  - intros v. apply (T6 rid). by eapply list_elem_of_lookup_2.
  - left. split; [|unfold rest_of; by rewrite run_seq_app, Hrun]. apply not_true_is_false. intros Hst. destruct (Hg Hst) as [_ Hd].
    pose proof (sd_saved _ _ _ _ (Hstrict Hst) (remap B) rid v (remap_in B HB) Hsr Hv) as Hv'. apply Hd in Hv'. apply not_elem_of_dom in Hn. unfold defs in Hv'. cbn in Hv'. set_solver.
  - rewrite (rest_of_app _ _ _ _ _ _ _ _ _ Hrun). unfold rest_of, run_from, run_rest. cbn [run_seq run_until uses]. unfold read_all. cbn [mapM].
    destruct (rp !! s) as [v|] eqn:Es.
    2:{ left. split; [|done]. apply not_true_is_false. intros Hst. destruct (Hg Hst) as [Ho _]. cbn in Ho. apply not_elem_of_dom in Es. set_solver. }
    rewrite (lookup_weaken _ _ _ _ Es Hsub). right. cbn. eexists. split; [done|]. unfold parked. cbn. split_and!; try done.
    + unfold slots_len in *. cbn. by rewrite Hl.
    + exists rid. split_and!; try done. intros w Hw. destruct (Hin w Hw) as [[x Hx] E]. exists x. rewrite E. split; [done|]. by apply (lookup_weaken rp).
Qed.

Lemma sim n : simulates n.
Proof.
  induction n as [n IHn] using (well_founded_induction lt_wf). unfold simulates. intros b is_ cid cur rp r h sm B Hb His Hcov HB Hid Hsub Hlen Hg.
  pose proof (covers_split _ _ _ _ _ Hcov) as Hc. pose proof (split_await_app is_) as Happ. pose proof (split_await_plain is_) as Hplain.
  destruct (split_await is_) as [seg o]. cbn [fst snd] in Happ, Hplain.
  assert (Hseg : Forall (fun i => is_await i = false /\ machine_inst i = false) seg).
  { apply Forall_forall. intros i Hi. split; [by apply (proj1 (Forall_forall _ _) Hplain)|]. apply (wa_insts _ _ Hwf b); [done|]. apply His. rewrite Happ. set_solver. }
  assert (IH : forall m, n = S m -> simulates m) by (intros m ->; apply IHn; lia). subst cid.
  assert (Huse : forall sfx rest stx, is_ = seg ++ rest -> drop (length cur) (insts B) = seg ++ sfx -> drop (length cur) (stored t ro B) = seg ++ stx ->
    (forall rp' r' h', rp' ⊆ r' -> good (remap B) sfx rp' -> related (run_from n f b rest r' h') (rest_of n (block_id B) (terminator B) stx rp' (h', sm))) ->
    related (run_from n f b is_ r h) (rest_of n (block_id B) (terminator B) (drop (length cur) (stored t ro B)) rp (h, sm))).
  { intros sfx rest stx E1 E2 E3 Hk. rewrite E2 in Hg. rewrite E3, E1.
    destruct (seg_step (remap B) b seg sfx rest rp r h sm Hseg Hsub Hg) as [[Hf Hrun]|[(res & Hrun & Hu)|(rp' & r' & h' & Hrun & Hu & Hsub' & Hg')]].
    - left. split; [done|]. unfold rest_of. by rewrite run_seq_app, Hrun.
    - right. unfold run_from, run_rest, rest_of. rewrite Hu, run_seq_app, Hrun. done.
    - rewrite (rest_of_app _ _ _ _ _ _ _ _ _ Hrun). unfold run_from, run_rest. rewrite Hu. by apply Hk. }
  destruct o as [[[s d] rest]|].
  - destruct Hc as (k & rid & HB' & Hk & Hr & Hsr & Hcov'). apply (new_block_unique f b0 Hwf _ _ HB) in HB'; [|done].
    assert (Ei : insts B = (cur ++ seg) ++ [IAsyncSuspend SkAwait [s] k]) by (by rewrite HB').
    eapply (Huse [IAsyncSuspend SkAwait [s] k] (IAwait s d :: rest) (stores_of t (saved_vars L rid) ++ [IAsyncSuspend SkAwait [s] k])); [done| | |].
    + by rewrite Ei, <- app_assoc, drop_app_length.
    + rewrite (stored_suspend B rid _ _ Hsr Ei), <- app_assoc. by rewrite drop_app_length.
    + intros rp' r' h' Hsub' Hg'. apply suspend_sim; try done. intros i Hi. apply His. rewrite Happ. set_solver.
  - destruct Hc as [HB' Hl]. apply (new_block_unique f b0 Hwf _ _ HB) in HB'; [|done].
    assert (Ei : insts B = cur ++ seg) by (by rewrite HB').
    eapply (Huse [] [] []); [done| | |].
    + by rewrite Ei, drop_app_length, app_nil_r.
    + by rewrite (stored_last b (block_id B)), Ei, drop_app_length, app_nil_r.
    + intros rp' r' h' Hsub' Hg'. apply terminator_sim; try done. by rewrite HB'.
Qed.

(** * Starting and resuming *)

Lemma dispatch_resume k rid : 1 <= k -> resume_states (split_of f) !! Z.to_nat (k - 1) = Some rid -> dispatch F k = rid.
Proof.
  intros Hk Hr. unfold dispatch. cbn [poll_fn lowered async_resume_blocks]. pose proof (lookup_lt_Some _ _ _ Hr). rewrite bool_decide_true by (cbn [length]; lia).
  assert (E : (block_id b0 :: resume_states (split_of f)) !! Z.to_nat k = Some rid); [|by rewrite E].
  replace (Z.to_nat k) with (S (Z.to_nat (k - 1))) by lia. exact Hr.
Qed.

Lemma resume_poll n v d b rest r sm h :
  parked v d b rest r sm ->
  match check_ready v h with
  | (Pending, h') => poll (S n) F sm h = Some (PollCode POLL_PENDING sm h')
  | (Failed e, h') => poll (S n) F sm h = Some (PollCode POLL_THREW (rt_async_register sm e) h')
  | (GasExhausted, h') => poll (S n) F sm h = Some (PollCode POLL_GAS_EXHAUSTED sm h')
  | (Ready x, h') => related (run_from n f b rest (<[d := x]> r) h') (poll (S n) F sm h)
  end.
Proof.
  intros (Hpend & Hb & Hrest & Hlen & rid & Hk & Hr & Hcov & Hslots). unfold poll. rewrite (dispatch_resume _ _ Hk Hr).
  assert (Hres : rid ∈ resume_states (split_of f)) by (by eapply list_elem_of_lookup_2).
  assert (HC : exists C is_, C ∈ new_blocks (split_of f) /\ block_id C = rid /\ insts C = IAsyncResume d SkAwait :: is_ /\ phis C = [] /\
    (forall q, ro !! block_id C = Some q -> is_ <> [])).
  { assert (Hp : segment_phis b rid = []).
    { unfold segment_phis. destruct (Z.eqb_spec rid (block_id b)) as [E|]; [|done]. rewrite E in Hres. by destruct (id_not_resume b Hb). }
    pose proof (covers_split _ _ _ _ _ Hcov) as Hc. destruct (split_await rest) as [seg [[[s d'] rest']|]].
    - destruct Hc as (k' & rid' & HB & _). exists (mkBlock rid (segment_phis b rid) (([IAsyncResume d SkAwait] ++ seg) ++ [IAsyncSuspend SkAwait [s] k']) Unreachable), (seg ++ [IAsyncSuspend SkAwait [s] k']).
      split_and!; try done. cbn. intros q _. by destruct seg.
    - destruct Hc as [HB Hl]. exists (mkBlock rid (segment_phis b rid) ([IAsyncResume d SkAwait] ++ seg) (terminator b)), seg. split_and!; try done. cbn. intros q Hq. by rewrite (resume_map_last f b0 Hwf b rid) in Hq. }
  destruct HC as (C & is_ & HC & EC & Hi & Hp & Hne). rewrite <- EC, run_cfg_final by done.
  change (phis (final_block f L (block_id b0) C)) with (map (remap_phi (last_segment (split_of f))) (phis C)). rewrite Hp. cbn [map]. rewrite enter_nil.
  rewrite (final_resume C d is_) by (done || by rewrite EC).
  unfold rest_of. cbn [run_seq uses]. change (read_all (∅ : regs) []) with (Some ([] : list V)). cbn [exec poll_host poll_exec].
  unfold rt_async_poll_ready. rewrite Hpend. destruct (check_ready v h) as [[|x|e|] h']; try done.
  cbn [POLL_PENDING POLL_THREW POLL_GAS_EXHAUSTED Z.eqb Pos.eqb]. cbn [rt_async_take_result rt_async_register sm_pending].
  set (sm1 := rt_async_register sm x).
  assert (Hd : d ∉ saved_vars L rid).
  { intros Hd. unfold saved_vars in Hd. rewrite merge_sort_Permutation in Hd. apply elem_of_elements in Hd. change (d ∈ at_block L rid) in Hd.
    rewrite <- EC, (at_live C HC), Hi in Hd. cbn in Hd. set_solver. }
  destruct (run_loads (saved_vars L rid) (<[d := x]> ∅) (<[d := x]> r) h' sm1) as (rp' & Hrun & Hsub & Hdom).
  { intros w Hw. destruct (Hslots w Hw) as (y & Hy & Hry). exists y. split; [done|]. rewrite lookup_insert_ne; [done|]. intros ->. done. }
  { apply insert_mono, map_empty_subseteq. }
  change (set_dst (IAsyncResume d SkAwait) x ∅) with (<[d := x]> (∅ : regs)). rewrite EC, run_seq_app, Hrun.
  change (related (run_from n f b rest (<[d := x]> r) h') (rest_of n rid (terminator C) (drop (length [IAsyncResume d SkAwait]) (stored t ro C)) rp' (h', sm1))).
  apply (sim n); try done. intros Hst. rewrite Hi. cbn [length drop]. change (block_id (remap C)) with (block_id C). rewrite EC.
  assert (Hsaved : forall w, w ∈ at_block L rid -> w ∈ dom rp').
  { intros w Hw. rewrite Hdom. apply elem_of_union_l, elem_of_list_to_set. unfold saved_vars. rewrite merge_sort_Permutation. by apply elem_of_elements. }
  assert (Hdd : d ∈ dom rp') by (rewrite Hdom, dom_insert_L; set_solver).
  assert (Hpd : phi_defs (remap C) = ∅) by (unfold phi_defs; cbn [remap_block phis]; by rewrite Hp).
  pose proof (at_live C HC) as Hlive. rewrite Hpd, Hi, EC in Hlive. cbn in Hlive. pose proof (sd_resume _ _ _ _ (Hstrict Hst) rid Hres) as Ha.
  unfold block_defs. rewrite Hpd. change (insts (remap C)) with (insts C). rewrite Hi. unfold defs. cbn [map]. cbn. split.
  - intros w Hw. destruct (decide (w = d)) as [->|Hwd]; [done|]. apply Hsaved. rewrite Hlive. set_solver.
  - intros w Hw. apply elem_of_union in Hw as [Hw|Hw]; [apply elem_of_union_l, Hsaved; by apply Ha|]. set_solver.
Qed.

Definition new_machine (args : list V) : SM := CljxStateMachine_new (Z.to_nat (n_slots (lowered f L (block_id b0)))) args.

Lemma start_poll n args h :
  length args = length (params f) ->
  related (run_from n f b0 (insts b0) (write_all (map snd (params f)) args ∅) h) (poll (S n) F (new_machine args) h).
Proof.
  intros Hargs. unfold poll. change (dispatch F (sm_state (new_machine args))) with (block_id b0).
  destruct (wa_entry _ _ Hwf) as [rest0 Hblocks]. assert (Hb0 : b0 ∈ blocks f) by (rewrite Hblocks; apply elem_of_cons; by left).
  destruct (first_block b0 Hb0) as (C & HC & EC & Hp). pose proof (run_cfg_final n C (-1) ∅ (h, new_machine args) HC) as Ecfg. rewrite EC in Ecfg. rewrite Ecfg.
  change (phis (final_block f L (block_id b0) C)) with (map (remap_phi (last_segment (split_of f))) (phis C)). rewrite Hp, (wa_phis _ _ Hwf). cbn [map].
  rewrite enter_nil, (final_first b0) by done. rewrite Z.eqb_refl.
  destruct (table_facts f b0 Hwf L) as (_ & T2 & T3 & _).
  set (r0 := write_all (map snd (params f)) args ∅).
  destruct (run_loads (map snd (params f)) ∅ r0 h (new_machine args)) as (rp' & Hrun & Hsub & Hdom).
  { intros v Hv. apply list_elem_of_fmap in Hv as (p & -> & Hpin). apply list_elem_of_lookup in Hpin as [j Hj].
    assert (Hja : (j < length args)%nat) by (rewrite Hargs; by eapply lookup_lt_Some). destruct (lookup_lt_is_Some_2 args j Hja) as [x Hx]. exists x. split.
    - assert (Hsl : slot t p.2 = Z.of_nat j) by (unfold slot; by rewrite (T3 _ _ Hj)). rewrite Hsl, Nat2Z.id. cbn. by rewrite lookup_app_l.
    - unfold r0. rewrite <- (app_nil_r (map snd (params f))), <- (app_nil_r args). apply (write_all_first _ _ _ j p.2 x); [apply (wa_params _ _ Hwf)| |done|by rewrite length_map].
      rewrite list_lookup_fmap, Hj. done. }
  { apply map_empty_subseteq. }
  rewrite (rest_of_app _ _ _ _ _ _ _ _ _ Hrun).
  apply (sim n b0 (insts b0) (block_id b0) []); try done; [by apply (split_covers f b0)| |].
  - unfold slots_len, new_machine. cbn. rewrite length_app, length_replicate. lia.
  - change (drop (length []) (insts C)) with (insts C). intros Hst. rewrite Hdom, dom_empty_L, union_empty_r_L. pose proof (Hstrict Hst) as Hsf.
    pose proof (at_live C HC) as Hlive. assert (Hpd : phi_defs (remap C) = ∅) by (unfold phi_defs; cbn [remap_block phis]; by rewrite Hp, (wa_phis _ _ Hwf)).
    rewrite Hpd, difference_empty_L, EC in Hlive. rewrite <- Hlive. change (block_id (remap C)) with (block_id C). rewrite EC. unfold block_defs. rewrite Hpd.
    split; [apply (sd_live _ _ _ _ Hsf)|]. pose proof (sd_entry _ _ _ _ Hsf). change (insts (remap C)) with (insts C). set_solver.
Qed.

(** * The task and the function *)

Lemma park_pending v h : exists reg, park v h = TaskPending reg.
Proof. unfold park. destruct (await_view v h) as [[]|[]|]; eauto. Qed.

(** What a task does after a call of its poll function. *)
Definition finishes (e : PollEnd) (res : R) : Prop :=
  CompiledAsyncTask_poll e = TaskReady res \/
  exists sm h h', e = PollCode POLL_PENDING sm h /\ idle (sm_pending sm) h h' /\ task_ends F sm h' res.

Lemma finishes_ends n sm h e res : poll n F sm h = Some e -> finishes e res -> task_ends F sm h res.
Proof.
  intros Hp [Hr|(sm' & h' & h'' & -> & Hi & Ht)]; [by eapply task_ready|].
  destruct (park_pending (sm_pending sm') h') as [reg Hreg]. by eapply task_pending.
Qed.

(** Every result of the function is a result of the task, in strict mode. *)
Lemma task_complete S res :
  strict = true -> async_ends f S res ->
  match S with
  | Running b is_ r h => forall call, (forall n, related (run_from n f b is_ r h) (call n)) -> exists n e, call n = Some e /\ finishes e res
  | Waiting v d b rest r h => forall sm, parked v d b rest r sm -> exists h', idle v h h' /\ task_ends F sm h' res
  end.
Proof.
  intros Hst Hends. induction Hends as [n b is_ r h res Hrun|n b is_ r h v d b' rest r' h' res Hrun Hw IH|v d b rest r h h1 h2 res Hi Hc Hw IH
    |v d b rest r h h1 x h2 res Hi Hc Hw IH|v d b rest r h h1 e h2 Hi Hc|v d b rest r h h1 h2 Hi Hc].
  - intros call Hrel. specialize (Hrel n). rewrite Hrun in Hrel. destruct Hrel as [[? _]|Hrel]; [congruence|].
    destruct (call n) as [e|] eqn:Ec; [|done]. exists n, e. split; [done|]. by left.
  - intros call Hrel. specialize (Hrel n). rewrite Hrun in Hrel. destruct Hrel as [[? _]|Hrel]; [congruence|].
    destruct (call n) as [e|] eqn:Ec; [|done]. destruct Hrel as (sm & -> & Hpk). destruct (IH sm Hpk) as (h1 & Hi & Ht). exists n, (PollCode POLL_PENDING sm h').
    split; [done|]. right. exists sm, h', h1. split_and!; try done. destruct Hpk as [-> _]. done.
  - intros sm Hpk. exists h1. split; [done|]. destruct (IH sm Hpk) as (h3 & Hi3 & Ht). pose proof (resume_poll 0 _ _ _ _ _ _ h1 Hpk) as Hp. rewrite Hc in Hp.
    eapply finishes_ends; [exact Hp|]. right. exists sm, h2, h3. split_and!; try done. destruct Hpk as [-> _]. done.
  - intros sm Hpk. exists h1. split; [done|]. destruct (IH (fun n => poll (1 + n) F sm h1)) as (n & e & Hp & Hfin).
    { intros n. pose proof (resume_poll n _ _ _ _ _ _ h1 Hpk) as Hp. by rewrite Hc in Hp. }
    by eapply finishes_ends.
  - intros sm Hpk. exists h1. split; [done|]. pose proof (resume_poll 0 _ _ _ _ _ _ h1 Hpk) as Hp. rewrite Hc in Hp. eapply finishes_ends; [exact Hp|]. by left.
  - intros sm Hpk. exists h1. split; [done|]. pose proof (resume_poll 0 _ _ _ _ _ _ h1 Hpk) as Hp. rewrite Hc in Hp. eapply finishes_ends; [exact Hp|]. by left.
Qed.

(** The end of a call, against the function. *)
Lemma call_sound n b is_ r h e res :
  related (run_from n f b is_ r h) (Some e) ->
  CompiledAsyncTask_poll e = TaskReady res \/
    (exists sm h', e = PollCode POLL_PENDING sm h' /\
      forall v d b' rest r', parked v d b' rest r' sm -> async_ends f (Waiting v d b' rest r' h') res \/ (strict = false /\ res = undefined)) ->
  async_ends f (Running b is_ r h) res \/ (strict = false /\ res = undefined).
Proof.
  intros [[Hs [= ->]]|Hm] He.
  - right. split; [done|]. destruct He as [[= <-]|(sm & h' & [=] & _)]. done.
  - destruct (run_from n f b is_ r h) as [[res'|v d b' rest r' h']|] eqn:Hrun; [| |done].
    + cbn in Hm. destruct He as [He|(sm & h1 & -> & _)].
      * left. apply (async_ended f n). congruence.
      * cbn in Hm. by destruct (park_pending (sm_pending sm) h1) as [reg ?]; rewrite Hm in *.
    + destruct Hm as (sm & -> & Hpk). destruct He as [He|(sm1 & h1 & [= <- <-] & Hk)].
      * cbn in He. by destruct (park_pending (sm_pending sm) h') as [reg ?]; rewrite He in *.
      * destruct (Hk _ _ _ _ _ Hpk) as [Hw|]; [left; by eapply async_awaits|by right].
Qed.

(** Every result of a parked task is a result of the function, or a register was
    not restored. *)
Lemma task_sound sm h res :
  task_ends F sm h res ->
  forall v d b rest r h0, parked v d b rest r sm -> idle v h0 h -> async_ends f (Waiting v d b rest r h0) res \/ (strict = false /\ res = undefined).
Proof.
  assert (Hstep : forall n sm h e res v d b rest r h0, poll n F sm h = Some e -> parked v d b rest r sm -> idle v h0 h ->
    CompiledAsyncTask_poll e = TaskReady res \/
    (exists sm' h', e = PollCode POLL_PENDING sm' h' /\
      forall v d b' rest r', parked v d b' rest r' sm' -> async_ends f (Waiting v d b' rest r' h') res \/ (strict = false /\ res = undefined)) ->
    async_ends f (Waiting v d b rest r h0) res \/ (strict = false /\ res = undefined)).
  { clear sm h res. intros n sm h e res v d b rest r h0 Hp Hpk Hi He. destruct n as [|n]; [done|].
    pose proof (resume_poll n _ _ _ _ _ _ h Hpk) as Hr. destruct (check_ready v h) as [[|x|ex|] h'] eqn:Hc.
    - rewrite Hr in Hp. injection Hp as <-. destruct He as [He|(sm' & h1 & [= <- <-] & Hk)].
      + cbn in He. by destruct (park_pending (sm_pending sm) h') as [reg ?]; rewrite He in *.
      + destruct (Hk _ _ _ _ _ Hpk) as [Hw|]; [left; by eapply async_pending|by right].
    - rewrite Hp in Hr. destruct (call_sound _ _ _ _ _ _ _ Hr He) as [Hrun|]; [left; by eapply async_settled|by right].
    - rewrite Hr in Hp. injection Hp as <-. destruct He as [[= <-]|(sm' & h1 & [=] & _)]. left. by eapply async_failed.
    - rewrite Hr in Hp. injection Hp as <-. destruct He as [[= <-]|(sm' & h1 & [=] & _)]. left. by eapply async_exhausted. }
  intros Ht. induction Ht as [n sm h e res Hp Hr|n sm h sm' h' reg h'' res Hp Hreg Hi Ht IH]; intros v d b rest r h0 Hpk Hi0.
  - apply (Hstep n sm h e res); auto.
  - apply (Hstep n sm h (PollCode POLL_PENDING sm' h') res); auto. right. exists sm', h'. split; [done|]. intros v' d' b' rest' r' Hpk'.
    apply (IH _ _ _ _ _ h' Hpk'). destruct Hpk' as [<- _]. done.
Qed.

Lemma task_call_sound args h res :
  length args = length (params f) -> task_ends F (new_machine args) h res -> call_ends f args h res \/ (strict = false /\ res = undefined).
Proof.
  intros Hargs Ht. destruct (wa_entry _ _ Hwf) as [rest0 Hb].
  assert (Hcall : async_ends f (Running b0 (insts b0) (write_all (map snd (params f)) args ∅) h) res \/ (strict = false /\ res = undefined)).
  { inversion Ht as [n sm h1 e res1 Hp Hr|n sm h1 sm' h' reg h'' res1 Hp Hreg Hi Ht']; subst; (destruct n as [|n]; [done|]);
      pose proof (start_poll n args h Hargs) as Hrel; rewrite Hp in Hrel; (eapply call_sound; [exact Hrel|]).
    - by left.
    - right. exists sm', h'. split; [done|]. intros v d b rest r Hpk. apply (task_sound _ _ _ Ht' _ _ _ _ _ h' Hpk). destruct Hpk as [<- _]. done. }
  destruct Hcall as [Hcall|]; [left; by exists b0, rest0|by right].
Qed.

Lemma task_call_complete args h res :
  strict = true -> length args = length (params f) -> call_ends f args h res -> task_ends F (new_machine args) h res.
Proof.
  intros Hst Hargs (b & rest & Hb & Hends). destruct (wa_entry _ _ Hwf) as [rest0 Hb']. rewrite Hb in Hb'. injection Hb' as -> ->.
  destruct (task_complete _ _ Hst Hends (fun n => poll (1 + n) F (new_machine args) h)) as (n & e & Hp & Hfin); [intros n; by apply start_poll|].
  by eapply finishes_ends.
Qed.

End Simulation.

Lemma lower_async_inv f low :
  async_ok f = true -> lower_async f = Ok low ->
  exists b0 L, well_formed_async f b0 /\ compute_live_in (E := AsyncLowerError) (split_cfg f) = Ok L /\ live_fixpoint (split_cfg f) L /\
    low = lowered f L (block_id b0).
Proof.
  intros Hok Hl. destruct (async_ok_spec f Hok) as [b0 Hwf].
  destruct (compute_live_in_ok (split_cfg f) (split_cfg_ids f b0 Hwf) (E := AsyncLowerError)) as (L & HL & Hfix).
  exists b0, L. split_and!; try done. destruct (first_unsupported (blocks f ≫= insts)) as [what|] eqn:Hu.
  - unfold lower_async, reject_unsupported in Hl. rewrite Hu in Hl. done.
  - rewrite (lower_async_eq f b0 Hwf L Hu HL) in Hl. by injection Hl as <-.
Qed.

(** C17: Lowering an asynchronous function always ends: it reports the first
    construct that is not supported, or gives a poll function; no slot is
    missing, and the live-variable analysis reaches its fixpoint. *)
Theorem lower_async_total f :
  async_ok f = true ->
  lower_async f = match first_unsupported (blocks f ≫= insts) with
                  | Some what => Err (Unsupported what)
                  | None => match compute_live_in (E := AsyncLowerError) (split_cfg f), blocks f with
                            | Ok L, b0 :: _ => Ok (lowered f L (block_id b0))
                            | _, _ => Panic
                            end
                  end /\
  lower_async f <> Panic /\ lower_async f <> OutOfFuel.
Proof.
  intros Hok. destruct (async_ok_spec f Hok) as [b0 Hwf].
  destruct (compute_live_in_ok (split_cfg f) (split_cfg_ids f b0 Hwf) (E := AsyncLowerError)) as (L & HL & _).
  destruct (wa_entry _ _ Hwf) as [rest Hb]. destruct (first_unsupported (blocks f ≫= insts)) as [what|] eqn:Hu.
  - unfold lower_async, reject_unsupported. rewrite Hu. done.
  - rewrite (lower_async_eq f b0 Hwf L Hu HL), HL, Hb. done.
Qed.

(** Every value that a suspend saves is defined, by the registers [a] that the
    blocks find defined. *)
Definition saves_ok (f : IrFunction) (a : gmap BlockId (gset VarId)) : bool :=
  match compute_live_in (E := AsyncLowerError) (split_cfg f), blocks f with
  | Ok L, b0 :: _ => saves_defined f L a (block_id b0)
  | _, _ => false
  end.

Section Theorems.
Context {V H R : Type} {SH : SsaHost V H R} {AH : AsyncHost V H R}.

(** C16: Whatever the rest of the program does while the task is parked, a task
    that runs the poll function of an asynchronous function ends only with a
    result of the function, or because it read a register that was not
    restored. *)
Theorem poll_never_wrong f low (args : list V) (h : H) (res : R) :
  async_ok f = true -> lower_async f = Ok low -> length args = length (params f) ->
  task_ends (poll_fn low) (CljxStateMachine_new (Z.to_nat (n_slots low)) args) h res ->
  call_ends f args h res \/ res = undefined.
Proof.
  intros Hok Hl Hargs Ht. destruct (lower_async_inv f low Hok Hl) as (b0 & L & Hwf & _ & Hfix & ->).
  destruct (task_call_sound f b0 Hwf L false ∅ ltac:(done) Hfix args h res Hargs Ht) as [|[_ ->]]; auto.
Qed.

(** C15: When every value that a suspend saves is defined, the task that runs the
    poll function ends with exactly the results of the function, for every
    behaviour of the rest of the program while it is parked. *)
Theorem poll_equivalent f low a (args : list V) (h : H) (res : R) :
  async_ok f = true -> lower_async f = Ok low -> saves_ok f a = true -> length args = length (params f) ->
  task_ends (poll_fn low) (CljxStateMachine_new (Z.to_nat (n_slots low)) args) h res <-> call_ends f args h res.
Proof.
  intros Hok Hl Hs Hargs. destruct (lower_async_inv f low Hok Hl) as (b0 & L & Hwf & HL & Hfix & ->).
  unfold saves_ok in Hs. rewrite HL in Hs. destruct (wa_entry _ _ Hwf) as [rest Hb]. rewrite Hb in Hs. apply saves_defined_spec in Hs. split.
  - intros Ht. by destruct (task_call_sound f b0 Hwf L true a (fun _ => Hs) Hfix args h res Hargs Ht) as [|[? _]].
  - intros Hc. by apply (task_call_complete f b0 Hwf L true a (fun _ => Hs) Hfix args h res eq_refl).
Qed.

End Theorems.

(** * A small program *)

Inductive ToyValue : Type := TvNil | TvLong (n : Z) | TvFuture (k : Z).
Inductive ToyResult : Type := TrOk (v : ToyValue) | TrThrown (v : ToyValue) | TrGas | TrCode (n : Z) | TrUndefined | TrStuck.

(** The futures that are settled. *)
Abbreviation ToyHeap := (gmap Z (FutureState ToyValue)).

#[export] Instance toy_ssa : SsaHost ToyValue ToyHeap ToyResult := {|
  exec i xs h :=
    match i, xs with
    | IConst _ (CLong n), [] => inr (TvLong n, h)
    | ICallKnown _ KAdd _, [TvLong x; TvLong y] => inr (TvLong (x + y), h)
    | ICallKnown _ KLt _, [TvLong x; TvLong y] => inr (TvLong (if x <? y then 1 else 0), h)
    | _, _ => inl TrStuck
    end;
  truth v := match v with TvNil | TvLong 0 => false | _ => true end;
  ret v h := TrOk v;
  undefined := TrUndefined;
  unreachable h := TrStuck
|}.

(** While a task is parked on future [k], another task settles it with [10 * k]. *)
#[export] Instance toy_async : AsyncHost ToyValue ToyHeap ToyResult := {|
  await_view v h := match v with TvFuture k => AwFuture (default FsRunning (h !! k)) | _ => AwOther end;
  mark_observed v h := h;
  nil_value := TvNil;
  cancelled_text := TvNil;
  thrown v h := TrThrown v;
  gas_exhausted h := TrGas;
  invalid_code n h := TrCode n;
  idle v h h' := match v with TvFuture k => h' = <[k := FsDone (TvLong (10 * k))]> h | _ => h' = h end
|}.

Definition toy_fn (ps : list VarId) (bs : list Block) (next : Z) : IrFunction :=
  mkIrFunction None (map (fun v => ([], v)) ps) bs 100 next None [] true false [] [] [].

(** [(loop [i n] (let [x (+ (await p) i)] (if (< x 100) (recur x) x)))] *)
Definition await_loop : IrFunction := toy_fn [0; 1]
  [ mkBlock 0 [] [] (Jump 1);
    mkBlock 1 [IPhi 2 [(0, 1); (1, 4)]]
      [IAwait 0 3; ICallKnown 4 KAdd [3; 2]; IConst 5 (CLong 100); ICallKnown 6 KLt [4; 5]] (Branch 6 1 2);
    mkBlock 2 [] [] (Return 4) ] 3.

Definition await_loop_low : AsyncLowering := Eval vm_compute in match lower_async await_loop with Ok low => low | _ => mkAsyncLowering await_loop 0 0 end.

Definition await_loop_regs : gmap BlockId (gset VarId) := {[0 := {[0; 1]}; 1 := {[0]}; 3 := {[0]}]}.

Lemma await_loop_call : call_ends await_loop [TvFuture 3; TvLong 60] ∅ (TrOk (TvLong 120)).
Proof.
  eexists _, _. split; [reflexivity|]. eapply (async_awaits _ 5); [vm_compute; reflexivity|].
  eapply async_settled; [reflexivity|vm_compute; reflexivity|]. eapply (async_awaits _ 5); [vm_compute; reflexivity|].
  eapply async_settled; [reflexivity|vm_compute; reflexivity|]. eapply (async_ended _ 5). vm_compute. reflexivity.
Qed.

Lemma lower_async_total_witness : lower_async await_loop <> OutOfFuel.
Proof. apply lower_async_total. vm_compute. reflexivity. Defined.

Lemma poll_equivalent_witness :
  task_ends (poll_fn await_loop_low) (CljxStateMachine_new (Z.to_nat (n_slots await_loop_low)) [TvFuture 3; TvLong 60]) ∅ (TrOk (TvLong 120)).
Proof.
  apply (poll_equivalent await_loop await_loop_low await_loop_regs [TvFuture 3; TvLong 60] ∅ (TrOk (TvLong 120)));
    [vm_compute; reflexivity|vm_compute; reflexivity|vm_compute; reflexivity|reflexivity|apply await_loop_call].
Defined.

Lemma await_loop_task :
  task_ends (poll_fn await_loop_low) (CljxStateMachine_new (Z.to_nat (n_slots await_loop_low)) [TvFuture 3; TvLong 60]) ∅ (TrOk (TvLong 120)).
Proof.
  eapply (task_pending _ 5); [vm_compute; reflexivity|vm_compute; reflexivity|reflexivity|].
  eapply (task_pending _ 5); [vm_compute; reflexivity|vm_compute; reflexivity|reflexivity|].
  eapply (task_ready _ 5); vm_compute; reflexivity.
Qed.

Lemma poll_never_wrong_witness :
  call_ends await_loop [TvFuture 3; TvLong 60] ∅ (TrOk (TvLong 120)) \/ TrOk (TvLong 120) = undefined.
Proof.
  apply (poll_never_wrong await_loop await_loop_low [TvFuture 3; TvLong 60] ∅ (TrOk (TvLong 120)));
    [vm_compute; reflexivity|vm_compute; reflexivity|reflexivity|apply await_loop_task].
Defined.

(** * A value that crosses two awaits *)

(** [(let [a (await p) b (await q)] (+ (+ a b) n))] *)
Definition two_awaits : IrFunction := toy_fn [0; 1; 2]
  [ mkBlock 0 [] [IAwait 0 3; IAwait 1 4; ICallKnown 5 KAdd [3; 4]; ICallKnown 6 KAdd [5; 2]] (Return 6) ] 1.

Definition two_awaits_low : AsyncLowering := Eval vm_compute in match lower_async two_awaits with Ok low => low | _ => mkAsyncLowering two_awaits 0 0 end.

(** The parameter [n] is read behind the second await only: it is not live into
    the first resume block, where no edge leads from the second suspend to its
    resume, so it is not restored there, and the second suspend saves a register
    that holds nothing. *)
Example value_lost_between_awaits :
  lower_async two_awaits = Ok two_awaits_low /\
  call_ends two_awaits [TvFuture 1; TvFuture 2; TvLong 5] ∅ (TrOk (TvLong 35)) /\
  task_ends (poll_fn two_awaits_low) (CljxStateMachine_new (Z.to_nat (n_slots two_awaits_low)) [TvFuture 1; TvFuture 2; TvLong 5]) ∅ undefined.
Proof.
  split_and!.
  - vm_compute. reflexivity.
  - eexists _, _. split; [reflexivity|]. eapply (async_awaits _ 5); [vm_compute; reflexivity|].
    eapply async_settled; [reflexivity|vm_compute; reflexivity|]. eapply (async_awaits _ 5); [vm_compute; reflexivity|].
    eapply async_settled; [reflexivity|vm_compute; reflexivity|]. eapply (async_ended _ 5). vm_compute. reflexivity.
  - eapply (task_pending _ 5); [vm_compute; reflexivity|vm_compute; reflexivity|reflexivity|]. eapply (task_ready _ 5); vm_compute; reflexivity.
Qed.
