(* ===== verification/Inline.v ===== *)
(** The inlining pass (crates/cljrs-ir/src/lower/inline.rs) with the tables it
    takes from the escape analysis (crates/cljrs-ir/src/lower/escape.rs):
    eligible calls of functions of the unit are replaced by their bodies.

    Hash maps are finite maps.  The counters of variables and blocks are
    unbounded ([u32] in the code).  The loop over the blocks of a function runs
    on fuel: the list it walks grows as calls are replaced. *)
From stdpp Require Import gmap.
From S2P Require Import Prelude RustStd Token Ir.
Local Open Scope Z_scope.

Abbreviation Name := (list Z).

(** * Tables of the unit *)

(** Root first, depth first. *)
Fixpoint walk_functions (root : IrFunction) : list IrFunction := root :: flat_map walk_functions (subfunctions root).

Record ClosureInfo : Type := mkClosureInfo {
  ci_arity_fn_names : list Name;
  ci_param_counts : list nat;
  ci_is_variadic : list bool
}.

Definition add_closure (m : gmap VarId ClosureInfo) (i : Inst) : gmap VarId ClosureInfo :=
  match i with
  | IAllocClosure d t _ => <[d := mkClosureInfo (arity_fn_names t) (param_counts t) (is_variadic t)]> m
  | _ => m
  end.

Definition add_defn (allocs : gmap VarId ClosureInfo) (m : gmap (Name * Name) ClosureInfo) (i : Inst) : gmap (Name * Name) ClosureInfo :=
  match i with
  | IDefVar _ ns name value =>
      match allocs !! value with
      | Some info => <[(ns, name) := info]> m
      | None => m
      end
  | _ => m
  end.

Definition block_defns (m : gmap (Name * Name) ClosureInfo) (b : Block) : gmap (Name * Name) ClosureInfo :=
  fold_left (add_defn (fold_left add_closure (insts b) ∅)) (insts b) m.

Definition build_defn_map (root : IrFunction) : gmap (Name * Name) ClosureInfo :=
  fold_left (fun m f => fold_left block_defns (blocks f) m) (walk_functions root) ∅.

Definition add_fn (m : gmap Name IrFunction) (f : IrFunction) : gmap Name IrFunction :=
  match fn_name f with
  | Some name => <[name := f]> m
  | None => m
  end.

Definition build_fn_registry (root : IrFunction) : gmap Name IrFunction := fold_left add_fn (walk_functions root) ∅.

(** * Eligibility *)

Definition INLINE_THRESHOLD : nat := 20.
Definition MAX_ROUNDS : nat := 8.

Definition instruction_count (f : IrFunction) : nat := sum_list_with (fun b => length (insts b) + length (phis b))%nat (blocks f).

Definition is_load_local (i : Inst) : bool := match i with ILoadLocal _ _ => true | _ => false end.

Definition has_load_local (f : IrFunction) : bool :=
  existsb (fun b => existsb is_load_local (insts b ++ phis b)) (blocks f).

Definition is_eligible (callee : IrFunction) (forbidden : gset Name) : bool :=
  match fn_name callee with
  | Some n => bool_decide (n ∉ forbidden)
  | None => false
  end &&
  bool_decide (subfunctions callee = []) && negb (has_load_local callee) && bool_decide (blocks callee <> []) &&
  (instruction_count callee <=? INLINE_THRESHOLD)%nat.

(** * Renaming *)

Definition rv (m : gmap VarId VarId) (v : VarId) : VarId := default v (m !! v).
Definition rb (m : gmap BlockId BlockId) (b : BlockId) : BlockId := default b (m !! b).

Definition clone_inst (vm : gmap VarId VarId) (bm : gmap BlockId BlockId) (i : Inst) : Inst :=
  match i with
  | IConst d c => IConst (rv vm d) c
  | ILoadLocal d name => ILoadLocal (rv vm d) name
  | ILoadGlobal d ns name => ILoadGlobal (rv vm d) ns name
  | ILoadVar d ns name => ILoadVar (rv vm d) ns name
  | IAllocVector d elems => IAllocVector (rv vm d) (map (rv vm) elems)
  | IAllocMap d pairs => IAllocMap (rv vm d) (map (fun p => (rv vm p.1, rv vm p.2)) pairs)
  | IAllocSet d elems => IAllocSet (rv vm d) (map (rv vm) elems)
  | IAllocList d elems => IAllocList (rv vm d) (map (rv vm) elems)
  | IAllocCons d h t => IAllocCons (rv vm d) (rv vm h) (rv vm t)
  | IAllocClosure d tmpl captures => IAllocClosure (rv vm d) tmpl (map (rv vm) captures)
  | ICallKnown d known args => ICallKnown (rv vm d) known (map (rv vm) args)
  | ICall d callee args => ICall (rv vm d) (rv vm callee) (map (rv vm) args)
  | ICallDirect d name args => ICallDirect (rv vm d) name (map (rv vm) args)
  | IDeref d src => IDeref (rv vm d) (rv vm src)
  | IDefVar d ns name val => IDefVar (rv vm d) ns name (rv vm val)
  | ISetBang var val => ISetBang (rv vm var) (rv vm val)
  | IThrow val => IThrow (rv vm val)
  | IPhi d entries => IPhi (rv vm d) (map (fun e => (rb bm e.1, rv vm e.2)) entries)
  | IRecur args => IRecur (map (rv vm) args)
  | ISourceLoc span => ISourceLoc span
  | IRegionStart d => IRegionStart (rv vm d)
  | IRegionAlloc d region kind ops => IRegionAlloc (rv vm d) (rv vm region) kind (map (rv vm) ops)
  | IRegionEnd region => IRegionEnd (rv vm region)
  | IRegionParam d => IRegionParam (rv vm d)
  | ICallWithRegion d name args region => ICallWithRegion (rv vm d) name (map (rv vm) args) (rv vm region)
  | IAwait src d => IAwait (rv vm src) (rv vm d)
  | ISpawn fn_reg args d => ISpawn (rv vm fn_reg) (map (rv vm) args) (rv vm d)
  | IChanTake chan d => IChanTake (rv vm chan) (rv vm d)
  | IChanPut chan val => IChanPut (rv vm chan) (rv vm val)
  | IStateStore slot val => IStateStore slot (rv vm val)
  | IStateLoad d slot => IStateLoad (rv vm d) slot
  | IAsyncSuspend kind operands next_state => IAsyncSuspend kind (map (rv vm) operands) next_state
  | IAsyncResume d kind => IAsyncResume (rv vm d) kind
  end.

(** A return becomes a jump to the continuation. *)
Definition clone_terminator (vm : gmap VarId VarId) (bm : gmap BlockId BlockId) (cont_block : BlockId) (t : Terminator) : Terminator :=
  match t with
  | Return _ => Jump cont_block
  | Jump b => Jump (rb bm b)
  | Branch c t e => Branch (rv vm c) (rb bm t) (rb bm e)
  | RecurJump t args => RecurJump (rb bm t) (map (rv vm) args)
  | Unreachable => Unreachable
  end.

Definition clone_block (vm : gmap VarId VarId) (bm : gmap BlockId BlockId) (cont_block : BlockId) (b : Block) : Block :=
  mkBlock (rb bm (block_id b)) (map (clone_inst vm bm) (phis b)) (map (clone_inst vm bm) (insts b))
    (clone_terminator vm bm cont_block (terminator b)).

(** * Call sites *)

(** The first arity that is not variadic and takes the arguments. *)
Definition find_arity (info : ClosureInfo) (arg_count : nat) : option Name :=
  (fun t => t.1.1) <$>
  find (fun t => (t.1.2 =? arg_count)%nat && negb t.2) (zip (zip (ci_arity_fn_names info) (ci_param_counts info)) (ci_is_variadic info)).

Definition resolve_call (callee_var : VarId) (arg_count : nat) (var_defs : gmap VarId Inst)
    (defn_map : gmap (Name * Name) ClosureInfo) (registry : gmap Name IrFunction) : option (Name * IrFunction) :=
  i ← var_defs !! callee_var;
  match i with
  | ILoadGlobal _ ns name =>
      info ← defn_map !! (ns, name);
      fn_name ← find_arity info arg_count;
      callee ← registry !! fn_name;
      Some (fn_name, callee)
  | _ => None
  end.

(** * Replacing a call *)

(** [args[i]] is out of bounds when there are more parameters than arguments. *)
Fixpoint bind_args {E : Type} (ps : list (Name * VarId)) (args : list VarId) (m : gmap VarId VarId) : outcome E (gmap VarId VarId) :=
  match ps, args with
  | [], _ => Ok m
  | (_, p) :: ps', a :: args' => bind_args ps' args' (<[p := a]> m)
  | _ :: _, [] => Panic
  end.

Definition param_map {E : Type} (ps : list (Name * VarId)) (callee_self : VarId) (args : list VarId) : outcome E (gmap VarId VarId) :=
  match ps with
  | (_, self_param) :: user_params =>
      if (length ps =? length args + 1)%nat then bind_args user_params args (<[self_param := callee_self]> ∅)
      else bind_args ps args ∅
  | [] => Ok ∅
  end.

(** [entry(dst).or_insert_with(fresh)] for the destinations of the callee. *)
Definition fresh_var (acc : gmap VarId VarId * Z) (i : Inst) : gmap VarId VarId * Z :=
  match dst i with
  | Some d =>
      match acc.1 !! d with
      | Some _ => acc
      | None => (<[d := acc.2]> acc.1, acc.2 + 1)
      end
  | None => acc
  end.

Definition block_insts (b : Block) : list Inst := phis b ++ insts b.

Definition fresh_vars_of (bs : list Block) (acc : gmap VarId VarId * Z) : gmap VarId VarId * Z :=
  fold_left (fun acc b => fold_left fresh_var (block_insts b) acc) bs acc.

Definition fresh_block (acc : gmap BlockId BlockId * Z) (b : Block) : gmap BlockId BlockId * Z :=
  (<[block_id b := acc.2]> acc.1, acc.2 + 1).

Definition return_site (vm : gmap VarId VarId) (bm : gmap BlockId BlockId) (b : Block) : list (BlockId * VarId) :=
  match terminator b with
  | Return v => [(rb bm (block_id b), rv vm v)]
  | _ => []
  end.

Definition terminator_targets (t : Terminator) : list BlockId :=
  match t with
  | Jump b => [b]
  | Branch _ t e => [t; e]
  | Return _ | RecurJump _ _ | Unreachable => []
  end.

Definition rename_pred (old new : BlockId) (i : Inst) : Inst :=
  match i with
  | IPhi d entries => IPhi d (map (fun e => (if e.1 =? old then new else e.1, e.2)) entries)
  | _ => i
  end.

Definition with_phis (g : Inst -> Inst) (b : Block) : Block := mkBlock (block_id b) (map g (phis b)) (insts b) (terminator b).

(** The first block with the id is changed. *)
Fixpoint fix_preds (old new target : BlockId) (bs : list Block) : list Block :=
  match bs with
  | [] => []
  | b :: bs' => if block_id b =? target then with_phis (rename_pred old new) b :: bs' else b :: fix_preds old new target bs'
  end.

Definition with_body (bs : list Block) (nv nb : Z) (f : IrFunction) : IrFunction :=
  mkIrFunction (fn_name f) (params f) bs nv nb (fn_span f) (subfunctions f) (is_async f) (is_async_poll_fn f)
    (async_resume_blocks f) (seed_reprs f) (local_seed_reprs f).

Definition do_inline {E : Type} (caller : IrFunction) (block_idx inst_idx : nat) (callee : IrFunction) (callee_self : VarId)
    (args : list VarId) (call_dst : VarId) : outcome E IrFunction :=
  pm ← param_map (params callee) callee_self args;
  let '(vm, nv) := fresh_vars_of (blocks callee) (pm, next_var caller) in
  let '(bm, cont_id) := fold_left fresh_block (blocks callee) (∅, next_block caller) in
  let return_sites := flat_map (return_site vm bm) (blocks callee) in
  let cloned_blocks := map (clone_block vm bm cont_id) (blocks callee) in
  match head (blocks callee), blocks caller !! block_idx with
  | Some entry, Some orig =>
      let pre := mkBlock (block_id orig) (phis orig) (take inst_idx (insts orig)) (Jump (rb bm (block_id entry))) in
      let post :=
        mkBlock cont_id (match return_sites with [] => [] | _ => [IPhi call_dst return_sites] end)
          (drop (S inst_idx) (insts orig)) (terminator orig) in
      let bs := <[block_idx := pre]> (blocks caller) ++ cloned_blocks ++ [post] in
      let bs := fold_left (fun bs t => fix_preds (block_id orig) cont_id t bs) (terminator_targets (terminator orig)) bs in
      Ok (with_body bs nv (cont_id + 1) caller)
  | _, _ => Panic
  end.

(** * The pass *)

Definition add_def (m : gmap VarId Inst) (i : Inst) : gmap VarId Inst :=
  match dst i with
  | Some d => <[d := i]> m
  | None => m
  end.

Definition build_var_defs (f : IrFunction) : gmap VarId Inst :=
  fold_left (fun m b => fold_left add_def (block_insts b) m) (blocks f) ∅.

Section Pass.
Context (registry : gmap Name IrFunction) (defn_map : gmap (Name * Name) ClosureInfo).

(** The first call of a list of instructions that can be replaced. *)
Fixpoint find_call (var_defs : gmap VarId Inst) (forbidden : gset Name) (idx : nat) (is_ : list Inst) :
    option (nat * IrFunction * VarId * list VarId * VarId) :=
  match is_ with
  | [] => None
  | ICall d callee_var args :: is' =>
      match resolve_call callee_var (length args) var_defs defn_map registry with
      | Some (_, callee) =>
          if is_eligible callee forbidden then Some (idx, callee, callee_var, args, d)
          else find_call var_defs forbidden (S idx) is'
      | None => find_call var_defs forbidden (S idx) is'
      end
  | _ :: is' => find_call var_defs forbidden (S idx) is'
  end.

Fixpoint round_loop {E : Type} (fuel : nat) (var_defs : gmap VarId Inst) (forbidden : gset Name) (block_idx : nat) (f : IrFunction)
    (changed : bool) : outcome E (IrFunction * bool) :=
  match blocks f !! block_idx with
  | None => Ok (f, changed)
  | Some b =>
      match fuel with
      | O => OutOfFuel
      | S fuel' =>
          match find_call var_defs forbidden 0 (insts b) with
          | Some (inst_idx, callee, callee_self, args, call_dst) =>
              f' ← do_inline f block_idx inst_idx callee callee_self args call_dst;
              round_loop fuel' var_defs forbidden (S block_idx) f' true
          | None => round_loop fuel' var_defs forbidden (S block_idx) f changed
          end
      end
  end.

Definition inline_one_round {E : Type} (fuel : nat) (forbidden : gset Name) (f : IrFunction) : outcome E (IrFunction * bool) :=
  round_loop fuel (build_var_defs f) forbidden 0 f false.

Fixpoint inline_rounds {E : Type} (rounds fuel : nat) (forbidden : gset Name) (f : IrFunction) : outcome E IrFunction :=
  match rounds with
  | O => Ok f
  | S rounds' =>
      '(f', changed) ← inline_one_round fuel forbidden f;
      if changed : bool then inline_rounds rounds' fuel forbidden f' else Ok f'
  end.

Definition inline_fn {E : Type} (fuel : nat) (forbidden : gset Name) (f : IrFunction) : outcome E IrFunction :=
  inline_rounds MAX_ROUNDS fuel forbidden f.

Definition own_name (f : IrFunction) : gset Name := match fn_name f with Some n => {[n]} | None => ∅ end.

Definition with_subfunctions (subs : list IrFunction) (f : IrFunction) : IrFunction :=
  mkIrFunction (fn_name f) (params f) (blocks f) (next_var f) (next_block f) (fn_span f) subs (is_async f) (is_async_poll_fn f)
    (async_resume_blocks f) (seed_reprs f) (local_seed_reprs f).

Section Subfunctions.
Context {E : Type} (rec : IrFunction -> outcome E IrFunction).

Fixpoint inline_all (fs : list IrFunction) : outcome E (list IrFunction) :=
  match fs with
  | [] => Ok []
  | g :: fs' => g' ← rec g; gs ← inline_all fs'; Ok (g' :: gs)
  end.
End Subfunctions.

(** Subfunctions first. *)
Fixpoint inline_tree {E : Type} (fuel : nat) (f : IrFunction) : outcome E IrFunction :=
  subs ← inline_all (inline_tree fuel) (subfunctions f);
  inline_fn fuel (own_name f) (with_subfunctions subs f).

End Pass.

Definition inline {E : Type} (fuel : nat) (f : IrFunction) : outcome E IrFunction :=
  inline_tree (build_fn_registry f) (build_defn_map f) fuel f.
