(* ===== verification/InlineSem.v ===== *)
(** What the functions of a unit compute when they call one another: a machine
    with a stack of frames.  Calls of values that are closures of the unit push
    a frame; every other instruction is the host's.

    Facts about replacing one call: the renaming maps, the blocks of the
    result and the phi copies on their edges. *)
From stdpp Require Import gmap.
From S2P Require Import Prelude RustStd Token Ir Reloop ReloopSem ReloopGraph IrInterp OsrSem OsrSpec Inline.
Local Open Scope Z_scope.

Section Stack.
Context {V H R : Type} {SH : SsaHost V H R}.

(** The function that calling a value with some number of arguments runs, with
    the values its closure has captured. *)
Context (closure_of : V -> nat -> option (IrFunction * list V)).

Record Frame : Type := mkFrame {
  fr_fn : IrFunction;
  fr_block : BlockId;
  fr_insts : list Inst;
  fr_term : Terminator;
  fr_regs : gmap VarId V
}.

Inductive status : Type := Running (stack : list Frame) (h : H) | Final (r : R).

(** Control enters a block from another. *)
Definition goto (f : IrFunction) (prev t : BlockId) (r : gmap VarId V) : option Frame :=
  blk ← lookup_block f t;
  r' ← enter prev (phis blk) r;
  Some (mkFrame f t (insts blk) (terminator blk) r').

(** No block has the id -1. *)
Definition no_block : BlockId := -1.

Definition start (f : IrFunction) (args : list V) : option Frame :=
  match blocks f with
  | [] => None
  | entry :: _ => goto f no_block (block_id entry) (write_all (map snd (params f)) args ∅)
  end.

(** Captured values come before the arguments. *)
Definition call_of (i : Inst) (xs : list V) : option (IrFunction * list V) :=
  match i, xs with
  | ICall _ _ _, fv :: ys =>
      match closure_of fv (length ys) with
      | Some (g, caps) => Some (g, caps ++ ys)
      | None => None
      end
  | _, _ => None
  end.

Definition resume (fr : Frame) (h : H) (stk : list Frame) (x : V) : status :=
  match fr_insts fr with
  | i :: rest => Running (mkFrame (fr_fn fr) (fr_block fr) rest (fr_term fr) (set_dst i x (fr_regs fr)) :: stk) h
  | [] => Final undefined
  end.

Definition run_or_stop (fr : option Frame) (stk : list Frame) (h : H) : status :=
  match fr with
  | Some fr => Running (fr :: stk) h
  | None => Final undefined
  end.

Definition step_inst (fr : Frame) (i : Inst) (stk : list Frame) (h : H) : status :=
  match read_all (fr_regs fr) (uses i) with
  | None => Final undefined
  | Some xs =>
      match call_of i xs with
      | Some (g, args) => run_or_stop (start g args) (fr :: stk) h
      | None =>
          match exec i xs h with
          | inl r => Final r
          | inr (x, h') => resume fr h' stk x
          end
      end
  end.

Definition step_term (fr : Frame) (stk : list Frame) (h : H) : status :=
  let jump t := run_or_stop (goto (fr_fn fr) (fr_block fr) t (fr_regs fr)) stk h in
  match fr_term fr with
  | Return v =>
      match fr_regs fr !! v with
      | None => Final undefined
      | Some x =>
          match stk with
          | [] => Final (ret x h)
          | caller :: stk' => resume caller h stk' x
          end
      end
  | Jump t => jump t
  | RecurJump t _ => jump t
  | Branch c t e =>
      match fr_regs fr !! c with
      | None => Final undefined
      | Some x => jump (if truth x then t else e)
      end
  | Unreachable => Final (unreachable h)
  end.

Definition step (stk : list Frame) (h : H) : status :=
  match stk with
  | [] => Final undefined
  | fr :: stk' =>
      match fr_insts fr with
      | i :: _ => step_inst fr i stk' h
      | [] => step_term fr stk' h
      end
  end.

Fixpoint run (n : nat) (s : status) : option R :=
  match s with
  | Final r => Some r
  | Running stk h =>
      match n with
      | O => None
      | S n' => run n' (step stk h)
      end
  end.

(** [None] if the function has not ended after [n] steps. *)
Definition run_fn (n : nat) (f : IrFunction) (args : list V) (h : H) : option R := run n (run_or_stop (start f args) [] h).

(** * Lockstep *)

(** States that make the same step, as long as the first one is defined. *)
Definition step_match (M : list Frame -> list Frame -> Prop) (s s' : status) : Prop :=
  match s with
  | Final r => r = undefined \/ s' = Final r
  | Running stk h => exists stk', s' = Running stk' h /\ M stk stk'
  end.

Lemma run_lockstep M n s s' :
  (forall stk stk' h, M stk stk' -> step_match M (step stk h) (step stk' h)) ->
  step_match M s s' -> run n s = Some undefined \/ run n s' = run n s.
Proof.
  intros Hstep. revert s s'. induction n as [|n IH]; intros [stk h|r] s' Hm; cbn in Hm.
  - destruct Hm as (stk' & -> & Hm). by right.
  - destruct Hm as [-> | ->]; [by left|by right].
  - destruct Hm as (stk' & -> & Hm). cbn [run]. by apply IH, Hstep.
  - destruct Hm as [-> | ->]; [by left|by right].
Qed.

End Stack.
Arguments Frame : clear implicits.
Arguments status : clear implicits.

(** * Well-formed functions *)

Definition def_of (i : Inst) : list VarId := match dst i with Some d => [d] | None => [] end.

Definition fn_insts (f : IrFunction) : list Inst := flat_map block_insts (blocks f).

Definition fn_vars (f : IrFunction) : list VarId := map snd (params f) ++ flat_map def_of (fn_insts f).

Definition term_uses (t : Terminator) : list VarId :=
  match t with
  | Return v => [v]
  | Branch c _ _ => [c]
  | RecurJump _ args => args
  | Jump _ | Unreachable => []
  end.

Definition block_reads (b : Block) : list VarId := flat_map uses (block_insts b) ++ term_uses (terminator b).

Definition phi_preds (i : Inst) : list BlockId := match i with IPhi _ entries => map fst entries | _ => [] end.

(** The blocks a block mentions. *)
Definition block_refs (b : Block) : list BlockId := successors (terminator b) ++ flat_map phi_preds (phis b).

(** Every variable has one definition, blocks have distinct ids, and all ids
    are below the counters. *)
Definition ssa (f : IrFunction) : Prop :=
  NoDup (ids f) /\ Forall (fun b => 0 <= b < next_block f) (ids f) /\
  NoDup (fn_vars f) /\ Forall (fun v => v < next_var f) (fn_vars f) /\
  Forall (fun b => Forall (fun v => v < next_var f) (block_reads b) /\ Forall (fun t => t < next_block f) (block_refs b)) (blocks f).

(** What the function reads and where it goes is its own. *)
Definition closed (f : IrFunction) : Prop :=
  ssa f /\
  Forall (fun b => Forall (fun v => v ∈ fn_vars f) (block_reads b) /\ Forall (fun t => t ∈ ids f) (block_refs b)) (blocks f).

#[export] Instance ssa_dec f : Decision (ssa f).
Proof. unfold ssa. apply _. Defined.

#[export] Instance closed_dec f : Decision (closed f).
Proof. unfold closed. apply _. Defined.

Lemma clone_uses vm bm i : uses (clone_inst vm bm i) = map (rv vm) (uses i).
Proof.
  destruct i; cbn [clone_inst uses map]; rewrite ?map_app, ?map_map; try done.
  induction pairs as [|[k v] pairs IH]; [done|]. cbn. by f_equal; f_equal.
Qed.

Lemma clone_dst vm bm i : dst (clone_inst vm bm i) = rv vm <$> dst i.
Proof. by destruct i. Qed.

Lemma elem_of_fn_vars_def f b i d : b ∈ blocks f -> i ∈ block_insts b -> dst i = Some d -> d ∈ fn_vars f.
Proof.
  intros Hb Hi Hd. apply elem_of_app. right. apply list_elem_of_In, in_flat_map. exists i. split.
  - apply in_flat_map. exists b. by split; apply list_elem_of_In.
  - unfold def_of. rewrite Hd. by left.
Qed.

(** * The map of variables *)

Lemma bind_args_ok {E : Type} ps args m : length ps = length args -> NoDup (map snd ps) ->
  bind_args (E := E) ps args m = Ok (list_to_map (zip (map snd ps) args) ∪ m).
Proof.
  revert args m. induction ps as [|[n p] ps IH]; intros [|a args] m Hl Hn; try done; cbn.
  { by rewrite (left_id_L ∅ (∪)). }
  cbn in Hn. apply NoDup_cons in Hn as [Hp Hn]. rewrite IH by (cbn in Hl; lia || done). f_equal.
  rewrite <- insert_union_r; [by rewrite insert_union_l|]. apply not_elem_of_list_to_map_1. intros Hin. apply Hp.
  apply list_elem_of_fmap in Hin as ([q x] & -> & Hin). by apply elem_of_zip_l in Hin.
Qed.

(** How a closure of the unit is called: with nothing before the arguments, or
    with itself. *)
Definition passes {A : Type} (ps : list (Name * VarId)) (self : A) (args xs : list A) : Prop :=
  xs = args /\ length ps = length args \/ xs = self :: args /\ length ps = S (length args).

Lemma param_map_ok {E : Type} ps self args xs : passes ps self args xs -> NoDup (map snd ps) ->
  param_map (E := E) ps self args = Ok (list_to_map (zip (map snd ps) xs)).
Proof.
  intros Hp Hn. unfold param_map. destruct ps as [|[n p] ps].
  { by destruct Hp as [[-> Hl]|[-> Hl]]. }
  destruct Hp as [[-> Hl]|[-> Hl]].
  - rewrite (proj2 (Nat.eqb_neq _ _)) by (cbn in *; lia). rewrite bind_args_ok by done. by rewrite (right_id_L ∅ (∪)).
  - rewrite (proj2 (Nat.eqb_eq _ _)) by (cbn in *; lia). cbn in Hn. apply NoDup_cons in Hn as [Hp Hn].
    rewrite bind_args_ok by (cbn in *; lia || done). cbn. f_equal. rewrite <- insert_union_r; [by rewrite (right_id_L ∅ (∪))|].
    apply not_elem_of_list_to_map_1. intros Hin. apply Hp.
    apply list_elem_of_fmap in Hin as ([q x] & -> & Hin). by apply elem_of_zip_l in Hin.
Qed.

(** Destinations get numbers from the counter, each its own. *)
Record extends (m : gmap VarId VarId) (n : Z) (ds : list VarId) (m' : gmap VarId VarId) (n' : Z) : Prop := {
  ext_sub : m ⊆ m';
  ext_le : n <= n';
  ext_new : forall v v', m' !! v = Some v' -> m !! v = Some v' \/ (v ∈ ds /\ n <= v' < n');
  ext_def : forall d, d ∈ ds -> is_Some (m' !! d);
  ext_inj : forall v1 v2 v', m !! v1 = None -> m' !! v1 = Some v' -> m' !! v2 = Some v' -> m !! v2 = None -> v1 = v2
}.

Lemma fresh_var_extends is_ m n m' n' :
  fold_left fresh_var is_ (m, n) = (m', n') -> extends m n (flat_map def_of is_) m' n'.
Proof.
  revert m n. induction is_ as [|i is_ IH]; intros m n Hf; cbn in Hf.
  { injection Hf as <- <-. split; [done|lia|auto|by intros d Hd%elem_of_nil|congruence]. }
  unfold fresh_var in Hf at 2. cbn [flat_map]. unfold def_of at 1. destruct (dst i) as [d|]; [|by apply IH].
  cbn [fst snd] in Hf. destruct (m !! d) as [v0|] eqn:Hd.
  - apply IH in Hf as [H1 H2 H3 H4 H5]. split; [done|done| | |done].
    + intros v v' Hv. destruct (H3 v v' Hv) as [?|[? ?]]; [by left|]. right. split; [by apply elem_of_app; right|done].
    + intros d' [Hd'|Hd']%elem_of_app; [|by apply H4]. apply list_elem_of_singleton in Hd' as ->. exists v0. by eapply lookup_weaken.
  - apply IH in Hf as [H1 H2 H3 H4 H5]. split.
    + etrans; [by apply insert_subseteq|done].
    + lia.
    + intros v v' Hv. destruct (H3 v v' Hv) as [Hi|[? ?]]; [|right; split; [by apply elem_of_app; right|lia]].
      apply lookup_insert_Some in Hi as [[-> ->]|[_ Hi]]; [|by left].
      right. split; [apply elem_of_app; left; by apply list_elem_of_singleton|lia].
    + intros d' [Hd'|Hd']%elem_of_app; [|by apply H4]. apply list_elem_of_singleton in Hd' as ->. exists n.
      eapply lookup_weaken; [apply lookup_insert_eq|done].
    + intros v1 v2 v' Hn1 Hv1 Hv2 Hn2.
      assert (Hd1 : m' !! d = Some n) by (eapply lookup_weaken; [apply lookup_insert_eq|done]).
      destruct (decide (v1 = d)) as [->|Hne1], (decide (v2 = d)) as [->|Hne2]; [done| | |].
      * assert (v' = n) as -> by congruence. destruct (H3 v2 n Hv2) as [Hi|[_ ?]]; [|lia].
        rewrite lookup_insert_ne in Hi by done. congruence.
      * assert (v' = n) as -> by congruence. destruct (H3 v1 n Hv1) as [Hi|[_ ?]]; [|lia].
        rewrite lookup_insert_ne in Hi by done. congruence.
      * apply (H5 v1 v2 v'); [by rewrite lookup_insert_ne|done|done|by rewrite lookup_insert_ne].
Qed.

Lemma fresh_vars_of_flat bs acc : fresh_vars_of bs acc = fold_left fresh_var (flat_map block_insts bs) acc.
Proof.
  unfold fresh_vars_of. revert acc. induction bs as [|b bs IH]; intros acc; [done|]. cbn [flat_map fold_left].
  by rewrite fold_left_app, IH.
Qed.

(** * The map of blocks *)

Lemma fresh_block_spec bs m n m' n' : fold_left fresh_block bs (m, n) = (m', n') -> NoDup (map block_id bs) ->
  n' = n + Z.of_nat (length bs) /\ (forall b, b ∉ map block_id bs -> m' !! b = m !! b) /\
  forall i b, bs !! i = Some b -> m' !! block_id b = Some (n + Z.of_nat i).
Proof.
  revert m n. induction bs as [|b bs IH]; intros m n Hf Hn; cbn in Hf.
  { injection Hf as <- <-. split_and!; [cbn; lia|done|done]. }
  cbn in Hn. apply NoDup_cons in Hn as [Hb Hn]. apply IH in Hf as (H1 & H2 & H3); [|done]. cbn [fst snd] in *. split_and!.
  - cbn [length]. lia.
  - intros c Hc. cbn in Hc. apply not_elem_of_cons in Hc as [Hne Hc]. rewrite H2 by done. by rewrite lookup_insert_ne.
  - intros [|i] c Hi; cbn in Hi; [injection Hi as <-; rewrite H2 by done; rewrite lookup_insert_eq; f_equal; lia|].
    rewrite (H3 i c Hi). f_equal. lia.
Qed.

(** * Predecessors of phis *)

Definition fixed (old new : BlockId) (ts : list BlockId) (b : Block) : Block :=
  fold_left (fun b t => if block_id b =? t then with_phis (rename_pred old new) b else b) ts b.

Lemma fix_preds_absent old new t bs : (t ∉ map block_id bs) -> fix_preds old new t bs = bs.
Proof.
  induction bs as [|b bs IH]; intros Ht; [done|]. cbn in Ht |- *. apply not_elem_of_cons in Ht as [Hne Ht].
  rewrite (proj2 (Z.eqb_neq _ _)) by congruence. by rewrite IH.
Qed.

Lemma fix_preds_map old new t bs : NoDup (map block_id bs) ->
  fix_preds old new t bs = map (fun b => if block_id b =? t then with_phis (rename_pred old new) b else b) bs.
Proof.
  induction bs as [|b bs IH]; intros Hn; [done|]. cbn in Hn |- *. apply NoDup_cons in Hn as [Hb Hn].
  destruct (block_id b =? t) eqn:Ht; [|by rewrite IH]. apply Z.eqb_eq in Ht as <-. f_equal. clear -Hb.
  induction bs as [|c bs IH]; [done|]. cbn in Hb |- *. apply not_elem_of_cons in Hb as [Hne Hb].
  rewrite (proj2 (Z.eqb_neq _ _)) by congruence. by rewrite <- IH.
Qed.

Lemma with_phis_id g b : block_id (with_phis g b) = block_id b.
Proof. done. Qed.

Lemma fixed_spec old new ts b :
  block_id (fixed old new ts b) = block_id b /\ insts (fixed old new ts b) = insts b /\ terminator (fixed old new ts b) = terminator b.
Proof.
  unfold fixed. revert b. induction ts as [|t ts IH]; intros b; [done|]. cbn [fold_left].
  destruct (block_id b =? t); [|apply IH]. destruct (IH (with_phis (rename_pred old new) b)) as (-> & -> & ->). done.
Qed.

Lemma fix_all_map old new ts bs : NoDup (map block_id bs) ->
  fold_left (fun bs t => fix_preds old new t bs) ts bs = map (fixed old new ts) bs.
Proof.
  revert bs. induction ts as [|t ts IH]; intros bs Hn; [symmetry; apply map_id|]. cbn [fold_left].
  rewrite fix_preds_map by done. rewrite IH.
  - by rewrite map_map.
  - rewrite map_map. erewrite map_ext; [exact Hn|]. intros b. cbn. by destruct (block_id b =? t).
Qed.

Lemma map_rename_other p old new ps : p <> old -> p <> new -> phi_moves p (map (rename_pred old new) ps) = phi_moves p ps.
Proof.
  intros Hold Hnew. induction ps as [|i ps IH]; [done|]. destruct i; cbn [map rename_pred phi_moves]; try exact IH.
  assert (Hs : phi_source p (map (fun e => (if e.1 =? old then new else e.1, e.2)) entries) = phi_source p entries).
  { unfold phi_source. induction entries as [|[q v] entries IHe]; [done|]. cbn.
    destruct (q =? old) eqn:Hq.
    - apply Z.eqb_eq in Hq as ->. rewrite (proj2 (Z.eqb_neq new p)), (proj2 (Z.eqb_neq old p)) by congruence. exact IHe.
    - destruct (q =? p); [done|exact IHe]. }
  rewrite Hs, IH. done.
Qed.

Lemma map_rename_new old new ps : (new ∉ flat_map phi_preds ps) ->
  phi_moves new (map (rename_pred old new) ps) = phi_moves old ps.
Proof.
  induction ps as [|i ps IH]; [done|]. intros Hn. cbn in Hn. apply not_elem_of_app in Hn as [Hi Hn]. specialize (IH Hn).
  destruct i; cbn [map rename_pred phi_moves]; try exact IH.
  assert (Hs : phi_source new (map (fun e => (if e.1 =? old then new else e.1, e.2)) entries) = phi_source old entries).
  { unfold phi_source. cbn in Hi. clear -Hi. induction entries as [|[q v] entries IHe]; [done|]. cbn in Hi |- *.
    apply not_elem_of_cons in Hi as [Hne Hi]. destruct (q =? old) eqn:Hq; [by rewrite Z.eqb_refl|].
    rewrite (proj2 (Z.eqb_neq q new)) by congruence. by apply IHe. }
  rewrite Hs, IH. done.
Qed.

Lemma rename_twice old new i : new <> old -> rename_pred old new (rename_pred old new i) = rename_pred old new i.
Proof.
  intros Hne. destruct i; cbn; try done. f_equal. rewrite map_map. apply map_ext. intros [q v]. cbn.
  destruct (q =? old) eqn:Hq; [by rewrite (proj2 (Z.eqb_neq new old)) by congruence|by rewrite Hq].
Qed.

Lemma fixed_phis old new ts b : new <> old ->
  phis (fixed old new ts b) = if bool_decide (block_id b ∈ ts) then map (rename_pred old new) (phis b) else phis b.
Proof.
  intros Hne. unfold fixed. revert b. induction ts as [|t ts IH]; intros b; [done|]. cbn [fold_left].
  destruct (block_id b =? t) eqn:Ht.
  - apply Z.eqb_eq in Ht as <-. rewrite (bool_decide_eq_true_2 (block_id b ∈ block_id b :: ts)) by (apply elem_of_cons; by left).
    rewrite IH. cbn. case_bool_decide; [|done]. rewrite map_map. apply map_ext. intros i. by apply rename_twice.
  - apply Z.eqb_neq in Ht. rewrite IH.
    by rewrite (bool_decide_ext (block_id b ∈ t :: ts) (block_id b ∈ ts)) by (rewrite elem_of_cons; naive_solver).
Qed.

Lemma fixed_moves_other old new ts b p : new <> old -> p <> old -> p <> new ->
  phi_moves p (phis (fixed old new ts b)) = phi_moves p (phis b).
Proof. intros Hne Hp Hp'. rewrite fixed_phis by done. case_bool_decide; [|done]. by apply map_rename_other. Qed.

Lemma fixed_moves_new old new ts b : new <> old -> block_id b ∈ ts -> (new ∉ flat_map phi_preds (phis b)) ->
  phi_moves new (phis (fixed old new ts b)) = phi_moves old (phis b).
Proof. intros Hne Hb Hn. rewrite fixed_phis, bool_decide_eq_true_2 by done. by apply map_rename_new. Qed.

(** * Copies of phis *)

Lemma clone_moves vm bm p p' ps :
  (forall q, q ∈ flat_map phi_preds ps -> (rb bm q =? p') = (q =? p)) ->
  phi_moves p' (map (clone_inst vm bm) ps) = map (fun m => (rv vm m.1, rv vm m.2)) (phi_moves p ps).
Proof.
  induction ps as [|i ps IH]; intros Hq; [done|]. cbn in Hq.
  assert (IH' := IH (fun q Hin => Hq q (proj2 (elem_of_app _ _ _) (or_intror Hin)))).
  destruct i; cbn [map clone_inst phi_moves]; try exact IH'.
  assert (Hs : phi_source p' (map (fun e => (rb bm e.1, rv vm e.2)) entries) = rv vm <$> phi_source p entries).
  { assert (He : forall q, q ∈ map fst entries -> (rb bm q =? p') = (q =? p)).
    { intros q Hin. apply Hq, elem_of_app. by left. }
    clear -He. unfold phi_source. induction entries as [|[q v] entries IHe]; [done|]. cbn in He |- *.
    rewrite (He q) by (apply elem_of_cons; by left). destruct (q =? p); [done|]. apply IHe. intros q' Hin. apply He, elem_of_cons. by right. }
  rewrite Hs, IH'. by destruct (phi_source p entries).
Qed.
