(* ===== verification/InlineSpec.v ===== *)
(** Replacing a call of a function of the unit by its body keeps every run, step
    by step: the frame of the callee and the frame of its caller are one frame
    of the result. *)
From stdpp Require Import gmap.
From S2P Require Import Prelude RustStd Token Ir Reloop ReloopSem ReloopGraph IrInterp OsrSem OsrSpec Inline InlineSem.
Local Open Scope Z_scope.

(** * Unique definitions *)

Lemma unique_def is_ i j d : NoDup (flat_map def_of is_) -> i ∈ is_ -> j ∈ is_ -> dst i = Some d -> dst j = Some d -> i = j.
Proof.
  assert (Hin : forall l k, k ∈ l -> dst k = Some d -> d ∈ flat_map def_of l).
  { intros l k Hk Hd. apply list_elem_of_In, in_flat_map. exists k. split; [by apply list_elem_of_In|]. unfold def_of. rewrite Hd. by left. }
  induction is_ as [|k is_ IH]; intros Hn Hi Hj Hdi Hdj; [by apply elem_of_nil in Hi|]. cbn in Hn.
  apply NoDup_app in Hn as (_ & Hk & Hn). apply elem_of_cons in Hi, Hj. destruct Hi as [->|Hi], Hj as [->|Hj]; [done| | |by apply IH].
  - exfalso. apply (Hk d); [unfold def_of; rewrite Hdi; by left|by eapply Hin].
  - exfalso. apply (Hk d); [unfold def_of; rewrite Hdj; by left|by eapply Hin].
Qed.

Lemma elem_of_fn_insts f b i : b ∈ blocks f -> i ∈ block_insts b -> i ∈ fn_insts f.
Proof. intros Hb Hi. apply list_elem_of_In, in_flat_map. exists b. by split; apply list_elem_of_In. Qed.

Lemma phi_moves_dst p ps d : d ∈ map fst (phi_moves p ps) -> exists entries, IPhi d entries ∈ ps.
Proof.
  induction ps as [|i ps IH]; cbn; [by intros ?%elem_of_nil|]. intros Hd.
  assert (Hrec : d ∈ map fst (phi_moves p ps) -> exists entries, IPhi d entries ∈ i :: ps).
  { intros Hin. destruct (IH Hin) as [entries He]. exists entries. apply elem_of_cons. by right. }
  destruct i; try by apply Hrec. destruct (phi_source p entries); [|by apply Hrec].
  cbn in Hd. apply elem_of_cons in Hd as [->|Hd]; [|by apply Hrec]. exists entries. apply elem_of_cons. by left.
Qed.

Section Splice.
Context {V H R : Type} {SH : SsaHost V H R} (closure_of : V -> nat -> option (IrFunction * list V)).

(** What an instruction does depends on the values of its operands, not on
    their names. *)
Definition nameless : Prop := forall i vm bm xs h, exec (clone_inst vm bm i) xs h = exec i xs h.
Context (exec_nameless : nameless).

Context (f g f' : IrFunction) (bi ii : nat) (self cdst : VarId) (args sargs : list VarId).
Context (vm : gmap VarId VarId) (nv : Z) (bm : gmap BlockId BlockId) (cont : BlockId) (entry orig : Block).

(** Calling a value runs the callee on the arguments, or on the value and the
    arguments. *)
Definition runs_callee (k : IrFunction) (n : nat) (fv : V) : Prop :=
  exists caps, closure_of fv n = Some (k, caps) /\ (caps = [] /\ length (params k) = n \/ caps = [fv] /\ length (params k) = S n).

Context (Hf : ssa f) (Hg : closed g).
Context (Horig : blocks f !! bi = Some orig) (Hcall : insts orig !! ii = Some (ICall cdst self args)).
Context (Hrecur : forall t as_, terminator orig <> RecurJump t as_).
Context (Hentry : head (blocks g) = Some entry) (Hpass : passes (params g) self args sargs).
Context (Hvm : fresh_vars_of (blocks g) (list_to_map (zip (map snd (params g)) sargs), next_var f) = (vm, nv)).
Context (Hbm : fold_left fresh_block (blocks g) (∅, next_block f) = (bm, cont)).

Abbreviation pre := (mkBlock (block_id orig) (phis orig) (take ii (insts orig)) (Jump (rb bm (block_id entry)))).
Abbreviation sites := (flat_map (return_site vm bm) (blocks g)).
Abbreviation post :=
  (mkBlock cont (match sites with [] => [] | _ => [IPhi cdst sites] end) (drop (S ii) (insts orig)) (terminator orig)).
Abbreviation raw := (<[bi := pre]> (blocks f) ++ map (clone_block vm bm cont) (blocks g) ++ [post]).
Abbreviation targets := (terminator_targets (terminator orig)).

Context (Hf' : blocks f' = fold_left (fun bs t => fix_preds (block_id orig) cont t bs) targets raw).

(** ** Ids *)

Lemma orig_in : orig ∈ blocks f.
Proof. by eapply list_elem_of_lookup_2. Qed.

Lemma id_range b : b ∈ blocks f -> 0 <= block_id b < next_block f.
Proof.
  intros Hb. destruct Hf as (_ & Hr & _). rewrite Forall_forall in Hr. apply Hr. by apply list_elem_of_fmap_2.
Qed.

Lemma bm_spec : cont = next_block f + Z.of_nat (length (blocks g)) /\
  forall i b, blocks g !! i = Some b -> rb bm (block_id b) = next_block f + Z.of_nat i.
Proof.
  destruct Hg as [(Hn & _) _]. destruct (fresh_block_spec _ _ _ _ _ Hbm Hn) as (Hc & _ & Hb). split; [done|].
  intros i b Hi. unfold rb. by rewrite (Hb i b Hi).
Qed.

Lemma bm_range b : b ∈ blocks g -> next_block f <= rb bm (block_id b) < cont.
Proof.
  intros Hb. apply list_elem_of_lookup_1 in Hb as [i Hi]. destruct bm_spec as [-> Hs]. rewrite (Hs i b Hi).
  apply lookup_lt_Some in Hi. lia.
Qed.

Lemma bm_inj b1 b2 : b1 ∈ blocks g -> b2 ∈ blocks g -> rb bm (block_id b1) = rb bm (block_id b2) -> block_id b1 = block_id b2.
Proof.
  intros H1 H2 He. apply list_elem_of_lookup_1 in H1 as [i Hi], H2 as [j Hj]. destruct bm_spec as [_ Hs].
  rewrite (Hs i b1 Hi), (Hs j b2 Hj) in He. assert (i = j) as -> by lia. congruence.
Qed.

Lemma cont_fresh : cont <> block_id orig /\ next_block f <= cont.
Proof. destruct bm_spec as [-> _]. pose proof (id_range _ orig_in). lia. Qed.

Lemma raw_ids : map block_id raw = ids f ++ map (fun b => rb bm (block_id b)) (blocks g) ++ [cont].
Proof.
  rewrite !map_app. f_equal.
  - assert (Hins : map block_id (<[bi := pre]> (blocks f)) = <[bi := block_id pre]> (map block_id (blocks f))) by apply list_fmap_insert.
    rewrite Hins. apply list_insert_id. exact (list_lookup_fmap_Some_2 block_id _ _ _ Horig).
  - f_equal. by rewrite map_map.
Qed.

Lemma raw_nodup : NoDup (map block_id raw).
Proof.
  rewrite raw_ids. destruct Hf as (Hn & _). apply NoDup_app. split_and!; [done| |apply NoDup_app; split_and!].
  - intros b Hb. apply list_elem_of_fmap in Hb as (blk & -> & Hb). pose proof (id_range _ Hb). pose proof cont_fresh.
    rewrite elem_of_app, list_elem_of_singleton. intros [Hin|Hin]; [|lia].
    apply list_elem_of_fmap in Hin as (c & Hc & Hin). pose proof (bm_range c Hin). lia.
  - apply NoDup_fmap_2_strong.
    + intros b1 b2 H1 H2 He. destruct Hg as [(Hng & _) _]. exact (block_unique g b1 b2 Hng H1 H2 (bm_inj b1 b2 H1 H2 He)).
    + destruct Hg as [(Hng & _) _]. by eapply NoDup_fmap_1.
  - intros b Hb. apply list_elem_of_fmap in Hb as (c & -> & Hin). pose proof (bm_range c Hin). rewrite list_elem_of_singleton. lia.
  - apply NoDup_singleton.
Qed.

Lemma blocks_f' : blocks f' = map (fixed (block_id orig) cont targets) raw.
Proof. rewrite Hf'. apply fix_all_map, raw_nodup. Qed.

Lemma f'_nodup : NoDup (ids f').
Proof.
  unfold ids. rewrite blocks_f', map_map. erewrite map_ext; [exact raw_nodup|]. intros b. apply fixed_spec.
Qed.

Lemma lookup_raw b : b ∈ raw -> lookup_block f' (block_id b) = Some (fixed (block_id orig) cont targets b).
Proof.
  intros Hb. rewrite <- (proj1 (fixed_spec (block_id orig) cont targets b)). apply lookup_block_in; [apply f'_nodup|].
  rewrite blocks_f'. by apply list_elem_of_fmap_2.
Qed.

Lemma target_below t : t ∈ targets -> t < next_block f.
Proof.
  intros Ht. destruct Hf as (_ & _ & _ & _ & Hr). rewrite Forall_forall in Hr. destruct (Hr _ orig_in) as [_ Hb].
  rewrite Forall_forall in Hb. apply Hb, elem_of_app. left. revert Ht. case (terminator orig); cbn; intros; done || by apply elem_of_nil in Ht.
Qed.

Lemma fixed_fresh b : next_block f <= block_id b -> fixed (block_id orig) cont targets b = b.
Proof.
  intros Hb. assert (Hn : forall t, t ∈ targets -> t <> block_id b) by (intros t Ht; pose proof (target_below t Ht); lia).
  unfold fixed. revert Hn. generalize targets. intros ts. induction ts as [|t ts IH]; intros Hn; [done|]. cbn [fold_left].
  rewrite (proj2 (Z.eqb_neq (block_id b) t)).
  - apply IH. intros t' Ht. apply Hn, elem_of_cons. by right.
  - intros He. apply (Hn t); [apply elem_of_cons; by left|done].
Qed.

Lemma lookup_other blk : blk ∈ blocks f -> block_id blk <> block_id orig ->
  lookup_block f' (block_id blk) = Some (fixed (block_id orig) cont targets blk).
Proof.
  intros Hb Hne. apply lookup_raw, elem_of_app. left. apply list_elem_of_lookup_1 in Hb as [i Hi].
  apply (list_elem_of_lookup_2 _ i). rewrite list_lookup_insert_ne; [done|]. intros ->. congruence.
Qed.

Lemma lookup_pre : lookup_block f' (block_id orig) = Some (fixed (block_id orig) cont targets pre).
Proof.
  apply (lookup_raw pre), elem_of_app. left. apply (list_elem_of_lookup_2 _ bi). apply list_lookup_insert_eq.
  by eapply lookup_lt_Some.
Qed.

Lemma lookup_clone b : b ∈ blocks g -> lookup_block f' (rb bm (block_id b)) = Some (clone_block vm bm cont b).
Proof.
  intros Hb. pose proof (lookup_raw (clone_block vm bm cont b)) as Hl. rewrite fixed_fresh in Hl by by apply bm_range.
  apply Hl, elem_of_app. right. apply elem_of_app. left. by apply list_elem_of_fmap_2.
Qed.

Lemma lookup_cont : lookup_block f' cont = Some post.
Proof.
  pose proof (lookup_raw post) as Hl. rewrite fixed_fresh in Hl by apply cont_fresh.
  apply Hl, elem_of_app. right. apply elem_of_app. right. by apply list_elem_of_singleton.
Qed.

(** ** Variables *)

Lemma vm_extends : extends (list_to_map (zip (map snd (params g)) sargs)) (next_var f) (flat_map def_of (fn_insts g)) vm nv.
Proof. rewrite fresh_vars_of_flat in Hvm. by apply fresh_var_extends. Qed.

Lemma sargs_below : Forall (fun v => v < next_var f) sargs.
Proof.
  assert (Hr : Forall (fun v => v < next_var f) (self :: args)).
  { destruct Hf as (_ & _ & _ & _ & Hb). rewrite Forall_forall in Hb. destruct (Hb _ orig_in) as [Hu _].
    apply Forall_forall. intros v Hv. rewrite Forall_forall in Hu. apply Hu, elem_of_app. left.
    apply list_elem_of_In, in_flat_map. exists (ICall cdst self args). split; [|by apply list_elem_of_In].
    apply list_elem_of_In, elem_of_app. right. by eapply list_elem_of_lookup_2. }
  apply Forall_cons in Hr as [Hs Ha]. destruct Hpass as [[-> _]|[-> _]]; [done|by constructor].
Qed.

Lemma def_fresh b i d : b ∈ blocks g -> i ∈ block_insts b -> dst i = Some d ->
  exists d', vm !! d = Some d' /\ next_var f <= d' /\ forall v v', v <> d -> vm !! v = Some v' -> v' <> d'.
Proof.
  intros Hb Hi Hd. assert (Hin : d ∈ flat_map def_of (fn_insts g)).
  { apply list_elem_of_In, in_flat_map. exists i. split; [apply list_elem_of_In; by eapply elem_of_fn_insts|]. unfold def_of. rewrite Hd. by left. }
  destruct vm_extends as [_ _ Hnew Hdef Hinj]. destruct (Hdef d Hin) as [d' Hd']. exists d'. split; [done|].
  set (pm := list_to_map (zip (map snd (params g)) sargs) : gmap VarId VarId) in *.
  assert (Hpm : forall v v', pm !! v = Some v' -> v ∈ map snd (params g) /\ v' < next_var f).
  { intros v v' Hv. apply elem_of_list_to_map_2 in Hv. split; [by eapply elem_of_zip_l|].
    pose proof sargs_below as Hs. rewrite Forall_forall in Hs. apply Hs. by eapply elem_of_zip_r. }
  assert (Hnp : pm !! d = None).
  { destruct (pm !! d) as [x|] eqn:Hx; [|done]. exfalso. destruct (Hpm _ _ Hx) as [Hp _].
    destruct Hg as [(_ & _ & Hn & _) _]. apply NoDup_app in Hn as (_ & Hn & _). by apply (Hn d). }
  assert (Hge : next_var f <= d') by (destruct (Hnew d d' Hd') as [?|[_ ?]]; [congruence|lia]).
  split; [done|]. intros v v' Hne Hv ->. destruct (pm !! v) as [x|] eqn:Hx.
  - destruct (Hpm _ _ Hx) as [_ Hlt]. destruct vm_extends as [Hsub _ _ _ _].
    assert (vm !! v = Some x) by (by eapply lookup_weaken). assert (x = d') by congruence. lia.
  - apply Hne. by eapply Hinj.
Qed.

(** The registers of the callee, renamed, are registers of the result. *)
Definition renamed (rc r' : gmap VarId V) : Prop := forall v x, rc !! v = Some x -> exists v', vm !! v = Some v' /\ r' !! v' = Some x.

Lemma renamed_read rc r' us xs : renamed rc r' -> read_all rc us = Some xs -> read_all r' (map (rv vm) us) = Some xs.
Proof.
  intros Hr. unfold read_all. rewrite !mapM_Some. intros Hx. induction Hx as [|u x us xs Hu _ IH]; [constructor|].
  constructor; [|done]. destruct (Hr u x Hu) as (v' & Hv & Hx). unfold rv. by rewrite Hv.
Qed.

Lemma renamed_get rc r' v x : renamed rc r' -> rc !! v = Some x -> r' !! rv vm v = Some x.
Proof. intros Hr Hv. destruct (Hr v x Hv) as (v' & Hm & Hx). unfold rv. by rewrite Hm. Qed.

Lemma renamed_insert rc r' r b i d x : b ∈ blocks g -> i ∈ block_insts b -> dst i = Some d ->
  renamed rc r' -> agree (next_var f) r r' ->
  renamed (<[d := x]> rc) (<[rv vm d := x]> r') /\ agree (next_var f) r (<[rv vm d := x]> r').
Proof.
  intros Hb Hi Hd Hr Ha. destruct (def_fresh b i d Hb Hi Hd) as (d' & Hd' & Hge & Hne). unfold rv. rewrite Hd'. cbn. split.
  - intros v y Hv. destruct (decide (v = d)) as [->|Hvd].
    + rewrite lookup_insert_eq in Hv. injection Hv as ->. exists d'. by rewrite lookup_insert_eq.
    + rewrite lookup_insert_ne in Hv by done. destruct (Hr v y Hv) as (v' & Hv' & Hy). exists v'. split; [done|].
      rewrite lookup_insert_ne; [done|]. intros He. by apply (Hne v v').
  - intros v y Hlt Hv. rewrite lookup_insert_ne by lia. by apply Ha.
Qed.

Lemma renamed_set_dst rc r' r b i x : b ∈ blocks g -> i ∈ block_insts b -> renamed rc r' -> agree (next_var f) r r' ->
  renamed (set_dst i x rc) (set_dst (clone_inst vm bm i) x r') /\ agree (next_var f) r (set_dst (clone_inst vm bm i) x r').
Proof.
  intros Hb Hi Hr Ha. unfold set_dst. rewrite clone_dst. destruct (dst i) as [d|] eqn:Hd; cbn; [|done].
  by apply (renamed_insert rc r' r b i d x).
Qed.

Lemma renamed_write rc r' r b moves xs : b ∈ blocks g ->
  (forall d, d ∈ map fst moves -> exists i, i ∈ phis b /\ dst i = Some d) -> renamed rc r' -> agree (next_var f) r r' ->
  renamed (write_all (map fst moves) xs rc) (write_all (map fst (map (fun m : VarId * VarId => (rv vm m.1, rv vm m.2)) moves)) xs r') /\
  agree (next_var f) r (write_all (map fst (map (fun m : VarId * VarId => (rv vm m.1, rv vm m.2)) moves)) xs r').
Proof.
  intros Hb Hd Hr Ha. unfold write_all. revert xs. induction moves as [|[d s] moves IH]; intros xs; [done|].
  destruct xs as [|x xs]; [done|]. cbn. destruct (Hd d) as (i & Hi & Hdi); [apply elem_of_cons; by left|].
  destruct (IH (fun d' Hin => Hd d' (proj2 (elem_of_cons _ _ _) (or_intror Hin))) xs) as [IH1 IH2].
  apply (renamed_insert _ _ r b i d x); try done. apply elem_of_app. by left.
Qed.

(** ** The value that is called *)

Context (ns name : Name) (Hglobal : ILoadGlobal self ns name ∈ fn_insts f).
Context (Hload : forall h fv h', exec (ILoadGlobal self ns name) [] h = inr (fv, h') -> runs_callee g (length args) fv).

Definition good (r : gmap VarId V) : Prop := forall fv, r !! self = Some fv -> runs_callee g (length args) fv.

Lemma defines_self i : i ∈ fn_insts f -> dst i = Some self -> i = ILoadGlobal self ns name.
Proof.
  intros Hi Hd. destruct Hf as (_ & _ & Hn & _). apply NoDup_app in Hn as (_ & _ & Hn). by eapply unique_def.
Qed.

Lemma self_not_param : self ∉ map snd (params f).
Proof.
  intros Hp. destruct Hf as (_ & _ & Hn & _). apply NoDup_app in Hn as (_ & Hn & _). apply (Hn self Hp).
  apply list_elem_of_In, in_flat_map. eexists. split; [by apply list_elem_of_In|]. by left.
Qed.

Lemma good_set_dst i x r : i ∈ fn_insts f -> (i = ILoadGlobal self ns name -> runs_callee g (length args) x) -> good r -> good (set_dst i x r).
Proof.
  intros Hi Hx Hr. unfold set_dst. destruct (dst i) as [d|] eqn:Hd; [|done]. intros fv. rewrite lookup_insert.
  case_decide as He; [|apply Hr]. intros [= <-]. apply Hx, defines_self; [done|congruence].
Qed.

Lemma good_write p blk xs r : blk ∈ blocks f -> good r -> good (write_all (map fst (phi_moves p (phis blk))) xs r).
Proof.
  intros Hb Hr fv Hfv. apply write_all_back in Hfv as [Hin|Hin]; [|by apply Hr]. exfalso.
  apply elem_of_zip_l, phi_moves_dst in Hin as [entries Hi].
  assert (He : IPhi self entries = ILoadGlobal self ns name); [|done]. apply defines_self; [|done].
  eapply elem_of_fn_insts; [done|]. apply elem_of_app. by left.
Qed.

(** ** Frames *)

(** A frame is at a suffix of a block of its function. *)
Definition at_block (k : IrFunction) (blk : Block) (fr : Frame V) : Prop :=
  fr_fn fr = k /\ blk ∈ blocks k /\ fr_block fr = block_id blk /\ fr_term fr = terminator blk /\
  forall i, i ∈ fr_insts fr -> i ∈ insts blk.

Inductive position (fr fr' : Frame V) : Prop :=
| pos_other : fr_block fr <> block_id orig -> fr_block fr' = fr_block fr -> fr_insts fr' = fr_insts fr -> fr_term fr' = fr_term fr ->
    position fr fr'
| pos_before is_ : fr_block fr = block_id orig -> fr_block fr' = block_id orig ->
    fr_insts fr = is_ ++ ICall cdst self args :: drop (S ii) (insts orig) -> fr_insts fr' = is_ ->
    fr_term fr' = Jump (rb bm (block_id entry)) -> position fr fr'
| pos_after : fr_block fr = block_id orig -> fr_block fr' = cont -> fr_insts fr' = fr_insts fr -> fr_term fr' = fr_term fr ->
    position fr fr'.

(** The caller and the result. *)
Definition caller_match (fr fr' : Frame V) : Prop :=
  (exists blk, at_block f blk fr) /\ fr_fn fr' = f' /\ agree (next_var f) (fr_regs fr) (fr_regs fr') /\ good (fr_regs fr) /\ position fr fr'.

(** The callee, above the caller, and the result. *)
Definition callee_match (frc fr fr' : Frame V) : Prop :=
  (exists blk, at_block g blk frc) /\ fr_fn fr' = f' /\ fr_block fr' = rb bm (fr_block frc) /\
  fr_insts fr' = map (clone_inst vm bm) (fr_insts frc) /\ fr_term fr' = clone_terminator vm bm cont (fr_term frc) /\
  renamed (fr_regs frc) (fr_regs fr') /\
  at_block f orig fr /\ fr_insts fr = ICall cdst self args :: drop (S ii) (insts orig) /\
  agree (next_var f) (fr_regs fr) (fr_regs fr') /\ good (fr_regs fr).

Inductive base_match : list (Frame V) -> list (Frame V) -> Prop :=
| base_caller fr fr' : caller_match fr fr' -> base_match [fr] [fr']
| base_callee frc fr fr' : callee_match frc fr fr' -> base_match [frc; fr] [fr'].

(** Both wait for the result of a call. *)
Definition pending (b b' : list (Frame V)) : Prop :=
  exists fr stk fr' stk' d c as_ rest i rest', b = fr :: stk /\ b' = fr' :: stk' /\
    fr_insts fr = ICall d c as_ :: rest /\ fr_insts fr' = i :: rest'.

(** Above them, the same frames. *)
Definition stacks (stk stk' : list (Frame V)) : Prop :=
  exists cs b b', stk = cs ++ b /\ stk' = cs ++ b' /\ base_match b b' /\ (cs = [] \/ pending b b').

(** ** Jumps *)

Lemma lookup_at k t blk : NoDup (ids k) -> lookup_block k t = Some blk -> blk ∈ blocks k /\ block_id blk = t.
Proof. intros Hn Hl. by apply lookup_block_Some. Qed.

Lemma reads_below blk p : blk ∈ blocks f -> Forall (fun u => u < next_var f) (map snd (phi_moves p (phis blk))).
Proof.
  intros Hb. apply Forall_forall. intros u (i & Hi & Hu)%phi_moves_vars. destruct Hf as (_ & _ & _ & _ & Hr).
  rewrite Forall_forall in Hr. destruct (Hr _ Hb) as [Hu' _]. rewrite Forall_forall in Hu'. apply Hu', elem_of_app. left.
  apply list_elem_of_In, in_flat_map. exists i. split; apply list_elem_of_In; [|done]. apply elem_of_app. by left.
Qed.

Lemma preds_below blk : blk ∈ blocks f -> cont ∉ flat_map phi_preds (phis blk).
Proof.
  intros Hb Hin. destruct Hf as (_ & _ & _ & _ & Hr). rewrite Forall_forall in Hr. destruct (Hr _ Hb) as [_ Hp].
  rewrite Forall_forall in Hp. pose proof cont_fresh. assert (cont < next_block f); [|lia].
  apply Hp, elem_of_app. by right.
Qed.

(** An edge of the caller in the result: what followed the call has moved to
    the continuation. *)
Definition edge (p p' t : BlockId) : Prop :=
  p <> block_id orig /\ p' = p /\ p < next_block f \/ p = block_id orig /\ p' = cont /\ t ∈ targets.

Lemma caller_edge_moves p p' blk : blk ∈ blocks f -> edge p p' (block_id blk) ->
  phi_moves p' (phis (fixed (block_id orig) cont targets blk)) = phi_moves p (phis blk).
Proof.
  intros Hb He. destruct cont_fresh as [Hc Hc']. destruct He as [(Hne & -> & Hp)|(-> & -> & Ht)].
  - apply fixed_moves_other; [done|done|lia].
  - apply fixed_moves_new; [done|done|by apply preds_below].
Qed.

Lemma goto_caller p p' t r r' fr : goto f p t r = Some fr -> edge p p' t -> agree (next_var f) r r' -> good r ->
  exists fr', goto f' p' t r' = Some fr' /\ caller_match fr fr'.
Proof.
  intros Hgo He Ha Hr. unfold goto in Hgo. apply bind_Some in Hgo as (blk & Hl & Hgo). apply bind_Some in Hgo as (r1 & Hen & [= <-]).
  destruct (lookup_at f t blk (proj1 Hf) Hl) as [Hb <-]. unfold enter in Hen. apply bind_Some in Hen as (xs & Hxs & [= <-]).
  pose proof (read_agree _ _ _ _ _ Ha (reads_below blk p Hb) Hxs) as Hxs'. pose proof (caller_edge_moves p p' blk Hb He) as Hm.
  pose proof (write_all_agree (next_var f) (map fst (phi_moves p (phis blk))) xs r r' Ha) as Ha'.
  pose proof (good_write p blk xs r Hb Hr) as Hr'.
  assert (Hat : at_block f blk (mkFrame f (block_id blk) (insts blk) (terminator blk) (write_all (map fst (phi_moves p (phis blk))) xs r))).
  { by split_and!. }
  unfold goto. destruct (decide (block_id blk = block_id orig)) as [Heq|Hne].
  - assert (blk = orig) as -> by exact (block_unique f blk orig (proj1 Hf) Hb orig_in Heq).
    rewrite lookup_pre. cbn [mbind option_bind]. unfold enter.
    destruct (fixed_spec (block_id orig) cont targets pre) as (_ & Hi & Ht). rewrite Hi, Ht.
    assert (Hp : phis (fixed (block_id orig) cont targets pre) = phis (fixed (block_id orig) cont targets orig)).
    { rewrite !fixed_phis by apply cont_fresh. done. }
    rewrite Hp, Hm, Hxs'. cbn [mbind option_bind]. eexists. split; [reflexivity|]. split_and!; [by eexists|done|done|done|].
    apply (pos_before _ _ (take ii (insts orig))); try done. exact (eq_sym (take_drop_middle _ _ _ Hcall)).
  - rewrite lookup_other by done. cbn [mbind option_bind]. unfold enter.
    destruct (fixed_spec (block_id orig) cont targets blk) as (_ & Hi & Ht). rewrite Hi, Ht, Hm, Hxs'. cbn [mbind option_bind].
    eexists. split; [reflexivity|]. split_and!; [by eexists|done|done|done|]. by apply pos_other.
Qed.

(** An edge of the callee in the result. *)
Definition callee_edge (p p' : BlockId) : Prop := p ∈ ids g /\ p' = rb bm p \/ p = no_block /\ p' = block_id orig.

Lemma callee_edge_moves p p' blk : blk ∈ blocks g -> callee_edge p p' ->
  forall q, q ∈ flat_map phi_preds (phis blk) -> (rb bm q =? p') = (q =? p).
Proof.
  intros Hb He q Hq. destruct Hg as [(_ & Hids & _) Hpreds].
  destruct (proj1 (Forall_forall _ _) Hpreds _ Hb) as [_ Hrefs].
  assert (Hin : q ∈ ids g) by (apply (proj1 (Forall_forall _ _) Hrefs), elem_of_app; by right).
  pose proof (proj1 (Forall_forall _ _) Hids q Hin) as Hpos. cbn in Hpos. clear Hpreds. rename Hin into Hpreds. apply list_elem_of_fmap in Hpreds as (c & -> & Hc).
  pose proof (bm_range c Hc). destruct He as [[Hp ->]|[-> ->]].
  - apply list_elem_of_fmap in Hp as (d & -> & Hd). apply eq_true_iff_eq. rewrite !Z.eqb_eq. split; [by apply bm_inj|congruence].
  - pose proof (id_range _ orig_in). unfold no_block. rewrite !(proj2 (Z.eqb_neq _ _)) by lia. done.
Qed.

Lemma goto_callee p p' t rc r r' frc : goto g p t rc = Some frc -> callee_edge p p' -> renamed rc r' -> agree (next_var f) r r' ->
  exists fr', goto f' p' (rb bm t) r' = Some fr' /\ (exists blk, at_block g blk frc) /\ fr_fn fr' = f' /\
    fr_block fr' = rb bm (fr_block frc) /\ fr_insts fr' = map (clone_inst vm bm) (fr_insts frc) /\
    fr_term fr' = clone_terminator vm bm cont (fr_term frc) /\ renamed (fr_regs frc) (fr_regs fr') /\
    agree (next_var f) r (fr_regs fr').
Proof.
  intros Hgo He Hr Ha. unfold goto in Hgo. apply bind_Some in Hgo as (blk & Hl & Hgo). apply bind_Some in Hgo as (r1 & Hen & [= <-]).
  destruct Hg as [(Hn & _) _]. destruct (lookup_at g t blk Hn Hl) as [Hb <-]. unfold enter in Hen. apply bind_Some in Hen as (xs & Hxs & [= <-]).
  unfold goto. rewrite lookup_clone by done. cbn [mbind option_bind clone_block phis insts terminator]. unfold enter.
  rewrite (clone_moves vm bm p p' (phis blk)) by by apply callee_edge_moves.
  assert (Hsrc : map snd (map (fun m : VarId * VarId => (rv vm m.1, rv vm m.2)) (phi_moves p (phis blk))) = map (rv vm) (map snd (phi_moves p (phis blk)))).
  { by rewrite !map_map. }
  rewrite Hsrc, (renamed_read _ _ _ _ Hr Hxs). cbn [mbind option_bind].
  destruct (renamed_write rc r' r blk (phi_moves p (phis blk)) xs Hb) as [H1 H2]; [|done|done|].
  { intros d Hd. apply phi_moves_dst in Hd as [entries Hi]. by exists (IPhi d entries). }
  eexists. split; [reflexivity|]. cbn. split_and!; try done. by exists blk.
Qed.

(** ** Steps *)

Definition advance (fr : Frame V) (i : Inst) (rest : list Inst) (x : V) : Frame V :=
  mkFrame (fr_fn fr) (fr_block fr) rest (fr_term fr) (set_dst i x (fr_regs fr)).

Lemma resume_cons fr h stk x i rest : fr_insts fr = i :: rest -> resume (R := R) fr h stk x = Running (advance fr i rest x :: stk) h.
Proof. intros Hi. unfold resume. by rewrite Hi. Qed.

Lemma frame_inst k blk fr i rest : at_block k blk fr -> fr_insts fr = i :: rest -> i ∈ insts blk /\ forall x, at_block k blk (advance fr i rest x).
Proof.
  intros (H1 & H2 & H3 & H4 & H5) Hi. rewrite Hi in H5. split; [apply H5, elem_of_cons; by left|].
  intros x. split_and!; try done. intros j Hj. apply H5, elem_of_cons. by right.
Qed.

Lemma advance_caller fr fr' i rest x : caller_match fr fr' -> fr_insts fr = i :: rest ->
  (i = ILoadGlobal self ns name -> runs_callee g (length args) x) ->
  (exists rest', fr_insts fr' = i :: rest' /\ caller_match (advance fr i rest x) (advance fr' i rest' x)) \/
  (i = ICall cdst self args /\ rest = drop (S ii) (insts orig) /\ fr_block fr = block_id orig /\ fr_insts fr' = [] /\
   fr_block fr' = block_id orig /\ fr_term fr' = Jump (rb bm (block_id entry))).
Proof.
  intros ([blk Hat] & Hfn & Ha & Hr & Hpos) Hi Hx. destruct (frame_inst _ _ _ _ _ Hat Hi) as [Hin Hat'].
  assert (Hblk : blk ∈ blocks f) by apply Hat.
  assert (Hr' : good (set_dst i x (fr_regs fr))).
  { apply good_set_dst; [|done|done]. eapply elem_of_fn_insts; [done|]. apply elem_of_app. by right. }
  pose proof (set_dst_agree (next_var f) i x _ _ Ha) as Ha'.
  destruct Hpos as [Hb Hb' Hi' Ht|is_ Hb Hb' Hi1 Hi2 Ht|Hb Hb' Hi' Ht].
  - left. exists rest. rewrite Hi', Hi. split; [done|]. split_and!; [by exists blk|done|done|done|]. by apply pos_other.
  - rewrite Hi in Hi1. destruct is_ as [|j is_]; injection Hi1 as -> ->; [by right|]. left. exists is_.
    split; [done|]. split_and!; [by exists blk|done|done|done|]. by apply (pos_before _ _ is_).
  - left. exists rest. rewrite Hi', Hi. split; [done|]. split_and!; [by exists blk|done|done|done|]. by apply pos_after.
Qed.

Lemma advance_callee frc fr fr' i rest x : callee_match frc fr fr' -> fr_insts frc = i :: rest ->
  exists rest', fr_insts fr' = clone_inst vm bm i :: rest' /\
    callee_match (advance frc i rest x) fr (advance fr' (clone_inst vm bm i) rest' x).
Proof.
  intros ([blk Hat] & Hfn & Hb & Hi' & Ht & Hr & Hat2 & Hi2 & Ha & Hgood) Hi. destruct (frame_inst _ _ _ _ _ Hat Hi) as [Hin Hat'].
  assert (Hblk : blk ∈ blocks g) by apply Hat. rewrite Hi in Hi'. eexists. split; [exact Hi'|].
  destruct (renamed_set_dst (fr_regs frc) (fr_regs fr') (fr_regs fr) blk i x Hblk) as [Hr' Ha'];
    [apply elem_of_app; by right|done|done|].
  split_and!; try done. by exists blk.
Qed.

Lemma stacks_base b b' h : base_match b b' -> step_match stacks (Running b h) (Running (R := R) b' h).
Proof. intros Hb. exists b'. split; [done|]. exists [], b, b'. auto. Qed.

Lemma stacks_above c cs b b' h : base_match b b' -> pending b b' ->
  step_match stacks (Running (c :: cs ++ b) h) (Running (R := R) (c :: cs ++ b') h).
Proof. intros Hb Hp. eexists. split; [done|]. exists (c :: cs), b, b'. auto. Qed.

Lemma run_above fr cs b b' h : base_match b b' -> pending b b' ->
  step_match stacks (run_or_stop fr (cs ++ b) h) (run_or_stop fr (cs ++ b') h).
Proof. intros Hb Hp. destruct fr as [fr|]; [by apply stacks_above|by left]. Qed.

(** A frame above them returns to them. *)
Lemma resume_base b b' h x : base_match b b' -> pending b b' ->
  exists fr stk fr' stk', b = fr :: stk /\ b' = fr' :: stk' /\ step_match stacks (resume fr h stk x) (resume fr' h stk' x).
Proof.
  intros Hb (fr & stk & fr' & stk' & d & c & as_ & rest & i & rest' & -> & -> & Hi & Hi').
  exists fr, stk, fr', stk'. split_and!; [done|done|]. inversion Hb as [fr0 fr0' Hm|frc0 fr0 fr0' Hm]; subst.
  - destruct (advance_caller fr fr' _ _ x Hm Hi) as [(rest2 & Hi2 & Hm2)|(_ & _ & _ & Hi2 & _)]; [done| |congruence].
    rewrite (resume_cons _ _ _ _ _ _ Hi), (resume_cons _ _ _ _ _ _ Hi2). by apply stacks_base, base_caller.
  - destruct (advance_callee fr fr0 fr' _ _ x Hm Hi) as (rest2 & Hi2 & Hm2).
    rewrite (resume_cons _ _ _ _ _ _ Hi), (resume_cons _ _ _ _ _ _ Hi2). by apply stacks_base, base_callee.
Qed.

Lemma step_above c cs b b' h : base_match b b' -> pending b b' ->
  step_match stacks (step closure_of (c :: cs ++ b) h) (step closure_of (c :: cs ++ b') h).
Proof.
  intros Hb Hp. cbn [step]. destruct (fr_insts c) as [|i rest] eqn:Hi.
  - unfold step_term. destruct (fr_term c); try by apply run_above.
    + destruct (fr_regs c !! cond); [by apply run_above|by left].
    + destruct (fr_regs c !! v) as [x|]; [|by left]. destruct cs as [|c2 cs]; cbn [app].
      * destruct (resume_base b b' h x Hb Hp) as (fr & stk & fr' & stk' & -> & -> & Hm). exact Hm.
      * unfold resume. destruct (fr_insts c2); [by left|by apply stacks_above].
    + by right.
  - unfold step_inst. destruct (read_all (fr_regs c) (uses i)) as [xs|]; [|by left].
    destruct (call_of closure_of i xs) as [[k ys]|]; [by apply (run_above _ (c :: cs))|].
    destruct (exec i xs h) as [r|[x h']]; [by right|]. rewrite !(resume_cons _ _ _ _ _ _ Hi). by apply stacks_above.
Qed.

Lemma block_reads_below blk i : blk ∈ blocks f -> i ∈ insts blk -> Forall (fun u => u < next_var f) (uses i).
Proof.
  intros Hb Hi. destruct Hf as (_ & _ & _ & _ & Hr). destruct (proj1 (Forall_forall _ _) Hr _ Hb) as [Hu _].
  apply Forall_forall. intros u Hu'. apply (proj1 (Forall_forall _ _) Hu), elem_of_app. left.
  apply list_elem_of_In, in_flat_map. exists i. split; apply list_elem_of_In; [|done]. apply elem_of_app. by right.
Qed.

Lemma term_reads_below blk v : blk ∈ blocks f -> v ∈ term_uses (terminator blk) -> v < next_var f.
Proof.
  intros Hb Hv. destruct Hf as (_ & _ & _ & _ & Hr). destruct (proj1 (Forall_forall _ _) Hr _ Hb) as [Hu _].
  apply (proj1 (Forall_forall _ _) Hu), elem_of_app. by right.
Qed.

(** The registers of the callee at its start. *)
Lemma renamed_params xs r r' : agree (next_var f) r r' -> read_all r sargs = Some xs -> renamed (write_all (map snd (params g)) xs ∅) r'.
Proof.
  intros Ha Hxs v x Hv. apply write_all_back in Hv as [Hin|Hin]; [|by rewrite lookup_empty in Hin].
  pose proof sargs_below as Hbelow. pose proof (read_agree _ _ _ _ _ Ha Hbelow Hxs) as Hxs'.
  destruct Hg as [(_ & _ & Hn & _) _]. apply NoDup_app in Hn as (Hn & _ & _).
  apply list_elem_of_lookup in Hin as [k Hk]. apply lookup_zip_Some in Hk as [Hkv Hkx].
  unfold read_all in Hxs'. rewrite mapM_Some in Hxs'. destruct (Forall2_lookup_r _ _ _ _ _ Hxs' Hkx) as (s & Hs & Hrs).
  exists s. split; [|done]. destruct vm_extends as [Hsub _ _ _ _]. eapply lookup_weaken; [|exact Hsub].
  apply elem_of_list_to_map_1; [|].
  - rewrite fst_zip; [done|]. rewrite length_map. destruct Hpass as [[-> Hl]|[-> Hl]]; cbn; lia.
  - apply (list_elem_of_lookup_2 _ k), lookup_zip_Some. done.
Qed.

Lemma start_entry (xs : list V) : start g xs = goto g no_block (block_id entry) (write_all (map snd (params g)) xs ∅).
Proof. unfold start. destruct (blocks g) as [|e bs]; [done|]. by injection Hentry as ->. Qed.

(** The call enters the body. *)
Lemma step_site fr fr' h : caller_match fr fr' -> fr_block fr = block_id orig ->
  fr_insts fr = ICall cdst self args :: drop (S ii) (insts orig) -> fr_insts fr' = [] -> fr_block fr' = block_id orig ->
  fr_term fr' = Jump (rb bm (block_id entry)) ->
  step_match stacks (step_inst closure_of fr (ICall cdst self args) [] h) (step_term fr' [] h).
Proof.
  intros ([blk Hat] & Hfn & Ha & Hr & _) Hb Hi Hi' Hb' Ht. unfold step_inst. cbn [uses].
  destruct (read_all (fr_regs fr) (self :: args)) as [xs|] eqn:Hxs; [|by left].
  assert (blk = orig) as ->.
  { destruct Hat as (_ & Hin & Hid & _). exact (block_unique f blk orig (proj1 Hf) Hin orig_in (eq_trans (eq_sym Hid) Hb)). }
  unfold read_all in Hxs. cbn in Hxs. apply bind_Some in Hxs as (fv & Hfv & Hxs). apply bind_Some in Hxs as (ys & Hys & [= <-]).
  destruct (Hr fv Hfv) as (caps & Hclo & Hcaps). assert (Hlen : length ys = length args) by exact (read_length (fr_regs fr) args ys Hys).
  cbn [call_of]. rewrite Hlen, Hclo.
  assert (Hsargs : read_all (fr_regs fr) sargs = Some (caps ++ ys)).
  { destruct Hcaps as [[-> Hl]|[-> Hl]], Hpass as [[-> Hl']|[-> Hl']]; try lia; [exact Hys|].
    unfold read_all. cbn. rewrite Hfv. cbn. fold (read_all (fr_regs fr) args). unfold read_all. by rewrite Hys. }
  pose proof (renamed_params (caps ++ ys) (fr_regs fr) (fr_regs fr') Ha Hsargs) as Hren.
  unfold step_term. rewrite Ht, start_entry. destruct (goto g no_block (block_id entry) _) as [frc|] eqn:Hgo; [|by left]. cbn [run_or_stop].
  rewrite Hfn, Hb'. destruct (goto_callee no_block (block_id orig) (block_id entry) _ (fr_regs fr) (fr_regs fr') frc Hgo)
    as (fr2 & -> & Hat2 & Hfn2 & Hb2 & Hi2 & Ht2 & Hr2 & Ha2); [by right|done|done|].
  apply stacks_base, base_callee. by split_and!.
Qed.

Lemma caller_edge fr fr' t : caller_match fr fr' -> fr_insts fr = [] -> t ∈ successors (fr_term fr) ->
  fr_term fr' = fr_term fr /\ edge (fr_block fr) (fr_block fr') t.
Proof.
  intros ([blk (Hk & Hblk & Hid & Hterm & _)] & Hfn & Ha & Hr & Hpos) Hi Ht.
  destruct Hpos as [Hb Hb' Hi' Ht'|is_ Hb Hb' Hi1 Hi2 Ht'|Hb Hb' Hi' Ht'].
  - split; [done|]. left. split_and!; [done|done|]. rewrite Hid. by apply id_range.
  - rewrite Hi in Hi1. by destruct is_.
  - split; [done|]. right. split_and!; [done|done|]. rewrite Hid in Hb.
    assert (blk = orig) as -> by exact (block_unique f blk orig (proj1 Hf) Hblk orig_in Hb).
    rewrite Hterm in Ht. revert Ht Hrecur. case (terminator orig); cbn; intros; try done. exfalso. by eapply Hrecur.
Qed.

Lemma goto_caller_step fr fr' t h : caller_match fr fr' -> fr_insts fr = [] -> t ∈ successors (fr_term fr) ->
  step_match stacks (run_or_stop (goto (fr_fn fr) (fr_block fr) t (fr_regs fr)) [] h)
    (run_or_stop (goto (fr_fn fr') (fr_block fr') t (fr_regs fr')) [] h).
Proof.
  intros Hm Hi Ht. destruct (caller_edge fr fr' t Hm Hi Ht) as [_ He]. destruct Hm as ([blk (Hk & _)] & Hfn & Ha & Hr & _).
  rewrite Hk, Hfn. destruct (goto f (fr_block fr) t (fr_regs fr)) as [fr2|] eqn:Hgo; [|by left].
  destruct (goto_caller _ _ _ _ _ _ Hgo He Ha Hr) as (fr2' & -> & Hm2). by apply stacks_base, base_caller.
Qed.

Lemma step_caller fr fr' h : caller_match fr fr' -> step_match stacks (step closure_of [fr] h) (step closure_of [fr'] h).
Proof.
  intros Hm. pose proof Hm as ([blk Hat] & Hfn & Ha & Hr & Hpos). assert (Hblk : blk ∈ blocks f) by apply Hat.
  cbn [step]. destruct (fr_insts fr) as [|i rest] eqn:Hi.
  - assert (Hterm : fr_insts fr' = [] /\ fr_term fr' = fr_term fr).
    { destruct Hpos as [Hb Hb' Hi' Ht'|is_ Hb Hb' Hi1 Hi2 Ht'|Hb Hb' Hi' Ht']; try (by rewrite Hi', Hi). rewrite Hi in Hi1. by destruct is_. }
    destruct Hterm as [Hi' Ht']. rewrite Hi'. unfold step_term. rewrite Ht'.
    assert (Hread : forall v x, v ∈ term_uses (fr_term fr) -> fr_regs fr !! v = Some x -> fr_regs fr' !! v = Some x).
    { intros v x Hv. apply Ha. destruct Hat as (_ & _ & _ & Hterm & _). rewrite Hterm in Hv. by eapply term_reads_below. }
    destruct (fr_term fr) as [t|c t e|v|t as_|] eqn:Ht; rewrite <- Ht in *.
    + apply goto_caller_step; [done|done|]. rewrite Ht. by left.
    + destruct (fr_regs fr !! c) as [x|] eqn:Hc; [|by left]. rewrite (Hread c x) by (rewrite ?Ht; done || by left).
      apply goto_caller_step; [done|done|]. rewrite Ht. destruct (truth x); [by left|right; by left].
    + destruct (fr_regs fr !! v) as [x|] eqn:Hc; [|by left]. rewrite (Hread v x) by (rewrite ?Ht; done || by left). by right.
    + apply goto_caller_step; [done|done|]. rewrite Ht. by left.
    + by right.
  - destruct (frame_inst _ _ _ _ _ Hat Hi) as [Hin _].
    assert (Hcases : (exists rest', fr_insts fr' = i :: rest') \/
      (i = ICall cdst self args /\ rest = drop (S ii) (insts orig) /\ fr_block fr = block_id orig /\ fr_insts fr' = [] /\
       fr_block fr' = block_id orig /\ fr_term fr' = Jump (rb bm (block_id entry)))).
    { destruct Hpos as [Hb Hb' Hi' Ht'|is_ Hb Hb' Hi1 Hi2 Ht'|Hb Hb' Hi' Ht']; [left; exists rest; congruence| |left; exists rest; congruence].
      rewrite Hi in Hi1. destruct is_ as [|j is_]; injection Hi1 as -> ->; [by right|left; by exists is_]. }
    destruct Hcases as [[rest' Hi']|(-> & -> & Hb & Hi' & Hb' & Ht')]; [|rewrite Hi'; by apply step_site].
    rewrite Hi'. unfold step_inst. destruct (read_all (fr_regs fr) (uses i)) as [xs|] eqn:Hxs; [|by left].
    rewrite (read_agree _ _ _ _ _ Ha (block_reads_below blk i Hblk Hin) Hxs).
    destruct (call_of closure_of i xs) as [[k ys]|] eqn:Hcall'.
    + apply (run_above _ []); [by apply base_caller|]. destruct i; try done. by do 10 eexists.
    + destruct (exec i xs h) as [r|[x h']] eqn:Hex; [by right|].
      destruct (advance_caller fr fr' i rest x Hm Hi) as [(rest2 & Hi2 & Hm2)|(_ & _ & _ & Hi2 & _)]; [| |congruence].
      { intros ->. destruct xs as [|]; [|done]. by eapply Hload. }
      rewrite (resume_cons _ _ _ _ _ _ Hi), (resume_cons _ _ _ _ _ _ Hi2). by apply stacks_base, base_caller.
Qed.

Lemma find_skip {A : Type} (p : A -> bool) l1 l2 : find p l1 = None -> find p (l1 ++ l2) = find p l2.
Proof. induction l1 as [|a l1 IH]; [done|]. cbn. destruct (p a); [done|exact IH]. Qed.

Lemma site_source b v : b ∈ blocks g -> terminator b = Return v -> phi_source (rb bm (block_id b)) sites = Some (rv vm v).
Proof.
  intros Hb Ht. assert (Hg' : forall bs, (forall c, c ∈ bs -> c ∈ blocks g) -> b ∈ bs ->
    phi_source (rb bm (block_id b)) (flat_map (return_site vm bm) bs) = Some (rv vm v)); [|by apply Hg'].
  induction bs as [|c bs IH]; intros Hsub Hin; [by apply elem_of_nil in Hin|]. unfold phi_source. cbn [flat_map].
  assert (Hc : c ∈ blocks g) by (apply Hsub, elem_of_cons; by left).
  assert (Hrest : b <> c -> find (fun e => e.1 =? rb bm (block_id b)) (return_site vm bm c) = None /\ b ∈ bs).
  { intros Hne. apply elem_of_cons in Hin as [->|Hin]; [done|]. split; [|done]. unfold return_site.
    destruct (terminator c); try done. cbn. rewrite (proj2 (Z.eqb_neq _ _)); [done|]. intros He.
    apply Hne. destruct Hg as [(Hn & _) _]. exact (block_unique g b c Hn Hb Hc (bm_inj b c Hb Hc (eq_sym He))). }
  destruct (decide (block_id c = block_id b)) as [Heq|Hne].
  - assert (c = b) as -> by (destruct Hg as [(Hn & _) _]; exact (block_unique g c b Hn Hc Hb Heq)).
    unfold return_site at 1. rewrite Ht. cbn. by rewrite Z.eqb_refl.
  - destruct Hrest as [Hnone Hin']; [congruence|]. rewrite find_skip by done. apply IH; [|done].
    intros d Hd. apply Hsub, elem_of_cons. by right.
Qed.

(** A return goes on after the call. *)
Lemma step_return frc fr fr' v x h : callee_match frc fr fr' -> fr_term frc = Return v -> fr_regs frc !! v = Some x ->
  step_match stacks (resume fr h [] x) (run_or_stop (goto (fr_fn fr') (fr_block fr') cont (fr_regs fr')) [] h).
Proof.
  intros ([blk (_ & Hblk & Hid & Hterm & _)] & Hfn & Hb & Hi' & Ht & Hr & Hat2 & Hi2 & Ha & Hgood) Hret Hx.
  rewrite Hret in Hterm. pose proof (site_source blk v Hblk (eq_sym Hterm)) as Hsrc.
  assert (Hgoto : goto (fr_fn fr') (fr_block fr') cont (fr_regs fr') =
    Some (mkFrame f' cont (drop (S ii) (insts orig)) (terminator orig) (<[cdst := x]> (fr_regs fr')))).
  { unfold goto. rewrite Hfn, lookup_cont. cbn [mbind option_bind phis insts terminator]. rewrite Hb, Hid.
    destruct sites as [|s ss] eqn:Hs; [done|]. unfold enter. cbn [phi_moves]. rewrite Hsrc. cbn [map snd fst].
    assert (Hread : read_all (fr_regs fr') [rv vm v] = Some [x]).
    { unfold read_all. cbn. by rewrite (renamed_get _ _ _ _ Hr Hx). }
    by rewrite Hread. }
  rewrite Hgoto, (resume_cons _ _ _ _ _ _ Hi2). apply stacks_base, base_caller.
  destruct (frame_inst _ _ _ _ _ Hat2 Hi2) as [Hin Hat3]. split_and!; [by exists orig|done| | |].
  - exact (set_dst_agree (next_var f) (ICall cdst self args) x _ _ Ha).
  - apply good_set_dst; [|done|done]. eapply elem_of_fn_insts; [exact orig_in|]. apply elem_of_app. by right.
  - destruct Hat2 as (_ & _ & Hid2 & Hterm2 & _). by apply pos_after.
Qed.

Lemma call_of_clone i xs : call_of closure_of (clone_inst vm bm i) xs = call_of closure_of i xs.
Proof. by destruct i. Qed.

Lemma step_callee frc fr fr' h : callee_match frc fr fr' -> step_match stacks (step closure_of [frc; fr] h) (step closure_of [fr'] h).
Proof.
  intros Hm. pose proof Hm as ([blk Hat] & Hfn & Hb & Hi' & Ht & Hr & Hat2 & Hi2 & Ha & Hgood).
  assert (Hblk : blk ∈ blocks g) by apply Hat. cbn [step]. destruct (fr_insts frc) as [|i rest] eqn:Hi.
  - rewrite Hi'. cbn [map]. unfold step_term. rewrite Ht.
    assert (Hgo : forall t, step_match stacks (run_or_stop (goto (fr_fn frc) (fr_block frc) t (fr_regs frc)) [fr] h)
      (run_or_stop (goto (fr_fn fr') (fr_block fr') (rb bm t) (fr_regs fr')) [] h)).
    { intros t. destruct Hat as (Hk & _ & Hid & _). rewrite Hk, Hfn, Hb.
      destruct (goto g (fr_block frc) t (fr_regs frc)) as [frc2|] eqn:Hg2; [|by left].
      destruct (goto_callee _ (rb bm (fr_block frc)) _ _ (fr_regs fr) (fr_regs fr') _ Hg2)
        as (fr2 & -> & Hat3 & Hfn2 & Hb2 & Hi3 & Ht2 & Hr2 & Ha2); [|done|done|].
      { left. split; [|done]. rewrite Hid. by apply list_elem_of_fmap_2. }
      apply stacks_base, base_callee. by split_and!. }
    destruct (fr_term frc) as [t|c t e|v|t as_|] eqn:Htc; cbn [clone_terminator]; try apply Hgo.
    + destruct (fr_regs frc !! c) as [x|] eqn:Hc; [|by left]. rewrite (renamed_get _ _ _ _ Hr Hc). destruct (truth x); apply Hgo.
    + destruct (fr_regs frc !! v) as [x|] eqn:Hv; [|by left]. by eapply step_return.
    + by right.
  - destruct (frame_inst _ _ _ _ _ Hat Hi) as [Hin _]. rewrite Hi'. cbn [map]. unfold step_inst. rewrite clone_uses.
    destruct (read_all (fr_regs frc) (uses i)) as [xs|] eqn:Hxs; [|by left]. rewrite (renamed_read _ _ _ _ Hr Hxs), call_of_clone.
    destruct (call_of closure_of i xs) as [[k ys]|] eqn:Hcall'.
    + apply (run_above _ [] [frc; fr] [fr']); [by apply base_callee|]. destruct i; try done.
      do 10 eexists. split_and!; [done|done|exact Hi|]. rewrite Hi'. done.
    + rewrite exec_nameless. destruct (exec i xs h) as [r|[x h']] eqn:Hex; [by right|].
      destruct (advance_callee frc fr fr' i rest x Hm Hi) as (rest2 & Hi3 & Hm2).
      rewrite (resume_cons _ _ _ _ _ _ Hi), (resume_cons _ _ _ _ _ _ Hi3). by apply stacks_base, base_callee.
Qed.

Lemma step_stacks stk stk' h : stacks stk stk' -> step_match stacks (step closure_of stk h) (step closure_of stk' h).
Proof.
  intros (cs & b & b' & -> & -> & Hb & Hp). destruct cs as [|c cs].
  - destruct Hb; [by apply step_caller|by apply step_callee].
  - destruct Hp as [?|Hp]; [done|]. by apply step_above.
Qed.

(** Every run of the function and of the result make the same steps. *)
Lemma splice_runs n xs h : params f' = params f ->
  run_fn closure_of n f xs h = Some undefined \/ run_fn closure_of n f' xs h = run_fn closure_of n f xs h.
Proof.
  intros Hparams. unfold run_fn. apply (run_lockstep closure_of stacks); [apply step_stacks|].
  assert (Hheads : exists e e' bs bs', blocks f = e :: bs /\ blocks f' = e' :: bs' /\ block_id e' = block_id e).
  { pose proof raw_ids as Hids. pose proof blocks_f' as Hb'. pose proof orig_in as Ho.
    assert (Hf'ids : map block_id (blocks f') = map block_id raw).
    { rewrite Hb', map_map. apply map_ext. intros b. apply fixed_spec. }
    rewrite Hids in Hf'ids. unfold ids in Hf'ids. destruct (blocks f) as [|e bs]; [by apply elem_of_nil in Ho|].
    destruct (blocks f') as [|e' bs']; [done|]. injection Hf'ids as He _. by exists e, e', bs, bs'. }
  destruct Hheads as (e & e' & bs & bs' & Hbf & Hbf' & He). unfold start. rewrite Hbf, Hbf', He, Hparams.
  destruct (goto f no_block (block_id e) (write_all (map snd (params f)) xs ∅)) as [fr|] eqn:Hgo; [|by left].
  pose proof (id_range _ orig_in) as Hrange.
  destruct (goto_caller no_block no_block _ _ (write_all (map snd (params f)) xs ∅) _ Hgo) as (fr' & -> & Hm).
  - left. unfold no_block. split_and!; [lia|done|lia].
  - by intros v x _ Hv.
  - intros fv Hfv. apply write_all_back in Hfv as [Hin|Hin]; [|by rewrite lookup_empty in Hin].
    apply elem_of_zip_l in Hin. by apply self_not_param in Hin.
  - by apply stacks_base, base_caller.
Qed.

(** ** The result is well formed *)

Context (Hparams : params f' = params f) (Hnv : next_var f' = nv) (Hnb : next_block f' = cont + 1).

Definition block_defs_of (b : Block) : list VarId := flat_map def_of (block_insts b).

Lemma fn_defs_flat k : flat_map def_of (fn_insts k) = flat_map block_defs_of (blocks k).
Proof. unfold fn_insts, block_defs_of. induction (blocks k) as [|b bs IH]; [done|]. cbn. by rewrite flat_map_app, IH. Qed.

Lemma fixed_defs b : block_defs_of (fixed (block_id orig) cont targets b) = block_defs_of b.
Proof.
  destruct (fixed_spec (block_id orig) cont targets b) as (_ & Hi & _). unfold block_defs_of, block_insts.
  rewrite Hi, fixed_phis by apply cont_fresh. rewrite !flat_map_app. f_equal. case_bool_decide; [|done].
  induction (phis b) as [|i is_ IH]; [done|]. cbn. rewrite IH. by destruct i.
Qed.

Lemma clone_defs b : block_defs_of (clone_block vm bm cont b) = map (rv vm) (block_defs_of b).
Proof.
  unfold block_defs_of, block_insts. cbn [clone_block phis insts]. rewrite <- map_app.
  induction (phis b ++ insts b) as [|i is_ IH]; [done|]. cbn. rewrite IH, map_app. f_equal. unfold def_of. rewrite clone_dst. by destruct (dst i).
Qed.

Definition other_defs : list VarId :=
  flat_map block_defs_of (take bi (blocks f)) ++ flat_map def_of (phis orig ++ take ii (insts orig)) ++
  flat_map def_of (drop (S ii) (insts orig)) ++ flat_map block_defs_of (drop (S bi) (blocks f)).

Lemma defs_f : flat_map def_of (fn_insts f) ≡ₚ cdst :: other_defs.
Proof.
  rewrite fn_defs_flat. rewrite <- (take_drop_middle _ _ _ Horig) at 1. rewrite flat_map_app. cbn [flat_map].
  unfold block_defs_of at 2, block_insts. rewrite <- (take_drop_middle _ _ _ Hcall) at 1. unfold other_defs.
  rewrite !flat_map_app. cbn [flat_map def_of dst].
  solve_Permutation.
Qed.

Lemma defs_f' : flat_map def_of (fn_insts f') ≡ₚ
  map (rv vm) (flat_map def_of (fn_insts g)) ++ (match sites with [] => [] | _ => [cdst] end) ++ other_defs.
Proof.
  rewrite !fn_defs_flat, blocks_f'.
  assert (Hfix : forall bs, flat_map block_defs_of (map (fixed (block_id orig) cont targets) bs) = flat_map block_defs_of bs).
  { induction bs as [|b bs IH]; [done|]. cbn [map flat_map]. by rewrite IH, fixed_defs. }
  rewrite Hfix, insert_take_drop by by eapply lookup_lt_Some. rewrite !flat_map_app. cbn [flat_map].
  assert (Hcl : forall bs, flat_map block_defs_of (map (clone_block vm bm cont) bs) = map (rv vm) (flat_map block_defs_of bs)).
  { induction bs as [|b bs IH]; [done|]. cbn [map flat_map]. by rewrite IH, clone_defs, map_app. }
  rewrite Hcl. unfold other_defs, block_defs_of at 2 5. unfold block_insts. cbn [phis insts]. rewrite !flat_map_app.
  destruct sites; cbn [flat_map def_of dst]; solve_Permutation.
Qed.

Lemma vm_below v : v ∈ fn_vars g -> rv vm v < nv.
Proof.
  intros Hv. destruct vm_extends as [Hsub Hle Hnew Hdef _]. unfold rv. destruct (vm !! v) as [v'|] eqn:Hvv.
  - cbn. destruct (Hnew v v' Hvv) as [Hp|[_ ?]]; [|lia]. apply elem_of_list_to_map_2, elem_of_zip_r in Hp.
    pose proof (proj1 (Forall_forall _ _) sargs_below _ Hp). cbn in *. lia.
  - exfalso. apply elem_of_app in Hv as [Hv|Hv]; [|destruct (Hdef v Hv); congruence].
    assert (Hp : is_Some ((list_to_map (zip (map snd (params g)) sargs) : gmap VarId VarId) !! v)).
    { apply elem_of_dom. rewrite dom_list_to_map. apply elem_of_list_to_set. rewrite fst_zip; [done|].
      rewrite length_map. destruct Hpass as [[-> Hl]|[-> Hl]]; cbn; lia. }
    destruct Hp as [x Hx]. assert (vm !! v = Some x) by (by eapply lookup_weaken). congruence.
Qed.

Lemma rb_below t : t ∈ ids g -> rb bm t < cont.
Proof. intros Ht. apply list_elem_of_fmap in Ht as (b & -> & Hb). by apply bm_range. Qed.

Lemma nv_above : next_var f <= nv.
Proof. apply vm_extends. Qed.

Lemma elem_of_flat_map {A B : Type} (k : A -> list B) l y : y ∈ flat_map k l <-> exists x, x ∈ l /\ y ∈ k x.
Proof.
  rewrite list_elem_of_In, in_flat_map. split; intros (x & H1 & H2); exists x; split; by apply list_elem_of_In.
Qed.

Lemma callee_def d : d ∈ flat_map def_of (fn_insts g) ->
  exists d', vm !! d = Some d' /\ next_var f <= d' /\ forall v v', v <> d -> vm !! v = Some v' -> v' <> d'.
Proof.
  intros (i & Hi & Hd)%elem_of_flat_map. apply elem_of_flat_map in Hi as (b & Hb & Hi). unfold def_of in Hd.
  destruct (dst i) as [d0|] eqn:Hdi; [|by apply elem_of_nil in Hd]. apply list_elem_of_singleton in Hd as ->. by eapply def_fresh.
Qed.

Lemma vars_f' : NoDup (fn_vars f') /\ Forall (fun v => v < next_var f') (fn_vars f').
Proof.
  pose proof nv_above as Hle. destruct Hf as (_ & _ & Hn & Hb & _). unfold fn_vars in *. rewrite Hparams, Hnv. rewrite defs_f in Hn, Hb. rewrite defs_f'.
  apply Forall_app in Hb as [Hbp Hbo]. apply NoDup_app in Hn as (Hnp & Hdis & Hno).
  set (S_ := match sites with [] => [] | _ :: _ => [cdst] end).
  assert (HS : S_ ++ other_defs ⊆+ cdst :: other_defs).
  { unfold S_. destruct sites; cbn; [by apply submseteq_cons|done]. }
  assert (HSo : NoDup (S_ ++ other_defs)).
  { unfold S_. destruct sites; cbn; [|done]. by apply NoDup_cons in Hno as [_ ?]. }
  assert (Hin : forall v, v ∈ S_ ++ other_defs -> v ∈ cdst :: other_defs) by (intros v Hv; by eapply elem_of_submseteq).
  assert (Hlow : forall v, v ∈ S_ ++ other_defs -> v < next_var f).
  { intros v Hv. exact (proj1 (Forall_forall _ _) Hbo v (Hin v Hv)). }
  assert (Hhigh : forall v, v ∈ map (rv vm) (flat_map def_of (fn_insts g)) -> next_var f <= v).
  { intros v (d & -> & Hd)%list_elem_of_fmap. destruct (callee_def d Hd) as (d' & Hd' & Hge & _). unfold rv. by rewrite Hd'. }
  split.
  - apply NoDup_app. split_and!; [done| |apply NoDup_app; split_and!; [| |done]].
    + intros v Hv. rewrite elem_of_app. intros [Hc|Ho]; [|apply (Hdis v Hv); by apply Hin].
      pose proof (Hhigh v Hc). pose proof (proj1 (Forall_forall _ _) Hbp v Hv). cbn in *. lia.
    + destruct Hg as [(_ & _ & Hng & _) _]. apply NoDup_app in Hng as (_ & _ & Hng). apply NoDup_fmap_2_strong; [|done].
      intros d1 d2 H1 H2 He. destruct (callee_def d1 H1) as (d1' & E1 & _ & Hu). destruct (callee_def d2 H2) as (d2' & E2 & _ & _).
      unfold rv in He. rewrite E1, E2 in He. cbn in He. destruct (decide (d2 = d1)) as [->|Hne]; [done|]. exfalso. by apply (Hu d2 d2').
    + intros v Hc Ho. pose proof (Hhigh v Hc). pose proof (Hlow v Ho). lia.
  - apply Forall_forall. intros v Hv. rewrite elem_of_app, elem_of_app in Hv. destruct Hv as [Hv|[Hv|Hv]].
    + pose proof (proj1 (Forall_forall _ _) Hbp v Hv). cbn in *. lia.
    + apply list_elem_of_fmap in Hv as (d & -> & Hd). apply vm_below, elem_of_app. by right.
    + pose proof (Hlow v Hv). lia.
Qed.

Lemma fixed_reads b : block_reads (fixed (block_id orig) cont targets b) = block_reads b.
Proof.
  destruct (fixed_spec (block_id orig) cont targets b) as (_ & Hi & Ht). unfold block_reads, block_insts.
  rewrite Hi, Ht, fixed_phis by apply cont_fresh. rewrite !flat_map_app. do 2 f_equal. case_bool_decide; [|done].
  induction (phis b) as [|i is_ IH]; [done|]. cbn. rewrite IH. destruct i; try done. cbn. by rewrite map_map.
Qed.

Lemma fixed_refs b t : t ∈ block_refs (fixed (block_id orig) cont targets b) -> t = cont \/ t ∈ block_refs b.
Proof.
  destruct (fixed_spec (block_id orig) cont targets b) as (_ & _ & Ht). unfold block_refs. rewrite Ht, fixed_phis by apply cont_fresh.
  rewrite !elem_of_app. case_bool_decide; [|auto]. intros [?|Hin]; [auto|]. apply elem_of_flat_map in Hin as (i & Hi & Hin).
  apply list_elem_of_fmap in Hi as (j & -> & Hj). destruct j; cbn in Hin; try by apply elem_of_nil in Hin.
  rewrite map_map in Hin. apply list_elem_of_fmap in Hin as ([q v] & -> & Hq). cbn. destruct (q =? block_id orig); [by left|].
  right. right. apply elem_of_flat_map. eexists. split; [done|]. cbn. by apply (list_elem_of_fmap_2 fst _ (q, v)).
Qed.

(** Reads and jumps of a block stay in range. *)
Definition in_range_block (b : Block) : Prop :=
  (forall v, v ∈ block_reads b -> v < nv) /\ (forall t, t ∈ block_refs b -> t < cont + 1).

Lemma caller_in_range b : b ∈ blocks f -> in_range_block b.
Proof.
  intros Hb. destruct Hf as (_ & _ & _ & _ & Hr). destruct (proj1 (Forall_forall _ _) Hr _ Hb) as [Hv Ht].
  rewrite Forall_forall in Hv. pose proof nv_above. destruct cont_fresh as [_ Hc]. split.
  - intros v Hin. specialize (Hv v Hin). cbn in Hv. lia.
  - intros t Hin. pose proof (proj1 (Forall_forall _ _) Ht t Hin). cbn in *. lia.
Qed.

Lemma callee_in_range b : b ∈ blocks g -> in_range_block (clone_block vm bm cont b).
Proof.
  intros Hb. destruct Hg as [_ Hc]. destruct (proj1 (Forall_forall _ _) Hc _ Hb) as [Hv Ht]. rewrite Forall_forall in Hv.
  pose proof (fun t H => proj1 (Forall_forall _ _) Ht t H) as Ht'. cbn in Ht'. clear Ht. split.
  - intros v Hin. apply elem_of_app in Hin as [Hin|Hin].
    + apply elem_of_flat_map in Hin as (i & Hi & Hin). unfold block_insts in Hi. cbn [clone_block phis insts] in Hi. rewrite <- map_app in Hi.
      apply list_elem_of_fmap in Hi as (j & -> & Hj). rewrite clone_uses in Hin. apply list_elem_of_fmap in Hin as (u & -> & Hu).
      apply vm_below, Hv, elem_of_app. left. apply elem_of_flat_map. eauto.
    + assert (Hu : exists u, v = rv vm u /\ u ∈ term_uses (terminator b)).
      { cbn [clone_block terminator] in Hin. destruct (terminator b); cbn in Hin |- *; try by apply elem_of_nil in Hin.
        - apply list_elem_of_singleton in Hin as ->. eexists. split; [done|]. by left.
        - by apply list_elem_of_fmap in Hin. }
      destruct Hu as (u & -> & Hu). apply vm_below, Hv, elem_of_app. by right.
  - intros t Hin. apply elem_of_app in Hin as [Hin|Hin].
    + assert (Hu : t = cont \/ exists u, t = rb bm u /\ u ∈ successors (terminator b)).
      { cbn [clone_block terminator] in Hin. destruct (terminator b); cbn in Hin |- *; try by apply elem_of_nil in Hin.
        - apply list_elem_of_singleton in Hin as ->. right. eexists. split; [done|]. by left.
        - right. apply elem_of_cons in Hin as [->|Hin]; [|apply list_elem_of_singleton in Hin as ->]; eexists; (split; [done|]); set_solver.
        - apply list_elem_of_singleton in Hin. by left.
        - apply list_elem_of_singleton in Hin as ->. right. eexists. split; [done|]. by left. }
      destruct Hu as [->|(u & -> & Hu)]; [lia|]. pose proof (rb_below u (Ht' u (proj2 (elem_of_app _ _ _) (or_introl Hu)))). lia.
    + apply elem_of_flat_map in Hin as (i & Hi & Hin). cbn [clone_block phis] in Hi. apply list_elem_of_fmap in Hi as (j & -> & Hj).
      destruct j; cbn in Hin; try by apply elem_of_nil in Hin. rewrite map_map in Hin. apply list_elem_of_fmap in Hin as ([q v] & -> & Hq). cbn.
      assert (Hq' : q ∈ ids g).
      { apply Ht', elem_of_app. right. apply elem_of_flat_map. eexists. split; [done|]. cbn. by apply (list_elem_of_fmap_2 fst _ (q, v)). }
      pose proof (rb_below q Hq'). lia.
Qed.

Lemma entry_in : entry ∈ blocks g.
Proof. destruct (blocks g) as [|e bs]; [done|]. injection Hentry as ->. by left. Qed.

Lemma pre_in_range : in_range_block pre.
Proof.
  destruct (caller_in_range orig orig_in) as [Hv Ht]. split.
  - intros v Hin. apply Hv. apply elem_of_app in Hin as [Hin|Hin]; [|by apply elem_of_nil in Hin].
    apply elem_of_app. left. apply elem_of_flat_map in Hin as (i & Hi & Hin). apply elem_of_flat_map. exists i. split; [|done].
    unfold block_insts in *. cbn [phis insts] in Hi. rewrite elem_of_app in *. destruct Hi as [?|Hi]; [by left|right].
    apply elem_of_take in Hi as (k & Hk & _). by apply (list_elem_of_lookup_2 _ k).
  - intros t Hin. apply elem_of_app in Hin as [Hin|Hin].
    + apply list_elem_of_singleton in Hin as ->. pose proof (bm_range entry entry_in). lia.
    + apply Ht, elem_of_app. by right.
Qed.

Lemma post_in_range : in_range_block post.
Proof.
  destruct (caller_in_range orig orig_in) as [Hv Ht].
  assert (Hsites : forall e, e ∈ sites -> e.1 < cont + 1 /\ e.2 < nv).
  { intros e (b & Hb & He)%elem_of_flat_map. unfold return_site in He. destruct (terminator b) eqn:Htb; try by apply elem_of_nil in He.
    apply list_elem_of_singleton in He as ->. cbn. pose proof (bm_range b Hb). split; [lia|]. apply vm_below.
    destruct Hg as [_ Hc]. destruct (proj1 (Forall_forall _ _) Hc _ Hb) as [Hr _]. rewrite Forall_forall in Hr.
    apply Hr, elem_of_app. right. rewrite Htb. by left. }
  assert (Hphis : forall i, i ∈ phis post -> i = IPhi cdst sites).
  { cbn [phis]. intros i. destruct sites; intros Hi; [by apply elem_of_nil in Hi|by apply list_elem_of_singleton in Hi]. }
  split.
  - intros v Hin. apply elem_of_app in Hin as [Hin|Hin]; [|apply Hv, elem_of_app; by right].
    apply elem_of_flat_map in Hin as (i & Hi & Hin). apply elem_of_app in Hi as [Hi|Hi].
    + rewrite (Hphis i Hi) in Hin. cbn [uses] in Hin. apply list_elem_of_fmap in Hin as (e & -> & He). by apply Hsites.
    + apply Hv, elem_of_app. left. apply elem_of_flat_map. exists i. split; [|done]. apply elem_of_app. right. cbn [insts] in Hi.
      apply list_elem_of_lookup in Hi as [k Hk]. rewrite lookup_drop in Hk. by eapply list_elem_of_lookup_2.
  - intros t Hin. apply elem_of_app in Hin as [Hin|Hin]; [apply Ht, elem_of_app; by left|].
    apply elem_of_flat_map in Hin as (i & Hi & Hin). rewrite (Hphis i Hi) in Hin. cbn [phi_preds] in Hin.
    apply list_elem_of_fmap in Hin as (e & -> & He). by apply Hsites.
Qed.

Lemma raw_cases b : b ∈ raw -> b ∈ blocks f \/ b = pre \/ (exists c, c ∈ blocks g /\ b = clone_block vm bm cont c) \/ b = post.
Proof.
  intros Hb. apply elem_of_app in Hb as [Hb|Hb]; [|apply elem_of_app in Hb as [Hb|Hb]].
  - apply list_elem_of_lookup in Hb as [k Hk]. destruct (decide (k = bi)) as [->|Hne].
    + rewrite list_lookup_insert_eq in Hk by by eapply lookup_lt_Some. injection Hk as <-. auto.
    + rewrite list_lookup_insert_ne in Hk by done. left. by eapply list_elem_of_lookup_2.
  - apply list_elem_of_fmap in Hb as (c & -> & Hc). right. right. left. by exists c.
  - apply list_elem_of_singleton in Hb. auto.
Qed.

Lemma splice_ssa : ssa f'.
Proof.
  destruct vars_f' as [Hnd Hbelow]. unfold ssa. split_and!; [apply f'_nodup| |done|done|].
  - assert (Hids : ids f' = ids f ++ map (fun b => rb bm (block_id b)) (blocks g) ++ [cont]).
    { unfold ids at 1. rewrite blocks_f', map_map, <- raw_ids. apply map_ext. intros b. apply fixed_spec. }
    rewrite Hids, Hnb. destruct cont_fresh as [_ Hc]. pose proof (id_range _ orig_in) as Hpos. rewrite !Forall_app. split_and!.
    + apply Forall_forall. intros b Hb. apply list_elem_of_fmap in Hb as (c & -> & Hb). pose proof (id_range c Hb). lia.
    + apply Forall_forall. intros b Hb. apply list_elem_of_fmap in Hb as (c & -> & Hb). pose proof (bm_range c Hb). lia.
    + constructor; [lia|done].
  - rewrite blocks_f', Hnv, Hnb. apply Forall_fmap, Forall_forall. intros b Hb. cbn.
    assert (Hrange : in_range_block b).
    { destruct (raw_cases b Hb) as [?|[->|[(c & Hc & ->)| ->]]];
        [by apply caller_in_range|apply pre_in_range|by apply callee_in_range|apply post_in_range]. }
    destruct Hrange as [Hv Ht]. rewrite fixed_reads. split; [by apply Forall_forall|].
    apply Forall_forall. intros t [->|Hin]%fixed_refs; [lia|by apply Ht].
Qed.

(** ** Calls *)

Definition is_call (i : Inst) : bool := match i with ICall _ _ _ => true | _ => false end.
Definition is_recur (t : Terminator) : bool := match t with RecurJump _ _ => true | _ => false end.

(** No call stands in a block that ends in [recur]. *)
Definition recur_clear (k : IrFunction) : Prop :=
  Forall (fun b => is_recur (terminator b) = true -> Forall (fun i => is_call i = false) (insts b)) (blocks k).

Lemma splice_clear : recur_clear f -> recur_clear g -> recur_clear f'.
Proof.
  intros Hcf Hcg. unfold recur_clear. rewrite blocks_f'. apply Forall_fmap, Forall_forall. intros b Hb. cbn.
  destruct (fixed_spec (block_id orig) cont targets b) as (_ & -> & ->).
  destruct (raw_cases b Hb) as [Hin|[->|[(c & Hc & ->)| ->]]].
  - exact (proj1 (Forall_forall _ _) Hcf b Hin).
  - done.
  - intros Hr. cbn [clone_block insts terminator] in *. assert (Hr' : is_recur (terminator c) = true) by by destruct (terminator c).
    apply Forall_fmap. eapply Forall_impl; [exact (proj1 (Forall_forall _ _) Hcg c Hc Hr')|]. intros i Hi. by destruct i.
  - cbn [terminator]. intros Hr. exfalso. revert Hr Hrecur. case (terminator orig); try done. intros t as_ _ Hno. by eapply Hno.
Qed.

(** A load of a global is still there. *)
Lemma splice_loads d ns' name' : ILoadGlobal d ns' name' ∈ fn_insts f -> ILoadGlobal d ns' name' ∈ fn_insts f'.
Proof.
  intros (b & Hb & Hi)%elem_of_flat_map.
  assert (Hkeep : forall c, c ∈ raw -> ILoadGlobal d ns' name' ∈ block_insts c -> ILoadGlobal d ns' name' ∈ fn_insts f').
  { intros c Hc Hin. apply elem_of_flat_map. exists (fixed (block_id orig) cont targets c). split.
    - rewrite blocks_f'. by apply list_elem_of_fmap_2.
    - destruct (fixed_spec (block_id orig) cont targets c) as (_ & Hic & _). unfold block_insts in *. rewrite Hic, fixed_phis by apply cont_fresh.
      rewrite elem_of_app in Hin |- *. destruct Hin as [Hin|Hin]; [|by right]. left. case_bool_decide; [|done].
      by apply (list_elem_of_fmap_2 (rename_pred (block_id orig) cont)) in Hin. }
  destruct (decide (block_id b = block_id orig)) as [Heq|Hne].
  - assert (b = orig) as -> by exact (block_unique f b orig (proj1 Hf) Hb orig_in Heq).
    apply elem_of_app in Hi as [Hi|Hi].
    + apply (Hkeep pre); [|apply elem_of_app; by left]. apply elem_of_app. left. apply (list_elem_of_lookup_2 _ bi), list_lookup_insert_eq.
      by eapply lookup_lt_Some.
    + rewrite <- (take_drop_middle _ _ _ Hcall) in Hi. apply elem_of_app in Hi as [Hi|Hi].
      * apply (Hkeep pre); [|apply elem_of_app; by right]. apply elem_of_app. left. apply (list_elem_of_lookup_2 _ bi), list_lookup_insert_eq.
        by eapply lookup_lt_Some.
      * apply elem_of_cons in Hi as [?|Hi]; [done|]. apply (Hkeep post); [|apply elem_of_app; by right].
        apply elem_of_app. right. apply elem_of_app. right. by apply list_elem_of_singleton.
  - apply (Hkeep b); [|done]. apply elem_of_app. left. apply list_elem_of_lookup_1 in Hb as [k Hk]. apply (list_elem_of_lookup_2 _ k).
    rewrite list_lookup_insert_ne; [done|]. intros ->. congruence.
Qed.

End Splice.
