(* ===== verification/InlineTheorems.v ===== *)
(** The inlining pass as a whole: it ends, and every function of the unit runs as
    before.

    The inlining pass on small units: a unit it is right about, and four it
    is not. *)
From stdpp Require Import gmap strings.
From S2P Require Import Prelude RustStd Token Lexer Ir Reloop ReloopSem ReloopGraph IrInterp OsrSem OsrSpec Inline InlineSem InlineSpec.
Local Open Scope Z_scope.

(** * Conditions on the functions of a unit *)

(** A function calls what it has computed, not a parameter. *)
Definition calls_computed (g : IrFunction) : Prop :=
  Forall (fun i => match i with ICall _ c _ => c ∉ map snd (params g) | _ => True end) (fn_insts g).

(** Parameters for the arguments, or for the closure and the arguments. *)
Definition params_fit (g : IrFunction) (n : nat) : Prop := length (params g) = n \/ length (params g) = S n.

#[export] Instance recur_clear_dec k : Decision (recur_clear k).
Proof. unfold recur_clear. apply _. Defined.

#[export] Instance calls_computed_dec g : Decision (calls_computed g).
Proof. unfold calls_computed. apply Forall_dec. intros []; apply _. Defined.

(** * Calls that a round can replace *)

Section Tracked.
Context (vd : gmap VarId Inst).

Definition tracked (i : Inst) : bool := match i with ICall _ c _ => bool_decide (is_Some (vd !! c)) | _ => false end.

Definition tracked_calls (bs : list Block) : nat := sum_list_with (fun b => length (List.filter tracked (insts b))) bs.

Lemma tracked_calls_app bs1 bs2 : tracked_calls (bs1 ++ bs2) = (tracked_calls bs1 + tracked_calls bs2)%nat.
Proof. apply sum_list_with_app. Qed.

Lemma tracked_calls_map k bs : (forall b, insts (k b) = insts b) -> tracked_calls (map k bs) = tracked_calls bs.
Proof.
  intros Hk. unfold tracked_calls. induction bs as [|b bs IH]; [done|]. cbn [map sum_list_with]. by rewrite IH, Hk.
Qed.

Lemma tracked_calls_none bs : (forall b i, b ∈ bs -> i ∈ insts b -> tracked i = false) -> tracked_calls bs = 0%nat.
Proof.
  intros Hn. unfold tracked_calls. induction bs as [|b bs IH]; [done|]. cbn [sum_list_with].
  rewrite IH by (intros c i Hc; apply Hn, elem_of_cons; by right). rewrite Nat.add_0_r.
  assert (Hb : forall i, i ∈ insts b -> tracked i = false) by (intros i; apply Hn, elem_of_cons; by left).
  induction (insts b) as [|i is_ IHi]; [done|]. cbn. rewrite (Hb i) by (apply elem_of_cons; by left).
  apply IHi. intros j Hj. apply Hb, elem_of_cons. by right.
Qed.

Lemma tracked_split is_ ii i : is_ !! ii = Some i -> tracked i = true ->
  (length (List.filter tracked (drop (S ii) is_)) + 1 <= length (List.filter tracked is_))%nat.
Proof.
  intros Hi Ht. rewrite <- (take_drop_middle _ _ _ Hi) at 2. rewrite List.filter_app, length_app. cbn [List.filter]. rewrite Ht. cbn. lia.
Qed.
End Tracked.

(** * Induction on trees of functions *)

Section TreeInd.
Context (P : IrFunction -> Prop) (Hstep : forall f, Forall P (subfunctions f) -> P f).

Fixpoint ir_tree_ind (f : IrFunction) : P f :=
  let fix go (fs : list IrFunction) : Forall P fs :=
    match fs with
    | [] => Forall_nil_2 P
    | g :: fs' => Forall_cons_2 P g fs' (ir_tree_ind g) (go fs')
    end in
  Hstep f (go (subfunctions f)).
End TreeInd.

Lemma walk_functions_eq f : walk_functions f = f :: flat_map walk_functions (subfunctions f).
Proof. by destruct f. Qed.

Section Unit.
Context {V H R : Type} {SH : SsaHost V H R} (closure_of : V -> nat -> option (IrFunction * list V)).
Context (exec_nameless : nameless).

(** The second function runs as the first, unless that reads a register it has
    not written. *)
Definition same_runs (f f' : IrFunction) : Prop :=
  forall n xs h, run_fn closure_of n f xs h = Some undefined \/ run_fn closure_of n f' xs h = run_fn closure_of n f xs h.

Lemma same_runs_refl f : same_runs f f.
Proof. by right. Qed.

Lemma same_runs_trans f1 f2 f3 : same_runs f1 f2 -> same_runs f2 f3 -> same_runs f1 f3.
Proof.
  intros H12 H23 n xs h. destruct (H12 n xs h) as [?|E]; [by left|]. destruct (H23 n xs h) as [E'|E'].
  - left. congruence.
  - right. congruence.
Qed.

(** ** Only the blocks of a function matter *)

Definition code_match (fr fr' : Frame V) : Prop :=
  blocks (fr_fn fr') = blocks (fr_fn fr) /\ fr_block fr' = fr_block fr /\ fr_insts fr' = fr_insts fr /\ fr_term fr' = fr_term fr /\
  fr_regs fr' = fr_regs fr.

Lemma code_match_refl fr : code_match fr fr.
Proof. by split_and!. Qed.

Lemma goto_code k k' p t r stk stk' (h : H) : blocks k' = blocks k -> Forall2 code_match stk stk' ->
  step_match (Forall2 code_match) (run_or_stop (goto k p t r) stk h) (run_or_stop (R := R) (goto k' p t r) stk' h).
Proof.
  intros Hb Hs. unfold goto, lookup_block, index_of. rewrite Hb. destruct (index_from 0 (blocks k) ∅ !! t) as [i|]; [|by left].
  cbn. destruct (blocks k !! i) as [blk|]; [|by left]. cbn. destruct (enter p (phis blk) r); [|by left].
  eexists. split; [done|]. by constructor.
Qed.

Lemma resume_code fr fr' stk stk' (h : H) x : code_match fr fr' -> Forall2 code_match stk stk' ->
  step_match (Forall2 code_match) (resume fr h stk x) (resume (R := R) fr' h stk' x).
Proof.
  intros (Hb & Hid & Hi & Ht & Hr) Hs. unfold resume. rewrite Hi. destruct (fr_insts fr); [by left|]. eexists. split; [done|].
  constructor; [|done]. rewrite Hid, Ht, Hr. by split_and!.
Qed.

Lemma step_code stk stk' h : Forall2 code_match stk stk' ->
  step_match (Forall2 code_match) (step closure_of stk h) (step closure_of stk' h).
Proof.
  intros [|fr fr' rest rest' Hm Hs]; [by left|]. pose proof Hm as (Hb & Hid & Hi & Ht & Hr). cbn [step]. rewrite Hi.
  destruct (fr_insts fr) as [|i is_].
  - unfold step_term. rewrite Ht, Hr, Hid. destruct (fr_term fr); try by apply goto_code.
    + destruct (fr_regs fr !! cond); [by apply goto_code|by left].
    + destruct (fr_regs fr !! v); [|by left]. destruct Hs; [by right|by apply resume_code].
    + by right.
  - unfold step_inst. rewrite Hr. destruct (read_all (fr_regs fr) (uses i)) as [ys|]; [|by left].
    destruct (call_of closure_of i ys) as [[k zs]|].
    + destruct (start k zs) as [fr2|]; [|by left]. eexists. split; [done|]. by repeat (constructor; auto using code_match_refl).
    + destruct (exec i ys h) as [r|[x h']]; [by right|by apply resume_code].
Qed.

(** A function with the same blocks and parameters runs the same. *)
Lemma same_body_runs f f' : blocks f' = blocks f -> params f' = params f -> same_runs f f'.
Proof.
  intros Hb Hp n xs h. unfold run_fn. apply (run_lockstep closure_of (Forall2 code_match)); [apply step_code|].
  unfold start. rewrite Hb, Hp. destruct (blocks f) as [|e bs] eqn:He; [by left|]. apply goto_code; [congruence|done].
Qed.

(** * One call *)

Lemma passes_fit {A : Type} g (self : A) args : params_fit g (length args) -> exists sargs, passes (params g) self args sargs.
Proof. intros [Hl|Hl]; [exists args; by left|exists (self :: args); by right]. Qed.

Lemma do_inline_step {E : Type} f bi ii orig g self cdst args ns name :
  ssa f -> recur_clear f -> closed g -> recur_clear g -> calls_computed g -> blocks g <> [] -> params_fit g (length args) ->
  blocks f !! bi = Some orig -> insts orig !! ii = Some (ICall cdst self args) ->
  ILoadGlobal self ns name ∈ fn_insts f ->
  (forall h fv h', exec (ILoadGlobal self ns name) [] h = inr (fv, h') -> runs_callee closure_of g (length args) fv) ->
  exists f', do_inline (E := E) f bi ii g self args cdst = Ok f' /\ ssa f' /\ recur_clear f' /\ same_runs f f' /\ subfunctions f' = subfunctions f /\
    (forall d ns' name', ILoadGlobal d ns' name' ∈ fn_insts f -> ILoadGlobal d ns' name' ∈ fn_insts f') /\
    next_var f <= next_var f' /\ length (blocks f') = (length (blocks f) + length (blocks g) + 1)%nat /\
    forall vd : gmap VarId Inst, (forall v, is_Some (vd !! v) -> v < next_var f) -> is_Some (vd !! self) ->
      (tracked_calls vd (drop (S bi) (blocks f')) + 1 <= tracked_calls vd (drop bi (blocks f)))%nat.
Proof.
  intros Hf Hcf Hg Hcg Hlocal Hne Hfit Horig Hcall Hglobal Hload. destruct (passes_fit g self args Hfit) as [sargs Hpass].
  assert (Hnp : NoDup (map snd (params g))) by (destruct Hg as [(_ & _ & Hn & _) _]; by apply NoDup_app in Hn as (? & _)).
  destruct (head (blocks g)) as [entry|] eqn:Hentry; [|by destruct (blocks g)].
  assert (Hrecur : forall t as_, terminator orig <> RecurJump t as_).
  { intros t as_ Ht. assert (Ho : orig ∈ blocks f) by (by eapply list_elem_of_lookup_2).
    pose proof (proj1 (Forall_forall _ _) Hcf orig Ho) as Hc. cbn in Hc. rewrite Ht in Hc.
    assert (Hi : ICall cdst self args ∈ insts orig) by (by eapply list_elem_of_lookup_2).
    by pose proof (proj1 (Forall_forall _ _) (Hc eq_refl) _ Hi). }
  unfold do_inline. rewrite (param_map_ok _ _ _ _ Hpass Hnp). cbn [mbind outcome_bind].
  destruct (fresh_vars_of (blocks g) _) as [vm nv] eqn:Hvm. destruct (fold_left fresh_block (blocks g) _) as [bm cont] eqn:Hbm.
  rewrite Hentry, Horig. eexists. split; [reflexivity|].
  match goal with |- ssa ?k /\ _ => set (f' := k) end.
  assert (Hf' : blocks f' = blocks f') by done. unfold f' in Hf' at 2. cbn [with_body blocks] in Hf'.
  assert (Hf'map := blocks_f' f g f' bi ii cdst vm bm cont entry orig Hf Hg Horig Hbm Hf').
  pose proof (vm_extends f g sargs vm nv Hvm) as Hext.
  split_and!.
  - by eapply (splice_ssa closure_of exec_nameless f g f' bi ii self cdst args sargs vm nv bm cont entry orig).
  - by eapply (splice_clear f g f' bi ii cdst vm bm cont entry orig).
  - intros n xs h. by eapply (splice_runs closure_of exec_nameless f g f' bi ii self cdst args sargs vm nv bm cont entry orig).
  - done.
  - intros d ns' name'. by eapply (splice_loads f g f' bi ii self cdst args vm bm cont entry orig).
  - apply Hext.
  - rewrite Hf'map, length_map, !length_app, length_insert, length_map. cbn. lia.
  - intros vd Hvd Hself. rewrite Hf'map, skipn_map, tracked_calls_map by (intros b; apply fixed_spec).
    assert (Hlt : (bi < length (blocks f))%nat) by (by eapply lookup_lt_Some).
    rewrite drop_app_le by (rewrite length_insert; lia). rewrite drop_insert_lt by lia. rewrite !tracked_calls_app.
    rewrite (tracked_calls_none vd (map _ (blocks g))).
    + rewrite (drop_S _ _ _ Horig). change (orig :: drop (S bi) (blocks f)) with ([orig] ++ drop (S bi) (blocks f)). rewrite tracked_calls_app.
      unfold tracked_calls. cbn [sum_list_with insts].
      pose proof (tracked_split vd (insts orig) ii _ Hcall (bool_decide_eq_true_2 _ Hself)). lia.
    + intros b i Hb Hi. apply list_elem_of_fmap in Hb as (c & -> & Hc). cbn [clone_block insts] in Hi.
      apply list_elem_of_fmap in Hi as (j & -> & Hj). destruct j; try done. cbn. apply bool_decide_eq_false. intros Hs%Hvd.
      assert (Hjc : ICall dst callee args0 ∈ fn_insts g) by (eapply elem_of_fn_insts; [exact Hc|]; apply elem_of_app; by right).
      assert (Hvars : callee ∈ fn_vars g).
      { destruct Hg as [_ Hcl]. destruct (proj1 (Forall_forall _ _) Hcl _ Hc) as [Hr _]. apply (proj1 (Forall_forall _ _) Hr).
        apply elem_of_app. left. apply elem_of_flat_map. eexists. split; [apply elem_of_app; right; exact Hj|]. by left. }
      apply elem_of_app in Hvars as [Hp|Hd]; [by apply (proj1 (Forall_forall _ _) Hlocal _ Hjc)|].
      destruct (callee_def f g bi ii self cdst args sargs vm nv orig Hf Hg Horig Hcall Hpass Hvm callee Hd) as (d' & Hd' & Hge & _).
      unfold rv in Hs. rewrite Hd' in Hs. cbn in Hs. lia.
Qed.

(** * Rounds *)

Context (registry : gmap Name IrFunction) (defn_map : gmap (Name * Name) ClosureInfo).

(** The name stands for the function when it is called with [n] arguments. *)
Definition defines (ns name : Name) (n : nat) (g : IrFunction) : Prop :=
  exists info fname, defn_map !! (ns, name) = Some info /\ find_arity info n = Some fname /\ registry !! fname = Some g.

Context (Hfns : forall name g, registry !! name = Some g -> closed g /\ recur_clear g /\ calls_computed g).
Context (Harity : forall ns name n g, defines ns name n g -> params_fit g n).
Context (Hglobals : forall ns name n g, defines ns name n g ->
  forall d h fv h', exec (ILoadGlobal d ns name) [] h = inr (fv, h') -> runs_callee closure_of g n fv).

Lemma find_call_Some vd forbidden k is_ idx g self args d :
  find_call registry defn_map vd forbidden k is_ = Some (idx, g, self, args, d) ->
  exists ii, idx = (k + ii)%nat /\ is_ !! ii = Some (ICall d self args) /\ is_eligible g forbidden = true /\
    (exists name, registry !! name = Some g) /\
    exists d0 ns name, vd !! self = Some (ILoadGlobal d0 ns name) /\ defines ns name (length args) g.
Proof.
  revert k. induction is_ as [|i is_ IH]; intros k Hf; [done|].
  assert (Hrec : find_call registry defn_map vd forbidden (S k) is_ = Some (idx, g, self, args, d) -> exists ii, idx = (k + ii)%nat /\
    (i :: is_) !! ii = Some (ICall d self args) /\ is_eligible g forbidden = true /\ (exists name, registry !! name = Some g) /\
    exists d0 ns name, vd !! self = Some (ILoadGlobal d0 ns name) /\ defines ns name (length args) g).
  { intros Hr. destruct (IH _ Hr) as (ii & -> & Hi & He). exists (S ii). split; [lia|done]. }
  destruct i; cbn [find_call] in Hf; try by apply Hrec.
  destruct (resolve_call callee (length args0) vd defn_map registry) as [[fname g']|] eqn:Hres; [|by apply Hrec].
  destruct (is_eligible g' forbidden) eqn:Hel; [|by apply Hrec]. injection Hf as <- <- <- <- <-. exists O. rewrite Nat.add_0_r.
  unfold resolve_call in Hres. apply bind_Some in Hres as (i & Hi & Hres). destruct i; try done.
  apply bind_Some in Hres as (info & Hinfo & Hres). apply bind_Some in Hres as (fname' & Hfind & Hres).
  apply bind_Some in Hres as (g'' & Hreg & [= <- <-]). split_and!; [done|done|done|eauto|]. do 3 eexists. split; [done|]. by exists info, fname'.
Qed.

(** The loads the round relies on are there. *)
Definition loads_in (vd : gmap VarId Inst) (f : IrFunction) : Prop :=
  (forall v d ns name, vd !! v = Some (ILoadGlobal d ns name) -> ILoadGlobal v ns name ∈ fn_insts f) /\
  forall v, is_Some (vd !! v) -> v < next_var f.

Definition registry_bound : nat := map_fold (fun _ g n => Nat.max (length (blocks g)) n) O registry.

Lemma registry_bound_ok name g : registry !! name = Some g -> (length (blocks g) <= registry_bound)%nat.
Proof.
  unfold registry_bound. revert name g. apply (map_fold_weak_ind (fun n m => forall name g, m !! name = Some g -> (length (blocks g) <= n)%nat)).
  - intros name g Hg. by rewrite lookup_empty in Hg.
  - intros k g0 m n Hk IH name g Hg. apply lookup_insert_Some in Hg as [[-> ->]|[Hne Hg]]; [lia|]. specialize (IH _ _ Hg). lia.
Qed.

(** Blocks that are left, and those that calls can still add. *)
Definition round_measure (vd : gmap VarId Inst) (idx : nat) (f : IrFunction) : nat :=
  (length (drop idx (blocks f)) + tracked_calls vd (drop idx (blocks f)) * S registry_bound)%nat.

Lemma round_ok {E : Type} vd forbidden m : forall idx f changed,
  (round_measure vd idx f <= m)%nat -> ssa f -> recur_clear f -> loads_in vd f ->
  exists f' changed', (forall fuel, (m <= fuel)%nat -> round_loop registry defn_map (E := E) fuel vd forbidden idx f changed = Ok (f', changed')) /\
    ssa f' /\ recur_clear f' /\ same_runs f f' /\ subfunctions f' = subfunctions f.
Proof.
  induction m as [|m IH]; intros idx f changed Hm Hf Hc Hl.
  { exists f, changed. split_and!; [|done|done|apply same_runs_refl|done]. intros fuel _. unfold round_measure in Hm.
    assert (Hnone : blocks f !! idx = None) by (apply lookup_ge_None; rewrite length_drop in Hm; lia).
    destruct fuel; cbn; by rewrite Hnone. }
  destruct (blocks f !! idx) as [b|] eqn:Hb.
  2:{ exists f, changed. split_and!; [|done|done|apply same_runs_refl|done]. intros [|fuel] _; cbn; by rewrite Hb. }
  destruct (find_call registry defn_map vd forbidden 0 (insts b)) as [[[[[ii g] self] args] d]|] eqn:Hcall.
  - destruct (find_call_Some _ _ _ _ _ _ _ _ _ Hcall) as (k & -> & Hi & Hel & [fname Hreg] & d0 & ns & name & Hvd & Hdef).
    destruct (Hfns fname g Hreg) as (Hg & Hcg & Hlocal). destruct Hl as [Hl1 Hl2].
    assert (Hne : blocks g <> []).
    { unfold is_eligible in Hel. repeat (apply andb_true_iff in Hel as [Hel ?]). by repeat match goal with H : bool_decide _ = true |- _ => apply bool_decide_eq_true in H end. }
    destruct (do_inline_step (E := E) f idx k b g self d args ns name) as (f1 & Hdo & Hf1 & Hc1 & Hs1 & Hsub1 & Hload1 & Hnv & Hlen & Htr); try done.
    { by eapply Harity. } { by eapply Hl1. } { intros h fv h'. by eapply Hglobals. }
    specialize (Htr vd Hl2 ltac:(by eexists)). pose proof (registry_bound_ok fname g Hreg) as Hbound.
    destruct (IH (S idx) f1 true) as (f' & ch' & Hloop & Hf' & Hc' & Hs' & Hsub').
    + unfold round_measure in *. rewrite !length_drop in *. rewrite Hlen. apply lookup_lt_Some in Hb. nia.
    + done.
    + done.
    + split; [intros v d1 ns1 name1 Hv; eapply Hload1, Hl1; exact Hv|intros v Hv; specialize (Hl2 v Hv); lia].
    + exists f', ch'. split_and!; [|done|done|by eapply same_runs_trans|congruence]. intros [|fuel] Hfuel; [lia|]. cbn [round_loop].
      rewrite Hb, Hcall. cbn [Nat.add] in Hdo |- *. rewrite Hdo. cbn [mbind outcome_bind]. apply Hloop. lia.
  - destruct (IH (S idx) f changed) as (f' & ch' & Hloop & Hrest); [|done|done|done|].
    + unfold round_measure in *. rewrite (drop_S _ _ _ Hb) in Hm. cbn [length] in Hm.
      change (b :: drop (S idx) (blocks f)) with ([b] ++ drop (S idx) (blocks f)) in Hm. rewrite tracked_calls_app in Hm. nia.
    + exists f', ch'. split; [|done]. intros [|fuel] Hfuel; [lia|]. cbn [round_loop]. rewrite Hb, Hcall. apply Hloop. lia.
Qed.

Lemma build_var_defs_spec f v i : build_var_defs f !! v = Some i -> i ∈ fn_insts f /\ dst i = Some v.
Proof.
  assert (Hins : forall is_ (m : gmap VarId Inst), fold_left add_def is_ m !! v = Some i -> (i ∈ is_ /\ dst i = Some v) \/ m !! v = Some i).
  { induction is_ as [|j is_ IH]; intros m Hm; cbn in Hm; [by right|].
    destruct (IH _ Hm) as [[Hin Hd]|Hin]; [left; split; [apply elem_of_cons; by right|done]|].
    unfold add_def in Hin. destruct (dst j) as [d|] eqn:Hd; [|by right].
    apply lookup_insert_Some in Hin as [[-> ->]|[_ Hin]]; [left; split; [apply elem_of_cons; by left|done]|by right]. }
  assert (Hflat : forall bs (m : gmap VarId Inst), fold_left (fun m b => fold_left add_def (block_insts b) m) bs m = fold_left add_def (flat_map block_insts bs) m).
  { induction bs as [|b bs IH]; intros m; [done|]. cbn. by rewrite IH, fold_left_app. }
  unfold build_var_defs. rewrite Hflat. intros Hm. destruct (Hins _ _ Hm) as [?|Hin]; [done|]. by rewrite lookup_empty in Hin.
Qed.

Lemma loads_in_start f : ssa f -> loads_in (build_var_defs f) f.
Proof.
  intros (_ & _ & _ & Hb & _). split.
  - intros v d ns name Hv. apply build_var_defs_spec in Hv as [Hin [= ->]]. done.
  - intros v [i Hv]. apply build_var_defs_spec in Hv as [Hin Hd]. apply (proj1 (Forall_forall _ _) Hb).
    apply elem_of_app. right. apply elem_of_flat_map. exists i. split; [done|]. unfold def_of. rewrite Hd. by left.
Qed.

Lemma rounds_ok {E : Type} rounds forbidden f : ssa f -> recur_clear f ->
  exists f' m, (forall fuel, (m <= fuel)%nat -> inline_rounds registry defn_map (E := E) rounds fuel forbidden f = Ok f') /\
    ssa f' /\ recur_clear f' /\ same_runs f f' /\ subfunctions f' = subfunctions f.
Proof.
  revert f. induction rounds as [|rounds IH]; intros f Hf Hc.
  { exists f, O. split_and!; [done|done|done|apply same_runs_refl|done]. }
  destruct (round_ok (E := E) (build_var_defs f) forbidden _ 0 f false (le_n _) Hf Hc (loads_in_start f Hf))
    as (f1 & changed & Hround & Hf1 & Hc1 & Hs1 & Hsub1).
  destruct changed.
  - destruct (IH f1 Hf1 Hc1) as (f' & m & Hrest & Hf' & Hc' & Hs' & Hsub').
    exists f', (Nat.max m (round_measure (build_var_defs f) 0 f)). split_and!; [|done|done|by eapply same_runs_trans|congruence].
    intros fuel Hfuel. cbn [inline_rounds]. unfold inline_one_round. rewrite Hround by lia. cbn [mbind outcome_bind]. apply Hrest. lia.
  - exists f1, (round_measure (build_var_defs f) 0 f). split_and!; [|done|done|done|done].
    intros fuel Hfuel. cbn [inline_rounds]. unfold inline_one_round. by rewrite Hround.
Qed.

(** * The tree *)

Definition fn_ok (k : IrFunction) : Prop := closed k /\ recur_clear k /\ calls_computed k.

Lemma with_subfunctions_ok subs f : ssa f -> ssa (with_subfunctions subs f).
Proof. by destruct f. Qed.

Lemma inline_fn_ok {E : Type} forbidden subs f : ssa f -> recur_clear f ->
  exists f' m, (forall fuel, (m <= fuel)%nat -> inline_fn registry defn_map (E := E) fuel forbidden (with_subfunctions subs f) = Ok f') /\
    same_runs f f' /\ subfunctions f' = subs.
Proof.
  intros Hf Hc. destruct (rounds_ok (E := E) MAX_ROUNDS forbidden (with_subfunctions subs f)) as (f' & m & Hr & _ & _ & Hs & Hsub).
  - by apply with_subfunctions_ok.
  - by destruct f.
  - exists f', m. split_and!; [exact Hr| |exact Hsub]. eapply same_runs_trans; [|exact Hs]. by apply same_body_runs.
Qed.

Lemma inline_tree_eq {E : Type} fuel f : inline_tree registry defn_map (E := E) fuel f =
  (subs ← inline_all (inline_tree registry defn_map fuel) (subfunctions f);
   inline_fn registry defn_map fuel (own_name f) (with_subfunctions subs f)).
Proof. by destruct f. Qed.

Lemma inline_tree_ok {E : Type} f : Forall (fun k => ssa k /\ recur_clear k) (walk_functions f) ->
  exists f' m, (forall fuel, (m <= fuel)%nat -> inline_tree registry defn_map (E := E) fuel f = Ok f') /\
    Forall2 same_runs (walk_functions f) (walk_functions f').
Proof.
  induction f as [f IH] using ir_tree_ind. rewrite walk_functions_eq. intros [[Hf Hc] Hsubs]%Forall_cons.
  assert (Hgo : exists subs m, (forall fuel, (m <= fuel)%nat -> inline_all (inline_tree registry defn_map (E := E) fuel) (subfunctions f) = Ok subs) /\
    Forall2 same_runs (flat_map walk_functions (subfunctions f)) (flat_map walk_functions subs)).
  { clear Hf Hc. induction IH as [|g gs Hg _ IHgs]; [exists [], O; split; [done|constructor]|]. cbn [flat_map] in Hsubs.
    apply Forall_app in Hsubs as [Hsg Hsgs]. destruct (Hg Hsg) as (g' & m1 & Hg1 & Hr1). destruct (IHgs Hsgs) as (gs' & m2 & Hg2 & Hr2).
    exists (g' :: gs'), (Nat.max m1 m2). split; [|cbn [flat_map]; by apply Forall2_app].
    intros fuel Hfuel. cbn [inline_all]. rewrite Hg1 by lia. cbn [mbind outcome_bind]. by rewrite Hg2 by lia. }
  destruct Hgo as (subs & m1 & Hgo & Hruns). destruct (inline_fn_ok (E := E) (own_name f) subs f Hf Hc) as (f' & m2 & Hfn & Hs & Hsub).
  exists f', (Nat.max m1 m2). split.
  - intros fuel Hfuel. rewrite inline_tree_eq, Hgo by lia. cbn [mbind outcome_bind]. apply Hfn. lia.
  - rewrite (walk_functions_eq f'), Hsub. by constructor.
Qed.

End Unit.

(** * The pass *)

Lemma build_fn_registry_in root name g : build_fn_registry root !! name = Some g -> g ∈ walk_functions root.
Proof.
  unfold build_fn_registry. assert (Hg : forall fs (m : gmap Name IrFunction), fold_left add_fn fs m !! name = Some g -> g ∈ fs \/ m !! name = Some g).
  { induction fs as [|k fs IH]; intros m Hm; cbn in Hm; [by right|]. destruct (IH _ Hm) as [?|Hin]; [left; apply elem_of_cons; by right|].
    unfold add_fn in Hin. destruct (fn_name k); [|by right].
    apply lookup_insert_Some in Hin as [[_ ->]|[_ Hin]]; [left; apply elem_of_cons; by left|by right]. }
  intros Hm. destruct (Hg _ _ Hm) as [?|Hin]; [done|]. by rewrite lookup_empty in Hin.
Qed.

(** C10: The inlining pass ends, and it keeps what every function of the unit
    computes: run on the same arguments, the function and its new version take
    the same steps and give the same result, or the old one reads a register it
    has not written.  The conditions: a function that a var of the unit is defined
    with captures nothing but itself, that is, it has parameters for the arguments
    of a call or for its own closure and the arguments ([params_fit]), and calling
    what a load of the var gives runs it so ([runs_callee]); every function is in
    SSA form and refers to its own blocks and variables, has no call in a block that
    ends in [recur] and calls no parameter; and what an instruction does depends on
    the values of its operands, not on their names.  A function with captured locals
    is replaced wrongly: [captured_local_is_replaced], [two_captures_panic]. *)
Theorem inline_preserves_meaning {V H R E : Type} {SH : SsaHost V H R} (closure_of : V -> nat -> option (IrFunction * list V)) root :
  nameless -> Forall fn_ok (walk_functions root) ->
  (forall ns name n g, defines (build_fn_registry root) (build_defn_map root) ns name n g -> params_fit g n) ->
  (forall ns name n g, defines (build_fn_registry root) (build_defn_map root) ns name n g ->
     forall d h fv h', exec (ILoadGlobal d ns name) [] h = inr (fv, h') -> runs_callee closure_of g n fv) ->
  exists root' m, (forall fuel, (m <= fuel)%nat -> inline (E := E) fuel root = Ok root') /\
    Forall2 (same_runs closure_of) (walk_functions root) (walk_functions root').
Proof.
  intros Hn Hok Harity Hglobals. unfold inline.
  apply (inline_tree_ok closure_of Hn (build_fn_registry root) (build_defn_map root)).
  - intros name g Hg. apply build_fn_registry_in in Hg. exact (proj1 (Forall_forall _ _) Hok g Hg).
  - done.
  - done.
  - eapply Forall_impl; [exact Hok|]. intros k (Hc & Hr & _). split; [apply Hc|done].
Qed.

(** * A host with integers and closures *)

(** A closure is the var that holds it. *)
Inductive Val : Type := VInt (n : Z) | VTrue | VFalse | VFn (name : Name).

Inductive Res : Type := RVal (v : Val) | RType | RUndefined.

Definition known_call (k : KnownFn) (xs : list Val) : Res + (Val * unit) :=
  match k, xs with
  | KAdd, [VInt a; VInt b] => inr (VInt (a + b), tt)
  | KLt, [VInt a; VInt b] => inr (if a <? b then VTrue else VFalse, tt)
  | _, _ => inl RType
  end.

#[export] Instance int_host : SsaHost Val unit Res := {|
  exec i xs h :=
    match i with
    | IConst _ (CLong n) => inr (VInt n, tt)
    | ILoadGlobal _ _ name => inr (VFn name, tt)
    | IDefVar _ _ name _ => inr (VFn name, tt)
    | IAllocClosure _ _ _ => inr (VInt 0, tt)
    | ICallKnown _ k _ => known_call k xs
    | _ => inl RType
    end;
  truth v := match v with VFalse => false | _ => true end;
  ret v _ := RVal v;
  undefined := RUndefined;
  unreachable _ := RType
|}.

Lemma int_host_nameless : nameless (SH := int_host).
Proof. by intros [] vm bm xs h. Qed.

Definition fn (name : string) (ps : list Z) (bs : list Block) (nv : Z) (subs : list IrFunction) : IrFunction :=
  mkIrFunction (Some (lit name)) (map (fun p => ([], p)) ps) bs nv (Z.of_nat (length bs)) None subs false false [] [] [].

(** [(defn name ...)] with one arity. *)
Definition defn (dst closure : VarId) (name fname : string) (n : nat) (captures : list VarId) : list Inst :=
  [IAllocClosure closure (mkClosureTemplate (Some (lit name)) [lit fname] [n] [false] []) captures;
   IDefVar dst (lit "user") (lit name) closure].

(** * A unit with a helper in a loop *)

(** [(defn add3 [x] (+ x 3))] *)
Definition add3 : IrFunction :=
  fn "add3_1" [0] [mkBlock 0 [] [IConst 1 (CLong 3); ICallKnown 2 KAdd [0; 1]] (Return 2)] 3 [].

(** [(loop [i 0] (let [j (add3 i)] (if (< j 10) (recur j) j)))] *)
Definition main_unit : IrFunction :=
  fn "main" []
    [mkBlock 0 [] (defn 0 1 "add3" "add3_1" 1 [] ++ [IConst 2 (CLong 0)]) (Jump 1);
     mkBlock 1 [IPhi 3 [(0, 2); (2, 5)]]
       [ILoadGlobal 4 (lit "user") (lit "add3"); ICall 5 4 [3]; IConst 6 (CLong 10); ICallKnown 7 KLt [5; 6]] (Branch 7 2 3);
     mkBlock 2 [] [] (RecurJump 1 [5]);
     mkBlock 3 [] [] (Return 5)] 8 [add3].

Definition closures (v : Val) (n : nat) : option (IrFunction * list Val) :=
  match v, n with
  | VFn name, 1%nat => if bool_decide (name = lit "add3") then Some (add3, []) else None
  | _, _ => None
  end.

Lemma main_unit_defines ns name n g :
  defines (build_fn_registry main_unit) (build_defn_map main_unit) ns name n g -> name = lit "add3" /\ n = 1%nat /\ g = add3.
Proof.
  intros (info & fname & Hd & Hf & Hr).
  assert (Hmap : build_defn_map main_unit = {[ (lit "user", lit "add3") := mkClosureInfo [lit "add3_1"] [1%nat] [false] ]}) by (vm_compute; reflexivity).
  rewrite Hmap in Hd. apply lookup_singleton_Some in Hd as [[= <- <-] <-]. split; [done|]. unfold find_arity in Hf. cbn in Hf.
  destruct n as [|[|n]]; try done. cbn in Hf. injection Hf as <-. split; [done|].
  assert (Hreg : build_fn_registry main_unit !! lit "add3_1" = Some add3) by (by vm_compute).
  by injection (eq_trans (eq_sym Hr) Hreg).
Qed.

Lemma inline_preserves_meaning_witness :
  exists root' m, (forall fuel, (m <= fuel)%nat -> inline (E := unit) fuel main_unit = Ok root') /\
    Forall2 (same_runs closures) (walk_functions main_unit) (walk_functions root').
Proof.
  apply (inline_preserves_meaning closures main_unit int_host_nameless).
  - refine (bool_decide_unpack _ _). vm_compute. exact I.
  - intros ns name n g (-> & -> & ->)%main_unit_defines. by left.
  - intros ns name n g (-> & -> & ->)%main_unit_defines d h fv h' [= <- <-]. exists []. split; [done|]. by left.
Defined.

Definition result_of (o : outcome unit IrFunction) (n : nat) : option Res :=
  match o with Ok f => run_fn closures n f [] tt | _ => None end.

(** The call is replaced and the result is the same. *)
Example main_unit_inlined :
  result_of (inline 100 main_unit) 60 = Some (RVal (VInt 12)) /\ run_fn closures 60 main_unit [] tt = Some (RVal (VInt 12)) /\
  exists f, inline (E := unit) 100 main_unit = Ok f /\ length (blocks f) = 6%nat.
Proof. vm_compute. eauto. Qed.

(** * Units the pass is wrong about *)

(** ** A call in a block that ends in [recur] *)

(** [(loop [i 0] (if (< i 10) (recur (add3 i)) i))] *)
Definition recur_unit : IrFunction :=
  fn "main" []
    [mkBlock 0 [] (defn 0 1 "add3" "add3_1" 1 [] ++ [IConst 2 (CLong 0)]) (Jump 1);
     mkBlock 1 [IPhi 3 [(0, 2); (2, 7)]] [IConst 4 (CLong 10); ICallKnown 5 KLt [3; 4]] (Branch 5 2 3);
     mkBlock 2 [] [ILoadGlobal 6 (lit "user") (lit "add3"); ICall 7 6 [3]] (RecurJump 1 [7]);
     mkBlock 3 [] [] (Return 3)] 8 [add3].

(** The phi of the loop header still names the block before the call, so the
    loop variable keeps its first value. *)
Example inlined_recur_never_ends :
  run_fn closures 60 recur_unit [] tt = Some (RVal (VInt 12)) /\ result_of (inline 100 recur_unit) 1000 = None.
Proof. by vm_compute. Qed.

(** ** A closure with a captured local *)

(** [(defn addk [x] (+ k x))] where [k] is a local. *)
Definition addk : IrFunction := fn "addk_1" [0; 1] [mkBlock 0 [] [ICallKnown 2 KAdd [0; 1]] (Return 2)] 3 [].

(** [(let [k 10] (defn addk [x] (+ k x)) (addk 1))] *)
Definition capture_unit : IrFunction :=
  fn "main" []
    [mkBlock 0 []
       ([IConst 0 (CLong 10)] ++ defn 1 2 "addk" "addk_1" 1 [0] ++
        [ILoadGlobal 3 (lit "user") (lit "addk"); IConst 4 (CLong 1); ICall 5 3 [4]]) (Return 5)] 6 [addk].

Definition capture_closures (v : Val) (n : nat) : option (IrFunction * list Val) :=
  match v, n with
  | VFn name, 1%nat => if bool_decide (name = lit "addk") then Some (addk, [VInt 10]) else None
  | _, _ => None
  end.

(** The closure takes the place of what it has captured. *)
Example captured_local_is_replaced :
  run_fn capture_closures 60 capture_unit [] tt = Some (RVal (VInt 11)) /\
  match inline (E := unit) 100 capture_unit with Ok f => run_fn capture_closures 60 f [] tt | _ => None end = Some RType.
Proof. by vm_compute. Qed.

(** ** Two captured locals *)

Definition addkl : IrFunction :=
  fn "addkl_1" [0; 1; 2] [mkBlock 0 [] [ICallKnown 3 KAdd [0; 1]; ICallKnown 4 KAdd [3; 2]] (Return 4)] 5 [].

Definition two_captures_unit : IrFunction :=
  fn "main" []
    [mkBlock 0 []
       ([IConst 0 (CLong 10); IConst 1 (CLong 20)] ++ defn 2 3 "addkl" "addkl_1" 1 [0; 1] ++
        [ILoadGlobal 4 (lit "user") (lit "addkl"); IConst 5 (CLong 1); ICall 6 4 [5]]) (Return 6)] 7 [addkl].

Example two_captures_panic : inline (E := unit) 100 two_captures_unit = Panic.
Proof. by vm_compute. Qed.

(** ** A captured local that is called *)

(** [(defn callk [x] (k x))] where [k] is a local. *)
Definition callk : IrFunction := fn "callk_1" [0; 1] [mkBlock 0 [] [ICall 2 0 [1]] (Return 2)] 3 [].

Definition called_capture_unit : IrFunction :=
  fn "main" [0]
    [mkBlock 0 []
       (defn 1 2 "callk" "callk_1" 1 [0] ++
        [ILoadGlobal 3 (lit "user") (lit "callk"); IConst 4 (CLong 1); ICall 5 3 [4]]) (Return 5)] 6 [callk].

(** The body of the closure calls the closure, whose call is replaced again:
    every block that is added brings another call to replace. *)
Example called_capture_keeps_growing : inline (E := unit) 200 called_capture_unit = OutOfFuel.
Proof. by vm_compute. Qed.
