(* ===== verification/Escape.v ===== *)
(** The escape analysis of allocations (crates/cljrs-ir/src/lower/escape.rs).

    The tables of the unit are those of Inline.v.  Hash maps are finite maps; the
    cells of the context that the analysis mutates are the state [EscapeMemo].
    The worklist runs on fuel, and so do calls of callees' summaries. *)
From stdpp Require Import gmap.
From S2P Require Import Prelude RustStd Token Ir Inline.
Local Open Scope Z_scope.

Inductive EscapeState : Type := NoEscape | ArgEscape | Returns | Escapes.

#[export] Instance EscapeState_eq_dec : EqDecision EscapeState.
Proof. solve_decision. Defined.

Definition join (a b : EscapeState) : EscapeState :=
  match a, b with
  | Escapes, _ | _, Escapes => Escapes
  | Returns, _ | _, Returns => Returns
  | ArgEscape, _ | _, ArgEscape => ArgEscape
  | _, _ => NoEscape
  end.

(** * Uses *)

Inductive UseKind : Type :=
| UReturn | UDefVar | USetBang | UClosureCapture | UThrow | UStoredInHeap | URecur
| UKnownCallArg (func : KnownFn) (arg_index : nat) (dst : VarId)
| UUnknownCallArg (callee : VarId) (arg_index : nat)
| UPhiInput | UBranchCond | UDeref | UCallCallee.

Record UseInfo : Type := mkUse { use_block : BlockId; use_kind : UseKind }.

(** Whether an argument may be part of the result. *)
Definition known_fn_arg_escapes (func : KnownFn) (arg_index : nat) : bool :=
  match func with
  | KCount | KCountFilter | KContains | KAdd | KSub | KMul | KDiv | KRem | KEq | KLt | KGt | KLte | KGte
  | KIsNil | KIsSeq | KIsVector | KIsMap | KIsEmpty | KIdentical | KIsNumber | KIsString
  | KIsKeyword | KIsSymbol | KIsBool | KIsInt | KStr | KDeref | KAtomDeref | KPrintln | KPr | KPrn
  | KPrint => false
  | KFirst | KNth | KNthLenient | KPeek | KGet => (arg_index =? 0)%nat
  | KDissoc | KDisj => (arg_index =? 0)%nat
  | KRest | KNext | KSeq => (arg_index =? 0)%nat
  | KPop | KVec => (arg_index =? 0)%nat
  | KTransient => (arg_index =? 0)%nat
  | KPersistentBang => (arg_index =? 0)%nat
  | _ => true
  end.

Definition is_alloc_inst (i : Inst) : bool :=
  match i with
  | IAllocVector _ _ | IAllocMap _ _ | IAllocSet _ _ | IAllocList _ _ | IAllocCons _ _ _ | IAllocClosure _ _ _ => true
  | _ => false
  end.

Definition add_alloc (b : BlockId) (m : gmap VarId BlockId) (i : Inst) : gmap VarId BlockId :=
  if is_alloc_inst i then match dst i with Some d => <[d := b]> m | None => m end else m.

Definition collect_allocs (f : IrFunction) : gmap VarId BlockId :=
  fold_left (fun m b => fold_left (add_alloc (block_id b)) (phis b ++ insts b) m) (blocks f) ∅.

Abbreviation Uses := (gmap VarId (list UseInfo)).

Definition add_use (b : BlockId) (u : Uses) (p : VarId * UseKind) : Uses :=
  <[p.1 := default [] (u !! p.1) ++ [mkUse b p.2]]> u.

(** The uses of an instruction, in order. *)
Definition inst_uses (i : Inst) : list (VarId * UseKind) :=
  match i with
  | ICallKnown d func args => imap (fun k a => (a, UKnownCallArg func k d)) args
  | ICall _ callee args => (callee, UCallCallee) :: imap (fun k a => (a, UUnknownCallArg callee k)) args
  | IAllocClosure _ _ captures => map (fun c => (c, UClosureCapture)) captures
  | IAllocVector _ elems | IAllocSet _ elems | IAllocList _ elems => map (fun e => (e, UStoredInHeap)) elems
  | IAllocMap _ pairs => pairs ≫= fun p => [(p.1, UStoredInHeap); (p.2, UStoredInHeap)]
  | IAllocCons _ h t => [(h, UStoredInHeap); (t, UStoredInHeap)]
  | IDefVar _ _ _ value => [(value, UDefVar)]
  | ISetBang var value => [(var, USetBang); (value, USetBang)]
  | IDeref _ src => [(src, UDeref)]
  | IThrow value => [(value, UThrow)]
  | IRecur args => map (fun a => (a, URecur)) args
  | IPhi _ entries => map (fun e => (e.2, UPhiInput)) entries
  | IRegionAlloc _ region _ operands => (region, UStoredInHeap) :: map (fun o => (o, UStoredInHeap)) operands
  | _ => []
  end.

Definition add_uses_for_inst (b : BlockId) (u : Uses) (i : Inst) : Uses := fold_left (add_use b) (inst_uses i) u.

Definition term_uses (t : Terminator) : list (VarId * UseKind) :=
  match t with
  | Return v => [(v, UReturn)]
  | Branch cond _ _ => [(cond, UBranchCond)]
  | RecurJump _ args => map (fun a => (a, URecur)) args
  | _ => []
  end.

Definition add_uses_for_terminator (b : BlockId) (u : Uses) (t : Terminator) : Uses := fold_left (add_use b) (term_uses t) u.

Definition block_use_chains (u : Uses) (b : Block) : Uses :=
  let u := fold_left (add_uses_for_inst (block_id b)) (phis b) u in
  let u := fold_left (add_uses_for_inst (block_id b)) (insts b) u in
  add_uses_for_terminator (block_id b) u (terminator b).

Definition build_use_chains (f : IrFunction) : Uses := fold_left block_use_chains (blocks f) ∅.

Definition add_def (m : gmap VarId Inst) (i : Inst) : gmap VarId Inst :=
  match dst i with Some d => <[d := i]> m | None => m end.

Definition build_var_defs (f : IrFunction) : gmap VarId Inst :=
  fold_left (fun m b => fold_left add_def (phis b ++ insts b) m) (blocks f) ∅.

(** * The context *)

Record ExternalDefn : Type := mkExternal {
  ext_ns : Name;
  ext_name : Name;
  ext_arity_fn_names : list Name;
  ext_param_counts : list nat;
  ext_is_variadic : list bool;
  ext_arity_irs : list IrFunction
}.

Record EscapeContext : Type := mkContext {
  registry : gmap Name IrFunction;
  defn_map : gmap (Name * Name) ClosureInfo;
  external_names : gset (Name * Name)
}.

(** The cells of the context. *)
Record EscapeMemo : Type := mkMemo {
  cache : gmap Name (list EscapeState);
  computing : gset Name;
  used_externals : gset (Name * Name)
}.

Definition or_insert (m : gmap Name IrFunction) (p : Name * IrFunction) : gmap Name IrFunction :=
  match m !! p.1 with Some _ => m | None => <[p.1 := p.2]> m end.

Definition add_external (c : EscapeContext) (e : ExternalDefn) : EscapeContext :=
  let key := (ext_ns e, ext_name e) in
  match defn_map c !! key with
  | Some _ => c
  | None =>
      mkContext (fold_left or_insert (zip (ext_arity_fn_names e) (ext_arity_irs e)) (registry c))
        (<[key := mkClosureInfo (ext_arity_fn_names e) (ext_param_counts e) (ext_is_variadic e)]> (defn_map c))
        ({[key]} ∪ external_names c)
  end.

Definition make_context_with_externals (root : IrFunction) (externals : list ExternalDefn) : EscapeContext :=
  fold_left add_external externals (mkContext (build_fn_registry root) (build_defn_map root) ∅).

Definition no_memo : EscapeMemo := mkMemo ∅ ∅ ∅.

(** [info.is_variadic[i]] and [info.arity_fn_names[i]] panic out of range. *)
Fixpoint pick_arity_from {E : Type} (i : nat) (counts : list nat) (info : ClosureInfo) (arg_count : nat) : outcome E (option Name) :=
  match counts with
  | [] => Ok None
  | count :: counts' =>
      if (count =? arg_count)%nat then
        match ci_is_variadic info !! i with
        | None => Panic
        | Some true => pick_arity_from (S i) counts' info arg_count
        | Some false => match ci_arity_fn_names info !! i with Some n => Ok (Some n) | None => Panic end
        end
      else pick_arity_from (S i) counts' info arg_count
  end.

Definition pick_arity {E : Type} (info : ClosureInfo) (arg_count : nat) : outcome E (option Name) :=
  pick_arity_from 0 (ci_param_counts info) info arg_count.

Definition lookup_defn (ctx : EscapeContext) (ns name : Name) (m : EscapeMemo) : option ClosureInfo * EscapeMemo :=
  let key := (ns, name) in
  match defn_map ctx !! key with
  | None => (None, m)
  | Some info =>
      (Some info, if decide (key ∈ external_names ctx) then mkMemo (cache m) (computing m) ({[key]} ∪ used_externals m) else m)
  end.

Definition pick_defn {E : Type} (ctx : EscapeContext) (ns name : Name) (arg_count : nat) (m : EscapeMemo) : outcome E (option Name * EscapeMemo) :=
  match lookup_defn ctx ns name m with
  | (None, m) => Ok (None, m)
  | (Some info, m) => n ← pick_arity info arg_count; Ok (n, m)
  end.

Definition resolve_call_target {E : Type} (callee : VarId) (arg_count : nat) (defs : gmap VarId Inst) (ctx : EscapeContext) (m : EscapeMemo)
    : outcome E (option Name * EscapeMemo) :=
  match defs !! callee with
  | Some (IAllocClosure _ t _) =>
      n ← pick_arity (mkClosureInfo (arity_fn_names t) (param_counts t) (is_variadic t)) arg_count; Ok (n, m)
  | Some (ILoadGlobal _ ns name) => pick_defn ctx ns name arg_count m
  | Some (IDeref _ src) =>
      match defs !! src with
      | Some (ILoadGlobal _ ns name) | Some (ILoadVar _ ns name) => pick_defn ctx ns name arg_count m
      | _ => Ok (None, m)
      end
  | _ => Ok (None, m)
  end.

(** * Where a value flows *)

Definition find_block (f : IrFunction) (b : BlockId) : option Block := find (fun blk => block_id blk =? b) (blocks f).

(** The phis that the arguments equal to [var] of a recur feed. *)
Definition recur_phis (var : VarId) (args : list VarId) (ps : list Inst) : list VarId :=
  zip_with pair args ps ≫= fun p => match p.2 with IPhi d _ => if decide (p.1 = var) then [d] else [] | _ => [] end.

Definition recur_target_phis (f : IrFunction) (var : VarId) (source : BlockId) : list VarId :=
  match find_block f source with
  | Some b =>
      match terminator b with
      | RecurJump target args => match find_block f target with Some tb => recur_phis var args (phis tb) | None => [] end
      | _ => []
      end
  | None => []
  end.

Definition call_with_arg (callee var : VarId) (i : Inst) : option (VarId * nat) :=
  match i with
  | ICall d c args => if decide (c = callee /\ var ∈ args) then Some (d, length args) else None
  | _ => None
  end.

Fixpoint first_some {A B : Type} (g : A -> option B) (l : list A) : option B :=
  match l with
  | [] => None
  | x :: l' => match g x with Some y => Some y | None => first_some g l' end
  end.

Definition find_unknown_call_with_arg (f : IrFunction) (callee var : VarId) (b : BlockId) : option (VarId * nat) :=
  match find_block f b with
  | Some blk => first_some (call_with_arg callee var) (insts blk)
  | None => None
  end.

(** The phis of a block that take [var]. *)
Definition phi_outputs (f : IrFunction) (var : VarId) (b : BlockId) : list VarId :=
  match find_block f b with
  | Some blk => phis blk ≫= fun p => match p with IPhi d es => if existsb (fun e => e.2 =? var) es then [d] else [] | _ => [] end
  | None => []
  end.

Inductive EscapeMode : Type := ModeAlloc | ModeParam.

(** * Classification *)

Section Classify.
Context {E : Type}.

(** The summary of a callee. *)
Context (summary : IrFunction -> EscapeMemo -> outcome E (list EscapeState * EscapeMemo)).
Context (uses : Uses) (f : IrFunction) (ctx : option EscapeContext) (defs : option (gmap VarId Inst)) (mode : EscapeMode).

(** The function a call resolves to. *)
Definition resolve (callee current : VarId) (b : BlockId) (m : EscapeMemo) : outcome E (option IrFunction * EscapeMemo) :=
  match ctx, defs with
  | Some c, Some vd =>
      match find_unknown_call_with_arg f callee current b with
      | Some (_, n) => r ← resolve_call_target callee n vd c m; Ok (match r.1 with Some name => registry c !! name | None => None end, r.2)
      | None => Ok (None, m)
      end
  | _, _ => Ok (None, m)
  end.

(** What a use adds: variables to visit and the state, or [None] when the value
    escapes. *)
Definition visit_use (current : VarId) (u : UseInfo) (result : EscapeState) (m : EscapeMemo)
    : outcome E (option (list VarId * EscapeState) * EscapeMemo) :=
  match use_kind u with
  | UReturn => let r := join result Returns in Ok (if decide (r = Escapes) then None else Some ([], r), m)
  | UDefVar | USetBang | UClosureCapture | UThrow | UStoredInHeap => Ok (None, m)
  | URecur => Ok (Some (recur_target_phis f current (use_block u), result), m)
  | UUnknownCallArg callee idx =>
      r ← resolve callee current (use_block u) m;
      match r.1 with
      | Some target =>
          s ← summary target r.2;
          Ok (match default Escapes (s.1 !! idx) with
              | NoEscape => Some ([], result)
              | Returns => Some (match find_unknown_call_with_arg f callee current (use_block u) with Some (d, _) => [d] | None => [] end, result)
              | _ => None
              end, s.2)
      | None =>
          match mode with
          | ModeParam => Ok (None, r.2)
          | ModeAlloc => let st := join result ArgEscape in Ok (if decide (st = Escapes) then None else Some ([], st), r.2)
          end
      end
  | UKnownCallArg func idx d => Ok (Some (if known_fn_arg_escapes func idx then [d] else [], result), m)
  | UPhiInput => Ok (Some (phi_outputs f current (use_block u), result), m)
  | UBranchCond | UDeref | UCallCallee => Ok (Some ([], result), m)
  end.

Fixpoint visit_uses (current : VarId) (us : list UseInfo) (pushed : list VarId) (result : EscapeState) (m : EscapeMemo)
    : outcome E (option (list VarId * EscapeState) * EscapeMemo) :=
  match us with
  | [] => Ok (Some (pushed, result), m)
  | u :: us' =>
      r ← visit_use current u result m;
      match r.1 with
      | None => Ok (None, r.2)
      | Some (vs, result') => visit_uses current us' (pushed ++ vs) result' r.2
      end
  end.

Fixpoint classify_loop (fuel : nat) (worklist : list VarId) (visited : gset VarId) (result : EscapeState) (m : EscapeMemo)
    : outcome E (EscapeState * EscapeMemo) :=
  match fuel with
  | O => OutOfFuel
  | S n =>
      match worklist with
      | [] => Ok (result, m)
      | current :: wl =>
          if decide (current ∈ visited) then classify_loop n wl visited result m
          else
            r ← visit_uses current (default [] (uses !! current)) [] result m;
            match r.1 with
            | None => Ok (Escapes, r.2)
            | Some (vs, result') => classify_loop n (wl ++ vs) ({[current]} ∪ visited) result' r.2
            end
      end
  end.

(** The variables one use can push, and a bound on what the worklist holds. *)
Definition push_bound : nat := S (sum_list_with (fun b => length (phis b)) (blocks f)).
Definition total_uses : nat := map_fold (fun _ us n => (length us + n)%nat) 0%nat uses.

Definition classify_escape_with_ctx (var : VarId) (m : EscapeMemo) : outcome E (EscapeState * EscapeMemo) :=
  classify_loop (S (S (total_uses * push_bound))) [var] ∅ NoEscape m.

End Classify.

(** The states of the parameters of a function. *)
Fixpoint classify_all {E : Type} (classify : VarId -> EscapeMemo -> outcome E (EscapeState * EscapeMemo)) (vs : list VarId) (m : EscapeMemo)
    : outcome E (list EscapeState * EscapeMemo) :=
  match vs with
  | [] => Ok ([], m)
  | v :: vs' => r ← classify v m; rs ← classify_all classify vs' r.2; Ok (r.1 :: rs.1, rs.2)
  end.

Fixpoint compute_fn_summary {E : Type} (depth : nat) (ctx : EscapeContext) (f : IrFunction) (m : EscapeMemo)
    : outcome E (list EscapeState * EscapeMemo) :=
  match depth with
  | O => OutOfFuel
  | S d =>
      let compute (m : EscapeMemo) :=
        classify_all (classify_escape_with_ctx (compute_fn_summary d ctx) (build_use_chains f) f (Some ctx) (Some (build_var_defs f)) ModeParam)
          (map snd (params f)) m in
      match fn_name f with
      | None => compute m
      | Some name =>
          match cache m !! name with
          | Some cached => Ok (cached, m)
          | None =>
              if decide (name ∈ computing m) then Ok (map (fun _ => Escapes) (params f), m)
              else
                r ← compute (mkMemo (cache m) ({[name]} ∪ computing m) (used_externals m));
                Ok (r.1, mkMemo (<[name := r.1]> (cache r.2)) (computing r.2 ∖ {[name]}) (used_externals r.2))
          end
      end
  end.

(** One level for each function that is being analysed. *)
Definition summary_depth (ctx : EscapeContext) : nat := S (S (size (registry ctx))).

Definition fn_summary {E : Type} (ctx : option EscapeContext) (f : IrFunction) (m : EscapeMemo) : outcome E (list EscapeState * EscapeMemo) :=
  match ctx with
  | Some c => compute_fn_summary (summary_depth c) c f m
  | None => Ok ([], m)
  end.

Record AnalysisResult : Type := mkAnalysis {
  states : gmap VarId EscapeState;
  cross_fn_no_escape : gmap Name (gset VarId);
  an_uses : Uses;
  alloc_blocks : gmap VarId BlockId
}.

Definition classify_alloc {E : Type} (f : IrFunction) (ctx : option EscapeContext) (v : VarId) (m : EscapeMemo) : outcome E (EscapeState * EscapeMemo) :=
  classify_escape_with_ctx (fn_summary ctx) (build_use_chains f) f ctx (Some (build_var_defs f)) ModeAlloc v m.

Fixpoint states_of {E : Type} (f : IrFunction) (ctx : option EscapeContext) (vs : list VarId) (acc : gmap VarId EscapeState) (m : EscapeMemo)
    : outcome E (gmap VarId EscapeState * EscapeMemo) :=
  match vs with
  | [] => Ok (acc, m)
  | v :: vs' => r ← classify_alloc f ctx v m; states_of f ctx vs' (<[v := r.1]> acc) r.2
  end.

(** The order in which a hash set of identifiers is walked. *)
Class HashOrder : Type := {
  order : gset Z -> list Z;
  order_elements s : order s ≡ₚ elements s
}.

Section Analyze.
Context {E : Type} {HO : HashOrder}.

(** Pass 1. *)
Definition analyze_states (f : IrFunction) (ctx : option EscapeContext) (m : EscapeMemo) : outcome E (gmap VarId EscapeState * EscapeMemo) :=
  states_of f ctx (order (dom (collect_allocs f))) ∅ m.

Definition compute_return_alloc_summary (f : IrFunction) (ctx : EscapeContext) (m : EscapeMemo) : outcome E (gmap VarId EscapeState * EscapeMemo) :=
  analyze_states f (Some ctx) m.

(** Pass 2: the allocations a callee returns to a call whose result does not
    escape. *)
Definition cross_call (f : IrFunction) (ctx : EscapeContext) (acc : gmap Name (gset VarId)) (i : Inst) (m : EscapeMemo)
    : outcome E (gmap Name (gset VarId) * EscapeMemo) :=
  match i with
  | ICall d callee args =>
      r ← classify_alloc f (Some ctx) d m;
      if decide (r.1 = NoEscape) then
        n ← resolve_call_target callee (length args) (build_var_defs f) ctx r.2;
        match n.1 with
        | None => Ok (acc, n.2)
        | Some name =>
            match registry ctx !! name with
            | None => Ok (acc, n.2)
            | Some callee_fn =>
                s ← compute_return_alloc_summary callee_fn ctx n.2;
                let returned := dom (filter (fun p => p.2 = Returns) s.1) in
                Ok (if decide (returned = ∅) then acc else <[name := returned ∪ default ∅ (acc !! name)]> acc, s.2)
            end
        end
      else Ok (acc, r.2)
  | _ => Ok (acc, m)
  end.

Fixpoint cross_calls (f : IrFunction) (ctx : EscapeContext) (is_ : list Inst) (acc : gmap Name (gset VarId)) (m : EscapeMemo)
    : outcome E (gmap Name (gset VarId) * EscapeMemo) :=
  match is_ with
  | [] => Ok (acc, m)
  | i :: is' => r ← cross_call f ctx acc i m; cross_calls f ctx is' r.1 r.2
  end.

Definition analyze (f : IrFunction) (ctx : option EscapeContext) (m : EscapeMemo) : outcome E (AnalysisResult * EscapeMemo) :=
  s ← analyze_states f ctx m;
  c ← match ctx with Some c => cross_calls f c (blocks f ≫= insts) ∅ s.2 | None => Ok (∅, s.2) end;
  Ok (mkAnalysis s.1 c.1 (build_use_chains f) (collect_allocs f), c.2).

End Analyze.
