(* ===== verification/RegionOpt.v ===== *)
(** Region promotion (crates/cljrs-ir/src/lower/optimize.rs): allocations that do
    not escape are made in a region that is opened at the lowest common dominator
    of the blocks that use them and closed at the lowest common post-dominator;
    function-scoped regions; and the fusion of lazy producers with their eager
    consumers.

    Hash sets are walked in an arbitrary order ([HashOrder]).  The loops run on
    fuel: one step per block and edge for the walks over the graph, the square of
    the number of blocks for the dominators. *)
From stdpp Require Import gmap.
From S2P Require Import Prelude RustStd Token Ir Osr Inline Escape.
Local Open Scope Z_scope.

Definition block_successors (b : Block) : list BlockId := successors (terminator b).

Abbreviation Doms := (gmap BlockId (gset BlockId)).

Definition add_pred (b : BlockId) (m : Doms) (s : BlockId) : Doms := <[s := {[b]} ∪ default ∅ (m !! s)]> m.

Definition predecessor_map (f : IrFunction) : Doms :=
  fold_left (fun m b => fold_left (add_pred (block_id b)) (block_successors b) m) (blocks f) ∅.

(** Pops the top of a stack of blocks to enter and blocks that are done. *)
Fixpoint rpo_loop {E : Type} (fuel : nat) (by_id : gmap BlockId Block) (stack : list (BlockId * bool)) (visited : gset BlockId) (postorder : list BlockId)
    : outcome E (list BlockId) :=
  match fuel with
  | O => OutOfFuel
  | S n =>
      match stack with
      | [] => Ok postorder
      | (b, true) :: st => rpo_loop n by_id st visited (b :: postorder)
      | (b, false) :: st =>
          if decide (b ∈ visited) then rpo_loop n by_id st visited postorder
          else
            let succs := from_option block_successors [] (by_id !! b) in
            rpo_loop n by_id (reverse (map (fun s => (s, false)) succs) ++ (b, true) :: st) ({[b]} ∪ visited) postorder
      end
  end.

Definition edge_count (f : IrFunction) : nat := sum_list_with (fun b => length (block_successors b)) (blocks f).

(** The list is built from its end, so that it is in reverse postorder. *)
Definition reverse_postorder {E : Type} (f : IrFunction) : outcome E (list BlockId) :=
  rpo_loop (3 + 2 * edge_count f) (blocks_by_id f) [(0, false)] ∅ [].

(** * Dominators *)

Definition intersect_sets (sets : list (gset BlockId)) : gset BlockId :=
  match sets with
  | [] => ∅
  | s :: ss => fold_left (fun acc t => acc ∩ t) ss s
  end.

Section Iterate.
Context (roots : gset BlockId) (block_ids : list BlockId) (pred_fn : BlockId -> gset BlockId).

Definition initial_doms : Doms :=
  let universe : gset BlockId := list_to_set block_ids in
  fold_left (fun m b => <[b := if decide (b ∈ roots) then {[b]} else universe]> m) block_ids ∅.

Definition known_preds (doms : Doms) (b : BlockId) : list BlockId := filter (fun p => is_Some (doms !! p)) (elements (pred_fn b)).

Definition new_doms (doms : Doms) (b : BlockId) : gset BlockId :=
  {[b]} ∪ intersect_sets (map (fun p => default ∅ (doms !! p)) (known_preds doms b)).

Definition update_dom (acc : Doms * bool) (b : BlockId) : Doms * bool :=
  if decide (b ∈ roots) then acc
  else if decide (known_preds acc.1 b = []) then acc
  else
    let s := new_doms acc.1 b in
    if decide (acc.1 !! b = Some s) then acc else (<[b := s]> acc.1, true).

Fixpoint dom_loop {E : Type} (fuel : nat) (doms : Doms) : outcome E Doms :=
  match fuel with
  | O => OutOfFuel
  | S n =>
      let '(doms', changed) := fold_left update_dom block_ids (doms, false) in
      if changed then dom_loop n doms' else Ok doms'
  end.

Definition dom_iterate {E : Type} : outcome E Doms := dom_loop (S (length block_ids * length block_ids)) initial_doms.

End Iterate.

Definition dominators {E : Type} (f : IrFunction) : outcome E Doms :=
  rpo ← reverse_postorder f;
  dom_iterate {[0]} rpo (fun b => default ∅ (predecessor_map f !! b)).

Definition is_exit (t : Terminator) : bool := match t with Return _ | Unreachable => true | _ => false end.

Definition collect_exits (f : IrFunction) : gset BlockId :=
  list_to_set (map block_id (filter (fun b => is_exit (terminator b) = true) (blocks f))).

Definition post_dominators {E : Type} (f : IrFunction) : outcome E Doms :=
  rpo ← reverse_postorder f;
  dom_iterate (collect_exits f) rpo (fun b => list_to_set (from_option block_successors [] (blocks_by_id f !! b))).

(** [doms.get(&b).map(|s| s.contains(&d)).unwrap_or(false)] *)
Definition in_doms (doms : Doms) (b d : BlockId) : bool := match doms !! b with Some s => bool_decide (d ∈ s) | None => false end.

Section Regions.
Context {E : Type} {HO : HashOrder}.

(** [max_by_key] returns the last of the greatest. *)
Definition max_by_key (key : BlockId -> nat) (l : list BlockId) : option BlockId :=
  fold_left (fun acc d => match acc with Some a => if (key a <=? key d)%nat then Some d else acc | None => Some d end) l None.

Definition lca_of (dom_of : Doms) (a b : BlockId) : option BlockId :=
  da ← dom_of !! a;
  db ← dom_of !! b;
  let common := da ∩ db in
  if decide (common = ∅) then None else max_by_key (fun d => from_option size 0%nat (dom_of !! d)) (order common).

Fixpoint lca_fold (dom_of : Doms) (acc : BlockId) (bs : list BlockId) : option BlockId :=
  match bs with
  | [] => Some acc
  | b :: bs' => l ← lca_of dom_of acc b; lca_fold dom_of l bs'
  end.

Definition lca_of_many (dom_of : Doms) (bs : list BlockId) : option BlockId :=
  match bs with
  | [] => None
  | b :: bs' => lca_fold dom_of b bs'
  end.

(** * The blocks of a region *)

Fixpoint path_loop (fuel : nat) (by_id : gmap BlockId Block) (end_ : BlockId) (stack : list BlockId) (seen : gset BlockId) : outcome E (gset BlockId) :=
  match fuel with
  | O => OutOfFuel
  | S n =>
      match stack with
      | [] => Ok seen
      | b :: st =>
          if decide (b ∈ seen) then path_loop n by_id end_ st seen
          else if b =? end_ then path_loop n by_id end_ st ({[b]} ∪ seen)
          else path_loop n by_id end_ (reverse (from_option block_successors [] (by_id !! b)) ++ st) ({[b]} ∪ seen)
      end
  end.

Definition blocks_on_path (f : IrFunction) (start end_ : BlockId) : outcome E (gset BlockId) :=
  path_loop (2 + edge_count f) (blocks_by_id f) end_ [start] ∅.

Definition has_back_edge (f : IrFunction) (region : gset BlockId) (doms : Doms) : bool :=
  existsb (fun b =>
    match blocks_by_id f !! b with
    | Some blk => existsb (fun s => bool_decide (s ∈ region) && in_doms doms b s) (block_successors blk)
    | None => false
    end) (elements region).

Definition is_throw (i : Inst) : bool := match i with IThrow _ => true | _ => false end.

Definition region_contains_throw (f : IrFunction) (region : gset BlockId) : bool :=
  existsb (fun b =>
    match blocks_by_id f !! b with
    | Some blk => match terminator blk with Unreachable => true | _ => existsb is_throw (insts blk) end
    | None => false
    end) (elements region).

(** * The blocks that use an allocation *)

(** What the use of a variable forwards to. *)
Definition forwards (f : IrFunction) (current : VarId) (u : UseInfo) : list VarId :=
  match use_kind u with
  | UKnownCallArg func idx d => if known_fn_arg_escapes func idx then [d] else []
  | UPhiInput => phi_outputs f current (use_block u)
  | _ => []
  end.

Fixpoint use_loop (fuel : nat) (f : IrFunction) (uses : Uses) (worklist : list VarId) (visited : gset VarId) (use_blocks : gset BlockId)
    : outcome E (gset BlockId) :=
  match fuel with
  | O => OutOfFuel
  | S n =>
      match worklist with
      | [] => Ok use_blocks
      | current :: wl =>
          if decide (current ∈ visited) then use_loop n f uses wl visited use_blocks
          else
            let us := default [] (uses !! current) in
            use_loop n f uses (reverse (us ≫= forwards f current) ++ wl) ({[current]} ∪ visited) (list_to_set (map use_block us) ∪ use_blocks)
      end
  end.

Definition collect_use_blocks (alloc_var : VarId) (uses : Uses) (f : IrFunction) : outcome E (gset BlockId) :=
  use_loop (S (S (total_uses uses * push_bound f))) f uses [alloc_var] ∅ ∅.

(** * Rewriting *)

Definition alloc_to_region_kind (i : Inst) : option RegionAllocKind :=
  match i with
  | IAllocVector _ _ => Some RkVector
  | IAllocMap _ _ => Some RkMap
  | IAllocSet _ _ => Some RkSet
  | IAllocList _ _ => Some RkList
  | IAllocCons _ _ _ => Some RkCons
  | _ => None
  end.

Definition alloc_operands (i : Inst) : list VarId :=
  match i with
  | IAllocVector _ elems | IAllocSet _ elems | IAllocList _ elems => elems
  | IAllocMap _ pairs => pairs ≫= fun p => [p.1; p.2]
  | IAllocCons _ h t => [h; t]
  | _ => []
  end.

Definition promote_inst (alloc_var region_var : VarId) (i : Inst) : Inst :=
  if decide (dst i = Some alloc_var) then
    match alloc_to_region_kind i with
    | Some kind => IRegionAlloc alloc_var region_var kind (alloc_operands i)
    | None => i
    end
  else i.

Definition promotable (alloc_var : VarId) (i : Inst) : bool :=
  bool_decide (dst i = Some alloc_var) && match alloc_to_region_kind i with Some _ => true | None => false end.

Definition set_insts (b : Block) (is_ : list Inst) : Block := mkBlock (block_id b) (phis b) is_ (terminator b).

(** Rewrites the first block with the id. *)
Fixpoint on_first_block (id : BlockId) (g : list Inst -> list Inst) (bs : list Block) : list Block :=
  match bs with
  | [] => []
  | b :: bs' => if block_id b =? id then set_insts b (g (insts b)) :: bs' else b :: on_first_block id g bs'
  end.

(** Where the region of an allocation starts and ends, if it may have one. *)
Definition region_span (f : IrFunction) (alloc_block : BlockId) (use_blocks : gset BlockId) (doms postdoms : Doms)
    : outcome E (option (BlockId * BlockId)) :=
  let relevant := {[alloc_block]} ∪ use_blocks in
  match lca_of_many doms (order relevant), lca_of_many postdoms (order relevant) with
  | Some start, Some end_ =>
      if in_doms doms alloc_block start then
        region ← blocks_on_path f start end_;
        if has_back_edge f (region ∪ relevant) doms then Ok None
        else if region_contains_throw f region then Ok None
        else Ok (Some (start, end_))
      else Ok None
  | _, _ => Ok None
  end.

Definition promote_blocks (alloc_var region_var : VarId) (alloc_block : BlockId) (bs : list Block) : list Block :=
  map (fun b => if block_id b =? alloc_block then set_insts b (map (promote_inst alloc_var region_var) (insts b)) else b) bs.

Definition emit_region_for_alloc (f : IrFunction) (alloc_var : VarId) (alloc_block : BlockId) (use_blocks : gset BlockId) (doms postdoms : Doms)
    (next_var_ : Z) : outcome E (IrFunction * Z) :=
  span ← region_span f alloc_block use_blocks doms postdoms;
  match span with
  | None => Ok (f, next_var_)
  | Some (start, end_) =>
      let region_var := next_var_ in
      if existsb (fun b => (block_id b =? alloc_block) && existsb (promotable alloc_var) (insts b)) (blocks f) then
        let bs := promote_blocks alloc_var region_var alloc_block (blocks f) in
        let bs := on_first_block start (fun is_ => IRegionStart region_var :: is_) bs in
        let bs := on_first_block end_ (fun is_ => is_ ++ [IRegionEnd region_var]) bs in
        Ok (with_blocks bs f, next_var_ + 1)
      else Ok (f, next_var_)
  end.

Fixpoint emit_regions (uses : Uses) (doms postdoms : Doms) (allocs : list (VarId * BlockId)) (f : IrFunction) (next_var_ : Z) : outcome E (IrFunction * Z) :=
  match allocs with
  | [] => Ok (f, next_var_)
  | (v, b) :: allocs' =>
      ub ← collect_use_blocks v uses f;
      r ← emit_region_for_alloc f v b ub doms postdoms next_var_;
      emit_regions uses doms postdoms allocs' r.1 r.2
  end.

Definition with_next_var (n : Z) (f : IrFunction) : IrFunction :=
  mkIrFunction (fn_name f) (params f) (blocks f) n (next_block f) (fn_span f) (subfunctions f) (is_async f)
    (is_async_poll_fn f) (async_resume_blocks f) (seed_reprs f) (local_seed_reprs f).

(** The allocations that do not escape, with their blocks. *)
Definition no_escape_allocs (an : AnalysisResult) : list (VarId * BlockId) :=
  order (dom (alloc_blocks an)) ≫= fun v =>
    match states an !! v, alloc_blocks an !! v with Some NoEscape, Some b => [(v, b)] | _, _ => [] end.

Definition optimize_regions (f : IrFunction) (ctx : option EscapeContext) (m : EscapeMemo) : outcome E (IrFunction * EscapeMemo) :=
  an ← analyze f ctx m;
  match no_escape_allocs an.1 with
  | [] => Ok (f, an.2)
  | allocs =>
      doms ← dominators f;
      postdoms ← post_dominators f;
      r ← emit_regions (an_uses an.1) doms postdoms allocs f (next_var f);
      Ok (with_next_var r.2 r.1, an.2)
  end.

Section Tree.
Context (opt : IrFunction -> EscapeMemo -> outcome E (IrFunction * EscapeMemo)).

Fixpoint optimize_subs (fs : list IrFunction) (m : EscapeMemo) : outcome E (list IrFunction * EscapeMemo) :=
  match fs with
  | [] => Ok ([], m)
  | f :: fs' => r ← opt f m; rs ← optimize_subs fs' r.2; Ok (r.1 :: rs.1, rs.2)
  end.

End Tree.

Fixpoint optimize_tree (ctx : EscapeContext) (f : IrFunction) (m : EscapeMemo) : outcome E (IrFunction * EscapeMemo) :=
  match f with
  | mkIrFunction _ _ _ _ _ _ subs _ _ _ _ _ =>
      s ← optimize_subs (optimize_tree ctx) subs m;
      r ← optimize_regions f (Some ctx) s.2;
      Ok (with_subfunctions s.1 r.1, r.2)
  end.

End Regions.

(** * Regions of whole functions *)

Definition is_scalar_knownfn (kfn : KnownFn) : bool :=
  match kfn with
  | KAdd | KSub | KMul | KDiv | KRem | KUncheckedAdd | KUncheckedSub | KUncheckedMul | KEq | KLt | KGt | KLte | KGte
  | KCount | KCountFilter | KIsNil | KIsSeq | KIsVector | KIsMap | KIsEmpty | KIsNumber | KIsString | KIsKeyword | KIsSymbol
  | KIsBool | KIsInt | KContains | KIdentical | KPrintln | KPr | KPrn | KPrint => true
  | _ => false
  end.

Definition inst_is_provably_scalar (i : Inst) (scalar : gset VarId) : bool :=
  match i with
  | IConst _ c => match c with CNil | CBool _ | CLong _ | CDouble _ => true | _ => false end
  | ICallKnown _ kfn _ => is_scalar_knownfn kfn
  | IPhi _ arms => match arms with [] => false | _ => forallb (fun a => bool_decide (a.2 ∈ scalar)) arms end
  | _ => false
  end.

Definition inst_dst (i : Inst) : option VarId :=
  match i with
  | IConst d _ | ILoadLocal d _ | ILoadGlobal d _ _ | ILoadVar d _ _ | IAllocVector d _ | IAllocMap d _ | IAllocSet d _
  | IAllocList d _ | IAllocCons d _ _ | IAllocClosure d _ _ | ICallKnown d _ _ | ICall d _ _ | ICallDirect d _ _ | IDeref d _
  | IDefVar d _ _ _ | ISetBang d _ | IThrow d | IPhi d _ | IRegionStart d | IRegionAlloc d _ _ _ | IRegionParam d
  | ICallWithRegion d _ _ _ => Some d
  | IAwait _ d | ISpawn _ _ d | IChanTake _ d | IStateLoad d _ | IAsyncResume d _ => Some d
  | IRegionEnd _ | ISourceLoc _ | IRecur _ | IChanPut _ _ | IStateStore _ _ | IAsyncSuspend _ _ _ => None
  end.

Definition scalar_inst (acc : gset VarId * bool) (i : Inst) : gset VarId * bool :=
  match inst_dst i with
  | Some d =>
      if decide (d ∈ acc.1) then acc
      else if inst_is_provably_scalar i acc.1 then ({[d]} ∪ acc.1, true)
      else acc
  | None => acc
  end.

(** Every pass that changes the set adds the destination of an instruction. *)
Fixpoint scalar_loop {E : Type} (fuel : nat) (is_ : list Inst) (scalar : gset VarId) : outcome E (gset VarId) :=
  match fuel with
  | O => OutOfFuel
  | S n =>
      let '(scalar', changed) := fold_left scalar_inst is_ (scalar, false) in
      if changed then scalar_loop n is_ scalar' else Ok scalar'
  end.

Definition is_scalar_returning {E : Type} (f : IrFunction) : outcome E bool :=
  let is_ := blocks f ≫= block_insts in
  scalar ← scalar_loop (S (length is_)) is_ ∅;
  Ok (forallb (fun b => match terminator b with Return v => bool_decide (v ∈ scalar) | _ => true end) (blocks f)).

Definition start_first (r : VarId) (bs : list Block) : list Block :=
  match bs with
  | [] => []
  | b :: bs' => set_insts b (IRegionStart r :: insts b) :: bs'
  end.

Definition end_return (r : VarId) (b : Block) : Block :=
  match terminator b with Return _ => set_insts b (insts b ++ [IRegionEnd r]) | _ => b end.

Definition wrap_function_region (f : IrFunction) : IrFunction :=
  let region_var := next_var f in
  with_next_var (next_var f + 1) (with_blocks (map (end_return region_var) (start_first region_var (blocks f))) f).

(** Subfunctions first. *)
Fixpoint wrap_scalar_returning {E : Type} (f : IrFunction) : outcome E IrFunction :=
  subs ← inline_all wrap_scalar_returning (subfunctions f);
  let f := with_subfunctions subs f in
  scalar ← is_scalar_returning f;
  Ok (if scalar : bool then wrap_function_region f else f).

(** * Fusion of lazy producers with their eager consumers *)

Definition is_producer (kfn : KnownFn) : bool := match kfn with KFilter | KMapcat | KMap => true | _ => false end.

Abbreviation Producers := (gmap VarId (KnownFn * VarId * VarId)).

(** A producer whose result is used once. *)
Definition add_producer (uses : Uses) (m : Producers) (i : Inst) : Producers :=
  match i with
  | ICallKnown d kfn [a0; a1] =>
      if is_producer kfn && match uses !! d with Some [_] => true | _ => false end then <[d := (kfn, a0, a1)]> m else m
  | _ => m
  end.

Definition producers_of (f : IrFunction) : Producers := fold_left (add_producer (build_use_chains f)) (blocks f ≫= insts) ∅.

Definition fused_into (prod : KnownFn) : option KnownFn :=
  match prod with
  | KFilter => Some KIntoFilter
  | KMapcat => Some KIntoMapcat
  | KMap => Some KIntoMap
  | _ => None
  end.

Abbreviation Rewrites := (gmap VarId (KnownFn * list VarId)).

Definition add_fusion (ps : Producers) (acc : Rewrites * gset VarId) (i : Inst) : Rewrites * gset VarId :=
  match i with
  | ICallKnown d KCount [s] =>
      match ps !! s with
      | Some (KFilter, pred, coll) => (<[d := (KCountFilter, [pred; coll])]> acc.1, {[s]} ∪ acc.2)
      | _ => acc
      end
  | ICallKnown d KInto [to; s] =>
      match ps !! s with
      | Some (prod, a0, a1) =>
          match fused_into prod with
          | Some fused => (<[d := (fused, [to; a0; a1])]> acc.1, {[s]} ∪ acc.2)
          | None => acc
          end
      | None => acc
      end
  | _ => acc
  end.

Definition keep_inst (removed : gset VarId) (i : Inst) : bool :=
  match i with
  | ICallKnown d kfn _ => if is_producer kfn then negb (bool_decide (d ∈ removed)) else true
  | _ => true
  end.

Definition rewrite_inst (rw : Rewrites) (i : Inst) : Inst :=
  match i with
  | ICallKnown d _ _ => match rw !! d with Some (fused, args) => ICallKnown d fused args | None => i end
  | _ => i
  end.

Definition fuse_block (rw : Rewrites) (removed : gset VarId) (b : Block) : Block :=
  set_insts b (map (rewrite_inst rw) (filter (fun i => keep_inst removed i = true) (insts b))).

Definition fuse_body (f : IrFunction) : IrFunction :=
  let ps := producers_of f in
  if decide (ps = ∅) then f
  else
    let '(rw, removed) := fold_left (add_fusion ps) (blocks f ≫= insts) (∅, ∅) in
    if decide (rw = ∅) then f else with_blocks (map (fuse_block rw removed) (blocks f)) f.

Fixpoint fuse_eager_hofs (f : IrFunction) : IrFunction :=
  match f with
  | mkIrFunction _ _ _ _ _ _ subs _ _ _ _ _ => fuse_body (with_subfunctions (map fuse_eager_hofs subs) f)
  end.
