(* ===== verification/Regionalize.v ===== *)
(** Cross-function region promotion (crates/cljrs-ir/src/lower/regionalize.rs) and
    the optimizer that runs the passes in order (optimize.rs).

    A call whose result does not escape gets a variant of its callee that makes
    the allocations it returns in a region of the caller.  The tree of functions is
    passed along; a position in it is a path of indices. *)
From stdpp Require Import strings gmap.
From S2P Require Import Prelude RustStd Token Ir Osr Inline Escape RegionOpt.
Local Open Scope Z_scope.

Record Candidate : Type := mkCandidate {
  cd_path : list nat;
  cd_dst : VarId;
  cd_callee_fn_name : Name;
  cd_returns_allocs : gset VarId;
  cd_capture_count : nat
}.

Section Regionalize.
Context {E : Type} {HO : HashOrder}.

Definition resolve_callee_name (callee : VarId) (arg_count : nat) (defs : gmap VarId Inst) (ctx : EscapeContext) (m : EscapeMemo)
    : outcome E (option Name * EscapeMemo) :=
  match defs !! callee with
  | Some (ILoadGlobal _ ns name) => pick_defn ctx ns name arg_count m
  | Some (IDeref _ src) =>
      match defs !! src with
      | Some (ILoadGlobal _ ns name) | Some (ILoadVar _ ns name) => pick_defn ctx ns name arg_count m
      | _ => Ok (None, m)
      end
  | _ => Ok (None, m)
  end.

Fixpoint returns_of (callee : IrFunction) (ctx : EscapeContext) (vs : list VarId) (acc : gset VarId) (m : EscapeMemo)
    : outcome E (gset VarId * EscapeMemo) :=
  match vs with
  | [] => Ok (acc, m)
  | v :: vs' =>
      r ← classify_alloc callee (Some ctx) v m;
      returns_of callee ctx vs' (if decide (r.1 = Returns) then {[v]} ∪ acc else acc) r.2
  end.

Definition returns_allocs_of (callee : IrFunction) (ctx : EscapeContext) (m : EscapeMemo) : outcome E (gset VarId * EscapeMemo) :=
  returns_of callee ctx (order (dom (collect_allocs callee))) ∅ m.

(** * Allocations held by a returned one *)

Definition add_container (m : gmap VarId (list VarId)) (i : Inst) : gmap VarId (list VarId) :=
  match alloc_to_region_kind i, dst i with
  | Some _, Some d => fold_left (fun m op => <[op := default [] (m !! op) ++ [d]]> m) (alloc_operands i) m
  | _, _ => m
  end.

Definition build_containment (callee : IrFunction) : gmap VarId (list VarId) :=
  fold_left add_container (blocks callee ≫= block_insts) ∅.

Definition is_stored (u : UseInfo) : bool := match use_kind u with UStoredInHeap => true | _ => false end.

Definition promotable_alloc (defs : gmap VarId Inst) (op : VarId) : bool :=
  match defs !! op with
  | Some i => match alloc_to_region_kind i with Some _ => true | None => false end
  | None => false
  end.

(** Only stored, and only into containers that are collected. *)
Definition only_contained (uses : Uses) (containment : gmap VarId (list VarId)) (collected : gset VarId) (op : VarId) : bool :=
  match uses !! op with
  | Some (u :: us) =>
      forallb is_stored (u :: us) &&
      match containment !! op with Some cs => forallb (fun c => bool_decide (c ∈ collected)) cs | None => false end
  | _ => false
  end.

Record Deep : Type := mkDeep { dp_worklist : list VarId; dp_collected : gset VarId; dp_result : gset VarId }.

Definition deep_operand (defs : gmap VarId Inst) (uses : Uses) (containment : gmap VarId (list VarId)) (visited : gset VarId) (d : Deep) (op : VarId) : Deep :=
  if negb (promotable_alloc defs op) then d
  else if decide (op ∈ dp_collected d) then
    if decide (op ∈ visited) then d else mkDeep (op :: dp_worklist d) (dp_collected d) (dp_result d)
  else if only_contained uses containment (dp_collected d) op then
    mkDeep (op :: dp_worklist d) ({[op]} ∪ dp_collected d) ({[op]} ∪ dp_result d)
  else d.

Fixpoint deep_loop (fuel : nat) (defs : gmap VarId Inst) (uses : Uses) (containment : gmap VarId (list VarId)) (visited : gset VarId) (d : Deep)
    : outcome E (gset VarId) :=
  match fuel with
  | O => OutOfFuel
  | S n =>
      match dp_worklist d with
      | [] => Ok (dp_result d)
      | container :: wl =>
          let d := mkDeep wl (dp_collected d) (dp_result d) in
          if decide (container ∈ visited) then deep_loop n defs uses containment visited d
          else
            let visited := {[container]} ∪ visited in
            match defs !! container with
            | None => deep_loop n defs uses containment visited d
            | Some i => deep_loop n defs uses containment visited (fold_left (deep_operand defs uses containment visited) (alloc_operands i) d)
            end
      end
  end.

(** One step for each container and operand. *)
Definition deep_fuel (defs : gmap VarId Inst) (shallow : gset VarId) : nat :=
  S (size shallow + map_fold (fun _ i n => (length (alloc_operands i) + n)%nat) 0%nat defs).

Definition deep_returns_allocs (callee : IrFunction) (shallow : gset VarId) : outcome E (gset VarId) :=
  let defs := build_var_defs callee in
  deep_loop (deep_fuel defs shallow) defs (build_use_chains callee) (build_containment callee) ∅ (mkDeep (reverse (order shallow)) shallow ∅).

Definition is_extractor (kf : KnownFn) : bool :=
  match kf with KFirst | KNth | KNthLenient | KGet | KPeek => true | _ => false end.

(** What a use of a result forwards it to, [None] when an element may leak. *)
Definition deep_use (f : IrFunction) (v : VarId) (u : UseInfo) : option (list VarId) :=
  match use_kind u with
  | UKnownCallArg kf idx d => if is_extractor kf then None else Some (if known_fn_arg_escapes kf idx then [d] else [])
  | UPhiInput => Some (phi_outputs f v (use_block u))
  | UBranchCond | UDeref => Some []
  | _ => None
  end.

Fixpoint deep_uses (f : IrFunction) (v : VarId) (us : list UseInfo) (wl : list VarId) : option (list VarId) :=
  match us with
  | [] => Some wl
  | u :: us' => match deep_use f v u with Some vs => deep_uses f v us' (reverse vs ++ wl) | None => None end
  end.

Fixpoint safe_loop (fuel : nat) (f : IrFunction) (uses : Uses) (wl : list VarId) (seen : gset VarId) : outcome E bool :=
  match fuel with
  | O => OutOfFuel
  | S n =>
      match wl with
      | [] => Ok true
      | v :: wl' =>
          if decide (v ∈ seen) then safe_loop n f uses wl' seen
          else
            match deep_uses f v (default [] (uses !! v)) wl' with
            | Some wl'' => safe_loop n f uses wl'' ({[v]} ∪ seen)
            | None => Ok false
            end
      end
  end.

Definition call_result_safe_for_deep (f : IrFunction) (d : VarId) (uses : Uses) : outcome E bool :=
  safe_loop (S (S (total_uses uses * push_bound f))) f uses [d] ∅.

(** * Variants of callees *)

Definition with_name (n : option Name) (f : IrFunction) : IrFunction :=
  mkIrFunction n (params f) (blocks f) (next_var f) (next_block f) (fn_span f) (subfunctions f) (is_async f) (is_async_poll_fn f)
    (async_resume_blocks f) (seed_reprs f) (local_seed_reprs f).

Definition add_name (suffix : Name) (m : gmap Name Name) (f : IrFunction) : gmap Name Name :=
  match fn_name f with Some n => <[n := n ++ suffix]> m | None => m end.

(** The names of all subfunctions. *)
Fixpoint collect_names (suffix : Name) (f : IrFunction) (m : gmap Name Name) : gmap Name Name :=
  fold_left (fun m sub => collect_names suffix sub (add_name suffix m sub)) (subfunctions f) m.

Definition rename_inst (map_ : gmap Name Name) (i : Inst) : Inst :=
  match i with
  | IAllocClosure d t captures =>
      IAllocClosure d (mkClosureTemplate (ct_name t) (map (fun n => default n (map_ !! n)) (arity_fn_names t)) (param_counts t) (is_variadic t) (capture_names t)) captures
  | _ => i
  end.

Definition rename_block (map_ : gmap Name Name) (b : Block) : Block :=
  mkBlock (block_id b) (map (rename_inst map_) (phis b)) (map (rename_inst map_) (insts b)) (terminator b).

Definition new_name (map_ : gmap Name Name) (name : option Name) : option Name :=
  match name with Some n => Some (default n (map_ !! n)) | None => None end.

(** A subfunction, with its own name. *)
Fixpoint rename_sub (map_ : gmap Name Name) (f : IrFunction) : IrFunction :=
  with_name (new_name map_ (fn_name f)) (with_subfunctions (map (rename_sub map_) (subfunctions f)) (with_blocks (map (rename_block map_) (blocks f)) f)).

Definition rename_inner_subfunctions (f : IrFunction) (suffix : Name) : IrFunction :=
  let map_ := collect_names suffix f ∅ in
  if decide (map_ = ∅) then f
  else with_subfunctions (map (rename_sub map_) (subfunctions f)) (with_blocks (map (rename_block map_) (blocks f)) f).

Definition in_targets (targets : gset VarId) (i : Inst) : bool :=
  match dst i with
  | Some d => bool_decide (d ∈ targets) && match alloc_to_region_kind i with Some _ => true | None => false end
  | None => false
  end.

Definition specialize_inst (targets : gset VarId) (r : VarId) (i : Inst) : Inst :=
  match dst i with
  | Some d => if decide (d ∈ targets) then promote_inst d r i else i
  | None => i
  end.

Definition param_first (r : VarId) (bs : list Block) : option (list Block) :=
  match bs with
  | [] => None
  | b :: bs' => Some (set_insts b (IRegionParam r :: insts b) :: bs')
  end.

Definition specialize (original : IrFunction) (targets : gset VarId) (suffix : Name) : option IrFunction :=
  let region_var := next_var original in
  if negb (existsb (in_targets targets) (blocks original ≫= insts)) then None
  else
    bs ← param_first region_var (map (fun b => set_insts b (map (specialize_inst targets region_var) (insts b))) (blocks original));
    let clone := rename_inner_subfunctions (with_next_var (region_var + 1) (with_blocks bs original)) suffix in
    Some (with_name (Some (match fn_name original with Some n => n ++ suffix | None => lit "__cljrs_anon"%string ++ suffix end)) clone).

(** * The call site *)

Definition calls_dst (d : VarId) (i : Inst) : bool := match i with ICall d' _ _ => d' =? d | _ => false end.

Definition find_call_by_dst (f : IrFunction) (d : VarId) : option (nat * nat) :=
  '(b_idx, b) ← list_find (fun b => existsb (calls_dst d) (insts b) = true) (blocks f);
  '(i_idx, _) ← list_find (fun i => calls_dst d i = true) (insts b);
  Some (b_idx, i_idx).

Definition call_with_region (target : Name) (capture_count : nat) (r : VarId) (i : Inst) : Inst :=
  match i with
  | ICall d callee args => ICallWithRegion d target (if (capture_count =? 1)%nat then callee :: args else args) r
  | _ => i
  end.

(** [false] when the call is left as it is. *)
Definition rewrite_call_with_region_scope (f : IrFunction) (d : VarId) (target : Name) (capture_count : nat) : outcome E (IrFunction * bool) :=
  match find_call_by_dst f d with
  | None => Ok (f, false)
  | Some (block_idx, inst_idx) =>
      match blocks f !! block_idx with
      | None => Panic
      | Some b =>
          use_blocks ← collect_use_blocks d (build_use_chains f) f;
          doms ← dominators f;
          postdoms ← post_dominators f;
          span ← region_span f (block_id b) use_blocks doms postdoms;
          match span with
          | None => Ok (f, false)
          | Some (start, end_) =>
              let region_var := next_var f in
              let bs := <[block_idx := set_insts b (alter (call_with_region target capture_count region_var) inst_idx (insts b))]> (blocks f) in
              let bs := on_first_block start (fun is_ => IRegionStart region_var :: is_) bs in
              let bs := on_first_block end_ (fun is_ => is_ ++ [IRegionEnd region_var]) bs in
              Ok (with_next_var (region_var + 1) (with_blocks bs f), true)
          end
      end
  end.

(** * The pass *)

Definition any_promotable (callee : IrFunction) (allocs : gset VarId) : bool :=
  existsb (fun v => existsb (fun b => existsb (promotable v) (insts b)) (blocks callee)) (elements allocs).

Definition call_candidate (f : IrFunction) (path : list nat) (ctx : EscapeContext) (i : Inst) (m : EscapeMemo) : outcome E (option Candidate * EscapeMemo) :=
  match i with
  | ICall d callee args =>
      st ← classify_alloc f (Some ctx) d m;
      if decide (st.1 <> NoEscape) then Ok (None, st.2)
      else
        n ← resolve_callee_name callee (length args) (build_var_defs f) ctx st.2;
        match n.1 ≫= fun name => callee_fn ← registry ctx !! name; Some (name, callee_fn) with
        | None => Ok (None, n.2)
        | Some (name, callee_fn) =>
            if (length (params callee_fn) <? length args)%nat then Ok (None, n.2)
            else
              let capture_count := (length (params callee_fn) - length args)%nat in
              if (1 <? capture_count)%nat then Ok (None, n.2)
              else
                ra ← returns_allocs_of callee_fn ctx n.2;
                if decide (ra.1 = ∅) then Ok (None, ra.2)
                else if negb (any_promotable callee_fn ra.1) then Ok (None, ra.2)
                else
                  safe ← call_result_safe_for_deep f d (build_use_chains f);
                  deep ← (if safe : bool then deep_returns_allocs callee_fn ra.1 else Ok ∅);
                  Ok (Some (mkCandidate path d name (ra.1 ∪ deep) capture_count), ra.2)
        end
  | _ => Ok (None, m)
  end.

Fixpoint call_candidates (f : IrFunction) (path : list nat) (ctx : EscapeContext) (is_ : list Inst) (m : EscapeMemo) : outcome E (list Candidate * EscapeMemo) :=
  match is_ with
  | [] => Ok ([], m)
  | i :: is' =>
      c ← call_candidate f path ctx i m;
      cs ← call_candidates f path ctx is' c.2;
      Ok (match c.1 with Some c => c :: cs.1 | None => cs.1 end, cs.2)
  end.

Section Collect.
Context (rec : IrFunction -> list nat -> EscapeMemo -> outcome E (list Candidate * EscapeMemo)).

Fixpoint collect_subs (fs : list IrFunction) (i : nat) (path : list nat) (m : EscapeMemo) : outcome E (list Candidate * EscapeMemo) :=
  match fs with
  | [] => Ok ([], m)
  | f :: fs' => c ← rec f (path ++ [i]) m; cs ← collect_subs fs' (S i) path c.2; Ok (c.1 ++ cs.1, cs.2)
  end.

End Collect.

Fixpoint collect_candidates_in (ctx : EscapeContext) (f : IrFunction) (path : list nat) (m : EscapeMemo) : outcome E (list Candidate * EscapeMemo) :=
  match f with
  | mkIrFunction _ _ bs _ _ _ subs _ _ _ _ _ =>
      c ← call_candidates f path ctx (bs ≫= insts) m;
      cs ← collect_subs (collect_candidates_in ctx) subs 0 path c.2;
      Ok (c.1 ++ cs.1, cs.2)
  end.

(** The function at a path is rewritten; [subfunctions[i]] panics out of range. *)
Fixpoint at_path (path : list nat) (g : IrFunction -> outcome E IrFunction) (root : IrFunction) : outcome E IrFunction :=
  match path with
  | [] => g root
  | i :: path' =>
      match subfunctions root !! i with
      | None => Panic
      | Some sub => sub' ← at_path path' g sub; Ok (with_subfunctions (<[i := sub']> (subfunctions root)) root)
      end
  end.

Record Promote : Type := mkPromote {
  pr_root : IrFunction;
  pr_specialised : gmap (list nat * Name * gset VarId) Name;
  pr_counter : Z
}.

(** The name of the variant for a candidate, which may be added to the caller. *)
Definition target_for (ctx : EscapeContext) (c : Candidate) (s : Promote) : outcome E (option Name * Promote) :=
  let key := (cd_path c, cd_callee_fn_name c, cd_returns_allocs c) in
  match pr_specialised s !! key with
  | Some n => Ok (Some n, s)
  | None =>
      match registry ctx !! cd_callee_fn_name c with
      | None => Ok (None, s)
      | Some original =>
          let counter := pr_counter s + 1 in
          match specialize original (cd_returns_allocs c) (lit "__rg"%string ++ udec counter) with
          | None => Ok (None, mkPromote (pr_root s) (pr_specialised s) counter)
          | Some clone =>
              match fn_name clone with
              | None => Panic
              | Some name =>
                  root ← at_path (cd_path c) (fun f => Ok (with_subfunctions (subfunctions f ++ [clone]) f)) (pr_root s);
                  Ok (Some name, mkPromote root (<[key := name]> (pr_specialised s)) counter)
              end
          end
      end
  end.

Definition promote_candidate (ctx : EscapeContext) (c : Candidate) (s : Promote) : outcome E Promote :=
  t ← target_for ctx c s;
  match t.1 with
  | None => Ok t.2
  | Some name =>
      root ← at_path (cd_path c) (fun f => r ← rewrite_call_with_region_scope f (cd_dst c) name (cd_capture_count c); Ok r.1) (pr_root t.2);
      Ok (mkPromote root (pr_specialised t.2) (pr_counter t.2))
  end.

Fixpoint promote_candidates (ctx : EscapeContext) (cs : list Candidate) (s : Promote) : outcome E Promote :=
  match cs with
  | [] => Ok s
  | c :: cs' => s' ← promote_candidate ctx c s; promote_candidates ctx cs' s'
  end.

Definition promote_cross_fn_allocs (root : IrFunction) (ctx : EscapeContext) (m : EscapeMemo) : outcome E (IrFunction * EscapeMemo) :=
  cs ← collect_candidates_in ctx root [] m;
  s ← promote_candidates ctx cs.1 (mkPromote root ∅ 0);
  Ok (pr_root s, cs.2).

(** * The optimizer *)

Definition optimize_with_externals (fuel : nat) (f : IrFunction) (externals : list ExternalDefn) : outcome E (IrFunction * gset (Name * Name)) :=
  f ← inline fuel (fuse_eager_hofs f);
  r ← optimize_tree (make_context_with_externals f externals) f no_memo;
  p ← promote_cross_fn_allocs r.1 (make_context_with_externals r.1 externals) no_memo;
  w ← wrap_scalar_returning p.1;
  Ok (w, used_externals r.2 ∪ used_externals p.2).

Definition optimize (fuel : nat) (f : IrFunction) : outcome E IrFunction :=
  r ← optimize_with_externals fuel f []; Ok r.1.

End Regionalize.
