(* ===== verification/RegionOptSpec.v ===== *)
(** Region promotion: the dominators it computes are dominators, its loops end,
    and in a function without loops the region of an allocation is open whenever
    the allocation, or a value forwarded from it, is used. *)
From stdpp Require Import gmap.
From S2P Require Import Prelude RustStd Token Ir Reloop ReloopSem ReloopGraph IrInterp Osr OsrSem OsrSpec Inline InlineSem Escape RegionOpt.
Local Open Scope Z_scope.

(** * The iteration of dominators *)

Section Iterate.
Context (roots : gset BlockId) (block_ids : list BlockId) (pred_fn : BlockId -> gset BlockId).

Abbreviation update := (update_dom roots pred_fn).
Abbreviation news := (new_doms pred_fn).
Abbreviation preds := (known_preds pred_fn).

Definition dom_at (D : Doms) (b : BlockId) : gset BlockId := default ∅ (D !! b).

(** Every block has a set, a root only itself. *)
Record doms_inv (D : Doms) : Prop := {
  di_keys b : is_Some (D !! b) <-> b ∈ block_ids;
  di_root b : b ∈ block_ids -> b ∈ roots -> D !! b = Some {[b]};
  di_universe b : dom_at D b ⊆ list_to_set block_ids;
  di_shrink b : b ∈ block_ids -> b ∉ roots -> preds D b <> [] -> news D b ⊆ dom_at D b
}.

Definition doms_below (D D' : Doms) : Prop := (forall b, is_Some (D !! b) <-> is_Some (D' !! b)) /\ forall b, dom_at D b ⊆ dom_at D' b.

Lemma known_preds_ext D D' b : (forall k, is_Some (D !! k) <-> is_Some (D' !! k)) -> preds D b = preds D' b.
Proof. intros Hk. unfold known_preds. apply list_filter_iff. intros p. apply Hk. Qed.

Lemma intersect_mono (g h : BlockId -> gset BlockId) l : (forall p, g p ⊆ h p) -> intersect_sets (map g l) ⊆ intersect_sets (map h l).
Proof.
  intros Hg. destruct l as [|p l]; [done|]. cbn [map intersect_sets]. assert (Hs : g p ⊆ h p) by done. revert Hs. generalize (g p) (h p).
  induction l as [|q l IH]; intros s s' Hs; [done|]. cbn [map fold_left]. apply IH. specialize (Hg q). set_solver.
Qed.

Lemma intersect_elem (g : BlockId -> gset BlockId) l p x : p ∈ l -> x ∈ intersect_sets (map g l) -> x ∈ g p.
Proof.
  destruct l as [|q l]; [intros Hp%elem_of_nil; done|]. cbn [map intersect_sets].
  assert (Hf : forall l s, x ∈ fold_left (fun acc t => acc ∩ t) (map g l) s -> x ∈ s /\ forall p, p ∈ l -> x ∈ g p).
  { clear. induction l as [|q l IH]; intros s Hx; cbn [map fold_left] in Hx; [split; [done|intros p Hp%elem_of_nil; done]|].
    apply IH in Hx as [Hx Hl]. split; [set_solver|]. intros p Hp. apply elem_of_cons in Hp as [->|Hp]; [set_solver|by apply Hl]. }
  intros Hp Hx. apply Hf in Hx as [Hx Hl]. apply elem_of_cons in Hp as [->|Hp]; [done|by apply Hl].
Qed.

Lemma new_doms_mono D D' b : doms_below D D' -> news D b ⊆ news D' b.
Proof.
  intros [Hk Hs]. unfold new_doms. rewrite (known_preds_ext D D' b Hk). apply union_mono_l. by apply intersect_mono.
Qed.

Lemma new_doms_universe D b : doms_inv D -> b ∈ block_ids -> news D b ⊆ list_to_set block_ids.
Proof.
  intros HD Hb. unfold new_doms. apply union_least; [set_solver|]. destruct (preds D b) as [|p ps] eqn:E; [set_solver|].
  intros x Hx. assert (Hxp : x ∈ dom_at D p) by (apply (intersect_elem _ (p :: ps) p x); [apply elem_of_cons; by left|exact Hx]). by apply (di_universe _ HD p).
Qed.

Lemma dom_at_insert D b s k : dom_at (<[b := s]> D) k = if decide (b = k) then s else dom_at D k.
Proof. unfold dom_at. rewrite lookup_insert. by case_decide. Qed.

Lemma update_inv D b : doms_inv D -> b ∈ block_ids -> b ∉ roots -> preds D b <> [] ->
  doms_below (<[b := news D b]> D) D /\ doms_inv (<[b := news D b]> D).
Proof.
  intros HD Hb Hr Hp.
  assert (Hbel : doms_below (<[b := news D b]> D) D).
  { split.
    - intros k. rewrite lookup_insert. case_decide as Hk; [|done]. subst k. rewrite (di_keys _ HD). split; [done|eauto].
    - intros k. rewrite dom_at_insert. case_decide as Hk; [subst k; by apply (di_shrink _ HD)|done]. }
  split; [done|]. split.
  - intros k. rewrite <- (di_keys _ HD). apply Hbel.
  - intros k Hk Hkr. rewrite lookup_insert_ne by (intros ->; done). by apply (di_root _ HD).
  - intros k. rewrite dom_at_insert. case_decide; [by apply new_doms_universe|by apply (di_universe _ HD)].
  - intros k Hk Hkr Hkp. rewrite (known_preds_ext _ D k) in Hkp by (apply Hbel). rewrite dom_at_insert. case_decide as E.
    + subst k. by apply new_doms_mono.
    + transitivity (news D k); [by apply new_doms_mono|by apply (di_shrink _ HD)].
Qed.

Lemma pass_same l D c D' :
  fold_left update l (D, c) = (D', false) ->
  c = false /\ D' = D /\ forall b, b ∈ l -> b ∉ roots -> preds D b <> [] -> D !! b = Some (news D b).
Proof.
  revert D c. induction l as [|b l IH]; intros D c Hp; cbn [fold_left] in Hp; [injection Hp as -> ->; split_and!; try done; set_solver|].
  unfold update_dom at 2 in Hp. cbn [fst snd] in Hp. case_decide as Hr; [|case_decide as Hn; [|case_decide as Hd]].
  - apply IH in Hp as (-> & -> & Hl). split_and!; try done. intros k Hk. apply elem_of_cons in Hk as [->|Hk]; [done|by apply Hl].
  - apply IH in Hp as (-> & -> & Hl). split_and!; try done. intros k Hk. apply elem_of_cons in Hk as [->|Hk]; [done|by apply Hl].
  - apply IH in Hp as (-> & -> & Hl). split_and!; try done. intros k Hk. apply elem_of_cons in Hk as [->|Hk]; [done|by apply Hl].
  - apply IH in Hp as (? & _). done.
Qed.

Definition dom_size (D : Doms) : nat := sum_list (map (fun b => size (dom_at D b)) block_ids).

Lemma dom_size_mono l D D' : doms_below D D' -> (sum_list (map (fun b => size (dom_at D b)) l) <= sum_list (map (fun b => size (dom_at D' b)) l))%nat.
Proof. intros [_ Hs]. induction l as [|b l IH]; [done|]. cbn. pose proof (subseteq_size _ _ (Hs b)). lia. Qed.

Lemma dom_size_drop D D' b : doms_below D D' -> b ∈ block_ids -> dom_at D b <> dom_at D' b -> (dom_size D < dom_size D')%nat.
Proof.
  intros HD Hb Hne. unfold dom_size. induction Hb as [b l|b c l Hb IH]; cbn.
  - pose proof (dom_size_mono l D D' HD). assert (size (dom_at D b) < size (dom_at D' b))%nat; [|lia].
    apply subset_size. apply strict_spec_alt. split; [apply HD|done].
  - pose proof (subseteq_size _ _ (proj2 HD c)). specialize (IH Hne). lia.
Qed.

Lemma pass_shrinks l D c D' c' :
  doms_inv D -> (forall b, b ∈ l -> b ∈ block_ids) -> fold_left update l (D, c) = (D', c') ->
  doms_inv D' /\ (c = false -> c' = true -> (dom_size D' < dom_size D)%nat) /\ (dom_size D' <= dom_size D)%nat.
Proof.
  revert D c. induction l as [|b l IH]; intros D c HD Hin Hp; cbn [fold_left] in Hp; [injection Hp as -> ->; split_and!; [done|intros -> ?; done|lia]|].
  assert (Hb : b ∈ block_ids) by (apply Hin; set_solver). assert (Hl : forall k, k ∈ l -> k ∈ block_ids) by set_solver.
  unfold update_dom at 2 in Hp. cbn [fst snd] in Hp. case_decide as Hr; [by apply (IH D c)|]. case_decide as Hn; [by apply (IH D c)|]. case_decide as Hd; [by apply (IH D c)|].
  destruct (update_inv D b HD Hb Hr Hn) as [Hbel Hinv]. destruct (IH _ _ Hinv Hl Hp) as (I1 & _ & I3).
  assert (dom_size (<[b := news D b]> D) < dom_size D)%nat; [|split_and!; [done|lia|lia]].
  apply (dom_size_drop _ _ b Hbel Hb). rewrite dom_at_insert, decide_True by done. intros E. apply Hd.
  destruct (proj2 (di_keys _ HD b) Hb) as [s Hs]. unfold dom_at in E. rewrite Hs in *. cbn in E. by rewrite E.
Qed.

Lemma dom_loop_ok {E : Type} fuel D :
  doms_inv D -> (dom_size D < fuel)%nat ->
  exists D', dom_loop (E := E) roots block_ids pred_fn fuel D = Ok D' /\ doms_inv D' /\
    forall b, b ∈ block_ids -> b ∉ roots -> preds D' b <> [] -> D' !! b = Some (news D' b).
Proof.
  revert D. induction fuel as [|fuel IH]; intros D HD Hf; [lia|]. cbn [dom_loop]. destruct (fold_left _ _ _) as [D' c] eqn:Hp.
  destruct (pass_shrinks block_ids D false D' c HD) as (I1 & I2 & _); [done|done|]. destruct c.
  - apply IH; [done|]. specialize (I2 eq_refl eq_refl). lia.
  - apply pass_same in Hp as (_ & -> & Hl). by exists D.
Qed.

Lemma initial_inv : doms_inv (initial_doms roots block_ids).
Proof.
  unfold initial_doms. set (universe := list_to_set block_ids : gset BlockId).
  assert (Hg : forall l (m : Doms) b, fold_left (fun m b => <[b := if decide (b ∈ roots) then {[b]} else universe]> m) l m !! b =
    if decide (b ∈ l) then Some (if decide (b ∈ roots) then {[b]} else universe) else m !! b).
  { induction l as [|c l IH]; intros m b; cbn [fold_left]; [by rewrite decide_False by set_solver|]. rewrite IH. rewrite lookup_insert.
    repeat case_decide; subst; set_solver. }
  assert (Hat : forall b, b ∈ block_ids -> dom_at (fold_left (fun m b => <[b := if decide (b ∈ roots) then {[b]} else universe]> m) block_ids ∅) b = if decide (b ∈ roots) then {[b]} else universe).
  { intros b Hb. unfold dom_at. rewrite Hg, decide_True by done. done. }
  split.
  - intros b. rewrite Hg. case_decide; [split; [done|eauto]|]. rewrite lookup_empty. split; [intros [? ?]; done|done].
  - intros b Hb Hr. rewrite Hg, !decide_True by done. done.
  - intros b. unfold dom_at. rewrite Hg. case_decide; [|rewrite lookup_empty; set_solver]. cbn. case_decide; unfold universe; set_solver.
  - intros b Hb Hr Hp. rewrite (Hat b Hb), decide_False by done. unfold new_doms. apply union_least; [unfold universe; set_solver|].
    destruct (preds _ b) as [|p ps] eqn:Ep; [done|]. intros x Hx. apply (intersect_elem _ (p :: ps) p) in Hx; [|apply elem_of_cons; by left]. cbn beta in Hx.
    assert (Hpb : p ∈ block_ids).
    { assert (Hin : p ∈ preds (fold_left (fun m b => <[b := if decide (b ∈ roots) then {[b]} else universe]> m) block_ids ∅) b) by (rewrite Ep; apply elem_of_cons; by left).
      apply list_elem_of_filter in Hin as [Hsome _]. rewrite Hg in Hsome. case_decide; [done|]. rewrite lookup_empty in Hsome. by destruct Hsome. }
    change (x ∈ dom_at (fold_left (fun m b => <[b := if decide (b ∈ roots) then {[b]} else universe]> m) block_ids ∅) p) in Hx. rewrite (Hat p Hpb) in Hx.
    case_decide; [unfold universe; set_solver|done].
Qed.

(** The iteration ends; a set but for the block itself is part of the sets of all
    predecessors. *)
Lemma dom_iterate_ok {E : Type} :
  exists D, dom_iterate (E := E) roots block_ids pred_fn = Ok D /\
    (forall b, is_Some (D !! b) <-> b ∈ block_ids) /\
    (forall b, b ∈ block_ids -> b ∈ roots -> dom_at D b = {[b]}) /\
    (forall b p d, b ∈ block_ids -> b ∉ roots -> p ∈ pred_fn b -> p ∈ block_ids -> d ∈ dom_at D b -> d = b \/ d ∈ dom_at D p).
Proof.
  destruct (dom_loop_ok (E := E) (S (length block_ids * length block_ids)) (initial_doms roots block_ids) initial_inv) as (D & HD & Hinv & Hfix).
  { unfold dom_size. assert (Hl : forall l, (sum_list (map (fun b => size (dom_at (initial_doms roots block_ids) b)) l) <= length l * length block_ids)%nat); [|specialize (Hl block_ids); lia].
    induction l as [|b l IH]; [done|]. cbn. pose proof (subseteq_size _ _ (di_universe _ initial_inv b)) as Hs.
    assert (size (list_to_set block_ids : gset BlockId) <= length block_ids)%nat; [|lia].
    clear. induction block_ids as [|b l IH]; [cbn; rewrite size_empty; lia|]. cbn. pose proof (size_union_alt ({[b]} : gset BlockId) (list_to_set l)) as Hu. rewrite size_singleton in Hu.
    pose proof (subseteq_size (list_to_set l ∖ {[b]} : gset BlockId) (list_to_set l) ltac:(set_solver)). lia. }
  exists D. split_and!.
  - exact HD.
  - apply (di_keys _ Hinv).
  - intros b Hb Hr. unfold dom_at. by rewrite (di_root _ Hinv b Hb Hr).
  - intros b p d Hb Hr Hp Hpb Hd. assert (Hin : p ∈ preds D b).
    { apply list_elem_of_filter. split; [by apply (di_keys _ Hinv)|by apply elem_of_elements]. }
    assert (Hne : preds D b <> []) by (intros E0; rewrite E0 in Hin; by apply elem_of_nil in Hin).
    unfold dom_at in Hd. rewrite (Hfix b Hb Hr Hne) in Hd. cbn in Hd. unfold new_doms in Hd. apply elem_of_union in Hd as [Hd|Hd]; [left; set_solver|].
    right. exact (intersect_elem (fun p => dom_at D p) _ p d Hin Hd).
Qed.

End Iterate.

(** * The blocks in reverse postorder *)

Lemma sum_list_with_mono {A : Type} (g h : A -> nat) l : (forall x, x ∈ l -> (g x <= h x)%nat) -> (sum_list_with g l <= sum_list_with h l)%nat.
Proof.
  induction l as [|x l IH]; intros Hl; [done|]. cbn. pose proof (Hl x ltac:(set_solver)). specialize (IH ltac:(set_solver)). lia.
Qed.

(** The weights of the entries whose key is not in a set. *)
Definition unvisited {A : Type} (w : A -> nat) (l : list (Z * A)) (visited : gset Z) : nat :=
  sum_list_with (fun p => if decide (p.1 ∈ visited) then 0%nat else w p.2) l.

Lemma unvisited_mono {A : Type} (w : A -> nat) l visited visited' : visited ⊆ visited' -> (unvisited w l visited' <= unvisited w l visited)%nat.
Proof. intros Hv. apply sum_list_with_mono. intros p _. repeat case_decide; first [lia|exfalso; set_solver]. Qed.

Lemma unvisited_visit {A : Type} (w : A -> nat) l visited q :
  q ∈ l -> q.1 ∉ visited -> (w q.2 + unvisited w l ({[q.1]} ∪ visited) <= unvisited w l visited)%nat.
Proof.
  intros Hq Hx. unfold unvisited. induction Hq as [q l|q c l Hq IH]; cbn [sum_list_with].
  - rewrite (decide_True (P := q.1 ∈ {[q.1]} ∪ visited)), (decide_False (P := q.1 ∈ visited)) by set_solver.
    pose proof (unvisited_mono w l visited ({[q.1]} ∪ visited) ltac:(set_solver)) as Hm. unfold unvisited in Hm. lia.
  - specialize (IH Hx). repeat case_decide; first [lia|exfalso; set_solver].
Qed.

Lemma unvisited_all {A : Type} (w : A -> nat) l : unvisited w l ∅ = sum_list_with (fun p => w p.2) l.
Proof. unfold unvisited. induction l as [|p l IH]; [done|]. cbn [sum_list_with]. rewrite decide_False by set_solver. by rewrite IH. Qed.

Lemma blocks_by_id_in f b blk : blocks_by_id f !! b = Some blk -> blk ∈ blocks f /\ block_id blk = b.
Proof.
  unfold blocks_by_id. assert (Hg : forall l (m : gmap BlockId Block), fold_left add_block l m !! b = Some blk -> m !! b = Some blk \/ (blk ∈ l /\ block_id blk = b)).
  { induction l as [|c l IH]; intros m Hm; cbn [fold_left] in Hm; [by left|]. apply IH in Hm as [Hm|[H1 H2]]; [|right; set_solver].
    unfold add_block in Hm. rewrite lookup_insert in Hm. case_decide as Hc; [|by left]. injection Hm as ->. right. set_solver. }
  intros Hm. apply Hg in Hm as [Hm|Hm]; [by rewrite lookup_empty in Hm|done].
Qed.

Definition succs_of (f : IrFunction) (b : BlockId) : list BlockId := from_option block_successors [] (blocks_by_id f !! b).

(** The edges of the blocks that are not visited yet. *)
Definition rest_work (f : IrFunction) (visited : gset BlockId) : nat :=
  unvisited (fun b => length (block_successors b)) (map (fun b => (block_id b, b)) (blocks f)) visited.

Lemma rest_work_visit f visited b :
  b ∉ visited -> (length (succs_of f b) + rest_work f ({[b]} ∪ visited) <= rest_work f visited)%nat.
Proof.
  intros Hv. unfold succs_of. destruct (blocks_by_id f !! b) as [blk|] eqn:Hb; cbn [from_option length]; [|apply unvisited_mono; set_solver].
  apply blocks_by_id_in in Hb as [Hb <-]. apply (unvisited_visit (fun b => length (block_successors b)) _ visited (block_id blk, blk)); [|done].
  apply list_elem_of_fmap. by exists blk.
Qed.

Lemma rest_work_all f : rest_work f ∅ = edge_count f.
Proof. unfold rest_work, edge_count. rewrite unvisited_all. induction (blocks f) as [|b l IH]; [done|]. cbn. by rewrite IH. Qed.

(** Blocks to enter weigh more than blocks that are done. *)
Definition stack_weight (stack : list (BlockId * bool)) : nat := sum_list_with (fun p => if p.2 : bool then 1%nat else 2%nat) stack.

Lemma stack_weight_app l l' : stack_weight (l ++ l') = (stack_weight l + stack_weight l')%nat.
Proof. unfold stack_weight. induction l as [|p l IH]; [done|]. cbn. rewrite IH. lia. Qed.

Lemma stack_weight_enter (ss : list BlockId) : stack_weight (reverse (map (fun s => (s, false)) ss)) = (2 * length ss)%nat.
Proof. induction ss as [|s ss IH]; [done|]. cbn [map]. rewrite reverse_cons, stack_weight_app, IH. cbn. lia. Qed.

Lemma rpo_loop_total {E : Type} f fuel stack visited post :
  (stack_weight stack + 2 * rest_work f visited < fuel)%nat -> exists l, rpo_loop (E := E) fuel (blocks_by_id f) stack visited post = Ok l.
Proof.
  revert stack visited post. induction fuel as [|fuel IH]; intros stack visited post Hf; [lia|]. cbn [rpo_loop]. destruct stack as [|[b done_] st]; [eauto|].
  unfold stack_weight in Hf. cbn [sum_list_with snd] in Hf. change (sum_list_with _ st) with (stack_weight st) in Hf. destruct done_; [apply IH; lia|]. case_decide as Hv; [apply IH; lia|].
  apply IH. rewrite stack_weight_app, stack_weight_enter. unfold stack_weight at 1. cbn [sum_list_with snd]. change (sum_list_with _ st) with (stack_weight st).
  pose proof (rest_work_visit f visited b Hv). unfold succs_of in *. lia.
Qed.

Lemma reverse_postorder_total {E : Type} f : exists l, reverse_postorder (E := E) f = Ok l.
Proof. apply rpo_loop_total. rewrite rest_work_all. cbn. lia. Qed.

Lemma idom_total {E : Type} f : exists D, dominators (E := E) f = Ok D.
Proof.
  unfold dominators. destruct (reverse_postorder_total (E := E) f) as [l ->]. cbn [mbind outcome_bind].
  destruct (dom_iterate_ok {[0]} l (fun b => default ∅ (predecessor_map f !! b)) (E := E)) as (D & HD & _). by exists D.
Qed.

Lemma ipdom_total {E : Type} f : exists D, post_dominators (E := E) f = Ok D.
Proof.
  unfold post_dominators. destruct (reverse_postorder_total (E := E) f) as [l ->]. cbn [mbind outcome_bind].
  destruct (dom_iterate_ok (collect_exits f) l (fun b => list_to_set (succs_of f b)) (E := E)) as (D & HD & _). by exists D.
Qed.

Section Walk.
Context (f : IrFunction) (Hwf : well_formed f 0).

Lemma succs_of_spec b s : s ∈ succs_of f b <-> succ f b s.
Proof.
  unfold succs_of, succ, terminates. pose proof (fun blk => blocks_by_id_spec f b blk (wf_ids _ _ Hwf)) as Hs. split.
  - destruct (blocks_by_id f !! b) as [blk|] eqn:Hb; [|intros H%elem_of_nil; done]. destruct (proj1 (Hs blk) eq_refl) as [H1 H2]. intros H. exists (terminator blk). split; [by exists blk|done].
  - intros (t & (blk & H1 & H2 & <-) & H). by rewrite (proj2 (Hs blk) (conj H1 H2)).
Qed.

Record rpo_inv (stack : list (BlockId * bool)) (visited : gset BlockId) (post : list BlockId) : Prop := {
  ri_done b : b ∈ visited <-> b ∈ post \/ (b, true) ∈ stack;
  ri_succ b s : b ∈ visited -> succ f b s -> s ∈ visited \/ (s, false) ∈ stack;
  ri_entry : 0 ∈ visited \/ (0, false) ∈ stack
}.

Lemma rpo_enter b st visited post :
  rpo_inv ((b, false) :: st) visited post -> b ∉ visited ->
  rpo_inv (reverse (map (fun s => (s, false)) (succs_of f b)) ++ (b, true) :: st) ({[b]} ∪ visited) post.
Proof.
  intros HI Hb.
  assert (Hst : forall p, p ∈ reverse (map (fun s => (s, false)) (succs_of f b)) ++ (b, true) :: st <-> (p.2 = false /\ succ f b p.1) \/ p = (b, true) \/ p ∈ st).
  { intros p. rewrite elem_of_app, elem_of_reverse, elem_of_cons, list_elem_of_fmap. setoid_rewrite succs_of_spec. split.
    - intros [(s & -> & Hs)|H]; [left; by split|by right].
    - intros [[H1 H2]|H]; [left|by right]. exists p.1. split; [destruct p; cbn in *; by subst|done]. }
  pose proof (fun b => ri_done _ _ _ HI b) as Hd. split.
  - intros x. rewrite elem_of_union, elem_of_singleton, Hst, Hd. cbn. set_solver.
  - intros x s Hx Hs. rewrite Hst. cbn. destruct (decide (x = b)) as [->|Hn]; [right; left; by split|].
    destruct (ri_succ _ _ _ HI x s ltac:(set_solver) Hs) as [H|H]; [left; set_solver|]. apply elem_of_cons in H as [H|H]; [injection H as ->; left; set_solver|by right; right; right].
  - rewrite Hst. destruct (ri_entry _ _ _ HI) as [H|H]; [left; set_solver|]. apply elem_of_cons in H as [H|H]; [injection H as ->; left; set_solver|by right; right; right].
Qed.

Lemma rpo_loop_closed {E : Type} fuel stack visited post l :
  rpo_inv stack visited post -> rpo_loop (E := E) fuel (blocks_by_id f) stack visited post = Ok l -> 0 ∈ l /\ forall b s, b ∈ l -> succ f b s -> s ∈ l.
Proof.
  revert stack visited post. induction fuel as [|fuel IH]; intros stack visited post HI Hl; [done|]. cbn [rpo_loop] in Hl. destruct stack as [|[b done_] st].
  - injection Hl as ->. pose proof (fun b => ri_done _ _ _ HI b) as Hd. split.
    + destruct (ri_entry _ _ _ HI) as [H|H%elem_of_nil]; [|done]. apply Hd in H as [H|H%elem_of_nil]; done.
    + intros b s Hb Hs. destruct (ri_succ _ _ _ HI b s) as [H|H%elem_of_nil]; [apply Hd; by left|done| |done]. apply Hd in H as [H|H%elem_of_nil]; done.
  - destruct done_.
    + apply (IH _ _ _) in Hl; [done|]. split.
      * intros x. rewrite (ri_done _ _ _ HI), !elem_of_cons. naive_solver.
      * intros x s Hx Hs. destruct (ri_succ _ _ _ HI x s Hx Hs) as [H|H]; [by left|]. apply elem_of_cons in H as [H|H]; [done|by right].
      * destruct (ri_entry _ _ _ HI) as [H|H]; [by left|]. apply elem_of_cons in H as [H|H]; [done|by right].
    + case_decide as Hv.
      * apply (IH _ _ _) in Hl; [done|]. split.
        -- intros x. rewrite (ri_done _ _ _ HI), elem_of_cons. naive_solver.
        -- intros x s Hx Hs. destruct (ri_succ _ _ _ HI x s Hx Hs) as [H|H]; [by left|]. apply elem_of_cons in H as [H|H]; [injection H as ->; by left|by right].
        -- destruct (ri_entry _ _ _ HI) as [H|H]; [by left|]. apply elem_of_cons in H as [H|H]; [injection H as <-; by left|by right].
      * apply (IH _ _ _) in Hl; [done|]. by apply rpo_enter.
Qed.

Lemma entry_in_ids : 0 ∈ ids f.
Proof. destruct (wf_entry _ _ Hwf) as (b0 & rest & Hb & H0). unfold ids. rewrite Hb, <- H0. cbn. apply elem_of_cons. by left. Qed.

(** The walk ends; its blocks hold the entry and all their successors. *)
Lemma reverse_postorder_ok {E : Type} :
  exists l, reverse_postorder (E := E) f = Ok l /\ 0 ∈ l /\ forall b s, b ∈ l -> succ f b s -> s ∈ l.
Proof.
  destruct (reverse_postorder_total (E := E) f) as [l Hl]. exists l. split; [done|]. eapply rpo_loop_closed; [|exact Hl].
  split; [set_solver|set_solver|right; by apply elem_of_cons; left].
Qed.

(** * Dominators are dominators *)

Lemma add_pred_keeps b m ss s x : x ∈ default ∅ (m !! s) -> x ∈ default ∅ (fold_left (add_pred b) ss m !! s).
Proof.
  revert m. induction ss as [|t ss IH]; intros m Hx; [done|]. cbn [fold_left]. apply IH. unfold add_pred. rewrite lookup_insert.
  case_decide as Ht; [subst t; cbn; set_solver|done].
Qed.

Lemma add_pred_adds b m ss s : s ∈ ss -> b ∈ default ∅ (fold_left (add_pred b) ss m !! s).
Proof.
  revert m. induction ss as [|t ss IH]; intros m Hs; [by apply elem_of_nil in Hs|]. cbn [fold_left].
  apply elem_of_cons in Hs as [->|Hs]; [|by apply IH]. apply add_pred_keeps. unfold add_pred. rewrite lookup_insert_eq. cbn. set_solver.
Qed.

Lemma predecessor_map_spec b s : succ f b s -> b ∈ default ∅ (predecessor_map f !! s).
Proof.
  intros (t & (blk & Hin & <- & <-) & Hs). unfold predecessor_map. generalize (∅ : Doms).
  assert (Hk : forall l m, block_id blk ∈ default ∅ (m !! s) -> block_id blk ∈ default ∅ (fold_left (fun m b => fold_left (add_pred (block_id b)) (block_successors b) m) l m !! s)).
  { induction l as [|c l IH]; intros m Hm; [done|]. cbn [fold_left]. apply IH. by apply add_pred_keeps. }
  induction Hin as [blk l|blk c l Hin IH]; intros m; cbn [fold_left]; [|by apply IH]. apply Hk. by apply add_pred_adds.
Qed.

(** Paths to an exit, from their first block. *)
Inductive leaves : list BlockId -> BlockId -> Prop :=
| leaves_exit u t : terminates f u t -> is_exit t = true -> leaves [u] u
| leaves_step u s l : succ f u s -> leaves l s -> leaves (u :: l) u.

Definition post_dominates (d u : BlockId) : Prop := forall l, leaves l u -> d ∈ l.

Lemma dominates_refl b : dominates f 0 b b.
Proof. intros p Hp. inversion Hp; apply elem_of_cons; by left. Qed.

Lemma path_prefix p b x : path f 0 p b -> x ∈ p -> exists p', path f 0 p' x /\ p' ⊆ p.
Proof.
  induction 1 as [|p b s Hp IH Hs]; intros Hx.
  - apply list_elem_of_singleton in Hx as ->. exists [0]. split; [constructor|done].
  - apply elem_of_cons in Hx as [->|Hx]; [exists (s :: p); split; [by econstructor|done]|]. destruct (IH Hx) as (p' & H1 & H2). exists p'. set_solver.
Qed.

Lemma dominates_trans a b c : dominates f 0 a b -> dominates f 0 b c -> dominates f 0 a c.
Proof. intros Hab Hbc p Hp. destruct (path_prefix p c b Hp (Hbc p Hp)) as (p' & H1 & H2). apply H2. by apply Hab. Qed.

Lemma post_dominates_refl b : post_dominates b b.
Proof. intros l Hl. inversion Hl; apply elem_of_cons; by left. Qed.

Lemma leaves_suffix l u x : leaves l u -> x ∈ l -> exists l', leaves l' x /\ l' ⊆ l.
Proof.
  induction 1 as [u t Ht He|u s l Hs Hl IH]; intros Hx.
  - apply list_elem_of_singleton in Hx as ->. exists [u]. split; [by econstructor|done].
  - apply elem_of_cons in Hx as [->|Hx]; [exists (u :: l); split; [by econstructor|done]|]. destruct (IH Hx) as (l' & H1 & H2). exists l'. set_solver.
Qed.

Lemma post_dominates_trans a b c : post_dominates a b -> post_dominates b c -> post_dominates a c.
Proof. intros Hab Hbc p Hp. destruct (leaves_suffix p c b Hp (Hbc p Hp)) as (p' & H1 & H2). apply H2. by apply Hab. Qed.

Lemma exits_spec u t : terminates f u t -> is_exit t = true -> u ∈ collect_exits f.
Proof.
  intros (blk & Hin & <- & <-) He. unfold collect_exits. apply elem_of_list_to_set, list_elem_of_fmap. exists blk. split; [done|]. by apply list_elem_of_filter.
Qed.

Lemma dominators_ok {E : Type} :
  exists D, dominators (E := E) f = Ok D /\ forall b d, d ∈ dom_at D b -> dominates f 0 d b.
Proof.
  destruct (reverse_postorder_ok (E := E)) as (l & Hl & H0 & Hcl). unfold dominators. rewrite Hl. cbn [mbind outcome_bind].
  destruct (dom_iterate_ok {[0]} l (fun b => default ∅ (predecessor_map f !! b)) (E := E)) as (D & HD & Hk & Hr & Hp).
  exists D. split; [done|]. intros b d Hd p Hpath. revert d Hd.
  assert (Hin : forall p b, path f 0 p b -> b ∈ l) by (clear -H0 Hcl; induction 1; eauto).
  induction Hpath as [|p b s Hpath IH Hs]; intros d Hd.
  - rewrite Hr in Hd by set_solver. set_solver.
  - assert (Hsl : s ∈ l) by (eapply Hcl; [eapply Hin|]; done). destruct (decide (s = 0)) as [->|Hn].
    + rewrite Hr in Hd by set_solver. set_solver.
    + destruct (Hp s b d) as [->|H]; [done|set_solver|by apply predecessor_map_spec|by eapply Hin|done|apply elem_of_cons; by left|].
      apply elem_of_cons. right. by apply IH.
Qed.

Lemma post_dominators_ok {E : Type} :
  exists D, post_dominators (E := E) f = Ok D /\ forall b d, d ∈ dom_at D b -> post_dominates d b.
Proof.
  destruct (reverse_postorder_ok (E := E)) as (l & Hl & H0 & Hcl). unfold post_dominators. rewrite Hl. cbn [mbind outcome_bind].
  destruct (dom_iterate_ok (collect_exits f) l (fun b => list_to_set (succs_of f b)) (E := E)) as (D & HD & Hk & Hr & Hp).
  exists D. split; [done|]. intros b d Hd p Hpath.
  assert (Hb : b ∈ l). { apply Hk. unfold dom_at in Hd. destruct (D !! b); [eauto|cbn in Hd; set_solver]. }
  revert d Hd Hb. induction Hpath as [u t Ht He|u s q Hs Hq IH]; intros d Hd Hb.
  - rewrite Hr in Hd by (try done; by eapply exits_spec). set_solver.
  - assert (Hsl : s ∈ l) by (by eapply Hcl). destruct (decide (u ∈ collect_exits f)) as [He|He].
    + rewrite Hr in Hd by done. set_solver.
    + destruct (Hp u s d) as [->|H]; [done|done|apply elem_of_list_to_set; by apply succs_of_spec|done|done|apply elem_of_cons; by left|].
      apply elem_of_cons. right. by apply IH.
Qed.

End Walk.

(** * Common dominators *)

Section Common.
Context {HO : HashOrder} (D : Doms) (R : BlockId -> BlockId -> Prop).
Context (R_refl : forall b, R b b) (R_trans : forall a b c, R a b -> R b c -> R a c) (D_sound : forall b d, d ∈ dom_at D b -> R d b).

Lemma max_by_key_in key l m : max_by_key key l = Some m -> m ∈ l.
Proof.
  unfold max_by_key. assert (Hg : forall l acc, fold_left (fun acc d => match acc with Some a => if (key a <=? key d)%nat then Some d else acc | None => Some d end) l acc = Some m -> acc = Some m \/ m ∈ l).
  { clear. induction l as [|d l IH]; intros acc Hm; cbn [fold_left] in Hm; [by left|]. apply IH in Hm as [Hm|Hm]; [|right; set_solver].
    destruct acc as [a|]; [destruct (key a <=? key d)%nat|]; [|by left|]; injection Hm as ->; right; apply elem_of_cons; by left. }
  intros Hm. by apply Hg in Hm as [?|?].
Qed.

Lemma lca_of_sound a b l : lca_of D a b = Some l -> R l a /\ R l b.
Proof.
  unfold lca_of. destruct (D !! a) as [da|] eqn:Ea; [|done]. destruct (D !! b) as [db|] eqn:Eb; [|done]. cbn [mbind option_bind].
  case_decide; [done|]. intros Hm%max_by_key_in. rewrite order_elements in Hm. apply elem_of_elements, elem_of_intersection in Hm as [H1 H2].
  split; apply D_sound; unfold dom_at; [by rewrite Ea|by rewrite Eb].
Qed.

Lemma lca_fold_sound bs acc l : lca_fold D acc bs = Some l -> R l acc /\ forall b, b ∈ bs -> R l b.
Proof.
  revert acc. induction bs as [|b bs IH]; intros acc Hl; cbn [lca_fold] in Hl; [injection Hl as ->; split; [done|set_solver]|].
  destruct (lca_of D acc b) as [m|] eqn:Hm; [|done]. cbn [mbind option_bind] in Hl. apply lca_of_sound in Hm as [M1 M2]. apply IH in Hl as [I1 I2].
  split; [by eapply R_trans|]. intros x Hx. apply elem_of_cons in Hx as [->|Hx]; [by eapply R_trans|by apply I2].
Qed.

Lemma lca_of_many_sound bs l : lca_of_many D bs = Some l -> forall b, b ∈ bs -> R l b.
Proof.
  destruct bs as [|b bs]; [done|]. cbn [lca_of_many]. intros Hl. apply lca_fold_sound in Hl as [H1 H2].
  intros x Hx. apply elem_of_cons in Hx as [->|Hx]; [done|by apply H2].
Qed.

End Common.

(** * The loops over blocks and uses end *)

Section Loops.
Context {E : Type} (f : IrFunction).

Lemma path_loop_ok end_ fuel stack seen :
  (length stack + rest_work f seen < fuel)%nat -> exists r, path_loop (E := E) fuel (blocks_by_id f) end_ stack seen = Ok r.
Proof.
  revert stack seen. induction fuel as [|fuel IH]; intros stack seen Hf; [lia|]. cbn [path_loop]. destruct stack as [|b st]; [eauto|].
  cbn in Hf. case_decide as Hs; [apply IH; lia|]. pose proof (rest_work_visit f seen b Hs) as Hw. unfold succs_of in Hw.
  case_match; apply IH; [lia|]. rewrite length_app, length_reverse. lia.
Qed.

Lemma blocks_on_path_ok start end_ : exists r, blocks_on_path (E := E) f start end_ = Ok r.
Proof. apply path_loop_ok. rewrite rest_work_all. cbn. lia. Qed.

(** What the uses of unvisited variables may push, at most [k] variables each. *)
Definition use_work (k : nat) (uses : Uses) (visited : gset VarId) : nat := unvisited (fun us => (length us * k)%nat) (map_to_list uses) visited.

Lemma use_work_visit k uses visited x :
  x ∉ visited -> (length (default [] (uses !! x)) * k + use_work k uses ({[x]} ∪ visited) <= use_work k uses visited)%nat.
Proof.
  intros Hx. destruct (uses !! x) as [us|] eqn:Hu; cbn [default from_option id]; [|apply unvisited_mono; set_solver].
  apply elem_of_map_to_list in Hu. exact (unvisited_visit (fun us => (length us * k)%nat) _ visited (x, us) Hu Hx).
Qed.

Lemma use_work_all k uses : use_work k uses ∅ = (total_uses uses * k)%nat.
Proof.
  unfold use_work, total_uses. rewrite unvisited_all, map_fold_foldr. induction (map_to_list uses) as [|[x us] l IH]; [done|].
  cbn [sum_list_with foldr uncurry fst snd]. rewrite IH. cbn. lia.
Qed.

Lemma phi_count x b : (length (phi_outputs f x b) <= push_bound f)%nat.
Proof.
  unfold phi_outputs, push_bound, find_block. assert (Hl : forall ps, (length (ps ≫= fun p => match p with IPhi d es => if existsb (fun e => (e.2 =? x)%Z) es then [d] else [] | _ => [] end) <= length ps)%nat).
  { induction ps as [|p ps IH]; [done|]. rewrite bind_cons, length_app. cbn [length]. destruct p; cbn [length]; try lia. destruct (existsb _ _); cbn [length]; lia. }
  induction (blocks f) as [|blk l IH]; cbn [find sum_list_with]; [cbn; lia|]. destruct (_ =? b); [pose proof (Hl (phis blk)); lia|lia].
Qed.

Lemma forwards_count x u : (length (forwards f x u) <= push_bound f)%nat.
Proof.
  pose proof (phi_count x (use_block u)). unfold forwards. destruct (use_kind u); cbn [length]; try (unfold push_bound; lia); [|done].
  case_match; cbn [length]; unfold push_bound; lia.
Qed.

Lemma bind_count {A B : Type} (g : A -> list B) k l : (forall x, (length (g x) <= k)%nat) -> (length (l ≫= g) <= length l * k)%nat.
Proof. intros Hg. induction l as [|x l IH]; [done|]. rewrite bind_cons, length_app. cbn [length]. specialize (Hg x). lia. Qed.

(** The blocks that use a value or what it is forwarded to. *)
Inductive flows_to (uses : Uses) (v : VarId) : VarId -> Prop :=
| flows_self : flows_to uses v v
| flows_use x u y : flows_to uses v x -> u ∈ default [] (uses !! x) -> y ∈ forwards f x u -> flows_to uses v y.

Record use_inv (uses : Uses) (v : VarId) (wl : list VarId) (visited : gset VarId) (ub : gset BlockId) : Prop := {
  ui_start : v ∈ visited \/ v ∈ wl;
  ui_blocks x u : x ∈ visited -> u ∈ default [] (uses !! x) -> use_block u ∈ ub;
  ui_next x u y : x ∈ visited -> u ∈ default [] (uses !! x) -> y ∈ forwards f x u -> y ∈ visited \/ y ∈ wl
}.

Lemma use_inv_skip uses v x wl visited ub : use_inv uses v (x :: wl) visited ub -> x ∈ visited -> use_inv uses v wl visited ub.
Proof.
  intros [H1 H2 H3] Hx. split; [set_solver|done|]. intros a u y Ha Hu Hy. specialize (H3 a u y Ha Hu Hy). set_solver.
Qed.

Lemma use_inv_visit uses v x wl visited ub :
  use_inv uses v (x :: wl) visited ub ->
  use_inv uses v (reverse (default [] (uses !! x) ≫= forwards f x) ++ wl) ({[x]} ∪ visited) (list_to_set (map use_block (default [] (uses !! x))) ∪ ub).
Proof.
  intros [H1 H2 H3]. split.
  - set_solver.
  - intros a u Ha Hu. apply elem_of_union. destruct (decide (a = x)) as [->|Hn]; [left; apply elem_of_list_to_set, list_elem_of_fmap; by exists u|].
    right. apply (H2 a u); [set_solver|done].
  - intros a u y Ha Hu Hy. rewrite elem_of_app, elem_of_reverse. destruct (decide (a = x)) as [->|Hn]; [right; left; apply list_elem_of_bind; by exists u|].
    specialize (H3 a u y ltac:(set_solver) Hu Hy). set_solver.
Qed.

Lemma use_loop_ok uses v fuel wl visited ub :
  use_inv uses v wl visited ub -> (length wl + use_work (push_bound f) uses visited < fuel)%nat ->
  exists ub', use_loop (E := E) fuel f uses wl visited ub = Ok ub' /\ forall x u, flows_to uses v x -> u ∈ default [] (uses !! x) -> use_block u ∈ ub'.
Proof.
  revert wl visited ub. induction fuel as [|fuel IH]; intros wl visited ub HI Hf; [lia|]. cbn [use_loop]. destruct wl as [|x wl].
  - exists ub. split; [done|]. intros x u Hx. revert u. assert (Hv : x ∈ visited); [|intros u; by apply (ui_blocks _ _ _ _ _ HI)].
    induction Hx as [|x u y Hx IHx Hu Hy]; [destruct (ui_start _ _ _ _ _ HI) as [H|H%elem_of_nil]; done|].
    destruct (ui_next _ _ _ _ _ HI x u y IHx Hu Hy) as [H|H%elem_of_nil]; done.
  - cbn in Hf. case_decide as Hx; [apply IH; [by eapply use_inv_skip|lia]|]. apply IH; [by apply use_inv_visit|].
    rewrite length_app, length_reverse. pose proof (use_work_visit (push_bound f) uses visited x Hx). pose proof (bind_count (forwards f x) (push_bound f) (default [] (uses !! x)) (forwards_count x)). lia.
Qed.

Lemma collect_use_blocks_ok v uses :
  exists ub, collect_use_blocks (E := E) v uses f = Ok ub /\ forall x u, flows_to uses v x -> u ∈ default [] (uses !! x) -> use_block u ∈ ub.
Proof.
  apply use_loop_ok; [split; set_solver|]. rewrite use_work_all. cbn [length]. lia.
Qed.

End Loops.

(** * Loop-free functions *)

(** Edges go up in some order of the blocks. *)
Definition loop_free (f : IrFunction) : Prop := exists rank : BlockId -> nat, forall b s, reach f 0 b -> succ f b s -> (rank b < rank s)%nat.

Section LoopFree.
Context (f : IrFunction) (Hwf : well_formed f 0) (rank : BlockId -> nat) (Hrank : forall b s, reach f 0 b -> succ f b s -> (rank b < rank s)%nat).

Lemma path_rank q u x : path f 0 (u :: q) u -> x ∈ q -> (rank x < rank u)%nat.
Proof.
  assert (Hg : forall p b, path f 0 p b -> exists q, p = b :: q /\ forall x, x ∈ q -> (rank x < rank b)%nat).
  { induction 1 as [|p b s Hp IH Hs]; [exists []; split; [done|set_solver]|]. destruct IH as (q' & -> & Hq). eexists. split; [done|].
    pose proof (Hrank b s ltac:(by eexists) Hs) as Hr. intros y Hy. apply elem_of_cons in Hy as [->|Hy]; [done|]. specialize (Hq y Hy). lia. }
  intros Hp Hx. destruct (Hg _ _ Hp) as (q' & Hq & Hlt). injection Hq as <-. by apply Hlt.
Qed.

Lemma leaves_rank l u x : reach f 0 u -> leaves f l u -> x ∈ l -> (rank u <= rank x)%nat.
Proof.
  intros Hu Hl. revert Hu. induction Hl as [u t Ht He|u s l Hs Hl IH]; intros Hu Hx; [by apply list_elem_of_singleton in Hx as ->|].
  apply elem_of_cons in Hx as [->|Hx]; [done|]. pose proof (Hrank u s Hu Hs). specialize (IH (reach_step f 0 u s Hu Hs) Hx). lia.
Qed.

Lemma succ_or_exit u : u ∈ ids f -> (exists t, terminates f u t /\ is_exit t = true) \/ exists s, succ f u s.
Proof.
  intros Hu. apply list_elem_of_fmap in Hu as (blk & -> & Hin). assert (Ht : terminates f (block_id blk) (terminator blk)) by (by exists blk).
  destruct (terminator blk) as [t|c a b|v|t args|] eqn:E.
  - right. exists t. exists (Jump t). split; [done|]. cbn. set_solver.
  - right. exists a. exists (Branch c a b). split; [done|]. cbn. set_solver.
  - left. by eexists.
  - right. exists t. exists (RecurJump t args). split; [done|]. cbn. set_solver.
  - left. by eexists.
Qed.

(** Every block that is reached leads to an exit. *)
Lemma leaves_exists u : reach f 0 u -> u ∈ ids f -> exists l, leaves f l u.
Proof.
  assert (Hb : exists n, forall b, b ∈ ids f -> (rank b <= n)%nat).
  { induction (ids f) as [|b l [n IH]]; [exists O; set_solver|]. exists (rank b + n)%nat. intros x Hx. apply elem_of_cons in Hx as [->|Hx]; [lia|]. specialize (IH x Hx). lia. }
  destruct Hb as [n Hn]. remember (n - rank u)%nat as k eqn:Hk. revert u Hk. induction (lt_wf k) as [k _ IH]; intros u -> Hr Hu.
  destruct (succ_or_exit u Hu) as [(t & Ht & He)|[s Hs]]; [exists [u]; by econstructor|].
  assert (Hsi : s ∈ ids f) by (by eapply wf_targets). pose proof (Hrank u s Hr Hs). pose proof (Hn u Hu). pose proof (Hn s Hsi).
  destruct (IH (n - rank s)%nat ltac:(lia) s eq_refl) as [l Hl]; [by eapply reach_step|done|]. exists (u :: l). by econstructor.
Qed.

(** A block that post-dominates the end of a path is not met before it. *)
Lemma post_dominator_ahead q u e : path f 0 (u :: q) u -> u ∈ ids f -> post_dominates f e u -> e ∉ q.
Proof.
  intros Hp Hu He Hq. assert (Hr : reach f 0 u) by (by eexists). destruct (leaves_exists u Hr Hu) as [l Hl].
  pose proof (leaves_rank l u e Hr Hl (He l Hl)). pose proof (path_rank q u e Hp Hq). lia.
Qed.

End LoopFree.

(** * Open regions *)

Definition region_step (r : VarId) (open : bool) (i : Inst) : bool :=
  match i with
  | IRegionStart r' => if r' =? r then true else open
  | IRegionEnd r' => if r' =? r then false else open
  | _ => open
  end.

(** Whether a region is open after the instructions of a run. *)
Definition region_open (r : VarId) (run : list Inst) : bool := fold_left (region_step r) run false.

(** The instructions of a path, which is held in reverse. *)
Definition trace (f : IrFunction) (q : list BlockId) : list Inst := reverse q ≫= fun b => from_option insts [] (find_block f b).

Lemma region_open_app r l l' : region_open r (l ++ l') = fold_left (region_step r) l' (region_open r l).
Proof. unfold region_open. by rewrite fold_left_app. Qed.

Lemma region_stays r l o : IRegionEnd r ∉ l -> o = true -> fold_left (region_step r) l o = true.
Proof.
  revert o. induction l as [|i l IH]; intros o Hl ->; [done|]. cbn [fold_left]. apply IH; [set_solver|]. destruct i; try done; cbn.
  - by case_match.
  - case_match eqn:E; [|done]. apply Z.eqb_eq in E as ->. set_solver.
Qed.

Lemma region_opened r l o : IRegionStart r ∈ l -> IRegionEnd r ∉ l -> fold_left (region_step r) l o = true.
Proof.
  revert o. induction l as [|i l IH]; intros o Hs He; [by apply elem_of_nil in Hs|]. cbn [fold_left]. apply elem_of_cons in Hs as [<-|Hs].
  - apply region_stays; [set_solver|]. cbn. by rewrite Z.eqb_refl.
  - apply IH; [done|set_solver].
Qed.

(** * One region *)

(** A block with the region of an allocation. *)
Definition emit_block (start end_ : BlockId) (v r : VarId) (ab : BlockId) (b : Block) : Block :=
  let head := if block_id b =? start then [IRegionStart r] else [] in
  let body := if block_id b =? ab then map (promote_inst v r) (insts b) else insts b in
  let tail := if block_id b =? end_ then [IRegionEnd r] else [] in
  set_insts b (head ++ body ++ tail).

Lemma on_first_block_map id g bs :
  NoDup (map block_id bs) -> on_first_block id g bs = map (fun b => if block_id b =? id then set_insts b (g (insts b)) else b) bs.
Proof.
  induction bs as [|b bs IH]; intros Hnd; [done|]. apply NoDup_cons in Hnd as [Hb Hnd]. cbn [on_first_block map]. case_match eqn:E; [|by rewrite IH].
  f_equal. clear IH. apply Z.eqb_eq in E. subst id. induction bs as [|c bs IH]; [done|]. cbn [map]. apply NoDup_cons in Hnd as [_ Hnd].
  rewrite (proj2 (Z.eqb_neq (block_id c) (block_id b))) by set_solver. by rewrite <- IH by set_solver.
Qed.

Lemma emit_blocks start end_ v r ab bs :
  NoDup (map block_id bs) ->
  on_first_block end_ (fun is_ => is_ ++ [IRegionEnd r]) (on_first_block start (fun is_ => IRegionStart r :: is_) (promote_blocks v r ab bs)) =
    map (emit_block start end_ v r ab) bs.
Proof.
  intros Hnd.
  assert (H1 : map block_id (promote_blocks v r ab bs) = map block_id bs) by (unfold promote_blocks; rewrite map_map; apply map_ext; intros b; by case_match).
  rewrite (on_first_block_map start) by (by rewrite H1). rewrite on_first_block_map.
  - unfold promote_blocks. rewrite !map_map. apply map_ext. intros b. unfold emit_block. destruct b as [id ps is_ t]. cbn [block_id].
    destruct (id =? ab) eqn:E1, (id =? start) eqn:E2, (id =? end_) eqn:E3; cbn; rewrite ?E2; cbn; rewrite ?E3; cbn; by rewrite ?app_nil_r.
  - rewrite map_map, <- H1 in *. erewrite map_ext; [exact Hnd|]. intros b. by case_match.
Qed.

Definition promote_at (ab : BlockId) (v r : VarId) (b : BlockId) (i : Inst) : Inst := if b =? ab then promote_inst v r i else i.

Definition region_of (i : Inst) : option VarId :=
  match i with IRegionStart r | IRegionEnd r | IRegionAlloc _ r _ _ => Some r | _ => None end.

Lemma middle_split {A : Type} (hd mid tl pre post : list A) x :
  hd ++ mid ++ tl = pre ++ x :: post -> x ∉ hd -> x ∉ tl -> exists p q, mid = p ++ x :: q /\ pre = hd ++ p.
Proof.
  revert pre. induction hd as [|y hd IH]; intros pre Heq Hh Ht; cbn in Heq.
  - revert pre Heq. induction mid as [|y mid IH]; intros pre Heq; cbn in Heq; [exfalso; apply Ht; rewrite Heq; apply elem_of_app; right; apply elem_of_cons; by left|].
    destruct pre as [|z pre]; cbn in Heq; [injection Heq as -> _; by exists [], mid|]. injection Heq as -> Heq. destruct (IH pre Heq) as (p & q & -> & ->). by exists (z :: p), q.
  - destruct pre as [|z pre]; cbn in Heq; [injection Heq as -> _; exfalso; apply Hh; apply elem_of_cons; by left|]. injection Heq as -> Heq.
    destruct (IH pre Heq) as (p & q & -> & ->); [set_solver|done|]. by exists p, q.
Qed.

Lemma emit_insts start end_ v r ab b :
  insts (emit_block start end_ v r ab b) =
    (if block_id b =? start then [IRegionStart r] else []) ++ map (promote_at ab v r (block_id b)) (insts b) ++ (if block_id b =? end_ then [IRegionEnd r] else []).
Proof. unfold emit_block, promote_at. cbn [insts set_insts]. destruct (block_id b =? ab); [done|]. by rewrite map_id. Qed.

(** The instruction of the old block at a place of the new one. *)
Lemma emit_place start end_ v r ab b pre' i' post' :
  insts (emit_block start end_ v r ab b) = pre' ++ i' :: post' -> i' <> IRegionStart r -> i' <> IRegionEnd r ->
  exists pre i post, insts b = pre ++ i :: post /\ i' = promote_at ab v r (block_id b) i /\
    pre' = (if block_id b =? start then [IRegionStart r] else []) ++ map (promote_at ab v r (block_id b)) pre.
Proof.
  rewrite emit_insts. intros Hi Hs He. apply middle_split in Hi as (p & q & Hm & ->).
  - apply map_eq_app in Hm as (pre & l & Hl & <- & Hr). apply map_eq_cons in Hr as (i & post & -> & <- & _). by exists pre, i, post.
  - destruct (block_id b =? start); [by intros ->%list_elem_of_singleton|apply not_elem_of_nil].
  - destruct (block_id b =? end_); [by intros ->%list_elem_of_singleton|apply not_elem_of_nil].
Qed.

Lemma promote_step r2 v2 r ab b o i : r <> r2 -> region_step r o (promote_at ab v2 r2 b i) = region_step r o i.
Proof. intros Hr. unfold promote_at, promote_inst. case_match; [|done]. case_decide; [|done]. by destruct i. Qed.

Lemma promote_steps r2 v2 r ab b l o : r <> r2 -> fold_left (region_step r) (map (promote_at ab v2 r2 b) l) o = fold_left (region_step r) l o.
Proof. intros Hr. revert o. induction l as [|i l IH]; intros o; [done|]. cbn [map fold_left]. by rewrite promote_step, IH. Qed.

Lemma other_start r r2 c o : r <> r2 -> fold_left (region_step r) (if c : bool then [IRegionStart r2] else []) o = o.
Proof. intros Hr. destruct c; [|done]. cbn. by rewrite (proj2 (Z.eqb_neq r2 r)). Qed.

Lemma other_end r r2 c o : r <> r2 -> fold_left (region_step r) (if c : bool then [IRegionEnd r2] else []) o = o.
Proof. intros Hr. destruct c; [|done]. cbn. by rewrite (proj2 (Z.eqb_neq r2 r)). Qed.

Lemma promote_uses ab v r b i x : x ∈ uses (promote_at ab v r b i) -> x = r \/ x ∈ uses i.
Proof.
  unfold promote_at, promote_inst. case_match; [|by right]. case_decide; [|by right]. destruct i; cbn; try (by right); intros Hx; apply elem_of_cons in Hx as [->|Hx]; [by left|by right|by left|by right|by left|by right|by left|by right|by left|by right].
Qed.

Lemma promote_region ab v r b i : region_of (promote_at ab v r b i) = Some r \/ region_of (promote_at ab v r b i) = region_of i.
Proof. unfold promote_at, promote_inst. case_match; [|by right]. case_decide; [|by right]. destruct i; cbn; by auto. Qed.

Lemma promote_alloc ab v r b i : (exists k ops, promote_at ab v r b i = IRegionAlloc v r k ops) -> region_of i <> Some r -> b = ab.
Proof.
  unfold promote_at. intros (k & ops & Hi). case_match eqn:E; [by apply Z.eqb_eq in E|]. subst i. done.
Qed.

Lemma promote_other ab v2 r2 b i v r k ops : promote_at ab v2 r2 b i = IRegionAlloc v r k ops -> r <> r2 -> i = IRegionAlloc v r k ops.
Proof. unfold promote_at, promote_inst. case_match; [|done]. case_decide; [|done]. destruct i; cbn; intros Hi Hr; congruence. Qed.

(** * All regions *)

(** Blocks with the same ids, phis and terminators. *)
Definition shape (b : Block) : BlockId * list Inst * Terminator := (block_id b, phis b, terminator b).
Definition same_graph (f g : IrFunction) : Prop := map shape (blocks f) = map shape (blocks g).

Lemma same_graph_ids f g : same_graph f g -> ids f = ids g.
Proof. intros Hs. unfold ids. apply (f_equal (map (fun s => s.1.1))) in Hs. by rewrite !map_map in Hs. Qed.

Lemma same_graph_block f g b : same_graph f g -> b ∈ blocks g -> exists b0, b0 ∈ blocks f /\ shape b0 = shape b.
Proof. intros Hs Hb. assert (Hi : shape b ∈ map shape (blocks f)) by (rewrite Hs; by apply list_elem_of_fmap_2). apply list_elem_of_fmap in Hi as (b0 & H1 & H2). eauto. Qed.

Lemma same_graph_sym f g : same_graph f g -> same_graph g f.
Proof. done. Qed.

Lemma same_graph_succ f g b s : same_graph f g -> succ f b s -> succ g b s.
Proof.
  intros Hs (t & (blk & Hin & <- & <-) & Ht). destruct (same_graph_block g f blk (same_graph_sym _ _ Hs) Hin) as (b0 & H1 & H2). injection H2 as H2 _ H3.
  exists (terminator b0). split; [by exists b0|]. by rewrite H3.
Qed.

Lemma same_graph_path f g p b : same_graph f g -> path f 0 p b -> path g 0 p b.
Proof. intros Hs. induction 1 as [|p b s Hp IH Hb]; [constructor|]. econstructor; [done|]. by eapply same_graph_succ. Qed.

Lemma same_graph_phis f g x b : same_graph f g -> phi_outputs f x b = phi_outputs g x b.
Proof.
  unfold same_graph, phi_outputs, find_block. revert g. induction (blocks f) as [|c l IH]; intros g Hs; destruct (blocks g) as [|c' l'] eqn:E; try done.
  cbn [map] in Hs. injection Hs as H1 H2 H3 H4. cbn [find]. rewrite H1. destruct (_ =? b); [by rewrite H2|]. specialize (IH (with_blocks l' g)). cbn in IH. by apply IH.
Qed.

Lemma same_graph_forwards f g x u : same_graph f g -> forwards f x u = forwards g x u.
Proof. intros Hs. unfold forwards. by rewrite (same_graph_phis f g). Qed.

Lemma same_graph_flows f g U v x : same_graph f g -> flows_to f U v x -> flows_to g U v x.
Proof. intros Hs. induction 1 as [|x u y Hx IH Hu Hy]; [constructor|]. econstructor; [done|done|]. by rewrite <- (same_graph_forwards f g). Qed.

Lemma same_graph_wf f g : same_graph f g -> well_formed f 0 -> well_formed g 0.
Proof.
  intros Hs [H1 (b0 & rest & H2 & H3) H4]. pose proof (same_graph_ids f g Hs) as Hids. split.
  - by rewrite <- Hids.
  - unfold same_graph in Hs. rewrite H2 in Hs. destruct (blocks g) as [|c l]; [done|]. exists c, l. split; [done|]. injection Hs as Hs _. by rewrite <- Hs.
  - intros b s Hb. rewrite <- Hids. apply (H4 b). by eapply same_graph_succ.
Qed.

Lemma with_blocks_emit_graph start end_ v r ab g : same_graph g (with_blocks (map (emit_block start end_ v r ab) (blocks g)) g).
Proof. unfold same_graph. cbn. rewrite map_map. by apply map_ext. Qed.

Lemma find_block_emit start end_ v r ab g b :
  find_block (with_blocks (map (emit_block start end_ v r ab) (blocks g)) g) b = emit_block start end_ v r ab <$> find_block g b.
Proof. unfold find_block. cbn. induction (blocks g) as [|c l IH]; [done|]. cbn [map find]. cbn [block_id emit_block set_insts]. by destruct (block_id c =? b). Qed.

(** What emitting a region does. *)
Lemma emit_cases {E : Type} {HO : HashOrder} g v ab ub D P n g' n' :
  NoDup (ids g) -> emit_region_for_alloc (E := E) g v ab ub D P n = Ok (g', n') ->
  (g' = g /\ n' = n) \/
  exists start end_, lca_of_many D (order ({[ab]} ∪ ub)) = Some start /\ lca_of_many P (order ({[ab]} ∪ ub)) = Some end_ /\
    g' = with_blocks (map (emit_block start end_ v n ab) (blocks g)) g /\ n' = n + 1.
Proof.
  intros Hnd. unfold emit_region_for_alloc, region_span. destruct (lca_of_many D _) as [start|]; [|intros H; injection H as <- <-; by left].
  destruct (lca_of_many P _) as [end_|]; [|intros H; injection H as <- <-; by left].
  destruct (in_doms D ab start); [|intros H; injection H as <- <-; by left]. destruct (blocks_on_path g start end_) as [region| | |]; try done. cbn [mbind outcome_bind].
  destruct (has_back_edge _ _ _); [intros H; injection H as <- <-; by left|]. destruct (region_contains_throw _ _); cbn [mbind outcome_bind]; [intros H; injection H as <- <-; by left|].
  destruct (existsb _ _); [|intros H; injection H as <- <-; by left]. rewrite emit_blocks by done. intros H. injection H as <- <-. right. by exists start, end_.
Qed.

(** Emitting a region always ends. *)
Lemma emit_region_total {E : Type} {HO : HashOrder} g v ab ub D P n :
  exists r, emit_region_for_alloc (E := E) g v ab ub D P n = Ok r.
Proof.
  unfold emit_region_for_alloc, region_span. destruct (lca_of_many D _) as [start|]; [|eexists; done].
  destruct (lca_of_many P _) as [end_|]; [|eexists; done]. destruct (in_doms D ab start); [|eexists; done].
  destruct (blocks_on_path_ok (E := E) g start end_) as [r ->]. cbn [mbind outcome_bind].
  destruct (has_back_edge _ _ _); [eexists; done|]. destruct (region_contains_throw _ _); [eexists; done|]. cbn [mbind outcome_bind]. destruct (existsb _ _); eexists; done.
Qed.

(** * Use chains *)

Definition block_uses (b : Block) : list (VarId * UseKind) := (block_insts b ≫= inst_uses) ++ Escape.term_uses (terminator b).

Lemma add_use_in b u p x y : y ∈ default [] (add_use b u p !! x) <-> y ∈ default [] (u !! x) \/ (x = p.1 /\ y = mkUse b p.2).
Proof.
  unfold add_use. rewrite lookup_insert. case_decide as Hx; [subst x|].
  - cbn. rewrite elem_of_app, list_elem_of_singleton. naive_solver.
  - naive_solver.
Qed.

Lemma add_uses_in b l u x y : y ∈ default [] (fold_left (add_use b) l u !! x) <-> y ∈ default [] (u !! x) \/ exists k, (x, k) ∈ l /\ y = mkUse b k.
Proof.
  revert u. induction l as [|[z k] l IH]; intros u; cbn [fold_left]; [set_solver|]. rewrite IH, add_use_in. cbn. setoid_rewrite elem_of_cons. naive_solver.
Qed.

Lemma insts_uses_fold b l u : fold_left (add_uses_for_inst b) l u = fold_left (add_use b) (l ≫= inst_uses) u.
Proof. revert u. induction l as [|i l IH]; intros u; [done|]. rewrite bind_cons, fold_left_app. cbn [fold_left]. apply IH. Qed.

Lemma block_uses_fold u b : block_use_chains u b = fold_left (add_use (block_id b)) (block_uses b) u.
Proof.
  unfold block_use_chains, block_uses, block_insts, add_uses_for_terminator. by rewrite !insts_uses_fold, bind_app, !fold_left_app.
Qed.

Lemma use_chains_spec f x y :
  y ∈ default [] (build_use_chains f !! x) <-> exists b k, b ∈ blocks f /\ (x, k) ∈ block_uses b /\ y = mkUse (block_id b) k.
Proof.
  unfold build_use_chains. transitivity (y ∈ default [] ((∅ : Uses) !! x) \/ exists b k, b ∈ blocks f /\ (x, k) ∈ block_uses b /\ y = mkUse (block_id b) k).
  - generalize (∅ : Uses). induction (blocks f) as [|b l IH]; intros u; cbn [fold_left]; [set_solver|].
    rewrite IH, block_uses_fold, add_uses_in. setoid_rewrite elem_of_cons. naive_solver.
  - rewrite lookup_empty. cbn. set_solver.
Qed.

Lemma known_call_dst (i : Inst) x func k d : (x, UKnownCallArg func k d) ∈ inst_uses i -> dst i = Some d.
Proof.
  destruct i; cbn [inst_uses]; intros Hin; try (by apply elem_of_nil in Hin); try (apply list_elem_of_fmap in Hin as (? & ? & _); congruence).
  all: try (repeat (apply elem_of_cons in Hin as [Hin|Hin]; [congruence|])); try (by apply elem_of_nil in Hin); try (apply list_elem_of_fmap in Hin as (? & ? & _); congruence).
  - apply list_elem_of_bind in Hin as (p & Hp & _). repeat (apply elem_of_cons in Hp as [Hp|Hp]; [congruence|]). by apply elem_of_nil in Hp.
  - apply elem_of_lookup_imap in Hin as (n & a & Heq & _). injection Heq as -> -> -> ->. done.
  - apply elem_of_lookup_imap in Hin as (n & a & Heq & _). done.
Qed.

Lemma phi_outputs_dst f x b y : y ∈ phi_outputs f x b -> exists blk i, blk ∈ blocks f /\ i ∈ phis blk /\ dst i = Some y.
Proof.
  unfold phi_outputs, find_block. destruct (find _ _) as [blk|] eqn:Hf; [|intros H%elem_of_nil; done]. apply find_some in Hf as [Hin _]. apply list_elem_of_In in Hin.
  intros Hy. apply list_elem_of_bind in Hy as (i & Hy & Hi). exists blk, i. split_and!; [done|done|]. destruct i; try (by apply elem_of_nil in Hy).
  case_match; [by apply list_elem_of_singleton in Hy as ->|by apply elem_of_nil in Hy].
Qed.

(** The instructions whose reads the analysis records. *)
Definition recorded (i : Inst) : bool := bool_decide (uses i = map fst (inst_uses i)).

Lemma recorded_use x i : recorded i = true -> x ∈ uses i -> exists k, (x, k) ∈ inst_uses i.
Proof. intros Hr%bool_decide_eq_true Hx. rewrite Hr in Hx. apply list_elem_of_fmap in Hx as ([y k] & -> & Hin). by exists k. Qed.

Lemma imap_const_fst {A : Type} (g : nat -> VarId -> A) l : map fst (imap (fun k a => (a, g k a)) l) = l.
Proof. revert g. induction l as [|x l IH]; intros g; [done|]. cbn. f_equal. apply (IH (fun k a => g (S k) a)). Qed.

Section Regions.
Context {HO : HashOrder} (f : IrFunction).
Context (Hwf : well_formed f 0) (Hssa : ssa f) (Hrec : forall b i, b ∈ blocks f -> i ∈ insts b -> recorded i = true).
Context (rank : BlockId -> nat) (Hrank : forall b s, reach f 0 b -> succ f b s -> (rank b < rank s)%nat).
Context (D P : Doms) (HD : forall b d, d ∈ dom_at D b -> dominates f 0 d b) (HP : forall b d, d ∈ dom_at P b -> post_dominates f d b).

Abbreviation U := (build_use_chains f).

(** An instruction that makes an allocation in its region, or reads a value that
    comes from it. *)
Definition tracked (v r : VarId) (i : Inst) : Prop :=
  (exists k ops, i = IRegionAlloc v r k ops) \/ exists x, flows_to f U v x /\ x ∈ uses i.

Definition covers (g : IrFunction) (v r : VarId) : Prop :=
  forall q b pre i post, path g 0 (block_id b :: q) (block_id b) -> b ∈ blocks g -> insts b = pre ++ i :: post -> tracked v r i ->
    region_open r (trace g q ++ pre) = true.

(** A function to which regions have been added. *)
Record stage (g : IrFunction) (n : Z) : Prop := {
  sg_graph : same_graph f g;
  sg_reads b i x : b ∈ blocks g -> i ∈ insts b -> x ∈ uses i -> x < next_var f ->
    exists b0 i0, b0 ∈ blocks f /\ block_id b0 = block_id b /\ i0 ∈ insts b0 /\ x ∈ uses i0;
  sg_fresh b i r : b ∈ blocks g -> i ∈ insts b -> region_of i = Some r -> r < n;
  sg_next : next_var f <= n
}.

Lemma stage_emit g n start end_ v ab :
  stage g n -> stage (with_blocks (map (emit_block start end_ v n ab) (blocks g)) g) (n + 1).
Proof.
  intros Hs.
  assert (Hi : forall b' i', b' ∈ map (emit_block start end_ v n ab) (blocks g) -> i' ∈ insts b' ->
    i' = IRegionStart n \/ i' = IRegionEnd n \/ exists b i, b ∈ blocks g /\ block_id b = block_id b' /\ i ∈ insts b /\ i' = promote_at ab v n (block_id b) i).
  { intros b' i' Hb Hin. apply list_elem_of_fmap in Hb as (b & -> & Hb). rewrite emit_insts in Hin. rewrite !elem_of_app in Hin. destruct Hin as [Hin|[Hin|Hin]].
    - left. by case_match; [apply list_elem_of_singleton in Hin|apply elem_of_nil in Hin].
    - right; right. apply list_elem_of_fmap in Hin as (i & -> & Hin). by exists b, i.
    - right; left. by case_match; [apply list_elem_of_singleton in Hin|apply elem_of_nil in Hin]. }
  split.
  - transitivity (map shape (blocks g)); [apply Hs|apply with_blocks_emit_graph].
  - intros b' i' x Hb Hin Hx Hlt. pose proof (sg_next _ _ Hs). destruct (Hi b' i' Hb Hin) as [->|[->|(b & i & H1 & H2 & H3 & ->)]]; [by apply elem_of_nil in Hx|apply list_elem_of_singleton in Hx; lia|].
    apply promote_uses in Hx as [->|Hx]; [lia|]. rewrite <- H2. by eapply (sg_reads _ _ Hs).
  - intros b' i' r Hb Hin Hr. destruct (Hi b' i' Hb Hin) as [->|[->|(b & i & H1 & H2 & H3 & ->)]]; [injection Hr as <-; lia|injection Hr as <-; lia|].
    destruct (promote_region ab v n (block_id b) i) as [E|E]; rewrite E in Hr; [injection Hr as <-; lia|]. pose proof (sg_fresh _ _ Hs b i r H1 H3 Hr). lia.
  - pose proof (sg_next _ _ Hs). lia.
Qed.

Lemma def_below b i d : b ∈ blocks f -> i ∈ block_insts b -> dst i = Some d -> d < next_var f.
Proof using Hssa.
  clear -Hssa.
  intros Hb Hi Hd. destruct Hssa as (_ & _ & _ & Hv & _). rewrite Forall_forall in Hv. apply Hv. by eapply elem_of_fn_vars_def.
Qed.

Lemma flows_below v x : v < next_var f -> flows_to f U v x -> x < next_var f.
Proof.
  intros Hv. induction 1 as [|x u y Hx IH Hu Hy]; [done|]. apply use_chains_spec in Hu as (b & k & Hb & Hk & ->). unfold forwards in Hy. cbn [use_kind use_block] in Hy.
  destruct k as [| | | | | | |func idx d| | | | |]; try (by apply elem_of_nil in Hy).
  - destruct (known_fn_arg_escapes func idx); [|by apply elem_of_nil in Hy]. apply list_elem_of_singleton in Hy as ->.
    unfold block_uses in Hk. apply elem_of_app in Hk as [Hk|Hk].
    + apply list_elem_of_bind in Hk as (i & Hk & Hi). apply known_call_dst in Hk. by eapply def_below.
    + exfalso. destruct (terminator b); cbn in Hk; set_solver.
  - apply phi_outputs_dst in Hy as (blk & i & H1 & H2 & H3). eapply def_below; [done| |done]. unfold block_insts. set_solver.
Qed.

Lemma stage_flow_block g n v x b i :
  stage g n -> v < next_var f -> flows_to f U v x -> b ∈ blocks g -> i ∈ insts b -> x ∈ uses i ->
  exists u, u ∈ default [] (U !! x) /\ use_block u = block_id b.
Proof.
  intros Hs Hv Hx Hb Hi Hu. destruct (sg_reads _ _ Hs b i x Hb Hi Hu (flows_below v x Hv Hx)) as (b0 & i0 & H1 & H2 & H3 & H4).
  pose proof (Hrec b0 i0 H1 H3) as Hr. apply bool_decide_eq_true in Hr. rewrite Hr in H4. apply list_elem_of_fmap in H4 as ([x' k] & -> & H4). cbn [fst].
  exists (mkUse (block_id b0) k). split; [|done]. apply use_chains_spec. exists b0, k. split_and!; [done| |done]. unfold block_uses, block_insts.
  apply elem_of_app. left. apply list_elem_of_bind. exists i0. split; [done|]. set_solver.
Qed.

Lemma tracked_not_mark v r i n : v < next_var f -> next_var f <= n -> tracked v r i -> i <> IRegionStart n /\ i <> IRegionEnd n.
Proof.
  intros Hv Hn [(k & ops & ->)|(x & Hx & Hi)]; [done|]. pose proof (flows_below v x Hv Hx). split; intros ->; [by apply elem_of_nil in Hi|].
  apply list_elem_of_singleton in Hi. lia.
Qed.

Lemma trace_emit start end_ v2 n ab g r q o :
  r <> n -> fold_left (region_step r) (trace (with_blocks (map (emit_block start end_ v2 n ab) (blocks g)) g) q) o = fold_left (region_step r) (trace g q) o.
Proof.
  intros Hr. unfold trace. revert o. induction (reverse q) as [|b l IH]; intros o; [done|]. rewrite !bind_cons, !fold_left_app, find_block_emit.
  destruct (find_block g b) as [blk|]; cbn [from_option fmap option_fmap option_map]; [|apply IH].
  rewrite emit_insts, !fold_left_app, other_start, promote_steps, other_end by done. apply IH.
Qed.

(** A region is still open where it was when another one is added. *)
Lemma emit_keeps start end_ v2 n ab g v r :
  stage g n -> v < next_var f -> r < n -> covers g v r -> covers (with_blocks (map (emit_block start end_ v2 n ab) (blocks g)) g) v r.
Proof.
  intros Hs Hv Hr Hc q b' pre' i' post' Hp Hb Hi Ht. cbn in Hb. apply list_elem_of_fmap in Hb as (b & -> & Hb).
  destruct (tracked_not_mark v r i' n Hv (sg_next _ _ Hs) Ht) as [N1 N2]. apply emit_place in Hi as (pre & i & post & Hi & -> & ->); [|done|done].
  assert (Ht' : tracked v r i).
  { destruct Ht as [(k & ops & Ht)|(x & Hx & Hu)]; [left; exists k, ops; by apply (promote_other _ _ _ _ _ _ _ _ _ Ht); lia|]. right. exists x. split; [done|].
    apply promote_uses in Hu as [->|Hu]; [|done]. pose proof (flows_below v n Hv Hx). pose proof (sg_next _ _ Hs). lia. }
  assert (Hpg : path g 0 (block_id b :: q) (block_id b)) by (eapply same_graph_path; [apply same_graph_sym, with_blocks_emit_graph|exact Hp]).
  specialize (Hc q b pre i post Hpg Hb Hi Ht'). rewrite region_open_app in Hc |- *. unfold region_open in *. rewrite trace_emit by lia.
  rewrite fold_left_app, other_start, promote_steps by lia. done.
Qed.

Lemma trace_in g q i : i ∈ trace g q -> exists b, b ∈ blocks g /\ block_id b ∈ q /\ i ∈ insts b.
Proof.
  unfold trace. intros Hi. apply list_elem_of_bind in Hi as (b & Hi & Hb). rewrite elem_of_reverse in Hb. unfold find_block in Hi.
  destruct (find _ _) as [blk|] eqn:Hf; [|by apply elem_of_nil in Hi]. apply find_some in Hf as [Hin Heq]. apply Z.eqb_eq in Heq as <-. exists blk. by rewrite list_elem_of_In.
Qed.

Lemma trace_has g q b i : NoDup (ids g) -> b ∈ blocks g -> block_id b ∈ q -> i ∈ insts b -> i ∈ trace g q.
Proof.
  intros Hnd Hb Hq Hi. unfold trace. apply list_elem_of_bind. exists (block_id b). rewrite elem_of_reverse. split; [|done]. unfold find_block.
  destruct (find _ _) as [blk|] eqn:Hf.
  - apply find_some in Hf as [Hin Heq]. apply Z.eqb_eq in Heq. rewrite <- list_elem_of_In in Hin. by rewrite (block_unique g blk b Hnd Hin Hb Heq).
  - apply list_elem_of_In, (find_none _ _ Hf) in Hb. by rewrite Z.eqb_refl in Hb.
Qed.

Lemma path_ids p u x : path f 0 p u -> x ∈ p -> x ∈ ids f.
Proof.
  induction 1 as [|p b s Hp IH Hs]; intros Hx; [apply list_elem_of_singleton in Hx as ->; by apply entry_in_ids|].
  apply elem_of_cons in Hx as [->|Hx]; [by eapply wf_targets|by apply IH].
Qed.

Lemma fresh_end g n v ab b i : stage g n -> b ∈ blocks g -> i ∈ insts b -> promote_at ab v n (block_id b) i <> IRegionEnd n.
Proof.
  intros Hs Hb Hi He. assert (Hn : i = IRegionEnd n).
  { unfold promote_at, promote_inst in He. repeat case_match; done. }
  subst i. pose proof (sg_fresh _ _ Hs b _ n Hb Hi eq_refl). lia.
Qed.

Lemma emit_ends start end_ v n ab g q b pre :
  stage g n -> b ∈ blocks g -> pre ⊆ insts b -> end_ ∉ q ->
  IRegionEnd n ∉ trace (with_blocks (map (emit_block start end_ v n ab) (blocks g)) g) q ++
    (if block_id b =? start then [IRegionStart n] else []) ++ map (promote_at ab v n (block_id b)) pre.
Proof.
  intros Hs Hb Hpre He Hin. apply elem_of_app in Hin as [Hin|Hin]; [|apply elem_of_app in Hin as [Hin|Hin]].
  - apply trace_in in Hin as (b' & Hb' & Hq & Hin). apply list_elem_of_fmap in Hb' as (b2 & -> & Hb2). rewrite emit_insts in Hin. cbn [block_id emit_block set_insts] in Hq.
    apply elem_of_app in Hin as [Hin|Hin]; [case_match; set_solver|]. apply elem_of_app in Hin as [Hin|Hin].
    + apply list_elem_of_fmap in Hin as (i & Hi & Hin). by eapply (fresh_end g n v ab b2 i).
    + case_match eqn:Hx; [|by apply elem_of_nil in Hin]. apply Z.eqb_eq in Hx. by subst end_.
  - case_match; set_solver.
  - apply list_elem_of_fmap in Hin as (i & Hi & Hin). by eapply (fresh_end g n v ab b i); [done|done|apply Hpre|].
Qed.

Lemma tracked_relevant g n v ab (ub : gset BlockId) b i :
  stage g n -> v < next_var f -> (forall x u, flows_to f U v x -> u ∈ default [] (U !! x) -> use_block u ∈ ub) ->
  b ∈ blocks g -> i ∈ insts b -> tracked v n (promote_at ab v n (block_id b) i) -> block_id b ∈ ({[ab]} ∪ ub : gset BlockId).
Proof.
  intros Hs Hv Hub Hb Hi [Ht|(x & Hx & Hu)].
  - apply promote_alloc in Ht; [set_solver|]. intros Hr. pose proof (sg_fresh _ _ Hs b i n Hb Hi Hr). lia.
  - apply promote_uses in Hu as [->|Hu]; [pose proof (flows_below v n Hv Hx); pose proof (sg_next _ _ Hs); lia|].
    destruct (stage_flow_block g n v x b i Hs Hv Hx Hb Hi Hu) as (u & U1 & <-). apply elem_of_union. right. by eapply Hub.
Qed.

(** The region of an allocation is open where it is made and used. *)
Lemma emit_covers g n start end_ v ab (ub : gset BlockId) :
  stage g n -> v < next_var f -> (forall x u, flows_to f U v x -> u ∈ default [] (U !! x) -> use_block u ∈ ub) ->
  lca_of_many D (order ({[ab]} ∪ ub)) = Some start -> lca_of_many P (order ({[ab]} ∪ ub)) = Some end_ ->
  covers (with_blocks (map (emit_block start end_ v n ab) (blocks g)) g) v n.
Proof.
  intros Hs Hv Hub HS HE q b' pre' i' post' Hp Hb Hi Ht. cbn in Hb. apply list_elem_of_fmap in Hb as (b & -> & Hb). cbn [block_id emit_block set_insts] in Hp.
  destruct (tracked_not_mark v n i' n Hv (sg_next _ _ Hs) Ht) as [N1 N2]. apply emit_place in Hi as (pre & i & post & Hi & -> & ->); [|done|done].
  assert (Hrel : block_id b ∈ order ({[ab]} ∪ ub)).
  { rewrite order_elements. apply elem_of_elements. eapply tracked_relevant; [done|done|done|done| |done]. rewrite Hi. set_solver. }
  pose proof (lca_of_many_sound D (dominates f 0) (dominates_refl f) (dominates_trans f Hwf) HD _ _ HS _ Hrel) as Hdom.
  pose proof (lca_of_many_sound P (post_dominates f) (post_dominates_refl f) (post_dominates_trans f Hwf) HP _ _ HE _ Hrel) as Hpdom.
  assert (Hg : same_graph (with_blocks (map (emit_block start end_ v n ab) (blocks g)) g) f) by (apply same_graph_sym, (sg_graph _ _ (stage_emit g n start end_ v ab Hs))).
  pose proof (same_graph_path _ f _ _ Hg Hp) as Hpf. assert (Hbi : block_id b ∈ ids f) by (eapply path_ids; [done|apply elem_of_cons; by left]).
  apply region_opened.
  - specialize (Hdom _ Hpf). apply elem_of_app. apply elem_of_cons in Hdom as [->|Hq]; [right; rewrite Z.eqb_refl; by apply elem_of_cons; left|left].
    assert (Hsi : start ∈ ids g) by (rewrite <- (same_graph_ids f g (sg_graph _ _ Hs)); eapply path_ids; [done|apply elem_of_cons; by right]).
    apply list_elem_of_fmap in Hsi as (sb & -> & Hsb). eapply (trace_has _ q (emit_block (block_id sb) end_ v n ab sb)); [|by apply list_elem_of_fmap_2|done|].
    + rewrite (same_graph_ids _ f Hg). apply Hwf.
    + rewrite emit_insts, Z.eqb_refl. by apply elem_of_cons; left.
  - apply emit_ends; [done|done|rewrite Hi; set_solver|]. by eapply post_dominator_ahead.
Qed.

(** Every allocation in an added region finds it open. *)
Definition regions_open (g : IrFunction) : Prop :=
  forall b v r k ops, b ∈ blocks g -> IRegionAlloc v r k ops ∈ insts b -> next_var f <= r -> v < next_var f /\ covers g v r.

Lemma emit_region_open g n start end_ v ab (ub : gset BlockId) :
  stage g n -> regions_open g -> v < next_var f -> (forall x u, flows_to f U v x -> u ∈ default [] (U !! x) -> use_block u ∈ ub) ->
  lca_of_many D (order ({[ab]} ∪ ub)) = Some start -> lca_of_many P (order ({[ab]} ∪ ub)) = Some end_ ->
  regions_open (with_blocks (map (emit_block start end_ v n ab) (blocks g)) g).
Proof.
  intros Hs Ho Hv Hub HS HE b' v' r k ops Hb Hi Hr. cbn in Hb. apply list_elem_of_fmap in Hb as (b & -> & Hb). rewrite emit_insts in Hi.
  assert (Hp : exists i, i ∈ insts b /\ IRegionAlloc v' r k ops = promote_at ab v n (block_id b) i).
  { rewrite !elem_of_app in Hi. destruct Hi as [Hi|[Hi|Hi]]; [case_match; set_solver| |case_match; set_solver]. apply list_elem_of_fmap in Hi as (i & Hi & Hin). by exists i. }
  destruct Hp as (i & Hin & Hp). destruct (decide (r = n)) as [->|Hn].
  - assert (Hvv : v' = v).
    { unfold promote_at, promote_inst in Hp. pose proof (fun H => sg_fresh _ _ Hs b i n Hb Hin H) as Hf. repeat case_match; subst; try (by injection Hp); (specialize (Hf eq_refl); lia). }
    subst v'. split; [done|]. by eapply emit_covers.
  - symmetry in Hp. apply promote_other in Hp; [|done]. subst i. destruct (Ho b v' r k ops Hb Hin Hr) as [H1 H2]. split; [done|].
    apply emit_keeps; try done. pose proof (sg_fresh _ _ Hs b _ r Hb Hin eq_refl). lia.
Qed.

Lemma emit_regions_ok {E : Type} allocs g n :
  stage g n -> regions_open g -> (forall p, p ∈ allocs -> p.1 < next_var f) ->
  exists g' n', emit_regions (E := E) U D P allocs g n = Ok (g', n') /\ stage g' n' /\ regions_open g'.
Proof.
  revert g n. induction allocs as [|[v ab] allocs IH]; intros g n Hs Ho Ha; cbn [emit_regions]; [by exists g, n|].
  assert (Hv : v < next_var f) by (apply (Ha (v, ab)); apply elem_of_cons; by left). assert (Ha' : forall p, p ∈ allocs -> p.1 < next_var f) by (intros p Hp; apply Ha; apply elem_of_cons; by right).
  destruct (collect_use_blocks_ok (E := E) g v U) as (ub & -> & Hub). cbn [mbind outcome_bind].
  pose proof (same_graph_wf f g (sg_graph _ _ Hs) Hwf) as Hwg. destruct (emit_region_total (E := E) g v ab ub D P n) as [[g1 n1] He]. rewrite He. cbn [mbind outcome_bind fst snd].
  apply emit_cases in He as [[-> ->]|(start & end_ & HS & HE & -> & ->)]; [by apply IH| |apply Hwg].
  apply IH; [by apply stage_emit| |done]. eapply emit_region_open; try done. intros x u Hx. apply Hub. exact (same_graph_flows f g _ _ _ (sg_graph _ _ Hs) Hx).
Qed.

Lemma stage_start : stage f (next_var f).
Proof using Hssa.
  clear -Hssa.
  destruct Hssa as (_ & _ & _ & Hv & Hr). rewrite Forall_forall in Hr. split; [done| | |done].
  - intros b i x Hb Hi Hx _. by exists b, i.
  - intros b i r Hb Hi Hreg. destruct (Hr b Hb) as [Hreads _]. rewrite Forall_forall in Hreads.
    assert (Hu : forall x, x ∈ uses i -> x < next_var f).
    { intros x Hx. apply Hreads. unfold block_reads. apply elem_of_app. left. apply list_elem_of_In, in_flat_map. exists i. rewrite <- !list_elem_of_In. split; [|done]. unfold block_insts. set_solver. }
    destruct i; try done; injection Hreg as ->; [apply (def_below b (IRegionStart r) r Hb); [unfold block_insts; set_solver|done]|apply Hu; cbn; set_solver|apply Hu; cbn; set_solver].
Qed.

Lemma regions_open_start : regions_open f.
Proof using Hssa.
  clear -Hssa. intros b v r k ops Hb Hi Hr. pose proof (sg_fresh _ _ stage_start b _ r Hb Hi eq_refl). lia. Qed.

End Regions.

(** * What a value that does not escape does *)

Section Confined.
Context {E : Type} (summary : IrFunction -> EscapeMemo -> outcome E (list EscapeState * EscapeMemo)).
Context (U : Uses) (f : IrFunction) (ctx : option EscapeContext) (defs : option (gmap VarId Inst)) (mode : EscapeMode).

(** A use that leaves the value within a set of variables: it is not returned,
    stored, captured, thrown or assigned, and it is only passed to functions whose
    summary says that they keep nothing of it. *)
Definition confined (T : VarId -> Prop) (x : VarId) (u : UseInfo) : Prop :=
  match use_kind u with
  | UReturn | UDefVar | USetBang | UClosureCapture | UThrow | UStoredInHeap => False
  | URecur => forall y, y ∈ recur_target_phis f x (use_block u) -> T y
  | UKnownCallArg func idx d => known_fn_arg_escapes func idx = true -> T d
  | UPhiInput => forall y, y ∈ phi_outputs f x (use_block u) -> T y
  | UUnknownCallArg callee idx =>
      exists m0 m1 m2 target s, resolve (E := E) f ctx defs callee x (use_block u) m0 = Ok (Some target, m1) /\ summary target m1 = Ok (s, m2) /\
        (s !! idx = Some NoEscape \/ s !! idx = Some Returns /\ forall d n, find_unknown_call_with_arg f callee x (use_block u) = Some (d, n) -> T d)
  | UBranchCond | UDeref | UCallCallee => True
  end.

Lemma confined_mono (T T' : VarId -> Prop) x u : (forall y, T y -> T' y) -> confined T x u -> confined T' x u.
Proof.
  intros HT. unfold confined. destruct (use_kind u); auto. intros (m0 & m1 & m2 & t & s & H1 & H2 & H3). exists m0, m1, m2, t, s. split_and!; [done|done|].
  destruct H3 as [H3|[H3 H4]]; [by left|right]. eauto.
Qed.

Abbreviation vuse := (visit_use summary f ctx defs mode).
Abbreviation vuses := (visit_uses summary f ctx defs mode).

Lemma visit_use_confined x u result m vs m' :
  vuse x u result m = Ok (Some (vs, NoEscape), m') -> result = NoEscape /\ confined (fun y => y ∈ vs) x u.
Proof.
  intros Hv. unfold visit_use in Hv. unfold confined. destruct (use_kind u) as [| | | | | | |func idx d|callee idx| | | |].
  - exfalso. case_decide; [done|]. injection Hv as _ Hv _. by destruct result.
  - done.
  - done.
  - done.
  - done.
  - done.
  - injection Hv as <- -> _. split; [done|auto].
  - injection Hv as <- -> _. split; [done|]. intros ->. set_solver.
  - destruct (resolve f ctx defs callee x (use_block u) m) as [[r m1]| | |] eqn:Hr; try done. cbn [mbind outcome_bind fst snd] in Hv. destruct r as [target|].
    + destruct (summary target m1) as [[s m2]| | |] eqn:Hs; try done. cbn [mbind outcome_bind fst snd] in Hv. destruct (s !! idx) as [st|] eqn:Hi; [|done]. cbn [default from_option id] in Hv.
      destruct st; try done; injection Hv as <- -> _; (split; [done|]); exists m, m1, m2, target, s; (split_and!; [done|done|]); [by left|right; split; [done|]].
      intros d n ->. set_solver.
    + exfalso. destruct mode; [|done]. case_decide; [done|]. injection Hv as _ Hv _. by destruct result.
  - injection Hv as <- -> _. split; [done|auto].
  - by injection Hv as _ -> _.
  - by injection Hv as _ -> _.
  - by injection Hv as _ -> _.
Qed.

Lemma visit_uses_confined x us pushed result m vs m' :
  vuses x us pushed result m = Ok (Some (vs, NoEscape), m') ->
  result = NoEscape /\ (forall y, y ∈ pushed -> y ∈ vs) /\ forall u, u ∈ us -> confined (fun y => y ∈ vs) x u.
Proof.
  revert pushed result m. induction us as [|u us IH]; intros pushed result m Hv; cbn [visit_uses] in Hv; [injection Hv as -> -> _; split_and!; [done|done|set_solver]|].
  destruct (vuse x u result m) as [[r m1]| | |] eqn:Hu; try done. cbn [mbind outcome_bind fst snd] in Hv. destruct r as [[ws result']|]; [|done].
  apply IH in Hv as (-> & H1 & H2). apply visit_use_confined in Hu as [-> Hu]. split_and!; [done|set_solver|].
  intros u' Hu'. apply elem_of_cons in Hu' as [->|Hu']; [|by apply H2]. eapply confined_mono; [|done]. intros y Hy. apply H1. set_solver.
Qed.

Lemma classify_loop_confined fuel wl visited result m m' :
  classify_loop summary U f ctx defs mode fuel wl visited result m = Ok (NoEscape, m') ->
  result = NoEscape /\ exists T : gset VarId, visited ⊆ T /\ (forall y, y ∈ wl -> y ∈ T) /\
    forall x u, x ∈ T -> x ∉ visited -> u ∈ default [] (U !! x) -> confined (fun y => y ∈ T) x u.
Proof.
  revert wl visited result m. induction fuel as [|fuel IH]; intros wl visited result m Hc; [done|]. cbn [classify_loop] in Hc. destruct wl as [|x wl].
  - injection Hc as -> _. split; [done|]. exists visited. split_and!; [done|set_solver|set_solver].
  - case_decide as Hx.
    + apply IH in Hc as (-> & T & H1 & H2 & H3). split; [done|]. exists T. split_and!; [done| |done]. intros y Hy. apply elem_of_cons in Hy as [->|Hy]; [by apply H1|by apply H2].
    + destruct (vuses x _ _ _ _) as [[r m1]| | |] eqn:Hv; try done. cbn [mbind outcome_bind fst snd] in Hc. destruct r as [[vs result']|]; [|done].
      apply IH in Hc as (-> & T & H1 & H2 & H3). apply visit_uses_confined in Hv as (-> & _ & Hv). split; [done|]. exists T. split_and!; [set_solver| |].
      * intros y Hy. apply elem_of_cons in Hy as [->|Hy]; [set_solver|]. apply H2. set_solver.
      * intros y u Hy Hyn Hu. destruct (decide (y = x)) as [->|Hne]; [|apply H3; [done|set_solver|done]]. eapply confined_mono; [|by apply Hv].
        intros z Hz. apply H2. set_solver.
Qed.

End Confined.

(** * The analysis ends *)

(** A computation that does not run out of fuel and gives back the functions in
    progress. *)
Definition fine {E A : Type} (C : gset Name) (o : outcome E (A * EscapeMemo)) : Prop :=
  match o with
  | Ok (_, m) => computing m = C
  | Err _ | Panic => True
  | OutOfFuel => False
  end.

Lemma fine_bind {E A B : Type} C (o : outcome E (A * EscapeMemo)) (k : A * EscapeMemo -> outcome E (B * EscapeMemo)) :
  fine C o -> (forall a m, computing m = C -> fine C (k (a, m))) -> fine C (o ≫= k).
Proof. destruct o as [[a m]| | |]; cbn; auto. Qed.

Lemma pick_arity_fine {E : Type} i counts info n : pick_arity_from (E := E) i counts info n <> OutOfFuel.
Proof. revert i. induction counts as [|c l IH]; intros i; cbn [pick_arity_from]; [done|]. repeat case_match; try done; apply IH. Qed.

Lemma pick_fine {E : Type} C info n m : computing m = C -> fine C (r ← pick_arity (E := E) info n; Ok (r, m)).
Proof. intros Hm. pose proof (pick_arity_fine (E := E) 0 (ci_param_counts info) info n) as Hp. unfold pick_arity. by destruct (pick_arity_from _ _ _ _). Qed.

Lemma pick_defn_fine {E : Type} C ctx ns name n m : computing m = C -> fine C (pick_defn (E := E) ctx ns name n m).
Proof.
  intros Hm. unfold pick_defn, lookup_defn. destruct (defn_map ctx !! _); [|done]. apply pick_fine. by case_decide.
Qed.

Lemma resolve_call_target_fine {E : Type} C callee n defs ctx m : computing m = C -> fine C (resolve_call_target (E := E) callee n defs ctx m).
Proof.
  intros Hm. unfold resolve_call_target. destruct (defs !! callee) as [i|]; [|done]. destruct i; try done; [by apply pick_defn_fine|by apply pick_fine|].
  destruct (defs !! _) as [i|]; [|done]. destruct i; try done; by apply pick_defn_fine.
Qed.

Section Fine.
Context {E : Type} (summary : IrFunction -> EscapeMemo -> outcome E (list EscapeState * EscapeMemo)) (C : gset Name).
Context (U : Uses) (f : IrFunction) (ctx : option EscapeContext) (defs : option (gmap VarId Inst)) (mode : EscapeMode).
Context (Hsum : forall c name target m, ctx = Some c -> registry c !! name = Some target -> computing m = C -> fine C (summary target m)).

Lemma resolve_fine callee x b m : computing m = C -> fine C (resolve (E := E) f ctx defs callee x b m).
Proof.
  intros Hm. unfold resolve. destruct ctx as [c|]; [|done]. destruct defs as [vd|]; [|done]. destruct (find_unknown_call_with_arg f callee x b) as [[d n]|]; [|done].
  apply fine_bind; [by apply resolve_call_target_fine|]. done.
Qed.

Lemma resolve_registry callee x b m target m' :
  resolve (E := E) f ctx defs callee x b m = Ok (Some target, m') -> exists c name, ctx = Some c /\ registry c !! name = Some target.
Proof.
  unfold resolve. destruct ctx as [c|]; [|done]. destruct defs as [vd|]; [|done]. destruct (find_unknown_call_with_arg f callee x b) as [[d n]|]; [|done].
  destruct (resolve_call_target callee n vd c m) as [[[name|] m1]| | |]; cbn; try done. intros H. injection H as H _. by exists c, name.
Qed.

Lemma visit_use_fine x u result m : computing m = C -> fine C (visit_use summary f ctx defs mode x u result m).
Proof.
  intros Hm. unfold visit_use. destruct (use_kind u) as [| | | | | | |func idx d|callee idx| | | |]; try done.
  pose proof (resolve_fine callee x (use_block u) m Hm) as Hr. destruct (resolve f ctx defs callee x (use_block u) m) as [[r m1]| | |] eqn:Er; cbn [mbind outcome_bind fst snd]; try done.
  destruct r as [target|]; [|by destruct mode]. apply resolve_registry in Er as (c & name & Hc & Hreg). apply fine_bind; [by eapply Hsum|done].
Qed.

Lemma visit_uses_fine x us pushed result m : computing m = C -> fine C (visit_uses summary f ctx defs mode x us pushed result m).
Proof.
  revert pushed result m. induction us as [|u us IH]; intros pushed result m Hm; cbn [visit_uses]; [done|].
  apply fine_bind; [by apply visit_use_fine|]. intros [[vs r]|] m1 Hm1; cbn [fst snd]; [by apply IH|done].
Qed.

Lemma find_block_phis b blk : find_block f b = Some blk -> (length (phis blk) <= push_bound f)%nat.
Proof.
  unfold find_block, push_bound. intros Hf. apply find_some in Hf as [Hin _]. induction (blocks f) as [|c l IH]; [done|]. cbn [sum_list_with].
  destruct Hin as [->|Hin]; [lia|]. specialize (IH Hin). lia.
Qed.

Lemma recur_count x b : (length (recur_target_phis f x b) <= push_bound f)%nat.
Proof.
  unfold recur_target_phis. destruct (find_block f b) as [blk|]; [|cbn; lia]. destruct (terminator blk) as [| | |target args|]; try (cbn; lia).
  destruct (find_block f target) as [tb|] eqn:Ht; [|cbn; lia]. apply find_block_phis in Ht. unfold recur_phis.
  pose proof (bind_count (fun p : VarId * Inst => match p.2 with IPhi d _ => if decide (p.1 = x) then [d] else [] | _ => [] end) 1 (zip_with pair args (phis tb))) as Hb.
  rewrite length_zip_with in Hb. lapply Hb; [lia|]. intros [a i]. cbn. destruct i; cbn; try lia. case_decide; cbn; lia.
Qed.

Lemma visit_use_count x u result m vs r m' : visit_use summary f ctx defs mode x u result m = Ok (Some (vs, r), m') -> (length vs <= push_bound f)%nat.
Proof.
  assert (H1 : (1 <= push_bound f)%nat) by (unfold push_bound; lia).
  unfold visit_use. destruct (use_kind u) as [| | | | | | |func idx d|callee idx| | | |]; try done.
  - case_decide; [done|]. intros [= <- _ _]. cbn. lia.
  - intros [= <- _ _]. apply recur_count.
  - intros [= <- _ _]. destruct (known_fn_arg_escapes func idx); cbn; lia.
  - destruct (resolve f ctx defs callee x (use_block u) m) as [[[target|] m1]| | |]; cbn [mbind outcome_bind fst snd]; try done.
    + destruct (summary target m1) as [[s m2]| | |]; try done. cbn [mbind outcome_bind fst snd]. destruct (default Escapes (s !! idx)); try done.
      * intros [= <- _ _]. cbn. lia.
      * intros [= <- _ _]. destruct (find_unknown_call_with_arg f callee x (use_block u)) as [[d n]|]; cbn; lia.
    + destruct mode; [|done]. case_decide; [done|]. intros [= <- _ _]. cbn. lia.
  - intros [= <- _ _]. apply phi_count.
  - intros [= <- _ _]. cbn. lia.
  - intros [= <- _ _]. cbn. lia.
  - intros [= <- _ _]. cbn. lia.
Qed.

Lemma visit_uses_count x us pushed result m vs r m' :
  visit_uses summary f ctx defs mode x us pushed result m = Ok (Some (vs, r), m') -> (length vs <= length pushed + length us * push_bound f)%nat.
Proof.
  revert pushed result m. induction us as [|u us IH]; intros pushed result m Hv; cbn [visit_uses] in Hv; [injection Hv as -> _ _; cbn; lia|].
  destruct (visit_use summary f ctx defs mode x u result m) as [[[[ws r1]|] m1]| | |] eqn:Hu; try done. cbn [mbind outcome_bind fst snd] in Hv.
  apply IH in Hv. apply visit_use_count in Hu. rewrite length_app in Hv. cbn [length]. lia.
Qed.

Lemma classify_loop_fine fuel wl visited result m :
  computing m = C -> (length wl + use_work (push_bound f) U visited < fuel)%nat -> fine C (classify_loop summary U f ctx defs mode fuel wl visited result m).
Proof.
  revert wl visited result m. induction fuel as [|fuel IH]; intros wl visited result m Hm Hf; [lia|]. cbn [classify_loop]. destruct wl as [|x wl]; [done|]. cbn in Hf.
  case_decide as Hx; [apply IH; [done|lia]|].
  pose proof (visit_uses_fine x (default [] (U !! x)) [] result m Hm) as Hv. destruct (visit_uses _ _ _ _ _ _ _ _ _ _) as [[[[vs r]|] m1]| | |] eqn:Ev; cbn [mbind outcome_bind fst snd]; try done.
  apply IH; [done|]. apply visit_uses_count in Ev. pose proof (use_work_visit (push_bound f) U visited x Hx). rewrite length_app. cbn [length] in Ev. lia.
Qed.

Lemma classify_fine v m : computing m = C -> fine C (classify_escape_with_ctx summary U f ctx defs mode v m).
Proof. intros Hm. apply classify_loop_fine; [done|]. rewrite use_work_all. cbn [length]. lia. Qed.

End Fine.

Lemma classify_all_fine {E : Type} C (classify : VarId -> EscapeMemo -> outcome E (EscapeState * EscapeMemo)) vs m :
  (forall v m, computing m = C -> fine C (classify v m)) -> computing m = C -> fine C (classify_all classify vs m).
Proof.
  intros Hc. revert m. induction vs as [|v vs IH]; intros m Hm; cbn [classify_all]; [done|].
  apply fine_bind; [by apply Hc|]. intros r m1 H1. cbn [fst snd]. apply fine_bind; [by apply IH|done].
Qed.

(** Functions are registered under their names. *)
Definition named (ctx : EscapeContext) : Prop := forall name g, registry ctx !! name = Some g -> fn_name g = Some name.

Definition pending (ctx : EscapeContext) (C : gset Name) : nat := size (dom (registry ctx) ∖ C).

Lemma pending_step ctx C name g : registry ctx !! name = Some g -> name ∉ C -> (S (pending ctx ({[name]} ∪ C)) <= pending ctx C)%nat.
Proof.
  intros Hr Hn. unfold pending. assert (Hlt : (dom (registry ctx) ∖ ({[name]} ∪ C)) ⊂ (dom (registry ctx) ∖ C)).
  { apply elem_of_dom_2 in Hr. set_solver. } apply subset_size in Hlt. lia.
Qed.

Lemma pending_mono ctx C C' : C ⊆ C' -> (pending ctx C' <= pending ctx C)%nat.
Proof. intros Hc. unfold pending. apply subseteq_size. set_solver. Qed.

(** A summary needs a level for each registered function not in progress, and one
    for a function that is not registered. *)
Lemma summary_fine {E : Type} ctx depth f m :
  named ctx -> (pending ctx (computing m) < depth)%nat -> (exists name, registry ctx !! name = Some f) \/ (pending ctx (computing m) + 1 < depth)%nat ->
  fine (computing m) (compute_fn_summary (E := E) depth ctx f m).
Proof.
  intros Hn. revert f m. induction depth as [|depth IH]; intros f m Hd Hf; [lia|]. cbn [compute_fn_summary].
  assert (Hcl : forall C m, computing m = C -> (pending ctx C < depth)%nat ->
    fine C (classify_all (classify_escape_with_ctx (compute_fn_summary (E := E) depth ctx) (build_use_chains f) f (Some ctx) (Some (build_var_defs f)) ModeParam) (map snd (params f)) m)).
  { intros C m0 <- Hp. apply classify_all_fine; [|done]. intros v m1 H1. rewrite <- H1 in *. apply classify_fine; [|done]. intros c name target m2 Hc Hr H2. injection Hc as <-. rewrite <- H2 in *.
    apply IH; [done|left; eauto]. }
  destruct (fn_name f) as [name|] eqn:Ename; [|destruct Hf as [[name Hf]|Hf]; [apply Hn in Hf; congruence|apply Hcl; [done|lia]]].
  destruct (cache m !! name); [done|]. case_decide as Hin; [done|].
  assert (Hp : (pending ctx ({[name]} ∪ computing m) < depth)%nat).
  { destruct Hf as [[name' Hf]|Hf]; [|pose proof (pending_mono ctx (computing m) ({[name]} ∪ computing m) ltac:(set_solver)); lia].
    pose proof (Hn name' f Hf) as Hn'. assert (name' = name) as -> by congruence. pose proof (pending_step ctx (computing m) name f Hf Hin). lia. }
  specialize (Hcl ({[name]} ∪ computing m) (mkMemo (cache m) ({[name]} ∪ computing m) (used_externals m)) eq_refl Hp).
  destruct (classify_all _ _ _) as [[r m1]| | |]; cbn [fine mbind outcome_bind fst snd computing] in Hcl |- *; try done. rewrite Hcl.
  rewrite difference_union_distr_l_L, difference_diag_L, union_empty_l_L. apply difference_disjoint_L. set_solver.
Qed.

Lemma pending_all ctx C : (pending ctx C <= size (registry ctx))%nat.
Proof. unfold pending. rewrite <- (size_dom (D := gset Name) (registry ctx)). apply subseteq_size. set_solver. Qed.

Lemma fn_summary_fine {E : Type} ctx f m : (forall c, ctx = Some c -> named c) -> fine (computing m) (fn_summary (E := E) ctx f m).
Proof.
  intros Hn. destruct ctx as [c|]; [|done]. cbn [fn_summary]. pose proof (pending_all c (computing m)). apply summary_fine; [by apply Hn|unfold summary_depth; lia|right; unfold summary_depth; lia].
Qed.

Lemma classify_alloc_fine {E : Type} f ctx v m : (forall c, ctx = Some c -> named c) -> fine (computing m) (classify_alloc (E := E) f ctx v m).
Proof. intros Hn. apply classify_fine; [|done]. intros c name target m' _ _ <-. by apply fn_summary_fine. Qed.

Lemma states_of_fine {E : Type} f ctx vs acc m : (forall c, ctx = Some c -> named c) -> fine (computing m) (states_of (E := E) f ctx vs acc m).
Proof.
  intros Hn. revert acc m. induction vs as [|v vs IH]; intros acc m; cbn [states_of]; [done|].
  apply fine_bind; [by apply classify_alloc_fine|]. intros r m1 H1. cbn [fst snd]. rewrite <- H1. apply IH.
Qed.

Lemma cross_call_fine {E : Type} {HO : HashOrder} f c acc i m : named c -> fine (computing m) (cross_call (E := E) f c acc i m).
Proof.
  intros Hn. destruct i; try done. cbn [cross_call]. assert (Hc : forall c', Some c = Some c' -> named c') by (by intros ? [= <-]).
  apply fine_bind; [by apply classify_alloc_fine|]. intros st m1 H1. cbn [fst snd]. case_decide; [|done].
  apply fine_bind; [by apply resolve_call_target_fine|]. intros [name|] m2 H2; cbn [fst snd]; [|done]. destruct (registry c !! name); [|done].
  apply fine_bind; [rewrite <- H2; by apply states_of_fine|done].
Qed.

Lemma cross_calls_fine {E : Type} {HO : HashOrder} f c is_ acc m : named c -> fine (computing m) (cross_calls (E := E) f c is_ acc m).
Proof.
  intros Hn. revert acc m. induction is_ as [|i is_ IH]; intros acc m; cbn [cross_calls]; [done|].
  apply fine_bind; [by apply cross_call_fine|]. intros r m1 H1. cbn [fst snd]. rewrite <- H1. apply IH.
Qed.

Lemma analyze_fine {E : Type} {HO : HashOrder} f ctx m : (forall c, ctx = Some c -> named c) -> fine (computing m) (analyze (E := E) f ctx m).
Proof.
  intros Hn. unfold analyze. apply fine_bind; [by apply states_of_fine|]. intros s m1 H1. cbn [fst snd]. apply fine_bind; [|done]. rewrite <- H1.
  destruct ctx as [c|]; [|done]. apply cross_calls_fine. by apply Hn.
Qed.

(** * The pass over a function *)

Section Pass.
Context {E : Type} {HO : HashOrder}.

Lemma add_alloc_dst b is_ m v ab :
  fold_left (add_alloc b) is_ m !! v = Some ab -> m !! v = Some ab \/ (ab = b /\ exists i, i ∈ is_ /\ dst i = Some v).
Proof.
  revert m. induction is_ as [|i is_ IH]; intros m Hm; cbn [fold_left] in Hm; [by left|]. apply IH in Hm as [Hm|(-> & j & H1 & H2)]; [|right; split; [done|]; exists j; set_solver].
  unfold add_alloc in Hm. destruct (is_alloc_inst i); [|by left]. destruct (dst i) as [d|] eqn:Hd; [|by left]. rewrite lookup_insert in Hm. case_decide as Hv; [|by left].
  subst d. injection Hm as <-. right. split; [done|]. exists i. set_solver.
Qed.

Lemma collect_allocs_dst f v ab : collect_allocs f !! v = Some ab -> exists b i, b ∈ blocks f /\ block_id b = ab /\ i ∈ block_insts b /\ dst i = Some v.
Proof.
  unfold collect_allocs. assert (Hg : forall l m, fold_left (fun m b => fold_left (add_alloc (block_id b)) (phis b ++ insts b) m) l m !! v = Some ab ->
    m !! v = Some ab \/ exists b i, b ∈ l /\ block_id b = ab /\ i ∈ block_insts b /\ dst i = Some v).
  { induction l as [|b l IH]; intros m Hm; cbn [fold_left] in Hm; [by left|]. apply IH in Hm as [Hm|(b' & i & H1 & H2)]; [|right; exists b', i; set_solver].
    apply add_alloc_dst in Hm as [Hm|(-> & i & H1 & H2)]; [by left|right]. exists b, i. split_and!; [set_solver|done|done|done]. }
  intros Hm. apply Hg in Hm as [Hm|Hm]; [by rewrite lookup_empty in Hm|done].
Qed.

Lemma states_of_classified f ctx vs acc m s m' v st :
  states_of (E := E) f ctx vs acc m = Ok (s, m') -> s !! v = Some st -> acc !! v = Some st \/ exists m0 m1, classify_alloc (E := E) f ctx v m0 = Ok (st, m1).
Proof.
  revert acc m. induction vs as [|x vs IH]; intros acc m Hs Hv; cbn [states_of] in Hs; [injection Hs as -> _; by left|].
  destruct (classify_alloc f ctx x m) as [[r m1]| | |] eqn:Hc; try done. cbn [mbind outcome_bind fst snd] in Hs. destruct (IH _ _ Hs Hv) as [Ha|Ha]; [|by right].
  rewrite lookup_insert in Ha. case_decide as Hx; [|by left]. subst x. injection Ha as ->. right. by exists m, m1.
Qed.

Lemma analyze_result f ctx m an m' :
  analyze (E := E) f ctx m = Ok (an, m') -> an_uses an = build_use_chains f /\ alloc_blocks an = collect_allocs f /\
    forall v, states an !! v = Some NoEscape -> exists m0 m1, classify_alloc (E := E) f ctx v m0 = Ok (NoEscape, m1).
Proof.
  unfold analyze, analyze_states. destruct (states_of f ctx _ ∅ m) as [[s m1]| | |] eqn:Hs; try done. cbn [mbind outcome_bind fst snd].
  intros Ha. assert (Han : an_uses an = build_use_chains f /\ alloc_blocks an = collect_allocs f /\ states an = s).
  { destruct ctx as [c|]; [destruct (cross_calls _ _ _ _ _) as [[cs m2]| | |]; try done|]; cbn in Ha; injection Ha as <- _; done. }
  destruct Han as (H1 & H2 & H3). split_and!; [done|done|]. intros v Hv. rewrite H3 in Hv.
  destruct (states_of_classified _ _ _ _ _ _ _ _ _ Hs Hv) as [He|He]; [by rewrite lookup_empty in He|done].
Qed.

Lemma no_escape_allocs_in an p : p ∈ no_escape_allocs an -> states an !! p.1 = Some NoEscape /\ alloc_blocks an !! p.1 = Some p.2.
Proof.
  unfold no_escape_allocs. intros Hp. apply list_elem_of_bind in Hp as (v & Hp & _). destruct (states an !! v) as [st|] eqn:Hs; [|by apply elem_of_nil in Hp].
  destruct st; try (by apply elem_of_nil in Hp). destruct (alloc_blocks an !! v) as [b|] eqn:Hb; [|by apply elem_of_nil in Hp]. by apply list_elem_of_singleton in Hp as ->.
Qed.

(** What the pass does to a function. *)
Lemma optimize_regions_cases f ctx m f' m' :
  well_formed f 0 -> optimize_regions (E := E) f ctx m = Ok (f', m') ->
  f' = f \/ exists an g n D P, (exists m1, analyze (E := E) f ctx m = Ok (an, m1)) /\ f' = with_next_var n g /\
    (forall b d, d ∈ dom_at D b -> dominates f 0 d b) /\ (forall b d, d ∈ dom_at P b -> post_dominates f d b) /\
    emit_regions (E := E) (build_use_chains f) D P (no_escape_allocs an) f (next_var f) = Ok (g, n).
Proof.
  intros Hwf. unfold optimize_regions. destruct (analyze f ctx m) as [[an m1]| | |] eqn:Ha; try done. cbn [mbind outcome_bind fst snd].
  pose proof (analyze_result _ _ _ _ _ Ha) as (Hu & _ & _). destruct (no_escape_allocs an) as [|p ps] eqn:Hn; [intros [= -> _]; by left|]. rewrite <- Hn, Hu.
  destruct (dominators_ok (E := E) f Hwf) as (D & -> & HD). destruct (post_dominators_ok (E := E) f Hwf) as (P & -> & HP). cbn [mbind outcome_bind].
  destruct (emit_regions _ _ _ _ _ _) as [[g n]| | |] eqn:He; try done. cbn [mbind outcome_bind fst snd]. intros [= <- _]. right. exists an, g, n, D, P. split_and!; try done. by exists m1.
Qed.

Lemma emit_regions_total U D P allocs g n : exists r, emit_regions (E := E) U D P allocs g n = Ok r.
Proof.
  revert g n. induction allocs as [|[v ab] allocs IH]; intros g n; cbn [emit_regions]; [eauto|].
  destruct (collect_use_blocks_ok (E := E) g v U) as (ub & -> & _). cbn [mbind outcome_bind].
  destruct (emit_region_total (E := E) g v ab ub D P n) as [[g1 n1] ->]. cbn [mbind outcome_bind fst snd]. apply IH.
Qed.

Lemma optimize_regions_fine f ctx m : (forall c, ctx = Some c -> named c) -> fine (computing m) (optimize_regions (E := E) f ctx m).
Proof.
  intros Hn. unfold optimize_regions. apply fine_bind; [by apply analyze_fine|]. intros an m1 H1. cbn [fst snd]. destruct (no_escape_allocs an) as [|p ps]; [done|].
  destruct (idom_total (E := E) f) as [D ->]. destruct (ipdom_total (E := E) f) as [P ->]. cbn [mbind outcome_bind].
  destruct (emit_regions_total (an_uses an) D P (p :: ps) f (next_var f)) as [r ->]. done.
Qed.

Lemma optimize_tree_fine c : named c -> forall f m, fine (computing m) (optimize_tree (E := E) c f m).
Proof.
  intros Hn. fix IH 1. intros [nm ps bs nv nb sp subs a1 a2 a3 a4 a5] m. cbn [optimize_tree]. apply fine_bind.
  - revert m. induction subs as [|g gs IHs]; intros m; cbn [optimize_subs]; [done|].
    apply fine_bind; [by apply IH|]. intros r m1 H1. cbn [fst snd]. apply fine_bind; [rewrite <- H1; by apply IHs|done].
  - intros s m1 H1. cbn [fst snd]. apply fine_bind; [|done]. rewrite <- H1. apply optimize_regions_fine. by intros ? [= <-].
Qed.

Lemma emit_regions_allocs U D P allocs g n g' n' b' v r k ops :
  NoDup (ids g) -> emit_regions (E := E) U D P allocs g n = Ok (g', n') -> b' ∈ blocks g' -> IRegionAlloc v r k ops ∈ insts b' ->
  (exists b, b ∈ blocks g /\ IRegionAlloc v r k ops ∈ insts b) \/ exists ab, (v, ab) ∈ allocs.
Proof.
  revert g n. induction allocs as [|[x ab] allocs IH]; intros g n Hnd He Hb Hi; cbn [emit_regions] in He; [injection He as -> _; left; eauto|].
  destruct (collect_use_blocks x U g) as [ub| | |]; try done. cbn [mbind outcome_bind] in He.
  destruct (emit_region_for_alloc g x ab ub D P n) as [[g1 n1]| | |] eqn:H1; try done. cbn [mbind outcome_bind fst snd] in He.
  apply emit_cases in H1 as [[-> ->]|(start & end_ & _ & _ & -> & ->)]; [| |done].
  - destruct (IH _ _ Hnd He Hb Hi) as [H|[ab' H]]; [by left|right; exists ab'; set_solver].
  - assert (Hnd1 : NoDup (ids (with_blocks (map (emit_block start end_ x n ab) (blocks g)) g))) by (rewrite <- (same_graph_ids g); [done|apply with_blocks_emit_graph]).
    destruct (IH _ _ Hnd1 He Hb Hi) as [(b1 & Hb1 & Hi1)|[ab' H]]; [|right; exists ab'; set_solver].
    cbn in Hb1. apply list_elem_of_fmap in Hb1 as (b & -> & Hb1). rewrite emit_insts, !elem_of_app in Hi1. destruct Hi1 as [Hi1|[Hi1|Hi1]]; [case_match; set_solver| |case_match; set_solver].
    apply list_elem_of_fmap in Hi1 as (i & Hi1 & Hin). unfold promote_at, promote_inst in Hi1.
    destruct (block_id b =? ab); [|left; exists b; by subst i]. case_decide; [|left; exists b; by subst i]. destruct (alloc_to_region_kind i); [|left; exists b; by subst i].
    injection Hi1 as -> _ _ _. right. exists ab. set_solver.
Qed.

End Pass.

(** * Where a value goes, instruction by instruction *)

Definition is_phi (i : Inst) : bool := match i with IPhi _ _ => true | _ => false end.

Definition same_call (i j : Inst) : bool :=
  match i, j with
  | ICall _ c args, ICall _ c' args' => bool_decide (c = c' /\ Exists (fun a => a ∈ args') args)
  | _, _ => false
  end.

(** No two calls of the same variable share an argument. *)
Fixpoint distinct_calls (is_ : list Inst) : bool :=
  match is_ with
  | [] => true
  | i :: is' => negb (existsb (same_call i) is') && distinct_calls is'
  end.

(** The analysis follows what the block does with a value. *)
Definition followed (b : Block) : bool :=
  forallb is_phi (phis b) && forallb (fun i => recorded i && negb (is_phi i)) (insts b) && distinct_calls (insts b).

Section Within.
Context {E : Type} (f : IrFunction) (ctx : option EscapeContext) (T : gset VarId) (x : VarId).

(** What an instruction that reads [x] does with it. *)
Definition stays_within (i : Inst) : Prop :=
  match i with
  | IPhi d _ => d ∈ T
  | ICallKnown d func args => forall k, args !! k = Some x -> known_fn_arg_escapes func k = true -> d ∈ T
  | ICall d callee args =>
      forall k, args !! k = Some x ->
        exists c name target m0 m1 m2 s, ctx = Some c /\ resolve_call_target (E := E) callee (length args) (build_var_defs f) c m0 = Ok (Some name, m1) /\
          registry c !! name = Some target /\ fn_summary (E := E) ctx target m1 = Ok (s, m2) /\
          (s !! k = Some NoEscape \/ s !! k = Some Returns /\ d ∈ T)
  | IDeref _ _ | IRecur _ => True
  | _ => False
  end.

Definition leaves_within (t : Terminator) : Prop :=
  match t with
  | Return v => v <> x
  | RecurJump target args =>
      forall tb k d es, tb ∈ blocks f -> block_id tb = target -> args !! k = Some x -> phis tb !! k = Some (IPhi d es) -> d ∈ T
  | _ => True
  end.

Abbreviation confined_in := (confined (fn_summary (E := E) ctx) f ctx (Some (build_var_defs f)) (fun y => y ∈ T) x).

Lemma find_block_of b : NoDup (ids f) -> b ∈ blocks f -> find_block f (block_id b) = Some b.
Proof.
  intros Hnd Hb. unfold find_block. destruct (find _ _) as [c|] eqn:Hf.
  - apply find_some in Hf as [Hc He%Z.eqb_eq]. rewrite <- list_elem_of_In in Hc. f_equal. by apply (block_unique f c b Hnd).
  - apply list_elem_of_In, (find_none _ _ Hf) in Hb. by rewrite Z.eqb_refl in Hb.
Qed.

Lemma distinct_call_found is_ d callee args :
  distinct_calls is_ = true -> ICall d callee args ∈ is_ -> x ∈ args -> first_some (call_with_arg callee x) is_ = Some (d, length args).
Proof.
  intros Hd Hin Hx. induction is_ as [|j is_ IH]; [by apply elem_of_nil in Hin|]. cbn [distinct_calls first_some] in *. apply andb_prop in Hd as [Hj Hd].
  apply elem_of_cons in Hin as [<-|Hin]; [cbn; by rewrite decide_True|]. replace (call_with_arg callee x j) with (@None (VarId * nat)); [by apply IH|].
  destruct j; try done. cbn. rewrite decide_False; [done|]. intros [-> Hxj]. apply negb_true_iff, not_true_iff_false in Hj. apply Hj.
  apply existsb_exists. exists (ICall d callee args). rewrite <- list_elem_of_In. split; [done|]. apply bool_decide_eq_true. split; [done|]. apply Exists_exists. by exists x.
Qed.

Lemma confined_phi b d es : NoDup (ids f) -> b ∈ blocks f -> IPhi d es ∈ phis b -> x ∈ map snd es -> confined_in (mkUse (block_id b) UPhiInput) -> d ∈ T.
Proof.
  intros Hnd Hb Hi Hx Hc. apply Hc. unfold phi_outputs. cbn [use_block]. rewrite find_block_of by done. apply list_elem_of_bind. exists (IPhi d es). split; [|done].
  replace (existsb _ es) with true; [by apply list_elem_of_singleton|]. symmetry. apply existsb_exists. apply list_elem_of_fmap in Hx as (e & -> & He). exists e. rewrite <- list_elem_of_In.
  split; [done|apply Z.eqb_refl].
Qed.

Lemma confined_call b d callee args k :
  NoDup (ids f) -> b ∈ blocks f -> distinct_calls (insts b) = true -> ICall d callee args ∈ insts b -> args !! k = Some x ->
  confined_in (mkUse (block_id b) (UUnknownCallArg callee k)) ->
  exists c name target m0 m1 m2 s, ctx = Some c /\ resolve_call_target (E := E) callee (length args) (build_var_defs f) c m0 = Ok (Some name, m1) /\
    registry c !! name = Some target /\ fn_summary (E := E) ctx target m1 = Ok (s, m2) /\ (s !! k = Some NoEscape \/ s !! k = Some Returns /\ d ∈ T).
Proof.
  intros Hnd Hb Hd Hi Hk (m0 & m1 & m2 & target & s & Hres & Hs & Hst). cbn [use_block] in *. unfold resolve in Hres. destruct ctx as [c|] eqn:Hctx; [|done].
  assert (Hf : find_unknown_call_with_arg f callee x (block_id b) = Some (d, length args)).
  { unfold find_unknown_call_with_arg. rewrite find_block_of by done. apply distinct_call_found; [done|done|]. by eapply list_elem_of_lookup_2. }
  rewrite Hf in Hres, Hst. destruct (resolve_call_target _ _ _ _ _) as [[n m1']| | |] eqn:Hn; try done. cbn in Hres. destruct n as [name|]; [|done]. injection Hres as Hg ->.
  exists c, name, target, m0, m1, m2, s. split_and!; try done. destruct Hst as [Hst|[Hst Hd']]; [by left|right]. split; [done|]. by apply (Hd' d (length args)).
Qed.

Lemma confined_stays b i :
  NoDup (ids f) -> b ∈ blocks f -> followed b = true -> i ∈ block_insts b -> x ∈ uses i ->
  (forall kd, (x, kd) ∈ inst_uses i -> confined_in (mkUse (block_id b) kd)) -> stays_within i.
Proof.
  intros Hnd Hb Hfol Hi Hu Hc. unfold followed in Hfol. apply andb_prop in Hfol as [[Hp Hin]%andb_prop Hd]. rewrite !forallb_forall in *.
  unfold block_insts in Hi. apply elem_of_app in Hi as [Hi|Hi].
  - pose proof (Hp i (proj1 (list_elem_of_In _ _) Hi)) as Hphi. destruct i; try done. cbn [uses] in Hu. eapply confined_phi; [done|done|done|done|]. apply Hc. cbn [inst_uses].
    apply list_elem_of_fmap in Hu as (e & -> & He). apply list_elem_of_fmap. by exists e.
  - specialize (Hin i (proj1 (list_elem_of_In _ _) Hi)). apply andb_prop in Hin as [Hrec Hphi]. destruct (recorded_use x i Hrec Hu) as [kd Hkd]. pose proof (Hc kd Hkd) as Hkc.
    destruct i; cbn [inst_uses stays_within] in *; try done; try (by apply elem_of_nil in Hkd); try (apply list_elem_of_fmap in Hkd as (? & [= _ ->] & _); done).
    all: try (repeat (apply elem_of_cons in Hkd as [[= _ ->]|Hkd]; [done|])); try (by apply elem_of_nil in Hkd); try (apply list_elem_of_fmap in Hkd as (? & [= _ ->] & _); done).
    + apply list_elem_of_bind in Hkd as (p & Hkd & _). repeat (apply elem_of_cons in Hkd as [[= _ ->]|Hkd]; [done|]). by apply elem_of_nil in Hkd.
    + intros k Hk. eapply (Hc (UKnownCallArg _ k _)). apply elem_of_lookup_imap. by exists k, x.
    + intros k Hk. eapply confined_call; [done|done|done|done|done|]. apply Hc. apply elem_of_cons. right. apply elem_of_lookup_imap. by exists k, x.
Qed.

Lemma confined_leaves b :
  NoDup (ids f) -> b ∈ blocks f -> (forall kd, (x, kd) ∈ Escape.term_uses (terminator b) -> confined_in (mkUse (block_id b) kd)) -> leaves_within (terminator b).
Proof.
  intros Hnd Hb Hc. destruct (terminator b) as [| |v|target args|] eqn:Ht; cbn [leaves_within Escape.term_uses] in *; try done.
  - intros ->. apply (Hc UReturn). by apply list_elem_of_singleton.
  - intros tb k d es Htb <- Hk Hph. apply (Hc URecur); [apply list_elem_of_fmap; exists x; split; [done|by eapply list_elem_of_lookup_2]|].
    cbn [use_block]. unfold recur_target_phis. rewrite find_block_of, Ht, find_block_of by done. unfold recur_phis. apply list_elem_of_bind. exists (x, IPhi d es). cbn [fst snd].
    split; [rewrite decide_True by done; by apply list_elem_of_singleton|]. eapply list_elem_of_lookup_2 with k. by rewrite lookup_zip_with, Hk, Hph.
Qed.

End Within.

(** * The theorems *)

Section Theorems.
Context {E : Type} {HO : HashOrder}.

Lemma promoted_confined f ctx m f' m' b v r k ops :
  well_formed f 0 -> ssa f -> optimize_regions (E := E) f ctx m = Ok (f', m') ->
  b ∈ blocks f' -> IRegionAlloc v r k ops ∈ insts b -> next_var f <= r ->
  exists T : gset VarId, v ∈ T /\ forall x u, x ∈ T -> u ∈ default [] (build_use_chains f !! x) ->
    confined (fn_summary (E := E) ctx) f ctx (Some (build_var_defs f)) (fun y => y ∈ T) x u.
Proof.
  intros Hwf Hssa Ho Hb Hi Hr.
  assert (Hno : forall b, b ∈ blocks f -> IRegionAlloc v r k ops ∈ insts b -> False).
  { intros b0 Hb0 Hi0. pose proof (sg_fresh _ _ _ (stage_start f Hssa) b0 _ r Hb0 Hi0 eq_refl). lia. }
  apply optimize_regions_cases in Ho as [->|(an & g & n & D & P & [m1 Ha] & -> & HD & HP & He)]; [by exfalso; eapply Hno| |done].
  destruct (emit_regions_allocs _ _ _ _ _ _ _ _ _ _ _ _ _ (wf_ids _ _ Hwf) He Hb Hi) as [(b0 & Hb0 & Hi0)|[ab Hab]]; [by exfalso; eapply Hno|].
  apply no_escape_allocs_in in Hab as [Hst _]. apply analyze_result in Ha as (_ & _ & Hcl). destruct (Hcl v Hst) as (m2 & m3 & Hc).
  apply classify_loop_confined in Hc as (_ & T & _ & HT & Hconf). exists T. split; [apply HT; by apply elem_of_cons; left|]. intros x u Hx. apply Hconf; [done|set_solver].
Qed.

(** C18: in a function without loops all of whose instructions have their reads
    recorded by the analysis, each allocation that the pass puts in a region is
    made, and each instruction that reads it or a value forwarded from it by phis
    and known functions runs, while that region has been started and not yet ended,
    on every path from the entry.  The reads that are not recorded are those of
    direct calls, awaits, spawns, channel operations, calls with a region and ends
    of regions; lowering emits the first two, and a region is ended before such a
    read (RegionalizeSpec, [direct_call_reads_closed_region]).  The branch that ends
    a block is not an instruction, and the result of a call is not a value forwarded
    (there too, [branch_tests_closed_region] and [call_result_outlives_region]).
    The region is told by its name: the order in which several regions nest is not
    part of the claim. *)
Theorem region_open_at_uses f ctx m f' m' :
  well_formed f 0 -> ssa f -> (forall b i, b ∈ blocks f -> i ∈ insts b -> recorded i = true) -> loop_free f ->
  optimize_regions (E := E) f ctx m = Ok (f', m') -> regions_open f f'.
Proof.
  intros Hwf Hssa Hrec [rank Hrank] Ho. apply optimize_regions_cases in Ho as [->|(an & g & n & D & P & [m1 Ha] & -> & HD & HP & He)]; [by apply regions_open_start|  |done].
  destruct (emit_regions_ok f Hwf Hssa Hrec rank Hrank D P HD HP (E := E) (no_escape_allocs an) f (next_var f)) as (g' & n' & He' & Hs & Hop).
  - by apply stage_start.
  - by apply regions_open_start.
  - intros p Hp. apply no_escape_allocs_in in Hp as [_ Hp]. apply analyze_result in Ha as (_ & Hal & _). rewrite Hal in Hp.
    apply collect_allocs_dst in Hp as (b & i & H1 & _ & H2 & H3). by eapply def_below.
  - rewrite He in He'. injection He' as <- <-. intros b v r k ops Hb Hi Hr. destruct (Hop b v r k ops Hb Hi Hr) as [Hv Hc]. split; [done|].
    intros q b' pre i post Hp. apply (Hc q b' pre i post). by eapply same_graph_path; [|exact Hp].
Qed.

(** C19: an allocation that is put in a region never leaves the function, when the
    reads of all instructions are recorded and no block has two calls of the same
    variable that share an argument: there is a set of variables that holds the
    allocation, and each instruction of the function that reads a member of the set
    is a phi or a known function whose result is in the set if it may be or hold the
    member, a call of a function whose summary says at the position of the member
    that nothing of it is kept, or that it is returned and then the result of the
    call is in the set, a call of the member itself, a deref or a recur.  Returns do
    not return members, and the phis that the arguments of a recur feed are in the
    set with them.  Without the conditions it fails: RegionalizeSpec,
    [second_call_is_missed] and [direct_call_reads_closed_region].  Summaries are
    those the analysis computes; they are looked up at the position of the argument
    also for a function that takes itself first ([summary_is_shifted]). *)
Theorem promoted_is_confined f ctx m f' m' b v r k ops :
  well_formed f 0 -> ssa f -> forallb followed (blocks f) = true -> optimize_regions (E := E) f ctx m = Ok (f', m') ->
  b ∈ blocks f' -> IRegionAlloc v r k ops ∈ insts b -> next_var f <= r ->
  exists T : gset VarId, v ∈ T /\ forall x b, x ∈ T -> b ∈ blocks f ->
    (forall i, i ∈ block_insts b -> x ∈ uses i -> stays_within (E := E) f ctx T x i) /\ leaves_within f T x (terminator b).
Proof.
  intros Hwf Hssa Hfol Ho Hb Hi Hr. destruct (promoted_confined f ctx m f' m' b v r k ops Hwf Hssa Ho Hb Hi Hr) as (T & Hv & HT).
  exists T. split; [done|]. intros x b0 Hx Hb0. rewrite forallb_forall in Hfol. specialize (Hfol b0 (proj1 (list_elem_of_In _ _) Hb0)).
  assert (Hc : forall kd, (x, kd) ∈ block_uses b0 -> confined (fn_summary (E := E) ctx) f ctx (Some (build_var_defs f)) (fun y => y ∈ T) x (mkUse (block_id b0) kd)).
  { intros kd Hkd. apply HT; [done|]. apply use_chains_spec. by exists b0, kd. }
  split; [|apply (confined_leaves (E := E) f ctx T x b0 (wf_ids _ _ Hwf) Hb0); intros kd Hkd; apply Hc; unfold block_uses; set_solver].
  intros i Hi0 Hu. apply (confined_stays f ctx T x b0 i (wf_ids _ _ Hwf) Hb0 Hfol Hi0 Hu). intros kd Hkd. apply Hc, elem_of_app. left. apply list_elem_of_bind. by exists i.
Qed.

End Theorems.
