(* ===== verification/RegionalizeSpec.v ===== *)
(** The optimizer: it ends, the allocations it moves together with a returned one
    are held by it alone, and the region of a whole function is opened and closed
    once; with the runs where the regions it emits are wrong. *)
From stdpp Require Import strings gmap.
From S2P Require Import Prelude RustStd Token Ir Reloop ReloopSem ReloopGraph IrInterp Osr OsrSem OsrSpec Inline InlineSem Escape RegionOpt Regionalize RegionOptSpec.
Local Open Scope Z_scope.

(** * The passes end *)

Section Ends.
Context {E : Type} {HO : HashOrder}.



(** The operands of the containers that are not visited yet. *)
Definition operand_work (defs : gmap VarId Inst) (visited : gset VarId) : nat := unvisited (fun i => length (alloc_operands i)) (map_to_list defs) visited.

Lemma operand_work_all defs : operand_work defs ∅ = map_fold (fun _ i n => (length (alloc_operands i) + n)%nat) 0%nat defs.
Proof.
  unfold operand_work. rewrite unvisited_all, map_fold_foldr. induction (map_to_list defs) as [|[x i] l IH]; [done|].
  cbn [sum_list_with foldr uncurry fst snd]. by rewrite IH.
Qed.

Lemma deep_operand_length defs uses ct visited ops d :
  (length (dp_worklist (fold_left (deep_operand defs uses ct visited) ops d)) <= length ops + length (dp_worklist d))%nat.
Proof.
  revert d. induction ops as [|op ops IH]; intros d; [done|]. cbn [fold_left length]. specialize (IH (deep_operand defs uses ct visited d op)).
  assert (length (dp_worklist (deep_operand defs uses ct visited d op)) <= S (length (dp_worklist d)))%nat; [|lia]. unfold deep_operand. repeat case_match; cbn; lia.
Qed.

Lemma deep_loop_total fuel defs uses ct visited d :
  (length (dp_worklist d) + operand_work defs visited < fuel)%nat -> exists r, deep_loop (E := E) fuel defs uses ct visited d = Ok r.
Proof.
  revert visited d. induction fuel as [|fuel IH]; intros visited d Hf; [lia|]. cbn [deep_loop]. destruct (dp_worklist d) as [|c wl] eqn:Hw; [eauto|]. cbn in Hf.
  case_decide as Hc; [apply IH; cbn; lia|]. destruct (defs !! c) as [i|] eqn:Hi.
  - apply IH. pose proof (deep_operand_length defs uses ct ({[c]} ∪ visited) (alloc_operands i) (mkDeep wl (dp_collected d) (dp_result d))) as Hl. cbn [dp_worklist] in Hl.
    pose proof (unvisited_visit (fun i => length (alloc_operands i)) (map_to_list defs) visited (c, i)) as Ho. cbn [fst snd] in Ho.
    specialize (Ho ltac:(by apply elem_of_map_to_list) Hc). unfold operand_work in *. lia.
  - apply IH. cbn [dp_worklist]. pose proof (unvisited_mono (fun i => length (alloc_operands i)) (map_to_list defs) visited ({[c]} ∪ visited) ltac:(set_solver)). unfold operand_work in *. lia.
Qed.

Lemma deep_total callee shallow : exists r, deep_returns_allocs (E := E) callee shallow = Ok r.
Proof.
  apply deep_loop_total. cbn [dp_worklist]. rewrite length_reverse, (Permutation_length (order_elements shallow)). unfold deep_fuel. rewrite operand_work_all. change (length (elements shallow)) with (size shallow). lia.
Qed.





















End Ends.






(** * Allocations held by a returned one *)

Definition stores (callee : IrFunction) (c op : VarId) : Prop :=
  exists b i, b ∈ blocks callee /\ i ∈ block_insts b /\ is_Some (alloc_to_region_kind i) /\ dst i = Some c /\ op ∈ alloc_operands i.

Lemma add_operands_in d ops (m : gmap VarId (list VarId)) op c :
  c ∈ default [] (fold_left (fun m op => <[op := default [] (m !! op) ++ [d]]> m) ops m !! op) <-> c ∈ default [] (m !! op) \/ (c = d /\ op ∈ ops).
Proof.
  revert m. induction ops as [|o ops IH]; intros m; cbn [fold_left]; [set_solver|]. rewrite IH, lookup_insert. case_decide as Ho; [subst o|].
  - cbn. rewrite elem_of_app, list_elem_of_singleton, elem_of_cons. naive_solver.
  - rewrite elem_of_cons. naive_solver.
Qed.

Lemma containment_spec callee c op : c ∈ default [] (build_containment callee !! op) <-> stores callee c op.
Proof.
  unfold build_containment, stores. transitivity (c ∈ default [] ((∅ : gmap VarId (list VarId)) !! op) \/
    exists i, i ∈ (blocks callee ≫= block_insts) /\ is_Some (alloc_to_region_kind i) /\ dst i = Some c /\ op ∈ alloc_operands i).
  - generalize (∅ : gmap VarId (list VarId)). induction (blocks callee ≫= block_insts) as [|i l IH]; intros m; cbn [fold_left]; [set_solver|]. rewrite IH. setoid_rewrite elem_of_cons.
    assert (Ha : c ∈ default [] (add_container m i !! op) <-> c ∈ default [] (m !! op) \/ (is_Some (alloc_to_region_kind i) /\ dst i = Some c /\ op ∈ alloc_operands i)).
    { unfold add_container. destruct (alloc_to_region_kind i); [|split; [by left|intros [?|[[? ?] _]]; done]]. destruct (dst i); [|split; [by left|intros [?|(_ & ? & _)]; done]].
      rewrite add_operands_in. split; [intros [?|[-> ?]]; eauto|intros [?|(_ & [= ->] & ?)]; eauto]. }
    rewrite Ha. naive_solver.
  - rewrite lookup_empty. setoid_rewrite list_elem_of_bind. cbn. split; [intros [H%elem_of_nil|(i & (b & H1 & H2) & H3)]; [done|naive_solver]|]. intros (b & i & H1 & H2 & H3). right. exists i. eauto.
Qed.

(** What is collected so far is held by what is collected. *)
Record deep_inv (callee : IrFunction) (shallow : gset VarId) (d : Deep) : Prop := {
  dv_collected : dp_collected d = shallow ∪ dp_result d;
  dv_held op : op ∈ dp_result d ->
    (forall u, u ∈ default [] (build_use_chains callee !! op) -> use_kind u = UStoredInHeap) /\ (forall c, stores callee c op -> c ∈ dp_collected d) /\
    promotable_alloc (build_var_defs callee) op = true
}.

Lemma only_contained_spec callee collected op :
  only_contained (build_use_chains callee) (build_containment callee) collected op = true ->
  (forall u, u ∈ default [] (build_use_chains callee !! op) -> use_kind u = UStoredInHeap) /\ (forall c, stores callee c op -> c ∈ collected).
Proof.
  unfold only_contained. destruct (build_use_chains callee !! op) as [[|u us]|]; [done| |done]. intros [H1 H2]%andb_prop. split.
  - intros u' Hu. rewrite forallb_forall in H1. cbn in Hu. apply list_elem_of_In in Hu. specialize (H1 u' Hu). unfold is_stored in H1. by destruct (use_kind u').
  - intros c Hc. apply containment_spec in Hc. destruct (build_containment callee !! op) as [cs|]; [|done]. cbn in Hc. rewrite forallb_forall in H2.
    apply list_elem_of_In, H2 in Hc. by apply bool_decide_eq_true in Hc.
Qed.

Lemma deep_operand_inv callee shallow visited d op :
  deep_inv callee shallow d -> deep_inv callee shallow (deep_operand (build_var_defs callee) (build_use_chains callee) (build_containment callee) visited d op).
Proof.
  intros HI. unfold deep_operand. destruct (promotable_alloc (build_var_defs callee) op) eqn:Hp; [cbn [negb]|done]. case_decide as Hc; [case_decide; [done|]; split; apply HI|].
  destruct (only_contained _ _ _ _) eqn:Ho; [|done]. apply only_contained_spec in Ho as [H1 H2]. split; cbn [dp_collected dp_result].
  - rewrite (dv_collected _ _ _ HI). set_solver.
  - intros x Hx. apply elem_of_union in Hx as [->%elem_of_singleton|Hx]; [split_and!; [done|set_solver|done]|].
    destruct (dv_held _ _ _ HI x Hx) as (I1 & I2 & I3). split_and!; [done|set_solver|done].
Qed.

Lemma deep_loop_inv {E : Type} callee shallow fuel visited d r :
  deep_inv callee shallow d -> deep_loop (E := E) fuel (build_var_defs callee) (build_use_chains callee) (build_containment callee) visited d = Ok r ->
  exists d', r = dp_result d' /\ deep_inv callee shallow d'.
Proof.
  revert visited d. induction fuel as [|fuel IH]; intros visited d HI Hr; [done|]. cbn [deep_loop] in Hr. destruct (dp_worklist d) as [|c wl] eqn:Hw; [injection Hr as <-; by exists d|].
  assert (HI' : deep_inv callee shallow (mkDeep wl (dp_collected d) (dp_result d))) by (split; apply HI).
  case_decide; [by eapply IH|]. destruct (build_var_defs callee !! c) as [i|]; [|by eapply IH]. eapply IH; [|exact Hr].
  clear Hr. revert HI'. generalize (mkDeep wl (dp_collected d) (dp_result d)). induction (alloc_operands i) as [|op ops IHo]; intros d' HI'; [done|]. cbn [fold_left]. apply IHo. by apply deep_operand_inv.
Qed.

(** * The region of a function *)

Definition returns_at (f : IrFunction) (b : BlockId) : bool :=
  match find_block f b with Some blk => match terminator blk with Return _ => true | _ => false end | None => false end.

Definition wrap_block (r : VarId) (b : Block) : Block :=
  set_insts b ((if block_id b =? 0 then [IRegionStart r] else []) ++ insts b ++ (match terminator b with Return _ => [IRegionEnd r] | _ => [] end)).

Lemma wrap_block_plain r bs : 0 ∉ map block_id bs -> map (end_return r) bs = map (wrap_block r) bs.
Proof.
  intros H0. apply map_ext_in. intros b Hb%list_elem_of_In. unfold wrap_block. rewrite (proj2 (Z.eqb_neq (block_id b) 0)).
  - unfold end_return, set_insts. destruct b as [id ps is_ t]. destruct t; cbn; by rewrite ?app_nil_r.
  - intros He. apply H0. rewrite <- He. by apply list_elem_of_fmap_2.
Qed.

Lemma wrap_blocks f r : well_formed f 0 -> map (end_return r) (start_first r (blocks f)) = map (wrap_block r) (blocks f).
Proof.
  intros [Hnd (b0 & rest & Hb & H0) _]. unfold ids in Hnd. rewrite Hb in *. cbn in Hnd. apply NoDup_cons in Hnd as [Hn _]. cbn [start_first map]. f_equal.
  - unfold wrap_block, end_return, set_insts. cbn [terminator]. rewrite H0, Z.eqb_refl. destruct (terminator b0); cbn; rewrite ?app_nil_r; by rewrite ?H0.
  - apply wrap_block_plain. by rewrite <- H0.
Qed.

Lemma find_block_wrap f b : well_formed f 0 -> find_block (wrap_function_region f) b = wrap_block (next_var f) <$> find_block f b.
Proof.
  intros Hwf. unfold find_block, wrap_function_region. cbn. rewrite wrap_blocks by done. induction (blocks f) as [|c l IH]; [done|]. cbn [map find wrap_block set_insts block_id]. by destruct (block_id c =? b).
Qed.

Lemma wrap_same_graph f : well_formed f 0 -> same_graph f (wrap_function_region f).
Proof. intros Hwf. unfold same_graph, wrap_function_region. cbn. rewrite wrap_blocks by done. rewrite map_map. by apply map_ext. Qed.

Lemma trace_nil f : trace f [] = [].
Proof. done. Qed.

Lemma trace_cons f b q : trace f (b :: q) = trace f q ++ from_option insts [] (find_block f b).
Proof. unfold trace. rewrite reverse_cons, bind_app, bind_singleton. done. Qed.

Lemma find_block_in f b : well_formed f 0 -> b ∈ ids f -> exists blk, find_block f b = Some blk /\ blk ∈ blocks f /\ block_id blk = b.
Proof.
  intros Hwf Hb. apply list_elem_of_fmap in Hb as (blk & -> & Hin). unfold find_block. destruct (find _ _) as [c|] eqn:Hf.
  - apply find_some in Hf as [Hc He]. apply Z.eqb_eq in He. rewrite <- list_elem_of_In in Hc. by exists c.
  - apply list_elem_of_In, (find_none _ _ Hf) in Hin. by rewrite Z.eqb_refl in Hin.
Qed.

Lemma succ_not_return f b s : well_formed f 0 -> succ f b s -> returns_at f b = false.
Proof.
  intros Hwf (t & (blk & Hin & <- & <-) & Hs). unfold returns_at. destruct (find_block_in f (block_id blk) Hwf) as (c & -> & Hc & He); [by apply list_elem_of_fmap_2|].
  rewrite (block_unique f c blk (wf_ids _ _ Hwf) Hc Hin He). destruct (terminator blk); try done. by apply elem_of_nil in Hs.
Qed.

Lemma wrap_insts f b : well_formed f 0 -> b ∈ ids f ->
  from_option insts [] (find_block (wrap_function_region f) b) =
    (if b =? 0 then [IRegionStart (next_var f)] else []) ++ from_option insts [] (find_block f b) ++ (if returns_at f b then [IRegionEnd (next_var f)] else []).
Proof.
  intros Hwf Hb. rewrite find_block_wrap by done. unfold returns_at. destruct (find_block_in f b Hwf Hb) as (blk & -> & _ & <-). cbn. by destruct (terminator blk).
Qed.

Lemma wrapped_trace f p u : well_formed f 0 -> (forall b, ~ succ f b 0) -> path f 0 p u ->
  trace (wrap_function_region f) p = IRegionStart (next_var f) :: trace f p ++ (if returns_at f u then [IRegionEnd (next_var f)] else []).
Proof.
  intros Hwf Hno. induction 1 as [|p b s Hp IH Hs].
  - rewrite !trace_cons, !trace_nil, wrap_insts by (done || by apply entry_in_ids). done.
  - rewrite !trace_cons, IH, wrap_insts by (try done; by apply (wf_targets _ _ Hwf b)). rewrite (succ_not_return f b s Hwf Hs), app_nil_r.
    rewrite (proj2 (Z.eqb_neq s 0)) by (intros ->; by apply (Hno b)). cbn [app]. by rewrite app_assoc.
Qed.

(** An instruction that stores a value, and does nothing else with it, makes a
    collection that holds it. *)
Lemma stored_use_makes x i :
  (exists k, (x, k) ∈ inst_uses i) -> (forall k, (x, k) ∈ inst_uses i -> k = UStoredInHeap) ->
  (exists c, dst i = Some c /\ is_Some (alloc_to_region_kind i) /\ x ∈ alloc_operands i) \/ (exists c r k ops, i = IRegionAlloc c r k ops).
Proof.
  intros [k Hin] Hk. pose proof (Hk k Hin) as ->. clear Hk. destruct i; cbn [inst_uses] in Hin; try (by apply elem_of_nil in Hin); try (by right; eauto).
  all: try (apply list_elem_of_fmap in Hin as (y & [= ->] & Hy)); try (apply elem_of_lookup_imap in Hin as (n & a & [=] & _)).
  all: try (left; eexists; split_and!; [done|done|done]).
  all: try (repeat (apply elem_of_cons in Hin as [[=]|Hin]); subst; try (by apply elem_of_nil in Hin); try (apply elem_of_lookup_imap in Hin as (n & a & [=] & _))).
  all: left; eexists; split_and!; [done|done|cbn; set_solver].
Qed.

Lemma term_use_not_stored x t : x ∈ map fst (Escape.term_uses t) -> ~ (forall k, (x, k) ∈ Escape.term_uses t -> k = UStoredInHeap).
Proof.
  intros Hx Hk. apply list_elem_of_fmap in Hx as ([y k] & -> & Hin). cbn [fst] in Hk. specialize (Hk k Hin). subst k.
  destruct t; cbn in Hin; try (by apply elem_of_nil in Hin); try (by apply list_elem_of_singleton in Hin). by apply list_elem_of_fmap in Hin as (? & ? & _).
Qed.

(** * The theorems *)

Section Theorems.
Context {E : Type} {HO : HashOrder}.


Lemma deep_returns_held callee shallow :
  exists result, deep_returns_allocs (E := E) callee shallow = Ok result /\
    forall op, op ∈ result ->
      promotable_alloc (build_var_defs callee) op = true /\
      (forall u, u ∈ default [] (build_use_chains callee !! op) -> use_kind u = UStoredInHeap) /\
      (forall b i c, b ∈ blocks callee -> i ∈ block_insts b -> is_Some (alloc_to_region_kind i) -> dst i = Some c -> op ∈ alloc_operands i ->
        c ∈ shallow \/ c ∈ result).
Proof.
  destruct (deep_total (E := E) callee shallow) as [r Hr]. exists r. split; [done|]. apply (deep_loop_inv callee shallow) in Hr as (d & -> & HI); [|by split; [set_solver|]].
  intros op Hop. destruct (dv_held _ _ _ HI op Hop) as (H1 & H2 & H3). split_and!; [done|done|]. intros b i c Hb Hi Hk Hd Ho.
  assert (Hc : c ∈ dp_collected d) by (apply H2; by exists b, i). rewrite (dv_collected _ _ _ HI) in Hc. set_solver.
Qed.

(** C20: the allocations that are moved into the caller's region together with the
    ones a callee returns are held by them alone.  The search for them ends; each is
    an allocation that can be moved; no terminator reads it; and each instruction
    that reads it, and whose reads the analysis records, makes a collection that is
    a returned allocation or is moved too, or makes one in a region of the callee.
    The last are not looked at: such a collection need not be returned or moved, as
    it is gone before the caller's region ends ([local_container_is_not_looked_at]).
    Reads that are not recorded are those of direct calls, awaits, spawns, channel
    operations, calls with a region and ends of regions; a direct call may keep the
    allocation ([direct_call_is_missed]). *)
Theorem deep_allocs_are_contained callee shallow :
  exists result, deep_returns_allocs (E := E) callee shallow = Ok result /\
    forall op, op ∈ result ->
      promotable_alloc (build_var_defs callee) op = true /\
      forall b, b ∈ blocks callee ->
        (op ∉ map fst (Escape.term_uses (terminator b))) /\
        forall i, i ∈ block_insts b -> op ∈ uses i -> recorded i = true ->
          (exists c, dst i = Some c /\ is_Some (alloc_to_region_kind i) /\ (c ∈ shallow \/ c ∈ result)) \/
          (exists c r k ops, i = IRegionAlloc c r k ops).
Proof.
  destruct (deep_returns_held callee shallow) as (result & Hr & Hres). exists result. split; [done|]. intros op Hop.
  destruct (Hres op Hop) as (H1 & H2 & H3). split; [done|]. intros b Hb.
  assert (Hk : forall k, (op, k) ∈ block_uses b -> k = UStoredInHeap).
  { intros k Hk. apply (H2 (mkUse (block_id b) k)), use_chains_spec. by exists b, k. }
  split.
  - intros Ht. apply (term_use_not_stored op (terminator b) Ht). intros k Hin. apply Hk. unfold block_uses. set_solver.
  - intros i Hi Hu Hrec. apply recorded_use in Hu; [|done]. destruct (stored_use_makes op i Hu) as [(c & Hd & Ha & Ho)|Hra]; [|left|by right].
    + intros k Hin. apply Hk, elem_of_app. left. apply list_elem_of_bind. by exists i.
    + exists c. split_and!; [done|done|]. by apply (H3 b i).
Qed.

(** The region of a whole function is started once, before everything else the
    function does, and ended once, after everything else, on every path from the
    entry to a return; nothing else is changed.  The entry block is not the target
    of an edge. *)
Theorem function_region_balanced f p u :
  well_formed f 0 -> (forall b, ~ succ f b 0) -> path (wrap_function_region f) 0 p u ->
  trace (wrap_function_region f) p = IRegionStart (next_var f) :: trace f p ++ (if returns_at f u then [IRegionEnd (next_var f)] else []).
Proof.
  intros Hwf Hno Hp. apply wrapped_trace; [done|done|]. eapply same_graph_path; [apply same_graph_sym, wrap_same_graph|]; done.
Qed.

End Theorems.

(** * Examples *)

Definition graph_ok (f : IrFunction) : bool :=
  bool_decide (NoDup (ids f) /\ head (ids f) = Some 0 /\ Forall (fun b => Forall (fun s => s ∈ ids f) (block_successors b)) (blocks f)).

Lemma graph_ok_well_formed f : graph_ok f = true -> well_formed f 0.
Proof.
  intros (H1 & H2 & H3)%bool_decide_eq_true. split; [done| |].
  - unfold ids in H2. destruct (blocks f) as [|b0 rest]; [done|]. injection H2 as H2. by exists b0, rest.
  - intros b s (t & (blk & Hin & <- & <-) & Hs). rewrite Forall_forall in H3. specialize (H3 blk Hin). rewrite Forall_forall in H3. by apply H3.
Qed.

Definition rises (rank : BlockId -> nat) (f : IrFunction) : bool :=
  forallb (fun b => forallb (fun s => (rank (block_id b) <? rank s)%nat) (block_successors b)) (blocks f).

Lemma rises_loop_free rank f : rises rank f = true -> loop_free f.
Proof.
  unfold rises. rewrite forallb_forall. intros Hr. exists rank. intros b s _ (t & (blk & Hin & <- & <-) & Hs). specialize (Hr blk (proj1 (list_elem_of_In _ _) Hin)).
  rewrite forallb_forall in Hr. specialize (Hr s (proj1 (list_elem_of_In _ _) Hs)). by apply Nat.ltb_lt.
Qed.

Definition all_recorded (f : IrFunction) : bool := forallb (fun b => forallb recorded (insts b)) (blocks f).

Lemma all_recorded_spec f b i : all_recorded f = true -> b ∈ blocks f -> i ∈ insts b -> recorded i = true.
Proof.
  unfold all_recorded. rewrite forallb_forall. intros Hr Hb Hi. specialize (Hr b (proj1 (list_elem_of_In _ _) Hb)). rewrite forallb_forall in Hr. apply Hr. by apply list_elem_of_In.
Qed.

Definition no_entry_edge (f : IrFunction) : bool := forallb (fun b => negb (bool_decide (0 ∈ block_successors b))) (blocks f).

Lemma no_entry_edge_spec f b : no_entry_edge f = true -> ~ succ f b 0.
Proof.
  unfold no_entry_edge. rewrite forallb_forall. intros Hr (t & (blk & Hin & <- & <-) & Hs). specialize (Hr blk (proj1 (list_elem_of_In _ _) Hin)).
  apply negb_true_iff, bool_decide_eq_false in Hr. by apply Hr.
Qed.

Definition edge_b (f : IrFunction) (b s : BlockId) : bool := existsb (fun blk => (block_id blk =? b) && bool_decide (s ∈ block_successors blk)) (blocks f).

Fixpoint path_b (f : IrFunction) (p : list BlockId) : bool :=
  match p with
  | [] => false
  | x :: p' => match p' with [] => x =? 0 | y :: _ => edge_b f y x && path_b f p' end
  end.

Lemma path_b_path f u q : path_b f (u :: q) = true -> path f 0 (u :: q) u.
Proof.
  revert u. induction q as [|y q IH]; intros u Hp; cbn [path_b] in Hp; [apply Z.eqb_eq in Hp as ->; constructor|]. apply andb_prop in Hp as [He Hp].
  apply (path_step f 0 (y :: q) y); [by apply IH|]. apply existsb_exists in He as (blk & Hin & [Hid Hs]%andb_prop). apply Z.eqb_eq in Hid. apply bool_decide_eq_true in Hs.
  exists (terminator blk). split; [exists blk; by rewrite list_elem_of_In|done].
Qed.

#[local] Instance sorted_order : HashOrder := {| order := elements; order_elements s := reflexivity _ |}.

Definition sample (nv nb : Z) (bs : list Block) : IrFunction := mkIrFunction None [] bs nv nb None [] false false [] [] [].

Definition promoted (f : IrFunction) : IrFunction * EscapeMemo :=
  match optimize_regions (E := unit) f None no_memo with Ok r => r | _ => (f, no_memo) end.

(** [(let [v [1]] (if true (count v) 0))] *)
Definition diamond : IrFunction :=
  sample 6 4 [mkBlock 0 [] [IConst 0 (CLong 1); IAllocVector 1 [0]; IConst 2 (CBool true)] (Branch 2 1 2);
    mkBlock 1 [] [ICallKnown 3 KCount [1]] (Jump 3);
    mkBlock 2 [] [IConst 4 (CLong 0)] (Jump 3);
    mkBlock 3 [IPhi 5 [(1, 3); (2, 4)]] [] (Return 5)].

Example diamond_promoted :
  map insts (blocks (promoted diamond).1) =
    [[IRegionStart 6; IConst 0 (CLong 1); IRegionAlloc 1 6 RkVector [0]; IConst 2 (CBool true)]; [ICallKnown 3 KCount [1]]; [IConst 4 (CLong 0)]; [IRegionEnd 6]].
Proof. vm_compute. reflexivity. Qed.

(** The theorem at work. *)
Lemma region_open_at_uses_witness : regions_open diamond (promoted diamond).1.
Proof.
  apply (region_open_at_uses (E := unit) diamond None no_memo (promoted diamond).1 (promoted diamond).2).
  - apply graph_ok_well_formed. vm_compute. reflexivity.
  - refine (bool_decide_unpack _ _). vm_compute. exact I.
  - intros b i. apply all_recorded_spec. vm_compute. reflexivity.
  - apply (rises_loop_free Z.to_nat). vm_compute. reflexivity.
  - vm_compute. reflexivity.
Defined.

Lemma promoted_is_confined_witness :
  exists T : gset VarId, 1 ∈ T /\ forall x b, x ∈ T -> b ∈ blocks diamond ->
    (forall i, i ∈ block_insts b -> x ∈ uses i -> stays_within (E := unit) diamond None T x i) /\ leaves_within diamond T x (terminator b).
Proof.
  apply (promoted_is_confined (E := unit) diamond None no_memo (promoted diamond).1 (promoted diamond).2
    (mkBlock 0 [] [IRegionStart 6; IConst 0 (CLong 1); IRegionAlloc 1 6 RkVector [0]; IConst 2 (CBool true)] (Branch 2 1 2)) 1 6 RkVector [0]).
  - apply graph_ok_well_formed. vm_compute. reflexivity.
  - refine (bool_decide_unpack _ _). vm_compute. exact I.
  - vm_compute. reflexivity.
  - vm_compute. reflexivity.
  - vm_compute. apply elem_of_cons. by left.
  - apply elem_of_cons. right. apply elem_of_cons. right. apply elem_of_cons. by left.
  - cbn. lia.
Defined.

Lemma function_region_balanced_witness :
  trace (wrap_function_region diamond) [3; 1; 0] = IRegionStart 6 :: trace diamond [3; 1; 0] ++ [IRegionEnd 6].
Proof.
  apply (function_region_balanced diamond [3; 1; 0] 3).
  - apply graph_ok_well_formed. vm_compute. reflexivity.
  - intros b. apply no_entry_edge_spec. vm_compute. reflexivity.
  - apply path_b_path. vm_compute. reflexivity.
Defined.


(** * Regions that are wrong *)

(** The loop [(let [v [1]] (loop [i 0] (if (< i (count v)) (recur (+ i 1)) i)))]. *)
Definition counting_loop : IrFunction :=
  sample 8 4 [mkBlock 0 [] [IConst 0 (CLong 1); IAllocVector 1 [0]; IConst 2 (CLong 0)] (Jump 1);
    mkBlock 1 [IPhi 3 [(0, 2); (2, 6)]] [ICallKnown 4 KCount [1]; ICallKnown 5 KLt [3; 4]] (Branch 5 2 3);
    mkBlock 2 [] [ICallKnown 6 KAdd [3; 0]] (RecurJump 1 [6]);
    mkBlock 3 [] [] (Return 3)].

(** The loop goes back from a block outside the region: the region is ended in the
    header, and the vector is counted again in the second round. *)
Theorem loop_reads_closed_region :
  let g := (promoted counting_loop).1 in
  optimize_regions (E := unit) counting_loop None no_memo = Ok (promoted counting_loop) /\
  path g 0 [1; 2; 1; 0] 1 /\ find_block g 1 = Some (mkBlock 1 [IPhi 3 [(0, 2); (2, 6)]] [ICallKnown 4 KCount [1]; ICallKnown 5 KLt [3; 4]; IRegionEnd 8] (Branch 5 2 3)) /\
  trace g [2; 1; 0] = [IRegionStart 8; IConst 0 (CLong 1); IRegionAlloc 1 8 RkVector [0]; IConst 2 (CLong 0); ICallKnown 4 KCount [1]; ICallKnown 5 KLt [3; 4];
    IRegionEnd 8; ICallKnown 6 KAdd [3; 0]] /\
  region_open 8 (trace g [2; 1; 0]) = false.
Proof.
  split_and!; [vm_compute; reflexivity|apply path_b_path; vm_compute; reflexivity|vm_compute; reflexivity|vm_compute; reflexivity|vm_compute; reflexivity].
Qed.

(** A vector that is counted in the block that makes another one, which is counted
    in the next. *)
Definition two_vectors : IrFunction :=
  sample 5 3 [mkBlock 0 [] [IConst 0 (CLong 1); IAllocVector 1 [0]] (Jump 1);
    mkBlock 1 [] [IAllocVector 2 [0]; ICallKnown 3 KCount [1]] (Jump 2);
    mkBlock 2 [] [ICallKnown 4 KCount [2]] (Return 4)].

(** The first region is ended while the second, started later, is open. *)
Theorem regions_cross :
  trace (promoted two_vectors).1 [2; 1; 0] =
    [IRegionStart 6; IConst 0 (CLong 1); IRegionAlloc 1 6 RkVector [0]; IRegionStart 5; IRegionAlloc 2 5 RkVector [0]; ICallKnown 3 KCount [1];
     IRegionEnd 6; ICallKnown 4 KCount [2]; IRegionEnd 5].
Proof. vm_compute. reflexivity. Qed.

(** The region of a value that a branch tests is ended before the branch. *)
Theorem branch_tests_closed_region :
  (promoted (sample 4 3 [mkBlock 0 [] [IConst 0 (CLong 1); IAllocVector 1 [0]] (Branch 1 1 2);
    mkBlock 1 [] [IConst 2 (CLong 0)] (Return 2); mkBlock 2 [] [IConst 3 (CLong 1)] (Return 3)])).1 =
  sample 5 3 [mkBlock 0 [] [IRegionStart 4; IConst 0 (CLong 1); IRegionAlloc 1 4 RkVector [0]; IRegionEnd 4] (Branch 1 1 2);
    mkBlock 1 [] [IConst 2 (CLong 0)] (Return 2); mkBlock 2 [] [IConst 3 (CLong 1)] (Return 3)].
Proof. vm_compute. reflexivity. Qed.

Definition identity_fn : IrFunction := mkIrFunction (Some (lit "i"%string)) [(lit "x"%string, 0)] [mkBlock 0 [] [] (Return 0)] 1 1 None [] false false [] [] [].

Definition identity_closure : Inst := IAllocClosure 2 (mkClosureTemplate None [lit "i"%string] [1%nat] [false] []) [].

(** A vector that goes through a function that returns its argument. *)
Definition through_identity : IrFunction :=
  mkIrFunction None []
    [mkBlock 0 [] [IConst 0 (CLong 1); IAllocVector 1 [0]; identity_closure; ICall 3 2 [1]] (Jump 1);
     mkBlock 1 [] [ICallKnown 4 KCount [3]] (Return 4)] 5 2 None [identity_fn] false false [] [] [].

(** Its region is ended before the result of the call, which is the vector, is
    counted. *)
Theorem call_result_outlives_region :
  exists g m, optimize_tree (E := unit) (make_context_with_externals through_identity []) through_identity no_memo = Ok (g, m) /\
    map insts (blocks g) = [[IRegionStart 5; IConst 0 (CLong 1); IRegionAlloc 1 5 RkVector [0]; identity_closure; ICall 3 2 [1]; IRegionEnd 5]; [ICallKnown 4 KCount [3]]].
Proof. eexists _, _. split; [vm_compute; reflexivity|]. vm_compute. reflexivity. Qed.

(** The same function as one that takes itself before its argument, as named
    functions do. *)
Definition named_identity : IrFunction :=
  mkIrFunction (Some (lit "i"%string)) [(lit "i"%string, 0); (lit "x"%string, 1)] [mkBlock 0 [] [] (Return 1)] 2 1 None [] false false [] [] [].

Definition returned_vector : IrFunction :=
  mkIrFunction None [] [mkBlock 0 [] [IConst 0 (CLong 1); IAllocVector 1 [0]; identity_closure; ICall 3 2 [1]] (Return 3)] 4 1 None [named_identity] false false [] [] [].

(** The state of the first parameter is taken for the first argument: the vector
    that is returned through the call is put in a region that ends before the
    return. *)
Theorem summary_is_shifted :
  compute_fn_summary (E := unit) 2 (make_context_with_externals returned_vector []) named_identity no_memo =
    Ok ([NoEscape; Returns], mkMemo {[lit "i"%string := [NoEscape; Returns]]} ∅ ∅) /\
  exists g m, optimize_tree (E := unit) (make_context_with_externals returned_vector []) returned_vector no_memo = Ok (g, m) /\
    blocks g = [mkBlock 0 [] [IRegionStart 4; IConst 0 (CLong 1); IRegionAlloc 1 4 RkVector [0]; identity_closure; ICall 3 2 [1]; IRegionEnd 4] (Return 3)].
Proof. split; [vm_compute; reflexivity|]. eexists _, _. split; [vm_compute; reflexivity|]. vm_compute. reflexivity. Qed.

(** [(defn f [x y] [[x] y])]: the inner vector is held by the returned one alone. *)
Example nested_vector_is_moved :
  deep_returns_allocs (E := unit) (sample 4 1 [mkBlock 0 [] [IAllocVector 2 [0]; IAllocVector 3 [2; 1]] (Return 3)]) {[3]} = Ok {[2]}.
Proof. vm_compute. reflexivity. Qed.

(** A vector is passed to the same function twice, and the second result is
    returned. *)
Definition called_twice : IrFunction :=
  mkIrFunction None [] [mkBlock 0 [] [IConst 0 (CLong 1); IAllocVector 1 [0]; identity_closure; ICall 3 2 [1]; ICall 4 2 [1]] (Return 4)] 5 1 None [identity_fn] false false [] [] [].

(** Both uses are taken for the first call, and the vector is put in a region that
    ends before it is returned. *)
Theorem second_call_is_missed :
  exists g m, optimize_tree (E := unit) (make_context_with_externals called_twice []) called_twice no_memo = Ok (g, m) /\
    blocks g = [mkBlock 0 [] [IRegionStart 5; IConst 0 (CLong 1); IRegionAlloc 1 5 RkVector [0]; identity_closure; ICall 3 2 [1]; ICall 4 2 [1]; IRegionEnd 5] (Return 4)].
Proof. eexists _, _. split; [vm_compute; reflexivity|]. vm_compute. reflexivity. Qed.

(** [op] is also held by a vector in a region of the callee. *)
Definition local_container : IrFunction :=
  sample 6 1 [mkBlock 0 [] [IRegionStart 1; IAllocVector 2 [0]; IRegionAlloc 3 1 RkVector [2]; ICallKnown 4 KCount [3]; IRegionEnd 1; IAllocVector 5 [2]] (Return 5)].

Theorem local_container_is_not_looked_at : deep_returns_allocs (E := unit) local_container {[5]} = Ok {[2]}.
Proof. vm_compute. reflexivity. Qed.

(** A vector that a method call is given: [(let [v [1]] (.keep 1 v) [v])]. *)
Definition direct_call_keeps : IrFunction :=
  sample 4 1 [mkBlock 0 [] [IConst 0 (CLong 1); IAllocVector 1 [0]; ICallDirect 2 (lit ".keep"%string) [0; 1]; IAllocVector 3 [1]] (Return 3)].

(** The method may keep the inner vector, which is moved into the caller's region. *)
Theorem direct_call_is_missed : deep_returns_allocs (E := unit) direct_call_keeps {[3]} = Ok {[1]}.
Proof. vm_compute. reflexivity. Qed.

(** A vector that is counted, and given to a method in the next block. *)
Definition direct_call_reads : IrFunction :=
  sample 5 2 [mkBlock 0 [] [IConst 0 (CLong 1); IAllocVector 1 [0]; ICallKnown 2 KCount [1]] (Jump 1);
    mkBlock 1 [] [ICallDirect 3 (lit ".get"%string) [1; 0]] (Return 3)].

(** The region is ended before the method is called. *)
Theorem direct_call_reads_closed_region :
  trace (promoted direct_call_reads).1 [1; 0] =
    [IRegionStart 5; IConst 0 (CLong 1); IRegionAlloc 1 5 RkVector [0]; ICallKnown 2 KCount [1]; IRegionEnd 5; ICallDirect 3 (lit ".get"%string) [1; 0]].
Proof. vm_compute. reflexivity. Qed.
