(* ===== verification/NativeOps.v ===== *)
(** Arithmetic of compiled code: the runtime bridges on boxed values
    (crates/cljrs-compiler/src/rt_abi.rs) and the machine instructions that
    replace them on unboxed ones.

    The instructions are Cranelift's; [Clif] is what its documentation says of
    the ones the code generator uses. *)
From Stdlib Require Import SpecFloat.
From stdpp Require Import base list.
From S2P Require Import Prelude RustStd Ir.
Local Open Scope Z_scope.

(** * Doubles *)

(** An [f64] up to the payload of NaNs. *)
Abbreviation f64 := spec_float.

Definition f64_add : f64 -> f64 -> f64 := SFadd 53 1024.
Definition f64_sub : f64 -> f64 -> f64 := SFsub 53 1024.
Definition f64_mul : f64 -> f64 -> f64 := SFmul 53 1024.
Definition f64_div : f64 -> f64 -> f64 := SFdiv 53 1024.

(** [n as f64]: to nearest, ties to even. *)
Definition f64_of_i64 (n : Z) : f64 := binary_normalize 53 1024 n 0 false.

(** The remainder of the truncated quotient, which is exact. *)
Definition f64_rem (x y : f64) : f64 :=
  match x, y with
  | S754_nan, _ | _, S754_nan | S754_infinity _, _ | _, S754_zero _ => S754_nan
  | S754_zero s, _ => S754_zero s
  | _, S754_infinity _ => x
  | S754_finite sx mx ex, S754_finite _ my ey =>
      let e := Z.min ex ey in
      let r := (Zpos mx * 2 ^ (ex - e)) mod (Zpos my * 2 ^ (ey - e)) in
      binary_normalize 53 1024 (if sx then - r else r) e sx
  end.

Definition f64_of_bits (bits : Z) : f64 :=
  let s := Z.testbit bits 63 in
  let e := Z.land (Z.shiftr bits 52) 0x7FF in
  let m := bits mod 2 ^ 52 in
  if e =? 0x7FF then if m =? 0 then S754_infinity s else S754_nan
  else if e =? 0 then
    match m with Zpos p => S754_finite s p (-1074) | _ => S754_zero s end
  else match m + 2 ^ 52 with Zpos p => S754_finite s p (e - 1075) | _ => S754_nan end.

(** * Values *)

(** Numbers, booleans and nil; anything else is opaque. *)
Inductive RtValue (X : Type) : Type :=
| VNil
| VBool (b : bool)
| VLong (n : Z)
| VDouble (d : f64)
| VOther (x : X).

Arguments VNil {X}.
Arguments VBool {X} b.
Arguments VLong {X} n.
Arguments VDouble {X} d.
Arguments VOther {X} x.

(** Equality where one of the values is not a scalar. *)
Class OtherEq (X : Type) : Type := other_eq : RtValue X -> RtValue X -> bool.

(** What a bridge does: return a boxed value, raise the overflow exception, or
    panic. *)
Inductive Bridge (X : Type) : Type :=
| BValue (v : RtValue X)
| BOverflow
| BPanic.

Arguments BValue {X} v.
Arguments BOverflow {X}.
Arguments BPanic {X}.

Section Bridges.
Context {X : Type} `{OtherEq X}.
Implicit Types a b : RtValue X.

Definition rt_truthiness a : Z :=
  match a with
  | VNil | VBool false => 0
  | _ => 1
  end.

Definition checked_i64 (n : Z) : Bridge X := if in_range i64_min i64_max n then BValue (VLong n) else BOverflow.

Definition rt_add a b : Bridge X :=
  match a, b with
  | VLong x, VLong y => checked_i64 (x + y)
  | VDouble x, VDouble y => BValue (VDouble (f64_add x y))
  | VLong x, VDouble y => BValue (VDouble (f64_add (f64_of_i64 x) y))
  | VDouble x, VLong y => BValue (VDouble (f64_add x (f64_of_i64 y)))
  | _, _ => BValue VNil
  end.

Definition rt_sub a b : Bridge X :=
  match a, b with
  | VLong x, VLong y => checked_i64 (x - y)
  | VDouble x, VDouble y => BValue (VDouble (f64_sub x y))
  | VLong x, VDouble y => BValue (VDouble (f64_sub (f64_of_i64 x) y))
  | VDouble x, VLong y => BValue (VDouble (f64_sub x (f64_of_i64 y)))
  | _, _ => BValue VNil
  end.

Definition rt_mul a b : Bridge X :=
  match a, b with
  | VLong x, VLong y => checked_i64 (x * y)
  | VDouble x, VDouble y => BValue (VDouble (f64_mul x y))
  | VLong x, VDouble y => BValue (VDouble (f64_mul (f64_of_i64 x) y))
  | VDouble x, VLong y => BValue (VDouble (f64_mul x (f64_of_i64 y)))
  | _, _ => BValue VNil
  end.

Definition rt_unchecked_add a b : Bridge X :=
  match a, b with
  | VLong x, VLong y => BValue (VLong (wrap_i64 (x + y)))
  | VDouble x, VDouble y => BValue (VDouble (f64_add x y))
  | VLong x, VDouble y => BValue (VDouble (f64_add (f64_of_i64 x) y))
  | VDouble x, VLong y => BValue (VDouble (f64_add x (f64_of_i64 y)))
  | _, _ => BValue VNil
  end.

Definition rt_unchecked_sub a b : Bridge X :=
  match a, b with
  | VLong x, VLong y => BValue (VLong (wrap_i64 (x - y)))
  | VDouble x, VDouble y => BValue (VDouble (f64_sub x y))
  | VLong x, VDouble y => BValue (VDouble (f64_sub (f64_of_i64 x) y))
  | VDouble x, VLong y => BValue (VDouble (f64_sub x (f64_of_i64 y)))
  | _, _ => BValue VNil
  end.

Definition rt_unchecked_mul a b : Bridge X :=
  match a, b with
  | VLong x, VLong y => BValue (VLong (wrap_i64 (x * y)))
  | VDouble x, VDouble y => BValue (VDouble (f64_mul x y))
  | VLong x, VDouble y => BValue (VDouble (f64_mul (f64_of_i64 x) y))
  | VDouble x, VLong y => BValue (VDouble (f64_mul x (f64_of_i64 y)))
  | _, _ => BValue VNil
  end.

(** [x / y] on [i64] panics when the quotient does not fit. *)
Definition rt_div a b : Bridge X :=
  match a, b with
  | VLong x, VLong y =>
      if y =? 0 then BValue VNil
      else if in_range i64_min i64_max (Z.quot x y) then BValue (VLong (Z.quot x y)) else BPanic
  | VDouble x, VDouble y => BValue (VDouble (f64_div x y))
  | VLong x, VDouble y => BValue (VDouble (f64_div (f64_of_i64 x) y))
  | VDouble x, VLong y => BValue (VDouble (f64_div x (f64_of_i64 y)))
  | _, _ => BValue VNil
  end.

(** [x % y] panics where [x / y] does. *)
Definition rt_rem a b : Bridge X :=
  match a, b with
  | VLong x, VLong y =>
      if y =? 0 then BValue VNil
      else if in_range i64_min i64_max (Z.quot x y) then BValue (VLong (Z.rem x y)) else BPanic
  | VDouble x, VDouble y => BValue (VDouble (f64_rem x y))
  | _, _ => BValue VNil
  end.

(** [Value::eq] on scalars. *)
Definition value_eq a b : bool :=
  match a, b with
  | VNil, VNil => true
  | VBool x, VBool y => Bool.eqb x y
  | VLong x, VLong y => x =? y
  | VDouble x, VDouble y => SFeqb x y
  | VOther _, _ | _, VOther _ => other_eq a b
  | _, _ => false
  end.

Definition rt_eq a b : Bridge X := BValue (VBool (value_eq a b)).

Definition rt_lt a b : Bridge X :=
  BValue (VBool match a, b with
  | VLong x, VLong y => x <? y
  | VDouble x, VDouble y => SFltb x y
  | VLong x, VDouble y => SFltb (f64_of_i64 x) y
  | VDouble x, VLong y => SFltb x (f64_of_i64 y)
  | _, _ => false
  end).

Definition rt_gt a b : Bridge X :=
  BValue (VBool match a, b with
  | VLong x, VLong y => y <? x
  | VDouble x, VDouble y => SFltb y x
  | VLong x, VDouble y => SFltb y (f64_of_i64 x)
  | VDouble x, VLong y => SFltb (f64_of_i64 y) x
  | _, _ => false
  end).

Definition rt_lte a b : Bridge X :=
  BValue (VBool match a, b with
  | VLong x, VLong y => x <=? y
  | VDouble x, VDouble y => SFleb x y
  | VLong x, VDouble y => SFleb (f64_of_i64 x) y
  | VDouble x, VLong y => SFleb x (f64_of_i64 y)
  | _, _ => false
  end).

Definition rt_gte a b : Bridge X :=
  BValue (VBool match a, b with
  | VLong x, VLong y => y <=? x
  | VDouble x, VDouble y => SFleb y x
  | VLong x, VDouble y => SFleb y (f64_of_i64 x)
  | VDouble x, VLong y => SFleb (f64_of_i64 y) x
  | _, _ => false
  end).

(** The bridges above, by the function they implement. *)
Definition bridge (k : KnownFn) : option (RtValue X -> RtValue X -> Bridge X) :=
  match k with
  | KAdd => Some rt_add
  | KSub => Some rt_sub
  | KMul => Some rt_mul
  | KUncheckedAdd => Some rt_unchecked_add
  | KUncheckedSub => Some rt_unchecked_sub
  | KUncheckedMul => Some rt_unchecked_mul
  | KDiv => Some rt_div
  | KRem => Some rt_rem
  | KEq => Some rt_eq
  | KLt => Some rt_lt
  | KGt => Some rt_gt
  | KLte => Some rt_lte
  | KGte => Some rt_gte
  | _ => None
  end.

(** ** Guards of specialised parameters *)

Definition TAG_OTHER : Z := 0.
Definition TAG_LONG : Z := 1.
Definition TAG_DOUBLE : Z := 2.
Definition TAG_BOOL : Z := 3.
Definition TAG_NIL : Z := 4.

Definition rt_value_tag a : Z :=
  match a with
  | VLong _ => TAG_LONG
  | VDouble _ => TAG_DOUBLE
  | VBool _ => TAG_BOOL
  | VNil => TAG_NIL
  | VOther _ => TAG_OTHER
  end.

Definition rt_unbox_long a : Z := match a with VLong n => n | _ => 0 end.

Definition rt_unbox_double a : f64 := match a with VDouble d => d | _ => S754_zero false end.

Definition rt_box_bool (b : Z) : RtValue X := VBool (negb (b =? 0)).

End Bridges.

(** * Machine instructions *)

Inductive IntCC : Type := Equal | NotEqual | SignedLessThan | SignedGreaterThan | SignedLessThanOrEqual | SignedGreaterThanOrEqual.

Inductive FloatCC : Type := FLessThan | FGreaterThan | FLessThanOrEqual | FGreaterThanOrEqual.

(** Registers of 64 bits hold signed integers. *)
Class Clif : Type := {
  iadd : Z -> Z -> Z;
  isub : Z -> Z -> Z;
  imul : Z -> Z -> Z;
  smulhi : Z -> Z -> Z;
  sshr_imm : Z -> Z -> Z;
  bxor : Z -> Z -> Z;
  band : Z -> Z -> Z;
  icmp : IntCC -> Z -> Z -> bool;
  fadd : f64 -> f64 -> f64;
  fsub : f64 -> f64 -> f64;
  fmul : f64 -> f64 -> f64;
  fdiv : f64 -> f64 -> f64;
  fcvt_from_sint : Z -> f64;
  fcmp : FloatCC -> f64 -> f64 -> bool;
  iadd_wraps a b : is_i64 a -> is_i64 b -> iadd a b = wrap_i64 (a + b);
  isub_wraps a b : is_i64 a -> is_i64 b -> isub a b = wrap_i64 (a - b);
  imul_wraps a b : is_i64 a -> is_i64 b -> imul a b = wrap_i64 (a * b);
  smulhi_high a b : is_i64 a -> is_i64 b -> smulhi a b = (a * b) / 2 ^ 64;
  sshr_arithmetic a n : is_i64 a -> 0 <= n < 64 -> sshr_imm a n = Z.shiftr a n;
  bxor_bitwise a b : is_i64 a -> is_i64 b -> bxor a b = Z.lxor a b;
  band_bitwise a b : is_i64 a -> is_i64 b -> band a b = Z.land a b;
  icmp_signed cc a b : is_i64 a -> is_i64 b ->
    icmp cc a b =
      match cc with
      | Equal => a =? b
      | NotEqual => negb (a =? b)
      | SignedLessThan => a <? b
      | SignedGreaterThan => b <? a
      | SignedLessThanOrEqual => a <=? b
      | SignedGreaterThanOrEqual => b <=? a
      end;
  fadd_ieee a b : fadd a b = f64_add a b;
  fsub_ieee a b : fsub a b = f64_sub a b;
  fmul_ieee a b : fmul a b = f64_mul a b;
  fdiv_ieee a b : fdiv a b = f64_div a b;
  fcvt_ieee a : is_i64 a -> fcvt_from_sint a = f64_of_i64 a;
  fcmp_ordered cc a b :
    fcmp cc a b =
      match cc with
      | FLessThan => SFltb a b
      | FGreaterThan => SFltb b a
      | FLessThanOrEqual => SFleb a b
      | FGreaterThanOrEqual => SFleb b a
      end
}.

#[export, refine] Instance reference_clif : Clif := {|
  iadd a b := wrap_i64 (a + b);
  isub a b := wrap_i64 (a - b);
  imul a b := wrap_i64 (a * b);
  smulhi a b := (a * b) / 2 ^ 64;
  sshr_imm := Z.shiftr;
  bxor := Z.lxor;
  band := Z.land;
  icmp cc a b :=
    match cc with
    | Equal => a =? b
    | NotEqual => negb (a =? b)
    | SignedLessThan => a <? b
    | SignedGreaterThan => b <? a
    | SignedLessThanOrEqual => a <=? b
    | SignedGreaterThanOrEqual => b <=? a
    end;
  fadd := f64_add;
  fsub := f64_sub;
  fmul := f64_mul;
  fdiv := f64_div;
  fcvt_from_sint := f64_of_i64;
  fcmp cc a b :=
    match cc with
    | FLessThan => SFltb a b
    | FGreaterThan => SFltb b a
    | FLessThanOrEqual => SFleb a b
    | FGreaterThanOrEqual => SFleb b a
    end
|}.
Proof. all: intros; reflexivity. Defined.

(** * Signed overflow *)

Ltac i64_lia :=
  unfold is_i64, wrap_i64, i64_min, i64_max in *; Z.to_euclidean_division_equations; lia.

Lemma wrap_i64_range n : is_i64 (wrap_i64 n).
Proof. unfold is_i64, wrap_i64, i64_min, i64_max. pose proof (Z.mod_pos_bound (n + 2 ^ 63) (2 ^ 64)). lia. Qed.

(** [(a ^ s) & (b ^ s)] is negative when [a] and [b] have the sign that [s]
    does not. *)
Lemma signs_differ a b s : Z.land (Z.lxor a s) (Z.lxor b s) < 0 <-> (a < 0 <-> 0 <= s) /\ (b < 0 <-> 0 <= s).
Proof.
  rewrite Z.land_neg. pose proof (Z.lxor_nonneg a s). pose proof (Z.lxor_nonneg b s).
  destruct (Z.lt_ge_cases a 0), (Z.lt_ge_cases b 0), (Z.lt_ge_cases s 0); lia.
Qed.

Lemma is_i64_sign n : is_i64 n <-> Z.shiftr n 63 = if n <? 0 then -1 else 0.
Proof.
  rewrite Z.shiftr_div_pow2 by lia. destruct (Z.ltb_spec n 0); i64_lia.
Qed.

Lemma bitwise_i64 a b : is_i64 a -> is_i64 b -> is_i64 (Z.lxor a b) /\ is_i64 (Z.land a b).
Proof.
  rewrite !is_i64_sign, Z.shiftr_lxor, Z.shiftr_land. intros -> ->.
  pose proof (Z.lxor_nonneg a b). pose proof (Z.land_neg a b).
  destruct (Z.ltb_spec a 0), (Z.ltb_spec b 0), (Z.ltb_spec (Z.lxor a b) 0), (Z.ltb_spec (Z.land a b) 0);
    split; first [reflexivity | lia].
Qed.

Section Overflow.
Context `{Clif}.

Lemma add_overflows a b :
  is_i64 a -> is_i64 b -> let s := iadd a b in
  icmp SignedLessThan (band (bxor a s) (bxor b s)) 0 = negb (in_range i64_min i64_max (a + b)).
Proof.
  intros Ha Hb. cbv zeta. rewrite iadd_wraps by done. pose proof (wrap_i64_range (a + b)) as Hs.
  rewrite !bxor_bitwise by done. destruct (bitwise_i64 a _ Ha Hs), (bitwise_i64 b _ Hb Hs).
  rewrite band_bitwise, icmp_signed by (done || by apply bitwise_i64).
  apply eq_true_iff_eq. rewrite Z.ltb_lt, signs_differ, negb_true_iff, <- not_true_iff_false, in_range_true.
  i64_lia.
Qed.

Lemma sub_overflows a b :
  is_i64 a -> is_i64 b -> let s := isub a b in
  icmp SignedLessThan (band (bxor a b) (bxor a s)) 0 = negb (in_range i64_min i64_max (a - b)).
Proof.
  intros Ha Hb. cbv zeta. rewrite isub_wraps by done. pose proof (wrap_i64_range (a - b)) as Hs.
  rewrite !bxor_bitwise by done. destruct (bitwise_i64 a _ Ha Hs), (bitwise_i64 a _ Ha Hb).
  rewrite band_bitwise, icmp_signed by (done || by apply bitwise_i64).
  apply eq_true_iff_eq. rewrite Z.ltb_lt, (Z.lxor_comm a b), (Z.lxor_comm a (wrap_i64 _)), signs_differ.
  rewrite negb_true_iff, <- not_true_iff_false, in_range_true.
  i64_lia.
Qed.

Lemma mul_overflows a b :
  is_i64 a -> is_i64 b -> let s := imul a b in
  icmp NotEqual (smulhi a b) (sshr_imm s 63) = negb (in_range i64_min i64_max (a * b)).
Proof.
  intros Ha Hb. cbv zeta. rewrite imul_wraps, smulhi_high by done. pose proof (wrap_i64_range (a * b)) as Hs.
  rewrite sshr_arithmetic by (done || lia). pose proof Hs as Hsign. rewrite is_i64_sign in Hsign.
  assert (Hhi : is_i64 ((a * b) / 2 ^ 64)).
  { unfold is_i64, i64_min, i64_max in Ha, Hb. assert (- 2 ^ 126 <= a * b <= 2 ^ 126) by nia. i64_lia. }
  rewrite icmp_signed; [|done|rewrite Hsign; unfold is_i64, i64_min, i64_max; case_match; lia].
  f_equal. rewrite Hsign. apply eq_true_iff_eq. rewrite Z.eqb_eq, in_range_true.
  clear. generalize (a * b). intros p. destruct (Z.ltb_spec (wrap_i64 p) 0); i64_lia.
Qed.

End Overflow.
