(* ===== verification/Lower.v ===== *)
(** Lowering of forms to the intermediate representation
    (crates/cljrs-ir/src/lower/context.rs, known.rs and anf.rs).

    The builder's state is the source's [LowerCtx] with the counter of global
    names, which all contexts of the process share; code is in the state monad.
    A context's counters are [u32]: stepping one past the maximum panics, as it
    does in a build with overflow checks.  The scopes are listed innermost
    first.  Errors keep their constructor, not their text.

    [lower_form] and [lower_destructure_binding] call one another through the
    lowering of special forms; the sections take both as parameters and
    the functions after them tie the knot with fuel. *)
From stdpp Require Import gmap strings.
From S2P Require Import Prelude RustStd Token Lexer Form Ir NativeOps.
Local Open Scope Z_scope.

(** * The builder (context.rs) *)

Abbreviation Name := (list Z).

Record LowerCtx : Type := mkLowerCtx {
  lc_name : option Name;
  lc_ns : Name;
  finished_blocks : list Block;
  current_block : BlockId;
  current_phis : list Inst;
  current_insts : list Inst;
  locals : list (gmap Name VarId);
  loop_headers : list (BlockId * list VarId);
  lc_next_var : Z;
  lc_next_block : Z;
  lc_subfunctions : list IrFunction;
  last_source_loc : option (Name * nat);
  lc_is_async : bool;
  lc_seed_reprs : list Repr;
  lc_local_seed_reprs : list (VarId * Repr)
}.

Definition LowerCtx_new (name : option Name) (ns : Name) : LowerCtx :=
  mkLowerCtx name ns [] 0 [] [] [∅] [] 0 1 [] None false [] [].

Definition set_finished (fin : list Block) (ps is_ : list Inst) (c : LowerCtx) : LowerCtx :=
  mkLowerCtx (lc_name c) (lc_ns c) fin (current_block c) ps is_ (locals c)
    (loop_headers c) (lc_next_var c) (lc_next_block c) (lc_subfunctions c) (last_source_loc c) (lc_is_async c)
    (lc_seed_reprs c) (lc_local_seed_reprs c).

Definition set_block (b : BlockId) (c : LowerCtx) : LowerCtx :=
  mkLowerCtx (lc_name c) (lc_ns c) (finished_blocks c) b (current_phis c) (current_insts c) (locals c)
    (loop_headers c) (lc_next_var c) (lc_next_block c) (lc_subfunctions c) None (lc_is_async c)
    (lc_seed_reprs c) (lc_local_seed_reprs c).

Definition set_current (ps is_ : list Inst) (loc : option (Name * nat)) (c : LowerCtx) : LowerCtx :=
  mkLowerCtx (lc_name c) (lc_ns c) (finished_blocks c) (current_block c) ps is_ (locals c)
    (loop_headers c) (lc_next_var c) (lc_next_block c) (lc_subfunctions c) loc (lc_is_async c)
    (lc_seed_reprs c) (lc_local_seed_reprs c).

Definition set_locals (ls : list (gmap Name VarId)) (c : LowerCtx) : LowerCtx :=
  mkLowerCtx (lc_name c) (lc_ns c) (finished_blocks c) (current_block c) (current_phis c) (current_insts c) ls
    (loop_headers c) (lc_next_var c) (lc_next_block c) (lc_subfunctions c) (last_source_loc c) (lc_is_async c)
    (lc_seed_reprs c) (lc_local_seed_reprs c).

Definition set_loop_headers (hs : list (BlockId * list VarId)) (c : LowerCtx) : LowerCtx :=
  mkLowerCtx (lc_name c) (lc_ns c) (finished_blocks c) (current_block c) (current_phis c) (current_insts c)
    (locals c) hs (lc_next_var c) (lc_next_block c) (lc_subfunctions c) (last_source_loc c) (lc_is_async c)
    (lc_seed_reprs c) (lc_local_seed_reprs c).

Definition set_counters (nv nb : Z) (c : LowerCtx) : LowerCtx :=
  mkLowerCtx (lc_name c) (lc_ns c) (finished_blocks c) (current_block c) (current_phis c) (current_insts c)
    (locals c) (loop_headers c) nv nb (lc_subfunctions c) (last_source_loc c) (lc_is_async c)
    (lc_seed_reprs c) (lc_local_seed_reprs c).

Definition set_subfunctions (fs : list IrFunction) (c : LowerCtx) : LowerCtx :=
  mkLowerCtx (lc_name c) (lc_ns c) (finished_blocks c) (current_block c) (current_phis c) (current_insts c)
    (locals c) (loop_headers c) (lc_next_var c) (lc_next_block c) fs (last_source_loc c) (lc_is_async c)
    (lc_seed_reprs c) (lc_local_seed_reprs c).

Definition set_is_async (a : bool) (c : LowerCtx) : LowerCtx :=
  mkLowerCtx (lc_name c) (lc_ns c) (finished_blocks c) (current_block c) (current_phis c) (current_insts c)
    (locals c) (loop_headers c) (lc_next_var c) (lc_next_block c) (lc_subfunctions c) (last_source_loc c) a
    (lc_seed_reprs c) (lc_local_seed_reprs c).

Definition set_seeds (rs : list Repr) (ls : list (VarId * Repr)) (c : LowerCtx) : LowerCtx :=
  mkLowerCtx (lc_name c) (lc_ns c) (finished_blocks c) (current_block c) (current_phis c) (current_insts c)
    (locals c) (loop_headers c) (lc_next_var c) (lc_next_block c) (lc_subfunctions c) (last_source_loc c)
    (lc_is_async c) rs ls.

Inductive LowerError : Type := UnsupportedForm | MalformedSpecialForm.

(** The context and [GLOBAL_NAME_CTR]. *)
Record LowerState : Type := mkLowerState { ls_ctx : LowerCtx; ls_names : Z }.

Abbreviation M := (stateM LowerState LowerError).

Definition throw {A : Type} (e : LowerError) : M A := fun s => (Err e, s).

Definition ctx_gets {A : Type} (f : LowerCtx -> A) : M A := gets (fun s => f (ls_ctx s)).

Definition ctx_modify (f : LowerCtx -> LowerCtx) : M unit :=
  modify (fun s => mkLowerState (f (ls_ctx s)) (ls_names s)).

Definition fresh_global_name_id : M Z := fun s =>
  (Ok (ls_names s), mkLowerState (ls_ctx s) (wrap_u32 (ls_names s + 1))).

Definition fresh_var : M VarId := fun s =>
  let c := ls_ctx s in
  if lc_next_var c <? u32_max
  then (Ok (lc_next_var c), mkLowerState (set_counters (lc_next_var c + 1) (lc_next_block c) c) (ls_names s))
  else (Panic, s).

Definition fresh_block : M BlockId := fun s =>
  let c := ls_ctx s in
  if lc_next_block c <? u32_max
  then (Ok (lc_next_block c), mkLowerState (set_counters (lc_next_var c) (lc_next_block c + 1) c) (ls_names s))
  else (Panic, s).

Definition is_phi (i : Inst) : bool := match i with IPhi _ _ => true | _ => false end.

Definition emit (i : Inst) : M unit := ctx_modify (fun c =>
  if is_phi i then set_current (current_phis c ++ [i]) (current_insts c) (last_source_loc c) c
  else set_current (current_phis c) (current_insts c ++ [i]) (last_source_loc c) c).

Definition emit_const (k : Const) : M VarId :=
  dst ← fresh_var; emit (IConst dst k);; mret dst.

Definition emit_phi (dst : VarId) (entries : list (BlockId * VarId)) : M unit := emit (IPhi dst entries).

Definition finish_block (t : Terminator) : M unit := ctx_modify (fun c =>
  set_finished (finished_blocks c ++ [mkBlock (current_block c) (current_phis c) (current_insts c) t]) [] [] c).

Definition start_block (b : BlockId) : M unit := ctx_modify (set_block b).

Definition maybe_emit_source_loc (sp : Span) : M unit := ctx_modify (fun c =>
  let key := (span_file sp, span_line sp) in
  if bool_decide (last_source_loc c = Some key) then c
  else set_current (current_phis c) (current_insts c ++ [ISourceLoc sp]) (Some key) c).

Definition current_block_id : M BlockId := ctx_gets current_block.

Definition push_scope : M unit := ctx_modify (fun c => set_locals (∅ :: locals c) c).

Definition pop_scope : M unit := ctx_modify (fun c => set_locals (tail (locals c)) c).

Definition bind_local (name : Name) (v : VarId) : M unit := ctx_modify (fun c =>
  match locals c with
  | scope :: outer => set_locals (<[name := v]> scope :: outer) c
  | [] => c
  end).

Fixpoint lookup_scopes (name : Name) (scopes : list (gmap Name VarId)) : option VarId :=
  match scopes with
  | [] => None
  | scope :: outer =>
      match scope !! name with
      | Some v => Some v
      | None => lookup_scopes name outer
      end
  end.

Definition lookup_local (name : Name) : M (option VarId) := ctx_gets (fun c => lookup_scopes name (locals c)).

(** Inner scopes shadow outer ones; sorted by name. *)
Definition all_locals_of (scopes : list (gmap Name VarId)) : list (Name * VarId) :=
  foldr (fun p acc => bt_insert p.1 p.2 acc) [] (map_to_list (foldr union ∅ scopes)).

Definition get_all_locals : M (list (Name * VarId)) := ctx_gets (fun c => all_locals_of (locals c)).

Definition push_loop_header (header : BlockId) (phi_vars : list VarId) : M unit :=
  ctx_modify (fun c => set_loop_headers ((header, phi_vars) :: loop_headers c) c).

Definition pop_loop_header : M unit := ctx_modify (fun c => set_loop_headers (tail (loop_headers c)) c).

Definition current_loop_header : M (option (BlockId * list VarId)) := ctx_gets (fun c => head (loop_headers c)).

Definition push_phi_entry (from_block : BlockId) (v : VarId) (i : Inst) : Inst :=
  match i with
  | IPhi d entries => IPhi d (entries ++ [(from_block, v)])
  | _ => i
  end.

Definition patch_block (phi_index : nat) (from_block : BlockId) (v : VarId) (b : Block) : Block :=
  mkBlock (block_id b) (alter (push_phi_entry from_block v) phi_index (phis b)) (insts b) (terminator b).

(** The first finished block with the header's id. *)
Fixpoint patch_header (header : BlockId) (phi_index : nat) (from_block : BlockId) (v : VarId)
    (bs : list Block) : list Block :=
  match bs with
  | [] => []
  | b :: bs' =>
      if block_id b =? header then patch_block phi_index from_block v b :: bs'
      else b :: patch_header header phi_index from_block v bs'
  end.

Definition update_phi_in_header (header : BlockId) (phi_index : nat) (from_block : BlockId) (v : VarId) : M unit :=
  ctx_modify (fun c =>
    set_finished (patch_header header phi_index from_block v (finished_blocks c)) (current_phis c) (current_insts c) c).

Definition add_subfunction (f : IrFunction) : M unit :=
  ctx_modify (fun c => set_subfunctions (lc_subfunctions c ++ [f]) c).

Definition get_ns : M Name := ctx_gets lc_ns.

Definition LowerCtx_build (ps : list (Name * VarId)) (c : LowerCtx) : IrFunction :=
  mkIrFunction (lc_name c) ps (finished_blocks c) (lc_next_var c) (lc_next_block c) None (lc_subfunctions c)
    (lc_is_async c) false [] (lc_seed_reprs c) (lc_local_seed_reprs c).

(** Runs code on another context; the counter of names is shared. *)
Definition in_ctx {A : Type} (c : LowerCtx) (m : M A) : M (A * LowerCtx) := fun s =>
  let '(o, s') := m (mkLowerState c (ls_names s)) in
  (a ← o; Ok (a, ls_ctx s'), mkLowerState (ls_ctx s) (ls_names s')).

(** * Names *)

Definition slash : Z := 47.

(** The parts before and after the first occurrence of a character. *)
Fixpoint split_first (ch : Z) (s : Name) : option (Name * Name) :=
  match s with
  | [] => None
  | x :: t =>
      if x =? ch then Some ([], t)
      else match split_first ch t with
           | Some (a, b) => Some (x :: a, b)
           | None => None
           end
  end.

(** The parts before and after the last occurrence. *)
Fixpoint split_last (ch : Z) (s : Name) : option (Name * Name) :=
  match s with
  | [] => None
  | x :: t =>
      match split_last ch t with
      | Some (a, b) => Some (x :: a, b)
      | None => if x =? ch then Some ([], t) else None
      end
  end.

Fixpoint strip_prefix (p s : Name) : option Name :=
  match p, s with
  | [], _ => Some s
  | x :: p', y :: s' => if x =? y then strip_prefix p' s' else None
  | _ :: _, [] => None
  end.

Definition is_name (s : Name) (t : string) : bool := str_eqb s (lit t).

Definition one_of (s : Name) (ts : list string) : bool := existsb (is_name s) ts.

Definition strip_ns_prefix (s : Name) : Name :=
  if is_name s "/" then s
  else match split_last slash s with
       | Some (_, name) => name
       | None => s
       end.

Definition split_ns_name (s : Name) : option Name * Name :=
  match split_first slash s with
  | Some (ns, name) => if bool_decide (ns = []) || bool_decide (name = []) then (None, s) else (Some ns, name)
  | None => (None, s)
  end.

Definition versioned_ns_base (ns : Name) : option Name :=
  match split_last 64 ns with
  | Some (base, hash) =>
      if (7 <=? length hash)%nat && (length hash <=? 40)%nat && forallb is_ascii_hexdigit hash then Some base else None
  | None => None
  end.

Definition split_sym (s current_ns : Name) : Name * Name :=
  if is_name s "/" then (current_ns, s)
  else match split_first slash s with
       | Some (ns_part, name) =>
           if bool_decide (versioned_ns_base current_ns = Some ns_part) then (current_ns, name) else (ns_part, name)
       | None => (current_ns, s)
       end.

(** * Known functions (known.rs) *)

Definition known_names : list (string * KnownFn) := [
  ("vector", KVector); ("hash-map", KHashMap); ("hash-set", KHashSet); ("list", KList); ("assoc", KAssoc);
  ("dissoc", KDissoc); ("conj", KConj); ("disj", KDisj); ("get", KGet); ("nth", KNth); ("count", KCount);
  ("contains?", KContains); ("transient", KTransient); ("assoc!", KAssocBang); ("conj!", KConjBang);
  ("persistent!", KPersistentBang); ("first", KFirst); ("rest", KRest); ("next", KNext); ("cons", KCons);
  ("seq", KSeq); ("lazy-seq", KLazySeq); ("make-lazy-seq", KLazySeq); ("empty?", KIsEmpty); ("peek", KPeek);
  ("pop", KPop); ("vec", KVec); ("mapcat", KMapcat); ("repeatedly", KRepeatedly); ("+", KAdd); ("-", KSub);
  ("*", KMul); ("/", KDiv); ("rem", KRem); ("mod", KRem); ("unchecked-add", KUncheckedAdd);
  ("unchecked-add-int", KUncheckedAdd); ("unchecked-subtract", KUncheckedSub);
  ("unchecked-subtract-int", KUncheckedSub); ("unchecked-multiply", KUncheckedMul);
  ("unchecked-multiply-int", KUncheckedMul); ("aget", KAget); ("aset", KAset); ("alength", KAlength);
  ("=", KEq); ("case=", KCaseEq); ("<", KLt); (">", KGt); ("<=", KLte); (">=", KGte); ("nil?", KIsNil);
  ("seq?", KIsSeq); ("vector?", KIsVector); ("map?", KIsMap); ("identical?", KIdentical); ("str", KStr);
  ("deref", KDeref); ("println", KPrintln); ("pr", KPr); ("apply", KApply); ("reduce", KReduce2); ("map", KMap);
  ("filter", KFilter); ("mapv", KMapv); ("filterv", KFilterv); ("some", KSome); ("every?", KEvery);
  ("into", KInto); ("concat", KConcat); ("range", KRange1); ("take", KTake); ("drop", KDrop);
  ("reverse", KReverse); ("sort", KSort); ("sort-by", KSortBy); ("keys", KKeys); ("vals", KVals);
  ("merge", KMerge); ("update", KUpdate); ("get-in", KGetIn); ("assoc-in", KAssocIn); ("number?", KIsNumber);
  ("string?", KIsString); ("keyword?", KIsKeyword); ("symbol?", KIsSymbol); ("boolean?", KIsBool);
  ("int?", KIsInt); ("prn", KPrn); ("print", KPrint); ("atom", KAtom); ("reset!", KAtomReset);
  ("swap!", KAtomSwap); ("group-by", KGroupBy); ("partition", KPartition2); ("frequencies", KFrequencies);
  ("keep", KKeep); ("remove", KRemove); ("map-indexed", KMapIndexed); ("zipmap", KZipmap); ("juxt", KJuxt);
  ("comp", KComp); ("partial", KPartial); ("complement", KComplement)]%string.

Definition resolve_known_fn (sym_name : Name) : option KnownFn :=
  snd <$> find (fun p => is_name (strip_ns_prefix sym_name) p.1) known_names.

Definition known_fn_arity (k : KnownFn) : option nat :=
  match k with
  | KCount | KFirst | KRest | KNext | KAlength | KSeq | KLazySeq | KDeref | KAtomDeref | KIsNil | KIsVector
  | KIsMap | KIsSeq | KPr | KTransient | KPersistentBang | KWithOutStr | KRange1 | KReverse | KSort | KKeys
  | KVals | KIsNumber | KIsString | KIsKeyword | KIsSymbol | KIsBool | KIsInt | KPrn | KPrint | KAtom
  | KFrequencies | KComplement => Some 1%nat
  | KGet | KConj | KDissoc | KDisj | KNth | KAget | KContains | KCons | KAtomReset | KIdentical | KApply
  | KConjBang | KReduce2 | KMap | KFilter | KMapv | KFilterv | KSome | KEvery | KInto | KRange2 | KTake | KDrop
  | KSortBy | KGetIn | KGroupBy | KKeep | KRemove | KMapIndexed | KZipmap | KPartition2 => Some 2%nat
  | KAssoc | KAset | KAssocBang | KTryCatchFinally | KReduce3 | KInto3 | KRange3 | KUpdate | KAssocIn
  | KPartition3 => Some 3%nat
  | KPartition4 => Some 4%nat
  | _ => None
  end.

Definition is_comparison (k : KnownFn) : bool :=
  match k with KEq | KLt | KGt | KLte | KGte => true | _ => false end.

Definition is_binary_foldable (k : KnownFn) : bool :=
  match k with
  | KAdd | KSub | KMul | KDiv | KRem | KEq | KLt | KGt | KLte | KGte | KUncheckedAdd | KUncheckedSub
  | KUncheckedMul => true
  | _ => false
  end.

(** * Symbols of forms *)

Definition is_symbol (f : Form) (t : string) : bool :=
  match form_kind f with FSymbol s => is_name s t | _ => false end.

Definition is_keyword (f : Form) (t : string) : bool :=
  match form_kind f with FKeyword s => is_name s t | _ => false end.

(** [collect_symbol_names_form]: every symbol that occurs in a form. *)
Fixpoint form_symbols (f : Form) : gset Name :=
  let fix all (fs : list Form) : gset Name :=
    match fs with
    | [] => ∅
    | g :: gs => form_symbols g ∪ all gs
    end in
  match f with
  | mkForm k _ =>
      match k with
      | FSymbol s => {[s]}
      | FList fs | FVector fs | FMap fs | FSet fs | FAnonFn fs | FReaderCond _ fs => all fs
      | FQuote g | FSyntaxQuote g | FUnquote g | FUnquoteSplice g | FDeref g | FVar g | FTaggedLiteral _ g =>
          form_symbols g
      | FMeta m g => form_symbols m ∪ form_symbols g
      | _ => ∅
      end
  end.

Definition collect_symbol_names (fs : list Form) : gset Name := foldr (fun f acc => form_symbols f ∪ acc) ∅ fs.

(** The elements two by two; an odd one at the end is dropped. *)
Fixpoint pairs_of {A : Type} (l : list A) : list (A * A) :=
  match l with
  | a :: b :: l' => (a, b) :: pairs_of l'
  | _ => []
  end.

(** The first [:async] key of the map decides. *)
Definition is_meta_async (meta : Form) : bool :=
  match form_kind meta with
  | FKeyword k => is_name k "async"
  | FMap fs =>
      match find (fun p => is_keyword p.1 "async") (pairs_of fs) with
      | Some (_, v) => match form_kind v with FBool false | FNil => false | _ => true end
      | None => false
      end
  | _ => false
  end.

(** The first [:tag] of the map whose value is a symbol or a string. *)
Definition tag_of (kv : Form * Form) : option Name :=
  if is_keyword kv.1 "tag" then match form_kind kv.2 with FSymbol s | FStr s => Some s | _ => None end else None.

Fixpoint find_map {A B : Type} (f : A -> option B) (l : list A) : option B :=
  match l with
  | [] => None
  | x :: l' => match f x with Some y => Some y | None => find_map f l' end
  end.

Definition meta_tag_repr (meta : Form) : option Repr :=
  tag ← match form_kind meta with
        | FSymbol s => Some s
        | FMap entries => find_map tag_of (pairs_of entries)
        | _ => None
        end;
  let tag := match split_last slash tag with Some (_, t) => t | None => tag end in
  if one_of tag ["long"; "int"]%string then Some RLong
  else if one_of tag ["double"; "float"]%string then Some RDouble
  else if is_name tag "boolean" then Some RBool
  else if is_name tag "longs" then Some RLongArray
  else if is_name tag "doubles" then Some RDoubleArray
  else None.

(** * Conditions of functions *)

Definition sym_form (t : string) (sp : Span) : Form := mkForm (FSymbol (lit t)) sp.

Definition make_assert_call (sp : Span) (cond : Form) : Form := mkForm (FList [sym_form "assert" sp; cond]) sp.

(** The vectors under a key. *)
Definition conditions (key : string) (entries : list Form) : list (list Form) :=
  omap (fun kv => if is_keyword kv.1 key then match form_kind kv.2 with FVector conds => Some conds | _ => None end
                  else None) (pairs_of entries).

Definition desugar_pre_post_conditions (body : list Form) : list Form :=
  match body with
  | [] => body
  | first :: real_body =>
      match form_kind first with
      | FMap entries =>
          match conditions "pre" entries ++ conditions "post" entries with
          | [] => body
          | _ =>
              let pre_conds := concat (conditions "pre" entries) in
              let post_conds := concat (conditions "post" entries) in
              let sp := form_span first in
              map (make_assert_call sp) pre_conds ++
              match post_conds with
              | [] => real_body
              | _ =>
                  let percent := sym_form "%" sp in
                  let body_expr :=
                    match real_body with
                    | [e] => e
                    | _ => mkForm (FList (sym_form "do" sp :: real_body)) sp
                    end in
                  let binding_vec := mkForm (FVector [percent; body_expr]) sp in
                  [mkForm (FList (sym_form "let*" sp :: binding_vec ::
                                  map (make_assert_call sp) post_conds ++ [percent])) sp]
              end
          end
      | _ => body
      end
  end.

(** * Parameters of functions *)

Fixpoint parse_params (params_vec : list Form) : outcome LowerError (list Form * option Form) :=
  match params_vec with
  | [] => Ok ([], None)
  | p :: rest =>
      if is_symbol p "&" then
        match rest with
        | [] => Err MalformedSpecialForm
        | r :: _ => Ok ([], Some r)
        end
      else '(fixed, r) ← parse_params rest; Ok (p :: fixed, r)
  end.

Record AritySpec : Type := mkAritySpec {
  ar_fixed : list Form;
  ar_rest : option Form;
  ar_body : list Form
}.

Definition arity_of (params_vec body : list Form) : outcome LowerError AritySpec :=
  '(fixed, rest) ← parse_params params_vec;
  Ok (mkAritySpec fixed rest (desugar_pre_post_conditions body)).

(** [arity_parts[0]] panics on an empty list. *)
Definition parse_arity (arity_form : Form) : outcome LowerError AritySpec :=
  match form_kind arity_form with
  | FList [] => Panic
  | FList (ps :: body) =>
      match form_kind ps with
      | FVector params_vec => arity_of params_vec body
      | _ => Err MalformedSpecialForm
      end
  | _ => Err MalformedSpecialForm
  end.

Fixpoint parse_arities (fs : list Form) : outcome LowerError (list AritySpec) :=
  match fs with
  | [] => Ok []
  | f :: fs' => a ← parse_arity f; rest ← parse_arities fs'; Ok (a :: rest)
  end.

Definition raw_arities (rest_args : list Form) : outcome LowerError (list AritySpec) :=
  match rest_args with
  | [] => Ok [mkAritySpec [] None []]
  | first :: body =>
      match form_kind first with
      | FVector params_vec => a ← arity_of params_vec body; Ok [a]
      | _ => parse_arities rest_args
      end
  end.

(** A parameter's name, the pattern it is destructured with, and its hint. *)
Record ParamInfo : Type := mkParamInfo {
  pi_name : Name;
  pi_pattern : option Form;
  pi_repr : option Repr
}.

Definition gensym (prefix : string) : M Name :=
  id ← fresh_global_name_id; mret (lit prefix ++ to_string id).

Definition peel_meta (p : Form) : option Form * Form :=
  match form_kind p with
  | FMeta meta inner => (Some meta, inner)
  | _ => (None, p)
  end.

Definition fixed_param_info (p : Form) : M ParamInfo :=
  let '(meta, inner) := peel_meta p in
  match form_kind inner with
  | FSymbol s => mret (mkParamInfo s None (meta ≫= meta_tag_repr))
  | _ => name ← gensym "__destructure_"; mret (mkParamInfo name (Some inner) None)
  end.

Definition rest_param_info (p : Form) : M ParamInfo :=
  let '(_, inner) := peel_meta p in
  match form_kind inner with
  | FSymbol s => mret (mkParamInfo s None None)
  | _ => name ← gensym "__destructure_rest_"; mret (mkParamInfo name (Some inner) None)
  end.

(** * Emission helpers *)

(** [iter().map(f).collect::<Result<Vec<_>, _>>()] *)
Section Collect.
Context {A B : Type} (f : A -> M B).

Fixpoint collect (l : list A) : M (list B) :=
  match l with
  | [] => mret []
  | x :: l' => y ← f x; ys ← collect l'; mret (y :: ys)
  end.

(** Keys and values of a flat list. *)
Fixpoint collect_pairs (l : list A) : M (list (B * B)) :=
  match l with
  | k :: v :: l' => x ← f k; y ← f v; ps ← collect_pairs l'; mret ((x, y) :: ps)
  | _ => mret []
  end.
End Collect.

Definition emit_known (k : KnownFn) (args : list VarId) : M VarId :=
  dst ← fresh_var; emit (ICallKnown dst k args);; mret dst.

Definition emit_call (callee : VarId) (args : list VarId) : M VarId :=
  dst ← fresh_var; emit (ICall dst callee args);; mret dst.

Definition lower_emit_nth (val : VarId) (idx : nat) : M VarId :=
  idx_var ← emit_const (CLong (Z.of_nat idx)); emit_known KNthLenient [val; idx_var].

Fixpoint emit_rests (current : VarId) (idx : nat) : M VarId :=
  match idx with
  | O => mret current
  | S n => dst ← emit_known KRest [current]; emit_rests dst n
  end.

Definition lower_emit_rest_from (val : VarId) (idx : nat) : M VarId :=
  current ← emit_rests val idx; emit_known KSeq [current].

Definition lower_emit_get (map_ key : VarId) : M VarId := emit_known KGet [map_; key].

Definition lower_symbol (name : Name) : M VarId :=
  l ← lookup_local name;
  match l with
  | Some v => mret v
  | None =>
      ns ← get_ns;
      let '(sym_ns, sym_name) := split_sym name ns in
      dst ← fresh_var; emit (ILoadGlobal dst sym_ns sym_name);; mret dst
  end.

Definition emit_load_var (s : Name) : M VarId :=
  ns ← get_ns;
  let '(var_ns, var_name) := split_sym s ns in
  dst ← fresh_var; emit (ILoadVar dst var_ns var_name);; mret dst.

Definition emit_not (x : VarId) : M VarId :=
  then_block ← fresh_block;
  else_block ← fresh_block;
  join_block ← fresh_block;
  finish_block (Branch x then_block else_block);;
  start_block then_block;;
  false_val ← emit_const (CBool false);
  then_exit ← current_block_id;
  finish_block (Jump join_block);;
  start_block else_block;;
  true_val ← emit_const (CBool true);
  else_exit ← current_block_id;
  finish_block (Jump join_block);;
  start_block join_block;;
  dst ← fresh_var;
  emit_phi dst [(then_exit, false_val); (else_exit, true_val)];;
  mret dst.

(** [emit_max] and [emit_min], by the comparison they use. *)
Definition emit_select (k : KnownFn) (a b : VarId) : M VarId :=
  cmp ← emit_known k [a; b];
  then_block ← fresh_block;
  else_block ← fresh_block;
  join_block ← fresh_block;
  finish_block (Branch cmp then_block else_block);;
  start_block then_block;;
  then_exit ← current_block_id;
  finish_block (Jump join_block);;
  start_block else_block;;
  else_exit ← current_block_id;
  finish_block (Jump join_block);;
  start_block join_block;;
  dst ← fresh_var;
  emit_phi dst [(then_exit, a); (else_exit, b)];;
  mret dst.

Definition emit_max : VarId -> VarId -> M VarId := emit_select KGt.
Definition emit_min : VarId -> VarId -> M VarId := emit_select KLt.

(** Comparisons of neighbours, joined at the merge block. *)
Fixpoint chain_pairs (k : KnownFn) (merge_block : BlockId) (args : list (VarId * VarId))
    (predecessors : list (BlockId * VarId)) : M VarId :=
  match args with
  | [] => emit_const (CBool true)
  | (a, b) :: rest =>
      cmp_dst ← emit_known k [a; b];
      match rest with
      | [] =>
          last_exit ← current_block_id;
          finish_block (Jump merge_block);;
          start_block merge_block;;
          result ← fresh_var;
          emit_phi result (predecessors ++ [(last_exit, cmp_dst)]);;
          mret result
      | _ =>
          next_block ← fresh_block;
          false_exit ← current_block_id;
          false_val ← emit_const (CBool false);
          finish_block (Branch cmp_dst next_block merge_block);;
          start_block next_block;;
          chain_pairs k merge_block rest (predecessors ++ [(false_exit, false_val)])
      end
  end.

Definition emit_comparison_chain (k : KnownFn) (args : list VarId) : M VarId :=
  merge_block ← fresh_block; chain_pairs k merge_block (zip args (tail args)) [].

(** [(+ (+ a b) c)] *)
Fixpoint emit_left_fold (k : KnownFn) (prev : VarId) (args : list VarId) : M VarId :=
  match args with
  | [] => mret prev
  | next :: rest => dst ← emit_known k [prev; next]; emit_left_fold k dst rest
  end.

Definition emit_binary_fold (k : KnownFn) (args : list VarId) : M VarId :=
  match args with
  | [] =>
      match k with
      | KAdd => emit_const (CLong 0)
      | KMul => emit_const (CLong 1)
      | _ => throw MalformedSpecialForm
      end
  | [a] =>
      match k with
      | KAdd | KMul => mret a
      | KSub => zero ← emit_const (CLong 0); emit_known KSub [zero; a]
      | KDiv => one ← emit_const (CLong 1); emit_known KDiv [one; a]
      | _ => if is_comparison k then emit_const (CBool true) else emit_known k args
      end
  | [_; _] => emit_known k args
  | a :: rest => if is_comparison k then emit_comparison_chain k args else emit_left_fold k a rest
  end.

(** * Literals and quoted forms *)

Definition f64_bits (d : f64) : Z :=
  match d with
  | SpecFloat.S754_zero s => if s then 2 ^ 63 else 0
  | SpecFloat.S754_infinity s => (if s then 2 ^ 63 else 0) + 0x7FF0000000000000
  | SpecFloat.S754_nan => 0x7FF8000000000000
  | SpecFloat.S754_finite s m e =>
      (if s then 2 ^ 63 else 0) + (if Zpos m <? 2 ^ 52 then Zpos m else (e + 1075) * 2 ^ 52 + (Zpos m - 2 ^ 52))
  end.

Definition f64_one : Z := 0x3FF0000000000000.

(** The text is a decimal number or two of them around a slash. *)
Definition ratio_bits (s : Name) : Z :=
  match split_first slash s with
  | Some (n, d) =>
      let num := default 0 (parse_f64 n) in
      let den := default f64_one (parse_f64 d) in
      if f64_eqb den 0 then 0 else f64_bits (f64_div (f64_of_bits num) (f64_of_bits den))
  | None => default 0 (parse_f64 s)
  end.

Definition emit_alloc (inst : VarId -> Inst) : M VarId :=
  dst ← fresh_var; emit (inst dst);; mret dst.

Fixpoint lower_quote (form : Form) : M VarId :=
  match form with
  | mkForm k _ =>
      match k with
      | FNil => emit_const CNil
      | FBool b => emit_const (CBool b)
      | FInt n => emit_const (CLong n)
      | FFloat f => emit_const (CDouble f)
      | FStr s => emit_const (CStr s)
      | FChar c => emit_const (CChar c)
      | FKeyword s => emit_const (CKeyword s)
      | FSymbol s => emit_const (CSymbol s)
      | FVector elems => vars ← collect lower_quote elems; emit_alloc (fun dst => IAllocVector dst vars)
      | FList elems => vars ← collect lower_quote elems; emit_alloc (fun dst => IAllocList dst vars)
      | FMap pairs => kv ← collect_pairs lower_quote pairs; emit_alloc (fun dst => IAllocMap dst kv)
      | FSet elems => vars ← collect lower_quote elems; emit_alloc (fun dst => IAllocSet dst vars)
      | _ => throw UnsupportedForm
      end
  end.

(** * Lowering, given the lowering of smaller forms *)

Section Forms.
Context (lower_form : Form -> M VarId).
Context (lower_destructure_binding : Form -> VarId -> M unit).

Definition lower_forms : list Form -> M (list VarId) := collect lower_form.

Fixpoint lower_body_from (last : VarId) (forms : list Form) : M VarId :=
  match forms with
  | [] => mret last
  | f :: fs => v ← lower_form f; lower_body_from v fs
  end.

Definition lower_body (forms : list Form) : M VarId :=
  match forms with
  | [] => emit_const CNil
  | f :: fs => v ← lower_form f; lower_body_from v fs
  end.

(** ** Destructuring *)

(** After [&] and its pattern, [:as alias] is bound and met again. *)
Fixpoint lower_destructure_sequential (pattern : list Form) (pos_idx : nat) (val : VarId) : M unit :=
  match pattern with
  | [] => mret tt
  | p :: rest =>
      if is_symbol p "&" then
        match rest with
        | [] => throw MalformedSpecialForm
        | q :: rest' =>
            rest_var ← lower_emit_rest_from val pos_idx;
            lower_destructure_binding q rest_var;;
            match rest' with
            | k :: alias :: _ => if is_keyword k "as" then lower_destructure_binding alias val else mret tt
            | _ => mret tt
            end;;
            lower_destructure_sequential rest' pos_idx val
        end
      else if is_keyword p "as" then
        match rest with
        | [] => mret tt
        | q :: rest' => lower_destructure_binding q val;; lower_destructure_sequential rest' pos_idx val
        end
      else
        item ← lower_emit_nth val pos_idx;
        lower_destructure_binding p item;;
        lower_destructure_sequential rest (S pos_idx) val
  end.

Definition lower_with_default (got : VarId) (default_form : Form) : M VarId :=
  nil_check ← emit_known KIsNil [got];
  then_block ← fresh_block;
  else_block ← fresh_block;
  merge_block ← fresh_block;
  finish_block (Branch nil_check then_block else_block);;
  start_block then_block;;
  default_var ← lower_form default_form;
  then_exit ← current_block_id;
  finish_block (Jump merge_block);;
  start_block else_block;;
  else_exit ← current_block_id;
  finish_block (Jump merge_block);;
  start_block merge_block;;
  result ← fresh_var;
  emit_phi result [(then_exit, default_var); (else_exit, got)];;
  mret result.

Definition apply_default_if_nil (got : VarId) (sym : Name) (defaults : list (Name * Form)) : M VarId :=
  match find (fun p => str_eqb p.1 sym) defaults with
  | Some (_, def) => lower_with_default got def
  | None => mret got
  end.

(** The entries of the [:or] maps. *)
Definition or_defaults (pairs : list Form) : list (Name * Form) :=
  pairs_of pairs ≫= fun kv =>
    if is_keyword kv.1 "or" then
      match form_kind kv.2 with
      | FMap or_pairs =>
          omap (fun p => match form_kind p.1 with FSymbol sym => Some (sym, p.2) | _ => None end) (pairs_of or_pairs)
      | _ => []
      end
    else [].

Definition full_key (directive_ns : option Name) (sym : Name) : Name * Name :=
  let '(sym_ns, sym_name) := split_ns_name sym in
  match sym_ns, directive_ns with
  | Some ns, _ | None, Some ns => (ns ++ slash :: sym_name, sym_name)
  | None, None => (sym_name, sym_name)
  end.

(** One symbol of a [:keys], [:strs] or [:syms] vector. *)
Definition lower_directive_symbol (key : Name -> Const * Name) (defaults : list (Name * Form)) (val : VarId)
    (sym_form : Form) : M unit :=
  match form_kind sym_form with
  | FSymbol sym =>
      let '(c, name) := key sym in
      key_var ← emit_const c;
      got ← lower_emit_get val key_var;
      final_var ← apply_default_if_nil got name defaults;
      bind_local name final_var
  | _ => mret tt
  end.

Definition lower_directive (key : Name -> Const * Name) (defaults : list (Name * Form)) (val : VarId)
    (v : Form) : M unit :=
  match form_kind v with
  | FVector syms => for_each (lower_directive_symbol key defaults val) syms
  | _ => mret tt
  end.

Definition lower_map_entry (defaults : list (Name * Form)) (val : VarId) (kv : Form * Form) : M unit :=
  let '(k, v) := kv in
  let regular :=
    key_var ← lower_form v;
    got ← lower_emit_get val key_var;
    final_var ← match form_kind k with
                | FSymbol sym => apply_default_if_nil got sym defaults
                | _ => mret got
                end;
    lower_destructure_binding k final_var in
  match form_kind k with
  | FKeyword kname =>
      let '(directive_ns, name) := split_ns_name kname in
      if is_name name "keys" then
        lower_directive (fun sym => let '(key, name) := full_key directive_ns sym in (CKeyword key, name)) defaults val v
      else if is_name name "strs" then lower_directive (fun sym => (CStr sym, sym)) defaults val v
      else if is_name name "syms" then
        lower_directive (fun sym => let '(key, name) := full_key directive_ns sym in (CSymbol key, name)) defaults val v
      else if is_name name "as" then
        match form_kind v with FSymbol sym => bind_local sym val | _ => mret tt end
      else if is_name name "or" then mret tt
      else regular
  | _ => regular
  end.

Definition lower_destructure_associative (pairs : list Form) (val : VarId) : M unit :=
  for_each (lower_map_entry (or_defaults pairs) val) (pairs_of pairs).

Definition push_local_seed (v : VarId) (r : Repr) : M unit :=
  ctx_modify (fun c => set_seeds (lc_seed_reprs c) (lc_local_seed_reprs c ++ [(v, r)]) c).

Definition destructure_step (pattern : Form) (val : VarId) : M unit :=
  match form_kind pattern with
  | FSymbol s => bind_local s val
  | FVector pats => lower_destructure_sequential pats 0 val
  | FMap pairs => lower_destructure_associative pairs val
  | FMeta meta inner =>
      match form_kind inner, meta_tag_repr meta with
      | FSymbol _, Some r => push_local_seed val r
      | _, _ => mret tt
      end;;
      lower_destructure_binding inner val
  | _ => throw UnsupportedForm
  end.

(** ** Control flow *)

Definition lower_if (args : list Form) : M VarId :=
  match args with
  | [] | _ :: _ :: _ :: _ :: _ => throw MalformedSpecialForm
  | test_form :: branches =>
      test ← lower_form test_form;
      then_block ← fresh_block;
      else_block ← fresh_block;
      join_block ← fresh_block;
      finish_block (Branch test then_block else_block);;
      start_block then_block;;
      then_val ← match branches with a :: _ => lower_form a | [] => emit_const CNil end;
      then_exit ← current_block_id;
      finish_block (Jump join_block);;
      start_block else_block;;
      else_val ← match branches with _ :: b :: _ => lower_form b | _ => emit_const CNil end;
      else_exit ← current_block_id;
      finish_block (Jump join_block);;
      start_block join_block;;
      result ← fresh_var;
      emit_phi result [(then_exit, then_val); (else_exit, else_val)];;
      mret result
  end.

(** [lower_and] and [lower_or]: the value without arguments, and whether a
    true first value goes on to the rest. *)
Fixpoint lower_short_circuit (unit_ : Const) (on_true : bool) (args : list Form) : M VarId :=
  match args with
  | [] => emit_const unit_
  | a :: rest =>
      match rest with
      | [] => lower_form a
      | _ =>
          first_val ← lower_form a;
          rest_block ← fresh_block;
          join_block ← fresh_block;
          first_exit ← current_block_id;
          finish_block (if on_true then Branch first_val rest_block join_block
                        else Branch first_val join_block rest_block);;
          start_block rest_block;;
          rest_val ← lower_short_circuit unit_ on_true rest;
          rest_exit ← current_block_id;
          finish_block (Jump join_block);;
          start_block join_block;;
          result ← fresh_var;
          emit_phi result [(first_exit, first_val); (rest_exit, rest_val)];;
          mret result
      end
  end.

Definition lower_and : list Form -> M VarId := lower_short_circuit (CBool true) true.
Definition lower_or : list Form -> M VarId := lower_short_circuit CNil false.

(** The binding vector at the head of the arguments. *)
Definition binding_vector (args : list Form) : outcome LowerError (list Form * list Form) :=
  match args with
  | [] => Err MalformedSpecialForm
  | a :: body =>
      match form_kind a with
      | FVector bindings => if Nat.even (length bindings) then Ok (bindings, body) else Err MalformedSpecialForm
      | _ => Err MalformedSpecialForm
      end
  end.

Definition lower_let (args : list Form) : M VarId :=
  '(bindings, body) ← lift (binding_vector args);
  push_scope;;
  for_each (fun kv => val ← lower_form kv.2; lower_destructure_binding kv.1 val) (pairs_of bindings);;
  result ← lower_body body;
  pop_scope;;
  mret result.

Record BindingInfo : Type := mkBindingInfo {
  bi_pattern : Form;
  bi_gensym : Name;
  bi_init : VarId
}.

Definition loop_binding (kv : Form * Form) : M BindingInfo :=
  init_val ← lower_form kv.2;
  v ← fresh_var;
  mret (mkBindingInfo kv.1 (lit "__loop_" ++ to_string v) init_val).

(** A phi for a variable that the loop rebinds. *)
Definition loop_phi (init_block : BlockId) (name : Name) (init_val : VarId) : M VarId :=
  phi_var ← fresh_var;
  emit_phi phi_var [(init_block, init_val)];;
  bind_local name phi_var;;
  mret phi_var.

Definition bind_loop_pattern (p : BindingInfo * VarId) : M unit :=
  match form_kind (bi_pattern p.1) with
  | FSymbol s => bind_local s p.2
  | _ => lower_destructure_binding (bi_pattern p.1) p.2
  end.

(** From the start of the header block to the exit block. *)
Definition lower_loop_body (header : BlockId) (phi_vars : list VarId) (body : list Form) : M VarId :=
  push_loop_header header phi_vars;;
  body_result ← lower_body body;
  body_exit ← current_block_id;
  pop_loop_header;;
  exit_block ← fresh_block;
  finish_block (Jump exit_block);;
  pop_scope;;
  start_block exit_block;;
  result ← fresh_var;
  emit_phi result [(body_exit, body_result)];;
  mret result.

Definition lower_loop (args : list Form) : M VarId :=
  '(bindings, body) ← lift (binding_vector args);
  infos ← collect loop_binding (pairs_of bindings);
  header ← fresh_block;
  init_block ← current_block_id;
  finish_block (Jump header);;
  start_block header;;
  push_scope;;
  phi_vars ← collect (fun b => loop_phi init_block (bi_gensym b) (bi_init b)) infos;
  for_each bind_loop_pattern (zip infos phi_vars);;
  lower_loop_body header phi_vars body.

Definition lower_recur (args : list Form) : M VarId :=
  arg_vars ← lower_forms args;
  h ← current_loop_header;
  match h with
  | None => throw MalformedSpecialForm
  | Some (header, _) =>
      recur_block ← current_block_id;
      for_each (fun p => update_phi_in_header header p.1 recur_block p.2) (imap pair arg_vars);;
      finish_block (RecurJump header arg_vars);;
      new_block ← fresh_block;
      start_block new_block;;
      emit_const CNil
  end.

Definition lower_throw (args : list Form) : M VarId :=
  match args with
  | [a] =>
      val ← lower_form a;
      emit (IThrow val);;
      finish_block Unreachable;;
      new_block ← fresh_block;
      start_block new_block;;
      emit_const CNil
  | _ => throw MalformedSpecialForm
  end.

Definition lower_await (args : list Form) : M VarId :=
  match args with
  | [a] =>
      async ← ctx_gets lc_is_async;
      if (async : bool) then src ← lower_form a; emit_alloc (fun dst => IAwait src dst)
      else throw MalformedSpecialForm
  | _ => throw MalformedSpecialForm
  end.

(** ** Functions *)

(** The name of a definition, and its metadata. *)
Definition def_name (f : Form) : outcome LowerError (Name * option Form) :=
  match form_kind f with
  | FSymbol s => Ok (s, None)
  | FMeta meta inner =>
      match form_kind inner with
      | FSymbol s => Ok (s, Some meta)
      | _ => Err MalformedSpecialForm
      end
  | _ => Err MalformedSpecialForm
  end.

Definition emit_def (name : Name) (val : VarId) : M VarId :=
  ns ← get_ns; emit_alloc (fun dst => IDefVar dst ns name val).

Definition lower_def (args : list Form) : M VarId :=
  match args with
  | [] => throw MalformedSpecialForm
  | f :: rest =>
      '(name, _) ← lift (def_name f);
      val ← match rest with a :: _ => lower_form a | [] => emit_const CNil end;
      emit_def name val
  end.

Definition bind_param (name : Name) : M (Name * VarId) :=
  id ← fresh_var; bind_local name id;; mret (name, id).

Definition unwrap_local (name : Name) : M VarId :=
  l ← lookup_local name;
  match l with
  | Some v => mret v
  | None => fun s => (Panic, s)
  end.

Definition destructure_param (info : ParamInfo) : M unit :=
  match pi_pattern info with
  | Some pat => gensym_var ← unwrap_local (pi_name info); lower_destructure_binding pat gensym_var
  | None => mret tt
  end.

(** The index of the first element that satisfies the test. *)
Fixpoint position {A : Type} (p : A -> bool) (l : list A) : option nat :=
  match l with
  | [] => None
  | x :: l' => if p x then Some O else S <$> position p l'
  end.

(** The captured name of a function is a cell that holds it. *)
Definition deref_self (self_name : option Name) (captures : list Name) (bound_params : list (Name * VarId)) : M unit :=
  match self_name with
  | None => mret tt
  | Some sname =>
      match position (str_eqb sname) captures with
      | None => mret tt
      | Some cap_idx =>
          match bound_params !! cap_idx with
          | None => fun s => (Panic, s)
          | Some (_, cap_var) =>
              deref_id ← emit_alloc (fun dst => IDeref dst cap_var);
              bind_local sname deref_id
          end
      end
  end.

(** The blocks of a function: the parameters, then a loop whose variables are
    the parameters that are not captures. *)
Definition lower_arity_blocks (captures : list Name) (infos : list ParamInfo) (self_name : option Name)
    (body_forms : list Form) : M (list (Name * VarId)) :=
  bound_params ← collect bind_param (captures ++ map pi_name infos);
  deref_self self_name captures bound_params;;
  init_block ← current_block_id;
  init_vals ← collect unwrap_local (map pi_name infos);
  header ← fresh_block;
  finish_block (Jump header);;
  start_block header;;
  push_scope;;
  phi_vars ← collect (fun p => loop_phi init_block p.1 p.2) (zip (map pi_name infos) init_vals);
  for_each destructure_param infos;;
  exit_result ← lower_loop_body header phi_vars body_forms;
  finish_block (Return exit_result);;
  mret bound_params.

Definition arity_seeds (captures : list Name) (fixed : list ParamInfo) (has_rest : bool) : list Repr :=
  if existsb (fun pi => bool_decide (is_Some (pi_repr pi))) fixed
  then replicate (length captures) RBoxed ++ map (fun pi => default RBoxed (pi_repr pi)) fixed
       ++ (if has_rest then [RBoxed] else [])
  else [].

Definition lower_fn_arity (arity_name : option Name) (ns : Name) (captures : list Name) (fixed_params : list Form)
    (rest_param : option Form) (body_forms : list Form) (is_async_fn : bool) (self_name : option Name) : M IrFunction :=
  param_infos ← collect fixed_param_info fixed_params;
  rest_info ← collect rest_param_info (option_list rest_param);
  '(bound_params, sub) ← in_ctx (set_is_async is_async_fn (LowerCtx_new arity_name ns))
                           (lower_arity_blocks captures (param_infos ++ rest_info) self_name body_forms);
  let seeds := arity_seeds captures param_infos (bool_decide (is_Some rest_param)) in
  mret (LowerCtx_build bound_params (set_seeds seeds (lc_local_seed_reprs sub) sub)).

(** [__cljrs_fn_{ns}_{base_name}_{fn_uid}_arity{n}], with [_va] for a rest
    parameter. *)
Definition arity_fn_name (ns base_name : Name) (fn_uid : Z) (a : AritySpec) : Name :=
  lit "__cljrs_fn_" ++ ns ++ lit "_" ++ base_name ++ lit "_" ++ to_string fn_uid ++ lit "_arity"
    ++ to_string (Z.of_nat (length (ar_fixed a))) ++ (if bool_decide (is_Some (ar_rest a)) then lit "_va" else []).

Definition lower_arity_of (ns base_name : Name) (fn_uid : Z) (captures : list Name) (is_async_fn : bool)
    (fn_name : option Name) (a : AritySpec) : M unit :=
  subfn ← lower_fn_arity (Some (arity_fn_name ns base_name fn_uid a)) ns captures (ar_fixed a) (ar_rest a)
            (ar_body a) is_async_fn fn_name;
  add_subfunction subfn.

(** A cell for the function's own name, unless a local has it. *)
Definition self_reference (fn_name : option Name) : M (option VarId) :=
  match fn_name with
  | None => mret None
  | Some fname =>
      l ← lookup_local fname;
      match l with
      | Some _ => mret None
      | None =>
          nil_val ← emit_const CNil;
          def_dst ← emit_def fname nil_val;
          push_scope;;
          bind_local fname def_dst;;
          mret (Some def_dst)
      end
  end.

Definition fn_name_of (args : list Form) : option Name * list Form :=
  match args with
  | f :: rest => match form_kind f with FSymbol s => (Some s, rest) | _ => (None, args) end
  | [] => (None, args)
  end.

(** The captures, the arities and the closure of a function whose own name has
    a cell or not. *)
Definition lower_closure (fn_name : option Name) (rest_args : list Form) (ns : Name) (self_var_reg : option VarId)
    (is_async_fn : bool) : M VarId :=
  all_locals ← get_all_locals;
  let captured := filter (fun p => p.1 ∈ collect_symbol_names rest_args) all_locals in
  let captures := map fst captured in
  match self_var_reg with Some _ => pop_scope | None => mret tt end;;
  arities ← lift (raw_arities rest_args);
  base_name ← match fn_name with Some n => mret n | None => gensym "__cljrs_anon_" end;
  fn_uid ← fresh_global_name_id;
  for_each (lower_arity_of ns base_name fn_uid captures is_async_fn fn_name) arities;;
  let tmpl := mkClosureTemplate fn_name (map (arity_fn_name ns base_name fn_uid) arities)
                (map (fun a => length (ar_fixed a)) arities)
                (map (fun a => bool_decide (is_Some (ar_rest a))) arities) captures in
  dst ← emit_alloc (fun dst => IAllocClosure dst tmpl (map snd captured));
  match self_var_reg with Some self_reg => emit (ISetBang self_reg dst) | None => mret tt end;;
  mret dst.

Definition lower_fn (args : list Form) (is_async_fn : bool) : M VarId :=
  let '(fn_name, rest_args) := fn_name_of args in
  ns ← get_ns;
  self_var_reg ← self_reference fn_name;
  lower_closure fn_name rest_args ns self_var_reg is_async_fn.

Definition lower_defn (args : list Form) : M VarId :=
  match args with
  | [] => throw MalformedSpecialForm
  | f :: rest =>
      '(name, meta) ← lift (def_name f);
      let rest' :=
        match rest with
        | d :: _ :: _ => match form_kind d with FStr _ => tail rest | _ => rest end
        | _ => rest
        end in
      fn_val ← lower_fn (mkForm (FSymbol name) (form_span f) :: rest')
                 (match meta with Some m => is_meta_async m | None => false end);
      emit_def name fn_val
  end.

(** A closure over all locals, whose body is lowered as a function of its own. *)
Definition lower_thunk (prefix : string) (fn_params body : list Form) (captured : list (Name * VarId)) : M VarId :=
  ns ← get_ns;
  name ← gensym prefix;
  f ← lower_fn_arity (Some name) ns (map fst captured) fn_params None body false None;
  add_subfunction f;;
  emit_alloc (fun dst =>
    IAllocClosure dst (mkClosureTemplate None [name] [length fn_params] [false] (map fst captured)) (map snd captured)).

Definition clause_of (t : string) (f : Form) : option (list Form) :=
  match form_kind f with
  | FList (h :: p) => if is_symbol h t then Some (h :: p) else None
  | _ => None
  end.

Definition is_catch_or_finally (f : Form) : bool :=
  match form_kind f with
  | FList (h :: _) => is_symbol h "catch" || is_symbol h "finally"
  | _ => false
  end.

(** The forms before the first clause. *)
Fixpoint before_clauses (args : list Form) : list Form :=
  match args with
  | [] => []
  | f :: fs => if is_catch_or_finally f then [] else f :: before_clauses fs
  end.

Definition try_span : Span := mkSpan (lit "<try>") 0 0 1 1.

Definition catch_param (cp : list Form) : Form :=
  mkForm (FSymbol match cp !! 2%nat with
                  | Some f => match form_kind f with FSymbol s => s | _ => lit "e" end
                  | None => lit "e"
                  end) try_span.

Definition lower_try (args : list Form) : M VarId :=
  captured ← get_all_locals;
  body_closure ← lower_thunk "__cljrs_try_body_" []
                   (before_clauses args) captured;
  catch_closure ← match find_map (clause_of "catch") args with
                  | Some cp => lower_thunk "__cljrs_try_catch_" [catch_param cp] (drop 3 cp) captured
                  | None => emit_const CNil
                  end;
  finally_closure ← match find_map (clause_of "finally") args with
                    | Some fp => lower_thunk "__cljrs_try_finally_" [] (tail fp) captured
                    | None => emit_const CNil
                    end;
  emit_known KTryCatchFinally [body_closure; catch_closure; finally_closure].

Definition lower_binding_pair (kv : Form * Form) : M (list VarId) :=
  match form_kind kv.1 with
  | FSymbol s =>
      var_dst ← emit_load_var s;
      val_var ← lower_form kv.2;
      mret [var_dst; val_var]
  | _ => throw MalformedSpecialForm
  end.

Definition lower_binding (args : list Form) : M VarId :=
  '(bindings, body) ← lift (binding_vector args);
  flat ← collect lower_binding_pair (pairs_of bindings);
  captured ← get_all_locals;
  body_closure ← lower_thunk "__cljrs_binding_body_" [] body captured;
  emit_known KWithBindings (concat flat ++ [body_closure]).

Definition lower_with_out_str (body : list Form) : M VarId :=
  captured ← get_all_locals;
  body_closure ← lower_thunk "__cljrs_with_out_str_" [] body captured;
  emit_known KWithOutStr [body_closure].

Record LetfnBinding : Type := mkLetfnBinding {
  lb_name : Name;
  lb_params : Form;
  lb_body : list Form
}.

(** [parts[0]] panics on an empty list. *)
Definition parse_letfn_binding (b : Form) : outcome LowerError LetfnBinding :=
  match form_kind b with
  | FList [] => Panic
  | FList (h :: parts) =>
      match form_kind h with
      | FSymbol s =>
          match parts with
          | [] => Err MalformedSpecialForm
          | ps :: body => Ok (mkLetfnBinding s ps body)
          end
      | _ => Err MalformedSpecialForm
      end
  | _ => Err MalformedSpecialForm
  end.

Fixpoint parse_letfn_bindings (bs : list Form) : outcome LowerError (list LetfnBinding) :=
  match bs with
  | [] => Ok []
  | b :: bs' => p ← parse_letfn_binding b; ps ← parse_letfn_bindings bs'; Ok (p :: ps)
  end.

Definition letfn_cell (p : LetfnBinding) : M VarId :=
  nil_val ← emit_const CNil; emit_def (lb_name p) nil_val.

Definition letfn_span : Span := mkSpan (lit "<letfn>") 0 0 1 1.

Definition letfn_closure (p : LetfnBinding) : M VarId :=
  lower_fn (mkForm (FSymbol (lb_name p)) letfn_span :: lb_params p :: lb_body p) false.

Definition lower_letfn (args : list Form) : M VarId :=
  match args with
  | a :: _ :: _ =>
      match form_kind a with
      | FVector bindings =>
          parsed ← lift (parse_letfn_bindings bindings);
          var_regs ← collect letfn_cell parsed;
          push_scope;;
          for_each (fun p => bind_local (lb_name p.1) p.2) (zip parsed var_regs);;
          closures ← collect letfn_closure parsed;
          pop_scope;;
          for_each (fun p => emit (ISetBang p.1 p.2)) (zip var_regs closures);;
          push_scope;;
          for_each (fun p => fn_val ← emit_alloc (fun dst => IDeref dst p.2); bind_local (lb_name p.1) fn_val)
            (zip parsed var_regs);;
          result ← lower_body (tail args);
          pop_scope;;
          mret result
      | _ => throw MalformedSpecialForm
      end
  | _ => throw MalformedSpecialForm
  end.

Definition lower_set_bang (args : list Form) : M VarId :=
  match args with
  | [target; value] =>
      match form_kind target with
      | FSymbol s =>
          var_dst ← emit_load_var s;
          val ← lower_form value;
          emit (ISetBang var_dst val);;
          mret val
      | _ => throw MalformedSpecialForm
      end
  | _ => throw MalformedSpecialForm
  end.

(** ** Calls *)

Definition first_arg (args : list Form) : M VarId :=
  match args with
  | a :: _ => lower_form a
  | [] => throw MalformedSpecialForm
  end.

Definition second_arg (args : list Form) : M VarId :=
  match args with
  | _ :: b :: _ => lower_form b
  | _ => throw MalformedSpecialForm
  end.

(** [(op x c)] for a constant. *)
Definition inline_with (k : KnownFn) (args : list Form) (c : Const) : M VarId :=
  x ← first_arg args; y ← emit_const c; emit_known k [x; y].

Definition inline_even (args : list Form) : M VarId :=
  x ← first_arg args;
  two ← emit_const (CLong 2);
  rem ← emit_known KRem [x; two];
  zero ← emit_const (CLong 0);
  emit_known KEq [rem; zero].

Definition some_var (m : M VarId) : M (option VarId) := v ← m; mret (Some v).

Definition try_inline_expansion (callee_name : Name) (args : list Form) : M (option VarId) :=
  let name := strip_ns_prefix callee_name in
  if is_name name "inc" then some_var (inline_with KAdd args (CLong 1))
  else if is_name name "dec" then some_var (inline_with KSub args (CLong 1))
  else if one_of name ["unchecked-inc"; "unchecked-inc-int"]%string then
    some_var (inline_with KUncheckedAdd args (CLong 1))
  else if one_of name ["unchecked-dec"; "unchecked-dec-int"]%string then
    some_var (inline_with KUncheckedSub args (CLong 1))
  else if one_of name ["unchecked-negate"; "unchecked-negate-int"]%string then
    x ← first_arg args; zero ← emit_const (CLong 0); some_var (emit_known KUncheckedSub [zero; x])
  else if is_name name "not" then x ← first_arg args; some_var (emit_not x)
  else if is_name name "not=" then
    a ← first_arg args; b ← second_arg args; eq ← emit_known KEq [a; b]; some_var (emit_not eq)
  else if is_name name "zero?" then some_var (inline_with KEq args (CLong 0))
  else if is_name name "pos?" then some_var (inline_with KGt args (CLong 0))
  else if is_name name "neg?" then some_var (inline_with KLt args (CLong 0))
  else if is_name name "even?" then some_var (inline_even args)
  else if is_name name "odd?" then eq ← inline_even args; some_var (emit_not eq)
  else if is_name name "true?" then some_var (inline_with KIdentical args (CBool true))
  else if is_name name "false?" then some_var (inline_with KIdentical args (CBool false))
  else if is_name name "max" then a ← first_arg args; b ← second_arg args; some_var (emit_max a b)
  else if is_name name "min" then a ← first_arg args; b ← second_arg args; some_var (emit_min a b)
  else if is_name name "empty?" then
    x ← first_arg args; seq_dst ← emit_known KSeq [x]; some_var (emit_known KIsNil [seq_dst])
  else mret None.

(** The arguments in front of the last are consed onto it. *)
Fixpoint emit_conses (fixed_args : list VarId) (arglist : VarId) : M VarId :=
  match fixed_args with
  | [] => mret arglist
  | a :: rest => tail_ ← emit_conses rest arglist; emit_known KCons [a; tail_]
  end.

Definition lower_apply_call (arg_forms : list Form) : M VarId :=
  if (length arg_forms <? 2)%nat then throw MalformedSpecialForm
  else
    arg_vars ← lower_forms arg_forms;
    match arg_vars with
    | f_var :: _ :: _ :: _ =>
        let rest := tail arg_vars in
        combined ← emit_conses (removelast rest) (List.last rest 0);
        emit_known KApply [f_var; combined]
    | _ => emit_known KApply arg_vars
    end.

(** The functions that dispatch on the number of arguments. *)
Definition by_arity (k : KnownFn) (n : nat) : option (option KnownFn) :=
  match k with
  | KReduce2 => Some match n with 2 => Some KReduce2 | 3 => Some KReduce3 | _ => None end%nat
  | KInto => Some match n with 2 => Some KInto | 3 => Some KInto3 | _ => None end%nat
  | KRange1 => Some match n with 1 => Some KRange1 | 2 => Some KRange2 | 3 => Some KRange3 | _ => None end%nat
  | KPartition2 =>
      Some match n with 2 => Some KPartition2 | 3 => Some KPartition3 | 4 => Some KPartition4 | _ => None end%nat
  | KConcat | KMerge | KJuxt | KComp | KPartial => Some (Some k)
  | _ => None
  end.

Definition dynamic_call (name : Name) (arg_vars : list VarId) : M VarId :=
  callee ← lower_symbol name; emit_call callee arg_vars.

Definition lower_fixed_arity_call (known : KnownFn) (name : Name) (arg_vars : list VarId) : M VarId :=
  match known, arg_vars with
  | KPr, [] => empty ← emit_const (CStr []); emit_known KPr [empty]
  | _, _ =>
      match known_fn_arity known with
      | Some n => if (length arg_vars =? n)%nat then emit_known known arg_vars else dynamic_call name arg_vars
      | None => emit_known known arg_vars
      end
  end.

Definition lower_known_call (known : KnownFn) (name : Name) (arg_forms : list Form) : M VarId :=
  match known with
  | KApply => lower_apply_call arg_forms
  | _ =>
      arg_vars ← lower_forms arg_forms;
      match by_arity known (length arg_vars) with
      | Some (Some k) => emit_known k arg_vars
      | Some None => dynamic_call name arg_vars
      | None =>
          if is_binary_foldable known then emit_binary_fold known arg_vars
          else lower_fixed_arity_call known name arg_vars
      end
  end.

Definition lower_generic_call (callee_form : Form) (arg_forms : list Form) : M VarId :=
  callee ← lower_form callee_form; arg_vars ← lower_forms arg_forms; emit_call callee arg_vars.

Definition lower_call (callee_form : Form) (arg_forms : list Form) : M VarId :=
  match form_kind callee_form with
  | FSymbol name =>
      inlined ← try_inline_expansion name arg_forms;
      match inlined with
      | Some result => mret result
      | None =>
          match resolve_known_fn name with
          | Some known => lower_known_call known name arg_forms
          | None => lower_generic_call callee_form arg_forms
          end
      end
  | _ => lower_generic_call callee_form arg_forms
  end.

(** ** Lists *)

Definition starts_with_dot (s : Name) : bool :=
  match s with
  | c :: _ :: _ => (c =? 46) && negb (is_name s "..")
  | _ => false
  end.

Definition lower_list (head_ : Form) (args : list Form) : M VarId :=
  match form_kind head_ with
  | FKeyword s =>
      match args with
      | [m] => mv ← lower_form m; k ← emit_const (CKeyword s); emit_known KGet [mv; k]
      | [_; _] => lower_generic_call head_ args
      | _ => throw MalformedSpecialForm
      end
  | FSymbol sym0 =>
      let sym := default sym0 (strip_prefix (lit "clojure.core/") sym0) in
      if is_name sym "if" then lower_if args
      else if is_name sym "do" then lower_body args
      else if one_of sym ["let"; "let*"]%string then lower_let args
      else if one_of sym ["loop"; "loop*"]%string then lower_loop args
      else if is_name sym "recur" then lower_recur args
      else if is_name sym "def" then lower_def args
      else if one_of sym ["fn"; "fn*"]%string then lower_fn args false
      else if is_name sym "defn" then lower_defn args
      else if is_name sym "quote" then
        match args with [a] => lower_quote a | _ => throw MalformedSpecialForm end
      else if is_name sym "await" then lower_await args
      else if is_name sym "throw" then lower_throw args
      else if is_name sym "set!" then lower_set_bang args
      else if is_name sym "and" then lower_and args
      else if is_name sym "or" then lower_or args
      else if is_name sym "try" then lower_try args
      else if is_name sym "binding" then lower_binding args
      else if is_name sym "locking" then
        match args with
        | [] => throw MalformedSpecialForm
        | monitor :: body => lower_form monitor;; lower_body body
        end
      else if is_name sym "letfn" then lower_letfn args
      else if is_name sym "with-out-str" then lower_with_out_str args
      else if is_name sym "var" then
        match args with
        | a :: _ => match form_kind a with FSymbol s => emit_load_var s | _ => throw MalformedSpecialForm end
        | [] => throw MalformedSpecialForm
        end
      else if one_of sym ["ns"; "require"; "in-ns"; "alias"; "load-file"; "defmacro"; "defonce"; "defprotocol";
                          "extend-type"; "extend-protocol"; "defmulti"; "defmethod"; "defrecord"; "deftype";
                          "reify"; "defn-"; "."]%string then throw UnsupportedForm
      else if starts_with_dot sym then
        match args with
        | [] => throw MalformedSpecialForm
        | _ => arg_vars ← lower_forms args; emit_alloc (fun dst => ICallDirect dst sym arg_vars)
        end
      else lower_call head_ args
  | _ => lower_call head_ args
  end.

(** ** Forms *)

Definition lower_form_step (form : Form) : M VarId :=
  maybe_emit_source_loc (form_span form);;
  match form_kind form with
  | FNil => emit_const CNil
  | FBool b => emit_const (CBool b)
  | FInt n => emit_const (CLong n)
  | FBigInt s => match parse_i64 s with Some n => emit_const (CLong n) | None => throw UnsupportedForm end
  | FFloat f | FSymbolic f => emit_const (CDouble f)
  | FBigDecimal s => emit_const (CDouble (default 0 (parse_f64 s)))
  | FRatio s => emit_const (CDouble (ratio_bits s))
  | FChar c => emit_const (CChar c)
  | FStr s => emit_const (CStr s)
  | FRegex s => lower_call (sym_form "re-pattern" (form_span form)) [mkForm (FStr s) (form_span form)]
  | FKeyword s => emit_const (CKeyword s)
  | FAutoKeyword s => ns ← get_ns; emit_const (CKeyword (ns ++ slash :: s))
  | FSymbol s => lower_symbol s
  | FVector elems => vars ← lower_forms elems; emit_alloc (fun dst => IAllocVector dst vars)
  | FMap pairs => kv ← collect_pairs lower_form pairs; emit_alloc (fun dst => IAllocMap dst kv)
  | FSet elems => vars ← lower_forms elems; emit_alloc (fun dst => IAllocSet dst vars)
  | FList [] => emit_alloc (fun dst => IAllocList dst [])
  | FList (head_ :: args) => lower_list head_ args
  | FQuote inner => lower_quote inner
  | FDeref inner => src ← lower_form inner; emit_alloc (fun dst => IDeref dst src)
  | FVar inner => match form_kind inner with FSymbol s => emit_load_var s | _ => throw UnsupportedForm end
  | FMeta meta inner =>
      match form_kind inner with
      | FList (h :: args) =>
          if (is_symbol h "fn" || is_symbol h "fn*") && is_meta_async meta then lower_fn args true
          else lower_form inner
      | _ => lower_form inner
      end
  | FSyntaxQuote _ | FUnquote _ | FUnquoteSplice _ | FAnonFn _ | FReaderCond _ _ | FTaggedLiteral _ _ =>
      throw UnsupportedForm
  end.
End Forms.

Definition out_of_fuel {A : Type} : M A := fun s => (OutOfFuel, s).

Fixpoint lower_form (fuel : nat) (form : Form) : M VarId :=
  match fuel with
  | O => out_of_fuel
  | S n => lower_form_step (lower_form n) (lower_destructure_binding n) form
  end
with lower_destructure_binding (fuel : nat) (pattern : Form) (val : VarId) : M unit :=
  match fuel with
  | O => out_of_fuel
  | S n => destructure_step (lower_form n) (lower_destructure_binding n) pattern val
  end.

(** * Entry points *)

(** [bound_params[*idx]] panics out of range. *)
Definition destructure_entry (fuel : nat) (bound_params : list (Name * VarId)) (d : nat * Form) : M unit :=
  match bound_params !! d.1 with
  | Some (_, var) => lower_destructure_binding fuel d.2 var
  | None => fun s => (Panic, s)
  end.

Definition lower_fn_blocks (fuel : nat) (param_names : list Name) (destructures : list (nat * Form))
    (body : list Form) : M (list (Name * VarId)) :=
  bound_params ← collect bind_param param_names;
  for_each (destructure_entry fuel bound_params) destructures;;
  result ← lower_body (lower_form fuel) body;
  finish_block (Return result);;
  mret bound_params.

(** Takes and returns the counter of global names. *)
Definition lower_fn_body_destructured (fuel : nat) (name : option Name) (ns : Name) (param_names : list Name)
    (destructures : list (nat * Form)) (body : list Form) (is_async_fn : bool) (names : Z)
    : outcome LowerError IrFunction * Z :=
  let '(o, s) := lower_fn_blocks fuel param_names destructures body
                   (mkLowerState (set_is_async is_async_fn (LowerCtx_new name ns)) names) in
  (bound_params ← o; Ok (LowerCtx_build bound_params (ls_ctx s)), ls_names s).

Definition lower_fn_body (fuel : nat) (name : option Name) (ns : Name) (param_names : list Name) (body : list Form)
    (is_async_fn : bool) (names : Z) : outcome LowerError IrFunction * Z :=
  lower_fn_body_destructured fuel name ns param_names [] body is_async_fn names.

Definition with_seed_reprs (rs : list Repr) (f : IrFunction) : IrFunction :=
  mkIrFunction (fn_name f) (params f) (blocks f) (next_var f) (next_block f) (fn_span f) (subfunctions f) (is_async f)
    (is_async_poll_fn f) (async_resume_blocks f) rs (local_seed_reprs f).

Definition lower_fn_body_seeded (fuel : nat) (name : option Name) (ns : Name) (param_names : list Name)
    (destructures : list (nat * Form)) (body : list Form) (is_async_fn : bool) (seeds : list Repr) (names : Z)
    : outcome LowerError IrFunction * Z :=
  let '(o, names') := lower_fn_body_destructured fuel name ns param_names destructures body is_async_fn names in
  (ir ← o; Ok (if existsb (fun r => negb (bool_decide (r = RBoxed))) seeds then with_seed_reprs seeds ir else ir),
   names').
