(* ===== verification/LowerTotal.v ===== *)
(** Lowering ends: a bound on the nesting of calls that a form needs, and that
    lowering with as much fuel never runs out of it. *)
From stdpp Require Import gmap strings.
From S2P Require Import Prelude RustStd Token Lexer Form Ir NativeOps Lower.

(** * The fuel of a form *)

(** A form with its subforms.  The conditions of a function are moved from a
    map in its list into new forms around the body, deeper by a few levels; a
    list is charged for each map it holds. *)
Definition is_map (f : Form) : bool := match form_kind f with FMap _ => true | _ => false end.

Definition count_maps (fs : list Form) : nat := length (filter is_map fs).

Fixpoint weight (f : Form) : nat :=
  match f with
  | mkForm k _ =>
      match k with
      | FList fs => 10 + foldr (fun g n => weight g `max` n) 0 fs + 300 * count_maps fs
      | FVector fs | FMap fs | FSet fs | FAnonFn fs | FReaderCond _ fs => 20 + foldr (fun g n => weight g `max` n) 0 fs
      | FQuote g | FSyntaxQuote g | FUnquote g | FUnquoteSplice g | FDeref g | FVar g | FTaggedLiteral _ g => 10 + weight g
      | FMeta m g => 10 + weight m `max` weight g
      | FRegex _ => 10
      | _ => 1
      end
  end.

Definition heaviest (fs : list Form) : nat := foldr (fun g n => weight g `max` n) 0 fs.

(** Forms of at most some weight. *)
Abbreviation light n := (Forall (fun f => weight f <= n)).

Lemma light_heaviest n fs : light n fs <-> heaviest fs <= n.
Proof.
  induction fs as [|f fs IH]; cbn [heaviest foldr]; [split; [lia|done]|]. fold (heaviest fs).
  rewrite Forall_cons, IH. lia.
Qed.

Lemma light_mono n n' fs : light n fs -> n <= n' -> light n' fs.
Proof. rewrite !light_heaviest. lia. Qed.

Lemma weight_children n f : weight f <= 10 + n -> light n (children f).
Proof.
  intros H. apply light_heaviest. revert H. destruct f as [[] sp]; cbn [weight children form_kind heaviest foldr];
    unfold heaviest; lia.
Qed.

Lemma weight_pos f : 1 <= weight f.
Proof. destruct f as [[] sp]; cbn [weight]; lia. Qed.

(** The arguments of a list: what they weigh and the maps among them. *)
Definition roomy (n : nat) (fs : list Form) : Prop := heaviest fs + 300 * count_maps fs + 9 <= n.

Lemma roomy_light n fs : roomy n fs -> light n fs.
Proof. intros H. apply light_heaviest. unfold roomy in H. lia. Qed.

Lemma count_maps_cons f fs : count_maps (f :: fs) = (if is_map f then 1 else 0) + count_maps fs.
Proof. unfold count_maps. rewrite filter_cons. by destruct (is_map f). Qed.

Lemma roomy_cons n f fs : roomy n (f :: fs) -> weight f + 9 <= n /\ roomy n fs.
Proof.
  unfold roomy. rewrite count_maps_cons. cbn [heaviest foldr]. fold (heaviest fs). destruct (is_map f); lia.
Qed.

Lemma roomy_symbol n s sp fs : roomy n fs -> 10 <= n -> roomy n (mkForm (FSymbol s) sp :: fs).
Proof.
  unfold roomy. rewrite (count_maps_cons _ fs). destruct fs as [|f fs]; [cbn; lia|]. pose proof (weight_pos f).
  cbn [heaviest foldr weight is_map form_kind]. lia.
Qed.

Lemma roomy_list n f fs : weight f <= S n -> form_kind f = FList fs -> roomy n fs.
Proof. destruct f as [k sp]. cbn [form_kind]. intros H ->. cbn [weight] in H. unfold roomy, heaviest. lia. Qed.

(** * Code that does not run out of fuel *)

Definition fueled {A : Type} (m : M A) : Prop := forall s, (m s).1 <> OutOfFuel.

Lemma fueled_ret {A : Type} (a : A) : fueled (mret a).
Proof. done. Qed.

Lemma fueled_bind {A B : Type} (m : M A) (k : A -> M B) : fueled m -> (forall a, fueled (k a)) -> fueled (m ≫= k).
Proof.
  intros Hm Hk s. specialize (Hm s). unfold mbind, stateM_bind. destruct (m s) as [[a|e| |] s']; try done. apply Hk.
Qed.

Lemma fueled_throw {A : Type} e : fueled (@throw A e).
Proof. done. Qed.

Lemma fueled_ctx_modify f : fueled (ctx_modify f).
Proof. done. Qed.

Lemma fueled_ctx_gets {A : Type} (f : LowerCtx -> A) : fueled (ctx_gets f).
Proof. done. Qed.

Lemma fueled_fresh_var : fueled fresh_var.
Proof. intros s. unfold fresh_var. by case_match. Qed.

Lemma fueled_fresh_block : fueled fresh_block.
Proof. intros s. unfold fresh_block. by case_match. Qed.

Lemma fueled_names : fueled fresh_global_name_id.
Proof. done. Qed.

(** Work on a parsed value knows what was parsed. *)
Lemma fueled_lift {A B : Type} (o : outcome LowerError A) (k : A -> M B) :
  o <> OutOfFuel -> (forall a, o = Ok a -> fueled (k a)) -> fueled (lift o ≫= k).
Proof. intros Ho Hk s. unfold lift, mbind, stateM_bind. destruct o as [a|e| |]; try done. by apply Hk. Qed.

Lemma fueled_in_ctx {A : Type} c (m : M A) : fueled m -> fueled (in_ctx c m).
Proof. intros Hm s. unfold in_ctx. specialize (Hm (mkLowerState c (ls_names s))). by destruct (m _) as [[a|e| |] s']. Qed.

Lemma fueled_collect {A B : Type} (f : A -> M B) l : (forall x, x ∈ l -> fueled (f x)) -> fueled (collect f l).
Proof.
  induction l as [|x l IH]; intros Hf; cbn [collect]; [done|].
  apply fueled_bind; [apply Hf; by left|intros y]. apply fueled_bind; [apply IH; intros z Hz; apply Hf; by right|]. done.
Qed.

Lemma fueled_for_each {A : Type} (f : A -> M unit) l : (forall x, x ∈ l -> fueled (f x)) -> fueled (for_each f l).
Proof.
  induction l as [|x l IH]; intros Hf; cbn [for_each]; [done|].
  apply fueled_bind; [apply Hf; by left|intros _]. apply IH. intros z Hz. apply Hf. by right.
Qed.

(** What a result satisfies, whatever the state. *)
Definition yields {A : Type} (m : M A) (Q : A -> Prop) : Prop := forall s a, (m s).1 = Ok a -> Q a.

Lemma yields_bind {A B : Type} (m : M A) (k : A -> M B) P Q :
  yields m P -> (forall a, P a -> yields (k a) Q) -> yields (m ≫= k) Q.
Proof.
  intros Hm Hk s b. unfold mbind, stateM_bind. specialize (Hm s). destruct (m s) as [[a|e| |] s'] eqn:E; try done.
  intros Hb. eapply Hk; [by apply Hm|exact Hb].
Qed.

Lemma yields_ret {A : Type} (a : A) (Q : A -> Prop) : Q a -> yields (mret a) Q.
Proof. intros Ha s b [= <-]. done. Qed.

Lemma yields_any {A : Type} (m : M A) : yields m (fun _ => True).
Proof. done. Qed.

Lemma yields_collect {A B : Type} (f : A -> M B) (Q : B -> Prop) l :
  (forall x, x ∈ l -> yields (f x) Q) -> yields (collect f l) (Forall Q).
Proof.
  induction l as [|x l IH]; intros Hf; cbn [collect]; [by apply yields_ret|].
  eapply yields_bind; [apply Hf; by left|]. intros y Hy.
  eapply yields_bind; [apply IH; intros z Hz; apply Hf; by right|]. intros ys Hys. apply yields_ret. by constructor.
Qed.

Lemma fueled_bind_with {A B : Type} (m : M A) (k : A -> M B) Q :
  fueled m -> yields m Q -> (forall a, Q a -> fueled (k a)) -> fueled (m ≫= k).
Proof.
  intros Hm HQ Hk s. specialize (Hm s). specialize (HQ s). unfold mbind, stateM_bind.
  destruct (m s) as [[a|e| |] s']; try done. by apply Hk, HQ.
Qed.

Create HintDb fuel.

#[export] Hint Resolve fueled_ret fueled_throw fueled_ctx_modify fueled_ctx_gets fueled_fresh_var fueled_fresh_block
  fueled_names fueled_in_ctx : fuel.

(** Sequences, cases and the lemmas of the code they run. *)
Ltac fuel_step :=
  match goal with
  | |- forall _, fueled _ => intros ?
  | |- fueled (mret _) => done
  | |- fueled (throw _) => done
  | |- fueled (mbind _ (lift _)) => fail 1
  | |- fueled (mbind _ _) => apply fueled_bind; [|intros ?]
  | |- fueled _ => solve [auto with fuel]
  | |- fueled (match _ with _ => _ end) => case_match
  | |- fueled (collect _ _) => apply fueled_collect; intros ??
  | |- fueled (for_each _ _) => apply fueled_for_each; intros ??
  end.
Ltac fuel := repeat fuel_step.

(** Operations of the builder that always succeed. *)
#[export] Hint Extern 1 (fueled (emit _)) => done : fuel.
#[export] Hint Extern 1 (fueled (emit_phi _ _)) => done : fuel.
#[export] Hint Extern 1 (fueled (finish_block _)) => done : fuel.
#[export] Hint Extern 1 (fueled (start_block _)) => done : fuel.
#[export] Hint Extern 1 (fueled current_block_id) => done : fuel.
#[export] Hint Extern 1 (fueled current_loop_header) => done : fuel.
#[export] Hint Extern 1 (fueled (lookup_local _)) => done : fuel.
#[export] Hint Extern 1 (fueled (bind_local _ _)) => done : fuel.
#[export] Hint Extern 1 (fueled get_all_locals) => done : fuel.
#[export] Hint Extern 1 (fueled get_ns) => done : fuel.
#[export] Hint Extern 1 (fueled push_scope) => done : fuel.
#[export] Hint Extern 1 (fueled pop_scope) => done : fuel.
#[export] Hint Extern 1 (fueled (push_loop_header _ _)) => done : fuel.
#[export] Hint Extern 1 (fueled pop_loop_header) => done : fuel.
#[export] Hint Extern 1 (fueled (update_phi_in_header _ _ _ _)) => done : fuel.
#[export] Hint Extern 1 (fueled (add_subfunction _)) => done : fuel.
#[export] Hint Extern 1 (fueled (push_local_seed _ _)) => done : fuel.
#[export] Hint Extern 1 (fueled (maybe_emit_source_loc _)) => done : fuel.
#[export] Hint Extern 1 (fueled (gensym _)) => done : fuel.
#[export] Hint Extern 1 (fueled (fun s => (Panic, s))) => done : fuel.

Lemma fueled_emit_const k : fueled (emit_const k).
Proof. unfold emit_const. fuel. Qed.

Lemma fueled_emit_alloc i : fueled (emit_alloc i).
Proof. unfold emit_alloc. fuel. Qed.

Lemma fueled_emit_known k args : fueled (emit_known k args).
Proof. unfold emit_known. fuel. Qed.

Lemma fueled_emit_call c args : fueled (emit_call c args).
Proof. unfold emit_call. fuel. Qed.

#[export] Hint Resolve fueled_emit_const fueled_emit_alloc fueled_emit_known fueled_emit_call : fuel.

(** ** Code that lowers no form *)

Lemma fueled_rest_from v i : fueled (lower_emit_rest_from v i).
Proof.
  assert (H : forall c, fueled (emit_rests c i)) by (induction i; intros c; cbn [emit_rests]; fuel).
  unfold lower_emit_rest_from. fuel.
Qed.

Lemma fueled_symbol n : fueled (lower_symbol n).
Proof. unfold lower_symbol. fuel. Qed.

Lemma fueled_load_var n : fueled (emit_load_var n).
Proof. unfold emit_load_var. fuel. Qed.

Lemma fueled_not x : fueled (emit_not x).
Proof. unfold emit_not. fuel. Qed.

Lemma fueled_select k a b : fueled (emit_select k a b).
Proof. unfold emit_select. fuel. Qed.

Lemma fueled_chain k b args ps : fueled (chain_pairs k b args ps).
Proof. revert ps. induction args as [|[x y] args IH]; intros ps; cbn [chain_pairs]; fuel. Qed.

#[export] Hint Resolve fueled_rest_from fueled_symbol fueled_load_var fueled_not fueled_select fueled_chain : fuel.

Lemma fueled_fold k args : fueled (emit_binary_fold k args).
Proof.
  assert (H : forall l p, fueled (emit_left_fold k p l)) by (induction l; intros p; cbn [emit_left_fold]; fuel).
  unfold emit_binary_fold, emit_comparison_chain. fuel.
Qed.

(** Two elements at a time. *)
Lemma pairs_ind {A : Type} (P : list A -> Prop) :
  P [] -> (forall x, P [x]) -> (forall x y l, P l -> P (x :: y :: l)) -> forall l, P l.
Proof.
  intros H0 H1 H2 l. assert (H : P l /\ forall x, P (x :: l)); [|apply H].
  induction l as [|y l [IH1 IH2]]; [auto|]. split; [apply IH2|]. intros x. by apply H2.
Qed.

Lemma fueled_pairs {A B : Type} (f : A -> M B) l : (forall x, x ∈ l -> fueled (f x)) -> fueled (collect_pairs f l).
Proof.
  induction l as [|x|x y l IH] using pairs_ind; intros Hf; cbn [collect_pairs]; [done..|].
  apply fueled_bind; [apply Hf; by left|intros a]. apply fueled_bind; [apply Hf; right; by left|intros b].
  apply fueled_bind; [apply IH; intros z Hz; apply Hf; by do 2 right|]. done.
Qed.

Lemma fueled_quote f : fueled (lower_quote f).
Proof.
  induction f as [[k sp] IH] using form_ind'. rewrite Forall_forall in IH.
  destruct k; cbn [lower_quote]; fuel. apply fueled_pairs. intros. by apply IH.
Qed.

Lemma fueled_unwrap n : fueled (unwrap_local n).
Proof. unfold unwrap_local. fuel. Qed.

Lemma fueled_deref_self self caps bps : fueled (deref_self self caps bps).
Proof. unfold deref_self. fuel. Qed.

Lemma fueled_self_reference n : fueled (self_reference n).
Proof. unfold self_reference, emit_def. fuel. Qed.

Lemma fueled_loop_phi b n v : fueled (loop_phi b n v).
Proof. unfold loop_phi. fuel. Qed.

Lemma fueled_conses l v : fueled (emit_conses l v).
Proof. induction l; cbn [emit_conses]; fuel. Qed.

#[export] Hint Resolve fueled_fold fueled_quote fueled_unwrap fueled_deref_self fueled_self_reference fueled_loop_phi
  fueled_conses : fuel.

(** * Conditions *)

Lemma pairs_of_in {A : Type} (l : list A) x y : (x, y) ∈ pairs_of l -> x ∈ l /\ y ∈ l.
Proof.
  induction l as [|a|a b l IH] using pairs_ind; intros Hp; cbn [pairs_of] in Hp; [set_solver..|].
  apply elem_of_cons in Hp as [[= -> ->]|Hp]; [set_solver|]. apply IH in Hp. set_solver.
Qed.

Lemma conditions_light n key es : light (10 + n) es -> light n (concat (conditions key es)).
Proof.
  rewrite !Forall_forall. intros He c Hc. apply list_elem_of_In, in_concat in Hc as (cs & Hcs & Hc).
  apply list_elem_of_In in Hcs, Hc. unfold conditions in Hcs. apply list_elem_of_omap in Hcs as ([k v] & Hp & E).
  cbn [fst snd] in E. destruct (is_keyword k key); [|done]. apply pairs_of_in in Hp as [_ Hv]. apply He in Hv.
  destruct (form_kind v) eqn:Ev; try done. injection E as ->. apply weight_children in Hv. unfold children in Hv.
  rewrite Ev in Hv. by eapply Forall_forall in Hv.
Qed.

Lemma assert_weight sp c : weight (make_assert_call sp c) <= 310 + weight c.
Proof.
  pose proof (weight_pos c). cbn [make_assert_call weight foldr]. rewrite !count_maps_cons. cbn. destruct (is_map c); lia.
Qed.

Lemma asserts_light n sp cs : light n cs -> light (310 + n) (map (make_assert_call sp) cs).
Proof.
  intros Hc. apply Forall_fmap. eapply Forall_impl; [exact Hc|]. intros c Hw. unfold compose.
  pose proof (assert_weight sp c). simpl in Hw. lia.
Qed.

Lemma list_weight n sp fs : light n fs -> 10 + n + 300 * count_maps fs >= weight (mkForm (FList fs) sp).
Proof. rewrite light_heaviest. unfold heaviest. cbn [weight]. lia. Qed.

Lemma asserts_maps sp cs : count_maps (map (make_assert_call sp) cs ++ [sym_form "%" sp]) = 0.
Proof. induction cs as [|c cs IH]; [done|]. cbn [map app]. by rewrite count_maps_cons. Qed.

(** The conditions and the body of a function, moved into new forms. *)
Lemma desugar_light n body : roomy n body -> light n (desugar_pre_post_conditions body).
Proof.
  intros Hr. pose proof (roomy_light n body Hr) as Hl. unfold desugar_pre_post_conditions.
  destruct body as [|first real]; [done|]. destruct (form_kind first) as [| | | | | | | | | | | | | | | |es| | | | | | | | | | |] eqn:Ek; try done.
  destruct (conditions "pre" es ++ conditions "post" es); [done|].
  unfold roomy in Hr. rewrite count_maps_cons in Hr. unfold is_map in Hr. rewrite Ek in Hr.
  cbn [heaviest foldr] in Hr. fold (heaviest real) in Hr.
  assert (20 <= weight first) by (destruct first as [k sp]; cbn [form_kind] in Ek; subst k; cbn [weight]; lia).
  assert (He : light (weight first - 10) es).
  { pose proof (weight_children (weight first - 10) first ltac:(lia)) as Hc. unfold children in Hc. by rewrite Ek in Hc. }
  assert (Hc : forall key, light (310 + (weight first - 20)) (map (make_assert_call (form_span first)) (concat (conditions key es)))).
  { intros key. apply asserts_light, conditions_light. eapply light_mono; [exact He|lia]. }
  apply Forall_app. split; [eapply light_mono; [apply Hc|lia]|].
  destruct (concat (conditions "post" es)) as [|p ps] eqn:Ep; [by apply Forall_cons in Hl as [_ Hl]|].
  specialize (Hc "post"%string). rewrite Ep in Hc. constructor; [|done].
  set (e := match real with [e] => e | _ => _ end).
  assert (Hw : weight e <= 11 + heaviest real + 300 * count_maps real).
  { subst e. pose proof (list_weight (heaviest real `max` 1) (form_span first) (sym_form "do" (form_span first) :: real)) as Hd.
    rewrite count_maps_cons in Hd.
    assert (Hh : light (heaviest real `max` 1) real) by (apply light_heaviest; lia).
    destruct real as [|x [|y real]]; [vm_compute; lia|cbn [heaviest foldr]; lia|]. pose proof (weight_pos x).
    etrans; [apply Hd; constructor; [cbn; lia|done]|]. cbn [heaviest foldr is_map form_kind sym_form]. lia. }
  pose proof (list_weight (n - 10) (form_span first)
    (sym_form "let*" (form_span first) :: mkForm (FVector [sym_form "%" (form_span first); e]) (form_span first) ::
     map (make_assert_call (form_span first)) (p :: ps) ++ [sym_form "%" (form_span first)])) as Hlet.
  rewrite !count_maps_cons, asserts_maps in Hlet. cbn [is_map form_kind sym_form] in Hlet.
  etrans; [apply Hlet|lia]. constructor; [cbn; lia|]. constructor; [cbn [weight foldr sym_form]; lia|].
  apply Forall_app. split; [eapply light_mono; [exact Hc|lia]|]. constructor; [cbn; lia|done].
Qed.

(** ** Arities *)

Lemma parse_params_light n ps fixed r : light n ps -> parse_params ps = Ok (fixed, r) -> light n (fixed ++ option_list r).
Proof.
  revert fixed r. induction ps as [|p ps IH]; intros fixed r Hl; cbn [parse_params]; [by intros [= <- <-]|].
  apply Forall_cons in Hl as [Hp Hl]. case_match.
  - destruct ps as [|q ps]; [done|]. intros [= <- <-]. apply Forall_cons in Hl as [Hq _]. by constructor.
  - destruct (parse_params ps) as [[fixed' r']| | |] eqn:E; try done. intros [= <- <-]. constructor; [done|]. by apply IH.
Qed.

Lemma parse_params_fueled ps : parse_params ps <> OutOfFuel.
Proof.
  induction ps as [|p ps IH]; cbn [parse_params]; [done|]. destruct (is_symbol p "&"); [by destruct ps|].
  by destruct (parse_params ps) as [[]| | |].
Qed.

Definition arity_light (n : nat) (a : AritySpec) : Prop := light n (ar_fixed a ++ option_list (ar_rest a) ++ ar_body a).

Lemma arity_of_light n ps body a : light n ps -> roomy n body -> arity_of ps body = Ok a -> arity_light n a.
Proof.
  intros Hl Hb. unfold arity_of. destruct (parse_params ps) as [[fixed r]| | |] eqn:E; try done. intros [= <-].
  unfold arity_light. cbn [ar_fixed ar_rest ar_body]. rewrite app_assoc. apply Forall_app. split; [by eapply parse_params_light|].
  by apply desugar_light.
Qed.

Lemma arity_of_fueled ps body : arity_of ps body <> OutOfFuel.
Proof. unfold arity_of. pose proof (parse_params_fueled ps). by destruct (parse_params ps) as [[]| | |]. Qed.

Lemma kind_children n f fs :
  weight f <= 10 + n -> form_kind f = FVector fs \/ form_kind f = FMap fs -> light n fs.
Proof. intros H [E|E]; apply weight_children in H; unfold children in H; by rewrite E in H. Qed.

Lemma parse_arity_ok n f :
  weight f <= S n -> parse_arity f <> OutOfFuel /\ forall a, parse_arity f = Ok a -> arity_light n a.
Proof.
  intros Hw. unfold parse_arity. destruct (form_kind f) as [| | | | | | | | | | | | | |[|p body]| | | | | | | | | | | | |] eqn:Ef; try done.
  pose proof (roomy_list _ _ _ Hw Ef) as [Hp Hb]%roomy_cons.
  destruct (form_kind p) eqn:Ep; try done. split; [apply arity_of_fueled|]. intros a. apply arity_of_light; [|done].
  eapply kind_children; [|by left]. lia.
Qed.

Lemma parse_arities_ok n fs :
  light (S n) fs -> parse_arities fs <> OutOfFuel /\ forall l, parse_arities fs = Ok l -> Forall (arity_light n) l.
Proof.
  induction 1 as [|f fs Hf _ [IH1 IH2]]; cbn [parse_arities]; [by split; [|intros ? [= <-]]|].
  destruct (parse_arity_ok n f Hf) as [H1 H2]. destruct (parse_arity f) as [a| | |]; try done.
  destruct (parse_arities fs) as [l| | |]; try done. split; [done|]. intros ? [= <-]. constructor; auto.
Qed.

Lemma raw_arities_ok n args :
  roomy n args -> raw_arities args <> OutOfFuel /\ forall l, raw_arities args = Ok l -> Forall (arity_light n) l.
Proof.
  intros Hr. unfold raw_arities. destruct args as [|p body]; [by split; [|intros ? [= <-]; repeat constructor]|].
  assert (Hps : parse_arities (p :: body) <> OutOfFuel /\ forall l, parse_arities (p :: body) = Ok l -> Forall (arity_light n) l).
  { apply parse_arities_ok. eapply light_mono; [by apply roomy_light|lia]. }
  apply roomy_cons in Hr as [Hp Hb]. destruct (form_kind p) as [| | | | | | | | | | | | | | |ps| | | | | | | | | | | |] eqn:Ep; try exact Hps.
  pose proof (arity_of_fueled ps body). pose proof (arity_of_light n ps body) as Ha.
  destruct (arity_of ps body) as [a| | |]; try done. split; [done|]. intros ? [= <-]. constructor; [|done].
  apply Ha; [|done..]. eapply kind_children; [|by left]. lia.
Qed.

(** * Lowering *)

Section Lowering.
Context (lf : Form -> M VarId) (ld : Form -> VarId -> M unit) (n : nat).
Context (Hlf : forall f, weight f <= n -> fueled (lf f)).
Context (Hld : forall p v, weight p <= n -> fueled (ld p v)).

Lemma fueled_forms fs : light n fs -> fueled (lower_forms lf fs).
Proof using Hlf. intros Hl. apply fueled_collect. intros x Hx. apply Hlf. by eapply Forall_forall in Hl. Qed.

Lemma fueled_body fs : light n fs -> fueled (lower_body lf fs).
Proof using Hlf.
  intros Hl. assert (H : forall v fs, light n fs -> fueled (lower_body_from lf v fs)).
  { intros v fs' Hl'. revert v. induction Hl'; intros v; cbn [lower_body_from]; fuel. }
  destruct Hl; cbn [lower_body]; fuel.
Qed.

Hint Resolve fueled_forms fueled_body : fuel.

Lemma fueled_pairs_of l (f : Form * Form -> M unit) :
  light n l -> (forall p, weight p.1 <= n -> weight p.2 <= n -> fueled (f p)) -> fueled (for_each f (pairs_of l)).
Proof using.
  rewrite Forall_forall. intros Hl Hf. apply fueled_for_each. intros [x y] Hp. apply pairs_of_in in Hp as [Hx Hy]. auto.
Qed.

(** ** Destructuring *)

Lemma fueled_sequential ps i v : light n ps -> fueled (lower_destructure_sequential ld ps i v).
Proof using Hld.
  remember (length ps) as k eqn:Ek. revert ps i Ek. induction k as [k IH] using lt_wf_ind. intros [|p ps] i Ek Hl.
  { done. }
  apply Forall_cons in Hl as [Hp Hl]. cbn [lower_destructure_sequential]. simpl in Ek. case_match.
  - destruct ps as [|q ps]; [done|]. apply Forall_cons in Hl as [Hq Hl]. simpl in Ek.
    apply fueled_bind; [fuel|intros w]. apply fueled_bind; [fuel|intros _]. apply fueled_bind; [|intros _; by eapply IH; [|done|]; [lia|]].
    destruct ps as [|k' [|a ps]]; [done..|]. case_match; [|done]. apply Forall_cons in Hl as [_ Hl]. apply Forall_cons in Hl as [Ha _]. fuel.
  - case_match; [destruct ps as [|q ps]; [done|]|]. 
    + apply Forall_cons in Hl as [Hq Hl]. simpl in Ek. apply fueled_bind; [fuel|intros _]. eapply IH; [|done|done]. lia.
    + unfold lower_emit_nth. apply fueled_bind; [fuel|intros w]. apply fueled_bind; [fuel|intros _]. eapply IH; [|done|done]. lia.
Qed.

Lemma or_defaults_light l s f : light n l -> (s, f) ∈ or_defaults l -> weight f <= n.
Proof using.
  clear Hlf Hld. intros Hl Hs. unfold or_defaults in Hs. apply list_elem_of_bind in Hs as ([k v] & Hs & Hp). cbn [fst snd] in Hs.
  destruct (is_keyword k "or"); [|set_solver]. apply pairs_of_in in Hp as [_ Hv]. eapply Forall_forall in Hl; [|exact Hv].
  destruct (form_kind v) eqn:Ev; try set_solver. apply list_elem_of_omap in Hs as ([a b] & Hab & E). cbn [fst snd] in E.
  destruct (form_kind a); try done. injection E as _ ->. apply pairs_of_in in Hab as [_ Hb].
  pose proof (kind_children n v _ ltac:(lia) (or_intror Ev)) as Hc. by eapply Forall_forall in Hc.
Qed.

Lemma fueled_default got s ds : (forall s f, (s, f) ∈ ds -> weight f <= n) -> fueled (apply_default_if_nil lf got s ds).
Proof using Hlf.
  intros Hd. unfold apply_default_if_nil. destruct (find _ ds) as [[s' f]|] eqn:E; [|done].
  apply find_some in E as [Hin%list_elem_of_In _]. apply Hd in Hin. unfold lower_with_default. fuel.
Qed.

Lemma fueled_directive key ds v f : (forall s f, (s, f) ∈ ds -> weight f <= n) -> fueled (lower_directive lf key ds v f).
Proof using Hlf.
  intros Hd. unfold lower_directive, lower_directive_symbol, lower_emit_get. fuel. by apply fueled_default.
Qed.

Lemma fueled_associative l v : light n l -> fueled (lower_destructure_associative lf ld l v).
Proof using Hlf Hld.
  intros Hl. unfold lower_destructure_associative. apply fueled_pairs_of; [done|]. intros [k f] Hk Hf. cbn [fst snd] in *.
  assert (Hd : forall s f, (s, f) ∈ or_defaults l -> weight f <= n) by (intros s g; by apply or_defaults_light).
  unfold lower_map_entry, lower_emit_get. pose proof fueled_default. pose proof fueled_directive. fuel.
Qed.

Lemma fueled_destructure_step p v : weight p <= S n -> fueled (destructure_step lf ld p v).
Proof using Hlf Hld.
  intros Hp. assert (Hc : light n (children p)) by (apply weight_children; lia).
  unfold destructure_step. unfold children in Hc. destruct (form_kind p); try done.
  - by apply fueled_sequential.
  - by apply fueled_associative.
  - apply Forall_cons in Hc as [_ Hc]. apply Forall_cons in Hc as [Hc _]. fuel.
Qed.

(** ** Control flow *)

Lemma fueled_if args : light n args -> fueled (lower_if lf args).
Proof using Hlf.
  intros Hl. unfold lower_if. destruct Hl as [|t bs Ht Hl]; [done|].
  destruct Hl as [|a bs Ha Hl]; [fuel|]. destruct Hl as [|b bs Hb Hl]; [fuel|]. destruct Hl; fuel.
Qed.

Lemma fueled_short_circuit u b args : light n args -> fueled (lower_short_circuit lf u b args).
Proof using Hlf. induction 1 as [|a args Ha Hl IH]; cbn [lower_short_circuit]; fuel. Qed.

Lemma binding_vector_ok args :
  roomy n args -> binding_vector args <> OutOfFuel /\ forall bs body, binding_vector args = Ok (bs, body) -> light n bs /\ light n body.
Proof using.
  intros Hr. unfold binding_vector. destruct args as [|a body]; [done|]. apply roomy_cons in Hr as [Ha Hb%roomy_light].
  destruct (form_kind a) eqn:Ea; try done. case_match; [|done]. split; [done|]. intros ?? [= <- <-]. split; [|done].
  eapply kind_children; [|by left]. lia.
Qed.

(** Code on the bindings and the body of a binding form. *)
Lemma fueled_bindings {A : Type} args (k : list Form * list Form -> M A) :
  roomy n args -> (forall bs body, light n bs -> light n body -> fueled (k (bs, body))) ->
  fueled (lift (binding_vector args) ≫= k).
Proof using.
  intros [H1 H2]%binding_vector_ok Hk. apply fueled_lift; [done|]. intros [bs body] E. apply H2 in E as [??]. by apply Hk.
Qed.

Lemma fueled_let args : roomy n args -> fueled (lower_let lf ld args).
Proof using Hlf Hld.
  intros Hr. unfold lower_let. apply fueled_bindings; [done|]. intros bs body Hb Hf.
  apply fueled_bind; [fuel|intros _]. apply fueled_bind; [apply fueled_pairs_of; [done|]; intros [k v] ??; cbn [fst snd] in *; fuel|]. intros _. fuel.
Qed.

Lemma fueled_loop_body h vs body : light n body -> fueled (lower_loop_body lf h vs body).
Proof using Hlf. intros Hl. unfold lower_loop_body. fuel. Qed.

Hint Resolve fueled_loop_body : fuel.

Lemma fueled_loop args : roomy n args -> fueled (lower_loop lf ld args).
Proof using Hlf Hld.
  intros Hr. unfold lower_loop. apply fueled_bindings; [done|]. intros bs body Hb Hf. rewrite Forall_forall in Hb.
  apply (fueled_bind_with _ _ (Forall (fun b => weight (bi_pattern b) <= n))).
  - apply fueled_collect. intros [k v] [Hk Hv]%pairs_of_in. unfold loop_binding. cbn [fst snd]. apply Hb in Hv. fuel.
  - apply yields_collect. intros [k v] [Hk Hv]%pairs_of_in. unfold loop_binding. cbn [fst snd].
    do 2 (eapply yields_bind; [apply yields_any|]; intros ? _). apply yields_ret. by apply Hb.
  - intros infos Hi. rewrite Forall_forall in Hi. fuel. unfold bind_loop_pattern.
    match goal with H : ?p ∈ zip _ _ |- _ => destruct p as [b v]; apply elem_of_zip_l, Hi in H end. cbn [fst snd]. fuel.
Qed.

Lemma fueled_recur args : light n args -> fueled (lower_recur lf args).
Proof using Hlf. intros Hl. unfold lower_recur. fuel. Qed.

Lemma fueled_throw_form args : light n args -> fueled (lower_throw lf args).
Proof using Hlf. intros Hl. unfold lower_throw. destruct Hl as [|a args Ha Hl]; [done|]. fuel. Qed.

Lemma fueled_await args : light n args -> fueled (lower_await lf args).
Proof using Hlf. intros Hl. unfold lower_await. destruct Hl as [|a args Ha Hl]; [done|]. fuel. Qed.

Lemma fueled_def_name f : def_name f <> OutOfFuel.
Proof using. unfold def_name. repeat case_match; done. Qed.

Lemma fueled_emit_def s v : fueled (emit_def s v).
Proof using. unfold emit_def. fuel. Qed.

Hint Resolve fueled_emit_def : fuel.

Lemma fueled_def args : light n args -> fueled (lower_def lf args).
Proof using Hlf.
  intros Hl. unfold lower_def. destruct Hl as [|f args Hf Hl]; [done|]. apply fueled_lift; [apply fueled_def_name|].
  intros [s m] _. destruct Hl; fuel.
Qed.

(** ** Functions *)

Lemma fueled_param f p : f = fixed_param_info \/ f = rest_param_info -> fueled (f p).
Proof using.
  intros [-> | ->]; unfold fixed_param_info, rest_param_info; destruct (peel_meta p) as [meta inner]; fuel.
Qed.

Definition info_light (i : ParamInfo) : Prop := light n (option_list (pi_pattern i)).

Lemma param_light f p : f = fixed_param_info \/ f = rest_param_info -> weight p <= n -> yields (f p) info_light.
Proof using.
  intros Hf Hp. assert (Hi : weight (peel_meta p).2 <= n).
  { unfold peel_meta. destruct (form_kind p) eqn:Ek; cbn [snd]; try done. destruct p as [k sp]. cbn [form_kind] in Ek.
    subst k. cbn [weight] in Hp. lia. }
  destruct Hf as [-> | ->]; unfold fixed_param_info, rest_param_info; destruct (peel_meta p) as [meta inner]; cbn [snd] in Hi;
    case_match; try (apply yields_ret; by constructor);
    eapply yields_bind; try apply yields_any; intros ? _; apply yields_ret; by constructor.
Qed.

Lemma fueled_arity_blocks caps infos self body :
  Forall info_light infos -> light n body -> fueled (lower_arity_blocks lf ld caps infos self body).
Proof using Hlf Hld.
  intros Hi Hb. rewrite Forall_forall in Hi. unfold lower_arity_blocks, bind_param. fuel.
  unfold destructure_param. match goal with H : ?i ∈ infos |- _ => apply Hi in H; unfold info_light in H end.
  case_match; [|done]. match goal with H : light n _ |- _ => apply Forall_cons in H as [? _] end. fuel.
Qed.

Lemma fueled_fn_arity name ns caps fixed r body a self :
  light n (fixed ++ option_list r ++ body) -> fueled (lower_fn_arity lf ld name ns caps fixed r body a self).
Proof using Hlf Hld.
  rewrite !Forall_app, !Forall_forall. intros (Hx & Hr & Hb). unfold lower_fn_arity.
  apply (fueled_bind_with _ _ (Forall info_light)).
  { apply fueled_collect. intros. apply fueled_param. auto. }
  { apply yields_collect. intros. apply param_light; auto. }
  intros infos Hi. apply (fueled_bind_with _ _ (Forall info_light)).
  { apply fueled_collect. intros. apply fueled_param. auto. }
  { apply yields_collect. intros. apply param_light; auto. }
  intros rest Hrest. apply fueled_bind; [|intros []; done].
  apply fueled_in_ctx, fueled_arity_blocks; [by apply Forall_app|by apply Forall_forall].
Qed.

Lemma fueled_closure name args ns self a : roomy n args -> fueled (lower_closure lf ld name args ns self a).
Proof using Hlf Hld.
  intros [H1 H2]%raw_arities_ok. unfold lower_closure. apply fueled_bind; [fuel|intros ls]. cbv zeta.
  apply fueled_bind; [fuel|intros _]. apply fueled_lift; [done|]. intros arities E%H2. rewrite Forall_forall in E.
  unfold lower_arity_of. fuel. by apply fueled_fn_arity, E.
Qed.

Lemma fueled_fn args a : roomy n args -> fueled (lower_fn lf ld args a).
Proof using Hlf Hld.
  intros Hr. unfold lower_fn. destruct (fn_name_of args) as [name rest] eqn:E.
  assert (Hrest : roomy n rest).
  { unfold fn_name_of in E. destruct args as [|f args]; [by injection E as _ <-|].
    pose proof (roomy_cons _ _ _ Hr) as [_ ?]. destruct (form_kind f); by injection E as _ <-. }
  pose proof fueled_closure. fuel.
Qed.

Lemma fueled_defn args : roomy n args -> fueled (lower_defn lf ld args).
Proof using Hlf Hld.
  intros Hr. unfold lower_defn. destruct args as [|f rest]; [done|]. apply roomy_cons in Hr as [Hf Hr].
  pose proof (weight_pos f). apply fueled_lift; [apply fueled_def_name|]. intros [name meta] _. cbv zeta.
  apply fueled_bind; [|intros v; fuel]. apply fueled_fn, roomy_symbol; [|lia].
  repeat case_match; try done. by apply roomy_cons in Hr as [_ Hr].
Qed.

Lemma fueled_thunk prefix ps body caps : light n (ps ++ body) -> fueled (lower_thunk lf ld prefix ps body caps).
Proof using Hlf Hld. intros Hl. unfold lower_thunk. fuel. by apply fueled_fn_arity. Qed.

Hint Resolve fueled_thunk : fuel.

Lemma clause_light t f cp : weight f <= n -> clause_of t f = Some cp -> light n cp.
Proof using.
  clear Hlf Hld. intros Hw. unfold clause_of.
  destruct (form_kind f) as [| | | | | | | | | | | | | |[|h p]| | | | | | | | | | | | |] eqn:Ek; try done. case_match; [|done].
  intros [= <-]. pose proof (weight_children n f ltac:(lia)) as Hc. unfold children in Hc. by rewrite Ek in Hc.
Qed.

Lemma find_clause_light t args cp : light n args -> find_map (clause_of t) args = Some cp -> light n cp.
Proof using.
  intros Hl. induction Hl as [|f args Hf _ IH]; cbn [find_map]; [done|].
  destruct (clause_of t f) as [c|] eqn:E; [|done]. intros [= <-]. by eapply clause_light.
Qed.

Lemma before_clauses_light args : light n args -> light n (before_clauses args).
Proof using. induction 1; cbn [before_clauses]; [done|]. case_match; by constructor. Qed.

Lemma fueled_try args : 1 <= n -> light n args -> fueled (lower_try lf ld args).
Proof using Hlf Hld.
  intros Hn Hl. unfold lower_try. apply fueled_bind; [fuel|intros caps].
  apply fueled_bind; [apply fueled_thunk; simpl; by apply before_clauses_light|intros b].
  apply fueled_bind; [|intros c; apply fueled_bind; [|fuel]].
  - destruct (find_map (clause_of "catch") args) as [cp|] eqn:E; [|fuel]. apply find_clause_light in E; [|done].
    apply fueled_thunk. constructor; [cbn; lia|]. by apply Forall_drop.
  - destruct (find_map (clause_of "finally") args) as [fp|] eqn:E; [|fuel]. apply find_clause_light in E; [|done].
    apply fueled_thunk. simpl. by apply Forall_tail.
Qed.

Lemma fueled_binding args : roomy n args -> fueled (lower_binding lf ld args).
Proof using Hlf Hld.
  intros Hr. unfold lower_binding. apply fueled_bindings; [done|]. intros bs body Hb Hf. rewrite Forall_forall in Hb.
  apply fueled_bind; [|intros flat; fuel]. apply fueled_collect. intros [k v] [_ Hv]%pairs_of_in. apply Hb in Hv.
  unfold lower_binding_pair. cbn [fst snd]. fuel.
Qed.

Lemma letfn_binding_ok b :
  weight b <= n -> parse_letfn_binding b <> OutOfFuel /\
    forall p, parse_letfn_binding b = Ok p -> roomy n (lb_params p :: lb_body p).
Proof using.
  clear Hlf Hld. intros Hw. unfold parse_letfn_binding.
  destruct (form_kind b) as [| | | | | | | | | | | | | |[|h parts]| | | | | | | | | | | | |] eqn:Ek; try done.
  pose proof (roomy_list n b _ ltac:(lia) Ek) as [_ Hr]%roomy_cons.
  destruct (form_kind h); try done. destruct parts; [done|]. split; [done|]. by intros ? [= <-].
Qed.

Lemma letfn_bindings_ok bs :
  light n bs -> parse_letfn_bindings bs <> OutOfFuel /\
    forall l, parse_letfn_bindings bs = Ok l -> Forall (fun p => roomy n (lb_params p :: lb_body p)) l.
Proof using.
  clear Hlf Hld. induction 1 as [|b bs Hb _ [IH1 IH2]]; cbn [parse_letfn_bindings]; [by split; [|intros ? [= <-]]|].
  destruct (letfn_binding_ok b Hb) as [H1 H2]. destruct (parse_letfn_binding b) as [p| | |]; try done.
  destruct (parse_letfn_bindings bs) as [l| | |]; try done. split; [done|]. intros ? [= <-]. constructor; auto.
Qed.

Lemma fueled_letfn args : 10 <= n -> light n args -> fueled (lower_letfn lf ld args).
Proof using Hlf Hld.
  intros Hn Hl. unfold lower_letfn. destruct Hl as [|a args Ha Hl]; [done|]. destruct args as [|b args]; [done|].
  destruct (form_kind a) eqn:Ek; try done. destruct (letfn_bindings_ok fs) as [H1 H2].
  { eapply kind_children; [|by left]. lia. }
  apply fueled_lift; [done|]. intros parsed E%H2. rewrite Forall_forall in E. unfold letfn_cell, letfn_closure. cbn [tail]. fuel.
  apply fueled_fn, roomy_symbol; [by apply E|done].
Qed.

Lemma fueled_set_bang args : light n args -> fueled (lower_set_bang lf args).
Proof using Hlf.
  intros Hl. unfold lower_set_bang. destruct Hl as [|t args Ht Hl]; [done|]. destruct Hl as [|v args Hv Hl]; [done|]. fuel.
Qed.

(** ** Calls *)

Lemma fueled_first args : light n args -> fueled (first_arg lf args).
Proof using Hlf. intros Hl. unfold first_arg. destruct Hl; fuel. Qed.

Lemma fueled_second args : light n args -> fueled (second_arg lf args).
Proof using Hlf. intros Hl. unfold second_arg. destruct Hl as [|a args Ha Hl]; [done|]. destruct Hl; fuel. Qed.

Hint Resolve fueled_first fueled_second : fuel.

Lemma fueled_some_var (m : M VarId) : fueled m -> fueled (some_var m).
Proof using. intros Hm. unfold some_var. fuel. Qed.

Hint Resolve fueled_some_var : fuel.

Lemma fueled_inline_with k args c : light n args -> fueled (inline_with lf k args c).
Proof using Hlf. intros Hl. unfold inline_with. fuel. Qed.

Lemma fueled_inline_even args : light n args -> fueled (inline_even lf args).
Proof using Hlf. intros Hl. unfold inline_even. fuel. Qed.

Hint Resolve fueled_inline_with fueled_inline_even : fuel.

Lemma fueled_inline name args : light n args -> fueled (try_inline_expansion lf name args).
Proof using Hlf. intros Hl. unfold try_inline_expansion, emit_max, emit_min. cbv zeta. fuel. Qed.

Lemma fueled_generic_call f args : weight f <= n -> light n args -> fueled (lower_generic_call lf f args).
Proof using Hlf. intros Hf Hl. unfold lower_generic_call. fuel. Qed.

Lemma fueled_known_call k name args : light n args -> fueled (lower_known_call lf k name args).
Proof using Hlf.
  intros Hl. unfold lower_known_call, lower_apply_call, lower_fixed_arity_call, dynamic_call. fuel.
Qed.

Hint Resolve fueled_inline fueled_generic_call fueled_known_call : fuel.

Lemma fueled_call f args : weight f <= n -> light n args -> fueled (lower_call lf f args).
Proof using Hlf. intros Hf Hl. unfold lower_call. fuel. Qed.

Hint Resolve fueled_call fueled_if fueled_short_circuit fueled_let fueled_loop fueled_recur fueled_throw_form fueled_await
  fueled_def fueled_fn fueled_defn fueled_try fueled_binding fueled_letfn fueled_set_bang fueled_fn : fuel.

Lemma fueled_list h args : roomy n (h :: args) -> fueled (lower_list lf ld h args).
Proof using Hlf Hld.
  intros [Hh Hr]%roomy_cons. pose proof (roomy_light n args Hr) as Hl. pose proof (weight_pos h).
  assert (Hw : weight h <= n) by lia. assert (Hn : 10 <= n) by lia. assert (Hn' : 1 <= n) by lia.
  assert (Hcall : fueled (lower_call lf h args)) by fuel.
  unfold lower_list, lower_and, lower_or, lower_with_out_str. case_match; try exact Hcall.
  - cbv zeta. repeat (case_match; [solve [fuel | destruct Hl; fuel]|]). exact Hcall.
  - destruct Hl as [|a args Ha Hl]; [done|]. fuel.
Qed.

Lemma fueled_form_step f : weight f <= S n -> fueled (lower_form_step lf ld f).
Proof using Hlf Hld.
  intros Hw. assert (Hc : light n (children f)) by (apply weight_children; lia).
  unfold lower_form_step. apply fueled_bind; [done|intros _]. unfold children in Hc. destruct (form_kind f) eqn:Ek; try solve [fuel].
  - apply fueled_call; [|constructor; [|done]]; destruct f as [k sp]; cbn [form_kind] in Ek; subst k; cbn in Hw |- *; lia.
  - destruct fs as [|h args]; [fuel|]. apply fueled_list. by eapply roomy_list.
  - apply fueled_bind; [|fuel]. apply fueled_pairs. intros x Hx. eapply Forall_forall in Hc; [|exact Hx]. by apply Hlf.
  - apply Forall_cons in Hc as [Hc _]. fuel.
  - apply Forall_cons in Hc as [_ Hc]. apply Forall_cons in Hc as [Hc _].
    destruct (form_kind target) as [| | | | | | | | | | | | | |[|h args]| | | | | | | | | | | | |] eqn:Et; try solve [fuel].
    case_match; [|fuel]. apply fueled_fn. by apply (roomy_list n target _ ltac:(lia)), roomy_cons in Et as [_ Hr].
Qed.
End Lowering.

Lemma fueled_fuel fuel :
  (forall f, weight f <= fuel -> fueled (lower_form fuel f)) /\
  (forall p v, weight p <= fuel -> fueled (lower_destructure_binding fuel p v)).
Proof.
  induction fuel as [|n [IHf IHd]].
  - split; intros f; pose proof (weight_pos f); lia.
  - split; intros; cbn [lower_form lower_destructure_binding]; [by apply fueled_form_step with n|by apply fueled_destructure_step with n].
Qed.

Lemma fueled_blocks fuel ps ds body :
  light fuel body -> light fuel (map snd ds) -> fueled (lower_fn_blocks fuel ps ds body).
Proof.
  intros Hb Hd. destruct (fueled_fuel fuel) as [Hlf Hld]. rewrite Forall_forall in Hd. unfold lower_fn_blocks, bind_param.
  pose proof (fueled_body (lower_form fuel) fuel Hlf body Hb). fuel. unfold destructure_entry.
  repeat case_match; [|fuel]. apply Hld, Hd, list_elem_of_fmap. eauto.
Qed.

(** ** A function with conditions *)

Definition at0 : Span := mkSpan [] 0 0 1 1.
Definition fsym (s : string) : Form := mkForm (FSymbol (lit s)) at0.
Definition flist (l : list Form) : Form := mkForm (FList l) at0.
Definition fvec (l : list Form) : Form := mkForm (FVector l) at0.
Definition fint (n : Z) : Form := mkForm (FInt n) at0.

(** [(fn [x] {:pre [(pos? x)] :post [(pos? %)]} (dec x))] *)
Definition guarded : list Form :=
  [flist [fsym "fn"; fvec [fsym "x"];
     mkForm (FMap [mkForm (FKeyword (lit "pre")) at0; fvec [flist [fsym "pos?"; fsym "x"]];
                   mkForm (FKeyword (lit "post")) at0; fvec [flist [fsym "pos?"; fsym "%"]]]) at0;
     flist [fsym "dec"; fsym "x"]]].

(** C26: lowering ends: with as much fuel as the weight of its heaviest form,
    the lowering of a body returns a function, an error or a panic, never for
    want of fuel. *)
Theorem lowering_ends fuel name ns ps ds body a names :
  light fuel body -> light fuel (map snd ds) ->
  fst (lower_fn_body_destructured fuel name ns ps ds body a names) <> OutOfFuel.
Proof.
  intros Hb Hd. unfold lower_fn_body_destructured. set (s0 := mkLowerState _ names).
  pose proof (fueled_blocks fuel ps ds body Hb Hd s0) as Hf. by destruct (lower_fn_blocks fuel ps ds body s0) as [[]].
Qed.

Lemma lowering_ends_witness :
  fst (lower_fn_body_destructured 400 None (lit "user") [lit "p"] [(0, fvec [fsym "a"; fsym "b"])] guarded false 0) <> OutOfFuel.
Proof. apply (lowering_ends 400); apply light_heaviest; vm_compute; lia. Defined.
