(* ===== verification/LowerInv.v ===== *)
(** The invariant of the builder of lowered functions.

    Every block gets a set of dominators when it is allocated: itself and those
    of the block then being built.  The invariant says that the blocks built so
    far respect these sets: control that enters a block has been in its
    dominators, forward jumps go to blocks that are built later, and what an
    instruction reads is defined before it, in its block or in a dominator. *)
From stdpp Require Import gmap.
From S2P Require Import Prelude RustStd Token Lexer Form Ir Reloop ReloopSem ReloopGraph Inline InlineSem NativeOps Lower.
Local Open Scope Z_scope.

(** * Blocks built so far *)

(** The dominators of allocated blocks, the allocated blocks that are not
    started with the blocks that jump to them, and the parameters. *)
Record Plan : Type := mkPlan {
  pl_doms : gmap BlockId (gset BlockId);
  pl_pending : gmap BlockId (list BlockId);
  pl_params : list VarId
}.

Definition doms (g : Plan) (b : BlockId) : gset BlockId := default ∅ (pl_doms g !! b).

Definition block_defs (b : Block) : list VarId := flat_map def_of (block_insts b).

Definition bids (bs : list Block) : list BlockId := map block_id bs.

Definition known (g : Plan) (bs : list Block) (b : BlockId) : Prop := b ∈ bids bs \/ is_Some (pl_pending g !! b).

(** Defined when control leaves block [b]. *)
Definition avail (g : Plan) (bs : list Block) (b : BlockId) (v : VarId) : Prop :=
  v ∈ pl_params g \/ exists d, d ∈ bs /\ block_id d ∈ doms g b /\ v ∈ block_defs d.

(** Defined in a block after its phis and some instructions. *)
Definition avail_after (g : Plan) (bs : list Block) (blk : Block) (pre : list Inst) (v : VarId) : Prop :=
  v ∈ pl_params g \/ v ∈ flat_map def_of (phis blk ++ pre) \/
  exists d, d ∈ bs /\ block_id d <> block_id blk /\ block_id d ∈ doms g (block_id blk) /\ v ∈ block_defs d.

(** An entry of a phi of block [b]. *)
Definition entry_ok (g : Plan) (bs : list Block) (b : BlockId) (e : BlockId * VarId) : Prop :=
  avail g bs e.1 e.2 /\ exists p, p ∈ bs /\ block_id p = e.1 /\ b ∈ successors (terminator p).

(** The blocks that jump forward to [b]. *)
Definition preds_in (bs : list Block) (b : BlockId) (ps : list BlockId) : Prop :=
  forall p, p ∈ bs -> b ∈ forward_succs (terminator p) -> block_id p ∈ ps.

Definition phi_ok (g : Plan) (bs : list Block) (b : BlockId) (i : Inst) : Prop :=
  exists d es, i = IPhi d es /\ Forall (entry_ok g bs b) es /\ preds_in bs b (map fst es).

Record block_ok (g : Plan) (bs : list Block) (blk : Block) : Prop := {
  bo_known t : t ∈ successors (terminator blk) -> known g bs t;
  bo_doms t : t ∈ successors (terminator blk) -> doms g t ⊆ {[t]} ∪ doms g (block_id blk);
  bo_pending t ps : t ∈ forward_succs (terminator blk) -> pl_pending g !! t = Some ps -> block_id blk ∈ ps;
  bo_back h : recur_target (terminator blk) = Some h -> h ∈ doms g (block_id blk);
  bo_phis : Forall (phi_ok g bs (block_id blk)) (phis blk);
  bo_reads pre i post v : insts blk = pre ++ i :: post -> v ∈ uses i -> avail_after g bs blk pre v;
  bo_term v : v ∈ term_uses (terminator blk) -> avail_after g bs blk (insts blk) v
}.

(** Forward jumps go to blocks that are not in the list up to their own. *)
Fixpoint ordered (seen : list BlockId) (bs : list Block) : Prop :=
  match bs with
  | [] => True
  | b :: bs' =>
      (forall t, t ∈ forward_succs (terminator b) -> t ∉ seen ++ [block_id b]) /\ ordered (seen ++ [block_id b]) bs'
  end.

Definition all_vars (g : Plan) (bs : list Block) : list VarId := pl_params g ++ flat_map block_defs bs.

Record blocks_ok (g : Plan) (nv nb : Z) (bs : list Block) : Prop := {
  ok_ids : NoDup (bids bs);
  ok_entry : head (bids bs) = Some 0;
  ok_range b : known g bs b -> 0 <= b < nb;
  ok_pending b : is_Some (pl_pending g !! b) -> b ∉ bids bs;
  ok_self b : known g bs b -> b ∈ doms g b;
  ok_root : doms g 0 ⊆ {[0]};
  ok_doms b x : known g bs b -> x ∈ doms g b -> x = b \/ x ∈ bids bs;
  ok_trans b x : known g bs b -> x ∈ doms g b -> doms g x ⊆ doms g b;
  ok_vars : NoDup (all_vars g bs);
  ok_var_range : Forall (fun v => v < nv) (all_vars g bs);
  ok_order : ordered [] bs;
  ok_blocks : Forall (block_ok g bs) bs
}.

(** ** Growth *)

(** The second list of blocks extends the first. *)
Record grows (g : Plan) (bs : list Block) (g' : Plan) (bs' : list Block) : Prop := {
  gr_params : pl_params g' = pl_params g;
  gr_known b : known g bs b -> known g' bs' b;
  gr_doms b : known g bs b -> doms g' b = doms g b;
  gr_block d : d ∈ bs -> exists d', d' ∈ bs' /\ block_id d' = block_id d /\ block_defs d ⊆ block_defs d' /\
                                    successors (terminator d) ⊆ successors (terminator d')
}.

Lemma grows_refl g bs : grows g bs g bs.
Proof. constructor; eauto 10. Qed.

Lemma grows_trans g1 b1 g2 b2 g3 b3 : grows g1 b1 g2 b2 -> grows g2 b2 g3 b3 -> grows g1 b1 g3 b3.
Proof.
  intros H12 H23. constructor.
  - rewrite (gr_params _ _ _ _ H23). apply H12.
  - intros b Hb. by apply H23, H12.
  - intros b Hb. rewrite (gr_doms _ _ _ _ H23) by by apply H12. by apply H12.
  - intros d Hd. apply H12 in Hd as (d' & Hd' & E & ? & ?). apply H23 in Hd' as (d2 & Hd2 & E2 & ? & ?).
    exists d2. split_and!; [done | congruence | set_solver | set_solver].
Qed.

Lemma elem_of_bids b bs : b ∈ bids bs <-> exists d, d ∈ bs /\ block_id d = b.
Proof. unfold bids. rewrite list_elem_of_fmap. naive_solver. Qed.

Lemma elem_of_block_defs v d : v ∈ block_defs d <-> v ∈ flat_map def_of (phis d) \/ v ∈ flat_map def_of (insts d).
Proof. unfold block_defs, block_insts. rewrite flat_map_app. set_solver. Qed.

Lemma avail_mono g bs g' bs' b v : grows g bs g' bs' -> known g bs b -> avail g bs b v -> avail g' bs' b v.
Proof.
  intros Hg Hb [Hv | (d & Hd & Hin & Hv)].
  - left. by rewrite (gr_params _ _ _ _ Hg).
  - right. apply Hg in Hd as (d' & Hd' & E & Hs & _). exists d'. rewrite E, (gr_doms _ _ _ _ Hg) by done. auto.
Qed.

Lemma avail_after_mono g bs g' bs' blk pre v :
  grows g bs g' bs' -> blk ∈ bs -> avail_after g bs blk pre v -> avail_after g' bs' blk pre v.
Proof.
  intros Hg Hb [Hv | [Hv | (d & Hd & Hne & Hin & Hv)]].
  - left. by rewrite (gr_params _ _ _ _ Hg).
  - right. by left.
  - right. right. apply Hg in Hd as (d' & Hd' & E & Hs & _). exists d'.
    rewrite E, (gr_doms _ _ _ _ Hg); [auto|]. left. apply elem_of_bids. eauto.
Qed.

Lemma entry_ok_mono g bs g' bs' b e : grows g bs g' bs' -> entry_ok g bs b e -> entry_ok g' bs' b e.
Proof.
  intros Hg [Ha (p & Hp & E & Hs)]. split.
  - eapply avail_mono; [done| |done]. left. apply elem_of_bids. eauto.
  - apply Hg in Hp as (p' & Hp' & E' & _ & Hs'). exists p'. split_and!; [done | congruence | set_solver].
Qed.

(** What else the old blocks need: jumps to them and to pending blocks. *)
Record extends (g : Plan) (bs : list Block) (g' : Plan) (bs' : list Block) : Prop := {
  ex_grows : grows g bs g' bs';
  ex_jumps p' t : p' ∈ bs' -> t ∈ bids bs -> t ∈ forward_succs (terminator p') ->
                  exists p, p ∈ bs /\ block_id p = block_id p' /\ t ∈ forward_succs (terminator p);
  ex_pending t ps' : known g bs t -> pl_pending g' !! t = Some ps' ->
                     exists ps, pl_pending g !! t = Some ps /\ ps ⊆ ps'
}.

Lemma phi_ok_mono g bs g' bs' b i : extends g bs g' bs' -> b ∈ bids bs -> phi_ok g bs b i -> phi_ok g' bs' b i.
Proof.
  intros Hx Hb (d & es & -> & He & Hp). exists d, es. split_and!; [done| |].
  - eapply Forall_impl; [done|]. intros e. apply entry_ok_mono, Hx.
  - intros p' Hp' Hf. apply (ex_jumps _ _ _ _ Hx) in Hf as (p & ? & <- & ?); auto.
Qed.

Lemma block_ok_mono g bs g' bs' blk : extends g bs g' bs' -> blk ∈ bs -> block_ok g bs blk -> block_ok g' bs' blk.
Proof.
  intros Hx Hb Hok. pose proof (ex_grows _ _ _ _ Hx) as Hg.
  assert (Hid : block_id blk ∈ bids bs) by (apply elem_of_bids; eauto).
  assert (Hk : known g bs (block_id blk)) by by left. constructor.
  - intros t Ht. apply Hg. by eapply bo_known.
  - intros t Ht. rewrite !(gr_doms _ _ _ _ Hg) by (done || by eapply bo_known). by apply Hok.
  - intros t ps' Ht Hps'. assert (Ht' : t ∈ successors (terminator blk)) by (apply successors_split; auto).
    apply (ex_pending _ _ _ _ Hx) in Hps' as (ps & Hps & Hs); [|by eapply bo_known]. apply Hs. by eapply bo_pending.
  - intros h Hh. rewrite (gr_doms _ _ _ _ Hg) by done. by apply Hok.
  - eapply Forall_impl; [apply Hok|]. intros i. by apply phi_ok_mono.
  - intros pre i post v E Hv. eapply avail_after_mono; [done..|]. by eapply bo_reads.
  - intros v Hv. eapply avail_after_mono; [done..|]. by apply Hok.
Qed.

(** ** The last block changes *)

Lemma bids_app bs1 bs2 : bids (bs1 ++ bs2) = bids bs1 ++ bids bs2.
Proof. apply map_app. Qed.

Lemma ordered_snoc seen bs b :
  ordered seen (bs ++ [b]) <->
  ordered seen bs /\ forall t, t ∈ forward_succs (terminator b) -> t ∉ seen ++ bids bs ++ [block_id b].
Proof.
  revert seen. induction bs as [|b0 bs IH]; intros seen; simpl; [set_solver|].
  rewrite IH, <- !app_assoc. simpl. tauto.
Qed.

Lemma all_vars_snoc g fin blk : all_vars g (fin ++ [blk]) = all_vars g fin ++ block_defs blk.
Proof. unfold all_vars. rewrite flat_map_app. simpl. by rewrite app_nil_r, app_assoc. Qed.

(** Pending blocks stay pending and gain predecessors. *)
Definition pending_grows (g g' : Plan) : Prop :=
  pl_doms g' = pl_doms g /\ pl_params g' = pl_params g /\
  forall t, match pl_pending g !! t, pl_pending g' !! t with
            | Some ps, Some ps' => ps ⊆ ps'
            | None, None => True
            | _, _ => False
            end.

Lemma pending_grows_refl g : pending_grows g g.
Proof. split_and!; [done..|]. intros t. by destruct (pl_pending g !! t). Qed.

Lemma pending_grows_some g g' t : pending_grows g g' -> is_Some (pl_pending g' !! t) <-> is_Some (pl_pending g !! t).
Proof. intros (_ & _ & H). specialize (H t). repeat case_match; try done; split; eauto using mk_is_Some. Qed.

Section ReplaceLast.
Context (g g' : Plan) (nv nb : Z) (fin : list Block) (blk blk' : Block).
Context (Hok : blocks_ok g nv nb (fin ++ [blk])).
Context (Hid : block_id blk' = block_id blk).
Context (Hdefs : block_defs blk ⊆ block_defs blk').
Context (Hsucc : successors (terminator blk) ⊆ successors (terminator blk')).
Context (Hjump : forall t, t ∈ forward_succs (terminator blk') -> t ∉ bids (fin ++ [blk])).
Context (Hpend : pending_grows g g').

Lemma bids_last : bids (fin ++ [blk']) = bids (fin ++ [blk]).
Proof using Hid. rewrite !bids_app. simpl. by rewrite Hid. Qed.

Lemma known_last b : known g' (fin ++ [blk']) b <-> known g (fin ++ [blk]) b.
Proof using Hid Hpend. unfold known. by rewrite bids_last, (pending_grows_some g g'). Qed.

Lemma doms_last b : doms g' b = doms g b.
Proof using Hpend. unfold doms. by rewrite (proj1 Hpend). Qed.

Lemma extends_last : extends g (fin ++ [blk]) g' (fin ++ [blk']).
Proof using Hdefs Hid Hjump Hpend Hsucc.
  clear Hok nv nb.
  constructor; [constructor| |].
  - apply Hpend.
  - intros b. apply known_last.
  - intros b _. apply doms_last.
  - intros d. rewrite elem_of_app, list_elem_of_singleton. intros [Hd | ->].
    + exists d. split_and!; [set_solver|done..].
    + exists blk'. split_and!; [set_solver|done..].
  - intros p' t. rewrite elem_of_app, list_elem_of_singleton. intros [Hp | ->] Ht Hf.
    + exists p'. split_and!; [set_solver|done..].
    + by apply Hjump in Hf.
  - intros t ps' _ Hps'. destruct Hpend as (_ & _ & Hp). specialize (Hp t). rewrite Hps' in Hp.
    destruct (pl_pending g !! t); [eauto|done].
Qed.

Lemma replace_last nv' :
  NoDup (all_vars g' (fin ++ [blk'])) -> Forall (fun v => v < nv') (all_vars g' (fin ++ [blk'])) ->
  block_ok g' (fin ++ [blk']) blk' -> blocks_ok g' nv' nb (fin ++ [blk']).
Proof using Hok Hdefs Hid Hjump Hpend Hsucc.
  intros Hnd Hr Hblk. pose proof extends_last as Hx. constructor; rewrite ?bids_last; try done.
  - apply Hok.
  - apply Hok.
  - intros b Hb. eapply ok_range; [done|]. by apply known_last.
  - intros b Hb. eapply ok_pending; [done|]. by rewrite <- (pending_grows_some g g').
  - intros b Hb. rewrite doms_last. eapply ok_self; [done|]. by apply known_last.
  - rewrite doms_last. apply Hok.
  - intros b x Hb Hx'. rewrite doms_last in Hx'. eapply ok_doms; [done| |done]. by apply known_last.
  - intros b x Hb Hx'. rewrite doms_last in Hx'. rewrite !doms_last. eapply ok_trans; [done| |done].
    by apply known_last.
  - pose proof (ok_order _ _ _ _ Hok) as Ho. apply ordered_snoc in Ho as [Ho _].
    apply ordered_snoc. split; [done|]. intros t Ht. simpl. rewrite Hid.
    apply Hjump in Ht. by rewrite bids_app in Ht.
  - pose proof (ok_blocks _ _ _ _ Hok) as Hb. apply Forall_app in Hb as [Hb _]. apply Forall_app. split; [|by constructor].
    apply Forall_forall. intros b Hin. eapply block_ok_mono; [done|set_solver|]. by eapply Forall_forall in Hb.
Qed.
End ReplaceLast.

(** ** Allocating and starting blocks *)

Definition plan_fresh (b c : BlockId) (g : Plan) : Plan :=
  mkPlan (<[b := {[b]} ∪ doms g c]> (pl_doms g)) (<[b := []]> (pl_pending g)) (pl_params g).

Definition plan_start (b : BlockId) (g : Plan) : Plan :=
  mkPlan (pl_doms g) (delete b (pl_pending g)) (pl_params g).

Lemma doms_fresh b c g x : doms (plan_fresh b c g) x = if decide (x = b) then {[b]} ∪ doms g c else doms g x.
Proof. unfold doms, plan_fresh. simpl. rewrite lookup_insert. by repeat case_decide. Qed.

Lemma known_fresh b c g bs x : known (plan_fresh b c g) bs x <-> x = b \/ known g bs x.
Proof.
  unfold known, plan_fresh. simpl. rewrite lookup_insert. case_decide as E.
  - subst. split; [auto|]. intros _. right. by eexists.
  - naive_solver.
Qed.

Section Fresh.
Context (g : Plan) (nv nb : Z) (bs : list Block) (c : BlockId).
Context (Hok : blocks_ok g nv nb bs) (Hc : c ∈ bids bs).

Lemma known_fresh_ne x : known g bs x -> x <> nb.
Proof using Hok. intros Hx ->. apply (ok_range _ _ _ _ Hok) in Hx. lia. Qed.

Lemma doms_fresh_old x : known g bs x -> doms (plan_fresh nb c g) x = doms g x.
Proof using Hok. intros Hx. rewrite doms_fresh. case_decide; [|done]. by apply known_fresh_ne in Hx. Qed.

Lemma extends_fresh : extends g bs (plan_fresh nb c g) bs.
Proof using Hok.
  constructor; [constructor| |].
  - done.
  - intros b Hb. apply known_fresh. auto.
  - intros b Hb. by apply doms_fresh_old.
  - eauto 10.
  - eauto.
  - intros t ps' Ht. simpl. rewrite lookup_insert. case_decide as E; [|eauto]. by apply known_fresh_ne in Ht.
Qed.

Lemma fresh_ok : blocks_ok (plan_fresh nb c g) nv (nb + 1) bs.
Proof using Hc Hok.
  assert (Hkc : known g bs c) by by left.
  constructor; try apply Hok.
  - intros b Hb. apply known_fresh in Hb as [-> | Hb].
    + pose proof (ok_range _ _ _ _ Hok c Hkc). lia.
    + pose proof (ok_range _ _ _ _ Hok b Hb). lia.
  - intros b Hb Hin. simpl in Hb. rewrite lookup_insert in Hb. case_decide as E.
    + apply (known_fresh_ne b); [by left|done].
    + by eapply ok_pending.
  - intros b Hb. rewrite doms_fresh. case_decide; [set_solver|].
    apply known_fresh in Hb as [? | Hb]; [done|]. by eapply ok_self.
  - rewrite doms_fresh_old; [apply Hok|]. left. pose proof (ok_entry _ _ _ _ Hok).
    destruct (bids bs) as [|b0 ?]; [done|]. set_solver.
  - intros b x Hb. rewrite doms_fresh. case_decide as E.
    + intros Hx. apply elem_of_union in Hx as [Hx | Hx]; [left; set_solver|]. right.
      by destruct (ok_doms _ _ _ _ Hok _ _ Hkc Hx) as [-> | Hin].
    + apply known_fresh in Hb as [? | Hb]; [done|]. by apply Hok.
  - intros b x Hb. rewrite !doms_fresh. case_decide as E.
    + intros Hx. apply elem_of_union in Hx as [Hx | Hx].
      * apply elem_of_singleton in Hx as ->. by rewrite decide_True.
      * assert (Hs : doms g x ⊆ doms g c) by by eapply ok_trans.
        assert (Hxk : x ∈ bids bs) by (by destruct (ok_doms _ _ _ _ Hok _ _ Hkc Hx) as [-> | Hin]).
        rewrite decide_False; [set_solver|]. eapply known_fresh_ne. by left.
    + apply known_fresh in Hb as [? | Hb]; [done|]. intros Hx.
      rewrite decide_False; [by eapply ok_trans|].
      destruct (ok_doms _ _ _ _ Hok _ _ Hb Hx) as [-> | Hin]; [done|]. apply known_fresh_ne. by left.
  - apply Forall_forall. intros b Hb. eapply block_ok_mono; [apply extends_fresh|done|].
    eapply Forall_forall; [apply Hok|done].
Qed.
End Fresh.

Definition empty_block (b : BlockId) : Block := mkBlock b [] [] Unreachable.

Section Start.
Context (g : Plan) (nv nb : Z) (bs : list Block) (b : BlockId) (ps : list BlockId).
Context (Hok : blocks_ok g nv nb bs) (Hb : pl_pending g !! b = Some ps).

Lemma known_start x : known (plan_start b g) (bs ++ [empty_block b]) x <-> known g bs x.
Proof using Hb.
  clear Hok nv nb.
  unfold known. rewrite bids_app, elem_of_app. simpl. rewrite lookup_delete. case_decide as E.
  - subst. split; [|set_solver]. intros _. right. by eexists.
  - rewrite list_elem_of_singleton. naive_solver.
Qed.

Lemma extends_start : extends g bs (plan_start b g) (bs ++ [empty_block b]).
Proof using Hb.
  clear Hok nv nb.
  constructor; [constructor| |].
  - done.
  - intros x. apply known_start.
  - done.
  - intros d Hd. exists d. split_and!; [set_solver|done..].
  - intros p' t. rewrite elem_of_app, list_elem_of_singleton. intros [Hp | ->]; [eauto|]. simpl. set_solver.
  - intros t ps' _. simpl. rewrite lookup_delete. case_decide; [done|eauto].
Qed.

Lemma start_preds : preds_in (bs ++ [empty_block b]) b ps.
Proof using Hok Hb.
  intros p. rewrite elem_of_app, list_elem_of_singleton. intros [Hp | ->] Hs; [|simpl in Hs; set_solver].
  pose proof (proj1 (Forall_forall _ _) (ok_blocks _ _ _ _ Hok) p Hp) as Hbo. by eapply bo_pending.
Qed.

Lemma start_ok : bs <> [] -> blocks_ok (plan_start b g) nv nb (bs ++ [empty_block b]).
Proof using Hok Hb.
  intros Hne. assert (Hnew : b ∉ bids bs) by (eapply ok_pending; [done|]; by eexists).
  assert (Hvars : all_vars (plan_start b g) (bs ++ [empty_block b]) = all_vars g bs).
  { rewrite all_vars_snoc. apply app_nil_r. }
  constructor; rewrite ?Hvars; try apply Hok.
  - rewrite bids_app. apply NoDup_app. split_and!; [apply Hok|set_solver|apply NoDup_singleton].
  - rewrite bids_app. pose proof (ok_entry _ _ _ _ Hok). by destruct bs.
  - intros x Hx. eapply ok_range; [done|]. by apply known_start.
  - intros x Hx. simpl in Hx. rewrite lookup_delete in Hx. case_decide as E; [by apply is_Some_None in Hx|].
    rewrite bids_app, elem_of_app. simpl. rewrite list_elem_of_singleton.
    intros [Hin | ->]; [|done]. by eapply ok_pending.
  - intros x Hx. eapply (ok_self _ _ _ _ Hok). by apply known_start.
  - intros x y Hx Hy. apply known_start in Hx. eapply (ok_doms _ _ _ _ Hok) in Hy as [-> | Hy]; [auto| |done].
    right. rewrite bids_app. set_solver.
  - intros x y Hx Hy. eapply (ok_trans _ _ _ _ Hok); [by apply known_start|done].
  - apply ordered_snoc. split; [apply Hok|]. simpl. set_solver.
  - apply Forall_app. split.
    + apply Forall_forall. intros d Hd. eapply block_ok_mono; [apply extends_start|done|].
      eapply Forall_forall; [apply Hok|done].
    + constructor; [|constructor]. constructor; simpl; try set_solver.
      intros pre i post v E. by destruct pre.
Qed.
End Start.

(** ** Instructions *)

Lemma bids_inj bs d d' : NoDup (bids bs) -> d ∈ bs -> d' ∈ bs -> block_id d = block_id d' -> d = d'.
Proof.
  intros Hnd (i & Hi)%list_elem_of_lookup (j & Hj)%list_elem_of_lookup E.
  assert (i = j) as ->; [|congruence].
  change (bids bs) with (block_id <$> bs) in Hnd.
  eapply NoDup_lookup; [done|rewrite list_lookup_fmap, Hi; reflexivity|].
  rewrite list_lookup_fmap, Hj, E. reflexivity.
Qed.

Lemma avail_here g nv nb bs blk v :
  blocks_ok g nv nb bs -> blk ∈ bs -> avail g bs (block_id blk) v <-> avail_after g bs blk (insts blk) v.
Proof.
  intros Hok Hin. unfold avail, avail_after. split.
  - intros [Hv | (d & Hd & Hdom & Hv)]; [by left|].
    destruct (decide (block_id d = block_id blk)) as [E|E]; [|right; right; eauto].
    rewrite (bids_inj bs d blk) in Hv by (done || apply Hok). right. by left.
  - intros [Hv | [Hv | (d & ? & ? & ? & ?)]]; [by left | right | right; eauto].
    exists blk. split_and!; [done| |done]. eapply ok_self; [done|]. left. apply elem_of_bids. eauto.
Qed.

Lemma ok_last g nv nb fin blk : blocks_ok g nv nb (fin ++ [blk]) -> block_ok g (fin ++ [blk]) blk.
Proof. intros Hok. eapply Forall_forall; [apply Hok|]. apply elem_of_app. right. by apply list_elem_of_singleton. Qed.

(** The block being built. *)
Definition open_block (c : BlockId) (ps is_ : list Inst) : Block := mkBlock c ps is_ Unreachable.

Section Emit.
Context (g : Plan) (nv nb nv' : Z) (fin : list Block) (c : BlockId) (ps is_ : list Inst).
Context (Hok : blocks_ok g nv nb (fin ++ [open_block c ps is_])) (Hnv : nv <= nv').

(** Definitions added at the end. *)
Lemma new_vars i blk' :
  block_defs blk' ≡ₚ block_defs (open_block c ps is_) ++ def_of i ->
  NoDup (def_of i) -> (forall d, d ∈ def_of i -> (d ∉ all_vars g (fin ++ [open_block c ps is_])) /\ d < nv') ->
  NoDup (all_vars g (fin ++ [blk'])) /\ Forall (fun v => v < nv') (all_vars g (fin ++ [blk'])).
Proof using Hok Hnv.
  intros Hp Hd Hnew. rewrite all_vars_snoc in Hnew.
  assert (Hp' : all_vars g (fin ++ [blk']) ≡ₚ (all_vars g fin ++ block_defs (open_block c ps is_)) ++ def_of i).
  { rewrite all_vars_snoc, Hp. by rewrite app_assoc. }
  pose proof (ok_vars _ _ _ _ Hok) as Hnd. pose proof (ok_var_range _ _ _ _ Hok) as Hr.
  rewrite all_vars_snoc in Hnd, Hr. rewrite !Hp'. split.
  - apply NoDup_app. split_and!; [done| |done]. intros v Hv Hv'. by apply (Hnew v).
  - apply Forall_app. split; [eapply Forall_impl; [done|]; simpl; lia|].
    apply Forall_forall. intros v Hv. by apply Hnew.
Qed.

Lemma emit_pre i :
  let blk' := open_block c ps (is_ ++ [i]) in
  block_defs (open_block c ps is_) ⊆ block_defs blk' /\ block_defs blk' ≡ₚ block_defs (open_block c ps is_) ++ def_of i.
Proof.
  unfold block_defs, block_insts. cbn [open_block phis insts]. rewrite !flat_map_app. simpl. rewrite app_nil_r, app_assoc. set_solver.
Qed.

Lemma emit_extends i : extends g (fin ++ [open_block c ps is_]) g (fin ++ [open_block c ps (is_ ++ [i])]).
Proof. apply extends_last; [done|apply emit_pre|done|set_solver|apply pending_grows_refl]. Qed.

Lemma emit_ok i :
  (forall v, v ∈ uses i -> avail g (fin ++ [open_block c ps is_]) c v) ->
  NoDup (def_of i) -> (forall d, d ∈ def_of i -> (d ∉ all_vars g (fin ++ [open_block c ps is_])) /\ d < nv') ->
  blocks_ok g nv' nb (fin ++ [open_block c ps (is_ ++ [i])]).
Proof using Hok Hnv.
  intros Hu Hd Hnew. set (blk' := open_block c ps (is_ ++ [i])).
  destruct (emit_pre i) as [Hsub Hperm]. destruct (new_vars i blk' Hperm Hd Hnew) as [Hnd Hr].
  pose proof (emit_extends i) as Hx. pose proof (ex_grows _ _ _ _ Hx) as Hg.
  pose proof (ok_last _ _ _ _ _ Hok) as Hbs.
  assert (Hold : (open_block c ps is_) ∈ fin ++ [open_block c ps is_]) by set_solver.
  apply (block_ok_mono _ _ _ _ _ Hx Hold) in Hbs.
  eapply replace_last; try done; [set_solver|apply pending_grows_refl|].
  constructor; try apply Hbs; [|by intros v ?%elem_of_nil].
  intros pre j post v E Hv. simpl in E.
  destruct (snoc_split _ _ _ _ _ E) as [(-> & -> & ->) | (post' & -> & Epre)].
  - apply Hu in Hv. eapply (avail_here g nv nb _ (open_block c ps is_)) in Hv; [|done..].
    eapply avail_after_mono in Hv; [exact Hv|exact Hg|done].
  - eapply (bo_reads _ _ _ Hbs pre j post'); done.
Qed.

Lemma phi_pre d es :
  let blk' := open_block c (ps ++ [IPhi d es]) is_ in
  block_defs (open_block c ps is_) ⊆ block_defs blk' /\ block_defs blk' ≡ₚ block_defs (open_block c ps is_) ++ def_of (IPhi d es).
Proof.
  unfold block_defs, block_insts. cbn [open_block phis insts]. rewrite !flat_map_app. simpl. split; [set_solver|].
  rewrite <- !app_assoc. apply Permutation_app_head, Permutation_app_comm.
Qed.

Lemma phi_extends d es : extends g (fin ++ [open_block c ps is_]) g (fin ++ [open_block c (ps ++ [IPhi d es]) is_]).
Proof. apply extends_last; [done|apply phi_pre|done|set_solver|apply pending_grows_refl]. Qed.

Lemma emit_phi_ok d es :
  Forall (entry_ok g (fin ++ [open_block c ps is_]) c) es -> preds_in (fin ++ [open_block c ps is_]) c (map fst es) ->
  d ∉ all_vars g (fin ++ [open_block c ps is_]) -> d < nv' ->
  blocks_ok g nv' nb (fin ++ [open_block c (ps ++ [IPhi d es]) is_]).
Proof using Hok Hnv.
  intros He Hp Hd Hlt. set (blk' := open_block c (ps ++ [IPhi d es]) is_).
  destruct (phi_pre d es) as [Hsub Hperm].
  destruct (new_vars (IPhi d es) blk' Hperm) as [Hnd Hr]; [apply NoDup_singleton|set_solver|].
  pose proof (phi_extends d es) as Hx. pose proof (ex_grows _ _ _ _ Hx) as Hg.
  pose proof (ok_last _ _ _ _ _ Hok) as Hbs.
  assert (Hold : (open_block c ps is_) ∈ fin ++ [open_block c ps is_]) by set_solver.
  apply (block_ok_mono _ _ _ _ _ Hx Hold) in Hbs.
  eapply replace_last; try done; [set_solver|apply pending_grows_refl|].
  constructor; try apply Hbs; [| |by intros v ?%elem_of_nil].
  - apply Forall_app. split; [apply Hbs|]. constructor; [|constructor].
    exists d, es. split_and!; [done| |].
    + eapply Forall_impl; [done|]. intros e. by apply entry_ok_mono.
    + intros p. rewrite elem_of_app, list_elem_of_singleton. intros [Hin | ->]; [|simpl; set_solver].
      apply Hp. set_solver.
  - intros pre j post v E Hv.
    destruct (bo_reads _ _ _ Hbs pre j post v E Hv) as [H | [H | H]]; [by left | right; left | right; by right].
    simpl in *. rewrite !flat_map_app in *. set_solver.
Qed.
End Emit.

(** ** Terminators *)

(** [c] becomes a predecessor of the pending targets. *)
Definition plan_jump (c : BlockId) (ts : list BlockId) (g : Plan) : Plan :=
  mkPlan (pl_doms g) (foldr (fun t m => alter (cons c) t m) (pl_pending g) ts) (pl_params g).

Lemma plan_jump_lookup c ts g t :
  pl_pending (plan_jump c ts g) !! t = (fun ps => replicate (length (filter (.= t) ts)) c ++ ps) <$> pl_pending g !! t.
Proof.
  unfold plan_jump. simpl. induction ts as [|t0 ts IH]; simpl; [by destruct (_ !! t)|].
  destruct (decide (t0 = t)) as [-> | Hne].
  - rewrite lookup_alter_eq, IH, filter_cons_True by done. by destruct (pl_pending g !! t).
  - rewrite lookup_alter_ne, IH, filter_cons_False by done. done.
Qed.

Lemma plan_jump_grows c ts g : pending_grows g (plan_jump c ts g).
Proof.
  split_and!; [done..|]. intros t. rewrite plan_jump_lookup. destruct (pl_pending g !! t); simpl; [|done]. set_solver.
Qed.

Section Finish.
Context (g : Plan) (nv nb : Z) (fin : list Block) (c : BlockId) (ps is_ : list Inst) (t : Terminator).
Context (Hok : blocks_ok g nv nb (fin ++ [open_block c ps is_])).
Context (Huse : forall v, v ∈ term_uses t -> avail g (fin ++ [open_block c ps is_]) c v).
Context (Hfwd : forall x, x ∈ forward_succs t -> is_Some (pl_pending g !! x) /\ doms g x ⊆ {[x]} ∪ doms g c).
Context (Hback : forall h, recur_target t = Some h -> h ∈ doms g c).

Abbreviation g' := (plan_jump c (forward_succs t) g).

Lemma finish_extends : extends g (fin ++ [open_block c ps is_]) g' (fin ++ [mkBlock c ps is_ t]).
Proof using Hok Hfwd.
  clear Huse Hback. apply extends_last; [done|done| | |apply plan_jump_grows].
  - simpl. set_solver.
  - intros x Hx. eapply ok_pending; [done|]. by apply Hfwd.
Qed.

Lemma finish_ok : blocks_ok g' nv nb (fin ++ [mkBlock c ps is_ t]).
Proof using Hok Huse Hfwd Hback.
  pose proof finish_extends as Hx. pose proof (ex_grows _ _ _ _ Hx) as Hg.
  pose proof (ok_last _ _ _ _ _ Hok) as Hbs.
  assert (Hold : open_block c ps is_ ∈ fin ++ [open_block c ps is_]) by set_solver.
  assert (Hkc : known g (fin ++ [open_block c ps is_]) c) by (left; rewrite bids_app; set_solver).
  pose proof (block_ok_mono _ _ _ _ _ Hx Hold Hbs) as Hbs'.
  assert (Hvars : all_vars g' (fin ++ [mkBlock c ps is_ t]) = all_vars g (fin ++ [open_block c ps is_])).
  { by rewrite !all_vars_snoc. }
  eapply replace_last; [done|done|done|simpl; set_solver| |apply plan_jump_grows|rewrite Hvars; apply Hok..|].
  { intros x Hx'. eapply ok_pending; [done|]. by apply Hfwd. }
  assert (Hsucc : forall x, x ∈ successors t ->
    known g (fin ++ [open_block c ps is_]) x /\ doms g x ⊆ {[x]} ∪ doms g c).
  { intros x Hx'. apply successors_split in Hx' as [Hx' | Hx'].
    - apply Hfwd in Hx' as [? ?]. split; [by right|done].
    - apply Hback in Hx'. split; [|pose proof (ok_trans _ _ _ _ Hok c x Hkc Hx'); set_solver].
      left. destruct (ok_doms _ _ _ _ Hok c x Hkc Hx') as [-> | ?]; [|done]. rewrite bids_app. set_solver. }
  constructor; try apply Hbs'.
  - intros x Hx'. apply Hg. by apply Hsucc.
  - intros x Hx'. by apply Hsucc.
  - intros x qs Hx'. rewrite plan_jump_lookup. destruct (pl_pending g !! x); [|done]. simpl. intros [= <-].
    simpl in Hx'. apply elem_of_app. left. apply elem_of_replicate. split; [done|].
    intros E%length_zero_iff_nil. assert (x ∈ filter (.= x) (forward_succs t)) as Hin by (by apply list_elem_of_filter).
    rewrite E in Hin. set_solver.
  - intros h Hh. by apply Hback.
  - intros v Hv. simpl in *. apply Huse in Hv. eapply (avail_here g nv nb _ (open_block c ps is_)) in Hv; [|done..].
    eapply avail_after_mono in Hv; [exact Hv|exact Hg|done].
Qed.
End Finish.

(** ** Patching the phis of a loop header *)

Section Patch.
Context (h : BlockId) (k : nat) (p : BlockId) (v : VarId).

Definition patched (d d' : Block) : Prop := d' = d \/ (block_id d = h /\ d' = patch_block k p v d).

Lemma patch_header_patched bs : Forall2 patched bs (patch_header h k p v bs).
Proof.
  induction bs as [|b bs IH]; simpl; [constructor|]. case_match; bool_hyps.
  - constructor; [by right|]. clear. induction bs; constructor; [by left|done].
  - constructor; [by left|done].
Qed.

Lemma push_entry_def i : def_of (push_phi_entry p v i) = def_of i.
Proof. by destruct i. Qed.

Lemma alter_defs (ps : list Inst) : flat_map def_of (alter (push_phi_entry p v) k ps) = flat_map def_of ps.
Proof.
  revert k. induction ps as [|i ps IH]; intros [|n]; simpl; [done|done| |].
  - by rewrite push_entry_def.
  - f_equal. apply IH.
Qed.

Lemma patched_same d d' :
  patched d d' -> block_id d' = block_id d /\ insts d' = insts d /\ terminator d' = terminator d /\
  flat_map def_of (phis d') = flat_map def_of (phis d).
Proof. intros [-> | [_ ->]]; [done|]. simpl. by rewrite alter_defs. Qed.

Lemma patched_defs d d' : patched d d' -> block_defs d' = block_defs d.
Proof.
  intros (_ & Hi & _ & Hp)%patched_same. unfold block_defs, block_insts. by rewrite !flat_map_app, Hp, Hi.
Qed.

Lemma patched_bids bs bs' : Forall2 patched bs bs' -> bids bs' = bids bs.
Proof. induction 1 as [|d d' l l' Hd _ IH]; [done|]. unfold bids in *. simpl. f_equal; [apply (patched_same _ _ Hd)|done]. Qed.

Lemma patched_vars g bs bs' : Forall2 patched bs bs' -> all_vars g bs' = all_vars g bs.
Proof.
  intros H. unfold all_vars. f_equal. induction H as [|d d' l l' Hd _ IH]; [done|]. simpl.
  by rewrite IH, (patched_defs _ _ Hd).
Qed.

Lemma patched_ordered bs bs' seen : Forall2 patched bs bs' -> ordered seen bs -> ordered seen bs'.
Proof.
  intros H. revert seen. induction H as [|d d' l l' Hd _ IH]; intros seen; [done|]. simpl.
  destruct (patched_same _ _ Hd) as (-> & _ & -> & _). intros [? ?]. auto.
Qed.

Context (g : Plan) (nv nb : Z) (bs bs' : list Block).
Context (Hpat : Forall2 patched bs bs').

Lemma patched_to d : d ∈ bs -> exists d', d' ∈ bs' /\ patched d d'.
Proof using Hpat.
  intros (i & Hi)%list_elem_of_lookup. destruct (Forall2_lookup_l _ _ _ _ _ Hpat Hi) as (d' & ? & ?).
  exists d'. split; [by eapply list_elem_of_lookup_2|done].
Qed.

Lemma patched_from d' : d' ∈ bs' -> exists d, d ∈ bs /\ patched d d'.
Proof using Hpat.
  intros (i & Hi)%list_elem_of_lookup. destruct (Forall2_lookup_r _ _ _ _ _ Hpat Hi) as (d & ? & ?).
  exists d. split; [by eapply list_elem_of_lookup_2|done].
Qed.

Lemma patched_extends : extends g bs g bs'.
Proof using Hpat.
  constructor; [constructor| |].
  - done.
  - intros b. unfold known. by rewrite (patched_bids _ _ Hpat).
  - done.
  - intros d Hd. apply patched_to in Hd as (d' & Hd' & Hp). exists d'.
    destruct (patched_same _ _ Hp) as (-> & _ & -> & _). by rewrite (patched_defs _ _ Hp).
  - intros p' t Hp' _ Hf. apply patched_from in Hp' as (d & Hd & Hp).
    destruct (patched_same _ _ Hp) as (E & _ & Et & _). exists d. rewrite Et in Hf. eauto.
  - eauto.
Qed.

Lemma patched_phi_ok i :
  entry_ok g bs h (p, v) -> phi_ok g bs h i -> phi_ok g bs h (push_phi_entry p v i).
Proof.
  intros He (d & es & -> & Hes & Hp). exists d, (es ++ [(p, v)]). split_and!; [done| |].
  - apply Forall_app. auto.
  - intros q Hq Hf. rewrite map_app. apply elem_of_app. left. by apply Hp.
Qed.

Lemma patched_block_ok d d' :
  entry_ok g bs h (p, v) -> patched d d' -> d ∈ bs -> block_ok g bs d -> block_ok g bs' d'.
Proof using Hpat.
  intros He Hd Hin Hok. apply (block_ok_mono _ _ _ _ _ patched_extends Hin) in Hok as Hok'.
  destruct (patched_same _ _ Hd) as (E1 & E2 & E3 & E4).
  assert (Haft : forall pre w, avail_after g bs' d pre w -> avail_after g bs' d' pre w).
  { intros pre w [? | [Hw | Hw]]; [by left | right; left | right; right].
    - rewrite !flat_map_app in *. by rewrite E4.
    - by rewrite E1. }
  constructor; rewrite ?E1, ?E2, ?E3; try apply Hok'.
  - destruct Hd as [-> | [Eh ->]]; [apply Hok'|]. cbn [patch_block phis].
    apply (Forall_impl (phi_ok g bs (block_id d))).
    + apply Forall_alter; [apply Hok|]. intros i _ Hi. rewrite Eh in *. by apply patched_phi_ok.
    + intros i. apply phi_ok_mono; [apply patched_extends | apply elem_of_bids; eauto].
  - intros pre i post w E Hw. apply Haft. by eapply bo_reads.
  - intros w Hw. apply Haft. by apply Hok'.
Qed.

Lemma patched_ok : entry_ok g bs h (p, v) -> blocks_ok g nv nb bs -> blocks_ok g nv nb bs'.
Proof using Hpat.
  intros He Hok. constructor; unfold known; rewrite ?(patched_bids _ _ Hpat), ?(patched_vars _ _ _ Hpat); try apply Hok.
  - eapply patched_ordered, Hok. done.
  - apply Forall_forall. intros d' Hd'. apply patched_from in Hd' as (d & Hd & Hp).
    eapply patched_block_ok; [done..|]. eapply Forall_forall; [apply Hok|done].
Qed.
End Patch.

(** * Finished functions *)

(** [v] is defined when control is in block [b] behind [pre]: a parameter, a
    definition in front, or a definition in a block that control has passed on
    every path. *)
Definition defined_at (f : IrFunction) (b : Block) (pre : list Inst) (v : VarId) : Prop :=
  v ∈ map snd (params f) \/ v ∈ flat_map def_of (phis b ++ pre) \/
  exists d, d ∈ blocks f /\ block_id d <> block_id b /\ dominates f 0 (block_id d) (block_id b) /\ v ∈ block_defs d.

(** Every read is defined.  A phi has its entries for blocks that jump to it,
    and one for each block that jumps forward to it. *)
Record strict_ssa (f : IrFunction) : Prop := {
  ss_reads b pre i post v : b ∈ blocks f -> insts b = pre ++ i :: post -> v ∈ uses i -> defined_at f b pre v;
  ss_term b v : b ∈ blocks f -> v ∈ term_uses (terminator b) -> defined_at f b (insts b) v;
  ss_entry b d es p v : b ∈ blocks f -> IPhi d es ∈ phis b -> (p, v) ∈ es ->
    exists q, q ∈ blocks f /\ block_id q = p /\ block_id b ∈ successors (terminator q) /\ defined_at f q (insts q) v;
  ss_preds b d es q : b ∈ blocks f -> IPhi d es ∈ phis b -> q ∈ blocks f ->
    block_id b ∈ forward_succs (terminator q) -> block_id q ∈ map fst es
}.

Definition fn_plan (f : IrFunction) (g : Plan) : Prop :=
  pl_pending g = ∅ /\ pl_params g = map snd (params f) /\ blocks_ok g (next_var f) (next_block f) (blocks f).

Lemma ordered_before seen bs i d t :
  ordered seen bs -> bs !! i = Some d -> t ∈ forward_succs (terminator d) -> t ∉ seen ++ take (S i) (bids bs).
Proof.
  revert seen i. induction bs as [|b bs IH]; intros seen [|i] Ho Hi Ht; simpl in *; [done|done| |].
  - injection Hi as ->. by apply Ho.
  - change (block_id b :: bids bs) with ([block_id b] ++ bids bs). cbn [app take]. rewrite (cons_middle (block_id b)), app_assoc.
    by eapply IH; [apply Ho|done|].
Qed.

(** The position of a block. *)
Definition rank_of (bs : list BlockId) (b : BlockId) : nat := default 0%nat (fst <$> list_find (b =.) bs).

Lemma rank_of_lookup bs i b : NoDup bs -> bs !! i = Some b -> rank_of bs b = i.
Proof.
  intros Hnd Hi. unfold rank_of. destruct (list_find (b =.) bs) as [[j x]|] eqn:E; simpl.
  - apply list_find_Some in E as (Hj & -> & _). by eapply NoDup_lookup.
  - apply list_find_None in E. exfalso. eapply Forall_lookup_1 in E; done.
Qed.

Lemma flat_map_elem {A B : Type} (h : A -> list B) l y : y ∈ flat_map h l <-> exists x, x ∈ l /\ y ∈ h x.
Proof. rewrite list_elem_of_In, in_flat_map. setoid_rewrite list_elem_of_In. done. Qed.

Section Finished.
Context (f : IrFunction) (g : Plan) (Hf : fn_plan f g).

Local Lemma plan_ok : blocks_ok g (next_var f) (next_block f) (blocks f).
Proof using Hf. apply Hf. Qed.

Lemma plan_known b : known g (blocks f) b <-> b ∈ ids f.
Proof using Hf.
  unfold known. destruct Hf as (-> & _ & _). rewrite lookup_empty. split; [|by left].
  intros [H | H]; [done|by apply is_Some_None in H].
Qed.

Lemma plan_block_ok b : b ∈ blocks f -> block_ok g (blocks f) b.
Proof using Hf. intros Hb. eapply Forall_forall; [apply plan_ok|done]. Qed.

Lemma plan_succ b t : succ f b t -> t ∈ ids f /\ doms g t ⊆ {[t]} ∪ doms g b.
Proof using Hf.
  intros (tm & (blk & Hin & <- & <-) & Ht). pose proof (plan_block_ok blk Hin) as Hb.
  split; [by apply plan_known, Hb | by apply Hb].
Qed.

Lemma plan_well_formed : well_formed f 0.
Proof using Hf.
  constructor.
  - apply plan_ok.
  - pose proof (ok_entry _ _ _ _ plan_ok) as He. destruct (blocks f) as [|b0 rest]; [done|]. simpl in He. eauto with congruence.
  - intros b t Hs. by apply plan_succ in Hs as [? _].
Qed.

Lemma plan_dominates b d : d ∈ doms g b -> dominates f 0 d b.
Proof using Hf.
  intros Hd p Hp. revert d Hd. induction Hp as [|p b s Hp IH Hs]; intros d Hd.
  - apply (ok_root _ _ _ _ plan_ok) in Hd. set_solver.
  - apply plan_succ in Hs as [_ Hs]. apply Hs in Hd. set_solver.
Qed.

Lemma plan_reducible : reducible f 0.
Proof using Hf.
  constructor.
  - exists (rank_of (ids f)). intros b t _ (tm & (blk & Hin & <- & <-) & Ht).
    pose proof (ok_ids _ _ _ _ plan_ok) as Hnd. change (bids (blocks f)) with (ids f) in Hnd.
    apply list_elem_of_lookup in Hin as (i & Hi).
    assert (Hbi : ids f !! i = Some (block_id blk)) by (unfold ids; change (map block_id) with (fmap (M:=list) block_id); by rewrite list_lookup_fmap, Hi).
    assert (Hts : t ∈ ids f).
    { apply (plan_succ (block_id blk)). exists (terminator blk). split; [|by apply successors_split; left].
      exists blk. split_and!; [by eapply list_elem_of_lookup_2|done..]. }
    apply list_elem_of_lookup in Hts as (j & Hj).
    rewrite (rank_of_lookup _ _ _ Hnd Hbi), (rank_of_lookup _ _ _ Hnd Hj).
    pose proof (ordered_before _ _ _ _ _ (ok_order _ _ _ _ plan_ok) Hi Ht) as Hno. simpl in Hno.
    destruct (decide (i < j)%nat) as [|Hge]; [done|]. exfalso. apply Hno.
    eapply (list_elem_of_lookup_2 _ j). rewrite lookup_take_lt by lia. done.
  - intros b h _ (tm & (blk & Hin & <- & <-) & Hh). apply plan_dominates. by apply plan_block_ok.
Qed.

Lemma plan_defined b pre v : avail_after g (blocks f) b pre v -> defined_at f b pre v.
Proof using Hf.
  destruct Hf as (_ & Hp & _). intros [Hv | [Hv | (d & ? & ? & Hd & ?)]].
  - left. by rewrite <- Hp.
  - right. by left.
  - right. right. exists d. split_and!; [done..| |done]. by apply plan_dominates.
Qed.

Lemma plan_strict_ssa : strict_ssa f.
Proof using Hf.
  constructor.
  - intros b pre i post v Hb E Hv. apply plan_defined. by eapply bo_reads; [apply plan_block_ok|..].
  - intros b v Hb Hv. apply plan_defined. by apply plan_block_ok.
  - intros b d es p v Hb Hi He. pose proof (bo_phis _ _ _ (plan_block_ok b Hb)) as Hphi.
    eapply Forall_forall in Hphi; [|exact Hi]. destruct Hphi as (d' & es' & [= <- <-] & Hes & _).
    eapply Forall_forall in Hes; [|exact He]. destruct Hes as [Ha (q & Hq & E & Hs)]. exists q. split_and!; [done..|].
    apply plan_defined. eapply avail_here; [apply plan_ok|done|]. by rewrite E.
  - intros b d es q Hb Hi Hq Hs. pose proof (bo_phis _ _ _ (plan_block_ok b Hb)) as Hphi.
    eapply Forall_forall in Hphi; [|exact Hi]. destruct Hphi as (d' & es' & [= <- <-] & _ & Hp). by apply Hp.
Qed.

Lemma fn_vars_all : fn_vars f = all_vars g (blocks f).
Proof using Hf.
  destruct Hf as (_ & Hp & _). unfold fn_vars, all_vars, fn_insts. rewrite Hp. f_equal.
  generalize (blocks f) as bs. induction bs as [|b bs IH]; [done|]. simpl. rewrite flat_map_app. by f_equal.
Qed.

Lemma avail_after_var b pre post v : b ∈ blocks f -> insts b = pre ++ post -> avail_after g (blocks f) b pre v -> v ∈ fn_vars f.
Proof using Hf.
  intros Hb E Hv. rewrite fn_vars_all. unfold all_vars. apply elem_of_app.
  destruct Hv as [Hv | [Hv | (d & Hd & _ & _ & Hv)]]; [by left | right | right].
  - apply flat_map_elem. exists b. split; [done|].
    apply elem_of_block_defs. rewrite E, flat_map_app. rewrite flat_map_app in Hv. set_solver.
  - apply flat_map_elem. eauto.
Qed.

Lemma phi_preds_known b t : b ∈ blocks f -> t ∈ flat_map phi_preds (phis b) -> t ∈ ids f.
Proof using Hf.
  intros Hb Ht. apply flat_map_elem in Ht as (i & Hi & Ht).
  pose proof (bo_phis _ _ _ (plan_block_ok b Hb)) as Hphi. eapply Forall_forall in Hphi; [|exact Hi].
  destruct Hphi as (d & es & -> & Hes & _). simpl in Ht. apply list_elem_of_fmap in Ht as (e & -> & He).
  eapply Forall_forall in Hes; [|exact He]. destruct Hes as [_ (q & Hq & <- & _)]. by apply list_elem_of_fmap_2.
Qed.

Lemma phi_use_var b v : b ∈ blocks f -> v ∈ flat_map uses (phis b) -> v ∈ fn_vars f.
Proof using Hf.
  intros Hb Hv. apply flat_map_elem in Hv as (i & Hi & Hv).
  pose proof (bo_phis _ _ _ (plan_block_ok b Hb)) as Hphi. eapply Forall_forall in Hphi; [|exact Hi].
  destruct Hphi as (d & es & -> & Hes & _). simpl in Hv. apply list_elem_of_fmap in Hv as ([p w] & -> & He).
  eapply Forall_forall in Hes; [|exact He]. destruct Hes as [Ha (q & Hq & E & _)].
  cbn [fst snd] in *. rewrite <- E in Ha. apply (avail_here g _ _ _ _ _ plan_ok Hq) in Ha.
  eapply (avail_after_var q (insts q) []); [done|by rewrite app_nil_r|done].
Qed.

Lemma plan_closed : closed f.
Proof using Hf.
  pose proof plan_ok as Hok.
  assert (Hreads : forall b v, b ∈ blocks f -> v ∈ block_reads b -> v ∈ fn_vars f).
  { intros b v Hb Hv. unfold block_reads, block_insts in Hv. rewrite flat_map_app, !elem_of_app in Hv.
    pose proof (plan_block_ok b Hb) as Hbo. destruct Hv as [[Hv | Hv] | Hv]; [by eapply phi_use_var| |].
    - apply flat_map_elem in Hv as (i & (pre & post & E)%list_elem_of_split & Hv).
      eapply (avail_after_var b pre); [done|exact E|]. by eapply bo_reads.
    - eapply (avail_after_var b (insts b) []); [done|by rewrite app_nil_r|]. by apply Hbo. }
  assert (Hrefs : forall b t, b ∈ blocks f -> t ∈ block_refs b -> t ∈ ids f).
  { intros b t Hb Ht. apply elem_of_app in Ht as [Ht | Ht]; [|by eapply phi_preds_known].
    apply plan_known. by eapply bo_known; [apply plan_block_ok|]. }
  assert (Hrange : forall b, b ∈ ids f -> 0 <= b < next_block f).
  { intros b Hb. eapply ok_range; [done|]. by apply plan_known. }
  assert (Hlt : forall v, v ∈ fn_vars f -> v < next_var f).
  { intros v Hv. rewrite fn_vars_all in Hv. pose proof (ok_var_range _ _ _ _ Hok) as Hr. by eapply Forall_forall in Hr. }
  split; [split_and!|].
  - apply Hok.
  - by apply Forall_forall.
  - rewrite fn_vars_all. apply Hok.
  - by apply Forall_forall.
  - apply Forall_forall. intros b Hb. split; apply Forall_forall; intros x Hx; [eauto|].
    apply Hrefs, Hrange in Hx; [lia|done].
  - apply Forall_forall. intros b Hb. split; apply Forall_forall; eauto.
Qed.
End Finished.
