(* ===== verification/LowerSpec.v ===== *)
(** Lowered functions are well formed: a calculus for the code of the builder
    whose judgements say that the invariant of LowerInv.v is kept, and its
    application to every lowering operation. *)
From stdpp Require Import gmap.
From S2P Require Import Prelude RustStd Token Lexer Form Ir Reloop ReloopSem ReloopGraph Inline InlineSem NativeOps Lower LowerInv.
Local Open Scope Z_scope.

(** * Postconditions *)

(** Code that returns a value does so in a state that satisfies [Q]. *)
Definition wp {A : Type} (m : M A) (Q : A -> LowerState -> Prop) (s : LowerState) : Prop :=
  match m s with
  | (Ok a, s') => Q a s'
  | _ => True
  end.

Lemma wp_bind {A B : Type} (m : M A) (k : A -> M B) Q s : wp m (fun a => wp (k a) Q) s -> wp (m ≫= k) Q s.
Proof. unfold wp, mbind, stateM_bind. by destruct (m s) as [[] ?]. Qed.

Lemma wp_mono {A : Type} (m : M A) (P Q : A -> LowerState -> Prop) s :
  wp m P s -> (forall a s', P a s' -> Q a s') -> wp m Q s.
Proof. unfold wp. destruct (m s) as [[] ?]; auto. Qed.

Lemma wp_fresh_var (Q : VarId -> LowerState -> Prop) s :
  let c := ls_ctx s in
  Q (lc_next_var c) (mkLowerState (set_counters (lc_next_var c + 1) (lc_next_block c) c) (ls_names s)) ->
  wp fresh_var Q s.
Proof. intros c HQ. unfold wp, fresh_var. cbv zeta. by destruct (_ <? _). Qed.

Lemma wp_fresh_block (Q : BlockId -> LowerState -> Prop) s :
  let c := ls_ctx s in
  Q (lc_next_block c) (mkLowerState (set_counters (lc_next_var c) (lc_next_block c + 1) c) (ls_names s)) ->
  wp fresh_block Q s.
Proof. intros c HQ. unfold wp, fresh_block. cbv zeta. by destruct (_ <? _). Qed.

(** * The builder's invariant *)

(** The finished blocks, and the one being built if there is one. *)
Definition view (o : bool) (c : LowerCtx) : list Block :=
  finished_blocks c ++ if o then [open_block (current_block c) (current_phis c) (current_insts c)] else [].

Inductive good_tree : IrFunction -> Prop :=
| good_tree_intro f g : fn_plan f g -> Forall good_tree (subfunctions f) -> good_tree f.

Record core (o : bool) (g : Plan) (c : LowerCtx) : Prop := {
  co_blocks : blocks_ok g (lc_next_var c) (lc_next_block c) (view o c);
  co_current : current_block c ∈ bids (view o c);
  co_subs : Forall good_tree (lc_subfunctions c);
  co_empty : o = false -> current_phis c = [] /\ current_insts c = []
}.

Definition avail_all (g : Plan) (bs : list Block) (b : BlockId) (vs : list VarId) : Prop := Forall (avail g bs b) vs.

Definition scopes_ok (g : Plan) (bs : list Block) (b : BlockId) (ls : list (gmap Name VarId)) : Prop :=
  Forall (map_Forall (fun _ v => avail g bs b v)) ls.

Definition headers_ok (g : Plan) (b : BlockId) (hs : list (BlockId * list VarId)) : Prop :=
  Forall (fun h => h.1 ∈ doms g b) hs.

Record inv (g : Plan) (c : LowerCtx) : Prop := {
  in_core : core true g c;
  in_scopes : scopes_ok g (view true c) (current_block c) (locals c);
  in_headers : headers_ok g (current_block c) (loop_headers c)
}.

Lemma core_known o g c : core o g c -> known g (view o c) (current_block c).
Proof. intros H. left. apply H. Qed.

(** ** Moving to a block below *)

(** What is available in a block is available in the blocks it dominates. *)
Lemma avail_move g bs g' bs' b b' v :
  grows g bs g' bs' -> known g bs b -> doms g b ⊆ doms g' b' -> avail g bs b v -> avail g' bs' b' v.
Proof.
  intros Hg Hb Hs Hv. apply (avail_mono _ _ _ _ _ _ Hg Hb) in Hv as [Hv | (d & Hd & Hin & Hv)]; [by left|].
  right. exists d. split_and!; [done| |done]. apply Hs. by rewrite <- (gr_doms _ _ _ _ Hg).
Qed.

Lemma avail_all_move g bs g' bs' b b' vs :
  grows g bs g' bs' -> known g bs b -> doms g b ⊆ doms g' b' -> avail_all g bs b vs -> avail_all g' bs' b' vs.
Proof. intros Hg Hb Hs H. eapply Forall_impl; [exact H|]. intros v. by eapply avail_move. Qed.

Lemma scopes_ok_move g bs g' bs' b b' ls :
  grows g bs g' bs' -> known g bs b -> doms g b ⊆ doms g' b' -> scopes_ok g bs b ls -> scopes_ok g' bs' b' ls.
Proof.
  intros Hg Hb Hs H. eapply Forall_impl; [exact H|]. intros sc Hsc n v Hv. eapply avail_move; [done..|]. by eapply Hsc.
Qed.

Lemma headers_ok_move g g' b b' hs : doms g b ⊆ doms g' b' -> headers_ok g b hs -> headers_ok g' b' hs.
Proof. intros Hs H. eapply Forall_impl; [exact H|]. intros h. apply Hs. Qed.

(** ** Steps of the builder *)

Definition bump_block (c : LowerCtx) : LowerCtx := set_counters (lc_next_var c) (lc_next_block c + 1) c.

Lemma core_fresh_block o g c :
  core o g c ->
  core o (plan_fresh (lc_next_block c) (current_block c) g) (bump_block c) /\
  extends g (view o c) (plan_fresh (lc_next_block c) (current_block c) g) (view o (bump_block c)).
Proof.
  intros [Hb Hc Hs He]. split; [|by eapply extends_fresh]. constructor; [|done..]. by apply fresh_ok.
Qed.

Definition bump_var (c : LowerCtx) : LowerCtx := set_counters (lc_next_var c + 1) (lc_next_block c) c.

Lemma blocks_ok_nv g nv nv' nb bs : nv <= nv' -> blocks_ok g nv nb bs -> blocks_ok g nv' nb bs.
Proof.
  intros Hle Hok. constructor; try apply Hok. eapply Forall_impl; [apply Hok|]. simpl. lia.
Qed.

Lemma core_fresh_var g c :
  core true g c -> core true g (bump_var c) /\ lc_next_var c ∉ all_vars g (view true c).
Proof.
  intros [Hb Hc Hs He]. split.
  - constructor; [|done..]. eapply blocks_ok_nv; [|exact Hb]. simpl. lia.
  - intros Hin. pose proof (ok_var_range _ _ _ _ Hb) as Hr. eapply Forall_forall in Hr; [|exact Hin]. simpl in Hr. lia.
Qed.

Definition finished (t : Terminator) (c : LowerCtx) : LowerCtx :=
  set_finished (finished_blocks c ++ [mkBlock (current_block c) (current_phis c) (current_insts c) t]) [] [] c.

Lemma core_finish g c t :
  core true g c ->
  avail_all g (view true c) (current_block c) (term_uses t) ->
  (forall x, x ∈ forward_succs t -> is_Some (pl_pending g !! x) /\ doms g x ⊆ {[x]} ∪ doms g (current_block c)) ->
  (forall h, recur_target t = Some h -> h ∈ doms g (current_block c)) ->
  let g' := plan_jump (current_block c) (forward_succs t) g in
  core false g' (finished t c) /\ extends g (view true c) g' (view false (finished t c)).
Proof.
  intros [Hb Hc Hs He] Hu Hf Hr g'. unfold view in *. cbn [finished finished_blocks set_finished]. rewrite app_nil_r. split.
  - constructor; [..|done|done]; unfold view; cbn [finished finished_blocks set_finished current_block lc_next_var lc_next_block];
      rewrite app_nil_r.
    + apply finish_ok; [done| |done|done]. intros v Hv. by eapply Forall_forall in Hu.
    + rewrite bids_app. set_solver.
  - by eapply finish_extends.
Qed.

Lemma core_start g c b ps :
  core false g c -> pl_pending g !! b = Some ps ->
  core true (plan_start b g) (set_block b c) /\
  extends g (view false c) (plan_start b g) (view true (set_block b c)) /\
  preds_in (view true (set_block b c)) b ps.
Proof.
  intros [Hb Hc Hs He] Hps. destruct (He eq_refl) as [Ep Ei]. unfold view in *. rewrite app_nil_r in *.
  assert (Ev : [open_block b (current_phis c) (current_insts c)] = [empty_block b]) by (by rewrite Ep, Ei).
  assert (Hne : finished_blocks c <> []) by (intros E; rewrite E in Hc; simpl in Hc; set_solver).
  cbn [set_block finished_blocks current_block current_phis current_insts]. rewrite Ev. split_and!.
  - constructor; [..|done|done]; unfold view;
      cbn [set_block finished_blocks current_block current_phis current_insts lc_next_var lc_next_block]; rewrite Ev.
    + by eapply start_ok.
    + rewrite bids_app. set_solver.
  - by eapply extends_start.
  - by eapply start_preds.
Qed.

Definition emitted (i : Inst) (c : LowerCtx) : LowerCtx :=
  if is_phi i then set_current (current_phis c ++ [i]) (current_insts c) (last_source_loc c) c
  else set_current (current_phis c) (current_insts c ++ [i]) (last_source_loc c) c.

(** A definition in the open block is available there. *)
Lemma avail_def g c d i :
  core true g c -> i ∈ current_phis c ++ current_insts c -> d ∈ def_of i -> avail g (view true c) (current_block c) d.
Proof.
  intros Hc Hi Hd. right. exists (open_block (current_block c) (current_phis c) (current_insts c)). split_and!.
  - unfold view. set_solver.
  - eapply ok_self; [apply Hc|]. by apply core_known.
  - apply flat_map_elem. eauto.
Qed.

Lemma core_phi g c d es nv' :
  core true g c -> lc_next_var c <= nv' ->
  Forall (entry_ok g (view true c) (current_block c)) es -> preds_in (view true c) (current_block c) (map fst es) ->
  d ∉ all_vars g (view true c) -> d < nv' ->
  let c' := emitted (IPhi d es) (set_counters nv' (lc_next_block c) c) in
  core true g c' /\ extends g (view true c) g (view true c') /\ avail g (view true c') (current_block c) d.
Proof.
  intros [Hb Hc Hs He] Hle Hes Hp Hd Hlt c'. assert (Hc' : core true g c').
  { constructor; [by apply emit_phi_ok with (lc_next_var c)| |done|done].
    unfold view in *. rewrite bids_app in *. done. }
  split_and!; [done|by eapply phi_extends|].
  eapply (avail_def _ c'); [done|apply elem_of_app; left; apply elem_of_app; right; by left|by left].
Qed.

Lemma core_emit g c i nv' :
  core true g c -> lc_next_var c <= nv' -> is_phi i = false ->
  avail_all g (view true c) (current_block c) (uses i) ->
  (forall d, d ∈ def_of i -> (d ∉ all_vars g (view true c)) /\ d < nv') ->
  let c' := emitted i (set_counters nv' (lc_next_block c) c) in
  core true g c' /\ extends g (view true c) g (view true c') /\
  forall d, d ∈ def_of i -> avail g (view true c') (current_block c) d.
Proof.
  intros [Hb Hc Hs He] Hle Hp Hu Hd c'.
  assert (Ev : view true c' = finished_blocks c ++ [open_block (current_block c) (current_phis c) (current_insts c ++ [i])])
    by (unfold view, c', emitted; by rewrite Hp).
  assert (Hc' : core true g c').
  { assert (Hcc : current_block c' = current_block c /\ lc_next_var c' = nv' /\ lc_next_block c' = lc_next_block c /\
                 lc_subfunctions c' = lc_subfunctions c) by (unfold c', emitted; by rewrite Hp).
    destruct Hcc as (E1 & E2 & E3 & E4). constructor; rewrite ?Ev, ?E1, ?E2, ?E3, ?E4; [|unfold view in *; by rewrite bids_app in *|done|done].
    apply emit_ok with (lc_next_var c); [done|done| |by unfold def_of; case_match; [apply NoDup_singleton|constructor]|done].
    intros v Hv. by eapply Forall_forall in Hu. }
  split_and!; [done|rewrite Ev; by eapply emit_extends|].
  intros d Hdi. replace (current_block c) with (current_block c') by (unfold c', emitted; by rewrite Hp).
  eapply avail_def; [done| |exact Hdi]. unfold c', emitted. rewrite Hp. simpl. set_solver.
Qed.

(** * Judgements *)

Record step (g : Plan) (c : LowerCtx) (g' : Plan) (c' : LowerCtx) : Prop := {
  st_grows : grows g (view true c) g' (view true c');
  st_doms : doms g (current_block c) ⊆ doms g' (current_block c');
  st_pending : pl_pending g' = pl_pending g;
  st_headers : loop_headers c' = loop_headers c
}.

Lemma step_refl g c : step g c g c.
Proof. constructor; [apply grows_refl|done..]. Qed.

Lemma step_trans g1 c1 g2 c2 g3 c3 : step g1 c1 g2 c2 -> step g2 c2 g3 c3 -> step g1 c1 g3 c3.
Proof.
  intros [] []. constructor; [by eapply grows_trans|by etrans|congruence|congruence].
Qed.

Lemma avail_all_step g c g' c' vs :
  inv g c -> step g c g' c' ->
  avail_all g (view true c) (current_block c) vs -> avail_all g' (view true c') (current_block c') vs.
Proof. intros Hi Hs. eapply avail_all_move; [apply Hs|by apply core_known, Hi|apply Hs]. Qed.

(** [Lw d d' vs m res]: code that needs the variables [vs] keeps the invariant,
    makes the variables [res a] available, and replaces the innermost [d] scopes
    by [d'] others. *)
Definition Lw {A : Type} (d d' : nat) (vs : list VarId) (m : M A) (res : A -> list VarId) : Prop :=
  forall g s top base,
    inv g (ls_ctx s) -> avail_all g (view true (ls_ctx s)) (current_block (ls_ctx s)) vs ->
    locals (ls_ctx s) = top ++ base -> length top = d ->
    wp m (fun a s' => exists g' top',
      inv g' (ls_ctx s') /\ step g (ls_ctx s) g' (ls_ctx s') /\
      avail_all g' (view true (ls_ctx s')) (current_block (ls_ctx s')) (res a) /\
      locals (ls_ctx s') = top' ++ base /\ length top' = d') s.

Section Rules.
Context {A B : Type}.
Implicit Types (vs : list VarId) (m : M A).

Lemma Lw_ret d vs (a : A) res : res a ⊆ vs -> Lw d d vs (mret a) res.
Proof.
  intros Hsub g s top base Hi Hv Hl Hd. exists g, top. split_and!; try done; [apply step_refl|].
  apply Forall_forall. intros v Hin. eapply Forall_forall; [exact Hv|]. by apply Hsub.
Qed.

Lemma Lw_bind d d1 d2 vs m (k : A -> M B) r1 r2 :
  Lw d d1 vs m r1 -> (forall a, Lw d1 d2 (r1 a ++ vs) (k a) r2) -> Lw d d2 vs (m ≫= k) r2.
Proof.
  intros Hm Hk g s top base Hi Hv Hl Hd. apply wp_bind. eapply wp_mono; [by eapply Hm|].
  intros a s1 (g1 & top1 & Hi1 & Hs1 & Hr1 & Hl1 & Hd1).
  eapply wp_mono; [eapply (Hk a g1 s1 top1 base); try done|].
  - apply Forall_app. split; [done|]. exact (avail_all_step _ _ _ _ _ Hi Hs1 Hv).
  - intros b s2 (g2 & top2 & Hi2 & Hs2 & Hr2 & Hl2 & Hd2). exists g2, top2. split_and!; try done.
    by eapply step_trans.
Qed.

Lemma Lw_weaken d d' vs vs' m res res' :
  Lw d d' vs m res -> vs ⊆ vs' -> (forall a, res' a ⊆ res a) -> Lw d d' vs' m res'.
Proof.
  intros Hm Hsub Hres g s top base Hi Hv Hl Hd.
  eapply wp_mono; [eapply Hm; try done|].
  - apply Forall_forall. intros v Hin. eapply Forall_forall; [exact Hv|]. by apply Hsub.
  - intros a s1 (g1 & top1 & ? & ? & Hr & ? & ?). exists g1, top1. split_and!; try done.
    apply Forall_forall. intros v Hin. eapply Forall_forall; [exact Hr|]. by apply Hres.
Qed.

Lemma Lw_frame k d d' vs m res : Lw d d' vs m res -> Lw (d + k) (d' + k) vs m res.
Proof.
  intros Hm g s top base Hi Hv Hl Hd.
  assert (Htop : top = take d top ++ drop d top) by by rewrite take_drop.
  eapply wp_mono; [eapply (Hm g s (take d top) (drop d top ++ base)); try done|].
  - by rewrite app_assoc, <- Htop.
  - rewrite length_take. lia.
  - intros a s1 (g1 & top1 & ? & ? & ? & Hl1 & ?). exists g1, (top1 ++ drop d top). split_and!; try done.
    + by rewrite Hl1, app_assoc.
    + rewrite length_app, length_drop. lia.
Qed.

(** Code that does not change the context. *)
Lemma Lw_pure (P : A -> Prop) d d' vs m (k : A -> M B) res :
  (forall s, wp m (fun a s' => P a /\ ls_ctx s' = ls_ctx s) s) ->
  (forall a, P a -> Lw d d' vs (k a) res) -> Lw d d' vs (m ≫= k) res.
Proof.
  intros Hm Hk g s top base Hi Hv Hl Hd. apply wp_bind. eapply wp_mono; [apply Hm|].
  intros a s1 [Ha E]. pose proof (Hk a Ha g s1 top base) as Hw. rewrite E in Hw. auto.
Qed.
End Rules.

Lemma Lw_throw {A : Type} d d' vs e (res : A -> list VarId) : Lw d d' vs (throw e) res.
Proof. by intros g s top base. Qed.

Lemma Lw_fail {A : Type} d d' vs (m : M A) (res : A -> list VarId) :
  (forall s a s', m s <> (Ok a, s')) -> Lw d d' vs m res.
Proof. intros Hm g s top base _ _ _ _. unfold wp. destruct (m s) as [[] ?] eqn:E; try done. by apply Hm in E. Qed.

(** ** Primitive operations *)

(** An update of the context that leaves what the invariant is about. *)
Lemma inv_same g c c' :
  view true c' = view true c -> current_block c' = current_block c -> lc_next_var c' = lc_next_var c ->
  lc_next_block c' = lc_next_block c -> lc_subfunctions c' = lc_subfunctions c -> loop_headers c' = loop_headers c ->
  scopes_ok g (view true c) (current_block c) (locals c') -> inv g c -> inv g c' /\ step g c g c'.
Proof.
  intros Ev Ec En Eb Es Eh Hsc [[Hb Hc Hs He] _ Hh]. split.
  - constructor; [constructor|..]; rewrite ?Ev, ?Ec, ?En, ?Eb, ?Es, ?Eh; done.
  - constructor; rewrite ?Ev, ?Ec; [apply grows_refl|done..].
Qed.

Lemma Lw_ctx d d' vs (f : LowerCtx -> LowerCtx) :
  (forall g c top base,
     inv g c -> avail_all g (view true c) (current_block c) vs -> locals c = top ++ base -> length top = d ->
     exists top', inv g (f c) /\ step g c g (f c) /\ locals (f c) = top' ++ base /\ length top' = d') ->
  Lw d d' vs (ctx_modify f) (fun _ => []).
Proof.
  intros Hf g s top base Hi Hv Hl Hd. destruct (Hf g _ _ _ Hi Hv Hl Hd) as (top' & ? & ? & ? & ?).
  exists g, top'. split_and!; try done. constructor.
Qed.

Lemma Lw_push_scope d vs : Lw d (S d) vs push_scope (fun _ => []).
Proof.
  apply Lw_ctx. intros g c top base Hi _ Hl Hd. exists (∅ :: top).
  destruct (inv_same g c (set_locals (∅ :: locals c) c)) as [? ?]; try done.
  - constructor; [apply map_Forall_empty|apply Hi].
  - split_and!; try done; simpl; [by rewrite Hl|by rewrite Hd].
Qed.

Lemma Lw_pop_scope d vs : Lw (S d) d vs pop_scope (fun _ => []).
Proof.
  apply Lw_ctx. intros g c top base Hi _ Hl Hd. destruct top as [|sc top]; [done|]. exists top.
  destruct (inv_same g c (set_locals (tail (locals c)) c)) as [? ?]; try done.
  - pose proof (in_scopes _ _ Hi) as Hs. simpl. rewrite Hl in *. by apply Forall_cons in Hs as [_ Hs].
  - split_and!; try done; simpl; [by rewrite Hl|by injection Hd].
Qed.

Lemma Lw_bind_local d vs n v : v ∈ vs -> Lw (S d) (S d) vs (bind_local n v) (fun _ => []).
Proof.
  intros Hin. apply Lw_ctx. intros g c top base Hi Hv Hl Hd. destruct top as [|sc top]; [done|].
  rewrite Hl. simpl. exists (<[n := v]> sc :: top).
  destruct (inv_same g c (set_locals (<[n := v]> sc :: top ++ base) c)) as [? ?]; try done.
  pose proof (in_scopes _ _ Hi) as Hs. rewrite Hl in Hs. apply Forall_cons in Hs as [Hsc Hs].
  constructor; [|done]. apply map_Forall_insert_2; [|done]. by eapply Forall_forall in Hv.
Qed.

Lemma Lw_gets {A : Type} d vs (f : LowerCtx -> A) : Lw d d vs (ctx_gets f) (fun _ => []).
Proof. intros g s top base Hi Hv Hl Hd. exists g, top. split_and!; try done; [apply step_refl|constructor]. Qed.

Lemma lookup_scopes_in n ls v : lookup_scopes n ls = Some v -> exists sc, sc ∈ ls /\ sc !! n = Some v.
Proof.
  induction ls as [|sc ls IH]; simpl; [done|]. destruct (sc !! n) as [w|] eqn:E.
  - intros [= <-]. exists sc. split; [by left|done].
  - intros (sc' & ? & ?)%IH. exists sc'. split; [by right|done].
Qed.

Lemma Lw_lookup_local d vs n : Lw d d vs (lookup_local n) option_list.
Proof.
  intros g s top base Hi Hv Hl Hd. exists g, top. split_and!; try done; [apply step_refl|].
  destruct (lookup_scopes _ _) as [v|] eqn:E; [|constructor]. apply lookup_scopes_in in E as (sc & Hsc & E).
  constructor; [|constructor]. pose proof (in_scopes _ _ Hi) as Hs. eapply Forall_forall in Hs; [|exact Hsc].
  by eapply Hs.
Qed.

Lemma bt_insert_in {V : Type} k (v : V) m p : p ∈ bt_insert k v m -> p = (k, v) \/ p ∈ m.
Proof.
  induction m as [|[k' v'] m IH]; simpl; [set_solver|]. destruct (lex_compare k k') eqn:E; [|set_solver|set_solver].
  apply lex_compare_eq in E as ->. set_solver.
Qed.

Lemma all_locals_in ls n v : (n, v) ∈ all_locals_of ls -> exists sc, sc ∈ ls /\ sc !! n = Some v.
Proof.
  unfold all_locals_of. intros Hin.
  assert (Hm : (n, v) ∈ map_to_list (foldr union ∅ ls : gmap Name VarId)).
  { revert Hin. generalize (map_to_list (foldr union ∅ ls : gmap Name VarId)) as l.
    induction l as [|[k w] l IH]; simpl; [done|]. intros [E | Hin]%bt_insert_in; [rewrite E; by left|]. right. by apply IH. }
  apply elem_of_map_to_list in Hm. clear Hin. induction ls as [|sc ls IH]; simpl in *; [by rewrite lookup_empty in Hm|].
  apply lookup_union_Some_raw in Hm as [Hm | [_ Hm]]; [exists sc; split; [by left|done]|].
  apply IH in Hm as (sc' & ? & ?). exists sc'. split; [by right|done].
Qed.

Lemma Lw_get_all_locals d vs : Lw d d vs get_all_locals (fun l => map snd l).
Proof.
  intros g s top base Hi Hv Hl Hd. exists g, top. split_and!; try done; [apply step_refl|].
  apply Forall_forall. intros v ([n w] & -> & Hin)%list_elem_of_fmap. apply all_locals_in in Hin as (sc & Hsc & E).
  pose proof (in_scopes _ _ Hi) as Hs. eapply Forall_forall in Hs; [|exact Hsc]. by eapply Hs.
Qed.

Lemma Lw_add_subfunction d vs f : good_tree f -> Lw d d vs (add_subfunction f) (fun _ => []).
Proof.
  intros Hf. apply Lw_ctx. intros g c top base [[Hb Hc Hs He] Hsc Hh] _ Hl Hd. exists top. split_and!; try done.
  - constructor; [constructor|..]; try done. apply Forall_app. auto.
  - constructor; [apply grows_refl|done..].
Qed.

(** ** Instructions *)

Lemma wp_emit i (Q : unit -> LowerState -> Prop) s :
  Q tt (mkLowerState (emitted i (ls_ctx s)) (ls_names s)) -> wp (emit i) Q s.
Proof. done. Qed.

(** An update of the open block. *)
Lemma inv_extend g c c' :
  core true g c' -> extends g (view true c) g (view true c') -> current_block c' = current_block c ->
  locals c' = locals c -> loop_headers c' = loop_headers c -> inv g c -> inv g c' /\ step g c g c'.
Proof.
  intros Hc Hx Ec El Eh Hi. pose proof (ex_grows _ _ _ _ Hx) as Hg.
  assert (Hs : doms g (current_block c) ⊆ doms g (current_block c')) by by rewrite Ec. split.
  - constructor; [done|..]; rewrite ?El, ?Eh.
    + eapply scopes_ok_move; [done|by apply core_known, Hi|done|apply Hi].
    + eapply headers_ok_move; [done|apply Hi].
  - by constructor.
Qed.

Lemma Lw_emit d vs i : is_phi i = false -> def_of i = [] -> uses i ⊆ vs -> Lw d d vs (emit i) (fun _ => []).
Proof.
  intros Hp Hdef Hu. apply Lw_ctx. intros g c top base Hi Hv Hl Hd.
  destruct (core_emit g c i (lc_next_var c)) as (Hc & Hx & _); try done; [apply Hi| | |].
  - apply Forall_forall. intros v Hin. eapply Forall_forall; [exact Hv|]. by apply Hu.
  - rewrite Hdef. set_solver.
  - exists top. change (if is_phi i then _ else _) with (emitted i c).
    replace (emitted i c) with (emitted i (set_counters (lc_next_var c) (lc_next_block c) c)) by (by destruct c).
    destruct (inv_extend g c (emitted i (set_counters (lc_next_var c) (lc_next_block c) c))) as [? ?];
      try done; [unfold emitted; by rewrite Hp..|]. split_and!; try done. unfold emitted. by rewrite Hp.
Qed.

Lemma Lw_def {A : Type} d d' vs (inst : VarId -> Inst) (k : VarId -> M A) res :
  (forall v, is_phi (inst v) = false /\ def_of (inst v) = [v] /\ uses (inst v) ⊆ vs) ->
  (forall v, Lw d d' (v :: vs) (k v) res) -> Lw d d' vs (v ← fresh_var; emit (inst v);; k v) res.
Proof.
  intros Hinst Hk g s top base Hi Hv Hl Hd. apply wp_bind, wp_fresh_var. apply wp_bind.
  set (c := ls_ctx s) in *. set (v := lc_next_var c). destruct (Hinst v) as (Hp & Hdef & Hu).
  destruct (core_fresh_var g c (in_core _ _ Hi)) as [_ Hnew].
  destruct (core_emit g c (inst v) (lc_next_var c + 1)) as (Hc & Hx & Ha); try done; [apply Hi|lia| | |].
  - apply Forall_forall. intros w Hin. eapply Forall_forall; [exact Hv|]. by apply Hu.
  - rewrite Hdef. intros w ->%list_elem_of_singleton. split; [done|unfold v; lia].
  - set (c' := emitted (inst v) (set_counters (lc_next_var c + 1) (lc_next_block c) c)) in *.
    destruct (inv_extend g c c') as [Hi' Hs']; try done; [unfold c', emitted; by rewrite Hp..|].
    apply wp_emit. match goal with |- wp ?m ?Q _ => change (wp m Q (mkLowerState c' (ls_names s))) end.
    assert (Ec : current_block c' = current_block c) by (unfold c', emitted; by rewrite Hp).
    assert (El : locals c' = locals c) by (unfold c', emitted; by rewrite Hp).
    eapply wp_mono; [apply (Hk v g (mkLowerState c' (ls_names s)) top base); cbn [ls_ctx]; try done|].
    + constructor; [rewrite Ec; apply Ha; rewrite Hdef; by left|]. exact (avail_all_step _ _ _ _ _ Hi Hs' Hv).
    + by rewrite El.
    + intros a s2 (g2 & top2 & ? & Hs2 & ? & ? & ?). exists g2, top2. split_and!; try done. by eapply step_trans.
Qed.

Lemma Lw_fresh_var d vs : Lw d d vs fresh_var (fun _ => []).
Proof.
  intros g s top base Hi Hv Hl Hd. apply wp_fresh_var. exists g, top.
  destruct (inv_extend g (ls_ctx s) (bump_var (ls_ctx s))) as [? ?]; try done.
  - apply core_fresh_var, Hi.
  - constructor; [apply grows_refl|eauto|eauto].
  - split_and!; try done. constructor.
Qed.

Lemma Lw_source_loc d vs sp : Lw d d vs (maybe_emit_source_loc sp) (fun _ => []).
Proof.
  apply Lw_ctx. intros g c top base Hi Hv Hl Hd. exists top. cbv zeta. case_bool_decide; [by split_and!; try done; apply step_refl|].
  destruct (core_emit g c (ISourceLoc sp) (lc_next_var c)) as (Hc & Hx & _); try done; [apply Hi|constructor|set_solver|].
  set (c' := set_current _ _ _ _).
  destruct (inv_extend g c c') as [? ?]; try done.
  destruct Hc as [Hb Hcur Hsub He]. by constructor.
Qed.

(** * Control flow *)

(** The scopes, the loop headers and some variables are usable in a block. *)
Record usable (g : Plan) (bs : list Block) (b : BlockId) (ls : list (gmap Name VarId))
    (hs : list (BlockId * list VarId)) (vs : list VarId) : Prop := {
  us_known : known g bs b;
  us_scopes : scopes_ok g bs b ls;
  us_headers : headers_ok g b hs;
  us_avail : avail_all g bs b vs
}.

Lemma usable_move g bs g' bs' b b' ls hs vs :
  usable g bs b ls hs vs -> grows g bs g' bs' -> known g' bs' b' -> doms g b ⊆ doms g' b' -> usable g' bs' b' ls hs vs.
Proof.
  intros [Hk Hs Hh Ha] Hg Hb Hd. constructor; [done|..].
  - by eapply scopes_ok_move.
  - by eapply headers_ok_move.
  - by eapply avail_all_move.
Qed.

Lemma usable_grow g bs g' bs' b ls hs vs : usable g bs b ls hs vs -> grows g bs g' bs' -> usable g' bs' b ls hs vs.
Proof.
  intros Hu Hg. eapply usable_move; [done..| |]; [by apply Hg, Hu|].
  rewrite (gr_doms _ _ _ _ Hg); [done|]. apply Hu.
Qed.

Lemma inv_usable g c vs :
  inv g c -> avail_all g (view true c) (current_block c) vs ->
  usable g (view true c) (current_block c) (locals c) (loop_headers c) vs.
Proof. intros [Hc Hs Hh] Hv. constructor; [by apply core_known|done..]. Qed.

Lemma usable_inv g c vs :
  core true g c -> usable g (view true c) (current_block c) (locals c) (loop_headers c) vs -> inv g c.
Proof. intros Hc [Hk Hs Hh _]. by constructor. Qed.

Lemma wp_finish t (Q : unit -> LowerState -> Prop) s :
  Q tt (mkLowerState (finished t (ls_ctx s)) (ls_names s)) -> wp (finish_block t) Q s.
Proof. done. Qed.

Lemma wp_start b (Q : unit -> LowerState -> Prop) s :
  Q tt (mkLowerState (set_block b (ls_ctx s)) (ls_names s)) -> wp (start_block b) Q s.
Proof. done. Qed.

Lemma wp_current_block (Q : BlockId -> LowerState -> Prop) s :
  Q (current_block (ls_ctx s)) s -> wp current_block_id Q s.
Proof. done. Qed.

(** Closing the open block with a jump to a pending one. *)
Lemma jump_entry g c j ps v :
  core true g c -> pl_pending g !! j = Some ps -> doms g j ⊆ {[j]} ∪ doms g (current_block c) ->
  avail g (view true c) (current_block c) v ->
  let g' := plan_jump (current_block c) [j] g in
  let c' := finished (Jump j) c in
  core false g' c' /\ extends g (view true c) g' (view false c') /\
  entry_ok g' (view false c') j (current_block c, v) /\
  forall x, pl_pending g' !! x = if decide (x = j) then Some (current_block c :: ps) else pl_pending g !! x.
Proof.
  intros Hc Hj Hd Hv g' c'.
  destruct (core_finish g c (Jump j) Hc) as [Hc' Hx]; [constructor| |done|].
  { intros x ->%list_elem_of_singleton. split; [by eexists|done]. }
  split_and!; [done|done| |].
  - split; simpl.
    + eapply avail_mono; [apply Hx|by apply core_known|done].
    + eexists. split_and!; [unfold view; simpl; rewrite app_nil_r; apply elem_of_app; right; by left|done|by left].
  - intros x. unfold g', plan_jump. simpl. rewrite lookup_alter. repeat case_decide; subst; try done. by rewrite Hj.
Qed.

(** A branch between a pending block and a jump to another one. *)
Definition branch_code {A : Type} (t j : BlockId) (m : M VarId) (k : BlockId -> VarId -> M A) : M A :=
  start_block t;; v ← m; x ← current_block_id; finish_block (Jump j);; k x v.

Section Branch.
Context {A : Type} (t j b0 : BlockId) (vs : list VarId) (m : M VarId) (k : BlockId -> VarId -> M A).
Context (Hm : Lw 0 0 vs m (fun v => [v])).

Lemma wp_branch g s Q qs ps :
  core false g (ls_ctx s) ->
  pl_pending g !! t = Some qs -> pl_pending g !! j = Some ps -> t <> j ->
  usable g (view false (ls_ctx s)) b0 (locals (ls_ctx s)) (loop_headers (ls_ctx s)) vs ->
  doms g b0 ⊆ doms g t -> doms g j ⊆ {[j]} ∪ doms g b0 ->
  (forall g' s' x v,
     core false g' (ls_ctx s') -> grows g (view false (ls_ctx s)) g' (view false (ls_ctx s')) ->
     pl_pending g' = <[j := x :: ps]> (delete t (pl_pending g)) ->
     entry_ok g' (view false (ls_ctx s')) j (x, v) ->
     locals (ls_ctx s') = locals (ls_ctx s) -> loop_headers (ls_ctx s') = loop_headers (ls_ctx s) ->
     wp (k x v) Q s') ->
  wp (branch_code t j m k) Q s.
Proof using Hm.
  intros Hc Ht Hj Htj Hu Hbt Hjb Hk. unfold branch_code. apply wp_bind, wp_start.
  destruct (core_start g _ t qs Hc Ht) as (Hc1 & Hx1 & _). set (c1 := set_block t (ls_ctx s)) in *.
  assert (Hu1 : usable (plan_start t g) (view true c1) t (locals c1) (loop_headers c1) vs).
  { eapply usable_move; [exact Hu|apply Hx1| |done]. by apply core_known in Hc1. }
  pose proof (usable_inv _ c1 _ Hc1 Hu1) as Hi1.
  apply wp_bind. eapply wp_mono; [apply (Hm (plan_start t g) (mkLowerState c1 (ls_names s)) [] (locals c1)); try done; apply Hu1|].
  intros v s2 (g2 & top2 & Hi2 & Hs2 & Hv & Hl2 & Htop). cbn [ls_ctx] in *.
  destruct top2; [|done]. apply Forall_cons in Hv as [Hv _].
  apply wp_bind, wp_current_block. apply wp_bind, wp_finish.
  pose proof (grows_trans _ _ _ _ _ _ (ex_grows _ _ _ _ Hx1) (st_grows _ _ _ _ Hs2)) as Hg2.
  assert (Hkj : known g (view false (ls_ctx s)) j) by (right; by eexists).
  assert (Hkb : known g (view false (ls_ctx s)) b0) by apply Hu.
  destruct (jump_entry g2 (ls_ctx s2) j ps v) as (Hc3 & Hx3 & He3 & Hp3).
  - apply Hi2.
  - rewrite (st_pending _ _ _ _ Hs2). simpl. by rewrite lookup_delete_ne.
  - rewrite (gr_doms _ _ _ _ Hg2 j Hkj). pose proof (st_doms _ _ _ _ Hs2) as Hd.
    change (doms (plan_start t g) (current_block c1)) with (doms g t) in Hd. set_solver.
  - done.
  - eapply Hk; [exact Hc3| | |exact He3| |].
    + eapply grows_trans; [exact Hg2|apply Hx3].
    + apply map_eq. intros x. rewrite Hp3, (st_pending _ _ _ _ Hs2). simpl.
      rewrite lookup_insert. repeat case_decide; congruence.
    + simpl. by rewrite Hl2.
    + simpl. by rewrite (st_headers _ _ _ _ Hs2).
Qed.
End Branch.

(** Starting the block where branches meet. *)
Definition join_code (j : BlockId) (es : list (BlockId * VarId)) : M VarId :=
  start_block j;; d ← fresh_var; emit_phi d es;; mret d.

Lemma wp_join g s j b0 ps es vs Q :
  core false g (ls_ctx s) -> pl_pending g !! j = Some ps -> ps ⊆ map fst es ->
  Forall (entry_ok g (view false (ls_ctx s)) j) es ->
  usable g (view false (ls_ctx s)) b0 (locals (ls_ctx s)) (loop_headers (ls_ctx s)) vs ->
  doms g b0 ⊆ doms g j ->
  (forall c' d,
     inv (plan_start j g) c' -> grows g (view false (ls_ctx s)) (plan_start j g) (view true c') ->
     current_block c' = j -> locals c' = locals (ls_ctx s) -> loop_headers c' = loop_headers (ls_ctx s) ->
     avail (plan_start j g) (view true c') j d -> Q d (mkLowerState c' (ls_names s))) ->
  wp (join_code j es) Q s.
Proof.
  intros Hc Hj Hps Hes Hu Hd HQ. unfold join_code. apply wp_bind, wp_start.
  destruct (core_start g _ j ps Hc Hj) as (Hc1 & Hx1 & Hp1). set (c1 := set_block j (ls_ctx s)) in *.
  apply wp_bind, wp_fresh_var. apply wp_bind, wp_emit. cbn [ls_ctx].
  destruct (core_fresh_var _ c1 Hc1) as [_ Hnew].
  destruct (core_phi (plan_start j g) c1 (lc_next_var c1) es (lc_next_var c1 + 1) Hc1) as (Hc2 & Hx2 & Ha); [lia| | |done|lia|].
  - eapply Forall_impl; [exact Hes|]. intros e. apply entry_ok_mono, Hx1.
  - intros p Hp Hf. apply Hps. by apply Hp1.
  - set (c2 := emitted _ _) in *. pose proof (grows_trans _ _ _ _ _ _ (ex_grows _ _ _ _ Hx1) (ex_grows _ _ _ _ Hx2)) as Hg.
    change (Q (lc_next_var c1) (mkLowerState c2 (ls_names s))). apply HQ; try done.
    eapply (usable_inv _ c2 vs); [done|]. eapply usable_move; [exact Hu|exact Hg|by apply core_known in Hc2|done].
Qed.

(** ** Allocation *)

Lemma pending_new o g c x : core o g c -> lc_next_block c <= x -> pl_pending g !! x = None.
Proof.
  intros Hc Hx. destruct (pl_pending g !! x) eqn:E; [|done].
  pose proof (ok_range _ _ _ _ (co_blocks _ _ _ Hc) x) as Hr. exfalso.
  destruct Hr as [_ Hr]; [right; by eexists|lia].
Qed.

(** Blocks allocated while one block is built. *)
Record allocated (g : Plan) (c : LowerCtx) (g' : Plan) (c' : LowerCtx) (js : list BlockId) : Prop := {
  al_core : core true g' c';
  al_grows : grows g (view true c) g' (view true c');
  al_current : current_block c' = current_block c;
  al_locals : locals c' = locals c;
  al_headers : loop_headers c' = loop_headers c;
  al_pending x : pl_pending g' !! x = if decide (x ∈ js) then Some [] else pl_pending g !! x;
  al_new x : x ∈ js -> pl_pending g !! x = None /\ doms g' x = {[x]} ∪ doms g (current_block c);
  al_nodup : NoDup js
}.

Lemma allocated_nil g c : core true g c -> allocated g c g c [].
Proof. intros Hc. constructor; try done; [apply grows_refl|set_solver|constructor]. Qed.

Lemma wp_alloc g c g1 s js (Q : BlockId -> LowerState -> Prop) :
  core true g c -> allocated g c g1 (ls_ctx s) js ->
  (forall g2 c2 j, allocated g c g2 c2 (js ++ [j]) -> Q j (mkLowerState c2 (ls_names s))) -> wp fresh_block Q s.
Proof.
  intros Hc Hal HQ. pose proof (al_core _ _ _ _ _ Hal) as Hc1. apply wp_fresh_block.
  destruct (core_fresh_block true g1 _ Hc1) as [Hc2 Hx]. set (j := lc_next_block (ls_ctx s)) in *.
  pose proof (pending_new _ _ _ j Hc1 ltac:(done)) as Hnew. eapply (HQ (plan_fresh j (current_block (ls_ctx s)) g1)).
  assert (Hnj : (j ∉ js) /\ pl_pending g !! j = None).
  { rewrite (al_pending _ _ _ _ _ Hal) in Hnew. by case_decide. } destruct Hnj as [Hnj Hgj].
  assert (Hkc : known g (view true c) (current_block c)) by by apply core_known.
  constructor; try apply Hal; [done| | | |].
  - eapply grows_trans; [apply Hal|apply Hx].
  - intros x. simpl. rewrite lookup_insert, (al_pending _ _ _ _ _ Hal). repeat case_decide; set_solver.
  - intros x. rewrite elem_of_app, list_elem_of_singleton. intros [Hx' | ->].
    + rewrite doms_fresh, decide_False by (by intros ->). by apply Hal.
    + split; [done|]. rewrite doms_fresh, decide_True by done.
      by rewrite (al_current _ _ _ _ _ Hal), (gr_doms _ _ _ _ (al_grows _ _ _ _ _ Hal)).
  - apply NoDup_app. split_and!; [apply Hal|set_solver|apply NoDup_singleton].
Qed.

(** Leaving the block with a branch to two of them. *)
Lemma branch_out g c g1 c1 js cond t e vs :
  inv g c -> avail_all g (view true c) (current_block c) vs -> cond ∈ vs ->
  allocated g c g1 c1 js -> t ∈ js -> e ∈ js -> t <> e ->
  let b := current_block c in
  let g2 := plan_jump b [t; e] g1 in
  let c2 := finished (Branch cond t e) c1 in
  core false g2 c2 /\ grows g (view true c) g2 (view false c2) /\
  usable g2 (view false c2) b (locals c2) (loop_headers c2) vs /\
  (forall x, pl_pending g2 !! x =
     if decide (x = t \/ x = e) then Some [b] else if decide (x ∈ js) then Some [] else pl_pending g !! x) /\
  (forall x, x ∈ js -> doms g2 x = {[x]} ∪ doms g2 b) /\
  (forall x v, (x = t \/ x = e) -> avail g (view true c) b v -> entry_ok g2 (view false c2) x (b, v)).
Proof.
  intros Hi Hv Hcond Hal Ht He Hne b g2 c2. pose proof (in_core _ _ Hi) as Hc.
  pose proof (al_grows _ _ _ _ _ Hal) as G1. pose proof (al_current _ _ _ _ _ Hal) as Ec.
  assert (Hkb : known g (view true c) b) by by apply core_known.
  assert (Hb1 : doms g1 b = doms g b) by by apply G1.
  assert (Hjs : forall x, x ∈ js -> is_Some (pl_pending g1 !! x) /\ doms g1 x = {[x]} ∪ doms g1 b).
  { intros x Hx. rewrite (al_pending _ _ _ _ _ Hal), decide_True, Hb1 by done. split; [by eexists|]. by apply Hal. }
  destruct (core_finish g1 c1 (Branch cond t e)) as [Hc2 Hx2]; [apply Hal| | |done|].
  { rewrite Ec. constructor; [|constructor].
    eapply avail_move; [exact G1|exact Hkb|fold b; by rewrite Hb1|by eapply Forall_forall in Hv]. }
  { rewrite Ec. intros x Hx. destruct (Hjs x) as [? ->]; [set_solver|]. by split. }
  rewrite Ec in Hc2, Hx2. fold b in Hc2, Hx2. change (forward_succs (Branch cond t e)) with [t; e] in *. fold g2 c2 in Hc2, Hx2.
  assert (G2 : grows g (view true c) g2 (view false c2)) by (eapply grows_trans; [exact G1|apply Hx2]).
  split_and!; [done|done| | | |].
  - assert (Hl2 : locals c2 = locals c /\ loop_headers c2 = loop_headers c) by (split; apply Hal).
    destruct Hl2 as [-> ->]. eapply usable_grow; [by apply inv_usable|done].
  - intros x. unfold g2, plan_jump. simpl. rewrite !lookup_alter, !(al_pending _ _ _ _ _ Hal).
    repeat case_decide; naive_solver.
  - intros x Hx. by apply Hjs.
  - intros x v Hx Ha. split; simpl; [by eapply avail_mono|].
    eexists. split_and!; [unfold view; simpl; rewrite app_nil_r; apply elem_of_app; right; by left|done|set_solver].
Qed.

(** ** Branches that meet *)

Definition diamond_code (cond : VarId) (m1 m2 : M VarId) : M VarId :=
  t ← fresh_block; e ← fresh_block; j ← fresh_block;
  finish_block (Branch cond t e);;
  branch_code t j m1 (fun x1 v1 => branch_code e j m2 (fun x2 v2 => join_code j [(x1, v1); (x2, v2)])).

(** The state behind a join, from the one in front of the branch. *)
Lemma join_done g s g' c' j v base :
  inv g' c' -> grows g (view true (ls_ctx s)) g' (view true c') -> current_block c' = j ->
  doms g (current_block (ls_ctx s)) ⊆ doms g' j -> pl_pending g' = pl_pending g ->
  loop_headers c' = loop_headers (ls_ctx s) -> locals c' = base -> avail g' (view true c') j v ->
  exists g' top', inv g' c' /\ step g (ls_ctx s) g' c' /\
    avail_all g' (view true c') (current_block c') [v] /\ locals c' = top' ++ base /\ length top' = 0%nat.
Proof.
  intros Hi Hg Hj Hd Hp Hh Hl Ha. exists g', []. subst j. split_and!; try done.
  constructor; [done|constructor].
Qed.

Lemma Lw_diamond vs cond m1 m2 :
  cond ∈ vs -> Lw 0 0 vs m1 (fun v => [v]) -> Lw 0 0 vs m2 (fun v => [v]) ->
  Lw 0 0 vs (diamond_code cond m1 m2) (fun v => [v]).
Proof.
  intros Hcond Hm1 Hm2 g s top base Hi Hv Hl Hd. destruct top; [|done]. simpl in Hl.
  pose proof (in_core _ _ Hi) as Hc. set (b := current_block (ls_ctx s)) in *. unfold diamond_code.
  apply wp_bind. eapply wp_alloc; [exact Hc|by apply allocated_nil|]. intros g1 c1 t Hal1.
  apply wp_bind. eapply wp_alloc; [exact Hc|exact Hal1|]. intros g2 c2 e Hal2.
  apply wp_bind. eapply wp_alloc; [exact Hc|exact Hal2|]. intros g3 c3 j Hal3. cbn [app] in Hal3.
  pose proof (al_nodup _ _ _ _ _ Hal3) as Hnd. rewrite !NoDup_cons in Hnd. destruct Hnd as (Hte & Hej & _).
  apply wp_bind, wp_finish. cbn [ls_ctx].
  destruct (branch_out g (ls_ctx s) g3 c3 _ cond t e vs Hi Hv Hcond Hal3) as (Hc4 & G4 & Hu4 & Hp4 & Hd4 & _); [set_solver..|].
  fold b in Hc4, G4, Hu4, Hp4, Hd4. set (g4 := plan_jump b [t; e] g3) in *. set (c4 := finished _ c3) in *.
  eapply (wp_branch t j b vs m1 _ Hm1 g4 _ _ [b] []); cbn [ls_ctx]; [done| | |set_solver|done| | |].
  { rewrite Hp4, decide_True; auto. }
  { rewrite Hp4, decide_False, decide_True by set_solver. done. }
  { rewrite (Hd4 t) by set_solver. set_solver. }
  { rewrite (Hd4 j) by set_solver. set_solver. }
  intros g5 s5 x1 v1 Hc5 G5 Hp5 He5 Hl5 Hh5. cbn [ls_ctx] in *.
  assert (Hk4 : forall x, x ∈ [t; e; j] -> known g4 (view false c4) x).
  { intros x Hx. right. rewrite Hp4. case_decide; [by eexists|]. rewrite decide_True by done. by eexists. }
  assert (Hd5 : forall x, x ∈ [t; e; j] -> doms g5 x = {[x]} ∪ doms g5 b).
  { intros x Hx. rewrite (gr_doms _ _ _ _ G5 x (Hk4 x Hx)), (gr_doms _ _ _ _ G5 b) by apply Hu4. by apply Hd4. }
  eapply (wp_branch e j b vs m2 _ Hm2 g5 _ _ [b] [x1]); [done| | |set_solver| | | |].
  { rewrite Hp5, lookup_insert_ne, lookup_delete_ne, Hp4, decide_True by set_solver. done. }
  { by rewrite Hp5, lookup_insert_eq. }
  { rewrite Hl5, Hh5. by eapply usable_grow. }
  { rewrite (Hd5 e) by set_solver. set_solver. }
  { rewrite (Hd5 j) by set_solver. set_solver. }
  intros g6 s6 x2 v2 Hc6 G6 Hp6 He6 Hl6 Hh6.
  assert (Hu6 : usable g6 (view false (ls_ctx s6)) b (locals (ls_ctx s6)) (loop_headers (ls_ctx s6)) vs).
  { rewrite Hl6, Hh6, Hl5, Hh5. eapply usable_grow; [by eapply usable_grow|done]. }
  assert (Hb : doms g b = doms g6 b).
  { rewrite (gr_doms _ _ _ _ (grows_trans _ _ _ _ _ _ G4 (grows_trans _ _ _ _ _ _ G5 G6))); [done|]. by apply core_known. }
  assert (Hj6 : doms g6 j = {[j]} ∪ doms g6 b).
  { rewrite (gr_doms _ _ _ _ G6 j), (gr_doms _ _ _ _ G6 b); [apply Hd5; set_solver| |].
    - apply G5, Hu4.
    - apply G5, Hk4. set_solver. }
  eapply (wp_join g6 s6 j b [x2; x1] [(x1, v1); (x2, v2)] vs); [done|by rewrite Hp6, lookup_insert_eq|simpl; set_solver| |done| |].
  { constructor; [by eapply entry_ok_mono|]. by constructor. }
  { rewrite Hj6. set_solver. }
  intros c7 d Hi7 G7 Ec7 Hl7 Hh7 Ha7. cbn [ls_ctx]. eapply join_done; [done| |done| | | | |done].
  - repeat (eapply grows_trans; [eassumption|]). apply grows_refl.
  - fold b. change (doms (plan_start j g6) j) with (doms g6 j). rewrite Hb, Hj6. set_solver.
  - apply map_eq. intros x. simpl. rewrite Hp6, lookup_delete, lookup_insert, lookup_delete, Hp5, lookup_insert, lookup_delete, Hp4.
    destruct (decide (x ∈ [t; e; j])) as [Hx|Hx].
    + destruct (al_new _ _ _ _ _ Hal3 x Hx) as [-> _]. repeat case_decide; set_solver.
    + repeat case_decide; set_solver.
  - rewrite Hh7, Hh6, Hh5. apply Hal3.
  - rewrite Hl7, Hl6, Hl5, <- Hl. apply Hal3.
Qed.

Definition half_code (on_true : bool) (v : VarId) (m : M VarId) : M VarId :=
  r ← fresh_block; j ← fresh_block; x0 ← current_block_id;
  finish_block (if on_true then Branch v r j else Branch v j r);;
  branch_code r j m (fun x1 v1 => join_code j [(x0, v); (x1, v1)]).

(** Leaving the block for two fresh ones, in either order of the branch. *)
Lemma half_out g c g2 c2 (on_true : bool) v r j vs :
  inv g c -> avail_all g (view true c) (current_block c) vs -> v ∈ vs -> allocated g c g2 c2 [r; j] -> r <> j ->
  let tm := if on_true then Branch v r j else Branch v j r in
  let b := current_block c in
  let g3 := plan_jump b (forward_succs tm) g2 in
  let c3 := finished tm c2 in
  core false g3 c3 /\ grows g (view true c) g3 (view false c3) /\
  usable g3 (view false c3) b (locals c3) (loop_headers c3) vs /\
  (forall x, pl_pending g3 !! x = if decide (x ∈ [r; j]) then Some [b] else pl_pending g !! x) /\
  (forall x, x ∈ [r; j] -> doms g3 x = {[x]} ∪ doms g3 b) /\ entry_ok g3 (view false c3) j (b, v).
Proof.
  intros Hi Hv Hin Hal Hne tm b g3 c3. assert (Hav : avail g (view true c) b v) by (by eapply Forall_forall in Hv).
  assert (Hr : r ∈ [r; j]) by by left. assert (Hj : j ∈ [r; j]) by (right; by left).
  assert (Hmem : forall x, x ∈ [r; j] <-> x = r \/ x = j) by (intros x; rewrite !elem_of_cons, elem_of_nil; tauto).
  subst c3 g3 b tm. destruct on_true.
  - destruct (branch_out g c g2 c2 _ v r j vs Hi Hv Hin Hal Hr Hj Hne) as (? & ? & ? & Hp & ? & He).
    split_and!; try done; [|by apply He; auto]. intros x. rewrite Hp.
    destruct (decide (x ∈ [r; j])) as [Hx|Hx]; rewrite Hmem in Hx; case_decide; tauto.
  - destruct (branch_out g c g2 c2 _ v j r vs Hi Hv Hin Hal Hj Hr (not_eq_sym Hne)) as (? & ? & ? & Hp & ? & He).
    split_and!; try done; [|by apply He; auto]. intros x. rewrite Hp.
    destruct (decide (x ∈ [r; j])) as [Hx|Hx]; rewrite Hmem in Hx; case_decide; tauto.
Qed.

Lemma Lw_half vs on_true v m :
  v ∈ vs -> Lw 0 0 vs m (fun v => [v]) -> Lw 0 0 vs (half_code on_true v m) (fun v => [v]).
Proof.
  intros Hin Hm g s top base Hi Hv Hl Hd. destruct top; [|done]. simpl in Hl.
  pose proof (in_core _ _ Hi) as Hc. set (b := current_block (ls_ctx s)) in *. unfold half_code.
  apply wp_bind. eapply wp_alloc; [exact Hc|by apply allocated_nil|]. intros g1 c1 r Hal1.
  apply wp_bind. eapply wp_alloc; [exact Hc|exact Hal1|]. intros g2 c2 j Hal2. cbn [app] in Hal2.
  assert (Hrj : r <> j).
  { pose proof (al_nodup _ _ _ _ _ Hal2) as Hnd. apply NoDup_cons in Hnd as [Hrj _]. set_solver. }
  apply wp_bind, wp_current_block. cbn [ls_ctx]. rewrite (al_current _ _ _ _ _ Hal2). fold b.
  apply wp_bind, wp_finish. cbn [ls_ctx].
  set (tm := if on_true then _ else _).
  destruct (half_out g (ls_ctx s) g2 c2 on_true v r j vs Hi Hv Hin Hal2 Hrj) as (Hc3 & G3 & Hu3 & Hp3 & Hd3 & He3).
  fold tm b in Hc3, G3, Hu3, Hp3, Hd3, He3.
  set (g3 := plan_jump b (forward_succs tm) g2) in *. set (c3 := finished tm c2) in *.
  eapply (wp_branch r j b vs m _ Hm g3 _ _ [b] [b]); cbn [ls_ctx]; [done| | |set_solver|done| | |].
  { rewrite Hp3, decide_True by set_solver. done. }
  { rewrite Hp3, decide_True by set_solver. done. }
  { rewrite (Hd3 r) by set_solver. set_solver. }
  { rewrite (Hd3 j) by set_solver. set_solver. }
  intros g4 s4 x1 v1 Hc4 G4 Hp4 He4 Hl4 Hh4. cbn [ls_ctx] in *.
  assert (Hj4 : doms g4 j = {[j]} ∪ doms g4 b).
  { rewrite (gr_doms _ _ _ _ G4 j), (gr_doms _ _ _ _ G4 b); [apply Hd3; set_solver|apply Hu3|].
    right. rewrite Hp3, decide_True by set_solver. by eexists. }
  assert (Hb : doms g b = doms g4 b).
  { rewrite (gr_doms _ _ _ _ (grows_trans _ _ _ _ _ _ G3 G4)); [done|]. by apply core_known. }
  eapply (wp_join g4 s4 j b [x1; b] [(b, v); (x1, v1)] vs); [done|by rewrite Hp4, lookup_insert_eq|simpl; set_solver| | | |].
  { constructor; [by eapply entry_ok_mono|]. by constructor. }
  { rewrite Hl4, Hh4. by eapply usable_grow. }
  { rewrite Hj4. set_solver. }
  intros c5 d Hi5 G5 Ec5 Hl5 Hh5 Ha5. cbn [ls_ctx]. eapply join_done; [done| |done| | | | |done].
  - repeat (eapply grows_trans; [eassumption|]). apply grows_refl.
  - fold b. change (doms (plan_start j g4) j) with (doms g4 j). rewrite Hb, Hj4. set_solver.
  - apply map_eq. intros x. simpl. rewrite Hp4, lookup_delete, lookup_insert, lookup_delete, Hp3.
    destruct (decide (x ∈ [r; j])) as [Hx|Hx].
    + destruct (al_new _ _ _ _ _ Hal2 x Hx) as [-> _]. repeat case_decide; set_solver.
    + repeat case_decide; set_solver.
  - rewrite Hh5, Hh4. apply Hal2.
  - rewrite Hl5, Hl4, <- Hl. apply Hal2.
Qed.

(** ** Calls and constants *)

Lemma Lw_emit_alloc d vs (inst : VarId -> Inst) :
  (forall v, is_phi (inst v) = false /\ def_of (inst v) = [v] /\ uses (inst v) ⊆ vs) ->
  Lw d d vs (emit_alloc inst) (fun v => [v]).
Proof. intros Hinst. apply Lw_def; [done|]. intros v. apply Lw_ret. set_solver. Qed.

Lemma Lw_emit_const d vs k : Lw d d vs (emit_const k) (fun v => [v]).
Proof. apply (Lw_emit_alloc d vs (fun v => IConst v k)). intros v. split_and!; [done..|simpl; set_solver]. Qed.

Lemma Lw_emit_known d vs k args : args ⊆ vs -> Lw d d vs (emit_known k args) (fun v => [v]).
Proof. intros Ha. by apply (Lw_emit_alloc d vs (fun v => ICallKnown v k args)). Qed.

Lemma Lw_emit_call d vs callee args : callee ∈ vs -> args ⊆ vs -> Lw d d vs (emit_call callee args) (fun v => [v]).
Proof.
  intros Hc Ha. apply (Lw_emit_alloc d vs (fun v => ICall v callee args)). intros v. split_and!; [done..|simpl; set_solver].
Qed.

Lemma Lw_use {A : Type} vs (m : M A) res g s :
  Lw 0 0 vs m res -> inv g (ls_ctx s) -> avail_all g (view true (ls_ctx s)) (current_block (ls_ctx s)) vs ->
  wp m (fun a s' => exists g',
    inv g' (ls_ctx s') /\ step g (ls_ctx s) g' (ls_ctx s') /\
    avail_all g' (view true (ls_ctx s')) (current_block (ls_ctx s')) (res a) /\
    locals (ls_ctx s') = locals (ls_ctx s)) s.
Proof.
  intros Hm Hi Hv. eapply wp_mono; [apply (Hm g s [] (locals (ls_ctx s))); done|].
  intros a s' (g' & [|] & ? & ? & ? & Hl & Htop); [|done]. eauto.
Qed.

Lemma wp_and {A : Type} (m : M A) (P Q : A -> LowerState -> Prop) s :
  wp m P s -> wp m Q s -> wp m (fun a s' => P a s' /\ Q a s') s.
Proof. unfold wp. by destruct (m s) as [[] ?]. Qed.

Lemma wp_emit_const_block k s :
  wp (emit_const k) (fun _ s' => current_block (ls_ctx s') = current_block (ls_ctx s)) s.
Proof. apply wp_bind, wp_fresh_var. by apply wp_bind, wp_emit. Qed.

(** ** Chains of comparisons *)

Section Chain.
Context (k : KnownFn) (merge b0 : BlockId) (vs : list VarId).

(** In front of a comparison: the merge block is pending, with an entry for
    each block that has jumped to it. *)
Record chain_at (g : Plan) (c : LowerCtx) (es : list (BlockId * VarId)) (ps : list BlockId) : Prop := {
  ch_inv : inv g c;
  ch_vars : avail_all g (view true c) (current_block c) vs;
  ch_pending : pl_pending g !! merge = Some ps;
  ch_preds : ps ⊆ map fst es;
  ch_entries : Forall (entry_ok g (view true c) merge) es;
  ch_origin : usable g (view true c) b0 (locals c) (loop_headers c) vs;
  ch_below : doms g b0 ⊆ doms g (current_block c);
  ch_merge : doms g merge = {[merge]} ∪ doms g b0
}.

Lemma chain_step g c es ps g' c' :
  chain_at g c es ps -> inv g' c' -> step g c g' c' -> locals c' = locals c -> chain_at g' c' es ps.
Proof.
  intros [Hi Hv Hp Hps He Ho Hb Hm] Hi' Hs Hl. pose proof (st_grows _ _ _ _ Hs) as Hg.
  assert (Hkm : known g (view true c) merge) by (right; by eexists).
  assert (Hkb : known g (view true c) b0) by apply Ho.
  constructor; try done.
  - exact (avail_all_step _ _ _ _ _ Hi Hs Hv).
  - by rewrite (st_pending _ _ _ _ Hs).
  - eapply Forall_impl; [exact He|]. intros e. by apply entry_ok_mono.
  - rewrite Hl, (st_headers _ _ _ _ Hs). by eapply usable_grow.
  - rewrite (gr_doms _ _ _ _ Hg) by done. etrans; [done|apply Hs].
  - by rewrite !(gr_doms _ _ _ _ Hg).
Qed.

Lemma chain_alloc g c es ps g' c' js : chain_at g c es ps -> allocated g c g' c' js -> chain_at g' c' es ps.
Proof.
  intros [Hi Hv Hp Hps He Ho Hb Hm] Hal. pose proof (al_grows _ _ _ _ _ Hal) as Hg.
  assert (Hkm : known g (view true c) merge) by (right; by eexists).
  assert (Hkb : known g (view true c) b0) by apply Ho.
  assert (Hu : usable g' (view true c') (current_block c') (locals c') (loop_headers c') vs).
  { rewrite (al_current _ _ _ _ _ Hal), (al_locals _ _ _ _ _ Hal), (al_headers _ _ _ _ _ Hal).
    eapply usable_grow; [by apply inv_usable|done]. }
  constructor; [eapply usable_inv; [apply Hal|exact Hu]|apply Hu| |done| | | |].
  - rewrite (al_pending _ _ _ _ _ Hal), decide_False; [done|]. intros [E _]%(al_new _ _ _ _ _ Hal). congruence.
  - eapply Forall_impl; [exact He|]. intros e. by apply entry_ok_mono.
  - rewrite (al_locals _ _ _ _ _ Hal), (al_headers _ _ _ _ _ Hal). by eapply usable_grow.
  - rewrite (al_current _ _ _ _ _ Hal), !(gr_doms _ _ _ _ Hg); [done|by apply core_known, Hi|done].
  - by rewrite !(gr_doms _ _ _ _ Hg).
Qed.

(** Going on to the next comparison, or to the merge block. *)
Lemma chain_branch g c es ps cmp next fv :
  chain_at g c es ps -> pl_pending g !! next = Some [] -> next <> merge ->
  doms g next ⊆ {[next]} ∪ doms g (current_block c) -> doms g (current_block c) ⊆ doms g next ->
  avail_all g (view true c) (current_block c) [cmp; fv] ->
  let b := current_block c in
  let g' := plan_start next (plan_jump b [next; merge] g) in
  let c' := set_block next (finished (Branch cmp next merge) c) in
  chain_at g' c' (es ++ [(b, fv)]) (b :: ps) /\ grows g (view true c) g' (view true c') /\
  locals c' = locals c /\ loop_headers c' = loop_headers c /\
  pl_pending g' = <[merge := b :: ps]> (delete next (pl_pending g)).
Proof.
  intros [Hi Hv Hp Hps He Ho Hb Hm] Hn Hne Hd1 Hd2 Hav b g' c'. apply Forall_cons in Hav as [Hcmp Hfv].
  apply Forall_cons in Hfv as [Hfv _]. pose proof (in_core _ _ Hi) as Hc.
  destruct (core_finish g c (Branch cmp next merge) Hc) as [Hc1 Hx1]; [by constructor| |done|].
  { simpl. intros x Hx. rewrite !elem_of_cons, elem_of_nil in Hx. destruct Hx as [-> | [-> | []]]; split; try (by eexists).
    - done.
    - rewrite Hm. set_solver. }
  change (forward_succs (Branch cmp next merge)) with [next; merge] in *. fold b in Hc1, Hx1.
  set (g1 := plan_jump b [next; merge] g) in *. set (c1 := finished _ c) in *.
  assert (Hp1 : forall x, pl_pending g1 !! x =
    if decide (x = next) then Some [b] else if decide (x = merge) then Some (b :: ps) else pl_pending g !! x).
  { intros x. unfold g1, plan_jump. simpl. rewrite !lookup_alter. repeat case_decide; subst; try done; [by rewrite Hn|by rewrite Hp]. }
  destruct (core_start g1 c1 next [b] Hc1) as (Hc2 & Hx2 & _); [by rewrite Hp1, decide_True|].
  fold g' c' in Hc2, Hx2.
  pose proof (grows_trans _ _ _ _ _ _ (ex_grows _ _ _ _ Hx1) (ex_grows _ _ _ _ Hx2)) as Hg.
  assert (Hun : usable g' (view true c') next (locals c') (loop_headers c') vs).
  { eapply usable_move; [exact (inv_usable g c vs Hi Hv)|exact Hg|by apply core_known in Hc2|done]. }
  assert (Hpend : pl_pending g' = <[merge := b :: ps]> (delete next (pl_pending g))).
  { apply map_eq. intros x. change (pl_pending g') with (delete next (pl_pending g1)).
    rewrite lookup_delete, lookup_insert, lookup_delete, Hp1. repeat case_decide; congruence. }
  split_and!; [constructor|done|done|done|done].
  - by eapply usable_inv.
  - apply Hun.
  - by rewrite Hpend, lookup_insert_eq.
  - rewrite map_app. simpl. set_solver.
  - apply Forall_app. split; [eapply Forall_impl; [exact He|]; intros e; by apply entry_ok_mono|].
    constructor; [|constructor]. apply (entry_ok_mono g1 (view false c1)); [apply Hx2|]. split; simpl.
    + eapply avail_mono; [apply Hx1|by apply core_known|done].
    + eexists. split_and!; [unfold view; simpl; rewrite app_nil_r; apply elem_of_app; right; by left|done|set_solver].
  - by eapply usable_grow.
  - change (doms g b0 ⊆ doms g next). etrans; [exact Hb|done].
  - exact Hm.
Qed.

(** The result of running the chain from a state. *)
Definition chain_done (g : Plan) (c : LowerCtx) (d : VarId) (s' : LowerState) : Prop :=
  exists g', inv g' (ls_ctx s') /\ grows g (view true c) g' (view true (ls_ctx s')) /\
    current_block (ls_ctx s') = merge /\ locals (ls_ctx s') = locals c /\ loop_headers (ls_ctx s') = loop_headers c /\
    pl_pending g' = delete merge (pl_pending g) /\ avail g' (view true (ls_ctx s')) merge d.

(** Behind the last comparison. *)
Lemma wp_chain_last es ps g s cmp :
  chain_at g (ls_ctx s) es ps -> avail g (view true (ls_ctx s)) (current_block (ls_ctx s)) cmp ->
  wp (last_exit ← current_block_id; finish_block (Jump merge);; start_block merge;; result ← fresh_var;
      emit_phi result (es ++ [(last_exit, cmp)]);; mret result) (chain_done g (ls_ctx s)) s.
Proof.
  intros Hch Hcmp. apply wp_bind, wp_current_block. apply wp_bind, wp_finish.
  destruct (jump_entry g (ls_ctx s) merge ps cmp) as (Hc2 & Hx2 & He2 & Hp2); [apply Hch|apply Hch| |done|].
  { rewrite (ch_merge _ _ _ _ Hch). pose proof (ch_below _ _ _ _ Hch). set_solver. }
  eapply (wp_join _ _ merge b0 (current_block (ls_ctx s) :: ps) _ vs); cbn [ls_ctx]; [exact Hc2| | | | | |].
  - by rewrite Hp2, decide_True.
  - rewrite map_app. simpl. pose proof (ch_preds _ _ _ _ Hch). set_solver.
  - apply Forall_app. split; [|by constructor]. eapply Forall_impl; [apply Hch|]. intros e. apply entry_ok_mono, Hx2.
  - eapply usable_grow; [apply Hch|apply Hx2].
  - change (doms g b0 ⊆ doms g merge). rewrite (ch_merge _ _ _ _ Hch). set_solver.
  - intros c3 d Hi3 G3 Ec3 Hl3 Hh3 Ha3. eexists. split_and!; [exact Hi3| |done|done|done| |done].
    + eapply grows_trans; [apply Hx2|exact G3].
    + apply map_eq. intros x. change (pl_pending (plan_start merge ?gg)) with (delete merge (pl_pending gg)).
      rewrite !lookup_delete, Hp2. case_decide; [done|]. by rewrite decide_False.
Qed.

Lemma wp_chain args es ps g s :
  args <> [] -> (forall p, p ∈ args -> [p.1; p.2] ⊆ vs) -> chain_at g (ls_ctx s) es ps ->
  wp (chain_pairs k merge args es) (chain_done g (ls_ctx s)) s.
Proof.
  revert es ps g s. induction args as [|[a b] args IH]; intros es ps g s Hne Hargs Hch; [done|]. clear Hne.
  cbn [chain_pairs]. apply wp_bind.
  eapply wp_mono; [eapply (Lw_use vs _ _ g s (Lw_emit_known 0 vs k [a; b] _)); apply Hch|].
  Unshelve. 2: { apply (Hargs (a, b)). by left. }
  intros cmp s1 (g1 & Hi1 & Hs1 & Hcmp & Hl1).
  pose proof (chain_step _ _ _ _ _ _ Hch Hi1 Hs1 Hl1) as Hch1. destruct args as [|p args].
  - apply Forall_cons in Hcmp as [Hcmp _]. eapply wp_mono; [by eapply wp_chain_last|].
    intros d s2 (g2 & Hi2 & G2 & Ec2 & Hl2 & Hh2 & Hp2 & Ha2). exists g2. split_and!; try done.
    + eapply grows_trans; [apply Hs1|done].
    + by rewrite Hl2.
    + rewrite Hh2. apply Hs1.
    + by rewrite Hp2, (st_pending _ _ _ _ Hs1).
  - apply wp_bind. eapply (wp_alloc g1 (ls_ctx s1)); [apply Hi1|apply allocated_nil, Hi1|]. intros g2 c2 next Hal. simpl in Hal.
    pose proof (chain_alloc _ _ _ _ _ _ _ Hch1 Hal) as Hch2. destruct (al_new _ _ _ _ _ Hal next) as [Hn1 Hn2]; [by left|].
    apply wp_bind, wp_current_block. apply wp_bind. cbn [ls_ctx].
    eapply wp_mono; [apply wp_and; [apply (Lw_use vs _ _ g2 (mkLowerState c2 (ls_names s1)) (Lw_emit_const 0 vs (CBool false))); apply Hch2|
      apply wp_emit_const_block]|].
    intros fv s3 [(g3 & Hi3 & Hs3 & Hfv & Hl3) Ec3]. cbn [ls_ctx] in *. pose proof (chain_step _ _ _ _ _ _ Hch2 Hi3 Hs3 Hl3) as Hch3.
    apply wp_bind, wp_finish. apply wp_bind, wp_start. cbn [ls_ctx]. rewrite <- Ec3.
    assert (Hpn : pl_pending g2 !! next = Some []) by (rewrite (al_pending _ _ _ _ _ Hal), decide_True by (by left); done).
    assert (Hkn : known g2 (view true c2) next) by (right; by eexists).
    assert (Hdn : doms g3 next = {[next]} ∪ doms g3 (current_block (ls_ctx s3))).
    { rewrite Ec3, !(gr_doms _ _ _ _ (st_grows _ _ _ _ Hs3)), (al_current _ _ _ _ _ Hal);
        [|by apply core_known, Hch2|done].
      rewrite Hn2, (gr_doms _ _ _ _ (al_grows _ _ _ _ _ Hal)); [done|]. by apply core_known, Hi1. }
    destruct (chain_branch g3 (ls_ctx s3) es ps cmp next fv Hch3) as (Hch4 & G4 & Hl4 & Hh4 & Hp4).
    + by rewrite (st_pending _ _ _ _ Hs3).
    + intros ->. pose proof (ch_pending _ _ _ _ Hch1). congruence.
    + rewrite Hdn. set_solver.
    + rewrite Hdn. set_solver.
    + constructor; [|exact Hfv]. apply Forall_cons in Hcmp as [Hcmp _].
      eapply avail_move; [eapply grows_trans; [apply Hal|apply Hs3]|by apply core_known, Hi1| |exact Hcmp].
      rewrite <- (al_current _ _ _ _ _ Hal). etrans; [|apply Hs3].
      by rewrite (gr_doms _ _ _ _ (al_grows _ _ _ _ _ Hal)) by (rewrite (al_current _ _ _ _ _ Hal); by apply core_known, Hi1).
    + eapply wp_mono; [eapply (IH _ _ _ (mkLowerState _ (ls_names s3))); [done| |exact Hch4]|].
      { intros q Hq. apply Hargs. by right. }
      intros d s5 (g5 & Hi5 & G5 & Ec5 & Hl5 & Hh5 & Hp5 & Ha5). cbn [ls_ctx] in *. exists g5. split_and!; try done.
      * eapply grows_trans; [apply Hs1|]. eapply grows_trans; [apply Hal|]. eapply grows_trans; [apply Hs3|].
        eapply grows_trans; [exact G4|exact G5].
      * rewrite Hl5, Hl4, Hl3, (al_locals _ _ _ _ _ Hal). done.
      * rewrite Hh5, Hh4, (st_headers _ _ _ _ Hs3), (al_headers _ _ _ _ _ Hal). apply Hs1.
      * rewrite Hp5, Hp4, delete_insert_eq. apply map_eq. intros x.
        rewrite !lookup_delete, (st_pending _ _ _ _ Hs3), (al_pending _ _ _ _ _ Hal), <- (st_pending _ _ _ _ Hs1).
        destruct (decide (x = next)) as [-> |Hx]; [rewrite Hn1; by repeat case_decide|].
        rewrite (decide_False (P := x ∈ [next])) by set_solver. repeat case_decide; congruence.
Qed.
End Chain.

Lemma zip_tail_vars (args vs : list VarId) p : args ⊆ vs -> p ∈ zip args (tail args) -> [p.1; p.2] ⊆ vs.
Proof.
  intros Hsub Hp. destruct p as [a b].
  pose proof (elem_of_zip_l _ _ _ _ Hp) as Ha. pose proof (elem_of_zip_r _ _ _ _ Hp) as Hb.
  assert (b ∈ args) by (destruct args; [done|by right]). set_solver.
Qed.

Lemma Lw_emit_comparison_chain vs k args :
  args ⊆ vs -> (2 <= length args)%nat -> Lw 0 0 vs (emit_comparison_chain k args) (fun v => [v]).
Proof.
  intros Hargs Hlen g s top base Hi Hv Hl Hd. destruct top; [|done]. simpl in Hl.
  pose proof (in_core _ _ Hi) as Hc. set (b := current_block (ls_ctx s)) in *. unfold emit_comparison_chain.
  apply wp_bind. eapply wp_alloc; [exact Hc|by apply allocated_nil|]. intros g1 c1 j Hal. simpl in Hal.
  pose proof (al_grows _ _ _ _ _ Hal) as G1. destruct (al_new _ _ _ _ _ Hal j) as [Hn1 Hn2]; [by left|].
  assert (Hu : usable g1 (view true c1) b (locals c1) (loop_headers c1) vs).
  { rewrite (al_locals _ _ _ _ _ Hal), (al_headers _ _ _ _ _ Hal).
    eapply usable_grow; [by apply (inv_usable g)|done]. }
  assert (Hb : doms g1 b = doms g b) by (apply G1; by apply core_known).
  assert (Hch : chain_at j b vs g1 c1 [] []).
  { pose proof (al_current _ _ _ _ _ Hal) as Ec. fold b in Ec. constructor; rewrite ?Ec.
    - eapply usable_inv; [apply Hal|]. by rewrite Ec.
    - apply Hu.
    - rewrite (al_pending _ _ _ _ _ Hal), decide_True by (by left). done.
    - done.
    - constructor.
    - done.
    - done.
    - by rewrite Hb. }
  eapply wp_mono; [eapply (wp_chain k j b vs _ [] [] g1 (mkLowerState c1 (ls_names s))); [| |exact Hch]|].
  - destruct args as [|a1 [|a2 args]]; simpl in Hlen; [lia|lia|done].
  - intros p. by apply zip_tail_vars.
  - intros d s2 (g2 & Hi2 & G2 & Ec2 & Hl2 & Hh2 & Hp2 & Ha2). cbn [ls_ctx] in *.
    assert (Hkj : known g1 (view true c1) j) by (right; rewrite (al_pending _ _ _ _ _ Hal), decide_True by (by left); by eexists).
    eapply join_done; [done|by eapply grows_trans|done| | | |by rewrite Hl2, (al_locals _ _ _ _ _ Hal)|done].
    + rewrite (gr_doms _ _ _ _ G2) by done. rewrite Hn2. fold b. set_solver.
    + rewrite Hp2. apply map_eq. intros x. rewrite lookup_delete, (al_pending _ _ _ _ _ Hal).
      destruct (decide (j = x)) as [<- |Hx]; [done|]. rewrite decide_False by set_solver. done.
    + rewrite Hh2. apply Hal.
Qed.

(** ** Blocks that are left for good *)

(** A block without predecessors, behind one that does not go on. *)
Lemma wp_dead_block g s vs base g1 s1 :
  inv g (ls_ctx s) -> locals (ls_ctx s) = base ->
  core false g1 (ls_ctx s1) -> grows g (view true (ls_ctx s)) g1 (view false (ls_ctx s1)) ->
  pl_pending g1 = pl_pending g -> current_block (ls_ctx s1) = current_block (ls_ctx s) ->
  locals (ls_ctx s1) = locals (ls_ctx s) -> loop_headers (ls_ctx s1) = loop_headers (ls_ctx s) ->
  avail_all g (view true (ls_ctx s)) (current_block (ls_ctx s)) vs ->
  wp (n ← fresh_block; start_block n;; emit_const CNil) (fun v s' => exists g' top',
    inv g' (ls_ctx s') /\ step g (ls_ctx s) g' (ls_ctx s') /\
    avail_all g' (view true (ls_ctx s')) (current_block (ls_ctx s')) [v] /\
    locals (ls_ctx s') = top' ++ base /\ length top' = 0%nat) s1.
Proof.
  intros Hi Hbase Hc1 G1 Hp1 Ec1 Hl1 Hh1 Hv. apply wp_bind, wp_fresh_block. apply wp_bind, wp_start. cbn [ls_ctx].
  destruct (core_fresh_block false g1 _ Hc1) as [Hc2 Hx2]. set (n := lc_next_block (ls_ctx s1)) in *.
  set (b := current_block (ls_ctx s)) in *. rewrite Ec1 in Hc2, Hx2. fold b in Hc2, Hx2.
  set (g2 := plan_fresh n b g1) in *.
  destruct (core_start g2 (bump_block (ls_ctx s1)) n [] Hc2) as (Hc3 & Hx3 & _); [apply lookup_insert_eq|].
  set (g3 := plan_start n g2) in *. set (c3 := set_block n (bump_block (ls_ctx s1))) in *.
  assert (G3 : grows g (view true (ls_ctx s)) g3 (view true c3)).
  { eapply grows_trans; [exact G1|]. eapply grows_trans; [apply Hx2|apply Hx3]. }
  assert (Hdn : doms g b ⊆ doms g3 n).
  { change (doms g3 n) with (doms g2 n). unfold g2. rewrite doms_fresh, decide_True by done.
    rewrite (gr_doms _ _ _ _ G1); [set_solver|]. by apply core_known, Hi. }
  assert (Hu : usable g3 (view true c3) (current_block c3) (locals c3) (loop_headers c3) vs).
  { change (locals c3) with (locals (ls_ctx s1)). change (loop_headers c3) with (loop_headers (ls_ctx s1)).
    rewrite Hl1, Hh1. eapply usable_move; [exact (inv_usable _ _ _ Hi Hv)|exact G3|by apply core_known in Hc3|exact Hdn]. }
  eapply wp_mono; [apply (Lw_use vs _ _ g3 (mkLowerState c3 (ls_names s1)) (Lw_emit_const 0 vs CNil));
    [by eapply usable_inv|apply Hu]|].
  intros v s4 (g4 & Hi4 & Hs4 & Hv4 & Hl4). cbn [ls_ctx] in *. exists g4, []. split_and!; try done.
  - constructor.
    + eapply grows_trans; [exact G3|apply Hs4].
    + etrans; [exact Hdn|apply Hs4].
    + rewrite (st_pending _ _ _ _ Hs4). simpl. rewrite delete_insert_id; [exact Hp1|].
      eapply (pending_new false); [exact Hc1|done].
    + rewrite (st_headers _ _ _ _ Hs4). exact Hh1.
  - rewrite Hl4. change (locals c3) with (locals (ls_ctx s1)). by rewrite Hl1.
Qed.

Definition patch_all (h b : BlockId) (l : list (nat * VarId)) (bs : list Block) : list Block :=
  foldl (fun bs p => patch_header h p.1 b p.2 bs) bs l.

Lemma wp_patches h b l (Q : unit -> LowerState -> Prop) s :
  Q tt (mkLowerState (set_finished (patch_all h b l (finished_blocks (ls_ctx s))) (current_phis (ls_ctx s))
                        (current_insts (ls_ctx s)) (ls_ctx s)) (ls_names s)) ->
  wp (for_each (fun p => update_phi_in_header h p.1 b p.2) l) Q s.
Proof.
  revert s. induction l as [|p l IH]; intros s HQ.
  - destruct s as [[] ?]. exact HQ.
  - cbn [for_each]. apply wp_bind. apply IH. exact HQ.
Qed.

Lemma patches_ok g nv nb h b l fin blk :
  blocks_ok g nv nb (fin ++ [blk]) -> Forall (fun p => entry_ok g (fin ++ [blk]) h (b, p.2)) l ->
  blocks_ok g nv nb (patch_all h b l fin ++ [blk]) /\ grows g (fin ++ [blk]) g (patch_all h b l fin ++ [blk]).
Proof.
  revert fin. induction l as [|p l IH]; intros fin Hok Hl; [by split; [|apply grows_refl]|].
  apply Forall_cons in Hl as [Hp Hl]. cbn [patch_all foldl].
  assert (Hpat : Forall2 (patched h p.1 b p.2) (fin ++ [blk]) (patch_header h p.1 b p.2 fin ++ [blk])).
  { apply Forall2_app; [apply patch_header_patched|]. constructor; [by left|constructor]. }
  pose proof (patched_extends h p.1 b p.2 g _ _ Hpat) as Hx.
  destruct (IH (patch_header h p.1 b p.2 fin)) as [? ?].
  - by eapply patched_ok.
  - eapply Forall_impl; [exact Hl|]. intros q. apply entry_ok_mono, Hx.
  - split; [done|]. eapply grows_trans; [apply Hx|done].
Qed.

Lemma patch_all_bids h b l fin : bids (patch_all h b l fin) = bids fin.
Proof.
  revert fin. induction l as [|p l IH]; intros fin; [done|]. cbn [patch_all foldl]. unfold patch_all in IH. rewrite IH.
  eapply patched_bids, patch_header_patched.
Qed.

Definition recur_code (args : list VarId) : M VarId :=
  h ← current_loop_header;
  match h with
  | None => throw MalformedSpecialForm
  | Some (header, _) =>
      recur_block ← current_block_id;
      for_each (fun p => update_phi_in_header header p.1 recur_block p.2) (imap pair args);;
      finish_block (RecurJump header args);;
      new_block ← fresh_block;
      start_block new_block;;
      emit_const CNil
  end.

Lemma Lw_recur vs args : args ⊆ vs -> Lw 0 0 vs (recur_code args) (fun v => [v]).
Proof.
  intros Hargs g s top base Hi Hv Hl Hd. destruct top; [|done]. simpl in Hl.
  pose proof (in_core _ _ Hi) as Hc. set (b := current_block (ls_ctx s)) in *. unfold recur_code. apply wp_bind.
  change (wp current_loop_header ?Q s) with (Q (head (loop_headers (ls_ctx s))) s). cbv beta.
  destruct (loop_headers (ls_ctx s)) as [|[h hv] hs] eqn:Eh; [done|]. cbn [head].
  pose proof (in_headers _ _ Hi) as Hh. rewrite Eh in Hh. apply Forall_cons in Hh as [Hh _]. cbn [fst] in Hh. fold b in Hh.
  apply wp_bind, wp_current_block. fold b. apply wp_bind, wp_patches. apply wp_bind, wp_finish. cbn [ls_ctx].
  assert (Hav : avail_all g (view true (ls_ctx s)) b args).
  { apply Forall_forall. intros v Hin. eapply Forall_forall; [exact Hv|]. by apply Hargs. }
  destruct (core_finish g (ls_ctx s) (RecurJump h args) Hc) as [Hc1 Hx1]; [done| |by intros ? [= <-]|].
  { intros x Hx. by apply elem_of_nil in Hx. }
  change (forward_succs (RecurJump h args)) with (@nil BlockId) in *.
  assert (Eg : plan_jump (current_block (ls_ctx s)) [] g = g) by by destruct g. rewrite Eg in *.
  set (blk := mkBlock b (current_phis (ls_ctx s)) (current_insts (ls_ctx s)) (RecurJump h args)).
  assert (Ev1 : view false (finished (RecurJump h args) (ls_ctx s)) = finished_blocks (ls_ctx s) ++ [blk]) by apply app_nil_r.
  rewrite Ev1 in Hx1. pose proof (co_blocks _ _ _ Hc1) as Hok1. rewrite Ev1 in Hok1.
  destruct (patches_ok g _ _ h b (imap pair args) (finished_blocks (ls_ctx s)) blk Hok1) as [Hok2 G2].
  { apply Forall_forall. intros p Hp. apply elem_of_lookup_imap in Hp as (i & v & -> & Hiv). split; simpl.
    - eapply avail_mono; [apply Hx1|by apply core_known|]. eapply Forall_forall; [exact Hav|].
      by eapply list_elem_of_lookup_2.
    - exists blk. split_and!; [set_solver|done|by left]. }
  eapply (wp_dead_block g s vs base g); try done.
  - assert (Ev2 : forall c', finished_blocks c' = patch_all h b (imap pair args) (finished_blocks (ls_ctx s)) ++ [blk] ->
      view false c' = patch_all h b (imap pair args) (finished_blocks (ls_ctx s)) ++ [blk]).
    { intros c' E. unfold view. by rewrite app_nil_r. }
    constructor; cbn [ls_ctx]; [rewrite Ev2 by done; exact Hok2| |apply Hc|done].
    rewrite Ev2 by done. rewrite bids_app. cbn. set_solver.
  - eapply grows_trans; [apply Hx1|]. cbn [ls_ctx]. unfold view. rewrite app_nil_r. exact G2.
Qed.

Lemma Lw_throw_code vs v :
  v ∈ vs ->
  Lw 0 0 vs (emit (IThrow v);; finish_block Unreachable;; n ← fresh_block; start_block n;; emit_const CNil) (fun v => [v]).
Proof.
  intros Hin. eapply (Lw_bind 0 0 0); [by apply Lw_emit; [..|set_solver]|]. intros []. cbn [app].
  intros g s top base Hi Hv Hl Hd. destruct top; [|done]. simpl in Hl. apply wp_bind, wp_finish.
  destruct (core_finish g (ls_ctx s) Unreachable (in_core _ _ Hi)) as [Hc1 Hx1]; [constructor| |done|].
  { intros x Hx. by apply elem_of_nil in Hx. }
  assert (Eg : plan_jump (current_block (ls_ctx s)) (forward_succs Unreachable) g = g) by by destruct g. rewrite Eg in *.
  eapply (wp_dead_block g s vs base g); try done. apply Hx1.
Qed.

(** ** Loops *)

Lemma core_set_locals o g c ls : core o g c -> core o g (set_locals ls c).
Proof. intros []. by constructor. Qed.

Lemma core_set_headers o g c hs : core o g c -> core o g (set_loop_headers hs c).
Proof. intros []. by constructor. Qed.

(** Leaving the open block for a new one. *)
Lemma wp_exit_block g s c v hs sc ls vs (Q : VarId -> LowerState -> Prop) :
  inv g c -> core true g (ls_ctx s) -> view true (ls_ctx s) = view true c ->
  current_block (ls_ctx s) = current_block c -> loop_headers (ls_ctx s) = hs -> locals (ls_ctx s) = sc :: ls ->
  avail g (view true c) (current_block c) v ->
  usable g (view true c) (current_block c) ls hs vs ->
  (forall g' c' d,
     inv g' c' -> grows g (view true c) g' (view true c') -> doms g (current_block c) ⊆ doms g' (current_block c') ->
     pl_pending g' = pl_pending g -> locals c' = ls -> loop_headers c' = hs ->
     avail g' (view true c') (current_block c') d -> Q d (mkLowerState c' (ls_names s))) ->
  wp (j ← fresh_block; finish_block (Jump j);; pop_scope;; join_code j [(current_block c, v)]) Q s.
Proof.
  intros Hi Hc Ev Ec Hh Hls Ha Hu HQ. apply wp_bind.
  eapply (wp_alloc g (ls_ctx s)); [done|by apply allocated_nil|]. intros g1 c1 j Hal. simpl in Hal.
  apply wp_bind, wp_finish. cbn [ls_ctx]. destruct (al_new _ _ _ _ _ Hal j) as [Hn1 Hn2]; [by left|].
  pose proof (al_grows _ _ _ _ _ Hal) as G1. pose proof (al_current _ _ _ _ _ Hal) as Ec1. rewrite Ev in G1. rewrite Ec in Ec1, Hn2.
  set (b := current_block c) in *. assert (Hkb : known g (view true c) b) by by apply core_known, Hi.
  destruct (jump_entry g1 c1 j [] v) as (Hc2 & Hx2 & He2 & Hp2); [apply Hal| | | |].
  { rewrite (al_pending _ _ _ _ _ Hal), decide_True by (by left). done. }
  { rewrite Hn2, Ec1, (gr_doms _ _ _ _ G1) by done. set_solver. }
  { rewrite Ec1. by eapply avail_mono. }
  rewrite Ec1 in Hc2, Hx2, He2, Hp2. set (g2 := plan_jump b [j] g1) in *. set (c2 := finished (Jump j) c1) in *.
  assert (G2 : grows g (view true c) g2 (view false c2)) by (eapply grows_trans; [exact G1|apply Hx2]).
  apply wp_bind. change (wp pop_scope ?R ?s0) with (R tt (mkLowerState (set_locals (tail (locals (ls_ctx s0))) (ls_ctx s0)) (ls_names s0))).
  cbn [ls_ctx]. change (locals c2) with (locals c1). rewrite (al_locals _ _ _ _ _ Hal), Hls. cbn [tail].
  set (c3 := set_locals ls c2). assert (Hc3 : core false g2 c3) by by apply core_set_locals.
  assert (Hdj : doms g2 j = {[j]} ∪ doms g b) by exact Hn2.
  eapply (wp_join g2 _ j b [b] _ vs); cbn [ls_ctx]; [done| |simpl; set_solver|by constructor| | |].
  - by rewrite Hp2, decide_True.
  - change (locals c3) with ls. replace (loop_headers c3) with hs by (rewrite <- Hh; symmetry; apply Hal). by eapply usable_grow.
  - rewrite Hdj, (gr_doms _ _ _ _ G2) by done. set_solver.
  - intros c4 d Hi4 G4 Ec4 Hl4 Hh4 Ha4. apply (HQ (plan_start j g2)); try done.
    + eapply grows_trans; [exact G2|exact G4].
    + rewrite Ec4. change (doms (plan_start j g2) j) with (doms g2 j). rewrite Hdj. set_solver.
    + apply map_eq. intros x. change (pl_pending (plan_start j g2)) with (delete j (pl_pending g2)).
      rewrite lookup_delete, Hp2, (al_pending _ _ _ _ _ Hal).
      destruct (decide (j = x)) as [<- |Hx]; [done|]. rewrite decide_False, decide_False by set_solver. done.
    + rewrite Hh4, <- Hh. apply Hal.
    + by rewrite Ec4.
Qed.

Lemma wp_loop_body lf h phi_vars body g s vs sc base :
  Lw 0 0 vs (lower_body lf body) (fun v => [v]) ->
  inv g (ls_ctx s) -> avail_all g (view true (ls_ctx s)) (current_block (ls_ctx s)) vs ->
  h ∈ doms g (current_block (ls_ctx s)) -> locals (ls_ctx s) = sc :: base ->
  wp (lower_loop_body lf h phi_vars body) (fun v s' => exists g',
    inv g' (ls_ctx s') /\ step g (ls_ctx s) g' (ls_ctx s') /\
    avail_all g' (view true (ls_ctx s')) (current_block (ls_ctx s')) [v] /\ locals (ls_ctx s') = base) s.
Proof.
  intros Hbody Hi Hv Hh Hl. unfold lower_loop_body. apply wp_bind.
  set (c1 := set_loop_headers ((h, phi_vars) :: loop_headers (ls_ctx s)) (ls_ctx s)).
  change (wp (push_loop_header h phi_vars) ?R s) with (R tt (mkLowerState c1 (ls_names s))). cbv beta.
  assert (Hi1 : inv g c1).
  { destruct Hi as [Hc Hs Hhs]. constructor; [by apply core_set_headers|done|]. by constructor. }
  apply wp_bind. eapply wp_mono; [apply (Lw_use vs _ _ g (mkLowerState c1 (ls_names s)) Hbody Hi1 Hv)|].
  intros v s2 (g2 & Hi2 & Hs2 & Hv2 & Hl2). cbn [ls_ctx] in *. apply Forall_cons in Hv2 as [Hv2 _].
  change (locals c1) with (locals (ls_ctx s)) in Hl2. rewrite Hl in Hl2.
  apply wp_bind, wp_current_block. apply wp_bind.
  set (c3 := set_loop_headers (tail (loop_headers (ls_ctx s2))) (ls_ctx s2)).
  change (wp pop_loop_header ?R s2) with (R tt (mkLowerState c3 (ls_names s2))). cbv beta.
  assert (Hh3 : loop_headers c3 = loop_headers (ls_ctx s)).
  { change (loop_headers c3) with (tail (loop_headers (ls_ctx s2))). by rewrite (st_headers _ _ _ _ Hs2). }
  assert (Hu : usable g2 (view true (ls_ctx s2)) (current_block (ls_ctx s2)) base (loop_headers (ls_ctx s)) []).
  { pose proof (in_scopes _ _ Hi2) as Hsc. rewrite Hl2 in Hsc. apply Forall_cons in Hsc as [_ Hsc].
    pose proof (in_headers _ _ Hi2) as Hhs. rewrite (st_headers _ _ _ _ Hs2) in Hhs. apply Forall_cons in Hhs as [_ Hhs].
    constructor; [by apply core_known, Hi2|done|done|constructor]. }
  eapply (wp_exit_block g2 _ (ls_ctx s2) v _ sc base []); cbn [ls_ctx];
    [exact Hi2|apply core_set_headers, Hi2|done|done|exact Hh3|exact Hl2|exact Hv2|exact Hu|].
  intros g4 c4 d Hi4 G4 Hd4 Hp4 Hl4 Hh4 Ha4. exists g4. split_and!; try done; [|by constructor]. constructor.
  - eapply grows_trans; [apply Hs2|exact G4].
  - etrans; [apply Hs2|exact Hd4].
  - rewrite Hp4. apply Hs2.
  - exact Hh4.
Qed.

(** The header of a loop is being built; it is entered from [b], where the
    variables [vs] are available. *)
Record at_header (g : Plan) (c : LowerCtx) (h b : BlockId) (vs : list VarId) : Prop := {
  ah_inv : inv g c;
  ah_current : current_block c = h;
  ah_preds : preds_in (view true c) h [b];
  ah_entries v : v ∈ vs -> entry_ok g (view true c) h (b, v)
}.

(** Entering the header of a loop. *)
Lemma enter_header g c g1 c1 h vs :
  inv g c -> avail_all g (view true c) (current_block c) vs -> allocated g c g1 c1 [h] ->
  let b := current_block c in
  let g' := plan_start h (plan_jump b [h] g1) in
  let c' := set_locals (∅ :: locals c1) (set_block h (finished (Jump h) c1)) in
  at_header g' c' h b vs /\ step g c g' c' /\ avail_all g' (view true c') h vs /\ h ∈ doms g' h /\ locals c' = ∅ :: locals c.
Proof.
  intros Hi Hv Hal b g' c'. pose proof (in_core _ _ Hi) as Hc. pose proof (al_grows _ _ _ _ _ Hal) as G1.
  pose proof (al_current _ _ _ _ _ Hal) as Ec. fold b in Ec.
  destruct (al_new _ _ _ _ _ Hal h) as [Hn1 Hn2]; [by left|]. fold b in Hn2.
  assert (Hkb : known g (view true c) b) by by apply core_known.
  assert (Hph : pl_pending g1 !! h = Some []) by (rewrite (al_pending _ _ _ _ _ Hal), decide_True by (by left); done).
  destruct (core_finish g1 c1 (Jump h)) as [Hc2 Hx2]; [apply Hal|constructor| |done|].
  { intros x ->%list_elem_of_singleton. split; [by eexists|]. rewrite Hn2, Ec, (gr_doms _ _ _ _ G1) by done. done. }
  rewrite Ec in Hc2, Hx2. change (forward_succs (Jump h)) with [h] in *.
  set (g2 := plan_jump b [h] g1) in *. set (c2 := finished (Jump h) c1) in *.
  destruct (core_start g2 c2 h [b] Hc2) as (Hc3 & Hx3 & Hp3).
  { unfold g2, plan_jump. simpl. by rewrite lookup_alter_eq, Hph. }
  fold g' in Hc3, Hx3. apply (core_set_locals _ _ _ (∅ :: locals c1)) in Hc3.
  assert (G2 : grows g (view true c) g2 (view false c2)) by (eapply grows_trans; [exact G1|apply Hx2]).
  assert (G3 : grows g (view true c) g' (view true c')) by (eapply grows_trans; [exact G2|apply Hx3]).
  assert (Hdh : doms g' h = {[h]} ∪ doms g b) by exact Hn2.
  assert (Hu : usable g' (view true c') h (locals c) (loop_headers c) vs).
  { eapply usable_move; [exact (inv_usable _ _ _ Hi Hv)|exact G3|by apply core_known in Hc3|rewrite Hdh; set_solver]. }
  split_and!; [constructor|constructor|..].
  - constructor; [exact Hc3| |].
    + change (locals c') with (∅ :: locals c1). rewrite (al_locals _ _ _ _ _ Hal).
      constructor; [apply map_Forall_empty|apply Hu].
    + change (loop_headers c') with (loop_headers c1). rewrite (al_headers _ _ _ _ _ Hal). apply Hu.
  - done.
  - exact Hp3.
  - intros v Hin. eapply entry_ok_mono; [apply Hx3|]. split; simpl.
    + eapply avail_mono; [exact G2|done|]. by eapply Forall_forall in Hv.
    + eexists. split_and!; [unfold view; simpl; rewrite app_nil_r; apply elem_of_app; right; by left|exact Ec|by left].
  - exact G3.
  - change (current_block c') with h. rewrite Hdh. fold b. set_solver.
  - apply map_eq. intros x. change (pl_pending g') with (delete h (alter (cons b) h (pl_pending g1))).
    rewrite lookup_delete, lookup_alter. destruct (decide (h = x)) as [<- |Hx]; [done|].
    rewrite (al_pending _ _ _ _ _ Hal), decide_False by set_solver. done.
  - apply (al_headers _ _ _ _ _ Hal).
  - apply Hu.
  - rewrite Hdh. set_solver.
  - change (locals c') with (∅ :: locals c1). by rewrite (al_locals _ _ _ _ _ Hal).
Qed.

Lemma wp_bind_local n v (Q : unit -> LowerState -> Prop) s sc base :
  locals (ls_ctx s) = sc :: base ->
  Q tt (mkLowerState (set_locals (<[n := v]> sc :: base) (ls_ctx s)) (ls_names s)) -> wp (bind_local n v) Q s.
Proof.
  intros Hl HQ. change (wp (bind_local n v) Q s) with (Q tt (mkLowerState (match locals (ls_ctx s) with
    | scope :: outer => set_locals (<[n := v]> scope :: outer) (ls_ctx s) | [] => ls_ctx s end) (ls_names s))).
  by rewrite Hl.
Qed.

Lemma wp_loop_phi g s h b vs n v sc base :
  at_header g (ls_ctx s) h b vs -> v ∈ vs -> locals (ls_ctx s) = sc :: base ->
  wp (loop_phi b n v) (fun d s' => at_header g (ls_ctx s') h b vs /\ step g (ls_ctx s) g (ls_ctx s') /\
    avail g (view true (ls_ctx s')) h d /\ exists sc', locals (ls_ctx s') = sc' :: base) s.
Proof.
  intros Hah Hin Hl. pose proof (ah_inv _ _ _ _ _ Hah) as Hi. pose proof (in_core _ _ Hi) as Hc.
  pose proof (ah_current _ _ _ _ _ Hah) as Ec. unfold loop_phi. apply wp_bind, wp_fresh_var. apply wp_bind, wp_emit. cbn [ls_ctx].
  destruct (core_fresh_var _ _ Hc) as [_ Hnew].
  set (d := lc_next_var (ls_ctx s)) in *.
  destruct (core_phi g (ls_ctx s) d [(b, v)] (d + 1) Hc) as (Hc2 & Hx2 & Ha); [lia| | |done|lia|].
  { rewrite Ec. constructor; [by apply Hah|constructor]. }
  { rewrite Ec. apply Hah. }
  rewrite Ec in Ha. set (c2 := emitted _ _) in *.
  apply wp_bind. eapply wp_bind_local; [exact Hl|]. cbn [ls_ctx].
  match goal with |- wp _ _ ?s0 => change s0 with (mkLowerState (set_locals (<[n := d]> sc :: base) c2) (ls_names s)) end.
  set (c3 := set_locals _ c2).
  destruct (inv_extend g (ls_ctx s) c2) as [Hi2 Hs2]; try done.
  assert (Hi3 : inv g c3 /\ step g c2 g c3).
  { apply inv_same; try done. pose proof (in_scopes _ _ Hi2) as Hs. change (locals c2) with (locals (ls_ctx s)) in Hs.
    rewrite Hl in Hs. apply Forall_cons in Hs as [Hsc Hs]. constructor; [|done].
    apply map_Forall_insert_2; [|done]. change (current_block c2) with (current_block (ls_ctx s)). by rewrite Ec. }
  destruct Hi3 as [Hi3 Hs3]. cbn [wp mret stateM_ret]. split_and!; [|by eapply step_trans|exact Ha|by eexists].
  constructor; [exact Hi3|exact Ec| |].
  - intros p Hp Hf. change (view true c3) with (view true c2) in Hp.
    assert (Hh : h ∈ bids (view true (ls_ctx s))) by (rewrite <- Ec; apply Hc).
    destruct (ex_jumps _ _ _ _ Hx2 p h Hp Hh Hf) as (p0 & Hp0 & <- & Hf0). by apply Hah.
  - intros w Hw. change (view true c3) with (view true c2). eapply entry_ok_mono; [apply Hx2|]. by apply Hah.
Qed.

Lemma wp_loop_phis {A : Type} (nm : A -> Name) (ini : A -> VarId) g s h b vs l sc base :
  at_header g (ls_ctx s) h b vs -> (forall x, x ∈ l -> ini x ∈ vs) -> locals (ls_ctx s) = sc :: base ->
  wp (collect (fun x => loop_phi b (nm x) (ini x)) l) (fun ds s' =>
    at_header g (ls_ctx s') h b vs /\ step g (ls_ctx s) g (ls_ctx s') /\
    avail_all g (view true (ls_ctx s')) h ds /\ exists sc', locals (ls_ctx s') = sc' :: base) s.
Proof.
  revert s sc. induction l as [|x l IH]; intros s sc Hah Hin Hl; cbn [collect].
  { split_and!; [done|apply step_refl|constructor|by eexists]. }
  apply wp_bind. eapply wp_mono; [eapply wp_loop_phi; [exact Hah|apply Hin; by left|exact Hl]|].
  intros d s1 (Hah1 & Hs1 & Hd & sc1 & Hl1). apply wp_bind.
  eapply wp_mono; [eapply IH; [exact Hah1| |exact Hl1]; intros y Hy; apply Hin; by right|].
  intros ds s2 (Hah2 & Hs2 & Hds & sc2 & Hl2). cbn [wp mret stateM_ret]. split_and!; [done|by eapply step_trans| |by eexists].
  constructor; [|done]. rewrite <- (ah_current _ _ _ _ _ Hah2).
  eapply avail_move; [apply Hs2|by apply core_known, Hah1|apply Hs2|]. by rewrite (ah_current _ _ _ _ _ Hah1).
Qed.
