(* ===== verification/LowerTheorems.v ===== *)
(** Every lowering operation keeps the builder's invariant; lowered functions
    are in strict SSA form and reducible. *)
From stdpp Require Import gmap strings.
From S2P Require Import Prelude RustStd Token Lexer Form Ir Reloop ReloopSem ReloopGraph ReloopSpec Inline InlineSem NativeOps Lower LowerTotal LowerInv LowerSpec.
Local Open Scope Z_scope.

(** * Rules for lists and cases *)

Lemma Lw_any {A : Type} d vs (m : M A) res : Lw 0 0 vs m res -> Lw d d vs m res.
Proof. intros Hm. exact (Lw_frame d 0 0 vs m res Hm). Qed.

Lemma Lw_collect {A B : Type} d vs (f : A -> M B) (r : B -> list VarId) l :
  (forall x vs', x ∈ l -> vs ⊆ vs' -> Lw d d vs' (f x) r) -> Lw d d vs (collect f l) (flat_map r).
Proof.
  revert vs. induction l as [|x l IH]; intros vs Hf; cbn [collect]; [apply Lw_ret; simpl; set_solver|].
  eapply Lw_bind; [apply Hf; [by left|done]|]. intros y. eapply Lw_bind.
  { apply IH. intros z vs' Hz Hs. apply Hf; [by right|set_solver]. }
  intros ys. apply Lw_ret. simpl. set_solver.
Qed.

Lemma Lw_collect_vars {A : Type} d vs (f : A -> M VarId) l :
  (forall x vs', x ∈ l -> vs ⊆ vs' -> Lw d d vs' (f x) (fun v => [v])) -> Lw d d vs (collect f l) (fun ys => ys).
Proof.
  intros Hf. eapply Lw_weaken; [by eapply Lw_collect|done|]. intros ys. simpl.
  induction ys as [|y ys IH]; simpl; [done|]. set_solver.
Qed.

Lemma Lw_collect_pairs {A : Type} d vs (f : A -> M VarId) l :
  (forall x vs', x ∈ l -> Lw d d vs' (f x) (fun v => [v])) ->
  Lw d d vs (collect_pairs f l) (fun ps => ps ≫= fun p => [p.1; p.2]).
Proof.
  revert vs. induction l as [|x|x y l IH] using pairs_ind; intros vs Hf; cbn [collect_pairs];
    [apply Lw_ret; set_solver..|].
  eapply Lw_bind; [apply Hf; by left|]. intros a. eapply Lw_bind; [apply Hf; right; by left|]. intros b.
  eapply Lw_bind; [apply IH; intros z vs' Hz; apply Hf; by do 2 right|]. intros ps. apply Lw_ret. simpl. set_solver.
Qed.

Lemma Lw_for_each {A : Type} d vs (f : A -> M unit) l :
  (forall x vs', x ∈ l -> vs ⊆ vs' -> Lw d d vs' (f x) (fun _ => [])) -> Lw d d vs (for_each f l) (fun _ => []).
Proof.
  revert vs. induction l as [|x l IH]; intros vs Hf; cbn [for_each]; [apply Lw_ret; set_solver|].
  eapply Lw_bind; [apply Hf; [by left|done]|]. intros []. apply IH. intros z vs' Hz Hs. apply Hf; [by right|set_solver].
Qed.

Local Opaque Lw.

Create HintDb lw.

#[export] Hint Extern 1 (_ ∈ _) => set_solver : lw.
#[export] Hint Extern 1 (_ ⊆ _) => set_solver : lw.

(** Walks through a sequence of operations. *)
Ltac lw_side := simpl; set_solver.

Ltac lw_step :=
  match goal with
  | |- Lw _ _ _ (throw _) _ => apply Lw_throw
  | |- Lw _ _ _ (mret _) _ => apply Lw_ret; lw_side
  | |- Lw _ _ _ (emit_const _) _ => apply Lw_emit_const
  | |- Lw _ _ _ (emit_known _ _) _ => apply Lw_emit_known; lw_side
  | |- Lw _ _ _ (emit_call _ _) _ => apply Lw_emit_call; lw_side
  | |- Lw _ _ _ (emit_alloc _) _ => apply Lw_emit_alloc; intros ?; split_and!; [done..|lw_side]
  | |- Lw _ _ _ (emit _) _ => apply Lw_emit; [done..|lw_side]
  | |- Lw _ _ _ push_scope _ => apply Lw_push_scope
  | |- Lw _ _ _ pop_scope _ => apply Lw_pop_scope
  | |- Lw _ _ _ (bind_local _ _) _ => apply Lw_bind_local; lw_side
  | |- Lw _ _ _ get_ns _ => apply Lw_gets
  | |- Lw _ _ _ (ctx_gets _) _ => apply Lw_gets
  | |- Lw _ _ _ fresh_var _ => apply Lw_fresh_var
  | |- Lw _ _ _ (lookup_local _) _ => apply Lw_lookup_local
  | |- Lw _ _ _ get_all_locals _ => apply Lw_get_all_locals
  | |- Lw _ _ _ (maybe_emit_source_loc _) _ => apply Lw_source_loc
  | |- Lw _ _ _ (fresh_var ≫= _) _ => apply Lw_def; [intros ?; split_and!; [done..|lw_side]|intros ?]
  | |- Lw _ _ _ (_ ≫= _) _ => eapply Lw_bind; [solve [lw_step || eauto with lw]|intros ?; cbn [app]]
  end.

Ltac lw := repeat first [lw_step | solve [eauto with lw] | progress cbv beta].

(** * Emission helpers *)

Lemma Lw_emit_nth d vs val i : val ∈ vs -> Lw d d vs (lower_emit_nth val i) (fun v => [v]).
Proof. intros Hin. unfold lower_emit_nth. lw. Qed.

Lemma Lw_emit_rests d vs val n : val ∈ vs -> Lw d d vs (emit_rests val n) (fun v => [v]).
Proof.
  revert vs val. induction n as [|n IH]; intros vs val Hin; cbn [emit_rests]; [lw|].
  eapply Lw_bind; [lw|]. intros v. apply IH. set_solver.
Qed.

Lemma Lw_emit_rest_from d vs val n : val ∈ vs -> Lw d d vs (lower_emit_rest_from val n) (fun v => [v]).
Proof. intros Hin. eapply Lw_bind; [by apply Lw_emit_rests|]. intros v. lw. Qed.

Lemma Lw_symbol d vs name : Lw d d vs (lower_symbol name) (fun v => [v]).
Proof.
  unfold lower_symbol. lw. destruct a as [v|]; [lw|]. eapply Lw_bind; [lw|]. intros ns.
  destruct (split_sym name ns). lw.
Qed.

Lemma Lw_load_var d vs name : Lw d d vs (emit_load_var name) (fun v => [v]).
Proof. unfold emit_load_var. eapply Lw_bind; [lw|]. intros ns. destruct (split_sym name ns). lw. Qed.

Lemma Lw_emit_not d vs x : x ∈ vs -> Lw d d vs (emit_not x) (fun v => [v]).
Proof.
  intros Hin. apply Lw_any.
  assert (H : Lw 0 0 vs (diamond_code x (emit_const (CBool false)) (emit_const (CBool true))) (fun v => [v])).
  { apply Lw_diamond; lw. }
  unfold diamond_code, branch_code, join_code in H. exact H.
Qed.

Lemma Lw_emit_select d vs k a b : [a; b] ⊆ vs -> Lw d d vs (emit_select k a b) (fun v => [v]).
Proof.
  intros Hin. unfold emit_select. eapply Lw_bind; [lw|]. intros c. apply Lw_any.
  assert (H : Lw 0 0 ([c] ++ vs) (diamond_code c (mret a) (mret b)) (fun v => [v])).
  { apply Lw_diamond; [set_solver|lw..]. }
  unfold diamond_code, branch_code, join_code in H. exact H.
Qed.

Lemma Lw_left_fold d vs k v args : v ∈ vs -> args ⊆ vs -> Lw d d vs (emit_left_fold k v args) (fun v => [v]).
Proof.
  revert vs v. induction args as [|a args IH]; intros vs v Hv Ha; cbn [emit_left_fold]; [lw|].
  eapply Lw_bind; [lw|]. intros w. apply IH; set_solver.
Qed.

Lemma Lw_binary_fold d vs k args : args ⊆ vs -> Lw d d vs (emit_binary_fold k args) (fun v => [v]).
Proof.
  intros Ha. destruct args as [|a [|b [|c args]]]; cbn [emit_binary_fold].
  - destruct k; lw.
  - destruct k; cbn [is_comparison]; lw.
  - lw.
  - case_match; [apply Lw_any, Lw_emit_comparison_chain; [done|simpl; lia]|apply Lw_left_fold; set_solver].
Qed.

Lemma Lw_conses d vs args last : last ∈ vs -> args ⊆ vs -> Lw d d vs (emit_conses args last) (fun v => [v]).
Proof.
  intros Hl. induction args as [|a args IH]; intros Ha; cbn [emit_conses]; [lw|].
  eapply Lw_bind; [apply IH; set_solver|]. intros v. lw.
Qed.

Lemma Lw_emit_def d vs name v : v ∈ vs -> Lw d d vs (emit_def name v) (fun v => [v]).
Proof. intros Hin. unfold emit_def. lw. Qed.

Lemma Lw_emit_get d vs m k : [m; k] ⊆ vs -> Lw d d vs (lower_emit_get m k) (fun v => [v]).
Proof. apply Lw_emit_known. Qed.

#[export] Hint Resolve Lw_emit_get Lw_emit_nth Lw_emit_rest_from Lw_symbol Lw_load_var Lw_emit_not Lw_emit_select Lw_binary_fold
  Lw_emit_def : lw.

Lemma Lw_quote d vs f : Lw d d vs (lower_quote f) (fun v => [v]).
Proof.
  revert vs. induction f as [[k sp] IH] using form_ind'. intros vs. rewrite Forall_forall in IH.
  assert (Hc : forall fs vs', fs = children (mkForm k sp) -> Lw d d vs' (collect lower_quote fs) (fun ys => ys)).
  { intros fs vs' ->. apply Lw_collect_vars. intros x vs'' Hx _. by apply IH. }
  destruct k; cbn [lower_quote]; try solve [lw | eapply Lw_bind; [by apply Hc|]; intros ys; lw].
  eapply Lw_bind; [apply Lw_collect_pairs; intros x vs' Hx; by apply IH|]. intros ys. lw.
Qed.

#[export] Hint Resolve Lw_quote : lw.

Lemma Lw_unwrap_local d vs n : Lw d d vs (unwrap_local n) (fun v => [v]).
Proof.
  unfold unwrap_local. eapply Lw_bind; [apply Lw_lookup_local|]. intros [v|]; [lw|]. by apply Lw_fail.
Qed.

Lemma Lw_deref_self vs self caps bps : map snd bps ⊆ vs -> Lw 1 1 vs (deref_self self caps bps) (fun _ => []).
Proof.
  intros Hb. unfold deref_self. destruct self as [n|]; [|lw]. destruct (position _ _) as [i|]; [|lw].
  destruct (bps !! i) as [[m v]|] eqn:E; [|by apply Lw_fail].
  assert (Hv : v ∈ vs) by (apply Hb, list_elem_of_fmap; exists (m, v); split; [done|by eapply list_elem_of_lookup_2]).
  lw.
Qed.

(** Code that leaves the context as it is. *)
Definition keeps {A : Type} (m : M A) : Prop := forall s, wp m (fun _ s' => ls_ctx s' = ls_ctx s) s.

Lemma keeps_bind {A B : Type} (m : M A) (k : A -> M B) : keeps m -> (forall a, keeps (k a)) -> keeps (m ≫= k).
Proof.
  intros Hm Hk s. apply wp_bind. eapply wp_mono; [apply Hm|]. intros a s1 E. eapply wp_mono; [apply Hk|].
  intros b s2 E2. congruence.
Qed.

Lemma keeps_collect {A B : Type} (f : A -> M B) l : (forall x, keeps (f x)) -> keeps (collect f l).
Proof.
  intros Hf. induction l as [|x l IH]; cbn [collect]; [by intros s|].
  apply keeps_bind; [done|]. intros y. apply keeps_bind; [done|]. by intros ys s.
Qed.

Lemma keeps_gensym p : keeps (gensym p).
Proof. by intros s. Qed.

Lemma keeps_fixed_param p : keeps (fixed_param_info p).
Proof.
  unfold fixed_param_info. destruct (peel_meta p). case_match; try (by intros ?); (apply keeps_bind; [apply keeps_gensym|by intros ? ?]).
Qed.

Lemma keeps_rest_param p : keeps (rest_param_info p).
Proof.
  unfold rest_param_info. destruct (peel_meta p). case_match; try (by intros ?); (apply keeps_bind; [apply keeps_gensym|by intros ? ?]).
Qed.

Lemma keeps_unwrap n : keeps (unwrap_local n).
Proof. apply keeps_bind; [by intros s|]. by intros [v|] s. Qed.
(** * Contexts of new functions *)

Definition plan_params (ps : list VarId) : Plan := mkPlan {[0 := {[0]}]} ∅ ps.

(** Before the first instruction, with some parameters bound. *)
Record entry_ctx (ps : list VarId) (c : LowerCtx) : Prop := {
  en_finished : finished_blocks c = [];
  en_current : current_block c = 0 /\ current_phis c = [] /\ current_insts c = [];
  en_next : lc_next_block c = 1;
  en_subs : lc_subfunctions c = [] /\ loop_headers c = [];
  en_locals : exists sc, locals c = [sc] /\ map_Forall (fun _ v => v ∈ ps) sc;
  en_params : NoDup ps /\ Forall (fun v => v < lc_next_var c) ps
}.

Lemma entry_new name ns a : entry_ctx [] (set_is_async a (LowerCtx_new name ns)).
Proof. constructor; try done; [exists ∅; split; [done|apply map_Forall_empty]|split; constructor]. Qed.

Lemma doms_params ps b : doms (plan_params ps) b = if decide (b = 0) then {[0]} else ∅.
Proof.
  unfold doms, plan_params. simpl. case_decide as E; [subst; by rewrite lookup_singleton_eq|].
  by rewrite lookup_singleton_ne.
Qed.

Lemma known_params ps b : known (plan_params ps) [empty_block 0] b <-> b = 0.
Proof.
  unfold known, plan_params. simpl. rewrite lookup_empty, list_elem_of_singleton. split; [|by left].
  intros [? | H]; [done|by apply is_Some_None in H].
Qed.

Lemma entry_blocks_ok ps nv : NoDup ps -> Forall (fun v => v < nv) ps -> blocks_ok (plan_params ps) nv 1 [empty_block 0].
Proof.
  intros Hnd Hlt. assert (Ev : all_vars (plan_params ps) [empty_block 0] = ps) by apply app_nil_r.
  constructor; rewrite ?Ev; try done.
  - apply NoDup_singleton.
  - intros b ->%known_params. lia.
  - intros b Hb. simpl in Hb. rewrite lookup_empty in Hb. by apply is_Some_None in Hb.
  - intros b ->%known_params. rewrite doms_params. set_solver.
  - intros b x ->%known_params. rewrite doms_params. set_solver.
  - intros b x ->%known_params. rewrite doms_params. simpl. intros ->%elem_of_singleton. by rewrite doms_params.
  - simpl. split; [set_solver|done].
  - constructor; [|constructor]. constructor; simpl; try set_solver. intros pre i post v E. by destruct pre.
Qed.

Lemma entry_inv ps c : entry_ctx ps c -> inv (plan_params ps) c.
Proof.
  intros [Hf (Hc & Hp & Hi) Hn (Hs & Hh) (sc & Hl & Hsc) (Hnd & Hlt)].
  assert (Ev : view true c = [empty_block 0]) by (unfold view; by rewrite Hf, Hc, Hp, Hi).
  constructor; [constructor|..]; rewrite ?Ev, ?Hc, ?Hn, ?Hs, ?Hl, ?Hh; try done.
  - by apply entry_blocks_ok.
  - simpl. set_solver.
  - constructor; [|constructor]. eapply map_Forall_impl; [exact Hsc|]. intros n v Hv. by left.
  - constructor.
Qed.

Lemma wp_params names ps s :
  entry_ctx ps (ls_ctx s) ->
  wp (collect bind_param names) (fun bps s' => entry_ctx (ps ++ map snd bps) (ls_ctx s')) s.
Proof.
  revert ps s. induction names as [|n names IH]; intros ps s Hen; cbn [collect].
  { cbn [wp mret stateM_ret map]. by rewrite app_nil_r. }
  apply wp_bind. unfold bind_param at 1. apply wp_bind, wp_fresh_var. destruct (en_locals _ _ Hen) as (sc & Hl & Hsc).
  apply wp_bind. eapply wp_bind_local; [exact Hl|]. set (v := lc_next_var (ls_ctx s)) in *.
  cbn [wp mret stateM_ret]. set (s1 := mkLowerState _ _).
  assert (Hen1 : entry_ctx (ps ++ [v]) (ls_ctx s1)).
  { destruct Hen as [Hf Hc Hn Hs _ (Hnd & Hlt)]. constructor; try done.
    - exists (<[n := v]> sc). split; [done|]. apply map_Forall_insert_2; [set_solver|].
      eapply map_Forall_impl; [exact Hsc|]. set_solver.
    - rewrite Forall_forall in Hlt. split.
      + apply NoDup_app. split_and!; [done| |apply NoDup_singleton]. intros x Hx ->%list_elem_of_singleton.
        apply Hlt in Hx. unfold v in Hx. lia.
      + apply Forall_app. split; [apply Forall_forall; intros x Hx; apply Hlt in Hx; simpl; fold v in Hx; lia|].
        constructor; [simpl; lia|constructor]. }
  apply wp_bind. eapply wp_mono; [apply (IH _ _ Hen1)|]. intros bps s2 Hen2. cbn [wp mret stateM_ret map snd].
  rewrite cons_middle, app_assoc. exact Hen2.
Qed.

(** The function of a context whose last block has just returned. *)
Lemma return_tree g s v bps (f : IrFunction) :
  inv g (ls_ctx s) -> avail g (view true (ls_ctx s)) (current_block (ls_ctx s)) v ->
  pl_pending g = ∅ -> pl_params g = map snd bps ->
  let c := finished (Return v) (ls_ctx s) in
  blocks f = finished_blocks c -> params f = bps -> next_var f = lc_next_var c -> next_block f = lc_next_block c ->
  subfunctions f = lc_subfunctions c -> good_tree f.
Proof.
  intros Hi Ha Hp Hps c Eb Ep En Enb Es.
  destruct (core_finish g (ls_ctx s) (Return v) (in_core _ _ Hi)) as [Hc _]; [by constructor| |done|].
  { intros x Hx. by apply elem_of_nil in Hx. }
  assert (Eg : plan_jump (current_block (ls_ctx s)) (forward_succs (Return v)) g = g) by by destruct g. rewrite Eg in Hc.
  apply (good_tree_intro f g).
  - split_and!; [done|by rewrite Ep|]. rewrite Eb, En, Enb. pose proof (co_blocks _ _ _ Hc) as Hb.
    unfold view in Hb. by rewrite app_nil_r in Hb.
  - rewrite Es. apply Hc.
Qed.

Lemma wp_assoc3 {A B C D : Type} (m : M A) (n : A -> M B) (l : A -> M C) (k : C -> M D) Q s :
  wp (a ← m; n a;; l a) (fun c => wp (k c) Q) s -> wp (a ← m; n a;; c ← l a; k c) Q s.
Proof.
  unfold wp, mbind, stateM_bind. destruct (m s) as [[a| | |] s1]; [|done..]. destruct (n a s1) as [[b| | |] s2]; [|done..].
  by destruct (l a s2) as [[c| | |] s3].
Qed.

Lemma wp_in_ctx {A : Type} c (m : M A) (R : A -> LowerCtx -> Prop) s :
  wp m (fun a s1 => R a (ls_ctx s1)) (mkLowerState c (ls_names s)) ->
  wp (in_ctx c m) (fun p s' => R p.1 p.2 /\ ls_ctx s' = ls_ctx s) s.
Proof. unfold wp, in_ctx. by destruct (m _) as [[a| | |] s1]. Qed.

(** * The lowering operations *)

Section Forms.
Context (lf : Form -> M VarId) (ld : Form -> VarId -> M unit).
Context (Hlf : forall d vs f, Lw d d vs (lf f) (fun v => [v])).
Context (Hld : forall d vs p v, v ∈ vs -> Lw (S d) (S d) vs (ld p v) (fun _ => [])).

Lemma Lw_forms d vs fs : Lw d d vs (lower_forms lf fs) (fun ys => ys).
Proof. apply Lw_collect_vars. auto. Qed.

Lemma Lw_body_from d vs v fs : v ∈ vs -> Lw d d vs (lower_body_from lf v fs) (fun v => [v]).
Proof.
  revert vs v. induction fs as [|f fs IH]; intros vs v Hv; cbn [lower_body_from]; [lw|].
  eapply Lw_bind; [apply Hlf|]. intros w. apply IH. set_solver.
Qed.

Lemma Lw_body d vs fs : Lw d d vs (lower_body lf fs) (fun v => [v]).
Proof.
  destruct fs as [|f fs]; cbn [lower_body]; [lw|]. eapply Lw_bind; [apply Hlf|]. intros v. apply Lw_body_from. set_solver.
Qed.

Hint Resolve Hlf Lw_forms Lw_body : lw.

(** ** Destructuring *)

Lemma Lw_with_default d vs got f : got ∈ vs -> Lw d d vs (lower_with_default lf got f) (fun v => [v]).
Proof.
  intros Hin. unfold lower_with_default. eapply Lw_bind; [lw|]. intros c. apply Lw_any.
  assert (H : Lw 0 0 ([c] ++ vs) (diamond_code c (lf f) (mret got)) (fun v => [v])).
  { apply Lw_diamond; [set_solver|lw..]. }
  unfold diamond_code, branch_code, join_code in H. exact H.
Qed.

Lemma Lw_apply_default d vs got sym ds : got ∈ vs -> Lw d d vs (apply_default_if_nil lf got sym ds) (fun v => [v]).
Proof. intros Hin. unfold apply_default_if_nil. case_match; [case_match; by apply Lw_with_default|lw]. Qed.

Hint Resolve Lw_apply_default Hld : lw.

Lemma Lw_sequential d vs pats n val :
  val ∈ vs -> Lw (S d) (S d) vs (lower_destructure_sequential ld pats n val) (fun _ => []).
Proof.
  assert (H : forall len pats vs n, (length pats <= len)%nat -> val ∈ vs ->
    Lw (S d) (S d) vs (lower_destructure_sequential ld pats n val) (fun _ => [])); [|by eauto].
  clear -Hld. induction len as [|len IH]; intros pats vs n Hlen Hin;
    (destruct pats as [|p rest]; [apply Lw_ret; set_solver|]); simpl in Hlen; [lia|].
  cbn [lower_destructure_sequential]. case_match.
  { destruct rest as [|q rest']; [lw|]. simpl in Hlen. lw.
    eapply (Lw_bind _ (S d) _ _ _ _ (fun _ => [])); [|intros ?; apply IH; [lia|set_solver]].
    do 2 (case_match; [lw|]). case_match; lw. }
  case_match.
  { destruct rest as [|q rest']; [lw|]. simpl in Hlen. lw. apply IH; [lia|set_solver]. }
  lw. apply IH; [lia|set_solver].
Qed.

Lemma Lw_directive d vs key ds val v :
  val ∈ vs -> Lw (S d) (S d) vs (lower_directive lf key ds val v) (fun _ => []).
Proof.
  intros Hin. unfold lower_directive. case_match; try lw. apply Lw_for_each. intros x vs' _ Hs.
  unfold lower_directive_symbol. case_match; try lw. destruct (key _) as [c name]. lw.
Qed.

Lemma Lw_map_entry d vs ds val kv : val ∈ vs -> Lw (S d) (S d) vs (lower_map_entry lf ld ds val kv) (fun _ => []).
Proof.
  intros Hin. destruct kv as [k v]. unfold lower_map_entry.
  set (regular := _ ≫= _).
  assert (Hreg : Lw (S d) (S d) vs regular (fun _ => [])).
  { unfold regular. lw. eapply (Lw_bind _ (S d) _ _ _ _ (fun v => [v])); [|intros w; lw].
    case_match; lw. }
  case_match; try exact Hreg. destruct (split_ns_name _) as [ns name].
  repeat (case_match; [by apply Lw_directive|]). case_match; [case_match; lw|]. case_match; [lw|exact Hreg].
Qed.

Lemma Lw_destructure_step d vs p v : v ∈ vs -> Lw (S d) (S d) vs (destructure_step lf ld p v) (fun _ => []).
Proof.
  intros Hin. unfold destructure_step. case_match; try solve [lw].
  - by apply Lw_sequential.
  - apply Lw_for_each. intros kv vs' _ Hs. apply Lw_map_entry. set_solver.
  - eapply (Lw_bind _ (S d) _ _ _ _ (fun _ => [])); [|intros ?; lw].
    assert (Hseed : forall r, Lw (S d) (S d) vs (push_local_seed v r) (fun _ => [])).
    { intros r. apply Lw_ctx. intros g c top base Hi _ Hl Hd. exists top.
      destruct (inv_same g c (set_seeds (lc_seed_reprs c) (lc_local_seed_reprs c ++ [(v, r)]) c)) as [? ?]; try done. apply Hi. }
    case_match; try lw. case_match; [apply Hseed|lw].
Qed.

(** ** Control flow *)

Lemma Lw_if d vs args : Lw d d vs (lower_if lf args) (fun v => [v]).
Proof.
  destruct args as [|t [|a [|b [|? ?]]]]; cbn [lower_if]; [lw| | | |lw].
  all: eapply Lw_bind; [apply Hlf|]; intros c; apply Lw_any.
  - assert (H : Lw 0 0 ([c] ++ vs) (diamond_code c (emit_const CNil) (emit_const CNil)) (fun v => [v]))
      by (apply Lw_diamond; [set_solver|lw..]). unfold diamond_code, branch_code, join_code in H. exact H.
  - assert (H : Lw 0 0 ([c] ++ vs) (diamond_code c (lf a) (emit_const CNil)) (fun v => [v]))
      by (apply Lw_diamond; [set_solver|lw..]). unfold diamond_code, branch_code, join_code in H. exact H.
  - assert (H : Lw 0 0 ([c] ++ vs) (diamond_code c (lf a) (lf b)) (fun v => [v]))
      by (apply Lw_diamond; [set_solver|lw..]). unfold diamond_code, branch_code, join_code in H. exact H.
Qed.

Lemma Lw_short_circuit d vs u on_true args : Lw d d vs (lower_short_circuit lf u on_true args) (fun v => [v]).
Proof.
  apply Lw_any. revert vs. induction args as [|a rest IH]; intros vs; cbn [lower_short_circuit]; [lw|].
  destruct rest as [|b rest']; [lw|]. set (rest := b :: rest') in *. eapply Lw_bind; [apply Hlf|]. intros v.
  assert (H : Lw 0 0 ([v] ++ vs) (half_code on_true v (lower_short_circuit lf u on_true rest)) (fun v => [v]))
    by (apply Lw_half; [set_solver|apply IH]). unfold half_code, branch_code, join_code in H. exact H.
Qed.

Lemma Lw_lift {A B : Type} d d' vs (o : outcome LowerError A) (k : A -> M B) res :
  (forall a, o = Ok a -> Lw d d' vs (k a) res) -> Lw d d' vs (lift o ≫= k) res.
Proof.
  intros Hk. apply (Lw_pure (fun a => o = Ok a)); [|done]. intros s. unfold wp, lift. by destruct o.
Qed.

Lemma Lw_let d vs args : Lw d d vs (lower_let lf ld args) (fun v => [v]).
Proof.
  unfold lower_let. apply Lw_lift. intros [bindings body] _. lw.
  eapply (Lw_bind _ (S d) _ _ _ _ (fun _ => [])); [|intros ?; lw].
  apply Lw_for_each. intros kv vs' _ Hs. lw.
Qed.

Transparent Lw.

(** From the header of a loop to its exit. *)
Lemma wp_loop_rest {A : Type} (nm : A -> Name) (ini : A -> VarId) (F : list VarId -> M unit) body g s h b ws l sc base :
  at_header g (ls_ctx s) h b ws -> avail_all g (view true (ls_ctx s)) h ws -> h ∈ doms g h ->
  (forall x, x ∈ l -> ini x ∈ ws) -> locals (ls_ctx s) = sc :: base ->
  (forall phi_vars, Lw 1 1 (phi_vars ++ ws) (F phi_vars) (fun _ => [])) ->
  wp (phi_vars ← collect (fun x => loop_phi b (nm x) (ini x)) l; F phi_vars;; lower_loop_body lf h phi_vars body)
    (fun v s' => exists g', inv g' (ls_ctx s') /\ step g (ls_ctx s) g' (ls_ctx s') /\
       avail_all g' (view true (ls_ctx s')) (current_block (ls_ctx s')) [v] /\ locals (ls_ctx s') = base) s.
Proof.
  intros Hah Hws Hh Hin Hl HF. apply wp_bind. eapply wp_mono; [by eapply wp_loop_phis|].
  intros ds s1 (Hah1 & Hs1 & Hds & sc1 & Hl1). pose proof (ah_inv _ _ _ _ _ Hah) as Hi. pose proof (ah_inv _ _ _ _ _ Hah1) as Hi1.
  rewrite <- (ah_current _ _ _ _ _ Hah) in Hws. apply (avail_all_step _ _ _ _ _ Hi Hs1) in Hws.
  rewrite <- (ah_current _ _ _ _ _ Hah1) in Hds. apply wp_bind.
  eapply wp_mono; [apply (HF ds g s1 [sc1] base Hi1); [by apply Forall_app|done|done]|].
  intros [] s2 (g2 & top2 & Hi2 & Hs2 & _ & Hl2 & Hd2). destruct top2 as [|sc2 [|]]; [done| |done].
  eapply wp_mono; [eapply (wp_loop_body lf h ds body g2 s2 [] sc2 base); [apply Lw_body|exact Hi2|constructor| |exact Hl2]|].
  { apply (st_doms _ _ _ _ Hs2). by rewrite (ah_current _ _ _ _ _ Hah1). }
  intros v s3 (g3 & Hi3 & Hs3 & Hv3 & Hl3). exists g3. split_and!; try done.
  eapply step_trans; [exact Hs1|]. by eapply step_trans.
Qed.

Lemma Lw_bind_pattern vs p : p.2 ∈ vs -> Lw 1 1 vs (bind_loop_pattern ld p) (fun _ => []).
Proof. intros Hin. unfold bind_loop_pattern. case_match; lw. Qed.

Lemma Lw_loop d vs args : Lw d d vs (lower_loop lf ld args) (fun v => [v]).
Proof.
  unfold lower_loop. apply Lw_lift. intros [bindings body] _. apply Lw_any.
  eapply Lw_bind; [apply (Lw_collect _ _ _ (fun i => [bi_init i])); intros kv vs' _ _; unfold loop_binding; lw|].
  intros infos g s top base Hi Hv Hl Hd. destruct top; [|done]. simpl in Hl.
  set (inits := flat_map (fun i => [bi_init i]) infos) in *. set (ws := inits ++ vs) in *.
  apply wp_bind. eapply (wp_alloc g (ls_ctx s)); [apply Hi|apply allocated_nil, Hi|]. intros g1 c1 h Hal. simpl in Hal.
  apply wp_bind, wp_current_block. apply wp_bind, wp_finish. apply wp_bind, wp_start. apply wp_bind. cbn [ls_ctx].
  rewrite (al_current _ _ _ _ _ Hal). set (b := current_block (ls_ctx s)) in *.
  destruct (enter_header g (ls_ctx s) g1 c1 h ws Hi Hv Hal) as (Hah & Hs2 & Hv2 & Hh2 & Hl2). fold b in Hah, Hs2, Hv2, Hh2.
  set (g2 := plan_start h _) in *. set (c2 := set_locals _ _) in *.
  change (wp push_scope ?R _) with (R tt (mkLowerState c2 (ls_names s))). cbv beta.
  eapply wp_mono; [eapply (wp_loop_rest bi_gensym bi_init (fun ds => for_each (bind_loop_pattern ld) (zip infos ds)) body g2
    (mkLowerState c2 (ls_names s)) h b ws infos); try done|].
  - intros x Hx. apply elem_of_app. left. apply flat_map_elem. exists x. split; [done|by left].
  - intros ds. apply Lw_for_each. intros p vs' Hp Hs. apply Lw_bind_pattern. apply Hs, elem_of_app. left.
    destruct p as [x y]. by eapply elem_of_zip_r.
  - intros v s3 (g3 & Hi3 & Hs3 & Hv3 & Hl3). exists g3, []. split_and!; try done; [by eapply step_trans|].
    by rewrite Hl3, Hl.
Qed.

Local Opaque Lw.

Lemma Lw_recur_form d vs args : Lw d d vs (lower_recur lf args) (fun v => [v]).
Proof.
  unfold lower_recur. eapply Lw_bind; [apply Lw_forms|]. intros ys. apply Lw_any. apply (Lw_recur (ys ++ vs) ys). set_solver.
Qed.

Lemma Lw_throw_form d vs args : Lw d d vs (Lower.lower_throw lf args) (fun v => [v]).
Proof.
  destruct args as [|a [|? ?]]; cbn [Lower.lower_throw]; [lw| |lw]. eapply Lw_bind; [apply Hlf|]. intros v.
  apply Lw_any. apply (Lw_throw_code ([v] ++ vs) v). set_solver.
Qed.

Lemma Lw_await d vs args : Lw d d vs (lower_await lf args) (fun v => [v]).
Proof. destruct args as [|a [|? ?]]; cbn [lower_await]; [lw| |lw]. lw. case_match; lw. Qed.

Lemma Lw_def_form d vs args : Lw d d vs (lower_def lf args) (fun v => [v]).
Proof.
  destruct args as [|f rest]; cbn [lower_def]; [lw|]. apply Lw_lift. intros [name m] _.
  eapply (Lw_bind _ d _ _ _ _ (fun v => [v])); [destruct rest; lw|]. intros v. lw.
Qed.

Lemma Lw_set_bang d vs args : Lw d d vs (lower_set_bang lf args) (fun v => [v]).
Proof.
  destruct args as [|t [|v [|? ?]]]; cbn [lower_set_bang]; try lw. case_match; lw.
Qed.

(** ** Calls *)

Lemma Lw_first_arg d vs args : Lw d d vs (first_arg lf args) (fun v => [v]).
Proof. destruct args; cbn [first_arg]; lw. Qed.

Lemma Lw_second_arg d vs args : Lw d d vs (second_arg lf args) (fun v => [v]).
Proof. destruct args as [|? [|? ?]]; cbn [second_arg]; lw. Qed.

Hint Resolve Lw_first_arg Lw_second_arg : lw.

Lemma Lw_inline_with d vs k args c : Lw d d vs (inline_with lf k args c) (fun v => [v]).
Proof. unfold inline_with. lw. Qed.

Lemma Lw_inline_even d vs args : Lw d d vs (inline_even lf args) (fun v => [v]).
Proof. unfold inline_even. lw. Qed.

Hint Resolve Lw_inline_with Lw_inline_even : lw.

Lemma Lw_some_var d vs m : Lw d d vs m (fun v => [v]) -> Lw d d vs (some_var m) option_list.
Proof. intros Hm. unfold some_var. eapply Lw_bind; [exact Hm|]. intros v. lw. Qed.

Lemma Lw_try_inline d vs name args : Lw d d vs (try_inline_expansion lf name args) option_list.
Proof.
  unfold try_inline_expansion. cbv zeta. unfold emit_max, emit_min.
  repeat (case_match; [lw; apply Lw_some_var; lw|]). lw.
Qed.

Lemma Lw_apply_call d vs args : Lw d d vs (lower_apply_call lf args) (fun v => [v]).
Proof.
  unfold lower_apply_call. case_match; [lw|]. eapply Lw_bind; [apply Lw_forms|]. intros ys.
  destruct ys as [|f [|a [|b ys]]]; [lw..|]. set (rest := tail (f :: a :: b :: ys)).
  assert (Hsplit : rest = removelast rest ++ [List.last rest 0]) by (by apply app_removelast_last).
  assert (Hr : rest ⊆ (f :: a :: b :: ys) ++ vs) by (unfold rest; simpl; set_solver). rewrite Hsplit in Hr.
  eapply Lw_bind; [apply Lw_conses; set_solver|]. intros v. lw.
Qed.

Lemma Lw_dynamic_call d vs name args : args ⊆ vs -> Lw d d vs (dynamic_call name args) (fun v => [v]).
Proof. intros Ha. unfold dynamic_call. lw. Qed.

Hint Resolve Lw_dynamic_call Lw_apply_call : lw.

Lemma Lw_known_call d vs k name args : Lw d d vs (lower_known_call lf k name args) (fun v => [v]).
Proof.
  assert (H : Lw d d vs (arg_vars ← lower_forms lf args;
      match by_arity k (length arg_vars) with
      | Some (Some k) => emit_known k arg_vars
      | Some None => dynamic_call name arg_vars
      | None => if is_binary_foldable k then emit_binary_fold k arg_vars else lower_fixed_arity_call k name arg_vars
      end) (fun v => [v])).
  { eapply Lw_bind; [apply Lw_forms|]. intros ys. destruct (by_arity _ _) as [[?|]|]; [lw..|]. case_match; [lw|].
    unfold lower_fixed_arity_call. destruct k; try (case_match; [case_match; lw|lw]).
    destruct ys; [lw|]. case_match; [case_match; lw|lw]. }
  unfold lower_known_call. destruct k; try exact H. lw.
Qed.

Lemma Lw_generic_call d vs f args : Lw d d vs (lower_generic_call lf f args) (fun v => [v]).
Proof. unfold lower_generic_call. lw. Qed.

Hint Resolve Lw_known_call Lw_generic_call : lw.

Lemma Lw_call d vs f args : Lw d d vs (lower_call lf f args) (fun v => [v]).
Proof.
  unfold lower_call. case_match; try lw. eapply Lw_bind; [apply Lw_try_inline|]. intros [v|]; [lw|]. case_match; lw.
Qed.

(** ** Functions *)

Lemma Lw_destructure_param vs i : Lw 1 1 vs (destructure_param ld i) (fun _ => []).
Proof.
  unfold destructure_param. destruct (pi_pattern i); [|lw]. eapply Lw_bind; [apply Lw_unwrap_local|]. intros v. lw.
Qed.

(** The function that the blocks of an arity make, whatever its seeds. *)
Definition arity_result (bps : list (Name * VarId)) (c : LowerCtx) : Prop :=
  forall seeds locals_, good_tree (LowerCtx_build bps (set_seeds seeds locals_ c)).

Lemma wp_arity_blocks captures infos self body a name ns n :
  wp (lower_arity_blocks lf ld captures infos self body) (fun bps s' => arity_result bps (ls_ctx s'))
    (mkLowerState (set_is_async a (LowerCtx_new name ns)) n).
Proof.
  unfold lower_arity_blocks. apply wp_bind. eapply wp_mono; [apply (wp_params _ []), entry_new|].
  intros bps s1 Hen. simpl in Hen. set (ps := map snd bps) in *. pose proof (entry_inv _ _ Hen) as Hi1.
  destruct (en_locals _ _ Hen) as (sc1 & Hl1 & _). apply wp_bind.
  eapply wp_mono; [apply (Lw_deref_self ps self captures bps ltac:(done) (plan_params ps) s1 [sc1] [] Hi1); [|done|done]|].
  { apply Forall_forall. intros v Hv. by left. }
  intros [] s2 (g2 & top2 & Hi2 & Hs2 & _ & Hl2 & Htop2). rewrite app_nil_r in Hl2.
  destruct top2 as [|sc2 [|]]; [done| |done]. clear Htop2.
  apply wp_bind, wp_current_block. apply wp_bind. set (names := map pi_name infos).
  eapply wp_mono; [apply wp_and; [apply (Lw_use [] _ _ g2 s2 (Lw_collect_vars 0 [] unwrap_local names
    (fun x vs' _ _ => Lw_unwrap_local 0 vs' x)) Hi2); constructor|apply (keeps_collect unwrap_local), keeps_unwrap]|].
  intros vals s3 [(g3 & Hi3 & Hs3 & Hv3 & Hl3) E3]. rewrite <- E3. rewrite <- E3 in Hl2. clear Hl3.
  apply wp_bind. eapply (wp_alloc g3 (ls_ctx s3)); [apply Hi3|apply allocated_nil, Hi3|]. intros g4 c4 h Hal. simpl in Hal.
  apply wp_bind, wp_finish. apply wp_bind, wp_start. apply wp_bind. cbn [ls_ctx].
  destruct (enter_header g3 (ls_ctx s3) g4 c4 h vals Hi3 Hv3 Hal) as (Hah & Hs5 & Hv5 & Hh5 & Hl5).
  set (b := current_block (ls_ctx s3)) in *. set (g5 := plan_start h _) in *. set (c5 := set_locals _ _) in *.
  change (wp push_scope ?R _) with (R tt (mkLowerState c5 (ls_names s3))). cbv beta.
  apply (wp_assoc3 (collect (fun p => loop_phi b p.1 p.2) (zip names vals)) (fun _ => for_each (destructure_param ld) infos)
    (fun ds => lower_loop_body lf h ds body)).
  eapply wp_mono; [eapply (wp_loop_rest fst snd (fun _ => for_each (destructure_param ld) infos) body g5
    (mkLowerState c5 (ls_names s3)) h b vals); try done|].
  { intros [x y] Hx. by eapply elem_of_zip_r. }
  { intros ds. apply Lw_for_each. intros i vs' _ _. apply Lw_destructure_param. }
  intros v s6 (g6 & Hi6 & Hs6 & Hv6 & Hl6). cbn [ls_ctx] in *. apply wp_bind, wp_finish. cbn [wp mret stateM_ret ls_ctx].
  apply Forall_cons in Hv6 as [Hv6 _]. intros seeds locals_. eapply (return_tree g6 s6 v bps); try done.
  - rewrite (st_pending _ _ _ _ Hs6), (st_pending _ _ _ _ Hs5), (st_pending _ _ _ _ Hs3), (st_pending _ _ _ _ Hs2). done.
  - rewrite (gr_params _ _ _ _ (st_grows _ _ _ _ Hs6)), (gr_params _ _ _ _ (st_grows _ _ _ _ Hs5)),
      (gr_params _ _ _ _ (st_grows _ _ _ _ Hs3)), (gr_params _ _ _ _ (st_grows _ _ _ _ Hs2)). done.
Qed.

Lemma wp_fn_arity name ns captures fixed rest body a self s :
  wp (lower_fn_arity lf ld name ns captures fixed rest body a self)
    (fun f s' => good_tree f /\ ls_ctx s' = ls_ctx s) s.
Proof.
  unfold lower_fn_arity. apply wp_bind. eapply wp_mono; [apply (keeps_collect fixed_param_info), keeps_fixed_param|].
  intros infos s1 E1. apply wp_bind. eapply wp_mono; [apply (keeps_collect rest_param_info), keeps_rest_param|].
  intros ris s2 E2. apply wp_bind.
  eapply wp_mono; [apply (wp_in_ctx _ _ arity_result), wp_arity_blocks|].
  intros [bps sub] s3 [Hr E3]. cbn [wp mret stateM_ret]. split; [apply Hr|congruence].
Qed.

(** A function whose arities are lowered and added to the context. *)
Lemma Lw_add_arity {B : Type} d d' vs name ns captures fixed rest body a self (k : M B) res :
  Lw d d' vs k res ->
  Lw d d' vs (f ← lower_fn_arity lf ld name ns captures fixed rest body a self; add_subfunction f;; k) res.
Proof.
  intros Hk. apply (Lw_pure good_tree); [apply wp_fn_arity|]. intros f Hf.
  eapply (Lw_bind _ d _ _ _ _ (fun _ => [])); [by apply Lw_add_subfunction|]. intros []. exact Hk.
Qed.

Lemma Lw_keeps {A B : Type} d d' vs (m : M A) (k : A -> M B) res :
  keeps m -> (forall a, Lw d d' vs (k a) res) -> Lw d d' vs (m ≫= k) res.
Proof.
  intros Hm Hk. apply (Lw_pure (fun _ => True)); [|by intros a _]. intros s. eapply wp_mono; [apply Hm|]. done.
Qed.

Lemma Lw_thunk d vs prefix ps body captured :
  map snd captured ⊆ vs -> Lw d d vs (lower_thunk lf ld prefix ps body captured) (fun v => [v]).
Proof.
  intros Hc. unfold lower_thunk. eapply Lw_bind; [lw|]. intros ns. cbn [app]. apply Lw_keeps; [apply keeps_gensym|]. intros name.
  apply Lw_add_arity. lw.
Qed.

Lemma Lw_assoc {A B C : Type} d d' vs (m : M A) (n : A -> M B) (k : B -> M C) res :
  Lw d d' vs (a ← m; n a ≫= k) res -> Lw d d' vs ((a ← m; n a) ≫= k) res.
Proof.
  Transparent Lw. intros H g s top base Hi Hv Hl Hd. pose proof (H g s top base Hi Hv Hl Hd) as Hw.
  unfold wp, mbind, stateM_bind in *. by destruct (m s) as [[a| | |] s1]. Opaque Lw.
Qed.

Lemma Lw_ret_bind {A B : Type} d d' vs (a : A) (k : A -> M B) res : Lw d d' vs (k a) res -> Lw d d' vs (mret a ≫= k) res.
Proof. Transparent Lw. intros H. exact H. Opaque Lw. Qed.

Lemma Lw_closure d vs fn_name rest ns reg a :
  option_list reg ⊆ vs ->
  Lw (match reg with Some _ => S d | None => d end) d vs (lower_closure lf ld fn_name rest ns reg a) (fun v => [v]).
Proof.
  intros Hr. unfold lower_closure. eapply Lw_bind; [apply Lw_get_all_locals|]. intros ls. cbv zeta.
  set (captured := filter _ ls). assert (Hcap : map snd captured ⊆ map snd ls).
  { intros v (p & -> & Hp)%list_elem_of_fmap. apply list_elem_of_fmap_2. by apply list_elem_of_filter in Hp as [_ Hp]. }
  eapply (Lw_bind _ d _ _ _ _ (fun _ => [])); [destruct reg; lw|]. intros []. cbn [app].
  apply Lw_lift. intros arities _. apply Lw_keeps; [destruct fn_name; by intros s|]. intros base.
  apply Lw_keeps; [by intros s|]. intros uid.
  eapply (Lw_bind _ d _ _ _ _ (fun _ => [])).
  { apply Lw_for_each. intros x vs' _ Hs. unfold lower_arity_of.
    apply (Lw_pure good_tree); [apply wp_fn_arity|]. intros f Hf. by apply Lw_add_subfunction. }
  intros []. lw. eapply (Lw_bind _ d _ _ _ _ (fun _ => [])); [destruct reg; lw|]. intros []. lw.
Qed.

Lemma Lw_fn d vs args a : Lw d d vs (lower_fn lf ld args a) (fun v => [v]).
Proof.
  unfold lower_fn. destruct (fn_name_of args) as [fn_name rest]. eapply Lw_bind; [lw|]. intros ns. cbn [app].
  destruct fn_name as [n|]; cbn [self_reference]; [|apply Lw_ret_bind, (Lw_closure d vs None rest ns None a); set_solver].
  apply Lw_assoc. eapply Lw_bind; [apply Lw_lookup_local|]. intros [v|].
  { apply Lw_ret_bind, (Lw_closure d _ (Some n) rest ns None a). set_solver. }
  apply Lw_assoc. eapply Lw_bind; [lw|]. intros nil_val. apply Lw_assoc. eapply Lw_bind; [lw|]. intros cell.
  apply Lw_assoc. eapply Lw_bind; [lw|]. intros []. apply Lw_assoc. eapply Lw_bind; [lw|]. intros [].
  apply Lw_ret_bind, (Lw_closure d _ (Some n) rest ns (Some cell) a). set_solver.
Qed.

Hint Resolve Lw_fn Lw_thunk : lw.

Lemma Lw_defn d vs args : Lw d d vs (lower_defn lf ld args) (fun v => [v]).
Proof.
  destruct args as [|f rest]; cbn [lower_defn]; [lw|]. apply Lw_lift. intros [name m] _. cbv zeta. lw.
Qed.

Lemma Lw_try d vs args : Lw d d vs (lower_try lf ld args) (fun v => [v]).
Proof.
  unfold lower_try. eapply Lw_bind; [apply Lw_get_all_locals|]. intros captured.
  eapply Lw_bind; [apply Lw_thunk; set_solver|]. intros body.
  eapply (Lw_bind _ d _ _ _ _ (fun v => [v])); [case_match; [apply Lw_thunk; set_solver|lw]|]. intros catch.
  eapply (Lw_bind _ d _ _ _ _ (fun v => [v])); [case_match; [apply Lw_thunk; set_solver|lw]|]. intros fin. lw.
Qed.

Lemma Lw_binding d vs args : Lw d d vs (lower_binding lf ld args) (fun v => [v]).
Proof.
  unfold lower_binding. apply Lw_lift. intros [bindings body] _.
  eapply Lw_bind; [apply (Lw_collect _ _ _ (fun p => p)); intros kv vs' _ _; unfold lower_binding_pair; case_match; lw|].
  intros flat. eapply Lw_bind; [apply Lw_get_all_locals|]. intros captured.
  eapply Lw_bind; [apply Lw_thunk; set_solver|]. intros v. apply Lw_emit_known.
  assert (Hc : concat flat ⊆ flat_map (fun p => p) flat) by (rewrite flat_map_concat_map, map_id; done). set_solver.
Qed.

Lemma Lw_with_out_str d vs body : Lw d d vs (lower_with_out_str lf ld body) (fun v => [v]).
Proof.
  unfold lower_with_out_str. eapply Lw_bind; [apply Lw_get_all_locals|]. intros captured.
  eapply Lw_bind; [apply Lw_thunk; set_solver|]. intros v. lw.
Qed.

Lemma zip_r_vars {A : Type} (l : list A) (ys vs : list VarId) p : ys ⊆ vs -> p ∈ zip l ys -> p.2 ∈ vs.
Proof. intros Hs Hp. destruct p. apply Hs. by eapply elem_of_zip_r. Qed.

Lemma zip_l_vars {A : Type} (l : list A) (ys vs : list VarId) p : ys ⊆ vs -> p ∈ zip ys l -> p.1 ∈ vs.
Proof. intros Hs Hp. destruct p. apply Hs. by eapply elem_of_zip_l. Qed.

Lemma Lw_letfn d vs args : Lw d d vs (lower_letfn lf ld args) (fun v => [v]).
Proof.
  destruct args as [|a [|b body]]; cbn [lower_letfn]; [lw..|]. case_match; try lw.
  apply Lw_lift. intros parsed _.
  eapply Lw_bind; [apply Lw_collect_vars; intros p vs' _ _; unfold letfn_cell; lw|]. intros regs. lw.
  eapply (Lw_bind _ (S d) _ _ _ _ (fun _ => [])).
  { apply Lw_for_each. intros p vs' Hp Hs. apply Lw_bind_local. eapply zip_r_vars; [|exact Hp]. set_solver. }
  intros []. eapply Lw_bind; [apply Lw_collect_vars; intros p vs' _ _; unfold letfn_closure; lw|]. intros closures. lw.
  eapply (Lw_bind _ d _ _ _ _ (fun _ => [])).
  { apply Lw_for_each. intros p vs' Hp Hs. apply Lw_emit; [done..|].
    assert (p.1 ∈ vs') by (eapply zip_l_vars; [|exact Hp]; set_solver).
    assert (p.2 ∈ vs') by (eapply zip_r_vars; [|exact Hp]; set_solver). simpl. set_solver. }
  intros []. lw. eapply (Lw_bind _ (S d) _ _ _ _ (fun _ => [])).
  { apply Lw_for_each. intros p vs' Hp Hs. assert (p.2 ∈ vs') by (eapply zip_r_vars; [|exact Hp]; set_solver). lw. }
  intros []. eapply Lw_bind; [apply Lw_body|]. intros v. lw.
Qed.

Hint Resolve Lw_defn Lw_try Lw_binding Lw_with_out_str Lw_letfn : lw.

(** ** Forms *)

Hint Resolve Lw_if Lw_short_circuit Lw_let Lw_loop Lw_recur_form Lw_throw_form Lw_await Lw_def_form Lw_set_bang Lw_call : lw.

Lemma Lw_list d vs h args : Lw d d vs (lower_list lf ld h args) (fun v => [v]).
Proof.
  assert (Hcall : Lw d d vs (lower_call lf h args) (fun v => [v])) by apply Lw_call.
  unfold lower_list. case_match; try exact Hcall.
  - cbv zeta. unfold lower_and, lower_or.
    repeat (case_match; [solve [lw | repeat (case_match; try solve [lw])]|]). exact Hcall.
  - repeat (case_match; try solve [lw]).
Qed.

Lemma Lw_form_step d vs f : Lw d d vs (lower_form_step lf ld f) (fun v => [v]).
Proof.
  unfold lower_form_step. eapply Lw_bind; [lw|]. intros []. cbn [app].
  case_match; try solve [lw | case_match; lw | apply Lw_call].
  - case_match; [lw|apply Lw_list].
  - eapply Lw_bind; [apply Lw_collect_pairs; intros x vs' _; apply Hlf|]. intros ps. lw.
  - repeat (case_match; try solve [lw]).
Qed.
End Forms.

Lemma Lw_forms_fuel fuel :
  (forall d vs f, Lw d d vs (lower_form fuel f) (fun v => [v])) /\
  (forall d vs p v, v ∈ vs -> Lw (S d) (S d) vs (lower_destructure_binding fuel p v) (fun _ => [])).
Proof.
  induction fuel as [|n [IHf IHd]]; split; intros; cbn [lower_form lower_destructure_binding].
  - by apply Lw_fail.
  - by apply Lw_fail.
  - by apply Lw_form_step.
  - by apply Lw_destructure_step.
Qed.

(** * Lowered functions *)

(** A function and the functions nested in it. *)
Inductive within (f : IrFunction) : IrFunction -> Prop :=
| within_self : within f f
| within_sub g h : within f g -> h ∈ subfunctions g -> within f h.

Lemma good_within f h : good_tree f -> within f h -> good_tree h.
Proof.
  intros Hf. induction 1 as [|g h _ IH Hh]; [done|]. destruct IH as [g pl _ Hs]. by eapply Forall_forall in Hs.
Qed.

Lemma lower_body_good fuel name ns ps ds body a names ir names' :
  lower_fn_body_destructured fuel name ns ps ds body a names = (Ok ir, names') -> good_tree ir.
Proof.
  unfold lower_fn_body_destructured. destruct (Lw_forms_fuel fuel) as [Hlf Hld].
  set (s0 := mkLowerState _ names). intros E.
  assert (Hw : wp (lower_fn_blocks fuel ps ds body) (fun bps s' => good_tree (LowerCtx_build bps (ls_ctx s'))) s0).
  { Transparent Lw. unfold lower_fn_blocks. apply wp_bind. eapply wp_mono; [apply (wp_params _ []), entry_new|].
    intros bps s1 Hen. simpl in Hen. pose proof (entry_inv _ _ Hen) as Hi1. destruct (en_locals _ _ Hen) as (sc1 & Hl1 & _).
    assert (Hd : Lw 1 1 (map snd bps) (for_each (destructure_entry fuel bps) ds) (fun _ => [])).
    { apply Lw_for_each. intros d vs' _ Hs. unfold destructure_entry. destruct (bps !! d.1) as [[n v]|] eqn:Ed; [|by apply Lw_fail].
      apply Hld. apply Hs, list_elem_of_fmap. exists (n, v). split; [done|]. by eapply list_elem_of_lookup_2. }
    apply wp_bind. eapply wp_mono; [apply (Hd (plan_params (map snd bps)) s1 [sc1] [] Hi1); [|done|done]|].
    { apply Forall_forall. intros v Hv. by left. }
    intros [] s2 (g2 & _ & Hi2 & Hs2 & _). apply wp_bind.
    eapply wp_mono; [apply (Lw_use [] _ _ g2 s2 (Lw_body _ _ Hlf Hld 0 [] body) Hi2); constructor|].
    intros v s3 (g3 & Hi3 & Hs3 & Hv3 & _). apply wp_bind, wp_finish. cbn [wp mret stateM_ret ls_ctx].
    apply Forall_cons in Hv3 as [Hv3 _]. eapply (return_tree g3 s3 v bps); try done.
    - rewrite (st_pending _ _ _ _ Hs3), (st_pending _ _ _ _ Hs2). done.
    - rewrite (gr_params _ _ _ _ (st_grows _ _ _ _ Hs3)), (gr_params _ _ _ _ (st_grows _ _ _ _ Hs2)). done. }
  unfold wp in Hw. destruct (lower_fn_blocks fuel ps ds body s0) as [[bps| | |] s1]; [|done..]. by injection E as <- _.
Qed.

(** ** What holds of every lowered function *)

(** C6: every function that the lowering of a body produces, nested closures
    included, is in strict SSA form: block and variable numbers are unique and
    within the function's counters, every variable has one definition, and
    every read, phi entries and terminators included, is dominated by the
    definition it reads; every block that jumps forward to a phi has an entry
    in it. *)
Theorem lowered_is_ssa fuel name ns ps ds body a names ir names' h :
  lower_fn_body_destructured fuel name ns ps ds body a names = (Ok ir, names') -> within ir h ->
  closed h /\ strict_ssa h.
Proof.
  intros E Hw. destruct (good_within ir h (lower_body_good _ _ _ _ _ _ _ _ _ _ E) Hw) as [h g Hg _].
  split; [by eapply plan_closed | by eapply plan_strict_ssa].
Qed.

(** C7: the control flow that the lowering produces, from conditionals, short
    circuits, comparison chains, loops and [recur], is always accepted by the
    relooper: every lowered function has a structured tree, which ends with a
    result exactly if the blocks do, and with the same one. *)
Theorem lowered_reloops fuel name ns ps ds body a names ir names' h :
  lower_fn_body_destructured fuel name ns ps ds body a names = (Ok ir, names') -> within ir h ->
  exists s, reloop h = Ok s /\
    forall (St R : Type) (M : Machine St R) st r,
      (exists n, run_cfg h n 0 st = Some r) <-> (exists m, run_tree h m s st = Some (Done r)).
Proof.
  intros E Hw. destruct (good_within ir h (lower_body_good _ _ _ _ _ _ _ _ _ _ E) Hw) as [h g Hg _].
  destruct (reloop_tree h 0 (plan_well_formed _ _ Hg) (plan_reducible _ _ Hg)) as (s & Es & Hn & Hc & _).
  exists s. split; [done|]. intros St R M st r. by eapply node_equivalent.
Qed.

(** ** A function lowered *)

(** [(fn [n] (loop [x 1] (if (< x n 5) (recur (inc x)) (fn g [y] (g y x)))))] *)
Definition counting : list Form :=
  [flist [fsym "loop"; fvec [fsym "x"; fint 1];
     flist [fsym "if"; flist [fsym "<"; fsym "x"; fsym "n"; fint 5];
       flist [fsym "recur"; flist [fsym "inc"; fsym "x"]];
       flist [fsym "fn"; fsym "g"; fvec [fsym "y"]; flist [fsym "g"; fsym "y"; fsym "x"]]]]].

Definition counting_lowered : outcome LowerError IrFunction * Z :=
  lower_fn_body_destructured 20 None (lit "user") [lit "n"] [] counting false 0.

Definition counting_ir : IrFunction := match counting_lowered.1 with Ok f => f | _ => IrFunction_new None None end.
Definition counting_closure : IrFunction := default counting_ir (subfunctions counting_ir !! 0%nat).

Lemma lowered_is_ssa_witness : counting_closure <> counting_ir /\ closed counting_closure /\ strict_ssa counting_closure.
Proof.
  split; [by vm_compute|].
  apply (lowered_is_ssa 20 None (lit "user") [lit "n"] [] counting false 0 counting_ir counting_lowered.2);
    [vm_compute; reflexivity|].
  eapply within_sub; [apply within_self|]. apply list_elem_of_lookup_2 with 0%nat. vm_compute. reflexivity.
Defined.

Lemma lowered_reloops_witness :
  length (blocks counting_ir) = 9%nat /\
  exists s, reloop counting_ir = Ok s /\
    forall (St R : Type) (M : Machine St R) st r,
      (exists n, run_cfg counting_ir n 0 st = Some r) <-> (exists m, run_tree counting_ir m s st = Some (Done r)).
Proof.
  split; [vm_compute; reflexivity|].
  apply (lowered_reloops 20 None (lit "user") [lit "n"] [] counting false 0 counting_ir counting_lowered.2);
    [vm_compute; reflexivity | apply within_self].
Defined.
