(* ===== verification/TypeInfer.v ===== *)
(** Inference of machine representations
    (crates/cljrs-compiler/src/typeinfer.rs): a forward analysis that gives
    every variable of a function the representation compiled code keeps it in.

    The analysis iterates to a fixed point; it is run with fuel, and
    [infer_total] shows that twice the number of destinations suffices. *)
From stdpp Require Import gmap.
From S2P Require Import Prelude RustStd Token Ir.
Local Open Scope Z_scope.

(** [None] is "not yet computed". *)
Abbreviation Lat := (option Repr).

Definition meet (a b : Lat) : Lat :=
  match a, b with
  | None, x | x, None => x
  | Some x, Some y => if decide (x = y) then Some x else Some RBoxed
  end.

Definition is_number (r : Repr) : bool := match r with RLong | RDouble => true | _ => false end.

Definition arith_result (a b : Lat) : Lat :=
  x ← a; y ← b;
  match x, y with
  | RLong, RLong => Some RLong
  | _, _ => if is_number x && is_number y then Some RDouble else Some RBoxed
  end.

Definition cmp_result (a b : Lat) : Lat :=
  x ← a; y ← b;
  if is_number x && is_number y then Some RBool else Some RBoxed.

Abbreviation lattice := (gmap VarId Lat).

Definition get (lat : lattice) (v : VarId) : Lat := mjoin (lat !! v).

Definition const_repr (c : Const) : Repr :=
  match c with
  | CLong _ => RLong
  | CDouble _ => RDouble
  | CBool _ => RBool
  | _ => RBoxed
  end.

(** The representation of a call with two arguments. *)
Definition known_repr (k : KnownFn) (a b : Lat) : Lat :=
  match k with
  | KAdd | KSub | KMul | KUncheckedAdd | KUncheckedSub | KUncheckedMul => arith_result a b
  | KDiv =>
      match a, b with
      | Some RDouble, Some RDouble => Some RDouble
      | None, _ | _, None => None
      | _, _ => Some RBoxed
      end
  | KLt | KGt | KLte | KGte => cmp_result a b
  | KEq =>
      match a, b with
      | Some RLong, Some RLong => Some RBool
      | None, _ | _, None => None
      | _, _ => Some RBoxed
      end
  | KCaseEq => Some RBool
  | KAget =>
      match a, b with
      | Some RLongArray, Some RLong => Some RLong
      | Some RDoubleArray, Some RLong => Some RDouble
      | None, _ | _, None => None
      | _, _ => Some RBoxed
      end
  | _ => Some RBoxed
  end.

Definition inst_repr (lat : lattice) (i : Inst) : option (VarId * Lat) :=
  match i with
  | IConst d c => Some (d, Some (const_repr c))
  | IPhi d entries => Some (d, foldl (fun m e => meet m (get lat e.2)) None entries)
  | ICallKnown d k args =>
      match args, k with
      | [a; b], _ => Some (d, known_repr k (get lat a) (get lat b))
      | _, KAlength => Some (d, Some RLong)
      | _, _ => Some (d, Some RBoxed)
      end
  | other => d ← dst other; Some (d, Some RBoxed)
  end.

Definition update (lat : lattice) (d : VarId) (new : Lat) : bool * lattice :=
  let old := get lat d in
  let merged := meet old new in
  if decide (merged = old) then (false, lat) else (true, <[d := merged]> lat).

(** [changed |= update(...)] for each of the new values in turn. *)
Definition step (news : lattice -> option (VarId * Lat)) (st : bool * lattice) : bool * lattice :=
  match news st.2 with
  | None => st
  | Some (d, r) => let '(c, lat) := update st.2 d r in (st.1 || c, lat)
  end.

(** What a recur jump feeds into the phis of its target. *)
Definition recur_moves (f : IrFunction) (b : Block) : list (Inst * VarId) :=
  match terminator b with
  | RecurJump target args =>
      match List.find (fun t => block_id t =? target) (blocks f) with
      | Some t => zip (phis t) args
      | None => []
      end
  | _ => []
  end.

Definition recur_repr (lat : lattice) (m : Inst * VarId) : option (VarId * Lat) :=
  match m.1 with IPhi d _ => Some (d, get lat m.2) | _ => None end.

(** The new values a block gives, in the order they are folded in. *)
Definition block_news (f : IrFunction) (b : Block) : list (lattice -> option (VarId * Lat)) :=
  map (fun i lat => inst_repr lat i) (phis b ++ insts b) ++ map (fun m lat => recur_repr lat m) (recur_moves f b).

Definition all_news (f : IrFunction) : list (lattice -> option (VarId * Lat)) := blocks f ≫= block_news f.

Definition infer_pass (f : IrFunction) (lat : lattice) : bool * lattice :=
  foldl (fun st n => step n st) (false, lat) (all_news f).

Fixpoint infer_loop (fuel : nat) (f : IrFunction) (lat : lattice) : option lattice :=
  match fuel with
  | O => None
  | S n =>
      let '(changed, lat') := infer_pass f lat in
      if changed : bool then infer_loop n f lat' else Some lat'
  end.

Definition spec_at (specs : list Repr) (i : nat) : Repr := default RBoxed (specs !! i).

(** Parameters take their specialisation, locals meet their hint. *)
Definition infer_seed (f : IrFunction) (specs : list Repr) : lattice :=
  let lat := foldl (fun lat '(i, p) => <[p := Some (spec_at specs i)]> lat) ∅ (imap pair (map snd (params f))) in
  foldl (fun lat '(v, r) => <[v := meet (get lat v) (Some r)]> lat) lat (local_seed_reprs f).

Definition block_dsts (b : Block) : list VarId := omap dst (phis b ++ insts b).

Definition all_dsts (f : IrFunction) : gset VarId := list_to_set (blocks f ≫= block_dsts).

(** Each pass but the last raises the value of a destination. *)
Definition infer_fuel (f : IrFunction) : nat := S (2 * size (all_dsts f)).

Definition infer_lattice (f : IrFunction) (specs : list Repr) : option lattice :=
  infer_loop (infer_fuel f) f (infer_seed f specs).

(** The variables that are not boxed. *)
Definition unboxed (l : Lat) : option Repr :=
  match l with Some RBoxed => None | _ => l end.

Definition infer (f : IrFunction) (specs : list Repr) : option (gmap VarId Repr) :=
  lat ← infer_lattice f specs; Some (omap (M := gmap VarId) unboxed lat).

(** * The lattice *)

#[export] Instance Lat_le : SqSubsetEq Lat := fun a b => meet a b = b.

Lemma meet_cases a b : meet a b = b \/ meet a b = a \/ meet a b = Some RBoxed.
Proof. destruct a as [x|], b as [y|]; simpl; auto. case_decide; subst; auto. Qed.

#[export] Instance meet_comm : Comm (=@{Lat}) meet.
Proof. intros [x|] [y|]; simpl; try done. repeat case_decide; congruence. Qed.

#[export] Instance meet_assoc : Assoc (=@{Lat}) meet.
Proof. intros [[]|] [[]|] [[]|]; done. Qed.

#[export] Instance meet_idemp : IdemP (=@{Lat}) meet.
Proof. intros [x|]; simpl; [by rewrite decide_True|done]. Qed.

#[export] Instance Lat_partial_order : PartialOrder (⊑@{Lat}).
Proof.
  repeat split; unfold sqsubseteq, Lat_le.
  - intros a. apply meet_idemp.
  - intros a b c Hab Hbc. by rewrite <- Hbc, (assoc_L meet), Hab.
  - intros a b Hab Hba. by rewrite <- Hab, <- Hba at 1; rewrite (comm_L meet).
Qed.

Lemma meet_upper_l a b : a ⊑ meet a b.
Proof. unfold sqsubseteq, Lat_le. by rewrite (assoc_L meet), (idemp_L meet). Qed.

Lemma meet_upper_r a b : b ⊑ meet a b.
Proof. rewrite (comm_L meet). apply meet_upper_l. Qed.

Lemma meet_least a b c : a ⊑ c -> b ⊑ c -> meet a b ⊑ c.
Proof. unfold sqsubseteq, Lat_le. intros Ha Hb. by rewrite <- (assoc_L meet), Hb. Qed.

Lemma le_some x (l : Lat) : Some x ⊑ l -> l = Some x \/ l = Some RBoxed.
Proof. destruct l as [y|]; [|done]. unfold sqsubseteq, Lat_le. simpl. case_decide; subst; auto. Qed.

(** * The fixed point *)

(** What a solution of the analysis satisfies: each new value is below the
    value of its variable. *)
Definition solution (f : IrFunction) (lat : lattice) : Prop :=
  forall n d r, n ∈ all_news f -> n lat = Some (d, r) -> r ⊑ get lat d.

Lemma update_get lat d new v :
  get (update lat d new).2 v = if decide (v = d) then meet (get lat d) new else get lat v.
Proof.
  unfold update. case_decide as Hm; simpl.
  - case_decide; by subst.
  - unfold get at 1. case_decide as Hv; [subst; by rewrite lookup_insert_eq|]. by rewrite lookup_insert_ne.
Qed.

Lemma update_unchanged lat d new : (update lat d new).1 = false -> (update lat d new).2 = lat /\ new ⊑ get lat d.
Proof.
  unfold update. case_decide as Hm; [|done]. intros _. split; [done|].
  unfold sqsubseteq, Lat_le. by rewrite (comm_L meet).
Qed.

Lemma step_le n st v : get st.2 v ⊑ get (step n st).2 v.
Proof.
  unfold step. destruct (n st.2) as [[d r]|]; [|done]. pose proof (update_get st.2 d r v) as Hg.
  destruct (update st.2 d r) as [c lat']. simpl in *. rewrite Hg.
  case_decide; subst; [apply meet_upper_l|done].
Qed.

Lemma fold_le news st v : get st.2 v ⊑ get (foldl (fun st n => step n st) st news).2 v.
Proof.
  revert st. induction news as [|n news IH]; intros st; simpl; [done|].
  etrans; [apply (step_le n)|apply IH].
Qed.

Lemma fold_changed news st : st.1 = true -> (foldl (fun st n => step n st) st news).1 = true.
Proof.
  revert st. induction news as [|n news IH]; intros [c lat] Hc; simpl in *; [done|]. apply IH. subst.
  unfold step. simpl. destruct (n lat) as [[d r]|]; [|done]. by destruct (update lat d r).
Qed.

Lemma step_unchanged n st :
  (step n st).1 = false -> st.1 = false /\ (step n st).2 = st.2 /\ forall d r, n st.2 = Some (d, r) -> r ⊑ get st.2 d.
Proof.
  unfold step. destruct (n st.2) as [[d r]|]; [|by intros ->].
  pose proof (update_unchanged st.2 d r) as Hu. destruct (update st.2 d r) as [c lat']. simpl in *.
  intros [Hc ->]%orb_false_iff. destruct (Hu eq_refl) as [-> Hle]. split_and!; [done|done|].
  intros ? ? [= <- <-]. done.
Qed.

Lemma fold_unchanged news st :
  (foldl (fun st n => step n st) st news).1 = false ->
  (foldl (fun st n => step n st) st news).2 = st.2 /\
  forall n d r, n ∈ news -> n st.2 = Some (d, r) -> r ⊑ get st.2 d.
Proof.
  revert st. induction news as [|n news IH]; intros st Hc; simpl in *.
  - split; [done|]. intros ? ? ? []%elem_of_nil.
  - destruct (step n st).1 eqn:Hs; [by rewrite fold_changed in Hc|].
    destruct (step_unchanged n st Hs) as (_ & Hst & Hn). destruct (IH _ Hc) as [-> Hnews]. rewrite Hst in *.
    split; [done|]. intros m d r [->|Hm]%elem_of_cons; eauto.
Qed.

Lemma infer_loop_solution fuel f lat lat' :
  infer_loop fuel f lat = Some lat' -> solution f lat' /\ forall v, get lat v ⊑ get lat' v.
Proof.
  revert lat. induction fuel as [|n IH]; intros lat; simpl; [done|].
  pose proof (fold_unchanged (all_news f) (false, lat)) as Hu.
  pose proof (fun v => fold_le (all_news f) (false, lat) v) as Hle. fold (infer_pass f lat) in Hu, Hle.
  destruct (infer_pass f lat) as [[] lat1]; simpl in *.
  - intros [Hs Hl]%IH. split; [done|]. intros v. etrans; [apply Hle|apply Hl].
  - intros [= <-]. destruct (Hu eq_refl) as [-> Hsol]. split; [|done]. intros m d r. apply Hsol.
Qed.

(** Variables that no instruction defines keep their seed. *)
Definition news_dst (f : IrFunction) : Prop :=
  forall n lat d r, n ∈ all_news f -> n lat = Some (d, r) -> d ∈ all_dsts f.

Lemma inst_repr_dst lat i d r : inst_repr lat i = Some (d, r) -> dst i = Some d.
Proof.
  destruct i; cbn; intros Hi; try by simplify_eq.
  destruct args as [|a [|b [|]]]; destruct known; cbn in Hi; by simplify_eq.
Qed.

Lemma all_dsts_in f b i d : b ∈ blocks f -> i ∈ phis b ++ insts b -> dst i = Some d -> d ∈ all_dsts f.
Proof.
  intros Hb Hi Hd. apply elem_of_list_to_set, list_elem_of_bind. exists b. split; [|done].
  apply list_elem_of_omap. eauto.
Qed.

Lemma news_dst_all f : news_dst f.
Proof.
  intros n lat d r (b & Hn & Hb)%list_elem_of_bind Hnew. apply elem_of_app in Hn as [Hn|Hn].
  - apply list_elem_of_fmap in Hn as (i & -> & Hi). eapply all_dsts_in; eauto using inst_repr_dst.
  - apply list_elem_of_fmap in Hn as ([p a] & -> & Hm). unfold recur_repr in Hnew. simpl in Hnew.
    destruct p; try done. simplify_eq. unfold recur_moves in Hm. destruct (terminator b); try by apply elem_of_nil in Hm.
    destruct (List.find _ _) as [t|] eqn:Hf; [|by apply elem_of_nil in Hm].
    apply List.find_some in Hf as [Ht _]. apply elem_of_zip_l in Hm. apply list_elem_of_In in Ht.
    eapply all_dsts_in; [exact Ht|apply elem_of_app; by left|done].
Qed.

Lemma fold_keeps news st v :
  (forall n lat d r, n ∈ news -> n lat = Some (d, r) -> d <> v) ->
  get (foldl (fun st n => step n st) st news).2 v = get st.2 v.
Proof.
  revert st. induction news as [|n news IH]; intros st Hn; simpl; [done|].
  rewrite IH by (intros; eapply Hn; [by apply elem_of_cons; right|done]).
  unfold step. destruct (n st.2) as [[d r]|] eqn:Hd; [|done]. pose proof (update_get st.2 d r v) as Hg.
  destruct (update st.2 d r). simpl in *. rewrite Hg, decide_False; [done|].
  intros ->. by eapply (Hn n); [apply elem_of_cons; left|..].
Qed.

Lemma infer_loop_keeps fuel f lat lat' v :
  v ∉ all_dsts f -> infer_loop fuel f lat = Some lat' -> get lat' v = get lat v.
Proof.
  intros Hv. revert lat. induction fuel as [|n IH]; intros lat; simpl; [done|].
  pose proof (fold_keeps (all_news f) (false, lat) v) as Hk. fold (infer_pass f lat) in Hk.
  assert (get (infer_pass f lat).2 v = get lat v) as Hp.
  { apply Hk. intros m l d r Hm Hd ->. by eapply Hv, news_dst_all. }
  destruct (infer_pass f lat) as [[] lat1]; simpl in *.
  - intros Hl. rewrite (IH _ Hl). done.
  - by intros [= <-].
Qed.

(** ** Termination *)

Definition rank (l : Lat) : nat := match l with None => 0 | Some RBoxed => 2 | Some _ => 1 end.

Lemma rank_le a b : a ⊑ b -> (rank a <= rank b)%nat.
Proof. unfold sqsubseteq, Lat_le. destruct a as [[]|], b as [[]|]; simpl; try done; lia. Qed.

Lemma rank_lt a b : a ⊑ b -> a <> b -> (rank a < rank b)%nat.
Proof. unfold sqsubseteq, Lat_le. destruct a as [[]|], b as [[]|]; simpl; try done; lia. Qed.

Lemma repr_rank_bound l : (rank l <= 2)%nat.
Proof. destruct l as [[]|]; simpl; lia. Qed.

Definition total_rank (vs : list VarId) (lat : lattice) : nat := sum_list_with (fun v => rank (get lat v)) vs.

Lemma total_rank_bound vs lat : (total_rank vs lat <= 2 * length vs)%nat.
Proof.
  induction vs as [|v vs IH]; simpl; [done|]. unfold total_rank in *. pose proof (repr_rank_bound (get lat v)). lia.
Qed.

Lemma total_rank_le vs lat lat' : (forall v, get lat v ⊑ get lat' v) -> (total_rank vs lat <= total_rank vs lat')%nat.
Proof.
  intros Hle. induction vs as [|v vs IH]; [done|]. unfold total_rank in *. cbn [sum_list_with].
  pose proof (rank_le _ _ (Hle v)). lia.
Qed.

Lemma total_rank_lt vs lat lat' v :
  (forall v, get lat v ⊑ get lat' v) -> v ∈ vs -> get lat v <> get lat' v ->
  (total_rank vs lat < total_rank vs lat')%nat.
Proof.
  intros Hle Hv Hne. induction vs as [|w vs IH]; [by apply elem_of_nil in Hv|].
  unfold total_rank in *. cbn [sum_list_with]. pose proof (total_rank_le vs _ _ Hle) as Hvs. unfold total_rank in Hvs.
  apply elem_of_cons in Hv as [->|Hv].
  - pose proof (rank_lt _ _ (Hle w) Hne). lia.
  - pose proof (rank_le _ _ (Hle w)). specialize (IH Hv). lia.
Qed.

Lemma step_changed n st :
  st.1 = false -> (step n st).1 = true -> exists d r, n st.2 = Some (d, r) /\ get st.2 d <> get (step n st).2 d.
Proof.
  unfold step. destruct st as [c lat]. simpl. intros ->. destruct (n lat) as [[d r]|] eqn:Hn; [|done].
  pose proof (update_get lat d r d) as Hg. unfold update in *. case_decide; simpl in *; [done|].
  intros _. exists d, r. split; [done|]. rewrite Hg, decide_True by done. congruence.
Qed.

Lemma fold_raises news st :
  st.1 = false -> (foldl (fun st n => step n st) st news).1 = true ->
  exists n lat d r, n ∈ news /\ n lat = Some (d, r) /\ get st.2 d <> get (foldl (fun st n => step n st) st news).2 d.
Proof.
  revert st. induction news as [|n news IH]; intros st Hst Hc; simpl in *; [congruence|].
  destruct (step n st).1 eqn:Hs.
  - destruct (step_changed n st Hst Hs) as (d & r & Hn & Hd). exists n, st.2, d, r.
    split_and!; [apply elem_of_cons; by left|done|]. intros Heq. apply Hd.
    apply (anti_symm (⊑)); [apply step_le|]. rewrite Heq. apply fold_le.
  - destruct (IH _ Hs Hc) as (m & lat & d & r & Hm & Hd & Hne). exists m, lat, d, r.
    split_and!; [apply elem_of_cons; by right|done|]. by destruct (step_unchanged n st Hs) as (_ & <- & _).
Qed.

Lemma infer_loop_total fuel f lat :
  (2 * size (all_dsts f) < fuel + total_rank (elements (all_dsts f)) lat)%nat -> is_Some (infer_loop fuel f lat).
Proof.
  revert lat. induction fuel as [|n IH]; intros lat Hf; simpl.
  - pose proof (total_rank_bound (elements (all_dsts f)) lat) as Hb.
    change (length (elements (all_dsts f))) with (size (all_dsts f)) in Hb. lia.
  - pose proof (fold_raises (all_news f) (false, lat) eq_refl) as Hr.
    pose proof (fun v => fold_le (all_news f) (false, lat) v) as Hle. fold (infer_pass f lat) in Hr, Hle.
    destruct (infer_pass f lat) as [[] lat1]; simpl in *; [|eauto].
    destruct (Hr eq_refl) as (m & l & d & r & Hm & Hd & Hne). apply IH.
    pose proof (total_rank_lt (elements (all_dsts f)) lat lat1 d Hle) as Hlt.
    rewrite elem_of_elements in Hlt. specialize (Hlt (news_dst_all f _ _ _ _ Hm Hd) Hne). lia.
Qed.

Lemma infer_lattice_total f specs : is_Some (infer_lattice f specs).
Proof. apply infer_loop_total. unfold infer_fuel. lia. Qed.

(** ** The least solution *)

Definition lattice_le (lat lat' : lattice) : Prop := forall v, get lat v ⊑ get lat' v.

Definition monotone2 (g : Lat -> Lat -> Lat) : Prop :=
  forall a a' b b', a ⊑ a' -> b ⊑ b' -> g a b ⊑ g a' b'.

Lemma monotone2_each g :
  (forall a a' b, a ⊑ a' -> g a b ⊑ g a' b) -> (forall a b b', b ⊑ b' -> g a b ⊑ g a b') -> monotone2 g.
Proof. intros Hl Hr a a' b b' Ha Hb. trans (g a' b); auto. Qed.

Ltac monotone_cases := apply monotone2_each; unfold sqsubseteq, Lat_le; repeat intros [[]|]; done.

Lemma arith_mono : monotone2 arith_result.
Proof. monotone_cases. Qed.

Lemma cmp_mono : monotone2 cmp_result.
Proof. monotone_cases. Qed.

Lemma known_mono k : monotone2 (known_repr k).
Proof.
  destruct k; try (by intros a a' b b' _ _); try exact arith_mono; try exact cmp_mono; monotone_cases.
Qed.

Lemma phi_mono lat lat' entries m m' :
  lattice_le lat lat' -> m ⊑ m' ->
  foldl (fun m e => meet m (get lat e.2)) m entries ⊑ foldl (fun m (e : BlockId * VarId) => meet m (get lat' e.2)) m' entries.
Proof.
  intros Hl. revert m m'. induction entries as [|e entries IH]; intros m m' Hm; simpl; [done|]. apply IH.
  apply meet_least; [etrans; [exact Hm|apply meet_upper_l]|etrans; [apply Hl|apply meet_upper_r]].
Qed.

Lemma inst_repr_mono lat lat' i d r :
  lattice_le lat lat' -> inst_repr lat i = Some (d, r) -> exists r', inst_repr lat' i = Some (d, r') /\ r ⊑ r'.
Proof.
  intros Hl. destruct i; cbn; intros Hi; try by (exists r; split; [exact Hi|reflexivity]).
  - destruct args as [|a [|b [|]]]; try by (exists r; split; [exact Hi|reflexivity]). simplify_eq.
    eexists. split; [reflexivity|]. by apply known_mono.
  - simplify_eq. eexists. split; [reflexivity|]. apply phi_mono; [done|reflexivity].
Qed.

Lemma news_mono f n lat lat' d r :
  n ∈ all_news f -> lattice_le lat lat' -> n lat = Some (d, r) -> exists r', n lat' = Some (d, r') /\ r ⊑ r'.
Proof.
  intros (b & Hn & _)%list_elem_of_bind Hl Hnew. apply elem_of_app in Hn as [Hn|Hn].
  - apply list_elem_of_fmap in Hn as (i & -> & _). by eapply inst_repr_mono.
  - apply list_elem_of_fmap in Hn as ([p a] & -> & _). unfold recur_repr in *. simpl in *.
    destruct p; simplify_eq. eexists. split; [reflexivity|apply Hl].
Qed.

Lemma fold_below f lat' news st :
  solution f lat' -> (forall n, n ∈ news -> n ∈ all_news f) -> lattice_le st.2 lat' ->
  lattice_le (foldl (fun st n => step n st) st news).2 lat'.
Proof.
  intros Hs. revert st. induction news as [|n news IH]; intros st Hn Hl; simpl; [done|].
  apply IH; [intros; by apply Hn, elem_of_cons; right|].
  unfold step. destruct (n st.2) as [[d r]|] eqn:Hd; [|done].
  assert (n ∈ all_news f) as Hin by (apply Hn, elem_of_cons; by left).
  destruct (news_mono f n _ _ _ _ Hin Hl Hd) as (r' & Hd' & Hr). intros v.
  pose proof (update_get st.2 d r v) as Hg. destruct (update st.2 d r). simpl in *. rewrite Hg.
  case_decide; [subst|apply Hl]. apply meet_least; [apply Hl|]. etrans; [exact Hr|]. by eapply Hs.
Qed.

Lemma infer_loop_least fuel f lat lat' l :
  solution f lat' -> lattice_le lat lat' -> infer_loop fuel f lat = Some l -> lattice_le l lat'.
Proof.
  intros Hs. revert lat. induction fuel as [|n IH]; intros lat Hl; simpl; [done|].
  pose proof (fold_below f lat' (all_news f) (false, lat) Hs (fun _ H => H) Hl) as Hb. fold (infer_pass f lat) in Hb.
  destruct (infer_pass f lat) as [[] lat1]; simpl in *; [by apply IH|]. by intros [= <-].
Qed.

(** C35: Representation inference terminates on every function, whatever the
    specialisations and the hints: the loop reaches a fixed point within twice
    the number of destinations, and what it reaches is the least assignment
    that is above the seeds and in which the representation of every
    instruction, phi and recur argument is below the one of the variable it
    defines. *)
Theorem infer_least_solution (f : IrFunction) (specs : list Repr) :
  exists lat, infer_lattice f specs = Some lat /\ lattice_le (infer_seed f specs) lat /\ solution f lat /\
    forall lat', lattice_le (infer_seed f specs) lat' -> solution f lat' -> lattice_le lat lat'.
Proof.
  destruct (infer_lattice_total f specs) as [lat Hi]. exists lat.
  destruct (infer_loop_solution _ _ _ _ Hi). split_and!; [done|done|done|]. intros. by eapply infer_loop_least.
Qed.
