(* ===== verification/NativeCode.v ===== *)
(** The native code generator (crates/cljrs-compiler/src/codegen.rs): the
    translation of a function into Cranelift blocks, with the variables the
    analysis found kept unboxed.

    Values that a block computes are expressions; calls into the runtime, the
    gas checkpoints and the overflow checks are statements. *)
From stdpp Require Import gmap strings.
From S2P Require Import Prelude RustStd Token Ir TypeInfer NativeOps.
Local Open Scope Z_scope.

Inductive Expr : Type :=
| XVar (v : VarId)
| XResult
| XIconst (n : Z)
| XIconst8 (n : Z)
| XF64const (bits : Z)
| XIadd (a b : Expr)
| XIsub (a b : Expr)
| XImul (a b : Expr)
| XSmulhi (a b : Expr)
| XSshrImm (a : Expr) (n : Z)
| XBxor (a b : Expr)
| XBand (a b : Expr)
| XIcmp (cc : IntCC) (a b : Expr)
| XIcmpImm (cc : IntCC) (a : Expr) (n : Z)
| XFcvtFromSint (a : Expr)
| XFadd (a b : Expr)
| XFsub (a b : Expr)
| XFmul (a b : Expr)
| XFdiv (a b : Expr)
| XFcmp (cc : FloatCC) (a b : Expr)
| XConstLong (a : Expr)
| XConstDouble (a : Expr)
| XBoxBool (a : Expr)
| XConst (c : Const)
| XTruthiness (a : Expr).

Inductive ArrayFn : Type := AfAlength | AfAgetLong | AfAgetDouble | AfAget | AfAsetLong | AfAsetDouble | AfAset.

(** The runtime functions: the bridge of a known function, the one that
    implements an instruction, [rt_throw] and the array bridges. *)
Inductive RtFn : Type := RtKnown (k : KnownFn) | RtInst (i : Inst) | RtThrow | RtArray (a : ArrayFn).

Inductive Stmt : Type :=
| SDef (v : VarId) (e : Expr)
| SCall (fn : RtFn) (args : list Expr)
| SGas (cost : Z)
| SThrowOverflow (cond : Expr)
| SSafepoint.

Inductive NTerm : Type :=
| NReturn (e : Expr)
| NJump (target : BlockId) (args : list Expr)
| NBrif (cond : Expr) (t : BlockId) (targs : list Expr) (e : BlockId) (eargs : list Expr).

Record NBlock : Type := mkNBlock {
  nb_id : BlockId;
  nb_params : list VarId;
  nb_body : list Stmt;
  nb_term : NTerm
}.

(** How a parameter is bound in the prologue. *)
Inductive Guard : Type := GuardLong (v : VarId) | GuardDouble (v : VarId) | Bind (v : VarId).

Record NativeFn : Type := mkNativeFn {
  nf_prologue : option (list Guard);
  nf_entry : BlockId;
  nf_blocks : list NBlock
}.

Section Codegen.
Context (reprs : gmap VarId Repr) (user_funcs : list Z -> bool).

Abbreviation result := (outcome string).

(** ** Reading variables *)

Definition repr_of (v : VarId) : Repr := default RBoxed (reprs !! v).

Definition use_var_boxed (v : VarId) : Expr :=
  match repr_of v with
  | RBoxed | RLongArray | RDoubleArray => XVar v
  | RLong => XConstLong (XVar v)
  | RDouble => XConstDouble (XVar v)
  | RBool => XBoxBool (XVar v)
  end.

Definition coerce_to (v : VarId) (target : Repr) : result Expr :=
  if decide (repr_of v = target) then Ok (XVar v)
  else if decide (target = RBoxed) then Ok (use_var_boxed v)
  else Err "phi repr mismatch"%string.

Definition use_var_f64 (v : VarId) : result Expr :=
  match repr_of v with
  | RDouble => Ok (XVar v)
  | RLong => Ok (XFcvtFromSint (XVar v))
  | _ => Err "cannot widen to f64"%string
  end.

(** ** Instructions *)

Definition emit_const (c : Const) : Expr :=
  match c with
  | CLong n => XConstLong (XIconst n)
  | CDouble bits => XConstDouble (XF64const bits)
  | _ => XConst c
  end.

Definition emit_long_overflow_check (k : KnownFn) (av bv sum : Expr) : Stmt :=
  SThrowOverflow
    match k with
    | KAdd => XIcmpImm SignedLessThan (XBand (XBxor av sum) (XBxor bv sum)) 0
    | KSub => XIcmpImm SignedLessThan (XBand (XBxor av bv) (XBxor av sum)) 0
    | _ => XIcmp NotEqual (XSmulhi av bv) (XSshrImm sum 63)
    end.

Definition emit_unboxed_known (dst_repr : Repr) (k : KnownFn) (a b : VarId) : result (list Stmt * Expr) :=
  match k, dst_repr with
  | (KAdd | KSub | KMul), RLong =>
      let av := XVar a in
      let bv := XVar b in
      let sum := match k with KAdd => XIadd av bv | KSub => XIsub av bv | _ => XImul av bv end in
      Ok ([emit_long_overflow_check k av bv sum], sum)
  | (KUncheckedAdd | KUncheckedSub | KUncheckedMul), RLong =>
      let av := XVar a in
      let bv := XVar b in
      Ok ([], match k with KUncheckedAdd => XIadd av bv | KUncheckedSub => XIsub av bv | _ => XImul av bv end)
  | (KAdd | KSub | KMul | KDiv | KUncheckedAdd | KUncheckedSub | KUncheckedMul), RDouble =>
      av ← use_var_f64 a;
      bv ← use_var_f64 b;
      Ok ([],
        match k with
        | KAdd | KUncheckedAdd => XFadd av bv
        | KSub | KUncheckedSub => XFsub av bv
        | KMul | KUncheckedMul => XFmul av bv
        | _ => XFdiv av bv
        end)
  | (KLt | KGt | KLte | KGte), RBool =>
      if bool_decide (repr_of a = RLong) && bool_decide (repr_of b = RLong) then
        let cc :=
          match k with
          | KLt => SignedLessThan
          | KGt => SignedGreaterThan
          | KLte => SignedLessThanOrEqual
          | _ => SignedGreaterThanOrEqual
          end in
        Ok ([], XIcmp cc (XVar a) (XVar b))
      else
        let cc :=
          match k with
          | KLt => FLessThan
          | KGt => FGreaterThan
          | KLte => FLessThanOrEqual
          | _ => FGreaterThanOrEqual
          end in
        av ← use_var_f64 a;
        bv ← use_var_f64 b;
        Ok ([], XFcmp cc av bv)
  | KEq, RBool => Ok ([], XIcmp Equal (XVar a) (XVar b))
  | _, _ => Err "unboxed known-call combination not supported"%string
  end.

(** A call whose result is the value. *)
Definition call (fn : RtFn) (args : list Expr) : list Stmt * Expr := ([SCall fn args], XResult).

Definition emit_array_op (k : KnownFn) (args : list VarId) : result (list Stmt * Expr) :=
  match k, args with
  | KAlength, arr :: _ => Ok (call (RtArray AfAlength) [use_var_boxed arr])
  | KAget, arr :: idx :: _ =>
      Ok match repr_of arr, repr_of idx with
         | RLongArray, RLong => call (RtArray AfAgetLong) [use_var_boxed arr; XVar idx]
         | RDoubleArray, RLong => call (RtArray AfAgetDouble) [use_var_boxed arr; XVar idx]
         | _, _ => call (RtArray AfAget) [use_var_boxed arr; use_var_boxed idx]
         end
  | KAset, arr :: idx :: val :: _ =>
      let boxed := call (RtArray AfAset) [use_var_boxed arr; use_var_boxed idx; use_var_boxed val] in
      match repr_of arr, repr_of idx with
      | RLongArray, RLong =>
          Ok (if decide (repr_of val = RLong) then call (RtArray AfAsetLong) [use_var_boxed arr; XVar idx; XVar val] else boxed)
      | RDoubleArray, RLong =>
          match repr_of val with
          | RDouble | RLong =>
              v ← use_var_f64 val;
              Ok (call (RtArray AfAsetDouble) [use_var_boxed arr; XVar idx; v])
          | _ => Ok boxed
          end
      | _, _ => Ok boxed
      end
  | _, _ => Panic
  end.

Definition is_array_fn (k : KnownFn) : bool := match k with KAget | KAset | KAlength => true | _ => false end.

(** Functions that are not compiled to instructions call their bridge with
    every argument boxed; [swap!] and [binding] index their arguments. *)
Definition emit_boxed_known (k : KnownFn) (args : list VarId) : result (list Stmt * Expr) :=
  match k, args with
  | KAtomSwap, ([] | [_]) | KWithBindings, [] => Panic
  | _, _ => Ok (call (RtKnown k) (map use_var_boxed args))
  end.

Definition emit_known_call (d : VarId) (k : KnownFn) (args : list VarId) : result (list Stmt * Expr) :=
  if is_array_fn k then emit_array_op k args
  else
    match repr_of d, args with
    | RBoxed, _ => emit_boxed_known k args
    | r, [a; b] => emit_unboxed_known r k a b
    | _, _ => emit_boxed_known k args
    end.

(** The value of an instruction is bound to its destination. *)
Definition bind_dst (d : VarId) (v : list Stmt * Expr) : list Stmt := v.1 ++ [SDef d v.2].

(** Calls check the gas before their result is bound. *)
Definition bind_call (d : VarId) (v : list Stmt * Expr) : list Stmt := v.1 ++ [SGas 0; SDef d v.2].

(** A runtime function on boxed operands. *)
Definition runtime (i : Inst) : list Stmt * Expr := call (RtInst i) (map use_var_boxed (uses i)).

Definition alloc_closure (d : VarId) (t : ClosureTemplate) (i : Inst) : result (list Stmt) :=
  match arity_fn_names t with
  | [] => Ok [SDef d (XConst CNil)]
  | [name] =>
      match is_variadic t, param_counts t with
      | _ :: _, _ :: _ =>
          if user_funcs name then Ok (bind_dst d (runtime i)) else Err "AllocClosure: undeclared subfunction"%string
      | _, _ => Panic
      end
  | names =>
      if forallb user_funcs names then Ok (bind_dst d (runtime i)) else Err "AllocClosure: undeclared subfunction"%string
  end.

Definition translate_inst (region_param : bool) (i : Inst) : result (list Stmt) :=
  match i with
  | IConst d c =>
      let val :=
        match repr_of d, c with
        | RLong, CLong n => XIconst n
        | RDouble, CDouble bits => XF64const bits
        | RBool, CBool b => XIconst8 (Z.b2z b)
        | _, _ => emit_const c
        end in
      Ok [SDef d val]
  | ILoadLocal d _ => Ok [SDef d (XConst CNil)]
  | ILoadGlobal d _ _ | ILoadVar d _ _ | IAllocVector d _ | IAllocMap d _ | IAllocSet d _ | IAllocList d _
  | IAllocCons d _ _ | IDeref d _ | IDefVar d _ _ _ | IRegionStart d => Ok (bind_dst d (runtime i))
  | ICallKnown d k args => v ← emit_known_call d k args; Ok (bind_call d v)
  | ICall d _ _ => Ok (bind_call d (runtime i))
  | ICallDirect d name _ =>
      if user_funcs name then Ok (bind_call d (runtime i)) else Err "CallDirect: unknown function"%string
  | ISetBang _ _ => Ok (runtime i).1
  | IThrow v => Ok [SCall RtThrow [use_var_boxed v]]
  | IPhi _ _ | IRecur _ | ISourceLoc _ => Ok []
  | IAllocClosure d t _ => alloc_closure d t i
  | IRegionAlloc d region kind ops =>
      match kind, ops with
      | RkCons, [_; _] | (RkVector | RkMap | RkSet | RkList), _ =>
          Ok (bind_dst d (call (RtInst i) (XVar region :: map use_var_boxed ops)))
      | RkCons, _ => Ok [SDef d (XConst CNil)]
      end
  | IRegionEnd region => Ok [SCall (RtInst i) [XVar region]]
  | IRegionParam d =>
      if region_param then Ok (bind_dst d (call (RtInst i) [])) else Err "RegionParam in a function compiled without a region parameter"%string
  | ICallWithRegion d name args region =>
      if user_funcs name then Ok (bind_call d (call (RtInst i) (map use_var_boxed args ++ [XVar region])))
      else Err "CallWithRegion: unknown function"%string
  | IAwait _ _ | ISpawn _ _ _ | IChanTake _ _ | IChanPut _ _ => Err "raw async instructions"%string
  | IStateStore _ _ | IStateLoad _ _ | IAsyncSuspend _ _ _ | IAsyncResume _ _ => Err "outside a poll function"%string
  end.

(** ** Terminators *)

Definition find_block (f : IrFunction) (b : BlockId) : option Block := List.find (fun t => block_id t =? b) (blocks f).

(** Phis without an entry for the predecessor get no argument. *)
Fixpoint phi_args (from : BlockId) (ps : list Inst) : result (list Expr) :=
  match ps with
  | [] => Ok []
  | IPhi d entries :: ps' =>
      match List.find (fun e => e.1 =? from) entries with
      | Some (_, v) => e ← coerce_to v (repr_of d); es ← phi_args from ps'; Ok (e :: es)
      | None => phi_args from ps'
      end
  | _ :: ps' => phi_args from ps'
  end.

Definition collect_phi_args (f : IrFunction) (to_block from_block : BlockId) : result (list Expr) :=
  match find_block f to_block with
  | None => Ok []
  | Some target => phi_args from_block (phis target)
  end.

(** Recur arguments feed the phis of the target positionally. *)
Fixpoint recur_args (args : list VarId) (ps : list Inst) : result (list Expr) :=
  match args, ps with
  | a :: args', p :: ps' =>
      let target_repr := match p with IPhi d _ => repr_of d | _ => RBoxed end in
      e ← coerce_to a target_repr;
      es ← recur_args args' ps';
      Ok (e :: es)
  | _, _ => Ok []
  end.

(** [block_map[target]] panics for a block that does not exist. *)
Definition block_map (f : IrFunction) (b : BlockId) : result BlockId :=
  if existsb (fun t => block_id t =? b) (blocks f) then Ok b else Panic.

Definition translate_terminator (f : IrFunction) (current : BlockId) (t : Terminator) : result (list Stmt * NTerm) :=
  match t with
  | Return v => Ok ([], NReturn (use_var_boxed v))
  | Jump target =>
      b ← block_map f target;
      args ← collect_phi_args f target current;
      Ok ([], NJump b args)
  | Branch cond then_block else_block =>
      tb ← block_map f then_block;
      eb ← block_map f else_block;
      targs ← collect_phi_args f then_block current;
      eargs ← collect_phi_args f else_block current;
      Ok ([],
        match repr_of cond with
        | RBool => NBrif (XVar cond) tb targs eb eargs
        | RLong | RDouble | RLongArray | RDoubleArray => NJump tb targs
        | RBoxed => NBrif (XTruthiness (XVar cond)) tb targs eb eargs
        end)
  | RecurJump target args =>
      b ← block_map f target;
      args' ←
        match find_block f target with
        | Some tb => recur_args args (phis tb)
        | None => Ok (map use_var_boxed args)
        end;
      Ok ([SSafepoint], NJump b args')
  | Unreachable => Ok ([], NReturn (XConst CNil))
  end.

(** ** Functions *)

Fixpoint translate_insts (region_param : bool) (is_ : list Inst) : result (list Stmt) :=
  match is_ with
  | [] => Ok []
  | i :: is' => s ← translate_inst region_param i; ss ← translate_insts region_param is'; Ok (s ++ ss)
  end.

Definition block_cost (b : Block) : Z := Z.of_nat (length (phis b) + length (insts b) + 1).

(** [extra] are the function's own parameters, for an entry block without a
    prologue, which also holds the safepoint. *)
Definition translate_block (f : IrFunction) (extra : list VarId) (entry : bool) (b : Block) : result NBlock :=
  body ← translate_insts (takes_region_param f) (insts b);
  term ← translate_terminator f (block_id b) (terminator b);
  Ok (mkNBlock (block_id b) (extra ++ omap (fun i => match i with IPhi d _ => Some d | _ => None end) (phis b))
       ((if entry then [SSafepoint] else []) ++ SGas (block_cost b) :: body ++ term.1) term.2).

Fixpoint translate_blocks (f : IrFunction) (bs : list Block) : result (list NBlock) :=
  match bs with
  | [] => Ok []
  | b :: bs' => nb ← translate_block f [] false b; nbs ← translate_blocks f bs'; Ok (nb :: nbs)
  end.

Definition guard (specs : list Repr) (i : nat) (v : VarId) : Guard :=
  match spec_at specs i with
  | RLong => GuardLong v
  | RDouble => GuardDouble v
  | _ => Bind v
  end.

Definition is_specialized (specs : list Repr) (f : IrFunction) : bool :=
  existsb (fun s => bool_decide (s <> RBoxed)) (take (length (params f)) specs).

(** Functions other than poll functions. *)
Definition translate (specs : list Repr) (f : IrFunction) : result NativeFn :=
  match blocks f with
  | [] => Panic
  | entry :: rest =>
      if is_specialized specs f then
        nbs ← translate_blocks f (blocks f);
        Ok (mkNativeFn (Some (imap (guard specs) (map snd (params f)))) (block_id entry) nbs)
      else
        nb ← translate_block f (map snd (params f)) true entry;
        nbs ← translate_blocks f rest;
        Ok (mkNativeFn None (block_id entry) (nb :: nbs))
  end.

End Codegen.

(** A hint wins over the profile. *)
Definition merged_specs (f : IrFunction) (specs : list Repr) : list Repr :=
  match seed_reprs f with
  | [] => specs
  | hints =>
      map (fun i =>
        let hint := spec_at hints i in
        if decide (hint <> RBoxed) then hint else spec_at specs i) (seq 0 (length (params f)))
  end.

Definition compile_function_with_specs (user_funcs : list Z -> bool) (f : IrFunction) (specs : list Repr) : outcome string NativeFn :=
  let specs := merged_specs f specs in
  match infer f specs with
  | Some reprs => translate reprs user_funcs specs f
  | None => OutOfFuel
  end.
