(* ===== verification/NativeSem.v ===== *)
(** What compiled code computes, over machine registers, and what the same
    function computes when every value is boxed and every operation is the
    runtime's bridge. *)
From stdpp Require Import gmap strings.
From S2P Require Import Prelude RustStd Token Ir Reloop ReloopSem IrInterp OsrSem TypeInfer NativeOps NativeCode.
Local Open Scope Z_scope.

(** What a register holds: its type is the one of the Cranelift variable. *)
Inductive Raw (X : Type) : Type :=
| RawI64 (n : Z)
| RawF64 (d : f64)
| RawI8 (n : Z)
| RawPtr (v : RtValue X).

Arguments RawI64 {X} n.
Arguments RawF64 {X} d.
Arguments RawI8 {X} n.
Arguments RawPtr {X} v.

(** The runtime behind the bridges that are not arithmetic.  [H] is its state,
    with the pending exception and the execution credits. *)
Class NativeHost (X H : Type) : Type := {
  const_other : Const -> X;
  host_known : KnownFn -> list (RtValue X) -> H -> RtValue X * H;
  host_inst : Inst -> list (RtValue X) -> H -> RtValue X * H;
  host_array : ArrayFn -> list (Raw X) -> H -> Raw X * H;
  gas_charge : Z -> H -> bool * H;
  rt_throw : RtValue X -> H -> H;
  overflow_error : X
}.

Section Semantics.
Context {X H : Type} `{OtherEq X} `{Clif} `{NativeHost X H}.

Definition const_value (c : Const) : RtValue X :=
  match c with
  | CNil => VNil
  | CBool b => VBool b
  | CLong n => VLong n
  | CDouble bits => VDouble (f64_of_bits bits)
  | _ => VOther (const_other c)
  end.

(** * Compiled code *)

Abbreviation raws := (gmap VarId (Raw X)).

Definition on_i64 (g : Z -> Z -> Z) (a b : option (Raw X)) : option (Raw X) :=
  match a, b with
  | Some (RawI64 x), Some (RawI64 y) => Some (RawI64 (g x y))
  | _, _ => None
  end.

Definition on_f64 (g : f64 -> f64 -> f64) (a b : option (Raw X)) : option (Raw X) :=
  match a, b with
  | Some (RawF64 x), Some (RawF64 y) => Some (RawF64 (g x y))
  | _, _ => None
  end.

Fixpoint eval (r : raws) (res : option (Raw X)) (e : Expr) : option (Raw X) :=
  match e with
  | XVar v => r !! v
  | XResult => res
  | XIconst n => Some (RawI64 n)
  | XIconst8 n => Some (RawI8 n)
  | XF64const bits => Some (RawF64 (f64_of_bits bits))
  | XIadd a b => on_i64 iadd (eval r res a) (eval r res b)
  | XIsub a b => on_i64 isub (eval r res a) (eval r res b)
  | XImul a b => on_i64 imul (eval r res a) (eval r res b)
  | XSmulhi a b => on_i64 smulhi (eval r res a) (eval r res b)
  | XSshrImm a n => on_i64 sshr_imm (eval r res a) (Some (RawI64 n))
  | XBxor a b => on_i64 bxor (eval r res a) (eval r res b)
  | XBand a b => on_i64 band (eval r res a) (eval r res b)
  | XIcmp cc a b =>
      match eval r res a, eval r res b with
      | Some (RawI64 x), Some (RawI64 y) => Some (RawI8 (Z.b2z (icmp cc x y)))
      | _, _ => None
      end
  | XIcmpImm cc a n =>
      match eval r res a with
      | Some (RawI64 x) => Some (RawI8 (Z.b2z (icmp cc x n)))
      | _ => None
      end
  | XFcvtFromSint a => match eval r res a with Some (RawI64 x) => Some (RawF64 (fcvt_from_sint x)) | _ => None end
  | XFadd a b => on_f64 fadd (eval r res a) (eval r res b)
  | XFsub a b => on_f64 fsub (eval r res a) (eval r res b)
  | XFmul a b => on_f64 fmul (eval r res a) (eval r res b)
  | XFdiv a b => on_f64 fdiv (eval r res a) (eval r res b)
  | XFcmp cc a b =>
      match eval r res a, eval r res b with
      | Some (RawF64 x), Some (RawF64 y) => Some (RawI8 (Z.b2z (fcmp cc x y)))
      | _, _ => None
      end
  | XConstLong a => match eval r res a with Some (RawI64 n) => Some (RawPtr (VLong n)) | _ => None end
  | XConstDouble a => match eval r res a with Some (RawF64 d) => Some (RawPtr (VDouble d)) | _ => None end
  | XBoxBool a => match eval r res a with Some (RawI8 b) => Some (RawPtr (rt_box_bool b)) | _ => None end
  | XConst c => Some (RawPtr (const_value c))
  | XTruthiness a => match eval r res a with Some (RawPtr v) => Some (RawI8 (rt_truthiness v)) | _ => None end
  end.

(** How a compiled function ends: it returns a boxed value, deoptimises, or
    panics in a bridge; [NStuck] is code that reads a register of another type
    or one that was never written. *)
Inductive NResult : Type :=
| NReturned (v : RtValue X) (h : H)
| NDeopt
| NPanicked
| NStuck.

Definition as_ptr (x : Raw X) : option (RtValue X) := match x with RawPtr v => Some v | _ => None end.

Definition call_runtime (fn : RtFn) (args : list (Raw X)) (h : H) : NResult + (Raw X * H) :=
  match fn with
  | RtArray a => inr (host_array a args h)
  | _ =>
      match mapM as_ptr args with
      | None => inl NStuck
      | Some xs =>
          match fn with
          | RtKnown k =>
              match bridge k, xs with
              | Some g, [a; b] =>
                  match g a b with
                  | BValue v => inr (RawPtr v, h)
                  | BOverflow => inr (RawPtr VNil, rt_throw (VOther overflow_error) h)
                  | BPanic => inl NPanicked
                  end
              | _, _ => let '(v, h') := host_known k xs h in inr (RawPtr v, h')
              end
          | RtInst i => let '(v, h') := host_inst i xs h in inr (RawPtr v, h')
          | _ => inr (RawPtr VNil, match xs with x :: _ => rt_throw x h | [] => h end)
          end
      end
  end.

Abbreviation machine := (raws * option (Raw X) * H)%type.

Definition exec_stmt (s : Stmt) (m : machine) : NResult + machine :=
  let '(r, res, h) := m in
  match s with
  | SDef v e => match eval r res e with Some x => inr (<[v := x]> r, res, h) | None => inl NStuck end
  | SCall fn args =>
      match mapM (eval r res) args with
      | None => inl NStuck
      | Some xs =>
          match call_runtime fn xs h with
          | inl e => inl e
          | inr (x, h') => inr (r, Some x, h')
          end
      end
  | SGas cost =>
      let '(charged, h') := gas_charge cost h in
      if charged : bool then inr (r, res, h') else inl (NReturned VNil h')
  | SThrowOverflow cond =>
      match eval r res cond with
      | Some (RawI8 b) => if b =? 0 then inr m else inl (NReturned VNil (rt_throw (VOther overflow_error) h))
      | _ => inl NStuck
      end
  | SSafepoint => inr m
  end.

Fixpoint exec_stmts (ss : list Stmt) (m : machine) : NResult + machine :=
  match ss with
  | [] => inr m
  | s :: ss' => match exec_stmt s m with inl e => inl e | inr m' => exec_stmts ss' m' end
  end.

Definition find_nblock (bs : list NBlock) (b : BlockId) : option NBlock := List.find (fun nb => nb_id nb =? b) bs.

(** Leaving a block: [next] goes on with the arguments of the edge.  The
    arguments of the edge that is not taken have no effect. *)
Definition run_term (next : BlockId -> list (Raw X) -> option NResult) (t : NTerm) (m : machine) : option NResult :=
  let '(r, res, h) := m in
  let jump b args :=
    match mapM (eval r res) args with
    | Some xs => next b xs
    | None => Some NStuck
    end in
  match t with
  | NReturn e => Some match eval r res e with Some (RawPtr v) => NReturned v h | _ => NStuck end
  | NJump b args => jump b args
  | NBrif c b args b' args' =>
      match eval r res c with
      | Some (RawI8 x) => if x =? 0 then jump b' args' else jump b args
      | _ => Some NStuck
      end
  end.

(** Running from a block with its arguments: [None] if the fuel does not
    suffice. *)
Fixpoint run_blocks (fuel : nat) (bs : list NBlock) (b : BlockId) (args : list (Raw X)) (r : raws) (h : H) : option NResult :=
  match fuel with
  | O => None
  | S n =>
      match find_nblock bs b with
      | None => Some NStuck
      | Some nb =>
          if decide (length args = length (nb_params nb)) then
            match exec_stmts (nb_body nb) (write_all (nb_params nb) args r, None, h) with
            | inl e => Some e
            | inr (r', res, h') => run_term (fun b' xs => run_blocks n bs b' xs r' h') (nb_term nb) (r', res, h')
            end
          else Some NStuck
      end
  end.

(** The guards of the prologue, on the arguments. *)
Fixpoint run_guards (gs : list Guard) (args : list (RtValue X)) (r : raws) : option raws :=
  match gs, args with
  | [], _ => Some r
  | g :: gs', x :: args' =>
      match g with
      | GuardLong v =>
          if rt_value_tag x =? TAG_LONG then run_guards gs' args' (<[v := RawI64 (rt_unbox_long x)]> r) else None
      | GuardDouble v =>
          if rt_value_tag x =? TAG_DOUBLE then run_guards gs' args' (<[v := RawF64 (rt_unbox_double x)]> r) else None
      | Bind v => run_guards gs' args' (<[v := RawPtr x]> r)
      end
  | _ :: _, [] => Some r
  end.

Definition run_native (fuel : nat) (nf : NativeFn) (args : list (RtValue X)) (h : H) : option NResult :=
  match nf_prologue nf with
  | Some gs =>
      match run_guards gs args ∅ with
      | None => Some NDeopt
      | Some r => run_blocks fuel (nf_blocks nf) (nf_entry nf) [] r h
      end
  | None => run_blocks fuel (nf_blocks nf) (nf_entry nf) (map RawPtr args) ∅ h
  end.

(** * Boxed values throughout *)

Inductive BoxedResult : Type :=
| BReturned (v : RtValue X) (h : H)
| BOverflowed (d : VarId) (h : H)
| BPanicked
| BUndefined.

(** An instruction that has no code of its own. *)
Definition is_silent (i : Inst) : bool := match i with IPhi _ _ | IRecur _ | ISourceLoc _ => true | _ => false end.

Definition is_call (i : Inst) : bool :=
  match i with ICallKnown _ _ _ | ICall _ _ _ | ICallDirect _ _ _ | ICallWithRegion _ _ _ _ => true | _ => false end.

(** The exception of an overflow ends the function. *)
Definition boxed_exec (i : Inst) (xs : list (RtValue X)) (h : H) : BoxedResult + (RtValue X * H) :=
  match i with
  | IConst _ c => inr (const_value c, h)
  | ICallKnown d k _ =>
      match bridge k, xs with
      | Some g, [a; b] =>
          match g a b with
          | BValue v => inr (v, h)
          | BOverflow => inl (BOverflowed d h)
          | BPanic => inl BPanicked
          end
      | _, _ => inr (host_known k xs h)
      end
  | IThrow _ => inr (VNil, match xs with x :: _ => rt_throw x h | [] => h end)
  | _ => inr (host_inst i xs h)
  end.

Abbreviation values := (gmap VarId (RtValue X)).

(** Running out of credits returns nil. *)
Definition charged (cost : Z) (h : H) : BoxedResult + H :=
  let '(ok, h') := gas_charge cost h in if ok : bool then inr h' else inl (BReturned VNil h').

Definition boxed_step (i : Inst) (r : values) (h : H) : BoxedResult + (values * H) :=
  if is_silent i then inr (r, h)
  else
    match read_all r (uses i) with
    | None => inl BUndefined
    | Some xs =>
        match boxed_exec i xs h with
        | inl e => inl e
        | inr (x, h1) =>
            match (if is_call i then charged 0 h1 else inr h1) with
            | inl e => inl e
            | inr h2 => inr (set_dst i x r, h2)
            end
        end
    end.

Fixpoint boxed_seq (is_ : list Inst) (r : values) (h : H) : BoxedResult + (values * H) :=
  match is_ with
  | [] => inr (r, h)
  | i :: is' =>
      match boxed_step i r h with
      | inl e => inl e
      | inr (r', h') => boxed_seq is' r' h'
      end
  end.

Definition boxed_body (blk : Block) (st : BlockId * values * H) : BoxedResult + (BlockId * values * H) :=
  match enter st.1.1 (phis blk) st.1.2 with
  | None => inl BUndefined
  | Some r =>
      match charged (block_cost blk) st.2 with
      | inl e => inl e
      | inr h =>
          match boxed_seq (insts blk) r h with
          | inl e => inl e
          | inr (r', h') => inr (block_id blk, r', h')
          end
      end
  end.

#[export] Instance boxed_machine : Machine (BlockId * values * H) BoxedResult := {|
  run_body := boxed_body;
  test c st := match st.1.2 !! c with None => inl BUndefined | Some x => inr (negb (rt_truthiness x =? 0)) end;
  return_value v st := match st.1.2 !! v with None => BUndefined | Some x => BReturned x st.2 end;
  trap st := BReturned VNil st.2
|}.

End Semantics.
