(* ===== verification/NativeSpec.v ===== *)
(** Compiled code computes what the bridges compute on boxed values: one
    operation at a time, then whole functions.

    Whole functions: compiled code follows the boxed function, block by
    block. *)
From Stdlib Require Import SpecFloat.
From stdpp Require Import gmap strings.
From S2P Require Import Prelude RustStd Token Ir Reloop ReloopSem ReloopGraph IrInterp Osr OsrSem NativeOps TypeInfer NativeCode NativeSem.
Local Open Scope Z_scope.

Section Spec.
Context {X H : Type} `{OtherEq X} `{Clif} `{NativeHost X H}.

(** * Representations *)

(** The register that holds a value in a representation. *)
Definition unbox (r : Repr) (x : RtValue X) : option (Raw X) :=
  match r, x with
  | RBoxed, _ => Some (RawPtr x)
  | RLong, VLong n => if in_range i64_min i64_max n then Some (RawI64 n) else None
  | RDouble, VDouble d => Some (RawF64 d)
  | RBool, VBool b => Some (RawI8 (Z.b2z b))
  | _, _ => None
  end.

Lemma unbox_long x y : unbox RLong x = Some y <-> exists n, is_i64 n /\ x = VLong n /\ y = RawI64 n.
Proof.
  destruct x; simpl; try (split; [done|by intros (? & ? & ? & ?)]).
  destruct (in_range i64_min i64_max n) eqn:Hn; [apply in_range_true in Hn|].
  - split; [intros [= <-]; by exists n | by intros (? & ? & [= <-] & ->)].
  - split; [done|]. intros (m & Hm & [= <-] & _). apply in_range_true in Hm. congruence.
Qed.

Section Analysis.
Context (lat : lattice).

Definition reprs : gmap VarId Repr := omap (M := gmap VarId) unboxed lat.

Lemma repr_of_get v r : get lat v = Some r -> repr_of reprs v = r.
Proof.
  unfold get, repr_of, reprs. rewrite lookup_omap. destruct (lat !! v) as [[r'|]|]; simpl; intros [= ->]. by destruct r.
Qed.

Abbreviation values := (gmap VarId (RtValue X)).
Abbreviation raws := (gmap VarId (Raw X)).

(** A register agrees with a value, in the representation of its variable. *)
Definition holds (v : VarId) (x : RtValue X) (y : Raw X) : Prop := exists r, get lat v = Some r /\ unbox r x = Some y.

Definition agree (rb : values) (rn : raws) : Prop :=
  forall v x, rb !! v = Some x -> exists y, rn !! v = Some y /\ holds v x y.

Lemma holds_boxed v x : Some RBoxed ⊑ get lat v -> holds v x (RawPtr x).
Proof. intros [Hg|Hg]%le_some; by exists RBoxed. Qed.

Lemma agree_insert rb rn v x y : agree rb rn -> holds v x y -> agree (<[v := x]> rb) (<[v := y]> rn).
Proof.
  intros Ha Hh w z. destruct (decide (w = v)) as [->|Hne].
  - rewrite !lookup_insert_eq. intros [= <-]. eauto.
  - rewrite !lookup_insert_ne by done. apply Ha.
Qed.

Lemma agree_empty : agree ∅ ∅.
Proof. intros v x. by rewrite lookup_empty. Qed.

(** ** Reading variables *)

Lemma eval_boxed rb rn res v x :
  agree rb rn -> rb !! v = Some x -> eval rn res (use_var_boxed reprs v) = Some (RawPtr x).
Proof.
  intros Ha (y & Hy & r & Hg & Hu)%Ha. unfold use_var_boxed. rewrite (repr_of_get _ _ Hg).
  destruct r, x; simpl in *; simplify_eq; rewrite ?Hy; try done.
  - case_match; by simplify_eq.
  - by destruct b.
Qed.

Lemma eval_boxed_all rb rn res vs xs :
  agree rb rn -> read_all rb vs = Some xs ->
  mapM (eval rn res) (map (use_var_boxed reprs) vs) = Some (map RawPtr xs).
Proof.
  intros Ha. revert xs. induction vs as [|v vs IH]; intros xs; cbn; [by intros [= <-]|].
  destruct (rb !! v) as [x|] eqn:Hv; [|done]. cbn. unfold read_all in IH.
  destruct (mapM (fun v => rb !! v) vs) as [ys|] eqn:Hm; [|done]. cbn. intros [= <-].
  rewrite (eval_boxed _ _ _ _ _ Ha Hv). cbn. by rewrite (IH ys eq_refl).
Qed.

Lemma as_ptr_all (xs : list (RtValue X)) : mapM as_ptr (map RawPtr xs) = Some xs.
Proof. induction xs as [|x xs IH]; [done|]. cbn. by rewrite IH. Qed.

Lemma read_all_two (rb : values) a b xs :
  read_all rb [a; b] = Some xs <-> exists x y, rb !! a = Some x /\ rb !! b = Some y /\ xs = [x; y].
Proof.
  unfold read_all. cbn. destruct (rb !! a) as [x|], (rb !! b) as [y|]; cbn; split; try done;
    try (by intros (? & ? & ? & ? & ?)).
  - intros [= <-]. eauto.
  - by intros (? & ? & [= <-] & [= <-] & ->).
Qed.

(** Numbers promoted to a double. *)
Definition to_f64 (x : RtValue X) : option f64 :=
  match x with
  | VLong n => Some (f64_of_i64 n)
  | VDouble d => Some d
  | _ => None
  end.

Lemma eval_f64 rn res v r x y :
  get lat v = Some r -> is_number r = true -> unbox r x = Some y -> rn !! v = Some y ->
  exists e d, use_var_f64 reprs v = Ok e /\ eval rn res e = Some (RawF64 d) /\ to_f64 x = Some d.
Proof.
  intros Hg Hr Hu Hy. unfold use_var_f64. rewrite (repr_of_get _ _ Hg). destruct r; try done.
  - apply unbox_long in Hu as (n & Hn & -> & ->). eexists _, _. split; [done|]. simpl. rewrite Hy.
    split; [done|]. by rewrite fcvt_ieee.
  - destruct x; simpl in Hu; simplify_eq. eexists _, _. split; [done|]. done.
Qed.

(** ** Phi arguments *)

Lemma eval_coerce rb rn res v d x :
  agree rb rn -> rb !! v = Some x -> get lat v ⊑ get lat d ->
  exists e y, coerce_to reprs v (repr_of reprs d) = Ok e /\ eval rn res e = Some y /\ holds d x y.
Proof.
  intros Ha Hv Hle. pose proof (eval_boxed _ _ res _ _ Ha Hv) as Hb.
  destruct (Ha _ _ Hv) as (y & Hy & r & Hg & Hu). rewrite Hg in Hle. unfold coerce_to.
  destruct (le_some _ _ Hle) as [Hd|Hd]; rewrite (repr_of_get _ _ Hd), (repr_of_get _ _ Hg).
  - rewrite decide_True by done. exists (XVar v), y. split_and!; [done|done|]. by exists r.
  - case_decide as Hr.
    + subst. exists (XVar v), y. split_and!; [done|done|]. by exists RBoxed.
    + rewrite decide_True by done. exists (use_var_boxed reprs v), (RawPtr x). split_and!; [done|done|]. by exists RBoxed.
Qed.

(** ** Arithmetic and comparison *)

(** The value of an expression after statements that leave the registers
    alone, or the overflow exception, as the bridge decides. *)
Definition computes (r : Repr) (rn : raws) (code : list Stmt * Expr) (b : Bridge X) : Prop :=
  forall res h,
  match b with
  | BValue v => exec_stmts code.1 (rn, res, h) = inr (rn, res, h) /\ exists z, eval rn res code.2 = Some z /\ unbox r v = Some z
  | BOverflow => exec_stmts code.1 (rn, res, h) = inl (NReturned VNil (rt_throw (VOther overflow_error) h))
  | BPanic => False
  end.

Lemma unbox_wrapped n : unbox RLong (VLong (wrap_i64 n)) = Some (RawI64 (wrap_i64 n)).
Proof. apply unbox_long. eauto using wrap_i64_range. Qed.

(** A checked operation whose flag is the overflow of the exact result. *)
Lemma computes_checked rn ovf sum n :
  (forall res, eval rn res ovf = Some (RawI8 (Z.b2z (negb (in_range i64_min i64_max n))))) ->
  (forall res, eval rn res sum = Some (RawI64 (wrap_i64 n))) ->
  computes RLong rn ([SThrowOverflow ovf], sum) (checked_i64 n).
Proof.
  intros Ho Hs res h. cbn. rewrite Ho. unfold checked_i64. destruct (in_range _ _ n) eqn:Hn; cbn; [|done].
  split; [done|]. eexists. split; [apply Hs|]. rewrite Hn, wrap_i64_id; [done|]. by apply in_range_true.
Qed.

Lemma computes_checked_long k rn a b x y g :
  rn !! a = Some (RawI64 x) -> rn !! b = Some (RawI64 y) -> is_i64 x -> is_i64 y ->
  (k = KAdd \/ k = KSub \/ k = KMul) -> bridge k = Some g ->
  exists code, emit_unboxed_known reprs RLong k a b = Ok code /\ computes RLong rn code (g (VLong x) (VLong y)).
Proof.
  intros Ha Hb Hx Hy [-> | [-> | ->]] [= <-]; (eexists; split; [reflexivity|]); apply computes_checked; intros res; cbn;
    rewrite Ha, Hb; cbn; repeat f_equal.
  - by apply add_overflows.
  - by apply iadd_wraps.
  - by apply sub_overflows.
  - by apply isub_wraps.
  - by apply mul_overflows.
  - by apply imul_wraps.
Qed.

Lemma computes_pure r rn e v z :
  (forall res, eval rn res e = Some z) -> unbox r v = Some z -> computes r rn ([], e) (BValue v).
Proof. intros He Hu res h. split; [done|]. eauto. Qed.

Lemma computes_wrapping_long k rn a b x y g :
  rn !! a = Some (RawI64 x) -> rn !! b = Some (RawI64 y) -> is_i64 x -> is_i64 y ->
  (k = KUncheckedAdd \/ k = KUncheckedSub \/ k = KUncheckedMul) -> bridge k = Some g ->
  exists code, emit_unboxed_known reprs RLong k a b = Ok code /\ computes RLong rn code (g (VLong x) (VLong y)).
Proof.
  intros Ha Hb Hx Hy Hk Hg. destruct Hk as [-> | [-> | ->]]; injection Hg as <-; (eexists; split; [reflexivity|]);
    (eapply computes_pure; [intros res; cbn; rewrite Ha, Hb; reflexivity|]).
  - rewrite iadd_wraps by done. apply unbox_wrapped.
  - rewrite isub_wraps by done. apply unbox_wrapped.
  - rewrite imul_wraps by done. apply unbox_wrapped.
Qed.

(** A bridge on two numbers that are not both longs works on their doubles. *)
Definition float_op (k : KnownFn) : option (f64 -> f64 -> RtValue X) :=
  match k with
  | KAdd | KUncheckedAdd => Some (fun p q => VDouble (f64_add p q))
  | KSub | KUncheckedSub => Some (fun p q => VDouble (f64_sub p q))
  | KMul | KUncheckedMul => Some (fun p q => VDouble (f64_mul p q))
  | KDiv => Some (fun p q => VDouble (f64_div p q))
  | KLt => Some (fun p q => VBool (SFltb p q))
  | KGt => Some (fun p q => VBool (SFltb q p))
  | KLte => Some (fun p q => VBool (SFleb p q))
  | KGte => Some (fun p q => VBool (SFleb q p))
  | _ => None
  end.

Lemma bridge_float k g o x y p q :
  bridge k = Some g -> float_op k = Some o -> to_f64 x = Some p -> to_f64 y = Some q ->
  (forall m n, x = VLong m -> y = VLong n -> False) -> g x y = BValue (o p q).
Proof.
  intros Hg Ho Hx Hy Hn. destruct x; try done; destruct y; try done; [by exfalso; eapply Hn|..];
    injection Hx as <-; injection Hy as <-; destruct k; try done; injection Hg as <-; injection Ho as <-; reflexivity.
Qed.

Lemma computes_float k r rn a b ra rb x y p q g :
  get lat a = Some ra -> get lat b = Some rb -> rn !! a = Some p -> rn !! b = Some q ->
  unbox ra x = Some p -> unbox rb y = Some q -> is_number ra = true -> is_number rb = true ->
  (ra = RLong -> rb = RLong -> False) -> bridge k = Some g -> is_Some (float_op k) ->
  known_repr k (Some ra) (Some rb) = Some r -> r <> RBoxed ->
  exists code, emit_unboxed_known reprs r k a b = Ok code /\ computes r rn code (g x y).
Proof.
  intros Hga Hgb Ha Hb Hp Hq Hna Hnb Hmix Hg [o Ho] Hk Hr.
  destruct (eval_f64 rn None a ra x p Hga Hna Hp Ha) as (ea & da & Hua & _ & Hxa).
  destruct (eval_f64 rn None b rb y q Hgb Hnb Hq Hb) as (eb & db & Hub & _ & Hyb).
  rewrite (bridge_float k g o x y da db Hg Ho Hxa Hyb).
  2:{ intros m n -> ->. apply Hmix; [destruct ra|destruct rb]; done. }
  assert (Hea : forall res, eval rn res ea = Some (RawF64 da)).
  { intros res. destruct (eval_f64 rn res a ra x p Hga Hna Hp Ha) as (e & d & ? & ? & ?). congruence. }
  assert (Heb : forall res, eval rn res eb = Some (RawF64 db)).
  { intros res. destruct (eval_f64 rn res b rb y q Hgb Hnb Hq Hb) as (e & d & ? & ? & ?). congruence. }
  assert (Hlong : bool_decide (repr_of reprs a = RLong) && bool_decide (repr_of reprs b = RLong) = false).
  { rewrite (repr_of_get _ _ Hga), (repr_of_get _ _ Hgb). destruct ra, rb; try done. by exfalso; apply Hmix. }
  assert (Hcode : r = RDouble \/ r = RBool).
  { destruct k; try done; destruct ra, rb; try done; simpl in Hk; simplify_eq; auto; by exfalso; apply Hmix. }
  destruct Hcode as [-> | ->]; destruct k; try done;
    try (destruct ra, rb; done);
    (eexists; split; [cbn; rewrite ?Hlong, Hua, Hub; reflexivity|]);
    simpl in Ho; simplify_eq;
    (eapply computes_pure; [intros res; cbn; rewrite Hea, Heb; reflexivity|]).
  all: rewrite ?fadd_ieee, ?fsub_ieee, ?fmul_ieee, ?fdiv_ieee, ?fcmp_ordered; done.
Qed.

Definition compares (k : KnownFn) : option (Z -> Z -> bool) :=
  match k with
  | KLt => Some Z.ltb
  | KGt => Some (fun x y => y <? x)
  | KLte => Some Z.leb
  | KGte => Some (fun x y => y <=? x)
  | KEq => Some Z.eqb
  | _ => None
  end.

Lemma computes_compare_long k rn a b x y c :
  get lat a = Some RLong -> get lat b = Some RLong ->
  rn !! a = Some (RawI64 x) -> rn !! b = Some (RawI64 y) -> is_i64 x -> is_i64 y -> compares k = Some c ->
  exists code, emit_unboxed_known reprs RBool k a b = Ok code /\ computes RBool rn code (BValue (VBool (c x y))).
Proof.
  intros Hga Hgb Ha Hb Hx Hy Hc.
  destruct k; try done; injection Hc as <-; eexists;
    (split; [cbn; rewrite ?(repr_of_get _ _ Hga), ?(repr_of_get _ _ Hgb); reflexivity|]);
    (eapply computes_pure; [intros res; cbn; rewrite Ha, Hb; reflexivity|]);
    rewrite icmp_signed by done; reflexivity.
Qed.

(** Two longs: exact arithmetic, wrapping arithmetic or a comparison. *)
Lemma computes_longs k r rn a b x y :
  get lat a = Some RLong -> get lat b = Some RLong ->
  rn !! a = Some (RawI64 x) -> rn !! b = Some (RawI64 y) -> is_i64 x -> is_i64 y ->
  k <> KCaseEq -> known_repr k (Some RLong) (Some RLong) = Some r -> r <> RBoxed ->
  exists g code, bridge k = Some g /\ emit_unboxed_known reprs r k a b = Ok code /\
    computes r rn code (g (VLong x) (VLong y)).
Proof.
  intros Hga Hgb Ha Hb Hx Hy Hne Hk Hr.
  destruct k; try done; injection Hk as <-; try done.
  1-3: match goal with |- context [emit_unboxed_known _ _ ?k _ _] =>
    destruct (computes_checked_long k rn a b x y _ Ha Hb Hx Hy ltac:(auto) eq_refl) as (code & ? & ?); eauto end.
  1-3: match goal with |- context [emit_unboxed_known _ _ ?k _ _] =>
    destruct (computes_wrapping_long k rn a b x y _ Ha Hb Hx Hy ltac:(auto) eq_refl) as (code & ? & ?); eauto end.
  all: match goal with |- context [emit_unboxed_known _ _ ?k _ _] =>
    destruct (computes_compare_long k rn a b x y _ Hga Hgb Ha Hb Hx Hy eq_refl) as (code & ? & ?); eauto end.
Qed.

(** Only numbers are operated on unboxed. *)
Lemma known_repr_numbers k ra rb r :
  known_repr k (Some ra) (Some rb) = Some r -> r <> RBoxed -> k <> KCaseEq -> is_array_fn k = false ->
  is_number ra = true /\ is_number rb = true.
Proof.
  intros Hk Hr Hne Harr.
  assert (Hn : forall l, Some r = l -> (is_number ra && is_number rb = false -> l = Some RBoxed) ->
    is_number ra = true /\ is_number rb = true).
  { intros l Hl Hb. apply andb_true_iff. destruct (_ && _); [done|]. rewrite Hb in Hl by done. congruence. }
  destruct k; try done; try (injection Hk as <-; done);
    (eapply Hn; [symmetry; exact Hk|]); by destruct ra, rb.
Qed.

Lemma computes_known k r rn a b ra rb x y p q :
  get lat a = Some ra -> get lat b = Some rb -> rn !! a = Some p -> rn !! b = Some q ->
  unbox ra x = Some p -> unbox rb y = Some q ->
  k <> KCaseEq -> is_array_fn k = false -> known_repr k (Some ra) (Some rb) = Some r -> r <> RBoxed ->
  exists g code, bridge k = Some g /\ emit_unboxed_known reprs r k a b = Ok code /\ computes r rn code (g x y).
Proof.
  intros Hga Hgb Ha Hb Hp Hq Hne Harr Hk Hr.
  destruct (decide (ra = RLong /\ rb = RLong)) as [[-> ->]|Hmix].
  - apply unbox_long in Hp as (m & Hm & -> & ->). apply unbox_long in Hq as (n & Hn & -> & ->). by apply computes_longs.
  - assert (Hfl : is_number ra = true /\ is_number rb = true /\ is_Some (float_op k) /\ is_Some (bridge k)).
    { destruct (known_repr_numbers k ra rb r Hk Hr Hne Harr) as [Hna Hnb].
      destruct k; try (injection Hk as <-; done); split_and!; try done; eauto.
      all: destruct ra, rb; try done; try (injection Hk as <-; done); by exfalso; apply Hmix. }
    destruct Hfl as (Hna & Hnb & Hfo & [g Hg]). exists g.
    destruct (computes_float k r rn a b ra rb x y p q g) as (code & ? & ?); eauto.
Qed.

End Analysis.
End Spec.

(** * The functions the theorem is about *)

Definition is_case_eq (k : KnownFn) : bool := match k with KCaseEq => true | _ => false end.

Definition has_bridge (k : KnownFn) : bool :=
  match k with
  | KAdd | KSub | KMul | KUncheckedAdd | KUncheckedSub | KUncheckedMul | KDiv | KRem | KEq | KLt | KGt | KLte | KGte => true
  | _ => false
  end.

(** Instructions other than the ones on arrays, regions and suspended
    computations; [case=] is not compiled (see [case_eq_not_compiled]). *)
Definition native_inst (i : Inst) : bool :=
  match i with
  | IConst _ (CLong n) => in_range i64_min i64_max n
  | IConst _ _ | ILoadGlobal _ _ _ | ILoadVar _ _ _ | IAllocVector _ _ | IAllocMap _ _ | IAllocSet _ _ | IAllocList _ _
  | IAllocCons _ _ _ | ICall _ _ _ | ICallDirect _ _ _ | IDeref _ _ | IDefVar _ _ _ _ | ISetBang _ _ | IThrow _
  | IRecur _ | ISourceLoc _ => true
  | IAllocClosure _ t _ => negb (bool_decide (arity_fn_names t = []))
  | ICallKnown _ k args =>
      negb (is_array_fn k) && negb (is_case_eq k) && (negb (has_bridge k) || (length args =? 2)%nat)
  | _ => false
  end.

Section Run.
Context {X H : Type} `{OtherEq X} `{Clif} `{NativeHost X H}.
Context (lat : lattice) (user_funcs : list Z -> bool).
Abbreviation reprs := (reprs lat).
Abbreviation values := (gmap VarId (RtValue X)).
Abbreviation raws := (gmap VarId (Raw X)).
Abbreviation machine := (raws * option (Raw X) * H)%type.

Lemma has_bridge_spec k : has_bridge k = false -> bridge (X := X) k = None.
Proof. by destruct k. Qed.

Lemma exec_stmts_app ss1 ss2 (m : machine) :
  exec_stmts (ss1 ++ ss2) m = match exec_stmts ss1 m with inl e => inl e | inr m' => exec_stmts ss2 m' end.
Proof. revert m. induction ss1 as [|s ss1 IH]; intros m; simpl; [done|]. destruct (exec_stmt s m); auto. Qed.

(** * Simulation *)

(** Native code does what the boxed machine does; of an overflow in a boxed
    operation nothing is said. *)
Definition sim {A M : Type} (R : A -> M -> Prop) (b : BoxedResult + A) (n : NResult (X := X) (H := H) + M) : Prop :=
  match b with
  | inr a => exists m, n = inr m /\ R a m
  | inl (BReturned v h) => n = inl (NReturned v h)
  | inl (BOverflowed d h) => repr_of reprs d = RBoxed \/ n = inl (NReturned VNil (rt_throw (VOther overflow_error) h))
  | inl BPanicked => n = inl NPanicked
  | inl BUndefined => True
  end.

Definition same (b : values * H) (m : machine) : Prop := agree lat b.1 m.1.1 /\ b.2 = m.2.

(** A value is bound to a variable. *)
Lemma sim_def d e (rb : values) (rn : raws) res h x y :
  agree lat rb rn -> eval rn res e = Some y -> holds lat d x y -> sim same (inr (<[d := x]> rb, h)) (exec_stmts [SDef d e] (rn, res, h)).
Proof. intros Ha He Hh. cbn. rewrite He. eexists. split; [done|]. split; [by apply agree_insert|done]. Qed.

Definition after_call (call : bool) (d : VarId) (x : RtValue X) (rb : values) (h : H) : BoxedResult + (values * H) :=
  match (if call then charged 0 h else inr h) with inl e => inl e | inr h' => inr (<[d := x]> rb, h') end.

Definition bind_value (call : bool) (d : VarId) (v : list Stmt * Expr) : list Stmt :=
  if call then bind_call d v else bind_dst d v.

(** Code that leaves the registers alone, then the binding of its value. *)
Lemma sim_bind (call : bool) d (rb : values) (rn : raws) code m h h' x y res :
  agree lat rb rn -> exec_stmts code.1 m = inr (rn, res, h') -> eval rn res code.2 = Some y -> holds lat d x y -> h = h' ->
  sim same (after_call call d x rb h) (exec_stmts (bind_value call d code) m).
Proof.
  intros Ha Hc He Hh ->. unfold bind_value, bind_call, bind_dst, after_call, charged. destruct call.
  - rewrite exec_stmts_app, Hc. cbn [exec_stmts exec_stmt]. destruct (gas_charge 0 h') as [[] h2]; [|done].
    by eapply sim_def.
  - rewrite exec_stmts_app, Hc. by eapply sim_def.
Qed.

Lemma exec_call fn vs (rb : values) (rn : raws) res h xs :
  agree lat rb rn -> read_all rb vs = Some xs ->
  exec_stmts [SCall fn (map (use_var_boxed reprs) vs)] (rn, res, h) =
    match call_runtime fn (map RawPtr xs) h with inl e => inl e | inr (x, h') => inr (rn, Some x, h') end.
Proof.
  intros Ha Hr. cbn [exec_stmts exec_stmt]. rewrite (eval_boxed_all lat _ _ _ _ _ Ha Hr).
  by destruct (call_runtime _ _ _) as [|[]].
Qed.

(** A runtime function of the instruction, with or without a gas check. *)
Lemma sim_runtime (call : bool) i d (rb : values) (rn : raws) res h :
  agree lat rb rn -> dst i = Some d -> Some RBoxed ⊑ get lat d -> is_silent i = false -> is_call i = call ->
  (forall xs, boxed_exec i xs h = inr (host_inst i xs h)) ->
  sim same (boxed_step i rb h) (exec_stmts (bind_value call d (runtime reprs i)) (rn, res, h)).
Proof.
  intros Ha Hd Hle Hs Hc He. unfold boxed_step. rewrite Hs, Hc. destruct (read_all rb (uses i)) as [xs|] eqn:Hr; [|done].
  rewrite He. destruct (host_inst i xs h) as [x h1] eqn:Hi. unfold set_dst. rewrite Hd.
  apply (sim_bind call d rb rn _ _ _ h1 x (RawPtr x) (Some (RawPtr x))); [done| |done|by apply holds_boxed|done].
  unfold runtime, NativeCode.call. cbn [fst]. rewrite (exec_call _ _ _ _ _ _ _ Ha Hr). cbn [call_runtime].
  by rewrite as_ptr_all, Hi.
Qed.

(** ** Known functions *)

(** The call of a bridge on boxed arguments. *)
Lemma sim_known_boxed d k args (rb : values) (rn : raws) res h :
  agree lat rb rn -> get lat d = Some RBoxed ->
  sim same (boxed_step (ICallKnown d k args) rb h)
    (exec_stmts (bind_call d (call (RtKnown k) (map (use_var_boxed reprs) args))) (rn, res, h)).
Proof.
  intros Ha Hd. unfold boxed_step. cbn [is_silent uses is_call boxed_exec].
  destruct (read_all rb args) as [xs|] eqn:Hr; [|done].
  assert (Hx : exec_stmts [SCall (RtKnown k) (map (use_var_boxed reprs) args)] (rn, res, h) =
    match call_runtime (RtKnown k) (map RawPtr xs) h with inl e => inl e | inr (x, h') => inr (rn, Some x, h') end)
    by by apply (exec_call _ _ rb).
  cbn [call_runtime] in Hx. rewrite as_ptr_all in Hx.
  assert (Hb : forall x h', exec_stmts [SCall (RtKnown k) (map (use_var_boxed reprs) args)] (rn, res, h) = inr (rn, Some (RawPtr x), h') ->
    sim same (after_call true d x rb h') (exec_stmts (bind_call d (call (RtKnown k) (map (use_var_boxed reprs) args))) (rn, res, h))).
  { intros x h' Hc. apply (sim_bind true d rb rn (call (RtKnown k) (map (use_var_boxed reprs) args)) _ _ h' x (RawPtr x) (Some (RawPtr x)));
      [done|exact Hc|done|by exists RBoxed|done]. }
  assert (Hother : match bridge k, xs with Some g, [_; _] => True | _, _ =>
    sim same (match host_known k xs h with (x, h1) => after_call true d x rb h1 end)
      (exec_stmts (bind_call d (call (RtKnown k) (map (use_var_boxed reprs) args))) (rn, res, h)) end).
  { destruct (host_known k xs h) as [x h1]. destruct (bridge k) as [g|], xs as [|a [|b [|]]]; try exact I; by apply Hb. }
  destruct (bridge k) as [g|] eqn:Hg, xs as [|a [|b [|c xs]]];
    try (destruct (host_known k _ h) as [x h1] eqn:Hh; unfold after_call in Hother; exact Hother).
  destruct (g a b) as [v| |]; [by apply (Hb v h)| |].
  - left. by apply repr_of_get.
  - unfold bind_call. rewrite exec_stmts_app. cbn [fst call]. by rewrite Hx.
Qed.

Lemma known_repr_some k ra rb : is_Some (known_repr k (Some ra) (Some rb)).
Proof. destruct k; simpl; try done; destruct ra, rb; eauto. Qed.

(** An operation on unboxed operands. *)
Lemma sim_known_unboxed d k a b rd code (rb : values) (rn : raws) res h :
  agree lat rb rn -> get lat d = Some rd -> rd <> RBoxed -> k <> KCaseEq -> is_array_fn k = false ->
  known_repr k (get lat a) (get lat b) ⊑ get lat d -> emit_unboxed_known reprs rd k a b = Ok code ->
  sim same (boxed_step (ICallKnown d k [a; b]) rb h) (exec_stmts (bind_call d code) (rn, res, h)).
Proof.
  intros Ha Hd Hrd Hne Harr Hle Hcode. unfold boxed_step. cbn [is_silent uses is_call boxed_exec].
  destruct (read_all rb [a; b]) as [xs|] eqn:Hr; [|done]. apply read_all_two in Hr as (x & y & Hx & Hy & ->).
  destruct (Ha _ _ Hx) as (p & Hp & ra & Hga & Hua). destruct (Ha _ _ Hy) as (q & Hq & rb' & Hgb & Hub).
  rewrite Hga, Hgb, Hd in Hle. destruct (known_repr_some k ra rb') as [r' Hk]. rewrite Hk in Hle.
  assert (r' = rd) as -> by (destruct (le_some _ _ Hle); congruence).
  destruct (computes_known lat k rd rn a b ra rb' x y p q) as (g & code' & Hg & Hcode' & Hc); [done..|].
  assert (code' = code) as -> by congruence. rewrite Hg. specialize (Hc res h). destruct (g x y) as [v| |].
  - destruct Hc as (He & z & Hz & Hu).
    apply (sim_bind true d rb rn code _ h h v z res); [done|done|done|by exists rd|done].
  - right. unfold bind_call. by rewrite exec_stmts_app, Hc.
  - done.
Qed.

Lemma emit_boxed_known_Ok k args code :
  emit_boxed_known reprs k args = Ok code -> code = call (RtKnown k) (map (use_var_boxed reprs) args).
Proof.
  unfold emit_boxed_known. intros Hc.
  destruct k; try (by injection Hc as <-); destruct args as [|? [|]]; try discriminate Hc; by injection Hc as <-.
Qed.

Lemma emit_known_call_cases d k args code :
  is_array_fn k = false -> emit_known_call reprs d k args = Ok code ->
  code = call (RtKnown k) (map (use_var_boxed reprs) args) /\ (repr_of reprs d = RBoxed \/ length args <> 2%nat) \/
  repr_of reprs d <> RBoxed /\ exists a b, args = [a; b] /\ emit_unboxed_known reprs (repr_of reprs d) k a b = Ok code.
Proof.
  unfold emit_known_call. intros ->. destruct (repr_of reprs d) eqn:Hr, args as [|a [|b [|]]];
    intros Hc; try (apply emit_boxed_known_Ok in Hc; left; split; [done|]; auto; fail); right; split; eauto.
Qed.

(** The representation of a value that was computed is known. *)
Lemma inst_repr_known d k args (rb : values) (rn : raws) xs :
  agree lat rb rn -> read_all rb args = Some xs ->
  exists r, inst_repr lat (ICallKnown d k args) = Some (d, Some r) /\ (length args <> 2%nat -> is_array_fn k = false -> r = RBoxed).
Proof.
  intros Ha Hr. destruct args as [|a [|b [|c args]]]; 
    try (destruct k; eexists; (split; [reflexivity|intros _ Harr; first [reflexivity|discriminate Harr]])).
  apply read_all_two in Hr as (x & y & Hx & Hy & ->).
  destruct (Ha _ _ Hx) as (p & Hp & ra & Hga & _). destruct (Ha _ _ Hy) as (q & Hq & rb' & Hgb & _).
  cbn [inst_repr]. rewrite Hga, Hgb. destruct (known_repr_some k ra rb') as [r ->]. exists r. split; [done|]. by intros [].
Qed.

Lemma sim_known d k args ss (rb : values) (rn : raws) res h :
  agree lat rb rn -> native_inst (ICallKnown d k args) = true ->
  (forall d' r, inst_repr lat (ICallKnown d k args) = Some (d', r) -> r ⊑ get lat d') ->
  emit_known_call reprs d k args = Ok ss ->
  sim same (boxed_step (ICallKnown d k args) rb h) (exec_stmts (bind_call d ss) (rn, res, h)).
Proof.
  intros Ha Hn Hle He. cbn in Hn. rewrite !andb_true_iff, !negb_true_iff in Hn. destruct Hn as [[Harr Hce] _].
  destruct (read_all rb args) as [xs|] eqn:Hr; [|unfold boxed_step; cbn [is_silent uses]; by rewrite Hr].
  destruct (inst_repr_known d k args rb rn xs Ha Hr) as (r & Hi & Hlen).
  pose proof (le_some _ _ (Hle _ _ Hi)) as Hd.
  destruct (emit_known_call_cases _ _ _ _ Harr He) as [[-> Hbox]|(Hrd & a & b & -> & Hu)].
  - apply sim_known_boxed; [done|]. destruct Hd as [Hd|Hd]; [|done]. rewrite Hd. f_equal.
    destruct Hbox as [Hbox|Hbox]; [by rewrite (repr_of_get _ _ _ Hd) in Hbox|auto].
  - assert (exists rd, get lat d = Some rd) as [rd Hg] by (destruct Hd; eauto).
    rewrite (repr_of_get _ _ _ Hg) in Hrd, Hu.
    apply (sim_known_unboxed d k a b rd); try done; [by intros ->|]. by apply Hle.
Qed.

(** ** Instructions *)

Lemma const_holds d c res (rn : raws) :
  native_inst (IConst d c) = true -> Some (const_repr c) ⊑ get lat d ->
  exists y, eval rn res match repr_of reprs d, c with
    | RLong, CLong n => XIconst n
    | RDouble, CDouble bits => XF64const bits
    | RBool, CBool b => XIconst8 (Z.b2z b)
    | _, _ => emit_const c
    end = Some y /\ holds lat d (const_value c) y.
Proof.
  intros Hn Hle. destruct (le_some _ _ Hle) as [Hd|Hd]; rewrite (repr_of_get _ _ _ Hd).
  - destruct c; (eexists; split; [reflexivity|]); (eexists; split; [exact Hd|]); try done. cbn in Hn |- *. by rewrite Hn.
  - destruct c; (eexists; split; [reflexivity|]); (eexists; split; [exact Hd|]); done.
Qed.

Lemma sim_inst rp i ss (rb : values) (rn : raws) res h :
  agree lat rb rn -> native_inst i = true -> (forall d r, inst_repr lat i = Some (d, r) -> r ⊑ get lat d) ->
  translate_inst reprs user_funcs rp i = Ok ss ->
  sim same (boxed_step i rb h) (exec_stmts ss (rn, res, h)).
Proof.
  intros Ha Hn Hle Ht.
  destruct i; try done; cbn [translate_inst] in Ht;
    try (injection Ht as <-; apply (sim_runtime false); [done|reflexivity|by apply Hle|done|done|done]).
  - injection Ht as <-. destruct (const_holds dst c res rn Hn ltac:(by apply Hle)) as (y & He & Hy).
    by eapply sim_def.
  - unfold alloc_closure in Ht. assert (ss = bind_dst dst (runtime reprs (IAllocClosure dst template captures))) as ->.
    { cbn in Hn. destruct (arity_fn_names template) as [|? [|]]; [done|..]; repeat case_match; by simplify_eq. }
    apply (sim_runtime false); [done|reflexivity|by apply Hle|done|done|done].
  - destruct (emit_known_call _ _ _ _) as [code| | |] eqn:He; try done. injection Ht as <-. by apply sim_known.
  - injection Ht as <-. apply (sim_runtime true); [done|reflexivity|by apply Hle|done|done|done].
  - case_match; [|done]. injection Ht as <-. apply (sim_runtime true); [done|reflexivity|by apply Hle|done|done|done].
  - injection Ht as <-. unfold boxed_step. cbn [is_silent is_call boxed_exec].
    destruct (read_all rb (uses (ISetBang var value))) as [xs|] eqn:Hr; [|done].
    destruct (host_inst (ISetBang var value) xs h) as [x h1] eqn:Hi.
    exists (rn, Some (RawPtr x), h1). split; [|by split].
    unfold runtime, call. cbn [fst]. rewrite (exec_call _ _ _ _ _ _ _ Ha Hr). cbn [call_runtime]. by rewrite as_ptr_all, Hi.
  - injection Ht as <-. unfold boxed_step. cbn [is_silent is_call boxed_exec uses].
    destruct (read_all rb [value]) as [xs|] eqn:Hr; [|done].
    exists (rn, Some (RawPtr VNil), match xs with x :: _ => rt_throw x h | [] => h end). split; [|by split].
    change [use_var_boxed reprs value] with (map (use_var_boxed reprs) [value]).
    rewrite (exec_call _ _ _ _ _ _ _ Ha Hr). cbn [call_runtime]. by rewrite as_ptr_all.
  - injection Ht as <-. eexists. split; [done|]. by split.
  - injection Ht as <-. eexists. split; [done|]. by split.
Qed.

Lemma sim_insts rp is_ ss (rb : values) (rn : raws) res h :
  agree lat rb rn -> (forall i, i ∈ is_ -> native_inst i = true) ->
  (forall i d r, i ∈ is_ -> inst_repr lat i = Some (d, r) -> r ⊑ get lat d) ->
  translate_insts reprs user_funcs rp is_ = Ok ss ->
  sim same (boxed_seq is_ rb h) (exec_stmts ss (rn, res, h)).
Proof.
  revert ss rb rn res h. induction is_ as [|i is_ IH]; intros ss rb rn res h Ha Hn Hle Ht; cbn in Ht.
  - injection Ht as <-. eexists. split; [done|]. by split.
  - destruct (translate_inst _ _ rp i) as [s1| | |] eqn:Hi; try done. cbn in Ht.
    destruct (translate_insts _ _ rp is_) as [s2| | |] eqn:His; try done. injection Ht as <-. rewrite exec_stmts_app.
    pose proof (sim_inst rp i s1 rb rn res h Ha) as Hs.
    specialize (Hs ltac:(by apply Hn; apply elem_of_cons; left) ltac:(intros; eapply Hle; [apply elem_of_cons; by left|done]) Hi).
    cbn [boxed_seq]. destruct (boxed_step i rb h) as [[]|[rb' h']]; cbn in Hs.
    + by rewrite Hs.
    + destruct Hs as [Hs|Hs]; [by left|]. right. by rewrite Hs.
    + by rewrite Hs.
    + done.
    + destruct Hs as ([[rn' res'] hn] & -> & Ha' & Hh). cbn in Ha', Hh. subst hn. apply IH; [done|..|done].
      * intros j Hj. apply Hn. apply elem_of_cons. by right.
      * intros j d r Hj. apply Hle. apply elem_of_cons. by right.
Qed.

(** ** Edges *)

(** Every phi has an entry for the predecessor. *)
Definition complete_for (prev : BlockId) (ps : list Inst) : Prop :=
  forall i, i ∈ ps -> exists d entries v, i = IPhi d entries /\ phi_source prev entries = Some v.

Lemma complete_tail prev i ps : complete_for prev (i :: ps) -> complete_for prev ps.
Proof. intros Hc j Hj. apply Hc, elem_of_cons. by right. Qed.

Lemma complete_head prev i ps : complete_for prev (i :: ps) ->
  exists d entries v, i = IPhi d entries /\ phi_source prev entries = Some v.
Proof. intros Hc. apply Hc, elem_of_cons. by left. Qed.

Definition phi_dsts (ps : list Inst) : list VarId := omap (fun i => match i with IPhi d _ => Some d | _ => None end) ps.

Lemma moves_dsts prev ps : complete_for prev ps -> map fst (phi_moves prev ps) = phi_dsts ps.
Proof.
  induction ps as [|i ps IH]; intros Hc; [done|]. destruct (complete_head _ _ _ Hc) as (d & es & v & -> & Hv).
  cbn. rewrite Hv. cbn. f_equal. by eapply IH, complete_tail.
Qed.

(** The argument of a move, coerced to the representation of its phi. *)
Definition coerced (m : VarId * VarId) (e : Expr) : Prop := coerce_to reprs m.2 (repr_of reprs m.1) = Ok e.

Lemma phi_args_coerced prev ps es : complete_for prev ps -> phi_args reprs prev ps = Ok es -> Forall2 coerced (phi_moves prev ps) es.
Proof.
  revert es. induction ps as [|i ps IH]; intros es Hc; cbn; [intros [= <-]; constructor|].
  destruct (complete_head _ _ _ Hc) as (d & entries & v & -> & Hv). unfold phi_source in *.
  destruct (List.find _ entries) as [[p w]|]; [|done]. injection Hv as ->. cbn.
  destruct (coerce_to _ _ _) as [e| | |] eqn:He; try done. cbn.
  destruct (phi_args _ _ _) as [es'| | |] eqn:Hes; try done. intros [= <-]. constructor; [done|].
  apply IH; [by eapply complete_tail|done].
Qed.

Lemma recur_args_coerced prev ps args es :
  complete_for prev ps -> args = map snd (phi_moves prev ps) -> recur_args reprs args ps = Ok es ->
  Forall2 coerced (phi_moves prev ps) es.
Proof.
  revert args es. induction ps as [|i ps IH]; intros args es Hc ->; cbn; [intros [= <-]; constructor|].
  destruct (complete_head _ _ _ Hc) as (d & entries & v & -> & Hv). rewrite Hv. cbn.
  destruct (coerce_to _ _ _) as [e| | |] eqn:He; try done. cbn.
  destruct (recur_args _ _ _) as [es'| | |] eqn:Hes; try done. intros [= <-]. constructor; [done|].
  by apply (IH _ _ (complete_tail _ _ _ Hc) eq_refl).
Qed.

Lemma sim_moves moves es (rb : values) (rn : raws) res xs :
  agree lat rb rn -> Forall2 coerced moves es -> (forall m, m ∈ moves -> get lat m.2 ⊑ get lat m.1) ->
  read_all rb (map snd moves) = Some xs ->
  exists ys, mapM (eval rn res) es = Some ys /\ length ys = length moves /\
    agree lat (write_all (map fst moves) xs rb) (write_all (map fst moves) ys rn).
Proof.
  intros Ha Hc. revert xs. induction Hc as [|[d v] e moves es He Hc IH]; intros xs Hle Hr; cbn in Hr.
  - injection Hr as <-. exists []. split_and!; [done|done|]. done.
  - destruct (rb !! v) as [x|] eqn:Hv; [|done]. cbn in Hr. unfold read_all in IH.
    destruct (mapM _ (map snd moves)) as [xs'|] eqn:Hm; [|done]. injection Hr as <-.
    destruct (IH xs') as (ys & Hys & Hlen & Hag); [intros m Hm'; apply Hle, elem_of_cons; by right|done|].
    destruct (eval_coerce lat rb rn res v d x Ha Hv) as (e' & y & He' & Hy & Hh).
    { apply (Hle (d, v)), elem_of_cons. by left. }
    unfold coerced in He. cbn in He. rewrite He' in He. injection He as ->. exists (y :: ys). cbn. rewrite Hy. cbn.
    rewrite Hys. split_and!; [done|by rewrite Hlen|]. by apply agree_insert.
Qed.

Lemma phi_entry_le d entries v : foldl (fun m (e : BlockId * VarId) => meet m (get lat e.2)) None entries ⊑ get lat d ->
  v ∈ map snd entries -> get lat v ⊑ get lat d.
Proof.
  intros Hle Hv. etrans; [|exact Hle]. clear Hle. revert Hv. generalize (None : Lat).
  induction entries as [|e entries IH]; intros m Hv; [by apply elem_of_nil in Hv|]. cbn in Hv |- *.
  apply elem_of_cons in Hv as [->|Hv]; [|by apply IH]. clear IH.
  assert (Hm : forall es m', m' ⊑ foldl (fun m (e : BlockId * VarId) => meet m (get lat e.2)) m' es).
  { induction es as [|e' es IH]; intros m'; cbn; [done|]. etrans; [apply meet_upper_l|apply IH]. }
  etrans; [apply (meet_upper_r m)|apply Hm].
Qed.

Lemma moves_le prev ps :
  (forall i d r, i ∈ ps -> inst_repr lat i = Some (d, r) -> r ⊑ get lat d) ->
  forall m, m ∈ phi_moves prev ps -> get lat m.2 ⊑ get lat m.1.
Proof.
  induction ps as [|i ps IH]; intros Hle m Hm; [by apply elem_of_nil in Hm|].
  assert (Htail : m ∈ phi_moves prev ps -> get lat m.2 ⊑ get lat m.1).
  { intros Hm'. apply IH; [|done]. intros j d r Hj. apply Hle, elem_of_cons. by right. }
  destruct i; cbn in Hm; try by apply Htail. destruct (phi_source prev entries) as [v|] eqn:Hv; [|by apply Htail].
  apply elem_of_cons in Hm as [->|Hm]; [|by apply Htail]. cbn. apply (phi_entry_le _ entries).
  - eapply Hle; [apply elem_of_cons; by left|done].
  - unfold phi_source in Hv. destruct (List.find _ _) as [[p w]|] eqn:Hf; [|done]. injection Hv as ->.
    apply List.find_some in Hf as [Hin _]. apply list_elem_of_fmap. exists (p, v). split; [done|]. by apply list_elem_of_In.
Qed.

(** ** Blocks *)

Section Function.
Context (f : IrFunction) (Hsol : solution f lat).

Lemma solution_inst b i d r : b ∈ blocks f -> i ∈ phis b ++ insts b -> inst_repr lat i = Some (d, r) -> r ⊑ get lat d.
Proof.
  intros Hb Hi Hr. apply (Hsol (fun lat => inst_repr lat i)); [|done].
  apply list_elem_of_bind. exists b. split; [|done]. apply elem_of_app. left. apply list_elem_of_fmap. by exists i.
Qed.

Lemma translate_block_inv extra en b nb :
  translate_block reprs user_funcs f extra en b = Ok nb ->
  exists body safe term, translate_insts reprs user_funcs (takes_region_param f) (insts b) = Ok body /\
    translate_terminator reprs f (block_id b) (terminator b) = Ok (safe, term) /\
    nb = mkNBlock (block_id b) (extra ++ phi_dsts (phis b))
      ((if en then [SSafepoint] else []) ++ SGas (block_cost b) :: body ++ safe) term.
Proof.
  unfold translate_block. destruct (translate_insts _ _ _ _) as [body| | |]; try done. cbn.
  destruct (translate_terminator _ _ _ _) as [[safe term]| | |]; try done. cbn. intros [= <-]. by exists body, safe, term.
Qed.

Lemma terminator_safe b t safe term :
  translate_terminator reprs f b t = Ok (safe, term) -> forall m : machine, exec_stmts safe m = inr m.
Proof.
  destruct t; cbn; intros Ht [[rn res] h].
  - destruct (block_map f target); try done. cbn in Ht. destruct (collect_phi_args _ _ _ _); try done. by injection Ht as <- <-.
  - destruct (block_map f then_block); try done. cbn in Ht. destruct (block_map f else_block); try done. cbn in Ht.
    destruct (collect_phi_args _ _ then_block _); try done. cbn in Ht.
    destruct (collect_phi_args _ _ else_block _); try done. by injection Ht as <- <-.
  - by injection Ht as <- <-.
  - destruct (block_map f target); try done. cbn in Ht. case_match; [destruct (recur_args _ _ _); try done|];
      by injection Ht as <- <-.
  - by injection Ht as <- <-.
Qed.

Context (Hinsts : forall b i, b ∈ blocks f -> i ∈ insts b -> native_inst i = true).

Lemma sim_body extra en b nb (rb : values) (rn : raws) h :
  b ∈ blocks f -> translate_block reprs user_funcs f extra en b = Ok nb -> agree lat rb rn ->
  sim same (match charged (block_cost b) h with inl e => inl e | inr h' => boxed_seq (insts b) rb h' end)
    (exec_stmts (nb_body nb) (rn, None, h)).
Proof.
  intros Hb Ht Ha. apply translate_block_inv in Ht as (body & safe & term & Hi & Hterm & ->). cbn [nb_body].
  assert (Hen : exec_stmts ((if en then [SSafepoint] else []) ++ SGas (block_cost b) :: body ++ safe) (rn, None, h) =
    exec_stmts (SGas (block_cost b) :: body ++ safe) (rn, None, h)) by (by destruct en).
  rewrite Hen. cbn [exec_stmts exec_stmt]. unfold charged. destruct (gas_charge (block_cost b) h) as [[] h']; [|done].
  assert (Hs : sim same (boxed_seq (insts b) rb h') (exec_stmts body (rn, None, h'))).
  { eapply sim_insts; [done| | |done].
    - intros i. by apply Hinsts.
    - intros i d r Hin. apply (solution_inst b); [done|]. apply elem_of_app. by right. }
  rewrite exec_stmts_app. pose proof (terminator_safe _ _ _ _ Hterm) as Hsafe.
  destruct (boxed_seq (insts b) rb h') as [[]|[rb' h2]]; cbn in Hs |- *.
  - by rewrite Hs.
  - destruct Hs as [Hs|Hs]; [by left|right]. by rewrite Hs.
  - by rewrite Hs.
  - done.
  - destruct Hs as (m & -> & Hm). rewrite Hsafe. eauto.
Qed.

(** ** Control flow *)

Record native_ready : Prop := {
  nr_ids : NoDup (ids f);
  nr_edge b s : b ∈ blocks f -> s ∈ blocks f -> block_id s ∈ successors (terminator b) -> complete_for (block_id b) (phis s);
  nr_recur b target args s : b ∈ blocks f -> terminator b = RecurJump target args -> s ∈ blocks f -> block_id s = target ->
    args = map snd (phi_moves (block_id b) (phis s));
  nr_entry entry rest : blocks f = entry :: rest ->
    phis entry = [] /\ forall b, b ∈ blocks f -> (block_id entry ∉ successors (terminator b));
  nr_params : NoDup (map snd (params f));
  nr_params_once v : v ∈ map snd (params f) -> (v ∉ all_dsts f) /\ (v ∉ map fst (local_seed_reprs f))
}.

Context (Hready : native_ready).

Lemma find_block_lookup b blk : lookup_block f b = Some blk -> find_block f b = Some blk.
Proof.
  intros Hl. apply lookup_block_Some in Hl as [Hin Hid]; [|apply Hready]. unfold find_block.
  destruct (List.find _ (blocks f)) as [blk'|] eqn:Hf.
  - apply List.find_some in Hf as [Hin' Hid']. apply Z.eqb_eq in Hid'. apply list_elem_of_In in Hin'. f_equal.
    apply (block_unique f); [apply Hready|done|done|congruence].
  - apply List.find_none with (x := blk) in Hf; [|by apply list_elem_of_In]. apply Z.eqb_neq in Hf. congruence.
Qed.

(** The arguments of an edge make the registers agree at its target. *)
Lemma sim_edge b s es (rb : values) (rn : raws) res r :
  b ∈ blocks f -> s ∈ blocks f -> block_id s ∈ successors (terminator b) -> agree lat rb rn ->
  Forall2 coerced (phi_moves (block_id b) (phis s)) es -> enter (block_id b) (phis s) rb = Some r ->
  exists ys, mapM (eval rn res) es = Some ys /\ length ys = length (phi_dsts (phis s)) /\
    agree lat r (write_all (phi_dsts (phis s)) ys rn).
Proof.
  intros Hb Hs Hsucc Ha Hc He. unfold enter in He.
  destruct (read_all rb (map snd (phi_moves (block_id b) (phis s)))) as [xs|] eqn:Hr; [|done]. injection He as <-.
  destruct (sim_moves _ _ rb rn res xs Ha Hc) as (ys & Hys & Hlen & Hag); [|done|].
  - apply moves_le. intros i d r' Hi. apply (solution_inst s); [done|]. apply elem_of_app. by left.
  - exists ys. rewrite <- (moves_dsts _ _ (nr_edge Hready b s Hb Hs Hsucc)), length_map. by split_and!.
Qed.

Definition final (r : BoxedResult (X := X) (H := H)) (n : option (NResult (X := X) (H := H))) : Prop :=
  match r with
  | BReturned v h => n = Some (NReturned v h)
  | BOverflowed d h => repr_of reprs d = RBoxed \/ n = Some (NReturned VNil (rt_throw (VOther overflow_error) h))
  | BPanicked => n = Some NPanicked
  | BUndefined => True
  end.

(** The code of the blocks: every block but the entry has its plain code. *)
Definition coded (bs : list NBlock) : Prop :=
  forall b s, b ∈ blocks f -> s ∈ blocks f -> block_id s ∈ successors (terminator b) ->
  exists nb, find_nblock bs (block_id s) = Some nb /\ translate_block reprs user_funcs f [] false s = Ok nb.

Abbreviation enters prev blk rb nb args rn := (forall r, enter prev (phis blk) rb = Some r ->
  length args = length (nb_params nb) /\ agree lat r (write_all (nb_params nb) args rn)).

(** The jump along an edge. *)
Lemma sim_jump bs n b s es (rb : values) (rn : raws) res h r :
  coded bs ->
  (forall blk nb prev rb rn args h r, blk ∈ blocks f -> find_nblock bs (block_id blk) = Some nb ->
    translate_block reprs user_funcs f [] false blk = Ok nb -> enters prev blk rb nb args rn ->
    run_cfg f n (block_id blk) (prev, rb, h) = Some r -> final r (run_blocks n bs (block_id blk) args rn h)) ->
  b ∈ blocks f -> s ∈ blocks f -> block_id s ∈ successors (terminator b) -> agree lat rb rn ->
  Forall2 coerced (phi_moves (block_id b) (phis s)) es ->
  run_cfg f n (block_id s) (block_id b, rb, h) = Some r ->
  final r match mapM (eval rn res) es with Some ys => run_blocks n bs (block_id s) ys rn h | None => Some NStuck end.
Proof.
  intros Hcoded IH Hb Hs Hsucc Ha Hc Hr. destruct (Hcoded b s Hb Hs Hsucc) as (nb & Hf & Ht).
  destruct (enter (block_id b) (phis s) rb) as [r'|] eqn:He.
  - destruct (sim_edge b s es rb rn res r' Hb Hs Hsucc Ha Hc He) as (ys & -> & Hlen & Hag).
    apply (IH s nb (block_id b) rb); try done. intros r2 Hr2. rewrite He in Hr2. injection Hr2 as <-.
    apply translate_block_inv in Ht as (? & ? & ? & _ & _ & ->). cbn. by split.
  - assert (r = BUndefined) as ->.
    { destruct n as [|n]; cbn in Hr; [done|]. rewrite (lookup_block_in f s) in Hr by (done || apply Hready). cbn in Hr.
      unfold boxed_body in Hr. cbn in Hr. rewrite He in Hr. by injection Hr as <-. }
    done.
Qed.

(** What a translated terminator is. *)
Lemma jump_coerced b target es s :
  b ∈ blocks f -> block_id s ∈ successors (terminator b) -> lookup_block f target = Some s ->
  collect_phi_args reprs f target (block_id b) = Ok es -> Forall2 coerced (phi_moves (block_id b) (phis s)) es.
Proof.
  intros Hb Hsucc Hl Hes. unfold collect_phi_args in Hes. rewrite (find_block_lookup _ _ Hl) in Hes.
  apply lookup_block_Some in Hl as [Hs Hid]; [|apply Hready]. apply phi_args_coerced; [|done]. by apply Hready.
Qed.

Lemma block_map_Ok target t : block_map f target = Ok t -> t = target.
Proof. unfold block_map. case_match; [by intros [= <-]|done]. Qed.

(** A condition is true in its register when its value is truthy. *)
Lemma sim_cond c tb targs eb eargs (rb : values) (rn : raws) res x :
  agree lat rb rn -> rb !! c = Some x ->
  match repr_of reprs c with
  | RBool => NBrif (XVar c) tb targs eb eargs
  | RLong | RDouble | RLongArray | RDoubleArray => NJump tb targs
  | RBoxed => NBrif (XTruthiness (XVar c)) tb targs eb eargs
  end = NJump tb targs /\ rt_truthiness x = 1 \/
  exists e, match repr_of reprs c with
    | RBool => NBrif (XVar c) tb targs eb eargs
    | RLong | RDouble | RLongArray | RDoubleArray => NJump tb targs
    | RBoxed => NBrif (XTruthiness (XVar c)) tb targs eb eargs
    end = NBrif e tb targs eb eargs /\ eval rn res e = Some (RawI8 (rt_truthiness x)).
Proof.
  intros Ha (y & Hy & r & Hg & Hu)%Ha. rewrite (repr_of_get _ _ _ Hg).
  destruct r, x; simpl in Hu; simplify_eq; try (by left); right; eexists; (split; [reflexivity|]); cbn; rewrite Hy; done.
Qed.

(** Leaving a block of the boxed machine. *)
Definition boxed_term (next : BlockId -> option BoxedResult) (t : Terminator) (r : values) (h : H) : option BoxedResult :=
  match t with
  | Return v => Some match r !! v with None => BUndefined | Some x => BReturned x h end
  | Unreachable => Some (BReturned VNil h)
  | Jump b | RecurJump b _ => next b
  | Branch c b b' =>
      match r !! c with
      | None => Some BUndefined
      | Some x => if rt_truthiness x =? 0 then next b' else next b
      end
  end.

Lemma run_cfg_step n blk prev (rb : values) h : blk ∈ blocks f ->
  run_cfg f (S n) (block_id blk) (prev, rb, h) =
    match boxed_body blk (prev, rb, h) with
    | inl r => Some r
    | inr (b, r, h') => boxed_term (fun t => run_cfg f n t (b, r, h')) (terminator blk) r h'
    end.
Proof.
  intros Hb. cbn [run_cfg]. rewrite (lookup_block_in f blk) by (done || apply Hready). cbn [mbind option_bind run_body boxed_machine].
  destruct (boxed_body blk (prev, rb, h)) as [|[[b r] h']]; [done|]. destruct (terminator blk); try done. cbn.
  destruct (r !! cond) as [x|]; [|done]. by destruct (rt_truthiness x =? 0).
Qed.

(** How a block is left, given what the edges do. *)
Lemma sim_term blk safe term (rb : values) (rn : raws) res h next nextn r :
  blk ∈ blocks f -> translate_terminator reprs f (block_id blk) (terminator blk) = Ok (safe, term) -> agree lat rb rn ->
  (forall target es, target ∈ successors (terminator blk) -> next target = Some r ->
    (forall s, lookup_block f target = Some s -> Forall2 coerced (phi_moves (block_id blk) (phis s)) es) ->
    final r match mapM (eval rn res) es with Some ys => nextn target ys | None => Some NStuck end) ->
  (forall target, next target = Some r -> is_Some (lookup_block f target)) ->
  boxed_term next (terminator blk) rb h = Some r -> final r (run_term nextn term (rn, res, h)).
Proof.
  intros Hblk Hterm Hag Hjump Hnext Hr.
  assert (Hedge : forall target es, target ∈ successors (terminator blk) -> collect_phi_args reprs f target (block_id blk) = Ok es ->
    forall s, lookup_block f target = Some s -> Forall2 coerced (phi_moves (block_id blk) (phis s)) es).
  { intros target l Htl Hl s Hs. eapply jump_coerced; try done.
    by apply lookup_block_Some in Hs as [_ ->]; [|apply Hready]. }
  destruct (terminator blk) as [t|c t e|v|t as_|] eqn:Htm; cbn [translate_terminator boxed_term] in Hterm, Hr.
  - destruct (block_map f t) as [t'| | |] eqn:Hm; try done. apply block_map_Ok in Hm as ->. cbn in Hterm.
    destruct (collect_phi_args _ _ _ _) as [es| | |] eqn:Hes; try done. injection Hterm as <- <-.
    apply Hjump; [by apply elem_of_cons; left|done|]. apply Hedge; [by apply elem_of_cons; left|done].
  - destruct (block_map f t) as [t'| | |] eqn:Hm; try done. apply block_map_Ok in Hm as ->. cbn in Hterm.
    destruct (block_map f e) as [e'| | |] eqn:Hm; try done. apply block_map_Ok in Hm as ->. cbn in Hterm.
    destruct (collect_phi_args _ _ t _) as [es| | |] eqn:Hes; try done. cbn in Hterm.
    destruct (collect_phi_args _ _ e _) as [es'| | |] eqn:Hes'; try done. injection Hterm as <- <-.
    destruct (rb !! c) as [x|] eqn:Hx; [|by injection Hr as <-].
    destruct (sim_cond c t es e es' rb rn res x Hag Hx) as [[-> Htrue]|(ce & -> & Hce)]; cbn [run_term].
    + rewrite Htrue in Hr. apply Hjump; [cbn; set_solver|done|]. apply Hedge; [cbn; set_solver|done].
    + rewrite Hce. destruct (rt_truthiness x =? 0);
        (apply Hjump; [cbn; set_solver|done|]); (apply Hedge; [cbn; set_solver|done]).
  - injection Hterm as <- <-. injection Hr as <-. cbn. destruct (rb !! v) as [x|] eqn:Hx; [|done].
    by rewrite (eval_boxed lat rb rn res v x).
  - destruct (block_map f t) as [t'| | |] eqn:Hm; try done. apply block_map_Ok in Hm as ->. cbn in Hterm.
    destruct (Hnext t Hr) as [s Hs]. rewrite (find_block_lookup _ _ Hs) in Hterm.
    destruct (recur_args _ _ _) as [es| | |] eqn:Hes; try done. injection Hterm as <- <-.
    apply Hjump; [by apply elem_of_cons; left|done|]. intros s' Hs'. assert (s' = s) as -> by congruence.
    apply lookup_block_Some in Hs as [Hin Hid]; [|apply Hready].
    eapply recur_args_coerced; [apply Hready; [done|done|rewrite Htm; cbn; set_solver]| |exact Hes].
    by eapply (nr_recur Hready blk).
  - injection Hterm as <- <-. injection Hr as <-. done.
Qed.

Lemma final_sim {A M : Type} (R : A -> M -> Prop) r (n : NResult + M) : sim R (inl r) n -> forall o, (forall e, n = inl e -> o = Some e) -> final r o.
Proof. destruct r; cbn; intros Hs o Ho; auto. destruct Hs; auto. Qed.

Lemma run_sim bs n blk nb extra en prev (rb : values) (rn : raws) args h r :
  coded bs -> blk ∈ blocks f -> find_nblock bs (block_id blk) = Some nb ->
  translate_block reprs user_funcs f extra en blk = Ok nb -> enters prev blk rb nb args rn ->
  run_cfg f n (block_id blk) (prev, rb, h) = Some r -> final r (run_blocks n bs (block_id blk) args rn h).
Proof.
  intros Hcoded. revert blk nb extra en prev rb rn args h r.
  induction n as [|n IH]; intros blk nb extra en prev rb rn args h r Hblk Hf Ht Hent Hr; [done|].
  rewrite (run_cfg_step n blk prev rb h Hblk) in Hr. unfold boxed_body in Hr. cbn [fst snd] in Hr.
  destruct (enter prev (phis blk) rb) as [r0|]; [|by injection Hr as <-].
  destruct (Hent r0 eq_refl) as [Hlen Hag]. cbn [run_blocks]. rewrite Hf, decide_True by done.
  pose proof (sim_body extra en blk nb r0 _ h Hblk Ht Hag) as Hbody.
  apply translate_block_inv in Ht as (body & safe & term & _ & Hterm & ->). cbn [nb_params nb_body nb_term] in *.
  destruct (charged (block_cost blk) h) as [e|h1]; [injection Hr as <-; eapply final_sim; [exact Hbody|by intros ? ->]|].
  destruct (boxed_seq (insts blk) r0 h1) as [e|[r1 h2]]; [injection Hr as <-; eapply final_sim; [exact Hbody|by intros ? ->]|].
  destruct Hbody as ([[rn1 res1] hn] & -> & Hag1 & Hh). cbn in Hag1, Hh. subst hn.
  eapply sim_term; [exact Hblk|exact Hterm|exact Hag1| | |exact Hr].
  - intros target es Hsucc Hrun Hes.
    assert (exists s, lookup_block f target = Some s) as [s Hs].
    { destruct n; [done|]. cbn in Hrun. destruct (lookup_block f target); [eauto|done]. }
    pose proof (Hes s Hs) as Hc. apply lookup_block_Some in Hs as [Hs <-]; [|apply Hready].
    apply (sim_jump bs n blk s es r1 rn1 res1 h2 r); eauto.
  - intros target Hrun. destruct n; [done|]. cbn in Hrun. destruct (lookup_block f target); [eauto|done].
Qed.

End Function.
End Run.
