(* ===== verification/NativeTheorems.v ===== *)
(** Compiled functions: the prologue, the whole function, and when the code
    generator accepts a function. *)
From stdpp Require Import gmap strings.
From S2P Require Import Prelude RustStd Token Ir Reloop ReloopSem ReloopGraph IrInterp Osr OsrSem TypeInfer NativeOps NativeCode NativeSem NativeSpec.
Local Open Scope Z_scope.

(** * Seeds *)

Lemma seed_params_get (sp : nat -> Repr) vs (lat : lattice) :
  NoDup vs -> forall i v, vs !! i = Some v ->
  get (foldl (fun lat '(i, p) => <[p := Some (sp i)]> lat) lat (imap pair vs)) v = Some (sp i).
Proof.
  intros Hnd. induction vs as [|w vs IH] using rev_ind; intros i v Hi; [done|].
  apply NoDup_app in Hnd as (Hnd & Hw & _). rewrite imap_app. cbn. rewrite foldl_app. cbn. rewrite Nat.add_0_r.
  unfold get at 1. apply lookup_app_Some in Hi as [Hi|[Hi Hw']].
  - rewrite lookup_insert_ne; [by apply IH|]. intros ->. apply list_elem_of_lookup_2, Hw in Hi. set_solver.
  - destruct (i - length vs)%nat eqn:Hd; cbn in Hw'; [|done]. injection Hw' as ->. rewrite lookup_insert_eq. cbn.
    do 2 f_equal. lia.
Qed.

Lemma seed_locals_get seeds (lat : lattice) v :
  (v ∉ map fst seeds) -> get (foldl (fun lat '(v, r) => <[v := meet (get lat v) (Some r)]> lat) lat seeds) v = get lat v.
Proof.
  revert lat. induction seeds as [|[w r] seeds IH]; intros lat Hv; [done|]. cbn in Hv |- *.
  apply not_elem_of_cons in Hv as [Hne Hv]. rewrite IH by done. unfold get at 1. by rewrite lookup_insert_ne.
Qed.

(** A parameter that is not assigned keeps its specialisation. *)
Lemma param_repr f specs lat i v :
  NoDup (map snd (params f)) -> (v ∉ all_dsts f) -> (v ∉ map fst (local_seed_reprs f)) ->
  infer_lattice f specs = Some lat -> map snd (params f) !! i = Some v -> get lat v = Some (spec_at specs i).
Proof.
  intros Hnd Hd Hs Hinf Hi. rewrite (infer_loop_keeps _ _ _ _ _ Hd Hinf). unfold infer_seed.
  rewrite seed_locals_get by done. by apply (seed_params_get (spec_at specs)).
Qed.

Section Theorems.
Context {X H : Type} `{OtherEq X} `{Clif} `{NativeHost X H}.
Abbreviation values := (gmap VarId (RtValue X)).
Abbreviation raws := (gmap VarId (Raw X)).

(** * The prologue *)

(** Longs of the runtime fit their type. *)
Definition value_ok (x : RtValue X) : bool := match x with VLong n => in_range i64_min i64_max n | _ => true end.

Definition fits (r : Repr) (x : RtValue X) : bool :=
  match r, x with
  | RLong, VLong _ | RDouble, VDouble _ => true
  | (RLong | RDouble), _ => false
  | _, _ => true
  end.

Definition scalar_repr (r : Repr) : bool := match r with RBoxed | RLong | RDouble => true | _ => false end.

Fixpoint all_fit (sp : nat -> Repr) (xs : list (RtValue X)) : bool :=
  match xs with
  | [] => true
  | x :: xs' => fits (sp 0%nat) x && all_fit (fun i => sp (S i)) xs'
  end.

Lemma write_all_insert {V : Type} v (x : V) vs xs (r : gmap VarId V) :
  (v ∉ vs) -> <[v := x]> (write_all vs xs r) = write_all vs xs (<[v := x]> r).
Proof.
  revert xs. induction vs as [|w vs IH]; intros [|y xs] Hv; try done. apply not_elem_of_cons in Hv as [Hne Hv].
  cbn. rewrite insert_insert_ne by done. unfold write_all in IH. by rewrite IH.
Qed.

Lemma guards_sim lat (sp : nat -> Repr) vs xs (rb : values) (rn : raws) :
  agree lat rb rn -> length xs = length vs -> NoDup vs ->
  (forall i v, vs !! i = Some v -> get lat v = Some (sp i)) -> (forall i, scalar_repr (sp i) = true) ->
  (forall x, x ∈ xs -> value_ok x = true) ->
  match run_guards (imap (fun i v => match sp i with RLong => GuardLong v | RDouble => GuardDouble v | _ => Bind v end) vs) xs rn with
  | Some rn' => all_fit sp xs = true /\ agree lat (write_all vs xs rb) rn'
  | None => all_fit sp xs = false
  end.
Proof.
  revert sp xs rb rn. induction vs as [|v vs IH]; intros sp [|x xs] rb rn Ha Hlen Hnd Hget Hsp Hok; try done.
  injection Hlen as Hlen. apply NoDup_cons in Hnd as [Hv Hnd].
  assert (Hrest : forall y, holds lat v x y ->
    match run_guards (imap (fun i v => match sp (S i) with RLong => GuardLong v | RDouble => GuardDouble v | _ => Bind v end) vs) xs (<[v := y]> rn) with
    | Some rn' => all_fit (fun i => sp (S i)) xs = true /\ agree lat (write_all (v :: vs) (x :: xs) rb) rn'
    | None => all_fit (fun i => sp (S i)) xs = false
    end).
  { intros y Hy. pose proof (IH (fun i => sp (S i)) xs (<[v := x]> rb) (<[v := y]> rn)) as Hi.
    cbn. fold (write_all vs xs rb). rewrite write_all_insert by done.
    apply Hi; try done; [by apply agree_insert|intros i w Hw; by apply (Hget (S i))|].
    intros z Hz. apply Hok, elem_of_cons. by right. }
  pose proof (Hget 0%nat v eq_refl) as Hg. pose proof (Hok x ltac:(apply elem_of_cons; by left)) as Hx.
  specialize (Hsp 0%nat) as Hs0. cbn [imap run_guards all_fit]. unfold compose.
  destruct (sp 0%nat) eqn:Hsp0; try done; destruct x; try done; cbn [rt_value_tag rt_unbox_long rt_unbox_double];
    (apply Hrest; eexists; split; [exact Hg|]); try done. cbn in Hx |- *. by rewrite Hx.
Qed.

(** * Whole functions *)

Section Function.
Context (lat : lattice) (user_funcs : list Z -> bool) (f : IrFunction).
Abbreviation reprs := (reprs lat).

Lemma translate_blocks_find bs nbs s :
  translate_blocks reprs user_funcs f bs = Ok nbs -> NoDup (map block_id bs) -> s ∈ bs ->
  exists nb, find_nblock nbs (block_id s) = Some nb /\ translate_block reprs user_funcs f [] false s = Ok nb.
Proof.
  revert nbs. induction bs as [|b bs IH]; intros nbs Ht Hnd Hs; [by apply elem_of_nil in Hs|]. cbn in Ht.
  destruct (translate_block _ _ _ _ _ b) as [nb| | |] eqn:Hb; try done. cbn in Ht.
  destruct (translate_blocks _ _ _ bs) as [nbs'| | |]; try done. injection Ht as <-.
  assert (Hid : nb_id nb = block_id b) by (apply translate_block_inv in Hb as (? & ? & ? & _ & _ & ->); done).
  cbn in Hnd. apply NoDup_cons in Hnd as [Hb' Hnd]. unfold find_nblock. cbn [List.find]. rewrite Hid.
  apply elem_of_cons in Hs as [->|Hs]; [rewrite Z.eqb_refl; eauto|].
  rewrite (proj2 (Z.eqb_neq _ _)); [by apply IH|]. intros E. apply Hb'. rewrite E. by apply list_elem_of_fmap_2.
Qed.

Context (specs : list Repr) (Hinfer : infer_lattice f specs = Some lat).
Context (Hready : native_ready f) (Hinsts : forall b i, b ∈ blocks f -> i ∈ insts b -> native_inst i = true).
Context (Hspecs : forall i, scalar_repr (spec_at specs i) = true).

Lemma param_get i v : map snd (params f) !! i = Some v -> get lat v = Some (spec_at specs i).
Proof.
  intros Hi. pose proof (list_elem_of_lookup_2 _ _ _ Hi) as Hv. destruct (nr_params_once f Hready v Hv).
  eapply param_repr; try done. apply Hready.
Qed.

Lemma unspecialized i : is_specialized specs f = false -> (i < length (params f))%nat -> spec_at specs i = RBoxed.
Proof.
  unfold is_specialized, spec_at. intros Hs Hi. destruct (specs !! i) as [r|] eqn:Hr; [|done]. cbn.
  rewrite <- not_true_iff_false, existsb_exists in Hs. destruct (decide (r = RBoxed)) as [|Hne]; [done|].
  exfalso. apply Hs. exists r. split; [|by apply bool_decide_eq_true].
  apply list_elem_of_In, (list_elem_of_lookup_2 _ i). by rewrite lookup_take_lt.
Qed.

Lemma all_fit_boxed (sp : nat -> Repr) xs : (forall i, (i < length xs)%nat -> sp i = RBoxed) -> all_fit sp xs = true.
Proof.
  revert sp. induction xs as [|x xs IH]; intros sp Hb; [done|]. cbn. rewrite (Hb 0%nat) by (cbn; lia). cbn.
  apply IH. intros i Hi. apply Hb. cbn. lia.
Qed.

Lemma bind_boxed vs xs (rb : values) (rn : raws) :
  agree lat rb rn -> length xs = length vs -> (forall v, v ∈ vs -> get lat v = Some RBoxed) ->
  agree lat (write_all vs xs rb) (write_all vs (map RawPtr xs) rn).
Proof.
  revert xs. induction vs as [|v vs IH]; intros [|x xs] Ha Hlen Hg; try done. injection Hlen as Hlen. cbn.
  apply agree_insert; [apply IH; [done|done|intros; apply Hg, elem_of_cons; by right]|].
  exists RBoxed. split; [apply Hg, elem_of_cons; by left|done].
Qed.

Lemma native_function_sim entry rest nf args h fuel (r : BoxedResult (X := X)) :
  blocks f = entry :: rest -> translate reprs user_funcs specs f = Ok nf ->
  length args = length (params f) -> (forall x, x ∈ args -> value_ok x = true) ->
  run_cfg f fuel (block_id entry) (0, write_all (map snd (params f)) args ∅, h) = Some r ->
  if all_fit (spec_at specs) args then final lat r (run_native fuel nf args h) else run_native fuel nf args h = Some NDeopt.
Proof.
  intros Hbs Ht Hlen Hok Hr. destruct (infer_loop_solution _ _ _ _ Hinfer) as [Hsol _].
  destruct (nr_entry f Hready entry rest Hbs) as [Hphis Hentry].
  pose proof (nr_ids f Hready) as Hids. pose proof (nr_params f Hready) as Hnd.
  assert (Hin : entry ∈ blocks f) by (rewrite Hbs; apply elem_of_cons; by left).
  assert (Hlen' : length args = length (map snd (params f))) by (by rewrite length_map).
  unfold translate in Ht. rewrite Hbs in Ht. destruct (is_specialized specs f) eqn:Hsp.
  - destruct (translate_blocks _ _ f (entry :: rest)) as [nbs| | |] eqn:Hnbs; try done. injection Ht as <-.
    unfold run_native. cbn [nf_prologue nf_blocks nf_entry].
    pose proof (guards_sim lat (spec_at specs) (map snd (params f)) args ∅ ∅ (agree_empty lat) Hlen' Hnd param_get Hspecs Hok) as Hg.
    unfold guard. destruct (run_guards _ args ∅) as [rn|]; [|by rewrite Hg]. destruct Hg as [-> Ha].
    unfold ids in Hids. rewrite Hbs in Hids.
    destruct (translate_blocks_find _ _ entry Hnbs Hids) as (nb & Hf & Hnb); [apply elem_of_cons; by left|].
    eapply run_sim; try done.
    + intros b s _ Hs _. apply (translate_blocks_find _ _ s Hnbs Hids). by rewrite <- Hbs.
    + intros r'. rewrite Hphis. intros [= <-].
      apply translate_block_inv in Hnb as (? & ? & ? & _ & _ & ->). cbn. by rewrite Hphis.
  - destruct (translate_block _ _ f _ true entry) as [nb| | |] eqn:Hnb; try done. cbn in Ht.
    destruct (translate_blocks _ _ f rest) as [nbs| | |] eqn:Hnbs; try done. injection Ht as <-.
    rewrite all_fit_boxed by (intros i Hi; apply unspecialized; [done|lia]).
    assert (Hid : nb_id nb = block_id entry /\ nb_params nb = map snd (params f)).
    { apply translate_block_inv in Hnb as (? & ? & ? & _ & _ & ->). cbn. by rewrite Hphis, app_nil_r. }
    destruct Hid as [Hid Hps]. unfold run_native. cbn [nf_prologue nf_blocks nf_entry].
    eapply (run_sim lat user_funcs f Hsol Hinsts Hready _ fuel entry nb _ true 0 (write_all (map snd (params f)) args ∅)); try done.
    + intros b s Hb Hs Hsucc. unfold ids in Hids. rewrite Hbs in Hids. cbn in Hids. apply NoDup_cons in Hids as [_ Hids].
      assert (s <> entry) as Hne by (intros ->; by apply (Hentry b Hb)).
      rewrite Hbs in Hs. apply elem_of_cons in Hs as [?|Hs]; [done|].
      destruct (translate_blocks_find _ _ s Hnbs Hids Hs) as (nb' & Hf & Hnb'). exists nb'. split; [|done].
      unfold find_nblock. cbn [List.find]. rewrite Hid, (proj2 (Z.eqb_neq _ _)); [done|]. intros E.
      apply Hne, (block_unique f); [apply Hready|rewrite Hbs; apply elem_of_cons; by right|done|done].
    + unfold find_nblock. cbn [List.find]. by rewrite Hid, Z.eqb_refl.
    + intros r'. rewrite Hphis. intros [= <-]. rewrite Hps, length_map. split; [done|].
      refine (bind_boxed _ _ _ _ (agree_empty lat) Hlen' _). intros v (i & Hi)%list_elem_of_lookup. rewrite (param_get i v Hi). f_equal.
      apply unspecialized; [done|]. apply lookup_lt_Some in Hi. by rewrite length_map in Hi.
Qed.

End Function.
(** C34: Unboxed arithmetic is the arithmetic of the bridges: for every operation
    and every pair of operand representations for which inference keeps the
    result out of a box, the code generator has instructions, and on registers
    that hold two values they give the register that holds the result of the
    bridge; they raise the overflow exception exactly when the bridge does (a
    checked sum, difference or product outside 64 bits, found by the sign and
    high-word tests), and never where the bridge panics.  [case=] is not
    compiled and arrays have bridges of their own. *)
Theorem unboxed_agrees_with_bridge (lat : lattice) (k : KnownFn) (r : Repr) (rn : raws) (a b : VarId)
    (ra rb : Repr) (x y : RtValue X) (p q : Raw X) :
  get lat a = Some ra -> get lat b = Some rb -> unbox ra x = Some p -> unbox rb y = Some q ->
  rn !! a = Some p -> rn !! b = Some q -> k <> KCaseEq -> is_array_fn k = false ->
  known_repr k (Some ra) (Some rb) = Some r -> r <> RBoxed ->
  exists g code, bridge k = Some g /\ emit_unboxed_known (NativeSpec.reprs lat) r k a b = Ok code /\ computes r rn code (g x y).
Proof. intros. by eapply computes_known. Qed.

(** C9: Compiled code refines the boxed function, for a well-formed function whose
    instructions are in the fragment [native_inst] (no operations on arrays or
    regions, no suspension, no [case=]) and which is compiled with scalar
    specialisations: if an argument does not fit its specialisation the code
    deoptimises before it does anything; otherwise, whenever the function run on
    boxed values with the bridges returns a value and a runtime state, or panics,
    the compiled code does too, after as many blocks, with the same gas charged; and
    an overflow of an operation whose result is unboxed ends it with nil and the
    pending overflow exception.  Nothing is said of a run in which an operation with
    a boxed result overflows, after which the compiled code goes on with nil
    (NativeTotal, [boxed_overflow_continues]), nor of one that reads a register it
    has not written. *)
Theorem native_code_refines (lat : lattice) (user_funcs : list Z -> bool) (f : IrFunction) (specs : list Repr)
    (nf : NativeFn) (entry : Block) (rest : list Block) (args : list (RtValue X)) (h : H) (fuel : nat) (r : BoxedResult) :
  native_ready f -> (forall b i, b ∈ blocks f -> i ∈ insts b -> native_inst i = true) ->
  (forall i, scalar_repr (spec_at (merged_specs f specs) i) = true) -> blocks f = entry :: rest ->
  infer_lattice f (merged_specs f specs) = Some lat -> compile_function_with_specs user_funcs f specs = Ok nf ->
  length args = length (params f) -> (forall x, x ∈ args -> value_ok x = true) ->
  run_cfg f fuel (block_id entry) (0, write_all (map snd (params f)) args ∅, h) = Some r ->
  if all_fit (spec_at (merged_specs f specs)) args then final lat r (run_native fuel nf args h)
  else run_native fuel nf args h = Some NDeopt.
Proof.
  intros Hready Hinsts Hspecs Hbs Hinf Hc. unfold compile_function_with_specs, infer in Hc. rewrite Hinf in Hc.
  by apply (native_function_sim lat user_funcs f (merged_specs f specs) Hinf Hready Hinsts Hspecs entry rest).
Qed.

End Theorems.
