(* ===== verification/NativeTotal.v ===== *)
(** The code generator accepts every function of the fragment: when the blocks
    are reachable and registers are defined before they are read, inference
    gives every operand a representation, and no representations disagree.

    Compiled code on concrete functions, and where boxed and unboxed code
    part ways. *)
From Stdlib Require Import SpecFloat.
From stdpp Require Import gmap strings.
From S2P Require Import Prelude RustStd Token Ir Reloop ReloopSem ReloopGraph IrInterp Osr OsrSem OsrSpec OsrLive NativeOps TypeInfer NativeCode NativeSem NativeSpec NativeTheorems.
Local Open Scope Z_scope.

(** The functions an instruction names are declared, and it has the operands
    the code generator indexes. *)
Definition compilable (user_funcs : list Z -> bool) (i : Inst) : bool :=
  match i with
  | ICallDirect _ name _ => user_funcs name
  | IAllocClosure _ t _ =>
      forallb user_funcs (arity_fn_names t) &&
      match arity_fn_names t with
      | [_] => negb (bool_decide (is_variadic t = [])) && negb (bool_decide (param_counts t = []))
      | _ => true
      end
  | ICallKnown _ KAtomSwap args => (2 <=? length args)%nat
  | ICallKnown _ KWithBindings args => negb (bool_decide (args = []))
  | _ => true
  end.

Section Total.
Context (lat : lattice) (user_funcs : list Z -> bool).
Abbreviation reprs := (reprs lat).

Definition has_repr (v : VarId) : Prop := is_Some (get lat v).

Lemma has_repr_le v w : has_repr v -> get lat v ⊑ get lat w -> has_repr w.
Proof. unfold has_repr. intros [r Hr]. rewrite Hr. intros [-> | ->]%le_some; eauto. Qed.

Lemma coerce_ok v d : has_repr v -> get lat v ⊑ get lat d -> exists e, coerce_to reprs v (repr_of reprs d) = Ok e.
Proof.
  intros [r Hr]. rewrite Hr. intros Hle. unfold coerce_to.
  destruct (le_some _ _ Hle) as [Hd|Hd]; rewrite (repr_of_get _ _ _ Hd), (repr_of_get _ _ _ Hr); repeat case_decide; eauto; done.
Qed.

(** A number in a representation. *)
Definition sample (r : Repr) : RtValue unit := match r with RDouble => VDouble (S754_zero false) | _ => VLong 0 end.

Lemma sample_unboxes r : is_number r = true -> exists y, unbox r (sample r) = Some y.
Proof. destruct r; try done; intros _; eexists; reflexivity. Qed.

#[local] Instance unit_eq : OtherEq unit := fun _ _ => false.

#[local] Instance unit_host : NativeHost unit unit := {|
  const_other _ := tt;
  host_known _ _ h := (VNil, h);
  host_inst _ _ h := (VNil, h);
  host_array _ _ h := (RawPtr VNil, h);
  gas_charge _ h := (true, h);
  rt_throw _ h := h;
  overflow_error := tt
|}.

Lemma emit_unboxed_ok k a b ra rb r :
  get lat a = Some ra -> get lat b = Some rb -> k <> KCaseEq -> is_array_fn k = false ->
  known_repr k (Some ra) (Some rb) = Some r -> r <> RBoxed -> exists code, emit_unboxed_known reprs r k a b = Ok code.
Proof.
  intros Ha Hb Hne Harr Hk Hr. destruct (known_repr_numbers k ra rb r Hk Hr Hne Harr) as [Hna Hnb].
  destruct (sample_unboxes ra Hna) as [p Hp]. destruct (sample_unboxes rb Hnb) as [q Hq].
  destruct (computes_known (H := unit) lat k r (<[a := p]> {[ b := q ]}) a b ra rb (sample ra) (sample rb) p q)
    as (_ & code & _ & Hc & _); try done; eauto.
  - by rewrite lookup_insert_eq.
  - destruct (decide (a = b)) as [->|Hab].
    + rewrite lookup_insert_eq. assert (ra = rb) as -> by congruence. congruence.
    + by rewrite lookup_insert_ne, lookup_singleton_eq.
Qed.

Lemma emit_known_ok d k args :
  native_inst (ICallKnown d k args) = true -> compilable user_funcs (ICallKnown d k args) = true ->
  (forall v, v ∈ args -> has_repr v) ->
  (forall d' r, inst_repr lat (ICallKnown d k args) = Some (d', r) -> r ⊑ get lat d') ->
  exists code, emit_known_call reprs d k args = Ok code.
Proof.
  intros Hn Hc Hu Hle. cbn in Hn. rewrite !andb_true_iff, !negb_true_iff in Hn. destruct Hn as [[Harr Hce] _].
  assert (Hbox : exists code, emit_boxed_known reprs k args = Ok code).
  { unfold emit_boxed_known. destruct k; eauto; destruct args as [|? [|]]; eauto; done. }
  unfold emit_known_call. rewrite Harr. destruct (repr_of reprs d) eqn:Hr; [done|..]; destruct args as [|a [|b [|]]]; try done.
  all: destruct (Hu a ltac:(set_solver)) as [ra Ha], (Hu b ltac:(set_solver)) as [rb Hb].
  all: specialize (Hle d _ eq_refl); rewrite Ha, Hb in Hle; destruct (known_repr_some k ra rb) as [r Hk]; rewrite Hk in Hle.
  all: assert (Hd : get lat d = Some r) by (destruct (le_some _ _ Hle) as [|Hd]; [done|]; by rewrite (repr_of_get _ _ _ Hd) in Hr).
  all: rewrite (repr_of_get _ _ _ Hd) in Hr; subst r.
  all: eapply emit_unboxed_ok; try done; by intros ->.
Qed.

Lemma translate_inst_ok rp i :
  native_inst i = true -> compilable user_funcs i = true -> (forall v, v ∈ uses i -> has_repr v) ->
  (forall d r, inst_repr lat i = Some (d, r) -> r ⊑ get lat d) ->
  exists ss, translate_inst reprs user_funcs rp i = Ok ss.
Proof.
  intros Hn Hc Hu Hle. destruct i; try done; cbn [translate_inst]; eauto.
  - unfold alloc_closure. cbn in Hn, Hc. apply andb_true_iff in Hc as [Hd Hc].
    destruct (arity_fn_names template) as [|n [|n' ns]]; [done|..].
    + destruct (is_variadic template), (param_counts template); try done. cbn in Hd. rewrite andb_true_r in Hd. rewrite Hd. eauto.
    + rewrite Hd. eauto.
  - destruct (emit_known_ok dst known args) as [code ->]; eauto.
  - cbn in Hc. rewrite Hc. eauto.
Qed.

Lemma translate_insts_ok rp is_ :
  (forall i, i ∈ is_ -> native_inst i = true /\ compilable user_funcs i = true) ->
  (forall i v, i ∈ is_ -> v ∈ uses i -> has_repr v) ->
  (forall i d r, i ∈ is_ -> inst_repr lat i = Some (d, r) -> r ⊑ get lat d) ->
  exists ss, translate_insts reprs user_funcs rp is_ = Ok ss.
Proof.
  induction is_ as [|i is_ IH]; intros Hn Hu Hle; cbn; [eauto|].
  assert (Hi : i ∈ i :: is_) by (apply elem_of_cons; by left). destruct (Hn i Hi).
  destruct (translate_inst_ok rp i) as [s1 ->]; eauto. cbn.
  assert (Htail : forall j, j ∈ is_ -> j ∈ i :: is_) by (intros j Hj; apply elem_of_cons; by right).
  destruct IH as [ss ->]; cbn; eauto.
Qed.

(** ** Edges *)

Lemma phi_args_ok prev ps :
  (forall m, m ∈ phi_moves prev ps -> has_repr m.2 /\ get lat m.2 ⊑ get lat m.1) -> exists es, phi_args reprs prev ps = Ok es.
Proof.
  induction ps as [|i ps IH]; intros Hm; cbn; [eauto|]. destruct i; try (by apply IH). cbn in Hm. unfold phi_source in Hm.
  destruct (List.find _ _) as [[p v]|]; [|by apply IH]. cbn in Hm.
  destruct (Hm (dst, v)) as [Hv Hle]; [apply elem_of_cons; by left|]. destruct (coerce_ok v dst Hv Hle) as [e ->]. cbn.
  destruct IH as [es ->]; [|cbn; eauto]. intros m Hm'. apply Hm, elem_of_cons. by right.
Qed.

Lemma recur_args_ok prev ps args :
  complete_for prev ps -> args = map snd (phi_moves prev ps) ->
  (forall m, m ∈ phi_moves prev ps -> has_repr m.2 /\ get lat m.2 ⊑ get lat m.1) -> exists es, recur_args reprs args ps = Ok es.
Proof.
  revert args. induction ps as [|i ps IH]; intros args Hc -> Hm; cbn; [eauto|].
  destruct (complete_head _ _ _ Hc) as (d & entries & v & -> & Hv). cbn in Hm. rewrite Hv in Hm |- *. cbn.
  destruct (Hm (d, v)) as [Hv' Hle]; [apply elem_of_cons; by left|]. destruct (coerce_ok v d Hv' Hle) as [e ->]. cbn.
  destruct (IH _ (complete_tail _ _ _ Hc) eq_refl) as [es ->]; [|cbn; eauto]. intros m Hm'. apply Hm, elem_of_cons. by right.
Qed.

Section Function.
Context (f : IrFunction) (Hsol : solution f lat) (Hready : native_ready f).
Context (Htargets : forall b s, b ∈ blocks f -> s ∈ successors (terminator b) -> s ∈ ids f).
Context (Hinsts : forall b i, b ∈ blocks f -> i ∈ insts b -> native_inst i = true /\ compilable user_funcs i = true).

(** The operands of the block and of its edges have a representation. *)
Definition operands_known (b : Block) : Prop :=
  (forall i v, i ∈ insts b -> v ∈ uses i -> has_repr v) /\
  (forall s v, s ∈ blocks f -> block_id s ∈ successors (terminator b) -> v ∈ map snd (phi_moves (block_id b) (phis s)) -> has_repr v).

Lemma edge_moves b s : b ∈ blocks f -> s ∈ blocks f -> block_id s ∈ successors (terminator b) -> operands_known b ->
  forall m, m ∈ phi_moves (block_id b) (phis s) -> has_repr m.2 /\ get lat m.2 ⊑ get lat m.1.
Proof.
  intros Hb Hs Hsucc [_ Hk] m Hm. split.
  - apply (Hk s); [done|done|]. by apply list_elem_of_fmap_2.
  - revert m Hm. apply moves_le. intros i d r Hi. apply (solution_inst lat f Hsol s); [done|]. apply elem_of_app. by left.
Qed.

Lemma target_ok b target : b ∈ blocks f -> target ∈ successors (terminator b) ->
  exists s, s ∈ blocks f /\ block_id s = target /\ find_block f target = Some s /\ block_map f target = Ok target.
Proof.
  intros Hb Ht. pose proof (Htargets b target Hb Ht) as Hin. apply list_elem_of_fmap in Hin as (s & -> & Hs). exists s.
  split_and!; [done|done| |].
  - apply find_block_lookup; [done|]. apply lookup_block_in; [apply Hready|done].
  - unfold block_map. rewrite (proj2 (existsb_exists _ _)); [done|]. exists s. split; [by apply list_elem_of_In|apply Z.eqb_refl].
Qed.

Lemma translate_terminator_ok b : b ∈ blocks f -> operands_known b ->
  exists r, translate_terminator reprs f (block_id b) (terminator b) = Ok r.
Proof.
  intros Hb Hk.
  assert (Hphi : forall target, target ∈ successors (terminator b) -> exists es, collect_phi_args reprs f target (block_id b) = Ok es).
  { intros target Ht. destruct (target_ok b target Hb Ht) as (s & Hs & <- & Hf & _). unfold collect_phi_args. rewrite Hf.
    apply phi_args_ok. by apply edge_moves. }
  destruct (terminator b) as [t|c t e|v|t args|] eqn:Htm; cbn [translate_terminator]; eauto.
  - assert (Ht : t ∈ successors (terminator b)) by (rewrite Htm; cbn; set_solver).
    destruct (target_ok b t Hb Ht) as (s & _ & _ & _ & ->). cbn. rewrite <- Htm in Hphi. destruct (Hphi t Ht) as [es ->]. cbn. eauto.
  - assert (Ht : t ∈ successors (terminator b)) by (rewrite Htm; cbn; set_solver).
    assert (He : e ∈ successors (terminator b)) by (rewrite Htm; cbn; set_solver). rewrite <- Htm in Hphi.
    destruct (target_ok b t Hb Ht) as (s & _ & _ & _ & ->). cbn. destruct (target_ok b e Hb He) as (s' & _ & _ & _ & ->). cbn.
    destruct (Hphi t Ht) as [es ->]. cbn. destruct (Hphi e He) as [es' ->]. cbn. eauto.
  - assert (Ht : t ∈ successors (terminator b)) by (rewrite Htm; cbn; set_solver).
    destruct (target_ok b t Hb Ht) as (s & Hs & Hid & Hf & ->). cbn. rewrite Hf. subst t.
    destruct (recur_args_ok (block_id b) (phis s) args) as [es ->]; [..|cbn; eauto].
    + by apply (nr_edge f Hready).
    + by apply (nr_recur f Hready b (block_id s) args s).
    + by apply edge_moves.
Qed.

Lemma translate_block_ok extra en b : b ∈ blocks f -> operands_known b ->
  exists nb, translate_block reprs user_funcs f extra en b = Ok nb.
Proof.
  intros Hb Hk. unfold translate_block.
  destruct (translate_insts_ok (takes_region_param f) (insts b)) as [body ->].
  - intros i. by apply Hinsts.
  - apply Hk.
  - intros i d r Hi. apply (solution_inst lat f Hsol b); [done|]. apply elem_of_app. by right.
  - cbn. destruct (translate_terminator_ok b Hb Hk) as [t ->]. cbn. eauto.
Qed.

Lemma translate_native_ok specs : (forall b, b ∈ blocks f -> operands_known b) -> blocks f <> [] ->
  exists nf, translate reprs user_funcs specs f = Ok nf.
Proof.
  intros Hk Hne.
  assert (Hbs : forall bs, (forall b, b ∈ bs -> b ∈ blocks f) -> exists nbs, translate_blocks reprs user_funcs f bs = Ok nbs).
  { induction bs as [|b bs IH]; intros Hin; cbn; [eauto|].
    destruct (translate_block_ok [] false b) as [nb ->]; [apply Hin, elem_of_cons; by left|apply Hk, Hin, elem_of_cons; by left|]. cbn.
    destruct IH as [nbs ->]; [|cbn; eauto]. intros c Hc. apply Hin, elem_of_cons. by right. }
  assert (exists entry rest, blocks f = entry :: rest) as (entry & rest & Hblocks)
    by (clear -Hne; destruct (blocks f); [done|eauto]).
  assert (Hin : forall b, b ∈ entry :: rest -> b ∈ blocks f) by (by rewrite Hblocks).
  unfold translate. rewrite Hblocks. destruct (is_specialized specs f).
  - destruct (Hbs (entry :: rest) Hin) as [nbs ->]. cbn. eauto.
  - assert (He : entry ∈ blocks f) by (apply Hin, elem_of_cons; by left).
    destruct (translate_block_ok (map snd (params f)) true entry He (Hk entry He)) as [nb ->]. cbn.
    destruct (Hbs rest) as [nbs ->]; [intros b Hb; apply Hin, elem_of_cons; by right|]. cbn. eauto.
Qed.

(** ** Which operands have a representation *)

Lemma inst_repr_some i d :
  native_inst i = true -> (forall v, v ∈ uses i -> has_repr v) -> dst i = Some d -> exists r, inst_repr lat i = Some (d, Some r).
Proof.
  intros Hn Hu Hd. destruct i; try done; try (injection Hd as <-; cbn; eauto; fail).
  injection Hd as <-. destruct args as [|a [|b [|c args]]]; try (destruct known; eexists; reflexivity).
  destruct (Hu a ltac:(set_solver)) as [ra Ha], (Hu b ltac:(set_solver)) as [rb Hb].
  cbn [inst_repr]. rewrite Ha, Hb. destruct (known_repr_some known ra rb) as [r ->]. eauto.
Qed.

Lemma reads_known (s : gset VarId) is_ :
  reads_ok s is_ = true -> (forall i, i ∈ is_ -> native_inst i = true) -> (forall v, v ∈ s -> has_repr v) ->
  (forall i d r, i ∈ is_ -> inst_repr lat i = Some (d, r) -> r ⊑ get lat d) ->
  (forall i v, i ∈ is_ -> v ∈ uses i -> has_repr v) /\ (forall i d, i ∈ is_ -> dst i = Some d -> has_repr d).
Proof.
  revert s. induction is_ as [|i is_ IH]; intros s Hr Hn Hs Hle; [split; intros ? ? []%elem_of_nil|].
  cbn [reads_ok] in Hr. apply andb_true_iff in Hr as [Hu Hr]. rewrite forallb_forall in Hu.
  assert (Huses : forall v, v ∈ uses i -> has_repr v).
  { intros v Hv. apply Hs. apply list_elem_of_In, Hu in Hv. by apply bool_decide_eq_true in Hv. }
  assert (Hdst : forall d, dst i = Some d -> has_repr d).
  { intros d Hd. destruct (inst_repr_some i d) as [r Hi]; [apply Hn, elem_of_cons; by left|done|done|].
    unfold has_repr. destruct (le_some _ _ (Hle i d _ ltac:(apply elem_of_cons; by left) Hi)) as [-> | ->]; eauto. }
  destruct (IH _ Hr) as [IHu IHd].
  - intros j Hj. apply Hn, elem_of_cons. by right.
  - intros v. rewrite elem_of_union, elem_of_list_to_set. intros [Hv|Hv]; [|by apply Hs].
    destruct (dst i) as [d|]; [|by apply elem_of_nil in Hv]. apply list_elem_of_singleton in Hv as ->. by apply Hdst.
  - intros j d r Hj. apply Hle, elem_of_cons. by right.
  - split; intros j v [->|Hj]%elem_of_cons; eauto.
Qed.

Context (entry : Block) (rest : list Block) (a : BlockId -> gset VarId) (Hblocks : blocks f = entry :: rest).
Context (Hdef : defined_before_use f (block_id entry) a) (Hparams : forall v, v ∈ map snd (params f) -> has_repr v).

Definition known_at (b : Block) : Prop := forall v, v ∈ a (block_id b) ∪ list_to_set (phi_defs b) -> has_repr v.

Lemma block_known b : b ∈ blocks f -> known_at b ->
  (forall i v, i ∈ insts b -> v ∈ uses i -> has_repr v) /\
  (forall v, v ∈ a (block_id b) ∪ list_to_set (block_defs b) -> has_repr v).
Proof.
  intros Hb Hk. destruct (reads_known _ _ (du_reads _ _ _ Hdef b Hb)) as [Hu Hd]; [|exact Hk| |].
  - intros i. by apply Hinsts.
  - intros i d r Hi. apply (solution_inst lat f Hsol b); [done|]. apply elem_of_app. by right.
  - split; [done|]. intros v. unfold block_defs. rewrite list_to_set_app_L, (assoc_L (∪)), elem_of_union.
    intros [Hv|Hv]; [by apply Hk|]. apply elem_of_list_to_set, list_elem_of_bind in Hv as (i & Hv & Hi).
    destruct (dst i) as [d|] eqn:Hdst; [|by apply elem_of_nil in Hv]. apply list_elem_of_singleton in Hv as ->. by apply (Hd i).
Qed.

Lemma succ_known b s : b ∈ blocks f -> s ∈ blocks f -> block_id s ∈ successors (terminator b) -> known_at b ->
  (forall v, v ∈ map snd (phi_moves (block_id b) (phis s)) -> has_repr v) /\ known_at s.
Proof.
  intros Hb Hs Hsucc Hk. destruct (block_known b Hb Hk) as [_ Hout]. destruct (du_edge _ _ _ Hdef b s Hb Hs Hsucc) as (Ha & Hm & Hp).
  assert (Hsrc : forall v, v ∈ map snd (phi_moves (block_id b) (phis s)) -> has_repr v) by auto. split; [done|].
  intros v [Hv|Hv]%elem_of_union; [by apply Hout, Ha|].
  apply elem_of_list_to_set, Hp, list_elem_of_fmap in Hv as ([d u] & -> & Hdu).
  apply (has_repr_le u); [apply Hsrc; by apply (list_elem_of_fmap_2 snd _ (d, u))|].
  apply (moves_le lat (block_id b) (phis s)) with (m := (d, u)); [|done].
  intros i d' r Hi. apply (solution_inst lat f Hsol s); [done|]. apply elem_of_app. by left.
Qed.

Lemma reachable_known b : rtc (succ f) (block_id entry) b -> exists blk, blk ∈ blocks f /\ block_id blk = b /\ known_at blk.
Proof.
  revert b. refine (rtc_ind_r _ _ _ _).
  - exists entry. split_and!; [rewrite Hblocks; apply elem_of_cons; by left|done|].
    destruct (nr_entry f Hready entry rest Hblocks) as [Hphis _]. intros v. unfold phi_defs. rewrite Hphis. cbn.
    intros [Hv|Hv]%elem_of_union; [|by apply elem_of_empty in Hv]. apply (du_entry _ _ _ Hdef), elem_of_list_to_set in Hv. by apply Hparams.
  - intros b c _ (t & (blk & Hblk & Hid & Ht) & Hc) (blk' & Hblk' & Hid' & Hk). subst t.
    assert (blk' = blk) as -> by (apply (block_unique f); [apply Hready|done|done|congruence]).
    pose proof (Htargets blk c Hblk Hc) as Hin. apply list_elem_of_fmap in Hin as (s & -> & Hs). exists s.
    split_and!; [done|done|]. by apply (succ_known blk s).
Qed.

Lemma all_operands_known : (forall b, b ∈ blocks f -> rtc (succ f) (block_id entry) (block_id b)) ->
  forall b, b ∈ blocks f -> operands_known b.
Proof.
  intros Hreach b Hb. destruct (reachable_known _ (Hreach b Hb)) as (b' & Hb' & Hid & Hk).
  assert (b' = b) as -> by (apply (block_unique f); [apply Hready|done..]). split; [by apply block_known|].
  intros s v Hs Hsucc. by apply (succ_known b s).
Qed.

End Function.
End Total.

(** The code generator accepts every well-formed function of the fragment:
    when the entry leads to every block, every target exists, registers are
    defined before they are read and the functions that are named are declared,
    compiling it with any specialisations gives code; no operand has an
    unsupported representation and no phi joins representations that disagree. *)
Theorem compile_total (user_funcs : list Z -> bool) (f : IrFunction) (specs : list Repr) (entry : Block)
    (rest : list Block) (a : BlockId -> gset VarId) :
  native_ready f -> blocks f = entry :: rest ->
  (forall b s, b ∈ blocks f -> s ∈ successors (terminator b) -> s ∈ ids f) ->
  (forall b, b ∈ blocks f -> rtc (succ f) (block_id entry) (block_id b)) ->
  defined_before_use f (block_id entry) a ->
  (forall b i, b ∈ blocks f -> i ∈ insts b -> native_inst i = true /\ compilable user_funcs i = true) ->
  exists nf, compile_function_with_specs user_funcs f specs = Ok nf.
Proof.
  intros Hready Hbs Ht Hreach Hdef Hi. unfold compile_function_with_specs, infer.
  destruct (infer_lattice_total f (merged_specs f specs)) as [lat Hl]. rewrite Hl. cbn.
  destruct (infer_loop_solution _ _ _ _ Hl) as [Hsol _].
  apply (translate_native_ok lat user_funcs f Hsol Hready Ht Hi); [|by rewrite Hbs].
  apply (all_operands_known lat user_funcs f Hsol Hready Ht Hi entry rest a Hbs Hdef); [|done].
  intros v (i & Hv)%list_elem_of_lookup. pose proof (list_elem_of_lookup_2 _ _ _ Hv) as Hin.
  destruct (nr_params_once f Hready v Hin) as [H1 H2].
  eexists. eapply param_repr; try done. apply Hready.
Qed.

(** * Deciding the hypotheses *)

Definition completeb (prev : BlockId) (ps : list Inst) : bool :=
  forallb (fun i => match i with IPhi _ entries => bool_decide (is_Some (phi_source prev entries)) | _ => false end) ps.

Definition edges_ok (f : IrFunction) (b : Block) : bool :=
  forallb (fun s =>
    if bool_decide (block_id s ∈ successors (terminator b)) then
      completeb (block_id b) (phis s) &&
      match terminator b with
      | RecurJump _ args => bool_decide (args = map snd (phi_moves (block_id b) (phis s)))
      | _ => true
      end
    else true) (blocks f).

Definition native_check (f : IrFunction) : bool :=
  bool_decide (NoDup (ids f)) && forallb (edges_ok f) (blocks f) &&
  match blocks f with
  | [] => true
  | entry :: _ =>
      bool_decide (phis entry = []) &&
      forallb (fun b => negb (bool_decide (block_id entry ∈ successors (terminator b)))) (blocks f)
  end &&
  bool_decide (NoDup (map snd (params f))) &&
  forallb (fun v => negb (bool_decide (v ∈ all_dsts f)) && negb (bool_decide (v ∈ map fst (local_seed_reprs f)))) (map snd (params f)).

#[export] Instance Inst_list_nil_dec (l : list Inst) : Decision (l = []).
Proof. destruct l; [left|right]; done. Defined.

Lemma edges_ok_spec f b s :
  edges_ok f b = true -> s ∈ blocks f -> block_id s ∈ successors (terminator b) ->
  completeb (block_id b) (phis s) = true /\
  match terminator b with RecurJump _ args => args = map snd (phi_moves (block_id b) (phis s)) | _ => True end.
Proof.
  unfold edges_ok. rewrite forallb_forall. intros He Hs%list_elem_of_In Hsucc. specialize (He s Hs).
  rewrite bool_decide_eq_true_2 in He by done. apply andb_true_iff in He as [Hc Hr]. split; [done|].
  destruct (terminator b); try done. by apply bool_decide_eq_true in Hr.
Qed.

Lemma native_check_sound f : native_check f = true -> native_ready f.
Proof.
  unfold native_check. rewrite !andb_true_iff, !bool_decide_eq_true, !forallb_forall.
  intros ((((Hids & Hedges) & Hentry) & Hnd) & Hparams). constructor; try done.
  - intros b s Hb Hs Hsucc i Hi. apply list_elem_of_In in Hb. destruct (edges_ok_spec f b s (Hedges b Hb) Hs Hsucc) as [Hc _].
    unfold completeb in Hc. rewrite forallb_forall in Hc. apply list_elem_of_In, Hc in Hi. destruct i; try done.
    apply bool_decide_eq_true in Hi as [v Hv]. eauto.
  - intros b target args s Hb Ht Hs <-. apply list_elem_of_In in Hb.
    destruct (edges_ok_spec f b s (Hedges b Hb) Hs) as [_ Hr]; [rewrite Ht; cbn; set_solver|]. by rewrite Ht in Hr.
  - intros entry rest Hbs. rewrite Hbs in Hentry. apply andb_true_iff in Hentry as [Hp Hs]. apply bool_decide_eq_true in Hp.
    split; [done|]. intros b Hb. rewrite Hbs, list_elem_of_In in Hb. rewrite forallb_forall in Hs. specialize (Hs b Hb).
    by apply negb_true_iff, bool_decide_eq_false in Hs.
  - intros v Hv. apply list_elem_of_In, Hparams in Hv. rewrite andb_true_iff, !negb_true_iff, !bool_decide_eq_false in Hv. done.
Qed.

Lemma insts_check (p : Inst -> bool) (f : IrFunction) : forallb (fun b => forallb p (insts b)) (blocks f) = true ->
  forall b i, b ∈ blocks f -> i ∈ insts b -> p i = true.
Proof.
  rewrite forallb_forall. intros Hp b i Hb%list_elem_of_In Hi%list_elem_of_In. specialize (Hp b Hb).
  rewrite forallb_forall in Hp. by apply Hp.
Qed.

(** * A small runtime *)

(** The pending exception and what was printed. *)
Abbreviation log := (option (RtValue string) * list (RtValue string))%type.

#[export] Instance string_other_eq : OtherEq string := fun x y =>
  match x, y with VOther a, VOther b => bool_decide (a = b) | _, _ => false end.

#[export] Instance log_host : NativeHost string log := {|
  const_other _ := "constant"%string;
  host_known k xs h := match k, xs with KPrintln, [x] => (VNil, (h.1, h.2 ++ [x])) | _, _ => (VNil, h) end;
  host_inst _ _ h := (VNil, h);
  host_array _ _ h := (RawPtr VNil, h);
  gas_charge _ h := (true, h);
  rt_throw x h := (Some x, h.2);
  overflow_error := "integer overflow"%string
|}.

Definition no_funcs (name : list Z) : bool := false.

(** [sum_loop] with its parameter specialised. *)
Definition sum_native : NativeFn :=
  match compile_function_with_specs no_funcs sum_loop [RLong] with Ok nf => nf | _ => mkNativeFn None 0 [] end.

Definition sum_lattice : lattice := default ∅ (infer_lattice sum_loop [RLong]).

Lemma native_code_refines_witness :
  run_native 20 sum_native [VLong 6] (None, []) = Some (NReturned (VLong 15) (None, [])) /\
  run_native 20 sum_native [VDouble (S754_zero false)] (None, []) = Some NDeopt.
Proof.
  assert (Hready : native_ready sum_loop) by (apply native_check_sound; vm_compute; reflexivity).
  assert (Hspecs : forall i, scalar_repr (spec_at (merged_specs sum_loop [RLong]) i) = true) by (by intros [|[|i]]).
  split.
  - refine (native_code_refines sum_lattice no_funcs sum_loop [RLong] sum_native
      (mkBlock 0 [] [IConst 1 (CLong 0); IConst 2 (CLong 0)] (Jump 1)) _ [VLong 6] (None, []) 20 (BReturned (VLong 15) (None, []))
      Hready _ Hspecs eq_refl _ _ eq_refl _ _).
    + apply insts_check. vm_compute. reflexivity.
    + vm_compute. reflexivity.
    + vm_compute. reflexivity.
    + intros x Hx. apply list_elem_of_singleton in Hx as ->. reflexivity.
    + vm_compute. reflexivity.
  - refine (native_code_refines sum_lattice no_funcs sum_loop [RLong] sum_native
      (mkBlock 0 [] [IConst 1 (CLong 0); IConst 2 (CLong 0)] (Jump 1)) _ [VDouble (S754_zero false)] (None, []) 20
      (BReturned (VLong 0) (None, [])) Hready _ Hspecs eq_refl _ _ eq_refl _ _).
    + apply insts_check. vm_compute. reflexivity.
    + vm_compute. reflexivity.
    + vm_compute. reflexivity.
    + intros x Hx. apply list_elem_of_singleton in Hx as ->. reflexivity.
    + vm_compute. reflexivity.
Defined.

(** The largest long plus one. *)
Lemma unboxed_agrees_with_bridge_witness :
  exists g code, bridge (X := string) KAdd = Some g /\
    emit_unboxed_known (NativeSpec.reprs {[ 1 := Some RLong; 2 := Some RLong ]}) RLong KAdd 1 2 = Ok code /\
    computes (H := log) RLong {[ 1 := RawI64 i64_max; 2 := RawI64 1 ]} code (g (VLong i64_max) (VLong 1)).
Proof.
  apply (unboxed_agrees_with_bridge {[ 1 := Some RLong; 2 := Some RLong ]} KAdd RLong
    {[ 1 := RawI64 i64_max; 2 := RawI64 1 ]} 1 2 RLong RLong (VLong i64_max) (VLong 1) (RawI64 i64_max) (RawI64 1));
    first [done | vm_compute; reflexivity].
Defined.

Definition reach_step (f : IrFunction) (l : list BlockId) : list BlockId :=
  l ++ (filter (fun b => block_id b ∈ l) (blocks f) ≫= fun b => successors (terminator b)).

Lemma reach_steps_sound f e n b : b ∈ Nat.iter n (reach_step f) [e] -> rtc (succ f) e b.
Proof.
  revert b. induction n as [|n IH]; intros b Hb; cbn in Hb; [apply list_elem_of_singleton in Hb as ->; apply rtc_refl|].
  apply elem_of_app in Hb as [Hb|Hb]; [by apply IH|]. apply list_elem_of_bind in Hb as (blk & Hs & Hblk).
  apply list_elem_of_filter in Hblk as [Hid Hblk]. eapply rtc_r; [by apply IH|]. exists (terminator blk). split; [|done].
  by exists blk.
Qed.

Lemma compile_total_witness : exists nf, compile_function_with_specs no_funcs sum_loop [] = Ok nf.
Proof.
  apply (compile_total no_funcs sum_loop [] (mkBlock 0 [] [IConst 1 (CLong 0); IConst 2 (CLong 0)] (Jump 1)) (tail (blocks sum_loop)) sum_defined).
  - apply native_check_sound. vm_compute. reflexivity.
  - reflexivity.
  - intros b s Hb Hs. repeat (apply elem_of_cons in Hb as [->|Hb]; [cbn in Hs |- *; set_solver|]). by apply elem_of_nil in Hb.
  - intros b Hb. apply (reach_steps_sound _ _ 3).
    repeat (apply elem_of_cons in Hb as [->|Hb]; [apply (bool_decide_unpack _); vm_compute; exact I|]). by apply elem_of_nil in Hb.
  - apply defines_sound. vm_compute. reflexivity.
  - intros b i Hb Hi. apply andb_true_iff.
    apply (insts_check (fun i => native_inst i && compilable no_funcs i) sum_loop) with (b := b); [vm_compute; reflexivity|done|done].
Defined.

(** * Where code parts ways *)

(** [(fn [x] (case= x 1))] *)
Definition case_fn : IrFunction :=
  mkIrFunction None [([], 0)]
    [mkBlock 0 [] [IConst 1 (CLong 1); ICallKnown 2 KCaseEq [0; 1]] (Return 2)] 3 1 None [] false false [] [] [].

(** The result of [case=] is inferred unboxed, but the code generator has no
    unboxed code for it: a function with a [case=] is never compiled, although
    a bridge for it exists. *)
Example case_eq_not_compiled :
  infer case_fn [] = Some {[ 1 := RLong; 2 := RBool ]} /\
  compile_function_with_specs no_funcs case_fn [] = Err "unboxed known-call combination not supported"%string.
Proof. split; vm_compute; reflexivity. Qed.

(** [(fn [n] (println (+ n 1)))] *)
Definition print_next : IrFunction :=
  mkIrFunction None [([], 0)]
    [mkBlock 0 [] [IConst 1 (CLong 1); ICallKnown 2 KAdd [0; 1]; ICallKnown 3 KPrintln [2]] (Return 3)]
    4 1 None [] false false [] [] [].

Definition run_print_next (specs : list Repr) (n : Z) : option (NResult (X := string) (H := log)) :=
  match compile_function_with_specs no_funcs print_next specs with
  | Ok nf => run_native 5 nf [VLong n] (None, [])
  | _ => None
  end.

(** An overflow ends specialised code at once; unspecialised code goes on with
    nil, prints it, and leaves the exception pending. *)
Example boxed_overflow_continues :
  run_print_next [RLong] i64_max = Some (NReturned VNil (Some (VOther "integer overflow"%string), [])) /\
  run_print_next [] i64_max = Some (NReturned VNil (Some (VOther "integer overflow"%string), [VNil])) /\
  run_print_next [RLong] 41 = run_print_next [] 41.
Proof. split_and!; vm_compute; reflexivity. Qed.

(** The most negative long divided by minus one panics in its bridge. *)
Example division_panics : rt_div (X := string) (VLong i64_min) (VLong (-1)) = BPanic.
Proof. reflexivity. Qed.
