(* ===== verification/Frame.v ===== *)
(** Framing of byte streams (crates/cljrs-net/src/frame.rs): line, delimiter
    and length-prefixed framers, their encoders, and the task that pipes a
    channel of byte chunks through a framer.

    A framer is an instance of the class [Framer]; [FramerLaws] states that it
    does not matter how the stream is cut into chunks. *)
From stdpp Require Import strings.
From S2P Require Import Prelude RustStd.
Local Open Scope Z_scope.

(** * Values on the channels *)

Inductive FrameValue : Type :=
| FvStr (s : list Z)
| FvBytes (b : list Z)
| FvError (msg : string)
| FvOther.

Inductive FramerKind : Type :=
| Lines
| Delimiter (d : Z)
| LengthPrefixed (prefix_len : nat) (big_endian : bool) (max_frame : Z).

(** The trait [Framer]. *)
Class Framer (F : Type) : Type := {
  feed : list Z -> F -> outcome Empty_set (list FrameValue * F);
  finish : F -> option FrameValue * F
}.

(** [String::from_utf8_lossy]: valid UTF-8 is decoded as it is. *)
Class Utf8Lossy : Type := {
  from_utf8_lossy : list Z -> list Z;
  from_utf8_lossy_valid b s : utf8_decode b = Some s -> from_utf8_lossy b = s
}.

(** ** Delimited frames *)

(** [buf.iter().position(|&b| b == delim)] *)
Fixpoint position (d : Z) (buf : list Z) : option nat :=
  match buf with
  | [] => None
  | b :: buf' => if b =? d then Some O else S <$> position d buf'
  end.

(** The loop of [feed]: drain up to the delimiter, remove it, emit. *)
Fixpoint drain_frames (fuel : nat) (d : Z) (mk : list Z -> FrameValue) (buf : list Z)
    : outcome Empty_set (list FrameValue * list Z) :=
  match fuel with
  | O => OutOfFuel
  | S fuel' =>
      match position d buf with
      | None => Ok ([], buf)
      | Some pos =>
          r ← drain_frames fuel' d mk (drop (S pos) buf);
          Ok (mk (take pos buf) :: r.1, r.2)
      end
  end.

(** [if line.last() == Some(&b'\r') { line.pop(); }] *)
Definition strip_cr (line : list Z) : list Z :=
  match last line with
  | Some 13 => removelast line
  | _ => line
  end.

Record LinesFramer : Type := mkLinesFramer { lines_buf : list Z }.

Record DelimiterFramer : Type := mkDelimiterFramer { delim : Z; delim_buf : list Z }.

Section Lines.
Context {U : Utf8Lossy}.

Definition line_value (line : list Z) : FrameValue := FvStr (from_utf8_lossy (strip_cr line)).

#[export] Instance lines_framer : Framer LinesFramer := {|
  feed bytes f :=
    let buf := lines_buf f ++ bytes in
    r ← drain_frames (S (length buf)) 10 line_value buf;
    Ok (r.1, mkLinesFramer r.2);
  finish f :=
    match lines_buf f with
    | [] => (None, f)
    | line => (Some (line_value line), mkLinesFramer [])
    end
|}.

End Lines.

#[export] Instance delimiter_framer : Framer DelimiterFramer := {|
  feed bytes f :=
    let buf := delim_buf f ++ bytes in
    r ← drain_frames (S (length buf)) (delim f) FvBytes buf;
    Ok (r.1, mkDelimiterFramer (delim f) r.2);
  finish f :=
    match delim_buf f with
    | [] => (None, f)
    | frame => (Some (FvBytes frame), mkDelimiterFramer (delim f) [])
    end
|}.

(** ** Length-prefixed frames *)

Inductive LpState : Type := Header | Body (body_len : Z) | Errored.

Record LengthPrefixedFramer : Type := mkLengthPrefixed {
  prefix_len : nat;
  big_endian : bool;
  max_frame : Z;
  lp_buf : list Z;
  lp_state : LpState
}.

Definition LengthPrefixedFramer_new (n : nat) (big : bool) (max : Z) : LengthPrefixedFramer :=
  mkLengthPrefixed n big max [] Header.

(** [n = (n << 8) | (b as u64)] *)
Definition shift_in (n b : Z) : Z := Z.lor (wrap_u64 (Z.shiftl n 8)) b.

Definition parse_length (big : bool) (header : list Z) : Z :=
  fold_left shift_in (if big then header else rev header) 0.

Definition oversized (body_len max : Z) : FrameValue := FvError "length-prefixed frame exceeds max-frame limit".

(** The loop of [feed]. *)
Fixpoint lp_loop (fuel : nat) (n : nat) (big : bool) (max : Z) (st : LpState) (buf : list Z)
    : outcome Empty_set (list FrameValue * LpState * list Z) :=
  match fuel with
  | O => OutOfFuel
  | S fuel' =>
      match st with
      | Header =>
          if (length buf <? n)%nat then Ok ([], Header, buf)
          else
            let body_len := parse_length big (take n buf) in
            if max <? body_len then Ok ([oversized body_len max], Errored, [])
            else lp_loop fuel' n big max (Body body_len) (drop n buf)
      | Body body_len =>
          if Z.of_nat (length buf) <? body_len then Ok ([], Body body_len, buf)
          else
            r ← lp_loop fuel' n big max Header (drop (Z.to_nat body_len) buf);
            let '(frames, st', buf') := r in
            Ok (FvBytes (take (Z.to_nat body_len) buf) :: frames, st', buf')
      | Errored => Ok ([], Errored, buf)
      end
  end.

(** A header takes at least one byte, so a round of header and body shortens
    the buffer. *)
Definition lp_fuel (buf : list Z) : nat := (2 * length buf + 3)%nat.

#[export] Instance length_prefixed_framer : Framer LengthPrefixedFramer := {|
  feed bytes f :=
    match lp_state f with
    | Errored => Ok ([], f)
    | st =>
        let buf := lp_buf f ++ bytes in
        r ← lp_loop (lp_fuel buf) (prefix_len f) (big_endian f) (max_frame f) st buf;
        let '(frames, st', buf') := r in
        Ok (frames, mkLengthPrefixed (prefix_len f) (big_endian f) (max_frame f) buf' st')
    end;
  finish f := (None, f)
|}.

(** ** Encoders *)

Definition encode_line (s : list Z) : list Z := utf8_encode s ++ [10].

(** [((len >> (i * 8)) & 0xFF) as u8] *)
Definition length_byte (len : Z) (i : nat) : Z := Z.land (Z.shiftr len (Z.of_nat i * 8)) 255.

Definition encode_length_prefixed (data : list Z) (n : nat) (big : bool) : list Z :=
  let len := wrap_u64 (Z.of_nat (length data)) in
  let header := map (length_byte len) (if big then rev (seq 0 n) else seq 0 n) in
  header ++ data.

(** * The task *)

Definition DEFAULT_MAX_FRAME : Z := 16 * 1024 * 1024.

(** A value taken from the input channel. *)
Inductive Input : Type :=
| InNil
| InError (msg : string)
| InBytes (b : list Z)
| InOther.

(** [chan_put] on an output channel that its reader closes after [room]
    more values ([None]: never). *)
Definition chan_put (room : option nat) : bool * option nat :=
  match room with
  | None => (true, None)
  | Some O => (false, Some O)
  | Some (S n) => (true, Some n)
  end.

(** The frames of one chunk: what was put, and whether the reader is still
    there. *)
Fixpoint put_frames (frames : list FrameValue) (room : option nat) : list FrameValue * bool * option nat :=
  match frames with
  | [] => ([], true, room)
  | fr :: frames' =>
      let '(ok, room') := chan_put room in
      if ok : bool then
        let '(out, open, room'') := put_frames frames' room' in (fr :: out, open, room'')
      else ([], false, room')
  end.

Definition put_last (fr : FrameValue) (room : option nat) : list FrameValue :=
  if (chan_put room).1 then [fr] else [].

Section Task.
Context {F : Type} {FR : Framer F}.

(** What the task puts on the output channel before it closes it; the input
    channel ends with [InNil] when it is closed. *)
Fixpoint framer_task (inputs : list Input) (room : option nat) (f : F) : outcome Empty_set (list FrameValue) :=
  match inputs with
  | [] | InNil :: _ =>
      match (finish f).1 with
      | Some frame => Ok (put_last frame room)
      | None => Ok []
      end
  | InError msg :: _ => Ok (put_last (FvError msg) room)
  | InBytes bytes :: inputs' =>
      r ← feed bytes f;
      let '(frames, f') := r in
      let '(out, open, room') := put_frames frames room in
      if open : bool then more ← framer_task inputs' room' f'; Ok (out ++ more)
      else Ok out
  | InOther :: _ => Ok (put_last (FvError "frame: unexpected value on :in") room)
  end.

End Task.
