(* ===== verification/FrameSpec.v ===== *)
(** Framers do not depend on how the stream is cut into chunks, they decode
    what the encoders write, and the length-prefixed one buffers a bounded
    number of bytes. *)
From stdpp Require Import strings.
From S2P Require Import Prelude RustStd Frame.
Local Open Scope Z_scope.

(** * The laws of a framer *)

(** [settled] framers have emitted every complete frame they hold. *)
Class FramerLaws (F : Type) {FR : Framer F} : Type := {
  settled : F -> Prop;
  feed_nil f : settled f -> feed [] f = Ok ([], f);
  feed_settled bytes f : settled f -> exists frames f', feed bytes f = Ok (frames, f') /\ settled f';
  feed_app a b f : settled f ->
    feed (a ++ b) f = (r ← feed a f; r2 ← feed b r.2; Ok (r.1 ++ r2.1, r2.2))
}.

(** ** Delimited frames *)

Lemma position_app d a b p : position d a = Some p -> position d (a ++ b) = Some p.
Proof.
  revert p. induction a as [|x a IH]; intros p; simpl; [done|]. destruct (x =? d); [done|].
  destruct (position d a) as [q|]; [|done]. simpl. intros [= <-]. by rewrite (IH q eq_refl).
Qed.

Lemma position_lt d buf p : position d buf = Some p -> (p < length buf)%nat.
Proof.
  revert p. induction buf as [|x buf IH]; intros p; simpl; [done|]. destruct (x =? d); [intros [= <-]; lia|].
  destruct (position d buf) as [q|]; [|done]. simpl. intros [= <-]. specialize (IH q eq_refl). lia.
Qed.

Lemma drain_frames_fuel d mk fuel fuel' buf :
  (length buf < fuel)%nat -> (length buf < fuel')%nat -> drain_frames fuel d mk buf = drain_frames fuel' d mk buf.
Proof.
  revert fuel' buf. induction fuel as [|fuel IH]; intros [|fuel'] buf H1 H2; try lia. simpl.
  destruct (position d buf) as [p|] eqn:E; [|done]. apply position_lt in E.
  rewrite (IH fuel') by (rewrite length_drop; lia). done.
Qed.

Lemma drain_ok d mk fuel buf :
  (length buf < fuel)%nat -> exists fs r, drain_frames fuel d mk buf = Ok (fs, r) /\ position d r = None /\
    (length r <= length buf)%nat.
Proof.
  revert buf. induction fuel as [|fuel IH]; intros buf Hf; [lia|]. simpl.
  destruct (position d buf) as [p|] eqn:E; [|by exists [], buf]. apply position_lt in E.
  destruct (IH (drop (S p) buf)) as (fs & r & -> & Hr & Hl); [rewrite length_drop; lia|]. simpl.
  do 2 eexists. split_and!; [done | done|]. rewrite length_drop in Hl. lia.
Qed.

Lemma drain_app d mk fuel a b :
  (length (a ++ b) < fuel)%nat ->
  drain_frames fuel d mk (a ++ b) =
  (r ← drain_frames fuel d mk a; r2 ← drain_frames fuel d mk (r.2 ++ b); Ok (r.1 ++ r2.1, r2.2)).
Proof.
  revert a. induction fuel as [|fuel IH]; intros a Hf; [lia|]. rewrite length_app in Hf.
  destruct (position d a) as [p|] eqn:E.
  - simpl. rewrite (position_app _ _ b _ E), E. apply position_lt in E.
    rewrite take_app_le, drop_app_le by lia. rewrite IH by (rewrite length_app, length_drop; lia).
    destruct (drain_ok d mk fuel (drop (S p) a)) as (fs & r & -> & Hr & Hl); [rewrite length_drop; lia|].
    rewrite length_drop in Hl. cbn [mbind outcome_bind fst snd].
    rewrite (drain_frames_fuel d mk fuel (S fuel) (r ++ b)) by (rewrite length_app; lia). cbn [drain_frames].
    destruct (position d (r ++ b)); [|done]. destruct (drain_frames fuel d mk _); done.
  - cbn [drain_frames]. rewrite E. cbn [mbind outcome_bind fst snd]. 
    destruct (position d (a ++ b)); [|done]. destruct (drain_frames fuel d mk _); done.
Qed.

Lemma drain_nil d mk fuel buf : position d buf = None -> drain_frames (S fuel) d mk buf = Ok ([], buf).
Proof. intros E. simpl. by rewrite E. Qed.

(** Feeding a delimited framer in two steps. *)
Lemma delimited_app d mk buf a b :
  drain_frames (S (length (buf ++ a ++ b))) d mk (buf ++ a ++ b) =
  (r ← drain_frames (S (length (buf ++ a))) d mk (buf ++ a);
   r2 ← drain_frames (S (length (r.2 ++ b))) d mk (r.2 ++ b); Ok (r.1 ++ r2.1, r2.2)).
Proof.
  rewrite app_assoc, drain_app by lia.
  rewrite (drain_frames_fuel d mk _ (S (length (buf ++ a))) (buf ++ a)) by (rewrite ?length_app; lia).
  destruct (drain_ok d mk (S (length (buf ++ a))) (buf ++ a)) as (fs & r & -> & _ & Hl); [lia|]. cbn [mbind outcome_bind fst snd].
  rewrite (drain_frames_fuel d mk _ (S (length (r ++ b))) (r ++ b)) by (rewrite !length_app in *; lia). done.
Qed.

#[export] Program Instance lines_laws {U : Utf8Lossy} : FramerLaws LinesFramer := {|
  settled f := position 10 (lines_buf f) = None
|}.
Next Obligation. intros U [buf] Hs. simpl in *. rewrite app_nil_r, Hs. done. Qed.
Next Obligation.
  intros U bytes [buf] Hs. cbn [feed lines_framer lines_buf].
  destruct (drain_ok 10 line_value (S (length (buf ++ bytes))) (buf ++ bytes)) as (fs & r & -> & Hr & _); [lia|].
  by do 2 eexists.
Qed.
Next Obligation.
  intros U a b [buf] Hs. cbn [feed lines_framer lines_buf]. rewrite delimited_app.
  destruct (drain_frames _ 10 line_value (buf ++ a)) as [r| | |]; try done. cbn [mbind outcome_bind fst snd lines_buf].
  destruct (drain_frames _ 10 line_value (r.2 ++ b)); done.
Qed.

#[export] Program Instance delimiter_laws : FramerLaws DelimiterFramer := {|
  settled f := position (delim f) (delim_buf f) = None
|}.
Next Obligation. intros [d buf] Hs. simpl in *. rewrite app_nil_r, Hs. done. Qed.
Next Obligation.
  intros bytes [d buf] Hs. cbn [feed delimiter_framer delim delim_buf].
  destruct (drain_ok d FvBytes (S (length (buf ++ bytes))) (buf ++ bytes)) as (fs & r & -> & Hr & _); [lia|].
  by do 2 eexists.
Qed.
Next Obligation.
  intros a b [d buf] Hs. cbn [feed delimiter_framer delim delim_buf]. rewrite delimited_app.
  destruct (drain_frames _ d FvBytes (buf ++ a)) as [r| | |]; try done. cbn [mbind outcome_bind fst snd delim delim_buf].
  destruct (drain_frames _ d FvBytes (r.2 ++ b)); done.
Qed.

(** ** Length-prefixed frames *)

Lemma shift_in_spec n b : is_byte b -> 0 <= n -> n * 256 + b < 2 ^ 64 -> shift_in n b = n * 256 + b.
Proof.
  intros Hb Hn Hlt. unfold is_byte in Hb. unfold shift_in, wrap_u64. rewrite Z.shiftl_mul_pow2 by lia. change (2 ^ 8) with 256.
  rewrite Z.mod_small by lia.
  assert (Hl : Z.land (n * 256) b = 0).
  { apply Z.bits_inj'. intros k Hk. rewrite Z.land_spec, Z.bits_0. destruct (Z.ltb_spec k 8).
    - change 256 with (2 ^ 8). rewrite Z.mul_pow2_bits_low by lia. done.
    - assert (Hz : Z.testbit b k = false); [|rewrite Hz; apply andb_false_r].
      destruct (Z.eq_dec b 0) as [->|]; [apply Z.bits_0|]. apply Z.bits_above_log2; [lia|].
      assert (Z.log2 b < 8) by (apply Z.log2_lt_pow2; lia). lia. }
  rewrite <- Z.lxor_lor by done. symmetry. apply Z.add_nocarry_lxor. done.
Qed.

Lemma shift_in_nonneg n b : is_byte b -> 0 <= shift_in n b.
Proof.
  intros Hb. unfold shift_in. apply Z.lor_nonneg. split; [|unfold is_byte in Hb; lia].
  unfold wrap_u64. apply Z.mod_pos_bound. lia.
Qed.

Lemma parse_length_nonneg big header : Forall is_byte header -> 0 <= parse_length big header.
Proof.
  intros Hf. unfold parse_length. assert (Hl : Forall is_byte (if big then header else rev header)).
  { destruct big; [done | by apply Forall_rev]. }
  revert Hl. generalize (if big then header else rev header). intros l Hl.
  assert (Hg : forall n, 0 <= n -> 0 <= fold_left shift_in l n); [|by apply Hg].
  induction Hl as [|b l Hb _ IH]; intros n Hn; simpl; [done|]. apply IH. by apply shift_in_nonneg.
Qed.

#[export] Instance LpState_eq_dec : EqDecision LpState.
Proof. solve_decision. Defined.

(** Rounds of the loop that a buffer can take. *)
Definition need (st : LpState) (buf : list Z) : nat := (2 * length buf + S (match st with Body _ => 1 | _ => 0 end))%nat.

Lemma need_app st a b : need st (a ++ b) = (need st a + 2 * length b)%nat.
Proof. unfold need. rewrite length_app. lia. Qed.

Section LengthPrefixed.
Context (n : nat) (big : bool) (max : Z) (Hn : (1 <= n)%nat).

Definition lp_settled (st : LpState) (buf : list Z) : Prop :=
  match st with
  | Header => (length buf < n)%nat
  | Body body_len => Z.of_nat (length buf) < body_len <= max
  | Errored => buf = []
  end.

Definition lp_started (st : LpState) (buf : list Z) : Prop :=
  match st with
  | Header => True
  | Body body_len => body_len <= max
  | Errored => buf = []
  end.

Lemma lp_ok fuel st buf :
  (need st buf <= fuel)%nat -> lp_started st buf ->
  exists fs st' buf', lp_loop fuel n big max st buf = Ok (fs, st', buf') /\ lp_settled st' buf' /\
    (need st' buf' <= need st buf)%nat.
Proof.
  revert st buf. induction fuel as [|fuel IH]; intros st buf Hf Hs; [unfold need in Hf; lia|]. simpl.
  destruct st as [|body_len|].
  - destruct (Nat.ltb_spec (length buf) n) as [Hlt|Hge]; [by exists [], Header, buf|].
    destruct (Z.ltb_spec max (parse_length big (take n buf))) as [Hm|Hm].
    { eexists _, Errored, []. split_and!; [done | done | unfold need; simpl; lia]. }
    destruct (IH (Body (parse_length big (take n buf))) (drop n buf)) as (fs & st' & buf' & -> & Hst & Hl).
    + unfold need in *. rewrite length_drop. lia.
    + done.
    + exists fs, st', buf'. split_and!; [done | done|]. unfold need at 2 in Hl. rewrite length_drop in Hl. unfold need at 2. lia.
  - destruct (Z.ltb_spec (Z.of_nat (length buf)) body_len) as [Hlt|Hge]; [by exists [], (Body body_len), buf|].
    destruct (IH Header (drop (Z.to_nat body_len) buf)) as (fs & st' & buf' & -> & Hst & Hl).
    + unfold need in *. rewrite length_drop. lia.
    + done.
    + simpl. do 3 eexists. split_and!; [done | done|]. unfold need at 2 in Hl. rewrite length_drop in Hl. unfold need at 2. lia.
  - by exists [], Errored, buf.
Qed.

Lemma lp_mono fuel fuel' st buf :
  (need st buf <= fuel)%nat -> (need st buf <= fuel')%nat -> lp_loop fuel n big max st buf = lp_loop fuel' n big max st buf.
Proof.
  revert fuel' st buf. induction fuel as [|fuel IH]; intros [|fuel'] st buf H1 H2; unfold need in *; try lia.
  simpl. destruct st as [|body_len|]; [| |done].
  - destruct (Nat.ltb_spec (length buf) n); [done|]. destruct (_ <? _); [done|]. apply IH; rewrite length_drop; lia.
  - destruct (_ <? _); [done|]. rewrite (IH fuel'); [done | rewrite length_drop; lia..].
Qed.

(** What happens to more input after a run: it is read on, unless the stream
    is in error. *)
Definition lp_continue (m : nat) (b : list Z) (r : list FrameValue * LpState * list Z)
    : outcome Empty_set (list FrameValue * LpState * list Z) :=
  let '(fs, st, buf) := r in
  match st with
  | Errored => Ok (fs, Errored, [])
  | _ => r2 ← lp_loop m n big max st (buf ++ b); let '(fs2, st2, buf2) := r2 in Ok (fs ++ fs2, st2, buf2)
  end.

Lemma lp_continue_mono m m' b fs st buf :
  (need st (buf ++ b) <= m)%nat -> (need st (buf ++ b) <= m')%nat ->
  lp_continue m b (fs, st, buf) = lp_continue m' b (fs, st, buf).
Proof. intros H1 H2. unfold lp_continue. destruct st; try done; by rewrite (lp_mono m m'). Qed.

Lemma lp_continue_cons m b x fs st buf :
  lp_continue m b (x :: fs, st, buf) =
  (r ← lp_continue m b (fs, st, buf); let '(fs, st, buf) := r in Ok (x :: fs, st, buf)).
Proof. unfold lp_continue. destruct st; try done; by destruct (lp_loop _ _ _ _ _ _) as [[[? ?] ?]| | |]. Qed.

Lemma lp_continue_stop m st a b :
  st <> Errored -> lp_loop m n big max st (a ++ b) = lp_continue m b ([], st, a).
Proof.
  intros Hne. unfold lp_continue. destruct st; try done; by destruct (lp_loop _ _ _ _ _ _) as [[[? ?] ?]| | |].
Qed.

Lemma lp_app fuel st a b :
  (need st (a ++ b) <= fuel)%nat -> lp_started st (a ++ b) ->
  lp_loop fuel n big max st (a ++ b) = (r ← lp_loop fuel n big max st a; lp_continue fuel b r).
Proof.
  revert st a. induction fuel as [|fuel IH]; intros st a Hf Hs; [unfold need in Hf; lia|].
  assert (Hgo : forall st' a', (need st' (a' ++ b) <= fuel)%nat -> lp_started st' (a' ++ b) ->
    exists r, lp_loop fuel n big max st' a' = Ok r /\ lp_loop fuel n big max st' (a' ++ b) = lp_continue (S fuel) b r).
  { intros st' a' Hf' Hs'. rewrite IH by done.
    destruct (lp_ok fuel st' a') as (fs & st2 & buf2 & E & Hst & Hl).
    - rewrite need_app in Hf'. lia.
    - destruct st'; try done. simpl in *. by apply app_eq_nil in Hs' as [-> _].
    - exists (fs, st2, buf2). rewrite E. split; [done|]. apply lp_continue_mono; rewrite need_app in *; lia. }
  destruct st as [|body_len|].
  - destruct (Nat.ltb_spec (length a) n) as [Hlt|Hge].
    { rewrite (lp_continue_stop (S fuel) Header) by done. cbn [lp_loop]. by rewrite (proj2 (Nat.ltb_lt _ _) Hlt). }
    cbn [lp_loop]. rewrite length_app, take_app_le, drop_app_le by lia. rewrite !(proj2 (Nat.ltb_ge _ _)) by lia.
    destruct (Z.ltb_spec max (parse_length big (take n a))) as [Hm|Hm]; [done|].
    destruct (Hgo (Body (parse_length big (take n a))) (drop n a)) as (r & -> & ->); [|done|done].
    unfold need in *. rewrite length_app in *. rewrite length_drop. lia.
  - destruct (Z.ltb_spec (Z.of_nat (length a)) body_len) as [Hlt|Hge].
    { rewrite (lp_continue_stop (S fuel) (Body body_len)) by done. cbn [lp_loop]. by rewrite (proj2 (Z.ltb_lt _ _) Hlt). }
    cbn [lp_loop]. rewrite length_app, take_app_le, drop_app_le by lia. rewrite !(proj2 (Z.ltb_ge _ _)) by lia.
    destruct (Hgo Header (drop (Z.to_nat body_len) a)) as ([[fs st2] buf2] & -> & ->); [|done|].
    { unfold need in *. rewrite length_app in *. rewrite length_drop. lia. }
    cbn [mbind outcome_bind]. symmetry. apply lp_continue_cons.
  - simpl in Hs. apply app_eq_nil in Hs as [-> ->]. done.
Qed.

End LengthPrefixed.

Definition lp_framer_settled (f : LengthPrefixedFramer) : Prop :=
  (1 <= prefix_len f)%nat /\ lp_settled (prefix_len f) (max_frame f) (lp_state f) (lp_buf f).

Lemma lp_settled_started n max st buf more : lp_settled n max st buf -> st <> Errored -> lp_started max st (buf ++ more).
Proof. destruct st; simpl; [done | lia | done]. Qed.

Lemma lp_fuel_enough st buf : (need st buf <= lp_fuel buf)%nat.
Proof. unfold need, lp_fuel. destruct st; lia. Qed.

Lemma lp_stop n big max st buf fuel :
  lp_settled n max st buf -> (0 < fuel)%nat -> lp_loop fuel n big max st buf = Ok ([], st, buf).
Proof.
  intros Hs Hf. destruct fuel; [lia|]. simpl. destruct st; simpl in Hs; [| |done].
  - by rewrite (proj2 (Nat.ltb_lt _ _) Hs).
  - by rewrite (proj2 (Z.ltb_lt _ _)) by lia.
Qed.

Lemma lp_feed_eq bytes f :
  lp_framer_settled f -> lp_state f <> Errored ->
  exists fs st' buf', feed bytes f = Ok (fs, mkLengthPrefixed (prefix_len f) (big_endian f) (max_frame f) buf' st') /\
    lp_settled (prefix_len f) (max_frame f) st' buf' /\
    lp_loop (lp_fuel (lp_buf f ++ bytes)) (prefix_len f) (big_endian f) (max_frame f) (lp_state f) (lp_buf f ++ bytes) =
      Ok (fs, st', buf').
Proof.
  destruct f as [n big max buf st]. unfold lp_framer_settled. simpl. intros [Hn Hs] Hne.
  destruct (lp_ok n big max Hn (lp_fuel (buf ++ bytes)) st (buf ++ bytes) (lp_fuel_enough _ _)
    (lp_settled_started _ _ _ _ _ Hs Hne)) as (fs & st' & buf' & E & Hst & _).
  exists fs, st', buf'. destruct st; [| |done]; simpl; rewrite E; done.
Qed.

(** Feeding in two steps. *)
Lemma lp_feed_app a b f :
  lp_framer_settled f -> feed (a ++ b) f = (r ← feed a f; r2 ← feed b r.2; Ok (r.1 ++ r2.1, r2.2)).
Proof.
  intros Hs. destruct (decide (lp_state f = Errored)) as [Ee|Hne]; [destruct f; simpl in *; by subst|].
  destruct (lp_feed_eq (a ++ b) f Hs Hne) as (fs & st' & buf' & -> & Hst & E).
  destruct (lp_feed_eq a f Hs Hne) as (fs1 & st1 & buf1 & -> & Hst1 & E1). cbn [mbind outcome_bind fst snd].
  destruct Hs as [Hn Hs]. rewrite app_assoc in E. set (buf := lp_buf f ++ a) in *.
  pose proof (lp_fuel_enough (lp_state f) (buf ++ b)) as Hbig.
  rewrite (lp_app _ _ _ Hn) in E by (done || (unfold buf; rewrite <- app_assoc; by eapply lp_settled_started)).
  rewrite (lp_mono _ _ _ Hn _ (lp_fuel buf)) in E by (apply lp_fuel_enough || (rewrite need_app in Hbig; lia)).
  rewrite E1 in E. cbn [mbind outcome_bind] in E.
  destruct (lp_ok _ (big_endian f) _ Hn (lp_fuel buf) (lp_state f) buf (lp_fuel_enough _ _)
    (lp_settled_started _ _ _ _ _ Hs Hne)) as (fs0 & st0 & buf0 & E0 & _ & Hneed). rewrite E1 in E0. injection E0 as <- <- <-.
  set (f1 := mkLengthPrefixed _ _ _ buf1 st1). destruct (decide (st1 = Errored)) as [->|Hne1].
  - simpl in E, Hst1. injection E as <- <- <-. subst buf1. simpl. by rewrite app_nil_r.
  - destruct (lp_feed_eq b f1 (conj Hn Hst1) Hne1) as (fs2 & st2 & buf2 & -> & Hst2 & E2). cbn [mbind outcome_bind fst snd].
    rewrite (lp_continue_mono _ _ _ Hn _ (lp_fuel (buf1 ++ b))) in E
      by (apply lp_fuel_enough || (rewrite need_app in *; lia)).
    unfold lp_continue in E. simpl in E2. destruct st1; [| |done]; rewrite E2 in E; cbn [mbind outcome_bind] in E; injection E as <- <- <-; done.
Qed.

#[export] Program Instance length_prefixed_laws : FramerLaws LengthPrefixedFramer := {|
  settled := lp_framer_settled;
  feed_app := lp_feed_app
|}.
Next Obligation.
  intros [n big max buf st] [Hn Hs]. simpl in *. destruct st; [| |done]; rewrite app_nil_r;
    (rewrite (lp_stop _ _ _ _ _ _ Hs); [done | unfold lp_fuel; lia]).
Qed.
Next Obligation.
  intros bytes f Hs. destruct (decide (lp_state f = Errored)) as [Ee|Hne].
  - exists [], f. split; [|done]. destruct f; simpl in *. by subst.
  - destruct (lp_feed_eq bytes f Hs Hne) as (fs & st' & buf' & -> & Hst & _).
    do 2 eexists. split; [reflexivity|]. split; [apply Hs | exact Hst].
Qed.

(** * Chunks do not matter *)

Lemma put_frames_app a b room :
  put_frames (a ++ b) room =
  (let '(out, open, room') := put_frames a room in
   if open : bool then let '(out2, open2, room2) := put_frames b room' in (out ++ out2, open2, room2)
   else (out, false, room')).
Proof.
  revert room. induction a as [|x a IH]; intros room; simpl.
  - by destruct (put_frames b room) as [[? ?] ?].
  - destruct (chan_put room) as [[|] room1]; [|done]. rewrite IH. destruct (put_frames a room1) as [[out open] room2].
    destruct open; [|done]. by destruct (put_frames b room2) as [[? ?] ?].
Qed.

Section Task.
Context {F : Type} {FR : Framer F} {FL : FramerLaws F}.

(** The task on byte chunks is the framer on the whole stream. *)
Lemma framer_task_whole chunks tail room f :
  settled f ->
  framer_task (map InBytes chunks ++ tail) room f =
  (r ← feed (concat chunks) f;
   let '(frames, f') := r in
   let '(out, open, room') := put_frames frames room in
   if open : bool then more ← framer_task tail room' f'; Ok (out ++ more) else Ok out).
Proof.
  revert room f. induction chunks as [|c chunks IH]; intros room f Hs; simpl.
  - rewrite feed_nil by done. simpl. by destruct (framer_task tail room f).
  - rewrite feed_app by done. destruct (feed_settled c f Hs) as (frames & f' & -> & Hs'). cbn [mbind outcome_bind fst snd].
    destruct (put_frames frames room) as [[out open] room'] eqn:Ep. destruct open.
    + rewrite IH by done. destruct (feed_settled (concat chunks) f' Hs') as (frames2 & f2 & -> & _). cbn [mbind outcome_bind fst snd].
      rewrite put_frames_app, Ep. destruct (put_frames frames2 room') as [[out2 open2] room2].
      destruct open2; [|done]. destruct (framer_task tail room2 f2); cbn [mbind outcome_bind]; try done. by rewrite app_assoc.
    + destruct (feed_settled (concat chunks) f' Hs') as (frames2 & f2 & -> & _). cbn [mbind outcome_bind fst snd].
      by rewrite put_frames_app, Ep.
Qed.

(** C32: the output of the framing task does not depend on how the stream was
    cut into chunks, for every framer that satisfies the laws, whatever comes
    after the bytes and whenever the reader goes away. *)
Theorem framer_task_any_chunking chunks chunks' tail room f :
  settled f -> concat chunks = concat chunks' ->
  framer_task (map InBytes chunks ++ tail) room f = framer_task (map InBytes chunks' ++ tail) room f.
Proof. intros Hs Hc. by rewrite !framer_task_whole, Hc. Qed.

End Task.

(** * Encoders *)

Lemma length_byte_spec len i : length_byte len i = (len / 256 ^ Z.of_nat i) mod 256.
Proof.
  unfold length_byte. change 255 with (Z.ones 8). rewrite Z.land_ones, Z.shiftr_div_pow2 by lia.
  replace (2 ^ (Z.of_nat i * 8)) with (256 ^ Z.of_nat i); [done|].
  change 256 with (2 ^ 8). rewrite <- Z.pow_mul_r by lia. f_equal. lia.
Qed.

Lemma fold_header len n acc :
  0 <= acc -> (acc + 1) * 256 ^ Z.of_nat n <= 2 ^ 64 ->
  fold_left shift_in (map (length_byte len) (rev (seq 0 n))) acc = acc * 256 ^ Z.of_nat n + len mod 256 ^ Z.of_nat n.
Proof.
  revert acc. induction n as [|n IH]; intros acc Ha Hle.
  - simpl. rewrite Z.mod_1_r. lia.
  - rewrite seq_S, rev_app_distr. cbn [rev app map fold_left Nat.add].
    assert (Hp : 256 ^ Z.of_nat (S n) = 256 * 256 ^ Z.of_nat n) by (rewrite Nat2Z.inj_succ, Z.pow_succ_r; lia).
    assert (Hpos : 0 < 256 ^ Z.of_nat n) by (apply Z.pow_pos_nonneg; lia).
    assert (Hb : is_byte (length_byte len n)) by (rewrite length_byte_spec; apply Z.mod_pos_bound; lia).
    unfold is_byte in Hb. rewrite shift_in_spec by (done || nia). rewrite IH by nia.
    rewrite length_byte_spec, Hp. rewrite (Z.mul_comm 256 (256 ^ Z.of_nat n)), Z.rem_mul_r by lia. nia.
Qed.

Lemma parse_encoded data n big :
  (n <= 8)%nat -> Z.of_nat (length data) < 256 ^ Z.of_nat n ->
  parse_length big (take n (encode_length_prefixed data n big)) = Z.of_nat (length data) /\
  drop n (encode_length_prefixed data n big) = data /\ (n <= length (encode_length_prefixed data n big))%nat.
Proof.
  intros Hn Hlt. unfold encode_length_prefixed.
  assert (Hpow : 256 ^ Z.of_nat n <= 2 ^ 64) by (change (2 ^ 64) with (256 ^ 8); apply Z.pow_le_mono_r; lia).
  assert (Hw : wrap_u64 (Z.of_nat (length data)) = Z.of_nat (length data)) by (unfold wrap_u64; apply Z.mod_small; lia).
  rewrite Hw. set (header := map _ _).
  assert (Hh : length header = n) by (unfold header; destruct big; by rewrite length_map, ?length_rev, length_seq).
  rewrite take_app_length', drop_app_length' by lia. split_and!; [|done | rewrite length_app; lia].
  unfold parse_length, header. assert (Hr : (if big then map (length_byte (Z.of_nat (length data))) (if big then rev (seq 0 n) else seq 0 n)
    else rev (map (length_byte (Z.of_nat (length data))) (if big then rev (seq 0 n) else seq 0 n))) =
    map (length_byte (Z.of_nat (length data))) (rev (seq 0 n))) by (destruct big; [done | by rewrite map_rev]).
  rewrite Hr, fold_header by lia. rewrite Z.mul_0_l, Z.add_0_l. apply Z.mod_small. lia.
Qed.

(** * Round trips *)

Section Messages.
Context {F : Type} {FR : Framer F} {FL : FramerLaws F}.

(** Messages that are framed one by one are framed in a stream. *)
Lemma feed_messages {M : Type} (enc : M -> list Z) (val : M -> FrameValue) f ms :
  settled f -> (forall m, m ∈ ms -> feed (enc m) f = Ok ([val m], f)) ->
  feed (concat (map enc ms)) f = Ok (map val ms, f).
Proof.
  intros Hs. induction ms as [|m ms IH]; intros Hm; simpl; [by apply feed_nil|].
  rewrite feed_app, Hm by (done || set_solver). cbn [mbind outcome_bind fst snd]. rewrite IH by set_solver. done.
Qed.

Lemma task_messages {M : Type} (enc : M -> list Z) (val : M -> FrameValue) f ms chunks :
  settled f -> (finish f).1 = None -> (forall m, m ∈ ms -> feed (enc m) f = Ok ([val m], f)) ->
  concat chunks = concat (map enc ms) ->
  framer_task (map InBytes chunks ++ [InNil]) None f = Ok (map val ms).
Proof.
  intros Hs Hf Hm Hc. rewrite framer_task_whole, Hc, (feed_messages enc val) by done. cbn [mbind outcome_bind].
  assert (Hp : forall fs, put_frames fs None = (fs, true, None)).
  { induction fs as [|x fs IH]; simpl; [done|]. by rewrite IH. }
  rewrite Hp. simpl. rewrite Hf. simpl. by rewrite app_nil_r.
Qed.

End Messages.

Lemma feed_encoded n big max data :
  (1 <= n <= 8)%nat -> Z.of_nat (length data) < 256 ^ Z.of_nat n -> Z.of_nat (length data) <= max ->
  feed (encode_length_prefixed data n big) (LengthPrefixedFramer_new n big max) =
  Ok ([FvBytes data], LengthPrefixedFramer_new n big max).
Proof.
  intros Hn Hlt Hmax. destruct (parse_encoded data n big ltac:(lia) Hlt) as (Hp & Hd & Hl). set (enc := encode_length_prefixed data n big) in *.
  cbn [feed length_prefixed_framer lp_state LengthPrefixedFramer_new lp_buf prefix_len big_endian max_frame app].
  unfold lp_fuel. rewrite Nat.add_comm. cbn [Nat.add lp_loop]. rewrite (proj2 (Nat.ltb_ge _ _)) by lia.
  rewrite Hp, Hd, (proj2 (Z.ltb_ge _ _)) by lia. rewrite (proj2 (Z.ltb_ge _ _)) by lia.
  rewrite Nat2Z.id, firstn_all, drop_all. cbn [length]. rewrite (proj2 (Nat.ltb_lt 0 n)) by lia. done.
Qed.

(** Whatever byte arrays are written with [length-prefixed-encode], the
    framing task with the same options reads exactly these arrays, in order,
    for every division of the stream into chunks, as long as each fits the
    header and the frame limit. *)
Theorem length_prefixed_round_trip n big max msgs chunks :
  (1 <= n <= 8)%nat ->
  Forall (fun m => Z.of_nat (length m) < 256 ^ Z.of_nat n /\ Z.of_nat (length m) <= max) msgs ->
  concat chunks = concat (map (fun m => encode_length_prefixed m n big) msgs) ->
  framer_task (map InBytes chunks ++ [InNil]) None (LengthPrefixedFramer_new n big max) = Ok (map FvBytes msgs).
Proof.
  intros Hn Hm Hc. apply (task_messages (fun m => encode_length_prefixed m n big)); try done.
  - split; simpl; lia.
  - intros m Hin. rewrite Forall_forall in Hm. destruct (Hm m Hin). by apply feed_encoded.
Qed.

(** ** Lines *)

Lemma position_None d l : d ∉ l -> position d l = None.
Proof.
  induction l as [|x l IH]; simpl; [done|]. intros Hd. destruct (Z.eqb_spec x d); [set_solver|]. rewrite IH by set_solver. done.
Qed.

Lemma position_end d l : d ∉ l -> position d (l ++ [d]) = Some (length l).
Proof.
  induction l as [|x l IH]; simpl; [by rewrite Z.eqb_refl|]. intros Hd. destruct (Z.eqb_spec x d); [set_solver|].
  rewrite IH by set_solver. done.
Qed.

(** ASCII bytes of an encoding are characters of the text. *)
Lemma utf8_char_ascii c b : is_scalar c = true -> b ∈ utf8_encode_char c -> b < 128 -> c = b.
Proof.
  unfold is_scalar, in_range, utf8_encode_char. intros Hs Hb Hlt.
  destruct (Z.ltb_spec c 0x80); [set_solver|].
  assert (0 <= c <= 0x10FFFF) by (apply orb_true_iff in Hs as [Hs|Hs]; apply andb_true_iff in Hs; lia).
  assert (forall q, 0 <= q mod 64) by (intros; apply Z.mod_pos_bound; lia).
  pose proof (Z.div_pos c 64). pose proof (Z.div_pos c 4096). pose proof (Z.div_pos c 262144).
  repeat case_match; repeat (apply elem_of_cons in Hb as [->|Hb]); try (by apply elem_of_nil in Hb); exfalso;
    match goal with H : forall q, 0 <= q mod 64 |- _ => pose proof (H c); pose proof (H (c / 64)); pose proof (H (c / 4096)) end; lia.
Qed.

Lemma utf8_ascii s b : Forall (fun c => is_scalar c = true) s -> b ∈ utf8_encode s -> b < 128 -> b ∈ s.
Proof.
  intros Hs Hb Hlt. unfold utf8_encode in Hb. apply list_elem_of_bind in Hb as (c & Hb & Hc).
  rewrite Forall_forall in Hs. by rewrite <- (utf8_char_ascii c b (Hs c Hc) Hb Hlt).
Qed.

(** Text that is one line: no line feed, no carriage return at its end. *)
Definition one_line (s : list Z) : Prop := Forall (fun c => is_scalar c = true) s /\ (10 ∉ s) /\ last s <> Some 13.

Lemma strip_cr_line s : one_line s -> strip_cr (utf8_encode s) = utf8_encode s.
Proof.
  intros (Hs & _ & Hl). unfold strip_cr. destruct (last (utf8_encode s)) as [b|] eqn:El; [|done].
  destruct (decide (b = 13)) as [->|Hne]; [|destruct b as [|p|p]; try done; repeat (destruct p as [p|p|]; try done)].
  exfalso. destruct s as [|c s _] using rev_ind; [discriminate El|]. rewrite last_snoc in Hl. apply Hl. f_equal.
  apply Forall_app in Hs as [_ Hc]. apply Forall_cons in Hc as [Hc _].
  apply (utf8_char_ascii c 13); [done| |lia]. unfold utf8_encode in El. rewrite bind_app in El. simpl in El. rewrite app_nil_r in El.
  rewrite last_app in El. destruct (last (utf8_encode_char c)) as [b|] eqn:Ec.
  - injection El as ->. apply last_Some in Ec as [l' ->]. set_solver.
  - apply last_None in Ec. unfold utf8_encode_char in Ec. repeat case_match; done.
Qed.

Section LineMessages.
Context {U : Utf8Lossy}.

Lemma feed_line s : one_line s -> feed (encode_line s) (mkLinesFramer []) = Ok ([FvStr s], mkLinesFramer []).
Proof.
  intros Hs. pose proof Hs as (Hsc & Hnl & _). cbn [feed lines_framer lines_buf app]. unfold encode_line.
  assert (H10 : 10 ∉ utf8_encode s) by (intros Hin; apply Hnl; by apply utf8_ascii).
  cbn [drain_frames]. rewrite position_end by done. rewrite take_app_length.
  assert (Hd : drop (S (length (utf8_encode s))) (utf8_encode s ++ [10]) = []) by (apply drop_ge; rewrite length_app; simpl; lia).
  rewrite Hd, length_app, Nat.add_comm. simpl. unfold line_value. rewrite strip_cr_line by done.
  by rewrite (from_utf8_lossy_valid _ s) by (by apply utf8_decode_encode).
Qed.

(** Lines written with [lines-encode] are read back as the same strings,
    in order, for every division of the stream into chunks. *)
Theorem lines_round_trip msgs chunks :
  Forall one_line msgs -> concat chunks = concat (map encode_line msgs) ->
  framer_task (map InBytes chunks ++ [InNil]) None (mkLinesFramer []) = Ok (map FvStr msgs).
Proof.
  intros Hm Hc. apply (task_messages encode_line); try done.
  intros m Hin. rewrite Forall_forall in Hm. by apply feed_line, Hm.
Qed.

End LineMessages.

(** * Bounded buffering *)

(** After every chunk, of any size and from any peer, the length-prefixed
    framer holds fewer bytes than a header or at most a frame of the allowed
    size, and nothing once the limit has been exceeded; it keeps its options. *)
Theorem lp_buffer_bounded chunks n big max :
  (1 <= n)%nat ->
  exists frames f, feed (concat chunks) (LengthPrefixedFramer_new n big max) = Ok (frames, f) /\
    prefix_len f = n /\ max_frame f = max /\
    (Z.of_nat (length (lp_buf f)) < Z.max (Z.of_nat n) max \/ lp_buf f = []) /\
    forall more, lp_state f = Errored -> feed more f = Ok ([], f).
Proof.
  intros Hn. set (f0 := LengthPrefixedFramer_new n big max).
  destruct (lp_feed_eq (concat chunks) f0) as (fs & st' & buf' & -> & Hst & _); [split; simpl; lia | done|].
  eexists _, _. split; [done|]. simpl. split_and!; try done.
  - destruct st'; simpl in Hst; [left; lia | left; lia | by right].
  - intros more ->. done.
Qed.

(** * Witnesses *)

Definition strict_utf8 (b : list Z) : list Z := default [] (utf8_decode b).

Lemma strict_utf8_valid b s : utf8_decode b = Some s -> strict_utf8 b = s.
Proof. unfold strict_utf8. by intros ->. Qed.

#[export] Instance strict_lossy : Utf8Lossy := {|
  from_utf8_lossy := strict_utf8;
  from_utf8_lossy_valid := strict_utf8_valid
|}.

Lemma framer_task_any_chunking_witness :
  framer_task (map InBytes [[104; 105]; [10; 97]] ++ [InNil]) None (mkLinesFramer []) =
  framer_task (map InBytes [[104]; [105; 10]; [97]] ++ [InNil]) None (mkLinesFramer []).
Proof. apply (framer_task_any_chunking [[104; 105]; [10; 97]] [[104]; [105; 10]; [97]]); reflexivity. Defined.

Lemma length_prefixed_round_trip_witness :
  framer_task (map InBytes [[0; 2; 7]; [8; 0; 0]] ++ [InNil]) None (LengthPrefixedFramer_new 2 true 16) =
  Ok (map FvBytes [[7; 8]; []]).
Proof.
  apply (length_prefixed_round_trip 2 true 16 [[7; 8]; []] [[0; 2; 7]; [8; 0; 0]]).
  - lia.
  - repeat constructor; simpl; lia.
  - vm_compute. reflexivity.
Defined.

Lemma lines_round_trip_witness :
  framer_task (map InBytes [[104; 105; 10]; [195]; [169; 10]] ++ [InNil]) None (mkLinesFramer []) =
  Ok (map FvStr [[104; 105]; [233]]).
Proof.
  apply (lines_round_trip [[104; 105]; [233]] [[104; 105; 10]; [195]; [169; 10]]); [|vm_compute; reflexivity].
  repeat constructor; simpl; try done; set_solver by lia.
Defined.

Lemma lp_buffer_bounded_witness :
  exists frames f, feed (concat [[0; 3; 1]; [2]]) (LengthPrefixedFramer_new 2 true 16) = Ok (frames, f) /\
    prefix_len f = 2%nat /\ max_frame f = 16 /\
    (Z.of_nat (length (lp_buf f)) < Z.max 2 16 \/ lp_buf f = []) /\
    forall more, lp_state f = Errored -> feed more f = Ok ([], f).
Proof. apply (lp_buffer_bounded [[0; 3; 1]; [2]] 2 true 16). lia. Defined.

(** An array that does not fit the header is written with a truncated length:
    the reader sees other frames. *)
Example truncated_length :
  let data := replicate 258 7 in
  encode_length_prefixed data 1 true = 2 :: data /\
  (r ← feed (encode_length_prefixed data 1 true) (LengthPrefixedFramer_new 1 true 100); Ok (hd_error r.1)) =
  Ok (Some (FvBytes [7; 7])).
Proof. vm_compute. split; reflexivity. Qed.
