(* ===== verification/PersistentMap.v ===== *)
(** Persistent maps and sets (crates/cljrs-value/src/collections): the small
    array map, the insertion-ordered hash map and hash set, and the map value
    that promotes one to the other (crates/cljrs-value/src/value.rs).

    The hash trie and the red-black tree are those of the rpds crate: the
    classes [HashTrieMap] and [RedBlackTreeMap] state what the code relies on.
    Keys are compared by the equality of values, which is coarser than
    identity (1 and 1N are equal keys). *)
From Stdlib Require Import Sorted.
From stdpp Require Import base list.
From S2P Require Import Prelude RustStd.
Local Open Scope Z_scope.

(** Values with their equality. *)
Class ValueEq (V : Type) : Type := {
  veq : V -> V -> bool;
  veq_equiv : Equivalence (fun a b => veq a b = true)
}.

(** [rpds::HashTrieMapSync<Value, u64>] *)
Class HashTrieMap (V : Type) {VE : ValueEq V} : Type := {
  HT : Type;
  ht_new : HT;
  ht_get : HT -> V -> option Z;
  ht_insert : HT -> V -> Z -> HT;
  ht_remove : HT -> V -> HT;
  ht_size : HT -> nat;
  ht_get_new k : ht_get ht_new k = None;
  ht_get_insert m k n k' : ht_get (ht_insert m k n) k' = if veq k k' then Some n else ht_get m k';
  ht_get_remove m k k' : ht_get (ht_remove m k) k' = if veq k k' then None else ht_get m k';
  ht_size_new : ht_size ht_new = 0%nat;
  ht_size_insert m k n : ht_size (ht_insert m k n) =
    match ht_get m k with Some _ => ht_size m | None => S (ht_size m) end;
  ht_size_remove m k : ht_size (ht_remove m k) =
    match ht_get m k with Some _ => pred (ht_size m) | None => ht_size m end
}.

(** [rpds::RedBlackTreeMapSync<u64, A>]: iteration is in key order. *)
Class RedBlackTreeMap (A : Type) : Type := {
  RB : Type;
  rb_new : RB;
  rb_get : RB -> Z -> option A;
  rb_insert : RB -> Z -> A -> RB;
  rb_remove : RB -> Z -> RB;
  rb_iter : RB -> list (Z * A);
  rb_get_new s : rb_get rb_new s = None;
  rb_get_insert t s a s' : rb_get (rb_insert t s a) s' = if decide (s = s') then Some a else rb_get t s';
  rb_get_remove t s s' : rb_get (rb_remove t s) s' = if decide (s = s') then None else rb_get t s';
  rb_iter_sorted t : StronglySorted Z.lt (map fst (rb_iter t));
  rb_iter_get t s a : (s, a) ∈ rb_iter t <-> rb_get t s = Some a
}.

Section Collections.
Context {V : Type} {VE : ValueEq V} {HTM : HashTrieMap V} {RBM : RedBlackTreeMap (V * V)} {RBS : RedBlackTreeMap V}.

(** * The array map *)

Definition THRESHOLD : nat := 8.

(** The flat vector [k0, v0, k1, v1, ...] as its pairs. *)
Record PersistentArrayMap : Type := mkArrayMap { entries : list (V * V) }.

Inductive AssocResult : Type := Array (m : PersistentArrayMap) | Promote (pairs : list (V * V)).

Definition array_empty : PersistentArrayMap := mkArrayMap [].

Definition array_count (m : PersistentArrayMap) : nat := length (entries m).

Fixpoint get_pairs (e : list (V * V)) (key : V) : option V :=
  match e with
  | [] => None
  | (k, v) :: e' => if veq k key then Some v else get_pairs e' key
  end.

Definition array_get (m : PersistentArrayMap) (key : V) : option V := get_pairs (entries m) key.

(** The search for an existing key; [None] when it is new. *)
Fixpoint replace_value (e : list (V * V)) (key value : V) : option (list (V * V)) :=
  match e with
  | [] => None
  | (k, v) :: e' =>
      if veq k key then Some ((k, value) :: e')
      else cons (k, v) <$> replace_value e' key value
  end.

Definition array_assoc (m : PersistentArrayMap) (key value : V) : AssocResult :=
  match replace_value (entries m) key value with
  | Some e => Array (mkArrayMap e)
  | None =>
      let e := entries m ++ [(key, value)] in
      if (THRESHOLD <? length e)%nat then Promote e else Array (mkArrayMap e)
  end.

Fixpoint remove_pair (e : list (V * V)) (key : V) : list (V * V) :=
  match e with
  | [] => []
  | (k, v) :: e' => if veq k key then e' else (k, v) :: remove_pair e' key
  end.

Definition array_dissoc (m : PersistentArrayMap) (key : V) : PersistentArrayMap := mkArrayMap (remove_pair (entries m) key).

(** The loop over the pairs left after a promotion. *)
Fixpoint push_promoted (promoted pairs : list (V * V)) : list (V * V) :=
  match pairs with
  | [] => promoted
  | (k, v) :: pairs' =>
      match replace_value promoted k v with
      | Some promoted' => push_promoted promoted' pairs'
      | None => push_promoted (promoted ++ [(k, v)]) pairs'
      end
  end.

Fixpoint array_from_pairs_loop (m : PersistentArrayMap) (pairs : list (V * V)) : AssocResult :=
  match pairs with
  | [] => Array m
  | (k, v) :: pairs' =>
      match array_assoc m k v with
      | Array m' => array_from_pairs_loop m' pairs'
      | Promote promoted => Promote (push_promoted promoted pairs')
      end
  end.

Definition array_from_pairs (pairs : list (V * V)) : AssocResult := array_from_pairs_loop array_empty pairs.

(** * The hash map *)

Record PersistentHashMap : Type := mkHashMap {
  index : HT;
  order : RB (RedBlackTreeMap := RBM);
  next_seq : Z
}.

Definition hash_empty : PersistentHashMap := mkHashMap ht_new rb_new 0.

Definition hash_count (m : PersistentHashMap) : nat := ht_size (index m).

Definition hash_get (m : PersistentHashMap) (key : V) : option V :=
  seq ← ht_get (index m) key; snd <$> rb_get (order m) seq.

Definition hash_contains_key (m : PersistentHashMap) (key : V) : bool :=
  match ht_get (index m) key with Some _ => true | None => false end.

Definition hash_assoc (m : PersistentHashMap) (key value : V) : PersistentHashMap :=
  match ht_get (index m) key with
  | Some seq => mkHashMap (index m) (rb_insert (order m) seq (key, value)) (next_seq m)
  | None =>
      let seq := next_seq m in
      mkHashMap (ht_insert (index m) key seq) (rb_insert (order m) seq (key, value)) (seq + 1)
  end.

Definition hash_dissoc (m : PersistentHashMap) (key : V) : PersistentHashMap :=
  match ht_get (index m) key with
  | Some seq => mkHashMap (ht_remove (index m) key) (rb_remove (order m) seq) (next_seq m)
  | None => m
  end.

Definition hash_iter (m : PersistentHashMap) : list (V * V) := map snd (rb_iter (order m)).

Definition hash_from_pairs (pairs : list (V * V)) : PersistentHashMap :=
  fold_left (fun m p => hash_assoc m p.1 p.2) pairs hash_empty.

Definition hash_merge (m other : PersistentHashMap) : PersistentHashMap :=
  fold_left (fun r p => hash_assoc r p.1 p.2) (hash_iter other) m.

(** * Map values *)

(** The array and hash representations; sorted maps are not modelled. *)
Inductive MapValue : Type := MArray (m : PersistentArrayMap) | MHash (m : PersistentHashMap).

Definition map_empty : MapValue := MArray array_empty.

Definition map_from_pairs (pairs : list (V * V)) : MapValue :=
  match array_from_pairs pairs with
  | Array m => MArray m
  | Promote pairs => MHash (hash_from_pairs pairs)
  end.

Definition map_get (m : MapValue) (key : V) : option V :=
  match m with
  | MArray m => array_get m key
  | MHash m => hash_get m key
  end.

Definition map_count (m : MapValue) : nat :=
  match m with
  | MArray m => array_count m
  | MHash m => hash_count m
  end.

Definition map_assoc (m : MapValue) (k v : V) : MapValue :=
  match m with
  | MArray m =>
      match array_assoc m k v with
      | Array m' => MArray m'
      | Promote pairs => MHash (hash_from_pairs pairs)
      end
  | MHash m => MHash (hash_assoc m k v)
  end.

Definition map_dissoc (m : MapValue) (key : V) : MapValue :=
  match m with
  | MArray m => MArray (array_dissoc m key)
  | MHash m => MHash (hash_dissoc m key)
  end.

Definition map_contains_key (m : MapValue) (key : V) : bool :=
  match m with
  | MArray m => match array_get m key with Some _ => true | None => false end
  | MHash m => hash_contains_key m key
  end.

Definition map_iter (m : MapValue) : list (V * V) :=
  match m with
  | MArray m => entries m
  | MHash m => hash_iter m
  end.

Definition maps_equal (a b : MapValue) : bool :=
  (map_count a =? map_count b)%nat &&
  forallb (fun p => match map_get b p.1 with Some bv => veq bv p.2 | None => false end) (map_iter a).

(** * The hash set *)

Record PersistentHashSet : Type := mkHashSet {
  set_index : HT;
  set_order : RB (RedBlackTreeMap := RBS);
  set_next_seq : Z
}.

Definition set_empty : PersistentHashSet := mkHashSet ht_new rb_new 0.

Definition set_count (s : PersistentHashSet) : nat := ht_size (set_index s).

Definition set_contains (s : PersistentHashSet) (v : V) : bool :=
  match ht_get (set_index s) v with Some _ => true | None => false end.

Definition set_conj (s : PersistentHashSet) (v : V) : PersistentHashSet :=
  if set_contains s v then s
  else
    let seq := set_next_seq s in
    mkHashSet (ht_insert (set_index s) v seq) (rb_insert (set_order s) seq v) (seq + 1).

Definition set_disj (s : PersistentHashSet) (v : V) : PersistentHashSet :=
  match ht_get (set_index s) v with
  | Some seq => mkHashSet (ht_remove (set_index s) v) (rb_remove (set_order s) seq) (set_next_seq s)
  | None => s
  end.

Definition set_iter (s : PersistentHashSet) : list V := map snd (rb_iter (set_order s)).

Definition set_from_iter (vs : list V) : PersistentHashSet := fold_left set_conj vs set_empty.

Definition sets_equal (a b : PersistentHashSet) : bool :=
  (set_count a =? set_count b)%nat && forallb (set_contains b) (set_iter a).

End Collections.
