(* ===== verification/PersistentMapSpec.v ===== *)
(** Persistent maps and sets against ordered lists of entries: the
    representation, its promotion and the order of insertion are invisible but
    for the order in which entries are listed. *)
From Stdlib Require Import Sorted.
From stdpp Require Import base list.
From S2P Require Import Prelude RustStd PersistentMap.
Local Open Scope Z_scope.

(** * Sorted lists *)

Lemma sorted_unique {A : Type} (l1 l2 : list (Z * A)) :
  StronglySorted Z.lt (map fst l1) -> StronglySorted Z.lt (map fst l2) -> (forall x, x ∈ l1 <-> x ∈ l2) -> l1 = l2.
Proof.
  revert l2. induction l1 as [|x l1 IH]; intros l2 H1 H2 Heq.
  { destruct l2 as [|y l2]; [done|]. exfalso. specialize (Heq y). set_solver. }
  destruct l2 as [|y l2]; [exfalso; specialize (Heq x); set_solver|].
  simpl in H1, H2. apply StronglySorted_inv in H1 as [H1 F1], H2 as [H2 F2]. rewrite Forall_forall in F1, F2.
  assert (Hl1 : forall z, z ∈ l1 -> x.1 < z.1) by (intros z Hz; apply F1; by apply list_elem_of_fmap_2).
  assert (Hl2 : forall z, z ∈ l2 -> y.1 < z.1) by (intros z Hz; apply F2; by apply list_elem_of_fmap_2).
  assert (x = y) as ->.
  { assert (Hx : x ∈ y :: l2) by (apply Heq; set_solver). assert (Hy : y ∈ x :: l1) by (apply Heq; set_solver).
    apply elem_of_cons in Hx as [->|Hx]; [done|]. apply elem_of_cons in Hy as [->|Hy]; [done|].
    apply Hl1 in Hy. apply Hl2 in Hx. lia. }
  f_equal. apply IH; [done | done|]. intros z. specialize (Heq z). split; intros Hz.
  - assert (Hz' : z ∈ y :: l2) by (apply Heq; set_solver). apply elem_of_cons in Hz' as [->|?]; [|done]. apply Hl1 in Hz. lia.
  - assert (Hz' : z ∈ y :: l1) by (apply Heq; set_solver). apply elem_of_cons in Hz' as [->|?]; [|done]. apply Hl2 in Hz. lia.
Qed.

Section Tree.
Context {A : Type} {RBA : RedBlackTreeMap A}.

Lemma iter_sorted_app (l : list Z) s : StronglySorted Z.lt l -> (forall x, x ∈ l -> x < s) -> StronglySorted Z.lt (l ++ [s]).
Proof.
  induction 1 as [|x l Hs IH Hf]; intros Hlt; simpl; [repeat constructor|]. constructor; [apply IH; set_solver|].
  apply Forall_app. split; [done|]. constructor; [|done]. apply Hlt. set_solver.
Qed.

Lemma rb_iter_new : rb_iter rb_new = ([] : list (Z * A)).
Proof.
  destruct (rb_iter rb_new) as [|[s a] l] eqn:E; [done|]. exfalso.
  assert (Hin : (s, a) ∈ rb_iter rb_new) by (rewrite E; set_solver). apply rb_iter_get in Hin. by rewrite rb_get_new in Hin.
Qed.

Lemma rb_iter_append t s a :
  (forall s' b, rb_get t s' = Some b -> s' < s) -> rb_iter (rb_insert t s a) = rb_iter t ++ [(s, a)].
Proof.
  intros Hlt. apply sorted_unique; [apply rb_iter_sorted| |].
  - rewrite map_app. simpl. apply iter_sorted_app; [apply rb_iter_sorted|]. intros x Hx.
    apply list_elem_of_fmap in Hx as ([s' b] & -> & Hx). apply rb_iter_get in Hx. by eapply Hlt.
  - intros [s' b]. rewrite elem_of_app, list_elem_of_singleton, !rb_iter_get, rb_get_insert. case_decide as Hd.
    + subst. split; [intros [= ->]; by right|]. intros [Hb|[= ->]]; [apply Hlt in Hb; lia | done].
    + split; [by left|]. intros [?|[= ->]]; done.
Qed.

Lemma rb_iter_replace t s b a :
  rb_get t s = Some b -> rb_iter (rb_insert t s a) = map (fun p => if decide (p.1 = s) then (s, a) else p) (rb_iter t).
Proof.
  intros Hg. apply sorted_unique; [apply rb_iter_sorted| |].
  - rewrite map_map. erewrite map_ext; [apply rb_iter_sorted|]. intros [s' c]. simpl. by case_decide; subst.
  - intros [s' c]. rewrite rb_iter_get, rb_get_insert. split.
    + intros Hc. apply list_elem_of_fmap. case_decide as Hd.
      * injection Hc as ->. subst. exists (s', b). simpl. rewrite decide_True by done. split; [done | by apply rb_iter_get].
      * exists (s', c). simpl. rewrite decide_False by done. split; [done | by apply rb_iter_get].
    + intros Hc. apply list_elem_of_fmap in Hc as ([s1 c1] & Hc & Hin). simpl in Hc. case_decide as Hd.
      * injection Hc as -> ->. by rewrite decide_True.
      * injection Hc as -> ->. rewrite decide_False by done. by apply rb_iter_get.
Qed.

Lemma rb_iter_remove t s : rb_iter (rb_remove t s) = filter (fun p => p.1 <> s) (rb_iter t).
Proof.
  apply sorted_unique; [apply rb_iter_sorted| |].
  - pose proof (rb_iter_sorted t) as Hs. induction (rb_iter t) as [|p l IH]; [done|]. simpl in Hs.
    apply StronglySorted_inv in Hs as [Hs Hf]. rewrite filter_cons. case_decide; [|by apply IH].
    simpl. constructor; [by apply IH|]. apply Forall_forall. intros x Hx. apply list_elem_of_fmap in Hx as (q & -> & Hq).
    apply list_elem_of_filter in Hq as [_ Hq]. rewrite Forall_forall in Hf. apply Hf. by apply list_elem_of_fmap_2.
  - intros [s' c]. rewrite list_elem_of_filter, !rb_iter_get, rb_get_remove. simpl. case_decide as Hd; [|naive_solver].
    subst. split; [done|]. intros [? _]. done.
Qed.

End Tree.

(** * The index and the log of insertions *)

Section Log.
Context {V : Type} {VE : ValueEq V} {HTM : HashTrieMap V} {A : Type} {RBA : RedBlackTreeMap A} (key : A -> V).

Lemma veq_refl (a : V) : veq a a = true.
Proof. apply veq_equiv. Qed.

Lemma veq_sym (a b : V) : veq a b = veq b a.
Proof.
  apply eq_true_iff_eq. split; intros Hab.
  - exact (Equivalence_Symmetric (Equivalence := veq_equiv) a b Hab).
  - exact (Equivalence_Symmetric (Equivalence := veq_equiv) b a Hab).
Qed.

Lemma veq_trans (a b c : V) : veq a b = true -> veq b c = true -> veq a c = true.
Proof. exact (Equivalence_Transitive (Equivalence := veq_equiv) a b c). Qed.

(** Equal values are equal to the same values. *)
Lemma veq_same (a b c : V) : veq a b = true -> veq a c = veq b c.
Proof.
  intros Hab. apply eq_true_iff_eq. split; intros H.
  - eapply veq_trans; [|exact H]. by rewrite veq_sym.
  - by eapply veq_trans.
Qed.

Record log_ok (ix : HT) (t : RB) (next : Z) : Prop := {
  lo_next s a : rb_get t s = Some a -> s < next;
  lo_index k s : ht_get ix k = Some s <-> exists a, rb_get t s = Some a /\ veq (key a) k = true;
  lo_size : ht_size ix = length (rb_iter t)
}.

Definition log_values (t : RB) : list A := map snd (rb_iter t).

Lemma log_empty : log_ok ht_new rb_new 0 /\ log_values rb_new = [].
Proof.
  split; [|unfold log_values; by rewrite rb_iter_new]. constructor.
  - intros s a. by rewrite rb_get_new.
  - intros k s. rewrite ht_get_new. split; [done|]. intros (a & Ha & _). by rewrite rb_get_new in Ha.
  - by rewrite ht_size_new, rb_iter_new.
Qed.

Lemma log_absent ix t next k : log_ok ix t next -> ht_get ix k = None -> forall a, a ∈ log_values t -> veq (key a) k = false.
Proof.
  intros Hok Hg a Ha. apply list_elem_of_fmap in Ha as ([s b] & -> & Ha). apply rb_iter_get in Ha. simpl.
  destruct (veq (key b) k) eqn:E; [|done]. assert (Hs : ht_get ix k = Some s) by (apply (lo_index _ _ _ Hok); eauto). congruence.
Qed.

Lemma log_append ix t next a :
  log_ok ix t next -> ht_get ix (key a) = None ->
  log_ok (ht_insert ix (key a) next) (rb_insert t next a) (next + 1) /\
  log_values (rb_insert t next a) = log_values t ++ [a].
Proof.
  intros Hok Hg. assert (Hiter : rb_iter (rb_insert t next a) = rb_iter t ++ [(next, a)]).
  { apply rb_iter_append. intros s b. apply (lo_next _ _ _ Hok). }
  assert (Hnew : rb_get t next = None).
  { destruct (rb_get t next) as [b|] eqn:E; [|done]. apply (lo_next _ _ _ Hok) in E. lia. }
  split; [|unfold log_values; by rewrite Hiter, map_app]. constructor.
  - intros s b. rewrite rb_get_insert. case_decide; [intros; lia|]. intros Hb. apply (lo_next _ _ _ Hok) in Hb. lia.
  - intros k s. rewrite ht_get_insert. destruct (veq (key a) k) eqn:E.
    + split; [intros [= <-]; exists a; rewrite rb_get_insert, decide_True; done|].
      intros (b & Hb & Hk). rewrite rb_get_insert in Hb. case_decide; [by subst|]. exfalso.
      assert (Hs : ht_get ix (key a) = Some s); [|congruence]. apply (lo_index _ _ _ Hok). exists b. split; [done|].
      eapply veq_trans; [exact Hk|]. by rewrite veq_sym.
    + rewrite (lo_index _ _ _ Hok). split; intros (b & Hb & Hk); exists b.
      * rewrite rb_get_insert, decide_False by congruence. done.
      * rewrite rb_get_insert in Hb. case_decide; [congruence | done].
  - rewrite ht_size_insert, Hg, Hiter, length_app, (lo_size _ _ _ Hok). simpl. lia.
Qed.

Lemma log_position ix t next k s p :
  log_ok ix t next -> ht_get ix k = Some s -> p ∈ rb_iter t -> (p.1 = s <-> veq (key p.2) k = true).
Proof.
  intros Hok Hg Hp. destruct p as [s' a]. apply rb_iter_get in Hp. simpl. split.
  - intros ->. apply (lo_index _ _ _ Hok) in Hg as (b & Hb & Hk). congruence.
  - intros Hk. assert (Hs : ht_get ix k = Some s') by (apply (lo_index _ _ _ Hok); eauto). congruence.
Qed.

Lemma log_replace ix t next s a :
  log_ok ix t next -> ht_get ix (key a) = Some s ->
  log_ok ix (rb_insert t s a) next /\
  log_values (rb_insert t s a) = map (fun b => if veq (key b) (key a) then a else b) (log_values t).
Proof.
  intros Hok Hg. apply (lo_index _ _ _ Hok) in Hg as Hg'. destruct Hg' as (b & Hb & Hk).
  pose proof (rb_iter_replace t s b a Hb) as Hiter. split.
  - constructor.
    + intros s' c. rewrite rb_get_insert. case_decide; [subst; intros _; by eapply (lo_next _ _ _ Hok) | apply (lo_next _ _ _ Hok)].
    + intros k s'. rewrite (lo_index _ _ _ Hok). split; intros (c & Hc & Hkc).
      * rewrite rb_get_insert. case_decide; [|by exists c]. subst. exists a. split; [done|].
        assert (c = b) as -> by congruence. by rewrite <- (veq_same _ _ _ Hk).
      * rewrite rb_get_insert in Hc. case_decide; [|by exists c]. injection Hc as <-. subst. exists b.
        split; [done|]. by rewrite (veq_same _ _ _ Hk).
    + by rewrite Hiter, length_map, (lo_size _ _ _ Hok).
  - unfold log_values. rewrite Hiter, !map_map. apply map_ext_in. intros p Hp. apply list_elem_of_In in Hp.
    pose proof (log_position ix t next (key a) s p Hok Hg Hp) as Hpos. case_decide as Hd.
    + by rewrite (proj1 Hpos Hd).
    + destruct (veq (key p.2) (key a)) eqn:E; [|done]. exfalso. by apply Hd, Hpos.
Qed.

Lemma log_remove ix t next k s :
  log_ok ix t next -> ht_get ix k = Some s ->
  log_ok (ht_remove ix k) (rb_remove t s) next /\
  log_values (rb_remove t s) = filter (fun b => veq (key b) k = false) (log_values t).
Proof.
  intros Hok Hg. assert (Hvals : log_values (rb_remove t s) = filter (fun b => veq (key b) k = false) (log_values t)).
  { unfold log_values. rewrite rb_iter_remove.
    assert (Hpos : forall p, p ∈ rb_iter t -> (p.1 = s <-> veq (key p.2) k = true)) by (intros p; by eapply log_position).
    induction (rb_iter t) as [|p l IH]; [done|]. simpl. rewrite !filter_cons. pose proof (Hpos p ltac:(set_solver)) as Hp.
    assert (IH' : map snd (filter (fun p => p.1 <> s) l) = filter (fun b => veq (key b) k = false) (map snd l)) by (apply IH; set_solver).
    destruct (veq (key p.2) k).
    - rewrite (decide_False (P := true = false)) by done. rewrite decide_False by (intros Hne; by apply Hne, Hp). done.
    - rewrite (decide_True (P := false = false)) by done. rewrite decide_True by (intros He; by apply Hp in He). simpl. by rewrite IH'. }
  split; [|done]. constructor.
  - intros s' a. rewrite rb_get_remove. case_decide; [done | apply (lo_next _ _ _ Hok)].
  - intros k' s'. rewrite ht_get_remove. destruct (veq k k') eqn:E.
    + split; [done|]. intros (a & Ha & Hk). rewrite rb_get_remove in Ha. case_decide as Hd; [done|]. exfalso. apply Hd.
      assert (Hs : ht_get ix k = Some s'); [|congruence]. apply (lo_index _ _ _ Hok). exists a. split; [done|].
      eapply veq_trans; [exact Hk|]. by rewrite veq_sym.
    + rewrite (lo_index _ _ _ Hok). split; intros (a & Ha & Hk); exists a; [|by rewrite rb_get_remove in Ha; case_decide].
      rewrite rb_get_remove, decide_False; [done|]. intros ->. apply (lo_index _ _ _ Hok) in Hg as (b & Hb & Hkb).
      assert (a = b) as -> by congruence. rewrite (veq_same _ _ _ Hkb) in Hk. congruence.
  - rewrite ht_size_remove, Hg, (lo_size _ _ _ Hok).
    apply (lo_index _ _ _ Hok) in Hg as (b & Hb & _). apply rb_iter_get in Hb. rewrite rb_iter_remove.
    pose proof (rb_iter_sorted t) as Hs. revert Hb Hs. generalize (rb_iter t). clear. intros l Hb Hs.
    induction l as [|p l IH]; [set_solver|]. simpl in Hs. apply StronglySorted_inv in Hs as [Hs Hf]. rewrite filter_cons.
    apply elem_of_cons in Hb as [<-|Hb].
    + rewrite decide_False by (simpl; lia). simpl. f_equal. 
      assert (Hall : filter (fun p : Z * A => p.1 <> s) l = l); [|by rewrite Hall].
      rewrite Forall_forall in Hf. clear -Hf. induction l as [|q l IH]; [done|]. rewrite filter_cons.
      pose proof (Hf q.1 ltac:(set_solver)). rewrite decide_True by (simpl in *; lia). f_equal. apply IH. set_solver.
    + assert (Hne : p.1 <> s).
      { rewrite Forall_forall in Hf. assert (p.1 < s); [|lia]. apply Hf. by apply (list_elem_of_fmap_2 fst) in Hb. }
      rewrite decide_True by done. simpl. specialize (IH Hb Hs). destruct l; [set_solver|]. simpl in *. lia.
Qed.

End Log.

(** * The specification: ordered entries *)

Section Spec.
Context {V : Type} {VE : ValueEq V}.
Implicit Types (l : list (V * V)) (k v : V).

(** A key keeps its place when it gets another value. *)
Definition has_key l k : bool := existsb (fun p => veq p.1 k) l.

Definition spec_assoc l k v : list (V * V) :=
  if has_key l k then map (fun p => if veq p.1 k then (p.1, v) else p) l else l ++ [(k, v)].

Definition spec_dissoc l k : list (V * V) := filter (fun p => veq p.1 k = false) l.

Definition spec_get l k : option V := snd <$> find (fun p => veq p.1 k) l.

(** No two keys are equal. *)
Fixpoint distinct l : Prop :=
  match l with
  | [] => True
  | p :: l' => has_key l' p.1 = false /\ distinct l'
  end.

(** Entries with equal keys and the same values. *)
#[export] Instance entries_equiv : Equiv (list (V * V)) :=
  Forall2 (fun p q => veq p.1 q.1 = true /\ p.2 = q.2).

#[export] Instance entries_equivalence : Equivalence (≡@{list (V * V)}).
Proof.
  split.
  - intros l. apply Forall_Forall2_diag, Forall_true. intros p. split; [apply veq_refl | done].
  - intros l1 l2 H. induction H as [|p q l1 l2 [H1 H2] _ IH]; constructor; [|done]. by rewrite veq_sym.
  - intros l1 l2 l3 H12. revert l3. induction H12 as [|p q l1 l2 [H1 H2] _ IH]; intros l3 H23; inversion H23 as [|? q3 ? l3' [H3 H4]]; subst; constructor.
    + split; [by eapply veq_trans | congruence].
    + by apply IH.
Qed.

Lemma has_key_veq l k k' : veq k k' = true -> has_key l k = has_key l k'.
Proof.
  intros Hk. unfold has_key. induction l as [|p l IH]; [done|]. simpl. rewrite IH. f_equal.
  rewrite !(veq_sym p.1). by apply veq_same.
Qed.

#[export] Instance has_key_proper : Proper ((≡) ==> eq ==> eq) has_key.
Proof.
  intros l1 l2 Hl k ? <-. unfold has_key. induction Hl as [|p q l1 l2 [Hk _] _ IH]; [done|]. simpl. rewrite IH.
  by rewrite (veq_same _ _ _ Hk).
Qed.

#[export] Instance spec_get_proper : Proper ((≡) ==> eq ==> eq) spec_get.
Proof.
  intros l1 l2 Hl k ? <-. unfold spec_get. induction Hl as [|p q l1 l2 [Hk Hv] _ IH]; [done|]. simpl.
  rewrite (veq_same _ _ _ Hk). destruct (veq q.1 k); [simpl; by rewrite Hv | done].
Qed.

#[export] Instance spec_assoc_proper : Proper ((≡) ==> eq ==> eq ==> (≡)) spec_assoc.
Proof.
  intros l1 l2 Hl k ? <- v ? <-. unfold spec_assoc. rewrite (has_key_proper l1 l2 Hl k k eq_refl).
  destruct (has_key l2 k).
  - induction Hl as [|p q l1 l2 [Hk Hv] _ IH]; [constructor|]. simpl. constructor; [|done].
    rewrite (veq_same _ _ _ Hk). destruct (veq q.1 k); done.
  - apply Forall2_app; [done|]. constructor; [|constructor]. split; [apply veq_refl | done].
Qed.

#[export] Instance spec_dissoc_proper : Proper ((≡) ==> eq ==> (≡)) spec_dissoc.
Proof.
  intros l1 l2 Hl k ? <-. unfold spec_dissoc. induction Hl as [|p q l1 l2 [Hk Hv] _ IH]; [constructor|].
  rewrite !filter_cons. rewrite (veq_same _ _ _ Hk). destruct (veq q.1 k); simpl; [done|]. by constructor.
Qed.

#[export] Instance distinct_proper : Proper ((≡) ==> iff) distinct.
Proof.
  intros l1 l2 Hl. induction Hl as [|p q l1 l2 [Hk Hv] Hl IH]; [done|]. simpl. rewrite IH.
  rewrite (has_key_proper l1 l2 Hl p.1 p.1 eq_refl), (has_key_veq l2 _ _ Hk). done.
Qed.

Lemma has_key_app l1 l2 k : has_key (l1 ++ l2) k = has_key l1 k || has_key l2 k.
Proof. apply existsb_app. Qed.

(** The entries with the value of a key replaced. *)
Definition set_value l k v : list (V * V) := map (fun p => if veq p.1 k then (p.1, v) else p) l.

Lemma set_value_has_key l k v k' : has_key (set_value l k v) k' = has_key l k'.
Proof. unfold has_key. induction l as [|p l IH]; [done|]. simpl. rewrite IH. by destruct (veq p.1 k). Qed.

Lemma set_value_absent l k v : has_key l k = false -> set_value l k v = l.
Proof.
  unfold has_key. induction l as [|p l IH]; [done|]. simpl. intros [Hp Hl]%orb_false_iff. rewrite Hp. by rewrite IH.
Qed.

Lemma spec_dissoc_absent l k : has_key l k = false -> spec_dissoc l k = l.
Proof.
  unfold has_key, spec_dissoc. induction l as [|p l IH]; [done|]. simpl. intros [Hp Hl]%orb_false_iff.
  rewrite filter_cons, Hp, decide_True by done. by rewrite IH.
Qed.

Lemma spec_dissoc_has_key l k k' : has_key (spec_dissoc l k) k' = has_key l k' && negb (veq k k').
Proof.
  unfold spec_dissoc, has_key. induction l as [|p l IH]; [done|]. rewrite filter_cons. simpl. destruct (veq p.1 k) eqn:E; simpl.
  - rewrite IH, (veq_same _ _ _ E). by destruct (veq k k'); rewrite ?andb_false_r.
  - rewrite IH. destruct (veq p.1 k') eqn:E'; [|done]. simpl. symmetry. apply negb_true_iff, not_true_iff_false. intros H.
    rewrite veq_sym, <- (veq_same _ _ _ H), veq_sym in E'. congruence.
Qed.

Lemma distinct_app_one l k v : distinct l -> has_key l k = false -> distinct (l ++ [(k, v)]).
Proof.
  induction l as [|p l IH]; simpl; intros Hd Hk; [done|]. apply orb_false_iff in Hk as [Hp Hk]. destruct Hd as [H1 H2].
  split; [|by apply IH]. rewrite has_key_app, H1. simpl. by rewrite veq_sym, Hp.
Qed.

Lemma spec_assoc_distinct l k v : distinct l -> distinct (spec_assoc l k v).
Proof.
  intros Hd. unfold spec_assoc. destruct (has_key l k) eqn:E; [|by apply distinct_app_one]. fold (set_value l k v). clear E.
  induction l as [|p l IH]; [done|]. destruct Hd as [H1 H2]. simpl.
  split; [|by apply IH]. rewrite set_value_has_key. by destruct (veq p.1 k).
Qed.

Lemma spec_dissoc_distinct l k : distinct l -> distinct (spec_dissoc l k).
Proof.
  unfold spec_dissoc. induction l as [|p l IH]; [done|]. intros [H1 H2]. rewrite filter_cons. case_decide; [|by apply IH].
  split; [|by apply IH]. fold (spec_dissoc l k). by rewrite spec_dissoc_has_key, H1.
Qed.

Lemma spec_get_none l k : spec_get l k = None <-> has_key l k = false.
Proof.
  unfold spec_get, has_key. induction l as [|p l IH]; [done|]. simpl. by destruct (veq p.1 k).
Qed.

Lemma spec_get_some l p : distinct l -> p ∈ l -> spec_get l p.1 = Some p.2.
Proof.
  induction l as [|q l IH]; intros Hd Hp; [set_solver|]. destruct Hd as [H1 H2]. unfold spec_get. simpl.
  apply elem_of_cons in Hp as [->|Hp]; [by rewrite veq_refl|]. destruct (veq q.1 p.1) eqn:E; [|by apply IH].
  exfalso. rewrite (has_key_veq _ _ _ E) in H1. apply spec_get_none in H1. rewrite (IH H2 Hp) in H1. done.
Qed.

(** What the specification means: a finite map. *)
Lemma spec_get_assoc l k v k' : spec_get (spec_assoc l k v) k' = if veq k k' then Some v else spec_get l k'.
Proof.
  unfold spec_assoc. destruct (has_key l k) eqn:E.
  - fold (set_value l k v). unfold spec_get, has_key in *. induction l as [|p l IH]; [done|]. simpl in *.
    destruct (veq p.1 k) eqn:Ep; simpl.
    + rewrite (veq_same _ _ _ Ep). destruct (veq k k') eqn:Ek; [done|].
      clear IH E. induction l as [|q l IH]; [done|]. simpl. destruct (veq q.1 k) eqn:Eq; simpl; [|by destruct (veq q.1 k')].
      by rewrite (veq_same _ _ _ Eq), Ek.
    + destruct (veq p.1 k') eqn:Ep'; [|exact (IH E)]. destruct (veq k k') eqn:Ek; [|done]. exfalso.
      rewrite veq_sym, <- (veq_same _ _ _ Ek), veq_sym in Ep'. congruence.
  - apply spec_get_none in E. unfold spec_get in *. induction l as [|p l IH]; simpl in *; [by destruct (veq k k')|].
    destruct (veq p.1 k) eqn:Ep; [done|]. destruct (veq p.1 k') eqn:Ep'; [|exact (IH E)]. destruct (veq k k') eqn:Ek; [|done]. exfalso.
    rewrite veq_sym, <- (veq_same _ _ _ Ek), veq_sym in Ep'. congruence.
Qed.

Lemma spec_get_dissoc l k k' : spec_get (spec_dissoc l k) k' = if veq k k' then None else spec_get l k'.
Proof.
  destruct (veq k k') eqn:Ek.
  - apply spec_get_none. by rewrite spec_dissoc_has_key, Ek, andb_false_r.
  - unfold spec_dissoc, spec_get. induction l as [|p l IH]; [done|]. rewrite filter_cons. simpl.
    destruct (veq p.1 k) eqn:Ep; simpl; [|by destruct (veq p.1 k')].
    by rewrite (veq_same _ _ _ Ep), Ek.
Qed.

End Spec.

(** * The representations implement it *)

Section Representations.
Context {V : Type} {VE : ValueEq V} {HTM : HashTrieMap V} {RBM : RedBlackTreeMap (V * V)}.
Implicit Types (l e : list (V * V)) (k v : V) (h : PersistentHashMap) (m : MapValue).

Lemma get_pairs_spec e k : get_pairs e k = spec_get e k.
Proof. unfold spec_get. induction e as [|[k' v'] e IH]; [done|]. simpl. by destruct (veq k' k). Qed.

Lemma replace_value_spec e k v :
  distinct e -> replace_value e k v = if has_key e k then Some (set_value e k v) else None.
Proof.
  unfold has_key. induction e as [|[k' v'] e IH]; [done|]. intros [H1 H2]. simpl. destruct (veq k' k) eqn:E; simpl.
  - fold (set_value e k v). rewrite set_value_absent; [done|]. by rewrite <- (has_key_veq _ _ _ E).
  - rewrite (IH H2). by destruct (existsb _ e).
Qed.

Lemma remove_pair_spec e k : distinct e -> remove_pair e k = spec_dissoc e k.
Proof.
  unfold spec_dissoc. induction e as [|[k' v'] e IH]; [done|]. intros [H1 H2]. simpl. rewrite filter_cons. simpl.
  destruct (veq k' k) eqn:E; simpl; [|by rewrite (IH H2)]. fold (spec_dissoc e k).
  rewrite spec_dissoc_absent; [done|]. by rewrite <- (has_key_veq _ _ _ E).
Qed.

Lemma set_value_assoc e k v : has_key e k = true -> set_value e k v = spec_assoc e k v.
Proof. unfold spec_assoc. by intros ->. Qed.

Lemma array_assoc_spec e k v :
  distinct e ->
  array_assoc (mkArrayMap e) k v =
    if has_key e k || (length e <? THRESHOLD)%nat then Array (mkArrayMap (spec_assoc e k v)) else Promote (spec_assoc e k v).
Proof.
  intros Hd. unfold array_assoc. simpl. rewrite replace_value_spec by done. unfold spec_assoc. destruct (has_key e k) eqn:E; simpl; [done|].
  rewrite length_app. simpl. destruct (Nat.ltb_spec (length e) THRESHOLD), (Nat.ltb_spec THRESHOLD (length e + 1)); [lia | done | done | lia].
Qed.

(** The invariant of a hash map. *)
Definition hash_ok h : Prop := log_ok fst (index h) (order h) (next_seq h).

Lemma hash_has_key h k : hash_ok h -> has_key (hash_iter h) k = hash_contains_key h k.
Proof.
  intros Hok. unfold hash_contains_key. destruct (ht_get (index h) k) as [s|] eqn:E.
  - apply (lo_index _ _ _ _ Hok) in E as (a & Ha & Hk). apply existsb_exists. exists a. split; [|done].
    apply list_elem_of_In, (list_elem_of_fmap_2' snd _ (s, a)); [|done]. by apply rb_iter_get.
  - apply not_true_iff_false. intros Hx. apply existsb_exists in Hx as (a & Ha & Hk). apply list_elem_of_In in Ha.
    rewrite (log_absent _ _ _ _ _ Hok E a Ha) in Hk. done.
Qed.

Lemma hash_distinct h : hash_ok h -> distinct (hash_iter h).
Proof.
  intros Hok. unfold hash_iter. pose proof (rb_iter_sorted (order h)) as Hs.
  assert (Hsub : forall p, p ∈ rb_iter (order h) -> rb_get (order h) p.1 = Some p.2) by (intros [s a] Hp; by apply rb_iter_get).
  induction (rb_iter (order h)) as [|[s a] t IH]; [done|]. simpl in Hs. apply StronglySorted_inv in Hs as [Hs Hf]. simpl.
  split; [|apply IH; [done | set_solver]]. apply not_true_iff_false. intros Hx. apply existsb_exists in Hx as (b & Hb & Hk).
  apply list_elem_of_In, list_elem_of_fmap in Hb as ([s' b'] & -> & Hb). simpl in Hk.
  assert (Hlt : s < s') by (rewrite Forall_forall in Hf; apply Hf; exact (list_elem_of_fmap_2 fst _ _ Hb)).
  assert (H1 : ht_get (index h) a.1 = Some s') by (apply (lo_index _ _ _ _ Hok); exists b'; split; [apply (Hsub (s', b')); set_solver | done]).
  assert (H2 : ht_get (index h) a.1 = Some s) by (apply (lo_index _ _ _ _ Hok); exists a; split; [apply (Hsub (s, a)); set_solver | apply veq_refl]).
  simplify_eq. lia.
Qed.

Lemma hash_get_spec h k : hash_ok h -> hash_get h k = spec_get (hash_iter h) k.
Proof.
  intros Hok. pose proof (hash_has_key h k Hok) as Hh. unfold hash_get. unfold hash_contains_key in Hh.
  destruct (ht_get (index h) k) as [s|] eqn:E; simpl; [|by symmetry; apply spec_get_none].
  apply (lo_index _ _ _ _ Hok) in E as (a & Ha & Hk). rewrite Ha. simpl. symmetry.
  assert (Hin : a ∈ hash_iter h) by (apply (list_elem_of_fmap_2' snd _ (s, a)); [by apply rb_iter_get | done]).
  pose proof (spec_get_some _ a (hash_distinct h Hok) Hin) as Hg. rewrite <- Hg. unfold spec_get. f_equal.
  clear -Hk. induction (hash_iter h) as [|p l IH]; [done|]. simpl. rewrite !(veq_sym p.1), <- (veq_same _ _ _ Hk), IH. done.
Qed.

Lemma hash_count_spec h : hash_ok h -> hash_count h = length (hash_iter h).
Proof. intros Hok. unfold hash_count, hash_iter. by rewrite length_map, (lo_size _ _ _ _ Hok). Qed.

Lemma hash_empty_ok : hash_ok hash_empty /\ hash_iter hash_empty = [].
Proof. apply log_empty. Qed.

(** A key that is already present keeps its place, though the map lists the
    instance of the key it was given last. *)
Lemma hash_assoc_ok h k v : hash_ok h -> hash_ok (hash_assoc h k v) /\ hash_iter (hash_assoc h k v) ≡ spec_assoc (hash_iter h) k v.
Proof.
  intros Hok. pose proof (hash_has_key h k Hok) as Hh. unfold hash_contains_key in Hh. unfold hash_assoc, hash_ok, spec_assoc.
  rewrite Hh. destruct (ht_get (index h) k) as [s|] eqn:E.
  - destruct (log_replace fst _ _ _ s (k, v) Hok E) as [H1 H2]. split; [done|]. unfold hash_iter at 1. simpl.
    unfold log_values in H2. rewrite H2. clear. unfold hash_iter. induction (map snd (rb_iter (order h))) as [|p l IH]; [constructor|].
    simpl. constructor; [|done]. destruct (veq p.1 k) eqn:E; simpl; [by rewrite veq_sym|]. split; [apply veq_refl | done].
  - destruct (log_append fst _ _ _ (k, v) Hok E) as [H1 H2]. split; [done|]. unfold hash_iter at 1. simpl.
    unfold log_values in H2. by rewrite H2.
Qed.

Lemma hash_dissoc_ok h k : hash_ok h -> hash_ok (hash_dissoc h k) /\ hash_iter (hash_dissoc h k) = spec_dissoc (hash_iter h) k.
Proof.
  intros Hok. pose proof (hash_has_key h k Hok) as Hh. unfold hash_contains_key in Hh. unfold hash_dissoc, hash_ok.
  destruct (ht_get (index h) k) as [s|] eqn:E; [by apply log_remove|]. split; [done|]. by rewrite spec_dissoc_absent.
Qed.

End Representations.
