(* ===== verification/PersistentMapRefine.v ===== *)
(** Map and set values refine ordered lists of entries: every sequence of
    operations, whatever representation it goes through, is the sequence of the
    list operations of PersistentMapSpec. *)
From stdpp Require Import base list.
From S2P Require Import Prelude RustStd PersistentMap PersistentMapSpec.

(** * Maps *)

Section Maps.
Context {V : Type} {VE : ValueEq V} {HTM : HashTrieMap V} {RBM : RedBlackTreeMap (V * V)}.
Implicit Types (l e : list (V * V)) (k v : V) (h : PersistentHashMap) (m : MapValue).

(** A map value stands for a list of entries. *)
Definition stands_for m l : Prop :=
  distinct l /\ map_iter m ≡ l /\
  match m with
  | MArray a => (length (entries a) <= THRESHOLD)%nat
  | MHash h => hash_ok h
  end.

#[local] Instance stands_for_proper m : Proper ((≡) ==> iff) (stands_for m).
Proof. intros l1 l2 Hl. unfold stands_for. by rewrite Hl. Qed.

Lemma stands_for_observed m l :
  stands_for m l ->
  map_count m = length l /\ (forall k, map_get m k = spec_get l k) /\ (forall k, map_contains_key m k = has_key l k).
Proof.
  intros (Hd & Hl & Hm). assert (Hlen : length (map_iter m) = length l) by (eapply Forall2_length, Hl).
  destruct m as [a|h]; simpl in *.
  - assert (Hget : forall k, array_get a k = spec_get l k) by (intros k; unfold array_get; by rewrite get_pairs_spec, Hl).
    split; [done|]. split; [done|]. intros k. rewrite Hget. destruct (spec_get l k) eqn:E.
    + destruct (has_key l k) eqn:E'; [done|]. apply spec_get_none in E'. congruence.
    + by apply spec_get_none in E.
  - split; [by rewrite hash_count_spec|]. split; intros k; [by rewrite hash_get_spec, Hl | by rewrite <- hash_has_key, Hl].
Qed.

Lemma array_entries_distinct m l a : stands_for m l -> m = MArray a -> distinct (entries a).
Proof. intros (Hd & Hl & _) ->. simpl in Hl. by rewrite Hl. Qed.

Definition spec_from_pairs l pairs : list (V * V) := fold_left (fun l p => spec_assoc l p.1 p.2) pairs l.

#[local] Instance spec_from_pairs_proper : Proper ((≡) ==> eq ==> (≡)) spec_from_pairs.
Proof.
  intros l1 l2 Hl pairs ? <-. unfold spec_from_pairs. revert l1 l2 Hl. induction pairs as [|p pairs IH]; intros l1 l2 Hl; [done|].
  simpl. apply IH. by rewrite Hl.
Qed.

Lemma spec_from_pairs_distinct l pairs : distinct l -> distinct (spec_from_pairs l pairs).
Proof.
  unfold spec_from_pairs. revert l. induction pairs as [|p pairs IH]; intros l Hl; [done|]. simpl. apply IH. by apply spec_assoc_distinct.
Qed.

(** Entries with distinct keys are added as they are. *)
Lemma spec_from_pairs_fresh l pairs : distinct (l ++ pairs) -> spec_from_pairs l pairs = l ++ pairs.
Proof.
  unfold spec_from_pairs. revert l. induction pairs as [|p pairs IH]; intros l Hd; [by rewrite app_nil_r|]. simpl.
  assert (Hk : has_key l p.1 = false).
  { clear IH. induction l as [|q l IHl]; [done|]. destruct Hd as [H1 H2]. simpl. rewrite (IHl H2), orb_false_r.
    rewrite has_key_app in H1. simpl in H1. rewrite veq_sym. destruct (veq p.1 q.1); [|done]. by rewrite orb_true_r in H1. }
  assert (Ha : spec_assoc l p.1 p.2 = l ++ [p]) by (unfold spec_assoc; rewrite Hk; by destruct p).
  rewrite Ha, IH; by rewrite <- app_assoc.
Qed.

Lemma hash_fold_ok h pairs :
  hash_ok h ->
  let h' := fold_left (fun r p => hash_assoc r p.1 p.2) pairs h in
  hash_ok h' /\ hash_iter h' ≡ spec_from_pairs (hash_iter h) pairs.
Proof.
  unfold spec_from_pairs. revert h. induction pairs as [|p pairs IH]; intros h Hok; simpl; [done|].
  destruct (hash_assoc_ok h p.1 p.2 Hok) as [H1 H2]. destruct (IH _ H1) as [H3 H4]. split; [done|]. rewrite H4.
  exact (spec_from_pairs_proper _ _ H2 pairs pairs eq_refl).
Qed.

Lemma hash_from_pairs_ok pairs : hash_ok (hash_from_pairs pairs) /\ hash_iter (hash_from_pairs pairs) ≡ spec_from_pairs [] pairs.
Proof.
  destruct hash_empty_ok as [H1 H2]. destruct (hash_fold_ok hash_empty pairs H1) as [H3 H4]. split; [done|].
  unfold hash_from_pairs. by rewrite H4, H2.
Qed.

Lemma promoted_stands_for e : distinct e -> stands_for (MHash (hash_from_pairs e)) e.
Proof.
  intros Hd. destruct (hash_from_pairs_ok e) as [H1 H2]. split; [done|]. split; [|done]. simpl. rewrite H2.
  by rewrite spec_from_pairs_fresh.
Qed.

Lemma map_empty_stands_for : stands_for map_empty [].
Proof. split; [done|]. split; [done|]. simpl. lia. Qed.

Lemma map_assoc_stands_for m l k v : stands_for m l -> stands_for (map_assoc m k v) (spec_assoc l k v).
Proof.
  intros Hs. pose proof Hs as (Hd & Hl & Hm). assert (Hd' : distinct (spec_assoc l k v)) by (by apply spec_assoc_distinct).
  destruct m as [[e]|h]; simpl in *.
  - pose proof (array_entries_distinct _ _ _ Hs eq_refl) as He. simpl in He. rewrite <- Hl in Hd' |- *.
    rewrite array_assoc_spec by done. destruct (has_key e k || _) eqn:E; [|by apply promoted_stands_for].
    split; [done|]. split; [done|]. simpl. unfold spec_assoc. destruct (has_key e k); simpl in *; [by rewrite length_map|].
    apply Nat.ltb_lt in E. rewrite length_app. simpl. lia.
  - destruct (hash_assoc_ok h k v Hm) as [H1 H2]. split; [done|]. split; [|done]. simpl. by rewrite H2, Hl.
Qed.

Lemma map_dissoc_stands_for m l k : stands_for m l -> stands_for (map_dissoc m k) (spec_dissoc l k).
Proof.
  intros Hs. pose proof Hs as (Hd & Hl & Hm). split; [by apply spec_dissoc_distinct|]. destruct m as [[e]|h]; simpl in *.
  - pose proof (array_entries_distinct _ _ _ Hs eq_refl) as He. simpl in He. rewrite remove_pair_spec by done.
    split; [by rewrite Hl|]. unfold spec_dissoc. etrans; [apply length_filter|done].
  - destruct (hash_dissoc_ok h k Hm) as [H1 H2]. split; [|done]. by rewrite H2, Hl.
Qed.

Lemma push_promoted_spec e pairs : distinct e -> push_promoted e pairs = spec_from_pairs e pairs.
Proof.
  unfold spec_from_pairs. revert e. induction pairs as [|[k v] pairs IH]; intros e Hd; [done|]. simpl.
  pose proof (spec_assoc_distinct e k v Hd) as Hd'. rewrite replace_value_spec by done. unfold spec_assoc in *.
  destruct (has_key e k); by rewrite <- IH.
Qed.

Lemma map_from_pairs_stands_for pairs : stands_for (map_from_pairs pairs) (spec_from_pairs [] pairs).
Proof.
  unfold map_from_pairs, array_from_pairs.
  assert (Hgen : forall e, distinct e -> (length e <= THRESHOLD)%nat ->
    stands_for match array_from_pairs_loop (mkArrayMap e) pairs with Array m => MArray m | Promote ps => MHash (hash_from_pairs ps) end
               (spec_from_pairs e pairs)); [|by apply (Hgen []); [|simpl; lia]].
  unfold spec_from_pairs. induction pairs as [|[k v] pairs IH]; intros e Hd Hlen; [done|]. simpl.
  pose proof (spec_assoc_distinct e k v Hd) as Hd'. rewrite array_assoc_spec by done. destruct (has_key e k || _) eqn:E.
  - apply IH; [done|]. unfold spec_assoc. destruct (has_key e k); simpl in E; [by rewrite length_map|].
    apply Nat.ltb_lt in E. rewrite length_app. simpl. lia.
  - fold (spec_from_pairs (spec_assoc e k v) pairs). rewrite push_promoted_spec by done.
    by apply promoted_stands_for, spec_from_pairs_distinct.
Qed.

(** * Programs over maps *)

Inductive MapOp : Type := OpAssoc (k v : V) | OpDissoc (k : V).

Definition run_op m (o : MapOp) : MapValue :=
  match o with OpAssoc k v => map_assoc m k v | OpDissoc k => map_dissoc m k end.

Definition spec_op l (o : MapOp) : list (V * V) :=
  match o with OpAssoc k v => spec_assoc l k v | OpDissoc k => spec_dissoc l k end.

(** The map a literal and a sequence of updates build. *)
Definition build_map (pairs : list (V * V)) (ops : list MapOp) : MapValue := fold_left run_op ops (map_from_pairs pairs).
Definition build_spec (pairs : list (V * V)) (ops : list MapOp) : list (V * V) := fold_left spec_op ops (spec_from_pairs [] pairs).

Lemma build_stands_for pairs ops : stands_for (build_map pairs ops) (build_spec pairs ops).
Proof.
  unfold build_map, build_spec. generalize (map_from_pairs_stands_for pairs).
  generalize (map_from_pairs pairs) (spec_from_pairs [] pairs). induction ops as [|o ops IH]; intros m l Hs; [done|]. simpl. apply IH.
  destruct o; [by apply map_assoc_stands_for | by apply map_dissoc_stands_for].
Qed.

(** C23: Whatever pairs a map is built from and whatever associations and
    removals follow, the map value (flat array up to eight entries, hash trie
    with insertion log after the promotion) lists, counts, finds and tests its
    keys as the ordered list of entries does: a new key goes to the end, a key
    already present keeps its place, and a lookup returns the value given last. *)
Theorem map_value_refines_entries pairs ops :
  let m := build_map pairs ops in
  let l := build_spec pairs ops in
  map_iter m ≡ l /\ map_count m = length l /\
  (forall k, map_get m k = spec_get l k /\ map_contains_key m k = has_key l k) /\
  (forall a, m = MArray a -> (map_count m <= THRESHOLD)%nat).
Proof.
  intros m l. pose proof (build_stands_for pairs ops) as Hs. fold m l in Hs. pose proof Hs as (_ & Hi & Hm).
  destruct (stands_for_observed m l Hs) as (Hc & Hg & Hk). split_and!; [done | done | by split|].
  intros a Ha. rewrite Ha in *. done.
Qed.

(** * Equality of maps *)

Lemma dissoc_length l k : distinct l -> has_key l k = true -> S (length (spec_dissoc l k)) = length l.
Proof.
  unfold spec_dissoc. induction l as [|p l IH]; [done|]. intros [H1 H2] Hk. rewrite filter_cons. simpl in Hk.
  destruct (veq p.1 k) eqn:E; simpl.
  - rewrite (has_key_veq _ _ _ E) in H1. fold (spec_dissoc l k). by rewrite spec_dissoc_absent.
  - by rewrite (IH H2).
Qed.

Lemma keys_included l1 l2 : distinct l1 -> distinct l2 -> (forall k, has_key l1 k = true -> has_key l2 k = true) -> (length l1 <= length l2)%nat.
Proof.
  revert l2. induction l1 as [|p l1 IH]; intros l2 H1 H2 Hsub; [simpl; lia|]. destruct H1 as [Hp H1].
  assert (Hk : has_key l2 p.1 = true) by (apply Hsub; simpl; by rewrite veq_refl).
  rewrite <- (dissoc_length l2 p.1 H2 Hk). simpl. apply le_n_S, IH; [done | by apply spec_dissoc_distinct|].
  intros k Hk1. rewrite spec_dissoc_has_key, (Hsub k) by (simpl; rewrite Hk1; apply orb_true_r). simpl. apply negb_true_iff, not_true_iff_false.
  intros E. rewrite (has_key_veq _ _ _ E) in Hp. congruence.
Qed.

(** As many keys, each of them in the other map: the same keys. *)
Lemma keys_equal l1 l2 k :
  distinct l1 -> distinct l2 -> (forall k, has_key l1 k = true -> has_key l2 k = true) -> length l1 = length l2 -> has_key l1 k = has_key l2 k.
Proof.
  intros H1 H2 Hsub Hlen. destruct (has_key l1 k) eqn:E1; [symmetry; by apply Hsub|]. symmetry. apply not_true_iff_false. intros E2.
  pose proof (dissoc_length l2 k H2 E2). pose proof (keys_included l1 (spec_dissoc l2 k) H1 (spec_dissoc_distinct _ _ H2)) as Hle.
  assert (length l1 <= length (spec_dissoc l2 k))%nat; [|lia]. apply Hle. intros k' Hk'. rewrite spec_dissoc_has_key, (Hsub k' Hk'). simpl.
  apply negb_true_iff, not_true_iff_false. intros E. rewrite (has_key_veq _ _ _ E) in E1. congruence.
Qed.

(** The same value under a key, or none under it in both maps. *)
Definition same_lookup (a b : option V) : Prop :=
  match a, b with
  | Some v, Some w => veq v w = true
  | None, None => True
  | _, _ => False
  end.

Definition spec_equal l1 l2 : bool :=
  (length l1 =? length l2)%nat && forallb (fun p => match spec_get l2 p.1 with Some w => veq w p.2 | None => false end) l1.

Lemma spec_get_veq l k k' : veq k k' = true -> spec_get l k = spec_get l k'.
Proof.
  intros Hk. unfold spec_get. induction l as [|p l IH]; [done|]. simpl. rewrite !(veq_sym p.1), (veq_same _ _ _ Hk).
  by destruct (veq k' p.1).
Qed.

Lemma spec_get_in l k v : spec_get l k = Some v -> exists p, p ∈ l /\ veq p.1 k = true /\ p.2 = v.
Proof.
  unfold spec_get. intros H. destruct (find (fun p => veq p.1 k) l) as [p|] eqn:E; [|done]. simpl in H. injection H as <-.
  apply find_some in E as [H1 H2]. exists p. split; [by apply list_elem_of_In | done].
Qed.

Lemma spec_equal_correct l1 l2 :
  distinct l1 -> distinct l2 -> spec_equal l1 l2 = true <-> forall k, same_lookup (spec_get l1 k) (spec_get l2 k).
Proof.
  intros H1 H2. unfold spec_equal. rewrite andb_true_iff, Nat.eqb_eq, forallb_forall. split.
  - intros [Hlen Hall] k.
    assert (Hsub : forall k, has_key l1 k = true -> has_key l2 k = true).
    { intros k' Hk'. apply existsb_exists in Hk' as (p & Hp & Hk'). specialize (Hall p Hp).
      rewrite <- (has_key_veq l2 _ _ Hk'). destruct (has_key l2 p.1) eqn:E; [done|]. apply spec_get_none in E. by rewrite E in Hall. }
    pose proof (keys_equal l1 l2 k H1 H2 Hsub Hlen) as Hk. destruct (spec_get l1 k) as [v|] eqn:E1.
    + apply spec_get_in in E1 as (p & Hp & Hpk & <-). apply list_elem_of_In in Hp. specialize (Hall p Hp).
      rewrite (spec_get_veq _ _ _ Hpk) in Hall. destruct (spec_get l2 k); [simpl; by rewrite veq_sym | done].
    + apply spec_get_none in E1. rewrite E1 in Hk. symmetry in Hk. apply spec_get_none in Hk. by rewrite Hk.
  - intros Hsame. assert (Hkeys : forall k, has_key l1 k = has_key l2 k).
    { intros k. specialize (Hsame k). destruct (spec_get l1 k) as [v|] eqn:E1, (spec_get l2 k) as [w|] eqn:E2; simpl in Hsame; try done.
      - destruct (has_key l1 k) eqn:K1; [|apply spec_get_none in K1; congruence].
        destruct (has_key l2 k) eqn:K2; [done | apply spec_get_none in K2; congruence].
      - apply spec_get_none in E1, E2. congruence. }
    split.
    + apply Nat.le_antisymm; apply keys_included; try done; intros k Hk; by rewrite Hkeys in *.
    + intros p Hp. apply list_elem_of_In in Hp. specialize (Hsame p.1). rewrite (spec_get_some _ p H1 Hp) in Hsame.
      destruct (spec_get l2 p.1); [|done]. simpl in Hsame. by rewrite veq_sym.
Qed.

(** Two maps are equal exactly when every key finds equal values in both or
    a value in neither, whatever representation and whatever history of updates
    each of them has; the code looks only at the entries of the first map. *)
Theorem maps_equal_extensional pairs1 ops1 pairs2 ops2 :
  let m1 := build_map pairs1 ops1 in
  let m2 := build_map pairs2 ops2 in
  maps_equal m1 m2 = true <-> forall k, same_lookup (map_get m1 k) (map_get m2 k).
Proof.
  intros m1 m2. pose proof (build_stands_for pairs1 ops1) as Hs1. pose proof (build_stands_for pairs2 ops2) as Hs2. fold m1 in Hs1. fold m2 in Hs2.
  assert (Hi1 : stands_for m1 (map_iter m1)) by (destruct Hs1 as (? & Hl & ?); unfold stands_for; by rewrite Hl).
  assert (Hi2 : stands_for m2 (map_iter m2)) by (destruct Hs2 as (? & Hl & ?); unfold stands_for; by rewrite Hl).
  destruct (stands_for_observed _ _ Hi1) as (Hc1 & Hg1 & _), (stands_for_observed _ _ Hi2) as (Hc2 & Hg2 & _).
  setoid_rewrite Hg1. setoid_rewrite Hg2. rewrite <- spec_equal_correct by (apply Hi1 || apply Hi2).
  assert (Heq : maps_equal m1 m2 = spec_equal (map_iter m1) (map_iter m2)); [|by rewrite Heq].
  unfold maps_equal, spec_equal. rewrite Hc1, Hc2. f_equal. clear -Hg2.
  induction (map_iter m1) as [|p l IH]; [done|]. simpl. by rewrite IH, Hg2.
Qed.

End Maps.

(** * Sets *)

Section Sets.
Context {V : Type} {VE : ValueEq V} {HTM : HashTrieMap V} {RBS : RedBlackTreeMap V}.
Implicit Types (l : list V) (v : V) (s : PersistentHashSet).

Definition member l v : bool := existsb (fun w => veq w v) l.

Definition spec_conj l v : list V := if member l v then l else l ++ [v].
Definition spec_disj l v : list V := filter (fun w => veq w v = false) l.

Definition set_ok s : Prop := log_ok id (set_index s) (set_order s) (set_next_seq s).

Lemma set_contains_spec s v : set_ok s -> set_contains s v = member (set_iter s) v.
Proof.
  intros Hok. unfold set_contains. destruct (ht_get (set_index s) v) as [q|] eqn:E; symmetry.
  - apply (lo_index _ _ _ _ Hok) in E as (a & Ha & Hk). apply existsb_exists. exists a. split; [|done].
    apply list_elem_of_In, (list_elem_of_fmap_2' snd _ (q, a)); [|done]. by apply rb_iter_get.
  - apply not_true_iff_false. intros Hx. apply existsb_exists in Hx as (a & Ha & Hk). apply list_elem_of_In in Ha.
    pose proof (log_absent _ _ _ _ _ Hok E a Ha) as Hf. unfold id in Hf. congruence.
Qed.

Lemma set_conj_ok s v : set_ok s -> set_ok (set_conj s v) /\ set_iter (set_conj s v) = spec_conj (set_iter s) v.
Proof.
  intros Hok. unfold set_conj, spec_conj. rewrite <- (set_contains_spec s v Hok). destruct (set_contains s v) eqn:E; [done|].
  unfold set_contains in E. destruct (ht_get (set_index s) v) eqn:Eg; [done|]. by apply (log_append id).
Qed.

Lemma set_disj_ok s v : set_ok s -> set_ok (set_disj s v) /\ set_iter (set_disj s v) = spec_disj (set_iter s) v.
Proof.
  intros Hok. unfold set_disj. destruct (ht_get (set_index s) v) as [q|] eqn:Eg; [by apply (log_remove id)|]. split; [done|].
  assert (Habs : forall w, w ∈ set_iter s -> veq w v = false) by exact (log_absent _ _ _ _ _ Hok Eg).
  unfold spec_disj. induction (set_iter s) as [|w l IH]; [done|]. rewrite filter_cons, decide_True by (apply Habs; set_solver).
  f_equal. apply IH. set_solver.
Qed.

Inductive SetOp : Type := OpConj (v : V) | OpDisj (v : V).

Definition run_set_op s (o : SetOp) : PersistentHashSet := match o with OpConj v => set_conj s v | OpDisj v => set_disj s v end.
Definition spec_set_op l (o : SetOp) : list V := match o with OpConj v => spec_conj l v | OpDisj v => spec_disj l v end.

Definition build_set (vs : list V) (ops : list SetOp) : PersistentHashSet := fold_left run_set_op ops (set_from_iter vs).
Definition build_members (vs : list V) (ops : list SetOp) : list V := fold_left spec_set_op ops (fold_left spec_conj vs []).

(** A set lists its members in the order of their first insertion, and counts
    and tests them as that list does. *)
Theorem set_refines_members vs ops :
  let s := build_set vs ops in
  let l := build_members vs ops in
  set_iter s = l /\ set_count s = length l /\ forall v, set_contains s v = member l v.
Proof.
  intros s l. assert (Hs : set_ok s /\ set_iter s = l).
  { subst s l. unfold build_set, build_members, set_from_iter.
    assert (H0 : set_ok set_empty /\ set_iter set_empty = []) by apply log_empty.
    assert (H1 : set_ok (fold_left set_conj vs set_empty) /\ set_iter (fold_left set_conj vs set_empty) = fold_left spec_conj vs []).
    { revert H0. generalize (set_empty) ([] : list V). induction vs as [|v vs IH]; intros s l [H1 H2]; [done|]. simpl. apply IH.
      destruct (set_conj_ok s v H1) as [H3 H4]. by rewrite H4, H2. }
    revert H1. generalize (fold_left set_conj vs set_empty) (fold_left spec_conj vs []). clear H0.
    induction ops as [|o ops IH]; intros s l [H1 H2]; [done|]. simpl. apply IH.
    destruct o as [v|v]; simpl; [destruct (set_conj_ok s v H1) as [H3 H4] | destruct (set_disj_ok s v H1) as [H3 H4]]; by rewrite H4, H2. }
  destruct Hs as [Hok Hi]. split; [done|]. rewrite <- Hi. split.
  - unfold set_count, set_iter. by rewrite length_map, (lo_size _ _ _ _ Hok).
  - intros v. by apply set_contains_spec.
Qed.

End Sets.
