(* ===== verification/PersistentMapExamples.v ===== *)
(** Maps and sets over concrete collections: integers of two representations
    that are equal as values, a trie and a tree that are finite maps, and the
    theorems of PersistentMapRefine at a map that is promoted. *)
From Stdlib Require Import Sorted.
From stdpp Require Import base list gmap sorting.
From S2P Require Import Prelude RustStd PersistentMap PersistentMapSpec PersistentMapRefine.
Local Open Scope Z_scope.

(** 1 and 1N are equal values. *)
Inductive Num : Type := Long (n : Z) | BigInt (n : Z).

Definition num_value (a : Num) : Z := match a with Long n | BigInt n => n end.

#[export, refine] Instance num_eq : ValueEq Num := {
  veq a b := bool_decide (num_value a = num_value b)
}.
Proof.
  split; intros a; [by apply bool_decide_eq_true | intros b Hab; apply bool_decide_eq_true in Hab; by apply bool_decide_eq_true|].
  intros b c Hab Hbc. apply bool_decide_eq_true in Hab, Hbc. apply bool_decide_eq_true. congruence.
Defined.

Lemma veq_decide {A : Type} (a b : Num) (x y : A) : (if veq a b then x else y) = if decide (num_value a = num_value b) then x else y.
Proof.
  assert (Hv : veq a b = bool_decide (num_value a = num_value b)) by done. rewrite Hv.
  case_bool_decide; [by rewrite decide_True | by rewrite decide_False].
Qed.

#[export, refine] Instance num_trie : HashTrieMap Num := {
  HT := gmap Z Z;
  ht_new := ∅;
  ht_get m k := m !! num_value k;
  ht_insert m k n := <[num_value k := n]> m;
  ht_remove m k := delete (num_value k) m;
  ht_size m := size m
}.
Proof.
  - intros k. apply lookup_empty.
  - intros m k n k'. rewrite veq_decide. apply lookup_insert.
  - intros m k k'. rewrite veq_decide. apply lookup_delete.
  - apply map_size_empty.
  - intros m k n. rewrite map_size_insert. by destruct (m !! num_value k).
  - intros m k. rewrite map_size_delete. by destruct (m !! num_value k).
Defined.

Definition key_le {A : Type} (p q : Z * A) : Prop := p.1 <= q.1.
#[export] Instance key_le_dec {A : Type} : RelDecision (@key_le A).
Proof. intros p q. unfold key_le. apply _. Defined.
#[export] Instance key_le_total {A : Type} : Total (@key_le A).
Proof. intros p q. unfold key_le. lia. Qed.
#[export] Instance key_le_trans {A : Type} : Transitive (@key_le A).
Proof. intros p q r. unfold key_le. lia. Qed.

Lemma sorted_strict {A : Type} (l : list (Z * A)) : StronglySorted key_le l -> NoDup (map fst l) -> StronglySorted Z.lt (map fst l).
Proof.
  induction 1 as [|p l Hs IH Hf]; intros Hd; simpl in *; [constructor|]. apply NoDup_cons in Hd as [Hp Hd].
  constructor; [by apply IH|]. apply Forall_forall. intros s Hin. apply list_elem_of_fmap in Hin as (q & -> & Hq).
  rewrite Forall_forall in Hf. specialize (Hf q Hq). unfold key_le in Hf.
  assert (p.1 <> q.1); [|lia]. intros E. apply Hp. rewrite E. by apply (list_elem_of_fmap_2 fst).
Qed.

#[export, refine] Instance list_tree {A : Type} : RedBlackTreeMap A := {
  RB := gmap Z A;
  rb_new := ∅;
  rb_get m s := m !! s;
  rb_insert m s a := <[s := a]> m;
  rb_remove m s := delete s m;
  rb_iter m := merge_sort key_le (map_to_list m)
}.
Proof.
  - intros s. apply lookup_empty.
  - intros t s a s'. apply lookup_insert.
  - intros t s s'. apply lookup_delete.
  - intros t. apply sorted_strict; [apply StronglySorted_merge_sort; apply _|].
    change (NoDup (merge_sort key_le (map_to_list t)).*1). rewrite (merge_sort_Permutation key_le). apply NoDup_fst_map_to_list.
  - intros t s a. rewrite merge_sort_Permutation. apply elem_of_map_to_list.
Defined.

(** Nine keys: the ninth promotes the map. *)
Definition nine : list (Num * Num) := map (fun n => (Long n, Long (n * n))) (seqZ 0 9).

Lemma map_value_refines_entries_witness :
  map_count (build_map nine [OpAssoc (BigInt 3) (Long 0); OpDissoc (Long 5)]) = 8%nat /\
  map_get (build_map nine [OpAssoc (BigInt 3) (Long 0); OpDissoc (Long 5)]) (Long 3) = Some (Long 0) /\
  map_contains_key (build_map nine [OpAssoc (BigInt 3) (Long 0); OpDissoc (Long 5)]) (BigInt 5) = false.
Proof.
  destruct (map_value_refines_entries nine [OpAssoc (BigInt 3) (Long 0); OpDissoc (Long 5)]) as (_ & Hc & Hk & _).
  split; [rewrite Hc; vm_compute; reflexivity|]. split.
  - rewrite (proj1 (Hk (Long 3))). vm_compute. reflexivity.
  - rewrite (proj2 (Hk (BigInt 5))). vm_compute. reflexivity.
Defined.

(** The array and the hash map of the same entries, in another order. *)
Lemma maps_equal_extensional_witness :
  (forall k, same_lookup (map_get (build_map nine [OpDissoc (Long 8)]) k) (map_get (build_map (rev (take 8 nine)) []) k)) /\
  maps_equal (build_map nine [OpDissoc (Long 8)]) (build_map (rev (take 8 nine)) []) = true.
Proof.
  assert (He : maps_equal (build_map nine [OpDissoc (Long 8)]) (build_map (rev (take 8 nine)) []) = true) by (vm_compute; reflexivity).
  split; [|exact He]. exact (proj1 (maps_equal_extensional nine [OpDissoc (Long 8)] (rev (take 8 nine)) []) He).
Defined.

(** Associating a key again lists the key given last in a hash map, and the key
    given first in an array map: 3 has become 3N in the promoted map only. *)
Example reassociated_key :
  map fst (map_iter (build_map nine [OpAssoc (BigInt 3) (Long 0)])) = map Long [0; 1; 2] ++ [BigInt 3] ++ map Long [4; 5; 6; 7; 8] /\
  map fst (map_iter (build_map (take 8 nine) [OpAssoc (BigInt 3) (Long 0)])) = map Long [0; 1; 2; 3; 4; 5; 6; 7].
Proof. split; vm_compute; reflexivity. Qed.
