(* ===== verification/Values.v ===== *)
(** Equality and hashing of runtime values (crates/cljrs-value/src/value.rs,
    [PartialEq] and [ClojureHash], and hash.rs).

    A map, set or queue is the sequence of its entries in iteration order; a
    lookup is the search for an equal key (PersistentMapRefine.v relates it to
    the representations).  A lazy sequence is its address and what it realizes
    to.  Objects that are compared by address are [Ref]s.  Doubles, decimals,
    ratios, patterns, arrays and transients are left out. *)
From stdpp Require Import base list countable gmap.
From S2P Require Import Prelude RustStd Datum.
Local Open Scope Z_scope.

Inductive RefKind : Type :=
| RkFn | RkMacro | RkNativeFunction | RkProtocol | RkProtocolFn | RkMultiFn | RkVolatile | RkDelay | RkPromise | RkFuture
| RkAgent | RkAtom | RkVar | RkNamespace | RkNativeObject | RkResource | RkSharedAtom.

#[export] Instance RefKind_eq_dec : EqDecision RefKind.
Proof. solve_decision. Defined.

Inductive Value : Type :=
| Nil
| Bool (b : bool)
| Long (n : Z)
| BigInt (n : Z)
| Char (c : Z)
| Str (s : list Z)
| Uuid (n : Z)
| Instant (ms : Z)
| Sym (s : Symbol)
| Kw (k : Keyword)
| List (l : list Value)
| Vector (l : list Value)
| Map (m : list (Value * Value))
| Set_ (l : list Value)
| Queue (l : list Value)
| Ref (k : RefKind) (address : Z)
| BoundFn (address : Z)
| LazySeq (address : Z) (realized : Value)
| Cons (head tail : Value)
| TypeInstance (type_tag : list Z) (fields : list (Value * Value))
| WithMeta (v meta : Value)
| Reduced (v : Value).

(** * Sequences *)

(** The loop over the tail of a cons cell. *)
Fixpoint cons_tail (t : Value) : list Value :=
  match t with
  | List l => l
  | Cons h t' => h :: cons_tail t'
  | LazySeq _ r => cons_tail r
  | _ => []
  end.

Fixpoint value_to_seq_vec (v : Value) : list Value :=
  match v with
  | LazySeq _ r => value_to_seq_vec r
  | List l | Vector l => l
  | Cons h t => h :: cons_tail t
  | _ => []
  end.

Definition is_sequential (v : Value) : bool :=
  match v with
  | List _ | Vector _ | LazySeq _ _ | Cons _ _ => true
  | _ => false
  end.

(** * Equality *)

Section Comparisons.
Context (eq : Value -> Value -> bool).

(** Lists, vectors, queues and [seq_equal]. *)
Definition items_equal (l1 l2 : list Value) : bool :=
  (length l1 =? length l2)%nat && forallb (fun p => eq p.1 p.2) (zip l1 l2).

Definition entry_get (m : list (Value * Value)) (key : Value) : option Value := snd <$> find (fun e => eq e.1 key) m.

Definition maps_equal (a b : list (Value * Value)) : bool :=
  (length a =? length b)%nat &&
  forallb (fun e => match entry_get b e.1 with Some bv => eq bv e.2 | None => false end) a.

Definition sets_equal (a b : list Value) : bool :=
  (length a =? length b)%nat && forallb (fun k => existsb (fun e => eq e k) b) a.

Definition is_empty {A : Type} (l : list A) : bool := match l with [] => true | _ => false end.

(** One level of the comparison. *)
Definition eq_step (a b : Value) : bool :=
  match a, b with
  | WithMeta inner _, _ => eq inner b
  | _, WithMeta inner _ => eq a inner
  | Reduced inner, _ => eq inner b
  | _, Reduced inner => eq a inner
  | LazySeq p r, _ =>
      if match b with LazySeq q _ => p =? q | _ => false end then true
      else if eq r Nil && is_sequential b then is_empty (value_to_seq_vec b) else eq r b
  | _, LazySeq _ r => if eq r Nil && is_sequential a then is_empty (value_to_seq_vec a) else eq a r
  | Nil, Nil => true
  | Bool x, Bool y => Bool.eqb x y
  | Long x, Long y | Long x, BigInt y | BigInt x, Long y | BigInt x, BigInt y => x =? y
  | Char x, Char y => x =? y
  | Str x, Str y => bool_decide (x = y)
  | Sym x, Sym y =>
      bool_decide (sym_namespace x = sym_namespace y) && bool_decide (sym_name x = sym_name y) && bool_decide (sym_version x = sym_version y)
  | Kw x, Kw y => bool_decide (kw_namespace x = kw_namespace y) && bool_decide (kw_name x = kw_name y)
  | List x, List y | Vector x, Vector y | Queue x, Queue y => items_equal x y
  | Set_ x, Set_ y => sets_equal x y
  | Map x, Map y => maps_equal x y
  | List _, Vector _ | Vector _, List _ => items_equal (value_to_seq_vec a) (value_to_seq_vec b)
  | Cons _ _, _ | _, Cons _ _ => items_equal (value_to_seq_vec a) (value_to_seq_vec b)
  | Ref j p, Ref k q => bool_decide (j = k) && (p =? q)
  | Uuid x, Uuid y => x =? y
  | Instant x, Instant y => x =? y
  | TypeInstance s x, TypeInstance t y => bool_decide (s = t) && maps_equal x y
  | _, _ => false
  end.

End Comparisons.

(** Every comparison is of smaller values. *)
Fixpoint vsize (v : Value) : nat :=
  match v with
  | List l | Vector l | Set_ l | Queue l => S (foldr (fun x n => vsize x + n) 0 l)
  | Map m | TypeInstance _ m => S (foldr (fun e n => vsize e.1 + vsize e.2 + n) 0 m)
  | LazySeq _ r => S (vsize r)
  | Cons h t => S (vsize h + vsize t)
  | WithMeta i _ | Reduced i => S (vsize i)
  | _ => 1
  end%nat.

Fixpoint eq_fuel (n : nat) (a b : Value) : bool :=
  match n with
  | O => false
  | S n' => eq_step (eq_fuel n') a b
  end.

Definition value_eq (a b : Value) : bool := eq_fuel (vsize a + vsize b) a b.

(** * Hashing *)

Definition murmur3_mix (h : Z) : Z :=
  let h := Z.lxor h (Z.shiftr h 16) in
  let h := wrap_u32 (h * 0x85ebca6b) in
  let h := Z.lxor h (Z.shiftr h 13) in
  let h := wrap_u32 (h * 0xc2b2ae35) in
  Z.lxor h (Z.shiftr h 16).

Definition hash_i64 (n : Z) : Z := murmur3_mix (Z.lxor (wrap_u32 n) (wrap_u32 (Z.shiftr n 32))).

Definition hash_u128 (n : Z) : Z :=
  let a := wrap_u32 n in
  let b := Z.land (Z.shiftr n 32) 0xFFFFFFFF in
  let c := Z.land (Z.shiftr n 64) 0xFFFFFFFF in
  let d := Z.land (Z.shiftr n 96) 0xFFFFFFFF in
  murmur3_mix (Z.lxor (Z.lxor (Z.lxor a b) c) d).

Definition wrap_i32 (n : Z) : Z := (n + 2 ^ 31) mod 2 ^ 32 - 2 ^ 31.

(** [char::encode_utf16] *)
Definition encode_utf16 (c : Z) : list Z :=
  if c <? 0x10000 then [c]
  else [0xD800 + Z.shiftr (c - 0x10000) 10; 0xDC00 + Z.land (c - 0x10000) 0x3FF].

Definition hash_string (s : list Z) : Z :=
  murmur3_mix (wrap_u32 (fold_left (fun h unit => wrap_i32 (wrap_i32 (h * 31) + unit)) (s ≫= encode_utf16) 0)).

Definition hash_combine_unordered (a b : Z) : Z := Z.lxor a b.

Definition hash_combine_ordered (acc h : Z) : Z := murmur3_mix (wrap_u32 (wrap_u32 (acc * 31) + h)).

(** Addresses as hashes. *)
Definition hash_ref (k : RefKind) (address : Z) : Z :=
  match k with
  | RkNativeObject | RkResource => hash_i64 (wrap_i64 address)
  | _ => wrap_u32 address
  end.

Fixpoint clojure_hash (v : Value) : Z :=
  match v with
  | WithMeta inner _ | Reduced inner => clojure_hash inner
  | Nil => 0
  | Bool b => if b then 1231 else 1237
  | Long n => hash_i64 n
  | BigInt n => if in_range i64_min i64_max n then hash_i64 n else hash_string (to_string n)
  | Char c => c
  | Str s => hash_string s
  | Kw k => hash_string (keyword_display k)
  | Sym s => hash_string (versioned_name s)
  | Uuid u => hash_u128 u
  | Instant ms => hash_i64 ms
  | Ref k p => hash_ref k p
  | BoundFn p => wrap_u32 p
  | List l | Vector l | Queue l => fold_left (fun h x => hash_combine_ordered h (clojure_hash x)) l 1
  | Map m =>
      fold_left (fun h e => hash_combine_unordered h (hash_combine_ordered (clojure_hash e.1) (clojure_hash e.2))) m 0
  | Set_ l => fold_left (fun h x => hash_combine_unordered h (clojure_hash x)) l 0
  | LazySeq _ r => clojure_hash r
  | Cons head tail =>
      (fix tail_hash (h : Z) (t : Value) : Z :=
         match t with
         | List l => fold_left (fun h x => hash_combine_ordered h (clojure_hash x)) l h
         | Cons x t' => tail_hash (hash_combine_ordered h (clojure_hash x)) t'
         | LazySeq _ r => tail_hash h r
         | _ => h
         end) (hash_combine_ordered 1 (clojure_hash head)) tail
  | TypeInstance tag m =>
      hash_combine_ordered (hash_string tag)
        (fold_left (fun h e => hash_combine_unordered h (hash_combine_ordered (clojure_hash e.1) (clojure_hash e.2))) m 0)
  end.

(** A cons cell is hashed as the sequence of its items. *)
Lemma cons_hash h t :
  clojure_hash (Cons h t) = fold_left (fun acc x => hash_combine_ordered acc (clojure_hash x)) (value_to_seq_vec (Cons h t)) 1.
Proof.
  cbn [clojure_hash value_to_seq_vec fold_left]. generalize (hash_combine_ordered 1 (clojure_hash h)). clear h.
  assert (Hgen : forall t acc, (fix tail_hash (h : Z) (t : Value) : Z :=
         match t with
         | List l => fold_left (fun h x => hash_combine_ordered h (clojure_hash x)) l h
         | Cons x t' => tail_hash (hash_combine_ordered h (clojure_hash x)) t'
         | LazySeq _ r => tail_hash h r
         | _ => h
         end) acc t = fold_left (fun acc x => hash_combine_ordered acc (clojure_hash x)) (cons_tail t) acc); [|intros; apply Hgen].
  clear. fix IH 1. intros [] acc; try done; [exact (IH realized acc) | exact (IH tail _)].
Qed.
