(* ===== verification/ValuesSpec.v ===== *)
(** Equality of values is an equivalence and equal values have equal hashes, on
    values whose lazy sequences have elements.  Both follow from a code of
    values: equality compares codes, and the hash is determined by the code.

    What maps and sets rely on: equality of values is an equivalence, and
    equal values have equal hashes; and the values for which neither holds. *)
From stdpp Require Import base list countable gmap strings.
From S2P Require Import Prelude RustStd Datum PersistentMap Values.
Local Open Scope Z_scope.
#[local] Opaque encode.

(** * Codes *)

Definition enc (tag : nat) (l : list positive) : positive := encode (tag, l).
Arguments enc : simpl never.

Lemma enc_inj t l t' l' : enc t l = enc t' l' -> t = t' /\ l = l'.
Proof. unfold enc. intros H. apply (inj encode) in H. by injection H. Qed.

Definition ref_index (k : RefKind) : nat :=
  match k with
  | RkFn => 0 | RkMacro => 1 | RkNativeFunction => 2 | RkProtocol => 3 | RkProtocolFn => 4 | RkMultiFn => 5 | RkVolatile => 6
  | RkDelay => 7 | RkPromise => 8 | RkFuture => 9 | RkAgent => 10 | RkAtom => 11 | RkVar => 12 | RkNamespace => 13
  | RkNativeObject => 14 | RkResource => 15 | RkSharedAtom => 16
  end.

(** Metadata, laziness and the kind of sequence leave no trace in a code. *)
Fixpoint code (v : Value) : positive :=
  match v with
  | Nil => enc 0 []
  | Bool b => enc 1 [encode b]
  | Long n | BigInt n => enc 2 [encode n]
  | Char c => enc 3 [encode c]
  | Str s => enc 4 [encode s]
  | Uuid n => enc 5 [encode n]
  | Instant n => enc 6 [encode n]
  | Sym s => enc 7 [encode (sym_namespace s, sym_name s, sym_version s)]
  | Kw k => enc 8 [encode (kw_namespace k, kw_name k)]
  | List l | Vector l => enc 9 (map code l)
  | Cons h t =>
      enc 9 (code h :: (fix tail_codes (t : Value) : list positive :=
                          match t with
                          | List l => map code l
                          | Cons x t' => code x :: tail_codes t'
                          | LazySeq _ r => tail_codes r
                          | _ => []
                          end) t)
  | Map m => enc 10 [encode (list_to_set (map (fun e => (code e.1, code e.2)) m) : gset (positive * positive))]
  | Set_ l => enc 11 [encode (list_to_set (map code l) : gset positive)]
  | Queue l => enc 12 (map code l)
  | Ref k p => enc 13 [encode (ref_index k); encode p]
  | BoundFn p => enc 14 [encode p]
  | TypeInstance tag m => enc 15 [encode tag; encode (list_to_set (map (fun e => (code e.1, code e.2)) m) : gset (positive * positive))]
  | LazySeq _ r => code r
  | WithMeta inner _ | Reduced inner => code inner
  end.

Lemma code_cons h t : code (Cons h t) = enc 9 (map code (value_to_seq_vec (Cons h t))).
Proof.
  cbn [code value_to_seq_vec map]. do 2 f_equal. revert t. clear h. fix IH 1. intros []; try done; [exact (IH realized)|].
  cbn [cons_tail map]. f_equal. exact (IH tail).
Qed.

(** * Values with an equality *)

(** What is left of a value without metadata and laziness. *)
Fixpoint strip (v : Value) : Value :=
  match v with
  | LazySeq _ r => strip r
  | WithMeta inner _ | Reduced inner => strip inner
  | _ => v
  end.

Lemma code_nil v : code v = code Nil -> strip v = Nil.
Proof.
  induction v; cbn [code strip]; intros E; try done; try (by apply IHv); try (by apply IHv1); try (apply enc_inj in E as [E _]; discriminate E).
Qed.

Section Regular.
(** [forced] is what the lazy sequence at an address realizes to. *)
Context (forced : Z -> Value).

(** Integers in range, no lazy sequence that realizes to nil except as the tail
    of a cons cell, distinct keys, no bound functions. *)
Fixpoint reg (in_tail : bool) (v : Value) : Prop :=
  match v with
  | Long n => is_i64 n
  | List l | Vector l | Queue l => foldr (fun x P => reg false x /\ P) True l
  | Set_ l => foldr (fun x P => reg false x /\ P) True l /\ NoDup (map code l)
  | Map m | TypeInstance _ m =>
      foldr (fun e P => reg false e.1 /\ reg false e.2 /\ P) True m /\ NoDup (map (fun e => code e.1) m)
  | BoundFn _ => False
  | LazySeq p r => forced p = r /\ (in_tail = false -> strip r <> Nil) /\ reg in_tail r
  | Cons h t => reg false h /\ reg true t
  | WithMeta inner _ | Reduced inner => reg in_tail inner
  | _ => True
  end.

Definition regular (v : Value) : Prop := reg false v.

Lemma reg_list l : foldr (fun x P => reg false x /\ P) True l -> forall x, x ∈ l -> regular x.
Proof. induction l as [|y l IH]; simpl; intros Hl x Hx; [set_solver|]. destruct Hl. apply elem_of_cons in Hx as [->|Hx]; [done | by apply IH]. Qed.

Lemma reg_entries (m : list (Value * Value)) :
  foldr (fun e P => reg false e.1 /\ reg false e.2 /\ P) True m -> forall e, e ∈ m -> regular e.1 /\ regular e.2.
Proof. induction m as [|y m IH]; simpl; intros Hm e He; [set_solver|]. destruct Hm as (? & ? & ?). apply elem_of_cons in He as [->|He]; [done | by apply IH]. Qed.

Lemma reg_cons_tail t : reg true t -> forall x, x ∈ cons_tail t -> regular x.
Proof.
  induction t; simpl; intros Ht x Hx; try (by apply elem_of_nil in Hx); [by eapply reg_list | apply IHt; [apply Ht | done]|].
  destruct Ht. apply elem_of_cons in Hx as [->|Hx]; [done | by apply IHt2].
Qed.

Lemma reg_items v : regular v -> forall x, x ∈ value_to_seq_vec v -> regular x.
Proof.
  unfold regular. induction v; simpl; intros Hv x Hx; try (by apply elem_of_nil in Hx); [by eapply reg_list | by eapply reg_list | apply IHv; [apply Hv | done]|].
  destruct Hv. apply elem_of_cons in Hx as [->|Hx]; [done | by eapply reg_cons_tail].
Qed.

(** * Sizes *)

Lemma vsize_pos v : (1 <= vsize v)%nat.
Proof. destruct v; simpl; lia. Qed.

Lemma vsize_list (l : list Value) x : x ∈ l -> (vsize x <= foldr (fun x n => vsize x + n) 0 l)%nat.
Proof. induction l as [|y l IH]; intros Hx; [set_solver|]. simpl. apply elem_of_cons in Hx as [->|Hx]; [lia|]. specialize (IH Hx). lia. Qed.

Lemma vsize_entries (m : list (Value * Value)) e :
  e ∈ m -> (vsize e.1 + vsize e.2 <= foldr (fun e n => vsize e.1 + vsize e.2 + n) 0 m)%nat.
Proof. induction m as [|y m IH]; intros He; [set_solver|]. simpl. apply elem_of_cons in He as [->|He]; [lia|]. specialize (IH He). lia. Qed.

Lemma vsize_cons_tail t x : x ∈ cons_tail t -> (vsize x <= vsize t)%nat.
Proof.
  induction t; simpl; intros Hx; try (by apply elem_of_nil in Hx); [apply vsize_list in Hx; lia | specialize (IHt Hx); lia|].
  apply elem_of_cons in Hx as [->|Hx]; [lia|]. specialize (IHt2 Hx). lia.
Qed.

Lemma vsize_items v x : x ∈ value_to_seq_vec v -> (vsize x < vsize v)%nat.
Proof.
  induction v; simpl; intros Hx; try (by apply elem_of_nil in Hx); [apply vsize_list in Hx; lia | apply vsize_list in Hx; lia | specialize (IHv Hx); lia|].
  apply elem_of_cons in Hx as [->|Hx]; [lia|]. apply vsize_cons_tail in Hx. lia.
Qed.

(** * Comparing collections compares codes *)

Section Comparison.
Context (F : Value -> Value -> bool).
Abbreviation compares x y := (F x y = bool_decide (code x = code y)).

Lemma items_equal_code l1 l2 :
  (forall x y, x ∈ l1 -> y ∈ l2 -> compares x y) -> items_equal F l1 l2 = bool_decide (map code l1 = map code l2).
Proof.
  unfold items_equal. revert l2. induction l1 as [|x l1 IH]; intros [|y l2] HF; [done..|].
  assert (IH' := IH l2 ltac:(intros; apply HF; set_solver)). cbn [length zip zip_with forallb map Nat.eqb fst snd].
  rewrite (HF x y) by set_solver. rewrite andb_assoc, (andb_comm (_ =? _)%nat), <- andb_assoc. cbn [Nat.eqb] in IH'. rewrite IH'.
  apply eq_true_iff_eq. rewrite andb_true_iff, !bool_decide_eq_true. split; [intros [-> ->]; done | intros [= -> ->]; done].
Qed.

Lemma nodup_key {A B : Type} (f : A -> B) l x y : NoDup (map f l) -> x ∈ l -> y ∈ l -> f x = f y -> x = y.
Proof.
  induction l as [|z l IH]; simpl; intros Hn Hx Hy E; [set_solver|]. apply NoDup_cons in Hn as [Hz Hn].
  apply elem_of_cons in Hx as [->|Hx], Hy as [->|Hy]; [done | | | by apply IH]; exfalso; apply Hz.
  - rewrite E. by apply (list_elem_of_fmap_2 f).
  - rewrite <- E. by apply (list_elem_of_fmap_2 f).
Qed.

(** Lists without duplicates and of the same length, one included in the
    other, are permutations. *)
Lemma same_elements {A : Type} (l1 l2 : list A) :
  NoDup l1 -> NoDup l2 -> (length l1 = length l2 /\ (forall x, x ∈ l1 -> x ∈ l2)) <-> (forall x, x ∈ l1 <-> x ∈ l2).
Proof.
  intros H1 H2. split.
  - intros [Hlen Hsub]. assert (Hp : l1 ≡ₚ l2).
    { apply submseteq_length_Permutation; [|lia]. by apply NoDup_submseteq. }
    intros x. by rewrite Hp.
  - intros Heq. split; [|intros x; apply Heq]. by apply Permutation_length, NoDup_Permutation.
Qed.

Lemma sets_equal_code l1 l2 :
  (forall x y, x ∈ l2 -> y ∈ l1 -> compares x y) -> NoDup (map code l1) -> NoDup (map code l2) ->
  sets_equal F l1 l2 = bool_decide (list_to_set (map code l1) = (list_to_set (map code l2) : gset positive)).
Proof.
  intros HF H1 H2. apply eq_true_iff_eq. unfold sets_equal. rewrite andb_true_iff, Nat.eqb_eq, forallb_forall, bool_decide_eq_true, set_eq.
  setoid_rewrite elem_of_list_to_set. rewrite <- (same_elements _ _ H1 H2). rewrite !length_map. apply and_iff_compat_l. split.
  - intros Hall x Hx. apply list_elem_of_fmap in Hx as (k & -> & Hk). apply list_elem_of_In in Hk as Hk'. apply Hall, existsb_exists in Hk' as (e & He & Hek).
    apply list_elem_of_In in He. rewrite HF in Hek by done. apply bool_decide_eq_true in Hek. rewrite <- Hek. by apply (list_elem_of_fmap_2 code).
  - intros Hsub k Hk. apply list_elem_of_In in Hk. apply existsb_exists.
    destruct (proj1 (list_elem_of_fmap code l2 (code k)) (Hsub _ (list_elem_of_fmap_2 code _ _ Hk))) as (e & He & Hin).
    exists e. split; [by apply list_elem_of_In|]. rewrite HF by done. by apply bool_decide_eq_true.
Qed.

Lemma entry_get_code (m : list (Value * Value)) k v :
  (forall e, e ∈ m -> compares e.1 k /\ compares e.2 v) -> NoDup (map (fun e => code e.1) m) ->
  (match entry_get F m k with Some w => F w v | None => false end = true) <-> (code k, code v) ∈ map (fun e => (code e.1, code e.2)) m.
Proof.
  intros HF Hn. unfold entry_get. split.
  - destruct (find (fun e => F e.1 k) m) as [e|] eqn:E; [|done]. simpl. intros Hv. apply find_some in E as [Hin Hk]. apply list_elem_of_In in Hin.
    destruct (HF e Hin) as [H1 H2]. rewrite H1 in Hk. rewrite H2 in Hv. apply bool_decide_eq_true in Hk, Hv. rewrite <- Hk, <- Hv.
    by apply (list_elem_of_fmap_2 (fun e => (code e.1, code e.2))).
  - intros Hin. apply list_elem_of_fmap in Hin as (e & [= Hk Hv] & Hin). destruct (find (fun e => F e.1 k) m) as [e'|] eqn:E; simpl.
    + apply find_some in E as [Hin' Hk']. apply list_elem_of_In in Hin'. destruct (HF e' Hin') as [H1 H2]. rewrite H1 in Hk'. apply bool_decide_eq_true in Hk'.
      assert (e' = e) as -> by (apply (nodup_key (fun e => code e.1) m); [done | done | done | congruence]).
      rewrite H2. by apply bool_decide_eq_true.
    + exfalso. apply list_elem_of_In in Hin as Hin'. pose proof (find_none _ _ E e Hin') as Hf. simpl in Hf. rewrite (proj1 (HF e Hin)) in Hf.
      apply bool_decide_eq_false in Hf. by rewrite Hk in Hf.
Qed.

Lemma nodup_pairs (m : list (Value * Value)) : NoDup (map (fun e => code e.1) m) -> NoDup (map (fun e => (code e.1, code e.2)) m).
Proof.
  induction m as [|e m IH]; simpl; intros Hn; [constructor|]. apply NoDup_cons in Hn as [Hk Hn]. apply NoDup_cons. split; [|by apply IH].
  intros Hin. apply list_elem_of_fmap in Hin as (e' & [= E _] & Hin). apply Hk. rewrite E. by apply (list_elem_of_fmap_2 (fun e => code e.1)).
Qed.

Lemma maps_equal_code a b :
  (forall e e', e ∈ b -> e' ∈ a -> compares e.1 e'.1 /\ compares e.2 e'.2) ->
  NoDup (map (fun e => code e.1) a) -> NoDup (map (fun e => code e.1) b) ->
  maps_equal F a b = bool_decide (list_to_set (map (fun e => (code e.1, code e.2)) a) =
                                  (list_to_set (map (fun e => (code e.1, code e.2)) b) : gset (positive * positive))).
Proof.
  intros HF H1 H2. apply eq_true_iff_eq. unfold maps_equal. rewrite andb_true_iff, Nat.eqb_eq, forallb_forall, bool_decide_eq_true, set_eq.
  setoid_rewrite elem_of_list_to_set. rewrite <- (same_elements _ _ (nodup_pairs a H1) (nodup_pairs b H2)), !length_map. apply and_iff_compat_l. split.
  - intros Hall x Hx. apply list_elem_of_fmap in Hx as (e & -> & He). apply (entry_get_code b e.1 e.2); [intros e' He'; by apply HF | done|].
    apply Hall. by apply list_elem_of_In.
  - intros Hsub e He. apply list_elem_of_In in He. apply (entry_get_code b e.1 e.2); [intros e' He'; by apply HF | done|].
    apply Hsub. by apply (list_elem_of_fmap_2 (fun e => (code e.1, code e.2))).
Qed.

End Comparison.

(** * Equality compares codes *)

Lemma eqb_decide x y : (x =? y) = bool_decide (x = y).
Proof. apply eq_true_iff_eq. by rewrite Z.eqb_eq, bool_decide_eq_true. Qed.

Lemma enc_decide `{Countable A} t (x y : A) : bool_decide (enc t [encode x] = enc t [encode y]) = bool_decide (x = y).
Proof.
  apply eq_true_iff_eq. rewrite !bool_decide_eq_true. split; [|by intros ->]. intros E. apply enc_inj in E as [_ [= E]]. by apply (inj encode).
Qed.

Lemma enc_decide_list t l l' : bool_decide (enc t l = enc t l') = bool_decide (l = l').
Proof. apply eq_true_iff_eq. rewrite !bool_decide_eq_true. split; [|by intros ->]. intros E. by apply enc_inj in E as [_ E]. Qed.

Lemma ref_index_inj j k : ref_index j = ref_index k -> j = k.
Proof. destruct j, k; done. Qed.

(** The constructors that are left when metadata and laziness are peeled off. *)
Definition is_head (v : Value) : bool :=
  match v with
  | WithMeta _ _ | Reduced _ | LazySeq _ _ => false
  | _ => true
  end.

Definition is_seq (v : Value) : bool :=
  match v with
  | List _ | Vector _ | Cons _ _ => true
  | _ => false
  end.

Lemma code_seq v : is_seq v = true -> code v = enc 9 (map code (value_to_seq_vec v)).
Proof. destruct v; try done. intros _. apply code_cons. Qed.

Section Step.
Context (F : Value -> Value -> bool) (n : nat).
Context (HF : forall x y, (vsize x + vsize y <= n)%nat -> regular x -> regular y -> F x y = bool_decide (code x = code y)).

Lemma eq_step_seqs a b :
  is_seq a = true -> is_seq b = true -> (vsize a + vsize b <= S n)%nat -> regular a -> regular b ->
  eq_step F a b = bool_decide (code a = code b).
Proof.
  intros Sa Sb Hn Ra Rb. rewrite (code_seq a Sa), (code_seq b Sb), enc_decide_list.
  rewrite <- (items_equal_code F).
  - destruct a; try done; destruct b; done.
  - intros x y Hx Hy. apply HF; [|by apply (reg_items a) | by apply (reg_items b)]. apply vsize_items in Hx, Hy. lia.
Qed.

Lemma eq_step_heads a b :
  is_head a = true -> is_head b = true -> (vsize a + vsize b <= S n)%nat -> regular a -> regular b ->
  eq_step F a b = bool_decide (code a = code b).
Proof.
  intros Ha Hb Hn Ra Rb.
  destruct (is_seq a) eqn:Sa, (is_seq b) eqn:Sb; [by apply eq_step_seqs|..].
  - assert (Hne : code a <> code b).
    { rewrite (code_seq a Sa). destruct b; try done; cbn [code]; intros E; apply enc_inj in E as [E _]; discriminate E. }
    rewrite bool_decide_eq_false_2 by done. destruct a; try done; destruct b; done.
  - assert (Hne : code a <> code b).
    { rewrite (code_seq b Sb). destruct a; try done; cbn [code]; intros E; apply enc_inj in E as [E _]; discriminate E. }
    rewrite bool_decide_eq_false_2 by done. destruct b; try done; destruct a; done.
  - destruct a; try done; destruct b; try done; cbn [eq_step code];
      try (symmetry; apply bool_decide_eq_false_2; intros E; apply enc_inj in E as [E _]; discriminate E).
    + rewrite enc_decide. by destruct b, b0.
    + by rewrite enc_decide, eqb_decide.
    + by rewrite enc_decide, eqb_decide.
    + by rewrite enc_decide, eqb_decide.
    + by rewrite enc_decide, eqb_decide.
    + by rewrite enc_decide, eqb_decide.
    + by rewrite enc_decide.
    + by rewrite enc_decide, eqb_decide.
    + by rewrite enc_decide, eqb_decide.
    + rewrite enc_decide. apply eq_true_iff_eq. rewrite !andb_true_iff, !bool_decide_eq_true. split; [by intros [[-> ->] ->] | by intros [= -> -> ->]].
    + rewrite enc_decide. apply eq_true_iff_eq. rewrite !andb_true_iff, !bool_decide_eq_true. split; [by intros [-> ->] | by intros [= -> ->]].
    + rewrite enc_decide. destruct Ra as [Ra Na], Rb as [Rb Nb]. apply maps_equal_code; [|done|done].
      intros e e' He He'. apply vsize_entries in He as Hs, He' as Hs'. simpl in Hn.
      destruct (reg_entries _ Ra e' He'), (reg_entries _ Rb e He). split; apply HF; done || lia.
    + rewrite enc_decide. destruct Ra as [Ra Na], Rb as [Rb Nb]. apply sets_equal_code; [|done|done].
      intros x y Hx Hy. apply vsize_list in Hx as Hs, Hy as Hs'. simpl in Hn. apply HF; [lia | exact (reg_list _ Rb x Hx) | exact (reg_list _ Ra y Hy)].
    + rewrite enc_decide_list. apply items_equal_code.
      intros x y Hx Hy. apply vsize_list in Hx as Hs, Hy as Hs'. simpl in Hn. apply HF; [lia | exact (reg_list _ Ra x Hx) | exact (reg_list _ Rb y Hy)].
    + rewrite eqb_decide. apply eq_true_iff_eq. rewrite andb_true_iff, !bool_decide_eq_true. split; [by intros [-> ->]|].
      intros E. apply enc_inj in E as [_ E]. injection E as E1 E2. apply (inj encode) in E1, E2. by apply ref_index_inj in E1.
    + destruct Ra as [Ra Na], Rb as [Rb Nb]. rewrite maps_equal_code; [|intros e e' He He'|done|done].
      * apply eq_true_iff_eq. rewrite andb_true_iff, !bool_decide_eq_true. split; [by intros [-> ->]|].
        intros E. apply enc_inj in E as [_ E]. injection E as E1 E2. apply (inj encode) in E1, E2. done.
      * apply vsize_entries in He as Hs, He' as Hs'. simpl in Hn.
        destruct (reg_entries _ Ra e' He'), (reg_entries _ Rb e He). split; apply HF; done || lia.
Qed.

Lemma realized_not_nil p r : regular (LazySeq p r) -> (vsize r + 1 <= n)%nat -> F r Nil = false.
Proof.
  intros (_ & Hnil & Hr) Hn. rewrite HF; [|simpl; lia | done | done]. apply bool_decide_eq_false_2. intros E. by apply Hnil; [|apply code_nil].
Qed.

Lemma eq_step_code a b :
  (vsize a + vsize b <= S n)%nat -> regular a -> regular b -> eq_step F a b = bool_decide (code a = code b).
Proof.
  intros Hn Ra Rb. pose proof (vsize_pos a). pose proof (vsize_pos b).
  destruct (is_head a) eqn:Ha.
  - destruct (is_head b) eqn:Hb; [by apply eq_step_heads|]. destruct b as [| | | | | | | | | | | | | | | | |q r| | |b1 b2|b1]; try done; simpl in Hn.
    + assert (Hs : eq_step F a (LazySeq q r) = if F r Nil && is_sequential a then is_empty (value_to_seq_vec a) else F a r) by (by destruct a).
      rewrite Hs, (realized_not_nil q r Rb) by lia. refine (HF a r _ _ _); [lia | done | apply Rb].
    + assert (Hs : eq_step F a (WithMeta b1 b2) = F a b1) by (by destruct a). rewrite Hs. refine (HF a b1 _ _ _); [lia | done | apply Rb].
    + assert (Hs : eq_step F a (Reduced b1) = F a b1) by (by destruct a). rewrite Hs. refine (HF a b1 _ _ _); [lia | done | apply Rb].
  - destruct a as [| | | | | | | | | | | | | | | | |p r| | |a1 a2|a1]; try done; simpl in Hn.
    + destruct b as [| | | | | | | | | | | | | | | | |q r'| | |b1 b2|b1];
        try (cbn [eq_step]; rewrite (realized_not_nil p r Ra) by lia; refine (HF r _ _ _ _); [simpl in *; lia | apply Ra | done]).
      * cbn [eq_step is_sequential]. rewrite andb_false_r. refine (HF r Nil _ _ _); [simpl in *; lia | apply Ra | done].
      * cbn [eq_step]. destruct (Z.eqb_spec p q) as [->|Hne].
        { destruct Ra as (<- & _), Rb as (<- & _). by rewrite bool_decide_eq_true_2. }
        rewrite (realized_not_nil p r Ra) by lia. refine (HF r (LazySeq q r') _ _ _); [lia | apply Ra | done].
      * cbn [eq_step]. refine (HF (LazySeq p r) b1 _ _ _); [simpl in *; lia | done | apply Rb].
      * cbn [eq_step]. refine (HF (LazySeq p r) b1 _ _ _); [simpl in *; lia | done | apply Rb].
    + cbn [eq_step]. refine (HF a1 b _ _ _); [lia | apply Ra | done].
    + destruct b as [| | | | | | | | | | | | | | | | |q r'| | |b1 b2|b1];
        try (cbn [eq_step]; refine (HF a1 _ _ _ _); [lia | apply Ra | done]).
      cbn [eq_step]. refine (HF (Reduced a1) b1 _ _ _); [simpl in *; lia | done | apply Rb].
Qed.

End Step.

Lemma eq_fuel_code n a b :
  (vsize a + vsize b <= n)%nat -> regular a -> regular b -> eq_fuel n a b = bool_decide (code a = code b).
Proof.
  revert a b. induction n as [|n IH]; intros a b Hn Ra Rb; [pose proof (vsize_pos a); lia|]. by apply (eq_step_code (eq_fuel n) n).
Qed.

Lemma value_eq_code a b : regular a -> regular b -> value_eq a b = bool_decide (code a = code b).
Proof. intros Ra Rb. by apply eq_fuel_code. Qed.

(** * Hashes are determined by codes *)

Lemma ordered_hash {A C : Type} (c : A -> C) (h : A -> Z) l1 l2 acc :
  map c l1 = map c l2 -> (forall x y, x ∈ l1 -> y ∈ l2 -> c x = c y -> h x = h y) ->
  fold_left (fun acc x => hash_combine_ordered acc (h x)) l1 acc = fold_left (fun acc x => hash_combine_ordered acc (h x)) l2 acc.
Proof.
  revert l2 acc. induction l1 as [|x l1 IH]; intros [|y l2] acc E Hh; try done. simpl in *. injection E as E1 E2.
  rewrite (Hh x y) by (done || set_solver). apply IH; [done|]. intros; apply Hh; set_solver.
Qed.

Lemma xor_perm l1 l2 acc : l1 ≡ₚ l2 -> fold_left hash_combine_unordered l1 acc = fold_left hash_combine_unordered l2 acc.
Proof.
  intros Hp. revert acc. induction Hp as [|x l1 l2 _ IH|x y l|l1 l2 l3 _ IH1 _ IH2]; intros acc; simpl; [done | apply IH | |by rewrite IH1].
  f_equal. unfold hash_combine_unordered. rewrite !Z.lxor_assoc. f_equal. apply Z.lxor_comm.
Qed.

Lemma unordered_hash {A C : Type} (c : A -> C) (h : A -> Z) l1 l2 :
  map c l1 ≡ₚ map c l2 -> (forall x y, x ∈ l1 -> y ∈ l2 -> c x = c y -> h x = h y) ->
  fold_left (fun acc x => hash_combine_unordered acc (h x)) l1 0 = fold_left (fun acc x => hash_combine_unordered acc (h x)) l2 0.
Proof.
  intros Hp Hh. assert (Hmap : forall (l : list A) acc, fold_left (fun acc x => hash_combine_unordered acc (h x)) l acc = fold_left hash_combine_unordered (map h l) acc).
  { induction l as [|x l IH]; intros acc; [done|]. simpl. apply IH. }
  rewrite !Hmap. apply xor_perm. symmetry in Hp. apply Permutation_map_inv in Hp as (l3 & E & Hp).
  assert (Heq : map h l2 = map h l3); [|rewrite Heq; by apply Permutation_map].
  assert (Hh' : forall x y, x ∈ l3 -> y ∈ l2 -> c x = c y -> h x = h y) by (intros x y Hx; apply Hh; by rewrite Hp).
  clear Hp Hh Hmap l1. revert l3 E Hh'. induction l2 as [|y l2 IH]; intros [|x l3] E Hh; try done. simpl in *. injection E as E1 E2.
  rewrite (Hh x y) by (done || set_solver). f_equal. apply IH; [done|]. intros; apply Hh; set_solver.
Qed.

(** The codes of a set or map as a permutation. *)
Lemma set_codes_perm {C : Type} `{Countable C} (l1 l2 : list C) :
  NoDup l1 -> NoDup l2 -> (list_to_set l1 : gset C) = list_to_set l2 -> l1 ≡ₚ l2.
Proof. intros H1 H2 E. apply NoDup_Permutation; [done | done|]. intros x. rewrite <- !(elem_of_list_to_set (C := gset C)). by rewrite E. Qed.

Definition hash_entry (e : Value * Value) : Z := hash_combine_ordered (clojure_hash e.1) (clojure_hash e.2).

Lemma map_hash m : clojure_hash (Map m) = fold_left (fun h e => hash_combine_unordered h (hash_entry e)) m 0.
Proof. reflexivity. Qed.

Lemma record_hash tag m :
  clojure_hash (TypeInstance tag m) =
  hash_combine_ordered (hash_string tag) (fold_left (fun h e => hash_combine_unordered h (hash_entry e)) m 0).
Proof. reflexivity. Qed.

Section HashStep.
Context (n : nat).
Context (IH : forall x y, (vsize x + vsize y <= n)%nat -> regular x -> regular y -> code x = code y -> clojure_hash x = clojure_hash y).

Lemma entries_hash (m1 m2 : list (Value * Value)) :
  (foldr (fun e n => vsize e.1 + vsize e.2 + n) 0 m1 + foldr (fun e n => vsize e.1 + vsize e.2 + n) 0 m2 <= n)%nat ->
  foldr (fun e P => reg false e.1 /\ reg false e.2 /\ P) True m1 /\ NoDup (map (fun e => code e.1) m1) ->
  foldr (fun e P => reg false e.1 /\ reg false e.2 /\ P) True m2 /\ NoDup (map (fun e => code e.1) m2) ->
  (list_to_set (map (fun e => (code e.1, code e.2)) m1) : gset (positive * positive)) = list_to_set (map (fun e => (code e.1, code e.2)) m2) ->
  fold_left (fun h e => hash_combine_unordered h (hash_entry e)) m1 0 = fold_left (fun h e => hash_combine_unordered h (hash_entry e)) m2 0.
Proof.
  intros Hn [R1 N1] [R2 N2] E. apply set_codes_perm in E; [|by apply nodup_pairs..]. eapply unordered_hash; [exact E|].
  intros e1 e2 H1 H2 [= E1 E2]. unfold hash_entry. destruct (reg_entries _ R1 e1 H1), (reg_entries _ R2 e2 H2).
  apply vsize_entries in H1, H2. f_equal; apply IH; done || lia.
Qed.

Lemma seqs_hash a b :
  is_seq a = true -> is_seq b = true -> (vsize a + vsize b <= S n)%nat -> regular a -> regular b -> code a = code b ->
  clojure_hash a = clojure_hash b.
Proof.
  assert (Hseq : forall v, is_seq v = true ->
    clojure_hash v = fold_left (fun acc x => hash_combine_ordered acc (clojure_hash x)) (value_to_seq_vec v) 1).
  { intros v Hv. destruct v; try done. apply cons_hash. }
  intros Sa Sb Hn Ra Rb E. rewrite (code_seq a Sa), (code_seq b Sb) in E. apply enc_inj in E as [_ E]. rewrite (Hseq a Sa), (Hseq b Sb).
  eapply ordered_hash; [exact E|]. intros x y Hx Hy. apply IH; [|by apply (reg_items a) | by apply (reg_items b)].
  apply vsize_items in Hx, Hy. lia.
Qed.

Lemma heads_hash a b :
  is_head a = true -> is_head b = true -> (vsize a + vsize b <= S n)%nat -> regular a -> regular b -> code a = code b ->
  clojure_hash a = clojure_hash b.
Proof.
  intros Ha Hb Hn Ra Rb E. destruct (is_seq a) eqn:Sa, (is_seq b) eqn:Sb; [by apply seqs_hash|..].
  - exfalso. rewrite (code_seq a Sa) in E. destruct b; try done; cbn [code] in E; apply enc_inj in E as [E _]; discriminate E.
  - exfalso. rewrite (code_seq b Sb) in E. destruct a; try done; cbn [code] in E; apply enc_inj in E as [E _]; discriminate E.
  - destruct a; try discriminate Ha; try discriminate Sa; destruct b; try discriminate Hb; try discriminate Sb; cbn [code] in E; apply enc_inj in E as [E1 E2]; try discriminate E1; clear E1;
      try (injection E2 as E2; apply (inj encode) in E2; subst; done).
    + reflexivity.
    + injection E2 as E2. apply (inj encode) in E2 as ->. simpl. by rewrite (proj2 (in_range_true _ _ _) Ra).
    + injection E2 as E2. apply (inj encode) in E2 as ->. simpl. by rewrite (proj2 (in_range_true _ _ _) Rb).
    + injection E2 as E2. apply (inj encode) in E2. injection E2 as E2 E3 E4. destruct s, s0. simpl in *. by subst.
    + injection E2 as E2. apply (inj encode) in E2. injection E2 as E2 E3. destruct k, k0. simpl in *. by subst.
    + injection E2 as E2. apply (inj encode) in E2. rewrite !map_hash. apply entries_hash; [simpl in Hn; lia | exact Ra | exact Rb | exact E2].
    + injection E2 as E2. apply (inj encode) in E2. destruct Ra as [Ra Na], Rb as [Rb Nb].
      apply set_codes_perm in E2; [|done..]. eapply unordered_hash; [exact E2|]. intros x y Hx Hy.
      apply IH; [|exact (reg_list _ Ra x Hx) | exact (reg_list _ Rb y Hy)]. apply vsize_list in Hx, Hy. simpl in Hn. lia.
    + eapply ordered_hash; [exact E2|]. intros x y Hx Hy.
      apply IH; [|exact (reg_list _ Ra x Hx) | exact (reg_list _ Rb y Hy)]. apply vsize_list in Hx, Hy. simpl in Hn. lia.
    + injection E2 as E2 E3. apply (inj encode) in E2, E3. apply ref_index_inj in E2. by subst.
    + injection E2 as E2 E3. apply (inj encode) in E2, E3. subst. rewrite !record_hash. f_equal. apply entries_hash; [simpl in Hn; lia | exact Ra | exact Rb | exact E3].
Qed.

End HashStep.

Lemma code_hash n a b : (vsize a + vsize b <= n)%nat -> regular a -> regular b -> code a = code b -> clojure_hash a = clojure_hash b.
Proof.
  revert a b. induction n as [|n IH]; intros a b Hn Ra Rb E; [pose proof (vsize_pos a); lia|].
  destruct (is_head a) eqn:Ha; [destruct (is_head b) eqn:Hb; [by eapply (heads_hash n)|]|].
  - destruct b as [| | | | | | | | | | | | | | | | |q r| | |b1 b2|b1]; try done; simpl in Hn.
    + refine (IH a r _ _ _ _); [lia | done | apply Rb | done].
    + refine (IH a b1 _ _ _ _); [lia | done | apply Rb | done].
    + refine (IH a b1 _ _ _ _); [lia | done | apply Rb | done].
  - destruct a as [| | | | | | | | | | | | | | | | |p r| | |a1 a2|a1]; try done; simpl in Hn.
    + refine (IH r b _ _ _ _); [lia | apply Ra | done | done].
    + refine (IH a1 b _ _ _ _); [lia | apply Ra | done | done].
    + refine (IH a1 b _ _ _ _); [lia | apply Ra | done | done].
Qed.

End Regular.

(** * Fuel *)

Section Extensionality.
Context (F G : Value -> Value -> bool).

Lemma items_equal_ext l1 l2 : (forall x y, x ∈ l1 -> y ∈ l2 -> F x y = G x y) -> items_equal F l1 l2 = items_equal G l1 l2.
Proof.
  unfold items_equal. intros HF. f_equal. revert l2 HF. induction l1 as [|x l1 IH]; intros [|y l2] HF; try done. simpl.
  rewrite HF by set_solver. f_equal. apply IH. intros; apply HF; set_solver.
Qed.

Lemma entry_get_ext m k : (forall e, e ∈ m -> F e.1 k = G e.1 k) -> entry_get F m k = entry_get G m k.
Proof.
  unfold entry_get. intros HF. f_equal. induction m as [|e m IH]; [done|]. simpl. rewrite HF by set_solver. destruct (G e.1 k); [done|].
  apply IH. intros; apply HF; set_solver.
Qed.

Lemma entry_get_elem m k v : entry_get G m k = Some v -> exists e, e ∈ m /\ e.2 = v.
Proof.
  unfold entry_get. destruct (find _ m) as [e|] eqn:E; [|done]. simpl. intros [= <-]. apply find_some in E as [Hin _].
  exists e. split; [by apply list_elem_of_In | done].
Qed.

Lemma maps_equal_ext a b :
  (forall e e', e ∈ b -> e' ∈ a -> F e.1 e'.1 = G e.1 e'.1 /\ F e.2 e'.2 = G e.2 e'.2) -> maps_equal F a b = maps_equal G a b.
Proof.
  unfold maps_equal. intros HF. f_equal. induction a as [|e' a IH]; [done|]. simpl.
  rewrite IH by (intros; apply HF; set_solver). f_equal. rewrite entry_get_ext by (intros; apply HF; set_solver).
  destruct (entry_get G b e'.1) as [w|] eqn:E; [|done]. apply entry_get_elem in E as (e & He & <-). apply HF; set_solver.
Qed.

Lemma sets_equal_ext a b : (forall x y, x ∈ b -> y ∈ a -> F x y = G x y) -> sets_equal F a b = sets_equal G a b.
Proof.
  unfold sets_equal. intros HF. f_equal. induction a as [|k a IH]; [done|]. simpl. rewrite IH by (intros; apply HF; set_solver). f_equal.
  assert (Hb : forall e, e ∈ b -> F e k = G e k) by (intros; apply HF; set_solver). clear IH HF.
  induction b as [|e b IH]; [done|]. simpl. rewrite Hb by set_solver. f_equal. apply IH. set_solver.
Qed.

(** A comparison asks only about smaller values. *)
Lemma eq_step_ext a b :
  (forall x y, (vsize x + vsize y < vsize a + vsize b)%nat -> F x y = G x y) -> eq_step F a b = eq_step G a b.
Proof.
  intros HF. pose proof (vsize_pos a) as Pa. pose proof (vsize_pos b) as Pb.
  assert (Hseq : items_equal F (value_to_seq_vec a) (value_to_seq_vec b) = items_equal G (value_to_seq_vec a) (value_to_seq_vec b)).
  { apply items_equal_ext. intros x y Hx Hy. apply HF. apply vsize_items in Hx, Hy. lia. }
  assert (Hmap : forall m1 m2, vsize a = S (foldr (fun e n => vsize e.1 + vsize e.2 + n) 0 m1)%nat ->
    vsize b = S (foldr (fun e n => vsize e.1 + vsize e.2 + n) 0 m2)%nat -> maps_equal F m1 m2 = maps_equal G m1 m2).
  { intros m1 m2 E1 E2. apply maps_equal_ext. intros e e' He He'. apply vsize_entries in He, He'. split; apply HF; lia. }
  assert (Hset : forall l1 l2, vsize a = S (foldr (fun x n => vsize x + n) 0 l1)%nat ->
    vsize b = S (foldr (fun x n => vsize x + n) 0 l2)%nat -> sets_equal F l1 l2 = sets_equal G l1 l2).
  { intros l1 l2 E1 E2. apply sets_equal_ext. intros x y Hx Hy. apply vsize_list in Hx, Hy. apply HF; lia. }
  assert (Hitems : forall l1 l2, vsize a = S (foldr (fun x n => vsize x + n) 0 l1)%nat ->
    vsize b = S (foldr (fun x n => vsize x + n) 0 l2)%nat -> items_equal F l1 l2 = items_equal G l1 l2).
  { intros l1 l2 E1 E2. apply items_equal_ext. intros x y Hx Hy. apply vsize_list in Hx, Hy. apply HF; lia. }
  destruct a; destruct b; cbn [eq_step];
    first [ reflexivity | exact Hseq | by apply Hitems | by apply Hset | by apply Hmap | (f_equal; by apply Hmap)
          | (apply HF; simpl in *; lia) | (rewrite !HF by (simpl in *; lia); reflexivity) | idtac ].
Qed.

End Extensionality.

Lemma eq_fuel_enough n a b : (vsize a + vsize b <= n)%nat -> eq_fuel n a b = value_eq a b.
Proof.
  unfold value_eq. remember (vsize a + vsize b)%nat as m eqn:Em. assert (Hm : (vsize a + vsize b <= m)%nat) by lia. clear Em. revert n a b Hm.
  induction m as [|m IH]; intros n a b Hm Hn; [pose proof (vsize_pos a); lia|]. destruct n as [|n]; [lia|]. cbn [eq_fuel].
  apply eq_step_ext. intros x y Hxy. apply IH; lia.
Qed.

(** C25: On values without empty lazy sequences and bound functions, equality is
    reflexive, symmetric and transitive, through lists, vectors, cons cells and
    lazy sequences with the same elements, maps and sets in any order, integers
    of both representations and metadata. *)
Theorem value_equality_equivalence (forced : Z -> Value) a b c :
  regular forced a -> regular forced b -> regular forced c ->
  value_eq a a = true /\ value_eq a b = value_eq b a /\
  (value_eq a b = true -> value_eq b c = true -> value_eq a c = true).
Proof.
  intros Ra Rb Rc. rewrite !(value_eq_code forced) by done. split_and!.
  - by apply bool_decide_eq_true.
  - by apply bool_decide_ext.
  - rewrite !bool_decide_eq_true. congruence.
Qed.

(** C24: Equal values have equal hashes, so that a hash lookup finds the entry of
    an equal key, whatever sequence type, numeric type, entry order or metadata
    either of them has.  The values are regular: no lazy sequence in them comes to
    nil but as the tail of a cons cell, they hold no bound functions, and the keys
    of their maps and the members of their sets are distinct.  A lazy sequence that
    comes to nil equals the empty vector and hashes otherwise
    ([empty_lazy_seq_breaks_equality]). *)
Theorem equal_values_hash_alike (forced : Z -> Value) a b :
  regular forced a -> regular forced b -> value_eq a b = true -> clojure_hash a = clojure_hash b.
Proof. intros Ra Rb. rewrite (value_eq_code forced) by done. intros E%bool_decide_eq_true. by eapply (code_hash forced). Qed.

(** Regular values are keys of the persistent maps of PersistentMap.v. *)
#[export, refine] Instance regular_value_eq (forced : Z -> Value) : ValueEq { v : Value | regular forced v } := {
  veq a b := value_eq (proj1_sig a) (proj1_sig b)
}.
Proof.
  split.
  - intros [a Ra]. simpl. rewrite (value_eq_code forced) by done. by apply bool_decide_eq_true.
  - intros [a Ra] [b Rb]. simpl. rewrite !(value_eq_code forced) by done. rewrite !bool_decide_eq_true. congruence.
  - intros [a Ra] [b Rb] [c Rc]. simpl. rewrite !(value_eq_code forced) by done. rewrite !bool_decide_eq_true. congruence.
Defined.

(** * Examples *)

Definition kw (s : string) : Value := Kw (mkKeyword None (lit s)).

(** [{:a (1 2)}] and [{:a [1N 2]}], the list behind a lazy sequence. *)
Definition lazy_at (p : Z) : Value := List [Long 1; Long 2].
Definition map_with_list : Value := Map [(kw "a", LazySeq 7 (lazy_at 7)); (kw "b", Set_ [Long 3; Nil])].
Definition map_with_vector : Value := WithMeta (Map [(kw "b", Set_ [Nil; BigInt 3]); (kw "a", Vector [BigInt 1; Long 2])]) Nil.

Lemma map_with_list_regular : regular lazy_at map_with_list.
Proof.
  unfold regular. cbn. split; [|apply (bool_decide_unpack _); vm_compute; exact I].
  repeat split; try (unfold is_i64, i64_min, i64_max; lia); try done; apply (bool_decide_unpack _); vm_compute; exact I.
Qed.

Lemma map_with_vector_regular : regular lazy_at map_with_vector.
Proof.
  unfold regular. cbn. split; [|apply (bool_decide_unpack _); vm_compute; exact I].
  repeat split; try (unfold is_i64, i64_min, i64_max; lia); apply (bool_decide_unpack _); vm_compute; exact I.
Qed.

Lemma value_equality_equivalence_witness :
  value_eq map_with_list map_with_list = true /\ value_eq map_with_list map_with_vector = value_eq map_with_vector map_with_list.
Proof.
  destruct (value_equality_equivalence lazy_at map_with_list map_with_vector map_with_list map_with_list_regular map_with_vector_regular map_with_list_regular)
    as (H1 & H2 & _).
  split; [exact H1 | exact H2].
Defined.

Lemma equal_values_hash_alike_witness :
  value_eq map_with_list map_with_vector = true /\ clojure_hash map_with_list = clojure_hash map_with_vector.
Proof.
  assert (He : value_eq map_with_list map_with_vector = true) by (vm_compute; reflexivity).
  split; [exact He|]. exact (equal_values_hash_alike lazy_at _ _ map_with_list_regular map_with_vector_regular He).
Defined.

(** A lazy sequence that realizes to nil is equal to nil and to an empty
    vector, which are not equal to each other, and its hash is not that of the
    empty vector it equals: equality is not transitive there, and a hash lookup
    with one of the two keys does not find the other. *)
Theorem empty_lazy_seq_breaks_equality p :
  value_eq Nil (LazySeq p Nil) = true /\ value_eq (LazySeq p Nil) (Vector []) = true /\ value_eq Nil (Vector []) = false /\
  clojure_hash (LazySeq p Nil) <> clojure_hash (Vector []).
Proof. split_and!; [reflexivity.. | discriminate]. Qed.

(** A bound function is not equal to itself. *)
Example bound_fn_differs_from_itself p : value_eq (BoundFn p) (BoundFn p) = false.
Proof. reflexivity. Qed.

(** [(cons 1 (lazy-seq [2 3]))] equals [(1)]: the elements of a tail that
    realizes to a vector are dropped. *)
Example vector_tail_dropped p :
  value_eq (Cons (Long 1) (LazySeq p (Vector [Long 2; Long 3]))) (List [Long 1]) = true /\
  value_eq (Cons (Long 1) (LazySeq p (Vector [Long 2; Long 3]))) (List [Long 1; Long 2; Long 3]) = false.
Proof. split; reflexivity. Qed.
