(* ===== verification/Transit.v ===== *)
(** The transit codec of pods (crates/cljrsh-pods/src/transit.rs): runtime values
    as JSON with string conventions, and a decoder with a read cache.

    Strings are their code points.  Maps and sets are the ordered entries and
    elements that [PersistentMapRefine] shows the runtime's collections to
    implement; equality of keys is a parameter, as are the texts of
    UUIDs (the uuid crate) and of doubles. *)
From Stdlib Require Import SpecFloat.
From stdpp Require Import base list strings.
From S2P Require Import Prelude RustStd Lexer Datum Instant PersistentMap PersistentMapSpec PersistentMapRefine NativeOps.
Local Open Scope Z_scope.

(** [serde_json::Value]: a number is an integer or a float; the entries of an
    object are in the order of its iteration. *)
Inductive Json : Type :=
| JNull
| JBool (b : bool)
| JInt (n : Z)
| JFloat (d : f64)
| JString (s : list Z)
| JArray (items : list Json)
| JObject (entries : list (list Z * Json)).

(** The values that are sent; any other is [TOther]. *)
Inductive TValue : Type :=
| TNil
| TBool (b : bool)
| TLong (n : Z)
| TDouble (d : f64)
| TStr (s : list Z)
| TChar (c : Z)
| TKeyword (k : Keyword)
| TSymbol (s : Symbol)
| TInstant (ms : Z)
| TUuid (u : Z)
| TVector (l : list TValue)
| TList (l : list TValue)
| TSet (l : list TValue)
| TMap (m : list (TValue * TValue))
| TOther.

Inductive TransitError : Type :=
| OddMap | SetBody | ListBody | CmapBody | OddCmap | UnsupportedTag (tag : list Z) | CacheMiss (s : list Z)
| BadInt | BadDouble | BadInstant | BadUuid | StrayTag | UnsupportedEncoding | NonFinite | CannotEncode.

Abbreviation result := (outcome TransitError).

(** * The read cache *)

Inductive CacheEntry : Type := CValue (v : TValue) | CRaw (raw : list Z).

Abbreviation ReadCache := (list CacheEntry).

Definition strip_prefix (p s : list Z) : option (list Z) :=
  if bool_decide (take (length p) s = p) then Some (drop (length p) s) else None.

Definition starts_with (p s : list Z) : bool := bool_decide (take (length p) s = p).

Definition checked_sub_48 (b : Z) : option Z := if b <? 48 then None else Some (b - 48).

Definition cache_code_index (s : list Z) : option Z :=
  rest ← strip_prefix (lit "^") s;
  if bool_decide (rest = lit " ") then None
  else
    match utf8_encode rest with
    | [a] => checked_sub_48 a
    | [a; b] => hi ← checked_sub_48 a; lo ← checked_sub_48 b; Some (hi * 44 + lo)
    | _ => None
    end.

Definition cacheable (s : list Z) : bool :=
  (3 <? str_len s)%nat && (starts_with (lit "~:") s || starts_with (lit "~$") s || starts_with (lit "~#") s).

Definition cache_get (c : ReadCache) (i : Z) : option CacheEntry := c !! Z.to_nat i.

Section Transit.
Context {B : BuildProfile} {VE : ValueEq TValue}.
Context (parse_f64 : list Z -> option f64) (parse_uuid : list Z -> option Z) (show_uuid : Z -> list Z).
Context (handler : list Z -> TValue -> option TValue).

(** * Decoding *)

Definition of_option {A : Type} (e : TransitError) (o : option A) : result A :=
  match o with Some a => Ok a | None => Err e end.

(** The value of a string that is not a cache code. *)
Definition string_value (s : list Z) : result TValue :=
  match strip_prefix (lit "~:") s with
  | Some kw => Ok (TKeyword (Keyword_parse kw))
  | None =>
  match strip_prefix (lit "~$") s with
  | Some sym => Ok (TSymbol (Symbol_parse sym))
  | None =>
  match strip_prefix (lit "~i") s with
  | Some i => n ← of_option BadInt (parse_i64 i); Ok (TLong n)
  | None =>
  match strip_prefix (lit "~d") s with
  | Some d => x ← of_option BadDouble (parse_f64 d); Ok (TDouble x)
  | None =>
  match strip_prefix (lit "~t") s with
  | Some t =>
      match parse_rfc3339_millis (utf8_encode t) with
      | Ok ms => Ok (TInstant ms)
      | Err _ => Err BadInstant
      | Panic => Panic
      | OutOfFuel => OutOfFuel
      end
  | None =>
  match strip_prefix (lit "~u") s with
  | Some u => x ← of_option BadUuid (parse_uuid u); Ok (TUuid x)
  | None =>
  match strip_prefix (lit "~~") s with
  | Some rest => Ok (TStr (lit "~" ++ rest))
  | None =>
  match strip_prefix (lit "~^") s with
  | Some rest => Ok (TStr (lit "^" ++ rest))
  | None =>
      if starts_with (lit "~#") s then Err StrayTag
      else if starts_with (lit "~") s then Err UnsupportedEncoding
      else Ok (TStr s)
  end end end end end end end end.

Definition decode_uncached (s : list Z) (c : ReadCache) (as_map_key may_cache : bool) : result (TValue * ReadCache) :=
  value ← string_value s;
  let is_kw_or_sym := starts_with (lit "~:") s || starts_with (lit "~$") s in
  let long := (3 <? str_len s)%nat in
  if may_cache && (is_kw_or_sym && long || as_map_key && negb (starts_with (lit "~") s) && long)
  then Ok (value, c ++ [CValue value]) else Ok (value, c).

Definition decode_string (s : list Z) (c : ReadCache) (as_map_key : bool) : result (TValue * ReadCache) :=
  match cache_code_index s with
  | Some idx =>
      match cache_get c idx with
      | Some (CValue v) => Ok (v, c)
      | Some (CRaw raw) => decode_uncached raw c as_map_key false
      | None => Err (CacheMiss s)
      end
  | None => decode_uncached s c as_map_key true
  end.

Definition resolve_tag (head : list Z) (c : ReadCache) : option (list Z) * ReadCache :=
  match strip_prefix (lit "~#") head with
  | Some tag => (Some tag, if cacheable head then c ++ [CRaw head] else c)
  | None =>
      match (i ← cache_code_index head; cache_get c i) with
      | Some (CRaw raw) => (strip_prefix (lit "~#") raw, c)
      | _ => (None, c)
      end
  end.

Definition set_conj (l : list TValue) (v : TValue) : list TValue := spec_conj l v.
Definition map_assoc (m : list (TValue * TValue)) (k v : TValue) : list (TValue * TValue) := spec_assoc m k v.

(** The loops over the elements of an array, with the decoder of an element. *)
Section Loops.
Context (rec : Json -> ReadCache -> bool -> result (TValue * ReadCache)).

Fixpoint decode_items (items : list Json) (c : ReadCache) : result (list TValue * ReadCache) :=
  match items with
  | [] => Ok ([], c)
  | i :: items' => '(v, c1) ← rec i c false; '(vs, c2) ← decode_items items' c1; Ok (v :: vs, c2)
  end.

Fixpoint decode_members (items : list Json) (s : list TValue) (c : ReadCache) : result (list TValue * ReadCache) :=
  match items with
  | [] => Ok (s, c)
  | i :: items' => '(v, c1) ← rec i c false; decode_members items' (set_conj s v) c1
  end.

Fixpoint decode_pairs (as_key : bool) (items : list Json) (m : list (TValue * TValue)) (c : ReadCache) : result (list (TValue * TValue) * ReadCache) :=
  match items with
  | k :: v :: items' =>
      '(k', c1) ← rec k c as_key; '(v', c2) ← rec v c1 false; decode_pairs as_key items' (map_assoc m k' v') c2
  | _ => Ok (m, c)
  end.

Fixpoint decode_entries (entries : list (list Z * Json)) (m : list (TValue * TValue)) (c : ReadCache) : result (list (TValue * TValue) * ReadCache) :=
  match entries with
  | [] => Ok (m, c)
  | (k, v) :: entries' =>
      '(k', c1) ← decode_string k c true; '(v', c2) ← rec v c1 false; decode_entries entries' (map_assoc m k' v') c2
  end.

Definition decode_tagged (tag : list Z) (value : Json) (c : ReadCache) : result (TValue * ReadCache) :=
  if bool_decide (tag = lit "set") then
    match value with
    | JArray items => '(s, c') ← decode_members items [] c; Ok (TSet s, c')
    | _ => Err SetBody
    end
  else if bool_decide (tag = lit "list") then
    match value with
    | JArray items => '(l, c') ← decode_items items c; Ok (TList l, c')
    | _ => Err ListBody
    end
  else if bool_decide (tag = lit "'") then rec value c false
  else if bool_decide (tag = lit "cmap") then
    match value with
    | JArray items =>
        if Nat.odd (length items) then Err OddCmap
        else '(m, c') ← decode_pairs false items [] c; Ok (TMap m, c')
    | _ => Err CmapBody
    end
  else
    '(rep, c') ← rec value c false;
    match handler tag rep with
    | Some v => Ok (v, c')
    | None => Err (UnsupportedTag tag)
    end.

End Loops.

(** [as_i64], or else [as_f64]. *)
Definition number_value (n : Z) : TValue := if in_range i64_min i64_max n then TLong n else TDouble (f64_of_i64 n).

Fixpoint decode_inner_h (json : Json) (c : ReadCache) (as_map_key : bool) : result (TValue * ReadCache) :=
  match json with
  | JNull => Ok (TNil, c)
  | JBool b => Ok (TBool b, c)
  | JInt n => Ok (number_value n, c)
  | JFloat d => Ok (TDouble d, c)
  | JString s => decode_string s c as_map_key
  | JArray items =>
      let vector c := '(vs, c') ← decode_items decode_inner_h items c; Ok (TVector vs, c') in
      match items with
      | JString head :: rest =>
          if bool_decide (head = lit "^ ") then
            if Nat.odd (length rest) then Err OddMap
            else '(m, c') ← decode_pairs decode_inner_h true rest [] c; Ok (TMap m, c')
          else
            let '(tag, c1) := resolve_tag head c in
            match tag, rest with
            | Some tag, [value] => decode_tagged decode_inner_h tag value c1
            | _, _ => vector c1
            end
      | _ => vector c
      end
  | JObject entries =>
      let map_value := '(m, c') ← decode_entries decode_inner_h entries [] c; Ok (TMap m, c') in
      match entries with
      | [(k, v)] =>
          match strip_prefix (lit "~#") k with
          | Some tag => decode_tagged decode_inner_h tag v c
          | None => map_value
          end
      | _ => map_value
      end
  end.

Definition decode_with (json : Json) : result TValue := '(v, _) ← decode_inner_h json [] false; Ok v.

(** * Encoding *)

(** [n.abs()] overflows for the smallest long. *)
Definition abs_i64 (n : Z) : result Z :=
  if n =? i64_min then if overflow_checks then Panic else Ok i64_min else Ok (Z.abs n).

Definition is_finite (d : f64) : bool := match d with S754_infinity _ | S754_nan => false | _ => true end.

Definition encode_string (s : list Z) : Json :=
  if starts_with (lit "~") s || starts_with (lit "^") s then JString (lit "~" ++ s) else JString s.

Definition qualified (ns : option (list Z)) (name : list Z) : list Z :=
  match ns with
  | Some ns => ns ++ lit "/" ++ name
  | None => name
  end.

Section EncodeLoops.
Context (rec : TValue -> result Json).

Fixpoint encode_all (l : list TValue) : result (list Json) :=
  match l with
  | [] => Ok []
  | v :: l' => j ← rec v; js ← encode_all l'; Ok (j :: js)
  end.

Fixpoint encode_entries (m : list (TValue * TValue)) : result (list Json) :=
  match m with
  | [] => Ok []
  | (k, v) :: m' => j ← rec k; j' ← rec v; js ← encode_entries m'; Ok (j :: j' :: js)
  end.
End EncodeLoops.

Fixpoint encode (v : TValue) : result Json :=
  match v with
  | TNil => Ok JNull
  | TBool b => Ok (JBool b)
  | TLong n =>
      a ← abs_i64 n;
      if a <=? Z.shiftl 1 53 then Ok (JInt n) else Ok (JString (lit "~i" ++ to_string n))
  | TDouble d => if is_finite d then Ok (JFloat d) else Err NonFinite
  | TStr s => Ok (encode_string s)
  | TChar c => Ok (encode_string [c])
  | TKeyword k => Ok (JString (lit "~:" ++ qualified (kw_namespace k) (kw_name k)))
  | TSymbol s => Ok (JString (lit "~$" ++ qualified (sym_namespace s) (sym_name s)))
  | TInstant ms =>
      match format_rfc3339_millis ms with
      | Ok t => Ok (JString (lit "~t" ++ t))
      | Err _ => Err BadInstant
      | Panic => Panic
      | OutOfFuel => OutOfFuel
      end
  | TUuid u => Ok (JString (lit "~u" ++ show_uuid u))
  | TVector l => js ← encode_all encode l; Ok (JArray js)
  | TList l => js ← encode_all encode l; Ok (JArray [JString (lit "~#list"); JArray js])
  | TSet l => js ← encode_all encode l; Ok (JArray [JString (lit "~#set"); JArray js])
  | TMap m => js ← encode_entries encode m; Ok (JArray (JString (lit "^ ") :: js))
  | TOther => Err CannotEncode
  end.

End Transit.

(** Without handlers every unknown tag is an error. *)
Definition decode {VE : ValueEq TValue} (parse_f64 : list Z -> option f64) (parse_uuid : list Z -> option Z) (json : Json) : result TValue :=
  decode_with parse_f64 parse_uuid (fun _ _ => None) json.
