(* ===== verification/TransitSpec.v ===== *)
(** The transit codec: what is encoded decodes to itself.

    The transit codec at work: hexadecimal UUIDs, values compared by their
    fingerprints, the messages of a pod as they are sent, and the cases that
    do not come back. *)
From Stdlib Require Import SpecFloat.
From stdpp Require Import base list strings.
From S2P Require Import Prelude RustStd Lexer Datum Instant NativeOps PersistentMap PersistentMapSpec PersistentMapRefine Transit.
Local Open Scope Z_scope.

(** * Induction on values *)

Section ValueInd.
Context (P : TValue -> Prop).
Context (Hatom : forall v, match v with TVector _ | TList _ | TSet _ | TMap _ => False | _ => True end -> P v).
Context (Hvector : forall l, Forall P l -> P (TVector l)) (Hlist : forall l, Forall P l -> P (TList l)).
Context (Hset : forall l, Forall P l -> P (TSet l)) (Hmap : forall m, Forall (fun kv => P kv.1 /\ P kv.2) m -> P (TMap m)).

Fixpoint tvalue_ind' (v : TValue) : P v :=
  let fix go (l : list TValue) : Forall P l :=
    match l with
    | [] => Forall_nil_2 P
    | x :: l' => Forall_cons_2 P x l' (tvalue_ind' x) (go l')
    end in
  let fix go_pairs (m : list (TValue * TValue)) : Forall (fun kv => P kv.1 /\ P kv.2) m :=
    match m with
    | [] => Forall_nil_2 _
    | (k, x) :: m' => Forall_cons_2 (fun kv => P kv.1 /\ P kv.2) (k, x) m' (conj (tvalue_ind' k) (tvalue_ind' x)) (go_pairs m')
    end in
  match v with
  | TVector l => Hvector l (go l)
  | TList l => Hlist l (go l)
  | TSet l => Hset l (go l)
  | TMap m => Hmap m (go_pairs m)
  | v => Hatom v I
  end.
End ValueInd.

(** * Identifiers *)

(** The text of the identifier is split where it was joined. *)
Definition ident_ok (ns : option (list Z)) (name : list Z) : Prop :=
  match ns with
  | Some n => n <> [] /\ (47 ∉ n) /\ name <> []
  | None => (47 ∉ name)
  end.

Lemma split_first_none c s : (c ∉ s) -> split_first c s = None.
Proof.
  induction s as [|x s IH]; intros Hc; [done|]. apply not_elem_of_cons in Hc as [Hne Hc]. cbn.
  rewrite (proj2 (Z.eqb_neq x c)) by congruence. by rewrite IH.
Qed.

Lemma split_first_app c s t : (c ∉ s) -> split_first c (s ++ c :: t) = Some (s, t).
Proof.
  induction s as [|x s IH]; intros Hc; cbn; [by rewrite Z.eqb_refl|]. apply not_elem_of_cons in Hc as [Hne Hc].
  rewrite (proj2 (Z.eqb_neq x c)) by congruence. by rewrite IH.
Qed.

Lemma split_qualified ns name : ident_ok ns name -> split_namespace (qualified ns name) = (ns, name).
Proof.
  unfold split_namespace, qualified. destruct ns as [n|]; cbn [ident_ok].
  - intros (Hn & Hs & Hname). cbn. rewrite split_first_app by done. by rewrite !bool_decide_eq_false_2.
  - intros Hs. by rewrite split_first_none.
Qed.

Lemma split_last_none c s : (c ∉ s) -> split_last c s = None.
Proof.
  induction s as [|x s IH]; intros Hc; [done|]. apply not_elem_of_cons in Hc as [Hne Hc]. cbn. rewrite IH by done.
  by rewrite (proj2 (Z.eqb_neq x c)) by congruence.
Qed.

Lemma utf8_encode_ascii s : Forall (fun c => 0 <= c < 128) s -> utf8_encode s = s.
Proof.
  induction 1 as [|c s Hc _ IH]; [done|]. unfold utf8_encode in *. cbn. rewrite IH. unfold utf8_encode_char, len_utf8.
  rewrite (proj2 (Z.ltb_lt c 128)) by lia. done.
Qed.

Section RoundTrip.
Context {B : BuildProfile} {VE : ValueEq TValue}.
Context (parse_f64 : list Z -> option f64) (parse_uuid : list Z -> option Z) (show_uuid : Z -> list Z).
Context (handler : list Z -> TValue -> option TValue).

(** What the documentation of the uuid crate promises. *)
Context (uuid_text : forall u, 0 <= u < 2 ^ 128 -> parse_uuid (show_uuid u) = Some u).

Abbreviation decode_inner := (decode_inner_h parse_f64 parse_uuid handler).
Abbreviation decode_text := (decode_string parse_f64 parse_uuid).
Abbreviation text_value := (string_value parse_f64 parse_uuid).
Abbreviation encode := (encode show_uuid).

(** The values that are sent as themselves. *)
Fixpoint transit_ok (v : TValue) : Prop :=
  match v with
  | TNil | TBool _ | TStr _ => True
  | TLong n => i64_min < n <= i64_max
  | TDouble d => is_finite d = true
  | TChar _ | TOther => False
  | TKeyword k => ident_ok (kw_namespace k) (kw_name k)
  | TSymbol s => ident_ok (sym_namespace s) (sym_name s) /\ sym_version s = None /\ (64 ∉ sym_name s)
  | TInstant ms => -62167219200000 <= ms <= 253402300799999
  | TUuid u => 0 <= u < 2 ^ 128
  | TVector l | TList l => (fix all (l : list TValue) : Prop := match l with [] => True | x :: l' => transit_ok x /\ all l' end) l
  | TSet l =>
      (fix all (l : list TValue) : Prop := match l with [] => True | x :: l' => transit_ok x /\ all l' end) l /\
      distinct (map (fun x => (x, x)) l)
  | TMap m =>
      (fix all (m : list (TValue * TValue)) : Prop :=
         match m with [] => True | (k, x) :: m' => (transit_ok k /\ transit_ok x) /\ all m' end) m /\ distinct m
  end.

Lemma all_ok l : (fix all (l : list TValue) : Prop := match l with [] => True | x :: l' => transit_ok x /\ all l' end) l <-> Forall transit_ok l.
Proof. induction l as [|x l IH]; [done|]. by rewrite Forall_cons, <- IH. Qed.

Lemma all_pairs_ok m :
  (fix all (m : list (TValue * TValue)) : Prop :=
     match m with [] => True | (k, x) :: m' => (transit_ok k /\ transit_ok x) /\ all m' end) m <->
  Forall (fun kv => transit_ok kv.1 /\ transit_ok kv.2) m.
Proof. induction m as [|[k x] m IH]; [done|]. by rewrite Forall_cons, <- IH. Qed.

(** ** Strings *)

Lemma strip_prefix_other c p s : starts_with [c] s = false -> strip_prefix (c :: p) s = None.
Proof.
  unfold starts_with, strip_prefix. rewrite bool_decide_eq_false. intros Hs. rewrite bool_decide_eq_false_2; [done|].
  destruct s as [|x s]; [done|]. cbn in *. intros [= -> _]. by destruct s.
Qed.

(** A string is read as its value and may be remembered. *)
Lemma decode_text_ok s v c key :
  cache_code_index s = None -> text_value s = Ok v -> exists c', decode_text s c key = Ok (v, c').
Proof.
  intros Hc Hv. unfold decode_string. rewrite Hc. unfold decode_uncached. rewrite Hv. cbn [mbind outcome_bind].
  case_match; eauto.
Qed.

(** Strings that are neither a tag nor a cache code, nor the map marker. *)
Definition plain (s : list Z) : Prop :=
  strip_prefix (lit "~#") s = None /\ cache_code_index s = None /\ s <> lit "^ ".

Lemma plain_tilde x s : x <> 35 -> plain (126 :: x :: s).
Proof.
  intros Hx. split_and!; [|done|done]. unfold strip_prefix. rewrite bool_decide_eq_false_2; [done|].
  cbn. intros [= ?]. done.
Qed.

Lemma plain_string s : starts_with (lit "~") s = false -> starts_with (lit "^") s = false -> plain s.
Proof.
  intros H1 H2. split_and!; [by apply strip_prefix_other| |].
  - unfold cache_code_index. cbn [lit]. by rewrite (strip_prefix_other 94 []).
  - by intros ->.
Qed.

Lemma text_value_plain s : starts_with (lit "~") s = false -> text_value s = Ok (TStr s).
Proof.
  intros Hs. unfold string_value.
  repeat match goal with
  | |- context [strip_prefix (lit ?p) s] =>
      let q := eval vm_compute in (lit p) in change (lit p) with q; rewrite (strip_prefix_other 126 _ s Hs)
  end.
  assert (H35 : starts_with (lit "~#") s = false).
  { pose proof (strip_prefix_other 126 [35] s Hs) as Hp. unfold strip_prefix in Hp. unfold starts_with.
    destruct (bool_decide (take (length (lit "~#")) s = lit "~#")) eqn:Hb; [|done].
    change (lit "~#") with [126; 35] in Hb. by rewrite Hb in Hp. }
  by rewrite H35, Hs.
Qed.

Lemma starts_with_cons c s : starts_with [c] s = true -> exists s', s = c :: s'.
Proof. unfold starts_with. rewrite bool_decide_eq_true. destruct s as [|x s]; [done|]. cbn. intros [= ->]. eauto. Qed.

Lemma encode_string_spec s : exists t, encode_string s = JString t /\ plain t /\ text_value t = Ok (TStr s).
Proof.
  unfold encode_string. destruct (starts_with (lit "~") s) eqn:H1; [|destruct (starts_with (lit "^") s) eqn:H2]; cbn [orb].
  - apply starts_with_cons in H1 as [s' ->]. eexists. split; [reflexivity|]. split; [by apply plain_tilde|reflexivity].
  - apply starts_with_cons in H2 as [s' ->]. eexists. split; [reflexivity|]. split; [by apply plain_tilde|reflexivity].
  - exists s. split; [done|]. split; [by apply plain_string|by apply text_value_plain].
Qed.

(** ** Scalars *)

(** A scalar is sent as JSON that reads as it, and as a string only if plain. *)
Definition sent (v : TValue) (j : Json) : Prop :=
  encode v = Ok j /\ (forall s, j = JString s -> plain s) /\ forall c key, exists c', decode_inner j c key = Ok (v, c').

Lemma sent_string v t : encode v = Ok (JString t) -> plain t -> text_value t = Ok v -> sent v (JString t).
Proof.
  intros He Hp Hv. split_and!; [done|by intros s [= <-]|]. intros c key. apply decode_text_ok; [apply Hp|done].
Qed.

Lemma sent_keyword k : ident_ok (kw_namespace k) (kw_name k) -> exists j, sent (TKeyword k) j.
Proof.
  intros Hk. eexists. apply sent_string; [reflexivity|by apply plain_tilde|].
  transitivity (Ok (E := TransitError) (TKeyword (Keyword_parse (qualified (kw_namespace k) (kw_name k))))); [reflexivity|].
  unfold Keyword_parse. rewrite split_qualified by done. by destruct k.
Qed.

Lemma sent_symbol s : ident_ok (sym_namespace s) (sym_name s) -> sym_version s = None -> (64 ∉ sym_name s) -> exists j, sent (TSymbol s) j.
Proof.
  intros Hs Hv Hat. eexists. apply sent_string; [reflexivity|by apply plain_tilde|].
  transitivity (Ok (E := TransitError) (TSymbol (Symbol_parse (qualified (sym_namespace s) (sym_name s))))); [reflexivity|].
  unfold Symbol_parse. rewrite split_qualified by done. unfold split_version. rewrite split_last_none by done.
  destruct s. cbn in *. by subst.
Qed.

Lemma sent_long n : i64_min < n <= i64_max -> exists j, sent (TLong n) j.
Proof.
  intros Hn. unfold sent. cbn [Transit.encode]. unfold abs_i64. rewrite (proj2 (Z.eqb_neq n i64_min)) by lia. cbn [mbind outcome_bind].
  destruct (Z.abs n <=? Z.shiftl 1 53).
  - eexists. split_and!; [done|done|]. intros c key. exists c. cbn. unfold number_value. by rewrite (proj2 (in_range_true _ _ _)) by lia.
  - exists (JString (lit "~i" ++ to_string n)). split_and!; [done|intros s [= <-]; by apply plain_tilde|]. intros c key.
    apply decode_text_ok; [done|].
    transitivity (n ← of_option BadInt (parse_i64 (to_string n)); Ok (E := TransitError) (TLong n)); [reflexivity|].
    rewrite parse_i64_to_string; [done|]. unfold is_i64. lia.
Qed.

Lemma sent_instant ms : -62167219200000 <= ms <= 253402300799999 -> exists j, sent (TInstant ms) j.
Proof.
  intros Hms. destruct (format_parse_text ms Hms) as (t & Ht & Hp). exists (JString (lit "~t" ++ t)). apply sent_string.
  - cbn [Transit.encode]. by rewrite Ht.
  - by apply plain_tilde.
  - transitivity (match parse_rfc3339_millis (utf8_encode t) with
      | Ok ms => Ok (TInstant ms) | Err _ => Err BadInstant | Panic => Panic | OutOfFuel => OutOfFuel end); [reflexivity|].
    rewrite utf8_encode_ascii by by eapply format_ascii. by rewrite Hp.
Qed.

Lemma sent_uuid u : 0 <= u < 2 ^ 128 -> exists j, sent (TUuid u) j.
Proof.
  intros Hu. eexists. apply sent_string; [reflexivity|by apply plain_tilde|].
  transitivity (x ← of_option BadUuid (parse_uuid (show_uuid u)); Ok (E := TransitError) (TUuid x)); [reflexivity|].
  by rewrite uuid_text.
Qed.

(** ** Collections *)

Lemma encode_all_sent l : Forall (fun v => exists j, sent v j) l -> exists js, encode_all encode l = Ok js /\ Forall2 sent l js.
Proof.
  induction 1 as [|v l [j Hj] _ (js & Hjs & Hall)]; [by exists []|]. exists (j :: js). cbn. destruct Hj as (He & Hp & Hd).
  rewrite He. cbn. rewrite Hjs. split; [done|]. by constructor.
Qed.

Lemma decode_items_sent l js c : Forall2 sent l js -> exists c', decode_items decode_inner js c = Ok (l, c').
Proof.
  intros Hs. revert c. induction Hs as [|v j l js (_ & _ & Hd) _ IH]; intros c; cbn; [eauto|].
  destruct (Hd c false) as [c1 ->]. cbn. destruct (IH c1) as [c2 ->]. cbn. eauto.
Qed.

Lemma distinct_head (acc : list (TValue * TValue)) k v m : distinct (acc ++ (k, v) :: m) -> has_key acc k = false.
Proof.
  induction acc as [|p acc IH]; [done|]. intros [Hk Hd]. change (veq p.1 k || has_key acc k = false). rewrite (IH Hd), orb_false_r.
  rewrite has_key_app in Hk. apply orb_false_iff in Hk as [_ Hk].
  change (veq k p.1 || has_key m p.1 = false) in Hk. apply orb_false_iff in Hk as [Hk _]. by rewrite veq_sym.
Qed.

Lemma decode_members_sent l js acc c : Forall2 sent l js -> distinct (map (fun x => (x, x)) (acc ++ l)) ->
  exists c', decode_members decode_inner js acc c = Ok (acc ++ l, c').
Proof.
  intros Hs. revert acc c. induction Hs as [|v j l js (_ & _ & Hd) _ IH]; intros acc c Hdis; cbn.
  - rewrite app_nil_r. eauto.
  - destruct (Hd c false) as [c1 ->]. cbn. unfold set_conj, spec_conj.
    assert (Hm : member acc v = false).
    { rewrite map_app in Hdis. cbn in Hdis. apply distinct_head in Hdis. clear -Hdis. unfold has_key, member in *.
      induction acc as [|w acc IHa]; [done|]. cbn in *. apply orb_false_iff in Hdis as [-> Hd]. by apply IHa. }
    rewrite Hm. destruct (IH (acc ++ [v]) c1) as [c2 Hc2]; [by rewrite <- app_assoc|]. rewrite Hc2, <- app_assoc. eauto.
Qed.

(** Keys and values in turn. *)
Fixpoint interleave (ps : list (Json * Json)) : list Json :=
  match ps with
  | [] => []
  | (k, v) :: ps' => k :: v :: interleave ps'
  end.

Definition sent_pair (kv : TValue * TValue) (js : Json * Json) : Prop := sent kv.1 js.1 /\ sent kv.2 js.2.

Lemma encode_entries_sent m : Forall (fun kv => (exists j, sent kv.1 j) /\ exists j, sent kv.2 j) m ->
  exists ps, encode_entries encode m = Ok (interleave ps) /\ Forall2 sent_pair m ps.
Proof.
  induction 1 as [|[k v] m [[j Hj] [j' Hj']] _ (ps & Hps & Hall)]; [by exists []|]. exists ((j, j') :: ps). cbn.
  cbn in Hj, Hj'. pose proof Hj as (He & _). pose proof Hj' as (He' & _). rewrite He. cbn. rewrite He'. cbn. rewrite Hps.
  split; [done|]. by constructor.
Qed.

Lemma decode_pairs_sent key m ps acc c : Forall2 sent_pair m ps -> distinct (acc ++ m) ->
  exists c', decode_pairs decode_inner key (interleave ps) acc c = Ok (acc ++ m, c').
Proof.
  intros Hs. revert acc c. induction Hs as [|[k v] [j j'] m ps [(_ & _ & Hd) (_ & _ & Hd')] _ IH]; intros acc c Hdis; cbn.
  - rewrite app_nil_r. eauto.
  - cbn in Hd, Hd'. destruct (Hd c key) as [c1 ->]. cbn. destruct (Hd' c1 false) as [c2 ->]. cbn. unfold map_assoc, spec_assoc.
    rewrite (distinct_head _ _ _ _ Hdis). destruct (IH (acc ++ [(k, v)]) c2) as [c3 Hc3]; [by rewrite <- app_assoc|].
    rewrite Hc3, <- app_assoc. eauto.
Qed.

Lemma pairs_even (ps : list (Json * Json)) : Nat.odd (length (interleave ps)) = false.
Proof. induction ps as [|[k v] ps IH]; [done|exact IH]. Qed.

Lemma sent_vector l js : Forall2 sent l js -> encode_all encode l = Ok js -> sent (TVector l) (JArray js).
Proof.
  intros Hs He. split_and!; [cbn; by rewrite He|done|]. intros c key.
  assert (Hv : exists c', ('(vs, c') ← decode_items decode_inner js c; Ok (E := TransitError) (TVector vs, c')) = Ok (TVector l, c')).
  { destruct (decode_items_sent l js c Hs) as [c' ->]. cbn. eauto. }
  destruct js as [|[] rest]; try exact Hv. inversion Hs as [|v j l' js' (_ & Hp & _) _ Hl]; subst.
  destruct (Hp s eq_refl) as (H1 & H2 & H3). cbn [decode_inner_h]. rewrite bool_decide_eq_false_2 by done.
  unfold resolve_tag. rewrite H1, H2. exact Hv.
Qed.

Lemma sent_tagged_list l js : Forall2 sent l js -> encode_all encode l = Ok js ->
  sent (TList l) (JArray [JString (lit "~#list"); JArray js]).
Proof.
  intros Hs He. split_and!; [cbn; by rewrite He|done|]. intros c key.
  destruct (decode_items_sent l js (c ++ [CRaw (lit "~#list")]) Hs) as [c' Hc'].
  exists c'. transitivity ('(l, c') ← decode_items decode_inner js (c ++ [CRaw (lit "~#list")]); Ok (E := TransitError) (TList l, c')); [reflexivity|].
  by rewrite Hc'.
Qed.

Lemma sent_tagged_set l js : Forall2 sent l js -> distinct (map (fun x => (x, x)) l) -> encode_all encode l = Ok js ->
  sent (TSet l) (JArray [JString (lit "~#set"); JArray js]).
Proof.
  intros Hs Hd He. split_and!; [cbn; by rewrite He|done|]. intros c key.
  destruct (decode_members_sent l js [] (c ++ [CRaw (lit "~#set")]) Hs Hd) as [c' Hc'].
  exists c'. transitivity ('(l, c') ← decode_members decode_inner js [] (c ++ [CRaw (lit "~#set")]); Ok (E := TransitError) (TSet l, c')); [reflexivity|].
  by rewrite Hc'.
Qed.

Lemma sent_map m ps : Forall2 sent_pair m ps -> distinct m -> encode_entries encode m = Ok (interleave ps) ->
  sent (TMap m) (JArray (JString (lit "^ ") :: (interleave ps))).
Proof.
  intros Hs Hd He. split_and!; [cbn [Transit.encode]; by rewrite He|done|]. intros c key.
  destruct (decode_pairs_sent true m ps [] c Hs Hd) as [c' Hc'].
  exists c'. cbn [decode_inner_h]. rewrite bool_decide_eq_true_2 by done. rewrite pairs_even, Hc'. done.
Qed.

Lemma encode_sent v : transit_ok v -> exists j, sent v j.
Proof.
  induction v as [v Hv|l IH|l IH|l IH|m IH] using tvalue_ind'; cbn [transit_ok]; rewrite ?all_ok, ?all_pairs_ok.
  - destruct v; try done; intros Hok.
    + exists JNull. split_and!; [done|done|]. eauto.
    + exists (JBool b). split_and!; [done|done|]. eauto.
    + by apply sent_long.
    + exists (JFloat d). split_and!; [cbn; cbn in Hok; by rewrite Hok|done|]. eauto.
    + destruct (encode_string_spec s) as (t & He & Hp & Ht). exists (JString t). apply sent_string; [cbn; by rewrite He|done|done].
    + by apply sent_keyword.
    + destruct Hok as (? & ? & ?). by apply sent_symbol.
    + by apply sent_instant.
    + by apply sent_uuid.
  - intros Hok. destruct (encode_all_sent l) as (js & He & Hs); [|eauto using sent_vector].
    rewrite Forall_forall in IH, Hok |- *. auto.
  - intros Hok. destruct (encode_all_sent l) as (js & He & Hs); [|eauto using sent_tagged_list].
    rewrite Forall_forall in IH, Hok |- *. auto.
  - intros [Hok Hd]. destruct (encode_all_sent l) as (js & He & Hs); [|eauto using sent_tagged_set].
    rewrite Forall_forall in IH, Hok |- *. auto.
  - intros [Hok Hd]. destruct (encode_entries_sent m) as (ps & He & Hs); [|eauto using sent_map].
    rewrite Forall_forall in IH, Hok |- *. intros kv Hkv. destruct (IH kv Hkv), (Hok kv Hkv). auto.
Qed.

(** C31: What a pod is sent reads back: encoding a value made of nil, booleans,
    longs, finite doubles, strings of any content, keywords, symbols, instants of
    the years 0 to 9999, UUIDs, vectors, lists, sets and maps succeeds, and decoding
    the JSON gives the value, with the order of the entries; strings that look like
    tags, cache codes or the map marker, and vectors that start with one, included.
    Identifiers split where they join, symbols have no version and no [@] in their
    names, and keys and members are distinct.  Left out are the smallest long, whose
    encoding panics where overflow is checked, doubles that are not finite, and
    characters, which come back as strings. *)
Theorem transit_round_trip (v : TValue) : transit_ok v ->
  exists j, encode v = Ok j /\ decode_with parse_f64 parse_uuid handler j = Ok v.
Proof.
  intros (j & He & _ & Hd)%encode_sent. exists j. split; [done|]. unfold decode_with.
  destruct (Hd [] false) as [c' ->]. done.
Qed.

End RoundTrip.

(** * UUIDs as hexadecimal digits, the last one first *)

Definition hex_digit (d : Z) : Z := if d <? 10 then 48 + d else 87 + d.
Definition hex_value (c : Z) : option Z :=
  if (48 <=? c) && (c <=? 57) then Some (c - 48) else if (97 <=? c) && (c <=? 102) then Some (c - 87) else None.

Fixpoint show_hex (n : nat) (u : Z) : list Z :=
  match n with
  | O => []
  | S n' => hex_digit (u mod 16) :: show_hex n' (u / 16)
  end.

Fixpoint parse_hex (s : list Z) : option Z :=
  match s with
  | [] => Some 0
  | c :: s' => d ← hex_value c; u ← parse_hex s'; Some (16 * u + d)
  end.

Lemma hex_value_digit d : 0 <= d < 16 -> hex_value (hex_digit d) = Some d.
Proof.
  intros Hd. unfold hex_digit, hex_value. destruct (d <? 10) eqn:H10.
  - apply Z.ltb_lt in H10. rewrite (proj2 (Z.leb_le 48 _)), (proj2 (Z.leb_le _ 57)) by lia. cbn. f_equal. lia.
  - apply Z.ltb_ge in H10. rewrite (proj2 (Z.leb_gt _ 57)), andb_false_r by lia.
    rewrite (proj2 (Z.leb_le 97 _)), (proj2 (Z.leb_le _ 102)) by lia. cbn. f_equal. lia.
Qed.

Lemma parse_show_hex n u : 0 <= u < 16 ^ Z.of_nat n -> parse_hex (show_hex n u) = Some u.
Proof.
  revert u. induction n as [|n IH]; intros u Hu; [cbn in *; f_equal; lia|].
  rewrite Nat2Z.inj_succ, Z.pow_succ_r in Hu by lia. cbn [show_hex parse_hex].
  rewrite hex_value_digit by (apply Z.mod_pos_bound; lia). cbn [mbind option_bind].
  rewrite IH; [|split; [apply Z.div_pos; lia|apply Z.div_lt_upper_bound; lia]]. cbn. f_equal.
  symmetry. apply Z.div_mod. lia.
Qed.

Definition show_uuid (u : Z) : list Z := show_hex 32 u.
Definition parse_uuid (s : list Z) : option Z := if bool_decide (length s = 32%nat) then parse_hex s else None.

Lemma show_hex_length n u : length (show_hex n u) = n.
Proof. revert u. induction n as [|n IH]; intros u; cbn; [done|]. by rewrite IH. Qed.

Lemma parse_show_uuid u : 0 <= u < 2 ^ 128 -> parse_uuid (show_uuid u) = Some u.
Proof.
  intros Hu. unfold parse_uuid, show_uuid. rewrite bool_decide_eq_true_2 by apply show_hex_length.
  apply parse_show_hex. exact Hu.
Qed.

(** * Values compared by their fingerprints *)

Definition f64_print (d : f64) : list Z :=
  match d with
  | S754_zero s => [0; if s then 1 else 0]
  | S754_infinity s => [1; if s then 1 else 0]
  | S754_nan => [2; 0]
  | S754_finite s m e => [3; if s then 1 else 0; Zpos m; e]
  end.

Definition counted (s : list Z) : list Z := Z.of_nat (length s) :: s.
Definition option_print (s : option (list Z)) : list Z := match s with Some s => 1 :: counted s | None => [0] end.

Fixpoint fingerprint (v : TValue) : list Z :=
  match v with
  | TNil => [0]
  | TBool b => [1; if b then 1 else 0]
  | TLong n => [2; n]
  | TDouble d => 3 :: f64_print d
  | TStr s => 4 :: counted s
  | TChar c => [5; c]
  | TKeyword k => 6 :: option_print (kw_namespace k) ++ counted (kw_name k)
  | TSymbol s => 7 :: option_print (sym_namespace s) ++ counted (sym_name s) ++ option_print (sym_version s)
  | TInstant ms => [8; ms]
  | TUuid u => [9; u]
  | TVector l | TList l => 10 :: Z.of_nat (length l) :: concat (map fingerprint l)
  | TSet l => 11 :: Z.of_nat (length l) :: concat (map fingerprint l)
  | TMap m => 12 :: Z.of_nat (length m) :: concat (map (fun kv => fingerprint kv.1 ++ fingerprint kv.2) m)
  | TOther => [13]
  end.

#[export, refine] Instance print_eq : ValueEq TValue := {
  veq a b := bool_decide (fingerprint a = fingerprint b)
}.
Proof.
  split; intros a; [by apply bool_decide_eq_true|intros b Hab; apply bool_decide_eq_true in Hab; by apply bool_decide_eq_true|].
  intros b c Hab Hbc. apply bool_decide_eq_true in Hab, Hbc. apply bool_decide_eq_true. congruence.
Defined.

Definition no_f64 (s : list Z) : option f64 := None.
Definition no_handler (tag : list Z) (rep : TValue) : option TValue := None.

Definition read := decode no_f64 parse_uuid.
Definition kw (name : string) : TValue := TKeyword {| kw_namespace := None; kw_name := lit name |}.

(** * A message of a pod *)

(** Entries whose keys repeat, a string that is a tag, one that is a cache code
    and a vector that starts with the map marker. *)
Definition message : TValue :=
  TMap
    [(kw "status", TVector [TStr (lit "^ "); TStr (lit "~#set"); TStr (lit "^0")]);
     (kw "args", TList [TLong 42; TLong (2 ^ 60); TDouble (S754_finite false 3 (-1)); TBool true; TNil]);
     (TSymbol {| sym_namespace := Some (lit "pod.db"); sym_name := lit "query"; sym_version := None |},
      TSet [TInstant 86400123; TUuid (2 ^ 100 + 7); TVector []])].

Example message_sent :
  encode (B := dev_profile) show_uuid (TVector [TStr (lit "^ "); TStr (lit "~#set"); TStr (lit "^0"); kw "status"]) =
  Ok (JArray [JString (lit "~^ "); JString (lit "~~#set"); JString (lit "~^0"); JString (lit "~:status")]).
Proof. vm_compute. reflexivity. Qed.

Lemma transit_round_trip_witness :
  exists j, encode (B := dev_profile) show_uuid message = Ok j /\ decode_with no_f64 parse_uuid no_handler j = Ok message.
Proof.
  apply (transit_round_trip no_f64 parse_uuid show_uuid no_handler parse_show_uuid message).
  vm_compute. repeat split; try done; intros H; repeat (apply elem_of_cons in H as [H|H]; [done|]); by apply elem_of_nil in H.
Defined.

(** * The cases that do not come back *)

(** A character is read back as a string, a symbol without its version. *)
Example char_read_as_string :
  encode (B := dev_profile) show_uuid (TChar 97) = Ok (JString [97]) /\ read (JString [97]) = Ok (TStr [97]).
Proof. by vm_compute. Qed.

Example version_lost :
  encode (B := dev_profile) show_uuid (TSymbol {| sym_namespace := None; sym_name := lit "f"; sym_version := Some (lit "1a2b") |}) =
  Ok (JString (lit "~$f")).
Proof. by vm_compute. Qed.

(** The absolute value of the smallest long overflows: a panic with overflow
    checks; without them the number is sent as it is. *)
Example smallest_long :
  encode (B := dev_profile) show_uuid (TLong i64_min) = Panic /\
  encode (B := release_profile) show_uuid (TLong i64_min) = Ok (JInt i64_min).
Proof. by vm_compute. Qed.

(** A repeated key is a cache code, and the code of an unknown entry an error. *)
Example cache_codes :
  read (JArray [JString (lit "~:name"); JString (lit "^0")]) = Ok (TVector [kw "name"; kw "name"]) /\
  read (JArray [JString (lit "~:name"); JString (lit "^1")]) = Err (CacheMiss (lit "^1")).
Proof. by vm_compute. Qed.

(** A writer starts over at code 0 after 44 * 44 entries; this reader's code 0
    is the first entry for ever. *)
Definition keywords (n : nat) : list Json := map (fun i => JString (lit "~:k" ++ to_string (Z.of_nat i + 1000))) (seq 0 n).

Example cache_never_restarts :
  (v ← read (JArray (keywords 1937 ++ [JString (lit "^0")]));
   match v with TVector l => Ok (last l) | _ => Ok None end) = Ok (Some (kw "k1000")).
Proof. by vm_compute. Qed.
