(* ===== verification/Gc.v ===== *)
(** The garbage collector (crates/cljrs-gc/src/lib.rs and stack_scan.rs): the
    heap of one thread, marking with a grey stack, the sweep with its grace
    period, and the suppression of collections that free nothing.

    A box is its size, its remaining lives and the pointers its [trace]
    function visits.  Following a pointer to a box that is not on the heap is
    undefined behaviour, [Panic].  The address of a new box comes from the
    allocator; byte counts are unbounded ([usize] in the code).  Statistics and
    logging are left out. *)
From stdpp Require Import gmap.
From S2P Require Import Prelude RustStd.
Local Open Scope Z_scope.

Abbreviation Addr := Z.

(** * Pointers *)

(** Pointers into regions carry a tag in their lowest bit. *)
Definition REGION_PTR_TAG : Z := 1.

Definition raw (p : Z) : Addr := Z.land p (Z.lnot REGION_PTR_TAG).
Definition is_region_alloc (p : Z) : bool := negb (Z.land p REGION_PTR_TAG =? 0).
Definition from_region_raw (a : Addr) : Z := Z.lor a REGION_PTR_TAG.

(** * Boxes *)

Definition GC_INITIAL_LIVES : Z := 2.

Record GcBox : Type := mkBox {
  box_size : Z;
  lives : Z;
  box_children : list Z
}.

Definition set_lives (n : Z) (b : GcBox) : GcBox := mkBox (box_size b) n (box_children b).

Definition GcBoxHeader_new (size : Z) (cs : list Z) : GcBox := mkBox size (GC_INITIAL_LIVES - 1) cs.

Abbreviation Boxes := (gmap Addr GcBox).

(** The list of the heap, the newest box first, and its counters. *)
Record GcHeap : Type := mkHeap {
  boxes : Boxes;
  order : list Addr;
  count : Z;
  total_allocated : Z;
  total_freed : Z;
  soft_limit : option Z;
  memory_in_use : Z;
  total_allocated_bytes : Z;
  gc_suppressed : bool;
  suppressed_threshold : Z;
  zero_yield_headroom : Z;
  gc_requested : bool;
  alloc_roots : list Addr
}.

Definition GcHeap_new (limit : option Z) : GcHeap := mkHeap ∅ [] 0 0 0 limit 0 0 false 0 0 false [].

Definition soft_limit_exceeded (limit used : Z) : bool := limit <? used.

(** * Allocation *)

(** Whether suppression stays on and a collection is requested. *)
Definition pressure (h : GcHeap) (usage : Z) : bool * bool :=
  match soft_limit h with
  | Some limit =>
      if soft_limit_exceeded limit usage then
        if gc_suppressed h then
          if suppressed_threshold h <? usage then (false, true) else (true, gc_requested h)
        else (false, true)
      else (gc_suppressed h, gc_requested h)
  | None => (gc_suppressed h, gc_requested h)
  end.

Definition alloc (a : Addr) (size : Z) (cs : list Z) (h : GcHeap) : GcHeap :=
  let usage := memory_in_use h + size in
  let '(suppressed, requested) := pressure h usage in
  mkHeap (<[a := GcBoxHeader_new size cs]> (boxes h)) (a :: order h) (count h + 1) (total_allocated h + 1) (total_freed h)
    (soft_limit h) usage (total_allocated_bytes h + size) suppressed (suppressed_threshold h) (zero_yield_headroom h) requested
    (alloc_roots h ++ [a]).

(** ** Roots of the allocations in flight *)

Definition with_alloc_roots (rs : list Addr) (h : GcHeap) : GcHeap :=
  mkHeap (boxes h) (order h) (count h) (total_allocated h) (total_freed h) (soft_limit h) (memory_in_use h) (total_allocated_bytes h)
    (gc_suppressed h) (suppressed_threshold h) (zero_yield_headroom h) (gc_requested h) rs.

Definition push_alloc_frame (h : GcHeap) : nat := length (alloc_roots h).
Definition drop_alloc_frame (saved_len : nat) (h : GcHeap) : GcHeap := with_alloc_roots (take saved_len (alloc_roots h)) h.
Definition thread_alloc_roots_len (h : GcHeap) : nat := length (alloc_roots h).
Definition truncate_thread_alloc_roots (len : nat) (h : GcHeap) : GcHeap :=
  if (len <? length (alloc_roots h))%nat then with_alloc_roots (take len (alloc_roots h)) h else h.

(** * Marking *)

Section Mark.
Context {E : Type}.

(** The boxes with their lives, and the grey stack with its top first. *)
Abbreviation Visitor := (Boxes * list Addr)%type.

Definition mark_header (a : Addr) (v : Visitor) : outcome E Visitor :=
  match v.1 !! a with
  | None => Panic
  | Some b => if lives b <? GC_INITIAL_LIVES then Ok (<[a := set_lives GC_INITIAL_LIVES b]> v.1, a :: v.2) else Ok v
  end.

Definition visit (p : Z) (v : Visitor) : outcome E Visitor := if is_region_alloc p then Ok v else mark_header (raw p) v.

Fixpoint visit_all (ps : list Z) (v : Visitor) : outcome E Visitor :=
  match ps with
  | [] => Ok v
  | p :: ps' => v' ← visit p v; visit_all ps' v'
  end.

Fixpoint drain (fuel : nat) (v : Visitor) : outcome E Visitor :=
  match v.2 with
  | [] => Ok v
  | a :: grey =>
      match fuel with
      | O => OutOfFuel
      | S fuel' =>
          match v.1 !! a with
          | None => Panic
          | Some b => v' ← visit_all (box_children b) (v.1, grey); drain fuel' v'
          end
      end
  end.

(** The boxes allocated in the frames of this thread. *)
Fixpoint trace_thread_alloc_roots (headers : list Addr) (v : Visitor) : outcome E Visitor :=
  match headers with
  | [] => Ok v
  | a :: headers' => v' ← mark_header a v; trace_thread_alloc_roots headers' v'
  end.

(** Objects of regions are not marked, but what they point to is. *)
Fixpoint trace_objects (objects : list (list Z)) (v : Visitor) : outcome E Visitor :=
  match objects with
  | [] => Ok v
  | cs :: objects' => v' ← visit_all cs v; trace_objects objects' v'
  end.

(** The words of the stack that are addresses of boxes of the heap. *)
Fixpoint scan_words (objects : list Addr) (words : list Z) (v : Visitor) (rescued : Z) : outcome E (Visitor * Z) :=
  match words with
  | [] => Ok (v, rescued)
  | w :: words' =>
      if bool_decide (w ∈ objects) then
        match v.1 !! w with
        | None => Panic
        | Some b =>
            if lives b <? GC_INITIAL_LIVES then
              v' ← mark_header w v;
              scan_words objects words' v' (rescued + 1)
            else scan_words objects words' v rescued
        end
      else scan_words objects words' v rescued
  end.

(** * Sweeping *)

(** The boxes that stay with their lives, the boxes that go, and their bytes. *)
Fixpoint classify (os : list Addr) (bs : Boxes) (live dead : list Addr) (freed : Z) : outcome E (Boxes * list Addr * list Addr * Z) :=
  match os with
  | [] => Ok (bs, live, dead, freed)
  | a :: os' =>
      match bs !! a with
      | None => Panic
      | Some b =>
          if GC_INITIAL_LIVES <=? lives b then classify os' (<[a := set_lives (GC_INITIAL_LIVES - 1) b]> bs) (live ++ [a]) dead freed
          else if 0 <? lives b then classify os' (<[a := set_lives (lives b - 1) b]> bs) (live ++ [a]) dead freed
          else classify os' bs live (dead ++ [a]) (freed + box_size b)
      end
  end.

(** The list is built anew, each box in front of the one before. *)
Definition relink (live : list Addr) : list Addr := fold_left (fun head a => a :: head) live [].

Definition free_boxes (dead : list Addr) (bs : Boxes) : Boxes := fold_left (fun m a => delete a m) dead bs.

Definition DEFAULT_SOFT_LIMIT : Z := 64 * 1024 * 1024.

(** The headroom before the next attempt, doubled after every collection in a
    row that frees nothing. *)
Definition next_headroom (limit : option Z) (prev : Z) : Z :=
  let limit := default DEFAULT_SOFT_LIMIT limit in
  let base_headroom := Z.max (limit / 10) 1 in
  let max_headroom := Z.max (limit / 4) base_headroom in
  if prev =? 0 then base_headroom else Z.min (prev * 2) max_headroom.

Definition sweep (h : GcHeap) (bs : Boxes) : outcome E GcHeap :=
  '(bs, live, dead, freed_bytes) ← classify (order h) bs [] [] 0;
  let n := Z.of_nat (length dead) in
  let memory := memory_in_use h - freed_bytes in
  let '(suppressed, threshold, headroom) :=
    if n =? 0 then let r := next_headroom (soft_limit h) (zero_yield_headroom h) in (true, memory + r, r)
    else (false, suppressed_threshold h, 0) in
  Ok (mkHeap (free_boxes dead bs) (relink live) (count h - n) (total_allocated h) (total_freed h + n) (soft_limit h) memory
        (total_allocated_bytes h) suppressed threshold headroom (gc_requested h) (alloc_roots h)).

(** * Collection *)

(** [roots] and [headers] are the pointers and boxes the caller traces; [active]
    and [retired] the objects of the regions; [words] the stack, if it is
    scanned. *)
Definition collect_inner (roots : list Z) (headers : list Addr) (active retired : list (list (list Z))) (words : option (list Z))
    (h : GcHeap) : outcome E GcHeap :=
  let fuel := length (order h) in
  v ← visit_all roots (boxes h, []);
  v ← trace_thread_alloc_roots headers v;
  v ← trace_objects (concat active) v;
  v ← trace_objects (concat retired) v;
  v ← drain fuel v;
  v ← match words with
      | None => Ok v
      | Some ws => '(v', rescued) ← scan_words (order h) ws v 0; if 0 <? rescued then drain fuel v' else Ok v'
      end;
  sweep h v.1.

Definition collect (roots : list Z) (active retired : list (list (list Z))) (h : GcHeap) : outcome E GcHeap :=
  collect_inner roots [] active retired None h.

(** A safepoint of the only mutator of a heap: it collects when memory pressure
    or the stress mode asked for it. *)
Definition take_gc_request (h : GcHeap) : GcHeap :=
  mkHeap (boxes h) (order h) (count h) (total_allocated h) (total_freed h) (soft_limit h) (memory_in_use h) (total_allocated_bytes h)
    (gc_suppressed h) (suppressed_threshold h) (zero_yield_headroom h) false (alloc_roots h).

Definition gc_safepoint (stress : bool) (roots : list Z) (active retired : list (list (list Z))) (words : option (list Z))
    (h : GcHeap) : outcome E GcHeap :=
  if stress || gc_requested h then collect_inner roots (alloc_roots h) active retired words (take_gc_request h) else Ok h.

End Mark.
