(* ===== verification/GcSpec.v ===== *)
(** What a collection does: it marks exactly what can be reached, keeps that and
    what is in its grace period, and frees the rest.

    What the sweep of the collector does to the boxes and to the counters of
    the heap, and what a whole collection does.

    The collector and the program that uses it: a run of allocations, reads,
    writes and safepoints never follows a pointer to a freed box, also when
    the program holds pointers that one collection did not see. The
    collector on small heaps. *)
From stdpp Require Import gmap.
From S2P Require Import Prelude RustStd Gc.
Local Open Scope Z_scope.

(** * Reachability *)

(** The boxes a list of pointers leads to. *)
Definition targets (ps : list Z) : list Addr := map raw (filter (fun p => is_region_alloc p = false) ps).

Definition points (bs : Boxes) (a c : Addr) : Prop := exists b, bs !! a = Some b /\ c ∈ targets (box_children b).

Definition reach (bs : Boxes) (rs : list Addr) (a : Addr) : Prop := exists r, r ∈ rs /\ rtc (points bs) r a.

(** Everything that can be reached is on the heap. *)
Definition no_dangling (bs : Boxes) (rs : list Addr) : Prop := forall a, reach bs rs a -> a ∈ dom bs.

Lemma targets_app ps qs : targets (ps ++ qs) = targets ps ++ targets qs.
Proof. unfold targets. by rewrite filter_app, map_app. Qed.

Lemma reach_root bs rs a : a ∈ rs -> reach bs rs a.
Proof. intros Ha. exists a. split; [done|apply rtc_refl]. Qed.

Lemma reach_extend bs rs a c : reach bs rs a -> points bs a c -> reach bs rs c.
Proof. intros (r & Hr & Hrt) Hp. exists r. split; [done|]. by eapply rtc_r. Qed.

(** * Well-formed heaps *)

(** The bytes of some boxes. *)
Definition bytes (bs : Boxes) (os : list Addr) : Z := foldr (fun a n => from_option box_size 0 (bs !! a) + n) 0 os.

(** The list names every box once, boxes are unmarked, and the counters say how
    many there are and how many bytes they take. *)
Definition heap_ok (h : GcHeap) : Prop :=
  NoDup (order h) /\ (forall a, a ∈ order h <-> a ∈ dom (boxes h)) /\
  map_Forall (fun _ b => 0 <= lives b < GC_INITIAL_LIVES) (boxes h) /\
  count h = Z.of_nat (length (order h)) /\ total_allocated h = total_freed h + count h /\
  memory_in_use h = bytes (boxes h) (order h).

(** * Marking *)

(** The boxes with the given ones marked. *)
Definition mark_set (bs : Boxes) (M : gset Addr) : Boxes := map_imap (fun a b => Some (if decide (a ∈ M) then set_lives GC_INITIAL_LIVES b else b)) bs.

Lemma lookup_mark_set bs M a : mark_set bs M !! a = (fun b => if decide (a ∈ M) then set_lives GC_INITIAL_LIVES b else b) <$> bs !! a.
Proof. unfold mark_set. rewrite map_lookup_imap. by destruct (bs !! a). Qed.

Lemma mark_set_empty bs : mark_set bs ∅ = bs.
Proof. apply map_eq. intros a. rewrite lookup_mark_set. destruct (bs !! a); [|done]. cbn. by rewrite decide_False by set_solver. Qed.

Lemma mark_set_insert bs M a b : bs !! a = Some b -> <[a := set_lives GC_INITIAL_LIVES b]> (mark_set bs M) = mark_set bs ({[a]} ∪ M).
Proof.
  intros Hb. apply map_eq. intros c. rewrite lookup_mark_set. destruct (decide (c = a)) as [->|Hne].
  - rewrite lookup_insert_eq, Hb. cbn. by rewrite decide_True by set_solver.
  - rewrite lookup_insert_ne, lookup_mark_set by done. destruct (bs !! c); [|done]. cbn. f_equal.
    destruct (decide (c ∈ M)); [rewrite decide_True by set_solver|rewrite decide_False by set_solver]; done.
Qed.

Section Marking.
Context {E : Type} (bs : Boxes) (Hlives : map_Forall (fun _ b => 0 <= lives b < GC_INITIAL_LIVES) bs).

Lemma mark_header_spec a M g : a ∈ dom bs ->
  mark_header (E := E) a (mark_set bs M, g) = Ok (mark_set bs ({[a]} ∪ M), if decide (a ∈ M) then g else a :: g).
Proof.
  intros [b Hb]%elem_of_dom. pose proof (Hlives a b Hb) as Hl. cbn in Hl. unfold mark_header. cbn [fst snd]. rewrite lookup_mark_set, Hb.
  cbn [fmap option_fmap option_map]. destruct (decide (a ∈ M)) as [Hin|Hin].
  - cbn. assert (HM : {[a]} ∪ M = M) by set_solver. by rewrite HM.
  - rewrite (proj2 (Z.ltb_lt _ _)) by lia. by rewrite mark_set_insert.
Qed.

(** Marking boxes marks what was not marked yet and greys it. *)
Lemma headers_spec rs M g : (forall a, a ∈ rs -> a ∈ dom bs) ->
  exists new, trace_thread_alloc_roots (E := E) rs (mark_set bs M, g) = Ok (mark_set bs (list_to_set new ∪ M), new ++ g) /\
    NoDup new /\ (forall a, a ∈ new -> a ∈ rs /\ a ∉ M) /\ (forall a, a ∈ rs -> a ∈ new \/ a ∈ M).
Proof.
  revert M g. induction rs as [|r rs IH]; intros M g Hd; cbn [trace_thread_alloc_roots].
  { exists []. assert (HM : list_to_set [] ∪ M = M) by set_solver. rewrite HM.
    split_and!; [done|constructor|by intros a Ha%elem_of_nil|by intros a Ha%elem_of_nil]. }
  rewrite mark_header_spec by (apply Hd, elem_of_cons; by left). cbn [mbind outcome_bind].
  destruct (IH ({[r]} ∪ M) (if decide (r ∈ M) then g else r :: g)) as (new & Hv & Hn & H1 & H2).
  { intros a Ha. apply Hd, elem_of_cons. by right. }
  destruct (decide (r ∈ M)) as [Hin|Hin].
  - exists new. assert (HM : {[r]} ∪ M = M) by set_solver. rewrite HM in *. rewrite Hv. split_and!; [done|done| |].
    + intros a Ha. destruct (H1 a Ha). split; [apply elem_of_cons; by right|done].
    + intros a [->|Ha]%elem_of_cons; [by right|by apply H2].
  - exists (new ++ [r]). rewrite Hv. split_and!.
    + rewrite <- app_assoc. do 3 f_equal. set_solver.
    + apply NoDup_app. split_and!; [done| |apply NoDup_singleton]. intros a Ha. destruct (H1 a Ha). set_solver.
    + intros a [Ha|Ha]%elem_of_app; [destruct (H1 a Ha); set_solver|]. apply list_elem_of_singleton in Ha as ->. set_solver.
    + intros a [->|Ha]%elem_of_cons; [left; set_solver|]. destruct (H2 a Ha); set_solver.
Qed.

Lemma headers_app rs rs' v : trace_thread_alloc_roots (E := E) (rs ++ rs') v = (w ← trace_thread_alloc_roots rs v; trace_thread_alloc_roots rs' w).
Proof. revert v. induction rs as [|r rs IH]; intros v; [done|]. cbn. destruct (mark_header r v); cbn; [apply IH|done..]. Qed.

(** Every way of tracing marks the boxes its pointers lead to. *)
Lemma visit_all_headers ps v : visit_all (E := E) ps v = trace_thread_alloc_roots (targets ps) v.
Proof.
  revert v. induction ps as [|p ps IH]; intros v; [done|]. cbn [visit_all]. unfold visit, targets. rewrite filter_cons.
  destruct (is_region_alloc p) eqn:Hp; [rewrite decide_False by done; apply IH|rewrite decide_True by done]. cbn [map trace_thread_alloc_roots].
  destruct (mark_header (raw p) v); cbn; [apply IH|done..].
Qed.

Lemma trace_objects_headers os v : trace_objects (E := E) os v = trace_thread_alloc_roots (targets (concat os)) v.
Proof.
  revert v. induction os as [|o os IH]; intros v; [done|]. cbn [trace_objects concat]. rewrite targets_app, headers_app, visit_all_headers.
  destruct (trace_thread_alloc_roots (targets o) v); cbn; [apply IH|done..].
Qed.

(** What a marked box that is not grey points to is marked. *)
Definition black_closed (M : gset Addr) (g : list Addr) : Prop := forall a c, a ∈ M -> a ∉ g -> points bs a c -> c ∈ M.

Lemma drain_spec fuel M g : M ⊆ dom bs -> (forall a, a ∈ g -> a ∈ M) -> NoDup g -> black_closed M g ->
  (forall a c, a ∈ M -> rtc (points bs) a c -> c ∈ dom bs) -> (length g + size (dom bs ∖ M) <= fuel)%nat ->
  exists M', drain (E := E) fuel (mark_set bs M, g) = Ok (mark_set bs M', []) /\ M ⊆ M' /\ M' ⊆ dom bs /\ black_closed M' [] /\
    forall c, c ∈ M' -> exists a, a ∈ M /\ rtc (points bs) a c.
Proof.
  revert M g. induction fuel as [|fuel IH]; intros M g Hdom Hg Hn Hc Hr Hf; destruct g as [|a g]; cbn [drain snd length] in *; try lia.
  1,2: exists M; split_and!; [done|done|done|done|intros c Hin; exists c; split; [done|apply rtc_refl]].
  assert (HaM : a ∈ M) by (apply Hg, elem_of_cons; by left). assert (Had : a ∈ dom bs) by set_solver. apply elem_of_dom in Had as [b Hb].
  cbn [fst]. rewrite lookup_mark_set, Hb. cbn [fmap option_fmap option_map].
  assert (Hch : box_children (if decide (a ∈ M) then set_lives GC_INITIAL_LIVES b else b) = box_children b) by (by case_decide).
  rewrite Hch. apply NoDup_cons in Hn as [Hag Hn].
  assert (Hpoints : forall c, c ∈ targets (box_children b) -> points bs a c) by (intros c Hin; by exists b).
  rewrite visit_all_headers. destruct (headers_spec (targets (box_children b)) M g) as (new & Hv & Hnn & H1 & H2).
  { intros c Hin. apply (Hr a c HaM), rtc_once, Hpoints, Hin. }
  rewrite Hv. cbn [mbind outcome_bind].
  assert (Hnd : forall c, c ∈ new -> c ∈ dom bs) by (intros c Hin; apply (Hr a c HaM), rtc_once, Hpoints, H1, Hin).
  destruct (IH (list_to_set new ∪ M) (new ++ g)) as (M' & Hdr & Hsub & Hdom' & Hc' & Hreach).
  - intros c [Hin%elem_of_list_to_set|Hin]%elem_of_union; [by apply Hnd|set_solver].
  - intros c Hin. apply elem_of_app in Hin as [Hin|Hin]; [set_solver|]. apply elem_of_union_r, Hg, elem_of_cons. by right.
  - apply NoDup_app. split_and!; [done| |done]. intros c Hin Hcg. destruct (H1 c Hin) as [_ Hno]. apply Hno, Hg, elem_of_cons. by right.
  - intros x c Hx Hxg Hxc. destruct (decide (x = a)) as [->|Hne].
    + destruct Hxc as (b' & Hb' & Hin). assert (b' = b) as -> by congruence. destruct (H2 c Hin); set_solver.
    + assert (HxM : x ∈ M) by set_solver. assert (c ∈ M) by (apply (Hc x c HxM); [set_solver|done]). set_solver.
  - intros x c [Hin%elem_of_list_to_set|Hin]%elem_of_union Hxc; [|by apply (Hr x c)].
    apply (Hr a c HaM). eapply rtc_l; [|exact Hxc]. apply Hpoints, H1, Hin.
  - rewrite length_app. assert (Hsz : (size (dom bs ∖ M) = length new + size (dom bs ∖ (list_to_set new ∪ M)))%nat).
    { rewrite <- (size_list_to_set (C := gset Addr) new) by done. rewrite <- size_union by set_solver. f_equal.
      apply set_eq. intros x. destruct (decide (x ∈ new)) as [Hin|Hin]; [destruct (H1 x Hin); pose proof (Hnd x Hin)|]; set_solver. }
    lia.
  - exists M'. split_and!; [done|set_solver|done|done|]. intros c Hin. destruct (Hreach c Hin) as (x & Hx & Hxc).
    apply elem_of_union in Hx as [Hx%elem_of_list_to_set|Hx]; [|by exists x]. exists a. split; [done|].
    eapply rtc_l; [|exact Hxc]. apply Hpoints, H1, Hx.
Qed.

Lemma closed_reach M a c : black_closed M [] -> a ∈ M -> rtc (points bs) a c -> c ∈ M.
Proof. intros Hc Ha Hr. induction Hr as [|x y z Hxy _ IH]; [done|]. apply IH, (Hc x y Ha); [by intros ?%elem_of_nil|done]. Qed.

(** Tracing from some boxes and draining the grey stack marks what they reach. *)
Lemma mark_from fuel rs M : M ⊆ dom bs -> black_closed M [] -> no_dangling bs rs -> (size (dom bs) <= fuel)%nat ->
  exists M' g v, trace_thread_alloc_roots (E := E) rs (mark_set bs M, []) = Ok (v, g) /\ drain (E := E) fuel (v, g) = Ok (mark_set bs M', []) /\
    M' ⊆ dom bs /\ black_closed M' [] /\ (forall a, a ∈ M' <-> a ∈ M \/ reach bs rs a).
Proof.
  intros Hdom Hc Hnd Hf. destruct (headers_spec rs M []) as (new & Hv & Hnn & H1 & H2).
  { intros a Ha. by apply Hnd, reach_root. }
  rewrite app_nil_r in Hv. assert (HndM : forall a c, a ∈ list_to_set new ∪ M -> rtc (points bs) a c -> c ∈ dom bs).
  { intros a c [Ha%elem_of_list_to_set|Ha]%elem_of_union Hac; [apply Hnd; exists a; split; [apply H1, Ha|done]|]. by apply Hdom, (closed_reach M a). }
  destruct (drain_spec fuel (list_to_set new ∪ M) new) as (M' & Hdr & Hsub & Hdom' & Hc' & Hreach); [| |done| |done| |].
  - intros a Ha. apply (HndM a a Ha), rtc_refl.
  - intros a Ha. set_solver.
  - intros a c [Ha%elem_of_list_to_set|Ha]%elem_of_union Hng Hac; [done|]. apply elem_of_union_r, (Hc a c Ha); [by intros ?%elem_of_nil|done].
  - assert (Hsub : (list_to_set new : gset Addr) ∪ (dom bs ∖ (list_to_set new ∪ M)) ⊆ dom bs).
    { intros a [Ha|Ha]%elem_of_union; [|set_solver]. apply (HndM a a); [set_solver|apply rtc_refl]. }
    apply subseteq_size in Hsub. rewrite size_union, (size_list_to_set (C := gset Addr) new) in Hsub by (done || set_solver). lia.
  - exists M', new, (mark_set bs (list_to_set new ∪ M)). split_and!; [done|done|done|done|]. intros a. split.
    + intros Ha. destruct (Hreach a Ha) as (x & [Hx%elem_of_list_to_set|Hx]%elem_of_union & Hxa).
      * right. exists x. split; [by apply H1|done].
      * left. by apply (closed_reach M x).
    + intros [Ha|(x & Hx & Hxa)]; [set_solver|]. apply (closed_reach M' x); [done| |done]. destruct (H2 x Hx); set_solver.
Qed.

(** The scan of the stack marks the boxes it finds and counts the new ones. *)
Lemma scan_words_headers os ws v n : scan_words (E := E) os ws v n =
  (v' ← trace_thread_alloc_roots (filter (fun w => w ∈ os) ws) v; Ok (v', n + Z.of_nat (length v'.2) - Z.of_nat (length v.2))).
Proof.
  revert v n. induction ws as [|w ws IH]; intros v n; cbn [scan_words]; [cbn; do 2 f_equal; lia|]. rewrite filter_cons.
  destruct (decide (w ∈ os)) as [Hin|Hin]; [rewrite bool_decide_true by done|rewrite bool_decide_false by done; apply IH].
  cbn [trace_thread_alloc_roots]. unfold mark_header. destruct (v.1 !! w) as [b|]; [|done]. destruct (lives b <? GC_INITIAL_LIVES); cbn [mbind outcome_bind].
  - rewrite IH. destruct (trace_thread_alloc_roots _ _) as [v'| | |]; [|done..]. cbn. do 2 f_equal. lia.
  - apply IH.
Qed.

End Marking.

(** * Marking in a collection *)

(** The boxes a collection starts from. *)
Definition root_set (roots : list Z) (headers : list Addr) (active retired : list (list (list Z))) : list Addr :=
  targets roots ++ headers ++ targets (concat (concat active)) ++ targets (concat (concat retired)).

(** The words of the stack that are boxes. *)
Definition stack_roots (words : option (list Z)) (h : GcHeap) : list Addr :=
  match words with Some ws => filter (fun w => w ∈ order h) ws | None => [] end.

(** * The boxes after a sweep *)

(** A marked box is unmarked, another one loses a life. *)
Definition age (b : GcBox) : GcBox :=
  if GC_INITIAL_LIVES <=? lives b then set_lives (GC_INITIAL_LIVES - 1) b else if 0 <? lives b then set_lives (lives b - 1) b else b.

Definition alive (bs : Boxes) (a : Addr) : bool := from_option (fun b => 0 <? lives b) false (bs !! a).
Definition aged (os : list Addr) (bs : Boxes) : Boxes := map_imap (fun a b => Some (if decide (a ∈ os) then age b else b)) bs.
Definition kept (bs : Boxes) : Boxes := omap (fun b => if 0 <? lives b then Some (age b) else None) bs.

Lemma age_size b : box_size (age b) = box_size b.
Proof. unfold age. repeat case_match; done. Qed.

Lemma age_children b : box_children (age b) = box_children b.
Proof. unfold age. repeat case_match; done. Qed.

Lemma lookup_aged os bs a : aged os bs !! a = (fun b => if decide (a ∈ os) then age b else b) <$> bs !! a.
Proof. unfold aged. rewrite map_lookup_imap. by destruct (bs !! a). Qed.

Lemma aged_cons a os bs b : a ∉ os -> bs !! a = Some b -> aged os (<[a := age b]> bs) = aged (a :: os) bs.
Proof.
  intros Ha Hb. apply map_eq. intros c. rewrite !lookup_aged. destruct (decide (c = a)) as [->|Hne].
  - rewrite lookup_insert_eq, Hb. cbn. rewrite decide_False by done. by rewrite decide_True by (apply elem_of_cons; by left).
  - rewrite lookup_insert_ne by done. destruct (bs !! c); [|done]. cbn. f_equal.
    destruct (decide (c ∈ os)); [rewrite decide_True by set_solver|rewrite decide_False by set_solver]; done.
Qed.

Lemma aged_dead a os bs b : bs !! a = Some b -> (0 <? lives b) = false -> aged os bs = aged (a :: os) bs.
Proof.
  intros Hb Hl. apply map_eq. intros c. rewrite !lookup_aged. destruct (bs !! c) as [b'|] eqn:Hc; [|done]. cbn. f_equal.
  destruct (decide (c = a)) as [->|Hne].
  - assert (b' = b) as -> by congruence. rewrite (decide_True (P := a ∈ a :: os)) by (apply elem_of_cons; by left).
    assert (Hage : age b = b); [|case_decide; congruence]. unfold age, GC_INITIAL_LIVES. rewrite Hl. apply Z.ltb_ge in Hl.
    by rewrite (proj2 (Z.leb_gt _ _)) by lia.
  - destruct (decide (c ∈ os)); [rewrite decide_True by set_solver|rewrite decide_False by set_solver]; done.
Qed.

(** ** Bytes *)

Lemma bytes_ext bs bs' os : (forall a, a ∈ os -> box_size <$> bs !! a = box_size <$> bs' !! a) -> bytes bs os = bytes bs' os.
Proof.
  induction os as [|a os IH]; intros H; [done|]. cbn [bytes foldr]. fold (bytes bs os) (bytes bs' os). rewrite IH by (intros c Hc; apply H, elem_of_cons; by right).
  assert (Ha : box_size <$> bs !! a = box_size <$> bs' !! a) by (apply H, elem_of_cons; by left). destruct (bs !! a), (bs' !! a); cbn in *; congruence.
Qed.

Lemma bytes_perm bs os os' : os ≡ₚ os' -> bytes bs os = bytes bs os'.
Proof. induction 1; cbn [bytes foldr]; [done| |lia|congruence]. fold (bytes bs l) (bytes bs l'). lia. Qed.

Lemma bytes_split bs (f : Addr -> bool) os :
  bytes bs os = bytes bs (filter (fun a => f a = true) os) + bytes bs (filter (fun a => negb (f a) = true) os).
Proof.
  induction os as [|a os IH]; [done|]. rewrite !filter_cons. cbn [bytes foldr]. fold (bytes bs os).
  destruct (f a) eqn:Hf; [rewrite decide_True, decide_False by done|rewrite decide_False, decide_True by done]; cbn [bytes foldr]; unfold bytes in *; lia.
Qed.

Section Sweep.
Context {E : Type}.

Lemma alive_insert_ne a bs b os : a ∉ os -> Forall (fun c => alive (<[a := b]> bs) c = alive bs c) os.
Proof. intros Ha. apply Forall_forall. intros c Hc. unfold alive. rewrite lookup_insert_ne; [done|set_solver]. Qed.

Lemma filter_same (f g : Addr -> bool) os : Forall (fun a => f a = g a) os -> filter (fun a => f a = true) os = filter (fun a => g a = true) os.
Proof.
  induction 1 as [|a os Ha _ IH]; [done|]. rewrite !filter_cons, IH. destruct (f a) eqn:Hf; rewrite <- Ha.
  - by rewrite !decide_True by done.
  - by rewrite !decide_False by done.
Qed.

Lemma classify_spec os bs live dead freed : NoDup os -> (forall a, a ∈ os -> a ∈ dom bs) ->
  classify (E := E) os bs live dead freed =
    Ok (aged os bs, live ++ filter (fun a => alive bs a = true) os, dead ++ filter (fun a => negb (alive bs a) = true) os,
        freed + bytes bs (filter (fun a => negb (alive bs a) = true) os)).
Proof.
  revert bs live dead freed. induction os as [|a os IH]; intros bs live dead freed Hn Hd; cbn [classify].
  { rewrite !filter_nil, !app_nil_r. cbn [bytes foldr]. rewrite Z.add_0_r. do 4 f_equal. apply map_eq. intros c. rewrite lookup_aged.
    destruct (bs !! c); [|done]. cbn. by rewrite decide_False by apply not_elem_of_nil. }
  apply NoDup_cons in Hn as [Ha Hn]. destruct (proj1 (elem_of_dom bs a)) as [b Hb]; [apply Hd, elem_of_cons; by left|]. rewrite Hb.
  assert (Hal : alive bs a = (0 <? lives b)) by (unfold alive; by rewrite Hb).
  assert (Hstep : forall n, age b = set_lives n b -> (0 <? lives b) = true ->
    classify (E := E) os (<[a := set_lives n b]> bs) (live ++ [a]) dead freed =
    Ok (aged (a :: os) bs, live ++ filter (fun a => alive bs a = true) (a :: os), dead ++ filter (fun a => negb (alive bs a) = true) (a :: os),
        freed + bytes bs (filter (fun a => negb (alive bs a) = true) (a :: os)))).
  { intros n Hage Hl. rewrite <- Hage, IH; [|done|]. 2: { intros c Hc. rewrite dom_insert. apply elem_of_union_r, Hd, elem_of_cons. by right. }
    pose proof (alive_insert_ne a bs (age b) os Ha) as Hsame. rewrite aged_cons by done. rewrite !(filter_cons _ a), Hal, Hl.
    rewrite decide_True, decide_False by done. rewrite <- app_assoc. rewrite (filter_same _ (alive bs)) by done.
    rewrite (filter_same (fun c => negb (alive (<[a := age b]> bs) c)) (fun c => negb (alive bs c))) by (eapply Forall_impl; [exact Hsame|cbn; congruence]).
    do 3 f_equal. apply bytes_ext. intros c _. destruct (decide (c = a)) as [->|Hne]; [|by rewrite lookup_insert_ne].
    rewrite lookup_insert_eq, Hb. cbn. by rewrite age_size. }
  destruct (GC_INITIAL_LIVES <=? lives b) eqn:H2.
  { apply Hstep; [unfold age; by rewrite H2|]. unfold GC_INITIAL_LIVES in H2. apply Z.leb_le in H2. apply Z.ltb_lt. lia. }
  destruct (0 <? lives b) eqn:H0; [apply Hstep; [unfold age; by rewrite H2, H0|done]|].
  rewrite IH; [|done|intros c Hc; apply Hd, elem_of_cons; by right]. rewrite !(filter_cons _ a), Hal.
  rewrite decide_False, decide_True by done. rewrite <- app_assoc, (aged_dead a os bs b) by done. cbn [bytes foldr]. rewrite Hb.
  do 2 f_equal. unfold bytes. cbn. lia.
Qed.

Lemma relink_rev live : relink live = reverse live.
Proof.
  assert (H : forall acc, fold_left (fun head a => a :: head) live acc = reverse live ++ acc); [|unfold relink; by rewrite H, app_nil_r].
  induction live as [|a live IH]; intros acc; [done|]. cbn [fold_left]. rewrite IH, reverse_cons, <- app_assoc. done.
Qed.

Lemma lookup_free_boxes dead bs a : free_boxes dead bs !! a = if decide (a ∈ dead) then None else bs !! a.
Proof.
  unfold free_boxes. revert bs. induction dead as [|d dead IH]; intros bs; [by rewrite decide_False by apply not_elem_of_nil|].
  cbn. rewrite IH. destruct (decide (a ∈ dead)) as [Hin|Hin]; [by rewrite decide_True by (apply elem_of_cons; by right)|].
  destruct (decide (a = d)) as [->|Hne]; [rewrite lookup_delete_eq, decide_True; [done|apply elem_of_cons; by left]|].
  rewrite lookup_delete_ne by done. rewrite decide_False; [done|set_solver].
Qed.

(** Freeing what has no life left among the aged boxes leaves the kept ones. *)
Lemma swept_kept os bs : (forall a, a ∈ os <-> a ∈ dom bs) -> free_boxes (filter (fun a => negb (alive bs a) = true) os) (aged os bs) = kept bs.
Proof.
  intros Hd. apply map_eq. intros a. rewrite lookup_free_boxes, lookup_aged. unfold kept. rewrite lookup_omap.
  destruct (bs !! a) as [b|] eqn:Hb; [|case_decide; done]. cbn.
  assert (Hin : a ∈ os) by (apply Hd, elem_of_dom; by exists b). assert (Hal : alive bs a = (0 <? lives b)) by (unfold alive; by rewrite Hb).
  destruct (0 <? lives b) eqn:Hl.
  - rewrite decide_False; [by rewrite decide_True by done|]. intros [Hf _]%list_elem_of_filter. by rewrite Hal in Hf.
  - rewrite decide_True; [done|]. apply list_elem_of_filter. by rewrite Hal.
Qed.

Lemma filter_negb_length (f : Addr -> bool) os :
  (length (filter (fun a => f a = true) os) + length (filter (fun a => negb (f a) = true) os) = length os)%nat.
Proof.
  induction os as [|a os IH]; [done|]. rewrite !filter_cons.
  destruct (f a) eqn:Hf; [rewrite decide_True, decide_False by done|rewrite decide_False, decide_True by done]; cbn [length]; lia.
Qed.

(** ** The sweep *)

(** A sweep keeps the boxes with a life left and brings the counters up to date. *)
Lemma sweep_spec h M : heap_ok h ->
  exists h', sweep (E := E) h (mark_set (boxes h) M) = Ok h' /\ heap_ok h' /\ boxes h' = kept (mark_set (boxes h) M) /\
    alloc_roots h' = alloc_roots h /\ gc_requested h' = gc_requested h /\ soft_limit h' = soft_limit h /\
    (order h' = reverse (filter (fun a => alive (mark_set (boxes h) M) a = true) (order h))).
Proof.
  intros (Hn & Hd & Hl & Hc & Ht & Hm). set (bs := mark_set (boxes h) M).
  assert (Hdom : forall a, a ∈ order h <-> a ∈ dom bs).
  { intros a. rewrite Hd, !elem_of_dom. unfold bs. rewrite lookup_mark_set. destruct (boxes h !! a); [split; intros _; by eexists|by split; intros [? ?]]. }
  assert (Hsz : forall os, bytes bs os = bytes (boxes h) os).
  { intros os. apply bytes_ext. intros a _. unfold bs. rewrite lookup_mark_set. destruct (boxes h !! a); [|done]. cbn. by case_decide. }
  unfold sweep. rewrite classify_spec by (done || intros a Ha; by apply Hdom). cbn [mbind outcome_bind]. cbn [app].
  set (dead := filter (fun a => negb (alive bs a) = true) (order h)). set (live := filter (fun a => alive bs a = true) (order h)).
  destruct (if Z.of_nat (length dead) =? 0 then _ else _) as [[s t] r]. eexists. split; [reflexivity|].
  cbn [boxes order count total_allocated total_freed memory_in_use alloc_roots gc_requested soft_limit].
  rewrite relink_rev. unfold dead. rewrite swept_kept by done. split_and!; try done.
  unfold heap_ok. cbn [boxes order count total_allocated total_freed memory_in_use]. split_and!.
  - rewrite reverse_Permutation. by apply NoDup_filter.
  - intros a. rewrite elem_of_reverse. unfold live, kept. rewrite list_elem_of_filter, elem_of_dom, lookup_omap, Hdom, elem_of_dom. unfold alive.
    destruct (bs !! a) as [b|]; cbn; [|split; [by intros [? _]|by intros [? ?]]]. destruct (0 <? lives b); (split; [|by intros [? ?]]).
    + intros _. by eexists.
    + by intros [? _].
  - intros a b Hb. unfold kept in Hb. rewrite lookup_omap in Hb. unfold bs in Hb. rewrite lookup_mark_set in Hb.
    destruct (boxes h !! a) as [b0|] eqn:Hb0; [|done]. pose proof (Hl a b0 Hb0) as Hl0. cbn in Hl0, Hb. unfold age, GC_INITIAL_LIVES in *.
    case_decide; cbn in Hb; repeat case_match; simplify_eq; cbn; lia.
  - rewrite length_reverse, Hc. pose proof (filter_negb_length (alive bs) (order h)). unfold live. lia.
  - lia.
  - rewrite (bytes_perm _ _ _ (reverse_Permutation live)). rewrite (bytes_ext (kept bs) bs live).
    + pose proof (bytes_split bs (alive bs) (order h)) as Hs. rewrite (Hsz (order h)) in Hs. unfold live. lia.
    + intros a Ha. unfold kept. rewrite lookup_omap. unfold live in Ha. apply list_elem_of_filter in Ha as [Ha _]. unfold alive in Ha.
      destruct (bs !! a) as [b|]; [|done]. cbn in Ha |- *. rewrite Ha. cbn. by rewrite age_size.
Qed.

End Sweep.

(** * A whole collection *)

Lemma reach_app bs rs rs' a : reach bs (rs ++ rs') a <-> reach bs rs a \/ reach bs rs' a.
Proof. unfold reach. setoid_rewrite elem_of_app. naive_solver. Qed.

Lemma order_size h : heap_ok h -> length (order h) = size (dom (boxes h)).
Proof. intros (Hn & Hd & _). rewrite <- (size_list_to_set (C := gset Addr)) by done. f_equal. apply set_eq. intros a. by rewrite elem_of_list_to_set. Qed.

Section Collect.
Context {E : Type} (roots : list Z) (headers : list Addr) (active retired : list (list (list Z))) (words : option (list Z)) (h : GcHeap).

(** Every box a collection starts from. *)
Definition all_roots : list Addr := root_set roots headers active retired ++ stack_roots words h.

Context (Hok : heap_ok h) (Hnd : no_dangling (boxes h) all_roots).

Lemma collect_marks : exists M, collect_inner (E := E) roots headers active retired words h = sweep h (mark_set (boxes h) M) /\
  M ⊆ dom (boxes h) /\ forall a, a ∈ M <-> reach (boxes h) all_roots a.
Proof.
  pose proof Hok as (Hn & Hd & Hl & _). pose proof (order_size h Hok) as Hsz.
  assert (Hnd1 : no_dangling (boxes h) (root_set roots headers active retired)) by (intros a Ha; apply Hnd, reach_app; by left).
  assert (Hnd2 : no_dangling (boxes h) (stack_roots words h)) by (intros a Ha; apply Hnd, reach_app; by right).
  destruct (mark_from (E := E) (boxes h) Hl (length (order h)) (root_set roots headers active retired) ∅ (empty_subseteq _)) with (2 := Hnd1) as (M1 & g1 & v1 & Ht1 & Hd1 & Hs1 & Hc1 & Hr1).
  { intros a c Ha. by apply not_elem_of_empty in Ha. } { lia. }
  rewrite mark_set_empty in Ht1.
  destruct (mark_from (E := E) (boxes h) Hl (length (order h)) (stack_roots words h) M1 Hs1 Hc1 Hnd2) as (M2 & g2 & v2 & Ht2 & Hd2 & Hs2 & Hc2 & Hr2); [lia|].
  exists M2. split_and!; [|done|].
  - unfold collect_inner. unfold root_set in Ht1. rewrite headers_app in Ht1. rewrite visit_all_headers.
    destruct (trace_thread_alloc_roots (targets roots) _) as [w1| | |]; cbn [mbind outcome_bind] in *; [|done..].
    rewrite headers_app in Ht1. destruct (trace_thread_alloc_roots headers w1) as [w2| | |]; cbn [mbind outcome_bind] in *; [|done..].
    rewrite headers_app in Ht1. rewrite trace_objects_headers. destruct (trace_thread_alloc_roots _ w2) as [w3| | |]; cbn [mbind outcome_bind] in *; [|done..].
    rewrite trace_objects_headers, Ht1. cbn [mbind outcome_bind]. rewrite Hd1. cbn [mbind outcome_bind].
    unfold stack_roots in Ht2. destruct words as [ws|].
    + rewrite scan_words_headers, Ht2. cbn [mbind outcome_bind snd length]. destruct (0 <? _) eqn:Hz; [by rewrite Hd2|].
      apply Z.ltb_ge in Hz. destruct g2 as [|x g2]; [|cbn in Hz; lia]. cbn [mbind outcome_bind fst].
      destruct (length (order h)); cbn in Hd2; by injection Hd2 as ->.
    + cbn in Ht2. injection Ht2 as <- <-. cbn [mbind outcome_bind fst]. destruct (length (order h)); cbn in Hd2; by injection Hd2 as <-.
  - intros a. unfold all_roots. rewrite reach_app, Hr2, Hr1. pose proof (not_elem_of_empty (C := gset Addr) a). tauto.
Qed.

(** What a collection leaves of a box. *)
Lemma collect_outcome : exists h', collect_inner (E := E) roots headers active retired words h = Ok h' /\ heap_ok h' /\
  alloc_roots h' = alloc_roots h /\ (forall a, reach (boxes h) all_roots a \/ ~ reach (boxes h) all_roots a) /\
  (forall a, boxes h !! a = None -> boxes h' !! a = None) /\
  forall a b, boxes h !! a = Some b ->
    (reach (boxes h) all_roots a -> boxes h' !! a = Some (set_lives (GC_INITIAL_LIVES - 1) b)) /\
    (~ reach (boxes h) all_roots a -> boxes h' !! a = if 0 <? lives b then Some (set_lives (lives b - 1) b) else None).
Proof.
  destruct collect_marks as (M & Hc & Hs & Hr). destruct (sweep_spec (E := E) h M Hok) as (h' & Hsw & Hok' & Hb & Ha & _).
  exists h'. rewrite Hc. split_and!; try done.
  - intros a. rewrite <- Hr. destruct (decide (a ∈ M)); [by left|by right].
  - intros a Hn. rewrite Hb. unfold kept. rewrite lookup_omap, lookup_mark_set, Hn. done.
  - intros a b Hab. pose proof Hok as (_ & _ & Hl & _). pose proof (Hl a b Hab) as Hlb. cbn in Hlb.
    assert (Hk : boxes h' !! a = let b' := if decide (a ∈ M) then set_lives GC_INITIAL_LIVES b else b in if 0 <? lives b' then Some (age b') else None).
    { rewrite Hb. unfold kept. rewrite lookup_omap, lookup_mark_set, Hab. done. }
    split; intros Hre; rewrite Hk; [rewrite decide_True by (by apply Hr)|rewrite decide_False by (by rewrite Hr)]; cbv zeta; [done|].
    destruct (0 <? lives b) eqn:Hl0; [|done]. unfold age. rewrite (proj2 (Z.leb_gt _ _)) by lia. by rewrite Hl0.
Qed.

End Collect.

(** * One collection *)

(** C12: a collection of a well-formed heap whose roots do not dangle always
    finishes.  Every box that can be reached from the roots, the boxes of open
    allocation frames, the regions or the scanned stack keeps its contents and
    gets its full grace back; every other box loses a life, and is freed if it
    had none left; no box appears from nowhere, and the list and the counters of
    the heap stay exact. *)
Theorem collection_exact {E} roots headers active retired words h : heap_ok h ->
  no_dangling (boxes h) (all_roots roots headers active retired words h) ->
  exists h', collect_inner (E := E) roots headers active retired words h = Ok h' /\ heap_ok h' /\
    (forall a, boxes h !! a = None -> boxes h' !! a = None) /\
    forall a b, boxes h !! a = Some b ->
      (reach (boxes h) (all_roots roots headers active retired words h) a -> boxes h' !! a = Some (set_lives (GC_INITIAL_LIVES - 1) b)) /\
      (~ reach (boxes h) (all_roots roots headers active retired words h) a ->
        boxes h' !! a = if 0 <? lives b then Some (set_lives (lives b - 1) b) else None).
Proof. intros Hok Hnd. destruct (collect_outcome (E := E) roots headers active retired words h Hok Hnd) as (h' & ? & ? & _ & _ & ? & ?). eauto. Qed.

(** A box that cannot be reached at two collections in a row is freed by the
    second one at the latest. *)
Theorem garbage_is_freed {E} roots roots' active active' retired retired' h h1 a : heap_ok h ->
  no_dangling (boxes h) (all_roots roots [] active retired None h) ->
  collect (E := E) roots active retired h = Ok h1 -> ~ reach (boxes h) (all_roots roots [] active retired None h) a ->
  no_dangling (boxes h1) (all_roots roots' [] active' retired' None h1) -> ~ reach (boxes h1) (all_roots roots' [] active' retired' None h1) a ->
  exists h2, collect (E := E) roots' active' retired' h1 = Ok h2 /\ boxes h2 !! a = None.
Proof.
  intros Hok Hnd Hc Hr Hnd1 Hr1. destruct (collect_outcome (E := E) roots [] active retired None h Hok Hnd) as (h1' & Hc' & Hok1 & _ & _ & Hn & Hb).
  unfold collect in *. assert (h1' = h1) as -> by congruence.
  destruct (collect_outcome (E := E) roots' [] active' retired' None h1 Hok1 Hnd1) as (h2 & Hc2 & Hok2 & _ & _ & Hn2 & Hb2).
  exists h2. split; [done|]. destruct (boxes h1 !! a) as [b1|] eqn:H1; [|by apply Hn2]. rewrite (proj2 (Hb2 a b1 H1) Hr1).
  destruct (boxes h !! a) as [b|] eqn:H0; [|by rewrite (Hn a H0) in H1]. rewrite (proj2 (Hb a b H0) Hr) in H1.
  destruct Hok as (_ & _ & Hl & _). pose proof (Hl a b H0) as Hlb. cbn in Hlb. unfold GC_INITIAL_LIVES in Hlb.
  destruct (0 <? lives b) eqn:Hl0; [|done]. injection H1 as <-. apply Z.ltb_lt in Hl0. cbn. by rewrite (proj2 (Z.ltb_ge _ _)) by lia.
Qed.

(** * The program and the collector *)

(** What the program holds: pointers that the last collection saw, or newer, and
    pointers it did not see. *)
Record Mutator : Type := mkMutator { heap : GcHeap; held : list Addr; stale : list Addr }.

Definition write_box (a : Addr) (cs : list Z) (h : GcHeap) : GcHeap :=
  mkHeap (alter (fun b => mkBox (box_size b) (lives b) cs) a (boxes h)) (order h) (count h) (total_allocated h) (total_freed h)
    (soft_limit h) (memory_in_use h) (total_allocated_bytes h) (gc_suppressed h) (suppressed_threshold h) (zero_yield_headroom h)
    (gc_requested h) (alloc_roots h).

(** Roots that come from what the program holds. *)
Definition roots_in_use (m : Mutator) (roots : list Z) (active retired : list (list (list Z))) : Prop :=
  forall a, a ∈ root_set roots [] active retired -> a ∈ held m ++ stale m.

Inductive mutate {E} : Mutator -> Mutator -> Prop :=
| mutate_alloc h hs ss a size cs : a ∉ dom (boxes h) -> (forall c, c ∈ targets cs -> c ∈ hs) ->
    mutate (mkMutator h hs ss) (mkMutator (alloc a size cs h) (a :: hs) ss)
| mutate_read_held h hs ss a b c : a ∈ hs -> boxes h !! a = Some b -> c ∈ targets (box_children b) ->
    mutate (mkMutator h hs ss) (mkMutator h (c :: hs) ss)
| mutate_read_stale h hs ss a b c : a ∈ ss -> boxes h !! a = Some b -> c ∈ targets (box_children b) ->
    mutate (mkMutator h hs ss) (mkMutator h hs (c :: ss))
| mutate_write h hs ss a b cs : a ∈ hs ++ ss -> boxes h !! a = Some b ->
    (forall c, c ∈ targets cs -> c ∈ hs \/ c ∈ targets (box_children b)) ->
    mutate (mkMutator h hs ss) (mkMutator (write_box a cs h) hs ss)
| mutate_forget h hs ss hs' ss' : (forall a, a ∈ hs' -> a ∈ hs) -> (forall a, a ∈ ss' -> a ∈ ss) ->
    mutate (mkMutator h hs ss) (mkMutator h hs' ss')
| mutate_leave_frame h hs ss n : mutate (mkMutator h hs ss) (mkMutator (drop_alloc_frame n h) hs ss)
| mutate_truncate h hs ss n : mutate (mkMutator h hs ss) (mkMutator (truncate_thread_alloc_roots n h) hs ss)
| mutate_safepoint stress roots active retired words h h' hs ss hs' ss' : roots_in_use (mkMutator h hs ss) roots active retired ->
    stress || gc_requested h = true -> gc_safepoint (E := E) stress roots active retired words h = Ok h' ->
    (forall a, a ∈ ss -> reach (boxes h) (all_roots roots (alloc_roots h) active retired words h) a) ->
    (forall a, a ∈ hs' -> a ∈ hs ++ ss /\ reach (boxes h) (all_roots roots (alloc_roots h) active retired words h) a) ->
    (forall a, a ∈ ss' -> a ∈ hs ++ ss) ->
    mutate (mkMutator h hs ss) (mkMutator h' hs' ss')
| mutate_no_safepoint stress roots active retired words h h' hs ss : stress || gc_requested h = false ->
    gc_safepoint (E := E) stress roots active retired words h = Ok h' -> mutate (mkMutator h hs ss) (mkMutator h' hs ss).

(** No pointer of any box dangles, and a box lives no longer than what it points
    to. *)
Definition closed (bs : Boxes) : Prop := forall a b c, bs !! a = Some b -> c ∈ targets (box_children b) ->
  exists b', bs !! c = Some b' /\ lives b <= lives b'.

Definition fresh_in (bs : Boxes) (a : Addr) : Prop := exists b, bs !! a = Some b /\ lives b = GC_INITIAL_LIVES - 1.

Record mutator_ok (m : Mutator) : Prop := mkMutatorOk {
  mutator_heap : heap_ok (heap m);
  mutator_closed : closed (boxes (heap m));
  mutator_held : forall a, a ∈ held m -> fresh_in (boxes (heap m)) a;
  mutator_stale : forall a, a ∈ stale m -> a ∈ dom (boxes (heap m));
  mutator_frames : forall a, a ∈ alloc_roots (heap m) -> a ∈ dom (boxes (heap m))
}.

Lemma closed_reach_dom bs a c : closed bs -> a ∈ dom bs -> rtc (points bs) a c -> c ∈ dom bs.
Proof.
  intros Hc Ha Hr. induction Hr as [|x y z (b & Hb & Hy) _ IH]; [done|]. apply IH, elem_of_dom.
  destruct (Hc x b y Hb Hy) as (b' & Hb' & _). by exists b'.
Qed.

Lemma closed_no_dangling bs rs : closed bs -> (forall a, a ∈ rs -> a ∈ dom bs) -> no_dangling bs rs.
Proof. intros Hc Hrs a (r & Hr & Hra). apply (closed_reach_dom bs r); auto. Qed.

(** ** The steps keep the invariant *)

Lemma alloc_boxes a size cs h : boxes (alloc a size cs h) = <[a := GcBoxHeader_new size cs]> (boxes h).
Proof. unfold alloc. by destruct (pressure h _). Qed.

Lemma alloc_alloc_roots a size cs h : alloc_roots (alloc a size cs h) = alloc_roots h ++ [a].
Proof. unfold alloc. by destruct (pressure h _). Qed.

Lemma heap_ok_alloc a size cs h : heap_ok h -> a ∉ dom (boxes h) -> heap_ok (alloc a size cs h).
Proof.
  intros (Hn & Hd & Hl & Hc & Ht & Hm) Ha. unfold alloc. destruct (pressure h _) as [s r].
  unfold heap_ok. cbn [boxes order count total_allocated total_freed memory_in_use]. assert (Hao : a ∉ order h) by (by rewrite Hd). split_and!.
  - by apply NoDup_cons.
  - intros c. rewrite elem_of_cons, dom_insert, elem_of_union, elem_of_singleton, Hd. done.
  - apply map_Forall_insert_2; [cbn; unfold GC_INITIAL_LIVES; lia|done].
  - cbn [length]. lia.
  - lia.
  - cbn [bytes foldr]. rewrite lookup_insert_eq. fold (bytes (<[a := GcBoxHeader_new size cs]> (boxes h)) (order h)).
    rewrite (bytes_ext _ (boxes h)); [cbn; lia|]. intros c Hc'. rewrite lookup_insert_ne; [done|set_solver].
Qed.

Lemma heap_ok_write a cs h : heap_ok h -> heap_ok (write_box a cs h).
Proof.
  intros (Hn & Hd & Hl & Hc & Ht & Hm). unfold heap_ok, write_box. cbn [boxes order count total_allocated total_freed memory_in_use].
  split_and!; try done.
  - intros c. by rewrite dom_alter.
  - intros c b Hb. destruct (decide (c = a)) as [->|Hne]; [rewrite lookup_alter_eq in Hb|rewrite lookup_alter_ne in Hb by done; by apply (Hl c)].
    destruct (boxes h !! a) as [b0|] eqn:Hb0; [|done]. injection Hb as <-. by apply (Hl a b0).
  - rewrite Hm. apply bytes_ext. intros c _. destruct (decide (c = a)) as [->|Hne]; [rewrite lookup_alter_eq|by rewrite lookup_alter_ne].
    by destruct (boxes h !! a).
Qed.

Lemma fresh_in_dom bs a : fresh_in bs a -> a ∈ dom bs.
Proof. intros (b & Hb & _). apply elem_of_dom. by exists b. Qed.

Lemma lives_fresh h a b : heap_ok h -> boxes h !! a = Some b -> lives b <= GC_INITIAL_LIVES - 1.
Proof. intros (_ & _ & Hl & _) Hb. pose proof (Hl a b Hb) as Hlb. cbn in Hlb. lia. Qed.

Lemma alloc_ok h hs ss a size cs : mutator_ok (mkMutator h hs ss) -> a ∉ dom (boxes h) -> (forall c, c ∈ targets cs -> c ∈ hs) ->
  mutator_ok (mkMutator (alloc a size cs h) (a :: hs) ss).
Proof.
  intros [Hok Hc Hh Hs Hf] Ha Hcs. cbn in *. assert (Hfr : forall c, fresh_in (boxes h) c -> fresh_in (<[a := GcBoxHeader_new size cs]> (boxes h)) c).
  { intros c (b & Hb & Hlb). exists b. split; [|done]. rewrite lookup_insert_ne; [done|]. intros ->. apply Ha, elem_of_dom. by exists b. }
  split; cbn [heap held stale]; rewrite ?alloc_boxes, ?alloc_alloc_roots.
  - by apply heap_ok_alloc.
  - intros x b c Hb Hin. destruct (decide (x = a)) as [->|Hne].
    + rewrite lookup_insert_eq in Hb. injection Hb as <-. destruct (Hfr c (Hh c (Hcs c Hin))) as (b' & Hb' & Hl'). exists b'. cbn. by rewrite Hl'.
    + rewrite lookup_insert_ne in Hb by done. destruct (Hc x b c Hb Hin) as (b' & Hb' & Hl'). exists b'. split; [|done].
      rewrite lookup_insert_ne; [done|]. intros ->. apply Ha, elem_of_dom. by exists b'.
  - intros c [->|Hin]%elem_of_cons; [|by apply Hfr, Hh]. eexists. split; [apply lookup_insert_eq|done].
  - intros c Hin. rewrite dom_insert. apply elem_of_union_r, Hs, Hin.
  - intros c [Hin|Hin]%elem_of_app; rewrite dom_insert; [apply elem_of_union_r, Hf, Hin|]. apply list_elem_of_singleton in Hin as ->. set_solver.
Qed.

Lemma write_ok h hs ss a b cs : mutator_ok (mkMutator h hs ss) -> boxes h !! a = Some b ->
  (forall c, c ∈ targets cs -> c ∈ hs \/ c ∈ targets (box_children b)) -> mutator_ok (mkMutator (write_box a cs h) hs ss).
Proof.
  intros [Hok Hc Hh Hs Hf] Hb Hcs. cbn in *. set (w := fun b => mkBox (box_size b) (lives b) cs).
  assert (Hlk : forall c b', boxes h !! c = Some b' -> exists b'', alter w a (boxes h) !! c = Some b'' /\ lives b'' = lives b').
  { intros c b' Hb'. destruct (decide (c = a)) as [->|Hne]; [rewrite lookup_alter_eq, Hb'|rewrite lookup_alter_ne, Hb' by done]; by eexists. }
  split; cbn [heap held stale write_box boxes alloc_roots]; fold w.
  - by apply heap_ok_write.
  - intros x bx c Hbx Hin. destruct (decide (x = a)) as [->|Hne].
    + rewrite lookup_alter_eq, Hb in Hbx. injection Hbx as <-. cbn in Hin |- *. destruct (Hcs c Hin) as [Hin'|Hin'].
      * destruct (Hh c Hin') as (b' & Hb' & Hl'). destruct (Hlk c b' Hb') as (b'' & ? & Hl''). exists b''. split; [done|].
        pose proof (lives_fresh h a b Hok Hb). lia.
      * destruct (Hc a b c Hb Hin') as (b' & Hb' & Hl'). destruct (Hlk c b' Hb') as (b'' & ? & Hl''). exists b''. split; [done|lia].
    + rewrite lookup_alter_ne in Hbx by done. destruct (Hc x bx c Hbx Hin) as (b' & Hb' & Hl').
      destruct (Hlk c b' Hb') as (b'' & ? & Hl''). exists b''. split; [done|lia].
  - intros c Hin. destruct (Hh c Hin) as (b' & Hb' & Hl'). destruct (Hlk c b' Hb') as (b'' & ? & Hl''). exists b''. split; [done|lia].
  - intros c Hin. rewrite dom_alter. by apply Hs.
  - intros c Hin. rewrite dom_alter. by apply Hf.
Qed.

(** Reading a box does not lead off the heap. *)
Lemma read_held_ok h hs ss a b c : mutator_ok (mkMutator h hs ss) -> a ∈ hs -> boxes h !! a = Some b -> c ∈ targets (box_children b) ->
  mutator_ok (mkMutator h (c :: hs) ss).
Proof.
  intros [Hok Hc Hh Hs Hf] Ha Hb Hin. cbn in *. split; cbn; try done. intros x [->|Hx]%elem_of_cons; [|by apply Hh].
  destruct (Hh a Ha) as (b0 & Hb0 & Hl0). assert (b0 = b) as -> by congruence. destruct (Hc a b c Hb Hin) as (b' & Hb' & Hl').
  exists b'. split; [done|]. pose proof (lives_fresh h c b' Hok Hb'). lia.
Qed.

Lemma read_stale_ok h hs ss a b c : mutator_ok (mkMutator h hs ss) -> boxes h !! a = Some b -> c ∈ targets (box_children b) ->
  mutator_ok (mkMutator h hs (c :: ss)).
Proof.
  intros [Hok Hc Hh Hs Hf] Hb Hin. cbn in *. split; cbn; try done. intros x [->|Hx]%elem_of_cons; [|by apply Hs].
  destruct (Hc a b c Hb Hin) as (b' & Hb' & _). apply elem_of_dom. by exists b'.
Qed.

Lemma shrink_ok h hs ss hs' ss' n : mutator_ok (mkMutator h hs ss) -> (forall a, a ∈ hs' -> a ∈ hs) -> (forall a, a ∈ ss' -> a ∈ ss) ->
  mutator_ok (mkMutator (with_alloc_roots (take n (alloc_roots h)) h) hs' ss').
Proof.
  intros [Hok Hc Hh Hs Hf] H1 H2. cbn in *. split; cbn; auto. intros a Ha. apply Hf, (subseteq_take n (alloc_roots h)), Ha.
Qed.

(** ** Safepoints *)

Section Safepoint.
Context {E : Type} (roots : list Z) (active retired : list (list (list Z))) (words : option (list Z)) (h : GcHeap) (hs ss : list Addr).
Context (Hm : mutator_ok (mkMutator h hs ss)) (Hu : roots_in_use (mkMutator h hs ss) roots active retired).

Abbreviation reached := (reach (boxes h) (all_roots roots (alloc_roots h) active retired words h)).

Lemma safepoint_no_dangling : no_dangling (boxes h) (all_roots roots (alloc_roots h) active retired words h).
Proof.
  destruct Hm as [Hok Hc Hh Hs Hf]. cbn in *. apply closed_no_dangling; [done|]. intros a. unfold all_roots, root_set. rewrite !elem_of_app.
  assert (Huse : a ∈ root_set roots [] active retired -> a ∈ dom (boxes h)).
  { intros Ha. apply Hu in Ha. cbn in Ha. apply elem_of_app in Ha as [Ha|Ha]; [by apply fresh_in_dom, Hh|by apply Hs]. }
  unfold root_set in Huse. rewrite !elem_of_app in Huse. intros [[Ha|[Ha|Ha]]|Ha]; [by apply Huse; left|by apply Hf|apply Huse; tauto|].
  unfold stack_roots in Ha. destruct words as [ws|]; [|by apply elem_of_nil in Ha]. apply list_elem_of_filter in Ha as [Ha _].
  destruct Hok as (_ & Hd & _). by apply Hd.
Qed.

Context (h' : GcHeap) (Hok' : heap_ok h') (Hdec : forall a, reached a \/ ~ reached a) (Hn : forall a, boxes h !! a = None -> boxes h' !! a = None).
Context (Hb : forall a b, boxes h !! a = Some b -> (reached a -> boxes h' !! a = Some (set_lives (GC_INITIAL_LIVES - 1) b)) /\
  (~ reached a -> boxes h' !! a = if 0 <? lives b then Some (set_lives (lives b - 1) b) else None)).

Lemma reached_fresh a : reached a -> fresh_in (boxes h') a.
Proof. intros Ha. pose proof (safepoint_no_dangling a Ha) as [b Hab]%elem_of_dom. eexists. split; [by apply (Hb a b Hab)|done]. Qed.

(** Of the boxes that no root leads to, those that are kept are kept with what
    they point to. *)
Lemma collected_closed : closed (boxes h').
Proof.
  pose proof (mutator_heap _ Hm) as Hok. pose proof (mutator_closed _ Hm) as Hc. cbn in Hok, Hc.
  intros a b' c Hb' Hin. destruct (boxes h !! a) as [b|] eqn:Hab; [|by rewrite (Hn a Hab) in Hb']. destruct (Hdec a) as [Ha|Ha].
  - rewrite (proj1 (Hb a b Hab) Ha) in Hb'. injection Hb' as <-. cbn in Hin. destruct (reached_fresh c) as (bc & Hbc & Hl).
    { apply (reach_extend _ _ a); [done|by exists b]. } exists bc. cbn. by rewrite Hl.
  - rewrite (proj2 (Hb a b Hab) Ha) in Hb'. destruct (0 <? lives b) eqn:Hl; [|done]. injection Hb' as <-. cbn in Hin |- *. apply Z.ltb_lt in Hl.
    destruct (Hc a b c Hab Hin) as (bc & Hbc & Hlc). pose proof (lives_fresh h a b Hok Hab). destruct (Hdec c) as [Hrc|Hrc].
    + rewrite (proj1 (Hb c bc Hbc) Hrc). eexists. split; [done|]. cbn. lia.
    + rewrite (proj2 (Hb c bc Hbc) Hrc), (proj2 (Z.ltb_lt _ _)) by lia. eexists. split; [done|]. cbn. lia.
Qed.

Lemma collected_ok hs' ss' : alloc_roots h' = alloc_roots h -> (forall a, a ∈ ss -> reached a) ->
  (forall a, a ∈ hs' -> a ∈ hs ++ ss /\ reached a) -> (forall a, a ∈ ss' -> a ∈ hs ++ ss) -> mutator_ok (mkMutator h' hs' ss').
Proof.
  intros Har Hss Hhs Hss'. split; cbn [heap held stale]; [done|apply collected_closed| | |].
  - intros a Ha. apply reached_fresh, Hhs, Ha.
  - intros a Ha. destruct (Hdec a) as [Hre|Hre]; [by apply fresh_in_dom, reached_fresh|]. apply elem_of_dom.
    apply Hss' in Ha as [Ha|Ha]%elem_of_app; [|by apply Hss in Ha]. destruct (mutator_held _ Hm a Ha) as (b & Hab & Hl). cbn in Hab.
    rewrite (proj2 (Hb a b Hab) Hre), Hl. by eexists.
  - rewrite Har. intros a Ha. apply fresh_in_dom, reached_fresh, reach_root. unfold all_roots, root_set. rewrite !elem_of_app. tauto.
Qed.

End Safepoint.

(** A safepoint always finishes, and what it leaves is in order. *)
Lemma safepoint_ok {E} stress roots active retired words h hs ss : mutator_ok (mkMutator h hs ss) ->
  roots_in_use (mkMutator h hs ss) roots active retired ->
  exists h', gc_safepoint (E := E) stress roots active retired words h = Ok h' /\
    (stress || gc_requested h = false -> h' = h) /\
    (stress || gc_requested h = true -> forall hs' ss',
      (forall a, a ∈ ss -> reach (boxes h) (all_roots roots (alloc_roots h) active retired words h) a) ->
      (forall a, a ∈ hs' -> a ∈ hs ++ ss /\ reach (boxes h) (all_roots roots (alloc_roots h) active retired words h) a) ->
      (forall a, a ∈ ss' -> a ∈ hs ++ ss) -> mutator_ok (mkMutator h' hs' ss')).
Proof.
  intros Hm Hu. unfold gc_safepoint. destruct (stress || gc_requested h); [|by exists h]. pose proof (mutator_heap _ Hm) as Hok.
  pose proof (safepoint_no_dangling roots active retired words h hs ss Hm Hu) as Hnd.
  destruct (collect_outcome (E := E) roots (alloc_roots h) active retired words (take_gc_request h) Hok Hnd) as (h' & Hc & Hok' & Har & Hdec & Hn & Hb).
  exists h'. split_and!; [done|done|]. intros _ hs' ss' H1 H2 H3.
  by apply (collected_ok roots active retired words h hs ss Hm Hu h' Hok' Hdec Hn Hb).
Qed.

(** ** Runs *)

Lemma mutate_ok {E} m m' : mutate (E := E) m m' -> mutator_ok m -> mutator_ok m'.
Proof.
  destruct 1 as [h hs ss a size cs|h hs ss a b c|h hs ss a b c|h hs ss a b cs|h hs ss hs' ss'|h hs ss n|h hs ss n
    |stress roots active retired words h h' hs ss hs' ss' Hu Hq Hg|stress roots active retired words h h' hs ss Hq Hg]; intros Hm.
  - by apply alloc_ok.
  - by apply (read_held_ok h hs ss a b).
  - by apply (read_stale_ok h hs ss a b).
  - by apply (write_ok h hs ss a b).
  - destruct Hm as [Hok Hc Hh Hs Hf]. split; cbn in *; auto.
  - by apply (shrink_ok h hs ss).
  - unfold truncate_thread_alloc_roots. destruct (n <? _)%nat; [by apply (shrink_ok h hs ss)|done].
  - destruct (safepoint_ok (E := E) stress roots active retired words h hs ss Hm Hu) as (h'' & Hg' & _ & Hs).
    assert (h'' = h') as -> by congruence. by apply Hs.
  - unfold gc_safepoint in Hg. rewrite Hq in Hg. by injection Hg as ->.
Qed.

(** C11: a program that starts with an empty heap, that keeps every box it holds
    reachable at every other collection at least, and that stores in a box only
    pointers that the last collection found reachable, or that the program has made
    since, or that the box holds already, never comes to a freed box: whatever it
    holds, and all that can be reached from it, is on the heap, and its next
    safepoint finishes and follows no dangling pointer, whatever the stack holds.
    The one collection a box may be missed by is its grace period; it does not
    extend to a box that a newer one comes to hold ([grace_is_per_box]), hence the
    condition on stores. *)
Theorem mutator_never_dangles {E} limit m : rtc (mutate (E := E)) (mkMutator (GcHeap_new limit) [] []) m ->
  no_dangling (boxes (heap m)) (held m ++ stale m ++ alloc_roots (heap m)) /\ heap_ok (heap m) /\
  forall stress roots active retired words, roots_in_use m roots active retired ->
    exists h', gc_safepoint (E := E) stress roots active retired words (heap m) = Ok h'.
Proof.
  intros Hrun. assert (Hm : mutator_ok m).
  { assert (Hkeep : forall x y, rtc (mutate (E := E)) x y -> mutator_ok x -> mutator_ok y).
    { intros x y Hxy. induction Hxy as [|x y z Hxy _ IH]; intros Hx; [done|]. by apply IH, (mutate_ok (E := E) x). }
    apply (Hkeep _ _ Hrun). split; cbn; [|intros a b c Hb; by rewrite lookup_empty in Hb|by intros a ?%elem_of_nil..].
    unfold heap_ok. cbn. split_and!; [constructor| |apply map_Forall_empty|done|done|done]. intros a. rewrite dom_empty. set_solver. }
  split_and!; [|apply Hm|].
  - apply closed_no_dangling; [apply Hm|]. intros a. rewrite !elem_of_app. intros [Ha|[Ha|Ha]]; [by apply fresh_in_dom, (mutator_held m Hm)|by apply (mutator_stale m Hm)|by apply (mutator_frames m Hm)].
  - intros stress roots active retired words Hu. destruct m as [h hs ss].
    destruct (safepoint_ok (E := E) stress roots active retired words h hs ss Hm Hu) as (h' & Hg & _). by exists h'.
Qed.

(** * Suppressed collections *)

Lemma next_headroom_bounds limit prev : 0 <= prev -> from_option (fun l => 0 <= l) True limit ->
  let l := default DEFAULT_SOFT_LIMIT limit in
  1 <= next_headroom limit prev <= Z.max (l / 4) (Z.max (l / 10) 1) /\ (prev = 0 -> next_headroom limit prev = Z.max (l / 10) 1).
Proof.
  intros Hp Hl l. unfold next_headroom. fold l. split; [|by intros ->]. destruct (prev =? 0) eqn:Hz; [lia|]. apply Z.eqb_neq in Hz. lia.
Qed.

Lemma sweep_zero {E} h h' M : sweep (E := E) h (mark_set (boxes h) M) = Ok h' -> total_freed h' = total_freed h ->
  gc_suppressed h' = true /\ suppressed_threshold h' = memory_in_use h' + zero_yield_headroom h' /\
  zero_yield_headroom h' = next_headroom (soft_limit h) (zero_yield_headroom h) /\ soft_limit h' = soft_limit h.
Proof.
  intros Hsw Hf. unfold sweep in Hsw. destruct (classify _ _ _ _ _) as [[[[bs live] dead] freed]| | |]; [|done..]. cbn [mbind outcome_bind] in Hsw.
  destruct (Z.of_nat (length dead) =? 0) eqn:Hz; injection Hsw as <-; cbn in *; [done|]. apply Z.eqb_neq in Hz. lia.
Qed.

(** After a collection that frees nothing, no allocation asks for another
    one until the heap has grown by the headroom, which is at least one byte, at
    least a tenth of the soft limit after the first such collection, and never
    more than a quarter of the limit (or a tenth, or one byte, where that is
    more); after that an allocation above the soft limit asks again. *)
Theorem suppression_bounded {E} roots headers active retired words h h' a size cs :
  heap_ok h -> no_dangling (boxes h) (all_roots roots headers active retired words h) ->
  0 <= zero_yield_headroom h -> from_option (fun l => 0 <= l) True (soft_limit h) ->
  collect_inner (E := E) roots headers active retired words h = Ok h' -> total_freed h' = total_freed h ->
  let limit := default DEFAULT_SOFT_LIMIT (soft_limit h) in
  let r := zero_yield_headroom h' in
  gc_suppressed h' = true /\ suppressed_threshold h' = memory_in_use h' + r /\
  1 <= r <= Z.max (limit / 4) (Z.max (limit / 10) 1) /\ (zero_yield_headroom h = 0 -> r = Z.max (limit / 10) 1) /\
  (size <= r -> gc_requested (alloc a size cs h') = gc_requested h') /\
  (r < size -> forall l, soft_limit h = Some l -> l < memory_in_use h' + size ->
    gc_requested (alloc a size cs h') = true /\ gc_suppressed (alloc a size cs h') = false).
Proof.
  intros Hok Hnd Hz Hlim Hc Hf. destruct (collect_marks (E := E) roots headers active retired words h Hok Hnd) as (M & Hcm & _).
  rewrite Hcm in Hc. apply sweep_zero in Hc as (Hs & Ht & Hr & Hsl); [|done]. cbv zeta. rewrite Ht, Hr, Hs.
  destruct (next_headroom_bounds (soft_limit h) (zero_yield_headroom h) Hz Hlim) as (H1 & H2).
  set (r := next_headroom (soft_limit h) (zero_yield_headroom h)) in *. split_and!; [done|done|lia|lia|by intros Hp; apply H2| |].
  - intros Hsz. unfold alloc, pressure. rewrite Hsl, Hs, Ht, Hr. fold r. destruct (soft_limit h); [|done].
    destruct (soft_limit_exceeded _ _); [|done]. by rewrite (proj2 (Z.ltb_ge _ _)) by lia.
  - intros Hsz l Hl Hgt. unfold alloc, pressure. rewrite Hsl, Hs, Ht, Hr, Hl. fold r. unfold soft_limit_exceeded.
    rewrite (proj2 (Z.ltb_lt l _)) by lia. by rewrite (proj2 (Z.ltb_lt _ _)) by lia.
Qed.

Abbreviation Out := (outcome unit).

(** Box 8 points to box 16, and box 24 points to box 8 and into a region. *)
Definition pair_heap : GcHeap := alloc 24 40 [8; from_region_raw 4096] (alloc 8 40 [16] (alloc 16 32 [] (GcHeap_new (Some 100)))).

Lemma pair_heap_run {E} : rtc (mutate (E := E)) (mkMutator (GcHeap_new (Some 100)) [] []) (mkMutator pair_heap [24; 8; 16] []).
Proof.
  eapply rtc_l; [apply (mutate_alloc _ [] [] 16 32 []); [refine (bool_decide_unpack _ _); vm_compute; exact I|by intros c ?%elem_of_nil]|].
  eapply rtc_l; [apply (mutate_alloc _ [16] [] 8 40 [16]); [refine (bool_decide_unpack _ _); vm_compute; exact I|done]|].
  eapply rtc_l; [apply (mutate_alloc _ [8; 16] [] 24 40 [8; from_region_raw 4096])|apply rtc_refl].
  - refine (bool_decide_unpack _ _). vm_compute. exact I.
  - intros c Hc. change (c ∈ [8]) in Hc. apply list_elem_of_singleton in Hc as ->. apply elem_of_cons. by left.
Qed.

Lemma pair_heap_ok : heap_ok pair_heap.
Proof.
  repeat (apply heap_ok_alloc; [|refine (bool_decide_unpack _ _); vm_compute; exact I]).
  unfold heap_ok. cbn. split_and!; [constructor| |apply map_Forall_empty|done|done|done]. intros a. rewrite dom_empty. set_solver.
Qed.

Lemma pair_heap_closed : closed (boxes pair_heap).
Proof.
  intros a b c Hb Hc. change (boxes pair_heap) with (<[24 := mkBox 40 1 [8; 4097]]> (<[8 := mkBox 40 1 [16]]> (<[16 := mkBox 32 1 []]> (∅ : Boxes)))) in *.
  rewrite !lookup_insert_Some, lookup_empty in Hb.
  destruct Hb as [[<- <-]|[? [[<- <-]|[? [[<- <-]|[? ?]]]]]]; [| | |done].
  - change (c ∈ [8]) in Hc. apply list_elem_of_singleton in Hc as ->. by eexists.
  - change (c ∈ [16]) in Hc. apply list_elem_of_singleton in Hc as ->. by eexists.
  - by apply elem_of_nil in Hc.
Qed.

Lemma pair_heap_no_dangling rs : Forall (fun a => a ∈ dom (boxes pair_heap)) rs -> no_dangling (boxes pair_heap) rs.
Proof. intros H. apply closed_no_dangling; [apply pair_heap_closed|]. by apply Forall_forall. Qed.

(** Collected with box 8 as the root, box 24 goes into its grace period and is
    freed by the next collection; boxes 8 and 16 stay. *)
Definition order_of (o : Out GcHeap) : option (list Addr * Z * Z) :=
  match o with Ok h => Some (order h, total_freed h, memory_in_use h) | _ => None end.

Example pair_collected_once : order_of (collect [8] [] [] pair_heap) = Some ([16; 8; 24], 0, 112).
Proof. vm_compute. reflexivity. Qed.

Example pair_collected_twice : order_of (h ← collect [8] [] [] pair_heap; collect [8] [] [] h) = Some ([8; 16], 1, 72).
Proof. vm_compute. reflexivity. Qed.

(** A word of the stack keeps box 24. *)
Example pair_scanned : order_of (h ← collect [8] [] [] pair_heap; collect_inner [8] [] [] [] (Some [7; 24; 25]) h) = Some ([24; 8; 16], 0, 112).
Proof. vm_compute. reflexivity. Qed.

(** So does a region that points to it, but not a pointer into a region. *)
Example pair_regions : order_of (h ← collect [] [] [] pair_heap; collect [from_region_raw 24] [[[16]]] [] h) = Some ([16], 2, 32).
Proof. vm_compute. reflexivity. Qed.

Lemma collection_exact_witness : exists h', collect_inner (E := unit) [8] [] [] [] None pair_heap = Ok h' /\ heap_ok h' /\
  boxes h' !! 16 = Some (mkBox 32 1 []).
Proof.
  destruct (collection_exact (E := unit) [8] [] [] [] None pair_heap pair_heap_ok) as (h' & Hc & Hok & _ & Hb).
  { apply pair_heap_no_dangling. refine (bool_decide_unpack _ _). vm_compute. exact I. }
  exists h'. split_and!; [done|done|]. apply (Hb 16 (mkBox 32 1 [])); [reflexivity|].
  exists 8. split; [by apply elem_of_cons; left|]. apply rtc_once. exists (mkBox 40 1 [16]). split; [reflexivity|]. by apply elem_of_cons; left.
Defined.

Lemma garbage_is_freed_witness : exists h1 h2, collect (E := unit) [] [] [] pair_heap = Ok h1 /\ boxes h1 !! 24 = Some (mkBox 40 0 [8; 4097]) /\
  collect (E := unit) [] [] [] h1 = Ok h2 /\ boxes h2 !! 24 = None.
Proof.
  assert (Hno : forall bs a, ~ reach bs [] a) by (intros bs a (r & Hr & _); by apply elem_of_nil in Hr).
  assert (Hnd : forall bs, no_dangling bs []) by (intros bs a Ha; by apply Hno in Ha).
  destruct (collect (E := unit) [] [] [] pair_heap) as [h1| | |] eqn:Hc1; [|vm_compute in Hc1; discriminate..].
  destruct (garbage_is_freed (E := unit) [] [] [] [] [] [] pair_heap h1 24 pair_heap_ok (Hnd _) Hc1 (Hno _ _) (Hnd _) (Hno _ _)) as (h2 & Hc2 & Hb2).
  exists h1, h2. split_and!; [done| |done|done].
  assert (Hall : (h ← collect (E := unit) [] [] [] pair_heap; Ok (boxes h !! 24)) = Ok (Some (mkBox 40 0 [8; 4097]))) by (vm_compute; reflexivity).
  rewrite Hc1 in Hall. by injection Hall.
Defined.

(** A run that drops box 24 and forgets box 8 over a collection, which it then
    holds again. *)
Lemma mutator_never_dangles_witness : exists h', gc_safepoint (E := unit) true [8] [] [] None
  (match gc_safepoint (E := unit) true [] [] [] None (drop_alloc_frame 0 pair_heap) with Ok h => h | _ => pair_heap end) = Ok h'.
Proof.
  set (h1 := drop_alloc_frame 0 pair_heap).
  destruct (gc_safepoint (E := unit) true [] [] [] None h1) as [h2| | |] eqn:Hg; [|vm_compute in Hg; discriminate..].
  refine (proj2 (proj2 (mutator_never_dangles (E := unit) (Some 100) (mkMutator h2 [] [8]) _)) true [8] [] [] None _).
  - transitivity (mkMutator pair_heap [24; 8; 16] []); [apply pair_heap_run|]. eapply rtc_l; [apply (mutate_leave_frame _ _ _ 0)|]. fold h1.
    eapply rtc_l; [|apply rtc_refl]. apply (mutate_safepoint true [] [] [] None h1 h2 [24; 8; 16] [] [] [8]); [|done|done| | |].
    + intros a Ha. by apply elem_of_nil in Ha.
    + intros a Ha. by apply elem_of_nil in Ha.
    + intros a Ha. by apply elem_of_nil in Ha.
    + intros a ->%list_elem_of_singleton. apply elem_of_cons. right. apply elem_of_cons. by left.
  - intros a Ha. exact Ha.
Defined.

(** What the grace period does not cover: box 8 is missed by two collections, the
    second of which its holder, the newer box 24, is missed by for the first
    time.  Box 24 is then still on the heap, and box 8 is not. *)
Example grace_is_per_box :
  (h ← collect (E := unit) [] [] [] (alloc 8 32 [] (GcHeap_new None)); h ← collect [] [] [] (alloc 24 32 [8] h); Ok (boxes h)) =
  Ok {[24 := mkBox 32 0 [8]]}.
Proof. vm_compute. reflexivity. Qed.

Lemma suppression_bounded_witness : exists h', collect_inner (E := unit) [8] [] [] [] None pair_heap = Ok h' /\
  zero_yield_headroom h' = 10 /\ gc_requested (alloc 32 11 [] (take_gc_request h')) = true.
Proof.
  destruct (collect_inner (E := unit) [8] [] [] [] None pair_heap) as [h'| | |] eqn:Hc; [|vm_compute in Hc; discriminate..].
  assert (Hf : total_freed h' = 0).
  { assert (Hall : (h ← collect_inner (E := unit) [8] [] [] [] None pair_heap; Ok (total_freed h)) = Ok 0) by (vm_compute; reflexivity).
    rewrite Hc in Hall. by injection Hall. }
  destruct (suppression_bounded (E := unit) [8] [] [] [] None pair_heap h' 32 11 [] pair_heap_ok) as (_ & _ & _ & H10 & _); [|done|done|done|done|].
  { apply pair_heap_no_dangling. refine (bool_decide_unpack _ _). vm_compute. exact I. }
  exists h'. split_and!; [done|by apply H10|].
  assert (Hall : (h ← collect_inner (E := unit) [8] [] [] [] None pair_heap; Ok (gc_requested (alloc 32 11 [] (take_gc_request h)))) = Ok true)
    by (vm_compute; reflexivity).
  rewrite Hc in Hall. by injection Hall.
Defined.
