(* ===== verification/Region.v ===== *)
(** Bump regions (crates/cljrs-gc/src/region.rs) and the stack of open regions of
    a thread, with the regions of compiled code (crates/cljrs-compiler/src/rt_abi.rs).

    A region hands out addresses of its last chunk one after the other.  The base
    of a new chunk comes from the allocator of the system, an argument of the
    operations that may ask for one.  The contents of an object are the pointers
    its [trace] function visits.  A region that was given a limit fails with
    [RegionLimitExceeded], an unwinding panic in the code, which leaves the
    region as it then is. *)
From stdpp Require Import base list.
From S2P Require Import Prelude RustStd Gc.
Local Open Scope Z_scope.

Definition DEFAULT_CHUNK_SIZE : Z := 4096.
Definition USIZE_MAX : Z := 2 ^ 64 - 1.
Definition saturating_add (a b : Z) : Z := Z.min (a + b) USIZE_MAX.
Definition saturating_sub (a b : Z) : Z := Z.max (a - b) 0.

Record Layout : Type := mkLayout { size : Z; align : Z }.

Record RegionLimitExceeded : Type := mkLimitExceeded { limit : Z; used : Z; requested : Z }.

Record Chunk : Type := mkChunk { data : Addr; chunk_size : Z }.

(** A drop entry, with the layout and the contents of the object it drops. *)
Record DropEntry : Type := mkEntry { entry_ptr : Addr; entry_layout : Layout; entry_children : list Z }.

Record Region : Type := mkRegion {
  chunks : list Chunk;
  ptr : Addr;
  end_ : Addr;
  drops : list DropEntry;
  bytes_used : Z;
  accounted_bytes : Z;
  byte_limit : option Z;
  object_count : Z
}.

Definition with_capacity (base cap : Z) : Region :=
  let cap := Z.max cap 64 in
  mkRegion [mkChunk base cap] base (base + cap) [] 0 0 None 0.

Definition Region_new (base : Z) : Region := with_capacity base DEFAULT_CHUNK_SIZE.

Definition with_limit {E} (base lim : Z) : outcome E Region :=
  if 64 <=? lim then Ok (mkRegion [mkChunk base lim] base (base + lim) [] 0 0 (Some lim) 0) else Panic.

(** * Allocation *)

(** The next multiple of a power of two. *)
Definition align_up (p a : Z) : Z := Z.land (p + a - 1) (Z.lnot (a - 1)).

Definition with_accounted (n : Z) (r : Region) : Region :=
  mkRegion (chunks r) (ptr r) (end_ r) (drops r) (bytes_used r) n (byte_limit r) (object_count r).

Definition charge (req : Z) (r : Region) : Region * option RegionLimitExceeded :=
  let charged := with_accounted (saturating_add (accounted_bytes r) req) r in
  match byte_limit r with
  | Some lim =>
      if lim <? saturating_add (accounted_bytes r) req then (r, Some (mkLimitExceeded lim (accounted_bytes r) req)) else (charged, None)
  | None => (charged, None)
  end.

Definition grow_and_alloc (base : Addr) (l : Layout) (r : Region) : Region * (Addr + RegionLimitExceeded) :=
  match byte_limit r with
  | Some lim => (r, inr (mkLimitExceeded lim (saturating_sub (accounted_bytes r) (size l)) (size l)))
  | None =>
      let csize := Z.max DEFAULT_CHUNK_SIZE (size l * 2) in
      let aligned := align_up base (align l) in
      (mkRegion (chunks r ++ [mkChunk base csize]) (aligned + size l) (base + csize) (drops r) (bytes_used r + size l) (accounted_bytes r)
         (byte_limit r) (object_count r), inl aligned)
  end.

Definition bump_alloc (base : Addr) (l : Layout) (r : Region) : Region * (Addr + RegionLimitExceeded) :=
  let aligned := align_up (ptr r) (align l) in
  let new_ptr := aligned + size l in
  if new_ptr <=? end_ r then
    (mkRegion (chunks r) new_ptr (end_ r) (drops r) (bytes_used r + size l) (accounted_bytes r) (byte_limit r) (object_count r), inl aligned)
  else grow_and_alloc base l r.

(** [extra] is what the value owns out of line; [cs] are its pointers. *)
Definition Region_alloc (base : Addr) (l : Layout) (extra : Z) (cs : list Z) (r : Region) : Region * (Z + RegionLimitExceeded) :=
  match charge (saturating_add (size l) extra) r with
  | (r1, Some e) => (r1, inr e)
  | (r1, None) =>
      match bump_alloc base l r1 with
      | (r2, inr e) => (r2, inr e)
      | (r2, inl a) =>
          (mkRegion (chunks r2) (ptr r2) (end_ r2) (drops r2 ++ [mkEntry a l cs]) (bytes_used r2) (accounted_bytes r2) (byte_limit r2)
             (object_count r2 + 1), inl (from_region_raw a))
      end
  end.

(** The objects a region traces, in allocation order. *)
Definition trace_live (r : Region) : list (list Z) := map entry_children (drops r).

(** The entries in the order they are dropped, and the empty region. *)
Definition reset (r : Region) : Region * list DropEntry :=
  let first := take 1 (chunks r) in
  let '(p, e) := match first with c :: _ => (data c, data c + chunk_size c) | [] => (ptr r, end_ r) end in
  (mkRegion first p e [] 0 0 (byte_limit r) 0, reverse (drops r)).

(** Dropping a region drops its objects and frees every chunk. *)
Definition drop_region (r : Region) : list DropEntry * list Chunk := (reverse (drops r), chunks r).

(** * Open regions *)

(** The open regions of a thread, the innermost first, named by their identity;
    the retired ones; and the poison watermark. *)
Record Regions : Type := mkRegions {
  region_stack : list nat;
  retired_regions : list nat;
  dropped_regions : list nat;
  poison_watermark : nat
}.

Definition region_stack_depth (s : Regions) : nat := length (region_stack s).
Definition region_is_active (s : Regions) : bool := match region_stack s with [] => false | _ => true end.

Definition push_region_raw (r : nat) (s : Regions) : Regions :=
  mkRegions (r :: region_stack s) (retired_regions s) (dropped_regions s) (poison_watermark s).

Definition pop_region_guard (s : Regions) : Regions :=
  mkRegions (tail (region_stack s)) (retired_regions s) (dropped_regions s) (poison_watermark s).

Definition poison_active_regions (s : Regions) : Regions :=
  let depth := region_stack_depth s in
  match depth with
  | O => s
  | _ => mkRegions (region_stack s) (retired_regions s) (dropped_regions s) (Nat.max (poison_watermark s) depth)
  end.

Definition close_region (r : nat) (s : Regions) : Regions :=
  let depth := region_stack_depth s in
  let s := pop_region_guard s in
  if negb (depth =? 0)%nat && (depth <=? poison_watermark s)%nat then
    mkRegions (region_stack s) (r :: retired_regions s) (dropped_regions s) (depth - 1)
  else mkRegions (region_stack s) (retired_regions s) (r :: dropped_regions s) (poison_watermark s).

(** Pops entries until [target] are left; the regions are not closed. *)
Definition unwind_region_stack_to (target : nat) (s : Regions) : Regions :=
  mkRegions (drop (region_stack_depth s - target) (region_stack s)) (retired_regions s) (dropped_regions s) (poison_watermark s).

(** ** Regions of compiled code *)

(** Its own stack of regions, beside the stack of the thread. *)
Record RtRegions : Type := mkRt { rt_region_stack : list nat; rt_gc : Regions }.

Definition rt_region_start (r : nat) (s : RtRegions) : RtRegions := mkRt (r :: rt_region_stack s) (push_region_raw r (rt_gc s)).

(** The handle is checked in debug builds only. *)
Definition rt_region_end (s : RtRegions) : RtRegions :=
  match rt_region_stack s with
  | [] => s
  | r :: st => mkRt st (close_region r (rt_gc s))
  end.

Fixpoint unwind_rt (st : list nat) (rt_depth : nat) (g : Regions) : RtRegions :=
  match st with
  | [] => mkRt [] g
  | r :: st' => if (rt_depth <? length st)%nat then unwind_rt st' rt_depth (close_region r g) else mkRt st g
  end.

Definition unwind_regions_to (gc_depth rt_depth : nat) (s : RtRegions) : RtRegions :=
  let s' := unwind_rt (rt_region_stack s) rt_depth (rt_gc s) in
  mkRt (rt_region_stack s') (unwind_region_stack_to gc_depth (rt_gc s')).

Definition unwind_all_native_regions (s : RtRegions) : RtRegions := unwind_rt (rt_region_stack s) 0 (rt_gc s).
