(* ===== verification/RegionSpec.v ===== *)
(** Bump regions hand out memory that is theirs, aligned and not in use, within
    their limit; and the poison watermark of the open regions implements a flag
    per region. *)
From stdpp Require Import base list.
From S2P Require Import Prelude RustStd Gc Region.
Local Open Scope Z_scope.

(** * Addresses *)

Definition power_of_two (a : Z) : Prop := exists k, 1 <= k /\ a = 2 ^ k.

(** The layout of a boxed value: not empty, and aligned to more than a byte. *)
Definition layout_ok (l : Layout) : Prop := 0 < size l /\ power_of_two (align l).

Lemma align_up_spec p k : 0 <= k -> let q := align_up p (2 ^ k) in p <= q < p + 2 ^ k /\ q mod 2 ^ k = 0.
Proof.
  intros Hk. cbv zeta. pose proof (Z.pow_pos_nonneg 2 k ltac:(lia) Hk) as Hpos.
  assert (Hq : align_up p (2 ^ k) = (p + 2 ^ k - 1) / 2 ^ k * 2 ^ k).
  { unfold align_up. rewrite <- Z.shiftl_mul_pow2, <- Z.shiftr_div_pow2, <- Z.ldiff_ones_r, Z.ones_equiv, Z.ldiff_land, <- (Z.sub_1_r (2 ^ k)) by lia. done. }
  rewrite Hq, Z.mod_mul by lia. split; [|done]. pose proof (Z.div_mod (p + 2 ^ k - 1) (2 ^ k)). pose proof (Z.mod_pos_bound (p + 2 ^ k - 1) (2 ^ k)). lia.
Qed.

Lemma align_up_aligned p k : 0 <= k -> p mod 2 ^ k = 0 -> align_up p (2 ^ k) = p.
Proof.
  intros Hk Hp. destruct (align_up_spec p k Hk) as [Hb Hm]. cbv zeta in *. pose proof (Z.pow_pos_nonneg 2 k ltac:(lia) Hk).
  apply Z.mod_divide in Hp as [x Hx]; [|lia]. apply Z.mod_divide in Hm as [y Hy]; [|lia]. rewrite Hy in *. clear Hy. subst p. generalize dependent (2 ^ k). intros m Hb Hm. assert (x = y) by nia. by subst.
Qed.

Lemma even_land_1 a : a mod 2 = 0 -> Z.land a 1 = 0.
Proof. intros Ha. change 1 with (Z.ones 1). by rewrite Z.land_ones by lia. Qed.

Lemma even_bit0 a : a mod 2 = 0 -> Z.testbit a 0 = false.
Proof. intros Ha. rewrite Z.bit0_odd, Zodd_mod, Ha. done. Qed.

(** A tagged address is told from an address of the heap, and the tag comes off. *)
Lemma tagged a : a mod 2 = 0 -> is_region_alloc (from_region_raw a) = true /\ raw (from_region_raw a) = a /\ is_region_alloc a = false.
Proof.
  intros Ha. pose proof (even_bit0 a Ha) as H0. unfold is_region_alloc, from_region_raw, raw, REGION_PTR_TAG. split_and!.
  - rewrite Z.land_lor_distr_l, (even_land_1 a Ha). done.
  - apply Z.bits_inj'. intros n Hn. rewrite Z.land_spec, Z.lor_spec, Z.lnot_spec by done. destruct (decide (n = 0)) as [->|Hne]; [by rewrite H0|].
    change 1 with (Z.ones 1). rewrite Z.ones_spec_high by lia. by rewrite orb_false_r, andb_true_r.
  - by rewrite (even_land_1 a Ha).
Qed.

(** * Regions *)

Definition inside (c : Chunk) (a n : Z) : Prop := data c <= a /\ a + n <= data c + chunk_size c.
Definition disjoint (a n b m : Z) : Prop := a + n <= b \/ b + m <= a.
Definition chunk_apart (c d : Chunk) : Prop := disjoint (data c) (chunk_size c) (data d) (chunk_size d).

Definition entry_ok (c : Chunk) (e : DropEntry) : Prop :=
  layout_ok (entry_layout e) /\ entry_ptr e mod align (entry_layout e) = 0 /\ inside c (entry_ptr e) (size (entry_layout e)).

Definition entries_apart (e f : DropEntry) : Prop := disjoint (entry_ptr e) (size (entry_layout e)) (entry_ptr f) (size (entry_layout f)).

(** Every object is aligned, lies in a chunk and shares no byte with another one;
    the free part of the last chunk holds none; the counters are exact; and a
    region with a limit has one chunk and is charged no more than its limit. *)
Record region_ok (r : Region) : Prop := mkRegionOk {
  region_last : exists cs c, chunks r = cs ++ [c] /\ data c <= ptr r <= end_ r /\ end_ r = data c + chunk_size c /\
    Forall (fun e => Exists (fun d => entry_ok d e) cs \/ entry_ok c e /\ entry_ptr e + size (entry_layout e) <= ptr r) (drops r) /\
    Forall (chunk_apart c) cs;
  region_apart : ForallOrdPairs entries_apart (drops r);
  region_count : object_count r = Z.of_nat (length (drops r));
  region_bytes : bytes_used r = foldr (fun e n => size (entry_layout e) + n) 0 (drops r);
  region_limit : from_option (fun lim => length (chunks r) = 1%nat /\ accounted_bytes r <= lim) True (byte_limit r)
}.

(** What the allocator of the system promises of a new chunk. *)
Definition fresh_chunk (base : Addr) (l : Layout) (r : Region) : Prop :=
  base mod Z.max (align l) 16 = 0 /\ Forall (chunk_apart (mkChunk base (Z.max DEFAULT_CHUNK_SIZE (size l * 2)))) (chunks r).

Lemma ForallOrdPairs_snoc {A} (R : A -> A -> Prop) l x : ForallOrdPairs R l -> Forall (fun y => R y x) l -> ForallOrdPairs R (l ++ [x]).
Proof.
  induction 1 as [|y l Hy _ IH]; intros Hx; cbn; [repeat constructor|]. apply Forall_cons in Hx as [Hyx Hx].
  constructor; [|by apply IH]. by apply Forall_app_2; [|constructor].
Qed.

Lemma entry_apart_chunk c d e f : chunk_apart c d -> entry_ok d e -> entry_ok c f -> entries_apart e f.
Proof. unfold chunk_apart, entry_ok, inside, entries_apart, disjoint, layout_ok. lia. Qed.

Lemma foldr_sizes_snoc l e : foldr (fun e n => size (entry_layout e) + n) 0 (l ++ [e]) = foldr (fun e n => size (entry_layout e) + n) 0 l + size (entry_layout e).
Proof. induction l as [|x l IH]; cbn in *; lia. Qed.

(** Space for one more object: the state after a successful bump. *)
Definition bumped (r r' : Region) (a : Addr) (l : Layout) : Prop :=
  drops r' = drops r /\ object_count r' = object_count r /\ bytes_used r' = bytes_used r + size l /\
  accounted_bytes r' = accounted_bytes r /\ byte_limit r' = byte_limit r.

Definition push_entry (e : DropEntry) (r : Region) : Region :=
  mkRegion (chunks r) (ptr r) (end_ r) (drops r ++ [e]) (bytes_used r) (accounted_bytes r) (byte_limit r) (object_count r + 1).

(** An object in the free part of the last chunk is apart from all others. *)
Lemma push_ok r r' a l cs0 : region_ok r -> bumped r r' a l -> layout_ok l ->
  (exists cs c, chunks r' = cs ++ [c] /\ data c <= ptr r' <= end_ r' /\ end_ r' = data c + chunk_size c /\
    Forall (fun e => Exists (fun d => entry_ok d e) cs \/ entry_ok c e /\ entry_ptr e + size (entry_layout e) <= a) (drops r) /\
    Forall (chunk_apart c) cs /\ entry_ok c (mkEntry a l cs0) /\ a + size l = ptr r') ->
  from_option (fun lim => length (chunks r') = 1%nat /\ accounted_bytes r' <= lim) True (byte_limit r') ->
  region_ok (push_entry (mkEntry a l cs0) r') /\ Forall (fun e => entries_apart e (mkEntry a l cs0)) (drops r).
Proof.
  intros Hr (Hd & Ho & Hb & Ha & Hl) Hlay (cs & c & Hcs & Hp & He & Hin & Hap & Hnew & Hend) Hlim.
  assert (Hapart : Forall (fun e => entries_apart e (mkEntry a l cs0)) (drops r)).
  { eapply Forall_impl; [exact Hin|]. intros e [Hex|[Hok Hle]]; cbn.
    - apply Exists_exists in Hex as (d & Hdc & Hd'). eapply (entry_apart_chunk c d); [|done|done]. exact (proj1 (Forall_forall _ _) Hap d Hdc).
    - left. exact Hle. }
  split; [|done]. destruct Hr as [_ Hpair Hcnt Hbytes _]. split; cbn [push_entry chunks ptr end_ drops bytes_used accounted_bytes byte_limit object_count].
  - exists cs, c. split_and!; [done|lia|lia|done| |done]. rewrite Hd. apply Forall_app_2.
    + eapply Forall_impl; [exact Hin|]. intros e [Hex|[Hok Hle]]; [by left|right]. split; [done|]. destruct Hlay. lia.
    + constructor; [|constructor]. right. split; [done|]. cbn. lia.
  - rewrite Hd. by apply ForallOrdPairs_snoc.
  - rewrite Hd, length_app. cbn. lia.
  - rewrite Hd, foldr_sizes_snoc. cbn. lia.
  - done.
Qed.

Lemma bump_alloc_ok base l r cs0 : region_ok r -> layout_ok l -> fresh_chunk base l r ->
  match bump_alloc base l r with
  | (r', inl a) => region_ok (push_entry (mkEntry a l cs0) r') /\ Forall (fun e => entries_apart e (mkEntry a l cs0)) (drops r) /\
      bumped r r' a l /\ a mod align l = 0
  | (r', inr e) => r' = r /\ exists lim, byte_limit r = Some lim /\ e = mkLimitExceeded lim (saturating_sub (accounted_bytes r) (size l)) (size l)
  end.
Proof.
  intros Hr Hl [Hbase Hfr]. pose proof Hl as [Hsz (k & Hk & Hal)]. pose proof (region_last r Hr) as (cs & c & Hcs & Hp & He & Hin & Hap).
  unfold bump_alloc. rewrite Hal. destruct (align_up_spec (ptr r) k) as [Hb Hm]; [lia|]. cbv zeta in Hb, Hm. destruct (_ <=? end_ r) eqn:Hle.
  - apply Z.leb_le in Hle. set (a := align_up (ptr r) (2 ^ k)) in *.
    set (r' := mkRegion _ _ _ _ _ _ _ _). assert (Hbd : bumped r r' a l) by done.
    destruct (push_ok r r' a l cs0 Hr Hbd Hl) as [H1 H2]; [|apply (region_limit r Hr)|by rewrite <- Hal in Hm |- *].
    exists cs, c. cbn [r' chunks ptr end_]. split_and!; [done|lia|lia|done| |done| |lia].
    + eapply Forall_impl; [exact Hin|]. intros e [Hex|[Hok Hle']]; [by left|right; split; [done|lia]].
    + split_and!; cbn; [done|by rewrite Hal|]. unfold inside. lia.
  - unfold grow_and_alloc. destruct (byte_limit r) as [lim|] eqn:Hlim; [by split; [|exists lim]|]. rewrite Hal.
    assert (Hbm : base mod 2 ^ k = 0).
    { rewrite Hal in Hbase. apply Z.mod_divide in Hbase as [x Hx]; [|lia]. destruct (Z.max_spec (2 ^ k) 16) as [[Hlt Hmx]|[Hge Hmx]]; rewrite Hmx in Hx.
      - assert (Hk4 : k <= 4) by (apply (Z.pow_le_mono_r_iff 2); lia). replace 16 with (2 ^ (4 - k) * 2 ^ k) in Hx by (rewrite <- Z.pow_add_r by lia; by replace (4 - k + k) with 4 by lia).
        rewrite Hx, Z.mul_assoc. by apply Z.mod_mul; lia.
      - rewrite Hx. apply Z.mod_mul. lia. }
    rewrite (align_up_aligned base k) by (done || lia). set (r' := mkRegion _ _ _ _ _ _ _ _).
    assert (Hbd : bumped r r' base l) by (unfold bumped; cbn; by rewrite Hlim).
    destruct (push_ok r r' base l cs0 Hr Hbd Hl) as [H1 H2]; [|by cbn|done].
    exists (chunks r), (mkChunk base (Z.max DEFAULT_CHUNK_SIZE (size l * 2))). cbn [r' chunks ptr end_ data chunk_size]. split_and!; [done|lia|lia|done| |done| |done].
    + eapply Forall_impl; [exact Hin|]. intros e [Hex|[Hok _]]; left; rewrite Hcs; [by apply Exists_app; left|]. apply Exists_app. right. by constructor.
    + split_and!; cbn; [done|by rewrite Hal|]. unfold inside. cbn. lia.
Qed.

Lemma charge_ok req r : region_ok r ->
  match charge req r with
  | (r', Some e) => r' = r /\ exists lim, byte_limit r = Some lim /\ lim < saturating_add (accounted_bytes r) req /\ e = mkLimitExceeded lim (accounted_bytes r) req
  | (r', None) => region_ok r' /\ r' = with_accounted (saturating_add (accounted_bytes r) req) r
  end.
Proof.
  intros [Hlast Hpair Hcnt Hbytes Hlim]. unfold charge. destruct (byte_limit r) as [lim|] eqn:Hl.
  - destruct (lim <? _) eqn:Hlt; [split; [done|]; exists lim; split_and!; [done|by apply Z.ltb_lt|done]|].
    apply Z.ltb_ge in Hlt. split; [|done]. split; cbn; try done. rewrite Hl. cbn. by destruct Hlim.
  - split; [|done]. split; cbn; try done. by rewrite Hl.
Qed.

(** * Allocation *)

(** C36: an allocation in a region returns a pointer that is tagged as the region's
    and leads to memory that is aligned, lies in one of its chunks and is shared
    with no object allocated before; the objects before it stay, and the
    collector will trace the new one's contents.  It fails only in a region with
    a limit, when the charge of the object exceeds the limit or its only chunk is
    full, and then changes nothing but the charge; the charge never exceeds the
    limit. *)
Theorem region_alloc_safe base l extra cs r : region_ok r -> layout_ok l -> fresh_chunk base l r ->
  match Region_alloc base l extra cs r with
  | (r', inl p) => region_ok r' /\ is_region_alloc p = true /\ drops r' = drops r ++ [mkEntry (raw p) l cs] /\
      raw p mod align l = 0 /\ Exists (fun c => inside c (raw p) (size l)) (chunks r') /\
      Forall (fun e => disjoint (entry_ptr e) (size (entry_layout e)) (raw p) (size l)) (drops r) /\
      trace_live r' = trace_live r ++ [cs]
  | (r', inr e) => region_ok r' /\ (exists lim, byte_limit r = Some lim /\ limit e = lim) /\ drops r' = drops r /\ chunks r' = chunks r /\ ptr r' = ptr r
  end.
Proof.
  intros Hr Hl Hf. unfold Region_alloc. pose proof (charge_ok (saturating_add (size l) extra) r Hr) as Hch.
  destruct (charge _ r) as [r1 [e|]]; [destruct Hch as (-> & lim & Hlim & _ & ->); split_and!; try done; by exists lim|].
  destruct Hch as [Hr1 Heq]. assert (Hf1 : fresh_chunk base l r1) by (by rewrite Heq). pose proof (bump_alloc_ok base l r1 cs Hr1 Hl Hf1) as Hb.
  assert (Hd1 : drops r1 = drops r) by (by rewrite Heq).
  destruct (bump_alloc base l r1) as [r2 [a|e]].
  - destruct Hb as (Hok & Hap & (Hd2 & _) & Hm). destruct Hl as [Hsz (k & Hk & Hal)].
    assert (Hev : a mod 2 = 0).
    { rewrite Hal in Hm. apply Z.mod_divide in Hm as [x ->]; [|apply Z.pow_nonzero; lia]. replace k with (k - 1 + 1) by lia.
      rewrite Z.pow_add_r, Z.mul_assoc by lia. apply Z.mod_mul. lia. }
    destruct (tagged a Hev) as (Ht & Hraw & _). rewrite Hraw. split_and!; [exact Hok|done|cbn; by rewrite Hd2, Hd1|done| |by rewrite Hd1 in Hap|].
    + destruct (region_last _ Hok) as (cs' & c & Hcs & _ & _ & Hin & _). cbn [push_entry chunks drops] in *. rewrite Hcs.
      apply Forall_app in Hin as [_ Hin]. apply Forall_cons in Hin as [Hin _]. apply Exists_app. destruct Hin as [Hex|[Hok' _]].
      * left. eapply Exists_impl; [exact Hex|]. by intros d (_ & _ & ?).
      * right. constructor. apply Hok'.
    + unfold trace_live. cbn. by rewrite map_app, Hd2, Hd1.
  - destruct Hb as (-> & lim & Hlim & ->). rewrite Heq in *. cbn in *. split_and!; try done. by exists lim.
Qed.

(** A new region and a reset one are empty and in order. *)
Lemma with_capacity_ok base cap : 0 <= cap -> region_ok (with_capacity base cap).
Proof.
  intros Hc. split; cbn; [|constructor|done|done|done]. exists [], (mkChunk base (Z.max cap 64)). cbn. split_and!; [done|lia|lia|done|constructor|constructor].
Qed.

Lemma with_limit_ok {E} base lim r : with_limit (E := E) base lim = Ok r -> region_ok r.
Proof.
  unfold with_limit. destruct (64 <=? lim) eqn:Hl; [|done]. apply Z.leb_le in Hl. intros H. injection H as <-.
  split; cbn; [|constructor|done|done|split; [done|lia]]. exists [], (mkChunk base lim). cbn. split_and!; [done|lia|lia|done|constructor|constructor].
Qed.

Lemma reset_ok r : region_ok r -> Forall (fun c => 0 <= chunk_size c) (chunks r) -> from_option (fun lim => 0 <= lim) True (byte_limit r) ->
  region_ok (reset r).1 /\ drops (reset r).1 = [] /\ (reset r).2 = reverse (drops r).
Proof.
  intros [(cs & c & Hcs & _) _ _ _ Hlim] Hsz Hl. unfold reset. destruct (chunks r) as [|d ds] eqn:Hch; [by destruct cs|].
  apply Forall_cons in Hsz as [Hd _]. cbn [take]. split_and!; [|done|done]. split; cbn; [|constructor|done|done|].
  - exists [], d. cbn. split_and!; [done|lia|lia|done|constructor|constructor].
  - destruct (byte_limit r); [|done]. cbn in *. split; [done|lia].
Qed.

(** * Poisoned regions *)

(** The specification: every open region has its own flag, the innermost first;
    poisoning sets the flags of the open regions, and a region that closes is
    retired exactly if its flag is set. *)
Record Flags : Type := mkFlags { open_regions : list (nat * bool); retired : list nat; dropped : list nat }.

Definition flags_start (r : nat) (s : Flags) : Flags := mkFlags ((r, false) :: open_regions s) (retired s) (dropped s).
Definition flags_poison (s : Flags) : Flags := mkFlags (map (fun p => (p.1, true)) (open_regions s)) (retired s) (dropped s).
Definition flags_end (s : Flags) : Flags :=
  match open_regions s with
  | [] => s
  | (r, true) :: o => mkFlags o (r :: retired s) (dropped s)
  | (r, false) :: o => mkFlags o (retired s) (r :: dropped s)
  end.
Definition flags_unwind (depth : nat) (s : Flags) : Flags := Nat.iter (length (open_regions s) - depth) flags_end s.

(** What compiled code and the publication of values do. *)
Inductive RegionOp : Type := Start (r : nat) | End_ | Poison | Unwind (depth : nat) | UnwindAll.

Definition step_flags (s : Flags) (o : RegionOp) : Flags :=
  match o with
  | Start r => flags_start r s
  | End_ => flags_end s
  | Poison => flags_poison s
  | Unwind d => flags_unwind d s
  | UnwindAll => flags_unwind 0 s
  end.

(** An exception restores the depths saved when the handler was entered. *)
Definition step_rt (s : RtRegions) (o : RegionOp) : RtRegions :=
  match o with
  | Start r => rt_region_start r s
  | End_ => rt_region_end s
  | Poison => mkRt (rt_region_stack s) (poison_active_regions (rt_gc s))
  | Unwind d => unwind_regions_to d d s
  | UnwindAll => unwind_all_native_regions s
  end.

(** The flags the watermark stands for: those of the outermost regions. *)
Fixpoint flagged (w : nat) (st : list nat) : list (nat * bool) :=
  match st with
  | [] => []
  | r :: st' => (r, (length st <=? w)%nat) :: flagged w st'
  end.

Definition simulates (c : RtRegions) (s : Flags) : Prop :=
  rt_region_stack c = region_stack (rt_gc c) /\ (poison_watermark (rt_gc c) <= region_stack_depth (rt_gc c))%nat /\
  open_regions s = flagged (poison_watermark (rt_gc c)) (region_stack (rt_gc c)) /\
  retired s = retired_regions (rt_gc c) /\ dropped s = dropped_regions (rt_gc c).

Lemma flagged_length w st : length (flagged w st) = length st.
Proof. induction st; cbn; congruence. Qed.

Lemma flagged_all w st : (length st <= w)%nat -> flagged w st = map (fun r => (r, true)) st.
Proof. revert w. induction st as [|r st IH]; intros w Hw; [done|]. cbn [flagged map length] in *. rewrite IH by lia. by rewrite (proj2 (Nat.leb_le _ _)). Qed.

Lemma flagged_map w st : map (fun p => (p.1, true)) (flagged w st) = map (fun r => (r, true)) st.
Proof. induction st as [|r st IH]; [done|]. cbn. by f_equal. Qed.

(** Closing the innermost region is the flagged close. *)
Lemma simulates_end c s : simulates c s -> simulates (rt_region_end c) (flags_end s).
Proof.
  intros (Hst & Hw & Ho & Hr & Hd). destruct c as [rt [st ret dr w]]. cbn in *. subst rt. unfold rt_region_end, flags_end. cbn [rt_region_stack rt_gc].
  destruct st as [|r st]; cbn [flagged length] in Ho; rewrite Ho; [by split_and!|]. unfold close_region, region_stack_depth.
  cbn [region_stack length pop_region_guard poison_watermark tail]. change (negb (S (length st) =? 0)%nat) with true. cbn [andb].
  destruct (S (length st) <=? w)%nat eqn:Hle.
  - apply Nat.leb_le in Hle. unfold simulates, region_stack_depth. cbn. split_and!; [done|lia| |by rewrite Hr|done].
    rewrite !flagged_all by lia. done.
  - apply Nat.leb_gt in Hle. unfold simulates, region_stack_depth. cbn. split_and!; [done|lia|done|done|by rewrite Hd].
Qed.

Lemma unwind_rt_iter d c : unwind_rt (rt_region_stack c) d (rt_gc c) = Nat.iter (length (rt_region_stack c) - d) rt_region_end c.
Proof.
  destruct c as [st g]. cbn [rt_region_stack rt_gc]. revert g. induction st as [|r st IH]; intros g; [done|]. cbn [unwind_rt].
  destruct (d <? length (r :: st))%nat eqn:Hlt; cbn [length] in *.
  - apply Nat.ltb_lt in Hlt. rewrite IH. replace (S (length st) - d)%nat with (S (length st - d)) by lia. rewrite Nat.iter_succ_r. done.
  - apply Nat.ltb_ge in Hlt. by replace (S (length st) - d)%nat with 0%nat by lia.
Qed.

Lemma simulates_iter n c s : simulates c s -> simulates (Nat.iter n rt_region_end c) (Nat.iter n flags_end s).
Proof. intros H. induction n; [done|]. cbn. by apply simulates_end. Qed.

Lemma simulates_length c s : simulates c s -> length (open_regions s) = length (rt_region_stack c).
Proof. intros (Hst & _ & Ho & _). by rewrite Ho, flagged_length, Hst. Qed.

Lemma flags_unwind_length d s : (length (open_regions (flags_unwind d s)) <= d)%nat.
Proof.
  unfold flags_unwind. remember (length (open_regions s) - d)%nat as n eqn:Hn. assert (Hle : (length (open_regions s) <= d + n)%nat) by lia. clear Hn. revert s Hle.
  induction n as [|n IH]; intros s Hle; [cbn; lia|]. rewrite Nat.iter_succ_r. apply IH. unfold flags_end.
  destruct (open_regions s) as [|[r []] o] eqn:Ho; cbn in *; [rewrite Ho; cbn|..]; lia.
Qed.

Lemma simulates_step c s o : simulates c s -> simulates (step_rt c o) (step_flags s o).
Proof.
  intros Hs. destruct o as [r| | |d|]; cbn [step_rt step_flags].
  - destruct Hs as (Hst & Hw & Ho & Hr & Hd). destruct c as [rt [st ret dr w]]. unfold simulates, region_stack_depth in *.
    cbn [rt_region_start push_region_raw rt_region_stack rt_gc region_stack poison_watermark retired_regions dropped_regions open_regions flags_start retired dropped length] in *.
    subst rt. split_and!; [done|lia| |done|done]. change (flagged w (r :: st)) with ((r, (S (length st) <=? w)%nat) :: flagged w st).
    rewrite Ho. by rewrite (proj2 (Nat.leb_gt _ _)) by lia.
  - by apply simulates_end.
  - destruct Hs as (Hst & Hw & Ho & Hr & Hd). destruct c as [rt [st ret dr w]]. unfold simulates, poison_active_regions, region_stack_depth in *.
    cbn [rt_region_stack rt_gc region_stack poison_watermark retired_regions dropped_regions open_regions flags_poison retired dropped] in *. subst rt.
    destruct st as [|r st]; [cbn in *; rewrite Ho; by split_and!|]. cbn [length region_stack poison_watermark retired_regions dropped_regions open_regions] in *.
    split_and!; [done|lia| |done|done]. by rewrite Ho, flagged_map, flagged_all by (cbn [length]; lia).
  - unfold unwind_regions_to. rewrite unwind_rt_iter. pose proof (flags_unwind_length d s) as Hlen. unfold flags_unwind in *.
    rewrite (simulates_length c s Hs) in *. pose proof (simulates_iter (length (rt_region_stack c) - d) c s Hs) as Hs'.
    set (c' := Nat.iter _ rt_region_end c) in *. rewrite (simulates_length c' _ Hs') in Hlen. destruct Hs' as (Hst & Hw & Ho & Hr & Hd). 
    unfold unwind_region_stack_to, simulates, region_stack_depth in *. cbn. rewrite <- Hst in *.
    replace (length (rt_region_stack c') - d)%nat with 0%nat by lia. by split_and!.
  - unfold unwind_all_native_regions. rewrite unwind_rt_iter. unfold flags_unwind. rewrite (simulates_length c s Hs). by apply simulates_iter.
Qed.

(** C13: compiled code that opens and closes regions, publishes values that poison
    the open ones, and unwinds them on exceptions and when its gas runs out,
    retires and drops exactly the regions that a flag for every region would
    say: the watermark is a correct representation of the flags. *)
Theorem poison_watermark_refines ops :
  let c := fold_left step_rt ops (mkRt [] (mkRegions [] [] [] 0)) in
  let s := fold_left step_flags ops (mkFlags [] [] []) in
  retired_regions (rt_gc c) = retired s /\ dropped_regions (rt_gc c) = dropped s /\ region_stack (rt_gc c) = map fst (open_regions s).
Proof.
  cbv zeta. assert (Hrun : forall c s, simulates c s -> simulates (fold_left step_rt ops c) (fold_left step_flags ops s)).
  { induction ops as [|o ops IH]; intros c s Hs; [done|]. cbn. by apply IH, simulates_step. }
  destruct (Hrun (mkRt [] (mkRegions [] [] [] 0)) (mkFlags [] [] [])) as (_ & _ & Ho & Hr & Hd); [by split_and!|].
  split_and!; [done|done|]. rewrite Ho. generalize (poison_watermark (rt_gc (fold_left step_rt ops (mkRt [] (mkRegions [] [] [] 0))))). intros w.
  generalize (region_stack (rt_gc (fold_left step_rt ops (mkRt [] (mkRegions [] [] [] 0))))). intros st. induction st as [|r st IH]; cbn; congruence.
Qed.

(** Entries that are only popped leave the watermark behind: a region opened
    later at their depth is retired although it was never poisoned. *)
Example unwound_poison_leaks :
  let s := poison_active_regions (push_region_raw 1 (mkRegions [] [] [] 0)) in
  let s := unwind_region_stack_to 0 s in
  close_region 2 (push_region_raw 2 s) = mkRegions [] [2%nat] [] 0.
Proof. reflexivity. Qed.

(** Alignment is not charged: a region of 64 bytes refuses an object of 8 bytes
    when it has charged 56. *)
Example alignment_not_charged :
  let r := mkRegion [mkChunk 4096 64] 4096 4160 [] 0 0 (Some 64) 0 in
  let r := (Region_alloc 0 (mkLayout 24 8) 0 [] r).1 in
  let r := (Region_alloc 0 (mkLayout 32 16) 0 [] r).1 in
  accounted_bytes r = 56 /\ (Region_alloc 0 (mkLayout 8 8) 0 [] r).2 = inr (mkLimitExceeded 64 56 8).
Proof. split; reflexivity. Qed.

Lemma region_alloc_safe_witness : exists r', Region_alloc 8192 (mkLayout 24 8) 0 [16] (with_capacity 4096 0) = (r', inl 4097) /\ region_ok r' /\ raw 4097 = 4096.
Proof.
  pose proof (region_alloc_safe 8192 (mkLayout 24 8) 0 [16] (with_capacity 4096 0) (with_capacity_ok 4096 0 ltac:(lia))) as H.
  assert (Hl : layout_ok (mkLayout 24 8)) by (split; [done|exists 3; done]).
  assert (Hf : fresh_chunk 8192 (mkLayout 24 8) (with_capacity 4096 0)) by (split; [done|constructor; [right; cbn; lia|constructor]]).
  specialize (H Hl Hf). cbn in H. eexists. split_and!; [reflexivity|apply H|done].
Defined.
