(* ===== verification/Publish.v ===== *)
(** Structured clones of values (crates/cljrs-value/src/clone.rs) and the barrier
    that keeps values of regions out of cells that outlive them
    (crates/cljrs-value/src/publish.rs).

    A value is the tree that can be reached from it, with the word of every
    pointer it goes through, whose lowest bit is set when the box was allocated
    in a region (Gc.v).  What a function, a pending thunk or a native object has
    captured is listed in it; the contents of cells (atoms, vars, futures and the
    like) are not part of the value, since a store into a cell goes through the
    barrier itself.  The chain of causes of an error is a list.  Equality and
    order of values, which rebuilding a map or a set uses, are parameters, and so
    are the addresses the heap gives out. *)
From stdpp Require Import base list strings.
From S2P Require Import Prelude RustStd Datum Gc Region.
Local Open Scope Z_scope.

Abbreviation Ptr := Z.
Abbreviation Text := (list Z).

(** * Values *)

Inductive ArrayKind : Type := IntArray | LongArray | ShortArray | ByteArray | FloatArray | DoubleArray | BooleanArray | CharArray.
Inductive CellKind : Type := Atom | Volatile | Promise | Future | Agent | Namespace | Protocol.
Inductive FnKind : Type := Fn | Macro | BoundFn | NativeFunction | ProtocolFn | MultiFn.
Inductive NativeKind : Type := TransientMap | TransientSet | TransientVector | Matcher | NativeObject.

Inductive MapValue (V : Type) : Type :=
| MArray (p : Ptr) (es : list (V * V))
| MHash (p : Ptr) (es : list (V * V))
| MSorted (p : Ptr) (es : list (V * V))
| MSortedBy (p : Ptr) (comparator : V) (es : list (V * V)).
Arguments MArray {V}. Arguments MHash {V}. Arguments MSorted {V}. Arguments MSortedBy {V}.

Inductive SetValue (V : Type) : Type :=
| SHash (p : Ptr) (l : list V)
| SSorted (p : Ptr) (l : list V)
| SSortedBy (p : Ptr) (comparator : V) (l : list V).
Arguments SHash {V}. Arguments SSorted {V}. Arguments SSortedBy {V}.

Inductive ValueError (V : Type) : Type :=
| WrongType (expected got : Text)
| IndexOutOfBounds (idx count : Z)
| ArityError (name expected : Text) (got : Z)
| NotCallable (value : Text)
| OddMap (count : Z)
| Unsupported
| Other (s : Text)
| GasExhausted
| Exit (code : Z)
| OutOfRange
| TransientAlreadyPersisted
| Parse
| Thrown (v : V).
Arguments WrongType {V}. Arguments IndexOutOfBounds {V}. Arguments ArityError {V}. Arguments NotCallable {V}. Arguments OddMap {V}.
Arguments Unsupported {V}. Arguments Other {V}. Arguments GasExhausted {V}. Arguments Exit {V}. Arguments OutOfRange {V}.
Arguments TransientAlreadyPersisted {V}. Arguments Parse {V}. Arguments Thrown {V}.

(** An exception without its cause. *)
Record ExceptionInfo (V : Type) : Type := mkInfo { error : ValueError V; message : Text; data : option (MapValue V) }.
Arguments mkInfo {V}. Arguments error {V}. Arguments message {V}. Arguments data {V}.

(** A pending thunk has captured values, and yields a value or fails. *)
Inductive LazySeqState (V : Type) : Type :=
| Pending (captured : list V) (result : option V)
| Forced (v : V)
| Failed (msg : Text).
Arguments Pending {V}. Arguments Forced {V}. Arguments Failed {V}.

Inductive DelayState (V : Type) : Type := DPending (captured : list V) | DForced (v : V).
Arguments DPending {V}. Arguments DForced {V}.

(** [bound] and [root] say whether a var has a value here, and its cell that
    other isolates share, [None] when that cell is empty. *)
Record Var : Type := mkVar { var_ns : Text; var_name : Text; is_macro : bool; bound : bool; shared_root : option Z }.

Inductive Value : Type :=
| Nil
| Bool (b : bool)
| Long (n : Z)
| Double (bits : Z)
| BigInt (p : Ptr) (n : Z)
| BigDecimal (p : Ptr) (digits scale : Z)
| Ratio (p : Ptr) (numer denom : Z)
| Char (c : Z)
| Str (p : Ptr) (s : Text)
| Uuid (n : Z)
| Instant (ms : Z)
| Pattern (p : Ptr) (source : Text)
| Sym (p : Ptr) (s : Symbol)
| Kw (p : Ptr) (k : Keyword)
| List (p : Ptr) (l : list Value)
| Vector (p : Ptr) (l : list Value)
| Map (m : MapValue Value)
| Set_ (s : SetValue Value)
| Queue (p : Ptr) (l : list Value)
| Array (k : ArrayKind) (p : Ptr) (contents : list Z)
| ObjectArray (p : Ptr) (l : list Value)
| Callable (k : FnKind) (p : Ptr) (captured : list Value)
| Native (k : NativeKind) (p : Ptr) (captured : list Value)
| Cell (k : CellKind) (p : Ptr)
| VarRef (p : Ptr) (v : Var)
| SharedAtom (a : Z)
| ByteBlob (b : Z)
| Resource (r : Z)
| Reduced (v : Value)
| LazySeq (p : Ptr) (s : LazySeqState Value)
| Cons (p : Ptr) (head tail : Value)
| Delay (p : Ptr) (s : DelayState Value)
| TypeInstance (p : Ptr) (type_tag : Text) (fields : MapValue Value)
| WithMeta (v meta : Value)
| Error (p : Ptr) (info : ExceptionInfo Value) (causes : list (Ptr * ExceptionInfo Value)).

(** * Structured clone *)

Inductive SMapKind : Type := KArray | KHash | KSorted.

(** A serialized exception without its cause. *)
Record SerializedError (W : Type) : Type := mkSError { s_kind : ValueError W; s_message : Text; s_data : option (list (W * W)) }.
Arguments mkSError {W}. Arguments s_kind {W}. Arguments s_message {W}. Arguments s_data {W}.

Inductive SerializedValue : Type :=
| WNil
| WBool (b : bool)
| WLong (n : Z)
| WDouble (bits : Z)
| WBigInt (n : Z)
| WBigDecimal (digits scale : Z)
| WRatio (numer denom : Z)
| WChar (c : Z)
| WStr (s : Text)
| WUuid (n : Z)
| WInstant (ms : Z)
| WPattern (source : Text)
| WSymbol (s : Symbol)
| WKeyword (k : Keyword)
| WList (l : list SerializedValue)
| WVector (l : list SerializedValue)
| WMap (k : SMapKind) (es : list (SerializedValue * SerializedValue))
| WHashSet (l : list SerializedValue)
| WSortedSet (l : list SerializedValue)
| WQueue (l : list SerializedValue)
| WCons (head tail : SerializedValue)
| WTypeInstance (type_tag : Text) (fields : list (SerializedValue * SerializedValue))
| WError (info : SerializedError SerializedValue) (causes : list (SerializedError SerializedValue))
| WArray (k : ArrayKind) (contents : list Z)
| WObjectArray (l : list SerializedValue)
| WWithMeta (v meta : SerializedValue)
| WReduced (v : SerializedValue)
| WSharedAtom (a : Z)
| WByteBlob (b : Z)
| WVar (v : Var).

Inductive CloneError : Type := NotShareable (type_name : string).

Section Lists.
Context {A X : Type}.

(** [collect] into a result: the first error. *)
Fixpoint collect_results (l : list (X + A)) : X + list A :=
  match l with
  | [] => inr []
  | inl e :: _ => inl e
  | inr a :: l' => match collect_results l' with inl e => inl e | inr r => inr (a :: r) end
  end.

End Lists.

Definition bind_result {X A B : Type} (r : X + A) (k : A -> X + B) : X + B := match r with inl e => inl e | inr a => k a end.

Abbreviation Res := (sum CloneError).

Definition map_entries {V : Type} (m : MapValue V) : list (V * V) :=
  match m with MArray _ es | MHash _ es | MSorted _ es | MSortedBy _ _ es => es end.

Section Serialize.
Context (serialize : Value -> Res SerializedValue).

Definition serialize_pair (e : Value * Value) : Res (SerializedValue * SerializedValue) :=
  match serialize e.1, serialize e.2 with
  | inr k, inr v => inr (k, v)
  | inl err, _ => inl err
  | _, inl err => inl err
  end.

Definition serialize_map_pairs (m : MapValue Value) : Res (list (SerializedValue * SerializedValue)) :=
  match m with MArray _ es | MHash _ es | MSorted _ es | MSortedBy _ _ es => collect_results (map serialize_pair es) end.

Definition serialize_map (m : MapValue Value) : Res SerializedValue :=
  bind_result (serialize_map_pairs m) (fun pairs => inr (WMap (match m with MHash _ _ => KHash | MSorted _ _ => KSorted | _ => KArray end) pairs)).

Definition serialize_set (s : SetValue Value) : Res SerializedValue :=
  match s with
  | SHash _ l | SSortedBy _ _ l => bind_result (collect_results (map serialize l)) (fun items => inr (WHashSet items))
  | SSorted _ l => bind_result (collect_results (map serialize l)) (fun items => inr (WSortedSet items))
  end.

(** [exit_text] is the text of an exit request. *)
Definition serialize_kind (exit_text : Z -> Text) (e : ValueError Value) : Res (ValueError SerializedValue) :=
  match e with
  | WrongType a b => inr (WrongType a b)
  | IndexOutOfBounds i c => inr (IndexOutOfBounds i c)
  | ArityError a b c => inr (ArityError a b c)
  | NotCallable v => inr (NotCallable v)
  | OddMap c => inr (OddMap c)
  | Unsupported => inr Unsupported
  | Other s => inr (Other s)
  | GasExhausted => inr GasExhausted
  | OutOfRange => inr OutOfRange
  | TransientAlreadyPersisted => inr TransientAlreadyPersisted
  | Parse => inr Parse
  | Exit code => inr (Other (exit_text code))
  | Thrown v => bind_result (serialize v) (fun w => inr (Thrown w))
  end.

Definition serialize_error (exit_text : Z -> Text) (i : ExceptionInfo Value) : Res (SerializedError SerializedValue) :=
  bind_result (serialize_kind exit_text (error i)) (fun kind =>
  bind_result (match data i with None => inr None | Some m => bind_result (serialize_map_pairs m) (fun ps => inr (Some ps)) end) (fun d =>
  inr (mkSError kind (message i) d))).

End Serialize.

Definition fn_type_name (k : FnKind) : string := "fn".
Definition native_type_name (k : NativeKind) : string :=
  match k with
  | TransientMap => "transient-map" | TransientSet => "transient-set" | TransientVector => "transient-vector"
  | Matcher => "matcher" | NativeObject => "native-object"
  end.
Definition cell_type_name (k : CellKind) : string :=
  match k with
  | Atom => "atom" | Volatile => "volatile" | Promise => "promise" | Future => "future" | Agent => "agent"
  | Namespace => "namespace" | Protocol => "protocol"
  end.

Section Clone.
Context (exit_text : Z -> Text).

Fixpoint serialize (v : Value) : Res SerializedValue :=
  match v with
  | WithMeta inner meta => bind_result (serialize inner) (fun a => bind_result (serialize meta) (fun b => inr (WWithMeta a b)))
  | Reduced inner => bind_result (serialize inner) (fun a => inr (WReduced a))
  | Nil => inr WNil
  | Bool b => inr (WBool b)
  | Long n => inr (WLong n)
  | Double d => inr (WDouble d)
  | Char c => inr (WChar c)
  | Uuid u => inr (WUuid u)
  | Instant ms => inr (WInstant ms)
  | BigInt _ n => inr (WBigInt n)
  | BigDecimal _ d s => inr (WBigDecimal d s)
  | Ratio _ n d => inr (WRatio n d)
  | Str _ s => inr (WStr s)
  | Pattern _ s => inr (WPattern s)
  | Sym _ s => inr (WSymbol s)
  | Kw _ k => inr (WKeyword k)
  | List _ l => bind_result (collect_results (map serialize l)) (fun items => inr (WList items))
  | Vector _ l => bind_result (collect_results (map serialize l)) (fun items => inr (WVector items))
  | Map m => serialize_map serialize m
  | Set_ s => serialize_set serialize s
  | Queue _ l => bind_result (collect_results (map serialize l)) (fun items => inr (WQueue items))
  | Cons _ h t => bind_result (serialize h) (fun a => bind_result (serialize t) (fun b => inr (WCons a b)))
  | TypeInstance _ tag fields => bind_result (serialize_map_pairs serialize fields) (fun ps => inr (WTypeInstance tag ps))
  | Error _ i causes =>
      bind_result (serialize_error serialize exit_text i) (fun e =>
      bind_result (collect_results (map (fun c => serialize_error serialize exit_text c.2) causes)) (fun cs => inr (WError e cs)))
  | Array k _ contents => inr (WArray k contents)
  | ObjectArray _ l => bind_result (collect_results (map serialize l)) (fun items => inr (WObjectArray items))
  | LazySeq _ s =>
      match s with
      | Forced w => serialize w
      | Failed _ => inr WNil
      | Pending _ (Some w) => serialize w
      | Pending _ None => inr WNil
      end
  | Delay _ s => match s with DForced w => serialize w | DPending _ => inl (NotShareable "delay") end
  | Resource _ => inl (NotShareable "resource")
  | Native k _ _ => inl (NotShareable (native_type_name k))
  | Callable k _ _ => inl (NotShareable (fn_type_name k))
  | VarRef _ var =>
      if match shared_root var with None => bound var | Some _ => false end then inl (NotShareable "var") else inr (WVar var)
  | Cell k _ => inl (NotShareable (cell_type_name k))
  | SharedAtom a => inr (WSharedAtom a)
  | ByteBlob b => inr (WByteBlob b)
  end.

(** ** Rebuilding *)

(** Equality and order of values, and the addresses of new boxes. *)
Context (value_eq : Value -> Value -> bool) (value_cmp : Value -> Value -> comparison) (fresh : nat -> Ptr).

(** [MapValue::from_pairs]: later values win, the position and the key stay. *)
Fixpoint put_entry (es : list (Value * Value)) (k v : Value) : list (Value * Value) :=
  match es with
  | [] => [(k, v)]
  | (k', v') :: es' => if value_eq k' k then (k', v) :: es' else (k', v') :: put_entry es' k v
  end.

Definition map_from_pairs (p : Ptr) (pairs : list (Value * Value)) : MapValue Value :=
  let es := fold_left (fun es e => put_entry es e.1 e.2) pairs [] in
  if (length es <=? 8)%nat then MArray p es else MHash p es.

(** The tree of a sorted map as its entries in order. *)
Fixpoint put_sorted (es : list (Value * Value)) (k v : Value) : list (Value * Value) :=
  match es with
  | [] => [(k, v)]
  | (k', v') :: es' =>
      match value_cmp k k' with
      | Lt => (k, v) :: es
      | Eq => (k, v) :: es'
      | Gt => (k', v') :: put_sorted es' k v
      end
  end.

Definition sorted_from_pairs (pairs : list (Value * Value)) : list (Value * Value) :=
  fold_left (fun es e => put_sorted es e.1 e.2) pairs [].

Definition hash_set_conj (l : list Value) (v : Value) : list Value := if existsb (fun w => value_eq w v) l then l else l ++ [v].

Fixpoint sorted_set_conj (l : list Value) (v : Value) : list Value :=
  match l with
  | [] => [v]
  | w :: l' =>
      match value_cmp v w with
      | Lt => v :: l
      | Eq => v :: l'
      | Gt => w :: sorted_set_conj l' v
      end
  end.

Section Deserialize.
Context (deserialize : SerializedValue -> nat -> Value * nat).

Fixpoint deserialize_list (l : list SerializedValue) (n : nat) : list Value * nat :=
  match l with
  | [] => ([], n)
  | w :: l' => let '(v, n1) := deserialize w n in let '(vs, n2) := deserialize_list l' n1 in (v :: vs, n2)
  end.

Fixpoint deserialize_pairs (l : list (SerializedValue * SerializedValue)) (n : nat) : list (Value * Value) * nat :=
  match l with
  | [] => ([], n)
  | e :: l' =>
      let '(k, n1) := deserialize e.1 n in
      let '(v, n2) := deserialize e.2 n1 in
      let '(es, n3) := deserialize_pairs l' n2 in
      ((k, v) :: es, n3)
  end.

Definition deserialize_kind (e : ValueError SerializedValue) (n : nat) : ValueError Value * nat :=
  match e with
  | WrongType a b => (WrongType a b, n)
  | IndexOutOfBounds i c => (IndexOutOfBounds i c, n)
  | ArityError a b c => (ArityError a b c, n)
  | NotCallable v => (NotCallable v, n)
  | OddMap c => (OddMap c, n)
  | Unsupported => (Unsupported, n)
  | Other s => (Other s, n)
  | GasExhausted => (GasExhausted, n)
  | Exit code => (Exit code, n)
  | OutOfRange => (OutOfRange, n)
  | TransientAlreadyPersisted => (TransientAlreadyPersisted, n)
  | Parse => (Parse, n)
  | Thrown w => let '(v, n1) := deserialize w n in (Thrown v, n1)
  end.

Definition deserialize_error (e : SerializedError SerializedValue) (n : nat) : ExceptionInfo Value * nat :=
  let '(kind, n1) := deserialize_kind (s_kind e) n in
  match s_data e with
  | None => (mkInfo kind (s_message e) None, n1)
  | Some ps => let '(es, n2) := deserialize_pairs ps n1 in (mkInfo kind (s_message e) (Some (map_from_pairs (fresh n2) es)), S n2)
  end.

Fixpoint deserialize_causes (l : list (SerializedError SerializedValue)) (n : nat) : list (Ptr * ExceptionInfo Value) * nat :=
  match l with
  | [] => ([], n)
  | e :: l' =>
      let '(i, n1) := deserialize_error e n in
      let '(cs, n2) := deserialize_causes l' n1 in
      ((fresh n2, i) :: cs, S n2)
  end.

End Deserialize.

(** The value, and the number of boxes used so far. *)
Fixpoint deserialize (w : SerializedValue) (n : nat) : Value * nat :=
  match w with
  | WWithMeta v m => let '(a, n1) := deserialize v n in let '(b, n2) := deserialize m n1 in (WithMeta a b, n2)
  | WReduced v => let '(a, n1) := deserialize v n in (Reduced a, n1)
  | WNil => (Nil, n)
  | WBool b => (Bool b, n)
  | WLong k => (Long k, n)
  | WDouble d => (Double d, n)
  | WChar c => (Char c, n)
  | WUuid u => (Uuid u, n)
  | WInstant ms => (Instant ms, n)
  | WBigInt k => (BigInt (fresh n) k, S n)
  | WBigDecimal d s => (BigDecimal (fresh n) d s, S n)
  | WRatio a b => (Ratio (fresh n) a b, S n)
  | WStr s => (Str (fresh n) s, S n)
  | WPattern s => (Pattern (fresh n) s, S n)
  | WSymbol s => (Sym (fresh n) s, S n)
  | WKeyword k => (Kw (fresh n) k, S n)
  | WList l => let '(vs, n1) := deserialize_list deserialize l n in (List (fresh n1) vs, S n1)
  | WVector l => let '(vs, n1) := deserialize_list deserialize l n in (Vector (fresh n1) vs, S n1)
  | WMap KSorted ps => let '(es, n1) := deserialize_pairs deserialize ps n in (Map (MSorted (fresh n1) (sorted_from_pairs es)), S n1)
  | WMap _ ps => let '(es, n1) := deserialize_pairs deserialize ps n in (Map (map_from_pairs (fresh n1) es), S n1)
  | WHashSet l => let '(vs, n1) := deserialize_list deserialize l n in (Set_ (SHash (fresh n1) (fold_left hash_set_conj vs [])), S n1)
  | WSortedSet l => let '(vs, n1) := deserialize_list deserialize l n in (Set_ (SSorted (fresh n1) (fold_left sorted_set_conj vs [])), S n1)
  | WQueue l => let '(vs, n1) := deserialize_list deserialize l n in (Queue (fresh n1) vs, S n1)
  | WCons h t => let '(a, n1) := deserialize h n in let '(b, n2) := deserialize t n1 in (Cons (fresh n2) a b, S n2)
  | WTypeInstance tag ps =>
      let '(es, n1) := deserialize_pairs deserialize ps n in (TypeInstance (fresh (S n1)) tag (map_from_pairs (fresh n1) es), S (S n1))
  | WError e cs =>
      let '(i, n1) := deserialize_error deserialize e n in
      let '(causes, n2) := deserialize_causes deserialize cs n1 in
      (Error (fresh n2) i causes, S n2)
  | WArray k contents => (Array k (fresh n) contents, S n)
  | WObjectArray l => let '(vs, n1) := deserialize_list deserialize l n in (ObjectArray (fresh n1) vs, S n1)
  | WSharedAtom a => (SharedAtom a, n)
  | WByteBlob b => (ByteBlob b, n)
  | WVar v => (VarRef (fresh n) (mkVar (var_ns v) (var_name v) (is_macro v) (bool_decide (is_Some (shared_root v))) (shared_root v)), S n)
  end.

(** * The barrier *)

Inductive Scan : Type := Clean | Dirty | Opaque.

Definition join (a b : Scan) : Scan :=
  match a, b with
  | Opaque, _ | _, Opaque => Opaque
  | Dirty, _ | _, Dirty => Dirty
  | _, _ => Clean
  end.

Definition tag (p : Ptr) : Scan := if is_region_alloc p then Dirty else Clean.
Definition tag_opaque (p : Ptr) : Scan := if is_region_alloc p then Opaque else Clean.

Section Scan.
Context (scan : Value -> Scan).

Definition scan_map (m : MapValue Value) : Scan :=
  match m with
  | MArray p es | MHash p es | MSorted p es | MSortedBy p _ es =>
      fold_left (fun acc e => join (join acc (scan e.1)) (scan e.2)) es (tag p)
  end.

Definition scan_data (d : option (MapValue Value)) (acc : Scan) : Scan := match d with Some m => join acc (scan_map m) | None => acc end.

(** The loop over the causes. *)
Definition scan_cause (acc : Scan) (c : Ptr * ExceptionInfo Value) : Scan := scan_data (data c.2) (join acc (tag c.1)).

End Scan.

Fixpoint scan (v : Value) : Scan :=
  match v with
  | Nil | Bool _ | Long _ | Double _ | Char _ | Uuid _ | Instant _ | ByteBlob _ | SharedAtom _ | Resource _ => Clean
  | BigInt p _ | BigDecimal p _ _ | Ratio p _ _ | Str p _ | Pattern p _ | Sym p _ | Kw p _ => tag p
  | List p l | Vector p l | Queue p l => fold_left (fun acc e => join acc (scan e)) l (tag p)
  | Map m => scan_map scan m
  | Set_ s =>
      match s with
      | SHash p l | SSorted p l | SSortedBy p _ l => fold_left (fun acc e => join acc (scan e)) l (tag p)
      end
  | Cons p h t => join (join (tag p) (scan h)) (scan t)
  | Array _ p _ => tag p
  | ObjectArray p l => fold_left (fun acc e => join acc (scan e)) l (tag p)
  | WithMeta inner meta => join (scan inner) (scan meta)
  | Reduced inner => scan inner
  | TypeInstance p _ fields => join (tag p) (scan_map scan fields)
  | Error p i causes =>
      let acc := scan_data scan (data i) (tag p) in
      let acc := match error i with Thrown t => join acc (scan t) | _ => acc end in
      fold_left (scan_cause scan) causes acc
  | LazySeq p s =>
      match tag_opaque p with
      | Opaque => Opaque
      | t => match s with Forced w => join t (scan w) | Failed _ => t | Pending _ _ => Opaque end
      end
  | Delay p s =>
      match tag_opaque p with
      | Opaque => Opaque
      | t => match s with DForced w => join t (scan w) | DPending _ => Opaque end
      end
  | Cell _ p | VarRef p _ => tag_opaque p
  | Callable _ _ _ | Native _ _ _ => Opaque
  end.

(** The value to store, the open regions, and the number of boxes used. *)
Definition publish_value (v : Value) (s : Regions) (n : nat) : Value * Regions * nat :=
  if (region_stack_depth s =? 0)%nat then (v, s, n)
  else
    match scan v with
    | Clean => (v, s, n)
    | Dirty =>
        match serialize v with
        | inr wire => let '(v', n') := deserialize wire n in (v', s, n')
        | inl _ => (v, poison_active_regions s, n)
        end
    | Opaque => (v, poison_active_regions s, n)
    end.

End Clone.
