(* ===== verification/PublishSpec.v ===== *)
(** A value that is published never comes to point into a region that is freed.

    The barrier and the regions together: a published value never points
    into a region that has been dropped; and where the barrier looks too
    little. *)
From stdpp Require Import base list.
From S2P Require Import Prelude RustStd Datum Gc Region RegionSpec Publish.
Local Open Scope Z_scope.

(** * The pointers of a value *)

Section Pointers.
Context (all : bool) (pointers : Value -> list Ptr).

Definition map_pointers (m : MapValue Value) : list Ptr :=
  match m with
  | MArray p es | MHash p es | MSorted p es => p :: flat_map (fun e => pointers e.1 ++ pointers e.2) es
  | MSortedBy p c es => p :: (if all then pointers c else []) ++ flat_map (fun e => pointers e.1 ++ pointers e.2) es
  end.

Definition data_pointers (d : option (MapValue Value)) : list Ptr := match d with Some m => map_pointers m | None => [] end.
Definition thrown_pointers (e : ValueError Value) : list Ptr := match e with Thrown v => pointers v | _ => [] end.

End Pointers.

(** The words of the pointers of a value; without [all], only of those that the
    scan comes to: not of comparators, nor of what a cause has thrown. *)
Fixpoint pointers (all : bool) (v : Value) : list Ptr :=
  match v with
  | Nil | Bool _ | Long _ | Double _ | Char _ | Uuid _ | Instant _ | ByteBlob _ | SharedAtom _ | Resource _ => []
  | BigInt p _ | BigDecimal p _ _ | Ratio p _ _ | Str p _ | Pattern p _ | Sym p _ | Kw p _ => [p]
  | List p l | Vector p l | Queue p l | ObjectArray p l => p :: flat_map (pointers all) l
  | Map m => map_pointers all (pointers all) m
  | Set_ s =>
      match s with
      | SHash p l | SSorted p l => p :: flat_map (pointers all) l
      | SSortedBy p c l => p :: (if all then pointers all c else []) ++ flat_map (pointers all) l
      end
  | Cons p h t => p :: pointers all h ++ pointers all t
  | Array _ p _ => [p]
  | WithMeta inner meta => pointers all inner ++ pointers all meta
  | Reduced inner => pointers all inner
  | TypeInstance p _ fields => p :: map_pointers all (pointers all) fields
  | Error p i causes =>
      p :: data_pointers all (pointers all) (data i) ++ thrown_pointers (pointers all) (error i) ++
      flat_map (fun c => c.1 :: data_pointers all (pointers all) (data c.2) ++ (if all then thrown_pointers (pointers all) (error c.2) else [])) causes
  | LazySeq p s =>
      p :: match s with
           | Forced w => pointers all w
           | Failed _ => []
           | Pending captured r => flat_map (pointers all) captured ++ match r with Some w => pointers all w | None => [] end
           end
  | Delay p s => p :: match s with DForced w => pointers all w | DPending captured => flat_map (pointers all) captured end
  | Cell _ p | VarRef p _ => [p]
  | Callable _ p captured | Native _ p captured => p :: flat_map (pointers all) captured
  end.

Definition on_heap (p : Ptr) : Prop := is_region_alloc p = false.
Definition region_free (v : Value) : Prop := Forall on_heap (pointers true v).

(** Every pointer into a region is one that the scan comes to. *)
Definition scannable (v : Value) : Prop := forall p, p ∈ pointers true v -> is_region_alloc p = true -> p ∈ pointers false v.

(** * The scan *)

Lemma join_clean a b : join a b = Clean <-> a = Clean /\ b = Clean.
Proof. destruct a, b; cbn; naive_solver. Qed.

Lemma tag_clean p : tag p = Clean <-> on_heap p.
Proof. unfold tag, on_heap. destruct (is_region_alloc p); done. Qed.

Lemma tag_opaque_clean p : tag_opaque p = Clean <-> on_heap p.
Proof. unfold tag_opaque, on_heap. destruct (is_region_alloc p); done. Qed.

Lemma fold_join_clean {A} (f : A -> Scan) l acc : fold_left (fun acc e => join acc (f e)) l acc = Clean <-> acc = Clean /\ Forall (fun e => f e = Clean) l.
Proof.
  revert acc. induction l as [|x l IH]; intros acc; cbn; [naive_solver|]. rewrite IH, join_clean, Forall_cons. tauto.
Qed.

Lemma fold_entries_clean (f : Value -> Scan) es acc :
  fold_left (fun acc e => join (join acc (f e.1)) (f e.2)) es acc = Clean <-> acc = Clean /\ Forall (fun e => f e.1 = Clean /\ f e.2 = Clean) es.
Proof. revert acc. induction es as [|e es IH]; intros acc; cbn; [naive_solver|]. rewrite IH, !join_clean, Forall_cons. tauto. Qed.

Lemma Forall_flat_map {A B} (P : B -> Prop) (f : A -> list B) l : Forall P (flat_map f l) <-> Forall (fun x => Forall P (f x)) l.
Proof. induction l as [|x l IH]; cbn; [split; constructor|]. by rewrite Forall_app, Forall_cons, IH. Qed.

Lemma Forall_ext_in {A} (P Q : A -> Prop) l : Forall P l -> (forall x, x ∈ l -> P x -> Q x) -> Forall Q l.
Proof. intros H HPQ. apply Forall_forall. intros x Hx. apply HPQ; [done|]. exact (proj1 (Forall_forall _ _) H x Hx). Qed.

(** * Induction on values *)

Definition entry_values {V : Type} (es : list (V * V)) : list V := flat_map (fun e => [e.1; e.2]) es.

Definition map_values (m : MapValue Value) : list Value :=
  match m with MArray _ es | MHash _ es | MSorted _ es => entry_values es | MSortedBy _ c es => c :: entry_values es end.

Definition error_values {V : Type} (e : ValueError V) : list V := match e with Thrown v => [v] | _ => [] end.

Definition info_values (i : ExceptionInfo Value) : list Value :=
  error_values (error i) ++ match data i with Some m => map_values m | None => [] end.

Definition subvalues (v : Value) : list Value :=
  match v with
  | List _ l | Vector _ l | Queue _ l | ObjectArray _ l | Callable _ _ l | Native _ _ l => l
  | Map m | TypeInstance _ _ m => map_values m
  | Set_ (SHash _ l | SSorted _ l) => l
  | Set_ (SSortedBy _ c l) => c :: l
  | Cons _ a b | WithMeta a b => [a; b]
  | Reduced a => [a]
  | LazySeq _ (Forced a) => [a]
  | LazySeq _ (Pending l r) => l ++ option_list r
  | Delay _ (DForced a) => [a]
  | Delay _ (DPending l) => l
  | Error _ i cs => info_values i ++ flat_map (fun c => info_values c.2) cs
  | _ => []
  end.

Section ForallFix.
Context {V : Type} (P : V -> Prop) (f : forall v, P v).

(** [Forall] of what holds everywhere, as recursions on the lists. *)
Fixpoint forall_list (l : list V) : Forall P l := match l with [] => @List.Forall_nil _ P | x :: l' => @List.Forall_cons _ P _ _ (f x) (forall_list l') end.

Fixpoint forall_entries (es : list (V * V)) : Forall P (entry_values es) :=
  match es with
  | [] => @List.Forall_nil _ P
  | (k, v) :: es' => @List.Forall_cons _ P _ _ (f k) (@List.Forall_cons _ P _ _ (f v) (forall_entries es'))
  end.

Definition forall_error (e : ValueError V) : Forall P (error_values e) :=
  match e with Thrown v => @List.Forall_cons _ P _ _ (f v) (@List.Forall_nil _ P) | _ => @List.Forall_nil _ P end.

End ForallFix.

Definition forall_app {V} (P : V -> Prop) (l k : list V) (Hl : Forall P l) (Hk : Forall P k) : Forall P (l ++ k) := proj2 (Forall_app P l k) (conj Hl Hk).

Section ForallValues.
Context (P : Value -> Prop) (f : forall v, P v).

Definition forall_map (m : MapValue Value) : Forall P (map_values m) :=
  match m with
  | MArray _ es | MHash _ es | MSorted _ es => forall_entries P f es
  | MSortedBy _ c es => @List.Forall_cons _ P _ _ (f c) (forall_entries P f es)
  end.

Definition forall_info (i : ExceptionInfo Value) : Forall P (info_values i) :=
  match i with
  | mkInfo e _ d =>
      forall_app P (error_values e) (match d with Some m => map_values m | None => [] end) (forall_error P f e)
        (match d with Some m => forall_map m | None => @List.Forall_nil _ P end)
  end.

Fixpoint forall_causes (cs : list (Ptr * ExceptionInfo Value)) : Forall P (flat_map (fun c => info_values c.2) cs) :=
  match cs with
  | [] => @List.Forall_nil _ P
  | (_, i) :: cs' => forall_app P _ _ (forall_info i) (forall_causes cs')
  end.

End ForallValues.

Lemma value_ind (P : Value -> Prop) : (forall v, Forall P (subvalues v) -> P v) -> forall v, P v.
Proof.
  intros H. fix IH 1. intros v. apply H.
  destruct v as [| | | | | | | | | | | | | | | |m|[]| | | | | | | | | | | |? []| |? []|? ? m| |? i cs]; cbn [subvalues];
    first
      [ apply forall_app; [apply (forall_list P IH)|]; destruct result; cbn; [apply List.Forall_cons; [apply IH|]|]; apply List.Forall_nil
      | apply forall_app; [apply (forall_info P IH)|apply (forall_causes P IH)]
      | apply (forall_map P IH)
      | apply List.Forall_nil
      | apply (forall_list P IH)
      | repeat (apply List.Forall_cons; [apply IH|]); first [apply List.Forall_nil|apply (forall_list P IH)] ].
Qed.

(** ** What the scan finds clean *)

Definition clean_ok (v : Value) : Prop := scan v = Clean -> Forall on_heap (pointers false v).

Lemma clean_list l : Forall clean_ok l -> Forall (fun e => scan e = Clean) l -> Forall on_heap (flat_map (pointers false) l).
Proof. intros H1 H2. apply Forall_flat_map. eapply Forall_ext_in; [exact H2|]. intros x Hx. exact (proj1 (Forall_forall _ _) H1 x Hx). Qed.

Lemma Forall_entry_values {V} (P : V -> Prop) (es : list (V * V)) : Forall P (entry_values es) <-> Forall (fun e => P e.1 /\ P e.2) es.
Proof.
  unfold entry_values. rewrite Forall_flat_map. split; intros H; (eapply Forall_impl; [exact H|]); cbn.
  - intros e He. apply Forall_cons in He as [H1 He]. by apply Forall_cons in He as [H2 _].
  - intros e [H1 H2]. by repeat constructor.
Qed.

Lemma clean_entries es : Forall clean_ok (entry_values es) -> Forall (fun e => scan e.1 = Clean /\ scan e.2 = Clean) es ->
  Forall on_heap (flat_map (fun e => pointers false e.1 ++ pointers false e.2) es).
Proof.
  rewrite Forall_entry_values. intros H1 H2. apply Forall_flat_map. eapply Forall_ext_in; [exact H2|]. intros e He [Hk Hv].
  destruct (proj1 (Forall_forall _ _) H1 e He) as [Hk' Hv']. apply Forall_app. auto.
Qed.

Lemma clean_map m : Forall clean_ok (map_values m) -> scan_map scan m = Clean -> Forall on_heap (map_pointers false (pointers false) m).
Proof.
  destruct m as [p es|p es|p es|p c es]; cbn [map_values scan_map map_pointers]; intros H Hs; apply fold_entries_clean in Hs as [Hp Hes];
    apply tag_clean in Hp; (apply Forall_cons; split; [done|]); [by apply clean_entries..|]. apply Forall_cons in H as [_ H]. by apply clean_entries.
Qed.

Lemma clean_data d acc : Forall clean_ok (match d with Some m => map_values m | None => [] end) -> scan_data scan d acc = Clean ->
  acc = Clean /\ Forall on_heap (data_pointers false (pointers false) d).
Proof.
  destruct d as [m|]; cbn; [|by split]. intros H Hs. apply join_clean in Hs as [Ha Hm]. split; [done|]. by apply clean_map.
Qed.

Lemma clean_causes cs acc : Forall clean_ok (flat_map (fun c => info_values c.2) cs) -> fold_left (scan_cause scan) cs acc = Clean ->
  acc = Clean /\ Forall on_heap (flat_map (fun c => c.1 :: data_pointers false (pointers false) (data c.2) ++ []) cs).
Proof.
  revert acc. induction cs as [|[p i] cs IH]; intros acc H Hs; cbn in *; [done|]. apply Forall_app in H as [Hi H].
  destruct (IH _ H Hs) as [Hc Hcs]. unfold info_values in Hi. apply Forall_app in Hi as [_ Hd].
  apply clean_data in Hc as [Hj Hdp]; [|done]. apply join_clean in Hj as [Ha Ht]. apply tag_clean in Ht. split; [done|].
  apply Forall_cons. split; [done|]. rewrite app_nil_r. by apply Forall_app.
Qed.

Lemma scan_clean v : clean_ok v.
Proof.
  induction v as [v IH] using value_ind. unfold clean_ok. destruct v; cbn [scan pointers subvalues] in *; intros Hs; try done;
    try (apply tag_clean in Hs; by repeat constructor); try (apply tag_opaque_clean in Hs; by repeat constructor);
    try (apply fold_join_clean in Hs as [Hp Hl]; apply tag_clean in Hp; apply Forall_cons; split; [done|by apply clean_list]).
  - by apply clean_map.
  - destruct s as [p l|p l|p c l]; cbn in *; apply fold_join_clean in Hs as [Hp Hl]; apply tag_clean in Hp; (apply Forall_cons; split; [done|]);
      [by apply clean_list..|]. apply Forall_cons in IH as [_ IH]. by apply clean_list.
  - apply Forall_cons in IH as [IH _]. by apply IH.
  - destruct (tag_opaque p) eqn:Ht; [apply tag_opaque_clean in Ht| |done].
    + destruct s; [done| |by repeat constructor]. apply Forall_cons in IH as [IH _]. apply Forall_cons. split; [done|]. apply IH. by destruct (scan v).
    + exfalso. unfold tag_opaque in Ht. by destruct (is_region_alloc p).
  - apply join_clean in Hs as [Hs H2]. apply join_clean in Hs as [Hp H1]. apply tag_clean in Hp. apply Forall_cons in IH as [I1 IH]. apply Forall_cons in IH as [I2 _].
    apply Forall_cons. split; [done|]. apply Forall_app. auto.
  - destruct (tag_opaque p) eqn:Ht; [apply tag_opaque_clean in Ht| |done].
    + destruct s; [done|]. apply Forall_cons in IH as [IH _]. apply Forall_cons. split; [done|]. apply IH. by destruct (scan v).
    + exfalso. unfold tag_opaque in Ht. by destruct (is_region_alloc p).
  - apply join_clean in Hs as [Hp Hm]. apply tag_clean in Hp. apply Forall_cons. split; [done|]. by apply clean_map.
  - apply join_clean in Hs as [H1 H2]. apply Forall_cons in IH as [I1 IH]. apply Forall_cons in IH as [I2 _]. apply Forall_app. auto.
  - apply Forall_app in IH as [Ii Ic]. apply clean_causes in Hs as [Hs Hc]; [|done]. unfold info_values in Ii. apply Forall_app in Ii as [It Id].
    assert (Hd : scan_data scan (data info) (tag p) = Clean /\ Forall on_heap (thrown_pointers (pointers false) (error info))).
    { destruct (error info); try (split; [done|constructor]). apply join_clean in Hs as [Hs Ht]. apply Forall_cons in It as [It _]. split; [done|]. by apply It. }
    destruct Hd as [Hd Ht]. apply clean_data in Hd as [Hp Hdp]; [|done]. apply tag_clean in Hp. apply Forall_cons. split; [done|].
    apply Forall_app. split; [done|]. apply Forall_app. by split.
Qed.

(** * Copies *)

Definition serror_values (e : SerializedError SerializedValue) : list SerializedValue :=
  error_values (s_kind e) ++ match s_data e with Some ps => entry_values ps | None => [] end.

Definition subwires (w : SerializedValue) : list SerializedValue :=
  match w with
  | WList l | WVector l | WHashSet l | WSortedSet l | WQueue l | WObjectArray l => l
  | WMap _ ps | WTypeInstance _ ps => entry_values ps
  | WCons a b | WWithMeta a b => [a; b]
  | WReduced a => [a]
  | WError e cs => serror_values e ++ flat_map serror_values cs
  | _ => []
  end.

Section ForallWires.
Context (P : SerializedValue -> Prop) (f : forall w, P w).

Definition forall_serror (e : SerializedError SerializedValue) : Forall P (serror_values e) :=
  match e with
  | mkSError k _ d =>
      forall_app P (error_values k) (match d with Some ps => entry_values ps | None => [] end) (forall_error P f k)
        (match d with Some ps => forall_entries P f ps | None => @List.Forall_nil _ P end)
  end.

Fixpoint forall_serrors (cs : list (SerializedError SerializedValue)) : Forall P (flat_map serror_values cs) :=
  match cs with
  | [] => @List.Forall_nil _ P
  | e :: cs' => forall_app P _ _ (forall_serror e) (forall_serrors cs')
  end.

End ForallWires.

Lemma wire_ind (P : SerializedValue -> Prop) : (forall w, Forall P (subwires w) -> P w) -> forall w, P w.
Proof.
  intros H. fix IH 1. intros w. apply H. destruct w; cbn [subwires];
    first
      [ apply forall_app; [apply (forall_serror P IH)|apply (forall_serrors P IH)]
      | apply (forall_entries P IH)
      | apply List.Forall_nil
      | apply (forall_list P IH)
      | repeat (apply List.Forall_cons; [apply IH|]); apply List.Forall_nil ].
Qed.

Section Copies.
Context (value_eq : Value -> Value -> bool) (value_cmp : Value -> Value -> comparison) (fresh : nat -> Ptr) (Hfresh : forall n, on_heap (fresh n)).

Abbreviation free_entries := (Forall (fun e : Value * Value => region_free e.1 /\ region_free e.2)).
Abbreviation free_list := (Forall region_free).

Lemma free_flat_list l : free_list l -> Forall on_heap (flat_map (pointers true) l).
Proof. intros H. by apply Forall_flat_map. Qed.

Lemma free_flat_entries es : free_entries es -> Forall on_heap (flat_map (fun e => pointers true e.1 ++ pointers true e.2) es).
Proof. intros H. apply Forall_flat_map. eapply Forall_impl; [exact H|]. intros e [H1 H2]. by apply Forall_app. Qed.

Lemma put_entry_free es k v : free_entries es -> region_free k -> region_free v -> free_entries (put_entry value_eq es k v).
Proof.
  induction 1 as [|[k' v'] es [H1 H2] Hes IH]; intros Hk Hv; cbn [put_entry]; [by repeat constructor|].
  destruct (value_eq k' k); constructor; try done. by apply IH.
Qed.

Lemma put_sorted_free es k v : free_entries es -> region_free k -> region_free v -> free_entries (put_sorted value_cmp es k v).
Proof.
  induction 1 as [|[k' v'] es [H1 H2] Hes IH]; intros Hk Hv; cbn [put_sorted]; [by repeat constructor|].
  destruct (value_cmp k k'); repeat constructor; try done. by apply IH.
Qed.

Lemma fold_put_free (put : list (Value * Value) -> Value -> Value -> list (Value * Value)) ps es :
  (forall es k v, free_entries es -> region_free k -> region_free v -> free_entries (put es k v)) ->
  free_entries ps -> free_entries es -> free_entries (fold_left (fun es e => put es e.1 e.2) ps es).
Proof. intros Hput Hps. revert es. induction Hps as [|e ps [H1 H2] _ IH]; intros es Hes; cbn; [done|]. apply IH. by apply Hput. Qed.

Lemma map_from_pairs_free p ps : on_heap p -> free_entries ps -> Forall on_heap (map_pointers true (pointers true) (map_from_pairs value_eq p ps)).
Proof.
  intros Hp Hps. unfold map_from_pairs. set (es := fold_left _ ps []). assert (Hes : free_entries es).
  { by apply fold_put_free; [apply put_entry_free| |constructor]. }
  destruct (length es <=? 8)%nat; cbn; (apply Forall_cons; split; [done|by apply free_flat_entries]).
Qed.

Lemma sorted_from_pairs_free ps : free_entries ps -> free_entries (sorted_from_pairs value_cmp ps).
Proof. intros Hps. by apply fold_put_free; [apply put_sorted_free| |constructor]. Qed.

Lemma hash_set_free vs l : free_list vs -> free_list l -> free_list (fold_left (hash_set_conj value_eq) vs l).
Proof.
  intros Hvs. revert l. induction Hvs as [|v vs Hv _ IH]; intros l Hl; cbn; [done|]. apply IH. unfold hash_set_conj.
  destruct (existsb _ l); [done|]. by apply Forall_app_2; [|repeat constructor].
Qed.

Lemma sorted_set_conj_free v l : region_free v -> free_list l -> free_list (sorted_set_conj value_cmp l v).
Proof.
  intros Hv. induction 1 as [|w l Hw Hl IH]; cbn; [by repeat constructor|]. destruct (value_cmp v w); repeat constructor; done.
Qed.

Lemma sorted_set_free vs l : free_list vs -> free_list l -> free_list (fold_left (sorted_set_conj value_cmp) vs l).
Proof. intros Hvs. revert l. induction Hvs as [|v vs Hv _ IH]; intros l Hl; cbn; [done|]. apply IH. by apply sorted_set_conj_free. Qed.

Abbreviation copy := (deserialize value_eq value_cmp fresh).

Definition copy_free (w : SerializedValue) : Prop := forall n, region_free (copy w n).1.

Lemma copy_list_free l : Forall copy_free l -> forall n, free_list (deserialize_list copy l n).1.
Proof.
  induction 1 as [|w l Hw _ IH]; intros n; cbn; [constructor|]. pose proof (Hw n) as H. destruct (copy w n) as [v n1]. specialize (IH n1).
  destruct (deserialize_list copy l n1) as [vs n2]. by constructor.
Qed.

Lemma copy_pairs_free ps : Forall copy_free (entry_values ps) -> forall n, free_entries (deserialize_pairs copy ps n).1.
Proof.
  rewrite Forall_entry_values. induction 1 as [|e ps [Hk Hv] _ IH]; intros n; cbn; [constructor|]. pose proof (Hk n) as H1. destruct (copy e.1 n) as [k n1].
  pose proof (Hv n1) as H2. destruct (copy e.2 n1) as [v n2]. specialize (IH n2). destruct (deserialize_pairs copy ps n2) as [es n3]. by constructor.
Qed.

Definition info_free (i : ExceptionInfo Value) : Prop :=
  Forall on_heap (data_pointers true (pointers true) (data i)) /\ Forall on_heap (thrown_pointers (pointers true) (error i)).

Lemma copy_kind_free e n : Forall copy_free (error_values e) -> Forall on_heap (thrown_pointers (pointers true) (deserialize_kind copy e n).1).
Proof.
  intros H. destruct e; cbn; try constructor. apply Forall_cons in H as [H _]. pose proof (H n) as Hn. destruct (copy v n) as [v' n1]. exact Hn.
Qed.

Lemma copy_error_free e n : Forall copy_free (serror_values e) -> info_free (deserialize_error value_eq fresh copy e n).1.
Proof.
  intros H. unfold serror_values in H. apply Forall_app in H as [Hk Hd]. unfold deserialize_error. pose proof (copy_kind_free (s_kind e) n Hk) as Hkf.
  destruct (deserialize_kind copy (s_kind e) n) as [k n1]. destruct (s_data e) as [ps|]; [|by split; [constructor|]].
  pose proof (copy_pairs_free ps Hd n1) as Hps. destruct (deserialize_pairs copy ps n1) as [es n2]. split; [|done]. by apply map_from_pairs_free.
Qed.

Lemma copy_causes_free cs n : Forall copy_free (flat_map serror_values cs) ->
  Forall (fun c => on_heap c.1 /\ info_free c.2) (deserialize_causes value_eq fresh copy cs n).1.
Proof.
  revert n. induction cs as [|e cs IH]; intros n H; cbn in *; [constructor|]. apply Forall_app in H as [He H]. pose proof (copy_error_free e n He) as Hi.
  destruct (deserialize_error value_eq fresh copy e n) as [i n1]. pose proof (IH n1 H) as Hcs.
  destruct (deserialize_causes value_eq fresh copy cs n1) as [cs' n2]. constructor; [|done]. split; [apply Hfresh|done].
Qed.

Lemma info_free_cause_pointers cs : Forall (fun c => on_heap c.1 /\ info_free c.2) cs ->
  Forall on_heap (flat_map (fun c => c.1 :: data_pointers true (pointers true) (data c.2) ++ thrown_pointers (pointers true) (error c.2)) cs).
Proof.
  intros H. apply Forall_flat_map. eapply Forall_impl; [exact H|]. intros c [Hp [Hd Ht]]. apply Forall_cons. split; [done|]. by apply Forall_app.
Qed.

(** Everything a copy points to was allocated for it, on the heap. *)
Lemma copy_region_free w : copy_free w.
Proof.
  assert (Hbox : forall n l, Forall on_heap l -> Forall on_heap (fresh n :: l)) by (intros n l Hl; apply Forall_cons; by split).
  induction w as [w IH] using wire_ind. intros n.
  destruct w; cbn [deserialize subwires] in *; try (apply Hbox; constructor); try (by constructor);
    try (pose proof (copy_list_free l IH n) as Hl; destruct (deserialize_list copy l n) as [vs n1]; cbn in Hl |- *).
  1, 2, 6, 10: by apply Hbox, free_flat_list.
  - destruct k; pose proof (copy_pairs_free es IH n) as Hps; destruct (deserialize_pairs copy es n) as [ps n1]; cbn in Hps |- *;
      [by apply map_from_pairs_free..|]. apply Hbox, free_flat_entries. by apply sorted_from_pairs_free.
  - apply Hbox, free_flat_list. by apply hash_set_free; [|constructor].
  - apply Hbox, free_flat_list. by apply sorted_set_free; [|constructor].
  - apply Forall_cons in IH as [I1 IH]. apply Forall_cons in IH as [I2 _]. pose proof (I1 n) as H1. destruct (copy w1 n) as [a n1].
    pose proof (I2 n1) as H2. destruct (copy w2 n1) as [b n2]. apply Hbox, Forall_app. by split.
  - pose proof (copy_pairs_free fields IH n) as Hps. destruct (deserialize_pairs copy fields n) as [ps n1]. apply Hbox. by apply map_from_pairs_free.
  - apply Forall_app in IH as [Ie Ic]. pose proof (copy_error_free info n Ie) as [Hd Ht]. destruct (deserialize_error value_eq fresh copy info n) as [i n1].
    pose proof (copy_causes_free causes n1 Ic) as Hc. destruct (deserialize_causes value_eq fresh copy causes n1) as [cs n2].
    apply Hbox, Forall_app. split; [done|]. apply Forall_app. split; [done|]. by apply info_free_cause_pointers.
  - apply Forall_cons in IH as [I1 IH]. apply Forall_cons in IH as [I2 _]. pose proof (I1 n) as H1. destruct (copy w1 n) as [a n1].
    pose proof (I2 n1) as H2. destruct (copy w2 n1) as [b n2]. apply Forall_app. by split.
  - apply Forall_cons in IH as [I1 _]. pose proof (I1 n) as H1. destruct (copy w n) as [a n1]. exact H1.
Qed.

(** * The barrier *)

(** What is stored is on the heap, or the open regions have been poisoned. *)
Lemma publish_heap_or_poison exit_text v s n : region_stack s <> [] -> scannable v ->
  let '(v', s', _) := publish_value exit_text value_eq value_cmp fresh v s n in
  s' = s /\ region_free v' \/ v' = v /\ s' = poison_active_regions s.
Proof.
  intros Hopen Hsc. unfold publish_value, region_stack_depth. destruct (region_stack s) as [|r st] eqn:Hst; [done|]. cbn [length Nat.eqb].
  destruct (scan v) eqn:Hs; [left|..].
  - split; [done|]. apply Forall_forall. intros p Hp. destruct (is_region_alloc p) eqn:Hr; [|done].
    apply (proj1 (Forall_forall _ _) (scan_clean v Hs)). by apply Hsc.
  - destruct (serialize exit_text v) as [e|w]; [by right|]. pose proof (copy_region_free w n) as Hc.
    destruct (deserialize value_eq value_cmp fresh w n) as [v' n']. by left.
  - by right.
Qed.

End Copies.

(** * Regions that are kept *)

Definition starts (ops : list RegionOp) : list nat := omap (fun o => match o with Start r => Some r | _ => None end) ops.

(** Every region that was started is open, retired or dropped. *)
Definition region_ids (s : Flags) : list nat := map fst (open_regions s) ++ retired s ++ dropped s.

Lemma flags_end_ids s : region_ids (flags_end s) ≡ₚ region_ids s.
Proof. unfold region_ids, flags_end. destruct (open_regions s) as [|[r []] o] eqn:Ho; cbn; [by rewrite Ho|solve_Permutation..]. Qed.

Lemma flags_iter_ids n s : region_ids (Nat.iter n flags_end s) ≡ₚ region_ids s.
Proof. induction n as [|n IH]; [done|]. cbn. by rewrite flags_end_ids. Qed.

Lemma step_flags_ids s o : region_ids (step_flags s o) ≡ₚ starts [o] ++ region_ids s.
Proof.
  destruct o; cbn; try done; try apply flags_iter_ids; [apply flags_end_ids|]. unfold region_ids, flags_poison. cbn. by rewrite map_map.
Qed.

Lemma run_flags_ids ops s : region_ids (fold_left step_flags ops s) ≡ₚ starts ops ++ region_ids s.
Proof.
  revert s. induction ops as [|o ops IH]; intros s; [done|]. cbn [fold_left]. rewrite IH, step_flags_ids.
  assert (Hs : starts (o :: ops) = starts [o] ++ starts ops) by (by destruct o). rewrite Hs. solve_Permutation.
Qed.

(** A flagged region stays open with its flag, or has been retired. *)
Definition kept_region (r : nat) (s : Flags) : Prop := (r, true) ∈ open_regions s \/ r ∈ retired s.

Lemma kept_end r s : kept_region r s -> kept_region r (flags_end s).
Proof.
  unfold kept_region, flags_end. destruct (open_regions s) as [|[r' []] o] eqn:Ho; cbn; [by rewrite Ho|..]; rewrite elem_of_cons; [rewrite elem_of_cons|]; naive_solver.
Qed.

Lemma kept_iter r n s : kept_region r s -> kept_region r (Nat.iter n flags_end s).
Proof. intros H. induction n; [done|]. cbn. by apply kept_end. Qed.

Lemma kept_step r s o : kept_region r s -> kept_region r (step_flags s o).
Proof.
  intros H. destruct o; cbn; [|by apply kept_end| |by apply kept_iter..].
  - destruct H as [H|H]; [left; cbn; apply elem_of_cons; by right|by right].
  - destruct H as [H|H]; [left|by right]. cbn. apply list_elem_of_fmap. by exists (r, true).
Qed.

Lemma kept_run r ops s : kept_region r s -> kept_region r (fold_left step_flags ops s).
Proof. revert s. induction ops as [|o ops IH]; intros s H; [done|]. cbn. by apply IH, kept_step. Qed.

Lemma run_simulates ops c s : simulates c s -> simulates (fold_left step_rt ops c) (fold_left step_flags ops s).
Proof. revert c s. induction ops as [|o ops IH]; intros c s H; [done|]. cbn. by apply IH, simulates_step. Qed.

Lemma flagged_fst w st : map fst (flagged w st) = st.
Proof. induction st as [|r st IH]; cbn; congruence. Qed.

Definition no_regions : RtRegions := mkRt [] (mkRegions [] [] [] 0).

(** A region that is open when the regions are poisoned is never dropped. *)
Lemma poisoned_never_dropped ops ops' r : NoDup (starts (ops ++ ops')) ->
  r ∈ region_stack (rt_gc (fold_left step_rt ops no_regions)) ->
  r ∉ dropped_regions (rt_gc (fold_left step_rt ops' (step_rt (fold_left step_rt ops no_regions) Poison))).
Proof.
  intros Hn Hr. assert (H0 : simulates no_regions (mkFlags [] [] [])) by (by split_and!).
  pose proof (run_simulates ops _ _ H0) as H1. set (s := fold_left step_flags ops _) in *.
  assert (Hk : kept_region r (fold_left step_flags ops' (step_flags s Poison))).
  { apply kept_run. left. cbn. destruct H1 as (_ & _ & Ho & _). rewrite Ho, flagged_map. apply list_elem_of_fmap. by exists r. }
  pose proof (run_simulates (ops ++ Poison :: ops') _ _ H0) as H2. rewrite !fold_left_app in H2. cbn [fold_left] in H2. destruct H2 as (_ & _ & _ & _ & Hd).
  rewrite <- Hd. pose proof (run_flags_ids (ops ++ Poison :: ops') (mkFlags [] [] [])) as Hids.
  assert (Hst : starts (ops ++ Poison :: ops') = starts (ops ++ ops')) by (unfold starts; by rewrite !omap_app).
  rewrite Hst, app_nil_r in Hids. rewrite <- Hids in Hn. rewrite !fold_left_app in Hn. cbn [fold_left] in Hn. fold s in Hn, Hk |- *.
  unfold region_ids in Hn. apply NoDup_app in Hn as (_ & Hdis & Hn). apply NoDup_app in Hn as (_ & Hdis' & _). intros Hin.
  destruct Hk as [Hk|Hk]; [|by apply (Hdis' r)]. apply (Hdis r); [|by apply elem_of_app; right]. apply list_elem_of_fmap. by exists (r, true).
Qed.

(** C14: whatever compiled code did with regions before, and does after, a value
    that it publishes while they are open is stored in a form that never points
    into a dropped region: every pointer of the stored value leads to the heap,
    or into a region that is open or retired.  The pointers of the value lead to
    the heap or to regions that are open, and those into regions are in parts of
    the value that the scan comes to ([scannable]); it does not come to the causes
    of errors and the comparators of sorted collections, and a pointer into a region
    in one of these dangles ([cause_not_scanned], [comparator_not_scanned]). *)
Theorem published_never_dangles exit_text value_eq value_cmp fresh owner ops ops' v n :
  (forall m, is_region_alloc (fresh m) = false) -> NoDup (starts (ops ++ ops')) -> scannable v ->
  let c := fold_left step_rt ops no_regions in
  (forall p, p ∈ pointers true v -> is_region_alloc p = true -> owner p ∈ region_stack (rt_gc c)) ->
  let '(v', g, _) := publish_value exit_text value_eq value_cmp fresh v (rt_gc c) n in
  let c' := fold_left step_rt ops' (mkRt (rt_region_stack c) g) in
  forall p, p ∈ pointers true v' -> is_region_alloc p = true -> owner p ∉ dropped_regions (rt_gc c').
Proof.
  intros Hf Hn Hsc c Hown. destruct (decide (region_stack (rt_gc c) = [])) as [Hempty|Hopen].
  - unfold publish_value, region_stack_depth. rewrite Hempty. cbn. intros p Hp Hr. specialize (Hown p Hp Hr). rewrite Hempty in Hown. by apply elem_of_nil in Hown.
  - pose proof (publish_heap_or_poison value_eq value_cmp fresh Hf exit_text v (rt_gc c) n Hopen Hsc) as Hpub.
    destruct (publish_value exit_text value_eq value_cmp fresh v (rt_gc c) n) as [[v' g] n']. destruct Hpub as [[-> Hfree]|[-> ->]]; cbv zeta.
    + intros p Hp Hr. pose proof (proj1 (Forall_forall _ _) Hfree p Hp) as Hh. unfold on_heap in Hh. congruence.
    + intros p Hp Hr. by apply (poisoned_never_dropped ops ops' (owner p) Hn), Hown.
Qed.

(** * What the scan does not come to *)

Definition word_eq (a b : Value) : bool := false.
Definition word_cmp (a b : Value) : comparison := Gt.
Definition new_box (n : nat) : Ptr := 16 * Z.of_nat n.
Definition one_open : Regions := mkRegions [0%nat] [] [] 0.

(** A string in a region: 4097 is the tagged address of its box. *)
Definition region_string : Value := Str 4097 [].

(** It is found clean as what a cause has thrown, and in what the comparator of a
    sorted map has captured. *)
Example cause_not_scanned :
  let v := Error 64 (mkInfo Unsupported [] None) [(80, mkInfo (Thrown region_string) [] None)] in
  publish_value (fun _ => []) word_eq word_cmp new_box v one_open 1 = (v, one_open, 1%nat) /\ 4097 ∈ pointers true v.
Proof. split; [reflexivity|]. refine (bool_decide_unpack _ _). vm_compute. exact I. Qed.

Example comparator_not_scanned :
  let v := Map (MSortedBy 64 (Callable Fn 80 [region_string]) []) in
  publish_value (fun _ => []) word_eq word_cmp new_box v one_open 1 = (v, one_open, 1%nat) /\ 4097 ∈ pointers true v.
Proof. split; [reflexivity|]. refine (bool_decide_unpack _ _). vm_compute. exact I. Qed.

(** Publishing a vector of a region replaces the delay, the var and the sorted
    map it holds: by the value, by another var and by an array map. *)
Example publishing_changes_values :
  let delay := Delay 64 (DForced (Long 1)) in
  let var := VarRef 80 (mkVar [97] [98] false true (Some 7)) in
  let sorted := Map (MSortedBy 96 (Callable Fn 112 []) [(Long 2, Nil)]) in
  (publish_value (fun _ => []) word_eq word_cmp new_box (Vector 4097 [delay; var; sorted]) one_open 1).1.1 =
  Vector 48 [Long 1; VarRef 16 (mkVar [97] [98] false true (Some 7)); Map (MArray 32 [(Long 2, Nil)])].
Proof. reflexivity. Qed.

(** Compiled code opens region 1, publishes a string of the region, and leaves
    it; another value cannot be copied, and region 2 is retired for it. *)
Definition owner_of (p : Ptr) : nat := if p =? 4097 then 1%nat else 2%nat.

Lemma published_never_dangles_witness :
  let c := fold_left step_rt [Start 1%nat] no_regions in
  let '(v', g, _) := publish_value (fun _ => []) word_eq word_cmp new_box (List 4097 [region_string; Cell Atom 64]) (rt_gc c) 1 in
  let c' := fold_left step_rt [End_; Start 2%nat; End_] (mkRt (rt_region_stack c) g) in
  (forall p, p ∈ pointers true v' -> is_region_alloc p = true -> owner_of p ∉ dropped_regions (rt_gc c')) /\ dropped_regions (rt_gc c') = [2%nat].
Proof.
  assert (Hsc : scannable (List 4097 [region_string; Cell Atom 64])) by (intros p Hp _; exact Hp).
  assert (Hown : forall p, p ∈ pointers true (List 4097 [region_string; Cell Atom 64]) -> is_region_alloc p = true -> owner_of p ∈ [1%nat]).
  { intros p Hp Hr. cbn in Hp. rewrite !elem_of_cons, elem_of_nil in Hp. destruct Hp as [->|[->|[->|[]]]]; [by apply elem_of_cons; left..|done]. }
  assert (Hnew : forall m, is_region_alloc (new_box m) = false).
  { intros m. unfold new_box. replace (16 * Z.of_nat m) with (Z.shiftl (Z.of_nat m) 4) by (rewrite Z.shiftl_mul_pow2; lia).
    unfold is_region_alloc, REGION_PTR_TAG. change 1 with (Z.ones 1). rewrite Z.land_ones, Z.shiftl_mul_pow2 by lia.
    change (2 ^ 4) with (8 * 2 ^ 1). rewrite Z.mul_assoc, Z.mod_mul by lia. done. }
  pose proof (published_never_dangles (fun _ => []) word_eq word_cmp new_box owner_of [Start 1%nat] [End_; Start 2%nat; End_]
    (List 4097 [region_string; Cell Atom 64]) 1 Hnew ltac:(refine (bool_decide_unpack _ _); vm_compute; exact I) Hsc Hown) as H.
  split; [exact H|reflexivity].
Defined.
